(* ===== verification/_CoqProject ===== *)
-Q . S2P
Prelude.v
Conc.v
Cursor.v
Ring.v
Bwos.v
BwosInv.v
BwosOwner.v
BwosConc.v
BwosThreads.v
BwosSpec.v
TimerQueue.v
TimerHeap.v
TimerSpec.v
Bbq.v
BbqSpec.v
Park.v
ParkInv.v
ParkSteps.v
ParkThreads.v
ParkTask.v
ParkSpec.v
Sums.v
Circle.v
Join.v
JoinSpec.v
Slots.v
SlotsSpec.v
Mpsc.v
MpscSpec.v
Facade.v
Coro.v
CoroSpec.v
SocketAddress.v
Pool.v
PoolInv.v
PoolSpec.v
StackMem.v
Parker.v
ParkerSpec.v
Dispatch.v
DispatchInv.v
DispatchRules.v
DispatchWake.v
DispatchOps.v
DispatchSpec.v
StopSource.v
ExecWait.v
ExecWaitSpec.v
ExecTimer.v
ExecTimerSpec.v
SpinLock.v
WaitList.v
Waiting.v
WaitingInv.v
WaitingRules.v
Semaphore.v
SemaphoreSpec.v
WaitGroup.v
CondVar.v
CondVarSpec.v
Channel.v
ChannelSpec.v
Source.v
SourceSpec.v
SourceKnow.v
Completion.v
Stream.v
Mailbox.v
Sources.v
SourcesWait.v
SourcesSpec.v
Registration.v
RegistrationSpec.v
RegistrationPool.v
Poller.v
PollerSpec.v
Epoll.v
EpollSpec.v
Vectors.v
ExecIo.v
