(* ===== verification/Prelude.v ===== *)
(** * stackfull: verification library (root file)

    stackfull is a C++14 library of stackful coroutines and what a program builds on
    them.  This development models it as Rocq definitions that run, and proves what
    its parts promise each other and their callers.

    ** The program and its model

    The layers, from the bottom up, with the files that model them.  A file named
    after a component holds its data and operations, in the order of the source; the
    files [...Inv], [...Rules], [...Steps], [...Threads], [...Ops] hold its invariant and
    proof rules, and [...Spec] (or the end of the file) the theorems and witnesses.

    - stack/ (memory for stacks): StackMem.v models MmapStackAllocator.cpp (the system
      calls and the views they return, [mmap_allocate_balanced]) and StackLayout.h
      ([carveStack_layout]).  Pool.v, PoolInv.v, PoolSpec.v model
      PooledStackAllocator: thread caches, shared pool, reserve, over an upstream
      allocator that is a parameter and may give more than it was asked for; a stack is in
      one place at a time and none leaks ([pool_exactly_once], [pool_no_leak]), as long as
      [reserve] is asked for sizes that upstream does not round up further and that do not
      round up to 0 ([pool_reserve_rounded], [pool_reserve_zero_race]).
    - coro/ (Coroutine.h, its control block and switch path): Coro.v, CoroSpec.v.  The saved
      machine context is a continuation and the code of a coroutine a tree of the
      calls it makes.  Coroutines nest, are destroyed once, have the documented states,
      and see their own exception globals ([coro_safe], [coro_states]); [resume] returns with
      the coroutine suspended or done and throws what escaped from it ([coro_resume_post]);
      a coroutine that resumes its resumer is not caught ([coro_resume_cycle]).
    - queue/: Cursor.v (PackedCursor.h), Ring.v (RingQueue.h), Bwos*.v (BwosQueue.h), Bbq*.v
      (BbqQueue.h).  Run alone they are FIFO queues; used concurrently, RingQueue and
      BwosQueue hand out every value exactly once, in bounds.
    - sched/: TimerQueue.v, TimerHeap.v, TimerSpec.v (the timer heap); Park*.v (tasks, the
      wake-token slab, park and wake, release: SchedulerCore, Runtime.h, ThisTask.h,
      WakeToken.cpp); Slots.v (slot caches, live counts); Mpsc.v (MpscQueue.h); Join.v
      (JoinHandle, JoinState); Parker.v (both parkers); Dispatch*.v (workers: placement,
      stealing, spinning, sleeping, waking, timekeeping: Worker.cpp,
      SchedulerCore.cpp); Facade.v (Scheduler.cpp: life cycle, statistics, stall monitor).
    - sync/: SpinLock.v; WaitList.v (the intrusive list, Waiter.h) and Waiting*.v (waiters, guards,
      notification) with Semaphore*.v (also Mutex), WaitGroup.v, CondVar*.v
      (ConditionVariable) and Channel*.v on top; Source.v, SourceSpec.v, SourceKnow.v (parties that leave their waker by value)
      with Completion.v, Stream.v, Mailbox.v and select (Select.h) on top, put
      together in Sources.v, SourcesWait.v, SourcesSpec.v.
    - io/: SocketAddress.v (SocketAddress.cpp); Registration.v, RegistrationSpec.v,
      RegistrationPool.v (Registration.cpp and the transfer loops of Async.cpp), Vectors.v
      (its transfers over several buffers); Poller*.v (PollPoller.cpp) and Epoll*.v
      (EpollPoller.cpp): no interest and no event is missed
      ([poll_no_missed_interest], [epoll_no_missed_event]).
    - exec/ (senders over the primitives): StopSource.v (what the sender library promises
      of its stop tokens); ExecWait*.v (detail/waiting_operation.hpp, sync.hpp, wait.hpp: an
      operation that waits and the task that waits for it), ExecTimer*.v (timer.hpp, over
      TimerQueue.v) and ExecIo.v (io.hpp, over Registration.v).  An operation is completed
      once and not used afterwards ([exec_wait_once]; [exec_timer_once], for times within the
      clock's range), and the calls of a transfer get the address after what was already
      moved ([async_transfer_contiguous]).

    ** How components meet

    A component uses another through what that one promises:
    - [Parker] (Parker.v) is a class with both implementations as instances; Dispatch.v
      relies on its token only.
    - Park.v proves the promise of park and wake (a wake-up makes the task run again,
      once); Waiting.v and Source.v start from it: a party has a token.
    - Dispatch.v takes the run queues as bags from which each entry comes out once,
      which is what Ring.v, Bwos*.v and Mpsc*.v prove, and the injection queue as a FIFO
      queue (see Limits); Park.v takes placement as one
      action, which is what Dispatch.v proves ([sched_exactly_once]).
    - [EventSource] and [Part] (Source.v) are the interface of a source to select, with
      laws that the three sources discharge.
    - [Kernel] (Registration.v) says what non-blocking calls and the poller do, with what
      holds only of streams ([streamed]), of pollers that report every arrival
      ([everyArrival]) and of armed interests as conditional laws; [PollKernel] (Poller.v) and [EpollKernel] (Epoll.v) what poll(2) and
      epoll(7) do, [StopSource] what the sender library's stop tokens do; an instance of each
      shows that its laws can hold.
    - ExecTimer.v runs the critical sections of TimerQueue.v and says what the owner
      of one entry sees of them ([view]).  ExecWait.v takes the primitive waited for as what
      the components of sync/ promise.
    - SpinLock.v shows that sections under a spin lock are atomic whatever they do
      ([spin_serialises]); that is why Source.v and TimerQueue.v take a section in one step.
      Waiting.v has the lock and the accesses under it as separate steps.

    ** Concurrency

    Conc.v has programs as trees of atomic actions, their interleavings ([pstep], [reach])
    for any number of threads, and a rely-guarantee logic with ghost state ([rg],
    [pool_ok_reach]); the same program run alone ([run]) is a function.  Interleaving
    semantics is sequential consistency: the C++ memory orders are not modelled.

    Three kinds of theorem are stated about pools: something is never so (safety);
    when everybody has returned, the outcome is right; and when nobody can move
    ([halted]), whoever has not returned waits for something that has not happened.
    The last is how the absence of lost wake-ups is stated: it holds of every
    reachable state, so no assumption on the scheduler of the threads is needed.
    [Fatal] stands for a failed check or a use of freed memory and is proved
    unreachable.

    ** Bounds and fuel

    Loops without a bound ([for (;;)], retry after a failed exchange, wait again after a
    wake-up) take fuel and end in [Starved] when it is used up.  Theorems hold for
    every amount of fuel, so they cover every finite run; [Starved] is not [halted], so
    a run that ended for want of fuel never counts as one that came to rest.  Loops
    over data are structural or have a measure ([timer_fireExpired], [bbq_refines_fifo],
    [channel_destroyed] show that they end).  Machine words have their width: [SizeT] for
    [size_t], 32 and 64 bits written out elsewhere; wrap-around is part of the
    definitions, and theorems that need a counter not to have wrapped say so
    (for Registration's event counts: fewer than 2^32 reports).

    ** Not modelled

    The assembly of fcontext and the compiler's runtime (sanitizers, the exception globals
    beyond their swap): not C++ code that a model of this kind can say anything about;
    threads are there, creating and joining them is not.  Sockets, name resolution and connect (io/) wrap
    system calls; the transfers they use are modelled.  runtime/ configures a scheduler and has no
    logic of its own.  Of exec/, schedule() and spawn() (scheduler.hpp, spawn.hpp) and in io.hpp datagrams and
    connect; the sender library itself is not part of the repository.  Tests, benchmarks and
    examples.

    ** Limits

    BbqQueue is verified as one thread uses it, for as long as its versions do not wrap; its
    concurrent use is not.  Pool.v takes it as a bag that may be found busy, empty or full at
    any time, Dispatch.v as a FIFO queue that may be found empty during a push.  The memory orders
    of the atomics are not modelled (see Concurrency). *)

From Stdlib Require Import ZArith Lia Sorted.
From stdpp Require Import base tactics list numbers strings sorting.

Declare Scope sf_scope.
Delimit Scope sf_scope with sf.
Open Scope Z_scope.

(** ** Machine words

    [std::size_t] is 64 bits wide on the 64-bit targets and 32 bits wide on
    armeabi-v7a; the width is a parameter, and every operation that can leave
    the range is written with its wrap-around. *)

Class SizeT := {
  SIZE_BITS : Z;
  SIZE_BITS_pos : 0 < SIZE_BITS
}.

Definition size_t_64 : SizeT := {| SIZE_BITS := 64; SIZE_BITS_pos := eq_refl |}.
Definition size_t_32 : SizeT := {| SIZE_BITS := 32; SIZE_BITS_pos := eq_refl |}.

(** [wrap w x]: the value of [x] stored in an unsigned [w]-bit variable. *)
Definition wrap (w x : Z) : Z := x mod 2 ^ w.

(** Arithmetic of [std::size_t]. *)
Definition szwrap `{SizeT} (x : Z) : Z := wrap SIZE_BITS x.
Notation "x +w y" := (szwrap (x + y)) (at level 50, left associativity) : sf_scope.
Notation "x -w y" := (szwrap (x - y)) (at level 50, left associativity) : sf_scope.
Notation "x <<w n" := (szwrap (Z.shiftl x n)) (at level 52, left associativity) : sf_scope.
Open Scope sf_scope.

Definition in_word (w x : Z) : Prop := 0 <= x < 2 ^ w.

Lemma pow2_pos (w : Z) : 0 <= w -> 0 < 2 ^ w.
Proof. intros. apply Z.pow_pos_nonneg; lia. Qed.

Lemma wrap_range (w x : Z) : 0 <= w -> in_word w (wrap w x).
Proof. intros. apply Z.mod_pos_bound. by apply pow2_pos. Qed.

Lemma wrap_small (w x : Z) : in_word w x -> wrap w x = x.
Proof. intros. by apply Z.mod_small. Qed.

Lemma szwrap_small `{SizeT} (x : Z) : 0 <= x < 2 ^ SIZE_BITS -> szwrap x = x.
Proof. apply wrap_small. Qed.

Lemma szwrap_range `{SizeT} (x : Z) : 0 <= szwrap x < 2 ^ SIZE_BITS.
Proof. apply wrap_range. pose proof SIZE_BITS_pos. lia. Qed.

Lemma word_two `{SizeT} : 2 <= 2 ^ SIZE_BITS.
Proof. pose proof SIZE_BITS_pos. change 2 with (2 ^ 1) at 1. apply Z.pow_le_mono_r; lia. Qed.

Lemma szwrap_pred0 `{SizeT} : 0 -w 1 = 2 ^ SIZE_BITS - 1.
Proof.
  pose proof word_two. unfold szwrap, wrap. rewrite Z.sub_0_l.
  rewrite Z.mod_opp_l_nz, Z.mod_small; rewrite ?Z.mod_small; lia.
Qed.

(** A word is never its own predecessor. *)
Lemma sub_one_ne `{SizeT} (x : Z) : x <> x -w 1.
Proof.
  intros Heq. pose proof word_two. pose proof (szwrap_range (x - 1)) as Hr. rewrite <- Heq in Hr.
  destruct (decide (x = 0)) as [->|]; [rewrite szwrap_pred0 in Heq|rewrite szwrap_small in Heq]; lia.
Qed.

(** A wrapped counter reduced modulo a smaller power of two. *)
Lemma wrap_mod_pow2 (w k x : Z) : 0 <= k <= w -> wrap w x mod 2 ^ k = x mod 2 ^ k.
Proof.
  intros. unfold wrap. apply Z.mod_mod_divide.
  exists (2 ^ (w - k)). rewrite <- Z.pow_add_r by lia. f_equal; lia.
Qed.

Lemma wrap_add_l (w x y : Z) : 0 <= w -> wrap w (wrap w x + y) = wrap w (x + y).
Proof. intros. unfold wrap. rewrite Zplus_mod_idemp_l. done. Qed.

Lemma wrap_sub (w x y : Z) : 0 <= w -> wrap w (wrap w x - wrap w y) = wrap w (x - y).
Proof. intros. unfold wrap. rewrite <- Zminus_mod. done. Qed.

(** Two numbers with the same residue that are closer than the modulus. *)
Lemma mod_eq_close (m x y : Z) :
  0 < m -> x mod m = y mod m -> Z.abs (x - y) < m -> x = y.
Proof.
  intros Hm E Ha.
  pose proof (Z.div_mod x m ltac:(lia)) as Ex.
  pose proof (Z.div_mod y m ltac:(lia)) as Ey. rewrite E in Ex.
  assert (Hd : x - y = m * (x / m - y / m)) by lia.
  destruct (Z.lt_trichotomy (x / m - y / m) 0) as [|[|]]; nia.
Qed.

(** [x & (2^k - 1)]. *)
Lemma land_pow2_mask (x k : Z) : 0 <= k -> Z.land x (2 ^ k - 1) = x mod 2 ^ k.
Proof.
  intros. replace (2 ^ k - 1) with (Z.ones k) by (rewrite Z.ones_equiv; lia).
  by apply Z.land_ones.
Qed.

(** [(v << k) | i] for an [i] that fits in the field. *)
Lemma lor_shiftl_add (v i k : Z) :
  0 <= k -> 0 <= i < 2 ^ k -> Z.lor (Z.shiftl v k) i = v * 2 ^ k + i.
Proof.
  intros Hk Hi. rewrite <- Z.lxor_lor.
  - rewrite <- Z.add_nocarry_lxor; [by rewrite Z.shiftl_mul_pow2|].
    apply Z.bits_inj'. intros n Hn. rewrite Z.land_spec, Z.bits_0.
    destruct (decide (n < k)).
    + by rewrite Z.shiftl_spec_low.
    + rewrite <- (Z.mod_small i (2 ^ k)) by done.
      rewrite Z.mod_pow2_bits_high by lia. apply andb_false_r.
  - apply Z.bits_inj'. intros n Hn. rewrite Z.land_spec, Z.bits_0.
    destruct (decide (n < k)).
    + by rewrite Z.shiftl_spec_low.
    + rewrite <- (Z.mod_small i (2 ^ k)) by done.
      rewrite Z.mod_pow2_bits_high by lia. apply andb_false_r.
Qed.

(** ** Lists used as fixed-size arrays *)

Section arrays.
Context {A : Type} `{!Inhabited A}.
Implicit Types (l : list A) (x : A).

(** [arr !!! i] reads an array cell; the components check the index against
    the array's length before they use it. *)
Lemma insert_total_eq l i x : (i < length l)%nat -> <[i:=x]> l !!! i = x.
Proof. apply list_lookup_total_insert_eq. Qed.

Lemma insert_total_ne l i j x : i <> j -> <[i:=x]> l !!! j = l !!! j.
Proof. apply list_lookup_total_insert_ne. Qed.

Lemma lookup_total_Some l i x : l !! i = Some x -> l !!! i = x.
Proof. intros H. rewrite list_lookup_total_alt, H. done. Qed.

Lemma lookup_lt_total l i : (i < length l)%nat -> l !! i = Some (l !!! i).
Proof. apply list_lookup_lookup_total_lt. Qed.
End arrays.

(** [x :: firstn], [skipn] and prefix facts on logs. *)
Lemma take_S_lookup {A} (l : list A) n x :
  l !! n = Some x -> take (S n) l = take n l ++ [x].
Proof. apply take_S_r. Qed.

Lemma skipn_cons_lookup {A} (l : list A) n x r :
  drop n l = x :: r -> l !! n = Some x.
Proof. intros H. rewrite <- (Nat.add_0_r n), <- lookup_drop, H. done. Qed.

Lemma seqZ_sorted m n : StronglySorted Z.lt (seqZ m n).
Proof.
  destruct (decide (0 <= n)); [|rewrite seqZ_nil by lia; constructor].
  rewrite <- (Z2Nat.id n) by done. generalize (Z.to_nat n). clear. intros n. revert m.
  induction n as [|n IH]; intros m; [rewrite seqZ_nil by lia; constructor|].
  rewrite seqZ_cons by lia.
  replace (Z.pred (Z.of_nat (S n))) with (Z.of_nat n) by lia. constructor; [apply IH|].
  apply Forall_forall. intros x Hx. apply elem_of_seqZ in Hx. lia.
Qed.

(** Conjunctions that differ only under their first part. *)
Lemma and_iff_compat_l_iff (P Q R : Prop) : (P -> (Q <-> R)) -> (P /\ Q <-> P /\ R).
Proof. tauto. Qed.

(** ** Automation *)

Create HintDb sf.
#[export] Hint Resolve pow2_pos : sf.
#[export] Hint Resolve insert_total_eq insert_total_ne : sf.

(** [lia] with division and modulo by constants. *)
Ltac dlia := Z.div_mod_to_equations; lia.

Ltac inv_clear H := inversion H; subst; clear H.

(** Split the conjunctions of the goal and try the closing tactics. *)
Ltac splits := repeat match goal with |- _ /\ _ => split end.

(** Case on the outermost [match]/[if] of the goal or a hypothesis. *)
Ltac case_goal :=
  match goal with
  | |- context [match ?x with _ => _ end] => let E := fresh "E" in destruct x eqn:E
  end.
Ltac case_hyp H :=
  match type of H with
  | context [match ?x with _ => _ end] => let E := fresh "E" in destruct x eqn:E
  end.

(** Boolean comparisons to propositions, in every hypothesis. *)
Ltac bool_to_prop :=
  repeat match goal with
  | H : (_ =? _) = true |- _ => apply Z.eqb_eq in H
  | H : (_ =? _) = false |- _ => apply Z.eqb_neq in H
  | H : (_ <? _) = true |- _ => apply Z.ltb_lt in H
  | H : (_ <? _) = false |- _ => apply Z.ltb_ge in H
  | H : (_ <=? _) = true |- _ => apply Z.leb_le in H
  | H : (_ <=? _) = false |- _ => apply Z.leb_gt in H
  | H : (_ >=? _) = true |- _ => rewrite Z.geb_leb in H
  | H : (_ >=? _) = false |- _ => rewrite Z.geb_leb in H
  | H : (_ >? _) = true |- _ => rewrite Z.gtb_ltb in H
  | H : (_ >? _) = false |- _ => rewrite Z.gtb_ltb in H
  | H : (_ && _)%bool = true |- _ => apply andb_true_iff in H as [? ?]
  | H : (_ || _)%bool = false |- _ => apply orb_false_iff in H as [? ?]
  | H : negb _ = true |- _ => apply negb_true_iff in H
  | H : negb _ = false |- _ => apply negb_false_iff in H
  end.

(** Case on an integer comparison in the goal; impossible cases close by [lia]. *)
Ltac zcase :=
  match goal with
  | |- context [?a =? ?b] => destruct (Z.eqb_spec a b)
  | |- context [?a <? ?b] => destruct (Z.ltb_spec a b)
  | |- context [?a <=? ?b] => destruct (Z.leb_spec a b)
  | |- context [?a >=? ?b] => destruct (Z.geb_spec a b)
  | |- context [?a >? ?b] => destruct (Z.gtb_spec a b)
  end; try (exfalso; lia).
