(* ===== verification/Conc.v ===== *)
(** * Concurrent programs: syntax, interleaving, rely-guarantee

    The lock-free parts of the library are sequences of atomic accesses to a
    shared state, run by several threads at once.  [prog S A] is such a
    sequence: a tree of atomic actions on a state [S] that ends with a value
    of type [A].  The same term has two readings:
    - [run]: alone, from a state, taking the first outcome of every action;
    - [pstep]: one thread of a pool, interleaved with the others in every order.

    An action gives the list of its outcomes: one for a load, a store or a
    read-modify-write; two for a [compare_exchange_weak] that may fail although
    the values match; none while the action cannot be taken (a lock that is
    held, a futex that waits).  Atomic accesses are interleaved, that is, the
    memory is sequentially consistent; the C++ memory orders are not part of
    the model.

    Loops that C++ writes [for (;;)] take fuel and end in [Starved] when it
    is used up; a safety theorem for every amount of fuel covers every finite
    execution.  [Fatal] is [STACKFULL_CHECK] failing, or an access outside an
    array: the logic below proves both unreachable.

    [rg] is a rely-guarantee logic with ghost state for such programs, and
    [pool_ok_reach] its soundness for pools of any number of threads. *)

From stdpp Require Import base tactics list relations strings.
From S2P Require Import Prelude.

(** ** Programs *)

Inductive prog (S A : Type) : Type :=
| Ret (a : A)
| Act (X : Type) (f : S -> list (S * X)) (k : X -> prog S A)
| Starved
| Fatal (msg : string).
Arguments Ret {S A} a.
Arguments Act {S A} X f k.
Arguments Starved {S A}.
Arguments Fatal {S A} msg%_string_scope.

Fixpoint bind {S A B} (p : prog S A) (q : A -> prog S B) : prog S B :=
  match p with
  | Ret a => q a
  | Act X f k => Act X f (fun x => bind (k x) q)
  | Starved => Starved
  | Fatal m => Fatal m
  end.

Declare Scope prog_scope.
Delimit Scope prog_scope with prog.
Notation "x <- p ;; q" := (bind p (fun x => q))
  (at level 100, p at next level, right associativity) : prog_scope.
Notation "p ;;; q" := (bind p (fun _ => q))
  (at level 100, right associativity) : prog_scope.
Open Scope prog_scope.

(** ** Atomic accesses *)
Section accesses.
Context {S : Type}.

Definition load {X} (get : S -> X) : prog S X := Act X (fun s => [(s, get s)]) Ret.
Definition store (put : S -> S) : prog S unit := Act unit (fun s => [(put s, tt)]) Ret.
(** exchange, fetch_add, fetch_or, ... *)
Definition rmw {X} (f : S -> S * X) : prog S X := Act X (fun s => [f s]) Ret.

Context {V : Type} `{!EqDecision V}.

(** [compare_exchange_strong(expected, desired)]: whether it exchanged, and
    the value it found ([expected] is updated with it on failure). *)
Definition cas (get : S -> V) (put : V -> S -> S) (expected desired : V) : prog S (bool * V) :=
  Act (bool * V) (fun s =>
    if decide (get s = expected) then [(put desired s, (true, get s))]
    else [(s, (false, get s))]) Ret.

(** [compare_exchange_weak]: may also fail when the values match. *)
Definition cas_weak (get : S -> V) (put : V -> S -> S) (expected desired : V) : prog S (bool * V) :=
  Act (bool * V) (fun s =>
    if decide (get s = expected)
    then [(put desired s, (true, get s)); (s, (false, get s))]
    else [(s, (false, get s))]) Ret.

(** An array access outside its bounds is undefined behaviour. *)
Definition check (b : bool) (msg : string) : prog S unit :=
  if b then Ret tt else Fatal msg.
End accesses.
Arguments check {S} b msg%_string_scope.

(** ** Running alone *)

Inductive outcome (A : Type) : Type :=
| Done (a : A)
| Blocked
| NoFuel
| Aborted (msg : string).
Arguments Done {A} a.
Arguments Blocked {A}.
Arguments NoFuel {A}.
Arguments Aborted {A} msg.

Fixpoint run {S A} (p : prog S A) (s : S) : S * outcome A :=
  match p with
  | Ret a => (s, Done a)
  | Act X f k =>
      match f s with
      | [] => (s, Blocked)
      | (s', x) :: _ => run (k x) s'
      end
  | Starved => (s, NoFuel)
  | Fatal m => (s, Aborted m)
  end.

Lemma run_bind {S A B} (p : prog S A) (q : A -> prog S B) s :
  run (bind p q) s =
  match run p s with
  | (s', Done a) => run (q a) s'
  | (s', Blocked) => (s', Blocked)
  | (s', NoFuel) => (s', NoFuel)
  | (s', Aborted m) => (s', Aborted m)
  end.
Proof.
  revert s. induction p as [a|X f k IH| |m]; intros s; simpl; try done.
  destruct (f s) as [|[s' x] ?]; [done|apply IH].
Qed.

Lemma run_ret {S A} (a : A) (s : S) : run (Ret a) s = (s, Done a).
Proof. done. Qed.
Lemma run_load {S X} (get : S -> X) s : run (load get) s = (s, Done (get s)).
Proof. done. Qed.
Lemma run_store {S} (put : S -> S) s : run (store put) s = (put s, Done tt).
Proof. done. Qed.
Lemma run_rmw {S X} (f : S -> S * X) s : run (rmw f) s = ((f s).1, Done (f s).2).
Proof. unfold rmw; simpl. by destruct (f s). Qed.
Lemma run_cas_eq {S V} `{!EqDecision V} (get : S -> V) put e d s :
  get s = e -> run (cas get put e d) s = (put d s, Done (true, get s)).
Proof. intros He. unfold cas; simpl. by rewrite decide_True by done. Qed.
Lemma run_cas_ne {S V} `{!EqDecision V} (get : S -> V) put e d s :
  get s <> e -> run (cas get put e d) s = (s, Done (false, get s)).
Proof. intros He. unfold cas; simpl. by rewrite decide_False by done. Qed.
Lemma run_cas_weak_eq {S V} `{!EqDecision V} (get : S -> V) put e d s :
  get s = e -> run (cas_weak get put e d) s = (put d s, Done (true, get s)).
Proof. intros He. unfold cas_weak; simpl. by rewrite decide_True by done. Qed.
Lemma run_cas_weak_ne {S V} `{!EqDecision V} (get : S -> V) put e d s :
  get s <> e -> run (cas_weak get put e d) s = (s, Done (false, get s)).
Proof. intros He. unfold cas_weak; simpl. by rewrite decide_False by done. Qed.
Lemma run_check {S} (b : bool) m (s : S) : b = true -> run (check b m) s = (s, Done tt).
Proof. by intros ->. Qed.

Create HintDb run.
#[export] Hint Rewrite @run_bind @run_ret @run_load @run_store @run_rmw : run.

(** Symbolic execution of a program that runs alone. *)
Ltac run_steps := repeat first [progress autorewrite with run | progress cbn beta iota].

(** ** Interleaving *)

Definition config (S A : Type) : Type := list (prog S A) * S.

(** Thread [i] takes one action. *)
Inductive pstep {S A} : config S A -> config S A -> Prop :=
| pstep_act (i : nat) (ts : list (prog S A)) (X : Type) f k s s' (x : X) :
    ts !! i = Some (Act X f k) ->
    (s', x) ∈ f s ->
    pstep (ts, s) (<[i := k x]> ts, s').

Definition reach {S A} : config S A -> config S A -> Prop := rtc pstep.

(** Every thread has returned. *)
Definition finished {S A} (ts : list (prog S A)) (rs : list A) : Prop :=
  ts = Ret <$> rs.

(** Executable schedules: which thread moves, and which outcome it gets. *)
Definition sched_step {S A} (c : config S A) (ij : nat * nat) : option (config S A) :=
  match c.1 !! ij.1 with
  | Some (Act X f k) =>
      match f c.2 !! ij.2 with
      | Some (s', x) => Some (<[ij.1 := k x]> c.1, s')
      | None => None
      end
  | _ => None
  end.

Fixpoint run_sched {S A} (l : list (nat * nat)) (c : config S A) : option (config S A) :=
  match l with
  | [] => Some c
  | ij :: l' => match sched_step c ij with Some c' => run_sched l' c' | None => None end
  end.

Lemma run_sched_reach {S A} l (c c' : config S A) : run_sched l c = Some c' -> reach c c'.
Proof.
  revert c. induction l as [|[i j] l IH]; intros [ts s]; simpl.
  - intros [= <-]. apply rtc_refl.
  - unfold sched_step; simpl. destruct (ts !! i) as [[| X f k | |]|] eqn:Ei; try done.
    destruct (f s !! j) as [[s' x]|] eqn:Ej; [|done].
    intros H. eapply rtc_l; [|by apply IH].
    econstructor; [done|]. eapply list_elem_of_lookup_2; eauto.
Qed.

(** As [run_sched], passing over threads that cannot move. *)
Fixpoint run_avail {S A} (l : list (nat * nat)) (c : config S A) : config S A :=
  match l with
  | [] => c
  | ij :: l' => run_avail l' (default c (sched_step c ij))
  end.

Lemma run_avail_reach {S A} l (c c' : config S A) : run_avail l c = c' -> reach c c'.
Proof.
  revert c. induction l as [|[i j] l IH]; intros c; simpl.
  - intros <-. apply rtc_refl.
  - destruct (sched_step c (i, j)) as [c1|] eqn:E; simpl; [|by apply IH].
    intros Hc. transitivity c1; [|by apply IH].
    apply (run_sched_reach [(i, j)]). simpl. by rewrite E.
Qed.

(** Thread after thread, round after round, always the first outcome. *)
Definition round_robin (threads rounds : nat) : list (nat * nat) :=
  mjoin (replicate rounds ((fun i => (i, 0%nat)) <$> seq 0 threads)).

Lemma reach_length {S A} (c c' : config S A) : reach c c' -> length c.1 = length c'.1.
Proof.
  induction 1 as [|? ? ? Hstep _ IH]; [done|]. rewrite <- IH.
  destruct Hstep. simpl. by rewrite length_insert.
Qed.

(** A thread that has returned or waits. *)
Definition halted {S} (s : S) (th : prog S unit) : Prop :=
  th = Ret tt \/ exists X f k, th = Act X f k /\ f s = [].

Definition returnedb {S} (th : prog S unit) : bool := match th with Ret _ => true | _ => false end.
Definition haltedb {S} (s : S) (th : prog S unit) : bool :=
  match th with
  | Ret _ => true
  | Act X f k => match f s with [] => true | _ => false end
  | _ => false
  end.

Lemma haltedb_all {S} (s : S) ts : forallb (haltedb s) ts = true -> forall i th, ts !! i = Some th -> halted s th.
Proof.
  intros H i th Hi. rewrite List.forallb_forall in H.
  assert (haltedb s th = true) as Hh by (apply H, list_elem_of_In; by eapply list_elem_of_lookup_2).
  destruct th as [[]|X f k| |]; simpl in Hh; [by left|right|done..]. exists X, f, k. split; [done|]. by destruct (f s).
Qed.

Lemma returnedb_all {S} (ts : list (prog S unit)) : forallb returnedb ts = true -> forall i th, ts !! i = Some th -> th = Ret tt.
Proof.
  intros H i th Hi. rewrite List.forallb_forall in H.
  assert (returnedb th = true) as Hh by (apply H, list_elem_of_In; by eapply list_elem_of_lookup_2).
  by destruct th as [[]| | |].
Qed.

(** The same, for threads that return a value. *)
Definition resting {S A} (s : S) (th : prog S A) : Prop :=
  (exists a, th = Ret a) \/ exists X f k, th = Act X f k /\ f s = [].

Definition restingb {S A} (s : S) (th : prog S A) : bool :=
  match th with
  | Ret _ => true
  | Act X f k => match f s with [] => true | _ => false end
  | _ => false
  end.

Lemma restingb_all {S A} (s : S) (ts : list (prog S A)) :
  forallb (restingb s) ts = true -> forall i th, ts !! i = Some th -> resting s th.
Proof.
  intros H i th Hi. rewrite List.forallb_forall in H.
  assert (restingb s th = true) as Hh by (apply H, list_elem_of_In; by eapply list_elem_of_lookup_2).
  destruct th as [a|X f k| |]; simpl in Hh; [left; by exists a|right|done..]. exists X, f, k. split; [done|]. by destruct (f s).
Qed.

(** Running alone is one of the interleavings. *)
Lemma run_reach {S A} (p : prog S A) s s' a ts i :
  ts !! i = Some p -> run p s = (s', Done a) -> reach (ts, s) (<[i := Ret a]> ts, s').
Proof.
  revert s ts. induction p as [b|X f k IH| |m]; intros s ts Hi; simpl; try done.
  - intros [= <- <-]. rewrite list_insert_id by done. apply rtc_refl.
  - destruct (f s) as [|[s1 x] r] eqn:E; [done|]. intros Hrun.
    eapply rtc_l.
    + eapply pstep_act; [done|]. rewrite E. left.
    + pose proof (IH x s1 (<[i := k x]> ts)) as H. rewrite list_insert_insert_eq in H.
      apply H; [|done]. apply list_lookup_insert_eq. by eapply lookup_lt_Some.
Qed.

(** ** Rely-guarantee with ghost state *)

Section rely_guarantee.
Context {S G : Type}.

Definition asrt : Type := S -> G -> Prop.

(** What a component promises about the shared state: an invariant, for every
    thread the transitions it may cause, and when it may wait, that is, be at
    an action that cannot be taken. *)
Record protocol := WaitProtocol {
  Inv : S -> G -> Prop;
  guar : nat -> S * G -> S * G -> Prop;
  may_wait : nat -> S -> G -> Prop
}.

(** Threads that never wait. *)
Definition Protocol (I : S -> G -> Prop) (T : nat -> S * G -> S * G -> Prop) : protocol :=
  WaitProtocol I T (fun _ _ _ => False).

Context (R : protocol).

(** An assertion of thread [i] that no other thread can falsify. *)
Definition stable (i : nat) (P : asrt) : Prop :=
  forall j s g s' g', j <> i -> Inv R s g -> Inv R s' g' ->
    guar R j (s, g) (s', g') -> P s g -> P s' g'.

(** [rg i p P Q]: thread [i] may run [p] from [P]; every action keeps the
    invariant and is allowed by the guarantee, after a ghost update of the
    prover's choice; [Q] holds of the result. *)
Fixpoint rg {A} (i : nat) (p : prog S A) (P : asrt) (Q : A -> asrt) : Prop :=
  match p with
  | Ret a => forall s g, Inv R s g -> P s g -> Q a s g
  | Act X f k =>
      (forall s g, Inv R s g -> P s g -> f s = [] -> may_wait R i s g) /\
      forall s g s' x, Inv R s g -> P s g -> (s', x) ∈ f s ->
      exists g' (P' : asrt),
        Inv R s' g' /\ guar R i (s, g) (s', g') /\ P' s' g' /\ stable i P' /\
        rg i (k x) P' Q
  | Starved => True
  | Fatal _ => forall s g, Inv R s g -> P s g -> False
  end.

Lemma stable_and i P P' : stable i P -> stable i P' -> stable i (fun s g => P s g /\ P' s g).
Proof. intros H1 H2 j s g s' g' ? ? ? ? [? ?]. split; eauto. Qed.

Lemma stable_const i (P : Prop) : stable i (fun _ _ => P).
Proof. by intros j s g s' g' ? ? ? ? ?. Qed.

Lemma rg_weaken {A} i (p : prog S A) (P P' : asrt) (Q Q' : A -> asrt) :
  (forall s g, Inv R s g -> P' s g -> P s g) ->
  (forall a s g, Inv R s g -> Q a s g -> Q' a s g) ->
  rg i p P Q -> rg i p P' Q'.
Proof.
  intros HP HQ. revert P P' HP. induction p as [a|X f k IH| |m]; intros P P' HP; simpl; eauto.
  intros [Hw H]. split; [eauto|]. intros s g s' x HI HP' Hx.
  destruct (H s g s' x) as (g' & P1 & ? & ? & ? & ? & ?); eauto.
  exists g', P1. splits; try done. eapply IH; [|done]. done.
Qed.

Lemma rg_pre {A} i (p : prog S A) (P P' : asrt) (Q : A -> asrt) :
  (forall s g, Inv R s g -> P' s g -> P s g) -> rg i p P Q -> rg i p P' Q.
Proof. intros. by eapply rg_weaken. Qed.

Lemma rg_bind {A B} i (p : prog S A) (q : A -> prog S B) P M Q :
  rg i p P M -> (forall a, rg i (q a) (M a) Q) -> rg i (bind p q) P Q.
Proof.
  intros Hp Hq. revert P Hp. induction p as [a|X f k IH| |m]; intros P Hp; simpl in *; eauto.
  - eapply rg_weaken; [| |apply (Hq a)]; eauto.
  - destruct Hp as [Hw Hp]. split; [done|]. intros s g s' x HI HP Hx.
    destruct (Hp s g s' x HI HP Hx) as (g' & P1 & ? & ? & ? & ? & ?).
    exists g', P1. splits; eauto.
Qed.

Lemma rg_bind_assoc {A B C} i (p : prog S A) (q : A -> prog S B) (r : B -> prog S C) P Q :
  rg i (bind p (fun a => bind (q a) r)) P Q -> rg i (bind (bind p q) r) P Q.
Proof.
  revert P. induction p as [a|X f k IH| |m]; intros P; simpl; try done.
  intros [Hw H]. split; [done|]. intros s g s' x HI HP Hx.
  destruct (H s g s' x HI HP Hx) as (g' & P' & ? & ? & ? & ? & ?). exists g', P'. splits; eauto.
Qed.

Lemma rg_bind_mono {A B} i (p : prog S A) (q q' : A -> prog S B) P Q :
  (forall a P Q, rg i (q a) P Q -> rg i (q' a) P Q) -> rg i (bind p q) P Q -> rg i (bind p q') P Q.
Proof.
  intros Hq. revert P. induction p as [a|X f k IH| |m]; intros P; simpl; try done; [apply Hq|].
  intros [Hw H]. split; [done|]. intros s g s' x HI HP Hx.
  destruct (H s g s' x HI HP Hx) as (g' & P' & ? & ? & ? & ? & ?). exists g', P'. splits; eauto.
Qed.

Lemma rg_seq {A B} i (p : prog S A) (q : prog S B) P M Q :
  rg i p P (fun _ => M) -> rg i q M Q -> rg i (bind p (fun _ => q)) P Q.
Proof. intros Hp Hq. by eapply (rg_bind i p _ P (fun _ => M)). Qed.

Lemma rg_bind_ret {A} i (p : prog S A) P Q : rg i (bind p Ret) P Q -> rg i p P Q.
Proof.
  revert P. induction p as [a|X f k IH| |m]; intros P; simpl; try done.
  intros [Hw H]. split; [done|]. intros s g s' x HI HP Hx.
  destruct (H s g s' x HI HP Hx) as (g' & P' & ? & ? & ? & ? & ?). exists g', P'. splits; eauto.
Qed.

Lemma rg_seq_ret i (p : prog S unit) P Q : rg i (bind p (fun _ => Ret tt)) P Q -> rg i p P Q.
Proof.
  revert P. induction p as [[]|X f k IH| |m]; intros P; simpl; try done.
  intros [Hw H]. split; [done|]. intros s g s' x HI HP Hx.
  destruct (H s g s' x HI HP Hx) as (g' & P' & ? & ? & ? & ? & ?). exists g', P'. splits; eauto.
Qed.

(** A fact that no transition changes. *)
Lemma rg_frame {A} i (p : prog S A) P Q (F : asrt) :
  stable i F -> (forall s g s' g', guar R i (s, g) (s', g') -> F s g -> F s' g') ->
  rg i p P Q -> rg i p (fun s g => P s g /\ F s g) (fun a s g => Q a s g /\ F s g).
Proof.
  intros HF Hown. revert P. induction p as [a|X f k IH| |m]; intros P; simpl; try done.
  - intros H s g HI [? ?]. auto.
  - intros [Hw H]. split; [intros s g HI [? _]; auto|]. intros s g s' x HI [HP HFs] Hx.
    destruct (H s g s' x HI HP Hx) as (g' & P' & ? & ? & ? & ? & ?).
    exists g', (fun s g => P' s g /\ F s g). splits; try done; [by eapply Hown|by apply stable_and|by apply IH].
  - intros H s g HI [? _]. eauto.
Qed.

(** The precondition may be a family of facts. *)
Lemma rg_ex {A} i (p : prog S A) {T} (P : T -> asrt) Q :
  (forall t, rg i p (P t) Q) -> rg i p (fun s g => exists t, P t s g) Q.
Proof.
  intros H. destruct p as [a|X f k| |m]; simpl in *; [| |done|].
  - intros s g HI [t Ht]. by eapply H.
  - split; [intros s g HI [t Ht]; by eapply H|]. intros s g s' x HI [t Ht]. by eapply H.
  - intros s g HI [t Ht]. by eapply H.
Qed.

Lemma rg_pure {A} i (p : prog S A) (phi : Prop) P Q :
  (phi -> rg i p P Q) -> rg i p (fun s g => phi /\ P s g) Q.
Proof.
  intros H. destruct p as [a|X f k| |m]; simpl in *; [| |done|].
  - intros s g HI [? ?]. by apply H.
  - split; [intros s g HI [? ?]; by apply H|]. intros s g s' x HI [? ?]. by apply H.
  - intros s g HI [? ?]. by eapply H.
Qed.

Lemma rg_pure_from {A} i (p : prog S A) (phi : Prop) P Q :
  (forall s g, Inv R s g -> P s g -> phi) -> (phi -> rg i p P Q) -> rg i p P Q.
Proof.
  destruct p as [a|X f k| |m]; simpl; intros Hphi H; [| |done|].
  - intros s g; intros. eapply H; eauto.
  - split; [intros s g ? ? ?; eapply H; eauto|]. intros s g; intros. eapply H; eauto.
  - intros s g; intros. eapply H; eauto.
Qed.

(** *** Rules for the atomic accesses *)

Lemma rg_check {A} i (b : bool) m (k : unit -> prog S A) P Q :
  b = true -> rg i (k tt) P Q -> rg i (bind (check b m) k) P Q.
Proof. by intros ->. Qed.

Lemma rg_store {A} i (put : S -> S) (k : unit -> prog S A) P Q :
  (forall s g, Inv R s g -> P s g -> exists g' P',
     Inv R (put s) g' /\ guar R i (s, g) (put s, g') /\ P' (put s) g' /\ stable i P' /\
     rg i (k tt) P' Q) ->
  rg i (bind (store put) k) P Q.
Proof.
  intros Hk. split; [done|]. intros s g s' x HI HP Hx. simpl in Hx. apply list_elem_of_singleton in Hx.
  injection Hx as -> ->. by apply Hk.
Qed.

Lemma rg_rmw {A X} i (f : S -> S * X) (k : X -> prog S A) P Q :
  (forall s g, Inv R s g -> P s g -> exists g' P',
     Inv R (f s).1 g' /\ guar R i (s, g) ((f s).1, g') /\ P' (f s).1 g' /\ stable i P' /\
     rg i (k (f s).2) P' Q) ->
  rg i (bind (rmw f) k) P Q.
Proof.
  intros Hk. split; [done|]. intros s g s' x HI HP Hx. simpl in Hx. apply list_elem_of_singleton in Hx.
  specialize (Hk s g HI HP). rewrite <- Hx in Hk. exact Hk.
Qed.

Context (guar_refl : forall i x, guar R i x x).

Lemma rg_load {A X} i (get : S -> X) (k : X -> prog S A) P Q :
  (forall s g, Inv R s g -> P s g -> exists P', P' s g /\ stable i P' /\ rg i (k (get s)) P' Q) ->
  rg i (bind (load get) k) P Q.
Proof.
  intros Hk. split; [done|]. intros s g s' x HI HP Hx. simpl in Hx. apply list_elem_of_singleton in Hx.
  injection Hx as -> ->. destruct (Hk s g HI HP) as (P' & ? & ? & ?).
  exists g, P'. splits; auto.
Qed.

Lemma rg_cas_weak {A V} `{!EqDecision V} i (get : S -> V) put e d (k : bool * V -> prog S A) P Q :
  (forall s g, Inv R s g -> P s g -> get s = e -> exists g' P',
     Inv R (put d s) g' /\ guar R i (s, g) (put d s, g') /\ P' (put d s) g' /\ stable i P' /\
     rg i (k (true, e)) P' Q) ->
  (forall s g, Inv R s g -> P s g ->
     exists P', P' s g /\ stable i P' /\ rg i (k (false, get s)) P' Q) ->
  rg i (bind (cas_weak get put e d) k) P Q.
Proof.
  intros Hs Hf. split; [simpl; intros s g _ _; by case_decide|].
  intros s g s' x HI HP Hx. simpl in Hx.
  assert (Hfail : x = (false, get s) -> s' = s -> exists g' P',
    Inv R s' g' /\ guar R i (s, g) (s', g') /\ P' s' g' /\ stable i P' /\ rg i (k x) P' Q).
  { intros -> ->. destruct (Hf s g HI HP) as (P' & ? & ? & ?). exists g, P'. splits; auto. }
  case_decide as He.
  - apply elem_of_cons in Hx as [Hx|Hx%list_elem_of_singleton]; injection Hx as -> ->; [|auto].
    rewrite He. by apply Hs.
  - apply list_elem_of_singleton in Hx. injection Hx as -> ->. auto.
Qed.

Lemma rg_cas {A V} `{!EqDecision V} i (get : S -> V) put e d (k : bool * V -> prog S A) P Q :
  (forall s g, Inv R s g -> P s g -> get s = e -> exists g' P',
     Inv R (put d s) g' /\ guar R i (s, g) (put d s, g') /\ P' (put d s) g' /\ stable i P' /\
     rg i (k (true, e)) P' Q) ->
  (forall s g, Inv R s g -> P s g -> get s <> e ->
     exists P', P' s g /\ stable i P' /\ rg i (k (false, get s)) P' Q) ->
  rg i (bind (cas get put e d) k) P Q.
Proof.
  intros Hs Hf. split; [simpl; intros s g _ _; by case_decide|].
  intros s g s' x HI HP Hx. simpl in Hx.
  case_decide as He; apply list_elem_of_singleton in Hx; injection Hx as -> ->.
  - rewrite He. by apply Hs.
  - destruct (Hf s g HI HP He) as (P' & ? & ? & ?). exists g, P'. splits; auto.
Qed.

(** *** Strengthening the invariant

    A fact that every allowed transition preserves may be added to it. *)

Definition with_inv (J : S -> G -> Prop) : protocol :=
  WaitProtocol (fun s g => Inv R s g /\ J s g) (guar R) (may_wait R).

(** *** Soundness *)

(** Some ghost state explains the whole pool. *)
Definition pool_ok {A} (Q : nat -> A -> asrt) (c : config S A) : Prop :=
  exists g, Inv R c.2 g /\
    forall i p, c.1 !! i = Some p ->
      exists P, stable i P /\ P c.2 g /\ rg i p P (Q i).

Lemma pool_ok_step {A} (Q : nat -> A -> asrt) c c' :
  pool_ok Q c -> pstep c c' -> pool_ok Q c'.
Proof.
  intros (g & HI & Hall) Hstep. destruct Hstep as [i ts X f k s s' x Hi Hx]; simpl in *.
  destruct (Hall i _ Hi) as (P & HS & HP & _ & Hrg).
  destruct (Hrg s g s' x HI HP Hx) as (g' & P' & HI' & HG & HP' & HS' & Hk).
  exists g'. split; [done|]. intros j p Hj. simpl in *.
  destruct (decide (j = i)) as [->|Hne].
  - rewrite list_lookup_insert_eq in Hj by (by eapply lookup_lt_Some).
    injection Hj as <-. by exists P'.
  - rewrite list_lookup_insert_ne in Hj by done.
    destruct (Hall j _ Hj) as (P1 & HS1 & HP1 & Hrg1).
    exists P1. split; [done|]. split; [|done]. apply (HS1 i s g s' g'); auto.
Qed.

Lemma pool_ok_reach {A} (Q : nat -> A -> asrt) c c' :
  reach c c' -> pool_ok Q c -> pool_ok Q c'.
Proof. induction 1; eauto using pool_ok_step. Qed.

(** All threads have returned: one ghost state satisfies every postcondition. *)
Lemma pool_ok_finished {A} (Q : nat -> A -> asrt) ts rs s :
  finished ts rs -> pool_ok Q (ts, s) ->
  exists g, Inv R s g /\ forall i a, rs !! i = Some a -> Q i a s g.
Proof.
  intros -> (g & HI & Hall). exists g. split; [done|]. intros i a Hi.
  destruct (Hall i (Ret a)) as (P & _ & HP & Hrg).
  - simpl. by rewrite list_lookup_fmap, Hi.
  - simpl in Hrg. eauto.
Qed.

(** A thread that cannot move is waiting where the protocol lets it. *)
Lemma pool_ok_waits {A} (Q : nat -> A -> asrt) ts s :
  pool_ok Q (ts, s) ->
  exists g, Inv R s g /\
    (forall i X f k, ts !! i = Some (Act X f k) -> f s = [] -> may_wait R i s g) /\
    (forall i a, ts !! i = Some (Ret a) -> Q i a s g).
Proof.
  intros (g & HI & Hall). exists g. splits; [done| |].
  - intros i X f k Hi Hf. destruct (Hall i _ Hi) as (P & _ & HP & Hw & _). eauto.
  - intros i a Hi. destruct (Hall i _ Hi) as (P & _ & HP & Hrg). simpl in Hrg. eauto.
Qed.

(** No thread is at a failed check. *)
Lemma pool_ok_not_fatal {A} (Q : nat -> A -> asrt) ts s i m :
  pool_ok Q (ts, s) -> ts !! i <> Some (Fatal m).
Proof.
  intros (g & HI & Hall) Hi. destruct (Hall i _ Hi) as (P & _ & HP & Hrg).
  simpl in Hrg. eauto.
Qed.
End rely_guarantee.

Lemma rg_with_inv {S G A} (R : protocol (S:=S) (G:=G)) J i (p : prog S A) P Q :
  (forall s g s' g', J s g -> guar R i (s, g) (s', g') -> J s' g') ->
  rg R i p P Q -> rg (with_inv R J) i p P Q.
Proof.
  intros HJ. revert P. induction p as [a|X f k IH| |m]; intros P; simpl; try done.
  - intros H s g [HI _]. by apply H.
  - intros [Hw H]. split; [intros s g [HI _]; by apply Hw|].
    intros s g s' x [HI HJs] HP Hx. destruct (H s g s' x HI HP Hx) as (g' & P' & HI' & HG & HP' & HS & Hk).
    exists g', P'. splits; eauto. intros j s1 g1 s2 g2 Hj [? _] [? _]. by apply HS.
  - intros H s g [HI _]. by apply H.
Qed.

Lemma stable_with_inv {S G} (R : protocol (S:=S) (G:=G)) J i P : stable R i P -> stable (with_inv R J) i P.
Proof. intros HS j s1 g1 s2 g2 Hj [? _] [? _]. by apply HS. Qed.

(** Threads may also wait for other reasons. *)
Definition with_waits {S G} (R : protocol (S:=S) (G:=G)) (W : nat -> S -> G -> Prop) : protocol :=
  WaitProtocol (Inv R) (guar R) (fun i s g => may_wait R i s g \/ W i s g).

Lemma rg_with_waits {S G A} (R : protocol (S:=S) (G:=G)) W i (p : prog S A) P Q :
  rg R i p P Q -> rg (with_waits R W) i p P Q.
Proof.
  revert P. induction p as [a|X f k IH| |m]; intros P; simpl; try done.
  intros [Hw H]. split; [intros s g HI HP Hf; left; by apply Hw|]. intros s g s' x HI HP Hx.
  destruct (H s g s' x HI HP Hx) as (g' & P' & ? & ? & ? & ? & ?). exists g', P'. splits; eauto.
Qed.

Arguments protocol S G : clear implicits.
Arguments asrt S G : clear implicits.
Arguments Protocol {S G} I T.
Arguments WaitProtocol {S G} Inv guar may_wait.

(** ** Runs that stay in scope

    [sc] picks out states that cannot be entered again once left (a counter that
    has not reached its bound).  What a protocol promises of runs in scope is
    promised by [scoped] of every run, of its states in scope. *)
Section scope.
Context {S G : Type} (R : protocol S G) (sc : S -> bool).

Definition in_scope (P : asrt S G) : asrt S G := fun s g => sc s = true -> P s g.

Definition scoped : protocol S G :=
  WaitProtocol (in_scope (Inv R)) (fun i a b => sc b.1 = true -> sc a.1 = true /\ guar R i a b) (fun i => in_scope (may_wait R i)).

(** A program that does not abort, and does not enter the scope. *)
Fixpoint keeps_out {A} (p : prog S A) : Prop :=
  match p with
  | Ret _ | Starved => True
  | Act X f k => (forall s s' x, (s', x) ∈ f s -> sc s' = true -> sc s = true) /\ forall x, keeps_out (k x)
  | Fatal _ => False
  end.

Lemma keeps_out_bind {A B} (p : prog S A) (q : A -> prog S B) : keeps_out p -> (forall a, keeps_out (q a)) -> keeps_out (bind p q).
Proof. intros Hp Hq. induction p as [a|X f k IH| |m]; simpl in *; [done| |done|done]. destruct Hp as [Hf Hk]. split; [done|]. intros x. by apply IH. Qed.

Lemma stable_scoped i P : stable R i P -> stable scoped i (in_scope P).
Proof.
  intros HP j s g s' g' Hj HI HI' HG H Hs'. destruct (HG Hs') as [Hs HG2]. simpl in *. eapply HP; [exact Hj|by apply HI|by apply HI'|exact HG2|by apply H].
Qed.

Lemma rg_false {A} i (p : prog S A) Q : rg R i p (fun _ _ => False) Q.
Proof. destruct p; simpl; [done| |done|done]. split; done. Qed.

Lemma rg_scoped {A} i (p : prog S A) P Q : keeps_out p -> rg R i p P Q -> rg scoped i p (in_scope P) (fun a => in_scope (Q a)).
Proof.
  revert P. induction p as [a|X f k IH| |m]; intros P Hout Hrg; simpl in *; [|destruct Hout as [Hf Hk], Hrg as [Hw Hrg]|done|done].
  - intros s g HI HP Hs. auto.
  - split; [intros s g HI HP Hnil Hs; apply Hw; auto|]. intros s g s' x HI HP Hin. destruct (sc s') eqn:Hs'.
    + specialize (Hf s s' x Hin Hs'). destruct (Hrg s g s' x (HI Hf) (HP Hf) Hin) as (g' & P' & H1 & H2 & H3 & H4 & H5).
      exists g', (in_scope P'). splits; [by intros _|done|by intros _|by apply stable_scoped|by apply IH].
    + exists g, (in_scope (fun _ _ => False)). splits.
      * intros Hs. congruence.
      * simpl. congruence.
      * intros Hs. congruence.
      * apply stable_scoped. by intros j ? ? ? ? ? ? ? ? [].
      * apply IH; [done|]. apply rg_false.
Qed.
End scope.

(** ** Programs that leave something alone *)
Section leaves.
Context {S V : Type} (phi : S -> V).

Fixpoint leaves {A} (p : prog S A) : Prop :=
  match p with
  | Ret _ | Starved => True
  | Act X f k => (forall s s' x, (s', x) ∈ f s -> phi s' = phi s) /\ forall x, leaves (k x)
  | Fatal _ => False
  end.

Lemma leaves_bind {A B} (p : prog S A) (q : A -> prog S B) : leaves p -> (forall a, leaves (q a)) -> leaves (bind p q).
Proof. intros Hp Hq. induction p as [a|X f k IH| |m]; simpl in *; [done| |done|done]. destruct Hp as [Hf Hk]. split; [done|]. intros x. by apply IH. Qed.

Lemma leaves_keeps_out {A} (sc : S -> bool) (p : prog S A) : (forall s s', phi s' = phi s -> sc s' = sc s) -> leaves p -> keeps_out sc p.
Proof.
  intros Hsc Hp. induction p as [a|X f k IH| |m]; simpl in *; [done| |done|done]. destruct Hp as [Hf Hk]. split; [|by intros x; apply IH].
  intros s s' x Hin Hs. by rewrite <- (Hsc s s' (Hf s s' x Hin)).
Qed.

(** They keep any invariant about it. *)
Lemma rg_leaves {G A} (R : protocol S G) (P : asrt S G) i (p : prog S A) :
  (forall s s' g, phi s' = phi s -> Inv R s g -> P s g -> Inv R s' g /\ guar R i (s, g) (s', g) /\ P s' g) -> stable R i P ->
  (forall s g, Inv R s g -> P s g -> may_wait R i s g) ->
  leaves p -> rg R i p P (fun _ => P).
Proof.
  intros Hkeep HP Hw Hp. induction p as [a|X f k IH| |m]; simpl in *; [done| |done|done]. destruct Hp as [Hf Hk]. split; [by auto|].
  intros s g s' x HI HPs Hin. destruct (Hkeep s s' g (Hf s s' x Hin) HI HPs) as (? & ? & ?). exists g, P. splits; [done..|by apply IH].
Qed.
End leaves.
