(* ===== verification/Cursor.v ===== *)
(** * queue/detail/PackedCursor.h

    One machine word holding [version << IndexBits | index].  [cur v i] is the
    word for version [v] and index [i]; the lemmas say how each operation acts
    on it, at any word width, wrap-around of the version included. *)

From Stdlib Require Import ZArith Lia.
From stdpp Require Import base tactics numbers.
From S2P Require Import Prelude.

(** Number of bits needed to represent every value in [0, maxValue]; the
    recursion of the source, with the bit length as fuel. *)
Fixpoint bitsToHold_go (fuel : nat) (maxValue : Z) : Z :=
  match fuel with
  | O => 0
  | S fuel => if maxValue =? 0 then 0 else 1 + bitsToHold_go fuel (Z.shiftr maxValue 1)
  end.
Definition bitsToHold (maxValue : Z) : Z :=
  bitsToHold_go (S (Z.to_nat (Z.log2 maxValue))) maxValue.

Definition isPowerOfTwo (value : Z) : bool :=
  negb (value =? 0) && (Z.land value (value - 1) =? 0).

Section PackedCursor.
Context `{SizeT} (IndexBits : Z).

Definition kIndexMask : Z := Z.shiftl 1 IndexBits - 1.

Definition make (version index : Z) : Z := Z.lor (version <<w IndexBits) index.
Definition index (raw : Z) : Z := Z.land raw kIndexMask.
Definition version (raw : Z) : Z := Z.shiftr raw IndexBits.
Definition addIndex (raw count : Z) : Z := raw +w count.
Definition nextRound (raw : Z) (bump : bool) : Z :=
  Z.land raw (Z.lnot kIndexMask) +w (if bump then Z.shiftl 1 IndexBits else 0).
End PackedCursor.

(** Cache line size (detail::kCacheLineSize). *)
Definition kCacheLineSize : Z := 64.

(** ** The static helpers *)

Lemma bitsToHold_go_log2 fuel m :
  0 < m -> Z.log2 m < Z.of_nat fuel -> bitsToHold_go fuel m = Z.log2 m + 1.
Proof.
  revert m. induction fuel as [|fuel IH]; intros m Hm Hf; [pose proof (Z.log2_nonneg m); lia|].
  cbn [bitsToHold_go]. rewrite (proj2 (Z.eqb_neq m 0)) by lia.
  rewrite Z.shiftr_div_pow2 by lia. change (2 ^ 1) with 2.
  destruct (decide (m = 1)) as [->|Hne].
  { destruct fuel; reflexivity. }
  assert (Hh : Z.log2 (m / 2) = Z.log2 m - 1).
  { apply Z.log2_unique; [pose proof (Z.log2_le_mono 2 m); simpl in *; lia|].
    pose proof (Z.log2_spec m Hm) as [H1 H2].
    pose proof (Z.log2_le_mono 2 m ltac:(lia)) as Hl; change (Z.log2 2) with 1 in Hl.
    rewrite Z.pow_succ_r in H2 by lia.
    replace (Z.log2 m) with (Z.succ (Z.log2 m - 1)) in H1 by lia.
    rewrite Z.pow_succ_r in H1 by lia.
    replace (Z.succ (Z.log2 m - 1)) with (Z.log2 m) by lia.
    split; [apply Z.div_le_lower_bound; lia|apply Z.div_lt_upper_bound; lia]. }
  rewrite IH; [lia| |lia]. apply Z.div_str_pos; lia.
Qed.

Lemma bitsToHold_spec m : 0 < m -> bitsToHold m = Z.log2 m + 1.
Proof.
  intros. apply bitsToHold_go_log2; [done|]. pose proof (Z.log2_nonneg m). lia.
Qed.

(** The field is wide enough, and no wider than it must be. *)
Lemma bitsToHold_bound m : 0 < m -> 2 ^ (bitsToHold m - 1) <= m < 2 ^ bitsToHold m.
Proof.
  intros Hm. rewrite bitsToHold_spec by done. pose proof (Z.log2_spec m Hm) as [? ?].
  replace (Z.log2 m + 1 - 1) with (Z.log2 m) by lia. split; [done|].
  by replace (Z.log2 m + 1) with (Z.succ (Z.log2 m)) by lia.
Qed.

Lemma bitsToHold_pos m : 0 < m -> 0 < bitsToHold m.
Proof. intros Hm. rewrite bitsToHold_spec by done. pose proof (Z.log2_nonneg m). lia. Qed.

Lemma isPowerOfTwo_spec v : 0 <= v -> isPowerOfTwo v = true -> v = 2 ^ Z.log2 v.
Proof.
  intros Hv Hp. unfold isPowerOfTwo in Hp. bool_to_prop.
  destruct (Z.log2_spec v ltac:(lia)) as [H1 H2].
  destruct (decide (v = 2 ^ Z.log2 v)) as [|Hne]; [done|exfalso].
  assert (Hb : Z.testbit (Z.land v (v - 1)) (Z.log2 v) = true).
  { rewrite Z.land_spec. rewrite Z.bit_log2 by lia. simpl.
    replace (Z.log2 v) with (Z.log2 (v - 1)).
    - apply Z.bit_log2. pose proof (pow2_pos (Z.log2 v) (Z.log2_nonneg v)). lia.
    - apply Z.log2_unique; [apply Z.log2_nonneg|lia]. }
  match goal with H : Z.land _ _ = 0 |- _ => rewrite H in Hb end.
  by rewrite Z.bits_0 in Hb.
Qed.

(** ** Words as (version, index) pairs *)
Section spec.
Context `{SizeT} (IndexBits : Z) (Hbits : 0 < IndexBits < SIZE_BITS).

(** Versions are kept modulo this. *)
Definition version_bits : Z := SIZE_BITS - IndexBits.

Definition cur (v i : Z) : Z := v * 2 ^ IndexBits + i.

Definition cur_ok (v i : Z) : Prop := 0 <= v < 2 ^ version_bits /\ 0 <= i < 2 ^ IndexBits.

Lemma kIndexMask_eq : kIndexMask IndexBits = 2 ^ IndexBits - 1.
Proof. unfold kIndexMask. rewrite Z.shiftl_mul_pow2 by lia. lia. Qed.

Lemma word_split : 2 ^ SIZE_BITS = 2 ^ version_bits * 2 ^ IndexBits.
Proof. unfold version_bits. rewrite <- Z.pow_add_r by lia. f_equal; lia. Qed.

Lemma cur_range v i : cur_ok v i -> 0 <= cur v i < 2 ^ SIZE_BITS.
Proof. unfold cur_ok, cur. rewrite word_split. intros [? ?]. nia. Qed.

Lemma index_cur v i : 0 <= i < 2 ^ IndexBits -> index IndexBits (cur v i) = i.
Proof.
  intros. unfold index. rewrite kIndexMask_eq, land_pow2_mask by lia. unfold cur.
  rewrite Z.add_comm, Z_mod_plus_full. by apply Z.mod_small.
Qed.

Lemma version_cur v i : 0 <= i < 2 ^ IndexBits -> version IndexBits (cur v i) = v.
Proof.
  intros. pose proof (pow2_pos IndexBits ltac:(lia)).
  unfold version, cur. rewrite Z.shiftr_div_pow2 by lia.
  rewrite Z.div_add_l by lia. rewrite Z.div_small by lia. lia.
Qed.

(** The version wraps silently. *)
Lemma make_cur v i :
  0 <= i < 2 ^ IndexBits ->
  make IndexBits v i = cur (wrap version_bits v) i.
Proof.
  intros Hi. unfold make, szwrap, wrap. rewrite Z.shiftl_mul_pow2 by lia.
  rewrite word_split.
  rewrite Zmult_mod_distr_r.
  rewrite <- (Z.shiftl_mul_pow2 _ IndexBits) by lia. apply lor_shiftl_add; [lia|done].
Qed.

Lemma make_small v i : cur_ok v i -> make IndexBits v i = cur v i.
Proof. intros [? ?]. rewrite make_cur by done. f_equal. by apply wrap_small. Qed.

Lemma addIndex_cur v i c :
  cur_ok v i -> 0 <= c -> i + c < 2 ^ IndexBits ->
  addIndex (cur v i) c = cur v (i + c).
Proof.
  intros [? ?] ? ?. unfold addIndex. rewrite szwrap_small; [unfold cur; lia|].
  assert (cur_ok v (i + c)) as Ho by (split; lia).
  pose proof (cur_range _ _ Ho). unfold cur in *. lia.
Qed.

Lemma nextRound_cur v i (bump : bool) :
  cur_ok v i ->
  nextRound IndexBits (cur v i) bump = cur (wrap version_bits (v + if bump then 1 else 0)) 0.
Proof.
  intros [Hv Hi]. unfold nextRound.
  assert (Hl : Z.land (cur v i) (Z.lnot (kIndexMask IndexBits)) = v * 2 ^ IndexBits).
  { rewrite kIndexMask_eq. rewrite <- Z.ldiff_land.
    replace (2 ^ IndexBits - 1) with (Z.ones IndexBits) by (rewrite Z.ones_equiv; lia).
    rewrite Z.ldiff_ones_r by lia. rewrite Z.shiftl_mul_pow2 by lia.
    f_equal. apply version_cur. done. }
  rewrite Hl. unfold szwrap, wrap, cur. rewrite Z.shiftl_mul_pow2 by lia.
  replace (v * 2 ^ IndexBits + (if bump then 1 * 2 ^ IndexBits else 0))
    with ((v + (if bump then 1 else 0)) * 2 ^ IndexBits) by (destruct bump; lia).
  rewrite word_split.
  rewrite Zmult_mod_distr_r.
  lia.
Qed.

(** Comparing raw words orders (version, index) lexicographically. *)
Lemma cur_lt v i v' i' :
  0 <= i < 2 ^ IndexBits -> 0 <= i' < 2 ^ IndexBits ->
  cur v i < cur v' i' <-> v < v' \/ (v = v' /\ i < i').
Proof. unfold cur. intros. split; intros; [|nia]. destruct (Z.lt_trichotomy v v') as [|[|]]; nia. Qed.

Lemma cur_inj v i v' i' :
  0 <= i < 2 ^ IndexBits -> 0 <= i' < 2 ^ IndexBits ->
  cur v i = cur v' i' -> v = v' /\ i = i'.
Proof.
  intros Hi Hi' E. split.
  - rewrite <- (version_cur v i), <- (version_cur v' i') by done. by rewrite E.
  - rewrite <- (index_cur v i), <- (index_cur v' i') by done. by rewrite E.
Qed.
End spec.
