(* ===== verification/Ring.v ===== *)
(** * queue/RingQueue.h

    Go-style local run queue: a fixed ring with an owner-only [tail] and a
    shared [head] that the owner (pop) and thieves (steal) compare-exchange.
    [head] and [tail] are free-running [size_t] counters.

    The file gives the operations as programs of atomic accesses, their
    behaviour when run alone as a bounded FIFO at any counter value (also
    across the wrap-around), and the theorem for concurrent use: every value
    whose push succeeded is handed out exactly once, in FIFO order. *)

From Stdlib Require Import ZArith Lia.
From stdpp Require Import base tactics list numbers option strings.
From S2P Require Import Prelude Conc Cursor.

Section RingQueue.
Context `{SizeT} {T : Type} `{!Inhabited T} (Capacity : Z).

Record ring := Ring { head : Z; tail : Z; buffer : list T }.

Definition set_head (v : Z) (s : ring) : ring := Ring v (tail s) (buffer s).
Definition set_tail (v : Z) (s : ring) : ring := Ring (head s) v (buffer s).
Definition set_buffer (i : Z) (v : T) (s : ring) : ring :=
  Ring (head s) (tail s) (<[Z.to_nat i := v]> (buffer s)).

Definition kCapacity : Z := Capacity.
Definition kEntriesPerBlock : Z := Capacity / 2.
Definition kMask : Z := Capacity -w 1.

(** [RingQueue()]: the slots hold indeterminate values. *)
Definition init (junk : list T) : ring := Ring 0 0 junk.

(** [buffer[i].load()] and [buffer[i].store(v)]. *)
Definition load_slot (i : Z) : prog ring T :=
  check ((0 <=? i) && (i <? Capacity)) "buffer index" ;;;
  load (fun s => buffer s !!! Z.to_nat i).
Definition store_slot (i : Z) (v : T) : prog ring unit :=
  check ((0 <=? i) && (i <? Capacity)) "buffer index" ;;;
  store (set_buffer i v).

(** ** Owner side *)

Definition push (value : T) : prog ring bool :=
  t <- load tail ;;
  h <- load head ;;
  if t -w h >=? Capacity then Ret false
  else
    store_slot (Z.land t kMask) value ;;;
    store (set_tail (t +w 1)) ;;;
    Ret true.

Fixpoint pushBatch (values : list T) : prog ring Z :=
  match values with
  | [] => Ret 0
  | v :: rest =>
      ok <- push v ;;
      if ok : bool then n <- pushBatch rest ;; Ret (n + 1) else Ret 0
  end.

Fixpoint pop (fuel : nat) : prog ring (option T) :=
  match fuel with
  | O => Starved
  | S fuel =>
      h <- load head ;;
      t <- load tail ;;
      if h =? t then Ret None
      else
        out <- load_slot (Z.land h kMask) ;;
        r <- cas_weak head set_head h (h +w 1) ;;
        if r.1 : bool then Ret (Some out) else pop fuel
  end.

(** [for (i = 0; i < n; ++i) out[i] = buffer[(h + i) & kMask]], from [i] on. *)
Fixpoint copy (h i : Z) (n : nat) : prog ring (list T) :=
  match n with
  | O => Ret []
  | S n =>
      v <- load_slot (Z.land (h +w i) kMask) ;;
      rest <- copy h (i + 1) n ;;
      Ret (v :: rest)
  end.

Fixpoint grab (fuel : nat) (half : bool) : prog ring (list T) :=
  match fuel with
  | O => Starved
  | S fuel =>
      h <- load head ;;
      t <- load tail ;;
      let available := t -w h in
      let n := if half then available - available / 2 else available in
      if n =? 0 then Ret []
      else
        let n := if n >? kEntriesPerBlock then kEntriesPerBlock else n in
        out <- copy h 0 (Z.to_nat n) ;;
        r <- cas_weak head set_head h (h +w n) ;;
        if r.1 : bool then Ret out else grab fuel half
  end.

Definition popBlock (fuel : nat) : prog ring (list T) := grab fuel true.

Definition minRemainingSlots : prog ring Z :=
  t <- load tail ;;
  h <- load head ;;
  Ret (Capacity -w (t -w h)).

Definition hasEntries : prog ring bool :=
  t <- load tail ;;
  h <- load head ;;
  Ret (negb (t =? h)).

Definition hasStealable : prog ring bool := hasEntries.

Definition producerBlockHasActiveStealers : prog ring bool := Ret false.

(** ** Thief side *)

Fixpoint steal (fuel : nat) : prog ring (option T) :=
  match fuel with
  | O => Starved
  | S fuel =>
      h <- load head ;;
      t <- load tail ;;
      if h =? t then Ret None
      else
        out <- load_slot (Z.land h kMask) ;;
        r <- cas_weak head set_head h (h +w 1) ;;
        if r.1 : bool then Ret (Some out) else steal fuel
  end.

Definition stealBlock (fuel : nat) : prog ring (list T) := grab fuel true.

Definition isEmptyForThief : prog ring bool :=
  b <- hasEntries ;; Ret (negb b).

(** ** Threads: the owner's and the thieves' calls *)

Inductive op :=
| Push (v : T) | PushBatch (vs : list T) | Pop | PopBlock | Steal | StealBlock.

Definition thief_op (o : op) : Prop := match o with Steal | StealBlock => True | _ => False end.

(** What a call hands to the queue and what it takes from it. *)
Record result := Result { put : list T; got : list T }.

Definition exec_op (fuel : nat) (o : op) : prog ring result :=
  match o with
  | Push v => b <- push v ;; Ret (Result (if b : bool then [v] else []) [])
  | PushBatch vs => n <- pushBatch vs ;; Ret (Result (take (Z.to_nat n) vs) [])
  | Pop => r <- pop fuel ;; Ret (Result [] (option_list r))
  | PopBlock => r <- popBlock fuel ;; Ret (Result [] r)
  | Steal => r <- steal fuel ;; Ret (Result [] (option_list r))
  | StealBlock => r <- stealBlock fuel ;; Ret (Result [] r)
  end.

Fixpoint exec_ops (fuel : nat) (os : list op) : prog ring (list result) :=
  match os with
  | [] => Ret []
  | o :: os => r <- exec_op fuel o ;; rs <- exec_ops fuel os ;; Ret (r :: rs)
  end.

Definition all_put (rs : list result) : list T := mjoin (put <$> rs).
Definition all_got (rs : list result) : list T := mjoin (got <$> rs).

(** Most values the calls can add. *)
Definition op_pushes (o : op) : Z :=
  match o with Push _ => 1 | PushBatch vs => Z.of_nat (length vs) | _ => 0 end.
Fixpoint pushes (os : list op) : Z :=
  match os with [] => 0 | o :: os => op_pushes o + pushes os end.

(** The queued values, front first. *)
Definition contents (s : ring) : list T :=
  (fun i => buffer s !!! Z.to_nat ((head s + Z.of_nat i) mod Capacity))
    <$> seq 0 (Z.to_nat (tail s -w head s)).
End RingQueue.
Arguments ring T : clear implicits.
Arguments op T : clear implicits.
Arguments result T : clear implicits.

(** ** Facts about the masked index *)
Section index.
Context `{SizeT} (Capacity : Z).

(** The static assertions of the class. *)
Definition valid_capacity : Prop :=
  isPowerOfTwo Capacity = true /\ 2 <= Capacity < 2 ^ SIZE_BITS.

Context (Hcap : valid_capacity).

Lemma capacity_pow2 : exists k, 0 <= k < SIZE_BITS /\ Capacity = 2 ^ k.
Proof.
  destruct Hcap as [Hp [H2 HW]]. exists (Z.log2 Capacity).
  pose proof (isPowerOfTwo_spec Capacity ltac:(lia) Hp) as E.
  split; [|done]. split; [apply Z.log2_nonneg|]. apply Z.log2_lt_pow2; lia.
Qed.

Lemma kMask_land x : Z.land x (kMask Capacity) = x mod Capacity.
Proof.
  destruct capacity_pow2 as (k & Hk & Ek). unfold kMask. destruct Hcap as [_ [? ?]].
  rewrite szwrap_small by lia. rewrite Ek. apply land_pow2_mask. lia.
Qed.

Lemma kMask_land_wrap x : Z.land (szwrap x) (kMask Capacity) = x mod Capacity.
Proof.
  rewrite kMask_land. destruct capacity_pow2 as (k & Hk & ->). apply wrap_mod_pow2. lia.
Qed.

Lemma mod_capacity_range x : 0 <= x mod Capacity < Capacity.
Proof. destruct Hcap as [_ [? ?]]. apply Z.mod_pos_bound. lia. Qed.

(** Two different slots of the live window do not collide. *)
Lemma mod_capacity_inj x y :
  x mod Capacity = y mod Capacity -> Z.abs (x - y) < Capacity -> x = y.
Proof.
  destruct Hcap as [_ [? ?]]. apply mod_eq_close. lia.
Qed.
End index.

(** ** Alone: a bounded FIFO at any counter value *)
Section sequential.
Context `{SizeT} {T : Type} `{!Inhabited T} (Capacity : Z) (Hcap : valid_capacity Capacity).
Implicit Types (s : ring T) (l : list T) (v : T).

(** [s] holds [l]; the counters may stand anywhere in the word, [tail] may
    have wrapped and [head] not. *)
Record rep s l : Prop := {
  rep_length : Z.of_nat (length (buffer s)) = Capacity;
  rep_head : 0 <= head s < 2 ^ SIZE_BITS;
  rep_tail : tail s = szwrap (head s + Z.of_nat (length l));
  rep_fits : Z.of_nat (length l) <= Capacity;
  rep_slots : forall i v, l !! i = Some v ->
    buffer s !! Z.to_nat ((head s + Z.of_nat i) mod Capacity) = Some v
}.

Lemma rep_count s l : rep s l -> tail s -w head s = Z.of_nat (length l).
Proof.
  intros [? ? Ht ? ?]. rewrite Ht. destruct Hcap as [_ [? ?]]. pose proof SIZE_BITS_pos.
  unfold szwrap. replace (head s) with (wrap SIZE_BITS (head s)) at 2 by (apply wrap_small; done).
  rewrite wrap_sub by lia. replace (head s + _ - head s) with (Z.of_nat (length l)) by lia.
  apply wrap_small. red. lia.
Qed.

Lemma run_load_slot x s l :
  rep s l -> run (load_slot Capacity (x mod Capacity)) s =
             (s, Done (buffer s !!! Z.to_nat (x mod Capacity))).
Proof.
  intros. unfold load_slot. pose proof (mod_capacity_range Capacity Hcap x).
  rewrite run_bind, run_check, run_load; [done|]. apply andb_true_intro; lia.
Qed.

Lemma run_store_slot x v s l :
  rep s l -> run (store_slot Capacity (x mod Capacity) v) s =
             (set_buffer (x mod Capacity) v s, Done tt).
Proof.
  intros. unfold store_slot. pose proof (mod_capacity_range Capacity Hcap x).
  rewrite run_bind, run_check, run_store; [done|]. apply andb_true_intro; lia.
Qed.

Lemma rep_push s l v :
  rep s l -> Z.of_nat (length l) < Capacity ->
  rep (set_tail (tail s +w 1) (set_buffer (szwrap (head s + Z.of_nat (length l)) mod Capacity) v s))
      (l ++ [v]).
Proof.
  intros Hr Hlt. pose proof SIZE_BITS_pos. destruct (capacity_pow2 Capacity Hcap) as (k & Hk & Ek).
  assert (Em : szwrap (head s + Z.of_nat (length l)) mod Capacity =
               (head s + Z.of_nat (length l)) mod Capacity) by (rewrite Ek; apply wrap_mod_pow2; lia).
  pose proof Hr as [HL Hh Ht Hf Hs]. constructor; simpl.
  - by rewrite length_insert.
  - done.
  - rewrite Ht, length_app. simpl. unfold szwrap. rewrite wrap_add_l by lia. f_equal. lia.
  - rewrite length_app. simpl. lia.
  - intros i w Hi. rewrite Em. apply lookup_app_Some in Hi as [Hi|[Hge Hi]].
    + pose proof (lookup_lt_Some _ _ _ Hi). rewrite list_lookup_insert_ne; [by apply Hs|].
      intros E. pose proof (mod_capacity_range Capacity Hcap (head s + Z.of_nat i)).
      pose proof (mod_capacity_range Capacity Hcap (head s + Z.of_nat (length l))).
      apply Z2Nat.inj in E; [|lia|lia]. apply mod_capacity_inj in E; [lia|done|lia].
    + apply list_lookup_singleton_Some in Hi as [Hi ->].
      replace i with (length l) by lia. apply list_lookup_insert_eq.
      pose proof (mod_capacity_range Capacity Hcap (head s + Z.of_nat (length l))). lia.
Qed.

Lemma rep_drop s l n :
  rep s l -> (n <= length l)%nat -> rep (set_head (head s +w Z.of_nat n) s) (drop n l).
Proof.
  intros Hr Hn. pose proof SIZE_BITS_pos. destruct (capacity_pow2 Capacity Hcap) as (k & Hk & Ek).
  pose proof Hr as [HL Hh Ht Hf Hs]. constructor; simpl.
  - done.
  - apply szwrap_range.
  - rewrite Ht, length_drop. unfold szwrap. rewrite wrap_add_l by lia. f_equal. lia.
  - rewrite length_drop. lia.
  - intros i w Hi. rewrite lookup_drop in Hi.
    replace ((head s +w Z.of_nat n) + Z.of_nat i) with (szwrap (head s + Z.of_nat n) + Z.of_nat i) by done.
    rewrite <- (Hs _ _ Hi). do 2 f_equal. rewrite Ek.
    rewrite (Zplus_mod (szwrap _)). unfold szwrap. rewrite wrap_mod_pow2 by lia.
    rewrite <- Zplus_mod. f_equal. lia.
Qed.

Lemma rep_contents s l : rep s l -> contents Capacity s = l.
Proof.
  intros Hr. unfold contents. rewrite (rep_count s l Hr), Nat2Z.id.
  apply list_eq. intros i. rewrite list_lookup_fmap.
  destruct (decide (i < length l)%nat) as [Hlt|Hge].
  - rewrite lookup_seq_lt by done. simpl.
    destruct (lookup_lt_is_Some_2 l i Hlt) as [w Hw]. rewrite Hw.
    f_equal. apply lookup_total_Some. by apply (rep_slots _ _ Hr).
  - rewrite lookup_seq_ge by lia. simpl. symmetry. apply lookup_ge_None. lia.
Qed.

Lemma rep_slot_total s l i v :
  rep s l -> l !! i = Some v ->
  buffer s !!! Z.to_nat ((head s + Z.of_nat i) mod Capacity) = v.
Proof. intros Hr Hi. apply lookup_total_Some. by apply (rep_slots _ _ Hr). Qed.

(** push, on a queue with room and on a full one. *)
Lemma run_push s l v :
  rep s l ->
  if decide (Z.of_nat (length l) < Capacity)
  then exists s', run (push Capacity v) s = (s', Done true) /\ rep s' (l ++ [v])
  else run (push Capacity v) s = (s, Done false).
Proof.
  intros Hr. pose proof (rep_count _ _ Hr) as Hc. pose proof (rep_fits _ _ Hr).
  case_decide as Hlt; unfold push; run_steps; rewrite Hc; zcase; [|done].
  eexists. split; [|by apply rep_push].
  rewrite kMask_land by done. rewrite (rep_tail _ _ Hr). run_steps.
  rewrite (run_store_slot _ _ s l) by done. run_steps. done.
Qed.

Lemma run_pop s l fuel :
  rep s l ->
  match l with
  | [] => run (pop Capacity (S fuel)) s = (s, Done None)
  | x :: l' => exists s', run (pop Capacity (S fuel)) s = (s', Done (Some x)) /\ rep s' l'
  end.
Proof.
  intros Hr. pose proof (rep_count _ _ Hr) as Hc. pose proof (rep_fits _ _ Hr) as Hf.
  destruct Hcap as [_ [? ?]]. cbn [pop]. run_steps. pose proof (rep_tail _ _ Hr) as Ht.
  pose proof (rep_head _ _ Hr). destruct l as [|x l']; zcase.
  - done.
  - rewrite Ht in n. simpl in n. rewrite Z.add_0_r, szwrap_small in n; done.
  - exfalso. rewrite e in Hc. rewrite Z.sub_diag, szwrap_small in Hc; simpl in *; lia.
  - rewrite kMask_land by done. rewrite run_bind, (run_load_slot _ s (x :: l')) by done.
    pose proof (rep_slot_total s _ 0%nat x Hr eq_refl) as Hx.
    rewrite Z.add_0_r in Hx. rewrite Hx.
    run_steps. rewrite run_cas_weak_eq by done. simpl. eexists. split; [done|].
    apply (rep_drop s (x :: l') 1); [done|simpl; lia].
Qed.

Lemma run_copy s l i n :
  rep s l -> (i + n <= length l)%nat ->
  run (copy Capacity (head s) (Z.of_nat i) n) s = (s, Done (take n (drop i l))).
Proof.
  intros Hr. revert i. induction n as [|n IH]; intros i Hle; [done|].
  destruct (lookup_lt_is_Some_2 l i ltac:(lia)) as [x Hx].
  cbn [copy]. rewrite kMask_land_wrap by done. run_steps.
  rewrite (run_load_slot _ s l) by done. run_steps.
  rewrite (rep_slot_total s l i x) by done.
  replace (Z.of_nat i + 1) with (Z.of_nat (S i)) by lia. rewrite IH by lia. run_steps.
  rewrite (drop_S l x i) by done. done.
Qed.

(** grab takes the older half of the queue (rounded up, at most half the
    ring), or all of it. *)
Lemma run_grab s l fuel (half : bool) :
  rep s l ->
  let avail := Z.of_nat (length l) in
  let n := Z.to_nat (Z.min (if half then avail - avail / 2 else avail) (Capacity / 2)) in
  exists s', run (grab Capacity (S fuel) half) s = (s', Done (take n l)) /\ rep s' (drop n l).
Proof.
  intros Hr avail n. subst avail. pose proof (rep_count _ _ Hr) as Hc.
  destruct Hcap as [_ [? ?]]. cbn [grab]. run_steps. rewrite Hc.
  set (m := if half then _ else _) in *.
  assert (n = Z.to_nat (Z.min m (Capacity / 2))) as Hn by reflexivity. clearbody n.
  assert (0 <= m <= Z.of_nat (length l)) as Hm by (subst m; destruct half; dlia).
  assert (1 <= Capacity / 2) by (apply Z.div_le_lower_bound; lia).
  zcase.
  - exists s. replace n with 0%nat by lia. split; [done|]. by rewrite drop_0.
  - set (k := if _ >? _ then _ else _).
    assert (Z.to_nat k = n) as -> by (subst k; unfold kEntriesPerBlock; zcase; lia).
    pose proof (run_copy s l 0 n Hr ltac:(lia)) as Hcp. change (Z.of_nat 0) with 0 in Hcp.
    rewrite run_bind, Hcp. rewrite drop_0. run_steps. rewrite run_cas_weak_eq by done. simpl.
    replace k with (Z.of_nat n) by (subst k; unfold kEntriesPerBlock; zcase; lia).
    eexists. split; [done|]. apply rep_drop; [done|lia].
Qed.

Lemma rep_init junk : Z.of_nat (length junk) = Capacity -> rep (init junk) [].
Proof.
  intros. destruct Hcap as [_ [? ?]]. constructor; simpl; try done; try lia.
Qed.
End sequential.

(** ** Concurrent use

    Thread 0 is the owner, the others are thieves.  The ghost state records
    what was pushed, in order, and what was taken, by whom, in order. *)
Section concurrent.
Context `{SizeT} {T : Type} `{!Inhabited T} (Capacity : Z) (Hcap : valid_capacity Capacity).
Implicit Types (s : ring T) (v : T).

Record ghost := Ghost { pushed : list T; taken : list (nat * T) }.
Implicit Types (g : ghost).

Definition n_pushed g : Z := Z.of_nat (length (pushed g)).
Definition n_taken g : Z := Z.of_nat (length (taken g)).

(** What thread [i] has taken so far. *)
Definition taken_by (i : nat) (log : list (nat * T)) : list T :=
  snd <$> filter (fun p => p.1 = i) log.

Record ring_inv s g : Prop := {
  ri_length : Z.of_nat (length (buffer s)) = Capacity;
  ri_head : head s = n_taken g;
  ri_tail : tail s = n_pushed g;
  ri_word : n_pushed g < 2 ^ SIZE_BITS;
  ri_window : n_taken g <= n_pushed g <= n_taken g + Capacity;
  ri_taken : snd <$> taken g = take (length (taken g)) (pushed g);
  ri_slots : forall k v, n_taken g <= Z.of_nat k -> pushed g !! k = Some v ->
    buffer s !! Z.to_nat (Z.of_nat k mod Capacity) = Some v
}.

Definition ring_guar (i : nat) (x y : ring T * ghost) : Prop :=
  pushed x.2 `prefix_of` pushed y.2 /\
  (exists vs, taken y.2 = taken x.2 ++ (pair i <$> vs)) /\
  (i <> 0%nat -> pushed y.2 = pushed x.2 /\ buffer y.1 = buffer x.1).

Definition ring_protocol : protocol (ring T) ghost := Protocol ring_inv ring_guar.

Lemma taken_by_app i l1 l2 : taken_by i (l1 ++ l2) = taken_by i l1 ++ taken_by i l2.
Proof. unfold taken_by. by rewrite filter_app, fmap_app. Qed.

Lemma taken_by_own i vs : taken_by i (pair i <$> vs) = vs.
Proof.
  unfold taken_by. induction vs as [|v vs IH]; [done|]. cbn.
  rewrite decide_True by done. cbn. by f_equal.
Qed.

Lemma taken_by_other i j vs : i <> j -> taken_by i (pair j <$> vs) = [].
Proof.
  intros Hne. unfold taken_by. induction vs as [|v vs IH]; [done|]. cbn.
  rewrite decide_False by (simpl; congruence). done.
Qed.

(** *** Assertions that survive the steps of the others *)

Lemma ring_stable_mine i acc : stable ring_protocol i (fun _ g => taken_by i (taken g) = acc).
Proof.
  intros j s g s' g' Hji _ _ (_ & [vs E] & _) <-. simpl in *.
  rewrite E, taken_by_app, taken_by_other by done. apply app_nil_r.
Qed.

Lemma stable_pushed acc : stable ring_protocol 0 (fun _ g => pushed g = acc).
Proof. intros j s g s' g' Hj _ _ (_ & _ & Hp) <-. by apply Hp. Qed.

Lemma stable_head_lb i h : stable ring_protocol i (fun _ g => h <= n_taken g).
Proof.
  intros j s g s' g' Hj _ _ (_ & [vs E] & _) Hle. simpl in *. unfold n_taken in *.
  rewrite E, length_app. lia.
Qed.

Lemma stable_tail_lb i t : stable ring_protocol i (fun _ g => t <= n_pushed g).
Proof.
  intros j s g s' g' Hj _ _ (Hp & _ & _) Hle. simpl in *. unfold n_pushed in *.
  apply prefix_length in Hp. lia.
Qed.

(** A copy of the queue's front that is good unless [head] has moved. *)
Definition copied (h : Z) (vs : list T) (_ : ring T) g : Prop :=
  h <= n_taken g /\ h + Z.of_nat (length vs) <= n_pushed g /\
  (n_taken g = h -> vs = take (length vs) (drop (Z.to_nat h) (pushed g))).

Lemma stable_copied i h vs : stable ring_protocol i (copied h vs).
Proof.
  intros j s g s' g' Hj HI _ ([r Hp] & [us E] & _) (H1 & H2 & H3). simpl in *.
  unfold copied, n_taken, n_pushed in *. rewrite E, Hp, !length_app, length_fmap.
  split; [lia|]. split; [lia|]. intros Hh.
  assert (Z.of_nat (length (taken g)) = h) as Ht by lia.
  rewrite drop_app_le by lia. rewrite take_app_le; [by apply H3|].
  rewrite length_drop. lia.
Qed.

Lemma ring_guar_refl i x : ring_guar i x x.
Proof. split; [done|]. split; [|done]. exists []. by rewrite app_nil_r. Qed.

(** *** Ghost steps *)

Lemma ring_inv_take i vs s g :
  ring_inv s g -> n_taken g + Z.of_nat (length vs) <= n_pushed g ->
  vs = take (length vs) (drop (Z.to_nat (n_taken g)) (pushed g)) ->
  let g' := Ghost (pushed g) (taken g ++ (pair i <$> vs)) in
  ring_inv (set_head (n_taken g + Z.of_nat (length vs)) s) g' /\
  ring_guar i (s, g) (set_head (n_taken g + Z.of_nat (length vs)) s, g').
Proof.
  intros [HL Hh Ht Hw Hwin Htk Hs] Hle Hvs g'. unfold n_taken, n_pushed in *. split.
  - constructor; unfold g', n_taken, n_pushed; simpl; rewrite ?length_app, ?length_fmap; try lia.
    + rewrite fmap_app, Htk, <- list_fmap_compose, list_fmap_id.
      rewrite Nat2Z.id in Hvs. rewrite Hvs at 1. by rewrite take_take_drop.
    + intros k v Hk. apply Hs. lia.
  - split; [done|]. split; [|done]. by exists vs.
Qed.

Lemma ring_inv_front s g k v :
  ring_inv s g -> n_taken g <= Z.of_nat k -> pushed g !! k = Some v ->
  buffer s !!! Z.to_nat (Z.of_nat k mod Capacity) = v.
Proof. intros HI ? ?. apply lookup_total_Some. by eapply ri_slots. Qed.

(** *** Triples

    [own i acc F]: thread [i] has taken [acc] so far, and [F] holds of what
    was pushed. *)
Definition own (i : nat) (acc : list T) (F : list T -> Prop) : asrt (ring T) ghost :=
  fun _ g => taken_by i (taken g) = acc /\ F (pushed g).

Definition stable_frame (i : nat) (F : list T -> Prop) : Prop :=
  stable ring_protocol i (fun _ g => F (pushed g)).

Lemma stable_own i acc F : stable_frame i F -> stable ring_protocol i (own i acc F).
Proof. intros HF. apply stable_and; [apply ring_stable_mine|apply HF]. Qed.

Hint Resolve stable_own stable_and stable_copied stable_head_lb stable_tail_lb ring_stable_mine
  stable_pushed : sf.

Lemma rg_load_slot {A} i x (k : T -> prog (ring T) A) P Q :
  (forall s g, ring_inv s g -> P s g -> exists P',
     P' s g /\ stable ring_protocol i P' /\
     rg ring_protocol i (k (buffer s !!! Z.to_nat (x mod Capacity))) P' Q) ->
  rg ring_protocol i (bind (load_slot Capacity (x mod Capacity)) k) P Q.
Proof.
  intros Hk. unfold load_slot. pose proof (mod_capacity_range Capacity Hcap x).
  unfold check. rewrite (proj2 (andb_true_iff _ _)) by (split; lia).
  change (rg ring_protocol i
    (bind (load (fun s => buffer s !!! Z.to_nat (x mod Capacity))) k) P Q).
  by apply rg_load; [apply ring_guar_refl|].
Qed.

(** The compare-exchange that hands [vs] to thread [i], and its failure. *)
Lemma rg_take {A} i acc F h vs (k : bool * Z -> prog (ring T) A) Q :
  stable_frame i F -> 0 <= h ->
  rg ring_protocol i (k (true, h)) (own i (acc ++ vs) F) Q ->
  (forall z, rg ring_protocol i (k (false, z)) (own i acc F) Q) ->
  rg ring_protocol i (bind (cas_weak head set_head h (h +w Z.of_nat (length vs))) k)
    (fun s g => own i acc F s g /\ copied h vs s g) Q.
Proof.
  intros HF Hh Hs Hf. apply rg_cas_weak; [apply ring_guar_refl| |].
  - intros s g HI [[Hm HFs] (H1 & H2 & H3)] Hcur.
    assert (n_taken g = h) as Heq by (rewrite <- (ri_head _ _ HI); done).
    destruct (ring_inv_take i vs s g) as [HI' HG']; [done|lia|rewrite Heq; auto|].
    pose proof (ri_word _ _ HI). rewrite szwrap_small by lia. rewrite <- Heq.
    eexists _, (own i (acc ++ vs) F). split; [apply HI'|]. split; [done|].
    split; [|split; [by apply stable_own|by rewrite Heq]].
    split; simpl; [|done]. by rewrite taken_by_app, taken_by_own, Hm.
  - intros s g HI [Ho _]. exists (own i acc F). auto with sf.
Qed.

Lemma ring_rg_steal i acc F fuel :
  stable_frame i F ->
  rg ring_protocol i (steal Capacity fuel) (own i acc F)
    (fun r => own i (acc ++ option_list r) F).
Proof.
  intros HF. induction fuel as [|fuel IH]; [done|]. cbn [steal].
  apply rg_load; [apply ring_guar_refl|]. intros s g HI Ho. rewrite (ri_head _ _ HI).
  set (h := n_taken g). assert (0 <= h) as Hh by (unfold h, n_taken; lia).
  exists (fun s g => own i acc F s g /\ h <= n_taken g).
  split; [split; [done|reflexivity]|]. split; [auto with sf|]. clearbody h. clear s g HI Ho.
  apply rg_load; [apply ring_guar_refl|]. intros s g HI [Ho Hle]. rewrite (ri_tail _ _ HI).
  zcase.
  { exists (own i acc F). split; [done|]. split; [auto with sf|]. simpl.
    intros ? ? ? ?. by rewrite app_nil_r. }
  exists (fun s g => (own i acc F s g /\ h <= n_taken g) /\ h + 1 <= n_pushed g).
  pose proof (ri_window _ _ HI).
  split; [split; [done|lia]|]. split; [auto with sf|]. clear s g HI Ho Hle H0 n.
  rewrite kMask_land by done. apply rg_load_slot. intros s g HI [[Ho Hle] Ht].
  set (out := buffer s !!! _).
  exists (fun s g => own i acc F s g /\ copied h [out] s g).
  split; [split; [done|]|split; [auto with sf|]].
  { split; [done|]. split; [simpl; lia|]. intros Heq.
    destruct (lookup_lt_is_Some_2 (pushed g) (Z.to_nat h)) as [v Hv]; [unfold n_pushed in *; lia|].
    pose proof (ring_inv_front s g (Z.to_nat h) v HI ltac:(lia) Hv) as Ev.
    rewrite Z2Nat.id in Ev by done. subst out. rewrite Ev.
    by rewrite (drop_S _ _ _ Hv). }
  clearbody out. clear s g HI Ho Hle Ht.
  apply (rg_take i acc F h [out]); [done|done| |].
  - simpl. done.
  - intros z. simpl. apply IH.
Qed.

Lemma steal_pop fuel : pop Capacity fuel = steal (T:=T) Capacity fuel.
Proof. done. Qed.

Lemma rg_copy i acc F h n vs :
  stable_frame i F -> 0 <= h ->
  rg ring_protocol i (copy Capacity h (Z.of_nat (length vs)) n)
    (fun s g => (own i acc F s g /\ copied h vs s g) /\
                h + Z.of_nat (length vs + n) <= n_pushed g)
    (fun out s g => length out = n /\ own i acc F s g /\ copied h (vs ++ out) s g).
Proof.
  intros HF Hh. revert vs. induction n as [|n IH]; intros vs; cbn [copy].
  { intros s g _ [[? ?] _]. by rewrite app_nil_r. }
  rewrite kMask_land_wrap by done. apply rg_load_slot. intros s g HI [[Ho Hc] Hle].
  set (v := buffer s !!! _).
  exists (fun s g => (own i acc F s g /\ copied h (vs ++ [v]) s g) /\
                     h + Z.of_nat (length (vs ++ [v]) + n) <= n_pushed g).
  assert (Hv : copied h (vs ++ [v]) s g).
  { destruct Hc as (H1 & H2 & H3). split; [done|]. rewrite length_app. simpl. split; [lia|].
    intros Heq. specialize (H3 Heq).
    set (j := (Z.to_nat h + length vs)%nat).
    destruct (lookup_lt_is_Some_2 (pushed g) j) as [w Hw]; [unfold n_pushed, j in *; lia|].
    pose proof (ring_inv_front s g j w HI ltac:(lia) Hw) as Ev.
    replace (Z.of_nat j) with (h + Z.of_nat (length vs)) in Ev by lia.
    subst v. rewrite Ev, Nat.add_1_r.
    rewrite (take_S_r _ _ w) by (rewrite lookup_drop; done). by rewrite <- H3. }
  split; [split; [done|rewrite length_app; simpl; lia]|]. split; [auto with sf|].
  replace (Z.of_nat (length vs) + 1) with (Z.of_nat (length (vs ++ [v]))) by (rewrite length_app; simpl; lia).
  clearbody v. clear s g HI Ho Hc Hle Hv.
  eapply rg_bind; [apply (IH (vs ++ [v]))|]. intros rest s g _ (Hlen & Ho & Hc).
  rewrite <- app_assoc in Hc. simpl in *. auto.
Qed.

Lemma rg_grab i acc F fuel (half : bool) :
  stable_frame i F ->
  rg ring_protocol i (grab Capacity fuel half) (own i acc F) (fun r => own i (acc ++ r) F).
Proof.
  intros HF. induction fuel as [|fuel IH]; [done|]. cbn [grab].
  apply rg_load; [apply ring_guar_refl|]. intros s g HI Ho. rewrite (ri_head _ _ HI).
  set (h := n_taken g). assert (0 <= h) as Hh by (unfold h, n_taken; lia).
  exists (fun s g => own i acc F s g /\ h <= n_taken g).
  split; [split; [done|reflexivity]|]. split; [auto with sf|]. clearbody h. clear s g HI Ho.
  apply rg_load; [apply ring_guar_refl|]. intros s g HI [Ho Hle]. rewrite (ri_tail _ _ HI).
  set (t := n_pushed g). pose proof (ri_window _ _ HI). pose proof (ri_word _ _ HI).
  assert (h <= t < 2 ^ SIZE_BITS) as Ht by (subst t; lia).
  rewrite szwrap_small by lia.
  set (m := if half then _ else _).
  assert (0 <= m <= t - h) as Hm by (subst m; destruct half; dlia).
  zcase.
  { exists (own i acc F). split; [done|]. split; [auto with sf|]. simpl.
    intros ? ? ? ?. by rewrite app_nil_r. }
  set (cnt := if _ >? _ then _ else _).
  assert (0 <= cnt <= t - h) as Hcnt.
  { subst cnt. unfold kEntriesPerBlock. destruct Hcap as [_ [? ?]].
    assert (0 <= Capacity / 2) by (apply Z.div_pos; lia). zcase; lia. }
  exists (fun s g => (own i acc F s g /\ copied h [] s g) /\
                     h + Z.of_nat (length (@nil T) + Z.to_nat cnt) <= n_pushed g).
  split; [split; [split; [done|]|subst t; simpl; lia]|split; [auto with sf|]].
  { split; [done|]. split; [simpl; lia|done]. }
  assert (0 <= cnt) as Hc0 by lia. clearbody cnt. clear - HF Hh Hc0 IH Hcap.
  eapply rg_bind; [apply (rg_copy i acc F h (Z.to_nat cnt) [] HF Hh)|]. intros out. cbn [app].
  apply rg_pure. intros Hlen. replace cnt with (Z.of_nat (length out)) by lia.
  apply rg_take; [done|done| |]; simpl; done.
Qed.

(** *** The owner's push *)

Definition stored (t : Z) (v : T) : asrt (ring T) ghost :=
  fun s g => n_pushed g < n_taken g + Capacity /\
             buffer s !! Z.to_nat (t mod Capacity) = Some v.

Lemma stable_stored t v : stable ring_protocol 0 (stored t v).
Proof.
  intros j s g s' g' Hj _ _ (_ & [vs E] & Hp) [Hlt Hb]. destruct (Hp Hj) as [E1 E2]. simpl in *.
  unfold stored, n_pushed, n_taken in *. rewrite E1, E2, E, length_app. split; [lia|done].
Qed.

Lemma ring_inv_store s g v :
  ring_inv s g -> n_pushed g < n_taken g + Capacity ->
  ring_inv (set_buffer (n_pushed g mod Capacity) v s) g.
Proof.
  intros [HL Hh Ht Hw Hwin Htk Hs] Hroom. constructor; simpl; auto.
  - by rewrite length_insert.
  - intros k w Hk Hkw. rewrite list_lookup_insert_ne; [by apply Hs|]. intros E.
    pose proof (lookup_lt_Some _ _ _ Hkw). pose proof (mod_capacity_range Capacity Hcap (n_pushed g)).
    pose proof (mod_capacity_range Capacity Hcap (Z.of_nat k)).
    apply Z2Nat.inj in E; [|lia|lia]. unfold n_pushed, n_taken in *.
    apply mod_capacity_inj in E; [lia|done|lia].
Qed.

Lemma ring_inv_publish s g v :
  ring_inv s g -> stored (n_pushed g) v s g -> n_pushed g + 1 < 2 ^ SIZE_BITS ->
  ring_inv (set_tail (n_pushed g + 1) s) (Ghost (pushed g ++ [v]) (taken g)).
Proof.
  intros [HL Hh Ht Hw Hwin Htk Hs] [Hroom Hb] Hnw. unfold n_pushed, n_taken in *.
  constructor; unfold n_pushed, n_taken; simpl; rewrite ?length_app; simpl; auto; try lia.
  - rewrite take_app_le by lia. done.
  - intros k w Hk Hkw. apply lookup_app_Some in Hkw as [Hkw|[Hge Hkw]]; [by apply Hs|].
    apply list_lookup_singleton_Some in Hkw as [Hz ->].
    replace (Z.of_nat k) with (Z.of_nat (length (pushed g))) by lia. done.
Qed.

Lemma stable_frame_true i : stable_frame i (fun _ => True).
Proof. by intros j s g s' g' ? ? ? ? ?. Qed.

Lemma stable_frame_eq L : stable_frame 0 (eq L).
Proof. intros j s g s' g' Hj _ _ (_ & _ & Hp) ->. symmetry. by apply Hp. Qed.

Lemma ring_rg_push acc L v :
  Z.of_nat (length L) + 1 < 2 ^ SIZE_BITS ->
  rg ring_protocol 0 (push Capacity v) (own 0 acc (eq L))
    (fun b => own 0 acc (eq (if b : bool then L ++ [v] else L))).
Proof.
  intros Hnw. unfold push.
  pose proof (stable_frame_eq L) as HF.
  apply rg_load; [apply ring_guar_refl|]. intros s g HI Ho. rewrite (ri_tail _ _ HI).
  assert (n_pushed g = Z.of_nat (length L)) as -> by (unfold n_pushed; by rewrite <- (proj2 Ho)).
  set (t := Z.of_nat (length L)) in *.
  exists (own 0 acc (eq L)). split; [done|]. split; [auto with sf|]. clear s g HI Ho.
  apply rg_load; [apply ring_guar_refl|]. intros s g HI Ho. rewrite (ri_head _ _ HI).
  set (h := n_taken g).
  assert (n_pushed g = t) as Ep by (unfold n_pushed, t; by rewrite <- (proj2 Ho)).
  pose proof (ri_window _ _ HI). pose proof (ri_word _ _ HI).
  rewrite szwrap_small by (unfold h, n_taken in *; lia). zcase.
  { exists (own 0 acc (eq L)). split; [done|]. split; [auto with sf|]. by simpl. }
  exists (fun s g => own 0 acc (eq L) s g /\ h <= n_taken g).
  split; [split; [done|reflexivity]|]. split; [auto with sf|].
  assert (t < h + Capacity) as Hroom by lia. clearbody h. clear s g HI Ho Ep H0 H1 H2.
  rewrite kMask_land by done. unfold store_slot, check. pose proof (mod_capacity_range Capacity Hcap t).
  rewrite (proj2 (andb_true_iff _ _)) by (split; lia). cbn [bind].
  apply (rg_store ring_protocol 0 (set_buffer (t mod Capacity) v)). intros s g HI [Ho Hh].
  assert (n_pushed g = t) as Ep by (unfold n_pushed, t; by rewrite <- (proj2 Ho)).
  exists g, (fun s g => own 0 acc (eq L) s g /\ stored t v s g).
  split; [rewrite <- Ep; apply ring_inv_store; [done|lia]|].
  split; [split; [done|split; [exists []; by rewrite app_nil_r|done]]|].
  split; [split; [done|split; [lia|]]|].
  { simpl. apply list_lookup_insert_eq. pose proof (ri_length _ _ HI). lia. }
  split; [apply stable_and; [auto with sf|apply stable_stored]|]. clear s g HI Ho Hh Ep.
  apply rg_store. intros s g HI [Ho Hst].
  assert (n_pushed g = t) as Ep by (unfold n_pushed, t; by rewrite <- (proj2 Ho)).
  exists (Ghost (pushed g ++ [v]) (taken g)), (own 0 acc (eq (L ++ [v]))).
  rewrite szwrap_small by lia. split; [rewrite <- Ep; apply ring_inv_publish; [done| |lia]|].
  { by rewrite Ep. }
  split; [split; [by apply prefix_app_r|split; [exists []; by rewrite app_nil_r|done]]|].
  destruct Ho as [? <-]. split; [done|]. split; [|simpl; done].
  apply stable_own, stable_frame_eq.
Qed.

Lemma ring_rg_pushBatch acc L vs :
  Z.of_nat (length L) + Z.of_nat (length vs) < 2 ^ SIZE_BITS ->
  rg ring_protocol 0 (pushBatch Capacity vs) (own 0 acc (eq L))
    (fun n s g => 0 <= n <= Z.of_nat (length vs) /\
                  own 0 acc (eq (L ++ take (Z.to_nat n) vs)) s g).
Proof.
  revert L. induction vs as [|v vs IH]; intros L Hnw; cbn [pushBatch].
  { intros s g _ Ho. simpl. by rewrite app_nil_r. }
  simpl in Hnw. eapply rg_bind; [apply ring_rg_push; lia|]. intros [].
  - eapply rg_bind; [apply (IH (L ++ [v])); rewrite length_app; simpl; lia|]. intros n.
    intros s g _ [Hn Ho]. split; [simpl; lia|].
    replace (Z.to_nat (n + 1)) with (S (Z.to_nat n)) by lia. rewrite <- app_assoc in Ho. done.
  - intros s g _ Ho. simpl. split; [lia|]. by rewrite app_nil_r.
Qed.

Lemma rg_exec_owner acc L fuel o :
  Z.of_nat (length L) + op_pushes o < 2 ^ SIZE_BITS ->
  rg ring_protocol 0 (exec_op Capacity fuel o) (own 0 acc (eq L))
    (fun r s g => Z.of_nat (length (put r)) <= op_pushes o /\
                  own 0 (acc ++ got r) (eq (L ++ put r)) s g).
Proof.
  intros Hnw. pose proof (stable_frame_eq L) as HF. destruct o; cbn [exec_op op_pushes] in *.
  - eapply rg_bind; [apply ring_rg_push; lia|]. intros b s g _ Ho. simpl.
    rewrite app_nil_r. destruct b; simpl; rewrite ?app_nil_r; done.
  - eapply rg_bind; [apply ring_rg_pushBatch; lia|]. intros n s g _ [Hn Ho]. simpl.
    rewrite app_nil_r, length_take. split; [lia|done].
  - eapply rg_bind; [apply ring_rg_steal; done|]. intros r s g _ Ho. simpl. by rewrite app_nil_r.
  - eapply rg_bind; [apply rg_grab; done|]. intros r s g _ Ho. simpl. by rewrite app_nil_r.
  - eapply rg_bind; [apply ring_rg_steal; done|]. intros r s g _ Ho. simpl. by rewrite app_nil_r.
  - eapply rg_bind; [apply rg_grab; done|]. intros r s g _ Ho. simpl. by rewrite app_nil_r.
Qed.

Lemma rg_exec_thief i acc fuel o :
  thief_op o ->
  rg ring_protocol i (exec_op Capacity fuel o) (own i acc (fun _ => True))
    (fun r => own i (acc ++ got r) (fun _ => True)).
Proof.
  intros Ho. pose proof (stable_frame_true i) as HF.
  destruct o; try done; cbn [exec_op].
  - eapply rg_bind; [apply ring_rg_steal; done|]. by intros r s g _ Hw.
  - eapply rg_bind; [apply rg_grab; done|]. by intros r s g _ Hw.
Qed.

Lemma all_got_cons (r : result T) rs : all_got (r :: rs) = got r ++ all_got rs.
Proof. done. Qed.
Lemma all_put_cons (r : result T) rs : all_put (r :: rs) = put r ++ all_put rs.
Proof. done. Qed.

Lemma ring_pushes_nonneg (os : list (op T)) : 0 <= pushes os.
Proof. induction os as [|o os IH]; simpl; [lia|]. destruct o; simpl; lia. Qed.

Lemma rg_ops_owner acc L fuel os :
  Z.of_nat (length L) + pushes os < 2 ^ SIZE_BITS ->
  rg ring_protocol 0 (exec_ops Capacity fuel os) (own 0 acc (eq L))
    (fun rs => own 0 (acc ++ all_got rs) (eq (L ++ all_put rs))).
Proof.
  revert acc L. induction os as [|o os IH]; intros acc L Hnw; cbn [exec_ops].
  { intros s g _ Ho. unfold all_got, all_put; simpl. by rewrite !app_nil_r. }
  simpl in Hnw. pose proof (ring_pushes_nonneg os).
  eapply rg_bind; [apply rg_exec_owner; lia|]. intros r. apply rg_pure. intros Hput.
  eapply rg_bind; [apply IH; rewrite length_app; lia|]. intros rs s g _ Ho.
  by rewrite all_got_cons, all_put_cons, !app_assoc.
Qed.

Lemma rg_ops_thief i acc fuel os :
  Forall thief_op os ->
  rg ring_protocol i (exec_ops Capacity fuel os) (own i acc (fun _ => True))
    (fun rs => own i (acc ++ all_got rs) (fun _ => True)).
Proof.
  intros Hos. revert acc. induction Hos as [|o os Ho Hos IH]; intros acc; cbn [exec_ops].
  { intros s g _ Hw. by rewrite app_nil_r. }
  eapply rg_bind; [by apply rg_exec_thief|]. intros r.
  eapply rg_bind; [apply IH|]. intros rs s g _ Hw. by rewrite all_got_cons, app_assoc.
Qed.

(** *** The pool *)

(** The owner's thread followed by the thieves'. *)
Definition threads (fuel : nat) (owner : list (op T)) (thieves : list (list (op T))) :
    list (prog (ring T) (list (result T))) :=
  exec_ops Capacity fuel <$> owner :: thieves.

Definition thread_post (i : nat) (rs : list (result T)) : asrt (ring T) ghost :=
  match i with
  | O => own 0 (all_got rs) (eq (all_put rs))
  | _ => own i (all_got rs) (fun _ => True)
  end.

Lemma ring_inv_init junk :
  Z.of_nat (length junk) = Capacity -> ring_inv (init junk) (Ghost [] []).
Proof.
  intros. destruct Hcap as [_ [? ?]]. pose proof SIZE_BITS_pos.
  constructor; unfold n_pushed, n_taken; simpl; try done; try lia.
Qed.

Lemma threads_ok junk fuel owner thieves :
  Z.of_nat (length junk) = Capacity -> pushes owner < 2 ^ SIZE_BITS ->
  Forall (Forall thief_op) thieves ->
  pool_ok ring_protocol thread_post (threads fuel owner thieves, init junk).
Proof.
  intros Hj Hw Hth. exists (Ghost [] []). split; [by apply ring_inv_init|].
  intros i p Hi. unfold threads in Hi. simpl in Hi. destruct i as [|i]; simpl in Hi.
  - injection Hi as <-. exists (own 0 [] (eq [])). split; [apply stable_own, stable_frame_eq|].
    split; [done|]. apply (rg_ops_owner [] []). simpl. lia.
  - apply list_lookup_fmap_Some in Hi as (os & -> & Hos).
    exists (own (S i) [] (fun _ => True)). split; [apply stable_own, stable_frame_true|].
    split; [done|]. apply (rg_ops_thief (S i) []). rewrite Forall_lookup in Hth. eauto.
Qed.

Lemma ring_inv_contents s g :
  ring_inv s g -> (snd <$> taken g) ++ contents Capacity s = pushed g.
Proof.
  intros HI. rewrite (ri_taken _ _ HI).
  assert (Hr : rep Capacity s (drop (length (taken g)) (pushed g))).
  { destruct HI as [HL Hh Ht Hw Hwin Htk Hs]. unfold n_pushed, n_taken in *.
    constructor; rewrite ?length_drop; try lia.
    - rewrite szwrap_small; lia.
    - intros i v Hi. rewrite lookup_drop in Hi. rewrite <- (Hs (length (taken g) + i)%nat v ltac:(lia) Hi).
      do 3 f_equal. lia. }
  rewrite (rep_contents Capacity Hcap s _ Hr). apply take_drop.
Qed.
End concurrent.

(** ** The properties *)
Section properties.
Context `{SizeT} {T : Type} `{!Inhabited T} (Capacity : Z).

(** *** A bounded FIFO as the specification *)

(** How many values a batched removal takes from a queue of [len]. *)
Definition half_batch (len : nat) : nat :=
  Z.to_nat (Z.min (Z.of_nat len - Z.of_nat len / 2) (Capacity / 2)).

Definition fifo_room (l : list T) : nat := (Z.to_nat Capacity - length l)%nat.

Definition fifo_op (l : list T) (o : op T) : list T * result T :=
  match o with
  | Push v => (l ++ take (fifo_room l) [v], Result (take (fifo_room l) [v]) [])
  | PushBatch vs => (l ++ take (fifo_room l) vs, Result (take (fifo_room l) vs) [])
  | Pop | Steal => (drop 1 l, Result [] (take 1 l))
  | PopBlock | StealBlock => (drop (half_batch (length l)) l, Result [] (take (half_batch (length l)) l))
  end.

Lemma run_pushBatch (Hcap : valid_capacity Capacity) s (l vs : list T) :
  rep Capacity s l ->
  exists s', run (pushBatch Capacity vs) s =
    (s', Done (Z.of_nat (length (take (fifo_room l) vs)))) /\ rep Capacity s' (l ++ take (fifo_room l) vs).
Proof.
  revert s l. induction vs as [|v vs IH]; intros s l Hr; cbn [pushBatch].
  { exists s. rewrite take_nil, app_nil_r. done. }
  pose proof (run_push Capacity Hcap s l v Hr) as Hp. unfold fifo_room in *. run_steps.
  case_decide as Hlt.
  - destruct Hp as (s1 & -> & Hr1). run_steps. destruct (IH s1 (l ++ [v]) Hr1) as (s2 & -> & Hr2).
    run_steps. rewrite length_app in *. simpl in *.
    replace (Z.to_nat Capacity - length l)%nat with (S (Z.to_nat Capacity - (length l + 1))) by lia.
    simpl. exists s2. split; [do 2 f_equal; lia|]. by rewrite <- app_assoc in Hr2.
  - rewrite Hp. run_steps. replace (Z.to_nat Capacity - length l)%nat with 0%nat by lia.
    exists s. simpl. by rewrite app_nil_r.
Qed.

(** Run alone, every operation does what the FIFO does, at any position of the
    free-running counters in the word. *)
Theorem ring_refines_fifo (s : ring T) (l : list T) (o : op T) (fuel : nat) :
  valid_capacity Capacity -> rep Capacity s l ->
  exists s', run (exec_op Capacity (S fuel) o) s = (s', Done (fifo_op l o).2) /\
             rep Capacity s' (fifo_op l o).1.
Proof.
  intros Hcap Hr. pose proof (rep_fits _ _ _ Hr).
  assert (Hpop : exists s', run (o <- pop Capacity (S fuel) ;; Ret (Result [] (option_list o))) s =
                   (s', Done (Result [] (take 1 l))) /\ rep Capacity s' (drop 1 l)).
  { pose proof (run_pop Capacity Hcap s l fuel Hr) as Hp. rewrite run_bind.
    destruct l; [rewrite Hp; eexists; done|destruct Hp as (s' & -> & ?); simpl; rewrite drop_0; eauto]. }
  assert (Hgrab : exists s', run (o <- grab Capacity (S fuel) true ;; Ret (Result [] o)) s =
     (s', Done (Result [] (take (half_batch (length l)) l))) /\ rep Capacity s' (drop (half_batch (length l)) l)).
  { destruct (run_grab Capacity Hcap s l fuel true Hr) as (s' & E & ?).
    rewrite run_bind, E. eexists. split; [done|]. done. }
  destruct o; try done; cbn [exec_op fifo_op fst snd]; rewrite run_bind.
  - pose proof (run_push Capacity Hcap s l v Hr) as Hp. unfold fifo_room. case_decide.
    + destruct Hp as (s' & -> & ?). exists s'.
      replace (Z.to_nat Capacity - length l)%nat with (S (Z.to_nat Capacity - length l - 1)) by lia.
      simpl. by rewrite take_nil.
    + rewrite Hp. exists s. replace (Z.to_nat Capacity - length l)%nat with 0%nat by lia.
      simpl. by rewrite app_nil_r.
  - destruct (run_pushBatch Hcap s l vs Hr) as (s' & -> & ?). exists s'. split; [|done].
    run_steps. do 3 f_equal. rewrite Nat2Z.id, length_take. 
    destruct (decide (fifo_room l <= length vs)%nat).
    + by rewrite Nat.min_l by lia.
    + rewrite Nat.min_r by lia. by rewrite !take_ge by lia.
Qed.

(** C28: Any number of thieves against the owner, in any interleaving: once every
    thread has returned, one log of removals explains all results.  The log's
    values followed by what is still queued are the values whose push
    succeeded, in push order; and the entries of each thread are exactly what
    it got, in the order it got them. *)
Theorem ring_exactly_once junk fuel owner thieves ts s rs :
  valid_capacity Capacity -> Z.of_nat (length junk) = Capacity ->
  pushes owner < 2 ^ SIZE_BITS -> Forall (Forall (thief_op (T:=T))) thieves ->
  reach (threads Capacity fuel owner thieves, init junk) (ts, s) -> finished ts rs ->
  exists log : list (nat * T),
    (snd <$> log) ++ contents Capacity s = all_put (rs !!! 0%nat) /\
    forall i r, rs !! i = Some r -> taken_by i log = all_got r.
Proof.
  intros Hcap Hj Hw Hth Hreach Hfin.
  pose proof (pool_ok_reach _ _ _ _ Hreach (threads_ok Capacity Hcap junk fuel owner thieves Hj Hw Hth)) as Hok.
  destruct (pool_ok_finished _ _ _ _ _ Hfin Hok) as (g & HI & Hpost).
  exists (taken g). split.
  - rewrite (ring_inv_contents Capacity Hcap s g HI).
    destruct rs as [|r0 rs].
    { exfalso. apply reach_length in Hreach. unfold finished in Hfin. simpl in Hfin. subst ts.
      simpl in Hreach. done. }
    destruct (Hpost 0%nat r0 eq_refl) as [_ E]. done.
  - intros i r Hi. pose proof (Hpost i r Hi) as Hp. destruct i; apply Hp.
Qed.

(** No thread ever reads or writes outside the ring's buffer. *)
Theorem ring_in_bounds junk fuel owner thieves ts s i msg :
  valid_capacity Capacity -> Z.of_nat (length junk) = Capacity ->
  pushes owner < 2 ^ SIZE_BITS -> Forall (Forall (thief_op (T:=T))) thieves ->
  reach (threads Capacity fuel owner thieves, init junk) (ts, s) ->
  ts !! i <> Some (Fatal msg).
Proof.
  intros Hcap Hj Hw Hth Hreach.
  pose proof (pool_ok_reach _ _ _ _ Hreach (threads_ok Capacity Hcap junk fuel owner thieves Hj Hw Hth)) as Hok.
  by eapply pool_ok_not_fatal.
Qed.
End properties.

(** ** Concrete runs: two values pushed and one popped by the owner while a
    thief steals, on a 64-bit machine. *)
Section witnesses.
Let owner : list (op Z) := [Push 10; Push 20; PushBatch [30; 40; 50]; Pop].
Let thief : list (op Z) := [Steal; StealBlock].
Let start := (threads (H:=size_t_64) 4 5 owner [thief], init [0; 0; 0; 0]).

Lemma ring_refines_fifo_witness :
  exists s', run (exec_op (H:=size_t_64) 4 1 Pop) (Ring 18446744073709551615 1 [7; 0; 0; 5]) =
    (s', Done (Result [] [5])) /\ rep (H:=size_t_64) 4 s' [7].
Proof.
  apply (ring_refines_fifo (H:=size_t_64) 4 (Ring 18446744073709551615 1 [7; 0; 0; 5]) [5; 7] Pop 0).
  - repeat split; vm_compute; congruence.
  - constructor; [reflexivity|split; vm_compute; congruence|reflexivity|vm_compute; congruence|].
    intros [|[|i]] v; simpl; intros [= <-]; vm_compute; reflexivity.
Defined.

Let results : list (list (result Z)) :=
  [[Result [10] []; Result [20] []; Result [30; 40; 50] []; Result [] [20]];
   [Result [] []; Result [] [10]]].
Let final : ring Z := Ring 2 5 [50; 20; 30; 40].

Lemma ring_exactly_once_witness :
  exists log, (snd <$> log) ++ [30; 40; 50] = [10; 20; 30; 40; 50] /\
    forall i r, results !! i = Some r -> taken_by i log = all_got r.
Proof.
  apply (ring_exactly_once (H:=size_t_64) 4 [0; 0; 0; 0] 5 owner [thief] (Ret <$> results) final results).
  - repeat split; vm_compute; congruence.
  - reflexivity.
  - reflexivity.
  - repeat constructor.
  - apply (run_avail_reach (round_robin 2 40)). vm_compute. reflexivity.
  - reflexivity.
Defined.

Lemma ring_in_bounds_witness : (Ret <$> results : list (prog (ring Z) _)) !! 0%nat <> Some (Fatal "buffer index").
Proof.
  apply (ring_in_bounds (H:=size_t_64) 4 [0; 0; 0; 0] 5 owner [thief] (Ret <$> results) final).
  - repeat split; vm_compute; congruence.
  - reflexivity.
  - reflexivity.
  - repeat constructor.
  - apply (run_avail_reach (round_robin 2 40)). vm_compute. reflexivity.
Defined.
End witnesses.
