(* ===== verification/Bwos.v ===== *)
(** * queue/BwosQueue.h: the operations

    Block-based work stealing queue.  One owner thread pushes and pops, any
    number of thieves steal.  The storage is a ring of [NumBlocks] blocks, each
    with four cursors ([PackedCursor], see Cursor.v) and [EntriesPerBlock]
    entries.

    Every member function is a program of atomic accesses (Conc.v); plain
    members that only one thread uses are accessed in steps of their own, too.
    A [Block *] is the block's position in [blocks].  Loops with a bound in the
    source ([NumBlocks + 1] turns) recurse on that bound; [for (;;)] loops take
    fuel. *)

From Stdlib Require Import ZArith Lia.
From stdpp Require Import base tactics list numbers option strings.
From S2P Require Import Prelude Conc Cursor.

Section BwosQueue.
Context `{SizeT} {T : Type} `{!Inhabited T} (NumBlocks EntriesPerBlock : Z).

(** [struct Block]. *)
Record Block := MkBlock {
  committed : Z;
  consumed : Z;
  reserved : Z;
  stolen : Z;
  next : nat;
  isHead : bool;
  entries : list T
}.

#[global] Instance Block_inhabited : Inhabited Block := populate (MkBlock 0 0 0 0 0 false []).

Record bwos := MkBwos {
  blocks : list Block;
  producerBlock : nat;
  consumerBlock : nat;
  stealPosition : Z
}.

Definition set_committed (v : Z) (b : Block) : Block :=
  MkBlock v (consumed b) (reserved b) (stolen b) (next b) (isHead b) (entries b).
Definition set_consumed (v : Z) (b : Block) : Block :=
  MkBlock (committed b) v (reserved b) (stolen b) (next b) (isHead b) (entries b).
Definition set_reserved (v : Z) (b : Block) : Block :=
  MkBlock (committed b) (consumed b) v (stolen b) (next b) (isHead b) (entries b).
Definition set_stolen (v : Z) (b : Block) : Block :=
  MkBlock (committed b) (consumed b) (reserved b) v (next b) (isHead b) (entries b).
Definition set_entry (i : Z) (v : T) (b : Block) : Block :=
  MkBlock (committed b) (consumed b) (reserved b) (stolen b) (next b) (isHead b)
    (<[Z.to_nat i := v]> (entries b)).

Definition blk (s : bwos) (p : nat) : Block := blocks s !!! p.
Definition upd (p : nat) (f : Block -> Block) (s : bwos) : bwos :=
  MkBwos (alter f p (blocks s)) (producerBlock s) (consumerBlock s) (stealPosition s).
Definition set_producerBlock (p : nat) (s : bwos) : bwos :=
  MkBwos (blocks s) p (consumerBlock s) (stealPosition s).
Definition set_consumerBlock (p : nat) (s : bwos) : bwos :=
  MkBwos (blocks s) (producerBlock s) p (stealPosition s).
Definition set_stealPosition (v : Z) (s : bwos) : bwos :=
  MkBwos (blocks s) (producerBlock s) (consumerBlock s) v.

Definition kNumBlocks : Z := NumBlocks.
Definition kEntriesPerBlock : Z := EntriesPerBlock.
Definition kCapacity : Z := (NumBlocks - 1) * EntriesPerBlock.

(** [using Cursor = PackedCursor<bitsToHold(EntriesPerBlock)>]. *)
Definition bits : Z := bitsToHold EntriesPerBlock.
Definition idx (raw : Z) : Z := index bits raw.
Definition ver (raw : Z) : Z := version bits raw.

(** The constructor. *)
Definition init_block (junk : list T) (i : nat) : Block :=
  let isHead := Nat.eqb i 0 in
  let owner := if isHead then make bits 1 0 else make bits 0 EntriesPerBlock in
  let thief := make bits (if isHead then 1 else 0) EntriesPerBlock in
  MkBlock owner owner thief thief ((i + 1) mod Z.to_nat NumBlocks)%nat isHead junk.

Definition init (junk : list T) : bwos :=
  MkBwos (init_block junk <$> seq 0 (Z.to_nat NumBlocks)) 0 0 0.

(** ** Accesses to a block *)

Definition is_block (p : nat) : bool := Z.of_nat p <? NumBlocks.
Definition is_entry (i : Z) : bool := (0 <=? i) && (i <? EntriesPerBlock).

Definition get {X} (p : nat) (f : Block -> X) : prog bwos X :=
  check (is_block p) "blocks index" ;;; load (fun s => f (blk s p)).
Definition set (p : nat) (f : Block -> Block) : prog bwos unit :=
  check (is_block p) "blocks index" ;;; store (upd p f).
(** [block.entries[i]]. *)
Definition get_entry (p : nat) (i : Z) : prog bwos T :=
  check (is_block p && is_entry i) "entries index" ;;;
  load (fun s => entries (blk s p) !!! Z.to_nat i).
Definition put_entry (p : nat) (i : Z) (v : T) : prog bwos unit :=
  check (is_block p && is_entry i) "entries index" ;;; store (upd p (set_entry i v)).

(** ** Producer *)

Definition isNextBlockWritable (next : nat) (nextVersion : Z) : prog bwos bool :=
  let previousVersion := nextVersion -w 1 in
  c <- get next consumed ;;
  if negb (idx c =? EntriesPerBlock) || negb (ver c =? previousVersion) then Ret false
  else
    st <- get next stolen ;;
    Ret ((idx st =? EntriesPerBlock) && (ver st =? previousVersion)).

Definition advanceProducer (block : nat) (committed_ : Z) : prog bwos bool :=
  nxt <- get block next ;;
  nh <- get nxt isHead ;;
  let round := nextRound bits committed_ nh in
  w <- isNextBlockWritable nxt (ver round) ;;
  if negb w then Ret false
  else
    set nxt (set_committed round) ;;;
    set nxt (set_stolen round) ;;;
    set nxt (set_reserved round) ;;;
    store (set_producerBlock nxt) ;;;
    Ret true.

Fixpoint push (fuel : nat) (value : T) : prog bwos bool :=
  match fuel with
  | O => Starved
  | S fuel =>
      block <- load producerBlock ;;
      c <- get block committed ;;
      let index := idx c in
      if index <? EntriesPerBlock then
        put_entry block index value ;;;
        set block (set_committed (addIndex c 1)) ;;;
        Ret true
      else
        ok <- advanceProducer block c ;;
        if negb ok then Ret false else push fuel value
  end.

(** The inner loop of [pushBatch]: fills the block from [index] on; returns
    the values left over and how many went in. *)
Fixpoint fill (block : nat) (index : Z) (values : list T) : prog bwos (list T * Z) :=
  match values with
  | [] => Ret ([], 0)
  | v :: rest =>
      if index <? EntriesPerBlock then
        put_entry block index v ;;;
        r <- fill block (index + 1) rest ;;
        Ret (r.1, r.2 + 1)
      else Ret (values, 0)
  end.

Fixpoint pushBatch (fuel : nat) (values : list T) (pushed : Z) : prog bwos Z :=
  match fuel with
  | O => Starved
  | S fuel =>
      match values with
      | [] => Ret pushed
      | _ =>
          block <- load producerBlock ;;
          c <- get block committed ;;
          r <- fill block (idx c) values ;;
          let rest := r.1 in
          let count := r.2 in
          (if negb (count =? 0) then set block (set_committed (addIndex c count)) else Ret tt) ;;;
          let pushed := if negb (count =? 0) then pushed + count else pushed in
          match rest with
          | [] => pushBatch fuel rest pushed
          | _ =>
              ok <- advanceProducer block (addIndex c count) ;;
              if negb ok then Ret pushed else pushBatch fuel rest pushed
          end
      end
  end.

(** ** Consumer *)

Definition consumerMayAdvance (next : nat) (consumed_ : Z) : prog bwos bool :=
  nh <- get next isHead ;;
  let nextVersion := ver consumed_ +w (if nh : bool then 1 else 0) in
  r <- get next reserved ;;
  Ret (ver r =? nextVersion).

Definition takeOverConsumerBlock (next : nat) (consumed_ : Z) : prog bwos bool :=
  may <- consumerMayAdvance next consumed_ ;;
  if negb may then Ret false
  else
    nh <- get next isHead ;;
    let nextVersion := ver consumed_ +w (if nh : bool then 1 else 0) in
    let fullyReserved := make bits nextVersion EntriesPerBlock in
    previous <- rmw (fun s => (upd next (set_reserved fullyReserved) s, reserved (blk s next))) ;;
    let claimedByThieves := if idx previous >? EntriesPerBlock then EntriesPerBlock else idx previous in
    rmw (fun s => (upd next (fun b => set_stolen (stolen b +w (EntriesPerBlock - claimedByThieves)) b) s, tt)) ;;;
    set next (set_consumed previous) ;;;
    store (set_consumerBlock next) ;;;
    Ret true.

(** The loop of [locateConsumer], [turns] iterations left. *)
Fixpoint locate (turns : nat) (block : nat) : prog bwos (option (nat * Z)) :=
  match turns with
  | O => Ret None
  | S turns =>
      c <- get block consumed ;;
      if idx c <? EntriesPerBlock then
        k <- get block committed ;;
        if idx c =? idx k then Ret None else Ret (Some (block, c))
      else
        nxt <- get block next ;;
        ok <- takeOverConsumerBlock nxt c ;;
        if negb ok then Ret None else locate turns nxt
  end.

Definition locateConsumer : prog bwos (option (nat * Z)) :=
  block <- load consumerBlock ;;
  locate (Z.to_nat (NumBlocks + 1)) block.

Definition pop : prog bwos (option T) :=
  l <- locateConsumer ;;
  match l with
  | None => Ret None
  | Some (block, c) =>
      out <- get_entry block (idx c) ;;
      set block (set_consumed (addIndex c 1)) ;;;
      Ret (Some out)
  end.

(** [for (i = begin; i < end; ++i) out[i - begin] = block.entries[i]]. *)
Fixpoint copy_entries (block : nat) (i : Z) (n : nat) : prog bwos (list T) :=
  match n with
  | O => Ret []
  | S n =>
      v <- get_entry block i ;;
      rest <- copy_entries block (i + 1) n ;;
      Ret (v :: rest)
  end.

Definition popBlock : prog bwos (list T) :=
  l <- locateConsumer ;;
  match l with
  | None => Ret []
  | Some (block, c) =>
      k <- get block committed ;;
      set block (set_consumed k) ;;;
      copy_entries block (idx c) (Z.to_nat (idx k - idx c))
  end.

(** ** Owner-side probes *)

Definition minRemainingSlots : prog bwos Z :=
  block <- load producerBlock ;;
  c <- get block committed ;;
  let free := EntriesPerBlock -w idx c in
  nxt <- get block next ;;
  nc <- get nxt committed ;;
  w <- isNextBlockWritable nxt (ver nc) ;;
  Ret (if w : bool then free +w EntriesPerBlock else free).

Definition hasStealable : prog bwos bool :=
  p <- load producerBlock ;;
  c <- load consumerBlock ;;
  if Nat.eqb p c then Ret false
  else
    k <- get p committed ;;
    r <- get p reserved ;;
    Ret (negb (r =? k)).

Fixpoint hasEntries_go (turns : nat) (block : nat) (consumed_ : Z) : prog bwos bool :=
  match turns with
  | O => Ret false
  | S turns =>
      if idx consumed_ <? EntriesPerBlock then
        k <- get block committed ;;
        Ret (negb (idx consumed_ =? idx k))
      else
        nxt <- get block next ;;
        may <- consumerMayAdvance nxt consumed_ ;;
        if negb may then Ret false
        else
          nh <- get nxt isHead ;;
          let nextVersion := ver consumed_ +w (if nh : bool then 1 else 0) in
          r <- get nxt reserved ;;
          k <- get nxt committed ;;
          if idx r <? idx k then Ret true
          else if idx r <? EntriesPerBlock then Ret false
          else hasEntries_go turns nxt (make bits nextVersion EntriesPerBlock)
  end.

Definition hasEntries : prog bwos bool :=
  block <- load consumerBlock ;;
  c <- get block consumed ;;
  hasEntries_go (Z.to_nat (NumBlocks + 1)) block c.

Definition producerBlockHasActiveStealers : prog bwos bool :=
  p <- load producerBlock ;;
  r <- get p reserved ;;
  st <- get p stolen ;;
  Ret (negb (r =? st)).

(** ** Thieves *)

Definition thiefMayAdvance (block : nat) (reserved_ : Z) : prog bwos bool :=
  nxt <- get block next ;;
  nh <- get nxt isHead ;;
  let expectedVersion := ver reserved_ +w (if nh : bool then 1 else 0) in
  nr <- get nxt reserved ;;
  Ret (ver nr =? expectedVersion).

(** [blocks[position & (NumBlocks - 1)]]. *)
Definition block_at (position : Z) : nat := Z.to_nat (Z.land position (NumBlocks - 1)).

Definition cas_reserved (p : nat) (expected desired : Z) : prog bwos (bool * Z) :=
  check (is_block p) "blocks index" ;;;
  cas_weak (fun s => reserved (blk s p)) (fun v => upd p (set_reserved v)) expected desired.

Definition add_stolen (p : nat) (n : Z) : prog bwos unit :=
  check (is_block p) "blocks index" ;;;
  rmw (fun s => (upd p (fun b => set_stolen (stolen b +w n) b) s, tt)).

Fixpoint steal (fuel : nat) : prog bwos (option T) :=
  match fuel with
  | O => Starved
  | S fuel =>
      position <- load stealPosition ;;
      let block := block_at position in
      r <- get block reserved ;;
      let index := idx r in
      if index <? EntriesPerBlock then
        k <- get block committed ;;
        if index =? idx k then Ret None
        else
          w <- cas_reserved block r (addIndex r 1) ;;
          if w.1 : bool then
            out <- get_entry block index ;;
            add_stolen block 1 ;;;
            Ret (Some out)
          else steal fuel
      else
        may <- thiefMayAdvance block r ;;
        if negb may then Ret None
        else
          cas_weak stealPosition set_stealPosition position (position +w 1) ;;;
          steal fuel
  end.

Fixpoint stealBlock (fuel : nat) : prog bwos (list T) :=
  match fuel with
  | O => Starved
  | S fuel =>
      position <- load stealPosition ;;
      let block := block_at position in
      r <- get block reserved ;;
      let beg := idx r in
      if beg <? EntriesPerBlock then
        k <- get block committed ;;
        let en := idx k in
        if beg =? en then Ret []
        else
          w <- cas_reserved block r k ;;
          if w.1 : bool then
            out <- copy_entries block beg (Z.to_nat (en - beg)) ;;
            add_stolen block (en -w beg) ;;;
            Ret out
          else stealBlock fuel
      else
        may <- thiefMayAdvance block r ;;
        if negb may then Ret []
        else
          cas_weak stealPosition set_stealPosition position (position +w 1) ;;;
          stealBlock fuel
  end.

Fixpoint isEmptyForThief_go (turns : nat) (position : Z) : prog bwos bool :=
  match turns with
  | O => Ret true
  | S turns =>
      let block := block_at position in
      r <- get block reserved ;;
      if idx r <? EntriesPerBlock then
        k <- get block committed ;;
        Ret (idx r =? idx k)
      else
        may <- thiefMayAdvance block r ;;
        if negb may then Ret true else isEmptyForThief_go turns (position +w 1)
  end.

Definition isEmptyForThief : prog bwos bool :=
  position <- load stealPosition ;;
  isEmptyForThief_go (Z.to_nat (NumBlocks + 1)) position.

(** ** Threads: the owner's and the thieves' calls *)

Inductive op :=
| Push (v : T) | PushBatch (vs : list T) | Pop | PopBlock | Steal | StealBlock.

Definition owner_op (o : op) : Prop := match o with Steal | StealBlock => False | _ => True end.
Definition thief_op (o : op) : Prop := match o with Steal | StealBlock => True | _ => False end.

(** What a call hands to the queue, what it takes from it, and whether it is a
    [pop] that found the queue empty. *)
Record result := Result { put : list T; got : list T; empty : bool }.

Definition exec_op (fuel : nat) (o : op) : prog bwos result :=
  match o with
  | Push v => b <- push fuel v ;; Ret (Result (if b : bool then [v] else []) [] false)
  | PushBatch vs => n <- pushBatch fuel vs 0 ;; Ret (Result (take (Z.to_nat n) vs) [] false)
  | Pop => r <- pop ;; Ret (Result [] (option_list r) (match r with Some _ => false | None => true end))
  | PopBlock => r <- popBlock ;; Ret (Result [] r (Nat.eqb (length r) 0))
  | Steal => r <- steal fuel ;; Ret (Result [] (option_list r) false)
  | StealBlock => r <- stealBlock fuel ;; Ret (Result [] r false)
  end.

Fixpoint exec_ops (fuel : nat) (os : list op) : prog bwos (list result) :=
  match os with
  | [] => Ret []
  | o :: os => r <- exec_op fuel o ;; rs <- exec_ops fuel os ;; Ret (r :: rs)
  end.

Definition all_put (rs : list result) : list T := mjoin (put <$> rs).
Definition all_got (rs : list result) : list T := mjoin (got <$> rs).

Definition op_pushes (o : op) : Z :=
  match o with Push _ => 1 | PushBatch vs => Z.of_nat (length vs) | _ => 0 end.
Fixpoint pushes (os : list op) : Z :=
  match os with [] => 0 | o :: os => op_pushes o + pushes os end.
End BwosQueue.
Arguments Block T : clear implicits.
Arguments bwos T : clear implicits.
Arguments op T : clear implicits.
Arguments result T : clear implicits.
