(* ===== verification/BwosInv.v ===== *)
(** * BwosQueue: invariant of concurrent use

    Blocks are numbered as the producer enters them: block number [b] lives in
    [blocks[b mod NumBlocks]] with version [1 + b / NumBlocks].  The ghost state
    holds the values pushed so far, the producer's and the consumer's block
    numbers, how far the consumer is in its block, which positions were taken
    (by whom, in order) and the claims whose copy is still under way.

    The [k]-th value pushed is entry [k mod E] of block [k / E] ([E] entries per
    block): every block is filled before the next one is entered. *)

From Stdlib Require Import ZArith Lia.
From stdpp Require Import base tactics list numbers option strings gmap.
From S2P Require Import Prelude Conc Cursor Bwos.

(** ** Block numbers *)
Section numbers.
Context (N : Z) (HN : 0 < N).

(** The latest block number not above [P] that lives in ring position [p]. *)
Definition lastb (P p : Z) : Z := P - (P - p) mod N.

(** The version of block number [b]. *)
Definition bver (b : Z) : Z := 1 + b / N.

Lemma lastb_range P p : P - N < lastb P p <= P.
Proof. unfold lastb. pose proof (Z.mod_pos_bound (P - p) N HN). lia. Qed.

Lemma lastb_mod P p : 0 <= p < N -> lastb P p mod N = p.
Proof.
  intros. unfold lastb. rewrite Zminus_mod_idemp_r.
  replace (P - (P - p)) with p by lia. by apply Z.mod_small.
Qed.

Lemma lastb_unique P b : P - N < b <= P -> lastb P (b mod N) = b.
Proof.
  intros. apply (mod_eq_close N); [done| |].
  - apply lastb_mod. by apply Z.mod_pos_bound.
  - pose proof (lastb_range P (b mod N)). lia.
Qed.

Lemma lastb_next P : lastb P ((P + 1) mod N) = P + 1 - N.
Proof.
  replace ((P + 1) mod N) with ((P + 1 - N) mod N); [apply lastb_unique; lia|].
  rewrite <- (Z_mod_plus_full (P + 1 - N) 1 N). f_equal. lia.
Qed.

Lemma lastb_succ_eq P : lastb (P + 1) ((P + 1) mod N) = P + 1.
Proof. apply lastb_unique. lia. Qed.

Lemma lastb_succ_ne P p : 0 <= p < N -> p <> (P + 1) mod N -> lastb (P + 1) p = lastb P p.
Proof.
  intros Hp Hne. pose proof (lastb_range P p).
  destruct (decide (lastb P p = P + 1 - N)) as [E|].
  - exfalso. apply Hne. rewrite <- (lastb_mod P p), E by done.
    rewrite <- (Z_mod_plus_full (P + 1 - N) 1 N). f_equal. lia.
  - rewrite <- (lastb_mod P p) at 1 by done. apply lastb_unique. lia.
Qed.

Lemma bver_succ b : bver (b + 1) = bver b + (if (b + 1) mod N =? 0 then 1 else 0).
Proof.
  unfold bver. pose proof (Z.div_mod b N ltac:(lia)). pose proof (Z.div_mod (b + 1) N ltac:(lia)).
  pose proof (Z.mod_pos_bound b N HN). pose proof (Z.mod_pos_bound (b + 1) N HN).
  zcase; nia.
Qed.

Lemma bver_sub b : bver (b - N) = bver b - 1.
Proof. unfold bver. replace (b - N) with (b + (-1) * N) by lia. rewrite Z.div_add; lia. Qed.

Lemma bver_mono b b' : b <= b' -> bver b <= bver b'.
Proof. intros. unfold bver. pose proof (Z.div_le_mono b b' N HN). lia. Qed.

Lemma bver_nonneg b : - N <= b -> 0 <= bver b.
Proof. intros. pose proof (bver_mono (- N) b). unfold bver in *. rewrite Z.div_opp_l_z in H0; rewrite ?Z.div_same, ?Z.mod_same in *; lia. Qed.

End numbers.

(** Sizes of the claims on block [b] whose entries are still being copied. *)
Section claims.
Definition infl (b : Z) (m : gmap nat (Z * Z)) : Z :=
  map_fold (fun _ c acc => (if decide (c.1 = b) then c.2 else 0) + acc) 0 m.

Lemma infl_empty b : infl b ∅ = 0.
Proof. apply map_fold_empty. Qed.

Lemma infl_insert b t c m :
  m !! t = None -> infl b (<[t := c]> m) = (if decide (c.1 = b) then c.2 else 0) + infl b m.
Proof. intros Hn. unfold infl. rewrite map_fold_insert_L; [done| |done]. intros; lia. Qed.

Lemma infl_delete b t c m :
  m !! t = Some c -> infl b m = (if decide (c.1 = b) then c.2 else 0) + infl b (delete t m).
Proof. intros Hn. unfold infl. rewrite (map_fold_delete_L _ _ t c); [done| |done]. intros; lia. Qed.

Lemma infl_nonneg b m : (forall t c, m !! t = Some c -> 0 <= c.2) -> 0 <= infl b m.
Proof.
  induction m as [|t c m Hn IH] using map_ind; intros Hp.
  - by rewrite infl_empty.
  - rewrite infl_insert by done. assert (0 <= c.2) by (apply (Hp t); by rewrite lookup_insert_eq).
    assert (0 <= infl b m); [|case_decide; lia]. apply IH. intros t' c' Ht'.
    apply (Hp t'). rewrite lookup_insert_ne; [done|]. intros ->. by rewrite Hn in Ht'.
Qed.

Lemma infl_ge b t c m :
  (forall t c, m !! t = Some c -> 0 <= c.2) -> m !! t = Some c -> c.1 = b -> c.2 <= infl b m.
Proof.
  intros Hp Ht Hb. rewrite (infl_delete b t c m Ht), decide_True by done.
  assert (0 <= infl b (delete t m)); [|lia]. apply infl_nonneg. intros t' c' Hc.
  apply (Hp t'). by apply lookup_delete_Some in Hc as [_ ?].
Qed.

Lemma infl_none b m : (forall t c, m !! t = Some c -> c.1 <> b) -> infl b m = 0.
Proof.
  induction m as [|t c m Hn IH] using map_ind; intros Hp.
  - by rewrite infl_empty.
  - rewrite infl_insert by done. rewrite decide_False by (apply (Hp t); by rewrite lookup_insert_eq).
    apply IH. intros t' c' Ht'. apply (Hp t'). rewrite lookup_insert_ne; [done|].
    intros ->. by rewrite Hn in Ht'.
Qed.
End claims.

(** ** The invariant *)
Section invariant.
Context `{SizeT} {T : Type} `{!Inhabited T} (N E : Z).

(** The static assertions of the class and of its cursor type. *)
Record valid_config : Prop := {
  vc_blocks : isPowerOfTwo N = true;
  vc_two : 2 <= N;
  vc_entries : 1 <= E;
  vc_bits : bits E < SIZE_BITS
}.

Context (HV : valid_config).
Implicit Types (s : bwos T) (v : T).

Record ghost := Ghost {
  pushed : list T;
  taken : list (nat * Z);
  gP : Z;
  gC : Z;
  gu : Z;
  stage : Z;
  inflight : gmap nat (Z * Z)
}.
Implicit Types (g : ghost).

Definition n_pushed g : Z := Z.of_nat (length (pushed g)).

(** Committed entries of block number [b]. *)
Definition count_of g (b : Z) : Z := if b <? gP g then E else n_pushed g - gP g * E.

(** The block number living in ring position [p]. *)
Definition bno g (p : nat) : Z := lastb N (gP g) (Z.of_nat p).
(** The ring position the producer enters next. *)
Definition is_nextp g (p : nat) : bool := Z.of_nat p =? (gP g + 1) mod N.
Definition pos_of (b i : Z) : Z := b * E + i.
(** The ring position of block number [b]. *)
Definition ring_pos (b : Z) : nat := Z.to_nat (b mod N).

#[local] Abbreviation cur := (cur (bits E)).
#[local] Abbreviation bver := (bver N).

Definition committed_spec g (p : nat) : Z :=
  if (1 <=? stage g) && is_nextp g p then cur (bver (gP g + 1)) 0
  else cur (bver (bno g p)) (count_of g (bno g p)).

Definition stolen_spec g (p : nat) (r : Z) : Z :=
  if (stage g =? 2) && is_nextp g p then cur (bver (gP g + 1)) 0
  else cur (bver (bno g p)) (r - infl (bno g p) (inflight g)).

Definition reserved_ok g (p : nat) (r : Z) : Prop :=
  0 <= r <= E /\
  (bno g p <= gC g -> r = E) /\
  (gC g < bno g p -> r <= count_of g (bno g p)) /\
  infl (bno g p) (inflight g) <= r /\
  (1 <= stage g -> is_nextp g p = true -> r = E /\ infl (bno g p) (inflight g) = 0).

(** The position was handed to the consumer or claimed by a thief. *)
Definition is_taken s g (pos : Z) : Prop :=
  let b := pos / E in
  b < gC g \/ (b = gC g /\ pos mod E < gu g) \/
  (gC g < b /\ pos mod E < idx E (reserved (blk s (ring_pos b)))).

Definition in_ring (p : nat) : Prop := Z.of_nat p < N.

Record bwos_inv s g : Prop := {
  bi_blocks : Z.of_nat (length (blocks s)) = N;
  bi_static : forall p, in_ring p ->
    isHead (blk s p) = Nat.eqb p 0 /\
    Z.of_nat (next (blk s p)) = (Z.of_nat p + 1) mod N /\
    Z.of_nat (length (entries (blk s p))) = E;
  bi_stage : 0 <= stage g <= 2;
  bi_window : 0 <= gC g <= gP g /\ gP g <= gC g + N /\ (gP g = gC g + N -> gu g = E);
  bi_count : 0 <= n_pushed g - gP g * E <= E;
  bi_u : 0 <= gu g <= count_of g (gC g);
  bi_ver : bver (gP g) < 2 ^ version_bits (bits E) /\
           (1 <= stage g -> bver (gP g + 1) < 2 ^ version_bits (bits E));
  bi_committed : forall p, in_ring p -> committed (blk s p) = committed_spec g p;
  bi_reserved : forall p, in_ring p -> exists r,
    reserved (blk s p) = cur (bver (bno g p)) r /\
    stolen (blk s p) = stolen_spec g p r /\
    reserved_ok g p r;
  bi_claims : forall t c, inflight g !! t = Some c -> gP g - N < c.1 <= gP g /\ 0 <= c.2 /\ (t <> 0%nat -> 0 < c.2);
  bi_entries : forall p i, in_ring p -> 0 <= bno g p -> 0 <= i < count_of g (bno g p) ->
    entries (blk s p) !! Z.to_nat i = pushed g !! Z.to_nat (pos_of (bno g p) i);
  bi_nodup : NoDup (snd <$> taken g);
  bi_taken : forall pos, pos ∈ (snd <$> taken g) <-> 0 <= pos < n_pushed g /\ is_taken s g pos
}.

Definition bwos_guar (i : nat) (x y : bwos T * ghost) : Prop :=
  pushed x.2 `prefix_of` pushed y.2 /\
  (exists ps, taken y.2 = taken x.2 ++ (pair i <$> ps)) /\
  (forall t, t <> i -> inflight y.2 !! t = inflight x.2 !! t) /\
  (forall p, in_ring p -> reserved (blk x.1 p) <= reserved (blk y.1 p) /\
                          committed (blk x.1 p) <= committed (blk y.1 p)) /\
  (i <> 0%nat ->
     pushed y.2 = pushed x.2 /\ gP y.2 = gP x.2 /\ gC y.2 = gC x.2 /\ gu y.2 = gu x.2 /\
     stage y.2 = stage x.2 /\
     producerBlock y.1 = producerBlock x.1 /\ consumerBlock y.1 = consumerBlock x.1 /\
     (forall p, in_ring p -> consumed (blk y.1 p) = consumed (blk x.1 p) /\
                             entries (blk y.1 p) = entries (blk x.1 p) /\
                             stolen (blk x.1 p) <= stolen (blk y.1 p))).

Definition bwos_protocol : protocol (bwos T) ghost := Protocol bwos_inv bwos_guar.

(** ** Elementary facts *)

Lemma N_pos : 0 < N.
Proof. pose proof vc_two HV. lia. Qed.
Lemma E_pos : 0 < E.
Proof. pose proof vc_entries HV. lia. Qed.
Lemma bits_range : 0 < bits E < SIZE_BITS.
Proof. split; [apply bitsToHold_pos, E_pos|apply (vc_bits HV)]. Qed.
Lemma E_fits : 0 <= E < 2 ^ bits E.
Proof. pose proof (bitsToHold_bound E E_pos). pose proof E_pos. unfold bits. lia. Qed.
Hint Resolve N_pos E_pos bits_range : core.

Lemma idx_cur (v i : Z) : 0 <= i <= E -> idx E (cur v i) = i.
Proof. intros. apply index_cur; [done|]. pose proof E_fits. lia. Qed.
Lemma ver_cur (v i : Z) : 0 <= i <= E -> ver E (cur v i) = v.
Proof. intros. apply version_cur; [done|]. pose proof E_fits. lia. Qed.

Lemma ring_pos_in b : in_ring (ring_pos b).
Proof. unfold in_ring, ring_pos. pose proof (Z.mod_pos_bound b N N_pos). lia. Qed.
Lemma ring_pos_Z b : Z.of_nat (ring_pos b) = b mod N.
Proof. unfold ring_pos. pose proof (Z.mod_pos_bound b N N_pos). lia. Qed.

Lemma bno_ring_pos g b : gP g - N < b <= gP g -> bno g (ring_pos b) = b.
Proof. intros. unfold bno. rewrite ring_pos_Z. by apply lastb_unique. Qed.

Lemma ring_pos_bno g p : in_ring p -> ring_pos (bno g p) = p.
Proof.
  intros. unfold ring_pos, bno. red in H0. rewrite lastb_mod by lia. lia.
Qed.

Lemma bno_range g p : gP g - N < bno g p <= gP g.
Proof. apply lastb_range, N_pos. Qed.

Lemma blk_upd_eq p f s : (p < length (blocks s))%nat -> blk (upd p f s) p = f (blk s p).
Proof.
  intros. unfold blk, upd. simpl. rewrite !list_lookup_total_alt, list_lookup_alter_eq.
  destruct (lookup_lt_is_Some_2 (blocks s) p) as [b ->]; done.
Qed.
Lemma blk_upd_ne p q f s : p <> q -> blk (upd p f s) q = blk s q.
Proof. intros. unfold blk, upd. simpl. by rewrite !list_lookup_total_alt, list_lookup_alter_ne. Qed.

Lemma count_range s g b : bwos_inv s g -> 0 <= count_of g b <= E.
Proof.
  intros HI. unfold count_of. pose proof (bi_count _ _ HI). pose proof E_pos. zcase; lia.
Qed.

Lemma bver_bno_range s g p : bwos_inv s g -> 0 <= bver (bno g p) < 2 ^ version_bits (bits E).
Proof.
  intros HI. pose proof (bno_range g p). pose proof (bi_window _ _ HI). pose proof (bi_ver _ _ HI).
  pose proof (bver_nonneg N N_pos (bno g p)). pose proof (bver_mono N N_pos (bno g p) (gP g)). lia.
Qed.

(** ** Positions *)

Lemma pos_div b i : 0 <= i < E -> pos_of b i / E = b.
Proof. intros. unfold pos_of. rewrite Z.div_add_l by lia. rewrite Z.div_small; lia. Qed.
Lemma pos_mod b i : 0 <= i < E -> pos_of b i mod E = i.
Proof. intros. unfold pos_of. rewrite Z.add_comm, Z_mod_plus_full. by apply Z.mod_small. Qed.
Lemma pos_split pos : pos = pos_of (pos / E) (pos mod E).
Proof. unfold pos_of. pose proof E_pos. pose proof (Z.div_mod pos E ltac:(lia)). lia. Qed.
Lemma pos_mod_range pos : 0 <= pos mod E < E.
Proof. apply Z.mod_pos_bound, E_pos. Qed.

(** A pushed position is in a block the producer has entered. *)
Lemma pos_block s g pos : bwos_inv s g -> 0 <= pos < n_pushed g -> 0 <= pos / E <= gP g.
Proof.
  intros HI Hp. pose proof (bi_count _ _ HI). pose proof E_pos. split.
  - apply Z.div_pos; lia.
  - assert (pos / E < gP g + 1); [|lia]. apply Z.div_lt_upper_bound; lia.
Qed.

Lemma pos_of_bound s g b i :
  bwos_inv s g -> 0 <= b <= gP g -> 0 <= i -> i <= count_of g b -> pos_of b i <= n_pushed g.
Proof.
  intros HI Hb Hi Hc. unfold count_of, pos_of in *. pose proof (bi_count _ _ HI). pose proof E_pos.
  destruct (Z.ltb_spec b (gP g)); nia.
Qed.

Lemma bound_count s g b i :
  bwos_inv s g -> b <= gP g -> i <= E -> pos_of b i <= n_pushed g -> i <= count_of g b.
Proof.
  intros HI Hb Hi Hc. unfold count_of, pos_of in *. zcase; [lia|].
  assert (b = gP g) as -> by lia. lia.
Qed.

Lemma elem_of_claim b r en pos :
  0 <= r -> en <= E -> pos ∈ seqZ (pos_of b r) (en - r) <-> pos / E = b /\ r <= pos mod E < en.
Proof.
  intros Hr He. rewrite elem_of_seqZ. rewrite (pos_split pos) at 1 2. unfold pos_of.
  pose proof (pos_mod_range pos). split; [|intros [-> ?]; lia].
  intros. assert (pos / E = b) by nia. subst b. lia.
Qed.

(** What thread [i] took: the positions, and their values. *)
Definition positions (i : nat) (log : list (nat * Z)) : list Z :=
  snd <$> filter (fun p => p.1 = i) log.

Definition mine (i : nat) (acc : list T) : asrt (bwos T) ghost :=
  fun _ g => (fun pos => pushed g !! Z.to_nat pos) <$> positions i (taken g) = Some <$> acc.

Lemma positions_app i l1 l2 : positions i (l1 ++ l2) = positions i l1 ++ positions i l2.
Proof. unfold positions. by rewrite filter_app, fmap_app. Qed.
Lemma positions_own i ps : positions i (pair i <$> ps) = ps.
Proof.
  unfold positions. induction ps as [|v vs IH]; [done|]. cbn.
  rewrite decide_True by done. cbn. by f_equal.
Qed.
Lemma positions_other i j ps : i <> j -> positions i (pair j <$> ps) = [].
Proof.
  intros Hne. unfold positions. induction ps as [|v vs IH]; [done|]. cbn.
  rewrite decide_False by (simpl; congruence). done.
Qed.

Lemma lookups_prefix (l l' acc : list T) (ps : list Z) :
  l `prefix_of` l' ->
  (fun pos => l !! Z.to_nat pos) <$> ps = Some <$> acc ->
  (fun pos => l' !! Z.to_nat pos) <$> ps = Some <$> acc.
Proof.
  intros Hp Hl. rewrite <- Hl. apply list_fmap_ext. intros i pos Hi.
  assert (Hs : (Some <$> acc) !! i = Some (l !! Z.to_nat pos)) by (rewrite <- Hl, list_lookup_fmap, Hi; done).
  apply list_lookup_fmap_Some in Hs as (v & Hv & _). rewrite Hv. by eapply prefix_lookup_Some.
Qed.

Lemma stable_mine i acc : stable bwos_protocol i (mine i acc).
Proof.
  intros j s g s' g' Hji _ _ (Hp & [ps Et] & _) Hm. simpl in *. unfold mine in *.
  rewrite Et, positions_app, positions_other, app_nil_r by done. by eapply lookups_prefix.
Qed.

Lemma guar_refl i x : bwos_guar i x x.
Proof.
  repeat split; try done; try lia. exists []. by rewrite app_nil_r.
Qed.

(** ** Ghost steps of a thief *)

Lemma reserved_live s g p r :
  bwos_inv s g -> in_ring p -> reserved (blk s p) = cur (bver (bno g p)) r -> 0 <= r < E ->
  gC g < bno g p /\ r <= count_of g (bno g p) /\
  committed (blk s p) = cur (bver (bno g p)) (count_of g (bno g p)) /\
  ~ (1 <= stage g /\ is_nextp g p = true).
Proof.
  intros HI Hp Er Hr. destruct (bi_reserved _ _ HI p Hp) as (r' & Er' & _ & (Hr' & H1 & H2 & _ & H4)).
  rewrite Er in Er'. pose proof E_fits.
  apply cur_inj in Er' as [_ <-]; [|done|lia|lia].
  assert (gC g < bno g p) by (destruct (decide (bno g p <= gC g)); [specialize (H1 ltac:(done)); lia|lia]).
  assert (Hn : ~ (1 <= stage g /\ is_nextp g p = true)) by (intros [Hs Hn]; specialize (H4 Hs Hn); lia).
  splits; [done|auto| |done].
  rewrite (bi_committed _ _ HI p Hp). unfold committed_spec.
  destruct (Z.leb_spec 1 (stage g)), (is_nextp g p); simpl; try done. tauto.
Qed.

(** Ring positions of different live blocks differ. *)
Lemma ring_pos_inj g b p :
  gP g - N < b <= gP g -> in_ring p -> ring_pos b = p -> bno g p = b.
Proof. intros Hb _ <-. by apply bno_ring_pos. Qed.

Definition claim_ghost (t : nat) g (b r en : Z) : ghost :=
  Ghost (pushed g) (taken g ++ (pair t <$> seqZ (pos_of b r) (en - r)))
    (gP g) (gC g) (gu g) (stage g) (<[t := (b, en - r)]> (inflight g)).

Lemma infl_claim t g b r en b' :
  inflight g !! t = None ->
  infl b' (inflight (claim_ghost t g b r en)) = (if decide (b = b') then en - r else 0) + infl b' (inflight g).
Proof. intros. simpl. by rewrite infl_insert. Qed.

Lemma claim_is_taken t s g p r en pos :
  bwos_inv s g -> in_ring p -> reserved (blk s p) = cur (bver (bno g p)) r ->
  0 <= r < en -> en <= count_of g (bno g p) -> en <= E ->
  0 <= pos < n_pushed g ->
  is_taken (upd p (set_reserved (cur (bver (bno g p)) en)) s) (claim_ghost t g (bno g p) r en) pos <->
  is_taken s g pos \/ (pos / E = bno g p /\ r <= pos mod E < en).
Proof.
  intros HI Hp Er Hr Hen HenE Hpos. pose proof (reserved_live s g p r HI Hp Er ltac:(lia)) as (Hlive & _).
  pose proof (pos_block _ _ _ HI Hpos) as Hb. pose proof (bi_window _ _ HI). pose proof (bno_range g p).
  pose proof (pos_mod_range pos). pose proof (bi_blocks _ _ HI). red in Hp.
  unfold is_taken. simpl. destruct (decide (ring_pos (pos / E) = p)) as [Ep|Ep].
  - rewrite Ep, blk_upd_eq by lia. simpl. rewrite Er, !idx_cur by lia.
    destruct (decide (gC g < pos / E)); [|intuition lia].
    assert (bno g p = pos / E) by (apply ring_pos_inj; [lia|done|done]). intuition lia.
  - rewrite blk_upd_ne by done. split; [tauto|]. intros [?|[Heq _]]; [done|].
    exfalso. apply Ep. rewrite Heq. by apply ring_pos_bno.
Qed.

Lemma inv_claim t s g p r en :
  bwos_inv s g -> in_ring p -> t <> 0%nat -> inflight g !! t = None ->
  reserved (blk s p) = cur (bver (bno g p)) r -> 0 <= r < en -> en <= count_of g (bno g p) ->
  let s' := upd p (set_reserved (cur (bver (bno g p)) en)) s in
  let g' := claim_ghost t g (bno g p) r en in
  bwos_inv s' g' /\ bwos_guar t (s, g) (s', g').
Proof.
  intros HI Hp Ht Hfree Er Hr Hen s' g'. pose proof (count_range s g (bno g p) HI) as Hc.
  pose proof (reserved_live s g p r HI Hp Er ltac:(lia)) as (Hlive & _ & _ & Hst).
  pose proof (bi_blocks _ _ HI) as HL. pose proof Hp as Hp'. red in Hp'. pose proof (bno_range g p) as Hbr.
  pose proof (bi_window _ _ HI) as Hw. pose proof E_fits.
  assert (Hbno : forall q, bno g' q = bno g q) by done.
  split.
  - constructor; simpl; try apply HI.
    + unfold s', upd. simpl. by rewrite length_alter.
    + intros q Hq. unfold s'. destruct (decide (p = q)) as [<-|Hne];
        [rewrite blk_upd_eq by lia; simpl|rewrite blk_upd_ne by done]; by apply HI.
    + intros q Hq. transitivity (committed (blk s q)); [|apply (bi_committed _ _ HI q Hq)].
      unfold s'. destruct (decide (p = q)) as [<-|Hne];
        [by rewrite blk_upd_eq by lia|by rewrite blk_upd_ne].
    + intros q Hq. destruct (bi_reserved _ _ HI q Hq) as (rq & Erq & Esq & Hok).
      destruct (decide (p = q)) as [<-|Hne].
      * rewrite Er in Erq. destruct Hok as (Hr1 & H1 & H2 & H3 & H4).
        apply cur_inj in Erq as [_ <-]; [|done|lia|lia]. exists en.
        unfold s'. rewrite blk_upd_eq by lia. simpl. split; [done|].
        unfold stolen_spec, reserved_ok in *. simpl. rewrite infl_insert by done. simpl.
        rewrite decide_True by done. change (bno g' p) with (bno g p). change (is_nextp g' p) with (is_nextp g p).
        split; [rewrite Esq; by replace (en - (en - r + infl (bno g p) (inflight g))) with (r - infl (bno g p) (inflight g)) by lia|].
        change (count_of g' (bno g p)) with (count_of g (bno g p)).
        splits; try lia. intros; exfalso; tauto.
      * exists rq. unfold s'. rewrite blk_upd_ne by done. split; [done|].
        unfold stolen_spec, reserved_ok in *. simpl. rewrite infl_insert by done. simpl.
        rewrite decide_False; [done|]. intros Heq. apply Hne.
        by rewrite <- (ring_pos_bno g p), <- (ring_pos_bno g q), Heq.
    + intros t' c. rewrite lookup_insert. case_decide as Htt; [|apply HI].
      intros [= <-]. simpl. lia.
    + intros q i Hq Hb Hi. change (bno g' q) with (bno g q) in *.
      rewrite <- (bi_entries _ _ HI q i Hq Hb Hi). unfold s'.
      destruct (decide (p = q)) as [<-|Hne]; [by rewrite blk_upd_eq by lia|by rewrite blk_upd_ne].
    + rewrite fmap_app, <- list_fmap_compose, list_fmap_id. apply NoDup_app.
      split; [apply HI|]. split; [|apply NoDup_seqZ].
      intros pos Hin. apply (bi_taken _ _ HI) in Hin as [Hpos Htk].
      rewrite elem_of_claim by lia. intros [Heq Hi]. red in Htk.
      rewrite Heq, ring_pos_bno, Er, idx_cur in Htk by (done || lia). lia.
    + intros pos. rewrite fmap_app, <- list_fmap_compose, list_fmap_id, elem_of_app.
      rewrite elem_of_claim by lia. rewrite (bi_taken _ _ HI). unfold n_pushed at 2. simpl. fold (n_pushed g).
      assert (Hin : pos / E = bno g p /\ r <= pos mod E < en -> 0 <= pos < n_pushed g).
      { intros [Heq Hi]. rewrite (pos_split pos), Heq.
        pose proof (pos_of_bound s g (bno g p) en HI ltac:(lia) ltac:(lia) ltac:(lia)).
        unfold pos_of in *. nia. }
      split.
      * intros [[Hpos Htk]|Hcl]; (split; [tauto|]); apply (claim_is_taken t s g p r en pos); tauto || lia || auto.
      * intros [Hpos Htk]. apply (claim_is_taken t s g p r en pos) in Htk; tauto || lia || auto.
  - unfold bwos_guar; simpl; splits; try done.
    + eauto.
    + intros t' Hne. by rewrite lookup_insert_ne.
    + intros q Hq. unfold s'. destruct (decide (p = q)) as [<-|Hne];
        [rewrite blk_upd_eq by lia; simpl|rewrite blk_upd_ne by done; lia].
      rewrite Er. unfold Cursor.cur. lia.
    + intros _. splits; try done. intros q Hq. unfold s'. destruct (decide (p = q)) as [<-|Hne];
        [rewrite blk_upd_eq by lia; simpl|rewrite blk_upd_ne by done]; splits; done || lia.
Qed.

Definition unclaim_ghost (t : nat) g : ghost :=
  Ghost (pushed g) (taken g) (gP g) (gC g) (gu g) (stage g) (delete t (inflight g)).

Lemma claims_nonneg s g t c : bwos_inv s g -> inflight g !! t = Some c -> 0 <= c.2.
Proof. intros HI Hc. destruct (bi_claims _ _ HI t c Hc) as (_ & ? & _). done. Qed.

Lemma unclaim_infl s g t b n b' :
  bwos_inv s g -> inflight g !! t = Some (b, n) ->
  infl b' (inflight g) = (if decide (b = b') then n else 0) + infl b' (delete t (inflight g)) /\
  0 <= infl b' (delete t (inflight g)).
Proof.
  intros HI Hc. split; [exact (infl_delete b' t (b, n) _ Hc)|].
  apply infl_nonneg. intros t' c Hd. apply lookup_delete_Some in Hd as [_ ?].
  by eapply claims_nonneg.
Qed.

Lemma stolen_unclaim s g t b n :
  bwos_inv s g -> inflight g !! t = Some (b, n) -> t <> 0%nat \/ stage g = 0 ->
  exists r, reserved (blk s (ring_pos b)) = cur (bver b) r /\ 0 <= r <= E /\
    stolen (blk s (ring_pos b)) = cur (bver b) (r - infl b (inflight g)) /\
    stolen (blk s (ring_pos b)) +w n = cur (bver b) (r - infl b (delete t (inflight g))).
Proof.
  intros HI Hc Ht. destruct (bi_claims _ _ HI t _ Hc) as (Hb & Hn & Hpos). simpl in *.
  destruct (bi_reserved _ _ HI (ring_pos b) (ring_pos_in b)) as (r & Er & Es & (Hr & _ & _ & Hle & Hst)).
  pose proof (bver_bno_range s g (ring_pos b) HI) as Hv.
  rewrite bno_ring_pos in * by done. pose proof (unclaim_infl s g t b n b HI Hc) as [Ei Hge].
  rewrite decide_True in Ei by done. pose proof E_fits.
  assert (Hns : ((stage g =? 2) && is_nextp g (ring_pos b)) = false).
  { destruct (is_nextp g (ring_pos b)) eqn:En; [|apply andb_false_r].
    destruct (Z.eqb_spec (stage g) 2); [|done]. exfalso.
    destruct (Hst ltac:(lia) eq_refl). destruct Ht as [Ht|Ht]; [specialize (Hpos Ht)|]; lia. }
  unfold stolen_spec in Es. rewrite Hns, bno_ring_pos in Es by done.
  exists r. splits; try done; [lia|lia|]. rewrite Es.
  change (addIndex (cur (bver b) (r - infl b (inflight g))) n = cur (bver b) (r - infl b (delete t (inflight g)))).
  rewrite addIndex_cur; [f_equal; lia|done| |lia|lia]. split; [done|lia].
Qed.

Lemma inv_unclaim t s g b n :
  bwos_inv s g -> inflight g !! t = Some (b, n) -> t <> 0%nat \/ stage g = 0 ->
  let s' := upd (ring_pos b) (fun B => set_stolen (stolen B +w n) B) s in
  bwos_inv s' (unclaim_ghost t g) /\ bwos_guar t (s, g) (s', unclaim_ghost t g).
Proof.
  intros HI Hc Ht s'. pose proof (stolen_unclaim s g t b n HI Hc Ht) as (r & Er & Hr & Es & Es').
  destruct (bi_claims _ _ HI t _ Hc) as (Hb & Hn & Hpos). simpl in Hb, Hn, Hpos.
  pose proof (bi_blocks _ _ HI) as HL. pose proof (ring_pos_in b) as Hp. pose proof Hp as Hp'. red in Hp'.
  pose proof E_fits. split.
  - constructor; simpl; try apply HI.
    + unfold s', upd. simpl. by rewrite length_alter.
    + intros q Hq. unfold s'. destruct (decide (ring_pos b = q)) as [<-|Hne];
        [rewrite blk_upd_eq by lia; simpl|rewrite blk_upd_ne by done]; by apply HI.
    + intros q Hq. transitivity (committed (blk s q)); [|apply (bi_committed _ _ HI q Hq)].
      unfold s'. destruct (decide (ring_pos b = q)) as [<-|Hne];
        [by rewrite blk_upd_eq by lia|by rewrite blk_upd_ne].
    + intros q Hq. destruct (bi_reserved _ _ HI q Hq) as (rq & Erq & Esq & Hok).
      exists rq. pose proof (unclaim_infl s g t b n (bno g q) HI Hc) as [Ei Hge].
      unfold stolen_spec, reserved_ok in *. simpl.
      change (bno (unclaim_ghost t g) q) with (bno g q). change (is_nextp (unclaim_ghost t g) q) with (is_nextp g q).
      change (count_of (unclaim_ghost t g)) with (count_of g).
      unfold s'. destruct (decide (ring_pos b = q)) as [<-|Hne].
      * rewrite blk_upd_eq by lia. simpl. rewrite bno_ring_pos in * by done. split; [done|].
        rewrite decide_True in Ei by done. rewrite Er in Erq. apply cur_inj in Erq as [_ <-]; [|done|lia|lia].
        destruct Hok as (H1 & H2 & H3 & H4 & H5). split; [|splits; try done; try lia; intros; destruct H5; try done; lia].
        rewrite Es'. destruct (Z.eqb_spec (stage g) 2); [|done].
        destruct (is_nextp g (ring_pos b)) eqn:En; [|done]. exfalso. destruct H5; [lia|done|].
        destruct Ht as [Ht|Ht]; [specialize (Hpos Ht)|]; lia.
      * rewrite blk_upd_ne by done. split; [done|].
        assert (b <> bno g q) by (intros ->; apply Hne; by apply ring_pos_bno).
        rewrite decide_False in Ei by done. replace (infl (bno g q) (delete t (inflight g))) with (infl (bno g q) (inflight g)) by lia.
        split; [exact Esq|exact Hok].
    + intros t' c Hd. apply lookup_delete_Some in Hd as [_ Hd]. by apply HI.
    + intros q i Hq Hbq Hi. change (bno (unclaim_ghost t g) q) with (bno g q) in *. rewrite <- (bi_entries _ _ HI q i Hq Hbq Hi). unfold s'.
      destruct (decide (ring_pos b = q)) as [<-|Hne]; [by rewrite blk_upd_eq by lia|by rewrite blk_upd_ne].
    + intros pos. rewrite (bi_taken _ _ HI). unfold is_taken, s'. simpl.
      change (n_pushed (unclaim_ghost t g)) with (n_pushed g).
      destruct (decide (ring_pos b = ring_pos (pos / E))) as [<-|Hne];
        [by rewrite blk_upd_eq by lia|by rewrite blk_upd_ne].
  - unfold bwos_guar; simpl; splits; try done.
    + exists []. by rewrite app_nil_r.
    + intros t' Hne. by rewrite lookup_delete_ne.
    + intros q Hq. unfold s'. destruct (decide (ring_pos b = q)) as [<-|Hne];
        [rewrite blk_upd_eq by lia; simpl; lia|rewrite blk_upd_ne by done; lia].
    + intros _. splits; try done. intros q Hq. unfold s'. destruct (decide (ring_pos b = q)) as [<-|Hne];
        [rewrite blk_upd_eq by lia; simpl|rewrite blk_upd_ne by done; splits; done || lia].
      splits; try done. rewrite Es', Es. pose proof (unclaim_infl s g t b n b HI Hc) as [Ei Hge].
      rewrite decide_True in Ei by done. unfold Cursor.cur. lia.
Qed.
End invariant.
Arguments ghost T : clear implicits.
