(* ===== verification/BwosOwner.v ===== *)
(** * BwosQueue: ghost steps of the owner

    Each lemma takes one atomic access of the owner: writing an entry,
    publishing it, entering the next block in three stores, taking a block over
    from the thieves, and consuming entries. *)

From Stdlib Require Import ZArith Lia.
From stdpp Require Import base tactics list numbers option strings gmap.
From S2P Require Import Prelude Conc Cursor Bwos BwosInv.

Section owner_steps.
Context `{SizeT} {T : Type} `{!Inhabited T} (N E : Z) (HV : valid_config N E).
Implicit Types (s : bwos T) (g : ghost T).

#[local] Abbreviation cur := (Cursor.cur (bits E)).
#[local] Abbreviation bver := (BwosInv.bver N).
#[local] Abbreviation inv := (bwos_inv (T:=T) N E).
#[local] Abbreviation guar0 := (bwos_guar (T:=T) N 0).
#[local] Hint Resolve N_pos E_pos bits_range : core.

Ltac upd_case p q :=
  destruct (decide (p = q)) as [<-|?Hne];
  [rewrite ?(blk_upd_eq p) by lia; cbn [committed consumed reserved stolen next isHead entries
     set_committed set_consumed set_reserved set_stolen set_entry]
  |rewrite ?(blk_upd_ne p) by done].

(** Members that the protocol does not mention may change freely. *)
Lemma inv_ext s s' g :
  length (blocks s') = length (blocks s) ->
  (forall p, in_ring N p ->
     committed (blk s' p) = committed (blk s p) /\ reserved (blk s' p) = reserved (blk s p) /\
     stolen (blk s' p) = stolen (blk s p) /\ next (blk s' p) = next (blk s p) /\
     isHead (blk s' p) = isHead (blk s p) /\ entries (blk s' p) = entries (blk s p)) ->
  inv s g -> inv s' g /\ guar0 (s, g) (s', g).
Proof.
  intros HL Heq HI. split.
  - constructor; try apply HI.
    + rewrite HL. apply HI.
    + intros p Hp. destruct (Heq p Hp) as (_ & _ & _ & -> & -> & ->). by apply HI.
    + intros p Hp. destruct (Heq p Hp) as (-> & _). by apply HI.
    + intros p Hp. destruct (Heq p Hp) as (_ & -> & -> & _). by apply HI.
    + intros p i Hp. destruct (Heq p Hp) as (_ & _ & _ & _ & _ & ->). by apply HI.
    + intros pos. rewrite (bi_taken _ _ _ _ HI). unfold is_taken.
      destruct (Heq _ (ring_pos_in N E HV (pos / E))) as (_ & -> & _). done.
  - unfold bwos_guar; simpl; splits; try done.
    + exists []. by rewrite app_nil_r.
    + intros p Hp. destruct (Heq p Hp) as (-> & -> & _). lia.
Qed.

Lemma inv_set_consumed s g p x :
  inv s g -> in_ring N p ->
  inv (upd p (set_consumed x) s) g /\ guar0 (s, g) (upd p (set_consumed x) s, g).
Proof.
  intros HI Hp. pose proof (bi_blocks _ _ _ _ HI) as HL. apply inv_ext; [|intros q Hq|done].
  - unfold upd. simpl. by rewrite length_alter.
  - red in Hp. upd_case p q; done.
Qed.

Lemma count_P g : count_of E g (gP g) = n_pushed g - gP g * E.
Proof. unfold count_of. by rewrite Z.ltb_irrefl. Qed.

(** [block.entries[index] = value] beyond the committed entries. *)
Lemma inv_put_entry s g i v :
  inv s g -> count_of E g (gP g) <= i < E ->
  let s' := upd (ring_pos N (gP g)) (set_entry i v) s in
  inv s' g /\ guar0 (s, g) (s', g).
Proof.
  intros HI Hi s'. pose proof (bi_blocks _ _ _ _ HI) as HL. set (p := ring_pos N (gP g)) in *.
  pose proof (ring_pos_in N E HV (gP g)) as Hp. fold p in Hp. red in Hp.
  pose proof (N_pos N E HV). pose proof (bi_count _ _ _ _ HI). rewrite count_P in Hi.
  split.
  - constructor; try apply HI.
    + unfold s', upd. simpl. by rewrite length_alter.
    + intros q Hq. unfold s'. upd_case p q; [|by apply HI].
      destruct (bi_static _ _ _ _ HI p Hp) as (? & ? & ?). by rewrite length_insert.
    + intros q Hq. unfold s'. rewrite <- (bi_committed _ _ _ _ HI q Hq). by upd_case p q.
    + intros q Hq. unfold s'. pose proof (bi_reserved _ _ _ _ HI q Hq). by upd_case p q.
    + intros q j Hq Hb Hj. rewrite <- (bi_entries _ _ _ _ HI q j Hq Hb Hj). unfold s'.
      upd_case p q; [|done]. apply list_lookup_insert_ne.
      assert (bno N g p = gP g) as Hbp by (apply (bno_ring_pos N E HV); lia).
      rewrite Hbp, count_P in Hj. lia.
    + intros pos. rewrite (bi_taken _ _ _ _ HI). unfold is_taken, s'.
      by upd_case p (ring_pos N (pos / E)).
  - unfold bwos_guar; simpl; splits; try done.
    + exists []. by rewrite app_nil_r.
    + intros q Hq. unfold s'. upd_case p q; lia.
Qed.

(** The commit: [vs] become part of the queue. *)
Definition push_ghost (vs : list T) g : ghost T :=
  Ghost (pushed g ++ vs) (taken g) (gP g) (gC g) (gu g) (stage g) (inflight g).

Lemma count_push vs g b :
  count_of E (push_ghost vs g) b = if b <? gP g then E else count_of E g (gP g) + Z.of_nat (length vs).
Proof.
  rewrite count_P. unfold count_of, n_pushed. simpl. rewrite length_app. zcase; lia.
Qed.

Lemma count_push_mono s vs g b : inv s g ->
  count_of E g (gP g) + Z.of_nat (length vs) <= E ->
  count_of E g b <= count_of E (push_ghost vs g) b <= E.
Proof.
  intros HI Hf. rewrite count_push. pose proof (E_pos N E HV). rewrite count_P in *.
  unfold count_of. zcase; lia.
Qed.

Lemma push_is_taken vs s s' g pos :
  inv s g -> (forall p, reserved (blk s' p) = reserved (blk s p)) ->
  is_taken N E s' (push_ghost vs g) pos <-> is_taken N E s g pos.
Proof. intros HI Hr. unfold is_taken. simpl. by rewrite Hr. Qed.

(** Positions not pushed yet are not taken. *)
Lemma fresh_not_taken s g pos :
  inv s g -> n_pushed g <= pos < (gP g + 1) * E -> ~ is_taken N E s g pos.
Proof.
  intros HI Hpos. pose proof (bi_window _ _ _ _ HI) as Hw. pose proof (bi_u _ _ _ _ HI) as Hu.
  pose proof (bi_count _ _ _ _ HI) as Hc. pose proof (E_pos N E HV).
  assert (pos / E = gP g) as Hb.
  { rewrite (Z.div_unique pos E (gP g) (pos - gP g * E)); lia. }
  assert (pos mod E = pos - gP g * E) as Hm by (rewrite Z.mod_eq, Hb by lia; lia).
  pose proof (ring_pos_in N E HV (gP g)) as Hp. pose proof (N_pos N E HV).
  unfold is_taken. rewrite Hb, Hm. intros [?|[[? Hlt]|[Hlt Hr]]]; [lia| |].
  - assert (gC g = gP g) as Heq by lia. rewrite Heq, count_P in Hu. lia.
  - destruct (bi_reserved _ _ _ _ HI _ Hp) as (r & Er & _ & (Hr1 & _ & Hr2 & _)).
    rewrite (bno_ring_pos N E HV) in * by lia. specialize (Hr2 Hlt). rewrite count_P in Hr2.
    rewrite Er, (idx_cur N E HV) in Hr by done. lia.
Qed.

Lemma inv_commit s g vs :
  inv s g -> stage g = 0 -> count_of E g (gP g) + Z.of_nat (length vs) <= E ->
  let p := ring_pos N (gP g) in
  (forall k v, vs !! k = Some v -> entries (blk s p) !! Z.to_nat (count_of E g (gP g) + Z.of_nat k) = Some v) ->
  let s' := upd p (set_committed (cur (bver (gP g)) (count_of E g (gP g) + Z.of_nat (length vs)))) s in
  inv s' (push_ghost vs g) /\ guar0 (s, g) (s', push_ghost vs g).
Proof.
  intros HI Hst Hfit p Hent s'. pose proof (bi_blocks _ _ _ _ HI) as HL.
  pose proof (ring_pos_in N E HV (gP g)) as Hp. fold p in Hp. pose proof Hp as Hp'. red in Hp'.
  pose proof (N_pos N E HV) as HN. pose proof (E_pos N E HV) as HE. pose proof (bi_count _ _ _ _ HI) as Hc.
  pose proof (bi_window _ _ _ _ HI) as Hw.
  assert (bno N g p = gP g) as Hbp by (apply (bno_ring_pos N E HV); lia).
  assert (Hmono := fun b => count_push_mono s vs g b HI Hfit).
  assert (Hn : n_pushed (push_ghost vs g) = n_pushed g + Z.of_nat (length vs))
    by (unfold n_pushed; simpl; rewrite length_app; lia).
  split.
  - constructor; try apply HI.
    + unfold s', upd. simpl. by rewrite length_alter.
    + intros q Hq. unfold s'. upd_case p q; by apply HI.
    + simpl. rewrite Hn. rewrite count_P in Hfit. lia.
    + simpl. pose proof (bi_u _ _ _ _ HI). pose proof (Hmono (gC g)). lia.
    + intros q Hq. unfold committed_spec. simpl. change (bno N (push_ghost vs g) q) with (bno N g q).
      rewrite Hst. change (1 <=? 0) with false. simpl. rewrite count_push.
      unfold s'. upd_case p q.
      * rewrite Hbp, Z.ltb_irrefl. done.
      * rewrite (bi_committed _ _ _ _ HI q Hq). unfold committed_spec. rewrite Hst. simpl.
        assert (bno N g q <> gP g) as Hnb by (intros Heq; apply Hne; unfold p; rewrite <- Heq; by apply ring_pos_bno).
        pose proof (bno_range N E HV g q). unfold count_of. zcase; done || lia.
    + intros q Hq. destruct (bi_reserved _ _ _ _ HI q Hq) as (r & Er & Es & (H1 & H2 & H3 & H4 & H5)).
      exists r. unfold s', stolen_spec, reserved_ok in *. simpl.
      change (bno N (push_ghost vs g) q) with (bno N g q). change (is_nextp N (push_ghost vs g) q) with (is_nextp N g q).
      pose proof (Hmono (bno N g q)).
      assert ((gC g < bno N g q -> r <= count_of E (push_ghost vs g) (bno N g q))) by (intros; specialize (H3 ltac:(done)); lia).
      upd_case p q; splits; done || lia || auto.
    + intros q i Hq Hb Hi. change (bno N (push_ghost vs g) q) with (bno N g q) in *. simpl.
      unfold s'. assert (entries (blk (upd p (set_committed (cur (bver (gP g)) (count_of E g (gP g) + Z.of_nat (length vs)))) s) q) = entries (blk s q)) as -> by (by upd_case p q).
      destruct (decide (i < count_of E g (bno N g q))) as [Hlt|Hge].
      * rewrite (bi_entries _ _ _ _ HI q i Hq Hb ltac:(lia)). symmetry. apply lookup_app_l.
        pose proof (pos_of_bound N E HV s g (bno N g q) (i + 1) HI ltac:(pose proof (bno_range N E HV g q); lia) ltac:(lia) ltac:(lia)).
        unfold pos_of, n_pushed in *. nia.
      * rewrite count_push in Hi. destruct (Z.ltb_spec (bno N g q) (gP g)) as [Hlt|Hge2].
        { exfalso. unfold count_of in Hge. destruct (Z.ltb_spec (bno N g q) (gP g)); lia. }
        pose proof (bno_range N E HV g q). assert (bno N g q = gP g) as Hbq by lia.
        assert (q = p) as -> by (unfold p; rewrite <- Hbq; symmetry; by apply ring_pos_bno).
        rewrite Hbq in *. set (k := Z.to_nat (i - count_of E g (gP g))).
        destruct (lookup_lt_is_Some_2 vs k ltac:(lia)) as [v Hv].
        replace i with (count_of E g (gP g) + Z.of_nat k) by lia. rewrite (Hent k v Hv).
        unfold pos_of. rewrite count_P. unfold n_pushed.
        replace (Z.to_nat (gP g * E + (Z.of_nat (length (pushed g)) - gP g * E + Z.of_nat k)))
          with (length (pushed g) + k)%nat by nia.
        rewrite lookup_app_r by lia. by replace (length (pushed g) + k - length (pushed g))%nat with k by lia.
    + intros pos. simpl. rewrite (bi_taken _ _ _ _ HI), Hn.
      rewrite (push_is_taken vs s s' g pos HI); [|intros q; unfold s'; by upd_case p q].
      split; [intros [? ?]; split; [lia|done]|]. intros [? Htk]. split; [|done].
      destruct (decide (pos < n_pushed g)); [lia|]. exfalso.
      apply (fresh_not_taken s g pos HI); [|done]. rewrite count_P in Hfit. lia.
  - unfold bwos_guar; simpl; splits; try done.
    + by apply prefix_app_r.
    + exists []. by rewrite app_nil_r.
    + intros q Hq. unfold s'. upd_case p q; [|lia]. split; [lia|].
      rewrite (bi_committed _ _ _ _ HI p Hp). unfold committed_spec. rewrite Hst, Hbp. simpl.
      unfold Cursor.cur. lia.
Qed.

(** ** Entering the next block *)

Definition stage_ghost (st : Z) g : ghost T :=
  Ghost (pushed g) (taken g) (gP g) (gC g) (gu g) st (inflight g).
Definition enter_ghost g : ghost T :=
  Ghost (pushed g) (taken g) (gP g + 1) (gC g) (gu g) 0 (inflight g).

(** What [isNextBlockWritable] established: the previous round is over. *)
Record writable s g : Prop := {
  wr_full : count_of E g (gP g) = E;
  wr_ver : bver (gP g + 1) < 2 ^ version_bits (bits E);
  wr_consumer : gP g + 1 <= gC g + N /\ (gP g + 1 = gC g + N -> gu g = E);
  wr_own : inflight g !! 0%nat = None
}.

Lemma is_nextp_next g : is_nextp N g (ring_pos N (gP g + 1)) = true.
Proof. unfold is_nextp. rewrite (ring_pos_Z N E HV). apply Z.eqb_refl. Qed.

Lemma is_nextp_ne g q : is_nextp N g q = true -> q = ring_pos N (gP g + 1).
Proof. unfold is_nextp, ring_pos. intros Hq%Z.eqb_eq. rewrite <- Hq. lia. Qed.

Lemma bno_next g : bno N g (ring_pos N (gP g + 1)) = gP g + 1 - N.
Proof. unfold bno. rewrite (ring_pos_Z N E HV). apply lastb_next. eauto. Qed.

Lemma bver_next g : bver (gP g + 1 - N) = bver (gP g + 1) - 1.
Proof. apply bver_sub. eauto. Qed.

Lemma stolen_all s g r :
  inv s g -> stage g < 2 ->
  let p := ring_pos N (gP g + 1) in
  reserved_ok N E g p r -> stolen (blk s p) = stolen_spec N E g p r ->
  stolen (blk s p) = cur (bver (gP g + 1 - N)) E ->
  r = E /\ infl (bno N g p) (inflight g) = 0.
Proof.
  intros HI Hst p (Hr & _ & _ & Hle & _) Es Ew. unfold stolen_spec in Es.
  rewrite (proj2 (Z.eqb_neq (stage g) 2)) in Es by lia. simpl in Es. unfold p in *.
  rewrite bno_next in *. rewrite Ew in Es. pose proof (E_fits N E HV).
  pose proof (infl_nonneg (gP g + 1 - N) (inflight g) (fun t c => claims_nonneg N E s g t c HI)).
  apply cur_inj in Es as [_ Es]; [lia|eauto|lia|lia].
Qed.

Lemma inv_advance1 s g :
  inv s g -> stage g = 0 -> writable s g ->
  let p := ring_pos N (gP g + 1) in
  stolen (blk s p) = cur (bver (gP g + 1 - N)) E ->
  let s' := upd p (set_committed (cur (bver (gP g + 1)) 0)) s in
  inv s' (stage_ghost 1 g) /\ guar0 (s, g) (s', stage_ghost 1 g).
Proof.
  intros HI Hst Hw p Hstolen s'. pose proof (bi_blocks _ _ _ _ HI) as HL.
  pose proof (ring_pos_in N E HV (gP g + 1)) as Hp. fold p in Hp. pose proof Hp as Hp'. red in Hp'.
  split.
  - constructor; try apply HI; simpl.
    + unfold s', upd. simpl. by rewrite length_alter.
    + intros q Hq. unfold s'. upd_case p q; by apply HI.
    + lia.
    + split; [apply HI|]. intros _. apply Hw.
    + intros q Hq. unfold committed_spec. simpl.
      change (is_nextp N (stage_ghost 1 g) q) with (is_nextp N g q).
      unfold s'. upd_case p q; [by rewrite is_nextp_next|].
      destruct (is_nextp N g q) eqn:En; [by apply is_nextp_ne in En|].
      rewrite (bi_committed _ _ _ _ HI q Hq). unfold committed_spec. by rewrite En, andb_false_r.
    + intros q Hq. destruct (bi_reserved _ _ _ _ HI q Hq) as (r & Er & Es & Hok).
      exists r. unfold s'. assert (reserved (blk (upd p (set_committed (cur (bver (gP g + 1)) 0)) s) q) = reserved (blk s q) /\
        stolen (blk (upd p (set_committed (cur (bver (gP g + 1)) 0)) s) q) = stolen (blk s q)) as [-> ->] by (by upd_case p q).
      split; [done|]. split.
      { rewrite Es. unfold stolen_spec. simpl. by rewrite Hst. }
      destruct Hok as (H1 & H2 & H3 & H4 & H5). split; [done|]. do 3 (split; [done|]). simpl. intros _ En.
      apply is_nextp_ne in En. simpl in En. subst q. apply (stolen_all s g r); [done|lia| |done|done].
      do 4 (split; [done|]). done.
    + intros q i Hq. unfold s'.
      assert (entries (blk (upd p (set_committed (cur (bver (gP g + 1)) 0)) s) q) = entries (blk s q)) as -> by (by upd_case p q).
      by apply (bi_entries _ _ _ _ HI).
    + intros pos. rewrite (bi_taken _ _ _ _ HI). unfold is_taken, s'. simpl.
      by upd_case p (ring_pos N (pos / E)).
  - unfold bwos_guar; simpl; splits; try done.
    + exists []. by rewrite app_nil_r.
    + intros q Hq. unfold s'. upd_case p q; [|lia]. split; [lia|].
      rewrite (bi_committed _ _ _ _ HI p Hp). unfold committed_spec. rewrite Hst. simpl. unfold p.
      rewrite bno_next, bver_next. pose proof (count_range N E HV s g (gP g + 1 - N) HI). pose proof (E_fits N E HV).
      unfold Cursor.cur. nia.
Qed.

Lemma inv_advance2 s g :
  inv s g -> stage g = 1 ->
  let p := ring_pos N (gP g + 1) in
  let s' := upd p (set_stolen (cur (bver (gP g + 1)) 0)) s in
  inv s' (stage_ghost 2 g) /\ guar0 (s, g) (s', stage_ghost 2 g).
Proof.
  intros HI Hst p s'. pose proof (bi_blocks _ _ _ _ HI) as HL.
  pose proof (ring_pos_in N E HV (gP g + 1)) as Hp. fold p in Hp. pose proof Hp as Hp'. red in Hp'.
  split.
  - constructor; try apply HI; simpl.
    + unfold s', upd. simpl. by rewrite length_alter.
    + intros q Hq. unfold s'. upd_case p q; by apply HI.
    + lia.
    + split; [apply HI|]. intros _. apply HI. lia.
    + intros q Hq. transitivity (committed (blk s q)); [unfold s'; by upd_case p q|].
      rewrite (bi_committed _ _ _ _ HI q Hq). unfold committed_spec. simpl. by rewrite Hst.
    + intros q Hq. destruct (bi_reserved _ _ _ _ HI q Hq) as (r & Er & Es & Hok).
      exists r. split; [unfold s'; by upd_case p q|]. split.
      * unfold stolen_spec. simpl. change (is_nextp N (stage_ghost 2 g) q) with (is_nextp N g q).
        unfold s'. upd_case p q; [by rewrite is_nextp_next|].
        destruct (is_nextp N g q) eqn:En; [by apply is_nextp_ne in En|].
        rewrite Es. unfold stolen_spec. by rewrite En, andb_false_r.
      * destruct Hok as (H1 & H2 & H3 & H4 & H5). do 4 (split; [done|]). intros _. apply H5. lia.
    + intros q i Hq. unfold s'.
      assert (entries (blk (upd p (set_stolen (cur (bver (gP g + 1)) 0)) s) q) = entries (blk s q)) as -> by (by upd_case p q).
      by apply (bi_entries _ _ _ _ HI).
    + intros pos. rewrite (bi_taken _ _ _ _ HI). unfold is_taken, s'. simpl.
      by upd_case p (ring_pos N (pos / E)).
  - unfold bwos_guar; simpl; splits; try done.
    + exists []. by rewrite app_nil_r.
    + intros q Hq. unfold s'. upd_case p q; lia.
Qed.

Lemma bno_enter_ne g q : in_ring N q -> q <> ring_pos N (gP g + 1) -> bno N (enter_ghost g) q = bno N g q.
Proof.
  intros Hq Hne. red in Hq. unfold bno. simpl. apply lastb_succ_ne; [eauto|lia|]. intros Heq. apply Hne.
  unfold ring_pos. rewrite <- Heq. lia.
Qed.

Lemma bno_enter_eq g : bno N (enter_ghost g) (ring_pos N (gP g + 1)) = gP g + 1.
Proof. unfold bno. rewrite (ring_pos_Z N E HV). apply lastb_succ_eq. eauto. Qed.

Lemma count_enter s g b : inv s g -> writable s g -> b <= gP g -> count_of E (enter_ghost g) b = count_of E g b.
Proof.
  intros HI Hw Hb. pose proof (wr_full _ _ Hw) as Hf. rewrite count_P in Hf.
  unfold count_of, n_pushed in *. simpl. zcase; zcase; lia.
Qed.

Lemma count_enter_new s g : writable s g -> count_of E (enter_ghost g) (gP g + 1) = 0.
Proof.
  intros Hw. pose proof (wr_full _ _ Hw) as Hf. rewrite count_P in Hf.
  unfold count_of, n_pushed in *. simpl. zcase. lia.
Qed.

(** No claim is left on the block that is about to be reused. *)
Lemma claims_after_enter s g t c :
  inv s g -> stage g = 2 -> writable s g -> inflight g !! t = Some c -> gP g + 1 - N < c.1 <= gP g.
Proof.
  intros HI Hst Hw Hc. destruct (bi_claims _ _ _ _ HI t c Hc) as (Hb & Hn & Hpos).
  destruct (decide (c.1 = gP g + 1 - N)) as [Heq|]; [exfalso|lia].
  assert (t <> 0%nat) as Ht by (intros ->; rewrite (wr_own _ _ Hw) in Hc; done). specialize (Hpos Ht).
  pose proof (ring_pos_in N E HV (gP g + 1)) as Hp.
  destruct (bi_reserved _ _ _ _ HI _ Hp) as (r & _ & _ & (_ & _ & _ & _ & H5)).
  destruct H5 as [_ H0]; [lia|apply is_nextp_next|]. rewrite bno_next in H0.
  pose proof (infl_ge (gP g + 1 - N) t c (inflight g) (fun t c => claims_nonneg N E s g t c HI) Hc Heq). lia.
Qed.

(** Blocks between the consumer and the producer do not live where the
    producer goes next. *)
Lemma live_not_next s g b :
  writable s g -> gC g < b <= gP g -> ring_pos N b <> ring_pos N (gP g + 1).
Proof.
  intros Hw Hb Heq. pose proof (wr_consumer _ _ Hw).
  apply (f_equal Z.of_nat) in Heq. rewrite !(ring_pos_Z N E HV) in Heq.
  apply (mod_eq_close N) in Heq; [lia|eauto|lia].
Qed.

Lemma inv_advance3 s g :
  inv s g -> stage g = 2 -> writable s g ->
  let p := ring_pos N (gP g + 1) in
  let s' := upd p (set_reserved (cur (bver (gP g + 1)) 0)) s in
  inv s' (enter_ghost g) /\ guar0 (s, g) (s', enter_ghost g).
Proof.
  intros HI Hst Hw p s'. pose proof (bi_blocks _ _ _ _ HI) as HL.
  pose proof (ring_pos_in N E HV (gP g + 1)) as Hp. fold p in Hp. pose proof Hp as Hp'. red in Hp'.
  pose proof (bi_window _ _ _ _ HI) as Hwin. pose proof (wr_consumer _ _ Hw) as Hwc.
  pose proof (E_pos N E HV) as HE. pose proof (N_pos N E HV) as HN.
  split.
  - constructor; try apply HI; simpl.
    + unfold s', upd. simpl. by rewrite length_alter.
    + intros q Hq. unfold s'. upd_case p q; by apply HI.
    + lia.
    + lia.
    + pose proof (wr_full _ _ Hw) as Hf. rewrite count_P in Hf. unfold n_pushed in *. simpl. lia.
    + rewrite (count_enter s g) by (done || lia). apply HI.
    + split; [apply (bi_ver _ _ _ _ HI); lia|lia].
    + intros q Hq. transitivity (committed (blk s q)); [unfold s'; by upd_case p q|].
      rewrite (bi_committed _ _ _ _ HI q Hq). unfold committed_spec. simpl. rewrite Hst. simpl.
      destruct (decide (q = p)) as [->|Hne].
      * unfold p. by rewrite is_nextp_next, bno_enter_eq, (count_enter_new s).
      * destruct (is_nextp N g q) eqn:En; [by apply is_nextp_ne in En|].
        rewrite bno_enter_ne by done. pose proof (bno_range N E HV g q).
        by rewrite (count_enter s g) by (done || lia).
    + intros q Hq. unfold stolen_spec, reserved_ok. simpl.
      destruct (bi_reserved _ _ _ _ HI q Hq) as (r & Er & Es & (H1 & H2 & H3 & H4 & H5)).
      unfold stolen_spec in Es. rewrite Hst in Es. simpl in Es.
      unfold s'. destruct (decide (p = q)) as [<-|Hne].
      * exists 0. rewrite blk_upd_eq by lia. simpl. unfold p in Es |- *.
        rewrite is_nextp_next in Es. rewrite bno_enter_eq, (count_enter_new s g Hw).
        rewrite (infl_none (gP g + 1)).
        2:{ intros t c Hc. pose proof (claims_after_enter s g t c HI Hst Hw Hc). lia. }
        splits; done || lia.
      * exists r. rewrite blk_upd_ne by done.
        destruct (is_nextp N g q) eqn:En; [apply is_nextp_ne in En; by rewrite En in Hne|].
        rewrite bno_enter_ne by done. pose proof (bno_range N E HV g q).
        rewrite (count_enter s g) by (done || lia). splits; done || lia.
    + intros t c Hc. pose proof (claims_after_enter s g t c HI Hst Hw Hc).
      destruct (bi_claims _ _ _ _ HI t c Hc) as (? & ? & ?). splits; done || lia.
    + intros q i Hq Hb Hi.
      assert (entries (blk s' q) = entries (blk s q)) as -> by (unfold s'; by upd_case p q).
      destruct (decide (q = p)) as [->|Hne].
      * exfalso. unfold p in Hi. rewrite bno_enter_eq, (count_enter_new s g Hw) in Hi. lia.
      * rewrite bno_enter_ne in * by done. pose proof (bno_range N E HV g q).
        rewrite (count_enter s g) in Hi by (done || lia). by apply (bi_entries _ _ _ _ HI).
    + intros pos. rewrite (bi_taken _ _ _ _ HI). change (n_pushed (enter_ghost g)) with (n_pushed g).
      apply and_iff_compat_l_iff. intros Hpos. pose proof (pos_block N E HV _ _ _ HI Hpos).
      unfold is_taken. simpl. destruct (decide (gC g < pos / E)) as [Hlt|]; [|intuition lia].
      unfold s'. rewrite blk_upd_ne; [done|]. symmetry. by apply (live_not_next s g); [|lia].
  - unfold bwos_guar; simpl; splits; try done.
    + exists []. by rewrite app_nil_r.
    + intros q Hq. unfold s'. upd_case p q; [|lia]. split; [|lia].
      destruct (bi_reserved _ _ _ _ HI p Hp) as (r & -> & _ & (H1 & _)). unfold p.
      rewrite bno_next, bver_next. pose proof (E_fits N E HV). unfold Cursor.cur. nia.
Qed.

(** ** Taking the next block over *)

Definition take_ghost (r : Z) g : ghost T :=
  Ghost (pushed g) (taken g) (gP g) (gC g + 1) r (stage g) (<[0%nat := (gC g + 1, E - r)]> (inflight g)).

Lemma inv_takeover s g r :
  inv s g -> stage g = 0 -> gu g = E -> gC g + 1 <= gP g -> inflight g !! 0%nat = None ->
  let p := ring_pos N (gC g + 1) in
  reserved (blk s p) = cur (bver (gC g + 1)) r -> 0 <= r <= E ->
  let s' := upd p (set_reserved (cur (bver (gC g + 1)) E)) s in
  inv s' (take_ghost r g) /\ guar0 (s, g) (s', take_ghost r g).
Proof.
  intros HI Hst Hu Hlt Hown p Er Hr s'. pose proof (bi_blocks _ _ _ _ HI) as HL.
  pose proof (ring_pos_in N E HV (gC g + 1)) as Hp. fold p in Hp. pose proof Hp as Hp'. red in Hp'.
  pose proof (bi_window _ _ _ _ HI) as Hwin. pose proof (E_fits N E HV) as HE. pose proof (N_pos N E HV) as HN.
  assert (bno N g p = gC g + 1) as Hbp by (apply (bno_ring_pos N E HV); lia).
  destruct (bi_reserved _ _ _ _ HI p Hp) as (r' & Er' & Es & (H1 & H2 & H3 & H4 & H5)).
  rewrite Hbp in *. rewrite Er in Er'. apply cur_inj in Er' as [_ <-]; [|eauto|lia|lia].
  assert (Hne_b : forall q, in_ring N q -> q <> p -> bno N g q <> gC g + 1).
  { intros q Hq Hne Heq. apply Hne. unfold p. rewrite <- Heq. symmetry. by apply ring_pos_bno. }
  split.
  - constructor; try apply HI; simpl.
    + unfold s', upd. simpl. by rewrite length_alter.
    + intros q Hq. unfold s'. upd_case p q; by apply HI.
    + lia.
    + split; [lia|]. apply H3. lia.
    + intros q Hq. transitivity (committed (blk s q)); [unfold s'; by upd_case p q|].
      by rewrite (bi_committed _ _ _ _ HI q Hq).
    + intros q Hq. unfold stolen_spec, reserved_ok in *. simpl. rewrite Hst in *. simpl in *.
      change (bno N (take_ghost r g) q) with (bno N g q). change (count_of E (take_ghost r g)) with (count_of E g).
      rewrite infl_insert by done. simpl. unfold s'. destruct (decide (p = q)) as [<-|Hne].
      * exists E. rewrite blk_upd_eq by lia. simpl. rewrite Hbp, decide_True by done.
        rewrite Hbp in Es. splits; try done; try lia. rewrite Es. f_equal. lia.
      * destruct (bi_reserved _ _ _ _ HI q Hq) as (rq & Erq & Esq & (Q1 & Q2 & Q3 & Q4 & Q5)).
        exists rq. rewrite blk_upd_ne by done. specialize (Hne_b q Hq ltac:(done)).
        rewrite decide_False by done. unfold stolen_spec in Esq. rewrite Hst in Esq. simpl in Esq.
        splits; done || lia || intros; first [apply Q2|apply Q3]; lia.
    + intros t c. rewrite lookup_insert. case_decide as Htt; [|apply HI]. intros [= <-]. simpl. splits; lia || done.
    + intros q i Hq.
      assert (entries (blk s' q) = entries (blk s q)) as -> by (unfold s'; by upd_case p q).
      by apply (bi_entries _ _ _ _ HI).
    + intros pos. rewrite (bi_taken _ _ _ _ HI). change (n_pushed (take_ghost r g)) with (n_pushed g).
      apply and_iff_compat_l_iff. intros Hpos. pose proof (pos_block N E HV _ _ _ HI Hpos).
      pose proof (pos_mod_range N E HV pos). unfold is_taken. simpl.
      destruct (decide (pos / E = gC g + 1)) as [Heq|Hne].
      * rewrite Heq. fold p. rewrite Er, (idx_cur N E HV) by done. intuition lia.
      * destruct (decide (gC g < pos / E)); [|intuition lia].
        unfold s'. rewrite blk_upd_ne; [intuition lia|]. intros Heq.
        apply Hne. rewrite <- Hbp. symmetry. apply (ring_pos_inj N E HV); [lia|done|done].
  - unfold bwos_guar; simpl; splits; try done.
    + exists []. by rewrite app_nil_r.
    + intros t Ht. by rewrite lookup_insert_ne.
    + intros q Hq. unfold s'. upd_case p q; [|lia]. split; [|lia].
      rewrite Er. unfold Cursor.cur. lia.
Qed.

(** ** Consuming *)

Definition consume_ghost (u' : Z) g : ghost T :=
  Ghost (pushed g) (taken g ++ (pair 0%nat <$> seqZ (pos_of E (gC g) (gu g)) (u' - gu g)))
    (gP g) (gC g) u' (stage g) (inflight g).

Lemma inv_consume s g u' :
  inv s g -> gu g <= u' <= count_of E g (gC g) ->
  inv s (consume_ghost u' g) /\ guar0 (s, g) (s, consume_ghost u' g).
Proof.
  intros HI Hu. pose proof (bi_window _ _ _ _ HI) as Hwin. pose proof (bi_u _ _ _ _ HI) as Hu0.
  pose proof (count_range N E HV s g (gC g) HI) as Hc. pose proof (E_pos N E HV).
  split.
  - constructor; try apply HI; simpl.
    + lia.
    + change (count_of E (consume_ghost u' g)) with (count_of E g). lia.
    + rewrite fmap_app, <- list_fmap_compose, list_fmap_id. apply NoDup_app.
      split; [apply HI|]. split; [|apply NoDup_seqZ].
      intros pos Hin. apply (bi_taken _ _ _ _ HI) in Hin as [Hpos Htk].
      rewrite (elem_of_claim N E HV) by lia. red in Htk. lia.
    + intros pos. rewrite fmap_app, <- list_fmap_compose, list_fmap_id, elem_of_app.
      rewrite (elem_of_claim N E HV) by lia. rewrite (bi_taken _ _ _ _ HI).
      change (n_pushed (consume_ghost u' g)) with (n_pushed g).
      assert (Hin : pos / E = gC g /\ gu g <= pos mod E < u' -> 0 <= pos < n_pushed g).
      { intros [Heq Hi]. rewrite (pos_split N E HV pos), Heq.
        pose proof (pos_of_bound N E HV s g (gC g) u' HI ltac:(lia) ltac:(lia) ltac:(lia)).
        unfold pos_of in *. nia. }
      unfold is_taken. simpl. intuition lia.
  - unfold bwos_guar; simpl; splits; try done; eauto.
Qed.

Lemma guar0_trans x y z : guar0 x y -> guar0 y z -> guar0 x z.
Proof.
  intros (A1 & [ps A2] & A3 & A4 & _) (B1 & [qs B2] & B3 & B4 & _). unfold bwos_guar. splits; try done.
  - by transitivity (pushed y.2).
  - exists (ps ++ qs). by rewrite B2, A2, fmap_app, app_assoc.
  - intros t Ht. by rewrite B3, A3.
  - intros p Hp. destruct (A4 p Hp), (B4 p Hp). lia.
Qed.

(** The consumer's store together with the entries it hands out. *)
Lemma inv_set_consumed_consume s g u' x :
  inv s g -> gu g <= u' <= count_of E g (gC g) ->
  let s' := upd (ring_pos N (gC g)) (set_consumed x) s in
  inv s' (consume_ghost u' g) /\ guar0 (s, g) (s', consume_ghost u' g).
Proof.
  intros HI Hu s'. destruct (inv_consume s g u' HI Hu) as [HI1 HG1].
  destruct (inv_set_consumed s _ (ring_pos N (gC g)) x HI1 ltac:(apply (ring_pos_in N E HV))) as [HI2 HG2].
  split; [done|]. by eapply guar0_trans.
Qed.
End owner_steps.
