(* ===== verification/BwosConc.v ===== *)
(** * BwosQueue: concurrent use

    Triples for the thieves' and the owner's operations against the protocol of
    BwosInv.v, and the theorems about pools of one owner and any number of
    thieves. *)

From Stdlib Require Import ZArith Lia.
From stdpp Require Import base tactics list numbers option strings gmap.
From S2P Require Import Prelude Conc Cursor Bwos BwosInv.

Section triples.
Context `{SizeT} {T : Type} `{!Inhabited T} (N E : Z) (HV : valid_config N E).
Implicit Types (s : bwos T) (g : ghost T).

#[local] Abbreviation cur := (Cursor.cur (bits E)).
#[local] Abbreviation bver := (BwosInv.bver N).
#[local] Abbreviation proto := (bwos_protocol (T:=T) N E).
#[local] Abbreviation inv := (bwos_inv (T:=T) N E).
#[local] Hint Resolve N_pos E_pos bits_range : core.

(** ** Accesses *)

Lemma is_block_in p : in_ring N p -> is_block N p = true.
Proof. intros. unfold is_block. by apply Z.ltb_lt. Qed.

Lemma rg_get {A X} i p (f : Block T -> X) (k : X -> prog (bwos T) A) P Q :
  in_ring N p ->
  (forall s g, inv s g -> P s g -> exists P', P' s g /\ stable proto i P' /\
     rg proto i (k (f (blk s p))) P' Q) ->
  rg proto i (bind (get N p f) k) P Q.
Proof.
  intros Hp Hk. unfold get, check. rewrite is_block_in by done.
  change (rg proto i (bind (load (fun s => f (blk s p))) k) P Q).
  apply rg_load; [apply guar_refl|done].
Qed.

Lemma rg_set {A} i p (f : Block T -> Block T) (k : unit -> prog (bwos T) A) P Q :
  in_ring N p ->
  (forall s g, inv s g -> P s g -> exists g' P',
     inv (upd p f s) g' /\ bwos_guar N i (s, g) (upd p f s, g') /\ P' (upd p f s) g' /\
     stable proto i P' /\ rg proto i (k tt) P' Q) ->
  rg proto i (bind (set N p f) k) P Q.
Proof.
  intros Hp Hk. unfold set, check. rewrite is_block_in by done.
  change (rg proto i (bind (store (upd p f)) k) P Q). by apply rg_store.
Qed.

Lemma rg_get_entry {A} i p x (k : T -> prog (bwos T) A) P Q :
  in_ring N p -> 0 <= x < E ->
  (forall s g, inv s g -> P s g -> exists P', P' s g /\ stable proto i P' /\
     rg proto i (k (entries (blk s p) !!! Z.to_nat x)) P' Q) ->
  rg proto i (bind (get_entry N E p x) k) P Q.
Proof.
  intros Hp Hx Hk. unfold get_entry, check. rewrite is_block_in by done.
  unfold is_entry. rewrite (proj2 (andb_true_iff _ _)) by (split; lia).
  change (rg proto i (bind (load (fun s => entries (blk s p) !!! Z.to_nat x)) k) P Q).
  apply rg_load; [apply guar_refl|done].
Qed.

Lemma block_at_in position : in_ring N (block_at N position).
Proof.
  pose proof (isPowerOfTwo_spec N ltac:(pose proof (vc_two _ _ HV); lia) (vc_blocks _ _ HV)) as HP.
  unfold in_ring, block_at. rewrite HP at 1. rewrite land_pow2_mask by apply Z.log2_nonneg.
  rewrite <- HP. pose proof (Z.mod_pos_bound position N (N_pos N E HV)). lia.
Qed.

(** ** Thieves *)

(** Between two calls: what the thread got so far, and no claim under way. *)
Definition idle (i : nat) (acc : list T) : asrt (bwos T) (ghost T) :=
  fun s g => mine i acc s g /\ inflight g !! i = None.

Lemma stable_inflight i c : stable proto i (fun _ g => inflight g !! i = c).
Proof. intros j s g s' g' Hj _ _ (_ & _ & Hi & _) <-. by apply Hi. Qed.

Lemma stable_idle i acc : stable proto i (idle i acc).
Proof. apply stable_and; [apply stable_mine|apply stable_inflight]. Qed.

(** [reserved] was read as [R]. *)
Definition seen_res (p : nat) (R : Z) : asrt (bwos T) (ghost T) :=
  fun s _ => R <= reserved (blk s p).

(** Then [committed] was read as [K]: good as long as [reserved] stands. *)
Definition seen_com (p : nat) (R K v r : Z) : asrt (bwos T) (ghost T) :=
  fun s _ => R <= reserved (blk s p) /\
    (reserved (blk s p) = R -> exists k, K = cur v k /\ r <= k <= E /\ K <= committed (blk s p)).

Lemma stable_seen_res i p R : in_ring N p -> stable proto i (seen_res p R).
Proof.
  intros Hp j s g s' g' Hj _ _ (_ & _ & _ & Hm & _) Hle. unfold seen_res in *.
  specialize (Hm p Hp). simpl in *. lia.
Qed.

Lemma stable_seen_com i p R K v r : in_ring N p -> stable proto i (seen_com p R K v r).
Proof.
  intros Hp j s g s' g' Hj _ _ (_ & _ & _ & Hm & _) [Hle Hk]. specialize (Hm p Hp). simpl in Hm.
  split; [lia|]. intros Heq. destruct Hk as (k & ? & ? & ?); [lia|]. exists k. splits; try done; lia.
Qed.

Lemma read_reserved s g p :
  inv s g -> in_ring N p ->
  exists v r, reserved (blk s p) = cur v r /\ 0 <= r <= E /\ 0 <= v < 2 ^ version_bits (bits E).
Proof.
  intros HI Hp. destruct (bi_reserved _ _ _ _ HI p Hp) as (r & Er & _ & (Hr & _)).
  exists (bver (bno N g p)), r. splits; try done; try lia; by eapply bver_bno_range.
Qed.

Lemma read_committed s g p v r :
  inv s g -> in_ring N p -> cur v r <= reserved (blk s p) -> 0 <= r < E ->
  seen_com p (cur v r) (committed (blk s p)) v r s g.
Proof.
  intros HI Hp Hle Hr. split; [done|]. intros Heq.
  destruct (bi_reserved _ _ _ _ HI p Hp) as (r' & Er & _ & (Hr' & _)).
  pose proof (E_fits N E HV). rewrite Heq in Er. apply cur_inj in Er as [-> ->]; [|eauto|lia|lia].
  pose proof (reserved_live N E HV s g p r' HI Hp Heq Hr) as (_ & Hc & Ec & _).
  pose proof (count_range N E HV s g (bno N g p) HI).
  eexists. splits; [exact Ec|done|lia|lia].
Qed.

(** The claim of thread [i]: [n] entries of block [b] from [beg] on, whose
    values are [nv]; they already count as taken. *)
Record claimed (i : nat) (b beg : Z) (acc nv : list T) s g : Prop := {
  cl_inflight : inflight g !! i = Some (b, Z.of_nat (length nv));
  cl_mine : mine i (acc ++ nv) s g;
  cl_beg : 0 <= b /\ 0 <= beg /\ beg + Z.of_nat (length nv) <= E;
  cl_bound : pos_of E b (beg + Z.of_nat (length nv)) <= n_pushed g;
  cl_vals : forall k x, nv !! k = Some x -> pushed g !! Z.to_nat (pos_of E b (beg + Z.of_nat k)) = Some x
}.

Lemma stable_claimed i b beg acc nv : stable proto i (claimed i b beg acc nv).
Proof.
  intros j s g s' g' Hj HI HI' HG [H1 H2 H3 H4 H5]. constructor.
  - by apply (stable_inflight i _ j s g s' g').
  - by apply (stable_mine N E i (acc ++ nv) j s g s' g').
  - done.
  - destruct HG as (Hp & _). simpl in Hp. apply prefix_length in Hp. unfold n_pushed in *. lia.
  - intros k x Hk. destruct HG as (Hp & _). simpl in Hp. eapply prefix_lookup_Some; eauto.
Qed.

Hint Resolve stable_idle stable_and stable_seen_res stable_seen_com stable_claimed
  stable_mine stable_inflight stable_const : sf.

(** A live block's entries are the values pushed. *)
Lemma entry_value s g b i v :
  inv s g -> gP g - N < b <= gP g -> 0 <= b -> 0 <= i < count_of E g b ->
  pushed g !! Z.to_nat (pos_of E b i) = Some v ->
  entries (blk s (ring_pos N b)) !!! Z.to_nat i = v.
Proof.
  intros HI Hb Hb0 Hi Hv. apply lookup_total_Some.
  pose proof (bi_entries _ _ _ _ HI (ring_pos N b) i (ring_pos_in N E HV b)) as He.
  rewrite (bno_ring_pos N E HV) in He by done. rewrite He; auto.
Qed.

Lemma claimed_entry i b beg acc nv k x s g :
  inv s g -> claimed i b beg acc nv s g -> nv !! k = Some x ->
  entries (blk s (ring_pos N b)) !!! Z.to_nat (beg + Z.of_nat k) = x.
Proof.
  intros HI [H1 H2 H3 H4 H5] Hk. pose proof (lookup_lt_Some _ _ _ Hk).
  destruct (bi_claims _ _ _ _ HI i _ H1) as (Hb & _). simpl in Hb.
  apply (entry_value s g); [done|done|lia| |by apply H5].
  pose proof (bound_count N E s g b (beg + Z.of_nat (length nv)) HI ltac:(lia) ltac:(lia) H4). lia.
Qed.

Lemma rg_copy_claimed i b beg acc nv k n :
  (k + n <= length nv)%nat -> 0 <= beg -> beg + Z.of_nat (length nv) <= E ->
  rg proto i (copy_entries N E (ring_pos N b) (beg + Z.of_nat k) n)
    (claimed i b beg acc nv)
    (fun out s g => out = take n (drop k nv) /\ claimed i b beg acc nv s g).
Proof.
  intros Hle Hb Hbe. revert k Hle. induction n as [|n IH]; intros k Hle; cbn [copy_entries].
  { by intros s g _ Hc. }
  destruct (lookup_lt_is_Some_2 nv k ltac:(lia)) as [x Hx].
  apply rg_get_entry; [by apply (ring_pos_in N E)|lia|]. intros s g HI Hc.
  rewrite (claimed_entry i b beg acc nv k x s g) by done.
  exists (claimed i b beg acc nv). split; [done|]. split; [auto with sf|].
  replace (beg + Z.of_nat k + 1) with (beg + Z.of_nat (S k)) by lia.
  eapply rg_bind; [apply IH; lia|]. intros out s1 g1 _ [-> Hc1]. split; [|done].
  by rewrite (drop_S nv x k).
Qed.

(** The values of a claimed range. *)
Lemma claim_values s g b r en :
  inv s g -> 0 <= b <= gP g -> 0 <= r <= en -> en <= count_of E g b ->
  exists nv : list T, Z.of_nat (length nv) = en - r /\
    (fun pos => pushed g !! Z.to_nat pos) <$> seqZ (pos_of E b r) (en - r) = Some <$> nv /\
    (forall k x, nv !! k = Some x -> pushed g !! Z.to_nat (pos_of E b (r + Z.of_nat k)) = Some x).
Proof.
  intros HI Hb Hr Hen. pose proof (pos_of_bound N E HV s g b en HI Hb ltac:(lia) Hen) as Hbd.
  unfold pos_of, n_pushed in *. pose proof (E_pos N E HV).
  set (nv := take (Z.to_nat (en - r)) (drop (Z.to_nat (b * E + r)) (pushed g))).
  assert (Hlen : Z.of_nat (length nv) = en - r) by (subst nv; rewrite length_take, length_drop; nia).
  assert (Hnv : forall k, (k < Z.to_nat (en - r))%nat -> nv !! k = pushed g !! Z.to_nat (b * E + (r + Z.of_nat k))).
  { intros k Hk. subst nv. rewrite lookup_take_lt by done. rewrite lookup_drop. f_equal. nia. }
  exists nv. split; [done|]. split.
  - apply list_eq. intros k. rewrite !list_lookup_fmap.
    destruct (decide (k < Z.to_nat (en - r))%nat) as [Hk|Hk].
    + rewrite lookup_seqZ_lt by lia. simpl.
      destruct (lookup_lt_is_Some_2 nv k ltac:(lia)) as [x Hx]. rewrite Hx. simpl.
      rewrite Hnv in Hx by done. rewrite <- Hx. do 2 f_equal. lia.
    + rewrite lookup_seqZ_ge by lia. rewrite (lookup_ge_None_2 nv) by lia. done.
  - intros k x Hk. pose proof (lookup_lt_Some _ _ _ Hk). rewrite Hnv in Hk by lia. done.
Qed.

Lemma mine_app i acc nv ps g s s' log' :
  mine i acc s g ->
  (fun pos => pushed g !! Z.to_nat pos) <$> ps = Some <$> nv ->
  log' = taken g ++ (pair i <$> ps) ->
  forall P C u st infl, mine i (acc ++ nv) s' (Ghost (pushed g) log' P C u st infl).
Proof.
  intros Hm Hn -> P C u st m. unfold mine in *. simpl.
  by rewrite positions_app, positions_own, !fmap_app, Hm, Hn.
Qed.

Lemma rg_claim {A} i p v r K D en acc (k : bool * Z -> prog (bwos T) A) Q :
  i <> 0%nat -> in_ring N p -> 0 <= r < E ->
  (forall kk, K = cur v kk -> r <= kk <= E -> D = cur v en /\ r < en <= kk) ->
  (forall b nv, Z.of_nat (length nv) = en - r -> ring_pos N b = p -> en <= E ->
     rg proto i (k (true, cur v r)) (claimed i b r acc nv) Q) ->
  (forall z, rg proto i (k (false, z)) (idle i acc) Q) ->
  rg proto i (bind (cas_reserved N p (cur v r) D) k)
    (fun s g => idle i acc s g /\ seen_com p (cur v r) K v r s g) Q.
Proof.
  intros Hi Hp Hr HD Hs Hf. unfold cas_reserved, check. rewrite is_block_in by done.
  apply (rg_cas_weak proto (guar_refl N) i
           (fun s => reserved (blk s p)) (fun v => upd p (set_reserved v)) (cur v r) D k).
  - intros s g HI [[Hm Hfree] [_ Hk]] Heq. destruct (Hk Heq) as (kk & EK & Hkk & Hle).
    destruct (HD kk EK Hkk) as [-> Hen].
    destruct (bi_reserved _ _ _ _ HI p Hp) as (r' & Er & _ & (Hr' & _)). pose proof (E_fits N E HV).
    rewrite Heq in Er. apply cur_inj in Er as [Ev <-]; [|eauto|lia|lia]. subst v.
    pose proof (reserved_live N E HV s g p r HI Hp Heq Hr) as (Hlive & Hc & Ec & _).
    pose proof (count_range N E HV s g (bno N g p) HI) as Hcr.
    assert (kk <= count_of E g (bno N g p)) as Hkc by (rewrite Ec, EK in Hle; unfold Cursor.cur in Hle; lia).
    destruct (inv_claim N E HV i s g p r en HI Hp Hi Hfree Heq ltac:(lia) ltac:(lia)) as [HI' HG'].
    pose proof (bno_range N E HV g p). pose proof (bi_window _ _ _ _ HI).
    destruct (claim_values s g (bno N g p) r en HI ltac:(lia) ltac:(lia) ltac:(lia)) as (nv & Hlen & Hvals & Hlk).
    eexists _, (claimed i (bno N g p) r acc nv). split; [exact HI'|]. split; [exact HG'|].
    split; [|split; [auto with sf|apply Hs; [done|by apply ring_pos_bno|lia]]].
    constructor; simpl.
    + by rewrite lookup_insert_eq, Hlen.
    + by eapply mine_app.
    + lia.
    + rewrite Hlen. replace (r + (en - r)) with en by lia.
      apply (pos_of_bound N E HV s g); done || lia.
    + done.
  - intros s g HI [Hid _]. exists (idle i acc). auto with sf.
Qed.

Lemma rg_add_stolen {A} i b beg acc nv (k : unit -> prog (bwos T) A) Q :
  i <> 0%nat ->
  rg proto i (k tt) (idle i (acc ++ nv)) Q ->
  rg proto i (bind (add_stolen N (ring_pos N b) (Z.of_nat (length nv))) k) (claimed i b beg acc nv) Q.
Proof.
  intros Hi Hk. unfold add_stolen, check. rewrite is_block_in by (by apply (ring_pos_in N E)).
  apply rg_rmw. intros s g HI [H1 H2 H3 H4 H5]. simpl.
  destruct (inv_unclaim N E HV i s g b (Z.of_nat (length nv)) HI H1 ltac:(auto)) as [HI' HG'].
  eexists _, (idle i (acc ++ nv)). split; [exact HI'|]. split; [exact HG'|].
  split; [|split; [auto with sf|done]]. split; [exact H2|]. simpl. apply lookup_delete_eq.
Qed.

(** Walking on to the next block does not touch the protocol's state. *)
Lemma rg_thief_advance {A} i acc block r position (k1 : prog (bwos T) A) (k2 : prog (bwos T) A) Q :
  in_ring N block ->
  rg proto i k1 (idle i acc) Q -> rg proto i k2 (idle i acc) Q ->
  rg proto i
    (may <- thiefMayAdvance N E block r ;;
     if negb may then k1
     else cas_weak stealPosition set_stealPosition position (position +w 1) ;;; k2)
    (idle i acc) Q.
Proof.
  intros Hb H1 H2. unfold thiefMayAdvance.
  apply (rg_bind proto i _ _ _ (fun _ => idle i acc)).
  - apply rg_get; [done|]. intros s g HI Hid.
    assert (in_ring N (next (blk s block))) as Hn.
    { destruct (bi_static _ _ _ _ HI block Hb) as (_ & Hn & _). red. rewrite Hn.
      by apply Z.mod_pos_bound, (N_pos N E). }
    exists (idle i acc). split; [done|]. split; [auto with sf|].
    apply rg_get; [done|]. intros s1 g1 HI1 Hid1. exists (idle i acc). split; [done|]. split; [auto with sf|].
    apply rg_get; [done|]. intros s2 g2 HI2 Hid2. exists (idle i acc). split; [done|]. split; [auto with sf|].
    by intros s3 g3 _ Hid3.
  - intros [|]; simpl negb; [|done].
    apply rg_cas_weak; [apply guar_refl| |]; intros s g HI Hid.
    + intros _. exists g, (idle i acc). split; [by destruct HI; constructor|].
      split; [exact (guar_refl N i (s, g))|]. split; [done|]. split; [auto with sf|done].
    + exists (idle i acc). auto with sf.
Qed.

Lemma rg_steal i acc fuel :
  i <> 0%nat ->
  rg proto i (steal N E fuel) (idle i acc) (fun o => idle i (acc ++ option_list o)).
Proof.
  intros Hi. induction fuel as [|fuel IH]; [done|]. cbn [steal].
  apply rg_load; [apply guar_refl|]. intros s g HI Hid. set (p := block_at N (stealPosition s)).
  pose proof (block_at_in (stealPosition s)) as Hp. fold p in Hp.
  exists (idle i acc). split; [done|]. split; [auto with sf|]. generalize (stealPosition s). intros position.
  clearbody p. clear s g HI Hid.
  apply rg_get; [done|]. intros s g HI Hid. destruct (read_reserved s g p HI Hp) as (v & r & ER & Hr & Hv).
  rewrite ER, (idx_cur N E HV) by done. zcase.
  - exists (fun s g => idle i acc s g /\ seen_res p (cur v r) s g).
    split; [split; [done|red; lia]|]. split; [auto with sf|]. clear s g HI Hid ER.
    apply rg_get; [done|]. intros s g HI [Hid Hsr].
    pose proof (read_committed s g p v r HI Hp Hsr ltac:(lia)) as Hsc. set (K := committed (blk s p)) in *.
    zcase.
    + exists (idle i acc). split; [done|]. split; [auto with sf|]. simpl. intros. by rewrite app_nil_r.
    + exists (fun s g => idle i acc s g /\ seen_com p (cur v r) K v r s g).
      split; [done|]. split; [auto with sf|]. clearbody K. clear s g HI Hid Hsr Hsc.
      pose proof (E_fits N E HV).
      apply (rg_claim i p v r K _ (r + 1) acc); [done|done|lia| | |done].
      * intros kk -> Hkk. rewrite (idx_cur N E HV) in n by lia. split; [|lia].
        apply addIndex_cur; [eauto| |lia|lia]. split; lia.
      * intros b nv Hlen <- HenE. cbn [fst]. destruct nv as [|x [|]]; simpl in Hlen; try lia.
        apply rg_get_entry; [by apply (ring_pos_in N E)|lia|]. intros s g HI Hc.
        pose proof (claimed_entry i b r acc [x] 0 x s g HI Hc eq_refl) as Hx. rewrite Z.add_0_r in Hx.
        rewrite Hx. exists (claimed i b r acc [x]). split; [done|]. split; [auto with sf|].
        apply (rg_add_stolen i b r acc [x]); [done|]. by simpl.
  - exists (idle i acc). split; [done|]. split; [auto with sf|].
    apply rg_thief_advance; [done| |done]. simpl. intros. by rewrite app_nil_r.
Qed.

Lemma rg_stealBlock i acc fuel :
  i <> 0%nat ->
  rg proto i (stealBlock N E fuel) (idle i acc) (fun out => idle i (acc ++ out)).
Proof.
  intros Hi. induction fuel as [|fuel IH]; [done|]. cbn [stealBlock].
  apply rg_load; [apply guar_refl|]. intros s g HI Hid. set (p := block_at N (stealPosition s)).
  pose proof (block_at_in (stealPosition s)) as Hp. fold p in Hp.
  exists (idle i acc). split; [done|]. split; [auto with sf|]. generalize (stealPosition s). intros position.
  clearbody p. clear s g HI Hid.
  apply rg_get; [done|]. intros s g HI Hid. destruct (read_reserved s g p HI Hp) as (v & r & ER & Hr & Hv).
  rewrite ER, (idx_cur N E HV) by done. zcase.
  - exists (fun s g => idle i acc s g /\ seen_res p (cur v r) s g).
    split; [split; [done|red; lia]|]. split; [auto with sf|]. clear s g HI Hid ER.
    apply rg_get; [done|]. intros s g HI [Hid Hsr].
    pose proof (read_committed s g p v r HI Hp Hsr ltac:(lia)) as Hsc. set (K := committed (blk s p)) in *.
    zcase.
    + exists (idle i acc). split; [done|]. split; [auto with sf|]. simpl. intros. by rewrite app_nil_r.
    + exists (fun s g => idle i acc s g /\ seen_com p (cur v r) K v r s g).
      split; [done|]. split; [auto with sf|]. clearbody K. clear s g HI Hid Hsr Hsc.
      apply (rg_claim i p v r K K (idx E K) acc); [done|done|lia| | |done].
      * intros kk -> Hkk. rewrite (idx_cur N E HV) in * by lia. split; [done|lia].
      * intros b nv Hlen <- HenE. cbn [fst].
        pose proof (rg_copy_claimed i b r acc nv 0 (length nv) ltac:(lia) ltac:(lia) ltac:(lia)) as Hcp.
        change (Z.of_nat 0) with 0 in Hcp. rewrite Z.add_0_r in Hcp.
        replace (Z.to_nat (idx E K - r)) with (length nv) by lia.
        eapply rg_bind; [exact Hcp|]. intros out. apply rg_pure. intros ->.
        rewrite drop_0, firstn_all.
        pose proof (E_fits N E HV) as HE. pose proof (bits_range N E HV) as Hb.
        assert (2 ^ bits E <= 2 ^ SIZE_BITS) by (apply Z.pow_le_mono_r; lia).
        rewrite szwrap_small by lia. rewrite <- Hlen.
        apply (rg_add_stolen i b r acc nv); [done|]. by simpl.
  - exists (idle i acc). split; [done|]. split; [auto with sf|].
    apply rg_thief_advance; [done| |done]. simpl. intros. by rewrite app_nil_r.
Qed.
End triples.
