(* ===== verification/BwosThreads.v ===== *)
(** * BwosQueue: the owner's operations and the theorems

    Triples for [push], [pushBatch], [pop] and [popBlock] against the protocol
    of BwosInv.v, with the thieves running at the same time, and the theorems
    about pools of one owner and any number of thieves. *)

From Stdlib Require Import ZArith Lia Sorted.
From stdpp Require Import base tactics list numbers option strings gmap sorting.
From S2P Require Import Prelude Conc Cursor Bwos BwosInv BwosOwner BwosConc.

Section owner.
Context `{SizeT} {T : Type} `{!Inhabited T} (N E : Z) (HV : valid_config N E).
Implicit Types (s : bwos T) (g : ghost T) (L acc : list T).

#[local] Abbreviation cur := (Cursor.cur (bits E)).
#[local] Abbreviation bver := (BwosInv.bver N).
#[local] Abbreviation proto := (bwos_protocol (T:=T) N E).
#[local] Abbreviation inv := (bwos_inv (T:=T) N E).
#[local] Abbreviation vb := (version_bits (bits E)).
#[local] Hint Resolve N_pos E_pos bits_range : core.

(** ** What the owner knows *)

(** Everything only the owner changes. *)
Record oview := OView {
  oL : list T;
  oP : Z;
  oC : Z;
  ou : Z;
  ost : Z;
  oinf : option (Z * Z);
  opb : nat;
  ocb : nat;
  ocons : nat -> Z;
  oacc : list T
}.

(** What the owner took: in queue order, all before its next entry. *)
Definition taken_in_order (C u : Z) g : Prop :=
  StronglySorted Z.lt (positions 0 (taken g)) /\
  Forall (fun pos => pos < pos_of E C u) (positions 0 (taken g)).

Record owns (o : oview) s g : Prop := {
  ow_pushed : pushed g = oL o;
  ow_P : gP g = oP o;
  ow_C : gC g = oC o;
  ow_u : gu g = ou o;
  ow_stage : stage g = ost o;
  ow_inf : inflight g !! 0%nat = oinf o;
  ow_pb : producerBlock s = opb o;
  ow_cb : consumerBlock s = ocb o;
  ow_cons : forall p, in_ring N p -> consumed (blk s p) = ocons o p;
  ow_mine : mine 0 (oacc o) s g;
  ow_order : taken_in_order (oC o) (ou o) g
}.

Lemma stable_owns o : stable proto 0 (owns o).
Proof.
  intros j s g s' g' Hj HI HI' HG [H1 H2 H3 H4 H5 H6 H7 H8 H9 H10 H11].
  pose proof HG as (_ & [ps Et] & Hinf & _ & Hth). destruct (Hth Hj) as (E1 & E2 & E3 & E4 & E5 & E6 & E7 & E8).
  simpl in *. constructor; try congruence.
  - by rewrite Hinf.
  - intros p Hp. destruct (E8 p Hp) as (-> & _). auto.
  - by apply (stable_mine N E 0 (oacc o) j s g s' g').
  - unfold taken_in_order. rewrite Et, positions_app, positions_other, app_nil_r by done. done.
Qed.

(** [consumed] of ring position [p] between the owner's calls. *)
Definition cons_spec (P C u : Z) (p : nat) : Z :=
  let b := lastb N P (Z.of_nat p) in
  if b <? C then cur (bver b) E
  else if b =? C then cur (bver b) u
  else cur (bver b - 1) E.

(** Between two calls. *)
Definition view L (P C u : Z) acc : oview :=
  OView L P C u 0 None (ring_pos N P) (ring_pos N C) (cons_spec P C u) acc.
Definition owner L P C u acc : asrt (bwos T) (ghost T) := owns (view L P C u acc).

Lemma cons_at_C P C u :
  0 <= C <= P -> P <= C + N -> (P = C + N -> u = E) ->
  cons_spec P C u (ring_pos N C) = cur (bver C) u.
Proof.
  intros HC HP Hu. unfold cons_spec. rewrite (ring_pos_Z N E HV).
  destruct (decide (P = C + N)) as [Heq|].
  - rewrite Hu by done.
    assert (lastb N P (C mod N) = P) as ->.
    { rewrite <- (Z_mod_plus_full C 1 N). replace (C + 1 * N) with P by lia. apply lastb_unique; [eauto|].
      pose proof (N_pos N E HV). lia. }
    pose proof (N_pos N E HV). rewrite (proj2 (Z.ltb_ge P C)), (proj2 (Z.eqb_neq P C)) by lia.
    f_equal. rewrite <- (bver_sub N) by eauto. f_equal. lia.
  - rewrite lastb_unique by (eauto || lia). by rewrite Z.ltb_irrefl, Z.eqb_refl.
Qed.

(** Changing [consumed] of the consumer's block. *)
Lemma cons_set_C P C u u' p :
  0 <= C <= P -> P < C + N -> in_ring N p ->
  cons_spec P C u' p = if decide (p = ring_pos N C) then cur (bver C) u' else cons_spec P C u p.
Proof.
  intros HC HP Hp. case_decide as Hd.
  - subst p. apply cons_at_C; lia.
  - unfold cons_spec. destruct (Z.eqb_spec (lastb N P (Z.of_nat p)) C) as [Heq|]; [exfalso|done].
    apply Hd. red in Hp. unfold ring_pos. rewrite <- Heq, lastb_mod by (eauto || lia). lia.
Qed.

(** The consumer moves to the next block. *)
Lemma cons_next_C P C r p :
  0 <= C -> C + 1 <= P <= C + N -> in_ring N p ->
  cons_spec P (C + 1) r p = if decide (p = ring_pos N (C + 1)) then cur (bver (C + 1)) r else cons_spec P C E p.
Proof.
  intros HC HP Hp. pose proof (N_pos N E HV). case_decide as Hd.
  - subst p. apply cons_at_C; lia.
  - assert (lastb N P (Z.of_nat p) <> C + 1).
    { intros Heq. apply Hd. red in Hp. unfold ring_pos. rewrite <- Heq, lastb_mod by (eauto || lia). lia. }
    unfold cons_spec. repeat zcase; done || lia || congruence.
Qed.

(** The producer enters the next block: its [consumed] stays. *)
Lemma cons_next_P P C u p :
  0 <= C <= P -> P + 1 <= C + N -> (P + 1 = C + N -> u = E) -> in_ring N p ->
  cons_spec (P + 1) C u p = cons_spec P C u p.
Proof.
  intros HC HP Hu Hp. pose proof (N_pos N E HV). destruct (decide (p = ring_pos N (P + 1))) as [->|Hne].
  - unfold cons_spec. rewrite (ring_pos_Z N E HV), lastb_succ_eq, lastb_next by eauto.
    rewrite (bver_sub N) by eauto. repeat zcase; try lia; try done. by rewrite Hu by lia.
  - unfold cons_spec. red in Hp. rewrite lastb_succ_ne; [done|eauto|lia|].
    intros Heq. apply Hne. unfold ring_pos. rewrite <- Heq. lia.
Qed.

(** ** Reading the static members *)

Lemma next_ring_pos s g b : inv s g -> next (blk s (ring_pos N b)) = ring_pos N (b + 1).
Proof.
  intros HI. destruct (bi_static _ _ _ _ HI (ring_pos N b) (ring_pos_in N E HV b)) as (_ & Hn & _).
  rewrite (ring_pos_Z N E HV), Zplus_mod_idemp_l in Hn.
  apply Nat2Z.inj. by rewrite Hn, (ring_pos_Z N E HV).
Qed.

Lemma isHead_bump s g b :
  inv s g -> (if isHead (blk s (ring_pos N (b + 1))) then 1 else 0) = bver (b + 1) - bver b.
Proof.
  intros HI. destruct (bi_static _ _ _ _ HI _ (ring_pos_in N E HV (b + 1))) as (-> & _).
  rewrite bver_succ by eauto. pose proof (ring_pos_Z N E HV (b + 1)) as Hz.
  destruct (Nat.eqb_spec (ring_pos N (b + 1)) 0) as [E0|E0]; zcase; lia.
Qed.

(** Versions stay within a machine word, one more included. *)
Lemma ver_word v : 0 <= v <= 2 ^ vb -> szwrap v = v.
Proof.
  intros Hv. pose proof (bits_range N E HV). apply szwrap_small. split; [lia|].
  assert (2 ^ vb < 2 ^ SIZE_BITS); [|lia]. apply Z.pow_lt_mono_r; unfold version_bits; lia.
Qed.

Lemma rg_get_owned {A X} o p (f : Block T -> X) (k : X -> prog (bwos T) A) Q x :
  in_ring N p -> (forall s g, inv s g -> owns o s g -> f (blk s p) = x) ->
  rg proto 0 (k x) (owns o) Q -> rg proto 0 (bind (get N p f) k) (owns o) Q.
Proof.
  intros Hp Hx Hk. apply rg_get; [done|]. intros s g HI Ho. exists (owns o).
  split; [done|]. split; [apply stable_owns|]. by rewrite (Hx s g).
Qed.

(** ** Producer *)

(** Claims on the previous round of the next block are done. *)
Definition left_by_thieves (P : Z) : asrt (bwos T) (ghost T) :=
  fun s _ => cur (bver (P + 1) - 1) E <= stolen (blk s (ring_pos N (P + 1))).

Lemma stable_left P : stable proto 0 (left_by_thieves P).
Proof.
  intros j s g s' g' Hj _ _ (_ & _ & _ & _ & Hth) Hle. destruct (Hth Hj) as (_ & _ & _ & _ & _ & _ & _ & H8).
  destruct (H8 _ (ring_pos_in N E HV (P + 1))) as (_ & _ & Hs). unfold left_by_thieves in *. simpl in *. lia.
Qed.
Lemma stable_owner L P C u acc : stable proto 0 (owner L P C u acc).
Proof. apply stable_owns. Qed.
Hint Resolve stable_owner stable_owns stable_left stable_and stable_const : sf.

(** [stolen] of a block never counts more than the block holds. *)
Lemma stolen_le s g p :
  inv s g -> in_ring N p -> stage g = 0 ->
  exists r, stolen (blk s p) = cur (bver (bno N g p)) r /\ 0 <= r <= E.
Proof.
  intros HI Hp Hst. destruct (bi_reserved _ _ _ _ HI p Hp) as (r & _ & Es & (Hr & _ & _ & Hle & _)).
  unfold stolen_spec in Es. rewrite Hst in Es. simpl in Es. eexists. split; [done|].
  pose proof (infl_nonneg (bno N g p) (inflight g) (fun t c => claims_nonneg N E s g t c HI)). lia.
Qed.

(** The version check of the producer: what it proves about the consumer. *)
Lemma cons_writable P C u :
  0 <= C <= P -> P <= C + N -> (P = C + N -> u = E) -> 0 <= u <= E ->
  cons_spec P C u (ring_pos N (P + 1)) = cur (bver (P + 1) - 1) E ->
  P + 1 <= C + N /\ (P + 1 = C + N -> u = E).
Proof.
  intros HC HP Hu Hur Heq. unfold cons_spec in Heq. rewrite (ring_pos_Z N E HV), lastb_next in Heq by eauto.
  pose proof (E_fits N E HV). rewrite (bver_sub N) in Heq by eauto. destruct (Z.ltb_spec (P + 1 - N) C); [lia|].
  destruct (Z.eqb_spec (P + 1 - N) C); apply cur_inj in Heq as [? ?]; try lia; eauto.
Qed.

Lemma cons_cursor P C u p : 0 <= u <= E -> exists v i, cons_spec P C u p = cur v i /\ 0 <= i <= E.
Proof. pose proof (E_pos N E HV). intros. unfold cons_spec. repeat zcase; eexists _, _; (split; [reflexivity|lia]). Qed.

(** Facts the invariant gives about the owner's view. *)
Lemma owner_window L P C u acc s g :
  inv s g -> owner L P C u acc s g ->
  0 <= C <= P /\ P <= C + N /\ (P = C + N -> u = E) /\ 0 <= u <= E /\
  0 <= Z.of_nat (length L) - P * E <= E /\ 0 <= bver P < 2 ^ vb.
Proof.
  intros HI [H1 H2 H3 H4 _]. pose proof (bi_window _ _ _ _ HI). pose proof (bi_u _ _ _ _ HI).
  pose proof (count_range N E HV s g (gC g) HI). pose proof (bi_count _ _ _ _ HI). pose proof (bi_ver _ _ _ _ HI).
  pose proof (N_pos N E HV). pose proof (bver_nonneg N (N_pos N E HV) P).
  unfold n_pushed in *. simpl in *. subst. lia.
Qed.

Lemma rg_window {A} L P C u acc (p : prog (bwos T) A) Q :
  (0 <= C <= P /\ P <= C + N /\ (P = C + N -> u = E) /\ 0 <= u <= E /\
   0 <= Z.of_nat (length L) - P * E <= E /\ 0 <= bver P < 2 ^ vb ->
   rg proto 0 p (owner L P C u acc) Q) ->
  rg proto 0 p (owner L P C u acc) Q.
Proof. apply (rg_pure_from proto 0). apply owner_window. Qed.

Lemma rg_isNextBlockWritable L P C u acc :
  0 <= P -> bver (P + 1) < 2 ^ vb ->
  rg proto 0 (isNextBlockWritable N E (ring_pos N (P + 1)) (bver (P + 1))) (owner L P C u acc)
    (fun w s g => owner L P C u acc s g /\
       (w = true -> (P + 1 <= C + N /\ (P + 1 = C + N -> u = E)) /\ left_by_thieves P s g)).
Proof.
  intros HP0 Hv. pose proof (E_fits N E HV) as HE. unfold isNextBlockWritable.
  apply rg_window. intros (HC & HP & Hu & Hur & HL & _).
  pose proof (bver_mono N (N_pos N E HV) 0 (P + 1) ltac:(lia)) as Hv1. change (bver 0) with 1 in Hv1.
  assert (szwrap (bver (P + 1) - 1) = bver (P + 1) - 1) as -> by (apply ver_word; lia).
  destruct (cons_cursor P C u (ring_pos N (P + 1)) Hur) as (v & i & Ec & Hi).
  apply (rg_get_owned _ _ _ _ _ (cur v i)); [apply (ring_pos_in N E HV)| |].
  { intros s g _ Ho. rewrite <- Ec. apply Ho, (ring_pos_in N E HV). }
  rewrite (idx_cur N E HV), (ver_cur N E HV) by done.
  destruct (Z.eqb_spec i E) as [->|]; simpl; [|by intros].
  destruct (Z.eqb_spec v (bver (P + 1) - 1)) as [->|]; simpl; [|by intros].
  pose proof (cons_writable P C u HC HP Hu Hur Ec) as Hwc.
  apply rg_get; [apply (ring_pos_in N E HV)|]. intros s g HI Ho.
  destruct (stolen_le s g _ HI (ring_pos_in N E HV (P + 1))) as (r & Es & Hr); [apply Ho|].
  rewrite Es, (idx_cur N E HV), (ver_cur N E HV) by lia.
  assert (bno N g (ring_pos N (P + 1)) = P + 1 - N) as Hb
    by (pose proof (bno_next N E HV g) as Hb; by rewrite (ow_P _ _ _ Ho : gP g = P) in Hb).
  rewrite Hb, (bver_sub N) in * by eauto. rewrite Z.eqb_refl, andb_true_r.
  destruct (Z.eqb_spec r E) as [->|].
  - exists (fun s g => owner L P C u acc s g /\ left_by_thieves P s g).
    split; [split; [done|red; lia]|]. split; [auto with sf|].
    simpl. intros s1 g1 HI1 [Ho1 Hl1]. split; [done|]. intros _. split; [exact Hwc|done].
  - exists (owner L P C u acc). split; [done|]. split; [apply stable_owns|]. by intros.
Qed.

Lemma owns_upd o p f s g :
  inv s g -> in_ring N p -> (forall B, consumed (f B) = consumed B) -> owns o s g -> owns o (upd p f s) g.
Proof.
  intros HI Hp Hf [H1 H2 H3 H4 H5 H6 H7 H8 H9 H10 H11]. constructor; try done.
  intros q Hq. rewrite <- H9 by done. pose proof (bi_blocks _ _ _ _ HI). red in Hp.
  destruct (decide (p = q)) as [<-|]; [by rewrite blk_upd_eq by lia|by rewrite blk_upd_ne].
Qed.

(** The view during the three stores of [advanceProducer]. *)
Definition entering L P C u st acc : oview :=
  OView L P C u st None (ring_pos N P) (ring_pos N C) (cons_spec P C u) acc.
Definition may_enter L (P C u : Z) : Prop :=
  Z.of_nat (length L) = (P + 1) * E /\ bver (P + 1) < 2 ^ vb /\ P + 1 <= C + N /\ (P + 1 = C + N -> u = E).

Lemma owns_writable L P C u st acc s g :
  may_enter L P C u -> owns (entering L P C u st acc) s g -> writable N E s g.
Proof.
  intros (HL & Hv & HC) [H1 H2 H3 H4 H5 H6 _]. simpl in *. constructor.
  - rewrite count_P. unfold n_pushed. rewrite H1, H2. lia.
  - by rewrite H2.
  - rewrite H2, H3, H4. done.
  - done.
Qed.

Lemma owns_stage L P C u st st' acc s g :
  owns (entering L P C u st acc) s g -> owns (entering L P C u st' acc) s (stage_ghost st' g).
Proof. intros [H1 H2 H3 H4 H5 H6 H7 H8 H9 H10 H11]. by constructor. Qed.

Lemma owns_enter L P C u st acc s g :
  owns (entering L P C u st acc) s g ->
  owns (OView L (P + 1) C u 0 None (ring_pos N P) (ring_pos N C) (cons_spec P C u) acc) s (enter_ghost g).
Proof. intros [H1 H2 H3 H4 H5 H6 H7 H8 H9 H10 H11]. constructor; try done. simpl in *. lia. Qed.

Lemma rg_enter_block L P C u acc :
  0 <= C <= P -> may_enter L P C u ->
  rg proto 0
    (set N (ring_pos N (P + 1)) (set_committed (cur (bver (P + 1)) 0)) ;;;
     set N (ring_pos N (P + 1)) (set_stolen (cur (bver (P + 1)) 0)) ;;;
     set N (ring_pos N (P + 1)) (set_reserved (cur (bver (P + 1)) 0)) ;;;
     store (set_producerBlock (ring_pos N (P + 1))) ;;;
     Ret true)
    (fun s g => owner L P C u acc s g /\ left_by_thieves P s g)
    (fun ok s g => if ok : bool then owner L (P + 1) C u acc s g else owner L P C u acc s g).
Proof.
  intros HC Hm. pose proof (ring_pos_in N E HV (P + 1)) as Hp.
  apply rg_set; [done|]. intros s g HI [Ho Hl]. pose proof (owns_writable L P C u 0 acc s g Hm Ho) as Hw.
  pose proof (ow_P _ _ _ Ho : gP g = P) as HP. pose proof (ow_stage _ _ _ Ho : stage g = 0) as Hst.
  assert (stolen (blk s (ring_pos N (gP g + 1))) = cur (bver (gP g + 1 - N)) E) as Hs.
  { rewrite HP. destruct (stolen_le s g _ HI Hp Hst) as (r & Es & Hr). rewrite Es. unfold left_by_thieves in Hl.
    pose proof (bno_next N E HV g) as Hb. rewrite HP in Hb. rewrite Es, Hb, (bver_sub N) in * by eauto.
    unfold Cursor.cur in Hl. do 2 f_equal; lia. }
  destruct (inv_advance1 N E HV s g HI Hst Hw Hs) as [HI1 HG1]. rewrite HP in HI1, HG1.
  eexists _, (owns (entering L P C u 1 acc)). split; [exact HI1|]. split; [exact HG1|].
  split; [apply (owns_stage L P C u 0); by apply owns_upd|]. split; [auto with sf|].
  clear s g HI Ho Hl Hw HP Hst Hs HI1 HG1. apply rg_set; [done|]. intros s g HI Ho.
  pose proof (ow_P _ _ _ Ho : gP g = P) as HP. pose proof (ow_stage _ _ _ Ho : stage g = 1) as Hst.
  destruct (inv_advance2 N E HV s g HI Hst) as [HI1 HG1]. rewrite HP in HI1, HG1.
  eexists _, (owns (entering L P C u 2 acc)). split; [exact HI1|]. split; [exact HG1|].
  split; [apply (owns_stage L P C u 1); by apply owns_upd|]. split; [auto with sf|].
  clear s g HI Ho HP Hst HI1 HG1. apply rg_set; [done|]. intros s g HI Ho.
  pose proof (ow_P _ _ _ Ho : gP g = P) as HP. pose proof (ow_stage _ _ _ Ho : stage g = 2) as Hst.
  destruct (inv_advance3 N E HV s g HI Hst (owns_writable L P C u 2 acc s g Hm Ho)) as [HI1 HG1]. rewrite HP in HI1, HG1.
  eexists _, (owns (OView L (P + 1) C u 0 None (ring_pos N P) (ring_pos N C) (cons_spec P C u) acc)).
  split; [exact HI1|]. split; [exact HG1|]. split; [apply (owns_enter L P C u 2); by apply owns_upd|].
  split; [auto with sf|]. clear s g HI Ho HP Hst HI1 HG1. apply rg_store. intros s g HI Ho.
  destruct (inv_ext N E HV s (set_producerBlock (ring_pos N (P + 1)) s) g) as [HI1 HG1]; [done|done|done|].
  exists g, (owner L (P + 1) C u acc). split; [exact HI1|]. split; [exact HG1|].
  split; [|split; [auto with sf|by intros s1 g1 _ Ho1]].
  destruct Ho as [H1 H2 H3 H4 H5 H6 H7 H8 H9 H10 H11]. constructor; try done.
  intros p Hq. simpl. rewrite cons_next_P by (done || apply Hm). by apply H9.
Qed.

Lemma rg_advanceProducer L P C u acc :
  Z.of_nat (length L) = (P + 1) * E -> bver (P + 1) < 2 ^ vb ->
  rg proto 0 (advanceProducer N E (ring_pos N P) (cur (bver P) E)) (owner L P C u acc)
    (fun ok s g => if ok : bool then owner L (P + 1) C u acc s g else owner L P C u acc s g).
Proof.
  intros HL Hv. pose proof (E_fits N E HV) as HE. unfold advanceProducer.
  apply rg_window. intros (HC & HP & Hu & Hur & _ & HvP).
  apply (rg_get_owned _ _ _ _ _ (ring_pos N (P + 1))); [apply (ring_pos_in N E HV)| |].
  { intros s g HI _. by eapply next_ring_pos. }
  apply rg_get; [apply (ring_pos_in N E HV)|]. intros s g HI Ho. exists (owner L P C u acc).
  split; [done|]. split; [auto with sf|].
  rewrite nextRound_cur by (eauto || split; lia). rewrite (isHead_bump s g P HI).
  replace (bver P + (bver (P + 1) - bver P)) with (bver (P + 1)) by lia.
  pose proof (bver_mono N (N_pos N E HV) P (P + 1) ltac:(lia)).
  rewrite (wrap_small vb) by (red; lia). rewrite (ver_cur N E HV) by (pose proof (E_pos N E HV); lia).
  clear s g HI Ho. eapply rg_bind; [apply rg_isNextBlockWritable; [lia|done]|].
  intros [|]; simpl negb; cbv iota.
  - eapply rg_pre; [|apply (rg_pure proto 0 _ (may_enter L P C u)); intros Hm; by apply rg_enter_block].
    intros s g _ [Ho Hw]. destruct (Hw eq_refl) as [Hc Hl]. split; [|done]. split; [done|]. by split.
  - intros s g _ [Ho _]. done.
Qed.

(** Entries written to the producer's block and not committed yet. *)
Definition staged (P c : Z) (vs : list T) : asrt (bwos T) (ghost T) :=
  fun s _ => forall k v, vs !! k = Some v ->
    entries (blk s (ring_pos N P)) !! Z.to_nat (c + Z.of_nat k) = Some v.

Lemma stable_staged P c vs : stable proto 0 (staged P c vs).
Proof.
  intros j s g s' g' Hj _ _ (_ & _ & _ & _ & Hth) Hst k v Hk. destruct (Hth Hj) as (_ & _ & _ & _ & _ & _ & _ & H8).
  destruct (H8 _ (ring_pos_in N E HV P)) as (_ & He & _). simpl in He. rewrite He. by apply Hst.
Qed.
Hint Resolve stable_staged : sf.

Lemma rg_put_entry {A} L P C u acc c vs v i (k : unit -> prog (bwos T) A) Q :
  i = c + Z.of_nat (length vs) -> c = Z.of_nat (length L) - P * E -> c + Z.of_nat (length vs) < E ->
  rg proto 0 (k tt) (fun s g => owner L P C u acc s g /\ staged P c (vs ++ [v]) s g) Q ->
  rg proto 0 (bind (put_entry N E (ring_pos N P) i v) k)
    (fun s g => owner L P C u acc s g /\ staged P c vs s g) Q.
Proof.
  intros -> Hc Hlt Hk. apply (rg_pure_from proto 0 _ (0 <= c)).
  { intros s g HI [Ho _]. destruct (owner_window _ _ _ _ _ _ _ HI Ho) as (? & ? & ? & ? & ? & ?). lia. }
  intros Hc0. unfold put_entry, check. rewrite is_block_in by apply (ring_pos_in N E HV).
  unfold is_entry. rewrite (proj2 (andb_true_iff _ _)) by (split; lia).
  change (rg proto 0 (bind (store (upd (ring_pos N P) (set_entry (c + Z.of_nat (length vs)) v))) k)
    (fun s g => owner L P C u acc s g /\ staged P c vs s g) Q).
  apply rg_store. intros s g HI [Ho Hs]. pose proof (ow_P _ _ _ Ho : gP g = P) as HP.
  pose proof (ow_pushed _ _ _ Ho : pushed g = L) as HL.
  assert (count_of E g (gP g) = c) as Hcg by (rewrite count_P; unfold n_pushed; rewrite HL, HP; lia).
  destruct (inv_put_entry N E HV s g (c + Z.of_nat (length vs)) v HI ltac:(lia)) as [HI1 HG1]. rewrite HP in HI1, HG1.
  eexists _, _. split; [exact HI1|]. split; [exact HG1|]. split; [|split; [|exact Hk]]; [|auto with sf].
  split; [apply owns_upd; [done|apply (ring_pos_in N E HV)|done|done]|].
  destruct (bi_static _ _ _ _ HI _ (ring_pos_in N E HV P)) as (_ & _ & Hlen).
  pose proof (bi_blocks _ _ _ _ HI). pose proof (ring_pos_in N E HV P) as Hp. red in Hp.
  intros j w Hj. rewrite blk_upd_eq by lia. simpl. apply lookup_app_Some in Hj as [Hj|[Hge Hj]].
  - pose proof (lookup_lt_Some _ _ _ Hj). rewrite list_lookup_insert_ne by lia. by apply Hs.
  - apply list_lookup_singleton_Some in Hj as [Hj <-]. replace j with (length vs) by lia.
    apply list_lookup_insert_eq. lia.
Qed.

Lemma owner_committed L P C u acc s g :
  inv s g -> owner L P C u acc s g ->
  committed (blk s (ring_pos N P)) = cur (bver P) (Z.of_nat (length L) - P * E).
Proof.
  intros HI Ho. pose proof (ow_P _ _ _ Ho : gP g = P) as HP. pose proof (ow_pushed _ _ _ Ho : pushed g = L) as HL.
  rewrite (bi_committed _ _ _ _ HI _ (ring_pos_in N E HV P)). unfold committed_spec.
  rewrite (ow_stage _ _ _ Ho : stage g = 0). simpl. pose proof (N_pos N E HV).
  rewrite (bno_ring_pos N E HV) by lia. rewrite <- HP at 2. rewrite count_P. unfold n_pushed. by rewrite HL, HP.
Qed.

Lemma rg_commit {A} L P C u acc c vs (k : unit -> prog (bwos T) A) Q :
  c = Z.of_nat (length L) - P * E -> c + Z.of_nat (length vs) <= E ->
  rg proto 0 (k tt) (owner (L ++ vs) P C u acc) Q ->
  rg proto 0 (bind (set N (ring_pos N P) (set_committed (addIndex (cur (bver P) c) (Z.of_nat (length vs))))) k)
    (fun s g => owner L P C u acc s g /\ staged P c vs s g) Q.
Proof.
  intros Hc Hle Hk. apply rg_set; [apply (ring_pos_in N E HV)|]. intros s g HI [Ho Hs].
  pose proof (ow_P _ _ _ Ho : gP g = P) as HP. pose proof (ow_pushed _ _ _ Ho : pushed g = L) as HL.
  destruct (owner_window _ _ _ _ _ _ _ HI Ho) as (_ & _ & _ & _ & HLr & HvP).
  assert (count_of E g (gP g) = c) as Hcg by (rewrite count_P; unfold n_pushed; rewrite HL, HP; lia).
  pose proof (E_fits N E HV). rewrite addIndex_cur; [|eauto|split; lia|lia|lia].
  destruct (inv_commit N E HV s g vs HI) as [HI1 HG1]; [apply Ho|lia|rewrite Hcg, HP; exact Hs|].
  rewrite Hcg, HP in HI1, HG1.
  eexists _, (owner (L ++ vs) P C u acc). split; [exact HI1|]. split; [exact HG1|].
  split; [|split; [auto with sf|exact Hk]].
  assert (owns (view L P C u acc) (upd (ring_pos N P) (set_committed (cur (bver P) (c + Z.of_nat (length vs)))) s) g)
    as [H1 H2 H3 H4 H5 H6 H7 H8 H9 H10 H11] by (apply owns_upd; [done|apply (ring_pos_in N E HV)|done|done]).
  constructor; try done; simpl in *; [by rewrite H1|]. unfold mine in *. simpl.
  eapply lookups_prefix; [|exact H10]. by apply prefix_app_r.
Qed.

(** Room in the version counters for [n] more values. *)
Definition budget L (n : Z) : Prop := 1 + (Z.of_nat (length L) + n) / (E * N) < 2 ^ vb.

Lemma budget_mono L n n' : n' <= n -> budget L n -> budget L n'.
Proof.
  intros Hn. unfold budget. pose proof (N_pos N E HV). pose proof (E_pos N E HV).
  pose proof (Z.div_le_mono (Z.of_nat (length L) + n') (Z.of_nat (length L) + n) (E * N) ltac:(nia)). lia.
Qed.

Lemma budget_app L vs n : budget L (Z.of_nat (length vs) + n) -> budget (L ++ vs) n.
Proof. unfold budget. rewrite length_app. by replace (Z.of_nat (length L + length vs) + n) with (Z.of_nat (length L) + (Z.of_nat (length vs) + n)) by lia. Qed.

Lemma budget_ver L P n : Z.of_nat (length L) = (P + 1) * E -> 0 <= n -> budget L n -> bver (P + 1) < 2 ^ vb.
Proof.
  intros HL Hn Hb. apply (budget_mono _ _ 0) in Hb; [|done]. unfold budget in Hb.
  pose proof (N_pos N E HV). pose proof (E_pos N E HV).
  rewrite HL, Z.add_0_r, <- Z.div_div in Hb by lia. rewrite Z.div_mul in Hb by lia. done.
Qed.

Lemma rg_push L P C u acc v fuel :
  budget L 1 ->
  rg proto 0 (push N E fuel v) (owner L P C u acc)
    (fun ok s g => exists P', owner (if ok : bool then L ++ [v] else L) P' C u acc s g).
Proof.
  intros Hb. revert P. induction fuel as [|fuel IH]; intros P; [done|]. cbn [push].
  apply rg_window. intros (HC & HP & Hu & Hur & HL & HvP). pose proof (E_fits N E HV).
  apply rg_load; [apply guar_refl|]. intros s g HI Ho. rewrite (ow_pb _ _ _ Ho). cbn [opb view].
  exists (owner L P C u acc). split; [done|]. split; [auto with sf|]. clear s g HI Ho.
  apply (rg_get_owned _ _ _ _ _ (cur (bver P) (Z.of_nat (length L) - P * E))); [apply (ring_pos_in N E HV)| |].
  { intros s g HI Ho. by eapply owner_committed. }
  rewrite (idx_cur N E HV) by lia. destruct (Z.ltb_spec (Z.of_nat (length L) - P * E) E).
  - set (c := Z.of_nat (length L) - P * E) in *.
    apply (rg_pre proto 0 _ (fun s g => owner L P C u acc s g /\ staged P c [] s g)); [by intros s g _ Ho|].
    apply (rg_put_entry L P C u acc c []); [simpl; lia|done|simpl; lia|]. apply (rg_commit L P C u acc c [v]); [done|simpl; lia|].
    intros s g _ Ho. by exists P.
  - assert (Z.of_nat (length L) - P * E = E) as Hfull by lia. rewrite Hfull.
    eapply rg_bind; [apply rg_advanceProducer; [lia|apply (budget_ver L P 1); done || lia]|].
    intros [|]; simpl; [apply IH|]. intros s g _ Ho. by exists P.
Qed.

(** The inner loop of [pushBatch] writes a prefix of the values, all of them
    or up to the end of the block. *)
Definition filled L P C u acc c vs0 values (r : list T * Z) : asrt (bwos T) (ghost T) :=
  fun s g => exists n : nat,
    (r = (drop n values, Z.of_nat n) /\ (n <= length values)%nat /\
     c + Z.of_nat (length vs0 + n) <= E /\
     ((n < length values)%nat -> c + Z.of_nat (length vs0 + n) = E)) /\
    (owner L P C u acc s g /\ staged P c (vs0 ++ take n values) s g).

Lemma rg_fill L P C u acc c values vs0 :
  c = Z.of_nat (length L) - P * E -> c + Z.of_nat (length vs0) <= E ->
  rg proto 0 (fill N E (ring_pos N P) (c + Z.of_nat (length vs0)) values)
    (fun s g => owner L P C u acc s g /\ staged P c vs0 s g)
    (filled L P C u acc c vs0 values).
Proof.
  intros Hc. revert vs0. induction values as [|v rest IH]; intros vs0 Hle; cbn [fill].
  { intros s g _ Hos. exists 0%nat. rewrite app_nil_r. splits; try done; simpl; lia || apply Hos. }
  destruct (Z.ltb_spec (c + Z.of_nat (length vs0)) E).
  - apply (rg_put_entry L P C u acc c vs0); [done|done|done|].
    specialize (IH (vs0 ++ [v])). rewrite length_app in IH. cbn [length] in IH.
    replace (c + Z.of_nat (length vs0) + 1) with (c + Z.of_nat (length vs0 + 1)) by lia.
    eapply rg_bind; [apply IH; lia|]. intros r s g _ (n & (-> & Hn & Hn1 & Hn2) & Hos).
    exists (S n). rewrite length_app in *. cbn [length] in *. simpl in Hos. rewrite <- app_assoc in Hos.
    split; [|exact Hos]. splits; try lia. cbn [fst snd]. by rewrite Nat2Z.inj_succ.
  - intros s g _ Hos. exists 0%nat. rewrite app_nil_r. split; [|exact Hos]. cbn [drop length]. splits; done || lia.
Qed.

(** [pushBatch] stores [committed] only when something was written. *)
Lemma rg_commit_some L P C u acc c vs (k : prog (bwos T) Z) Q :
  c = Z.of_nat (length L) - P * E -> c + Z.of_nat (length vs) <= E ->
  rg proto 0 k (owner (L ++ vs) P C u acc) Q ->
  rg proto 0
    ((if negb (Z.of_nat (length vs) =? 0)
      then set N (ring_pos N P) (set_committed (addIndex (cur (bver P) c) (Z.of_nat (length vs))))
      else Ret tt) ;;; k)
    (fun s g => owner L P C u acc s g /\ staged P c vs s g) Q.
Proof.
  intros Hc Hle Hk. destruct (Z.eqb_spec (Z.of_nat (length vs)) 0) as [Hz|Hnz]; simpl negb; cbv iota.
  - destruct vs; [|simpl in Hz; lia]. rewrite app_nil_r in Hk.
    eapply rg_pre; [|exact Hk]. by intros s g _ [Ho _].
  - by apply rg_commit.
Qed.

Lemma rg_pushBatch L P C u acc values pushed_ fuel :
  budget L (Z.of_nat (length values)) ->
  rg proto 0 (pushBatch N E fuel values pushed_) (owner L P C u acc)
    (fun n s g => exists P' k, (n = pushed_ + Z.of_nat k /\ (k <= length values)%nat) /\
       owner (L ++ take k values) P' C u acc s g).
Proof.
  revert L P values pushed_. induction fuel as [|fuel IH]; intros L P values pushed_ Hb; [done|].
  cbn [pushBatch]. destruct values as [|v0 rest0].
  { intros s g _ Ho. exists P, 0%nat. rewrite app_nil_r. split; [lia|done]. }
  set (values := v0 :: rest0) in *. clearbody values.
  apply rg_window. intros (HC & HP & Hu & Hur & HL & HvP). pose proof (E_fits N E HV).
  apply rg_load; [apply guar_refl|]. intros s g HI Ho. rewrite (ow_pb _ _ _ Ho). cbn [opb view].
  exists (owner L P C u acc). split; [done|]. split; [auto with sf|]. clear s g HI Ho.
  apply (rg_get_owned _ _ _ _ _ (cur (bver P) (Z.of_nat (length L) - P * E))); [apply (ring_pos_in N E HV)| |].
  { intros s g HI Ho. by eapply owner_committed. }
  rewrite (idx_cur N E HV) by lia. set (c := Z.of_nat (length L) - P * E) in *.
  apply (rg_pre proto 0 _ (fun s g => owner L P C u acc s g /\ staged P c [] s g)); [by intros s g _ Ho|].
  pose proof (rg_fill L P C u acc c values [] eq_refl ltac:(simpl; lia)) as Hfill.
  cbn [length] in Hfill. rewrite Z.add_0_r in Hfill.
  eapply rg_bind; [exact Hfill|]. clear Hfill. intros r. unfold filled. cbn [length app].
  apply rg_ex. intros n. apply rg_pure. intros (-> & Hn & Hn1 & Hn2). cbn [fst snd].
  assert (Hlt : length (take n values) = n) by (rewrite length_take; lia).
  pose proof (fun k Q => rg_commit_some L P C u acc c (take n values) k Q eq_refl ltac:(lia)) as Hcommit.
  rewrite Hlt in Hcommit. apply Hcommit. clear Hcommit.
  replace (if negb (Z.of_nat n =? 0) then pushed_ + Z.of_nat n else pushed_) with (pushed_ + Z.of_nat n)
    by (destruct (Z.eqb_spec (Z.of_nat n) 0); simpl; lia).
  assert (Hrest : forall P1, rg proto 0 (pushBatch N E fuel (drop n values) (pushed_ + Z.of_nat n))
    (owner (L ++ take n values) P1 C u acc)
    (fun m s g => exists P' k, (m = pushed_ + Z.of_nat k /\ (k <= length values)%nat) /\
       owner (L ++ take k values) P' C u acc s g)).
  { intros P1. eapply rg_weaken; [done| |apply IH].
    - intros m s g _ (P2 & k & (-> & Hk) & Ho). rewrite length_drop in Hk. exists P2, (n + k)%nat.
      split; [lia|]. by rewrite <- app_assoc, take_take_drop in Ho.
    - apply budget_app. rewrite Hlt, length_drop.
      by replace (Z.of_nat n + Z.of_nat (length values - n)) with (Z.of_nat (length values)) by lia. }
  destruct (drop n values) as [|w rest] eqn:Ed; [apply Hrest|].
  apply (f_equal length) in Ed. rewrite length_drop in Ed. simpl in Ed.
  assert (Hfull : c + Z.of_nat n = E) by (apply Hn2; lia).
  rewrite addIndex_cur; [|eauto|split; lia|lia|lia]. rewrite Hfull.
  eapply rg_bind.
  - apply rg_advanceProducer; [rewrite length_app, Hlt; lia|].
    apply (budget_ver (L ++ take n values) P 0); [rewrite length_app, Hlt; lia|done|].
    apply budget_app. eapply budget_mono; [|exact Hb]. lia.
  - intros [|]; cbn [negb]; [apply Hrest|]. intros s g _ Ho. exists P, n. split; [lia|done].
Qed.

(** ** Consumer *)

Lemma next_reserved L P C u acc s g :
  inv s g -> owner L P C u acc s g -> C < P ->
  exists r, reserved (blk s (ring_pos N (C + 1))) = cur (bver (C + 1)) r /\ 0 <= r <= E.
Proof.
  intros HI Ho HCP. destruct (owner_window _ _ _ _ _ _ _ HI Ho) as (HC & HP & _).
  destruct (bi_reserved _ _ _ _ HI _ (ring_pos_in N E HV (C + 1))) as (r & Er & _ & (Hr & _)).
  rewrite (bno_ring_pos N E HV) in Er by (rewrite (ow_P _ _ _ Ho : gP g = P); lia). by exists r.
Qed.

Lemma next_reserved_ver L P C u acc s g :
  inv s g -> owner L P C u acc s g ->
  (ver E (reserved (blk s (ring_pos N (C + 1)))) =? bver (C + 1)) = (C <? P).
Proof.
  intros HI Ho. destruct (owner_window _ _ _ _ _ _ _ HI Ho) as (HC & HP & _).
  destruct (Z.ltb_spec C P).
  - destruct (next_reserved _ _ _ _ _ _ _ HI Ho ltac:(lia)) as (r & -> & Hr). rewrite (ver_cur N E HV) by done. apply Z.eqb_refl.
  - assert (C = P) as -> by lia.
    destruct (bi_reserved _ _ _ _ HI _ (ring_pos_in N E HV (P + 1))) as (r & -> & _ & (Hr & _)).
    rewrite (ver_cur N E HV) by done. pose proof (bno_next N E HV g) as Hb.
    rewrite (ow_P _ _ _ Ho : gP g = P) in Hb. rewrite Hb, (bver_sub N) by eauto. apply Z.eqb_neq. lia.
Qed.

Lemma next_version P C : 0 <= C <= P -> 0 <= bver P < 2 ^ vb ->
  szwrap (bver C + (bver (C + 1) - bver C)) = bver (C + 1).
Proof.
  intros HC Hv. replace (bver C + (bver (C + 1) - bver C)) with (bver (C + 1)) by lia.
  apply ver_word. pose proof (bver_mono N (N_pos N E HV) C P ltac:(lia)).
  pose proof (bver_nonneg N (N_pos N E HV) (C + 1) ltac:(pose proof (N_pos N E HV); lia)).
  pose proof (bver_succ N (N_pos N E HV) C). destruct ((C + 1) mod N =? 0); lia.
Qed.

Lemma rg_consumerMayAdvance {A} L P C u acc (k : bool -> prog (bwos T) A) Q :
  0 <= u <= E ->
  rg proto 0 (k (C <? P)) (owner L P C u acc) Q ->
  rg proto 0 (bind (consumerMayAdvance N E (ring_pos N (C + 1)) (cur (bver C) u)) k) (owner L P C u acc) Q.
Proof.
  intros Hur Hk. apply rg_window. intros (HC & HP & Hu & _ & HL & HvP). unfold consumerMayAdvance.
  eapply (rg_bind proto 0 _ _ _ (fun b s g => b = (C <? P) /\ owner L P C u acc s g)).
  2:{ intros b. apply rg_pure. by intros ->. }
  apply rg_get; [apply (ring_pos_in N E HV)|]. intros s g HI Ho. exists (owner L P C u acc).
  split; [done|]. split; [auto with sf|]. rewrite (isHead_bump s g C HI), (ver_cur N E HV) by done.
  rewrite (next_version P) by done. clear s g HI Ho.
  apply rg_get; [apply (ring_pos_in N E HV)|]. intros s g HI Ho. exists (owner L P C u acc).
  split; [done|]. split; [auto with sf|]. rewrite (next_reserved_ver L P C u acc s g HI Ho). by intros s1 g1 _ Ho1.
Qed.

(** Between the exchange and the store of [consumerBlock]. *)
Definition taking L P C r inf cons acc : oview :=
  OView L P (C + 1) r 0 inf (ring_pos N P) (ring_pos N C) cons acc.

Lemma owns_take L P C r acc s s' g :
  0 <= r -> (forall p, consumed (blk s' p) = consumed (blk s p)) ->
  producerBlock s' = producerBlock s -> consumerBlock s' = consumerBlock s ->
  owner L P C E acc s g ->
  owns (taking L P C r (Some (C + 1, E - r)) (cons_spec P C E) acc) s' (take_ghost E r g).
Proof.
  intros Hr Hc Hpb Hcb [H1 H2 H3 H4 H5 H6 H7 H8 H9 H10 [H11 H12]]. simpl in *. constructor; simpl; try congruence; try lia.
  - rewrite lookup_insert_eq. by rewrite H3.
  - intros p Hp. rewrite Hc. by apply H9.
  - done.
  - split; [done|]. eapply Forall_impl; [exact H12|]. intros pos. unfold pos_of. lia.
Qed.

(** The rest of the takeover: credit the unclaimed entries to [stolen], start
    consuming where the thieves' claims end. *)
Lemma rg_credit L P C r acc :
  0 <= C < P -> P <= C + N -> 0 <= r <= E ->
  rg proto 0
    (rmw (fun s => (upd (ring_pos N (C + 1)) (fun b => set_stolen (stolen b +w (E - r)) b) s, tt)) ;;;
     set N (ring_pos N (C + 1)) (set_consumed (cur (bver (C + 1)) r)) ;;;
     store (set_consumerBlock (ring_pos N (C + 1))) ;;;
     Ret true)
    (owns (taking L P C r (Some (C + 1, E - r)) (cons_spec P C E) acc))
    (fun ok s g => if ok : bool then exists r, C < P /\ owner L P (C + 1) r acc s g
                   else C = P /\ owner L P C E acc s g).
Proof.
  intros HC HP Hr. pose proof (ring_pos_in N E HV (C + 1)) as Hp.
  apply rg_rmw. intros s g HI Ho. cbn [fst snd].
  destruct (inv_unclaim N E HV 0 s g (C + 1) (E - r) HI) as [HI1 HG1]; [apply Ho|right; apply Ho|].
  eexists _, (owns (taking L P C r None (cons_spec P C E) acc)). split; [exact HI1|]. split; [exact HG1|]. split.
  { apply (owns_upd _ (ring_pos N (C + 1)) (fun B => set_stolen (stolen B +w (E - r)) B) s g) in Ho; [|done|exact Hp|done].
    destruct Ho as [H1 H2 H3 H4 H5 H6 H7 H8 H9 H10 H11]. constructor; try done. apply lookup_delete_eq. }
  split; [auto with sf|]. clear s g HI Ho HI1 HG1.
  apply rg_set; [done|]. intros s g HI Ho. destruct (inv_set_consumed N E HV s g _ (cur (bver (C + 1)) r) HI Hp) as [HI1 HG1].
  exists g, (owns (taking L P C r None (cons_spec P (C + 1) r) acc)). split; [exact HI1|]. split; [exact HG1|]. split.
  { destruct Ho as [H1 H2 H3 H4 H5 H6 H7 H8 H9 H10 H11]. constructor; try done. intros q Hq. simpl.
    pose proof (bi_blocks _ _ _ _ HI). red in Hp. rewrite cons_next_C by (done || lia).
    case_decide as Hd; [subst q; by rewrite blk_upd_eq by lia|rewrite blk_upd_ne by done; by apply H9]. }
  split; [auto with sf|]. clear s g HI Ho HI1 HG1. apply rg_store. intros s g HI Ho.
  destruct (inv_ext N E HV s (set_consumerBlock (ring_pos N (C + 1)) s) g) as [HI1 HG1]; [done|done|done|].
  exists g, (owner L P (C + 1) r acc). split; [exact HI1|]. split; [exact HG1|].
  split; [|split; [auto with sf|intros s1 g1 _ Ho1; exists r; split; [lia|done]]].
  destruct Ho as [H1 H2 H3 H4 H5 H6 H7 H8 H9 H10 H11]. by constructor.
Qed.

Lemma rg_takeOver L P C acc :
  rg proto 0 (takeOverConsumerBlock N E (ring_pos N (C + 1)) (cur (bver C) E)) (owner L P C E acc)
    (fun ok s g => if ok : bool then exists r, C < P /\ owner L P (C + 1) r acc s g
                   else C = P /\ owner L P C E acc s g).
Proof.
  pose proof (E_fits N E HV) as HE. pose proof (ring_pos_in N E HV (C + 1)) as Hp.
  apply rg_window. intros (HC & HP & Hu & _ & HL & HvP). unfold takeOverConsumerBlock.
  apply rg_consumerMayAdvance; [lia|]. destruct (Z.ltb_spec C P); cbn [negb].
  2:{ intros s g _ Ho. split; [lia|done]. }
  apply rg_get; [done|]. intros s g HI Ho. exists (owner L P C E acc).
  split; [done|]. split; [auto with sf|]. rewrite (isHead_bump s g C HI), (ver_cur N E HV) by lia.
  rewrite (next_version P) by done. clear s g HI Ho.
  pose proof (bver_mono N (N_pos N E HV) (C + 1) P ltac:(lia)).
  pose proof (bver_nonneg N (N_pos N E HV) (C + 1) ltac:(pose proof (N_pos N E HV); lia)).
  rewrite make_small by (eauto || split; lia).
  apply rg_rmw. intros s g HI Ho. cbn [fst snd].
  destruct (next_reserved _ _ _ _ _ _ _ HI Ho ltac:(lia)) as (r & Er & Hr).
  pose proof (ow_C _ _ _ Ho : gC g = C) as HgC.
  destruct (inv_takeover N E HV s g r HI) as [HI1 HG1]; try (apply Ho); try (rewrite ?HgC, ?(ow_P _ _ _ Ho); simpl; done || lia).
  rewrite HgC in HI1, HG1. rewrite Er, (idx_cur N E HV) by done.
  replace (if r >? E then E else r) with r by (zcase; lia).
  eexists _, (owns (taking L P C r (Some (C + 1, E - r)) (cons_spec P C E) acc)).
  split; [exact HI1|]. split; [exact HG1|]. split.
  { apply (owns_take L P C r acc s); [lia| |done|done|done]. intros q.
    pose proof (bi_blocks _ _ _ _ HI). red in Hp.
    destruct (decide (ring_pos N (C + 1) = q)) as [<-|]; [by rewrite blk_upd_eq by lia|by rewrite blk_upd_ne]. }
  split; [auto with sf|]. clear s g HI Ho Er HgC HI1 HG1.
  apply rg_credit; done || lia.
Qed.

(** Every value pushed so far was taken by someone. *)
Definition drained L : asrt (bwos T) (ghost T) :=
  fun _ g => forall pos, 0 <= pos < Z.of_nat (length L) -> pos ∈ (snd <$> taken g).

Lemma stable_drained L : stable proto 0 (drained L).
Proof.
  intros j s g s' g' Hj _ _ (_ & [ps Et] & _) Hd pos Hpos. simpl in Et. rewrite Et, fmap_app, elem_of_app. auto.
Qed.
Hint Resolve stable_drained : sf.

Lemma drained_now L P u acc s g :
  inv s g -> owner L P P u acc s g -> u = Z.of_nat (length L) - P * E -> drained L s g.
Proof.
  intros HI Ho Hu pos Hpos. pose proof (ow_pushed _ _ _ Ho : pushed g = L) as HL.
  assert (0 <= pos < n_pushed g) as Hpos' by (unfold n_pushed; by rewrite HL).
  apply (bi_taken _ _ _ _ HI). split; [done|]. pose proof (pos_block N E HV _ _ _ HI Hpos') as Hb.
  pose proof (ow_P _ _ _ Ho : gP g = P) as HP. pose proof (ow_C _ _ _ Ho : gC g = P) as HC.
  pose proof (ow_u _ _ _ Ho : gu g = u) as Hgu.
  unfold is_taken. rewrite HC, Hgu. destruct (decide (pos / E < P)); [by left|]. right. left.
  assert (pos / E = P) as Heq by lia. split; [done|].
  pose proof (pos_split N E HV pos) as Hs. unfold pos_of in Hs. rewrite Heq in Hs. lia.
Qed.

Definition located L P acc (res : option (nat * Z)) : asrt (bwos T) (ghost T) :=
  fun s g => exists C u,
    match res with
    | None => drained L s g /\ owner L P C u acc s g
    | Some (block, c) =>
        (block = ring_pos N C /\ c = cur (bver C) u /\ 0 <= u < E /\ pos_of E C u < Z.of_nat (length L)) /\
        owner L P C u acc s g
    end.

Lemma owner_C_committed L P C u acc s g :
  inv s g -> owner L P C u acc s g -> u < E ->
  committed (blk s (ring_pos N C)) = cur (bver C) (if C <? P then E else Z.of_nat (length L) - P * E) /\
  u <= (if C <? P then E else Z.of_nat (length L) - P * E).
Proof.
  intros HI Ho Hu. pose proof (ow_P _ _ _ Ho : gP g = P) as HP. pose proof (ow_pushed _ _ _ Ho : pushed g = L) as HL.
  pose proof (ow_C _ _ _ Ho : gC g = C) as HC. pose proof (ow_u _ _ _ Ho : gu g = u) as Hgu.
  destruct (owner_window _ _ _ _ _ _ _ HI Ho) as (HCP & HPN & Hfin & Hur & _).
  rewrite (bi_committed _ _ _ _ HI _ (ring_pos_in N E HV C)). unfold committed_spec.
  rewrite (ow_stage _ _ _ Ho : stage g = 0). simpl.
  rewrite (bno_ring_pos N E HV) by (destruct (decide (P = C + N)); [specialize (Hfin ltac:(done))|]; lia).
  pose proof (bi_u _ _ _ _ HI) as Hub. rewrite HC, Hgu in Hub.
  unfold count_of, n_pushed in *. rewrite HP, HL in *. split; [done|apply Hub].
Qed.

Lemma rg_locate turns L P C u acc :
  P - C < Z.of_nat turns ->
  rg proto 0 (locate N E turns (ring_pos N C)) (owner L P C u acc) (located L P acc).
Proof.
  revert C u. induction turns as [|turns IH]; intros C u Ht.
  all: apply rg_window; intros (HC & HP & Hfin & Hur & HL & HvP).
  { lia. }
  cbn [locate]. pose proof (ring_pos_in N E HV C) as HpC.
  apply (rg_get_owned _ _ _ _ _ (cur (bver C) u)); [done| |].
  { intros s g HI Ho. rewrite (ow_cons _ _ _ Ho) by done. by apply cons_at_C. }
  rewrite (idx_cur N E HV) by done. destruct (Z.ltb_spec u E).
  - apply rg_get; [done|]. intros s g HI Ho.
    destruct (owner_C_committed _ _ _ _ _ _ _ HI Ho ltac:(lia)) as [-> Hle].
    pose proof (E_pos N E HV) as HE. rewrite (idx_cur N E HV) by (destruct (C <? P); lia). zcase.
    + exists (fun s g => drained L s g /\ owner L P C u acc s g). split.
      { split; [|done]. destruct (Z.ltb_spec C P); [lia|]. assert (C = P) as -> by lia. by eapply drained_now. }
      split; [auto with sf|]. intros s1 g1 _ Ho1. by exists C, u.
    + exists (owner L P C u acc). split; [done|]. split; [auto with sf|]. intros s1 g1 _ Ho1. exists C, u.
      split; [|done]. splits; try done; try lia. unfold pos_of. destruct (Z.ltb_spec C P); [nia|].
      assert (C = P) as -> by lia. lia.
  - assert (u = E) as -> by lia.
    apply (rg_get_owned _ _ _ _ _ (ring_pos N (C + 1))); [done| |].
    { intros s g HI _. by eapply next_ring_pos. }
    eapply rg_bind; [apply rg_takeOver|]. intros [|]; cbn [negb].
    + apply rg_ex. intros r. apply rg_pure. intros HCP. apply IH. lia.
    + apply rg_pure. intros ->. intros s g HI Ho. exists P, E. split; [|done]. eapply drained_now; [done|done|].
      destruct (owner_window _ _ _ _ _ _ _ HI Ho) as (_ & _ & _ & _ & HL1 & _).
      pose proof (bi_u _ _ _ _ HI) as Hub. rewrite (ow_C _ _ _ Ho : gC g = P), (ow_u _ _ _ Ho : gu g = E) in Hub.
      rewrite <- (ow_P _ _ _ Ho : gP g = P), count_P in Hub. unfold n_pushed in Hub.
      rewrite (ow_pushed _ _ _ Ho : pushed g = L), (ow_P _ _ _ Ho : gP g = P) in Hub. lia.
Qed.

Lemma rg_locateConsumer L P C u acc :
  rg proto 0 (locateConsumer N E) (owner L P C u acc) (located L P acc).
Proof.
  apply rg_window. intros (HC & HP & _). unfold locateConsumer.
  apply rg_load; [apply guar_refl|]. intros s g HI Ho. rewrite (ow_cb _ _ _ Ho). cbn [ocb view].
  exists (owner L P C u acc). split; [done|]. split; [auto with sf|]. apply rg_locate.
  pose proof (N_pos N E HV). lia.
Qed.

(** *** Handing entries out *)

(** The values of the entries [u, u') of the consumer's block. *)
Lemma rg_consume {A} L P C u u' acc nv (k : unit -> prog (bwos T) A) Q :
  0 <= u < E -> u <= u' <= E -> pos_of E C u' <= Z.of_nat (length L) ->
  (fun pos => L !! Z.to_nat pos) <$> seqZ (pos_of E C u) (u' - u) = Some <$> nv ->
  rg proto 0 (k tt) (owner L P C u' (acc ++ nv)) Q ->
  rg proto 0 (bind (set N (ring_pos N C) (set_consumed (cur (bver C) u'))) k) (owner L P C u acc) Q.
Proof.
  intros Hu Hu' Hbd Hnv Hk. apply rg_set; [apply (ring_pos_in N E HV)|]. intros s g HI Ho.
  destruct (owner_window _ _ _ _ _ _ _ HI Ho) as (HC & HP & Hfin & Hur & HL & _).
  pose proof (ow_P _ _ _ Ho : gP g = P) as HgP. pose proof (ow_pushed _ _ _ Ho : pushed g = L) as HgL.
  pose proof (ow_C _ _ _ Ho : gC g = C) as HgC. pose proof (ow_u _ _ _ Ho : gu g = u) as Hgu.
  assert (u' <= count_of E g C).
  { apply (bound_count N E s g C u' HI); [lia|lia|]. unfold n_pushed. by rewrite HgL. }
  destruct (inv_set_consumed_consume N E HV s g u' (cur (bver C) u') HI) as [HI1 HG1]; [rewrite HgC, Hgu; lia|].
  rewrite HgC in HI1, HG1.
  eexists _, (owner L P C u' (acc ++ nv)). split; [exact HI1|]. split; [exact HG1|].
  split; [|split; [auto with sf|exact Hk]].
  pose proof (bi_blocks _ _ _ _ HI). pose proof (ring_pos_in N E HV C) as Hp. red in Hp.
  destruct Ho as [K1 K2 K3 K4 K5 K6 K7 K8 K9 K10 [K11 K12]]. simpl in *. constructor; simpl; try done.
  - assert (P < C + N) by (destruct (decide (P = C + N)); [specialize (Hfin ltac:(done))|]; lia).
    intros p Hq. rewrite (cons_set_C P C u) by (done || lia).
    case_decide as Hd; [subst p; by rewrite blk_upd_eq by lia|]. rewrite blk_upd_ne by done. by apply K9.
  - eapply (mine_app 0 acc nv (seqZ (pos_of E C u) (u' - u)) g s); [done|by rewrite HgL|by rewrite HgC, Hgu].
  - unfold taken_in_order. simpl. rewrite positions_app, positions_own, HgC, Hgu. split.
    + apply StronglySorted_app_2; [|done|apply seqZ_sorted].
      intros x1 x2 Hx1 Hx2. rewrite Forall_forall in K12. apply K12 in Hx1. apply elem_of_seqZ in Hx2. unfold pos_of in *. lia.
    + apply Forall_app. split.
      * eapply Forall_impl; [exact K12|]. intros pos. unfold pos_of. lia.
      * apply Forall_forall. intros pos Hin. apply elem_of_seqZ in Hin. unfold pos_of in *. lia.
Qed.

Lemma owner_entry L P C u acc s g i v :
  inv s g -> owner L P C u acc s g -> P < C + N -> 0 <= i < E ->
  pos_of E C i < Z.of_nat (length L) -> L !! Z.to_nat (pos_of E C i) = Some v ->
  entries (blk s (ring_pos N C)) !!! Z.to_nat i = v.
Proof.
  intros HI Ho HPC Hi Hpos Hv. destruct (owner_window _ _ _ _ _ _ _ HI Ho) as (HC & _).
  pose proof (ow_P _ _ _ Ho : gP g = P) as HP. pose proof (ow_pushed _ _ _ Ho : pushed g = L) as HL.
  apply (entry_value N E HV s g C i v HI); [lia|lia| |by rewrite HL].
  assert (i + 1 <= count_of E g C); [|lia]. apply (bound_count N E s g C _ HI); [lia|lia|].
  unfold n_pushed, pos_of in *. rewrite HL. lia.
Qed.

Definition popped L P acc (out : list T) (none : bool) : asrt (bwos T) (ghost T) :=
  fun s g => exists C u, (none = true -> drained L s g) /\ owner L P C u (acc ++ out) s g.

Lemma located_window L P C u acc s g : inv s g -> owner L P C u acc s g -> u < E -> 0 <= C <= P /\ P < C + N /\ 0 <= bver C < 2 ^ vb.
Proof.
  intros HI Ho Hu. destruct (owner_window _ _ _ _ _ _ _ HI Ho) as (HC & HP & Hfin & _ & _ & Hv).
  pose proof (bver_mono N (N_pos N E HV) C P ltac:(lia)). pose proof (N_pos N E HV).
  pose proof (bver_nonneg N (N_pos N E HV) C ltac:(lia)).
  destruct (decide (P = C + N)); [specialize (Hfin ltac:(done))|]; lia.
Qed.

Lemma rg_pop L P C u acc :
  rg proto 0 (pop N E) (owner L P C u acc)
    (fun r => popped L P acc (option_list r) (match r with Some _ => false | None => true end)).
Proof.
  unfold pop. eapply rg_bind; [apply rg_locateConsumer|]. clear C u. intros [[block c]|].
  2:{ intros s g _ (C & u & Hd & Ho). exists C, u. simpl. by rewrite app_nil_r. }
  apply rg_ex. intros C. apply rg_ex. intros u. apply rg_pure. intros (-> & -> & Hu & Hpos).
  pose proof (E_fits N E HV). rewrite (idx_cur N E HV) by lia.
  apply rg_get_entry; [apply (ring_pos_in N E HV)|done|]. intros s g HI Ho.
  destruct (located_window _ _ _ _ _ _ _ HI Ho ltac:(lia)) as (HC & HP & Hv).
  destruct (lookup_lt_is_Some_2 L (Z.to_nat (pos_of E C u))) as [v Hval].
  { unfold pos_of in *. pose proof (E_pos N E HV). nia. }
  rewrite (owner_entry L P C u acc s g u v) by done.
  exists (owner L P C u acc). split; [done|]. split; [auto with sf|]. clear s g HI Ho.
  rewrite addIndex_cur; [|eauto|split; lia|lia|lia].
  apply (rg_consume L P C u (u + 1) acc [v]); [done|lia|unfold pos_of in *; lia| |].
  { replace (u + 1 - u) with 1 by lia. rewrite seqZ_cons, seqZ_nil by lia. simpl. by rewrite Hval. }
  intros s g _ Ho. by exists C, (u + 1).
Qed.

Lemma rg_copy_owned L P C u acc nv beg k n :
  P < C + N -> 0 <= beg -> beg + Z.of_nat (length nv) <= E ->
  pos_of E C (beg + Z.of_nat (length nv)) <= Z.of_nat (length L) ->
  (forall j x, nv !! j = Some x -> L !! Z.to_nat (pos_of E C (beg + Z.of_nat j)) = Some x) ->
  (k + n <= length nv)%nat ->
  rg proto 0 (copy_entries N E (ring_pos N C) (beg + Z.of_nat k) n) (owner L P C u acc)
    (fun out s g => out = take n (drop k nv) /\ owner L P C u acc s g).
Proof.
  intros HP Hb HE Hbd Hnv. revert k. induction n as [|n IH]; intros k Hk; cbn [copy_entries].
  { by intros s g _ Ho. }
  destruct (lookup_lt_is_Some_2 nv k ltac:(lia)) as [x Hx].
  apply rg_get_entry; [apply (ring_pos_in N E HV)|lia|]. intros s g HI Ho.
  rewrite (owner_entry L P C u acc s g (beg + Z.of_nat k) x); [|done|done|done|lia|unfold pos_of in *; lia|by apply Hnv].
  exists (owner L P C u acc). split; [done|]. split; [auto with sf|].
  replace (beg + Z.of_nat k + 1) with (beg + Z.of_nat (S k)) by lia.
  eapply rg_bind; [apply IH; lia|]. intros out s1 g1 _ [-> Ho1]. split; [|done]. by rewrite (drop_S nv x k).
Qed.

Lemma rg_popBlock L P C u acc :
  rg proto 0 (popBlock N E) (owner L P C u acc)
    (fun r => popped L P acc r (Nat.eqb (length r) 0)).
Proof.
  unfold popBlock. eapply rg_bind; [apply rg_locateConsumer|]. clear C u. intros [[block c]|].
  2:{ intros s g _ (C & u & Hd & Ho). exists C, u. simpl. by rewrite app_nil_r. }
  apply rg_ex. intros C. apply rg_ex. intros u. apply rg_pure. intros (-> & -> & Hu & Hpos).
  pose proof (E_fits N E HV). rewrite (idx_cur N E HV) by lia.
  apply rg_get; [apply (ring_pos_in N E HV)|]. intros s g HI Ho.
  destruct (located_window _ _ _ _ _ _ _ HI Ho ltac:(lia)) as (HC & HP & Hv).
  destruct (owner_C_committed _ _ _ _ _ _ _ HI Ho ltac:(lia)) as [-> Hle].
  set (n := if C <? P then E else Z.of_nat (length L) - P * E) in *.
  destruct (owner_window _ _ _ _ _ _ _ HI Ho) as (_ & _ & _ & _ & HL & _).
  assert (Hn : u < n <= E /\ pos_of E C n <= Z.of_nat (length L)).
  { unfold n, pos_of in *. destruct (Z.ltb_spec C P); [nia|]. assert (C = P) by lia. subst C. lia. }
  destruct Hn as [Hn Hbd]. rewrite (idx_cur N E HV) by lia.
  assert (Hcount : n <= count_of E g C).
  { apply (bound_count N E s g C n HI); [rewrite (ow_P _ _ _ Ho); simpl; lia|lia|].
    unfold n_pushed. by rewrite (ow_pushed _ _ _ Ho). }
  destruct (claim_values N E HV s g C u n HI) as (nv & Hlen & Hvals & Hlk);
    [rewrite (ow_P _ _ _ Ho); simpl; lia|lia|done|].
  rewrite (ow_pushed _ _ _ Ho : pushed g = L) in Hvals, Hlk.
  exists (owner L P C u acc). split; [done|]. split; [auto with sf|]. clear s g HI Ho Hcount.
  apply (rg_consume L P C u n acc nv); [done|lia|done|done|].
  pose proof (rg_copy_owned L P C n (acc ++ nv) nv u 0 (length nv) HP ltac:(lia) ltac:(lia)
    ltac:(by replace (u + Z.of_nat (length nv)) with n by lia) Hlk ltac:(lia)) as Hcp.
  change (Z.of_nat 0) with 0 in Hcp. rewrite Z.add_0_r in Hcp.
  replace (Z.to_nat (n - u)) with (length nv) by lia.
  eapply rg_weaken; [done| |exact Hcp]. intros out s g _ [-> Ho]. rewrite drop_0, firstn_all. exists C, n.
  split; [|done]. destruct nv; [simpl in Hlen; lia|done].
Qed.
End owner.
