(* ===== verification/BwosSpec.v ===== *)
(** * BwosQueue: what callers may rely on

    Pools of one owner and any number of thieves, in any interleaving: every
    pushed value is taken at most once; the owner takes in queue order; a pop
    that finds the queue empty means that every value pushed before was taken;
    no access is out of bounds; how many values the queue holds. *)

From Stdlib Require Import ZArith Lia Sorted.
From stdpp Require Import base tactics list numbers option strings gmap sorting.
From S2P Require Import Prelude Conc Cursor Bwos BwosInv BwosOwner BwosConc BwosThreads.

(** ** Logs *)
Section logs.
Context {T : Type}.

(** Every entry of the log belongs to one of the threads. *)
Lemma positions_cons i t x (log : list (nat * Z)) :
  positions i ((t, x) :: log) = (if decide (t = i) then [x] else []) ++ positions i log.
Proof. unfold positions. rewrite filter_cons. simpl. by case_decide. Qed.

Lemma mjoin_app_fun {A B} (f h : A -> list B) (l : list A) :
  mjoin ((fun i => f i ++ h i) <$> l) ≡ₚ mjoin (f <$> l) ++ mjoin (h <$> l).
Proof.
  induction l as [|a l IH]; [done|]. simpl. rewrite IH. rewrite <- !app_assoc. f_equiv.
  apply Permutation_app_swap_app.
Qed.

Lemma mjoin_single t (x : Z) m n :
  mjoin ((fun i => if decide (t = i) then [x] else []) <$> seq m n) =
  if decide (m <= t < m + n)%nat then [x] else [].
Proof.
  revert m. induction n as [|n IH]; intros m; simpl; [by rewrite decide_False by lia|].
  rewrite IH. repeat case_decide; simpl; done || lia.
Qed.

Lemma positions_all n (log : list (nat * Z)) :
  Forall (fun e => (e.1 < n)%nat) log ->
  mjoin ((fun i => positions i log) <$> seq 0 n) ≡ₚ snd <$> log.
Proof.
  induction 1 as [|[t x] log Ht _ IH]; simpl in *.
  - induction (seq 0 n); done.
  - transitivity (mjoin ((fun i => (if decide (t = i) then [x] else []) ++ positions i log) <$> seq 0 n)).
    { apply reflexive_eq. f_equal. apply list_fmap_ext. intros. apply positions_cons. }
    rewrite mjoin_app_fun, IH, mjoin_single, decide_True by lia. done.
Qed.

(** Values read at increasing positions form a subsequence. *)
Lemma sorted_lookups_sublist (L acc : list T) (ps : list Z) (off : nat) :
  StronglySorted Z.lt ps -> Forall (fun pos => Z.of_nat off <= pos) ps ->
  (fun pos => L !! Z.to_nat pos) <$> ps = Some <$> acc -> acc `sublist_of` drop off L.
Proof.
  intros Hs. revert acc off. induction Hs as [|p ps _ IH Hp]; intros acc off Hoff Hacc.
  - destruct acc; [apply sublist_nil_l|done].
  - destruct acc as [|a acc]; [done|]. injection Hacc as Ha Hacc. apply Forall_cons in Hoff as [Hoff _].
    transitivity (drop (Z.to_nat p) L).
    + rewrite (drop_S L a) by done. apply sublist_skip. apply IH; [|done].
      eapply Forall_impl; [exact Hp|]. intros; lia.
    + replace (Z.to_nat p) with (off + (Z.to_nat p - off))%nat by lia. rewrite <- drop_drop.
      apply sublist_drop.
Qed.

(** The values at all positions of [L] are [L]. *)
Lemma lookups_all (L : list T) :
  (fun pos => L !! Z.to_nat pos) <$> seqZ 0 (Z.of_nat (length L)) = Some <$> L.
Proof.
  apply list_eq. intros i. rewrite !list_lookup_fmap. destruct (decide (i < length L)%nat).
  - rewrite lookup_seqZ_lt by lia. simpl. destruct (lookup_lt_is_Some_2 L i) as [x Hx]; [done|].
    rewrite Hx. simpl. replace (Z.to_nat (0 + Z.of_nat i)) with i by lia. by rewrite Hx.
  - rewrite lookup_seqZ_ge by lia. by rewrite lookup_ge_None_2 by lia.
Qed.

Lemma omap_id_Some {A} (l : list A) : omap id (Some <$> l) = l.
Proof. induction l as [|x l IH]; [done|]. cbn. by f_equal. Qed.

(** Positions taken at most once and in range: their values are part of [L],
    and the rest of [L] is at the other positions. *)
Lemma log_values (L acc : list T) (ps : list Z) :
  NoDup ps -> (forall pos, pos ∈ ps -> 0 <= pos < Z.of_nat (length L)) ->
  (fun pos => L !! Z.to_nat pos) <$> ps ≡ₚ Some <$> acc ->
  exists rest left, ps ++ rest ≡ₚ seqZ 0 (Z.of_nat (length L)) /\ NoDup rest /\
    acc ++ left ≡ₚ L /\ length left = length rest.
Proof.
  intros Hnd Hin Hacc.
  destruct (submseteq_Permutation ps (seqZ 0 (Z.of_nat (length L)))) as [rest Hrest].
  { apply NoDup_submseteq; [done|]. intros pos Hpos. apply elem_of_seqZ. specialize (Hin pos Hpos). lia. }
  exists rest, (omap (fun pos => L !! Z.to_nat pos) rest).
  assert (NoDup (ps ++ rest)) as (_ & _ & Hnr)%NoDup_app by (rewrite <- Hrest; apply NoDup_seqZ).
  assert (Hp : Some <$> acc ++ omap (fun pos => L !! Z.to_nat pos) rest ≡ₚ Some <$> L).
  { rewrite fmap_app, <- Hacc, <- (lookups_all L), Hrest, fmap_app. f_equiv.
    assert (forall pos, pos ∈ rest -> 0 <= pos < Z.of_nat (length L)) as Hr.
    { intros pos Hpos. assert (pos ∈ seqZ 0 (Z.of_nat (length L))) as Hz by (rewrite Hrest, elem_of_app; auto).
      apply elem_of_seqZ in Hz. lia. }
    clear -Hr. induction rest as [|p rest IH]; [done|]. cbn.
    destruct (lookup_lt_is_Some_2 L (Z.to_nat p)) as [x Hx].
    { specialize (Hr p ltac:(left)). lia. }
    rewrite Hx. cbn. f_equiv. apply IH. intros pos Hpos. apply Hr. by right. }
  assert (Hp' : acc ++ omap (fun pos => L !! Z.to_nat pos) rest ≡ₚ L).
  { apply (omap_Permutation id) in Hp. by rewrite !omap_id_Some in Hp. }
  splits; try done. pose proof (Permutation_length Hp') as H1. pose proof (Permutation_length Hacc) as H2.
  pose proof (Permutation_length Hrest) as H3. rewrite length_app, ?length_fmap, ?length_seqZ in *. lia.
Qed.
End logs.

(** ** Threads *)
Section pool.
Context `{SizeT} {T : Type} `{!Inhabited T} (N E : Z).

(** The owner's calls and the calls of each thief. *)
Definition threads (fuel : nat) (owner : list (op T)) (thieves : list (list (op T))) :
  list (prog (bwos T) (list (result T))) :=
  exec_ops N E fuel owner :: (exec_ops N E fuel <$> thieves).

(** The last call found the queue empty. *)
Fixpoint last_from (b : bool) (rs : list (result T)) : bool :=
  match rs with [] => b | r :: rs => last_from (empty r) rs end.
Definition last_empty (rs : list (result T)) : bool := last_from false rs.

Context (HV : valid_config N E).
#[local] Abbreviation proto := (bwos_protocol (T:=T) N E).
#[local] Hint Resolve N_pos E_pos bits_range : core.
#[local] Abbreviation cur := (Cursor.cur (bits E)).
#[local] Abbreviation bver := (BwosInv.bver N).

Definition called (n : Z) (L acc : list T) (r : result T) : asrt (bwos T) (ghost T) :=
  fun s g => exists P C u, Z.of_nat (length (put r)) <= n /\
    (empty r = true -> drained (L ++ put r) s g) /\ owner N E (L ++ put r) P C u (acc ++ got r) s g.

Lemma rg_exec_op_owner fuel o L P C u acc :
  owner_op o -> budget N E L (op_pushes o) ->
  rg proto 0 (exec_op N E fuel o) (owner N E L P C u acc) (called (op_pushes o) L acc).
Proof.
  intros Ho Hb. destruct o; try done; cbn [exec_op].
  - eapply rg_bind; [by apply rg_push|]. intros ok s g _ (P' & Hw). exists P', C, u.
    destruct ok; cbn [put got empty]; rewrite ?app_nil_r; splits; done || simpl; lia.
  - eapply rg_bind; [by apply rg_pushBatch|]. intros n s g _ (P' & k & (-> & Hk) & Hw). exists P', C, u.
    cbn [put got empty]. rewrite ?app_nil_r. replace (Z.to_nat (0 + Z.of_nat k)) with k by lia.
    splits; [rewrite length_take; simpl; lia|done|done].
  - eapply rg_bind; [by apply rg_pop|]. intros r s g _ (C' & u' & Hd & Hw). exists P, C', u'.
    cbn [put got empty]. rewrite ?app_nil_r. splits; done.
  - eapply rg_bind; [by apply rg_popBlock|]. intros r s g _ (C' & u' & Hd & Hw). exists P, C', u'.
    cbn [put got empty]. rewrite ?app_nil_r. splits; done.
Qed.

Lemma op_pushes_nonneg (o : op T) : 0 <= op_pushes o.
Proof. destruct o; simpl; lia. Qed.
Lemma pushes_nonneg (os : list (op T)) : 0 <= pushes os.
Proof. induction os as [|o os IH]; simpl; [lia|]. pose proof (op_pushes_nonneg o). lia. Qed.

Lemma rg_exec_ops_owner fuel os b L P C u acc :
  Forall owner_op os -> budget N E L (pushes os) ->
  rg proto 0 (exec_ops N E fuel os) (fun s g => (b = true -> drained L s g) /\ owner N E L P C u acc s g)
    (fun rs s g => exists P C u, (last_from b rs = true -> drained (L ++ all_put rs) s g) /\
       owner N E (L ++ all_put rs) P C u (acc ++ all_got rs) s g).
Proof.
  intros Hos. revert b L P C u acc. induction Hos as [|o os Ho _ IH]; intros b L P C u acc Hb; cbn [exec_ops].
  { intros s g _ Hw. exists P, C, u. unfold all_put, all_got. simpl. by rewrite !app_nil_r. }
  cbn [pushes] in Hb. pose proof (pushes_nonneg os) as Hnn. pose proof (op_pushes_nonneg o).
  eapply rg_bind.
  { eapply rg_pre; [|apply (rg_exec_op_owner fuel o L P C u acc Ho)]; [by intros s g _ [_ Hw]|].
    eapply budget_mono; [done| |exact Hb]; lia. }
  intros r. unfold called. apply rg_ex. intros P1. apply rg_ex. intros C1. apply rg_ex. intros u1.
  apply rg_pure. intros Hlen. eapply rg_bind.
  - apply (IH (empty r) (L ++ put r) P1 C1 u1 (acc ++ got r)).
    apply budget_app. eapply budget_mono; [done| |exact Hb]. lia.
  - intros rs s g HI (P2 & C2 & u2 & Hd & Hw). exists P2, C2, u2.
    unfold all_put, all_got in *. cbn. rewrite !app_assoc. by split.
Qed.

Lemma rg_exec_ops_thief fuel os i acc :
  i <> 0%nat -> Forall thief_op os ->
  rg proto i (exec_ops N E fuel os) (idle i acc) (fun rs => idle i (acc ++ all_got rs)).
Proof.
  intros Hi Hos. revert acc. induction Hos as [|o os Ho _ IH]; intros acc; cbn [exec_ops].
  { intros s g _ Hid. unfold all_got. simpl. by rewrite app_nil_r. }
  eapply (rg_bind proto i _ _ _ (fun r => idle i (acc ++ got r))).
  - destruct o; try done; cbn [exec_op].
    + eapply rg_bind; [by apply rg_steal|]. by intros r s g _ Hid.
    + eapply rg_bind; [by apply rg_stealBlock|]. by intros r s g _ Hid.
  - intros r. eapply rg_bind; [apply IH|]. intros rs s g _ Hid. unfold all_got in *. cbn. by rewrite app_assoc.
Qed.

(** ** The fresh queue *)

Definition ghost0 : ghost T := Ghost [] [] 0 0 0 0 ∅.

Lemma bno0 p : in_ring N p -> bno N ghost0 p = if Nat.eqb p 0 then 0 else Z.of_nat p - N.
Proof.
  intros Hp. red in Hp. unfold bno, lastb. simpl. rewrite Z.sub_0_l. destruct (Nat.eqb_spec p 0) as [->|].
  - by rewrite Z.mod_0_l by lia.
  - rewrite Z.mod_opp_l_nz, Z.mod_small by (rewrite ?Z.mod_small; lia). lia.
Qed.

Lemma bver0 p : in_ring N p -> bver (bno N ghost0 p) = if Nat.eqb p 0 then 1 else 0.
Proof.
  intros Hp. rewrite bno0 by done. red in Hp. destruct (Nat.eqb_spec p 0); [done|].
  rewrite (bver_sub N) by eauto. unfold BwosInv.bver. rewrite Z.div_small by lia. lia.
Qed.

Lemma count0 p : in_ring N p -> count_of E ghost0 (bno N ghost0 p) = if Nat.eqb p 0 then 0 else E.
Proof.
  intros Hp. rewrite bno0 by done. red in Hp. unfold count_of. simpl. destruct (Nat.eqb_spec p 0); [done|].
  by rewrite (proj2 (Z.ltb_lt (Z.of_nat p - N) 0)) by lia.
Qed.

Lemma blk0 (junk : list T) p : in_ring N p -> blk (init N E junk) p = init_block N E junk p.
Proof.
  intros Hp. red in Hp. unfold blk, init. simpl. apply lookup_total_Some.
  rewrite list_lookup_fmap, lookup_seq_lt by lia. done.
Qed.

Lemma ver_room : 2 <= 2 ^ version_bits (bits E).
Proof.
  pose proof (bits_range N E HV). change 2 with (2 ^ 1) at 1. apply Z.pow_le_mono_r; [lia|].
  unfold version_bits. lia.
Qed.

Lemma bwos_inv_init (junk : list T) : Z.of_nat (length junk) = E -> bwos_inv N E (init N E junk) ghost0.
Proof.
  intros Hj. pose proof (N_pos N E HV). pose proof (E_pos N E HV). pose proof (E_fits N E HV).
  pose proof ver_room as Hvr. pose proof (bits_range N E HV) as Hbits.
  assert (Hmk : forall v i, 0 <= v <= 1 -> 0 <= i <= E -> make (bits E) v i = cur v i).
  { intros v i Hv Hi. apply make_small; [done|]. split; lia. }
  constructor; simpl; try lia.
  - rewrite length_fmap, length_seq. lia.
  - intros p Hp. rewrite blk0 by done. red in Hp. simpl. splits; [done| |done].
    rewrite Nat2Z.inj_mod. f_equal; lia.
  - unfold n_pushed. simpl. lia.
  - unfold count_of, n_pushed. simpl. lia.
  - split; [|lia]. change (bver 0) with 1. lia.
  - intros p Hp. rewrite blk0 by done. unfold committed_spec. simpl. rewrite bver0, count0 by done.
    destruct (Nat.eqb p 0); apply Hmk; lia.
  - intros p Hp. exists E. rewrite blk0 by done. unfold stolen_spec, reserved_ok. simpl.
    rewrite bver0, count0, infl_empty by done. rewrite bno0 by done. red in Hp. rewrite Z.sub_0_r.
    destruct (Nat.eqb_spec p 0); rewrite Hmk by lia; splits; done || lia.
  - intros t c Hc. by rewrite lookup_empty in Hc.
  - intros p i Hp Hb Hi. rewrite count0, bno0 in * by done. red in Hp. destruct (Nat.eqb_spec p 0); lia.
  - constructor.
  - intros pos. unfold n_pushed. simpl. split; [intros Hin; by apply not_elem_of_nil in Hin|lia].
Qed.

Lemma owner_init (junk : list T) : owner N E [] 0 0 0 [] (init N E junk) ghost0.
Proof.
  pose proof (N_pos N E HV). pose proof ver_room. pose proof (E_pos N E HV). pose proof (E_fits N E HV).
  constructor; simpl; try done.
  - intros p Hp. rewrite blk0 by done. pose proof (bver0 p Hp) as Hv. pose proof (bno0 p Hp) as Hb.
    unfold bno in Hv, Hb. simpl in Hv, Hb. unfold cons_spec. rewrite Hv, Hb. red in Hp. simpl.
    destruct (Nat.eqb_spec p 0); simpl.
    + apply make_small; [eauto|split; lia].
    + rewrite (proj2 (Z.ltb_lt (Z.of_nat p - N) 0)) by lia. apply make_small; [eauto|split; lia].
  - by split; constructor.
Qed.

(** ** Pools *)

Definition ids_below (n : nat) (_ : bwos T) (g : ghost T) : Prop := Forall (fun e => (e.1 < n)%nat) (taken g).

Definition bwos_post (i : nat) (rs : list (result T)) : asrt (bwos T) (ghost T) :=
  fun s g => match i with
  | O => exists P C u, (last_empty rs = true -> drained (all_put rs) s g) /\
           owner N E (all_put rs) P C u (all_got rs) s g
  | S _ => idle i (all_got rs) s g
  end.

Lemma ids_below_guar n i s g s' g' :
  (i < n)%nat -> ids_below n s g -> guar proto i (s, g) (s', g') -> ids_below n s' g'.
Proof.
  intros Hi Hb (_ & [ps Et] & _). simpl in Et. unfold ids_below in *. rewrite Et, Forall_app. split; [done|].
  apply Forall_fmap, Forall_forall. by intros pos _.
Qed.

(** One owner and [length thieves] thieves on a fresh queue; the owner pushes
    no more values than the version field can number. *)
Definition pool_start (junk : list T) (owner : list (op T)) (thieves : list (list (op T))) : Prop :=
  Z.of_nat (length junk) = E /\
  Forall owner_op owner /\ Forall (Forall thief_op) thieves /\
  1 + pushes owner / (E * N) < 2 ^ version_bits (bits E).

Lemma bwos_threads_ok junk fuel owner thieves :
  pool_start junk owner thieves ->
  pool_ok (with_inv proto (ids_below (S (length thieves)))) bwos_post
    (threads fuel owner thieves, init N E junk).
Proof.
  intros (Hj & How & Hth & Hb). exists ghost0. split; [split; [by apply bwos_inv_init|by constructor]|].
  intros i p Hi. unfold threads in Hi. simpl in Hi. destruct i as [|i]; simpl in Hi.
  - injection Hi as <-. exists (BwosThreads.owner N E [] 0 0 0 []).
    split; [apply stable_with_inv, stable_owner|]. split; [apply owner_init|].
    apply rg_with_inv; [intros *; apply ids_below_guar; lia|].
    eapply rg_weaken; [| |apply (rg_exec_ops_owner fuel owner false [] 0 0 0 [] How)]; [by intros|done|].
    red. simpl. by rewrite Z.add_0_l.
  - apply list_lookup_fmap_Some in Hi as (os & -> & Hos). apply lookup_lt_Some in Hos as Hlt.
    exists (idle (S i) []). split; [apply stable_with_inv, stable_idle|]. split; [done|].
    apply rg_with_inv; [intros *; apply ids_below_guar; lia|].
    apply (rg_exec_ops_thief fuel os (S i) []); [done|]. rewrite Forall_lookup in Hth. eauto.
Qed.

Lemma bwos_finished junk fuel owner thieves ts s rs :
  pool_start junk owner thieves ->
  reach (threads fuel owner thieves, init N E junk) (ts, s) -> finished ts rs ->
  exists r0 g, rs !! 0%nat = Some r0 /\ length rs = S (length thieves) /\
    bwos_inv N E s g /\ ids_below (S (length thieves)) s g /\
    forall i r, rs !! i = Some r -> bwos_post i r s g.
Proof.
  intros Hs Hreach Hfin. pose proof (pool_ok_reach _ _ _ _ Hreach (bwos_threads_ok junk fuel owner thieves Hs)) as Hok.
  destruct (pool_ok_finished _ _ _ _ _ Hfin Hok) as (g & [HI HJ] & Hpost).
  apply reach_length in Hreach. unfold finished in Hfin. simpl in Hreach. subst ts. rewrite !length_fmap in Hreach.
  destruct rs as [|r0 rs]; [done|]. by exists r0, g.
Qed.

Lemma post_mine i r s g : bwos_post i r s g -> mine i (all_got r) s g.
Proof. destruct i; [intros (P & C & u & _ & Ho); apply Ho|by intros [? _]]. Qed.

(** All results together: the values at the logged positions. *)
Lemma all_results (L : list T) (rs : list (list (result T))) s g :
  pushed g = L -> (forall i r, rs !! i = Some r -> mine i (all_got r) s g) ->
  ids_below (length rs) s g ->
  (fun pos => L !! Z.to_nat pos) <$> (snd <$> taken g) ≡ₚ Some <$> mjoin (all_got <$> rs).
Proof.
  intros HL Hm Hids. rewrite <- (positions_all (length rs) (taken g)) by done.
  apply reflexive_eq. clear Hids.
  assert (Hgen : forall k, (forall i r, rs !! i = Some r -> mine (k + i) (all_got r) s g) ->
    (fun pos => L !! Z.to_nat pos) <$> mjoin ((fun i => positions i (taken g)) <$> seq k (length rs)) =
    Some <$> mjoin (all_got <$> rs)); [|by apply Hgen].
  clear Hm. induction rs as [|r rs IH]; intros k Hm; [done|]. cbn. rewrite !fmap_app. f_equal.
  - rewrite <- HL. specialize (Hm 0%nat r eq_refl). by rewrite Nat.add_0_r in Hm.
  - apply IH. intros i r' Hi. replace (S k + i)%nat with (k + S i)%nat by lia. by apply (Hm (S i) r').
Qed.

(** What is still queued fits in the ring. *)
Lemma untaken_bound (s : bwos T) g (rest : list Z) :
  bwos_inv N E s g -> NoDup rest -> (snd <$> taken g) ++ rest ≡ₚ seqZ 0 (n_pushed g) ->
  Z.of_nat (length rest) <= N * E.
Proof.
  intros HI Hnd Hp. pose proof (bi_window _ _ _ _ HI) as Hw. pose proof (bi_count _ _ _ _ HI) as Hc.
  pose proof (N_pos N E HV). pose proof (E_pos N E HV).
  assert (Hsub : rest ⊆+ seqZ ((gP g + 1 - N) * E) (N * E)).
  { apply NoDup_submseteq; [done|]. intros pos Hpos.
    assert (0 <= pos < n_pushed g) as Hr.
    { assert (pos ∈ seqZ 0 (n_pushed g)) as Hz by (rewrite <- Hp, elem_of_app; auto). apply elem_of_seqZ in Hz. lia. }
    apply elem_of_seqZ. split; [|lia].
    destruct (decide ((gP g + 1 - N) * E <= pos)); [done|]. exfalso.
    assert (pos / E < gP g + 1 - N) by (apply Z.div_lt_upper_bound; lia).
    assert (pos ∈ (snd <$> taken g)) as Htk.
    { apply (bi_taken _ _ _ _ HI). split; [done|]. unfold is_taken.
      destruct (decide (pos / E < gC g)); [by left|]. right. left.
      pose proof (pos_mod_range N E HV pos). rewrite (proj2 (proj2 Hw)); lia. }
    assert (NoDup ((snd <$> taken g) ++ rest)) as (_ & Hd & _)%NoDup_app by (rewrite Hp; apply NoDup_seqZ).
    by apply (Hd pos). }
  apply submseteq_length in Hsub. rewrite length_seqZ in Hsub. lia.
Qed.
End pool.

(** ** Probes of the owner, run alone *)
Section alone.
Context `{SizeT} {T : Type} `{!Inhabited T} (N E : Z) (HV : valid_config N E).
#[local] Hint Resolve N_pos E_pos bits_range : core.

(** The words of the blocks are machine words; [next] stays in the ring. *)
Definition words (s : bwos T) : Prop :=
  (forall p, in_ring N p -> in_ring N (next (blk s p))) /\
  (forall p, in_ring N p -> 0 <= consumed (blk s p) < 2 ^ SIZE_BITS).

Lemma run_get {X} p (f : Block T -> X) s : in_ring N p -> run (get N p f) s = (s, Done (f (blk s p))).
Proof. intros Hp. unfold get. rewrite run_bind, run_check by (by apply is_block_in). done. Qed.

Lemma run_minRemainingSlots (L : list T) P C u acc s g :
  bwos_inv N E s g -> owner N E L P C u acc s g ->
  run (minRemainingSlots N E) s = (s, Done (E - (Z.of_nat (length L) - P * E))).
Proof.
  intros HI Ho. destruct (owner_window N E HV _ _ _ _ _ _ _ HI Ho) as (HC & HP & Hfin & Hur & HL & HvP).
  pose proof (E_fits N E HV) as HE. pose proof (bits_range N E HV).
  assert (2 ^ bits E <= 2 ^ SIZE_BITS) by (apply Z.pow_le_mono_r; lia).
  unfold minRemainingSlots. rewrite run_bind, run_load, (ow_pb _ _ _ _ _ Ho). cbn [opb view].
  rewrite run_bind, run_get by apply (ring_pos_in N E HV).
  rewrite (owner_committed N E HV L P C u acc s g HI Ho), (idx_cur N E HV) by lia.
  rewrite run_bind, run_get, (next_ring_pos N E HV s g) by (done || apply (ring_pos_in N E HV)).
  pose proof (ring_pos_in N E HV (P + 1)) as Hp.
  rewrite run_bind, run_get by done. rewrite (bi_committed _ _ _ _ HI _ Hp). unfold committed_spec.
  rewrite (ow_stage _ _ _ _ _ Ho : stage g = 0). simpl ((1 <=? 0) && _).
  pose proof (bno_next N E HV g) as Hb. rewrite (ow_P _ _ _ _ _ Ho : gP g = P) in Hb. rewrite Hb.
  cbn iota. rewrite (ver_cur N E HV) by (by eapply count_range). rewrite (bver_sub N) by eauto.
  rewrite run_bind. unfold isNextBlockWritable. rewrite run_bind, run_get by done.
  rewrite (szwrap_small (E - (Z.of_nat (length L) - P * E))) by lia.
  match goal with |- context [if ?b then Ret false else _] => destruct b end; [done|].
  rewrite run_bind, run_get by done.
  destruct (stolen_le N E s g _ HI Hp) as (r & -> & Hr); [apply Ho|]. rewrite Hb, (bver_sub N) by eauto.
  rewrite (ver_cur N E HV) by done.
  match goal with |- context [?x =? szwrap (?x - 1)] => rewrite (proj2 (Z.eqb_neq x _) (sub_one_ne x)) end.
  by rewrite andb_false_r.
Qed.
End alone.

(** ** The properties *)
Section properties.
Context `{SizeT} {T : Type} `{!Inhabited T} (N E : Z).

(** C23: One owner and any number of thieves on a fresh queue, in any interleaving.
    When all have returned, what they got together with [left] is exactly what
    the owner pushed, as multisets: nothing is lost, duplicated or made up.
    What the owner got itself is in push order.  And if the owner's last call
    found the queue empty, nothing is left: every value was handed to someone.
    [pool_start] bounds the pushes so that the version field does not wrap. *)
Theorem bwos_exactly_once junk fuel owner thieves ts s (rs : list (list (result T))) :
  valid_config N E -> pool_start N E junk owner thieves ->
  reach (threads N E fuel owner thieves, init N E junk) (ts, s) -> finished ts rs ->
  exists left,
    mjoin (all_got <$> rs) ++ left ≡ₚ all_put (rs !!! 0%nat) /\
    all_got (rs !!! 0%nat) `sublist_of` all_put (rs !!! 0%nat) /\
    (last_empty (rs !!! 0%nat) = true -> left = []).
Proof.
  intros HV Hs Hreach Hfin.
  destruct (bwos_finished N E HV _ _ _ _ _ _ _ Hs Hreach Hfin) as (r0 & g & Hr0 & Hlen & HI & HJ & Hpost).
  rewrite (lookup_total_Some _ _ _ Hr0). destruct (Hpost _ _ Hr0) as (P & C & u & Hd & Ho).
  pose proof (ow_pushed _ _ _ _ _ Ho : pushed g = all_put r0) as HL.
  assert (Hrange : forall pos, pos ∈ (snd <$> taken g) -> 0 <= pos < Z.of_nat (length (all_put r0))).
  { intros pos Hpos. apply (bi_taken _ _ _ _ HI) in Hpos as [Hpos _]. unfold n_pushed in Hpos. by rewrite HL in Hpos. }
  destruct (log_values (all_put r0) (mjoin (all_got <$> rs)) (snd <$> taken g)) as (rest & left & Hp & Hnd & Hl & Hll).
  - apply HI.
  - done.
  - apply (all_results (all_put r0) rs s g); [done|eauto using post_mine|by rewrite Hlen].
  - exists left. split; [done|]. split.
    + destruct (ow_order _ _ _ _ _ Ho) as [Hsort _]. rewrite <- (drop_0 (all_put r0)).
      eapply sorted_lookups_sublist; [exact Hsort| |].
      * apply Forall_forall. intros pos Hpos. assert (pos ∈ (snd <$> taken g)) as Hin.
        { unfold positions in Hpos. apply list_elem_of_fmap in Hpos as (e & -> & He).
          apply list_elem_of_filter in He as [_ He]. by apply list_elem_of_fmap_2. }
        specialize (Hrange pos Hin). lia.
      * rewrite <- HL. apply Ho.
    + intros Hle. specialize (Hd Hle). apply nil_length_inv. rewrite Hll.
      destruct rest as [|pos rest]; [done|]. exfalso.
      assert (NoDup ((snd <$> taken g) ++ pos :: rest)) as (_ & Hdis & _)%NoDup_app by (rewrite Hp; apply NoDup_seqZ).
      assert (pos ∈ seqZ 0 (Z.of_nat (length (all_put r0)))) as Hz%elem_of_seqZ.
      { rewrite <- Hp, elem_of_app. right. left. }
      apply (Hdis pos); [apply Hd; lia|left].
Qed.

(** The queue never holds more than [NumBlocks * EntriesPerBlock] values. *)
Theorem bwos_holds_at_most junk fuel owner thieves ts s (rs : list (list (result T))) :
  valid_config N E -> pool_start N E junk owner thieves ->
  reach (threads N E fuel owner thieves, init N E junk) (ts, s) -> finished ts rs ->
  Z.of_nat (length (all_put (rs !!! 0%nat))) - Z.of_nat (length (mjoin (all_got <$> rs))) <= N * E.
Proof.
  intros HV Hs Hreach Hfin.
  destruct (bwos_finished N E HV _ _ _ _ _ _ _ Hs Hreach Hfin) as (r0 & g & Hr0 & Hlen & HI & HJ & Hpost).
  rewrite (lookup_total_Some _ _ _ Hr0). destruct (Hpost _ _ Hr0) as (P & C & u & Hd & Ho).
  pose proof (ow_pushed _ _ _ _ _ Ho : pushed g = all_put r0) as HL.
  destruct (log_values (all_put r0) (mjoin (all_got <$> rs)) (snd <$> taken g)) as (rest & left & Hp & Hnd & Hl & Hll).
  - apply HI.
  - intros pos Hpos. apply (bi_taken _ _ _ _ HI) in Hpos as [Hpos _]. unfold n_pushed in Hpos. by rewrite HL in Hpos.
  - apply (all_results (all_put r0) rs s g); [done|eauto using post_mine|by rewrite Hlen].
  - assert (Z.of_nat (length rest) <= N * E).
    { eapply untaken_bound; [done|done|done|]. unfold n_pushed. by rewrite HL. }
    apply Permutation_length in Hl. rewrite length_app in Hl. lia.
Qed.

(** [minRemainingSlots] called by the owner after any calls of its own counts
    the free entries of the producer's block and nothing else: at most
    [EntriesPerBlock], also when the next block could be entered at once.  (It
    asks whether the next block is free for the round that block already had.) *)
Theorem bwos_minRemainingSlots_one_block (junk : list T) fuel os s rs :
  valid_config N E -> pool_start N E junk os [] ->
  run (exec_ops N E fuel os) (init N E junk) = (s, Done rs) ->
  exists n, run (minRemainingSlots N E) s = (s, Done n) /\ 0 <= n <= E.
Proof.
  intros HV Hs Hrun. pose proof (run_reach _ _ _ _ (threads N E fuel os []) 0 eq_refl Hrun) as Hreach.
  destruct (bwos_finished N E HV junk fuel os [] _ s [rs] Hs Hreach eq_refl) as (r0 & g & Hr0 & _ & HI & _ & Hpost).
  destruct (Hpost _ _ Hr0) as (P & C & u & _ & Ho). exists (E - (Z.of_nat (length (all_put r0)) - P * E)).
  destruct (owner_window N E HV _ _ _ _ _ _ _ HI Ho) as (_ & _ & _ & _ & HL & _).
  split; [|lia]. by apply (run_minRemainingSlots N E HV _ _ C u (all_got r0) s g).
Qed.

(** Once the producer stands in the last block of round [2 ^ version_bits - 1],
    [push] fails for good, whatever was consumed: it looks for a block whose
    previous round is [0 - 1], and no version field holds that. *)
Theorem bwos_version_wrap_stuck (s : bwos T) fuel v :
  valid_config N E -> words N s ->
  (producerBlock s < Z.to_nat N)%nat ->
  committed (blk s (producerBlock s)) = cur (bits E) (2 ^ version_bits (bits E) - 1) E ->
  isHead (blk s (next (blk s (producerBlock s)))) = true ->
  run (push N E (S fuel) v) s = (s, Done false).
Proof.
  intros HV [Hn Hw] Hp Hc Hh. pose proof (bits_range N E HV) as Hb. pose proof (E_fits N E HV).
  assert (0 < 2 ^ version_bits (bits E)) as Hvb by (apply pow2_pos; unfold version_bits; lia).
  assert (Hip : in_ring N (producerBlock s)) by (red; lia).
  cbn [push]. rewrite run_bind, run_load. rewrite run_bind, run_get by done. rewrite Hc, (idx_cur N E HV) by lia.
  rewrite Z.ltb_irrefl. rewrite run_bind. unfold advanceProducer.
  rewrite run_bind, run_get by done. rewrite run_bind, run_get by (by apply Hn). rewrite Hh.
  rewrite nextRound_cur by (done || split; lia).
  replace (2 ^ version_bits (bits E) - 1 + 1) with (2 ^ version_bits (bits E)) by lia.
  unfold wrap at 1. rewrite Z.mod_same by lia. rewrite (ver_cur N E HV) by lia.
  rewrite run_bind. unfold isNextBlockWritable. rewrite run_bind, run_get by (by apply Hn).
  assert (Hne : (ver E (consumed (blk s (next (blk s (producerBlock s))))) =? szwrap (0 - 1)) = false).
  { apply Z.eqb_neq. pose proof (Hw _ (Hn _ Hip)) as Hcw. pose proof SIZE_BITS_pos.
    unfold ver, version. rewrite Z.shiftr_div_pow2 by lia.
    rewrite szwrap_pred0. pose proof word_two.
    assert (2 <= 2 ^ bits E) by (change 2 with (2 ^ 1) at 1; apply Z.pow_le_mono_r; lia).
    assert (consumed (blk s (next (blk s (producerBlock s)))) / 2 ^ bits E < 2 ^ SIZE_BITS - 1); [|lia].
    apply Z.div_lt_upper_bound; nia. }
  rewrite Hne. rewrite orb_true_r. done.
Qed.

(** No thread ever reads or writes a block or an entry outside its array. *)
Theorem bwos_in_bounds (junk : list T) fuel owner thieves ts s i msg :
  valid_config N E -> pool_start N E junk owner thieves ->
  reach (threads N E fuel owner thieves, init N E junk) (ts, s) ->
  ts !! i <> Some (Fatal msg).
Proof.
  intros HV Hs Hreach.
  pose proof (pool_ok_reach _ _ _ _ Hreach (bwos_threads_ok N E HV junk fuel owner thieves Hs)) as Hok.
  by eapply pool_ok_not_fatal.
Qed.
End properties.

(** ** Concrete runs: blocks of two entries, an owner and one thief *)
Section witnesses.
Let calls : list (op Z) := [Push 1; PushBatch [2; 3; 4; 5]; Pop; PopBlock; Push 6; Pop; Pop; Pop].
Let thief : list (op Z) := [Steal; Steal; StealBlock].
Let start := (threads (H:=size_t_64) 2 2 9 calls [thief], init (H:=size_t_64) 2 2 [0; 0]).
Let schedule : list (nat * nat) :=
  replicate 26 (0, 0)%nat ++ replicate 14 (1, 0)%nat ++ round_robin 2 100.
Let results : list (list (result Z)) :=
  [[Result [1] [] false; Result [2; 3; 4] [] false; Result [] [1] false; Result [] [2] false;
    Result [6] [] false; Result [] [6] false; Result [] [] true; Result [] [] true];
   [Result [] [3] false; Result [] [4] false; Result [] [] false]].

Lemma bwos_example_config : valid_config (H:=size_t_64) 2 2.
Proof. constructor; vm_compute; congruence. Qed.

Lemma bwos_example_start : pool_start (H:=size_t_64) 2 2 [0; 0] calls [thief].
Proof.
  split; [reflexivity|]. split; [by repeat constructor|]. split; [by repeat constructor|].
  vm_compute. reflexivity.
Qed.

Lemma bwos_exactly_once_witness :
  exists left, [1; 2; 6; 3; 4] ++ left ≡ₚ [1; 2; 3; 4; 6] /\
    [1; 2; 6] `sublist_of` [1; 2; 3; 4; 6] /\ (true = true -> left = []).
Proof.
  apply (bwos_exactly_once (H:=size_t_64) 2 2 [0; 0] 9 calls [thief] (Ret <$> results)
           (run_avail schedule start).2 results).
  - apply bwos_example_config.
  - apply bwos_example_start.
  - apply (run_avail_reach schedule). vm_compute. reflexivity.
  - reflexivity.
Defined.

Lemma bwos_holds_at_most_witness : 5 - 5 <= 2 * 2.
Proof.
  apply (bwos_holds_at_most (H:=size_t_64) 2 2 [0; 0] 9 calls [thief] (Ret <$> results)
           (run_avail schedule start).2 results).
  - apply bwos_example_config.
  - apply bwos_example_start.
  - apply (run_avail_reach schedule). vm_compute. reflexivity.
  - reflexivity.
Defined.

Lemma bwos_in_bounds_witness :
  (Ret <$> results : list (prog (bwos Z) _)) !! 1%nat <> Some (Fatal "entries index").
Proof.
  apply (bwos_in_bounds (H:=size_t_64) 2 2 [0; 0] 9 calls [thief] (Ret <$> results)
           (run_avail schedule start).2).
  - apply bwos_example_config.
  - apply bwos_example_start.
  - apply (run_avail_reach schedule). vm_compute. reflexivity.
Defined.

(** A fresh queue takes four values at once, and says that it has room for two. *)
Lemma bwos_minRemainingSlots_one_block_witness :
  exists n, run (minRemainingSlots (H:=size_t_64) 2 2) (init (H:=size_t_64) 2 2 [0; 0]) =
    (init (H:=size_t_64) 2 2 [0; 0], Done n) /\ 0 <= n <= 2.
Proof.
  apply (bwos_minRemainingSlots_one_block (H:=size_t_64) 2 2 [0; 0] 9 [] _ []).
  - apply bwos_example_config.
  - split; [reflexivity|]. split; [constructor|]. split; [constructor|]. vm_compute. reflexivity.
  - reflexivity.
Defined.

(** 32-bit machine, two blocks of one entry, everything consumed in the last
    round the version field can hold. *)
Let last_round : Z := 2 ^ 31 - 1.
Let worn : bwos Z :=
  let B (h : bool) (n : nat) := MkBlock (last_round * 2 + 1) (last_round * 2 + 1)
    (last_round * 2 + 1) (last_round * 2 + 1) n h [0] in
  MkBwos [B true 1%nat; B false 0%nat] 1 1 0.

Lemma bwos_version_wrap_stuck_witness :
  run (push (H:=size_t_32) 2 1 1 7) worn = (worn, Done false) /\
  (run (hasEntries (H:=size_t_32) 2 1) worn).2 = Done false.
Proof.
  split; [|reflexivity].
  apply (bwos_version_wrap_stuck (H:=size_t_32) 2 1 worn 0 7).
  - constructor; vm_compute; congruence.
  - split; intros [|[|p]] Hp; try (unfold in_ring in Hp; lia); vm_compute; repeat split; congruence.
  - vm_compute. lia.
  - reflexivity.
  - reflexivity.
Defined.

(** The queue holds more than [kCapacity] values: with two blocks of one entry
    ([kCapacity] is one), two pushes succeed after a push and a pop. *)
Lemma bwos_more_than_kCapacity :
  kCapacity 2 1 = 1 /\
  (run (exec_ops (H:=size_t_64) 2 1 2 [Push 1; Pop; Push 2; Push 3]) (init (H:=size_t_64) 2 1 [0])).2 = Done [Result [1] [] false; Result [] [1] false; Result [2] [] false; Result [3] [] false].
Proof. by vm_compute. Qed.
End witnesses.
