(* ===== verification/TimerQueue.v ===== *)
(** * sched: TimerQueue.h, TimerQueue.cpp

    A worker's timers: a binary min-heap of pointers to entries that live on
    the sleepers' stacks; every entry knows its place in the heap, so that a
    cancel need not search.  Size, earliest deadline and the bit in the shared
    mask are mirrors for lock-free readers.

    The entries are a memory [mem] of their own, addressed by natural numbers.
    Every critical section (from [lock] to [unlock]) is one function on the
    world and one action of the interleaved programs; callbacks and wakes
    happen after [unlock] and are actions of their own.  [lock] is modelled in
    SpinLock.v. *)

From Stdlib Require Import ZArith Lia.
From stdpp Require Import base tactics list numbers option strings gmap sorting.
From S2P Require Import Prelude Conc.

(** [struct TimerEntry]; [kNotQueued] is [None]. *)
Record TimerEntry := MkEntry {
  deadline : Z;
  token : nat;
  queue : option nat;
  heapIndex : option nat;
  fired : bool;
  callback : option nat;
  argument : nat;
  cancelled : bool
}.
#[export] Instance TimerEntry_inhabited : Inhabited TimerEntry :=
  populate (MkEntry 0 0 None None false None 0 false).

Definition set_heapIndex (i : option nat) (e : TimerEntry) : TimerEntry :=
  MkEntry (deadline e) (token e) (queue e) i (fired e) (callback e) (argument e) (cancelled e).
Definition set_fired (b : bool) (e : TimerEntry) : TimerEntry :=
  MkEntry (deadline e) (token e) (queue e) (heapIndex e) b (callback e) (argument e) (cancelled e).
Definition set_queue (q : option nat) (e : TimerEntry) : TimerEntry :=
  MkEntry (deadline e) (token e) q (heapIndex e) (fired e) (callback e) (argument e) (cancelled e).
Definition set_cancelled (b : bool) (e : TimerEntry) : TimerEntry :=
  MkEntry (deadline e) (token e) (queue e) (heapIndex e) (fired e) (callback e) (argument e) b.

(** What firing does to the outside. *)
Inductive event := Woke (token : nat) | Called (callback argument : nat).

(** The queue, the entries, the mask shared with the other queues, and the
    wakes and callbacks so far. *)
Record world := World {
  mem : gmap nat TimerEntry;
  heap : list nat;
  closed : bool;
  size : nat;
  earliest : Z;
  activeMask : option Z;
  activeBit : Z;
  events : list event
}.

Definition set_mem (m : gmap nat TimerEntry) (w : world) : world :=
  World m (heap w) (closed w) (size w) (earliest w) (activeMask w) (activeBit w) (events w).
Definition set_heap (h : list nat) (w : world) : world :=
  World (mem w) h (closed w) (size w) (earliest w) (activeMask w) (activeBit w) (events w).
Definition set_closed (b : bool) (w : world) : world :=
  World (mem w) (heap w) b (size w) (earliest w) (activeMask w) (activeBit w) (events w).
Definition emit (ev : event) (w : world) : world :=
  World (mem w) (heap w) (closed w) (size w) (earliest w) (activeMask w) (activeBit w) (events w ++ [ev]).

Definition entry (w : world) (p : nat) : TimerEntry := mem w !!! p.
Definition modify (p : nat) (f : TimerEntry -> TimerEntry) (w : world) : world :=
  set_mem (<[p := f (entry w p)]> (mem w)) w.
(** [heap[i]->deadline]. *)
Definition key (w : world) (i : nat) : Z := deadline (entry w (heap w !!! i)).

Definition kNoDeadline : Z := 2 ^ 63 - 1.
Definition ticksOf (time : Z) : Z := time.

Definition attachActiveMask (mask bit : Z) (w : world) : world :=
  World (mem w) (heap w) (closed w) (size w) (earliest w) (Some mask) bit (events w).

Definition isEmptyApprox (w : world) : bool := Nat.eqb (size w) 0.
Definition earliestTicks (w : world) : Z := earliest w.

Definition swapAt (a b : nat) (w : world) : world :=
  let ha := heap w !!! a in
  let hb := heap w !!! b in
  let w := set_heap (<[b := ha]> (<[a := hb]> (heap w))) w in
  let w := modify (heap w !!! a) (set_heapIndex (Some a)) w in
  modify (heap w !!! b) (set_heapIndex (Some b)) w.

(** The loop ends: [parent < index]. *)
Fixpoint siftUp_go (fuel index : nat) (w : world) : world :=
  match fuel with
  | O => w
  | S fuel =>
      if Nat.eqb index 0 then w
      else
        let parent := ((index - 1) / 2)%nat in
        if negb (key w index <? key w parent) then w
        else siftUp_go fuel parent (swapAt index parent w)
  end.
Definition siftUp (index : nat) (w : world) : world := siftUp_go (S index) index w.

Definition smallest (w : world) (index : nat) : nat :=
  let left := (2 * index + 1)%nat in
  let right := (left + 1)%nat in
  let size := length (heap w) in
  let s := if Nat.ltb left size && (key w left <? key w index) then left else index in
  if Nat.ltb right size && (key w right <? key w s) then right else s.

(** The loop ends: the index grows and stays below the size. *)
Fixpoint siftDown_go (fuel index : nat) (w : world) : world :=
  match fuel with
  | O => w
  | S fuel =>
      let s := smallest w index in
      if Nat.eqb s index then w else siftDown_go fuel s (swapAt index s w)
  end.
Definition siftDown (index : nat) (w : world) : world := siftDown_go (S (length (heap w))) index w.

Definition publishLocked (w : world) : world :=
  let before := size w in
  let now := length (heap w) in
  let mask :=
    match activeMask w with
    | None => None
    | Some m =>
        if Nat.eqb before 0 && negb (Nat.eqb now 0) then Some (Z.lor m (activeBit w))
        else if negb (Nat.eqb before 0) && Nat.eqb now 0 then Some (Z.land m (Z.lnot (activeBit w)))
        else Some m
    end in
  World (mem w) (heap w) (closed w) now
    (match heap w with [] => kNoDeadline | p :: _ => ticksOf (deadline (entry w p)) end)
    mask (activeBit w) (events w).

Definition removeLocked (index : nat) (w : world) : world :=
  let p := heap w !!! index in
  let last := (length (heap w) - 1)%nat in
  let w := if negb (Nat.eqb index last) then swapAt index last w else w in
  let w := set_heap (take last (heap w)) w in
  let w := modify p (set_heapIndex None) w in
  let w := if negb (Nat.eqb index last) then siftUp index (siftDown index w) else w in
  publishLocked w.

(** The part of [add] and [addUnlessCancelled] that queues the entry. *)
Definition enqueue (p : nat) (w : world) : world :=
  let w := modify p (set_heapIndex (Some (length (heap w)))) w in
  let w := set_heap (heap w ++ [p]) w in
  siftUp (length (heap w) - 1) w.

Definition add (self p : nat) (w : world) : world * bool :=
  let w := modify p (set_fired false) w in
  let w := modify p (set_queue (Some self)) w in
  let w := enqueue p w in
  let becameEarliest := Nat.eqb (heap w !!! 0%nat) p in
  (publishLocked w, becameEarliest).

Definition addUnlessCancelled (p : nat) (w : world) : world * bool :=
  if cancelled (entry w p) || closed w then (w, false)
  else
    let w := modify p (set_fired false) w in
    (publishLocked (enqueue p w), true).

Definition cancel (p : nat) (w : world) : world * bool :=
  match heapIndex (entry w p) with
  | None => (modify p (set_cancelled true) w, false)
  | Some index => (removeLocked index w, true)
  end.

(** [entry.queue != nullptr and entry.queue->cancel(entry)]. *)
Definition cancelTimer (p : nat) (w : world) : world * bool :=
  match queue (entry w p) with
  | None => (w, false)
  | Some _ => cancel p w
  end.

(** [fireAndUnlock], inside the lock: mark fired, copy what is needed. *)
Definition fireLocked (p : nat) (w : world) : world * event :=
  let e := entry w p in
  let ev := match callback e with Some c => Called c (argument e) | None => Woke (token e) end in
  (modify p (set_fired true) w, ev).

(** One turn of [fireExpired]'s loop, inside the lock. *)
Definition fireOne (now : Z) (w : world) : world * option event :=
  match heap w with
  | [] => (w, None)
  | p :: _ =>
      if deadline (entry w p) >? now then (w, None)
      else
        let r := fireLocked p (removeLocked 0 w) in
        (r.1, Some r.2)
  end.

Fixpoint fireExpired (fuel : nat) (now : Z) (count : nat) : prog world nat :=
  match fuel with
  | O => Starved
  | S fuel =>
      ev <- rmw (fireOne now) ;;
      match ev with
      | None => Ret count
      | Some ev => store (emit ev) ;;; fireExpired fuel now (count + 1)%nat
      end
  end.

(** The first callback entry from [index] on. *)
Fixpoint findCallback (w : world) (index : nat) (h : list nat) : nat :=
  match h with
  | [] => index
  | p :: h => match callback (entry w p) with None => findCallback w (S index) h | Some _ => index end
  end.

(** One turn of [fireCallbacksAndClose]'s loop, inside the lock. *)
Definition closeOne (w : world) : world * option event :=
  let w := set_closed true w in
  let index := findCallback w 0 (heap w) in
  if Nat.eqb index (length (heap w)) then (w, None)
  else
    let p := heap w !!! index in
    let r := fireLocked p (removeLocked index w) in
    (r.1, Some r.2).

Fixpoint fireCallbacksAndClose (fuel : nat) : prog world unit :=
  match fuel with
  | O => Starved
  | S fuel =>
      ev <- rmw closeOne ;;
      match ev with
      | None => Ret tt
      | Some ev => store (emit ev) ;;; fireCallbacksAndClose fuel
      end
  end.
