(* ===== verification/TimerHeap.v ===== *)
(** * TimerQueue: the heap invariant

    [linked]: an entry's [heapIndex] is where the heap holds it.  [ordered]:
    no entry is due before its parent.  [mirrors]: size, earliest deadline and
    the mask bit agree with the heap.  Every critical section keeps all three;
    between its steps the order may be broken at one place, which the sift
    loops repair. *)

From Stdlib Require Import ZArith Lia ZifyNat.
From stdpp Require Import base tactics list numbers option strings gmap sorting.
From S2P Require Import Prelude Conc TimerQueue.

#[local] Ltac Zify.zify_post_hook ::= Z.div_mod_to_equations.

(** ** Order, for any keys *)
Section order.
Definition par (i : nat) : nat := ((i - 1) / 2)%nat.

(** Exchange of two places. *)
Definition swp (a b i : nat) : nat := if Nat.eqb i a then b else if Nat.eqb i b then a else i.

Context (n : nat).
Implicit Types (K : nat -> Z).

Definition ok_at K (i : nat) : Prop := K (par i) <= K i.
Definition heap_ord K : Prop := forall i, (0 < i < n)%nat -> ok_at K i.
(** Broken only between [j] and its parent. *)
Definition up_ok K (j : nat) : Prop :=
  (forall i, (0 < i < n)%nat -> i <> j -> ok_at K i) /\
  (forall i, (0 < i < n)%nat -> par i = j -> (0 < j)%nat -> K (par j) <= K i).
(** Broken only between [c] and its children. *)
Definition down_ok K (c : nat) : Prop :=
  (forall i, (0 < i < n)%nat -> par i <> c -> ok_at K i) /\
  (forall i, (0 < i < n)%nat -> par i = c -> (0 < c)%nat -> K (par c) <= K i).
(** Broken on both sides of [j]. *)
Definition hole_ok K (j : nat) : Prop :=
  (forall i, (0 < i < n)%nat -> i <> j -> par i <> j -> ok_at K i) /\
  (forall i, (0 < i < n)%nat -> par i = j -> (0 < j)%nat -> K (par j) <= K i).

Lemma heap_ord_up K j : heap_ord K -> up_ok K j.
Proof.
  intros Ho. split; [auto|]. intros i Hi Hp Hj. unfold ok_at, par in *.
  pose proof (Ho i Hi) as H1. pose proof (Ho j ltac:(lia)) as H2. unfold ok_at, par in *. rewrite Hp in H1. lia.
Qed.

Lemma up_ok_done K j : up_ok K j -> ok_at K j \/ j = 0%nat -> heap_ord K.
Proof.
  intros [H1 _] Hj i Hi. destruct (decide (i = j)) as [->|]; [|auto]. destruct Hj; [done|lia].
Qed.

Lemma up_ok_step K j :
  up_ok K j -> (0 < j < n)%nat -> K j < K (par j) -> up_ok (fun i => K (swp j (par j) i)) (par j).
Proof.
  intros [H1 H2] Hj Hlt. split; [intros i Hi Hne|intros i Hi Hp Hp0]; unfold ok_at, swp in *.
  - destruct (Nat.eqb_spec i j); destruct (Nat.eqb_spec i (par j)); destruct (Nat.eqb_spec (par i) j);
      destruct (Nat.eqb_spec (par i) (par j)); subst; try done; try (unfold par in *; lia).
    + apply H2; [done|done|lia].
    + pose proof (H1 i Hi ltac:(done)) as Hx. rewrite e in Hx. lia.
    + apply H1; done.
  - assert (par (par j) <> j /\ par (par j) <> par j) as [E1 E2] by (unfold par in *; lia).
    rewrite (proj2 (Nat.eqb_neq _ _) E1), (proj2 (Nat.eqb_neq _ _) E2).
    pose proof (H1 (par j) ltac:(unfold par in *; lia) ltac:(unfold par in *; lia)) as Hg.
    destruct (Nat.eqb_spec i j); [lia|]. destruct (Nat.eqb_spec i (par j)); [unfold par in *; lia|].
    pose proof (H1 i Hi ltac:(done)) as Hx. rewrite Hp in Hx. lia.
Qed.

(** The child a hole sinks to: no key below it there. *)
Definition least_child K (c m : nat) : Prop :=
  (m < n)%nat /\ par m = c /\ (0 < m)%nat /\ K m < K c /\
  forall i, (0 < i < n)%nat -> par i = c -> K m <= K i.

Lemma down_ok_step K c m : down_ok K c -> least_child K c m -> down_ok (fun i => K (swp c m i)) m.
Proof.
  intros [H1 H2] (Hm & Hp & Hm0 & Hlt & Hmin). split; [intros i Hi Hne|intros i Hi Hpi Hm1]; unfold ok_at, swp in *.
  - destruct (Nat.eqb_spec i c); destruct (Nat.eqb_spec i m); destruct (Nat.eqb_spec (par i) c);
      destruct (Nat.eqb_spec (par i) m); subst; try done; try lia; try (unfold par in *; lia).
    + apply H2; done || lia.
    + by apply Hmin.
    + by apply H1.
  - rewrite Hp, Nat.eqb_refl. destruct (Nat.eqb_spec i c); [unfold par in *; lia|].
    destruct (Nat.eqb_spec i m); [unfold par in *; lia|].
    pose proof (H1 i Hi ltac:(unfold par in *; lia)) as Hx. by rewrite Hpi in Hx.
Qed.

Lemma hole_ok_step K c m : hole_ok K c -> least_child K c m -> down_ok (fun i => K (swp c m i)) m.
Proof.
  intros [H1 H2] (Hm & Hp & Hm0 & Hlt & Hmin). split; [intros i Hi Hne|intros i Hi Hpi Hm1]; unfold ok_at, swp in *.
  - destruct (Nat.eqb_spec i c); destruct (Nat.eqb_spec i m); destruct (Nat.eqb_spec (par i) c);
      destruct (Nat.eqb_spec (par i) m); subst; try done; try lia; try (unfold par in *; lia).
    + apply H2; done || lia.
    + by apply Hmin.
    + by apply H1.
  - rewrite Hp, Nat.eqb_refl. destruct (Nat.eqb_spec i c); [unfold par in *; lia|].
    destruct (Nat.eqb_spec i m); [unfold par in *; lia|].
    pose proof (H1 i Hi ltac:(unfold par in *; lia) ltac:(unfold par in *; lia)) as Hx. by rewrite Hpi in Hx.
Qed.

(** No child is below the hole. *)
Lemma down_ok_done K c : down_ok K c -> (forall i, (0 < i < n)%nat -> par i = c -> K c <= K i) -> heap_ord K.
Proof.
  intros [H1 _] Hc i Hi. destruct (decide (par i = c)) as [E|]; [|auto]. unfold ok_at. rewrite E. auto.
Qed.

Lemma hole_ok_done K c : hole_ok K c -> (forall i, (0 < i < n)%nat -> par i = c -> K c <= K i) -> up_ok K c.
Proof.
  intros [H1 H2] Hc. split; [|done]. intros i Hi Hne.
  destruct (decide (par i = c)) as [E|]; [unfold ok_at; rewrite E; auto|auto].
Qed.

(** The root is the least. *)
Lemma heap_ord_root K i : heap_ord K -> (i < n)%nat -> K 0%nat <= K i.
Proof.
  intros Ho. induction i as [i IH] using lt_wf_ind. intros Hi. destruct (decide (i = 0%nat)) as [->|]; [lia|].
  transitivity (K (par i)); [apply IH; unfold par; lia|]. apply Ho. lia.
Qed.

Lemma up_ok_ext K K' j : (forall i, (i < n)%nat -> K i = K' i) -> (j < n)%nat -> up_ok K j -> up_ok K' j.
Proof.
  intros Heq Hj [H1 H2]. split; [intros i Hi Hne|intros i Hi Hp Hj0]; unfold ok_at in *;
    rewrite <- !Heq by (unfold par in *; lia); auto.
Qed.

Lemma down_ok_ext K K' j : (forall i, (i < n)%nat -> K i = K' i) -> (j < n)%nat -> down_ok K j -> down_ok K' j.
Proof.
  intros Heq Hj [H1 H2]. split; [intros i Hi Hne|intros i Hi Hp Hj0]; unfold ok_at in *;
    rewrite <- !Heq by (unfold par in *; lia); auto.
Qed.

Lemma heap_ord_ext K K' : (forall i, (i < n)%nat -> K i = K' i) -> heap_ord K -> heap_ord K'.
Proof. intros Heq Ho i Hi. unfold ok_at. rewrite <- !Heq by (unfold par; lia). by apply Ho. Qed.
End order.

(** ** The world *)
Section world.
Implicit Types (w : world).

Definition linked w : Prop := forall p i, heapIndex (entry w p) = Some i <-> heap w !! i = Some p.
Definition ordered w : Prop := heap_ord (length (heap w)) (key w).

(** The mirrors for lock-free readers. *)
Definition mirrors w : Prop :=
  size w = length (heap w) /\
  earliest w = match heap w with [] => kNoDeadline | p :: _ => deadline (entry w p) end /\
  match activeMask w with
  | None => True
  | Some m => Z.land m (activeBit w) = match heap w with [] => 0 | _ => activeBit w end
  end.

Record wf w : Prop := { wf_linked : linked w; wf_ordered : ordered w; wf_mirrors : mirrors w }.

(** [w'] differs from [w] at most in the places of the entries. *)
Record moved w w' : Prop := {
  mv_heap : heap w' ≡ₚ heap w;
  mv_entry : forall p, set_heapIndex None (entry w' p) = set_heapIndex None (entry w p);
  mv_rest : closed w' = closed w /\ size w' = size w /\ earliest w' = earliest w /\
            activeMask w' = activeMask w /\ activeBit w' = activeBit w /\ events w' = events w
}.

#[export] Instance moved_preorder : PreOrder moved.
Proof.
  split.
  - intros w. by constructor.
  - intros w1 w2 w3 [A1 A2 A3] [B1 B2 B3]. constructor.
    + by rewrite B1.
    + intros p. by rewrite B2.
    + destruct A3 as (? & ? & ? & ? & ? & ?), B3 as (? & ? & ? & ? & ? & ?). splits; congruence.
Qed.

Lemma moved_deadline w w' p : moved w w' -> deadline (entry w' p) = deadline (entry w p).
Proof. intros [_ H _]. specialize (H p). by destruct (entry w' p), (entry w p); injection H. Qed.

Lemma entry_modify_eq w p f : entry (modify p f w) p = f (entry w p).
Proof. unfold entry, modify. simpl. by rewrite lookup_total_insert_eq. Qed.
Lemma entry_modify_ne w p q f : p <> q -> entry (modify p f w) q = entry w q.
Proof. intros. unfold entry, modify. simpl. by rewrite lookup_total_insert_ne. Qed.
Lemma entry_modify w p q f : entry (modify p f w) q = if decide (p = q) then f (entry w q) else entry w q.
Proof. case_decide as E; [subst; apply entry_modify_eq|by apply entry_modify_ne]. Qed.

Lemma linked_nodup w : linked w -> NoDup (heap w).
Proof.
  intros Hl. apply NoDup_alt. intros i j p Hi Hj. apply Hl in Hi. apply Hl in Hj. congruence.
Qed.

Section swap.
Context (w : world) (a b : nat) (Hab : a <> b) (Ha : (a < length (heap w))%nat) (Hb : (b < length (heap w))%nat).

Lemma heap_swapAt : heap (swapAt a b w) = <[b := heap w !!! a]> (<[a := heap w !!! b]> (heap w)).
Proof. done. Qed.

Lemma length_swapAt : length (heap (swapAt a b w)) = length (heap w).
Proof. by rewrite heap_swapAt, !length_insert. Qed.

Lemma lookup_swapAt i : (i < length (heap w))%nat -> heap (swapAt a b w) !! i = heap w !! swp a b i.
Proof.
  intros Hi. rewrite heap_swapAt. unfold swp. destruct (Nat.eqb_spec i a) as [->|Hia].
  - rewrite list_lookup_insert_ne, list_lookup_insert_eq by done. by rewrite lookup_lt_total.
  - destruct (Nat.eqb_spec i b) as [->|Hib].
    + rewrite list_lookup_insert_eq by (by rewrite length_insert). by rewrite lookup_lt_total.
    + by rewrite !list_lookup_insert_ne by done.
Qed.

Lemma entry_swapAt p : entry (swapAt a b w) p =
  if decide (p = heap w !!! a) then set_heapIndex (Some b) (entry w p)
  else if decide (p = heap w !!! b) then set_heapIndex (Some a) (entry w p) else entry w p.
Proof.
  unfold swapAt. set (w1 := set_heap _ w).
  assert (heap w1 !!! a = heap w !!! b) as Ea.
  { simpl. rewrite list_lookup_total_insert_ne, list_lookup_total_insert_eq by done. done. }
  assert (heap w1 !!! b = heap w !!! a) as Eb.
  { simpl. rewrite list_lookup_total_insert_eq by (by rewrite length_insert). done. }
  rewrite Ea. change (heap (modify (heap w !!! b) (set_heapIndex (Some a)) w1)) with (heap w1). rewrite Eb.
  rewrite !entry_modify. change (entry w1 p) with (entry w p).
  destruct (decide (heap w !!! a = p)) as [->|Hna].
  - rewrite (decide_True (P := p = p)) by done. by case_decide.
  - rewrite (decide_False (P := p = heap w !!! a)) by done.
    destruct (decide (heap w !!! b = p)) as [->|Hnb]; [by rewrite decide_True|by rewrite decide_False].
Qed.

Lemma moved_swapAt : moved w (swapAt a b w).
Proof.
  constructor; [| |done].
  - rewrite heap_swapAt. symmetry. rewrite <- (list_insert_id (heap w) a (heap w !!! a)) at 1 by (by apply lookup_lt_total).
    rewrite <- (list_insert_id (<[a:=heap w !!! a]> (heap w)) b (heap w !!! b)) at 1
      by (rewrite list_lookup_insert_ne by done; by apply lookup_lt_total).
    apply Permutation_inj. split; [by rewrite !length_insert|]. exists (swp a b). split.
    + intros i j. unfold swp. repeat case_match; bool_to_prop; rewrite ?Nat.eqb_eq, ?Nat.eqb_neq in *; congruence.
    + intros i. unfold swp. destruct (Nat.eqb_spec i a) as [->|Hia].
      * rewrite list_lookup_insert_ne, list_lookup_insert_eq by done.
        by rewrite list_lookup_insert_eq by (by rewrite length_insert).
      * destruct (Nat.eqb_spec i b) as [->|Hib].
        -- rewrite list_lookup_insert_eq by (by rewrite length_insert).
           by rewrite list_lookup_insert_ne, list_lookup_insert_eq by done.
        -- by rewrite !list_lookup_insert_ne by done.
  - intros p. rewrite entry_swapAt. repeat case_decide; done.
Qed.

Lemma key_swapAt i : (i < length (heap w))%nat -> key (swapAt a b w) i = key w (swp a b i).
Proof.
  intros Hi. unfold key. rewrite (moved_deadline w) by apply moved_swapAt.
  do 2 f_equal. rewrite !list_lookup_total_alt. by rewrite lookup_swapAt.
Qed.

Lemma linked_swapAt : linked w -> linked (swapAt a b w).
Proof.
  intros Hl p i. rewrite entry_swapAt. pose proof (lookup_lt_total (heap w) a Ha) as La.
  pose proof (lookup_lt_total (heap w) b Hb) as Lb.
  assert (heap w !!! a <> heap w !!! b) as Hne.
  { intros E. rewrite E in La. apply Hl in La, Lb. congruence. }
  destruct (decide (i < length (heap w))%nat) as [Hi|Hi].
  - rewrite lookup_swapAt by done. unfold swp.
    destruct (decide (p = heap w !!! a)) as [->|]; [|destruct (decide (p = heap w !!! b)) as [->|]]; simpl.
    + destruct (Nat.eqb_spec i a); [subst; rewrite Lb; split; congruence|].
      destruct (Nat.eqb_spec i b); [subst; by rewrite La|]. split; [congruence|]. intros Hx. apply Hl in Hx, La. congruence.
    + destruct (Nat.eqb_spec i a); [subst; by rewrite Lb|].
      destruct (Nat.eqb_spec i b); [subst; rewrite La; split; congruence|]. split; [congruence|]. intros Hx. apply Hl in Hx, Lb. congruence.
    + rewrite (Hl p i). destruct (Nat.eqb_spec i a); [subst; rewrite La, Lb; split; congruence|].
      destruct (Nat.eqb_spec i b); [subst; rewrite La, Lb; split; congruence|]. done.
  - rewrite (lookup_ge_None_2 (heap (swapAt a b w))) by (rewrite length_swapAt; lia).
    split; [|done]. intros Hx. exfalso. apply Hi.
    destruct (decide (p = heap w !!! a)); [simpl in Hx; congruence|].
    destruct (decide (p = heap w !!! b)); [simpl in Hx; congruence|]. apply Hl in Hx. by eapply lookup_lt_Some.
Qed.
End swap.

(** ** The sift loops *)

Lemma moved_length w w' : moved w w' -> length (heap w') = length (heap w).
Proof. intros [Hp _ _]. by rewrite Hp. Qed.

Lemma siftUp_go_ok fuel index w :
  linked w -> (index < length (heap w))%nat -> (index < fuel)%nat -> up_ok (length (heap w)) (key w) index ->
  linked (siftUp_go fuel index w) /\ ordered (siftUp_go fuel index w) /\ moved w (siftUp_go fuel index w).
Proof.
  revert index w. induction fuel as [|fuel IH]; intros index w Hl Hi Hf Hup; [lia|]. cbn [siftUp_go].
  destruct (Nat.eqb_spec index 0) as [->|Hne].
  { splits; [done|eapply up_ok_done; eauto|done]. }
  fold (par index). destruct (Z.ltb_spec (key w index) (key w (par index))); simpl.
  2:{ splits; [done| |done]. eapply up_ok_done; [done|]. left. unfold ok_at. lia. }
  assert (index <> par index /\ (par index < length (heap w))%nat) as [Hd Hp] by (unfold par; lia).
  destruct (IH (par index) (swapAt index (par index) w)) as (H1 & H2 & H3).
  - by apply linked_swapAt.
  - by rewrite length_swapAt.
  - unfold par in *. lia.
  - rewrite length_swapAt. eapply up_ok_ext; [| |apply up_ok_step; [done|lia|done]].
    + intros i Hi'. symmetry. by apply key_swapAt.
    + done.
  - splits; [done|done|]. etrans; [|exact H3]. by apply moved_swapAt.
Qed.

Lemma siftUp_ok index w :
  linked w -> (index < length (heap w))%nat -> up_ok (length (heap w)) (key w) index ->
  linked (siftUp index w) /\ ordered (siftUp index w) /\ moved w (siftUp index w).
Proof. intros. apply siftUp_go_ok; done || lia. Qed.

Lemma smallest_spec w c :
  (c < length (heap w))%nat ->
  (smallest w c = c /\ forall i, (0 < i < length (heap w))%nat -> par i = c -> key w c <= key w i) \/
  (smallest w c <> c /\ least_child (length (heap w)) (key w) c (smallest w c)).
Proof.
  intros Hc. unfold smallest, least_child.
  set (l := (2 * c + 1)%nat). set (r := (l + 1)%nat).
  assert (Hpar : forall i, (0 < i)%nat -> par i = c -> i = l \/ i = r) by (unfold par, l, r; intros; lia).
  assert (par l = c /\ par r = c) as [Pl Pr] by (unfold par, l, r; lia).
  assert (0 < l /\ 0 < r /\ l <> c /\ r <> c /\ l <> r)%nat as (L0 & R0 & Lc & Rc & LR) by (unfold r, l; lia).
  clearbody l r.
  destruct (Nat.ltb_spec l (length (heap w))); destruct (Z.ltb_spec (key w l) (key w c)); simpl;
    destruct (Nat.ltb_spec r (length (heap w))); simpl;
    repeat match goal with |- context [key w r <? ?x] => destruct (Z.ltb_spec (key w r) x); simpl end;
    first
      [ left; split; [done|]; intros i Hi Hp; destruct (Hpar i ltac:(lia) Hp) as [->| ->]; lia
      | right; split; [done|]; splits; try lia; try done; intros i Hi Hp;
        destruct (Hpar i ltac:(lia) Hp) as [->| ->]; lia ].
Qed.

Lemma siftDown_go_ok fuel c w :
  linked w -> (c < length (heap w))%nat -> (length (heap w) - c < fuel)%nat -> down_ok (length (heap w)) (key w) c ->
  linked (siftDown_go fuel c w) /\ ordered (siftDown_go fuel c w) /\ moved w (siftDown_go fuel c w).
Proof.
  revert c w. induction fuel as [|fuel IH]; intros c w Hl Hc Hf Hd; [lia|]. cbn [siftDown_go].
  destruct (smallest_spec w c Hc) as [[-> Hmin]|[Hne Hlc]].
  { rewrite Nat.eqb_refl. splits; [done|by eapply down_ok_done|done]. }
  rewrite (proj2 (Nat.eqb_neq _ _) Hne). set (m := smallest w c) in *.
  assert (m < length (heap w) /\ c < m)%nat as [Hm Hcm] by (destruct Hlc as (? & Hp & ? & _); unfold par in Hp; lia).
  destruct (IH m (swapAt c m w)) as (H1 & H2 & H3).
  - by apply linked_swapAt.
  - by rewrite length_swapAt.
  - rewrite length_swapAt. lia.
  - rewrite length_swapAt. eapply down_ok_ext; [| |apply down_ok_step; [done|exact Hlc]].
    + intros i Hi'. symmetry. by apply key_swapAt.
    + done.
  - splits; [done|done|]. etrans; [|exact H3]. by apply moved_swapAt.
Qed.

(** From a hole, [siftDown] leaves at most the relation to the parent broken. *)
Lemma siftDown_ok c w :
  linked w -> (c < length (heap w))%nat -> hole_ok (length (heap w)) (key w) c ->
  linked (siftDown c w) /\ up_ok (length (heap w)) (key (siftDown c w)) c /\ moved w (siftDown c w).
Proof.
  intros Hl Hc Hh. unfold siftDown. cbn [siftDown_go].
  destruct (smallest_spec w c Hc) as [[-> Hmin]|[Hne Hlc]].
  { rewrite Nat.eqb_refl. splits; [done|by eapply hole_ok_done|done]. }
  rewrite (proj2 (Nat.eqb_neq _ _) Hne). set (m := smallest w c) in *.
  assert (m < length (heap w) /\ c < m)%nat as [Hm Hcm] by (destruct Hlc as (? & Hp & ? & _); unfold par in Hp; lia).
  destruct (siftDown_go_ok (length (heap w)) m (swapAt c m w)) as (H1 & H2 & H3).
  - by apply linked_swapAt.
  - by rewrite length_swapAt.
  - rewrite length_swapAt. lia.
  - rewrite length_swapAt. eapply down_ok_ext; [| |apply hole_ok_step; [done|exact Hlc]].
    + intros i Hi'. symmetry. by apply key_swapAt.
    + done.
  - assert (moved w (siftDown_go (length (heap w)) m (swapAt c m w))) as Hmv
      by (etrans; [|exact H3]; by apply moved_swapAt).
    splits; [done| |done]. unfold ordered in H2. rewrite (moved_length _ _ Hmv) in H2. by apply heap_ord_up.
Qed.

(** ** Publishing *)

Definition mask_ok w : Prop :=
  match activeMask w with
  | None => True
  | Some m => Z.land m (activeBit w) = if Nat.eqb (size w) 0 then 0 else activeBit w
  end.

Lemma mirrors_mask w : mirrors w -> mask_ok w.
Proof.
  intros (Hs & _ & Hm). unfold mask_ok. destruct (activeMask w); [|done]. rewrite Hs, Hm. by destruct (heap w).
Qed.

Lemma land_lor_bit m b : Z.land (Z.lor m b) b = b.
Proof. apply Z.bits_inj'. intros n _. rewrite Z.land_spec, Z.lor_spec. by destruct (Z.testbit m n), (Z.testbit b n). Qed.
Lemma land_clear_bit m b : Z.land (Z.land m (Z.lnot b)) b = 0.
Proof. apply Z.bits_inj'. intros n Hn. rewrite !Z.land_spec, Z.lnot_spec, Z.bits_0 by done. by destruct (Z.testbit m n), (Z.testbit b n). Qed.

Lemma mirrors_publish w : mask_ok w -> mirrors (publishLocked w).
Proof.
  intros Hm. unfold mirrors, publishLocked, mask_ok in *. simpl. splits; [done|by destruct (heap w)|].
  destruct (activeMask w) as [m|]; [|done].
  destruct (Nat.eqb_spec (size w) 0) as [E0|E0], (heap w) as [|p h]; simpl; try done.
  - apply land_lor_bit.
  - apply land_clear_bit.
Qed.

Lemma wf_publish w : linked w -> ordered w -> mask_ok w -> wf (publishLocked w).
Proof. intros Hl Ho Hm. constructor; [exact Hl|exact Ho|by apply mirrors_publish]. Qed.

Lemma mask_ok_moved w w' : moved w w' -> mask_ok w -> mask_ok w'.
Proof. intros [_ _ (_ & Es & _ & Em & Eb & _)]. unfold mask_ok. by rewrite Es, Em, Eb. Qed.

(** ** Removing *)

Definition popped (p last : nat) w : world := modify p (set_heapIndex None) (set_heap (take last (heap w)) w).

Lemma linked_pop w p last :
  linked w -> length (heap w) = S last -> heap w !! last = Some p -> linked (popped p last w).
Proof.
  intros Hl Hlen Hp q i. unfold popped. rewrite entry_modify.
  change (entry (set_heap (take last (heap w)) w) q) with (entry w q). cbn [heap modify set_mem set_heap].
  destruct (decide (i < last)%nat) as [Hi|Hi].
  - rewrite lookup_take_lt by done. case_decide as E; [subst q|apply Hl]. simpl. split; [done|].
    intros Hx. apply Hl in Hx, Hp. rewrite Hx in Hp. injection Hp. lia.
  - rewrite lookup_take_ge by lia. split; [|done]. case_decide as E; [done|]. intros Hx. apply Hl in Hx.
    pose proof (lookup_lt_Some _ _ _ Hx). assert (i = last) as -> by lia. congruence.
Qed.

Lemma key_pop w p last i : (i < last)%nat -> key (popped p last w) i = key w i.
Proof.
  intros Hi. unfold key, popped. rewrite entry_modify. cbn [heap modify set_mem set_heap].
  rewrite !list_lookup_total_alt, lookup_take_lt by done.
  change (entry (set_heap (take last (heap w)) w)) with (entry w). by case_decide.
Qed.

Lemma length_pop w p last : length (heap w) = S last -> length (heap (popped p last w)) = last.
Proof. intros Hl. simpl. rewrite length_take. lia. Qed.

(** What an operation leaves: the entries changed at most in their places (and
    in what [P] allows for [p]). *)
Record removed (p : nat) w w' : Prop := {
  rm_heap : heap w ≡ₚ p :: heap w';
  rm_entry : forall q, set_heapIndex None (entry w' q) = set_heapIndex None (entry w q);
  rm_rest : closed w' = closed w /\ activeBit w' = activeBit w /\ events w' = events w
}.

Lemma removed_moved p w1 w2 w3 : removed p w1 w2 -> moved w2 w3 -> removed p w1 w3.
Proof.
  intros [A1 A2 (A3 & A4 & A5)] [B1 B2 (B3 & _ & _ & _ & B4 & B5)]. constructor.
  - by rewrite A1, B1.
  - intros q. by rewrite B2.
  - splits; congruence.
Qed.

Lemma removed_pop w0 w p last :
  moved w0 w -> length (heap w) = S last -> heap w !! last = Some p -> removed p w0 (popped p last w).
Proof.
  intros [A1 A2 (A3 & _ & _ & _ & A4 & A5)] Hlen Hp. constructor.
  - rewrite <- A1. cbn [heap popped modify set_mem set_heap].
    rewrite <- (take_drop last (heap w)) at 1. rewrite (drop_S _ _ _ Hp), drop_ge by lia.
    by rewrite Permutation_app_comm.
  - intros q. unfold popped. rewrite entry_modify. rewrite <- A2. by case_decide.
  - done.
Qed.

Lemma hole_after_swap w index last p :
  ordered w -> length (heap w) = S last -> (index < last)%nat ->
  hole_ok last (key (popped p last (swapAt index last w))) index.
Proof.
  intros Ho Hlen Hi. unfold ordered in Ho. rewrite Hlen in Ho.
  assert (Hk : forall i, (i < last)%nat -> key (popped p last (swapAt index last w)) i = key w (swp index last i)).
  { intros i Hil. rewrite key_pop by done. apply key_swapAt; lia. }
  split.
  - intros i Hir Hne Hpne. unfold ok_at. rewrite !Hk by (unfold par in *; lia). unfold swp.
    rewrite (proj2 (Nat.eqb_neq i index)), (proj2 (Nat.eqb_neq (par i) index)) by done.
    rewrite (proj2 (Nat.eqb_neq i last)), (proj2 (Nat.eqb_neq (par i) last)) by (unfold par in *; lia).
    apply Ho. lia.
  - intros i Hir Hpi Hi0. rewrite !Hk by (unfold par in *; lia). unfold swp.
    rewrite (proj2 (Nat.eqb_neq i index)), (proj2 (Nat.eqb_neq (par index) index)) by (unfold par in *; lia).
    rewrite (proj2 (Nat.eqb_neq i last)), (proj2 (Nat.eqb_neq (par index) last)) by (unfold par in *; lia).
    pose proof (Ho i ltac:(lia)) as H1. pose proof (Ho index ltac:(lia)) as H2. unfold ok_at in *. rewrite Hpi in H1. lia.
Qed.

Lemma removeLocked_ok index w p :
  wf w -> heap w !! index = Some p ->
  wf (removeLocked index w) /\ removed p w (removeLocked index w).
Proof.
  intros [Hl Ho Hm] Hp. pose proof (lookup_lt_Some _ _ _ Hp) as Hlt. unfold removeLocked.
  rewrite (lookup_total_Some _ _ _ Hp). set (last := (length (heap w) - 1)%nat).
  assert (Hlen : length (heap w) = S last) by lia. apply mirrors_mask in Hm.
  destruct (Nat.eqb_spec index last) as [->|Hne]; cbn [negb].
  - change (modify p (set_heapIndex None) (set_heap (take last (heap w)) w)) with (popped p last w).
    assert (ordered (popped p last w)) as Hord.
    { unfold ordered. rewrite length_pop by done. intros i Hi. unfold ok_at.
      rewrite !key_pop by (unfold par in *; lia). apply Ho. lia. }
    split; [apply wf_publish; [by apply linked_pop|done|exact Hm]|].
    destruct (removed_pop w w p last) as [R1 R2 R3]; [done|done|done|]. by constructor.
  - set (w1 := swapAt index last w).
    assert (Hd : index <> last /\ (last < length (heap w))%nat) by lia. destruct Hd as [Hd Hlast].
    assert (Hmv : moved w w1) by (by apply moved_swapAt).
    assert (Hlen1 : length (heap w1) = S last) by (by rewrite (moved_length _ _ Hmv)).
    assert (Hp1 : heap w1 !! last = Some p).
    { unfold w1. rewrite lookup_swapAt by done. unfold swp. rewrite (proj2 (Nat.eqb_neq last index)), Nat.eqb_refl by done. done. }
    change (modify p (set_heapIndex None) (set_heap (take last (heap w1)) w1)) with (popped p last w1).
    assert (Hl1 : linked (popped p last w1)) by (apply linked_pop; [by apply linked_swapAt|done|done]).
    pose proof (hole_after_swap w index last p Ho Hlen ltac:(lia)) as Hh. fold w1 in Hh.
    destruct (siftDown_ok index (popped p last w1)) as (L2 & U2 & M2); [done|rewrite length_pop; lia|by rewrite length_pop|].
    destruct (siftUp_ok index (siftDown index (popped p last w1))) as (L3 & O3 & M3);
      [done|rewrite (moved_length _ _ M2), length_pop; lia|by rewrite (moved_length _ _ M2)|].
    assert (Hr : removed p w (popped p last w1)) by (by apply removed_pop).
    pose proof (removed_moved _ _ _ _ (removed_moved _ _ _ _ Hr M2) M3) as [R1 R2 R3].
    split; [|by constructor]. apply wf_publish; [done|done|].
    apply (mask_ok_moved _ _ M3), (mask_ok_moved _ _ M2). by apply (mask_ok_moved _ _ Hmv).
Qed.

(** ** Adding *)

Lemma enqueue_start p w :
  linked w -> ordered w -> heapIndex (entry w p) = None ->
  let w1 := set_heap (heap w ++ [p]) (modify p (set_heapIndex (Some (length (heap w)))) w) in
  linked w1 /\ up_ok (length (heap w1)) (key w1) (length (heap w)) /\
  (forall i, (i < length (heap w))%nat -> key w1 i = key w i) /\ key w1 (length (heap w)) = deadline (entry w p).
Proof.
  intros Hl Ho Hn w1.
  assert (He : forall q, entry w1 q = if decide (p = q) then set_heapIndex (Some (length (heap w))) (entry w q) else entry w q).
  { intros q. unfold w1. change (entry (set_heap (heap w ++ [p]) (modify p (set_heapIndex (Some (length (heap w)))) w)) q)
      with (entry (modify p (set_heapIndex (Some (length (heap w)))) w) q). apply entry_modify. }
  assert (Hd : forall q, deadline (entry w1 q) = deadline (entry w q)) by (intros q; rewrite He; by case_decide).
  assert (Hk : forall i, (i < length (heap w))%nat -> key w1 i = key w i).
  { intros i Hi. unfold key. rewrite Hd. do 2 f_equal. unfold w1. cbn [heap set_heap].
    rewrite !list_lookup_total_alt. by rewrite lookup_app_l. }
  splits.
  - intros q i. rewrite He. unfold w1. cbn [heap set_heap]. destruct (decide (p = q)) as [<-|Hne]; simpl.
    + split.
      * intros [= <-]. by rewrite lookup_app_r, Nat.sub_diag.
      * intros [Hx|[Hge Hx]]%lookup_app_Some; [apply Hl in Hx; congruence|].
        apply list_lookup_singleton_Some in Hx as [Hx _]. f_equal. lia.
    + rewrite (Hl q i). split; [intros Hx; by apply lookup_app_l_Some|].
      intros [Hx|[_ Hx]]%lookup_app_Some; [done|]. by apply list_lookup_singleton_Some in Hx as [_ ?].
  - unfold w1 at 1. cbn [heap set_heap]. rewrite length_app. cbn [length]. split.
    + intros i Hi Hne. unfold ok_at. rewrite !Hk by (unfold par in *; lia). apply Ho. lia.
    + intros i Hi Hp _. unfold par in Hp. lia.
  - done.
  - unfold key. rewrite Hd. do 2 f_equal. unfold w1. cbn [heap set_heap]. apply lookup_total_Some.
    by rewrite lookup_app_r, Nat.sub_diag.
Qed.
End world.
