(* ===== verification/TimerSpec.v ===== *)
(** * TimerQueue: what the scheduler relies on

    Every critical section keeps the heap well formed and does to the set of
    queued entries what it says; [fireExpired] fires exactly the entries that
    are due, in deadline order; every entry that was added fires once or is
    cancelled once, in any order of critical sections. *)

From Stdlib Require Import ZArith Lia ZifyNat Sorted.
From stdpp Require Import base tactics list numbers option strings gmap sorting.
From S2P Require Import Prelude Conc TimerQueue TimerHeap.

#[local] Ltac Zify.zify_post_hook ::= Z.div_mod_to_equations.

Section spec.
Implicit Types (w : world).

(** The entries agree but for their places. *)
Definition same_entries w w' : Prop :=
  forall q, set_heapIndex None (entry w' q) = set_heapIndex None (entry w q).

Lemma same_deadline w w' q : same_entries w w' -> deadline (entry w' q) = deadline (entry w q).
Proof. intros H. specialize (H q). by destruct (entry w' q), (entry w q); injection H. Qed.
Lemma same_callback w w' q : same_entries w w' -> callback (entry w' q) = callback (entry w q).
Proof. intros H. specialize (H q). by destruct (entry w' q), (entry w q); injection H. Qed.
Lemma same_trans w1 w2 w3 : same_entries w1 w2 -> same_entries w2 w3 -> same_entries w1 w3.
Proof. intros H1 H2 q. by rewrite H2. Qed.

Lemma queued_index w p : linked w -> p ∈ heap w <-> exists i, heapIndex (entry w p) = Some i.
Proof.
  intros Hl. rewrite list_elem_of_lookup. split; intros [i Hi]; exists i; by apply Hl.
Qed.

Lemma not_queued w p : linked w -> heapIndex (entry w p) = None <-> p ∉ heap w.
Proof.
  intros Hl. rewrite (queued_index w p Hl). destruct (heapIndex (entry w p)) as [i|]; split; try done.
  - intros Hn. exfalso. eauto.
  - intros _ [i Hi]. done.
Qed.

(** Members the heap does not depend on. *)
Lemma wf_modify w p f :
  (forall e, heapIndex (f e) = heapIndex e /\ deadline (f e) = deadline e) -> wf w -> wf (modify p f w).
Proof.
  intros Hf [Hl Ho (M1 & M2 & M3)].
  assert (He : forall q, heapIndex (entry (modify p f w) q) = heapIndex (entry w q) /\
                         deadline (entry (modify p f w) q) = deadline (entry w q)).
  { intros q. rewrite entry_modify. case_decide; [apply Hf|done]. }
  constructor.
  - intros q i. rewrite (proj1 (He q)). apply Hl.
  - intros i Hi. unfold ok_at, key in *. rewrite !(proj2 (He _)). by apply Ho.
  - unfold mirrors. splits; [done| |done]. etrans; [exact M2|]. change (heap (modify p f w)) with (heap w).
    destruct (heap w); [done|]. by rewrite (proj2 (He _)).
Qed.

Lemma wf_closed b w : wf w -> wf (set_closed b w).
Proof. intros [Hl Ho Hm]. by constructor. Qed.
Lemma wf_emit ev w : wf w -> wf (emit ev w).
Proof. intros [Hl Ho Hm]. by constructor. Qed.

(** ** Adding *)

(** Only a strictly earlier entry reaches the root. *)
Lemma siftUp_go_root fuel index w :
  linked w -> (index < length (heap w))%nat -> (index < fuel)%nat -> up_ok (length (heap w)) (key w) index ->
  heap (siftUp_go fuel index w) !! 0%nat =
  if key w index <? key w 0 then heap w !! index else heap w !! 0%nat.
Proof.
  revert index w. induction fuel as [|fuel IH]; intros index w Hl Hi Hf Hup; [lia|]. cbn [siftUp_go].
  destruct (Nat.eqb_spec index 0) as [->|Hne]; [by rewrite Z.ltb_irrefl|].
  fold (par index). destruct (Z.ltb_spec (key w index) (key w (par index))); simpl.
  - assert (index <> par index /\ (par index < length (heap w))%nat /\ (par index < index)%nat) as (Hd & Hp & Hpi) by (unfold par; lia).
    rewrite IH; [|by apply linked_swapAt|by rewrite length_swapAt|lia|].
    2:{ rewrite length_swapAt. eapply up_ok_ext; [| |apply up_ok_step; [done|lia|done]]; [|done].
        intros i Hi'. symmetry. by apply key_swapAt. }
    rewrite !key_swapAt, !lookup_swapAt by lia. unfold swp.
    rewrite (proj2 (Nat.eqb_neq (par index) index)), Nat.eqb_refl by lia.
    rewrite (proj2 (Nat.eqb_neq 0 index)) by lia.
    destruct (Nat.eqb_spec 0 (par index)) as [E|]; [|done]. rewrite <- E in *. rewrite Z.ltb_irrefl.
    by rewrite (proj2 (Z.ltb_lt _ _)).
  - destruct Hup as [H1 _]. assert (key w 0 <= key w (par index)) as Hroot.
    { assert (forall i, (i < index)%nat -> key w 0 <= key w i) as Hall; [|apply Hall; unfold par; lia].
      intros i. induction i as [i IHi] using lt_wf_ind. intros Hlt.
      destruct (decide (i = 0%nat)) as [->|]; [lia|].
      transitivity (key w (par i)); [apply IHi; unfold par; lia|]. apply H1; lia. }
    by rewrite (proj2 (Z.ltb_ge _ _)) by lia.
Qed.

Lemma enqueue_ok p w :
  wf w -> p ∉ heap w ->
  let w' := enqueue p w in
  linked w' /\ ordered w' /\ mask_ok w' /\ heap w' ≡ₚ p :: heap w /\ same_entries w w' /\
  closed w' = closed w /\ events w' = events w /\
  (heap w' !! 0%nat = Some p <-> Forall (fun q => deadline (entry w p) < deadline (entry w q)) (heap w)).
Proof.
  intros [Hl Ho Hm] Hp w'. apply (not_queued w p Hl) in Hp.
  destruct (enqueue_start p w Hl Ho Hp) as (L1 & U1 & K1 & K2).
  unfold w', enqueue. cbn [heap modify set_mem].
  set (w1 := set_heap (heap w ++ [p]) (modify p (set_heapIndex (Some (length (heap w)))) w)) in *.
  assert (Hlen : length (heap w1) = S (length (heap w))) by (unfold w1; simpl; rewrite length_app; simpl; lia).
  replace (length (heap w1) - 1)%nat with (length (heap w)) by lia.
  destruct (siftUp_ok (length (heap w)) w1) as (L2 & O2 & M2); [done|lia|done|].
  assert (S1 : same_entries w w1).
  { intros q. change (entry w1 q) with (entry (modify p (set_heapIndex (Some (length (heap w)))) w) q).
    rewrite entry_modify. by case_decide. }
  pose proof M2 as [P2 S2 (C2 & Z2 & _ & A2 & B2 & E2)].
  splits; try done.
  - apply mirrors_mask in Hm. by apply (mask_ok_moved w1).
  - rewrite P2. unfold w1. simpl. by rewrite Permutation_app_comm.
  - by apply (same_trans w w1).
  - assert (Hh1 : heap w1 = heap w ++ [p]) by done. clearbody w1.
    unfold siftUp. rewrite siftUp_go_root by (done || lia). rewrite K2, Hh1, lookup_app_r, Nat.sub_diag by done.
    destruct (heap w) as [|r h] eqn:Eh.
    { cbn [length] in K2. rewrite K2, Z.ltb_irrefl. split; [by constructor|done]. }
    rewrite (K1 0%nat) by (simpl; lia). unfold key. rewrite Eh. cbn [lookup_total list_lookup_total].
    destruct (Z.ltb_spec (deadline (entry w p)) (deadline (entry w r))) as [Hlt|Hge].
    + split; [|done]. intros _.
      apply Forall_lookup. intros i q Hq. pose proof (heap_ord_root _ _ i Ho) as Hr.
      rewrite Eh in Hr. specialize (Hr (lookup_lt_Some _ _ _ Hq)). unfold key in Hr. rewrite Eh in Hr.
      rewrite (lookup_total_Some _ _ _ Hq) in Hr. change ((r :: h) !!! 0%nat) with r in Hr. lia.
    + cbn. split.
      * intros [= ->]. exfalso. apply (not_queued w p Hl) in Hp. rewrite Eh in Hp. apply Hp. left.
      * intros Hall. apply Forall_cons in Hall as [? _]. lia.
Qed.

(** Entries as they were, but for the given entry. *)
Definition others_same (p : nat) w w' : Prop :=
  forall q, q <> p -> set_heapIndex None (entry w' q) = set_heapIndex None (entry w q).

Lemma add_ok self p w :
  wf w -> p ∉ heap w ->
  wf (add self p w).1 /\ heap (add self p w).1 ≡ₚ p :: heap w /\
  others_same p w (add self p w).1 /\
  queue (entry (add self p w).1 p) = Some self /\ fired (entry (add self p w).1 p) = false /\
  ((add self p w).2 = true <-> Forall (fun q => deadline (entry w p) < deadline (entry w q)) (heap w)).
Proof.
  intros Hw Hp. unfold add. set (w1 := modify p (set_fired false) w). set (w2 := modify p (set_queue (Some self)) w1).
  assert (Hw2 : wf w2) by (apply wf_modify; [done|]; apply wf_modify; done).
  assert (He : forall q, entry w2 q = if decide (p = q) then set_queue (Some self) (set_fired false (entry w q)) else entry w q).
  { intros q. unfold w2. rewrite entry_modify. unfold w1. rewrite entry_modify. by case_decide. }
  destruct (enqueue_ok p w2 Hw2 Hp) as (L3 & O3 & M3 & H3 & S3 & _ & _ & R3).
  cbn [fst snd]. assert (Hq : forall q, set_heapIndex None (entry (publishLocked (enqueue p w2)) q) = set_heapIndex None (entry w2 q)) by exact S3.
  splits.
  - by apply wf_publish.
  - exact H3.
  - intros q Hne. by rewrite Hq, He, decide_False.
  - specialize (Hq p). rewrite He, decide_True in Hq by done. by apply (f_equal queue) in Hq.
  - specialize (Hq p). rewrite He, decide_True in Hq by done. by apply (f_equal fired) in Hq.
  - rewrite Nat.eqb_eq.
    assert (Hroot : heap (enqueue p w2) !!! 0%nat = p <-> heap (enqueue p w2) !! 0%nat = Some p).
    { split; [|apply lookup_total_Some]. intros E. rewrite lookup_lt_total, E; [done|]. rewrite H3. simpl. lia. }
    rewrite Hroot, R3. change (heap w2) with (heap w).
    assert (Hd : forall q, deadline (entry w2 q) = deadline (entry w q)) by (intros q; rewrite He; by case_decide).
    apply Forall_iff. intros q. by rewrite !Hd.
Qed.

Lemma cancel_ok p w :
  wf w ->
  if decide (p ∈ heap w)
  then (cancel p w).2 = true /\ wf (cancel p w).1 /\ heap w ≡ₚ p :: heap (cancel p w).1 /\
       same_entries w (cancel p w).1
  else cancel p w = (modify p (set_cancelled true) w, false) /\ wf (cancel p w).1.
Proof.
  intros Hw. pose proof (wf_linked _ Hw) as Hl. unfold cancel. case_decide as Hin.
  - destruct (proj1 (queued_index w p Hl) Hin) as [i Hi]. rewrite Hi. apply Hl in Hi.
    destruct (removeLocked_ok i w p Hw Hi) as [Hw' [R1 R2 R3]]. done.
  - rewrite (proj2 (not_queued w p Hl) Hin). split; [done|]. by apply wf_modify.
Qed.

(** ** Firing *)

Definition event_of (e : TimerEntry) : event :=
  match callback e with Some c => Called c (argument e) | None => Woke (token e) end.

(** [p] left the queue and is marked; the others are as they were. *)
Record fires (p : nat) w w' : Prop := {
  fi_wf : wf w';
  fi_heap : heap w ≡ₚ p :: heap w';
  fi_others : others_same p w w';
  fi_fired : fired (entry w' p) = true;
  fi_deadline : deadline (entry w' p) = deadline (entry w p);
  fi_rest : closed w' = closed w /\ events w' = events w
}.

Lemma fireLocked_ok p i w :
  wf w -> heap w !! i = Some p ->
  fires p w (fireLocked p (removeLocked i w)).1 /\ (fireLocked p (removeLocked i w)).2 = event_of (entry w p).
Proof.
  intros Hw Hi. destruct (removeLocked_ok i w p Hw Hi) as [Hw' [R1 R2 (R3 & R4 & R5)]]. split.
  - constructor; cbn [fireLocked fst].
    + by apply wf_modify.
    + done.
    + intros q Hne. by rewrite entry_modify_ne by done.
    + by rewrite entry_modify_eq.
    + rewrite entry_modify_eq. specialize (R2 p). by apply (f_equal deadline) in R2.
    + done.
  - unfold fireLocked, event_of. cbn [snd]. specialize (R2 p).
    pose proof (f_equal callback R2) as E1. pose proof (f_equal argument R2) as E2. pose proof (f_equal token R2) as E3.
    cbn in E1, E2, E3. by rewrite E1, E2, E3.
Qed.

Lemma fireOne_ok now w :
  wf w ->
  match fireOne now w with
  | (w', None) => w' = w /\ Forall (fun q => now < deadline (entry w q)) (heap w)
  | (w', Some ev) => exists p, heap w !! 0%nat = Some p /\ deadline (entry w p) <= now /\
      ev = event_of (entry w p) /\ fires p w w' /\
      Forall (fun q => deadline (entry w p) <= deadline (entry w q)) (heap w)
  end.
Proof.
  intros Hw. unfold fireOne. destruct (heap w) as [|p h] eqn:Eh; [done|].
  assert (Hmin : Forall (fun q => deadline (entry w p) <= deadline (entry w q)) (heap w)).
  { apply Forall_lookup. intros i q Hq. pose proof (heap_ord_root _ _ i (wf_ordered _ Hw) (lookup_lt_Some _ _ _ Hq)) as Hr.
    unfold key in Hr. rewrite (lookup_total_Some _ _ _ Hq) in Hr. by rewrite Eh in Hr. }
  destruct (Z.gtb_spec (deadline (entry w p)) now).
  - split; [done|]. rewrite Eh in Hmin. eapply Forall_impl; [exact Hmin|]. intros q. simpl. lia.
  - destruct (fireLocked_ok p 0 w Hw) as [HF HE]; [by rewrite Eh|].
    destruct (fireLocked p (removeLocked 0 w)) as [w' ev]. simpl in *. exists p.
    rewrite Eh in Hmin. splits; done || lia.
Qed.

(** [fs] fired, in this order. *)
Inductive fired_seq : list nat -> world -> world -> Prop :=
| fs_nil w : fired_seq [] w w
| fs_cons p fs w w1 w2 :
    fires p w w1 -> fired_seq fs (emit (event_of (entry w p)) w1) w2 -> fired_seq (p :: fs) w w2.

Lemma fires_heap_nodup p w w1 : wf w -> fires p w w1 -> p ∉ heap w1.
Proof.
  intros Hw HF. pose proof (linked_nodup w (wf_linked _ Hw)) as Hnd. rewrite (fi_heap _ _ _ HF) in Hnd.
  by apply NoDup_cons in Hnd as [? _].
Qed.

Lemma fired_seq_facts fs w w' :
  wf w -> fired_seq fs w w' ->
  wf w' /\ heap w ≡ₚ fs ++ heap w' /\ events w' = events w ++ (event_of ∘ entry w <$> fs) /\
  (forall q, q ∉ fs -> set_heapIndex None (entry w' q) = set_heapIndex None (entry w q)) /\
  (forall q, q ∈ fs -> fired (entry w' q) = true) /\ closed w' = closed w.
Proof.
  intros Hw Hs. induction Hs as [w|p fs w w1 w2 HF Hs IH].
  - splits; try done; [by rewrite app_nil_r|]. intros q Hq. by apply not_elem_of_nil in Hq.
  - pose proof HF as [W1 P1 O1 F1 D1 (C1 & E1)].
    destruct (IH (wf_emit _ _ W1)) as (W2 & P2 & E2 & S2 & F2 & C2). cbn [heap emit] in P2.
    pose proof (linked_nodup w (wf_linked _ Hw)) as Hnd. rewrite P1, P2 in Hnd.
    apply NoDup_cons in Hnd as [Hnp _]. rewrite elem_of_app in Hnp.
    assert (Hnot : p ∉ fs) by tauto. splits.
    + done.
    + by rewrite P1, P2.
    + rewrite E2. cbn [events emit]. rewrite E1, <- app_assoc. f_equal. cbn. f_equal.
      apply list_fmap_ext. intros i q Hq. unfold compose. change (entry (emit (event_of (entry w p)) w1) q) with (entry w1 q).
      assert (q <> p) as Hqp by (intros ->; apply Hnot; by eapply list_elem_of_lookup_2).
      specialize (O1 q Hqp). unfold event_of.
      pose proof (f_equal callback O1) as G1. pose proof (f_equal argument O1) as G2. pose proof (f_equal token O1) as G3.
      cbn in G1, G2, G3. by rewrite G1, G2, G3.
    + intros q Hq. rewrite not_elem_of_cons in Hq. destruct Hq as [Hqp Hqf]. rewrite S2 by done. by apply O1.
    + intros q Hq. apply elem_of_cons in Hq as [->|Hq]; [|auto]. specialize (S2 p Hnot).
      apply (f_equal fired) in S2. cbn in S2. by rewrite S2.
    + rewrite C2. exact C1.
Qed.

Lemma fires_deadline p q w w1 : fires p w w1 -> deadline (entry w1 q) = deadline (entry w q).
Proof.
  intros [_ _ O1 _ D1 _]. destruct (decide (q = p)) as [->|Hne]; [done|].
  specialize (O1 q Hne). by apply (f_equal deadline) in O1.
Qed.

Lemma run_fireExpired fuel now c w :
  wf w -> (length (heap w) < fuel)%nat ->
  exists fs w', run (fireExpired fuel now c) w = (w', Done (c + length fs)%nat) /\ fired_seq fs w w' /\
    Forall (fun p => deadline (entry w p) <= now) fs /\
    StronglySorted (fun p q => deadline (entry w p) <= deadline (entry w q)) fs /\
    Forall (fun q => now < deadline (entry w q)) (heap w').
Proof.
  revert c w. induction fuel as [|fuel IH]; intros c w Hw Hf; [lia|]. cbn [fireExpired].
  rewrite run_bind, run_rmw. pose proof (fireOne_ok now w Hw) as Hone.
  destruct (fireOne now w) as [w1 [ev|]] eqn:E1; cbn [fst snd].
  - destruct Hone as (p & Hp & Hd & -> & HF & Hmin). rewrite run_bind, run_store.
    set (w2 := emit (event_of (entry w p)) w1).
    assert (Hlen : S (length (heap w1)) = length (heap w)) by (rewrite (fi_heap _ _ _ HF); done).
    destruct (IH (c + 1)%nat w2) as (fs & w' & Hrun & Hseq & Hdue & Hsort & Hrest);
      [by apply wf_emit, (fi_wf _ _ _ HF)|simpl; lia|].
    assert (Hd2 : forall q, deadline (entry w2 q) = deadline (entry w q)) by (intros q; exact (fires_deadline p q w w1 HF)).
    exists (p :: fs), w'. splits.
    + rewrite Hrun. do 2 f_equal. simpl. lia.
    + by econstructor.
    + constructor; [done|]. eapply Forall_impl; [exact Hdue|]. intros q. simpl. by rewrite Hd2.
    + constructor.
      * clear -Hsort Hd2. induction Hsort as [|q fs _ IHs Hq]; constructor; [done|].
        eapply Forall_impl; [exact Hq|]. intros r. simpl. by rewrite !Hd2.
      * apply Forall_forall. intros q Hq. rewrite Forall_forall in Hmin. apply Hmin.
        rewrite (fi_heap _ _ _ HF). right. destruct (fired_seq_facts fs w2 w') as (_ & P2 & _);
          [by apply wf_emit, (fi_wf _ _ _ HF)|done|]. change (heap w2) with (heap w1) in P2. rewrite P2, elem_of_app. auto.
    + eapply Forall_impl; [exact Hrest|]. intros q. simpl. by rewrite Hd2.
  - destruct Hone as [-> Hlate]. exists [], w. cbn [length]. rewrite Nat.add_0_r. splits; [done|constructor|constructor|constructor|done].
Qed.

(** ** Closing *)

Lemma findCallback_spec w h i :
  (i <= findCallback w i h <= i + length h)%nat /\
  (forall p, h !! (findCallback w i h - i)%nat = Some p -> callback (entry w p) <> None) /\
  (findCallback w i h = (i + length h)%nat -> Forall (fun p => callback (entry w p) = None) h).
Proof.
  revert i. induction h as [|p h IH]; intros i; simpl; [splits; try lia; [by intros p Hp; rewrite lookup_nil in Hp|constructor]|].
  destruct (callback (entry w p)) eqn:Ec.
  - splits; try lia. rewrite Nat.sub_diag. simpl. intros q [= <-]. congruence.
  - destruct (IH (S i)) as (H1 & H2 & H3). splits; try lia.
    + intros q Hq. apply H2. by replace (findCallback w (S i) h - i)%nat with (S (findCallback w (S i) h - S i)) in Hq by lia.
    + intros E. constructor; [done|]. apply H3. lia.
Qed.

Lemma run_close fuel w :
  wf w -> (length (heap w) < fuel)%nat ->
  exists fs w', run (fireCallbacksAndClose fuel) w = (w', Done tt) /\ closed w' = true /\
    fired_seq fs (set_closed true w) w' /\
    Forall (fun p => callback (entry w p) <> None) fs /\
    Forall (fun q => callback (entry w q) = None) (heap w').
Proof.
  revert w. induction fuel as [|fuel IH]; intros w Hw Hf; [lia|]. cbn [fireCallbacksAndClose].
  rewrite run_bind, run_rmw. unfold closeOne. set (w0 := set_closed true w).
  assert (Hw0 : wf w0) by (by apply wf_closed).
  destruct (findCallback_spec w0 (heap w0) 0) as (H1 & H2 & H3).
  destruct (Nat.eqb_spec (findCallback w0 0 (heap w0)) (length (heap w0))) as [Heq|Hne]; cbn [fst snd].
  { exists [], w0. splits; [done|done|constructor|constructor|]. by apply H3. }
  set (i := findCallback w0 0 (heap w0)) in *. rewrite Nat.sub_0_r in H2.
  destruct (lookup_lt_is_Some_2 (heap w0) i ltac:(lia)) as [p Hp].
  rewrite (lookup_total_Some _ _ _ Hp). destruct (fireLocked_ok p i w0 Hw0 Hp) as [HF ->].
  destruct (fireLocked p (removeLocked i w0)) as [w1 ev]. cbn [fst] in *. rewrite run_bind, run_store.
  set (w2 := emit (event_of (entry w0 p)) w1).
  assert (Hlen : S (length (heap w1)) = length (heap w0)) by (rewrite (fi_heap _ _ _ HF); done).
  assert (Hw2 : wf w2) by (by apply wf_emit, (fi_wf _ _ _ HF)).
  assert (Hcl : set_closed true w2 = w2).
  { destruct (fi_rest _ _ _ HF) as [Hc _]. change (closed w0) with true in Hc. unfold w2, set_closed, emit. simpl. by rewrite Hc. }
  destruct (IH w2) as (fs & w' & Hrun & Hc & Hseq & Hcb & Hrest); [done|simpl; simpl in Hlen; lia|].
  rewrite Hcl in Hseq.
  assert (Hother : forall q, q <> p -> callback (entry w2 q) = callback (entry w q)).
  { intros q Hq. pose proof (fi_others _ _ _ HF q Hq) as E. by apply (f_equal callback) in E. }
  pose proof (fires_heap_nodup _ _ _ Hw0 HF) as Hnp.
  destruct (fired_seq_facts fs w2 w' Hw2 Hseq) as (_ & P2 & _). change (heap w2) with (heap w1) in P2.
  exists (p :: fs), w'. splits; [done|done|by econstructor| |].
  - constructor; [by apply H2|]. apply Forall_forall. intros q Hq. rewrite Forall_forall in Hcb.
    rewrite <- Hother; [by apply Hcb|]. intros ->. apply Hnp. rewrite P2, elem_of_app. auto.
  - apply Forall_forall. intros q Hq. rewrite Forall_forall in Hrest.
    rewrite <- Hother; [by apply Hrest|]. intros ->. apply Hnp. rewrite P2, elem_of_app. auto.
Qed.

(** ** Any order of critical sections *)

(** What a critical section did to which entry. *)
Inductive label :=
| LAdd (p : nat) | LRefuse (p : nat) | LCancel (p : nat) (was_queued : bool) | LFire (p : nat) | LOther.

(** One critical section.  An entry is added only while it is not queued: it
    lives on the stack of the task that waits for it. *)
Inductive tstep : world -> label -> world -> Prop :=
| st_add w self p : p ∉ heap w -> tstep w (LAdd p) (add self p w).1
| st_addUnless w p : p ∉ heap w ->
    tstep w (if (addUnlessCancelled p w).2 then LAdd p else LRefuse p) (addUnlessCancelled p w).1
| st_cancel w p : tstep w (LCancel p (cancel p w).2) (cancel p w).1
| st_fire w now p ev w' : heap w !! 0%nat = Some p -> fireOne now w = (w', Some ev) -> tstep w (LFire p) w'
| st_idle w now w' : fireOne now w = (w', None) -> tstep w LOther w'
| st_close w p ev w' : heap w !! findCallback w 0 (heap w) = Some p -> closeOne w = (w', Some ev) -> tstep w (LFire p) w'
| st_closed w w' : closeOne w = (w', None) -> tstep w LOther w'
| st_emit w ev : tstep w LOther (emit ev w).

Inductive tsteps : world -> list label -> world -> Prop :=
| ts_nil w : tsteps w [] w
| ts_snoc w1 tr w2 l w3 : tsteps w1 tr w2 -> tstep w2 l w3 -> tsteps w1 (tr ++ [l]) w3.

Definition is_add (p : nat) (l : label) : bool := match l with LAdd q => Nat.eqb p q | _ => false end.
Definition is_done (p : nat) (l : label) : bool :=
  match l with LFire q => Nat.eqb p q | LCancel q b => Nat.eqb p q && b | _ => false end.
Definition count (f : label -> bool) (tr : list label) : nat := length (filter f tr).
Definition queued (w : world) (p : nat) : nat := if decide (p ∈ heap w) then 1 else 0.

Lemma count_snoc f tr l : count f (tr ++ [l]) = (count f tr + if f l then 1 else 0)%nat.
Proof. unfold count. rewrite filter_app, length_app. f_equal. rewrite filter_cons. by destruct (f l). Qed.

Lemma queued_perm w w' p : heap w' ≡ₚ heap w -> queued w' p = queued w p.
Proof. intros Hp. unfold queued. apply decide_ext. by rewrite Hp. Qed.

(** How the set of queued entries changes when [p] enters or leaves. *)
Lemma queued_cons w w' p q :
  wf w' -> heap w' ≡ₚ p :: heap w -> queued w' q = (queued w q + if Nat.eqb q p then 1 else 0)%nat.
Proof.
  intros Hw Hp. pose proof (linked_nodup w' (wf_linked _ Hw)) as Hnd. rewrite Hp in Hnd. apply NoDup_cons in Hnd as [Hn _].
  unfold queued. destruct (Nat.eqb_spec q p) as [->|Hne].
  - rewrite decide_True by (rewrite Hp; left). by rewrite decide_False.
  - rewrite Nat.add_0_r. apply decide_ext. rewrite Hp, elem_of_cons. intuition.
Qed.

Lemma addUnlessCancelled_ok p w :
  wf w -> p ∉ heap w ->
  wf (addUnlessCancelled p w).1 /\
  ((addUnlessCancelled p w).2 = true <-> cancelled (entry w p) = false /\ closed w = false) /\
  (if (addUnlessCancelled p w).2 then heap (addUnlessCancelled p w).1 ≡ₚ p :: heap w else (addUnlessCancelled p w).1 = w).
Proof.
  intros Hw Hp. unfold addUnlessCancelled.
  destruct (cancelled (entry w p)) eqn:E1; [splits; [done| |done]; split; [done|by intros [? ?]]|].
  destruct (closed w) eqn:E2; [splits; [done| |done]; split; [done|by intros [? ?]]|]. cbn [orb fst snd].
  assert (Hw1 : wf (modify p (set_fired false) w)) by (by apply wf_modify).
  destruct (enqueue_ok p _ Hw1 Hp) as (L3 & O3 & M3 & H3 & _). splits; [by apply wf_publish|done|exact H3].
Qed.

Lemma findCallback_closed b w i h : findCallback (set_closed b w) i h = findCallback w i h.
Proof. revert i. induction h as [|p h IH]; intros i; simpl; [done|]. by rewrite IH. Qed.

Lemma closeOne_fires w p ev w' :
  wf w -> heap w !! findCallback w 0 (heap w) = Some p -> closeOne w = (w', Some ev) -> fires p (set_closed true w) w'.
Proof.
  intros Hw Hp Hc. unfold closeOne in Hc.
  change (heap (set_closed true w)) with (heap w) in Hc. rewrite findCallback_closed in Hc.
  case_hyp Hc; [done|]. rewrite (lookup_total_Some _ _ _ Hp) in Hc.
  destruct (fireLocked_ok p (findCallback w 0 (heap w)) (set_closed true w) (wf_closed _ _ Hw) Hp) as [HF _].
  injection Hc as <- _. exact HF.
Qed.

Lemma tstep_ok w l w' :
  wf w -> tstep w l w' ->
  wf w' /\ forall q, (queued w' q + (if is_done q l then 1 else 0) = queued w q + (if is_add q l then 1 else 0))%nat.
Proof.
  intros Hw Hs. destruct Hs as [w self p Hp|w p Hp|w p|w now p ev w' Hp Hf|w now w' Hf|w p ev w' Hp Hf|w w' Hf|w ev].
  - destruct (add_ok self p w Hw Hp) as (W & H & _). split; [done|]. intros q. simpl. rewrite (queued_cons w _ p) by done. lia.
  - destruct (addUnlessCancelled_ok p w Hw Hp) as (W & _ & H). split; [done|]. intros q.
    destruct (addUnlessCancelled p w).2; simpl; [rewrite (queued_cons w _ p) by done|rewrite H]; lia.
  - pose proof (cancel_ok p w Hw) as Hc. case_decide.
    + destruct Hc as (-> & W & H0 & _). split; [done|]. intros q. simpl.
      rewrite (queued_cons (cancel p w).1 w p) by done. destruct (Nat.eqb q p); simpl; lia.
    + destruct Hc as (-> & W). split; [done|]. intros q. cbn [snd is_done is_add]. rewrite andb_false_r. done.
  - pose proof (fireOne_ok now w Hw) as H. rewrite Hf in H. destruct H as (p' & Hp' & _ & _ & HF & _).
    assert (p' = p) as -> by congruence. split; [apply HF|]. intros q. simpl.
    rewrite (queued_cons w' w p) by (done || apply HF). lia.
  - pose proof (fireOne_ok now w Hw) as H. rewrite Hf in H. destruct H as [-> _]. split; [done|]. intros q. simpl. lia.
  - pose proof (closeOne_fires w p ev w' Hw Hp Hf) as HF. split; [apply HF|]. intros q. simpl.
    change (queued w q) with (queued (set_closed true w) q).
    rewrite (queued_cons w' (set_closed true w) p); [lia|by apply wf_closed|apply HF].
  - assert (w' = set_closed true w) as ->.
    { unfold closeOne in Hf. case_hyp Hf; [|done]. by injection Hf as <-. }
    split; [by apply wf_closed|]. intros q. simpl. change (queued (set_closed true w) q) with (queued w q). lia.
  - split; [by apply wf_emit|]. intros q. simpl. change (queued (emit ev w) q) with (queued w q). lia.
Qed.

(** ** The properties *)

(** C37: In any order of critical sections (adds of entries not queued, cancels,
    firing turns, closing), the heap stays well formed: every entry's index
    points at its place, no entry is due before its parent, and the lock-free
    mirrors agree with the heap; and each entry was added exactly as often as
    it fired, plus was cancelled in time, plus one if it is still queued. *)
Theorem timer_accounting w0 tr w p :
  wf w0 -> heap w0 = [] -> tsteps w0 tr w ->
  wf w /\ count (is_add p) tr = (count (is_done p) tr + queued w p)%nat.
Proof.
  intros Hw0 He Hs. induction Hs as [w1|w1 tr w2 l w3 Hs IH Hst].
  - split; [done|]. unfold queued. rewrite He, decide_False; [done|apply not_elem_of_nil].
  - destruct (IH Hw0 He) as [Hw2 Hc]. destruct (tstep_ok w2 l w3 Hw2 Hst) as [Hw3 Hq]. split; [done|].
    rewrite !count_snoc. specialize (Hq p). lia.
Qed.

(** [add] queues the entry and reports whether it is due strictly before every
    entry queued so far, which is when the timekeeper's sleep must shorten. *)
Theorem timer_add_earliest self p w :
  wf w -> p ∉ heap w ->
  wf (add self p w).1 /\ heap (add self p w).1 ≡ₚ p :: heap w /\
  ((add self p w).2 = true <-> Forall (fun q => deadline (entry w p) < deadline (entry w q)) (heap w)) /\
  earliestTicks (add self p w).1 =
    match heap w with [] => deadline (entry w p) | _ => Z.min (deadline (entry w p)) (earliestTicks w) end.
Proof.
  intros Hw Hp. destruct (add_ok self p w Hw Hp) as (W & H & O & _ & _ & B). splits; try done.
  pose proof (wf_mirrors _ W) as (_ & Ee & _). pose proof (wf_mirrors _ Hw) as (_ & Ew & _).
  unfold earliestTicks. rewrite Ee, Ew.
  assert (Hd : forall q, q ∈ p :: heap w -> deadline (entry (add self p w).1 q) = deadline (entry w q)).
  { intros q Hq. destruct (decide (q = p)) as [->|Hne].
    - unfold add. cbn [fst]. set (w2 := modify p (set_queue (Some self)) (modify p (set_fired false) w)).
      destruct (enqueue_ok p w2) as (_ & _ & _ & _ & S3 & _); [by do 2 (apply wf_modify; [done|])|done|].
      change (deadline (entry (enqueue p w2) p) = deadline (entry w p)). rewrite (same_deadline w2) by done.
      unfold w2. by rewrite !entry_modify_eq.
    - specialize (O q Hne). by apply (f_equal deadline) in O. }
  destruct (heap (add self p w).1) as [|r h] eqn:Er; [by apply Permutation_nil_cons in H|].
  assert (Hmin : forall q, q ∈ p :: heap w -> deadline (entry w r) <= deadline (entry w q)).
  { intros q Hq. rewrite <- (Hd q), <- (Hd r) by (done || rewrite <- H; left).
    rewrite <- H in Hq. apply list_elem_of_lookup in Hq as [i Hi].
    pose proof (heap_ord_root _ _ i (wf_ordered _ W)) as Hr. rewrite Er in Hr. specialize (Hr (lookup_lt_Some _ _ _ Hi)).
    unfold key in Hr. rewrite Er in Hr. by rewrite (lookup_total_Some _ _ _ Hi) in Hr. }
  assert (Hr : r ∈ p :: heap w) by (rewrite <- H; left). rewrite (Hd r Hr).
  pose proof (Hmin p ltac:(left)). destruct (heap w) as [|r0 h0] eqn:E0.
  - apply list_elem_of_singleton in Hr as ->. done.
  - pose proof (Hmin r0 ltac:(right; left)). apply elem_of_cons in Hr as [->|Hr]; [lia|].
    assert (deadline (entry w r0) <= deadline (entry w r)); [|lia].
    apply list_elem_of_lookup in Hr as [i Hi]. pose proof (heap_ord_root _ _ i (wf_ordered _ Hw)) as Hq.
    rewrite E0 in Hq. specialize (Hq (lookup_lt_Some _ _ _ Hi)). unfold key in Hq. rewrite E0 in Hq.
    by rewrite (lookup_total_Some _ _ _ Hi) in Hq.
Qed.

(** [cancel] returns true exactly for a queued entry, which then is the one
    entry that leaves the queue; otherwise it only marks the entry. *)
Theorem timer_cancel p w :
  wf w ->
  wf (cancel p w).1 /\
  if decide (p ∈ heap w)
  then (cancel p w).2 = true /\ heap w ≡ₚ p :: heap (cancel p w).1
  else (cancel p w).2 = false /\ heap (cancel p w).1 = heap w /\ cancelled (entry (cancel p w).1 p) = true.
Proof.
  intros Hw. pose proof (cancel_ok p w Hw) as Hc. case_decide.
  - destruct Hc as (? & ? & ? & _). done.
  - destruct Hc as (-> & ?). splits; try done. cbn [fst]. by rewrite entry_modify_eq.
Qed.

(** [fireExpired], run alone, returns (with fuel for one turn per entry and one
    more), and fires exactly the entries due at [now], in deadline order, each
    with its own wake or callback; the others stay queued. *)
Theorem timer_fireExpired fuel now w :
  wf w -> (length (heap w) < fuel)%nat ->
  exists fs w', run (fireExpired fuel now 0) w = (w', Done (length fs)) /\
    wf w' /\ heap w ≡ₚ fs ++ heap w' /\
    Forall (fun p => deadline (entry w p) <= now /\ fired (entry w' p) = true) fs /\
    Forall (fun q => now < deadline (entry w q)) (heap w') /\
    StronglySorted (fun p q => deadline (entry w p) <= deadline (entry w q)) fs /\
    events w' = events w ++ (event_of ∘ entry w <$> fs).
Proof.
  intros Hw Hf. destruct (run_fireExpired fuel now 0 w Hw Hf) as (fs & w' & Hrun & Hseq & Hdue & Hsort & Hrest).
  destruct (fired_seq_facts fs w w' Hw Hseq) as (W & P & Ev & _ & Hfired & _).
  exists fs, w'. splits; try done. rewrite Forall_forall in *. eauto.
Qed.

(** [fireCallbacksAndClose], run alone, returns, calls back every callback
    entry, keeps the tasks' entries queued and refuses callbacks from then on. *)
Theorem timer_close fuel w :
  wf w -> (length (heap w) < fuel)%nat ->
  exists fs w', run (fireCallbacksAndClose fuel) w = (w', Done tt) /\
    wf w' /\ closed w' = true /\ heap w ≡ₚ fs ++ heap w' /\
    Forall (fun p => callback (entry w p) <> None) fs /\ Forall (fun q => callback (entry w q) = None) (heap w') /\
    events w' = events w ++ (event_of ∘ entry w <$> fs).
Proof.
  intros Hw Hf. destruct (run_close fuel w Hw Hf) as (fs & w' & Hrun & Hc & Hseq & Hcb & Hrest).
  destruct (fired_seq_facts fs _ w' (wf_closed true w Hw) Hseq) as (W & P & Ev & _).
  exists fs, w'. splits; done.
Qed.
End spec.

(** ** A concrete queue: four timers, one of them a callback *)
Section witnesses.

(** A queue nothing was added to yet. *)
Lemma wf_fresh (m : gmap nat TimerEntry) b mask bit evs :
  map_Forall (fun _ e => heapIndex e = None) m ->
  match mask with Some k => Z.land k bit = 0 | None => True end ->
  wf (World m [] b 0 kNoDeadline mask bit evs).
Proof.
  intros Hm Hk. constructor.
  - intros p i. unfold entry. simpl. rewrite lookup_total_alt, lookup_nil.
    destruct (m !! p) as [e|] eqn:E; [simpl; rewrite (Hm p e E)|]; done.
  - intros i Hi. simpl in Hi. lia.
  - unfold mirrors. splits; try done; by destruct mask.
Qed.

Definition ex_mem : gmap nat TimerEntry :=
  list_to_map [(1, MkEntry 50 11 None None false None 0 false); (2, MkEntry 30 12 None None false None 0 false);
               (3, MkEntry 90 13 None None false (Some 7) 70 false); (4, MkEntry 10 14 None None false None 0 false)]%nat.
Definition ex_world : world := World ex_mem [] false 0 kNoDeadline (Some 1) 4 [].

Lemma ex_world_wf : wf ex_world.
Proof. apply wf_fresh; [apply map_Forall_to_list; vm_compute; by repeat constructor|done]. Qed.

Definition ex_three : world := (add 0 3 (add 0 2 (add 0 1 ex_world).1).1).1.

Lemma ex_three_wf : wf ex_three.
Proof.
  unfold ex_three. do 3 (apply add_ok; [|by apply (bool_decide_unpack _); vm_compute]). apply ex_world_wf.
Qed.

Lemma timer_accounting_witness :
  wf (cancel 2 ex_three).1 /\
  count (is_add 2) [LAdd 1; LAdd 2; LAdd 3; LCancel 2 true] =
    (count (is_done 2) [LAdd 1; LAdd 2; LAdd 3; LCancel 2 true] + queued (cancel 2 ex_three).1 2)%nat.
Proof.
  apply (timer_accounting ex_world [LAdd 1; LAdd 2; LAdd 3; LCancel 2 true] (cancel 2 ex_three).1 2).
  - apply ex_world_wf.
  - reflexivity.
  - apply (ts_snoc _ [LAdd 1; LAdd 2; LAdd 3] ex_three).
    + apply (ts_snoc _ [LAdd 1; LAdd 2] (add 0 2 (add 0 1 ex_world).1).1); [|constructor; by apply (bool_decide_unpack _); vm_compute].
      apply (ts_snoc _ [LAdd 1] (add 0 1 ex_world).1); [|constructor; by apply (bool_decide_unpack _); vm_compute].
      apply (ts_snoc _ [] ex_world); [constructor|constructor; by apply (bool_decide_unpack _); vm_compute].
    + apply (st_cancel ex_three 2).
Defined.

Lemma timer_add_earliest_witness :
  wf (add 0 4 ex_three).1 /\ heap (add 0 4 ex_three).1 ≡ₚ 4%nat :: heap ex_three /\
  ((add 0 4 ex_three).2 = true <-> Forall (fun q => deadline (entry ex_three 4) < deadline (entry ex_three q)) (heap ex_three)) /\
  earliestTicks (add 0 4 ex_three).1 =
    match heap ex_three with [] => deadline (entry ex_three 4) | _ => Z.min (deadline (entry ex_three 4)) (earliestTicks ex_three) end.
Proof.
  apply (timer_add_earliest 0 4 ex_three); [apply ex_three_wf|by apply (bool_decide_unpack _); vm_compute].
Defined.

Lemma timer_cancel_witness :
  wf (cancel 2 ex_three).1 /\
  if decide (2%nat ∈ heap ex_three)
  then (cancel 2 ex_three).2 = true /\ heap ex_three ≡ₚ 2%nat :: heap (cancel 2 ex_three).1
  else (cancel 2 ex_three).2 = false /\ heap (cancel 2 ex_three).1 = heap ex_three /\
       cancelled (entry (cancel 2 ex_three).1 2) = true.
Proof. apply (timer_cancel 2 ex_three). apply ex_three_wf. Defined.

Lemma timer_fireExpired_witness :
  exists fs w', run (fireExpired 4 60 0) ex_three = (w', Done (length fs)) /\
    wf w' /\ heap ex_three ≡ₚ fs ++ heap w' /\
    Forall (fun p => deadline (entry ex_three p) <= 60 /\ fired (entry w' p) = true) fs /\
    Forall (fun q => 60 < deadline (entry ex_three q)) (heap w') /\
    StronglySorted (fun p q => deadline (entry ex_three p) <= deadline (entry ex_three q)) fs /\
    events w' = events ex_three ++ (event_of ∘ entry ex_three <$> fs).
Proof. apply (timer_fireExpired 4 60 ex_three); [apply ex_three_wf|vm_compute; lia]. Defined.

Lemma timer_close_witness :
  exists fs w', run (fireCallbacksAndClose 4) ex_three = (w', Done tt) /\
    wf w' /\ closed w' = true /\ heap ex_three ≡ₚ fs ++ heap w' /\
    Forall (fun p => callback (entry ex_three p) <> None) fs /\
    Forall (fun q => callback (entry ex_three q) = None) (heap w') /\
    events w' = events ex_three ++ (event_of ∘ entry ex_three <$> fs).
Proof. apply (timer_close 4 ex_three); [apply ex_three_wf|vm_compute; lia]. Defined.
End witnesses.
