(* ===== verification/Bbq.v ===== *)
(** * queue/BbqQueue.h

    Block-based bounded queue, retry-new mode: the scheduler's injection queue.
    The ring of blocks has a producer's and a consumer's head (block index and
    round) and four cursors per block.

    Block number [b] (counting every block the producer enters) lives in
    [blocks[b mod NumBlocks]]; its cursors carry the version [1 + (b - 1) /
    NumBlocks].  Run alone, the queue is a bounded FIFO; with a machine word
    that is too narrow for its rounds it stops accepting values. *)

From Stdlib Require Import ZArith Lia.
From stdpp Require Import base tactics list numbers option strings.
From S2P Require Import Prelude Conc Cursor BwosInv.

Inductive PushStatus := PushOk | PushFull | PushBusy.
Inductive PopStatus := PopOk | PopEmpty | PopBusy.

Section BbqQueue.
Context `{SizeT} {T : Type} `{!Inhabited T} (NumBlocks BlockSize : Z).

Record Block := MkBlock {
  allocated : Z;
  committed : Z;
  reserved : Z;
  consumed : Z;
  entries : list T
}.
#[global] Instance Block_inhabited : Inhabited Block := populate (MkBlock 0 0 0 0 []).

Record bbq := MkBbq {
  producerHead : Z;
  consumerHead : Z;
  blocks : list Block
}.

Definition set_allocated (v : Z) (b : Block) : Block :=
  MkBlock v (committed b) (reserved b) (consumed b) (entries b).
Definition set_committed (v : Z) (b : Block) : Block :=
  MkBlock (allocated b) v (reserved b) (consumed b) (entries b).
Definition set_reserved (v : Z) (b : Block) : Block :=
  MkBlock (allocated b) (committed b) v (consumed b) (entries b).
Definition set_consumed (v : Z) (b : Block) : Block :=
  MkBlock (allocated b) (committed b) (reserved b) v (entries b).
Definition set_entry (i : Z) (v : T) (b : Block) : Block :=
  MkBlock (allocated b) (committed b) (reserved b) (consumed b) (<[Z.to_nat i := v]> (entries b)).

Definition blk (s : bbq) (p : nat) : Block := blocks s !!! p.
Definition upd (p : nat) (f : Block -> Block) (s : bbq) : bbq :=
  MkBbq (producerHead s) (consumerHead s) (alter f p (blocks s)).
Definition set_producerHead (v : Z) (s : bbq) : bbq := MkBbq v (consumerHead s) (blocks s).
Definition set_consumerHead (v : Z) (s : bbq) : bbq := MkBbq (producerHead s) v (blocks s).

Definition kCapacity : Z := (NumBlocks - 1) * BlockSize.

(** [using Head = PackedCursor<bitsToHold(NumBlocks - 1)>] and
    [using Cursor = PackedCursor<bitsToHold(BlockSize) + kOverflowBits>]. *)
Definition kOverflowBits : Z := 10.
Definition hbits : Z := bitsToHold (NumBlocks - 1).
Definition cbits : Z := bitsToHold BlockSize + kOverflowBits.
Definition idx (raw : Z) : Z := index cbits raw.
Definition ver (raw : Z) : Z := version cbits raw.

Definition init_block (junk : list T) (i : nat) : Block :=
  let initial := make cbits 0 (if Nat.eqb i 0 then 0 else BlockSize) in
  MkBlock initial initial initial initial junk.
Definition init (junk : list T) : bbq :=
  MkBbq 0 0 (init_block junk <$> seq 0 (Z.to_nat NumBlocks)).

Definition is_block (p : nat) : bool := Z.of_nat p <? NumBlocks.
Definition is_entry (i : Z) : bool := (0 <=? i) && (i <? BlockSize).
Definition get {X} (p : nat) (f : Block -> X) : prog bbq X :=
  check (is_block p) "blocks index" ;;; load (fun s => f (blk s p)).
Definition get_entry (p : nat) (i : Z) : prog bbq T :=
  check (is_block p && is_entry i) "entries index" ;;; load (fun s => entries (blk s p) !!! Z.to_nat i).
Definition put_entry (p : nat) (i : Z) (v : T) : prog bbq unit :=
  check (is_block p && is_entry i) "entries index" ;;; store (upd p (set_entry i v)).
(** [field.fetch_add(1)]. *)
Definition fetch_add1 (p : nat) (f : Block -> Z) (put : Z -> Block -> Block) : prog bbq Z :=
  check (is_block p) "blocks index" ;;;
  rmw (fun s => (upd p (put (f (blk s p) +w 1)) s, f (blk s p))).

(** The CAS loop of [atomicMax], from the value read last. *)
Fixpoint atomicMax_go (fuel : nat) (f : bbq -> Z) (put : Z -> bbq -> bbq) (current value : Z) : prog bbq unit :=
  match fuel with
  | O => Starved
  | S fuel =>
      if current <? value then
        w <- cas_weak f put current value ;;
        if w.1 : bool then Ret tt else atomicMax_go fuel f put w.2 value
      else Ret tt
  end.
Definition atomicMax (fuel : nat) (f : bbq -> Z) (put : Z -> bbq -> bbq) (value : Z) : prog bbq unit :=
  current <- load f ;;
  atomicMax_go fuel f put current value.

(** [blocks[head.index()]] and [blocks[(head.index() + 1) & (NumBlocks - 1)]]. *)
Definition block_of (head : Z) : nat := Z.to_nat (index hbits head).
Definition next_of (head : Z) : nat := Z.to_nat (Z.land (index hbits head +w 1) (NumBlocks - 1)).

(** [advance_phead], once the next block is known to be free. *)
Definition advance_phead (fuel : nat) (head : Z) (next : nat) : prog bbq unit :=
  let fresh := make cbits (version hbits head +w 1) 0 in
  atomicMax fuel (fun s => committed (blk s next)) (fun v => upd next (set_committed v)) fresh ;;;
  atomicMax fuel (fun s => allocated (blk s next)) (fun v => upd next (set_allocated v)) fresh ;;;
  atomicMax fuel producerHead set_producerHead (head +w 1).

Fixpoint push (fuel : nat) (value : T) : prog bbq PushStatus :=
  match fuel with
  | O => Starved
  | S fuel =>
      head <- load producerHead ;;
      let block := block_of head in
      peek <- get block allocated ;;
      slot <- (if idx peek <? BlockSize then
                 sl <- fetch_add1 block allocated set_allocated ;; Ret (Some sl)
               else Ret None) ;;
      match (match slot with Some sl => if idx sl <? BlockSize then Some sl else None | None => None end) with
      | Some sl =>
          put_entry block (idx sl) value ;;;
          fetch_add1 block committed set_committed ;;;
          Ret PushOk
      | None =>
          let next := next_of head in
          c <- get next consumed ;;
          let previousRoundLeft := (ver c =? version hbits head) && (idx c =? BlockSize) in
          let laterRound := ver c >? version hbits head in
          if negb previousRoundLeft && negb laterRound then
            r <- get next reserved ;;
            Ret (if idx r =? idx c then PushFull else PushBusy)
          else
            advance_phead fuel head next ;;; push fuel value
      end
  end.

(** The [while] loop of [pop]: [None] when the block is exhausted. *)
Fixpoint reserve_entry (fuel : nat) (block : nat) (r : Z) : prog bbq (option (PopStatus * option T)) :=
  match fuel with
  | O => Starved
  | S fuel =>
      if idx r <? BlockSize then
        c <- get block committed ;;
        if idx r =? idx c then Ret (Some (PopEmpty, None))
        else
          busy <- (if negb (idx c =? BlockSize) then
                     a <- get block allocated ;; Ret (negb (idx a =? idx c))
                   else Ret false) ;;
          if busy : bool then Ret (Some (PopBusy, None))
          else
            w <- (check (is_block block) "blocks index" ;;;
                  cas_weak (fun s => reserved (blk s block)) (fun v => upd block (set_reserved v)) r (addIndex r 1)) ;;
            if w.1 : bool then
              out <- get_entry block (idx r) ;;
              fetch_add1 block consumed set_consumed ;;;
              Ret (Some (PopOk, Some out))
            else reserve_entry fuel block w.2
      else Ret None
  end.

Definition advance_chead (fuel : nat) (head : Z) (next : nat) : prog bbq unit :=
  let fresh := make cbits (version hbits head +w 1) 0 in
  atomicMax fuel (fun s => consumed (blk s next)) (fun v => upd next (set_consumed v)) fresh ;;;
  atomicMax fuel (fun s => reserved (blk s next)) (fun v => upd next (set_reserved v)) fresh ;;;
  atomicMax fuel consumerHead set_consumerHead (head +w 1).

Fixpoint pop (fuel : nat) : prog bbq (PopStatus * option T) :=
  match fuel with
  | O => Starved
  | S fuel =>
      head <- load consumerHead ;;
      let block := block_of head in
      r <- get block reserved ;;
      e <- reserve_entry fuel block r ;;
      match e with
      | Some res => Ret res
      | None =>
          let next := next_of head in
          c <- get next committed ;;
          if negb (ver c =? version hbits head +w 1) then Ret (PopEmpty, None)
          else advance_chead fuel head next ;;; pop fuel
      end
  end.

Definition isEmptyApprox : prog bbq bool :=
  head <- load consumerHead ;;
  let block := block_of head in
  r <- get block reserved ;;
  c <- get block committed ;;
  if idx r <? BlockSize then Ret (idx r =? idx c)
  else
    let next := next_of head in
    nc <- get next committed ;;
    if negb (ver nc =? version hbits head +w 1) then Ret true
    else
      nr <- get next reserved ;;
      Ret ((ver nr =? ver nc) && (idx nr =? idx nc)).
End BbqQueue.
Arguments Block T : clear implicits.
Arguments bbq T : clear implicits.
