(* ===== verification/BbqSpec.v ===== *)
(** * BbqQueue run alone: a bounded FIFO *)

From Stdlib Require Import ZArith Lia.
From stdpp Require Import base tactics list numbers option strings.
From S2P Require Import Prelude Conc Cursor BwosInv Bbq.

Section spec.
Context `{SizeT} {T : Type} `{!Inhabited T} (N B : Z).

(** The static assertions of the class and of its cursor types. *)
Record bbq_config : Prop := {
  bc_blocks : isPowerOfTwo N = true;
  bc_two : 2 <= N < 2 ^ SIZE_BITS;
  bc_size : 1 <= B;
  bc_bits : cbits B < SIZE_BITS
}.
Context (HV : bbq_config).
Implicit Types (s : bbq T) (l : list T).

#[local] Abbreviation cur := (Cursor.cur (cbits B)).
#[local] Abbreviation vb := (version_bits (cbits B)).

(** The version of block number [b]. *)
Definition bv (b : Z) : Z := 1 + (b - 1) / N.
Definition rp (b : Z) : nat := Z.to_nat (b mod N).
Definition in_bbq (p : nat) : Prop := Z.of_nat p < N.

(** [X]: the block a side is in; [n]: how many values it has passed. *)
Definition done_in (X n b : Z) : Z := if b <? X then B else n - X * B.

Record rep0 (P C np nc : Z) s l : Prop := {
  r_heads : producerHead s = P /\ consumerHead s = C;
  r_window : 0 <= C <= P /\ P <= C + N /\ (P = C + N -> nc = (C + 1) * B);
  r_np : 0 <= np - P * B <= B;
  r_nc : 0 <= nc - C * B <= B;
  r_len : Z.of_nat (length l) = np - nc;
  r_ver : bv P < 2 ^ vb;
  r_blocks : Z.of_nat (length (blocks s)) = N;
  r_entries : forall p, in_bbq p -> Z.of_nat (length (entries (blk s p))) = B;
  r_producer : forall p, in_bbq p ->
    let b := lastb N P (Z.of_nat p) in
    committed (blk s p) = cur (bv b) (done_in P np b) /\ allocated (blk s p) = cur (bv b) (done_in P np b);
  r_consumer : forall p, in_bbq p ->
    let b := lastb N C (Z.of_nat p) in
    reserved (blk s p) = cur (bv b) (done_in C nc b) /\ consumed (blk s p) = cur (bv b) (done_in C nc b);
  r_values : forall k v, l !! k = Some v ->
    entries (blk s (rp ((nc + Z.of_nat k) / B))) !! Z.to_nat ((nc + Z.of_nat k) mod B) = Some v
}.

(** [s] holds [l]; a block the producer has entered holds a value. *)
Definition bbq_rep s l : Prop :=
  exists P C np nc, rep0 P C np nc s l /\ (P = 0 \/ P * B < np).

(** ** Arithmetic *)

Lemma bN_pos : 0 < N. Proof. pose proof (bc_two HV). lia. Qed.
Lemma bB_pos : 0 < B. Proof. pose proof (bc_size HV). lia. Qed.

Lemma hbits_pow : 0 < hbits N < SIZE_BITS /\ 2 ^ hbits N = N.
Proof.
  pose proof (bc_two HV). pose proof (isPowerOfTwo_spec N ltac:(lia) (bc_blocks HV)) as Hp.
  unfold hbits. rewrite bitsToHold_spec by lia.
  assert (1 <= Z.log2 N) by (change 1 with (Z.log2 2); apply Z.log2_le_mono; lia).
  remember (Z.log2 N) as k. assert (N = 2 * 2 ^ (k - 1)) as H2.
  { rewrite <- Z.pow_succ_r by lia. by replace (Z.succ (k - 1)) with k by lia. }
  pose proof (pow2_pos (k - 1) ltac:(lia)).
  assert (Z.log2 (N - 1) = k - 1) as ->.
  { apply Z.log2_unique; [lia|]. replace (Z.succ (k - 1)) with k by lia. rewrite <- Hp. lia. }
  replace (k - 1 + 1) with k by lia. split; [|done]. split; [lia|].
  apply (Z.pow_lt_mono_r_iff 2); pose proof SIZE_BITS_pos; lia.
Qed.

Lemma cbits_range : 0 < cbits B < SIZE_BITS.
Proof.
  split; [|apply (bc_bits HV)]. unfold cbits, kOverflowBits. pose proof (bitsToHold_pos B bB_pos). lia.
Qed.

Lemma B_fits : B + 1 < 2 ^ cbits B.
Proof.
  pose proof (bitsToHold_bound B bB_pos) as [_ Hb]. pose proof (bitsToHold_pos B bB_pos). pose proof bB_pos.
  unfold cbits, kOverflowBits. rewrite Z.pow_add_r by lia. change (2 ^ 10) with 1024. lia.
Qed.

Lemma bidx_cur v i : 0 <= i <= B -> idx B (cur v i) = i.
Proof. intros. apply index_cur; [apply cbits_range|]. pose proof B_fits. lia. Qed.
Lemma bver_cur v i : 0 <= i <= B -> ver B (cur v i) = v.
Proof. intros. apply version_cur; [apply cbits_range|]. pose proof B_fits. lia. Qed.

(** The raw head is the block number. *)
Lemma head_block P : block_of N P = rp P.
Proof.
  unfold block_of, rp. destruct hbits_pow as [H0 Hp]. unfold index. rewrite kIndexMask_eq by lia.
  by rewrite land_pow2_mask, Hp by lia.
Qed.
Lemma head_version P : version (hbits N) P = P / N.
Proof. destruct hbits_pow as [H0 Hp]. unfold version. by rewrite Z.shiftr_div_pow2, Hp by lia. Qed.
Lemma head_next P : next_of N P = rp (P + 1).
Proof.
  unfold next_of, rp. destruct hbits_pow as [H0 Hp]. unfold index. rewrite kIndexMask_eq, land_pow2_mask, Hp by lia.
  pose proof (bc_two HV). pose proof (Z.mod_pos_bound P N bN_pos).
  rewrite <- Hp at 2. rewrite land_pow2_mask by lia. rewrite Hp. f_equal.
  rewrite <- Hp. unfold szwrap. rewrite wrap_mod_pow2 by lia. rewrite Hp. apply Zplus_mod_idemp_l.
Qed.

Lemma rp_in b : in_bbq (rp b).
Proof. unfold in_bbq, rp. pose proof (Z.mod_pos_bound b N bN_pos). lia. Qed.
Lemma rp_Z b : Z.of_nat (rp b) = b mod N.
Proof. unfold rp. pose proof (Z.mod_pos_bound b N bN_pos). lia. Qed.
Lemma lastb_rp X b : X - N < b <= X -> lastb N X (Z.of_nat (rp b)) = b.
Proof. intros. rewrite rp_Z. by apply lastb_unique; [apply bN_pos|]. Qed.
Lemma lastb_rp_next X : lastb N X (Z.of_nat (rp (X + 1))) = X + 1 - N.
Proof. rewrite rp_Z. apply lastb_next, bN_pos. Qed.
Lemma rp_lastb X p : in_bbq p -> rp (lastb N X (Z.of_nat p)) = p.
Proof. intros Hp. red in Hp. unfold rp. rewrite lastb_mod by (apply bN_pos || lia). lia. Qed.

Lemma bv_sub b : bv (b - N) = bv b - 1.
Proof. unfold bv. replace (b - N - 1) with (b - 1 + (-1) * N) by lia. rewrite Z.div_add by (pose proof bN_pos; lia). lia. Qed.
Lemma bv_succ P : bv (P + 1) = P / N + 1.
Proof. unfold bv. replace (P + 1 - 1) with P by lia. lia. Qed.
Lemma bv_mono a b : a <= b -> bv a <= bv b.
Proof. intros. unfold bv. pose proof (Z.div_le_mono (a - 1) (b - 1) N bN_pos). lia. Qed.
Lemma bv_zero b : - N < b <= 0 -> bv b = 0.
Proof. intros. unfold bv. rewrite <- (Z.div_unique (b - 1) N (-1) (b - 1 + N)); lia. Qed.
Lemma bv_step b : bv (b + 1) <= bv b + 1.
Proof.
  pose proof (bc_two HV). pose proof (bv_mono (b + 1) (b + N) ltac:(lia)). pose proof (bv_sub (b + N)) as Hs.
  replace (b + N - N) with b in Hs by lia. lia.
Qed.
Lemma bv_nonneg b : - N < b -> 0 <= bv b.
Proof.
  intros. pose proof (bv_mono (- N + 1) b ltac:(lia)) as Hm. unfold bv in Hm at 1.
  replace (- N + 1 - 1) with ((-1) * N) in Hm by lia. rewrite Z.div_mul in Hm by (pose proof bN_pos; lia). lia.
Qed.

Lemma lastb_succ_case X p :
  in_bbq p -> lastb N (X + 1) (Z.of_nat p) = if decide (p = rp (X + 1)) then X + 1 else lastb N X (Z.of_nat p).
Proof.
  intros Hp. case_decide as Hd.
  - subst p. rewrite rp_Z. apply lastb_succ_eq, bN_pos.
  - red in Hp. apply lastb_succ_ne; [apply bN_pos|lia|]. intros Heq. apply Hd. unfold rp. rewrite <- Heq. lia.
Qed.

(** ** Accesses run alone *)

Lemma bblk_upd_eq p f s : (p < length (blocks s))%nat -> blk (upd p f s) p = f (blk s p).
Proof.
  intros. unfold blk, upd. simpl. rewrite !list_lookup_total_alt, list_lookup_alter_eq.
  destruct (lookup_lt_is_Some_2 (blocks s) p) as [b ->]; done.
Qed.
Lemma bblk_upd_ne p q f s : p <> q -> blk (upd p f s) q = blk s q.
Proof. intros. unfold blk, upd. simpl. by rewrite !list_lookup_total_alt, list_lookup_alter_ne. Qed.

Lemma bis_block p : in_bbq p -> is_block N p = true.
Proof. intros. unfold is_block. by apply Z.ltb_lt. Qed.
Lemma run_bget {X} p (f : Block T -> X) s : in_bbq p -> run (get N p f) s = (s, Done (f (blk s p))).
Proof. intros. unfold get. rewrite run_bind, run_check by (by apply bis_block). done. Qed.
Lemma run_fetch_add1 p f put s :
  in_bbq p -> run (fetch_add1 N p f put) s = (upd p (put (f (blk s p) +w 1)) s, Done (f (blk s p))).
Proof. intros. unfold fetch_add1. rewrite run_bind, run_check by (by apply bis_block). done. Qed.
Lemma run_bput_entry p i v s :
  in_bbq p -> 0 <= i < B -> run (put_entry N B p i v) s = (upd p (set_entry i v) s, Done tt).
Proof.
  intros. unfold put_entry. rewrite run_bind, run_check; [done|]. rewrite bis_block by done.
  unfold is_entry. apply andb_true_intro. lia.
Qed.
Lemma run_bget_entry p i s :
  in_bbq p -> 0 <= i < B -> run (get_entry N B p i) s = (s, Done (entries (blk s p) !!! Z.to_nat i)).
Proof.
  intros. unfold get_entry. rewrite run_bind, run_check; [done|]. rewrite bis_block by done.
  unfold is_entry. apply andb_true_intro. lia.
Qed.
Lemma run_atomicMax fuel (f : bbq T -> Z) put v s :
  f s < v -> run (atomicMax (S fuel) f put v) s = (put v s, Done tt).
Proof.
  intros Hlt. unfold atomicMax. rewrite run_bind, run_load. cbn [atomicMax_go].
  rewrite (proj2 (Z.ltb_lt _ _)) by done. rewrite run_bind, run_cas_weak_eq by done. done.
Qed.

(** ** push *)

(** Blocks between the consumer and the producer have places of their own. *)
Lemma live_place P C np nc s l b :
  rep0 P C np nc s l -> nc / B <= b < P -> rp b <> rp P.
Proof.
  intros Hr Hb Heq. pose proof (r_window _ _ _ _ _ _ Hr) as (Hw & HN & Hf). pose proof (r_nc _ _ _ _ _ _ Hr).
  pose proof bB_pos. pose proof bN_pos.
  assert (C <= nc / B) by (apply Z.div_le_lower_bound; lia).
  apply (f_equal Z.of_nat) in Heq. rewrite !rp_Z in Heq.
  destruct (decide (P = C + N)) as [E|].
  - rewrite (Hf E), Z.div_mul in Hb by lia. apply (mod_eq_close N) in Heq; lia.
  - apply (mod_eq_close N) in Heq; lia.
Qed.

Lemma pos_place nc k : 0 <= nc -> (nc + Z.of_nat k) = ((nc + Z.of_nat k) / B) * B + (nc + Z.of_nat k) mod B /\
  0 <= (nc + Z.of_nat k) mod B < B /\ nc / B <= (nc + Z.of_nat k) / B.
Proof.
  intros Hn. pose proof bB_pos. pose proof (Z.div_mod (nc + Z.of_nat k) B ltac:(lia)).
  pose proof (Z.mod_pos_bound (nc + Z.of_nat k) B ltac:(lia)). pose proof (Z.div_le_mono nc (nc + Z.of_nat k) B ltac:(lia) ltac:(lia)). lia.
Qed.

Definition pushed_at (P c : Z) (v : T) s : bbq T :=
  upd (rp P) (set_committed (cur (bv P) (c + 1))) (upd (rp P) (set_entry c v) (upd (rp P) (set_allocated (cur (bv P) (c + 1))) s)).

Lemma blk_pushed_at P c v s q :
  Z.of_nat (length (blocks s)) = N ->
  blk (pushed_at P c v s) q =
  if decide (q = rp P) then set_committed (cur (bv P) (c + 1)) (set_entry c v (set_allocated (cur (bv P) (c + 1)) (blk s q)))
  else blk s q.
Proof.
  intros HL. pose proof (rp_in P) as Hp. red in Hp. unfold pushed_at. case_decide as Hd.
  - subst q. rewrite !bblk_upd_eq; [done|..]; unfold upd; simpl; rewrite ?length_alter; lia.
  - by rewrite !bblk_upd_ne.
Qed.

Lemma rep0_push P C np nc s l v :
  rep0 P C np nc s l -> np - P * B < B -> rep0 P C (np + 1) nc (pushed_at P (np - P * B) v s) (l ++ [v]).
Proof.
  intros Hr Hlt. pose proof (r_window _ _ _ _ _ _ Hr) as Hw. pose proof (r_np _ _ _ _ _ _ Hr) as Hnp.
  pose proof (r_nc _ _ _ _ _ _ Hr) as Hnc. pose proof (r_len _ _ _ _ _ _ Hr) as Hlen.
  pose proof (r_blocks _ _ _ _ _ _ Hr) as HL. pose proof bN_pos. pose proof bB_pos.
  pose proof (fun q => blk_pushed_at P (np - P * B) v s q HL) as Hblk.
  constructor; try apply Hr; try lia.
  - rewrite length_app. simpl. lia.
  - unfold pushed_at, upd. simpl. by rewrite !length_alter.
  - intros p Hp. rewrite Hblk. case_decide; simpl; rewrite ?length_insert; by apply Hr.
  - intros p Hp b. pose proof (r_producer _ _ _ _ _ _ Hr p Hp) as Hb. fold b in Hb. cbv zeta in Hb.
    pose proof (lastb_range N bN_pos P (Z.of_nat p)) as Hrange. fold b in Hrange.
    rewrite Hblk. unfold done_in in *. case_decide as Hd; simpl.
    + subst p. unfold b. rewrite lastb_rp by lia. rewrite Z.ltb_irrefl.
      by replace (np + 1 - P * B) with (np - P * B + 1) by lia.
    + destruct (Z.ltb_spec b P); [done|]. exfalso. apply Hd.
      assert (b = P) as Hbp by lia. rewrite <- Hbp. symmetry. by apply rp_lastb.
  - intros p Hp b. pose proof (r_consumer _ _ _ _ _ _ Hr p Hp) as Hb. rewrite Hblk. by case_decide.
  - intros k w Hk. rewrite Hblk. destruct (pos_place nc k ltac:(lia)) as (E1 & E2 & E3).
    apply lookup_app_Some in Hk as [Hk|[Hge Hk]].
    + pose proof (lookup_lt_Some _ _ _ Hk). pose proof (r_values _ _ _ _ _ _ Hr k w Hk) as Hv.
      case_decide as Hd; simpl; [|done]. rewrite list_lookup_insert_ne; [done|].
      assert ((nc + Z.of_nat k) / B < P + 1) by (apply Z.div_lt_upper_bound; lia).
      destruct (decide ((nc + Z.of_nat k) / B = P)) as [Eq|Hne]; [rewrite Eq in E1; lia|].
      exfalso. by apply (live_place P C np nc s l ((nc + Z.of_nat k) / B)); [done|lia|].
    + apply list_lookup_singleton_Some in Hk as [Hk ->].
      assert (nc + Z.of_nat k = np) as Ep by lia. rewrite Ep in *.
      assert (np / B = P) as EP by (symmetry; apply (Z.div_unique _ _ _ (np - P * B)); lia).
      assert (np mod B = np - P * B) as EM by lia. rewrite EP, EM. rewrite decide_True by done. simpl.
      apply list_lookup_insert_eq. pose proof (r_entries _ _ _ _ _ _ Hr (rp P) (rp_in P)). lia.
Qed.

(** The producer may enter the next block. *)
Definition free_next (P C nc : Z) : Prop := P + 1 - N < C \/ (P + 1 - N = C /\ nc = (C + 1) * B).

(** Room for one more block number in the heads and the cursors. *)
Definition rounds_left (head : Z) : Prop := head / N + 1 < 2 ^ vb /\ head + 1 < 2 ^ SIZE_BITS.

Lemma ver_word_bbq v : 0 <= v < 2 ^ vb -> szwrap v = v /\ make (cbits B) v 0 = cur v 0.
Proof.
  intros Hv. pose proof cbits_range. pose proof B_fits. pose proof bB_pos. split.
  - apply szwrap_small. assert (2 ^ vb < 2 ^ SIZE_BITS); [|lia]. apply Z.pow_lt_mono_r; unfold version_bits; lia.
  - apply make_small; [done|]. split; lia.
Qed.

Definition entered (P : Z) s : bbq T :=
  set_producerHead (P + 1) (upd (rp (P + 1)) (set_allocated (cur (bv (P + 1)) 0))
    (upd (rp (P + 1)) (set_committed (cur (bv (P + 1)) 0)) s)).

Lemma blk_set_producerHead v s q : blk (set_producerHead v s) q = blk s q.
Proof. done. Qed.

Lemma blk_entered P s q :
  Z.of_nat (length (blocks s)) = N ->
  blk (entered P s) q =
  if decide (q = rp (P + 1)) then set_allocated (cur (bv (P + 1)) 0) (set_committed (cur (bv (P + 1)) 0) (blk s q)) else blk s q.
Proof.
  intros HL. pose proof (rp_in (P + 1)) as Hp. red in Hp. unfold entered. rewrite blk_set_producerHead. case_decide as Hd.
  - subst q. rewrite !bblk_upd_eq; [done|..]; unfold upd; simpl; rewrite ?length_alter; lia.
  - by rewrite !bblk_upd_ne.
Qed.

Lemma run_advance_phead P C np nc s l fuel :
  rep0 P C np nc s l -> np = (P + 1) * B -> rounds_left P ->
  run (advance_phead N B (S fuel) P (rp (P + 1))) s = (entered P s, Done tt).
Proof.
  intros Hr Hnp [Hv Hw]. pose proof (r_window _ _ _ _ _ _ Hr) as HW. pose proof bN_pos. pose proof bB_pos.
  pose proof (r_producer _ _ _ _ _ _ Hr _ (rp_in (P + 1))) as [Hc Ha].
  rewrite lastb_rp_next, bv_sub, bv_succ in Hc, Ha. unfold done_in in Hc, Ha.
  rewrite (proj2 (Z.ltb_lt (P + 1 - N) P)) in Hc, Ha by (pose proof (bc_two HV); lia).
  unfold advance_phead. rewrite head_version.
  assert (0 <= P / N) by (apply Z.div_pos; lia). pose proof B_fits.
  destruct (ver_word_bbq (P / N + 1) ltac:(lia)) as [-> ->]. rewrite <- bv_succ.
  pose proof (r_blocks _ _ _ _ _ _ Hr). pose proof (rp_in (P + 1)) as Hp. red in Hp.
  rewrite run_bind, run_atomicMax by (rewrite Hc, bv_succ; unfold Cursor.cur; nia).
  rewrite run_bind, run_atomicMax by (rewrite bblk_upd_eq by lia; simpl; rewrite Ha, bv_succ; unfold Cursor.cur; nia).
  rewrite szwrap_small by lia.
  rewrite run_atomicMax by (simpl; destruct (r_heads _ _ _ _ _ _ Hr) as [-> _]; lia). done.
Qed.

Lemma rep0_enter P C np nc s l :
  rep0 P C np nc s l -> np = (P + 1) * B -> free_next P C nc -> rounds_left P ->
  rep0 (P + 1) C np nc (entered P s) l.
Proof.
  intros Hr Hnp Hfree [Hv _]. pose proof (r_window _ _ _ _ _ _ Hr) as Hw.
  pose proof (r_nc _ _ _ _ _ _ Hr) as Hnc. pose proof (r_blocks _ _ _ _ _ _ Hr) as HL.
  pose proof bN_pos. pose proof bB_pos. pose proof (fun q => blk_entered P s q HL) as Hblk.
  constructor; try apply Hr; try lia.
  - split; [done|apply Hr].
  - destruct Hfree as [?|[? ?]]; splits; lia || (intros; lia).
  - rewrite bv_succ. lia.
  - unfold entered, upd. simpl. by rewrite !length_alter.
  - intros p Hp. rewrite Hblk. case_decide; simpl; by apply Hr.
  - intros p Hp b. pose proof (r_producer _ _ _ _ _ _ Hr p Hp) as Hb. cbv zeta in Hb.
    pose proof (lastb_range N bN_pos P (Z.of_nat p)) as Hrange.
    unfold b. rewrite lastb_succ_case by done. rewrite Hblk. unfold done_in in *. case_decide as Hd; simpl.
    + rewrite Z.ltb_irrefl. replace (np - (P + 1) * B) with 0 by lia. done.
    + rewrite (proj2 (Z.ltb_lt (lastb N P (Z.of_nat p)) (P + 1))) by lia.
      destruct (Z.ltb_spec (lastb N P (Z.of_nat p)) P); [done|]. by replace (np - P * B) with B in Hb by lia.
  - intros p Hp b. pose proof (r_consumer _ _ _ _ _ _ Hr p Hp) as Hb. rewrite Hblk. by case_decide.
  - intros k w Hk. rewrite Hblk. pose proof (r_values _ _ _ _ _ _ Hr k w Hk). by case_decide.
Qed.

Lemma run_push_here P C np nc s l v fuel :
  rep0 P C np nc s l -> np - P * B < B ->
  run (push N B (S fuel) v) s = (pushed_at P (np - P * B) v s, Done PushOk).
Proof.
  intros Hr Hlt. pose proof (r_np _ _ _ _ _ _ Hr) as Hnp. pose proof bN_pos. pose proof B_fits. pose proof cbits_range.
  pose proof (r_window _ _ _ _ _ _ Hr) as Hw. pose proof (r_ver _ _ _ _ _ _ Hr) as Hv.
  pose proof (bv_nonneg P ltac:(lia)) as Hv0. pose proof (r_blocks _ _ _ _ _ _ Hr) as HL.
  pose proof (rp_in P) as Hp. pose proof Hp as Hp'. red in Hp'.
  pose proof (r_producer _ _ _ _ _ _ Hr _ Hp) as [Hc Ha].
  rewrite lastb_rp in Hc, Ha by lia. unfold done_in in Hc, Ha. rewrite Z.ltb_irrefl in Hc, Ha.
  assert (Hadd : cur (bv P) (np - P * B) +w 1 = cur (bv P) (np - P * B + 1)).
  { apply (addIndex_cur (cbits B)); [done|split; lia|lia|lia]. }
  cbn [push]. rewrite run_bind, run_load. destruct (r_heads _ _ _ _ _ _ Hr) as [-> _]. rewrite head_block.
  rewrite run_bind, run_bget by done. rewrite Ha, bidx_cur by lia. rewrite (proj2 (Z.ltb_lt _ _)) by lia.
  rewrite run_bind, run_bind, run_fetch_add1 by done. rewrite Ha, Hadd. rewrite run_ret. rewrite bidx_cur by lia.
  rewrite (proj2 (Z.ltb_lt _ _)) by lia. cbn iota. rewrite bidx_cur by lia. rewrite run_bind, run_bput_entry by (done || lia).
  rewrite run_bind, run_fetch_add1 by done. rewrite run_ret.
  rewrite !bblk_upd_eq by (unfold upd; simpl; rewrite ?length_alter; lia). simpl. by rewrite Hc, Hadd.
Qed.

(** What the producer reads of the next block. *)
Lemma next_status P C np nc s l :
  rep0 P C np nc s l ->
  exists v i, consumed (blk s (rp (P + 1))) = cur v i /\ reserved (blk s (rp (P + 1))) = cur v i /\ 0 <= i <= B /\
    v <= P / N /\ ((v =? P / N) && (i =? B) = true <-> free_next P C nc).
Proof.
  intros Hr. pose proof bN_pos. pose proof bB_pos. pose proof (r_window _ _ _ _ _ _ Hr) as Hw.
  pose proof (r_nc _ _ _ _ _ _ Hr) as Hnc. pose proof (r_consumer _ _ _ _ _ _ Hr _ (rp_in (P + 1))) as [Hre Hco].
  assert (Hlast : lastb N C (Z.of_nat (rp (P + 1))) = if decide (P = C + N) then P + 1 - 2 * N else P + 1 - N).
  { rewrite rp_Z. case_decide as Hd.
    - replace ((P + 1) mod N) with ((P + 1 - 2 * N) mod N); [apply lastb_unique; lia|].
      rewrite <- (Z_mod_plus_full (P + 1 - 2 * N) 2 N). f_equal. lia.
    - replace ((P + 1) mod N) with ((P + 1 - N) mod N); [apply lastb_unique; lia|].
      rewrite <- (Z_mod_plus_full (P + 1 - N) 1 N). f_equal. lia. }
  rewrite Hlast in Hco, Hre. eexists _, _. split; [exact Hco|]. split; [exact Hre|]. unfold free_next, done_in.
  rewrite andb_true_iff, !Z.eqb_eq.
  case_decide as Hd.
  - replace (P + 1 - 2 * N) with (P + 1 - N - N) by lia. rewrite !bv_sub, bv_succ.
    split; [zcase; lia|]. split; [lia|]. split; [lia|]. intros [?|[? ?]]; lia.
  - rewrite bv_sub, bv_succ. split; [zcase; lia|]. split; [lia|]. zcase; split; intros Hx; lia.
Qed.

(** A block that is full: the answer depends on the next block. *)
Lemma run_push_next P C np nc s l v fuel :
  rep0 P C np nc s l -> np = (P + 1) * B ->
  (free_next P C nc /\
   run (push N B (S fuel) v) s = run (advance_phead N B fuel P (rp (P + 1)) ;;; push N B fuel v) s) \/
  (~ free_next P C nc /\ run (push N B (S fuel) v) s = (s, Done PushFull)).
Proof.
  intros Hr Hnp. pose proof bN_pos. pose proof bB_pos. pose proof (r_window _ _ _ _ _ _ Hr) as Hw.
  pose proof (rp_in P) as Hp. pose proof (rp_in (P + 1)) as Hq.
  pose proof (r_producer _ _ _ _ _ _ Hr _ Hp) as [_ Ha].
  rewrite lastb_rp in Ha by lia. unfold done_in in Ha. rewrite Z.ltb_irrefl in Ha.
  destruct (next_status P C np nc s l Hr) as (cv & ci & Hco & Hre & Hi & Hv & Hfree).
  assert (Hrun : run (push N B (S fuel) v) s =
    if (cv =? P / N) && (ci =? B) then run (advance_phead N B fuel P (rp (P + 1)) ;;; push N B fuel v) s
    else (s, Done PushFull)).
  { cbn [push]. rewrite run_bind, run_load. destruct (r_heads _ _ _ _ _ _ Hr) as [-> _]. rewrite head_block.
    rewrite run_bind, run_bget by done. rewrite Ha, bidx_cur by lia.
    rewrite (proj2 (Z.ltb_ge _ _)) by lia. rewrite run_bind, run_ret, head_next, head_version.
    rewrite run_bind, run_bget by done. rewrite Hco, bidx_cur, bver_cur by done.
    rewrite Z.gtb_ltb, (proj2 (Z.ltb_ge _ _)) by lia. cbn [negb]. rewrite andb_true_r.
    destruct ((cv =? P / N) && (ci =? B)); cbn [negb]; [done|].
    rewrite run_bind, run_bget by done. rewrite Hre, bidx_cur, Z.eqb_refl by done. done. }
  destruct ((cv =? P / N) && (ci =? B)); [left; split; [by apply Hfree|done]|right; split; [|done]].
  intros Hf. by apply Hfree in Hf.
Qed.

(** ** pop *)

Definition popped_at (C r : Z) s : bbq T :=
  upd (rp C) (set_consumed (cur (bv C) (r + 1))) (upd (rp C) (set_reserved (cur (bv C) (r + 1))) s).

Lemma blk_popped_at C r s q :
  Z.of_nat (length (blocks s)) = N ->
  blk (popped_at C r s) q =
  if decide (q = rp C) then set_consumed (cur (bv C) (r + 1)) (set_reserved (cur (bv C) (r + 1)) (blk s q)) else blk s q.
Proof.
  intros HL. pose proof (rp_in C) as Hp. red in Hp. unfold popped_at. case_decide as Hd.
  - subst q. rewrite !bblk_upd_eq; [done|..]; unfold upd; simpl; rewrite ?length_alter; lia.
  - by rewrite !bblk_upd_ne.
Qed.

Lemma rep0_pop P C np nc s x l :
  rep0 P C np nc s (x :: l) -> nc - C * B < B -> rep0 P C np (nc + 1) (popped_at C (nc - C * B) s) l.
Proof.
  intros Hr Hlt. pose proof (r_window _ _ _ _ _ _ Hr) as Hw. pose proof (r_np _ _ _ _ _ _ Hr) as Hnp.
  pose proof (r_nc _ _ _ _ _ _ Hr) as Hnc. pose proof (r_len _ _ _ _ _ _ Hr) as Hlen. simpl in Hlen.
  pose proof (r_blocks _ _ _ _ _ _ Hr) as HL. pose proof bN_pos. pose proof bB_pos.
  pose proof (fun q => blk_popped_at C (nc - C * B) s q HL) as Hblk.
  constructor; try apply Hr; try lia.
  - unfold popped_at, upd. simpl. by rewrite !length_alter.
  - intros p Hp. rewrite Hblk. case_decide; simpl; by apply Hr.
  - intros p Hp b. pose proof (r_producer _ _ _ _ _ _ Hr p Hp) as Hb. rewrite Hblk. by case_decide.
  - intros p Hp b. pose proof (r_consumer _ _ _ _ _ _ Hr p Hp) as Hb. fold b in Hb. cbv zeta in Hb.
    pose proof (lastb_range N bN_pos C (Z.of_nat p)) as Hrange. fold b in Hrange.
    rewrite Hblk. unfold done_in in *. case_decide as Hd; simpl.
    + subst p. unfold b. rewrite lastb_rp by lia. rewrite Z.ltb_irrefl.
      by replace (nc + 1 - C * B) with (nc - C * B + 1) by lia.
    + destruct (Z.ltb_spec b C); [done|]. exfalso. apply Hd.
      assert (b = C) as Hbp by lia. rewrite <- Hbp. symmetry. by apply rp_lastb.
  - intros k w Hk. rewrite Hblk. pose proof (r_values _ _ _ _ _ _ Hr (S k) w Hk) as Hv.
    replace (nc + Z.of_nat (S k)) with (nc + 1 + Z.of_nat k) in Hv by lia. by case_decide.
Qed.

Definition left_at (C : Z) s : bbq T :=
  set_consumerHead (C + 1) (upd (rp (C + 1)) (set_reserved (cur (bv (C + 1)) 0))
    (upd (rp (C + 1)) (set_consumed (cur (bv (C + 1)) 0)) s)).

Lemma blk_set_consumerHead v s q : blk (set_consumerHead v s) q = blk s q.
Proof. done. Qed.

Lemma blk_left_at C s q :
  Z.of_nat (length (blocks s)) = N ->
  blk (left_at C s) q =
  if decide (q = rp (C + 1)) then set_reserved (cur (bv (C + 1)) 0) (set_consumed (cur (bv (C + 1)) 0) (blk s q)) else blk s q.
Proof.
  intros HL. pose proof (rp_in (C + 1)) as Hp. red in Hp. unfold left_at. rewrite blk_set_consumerHead. case_decide as Hd.
  - subst q. rewrite !bblk_upd_eq; [done|..]; unfold upd; simpl; rewrite ?length_alter; lia.
  - by rewrite !bblk_upd_ne.
Qed.

Lemma rep0_leave P C np nc s l :
  rep0 P C np nc s l -> nc = (C + 1) * B -> C < P -> rep0 P (C + 1) np nc (left_at C s) l.
Proof.
  intros Hr Hnc HCP. pose proof (r_window _ _ _ _ _ _ Hr) as Hw. pose proof (r_blocks _ _ _ _ _ _ Hr) as HL.
  pose proof bN_pos. pose proof bB_pos. pose proof (fun q => blk_left_at C s q HL) as Hblk.
  constructor; try apply Hr; try lia.
  - split; [apply Hr|done].
  - unfold left_at, upd. simpl. by rewrite !length_alter.
  - intros p Hp. rewrite Hblk. case_decide; simpl; by apply Hr.
  - intros p Hp b. pose proof (r_producer _ _ _ _ _ _ Hr p Hp) as Hb. rewrite Hblk. by case_decide.
  - intros p Hp b. pose proof (r_consumer _ _ _ _ _ _ Hr p Hp) as Hb. cbv zeta in Hb.
    pose proof (lastb_range N bN_pos C (Z.of_nat p)) as Hrange.
    unfold b. rewrite lastb_succ_case by done. rewrite Hblk. unfold done_in in *. case_decide as Hd; simpl.
    + rewrite Z.ltb_irrefl. replace (nc - (C + 1) * B) with 0 by lia. done.
    + rewrite (proj2 (Z.ltb_lt (lastb N C (Z.of_nat p)) (C + 1))) by lia.
      destruct (Z.ltb_spec (lastb N C (Z.of_nat p)) C); [done|]. by replace (nc - C * B) with B in Hb by lia.
  - intros k w Hk. rewrite Hblk. pose proof (r_values _ _ _ _ _ _ Hr k w Hk). by case_decide.
Qed.

Lemma run_advance_chead P C np nc s l fuel :
  rep0 P C np nc s l -> nc = (C + 1) * B -> C < P -> P + 1 < 2 ^ SIZE_BITS ->
  run (advance_chead N B (S fuel) C (rp (C + 1))) s = (left_at C s, Done tt).
Proof.
  intros Hr Hnc HCP HW. pose proof (r_window _ _ _ _ _ _ Hr) as Hw. pose proof bN_pos. pose proof bB_pos. pose proof B_fits.
  pose proof (r_consumer _ _ _ _ _ _ Hr _ (rp_in (C + 1))) as [Hre Hco].
  rewrite lastb_rp_next, bv_sub, bv_succ in Hre, Hco. unfold done_in in Hre, Hco.
  rewrite (proj2 (Z.ltb_lt (C + 1 - N) C)) in Hre, Hco by (pose proof (bc_two HV); lia).
  unfold advance_chead. rewrite head_version.
  assert (0 <= C / N) by (apply Z.div_pos; lia).
  assert (C / N + 1 < 2 ^ vb).
  { rewrite <- bv_succ. pose proof (bv_mono (C + 1) P ltac:(lia)). pose proof (r_ver _ _ _ _ _ _ Hr). lia. }
  destruct (ver_word_bbq (C / N + 1) ltac:(lia)) as [-> ->]. rewrite <- bv_succ.
  pose proof (r_blocks _ _ _ _ _ _ Hr). pose proof (rp_in (C + 1)) as Hp. red in Hp.
  rewrite run_bind, run_atomicMax by (rewrite Hco, bv_succ; unfold Cursor.cur; nia).
  rewrite run_bind, run_atomicMax by (rewrite bblk_upd_eq by lia; simpl; rewrite Hre, bv_succ; unfold Cursor.cur; nia).
  rewrite szwrap_small by lia.
  rewrite run_atomicMax by (simpl; destruct (r_heads _ _ _ _ _ _ Hr) as [_ ->]; lia). done.
Qed.

(** The committed count the consumer reads in its own block. *)
Lemma consumer_block P C np nc s l :
  rep0 P C np nc s l -> nc - C * B < B ->
  committed (blk s (rp C)) = cur (bv C) (done_in P np C) /\ allocated (blk s (rp C)) = cur (bv C) (done_in P np C) /\
  0 <= done_in P np C <= B /\ (done_in P np C = nc - C * B <-> l = []).
Proof.
  intros Hr Hlt. pose proof (r_window _ _ _ _ _ _ Hr) as (HC & HN & Hf). pose proof bN_pos. pose proof bB_pos.
  pose proof (r_np _ _ _ _ _ _ Hr) as Hnp. pose proof (r_nc _ _ _ _ _ _ Hr) as Hnc. pose proof (r_len _ _ _ _ _ _ Hr) as Hlen.
  assert (P <> C + N) by (intros E; specialize (Hf E); lia).
  pose proof (r_producer _ _ _ _ _ _ Hr _ (rp_in C)) as [Hc Ha]. rewrite lastb_rp in Hc, Ha by lia.
  assert (Hnil : l = [] <-> np = nc) by (split; [intros ->; simpl in Hlen; lia|intros ->; apply nil_length_inv; lia]).
  splits; try done; try (unfold done_in; zcase; lia).
  rewrite Hnil. unfold done_in. zcase; [nia|]. assert (C = P) as -> by lia. lia.
Qed.

Lemma run_pop_here P C np nc s l fuel :
  rep0 P C np nc s l -> nc - C * B < B ->
  run (pop N B (S (S fuel))) s =
  match l with
  | [] => (s, Done (PopEmpty, None))
  | x :: _ => (popped_at C (nc - C * B) s, Done (PopOk, Some x))
  end.
Proof.
  intros Hr Hlt. pose proof (r_window _ _ _ _ _ _ Hr) as Hw. pose proof bN_pos. pose proof bB_pos. pose proof B_fits.
  pose proof cbits_range. pose proof (r_nc _ _ _ _ _ _ Hr) as Hnc.
  destruct (consumer_block P C np nc s l Hr Hlt) as (Hc & Ha & Hd & Hnil).
  pose proof (rp_in C) as Hp. pose proof (r_consumer _ _ _ _ _ _ Hr _ Hp) as [Hre Hco].
  rewrite lastb_rp in Hre, Hco by lia. unfold done_in in Hre, Hco. rewrite Z.ltb_irrefl in Hre, Hco.
  set (r := nc - C * B) in *. set (d := done_in P np C) in *.
  cbn [pop]. rewrite run_bind, run_load. destruct (r_heads _ _ _ _ _ _ Hr) as [_ ->]. rewrite head_block.
  rewrite run_bind, run_bget by done. rewrite Hre. rewrite run_bind. cbn [reserve_entry].
  rewrite bidx_cur by lia. rewrite (proj2 (Z.ltb_lt r B)) by lia.
  rewrite run_bind, run_bget by done. rewrite Hc, bidx_cur by lia.
  destruct l as [|x l].
  { rewrite (proj2 Hnil eq_refl), Z.eqb_refl. done. }
  rewrite (proj2 (Z.eqb_neq r d)) by (intros E; symmetry in E; by apply Hnil in E).
  assert (Hbusy : run ((if negb (d =? B) then a <- get N (rp C) allocated ;; Ret (negb (idx B a =? d)) else Ret false)) s =
    (s, Done false)).
  { destruct (negb (d =? B)); [|done]. rewrite run_bind, run_bget by done. rewrite Ha, bidx_cur, Z.eqb_refl by lia. done. }
  rewrite run_bind, Hbusy. rewrite run_bind, run_bind, run_check by (by apply bis_block).
  rewrite run_cas_weak_eq by done. cbn [fst].
  pose proof (r_ver _ _ _ _ _ _ Hr) as Hv. pose proof (bv_mono C P ltac:(lia)). pose proof (bv_nonneg C ltac:(lia)).
  rewrite (addIndex_cur (cbits B)); [|done|split; lia|lia|lia].
  pose proof (r_blocks _ _ _ _ _ _ Hr) as HL. pose proof Hp as Hp'. red in Hp'.
  rewrite run_bind, run_bget_entry by (done || lia). rewrite bblk_upd_eq by lia. cbn [entries set_reserved].
  assert (Hx : entries (blk s (rp C)) !!! Z.to_nat r = x).
  { apply lookup_total_Some. pose proof (r_values _ _ _ _ _ _ Hr 0%nat x eq_refl) as Hv0. rewrite Z.add_0_r in Hv0.
    assert (nc / B = C) as EC by (symmetry; apply (Z.div_unique _ _ _ r); unfold r; lia).
    assert (nc mod B = r) as EM by (rewrite Z.mod_eq, EC by lia; unfold r; lia).
    by rewrite EC, EM in Hv0. }
  rewrite Hx, run_bind, run_fetch_add1 by done. rewrite bblk_upd_eq by lia. cbn [consumed set_reserved]. rewrite Hco.
  change (cur (bv C) r +w 1) with (addIndex (cur (bv C) r) 1). rewrite (addIndex_cur (cbits B)); [|done|split; lia|lia|lia].
  done.
Qed.

(** The consumer's block is used up: the next one, if the producer is there. *)
Lemma run_pop_next P C np nc s l fuel :
  rep0 P C np nc s l -> nc = (C + 1) * B ->
  run (pop N B (S (S fuel))) s =
  if C <? P then run (advance_chead N B (S fuel) C (rp (C + 1)) ;;; pop N B (S fuel)) s
  else (s, Done (PopEmpty, None)).
Proof.
  intros Hr Hnc. pose proof (r_window _ _ _ _ _ _ Hr) as Hw. pose proof bN_pos. pose proof bB_pos. pose proof B_fits.
  pose proof (rp_in C) as Hp. pose proof (r_consumer _ _ _ _ _ _ Hr _ Hp) as [Hre _].
  rewrite lastb_rp in Hre by lia. unfold done_in in Hre. rewrite Z.ltb_irrefl in Hre.
  cbn [pop]. rewrite run_bind, run_load. destruct (r_heads _ _ _ _ _ _ Hr) as [_ ->]. rewrite head_block.
  rewrite run_bind, run_bget by done. rewrite Hre. rewrite run_bind. cbn [reserve_entry].
  rewrite bidx_cur by lia. rewrite (proj2 (Z.ltb_ge _ _)) by lia. rewrite run_ret, head_next, head_version.
  rewrite run_bind, run_bget by apply rp_in.
  pose proof (r_producer _ _ _ _ _ _ Hr _ (rp_in (C + 1))) as [Hc _].
  assert (0 <= C / N) by (apply Z.div_pos; lia). pose proof (r_ver _ _ _ _ _ _ Hr) as Hv.
  pose proof (bv_mono C P ltac:(lia)) as Hm. pose proof cbits_range.
  assert (HvC : C / N + 1 <= bv C + 1).
  { rewrite <- bv_succ. apply bv_step. }
  assert (szwrap (C / N + 1) = C / N + 1) as ->.
  { apply szwrap_small. assert (2 ^ vb < 2 ^ SIZE_BITS); [|lia]. apply Z.pow_lt_mono_r; unfold version_bits; lia. }
  assert (Hd : forall b, 0 <= done_in P np b <= B) by (intros b; unfold done_in; pose proof (r_np _ _ _ _ _ _ Hr); zcase; lia).
  rewrite Hc, bver_cur by done. destruct (Z.ltb_spec C P).
  - rewrite lastb_rp by lia. by rewrite bv_succ, Z.eqb_refl.
  - assert (C = P) as -> by lia. rewrite lastb_rp_next, bv_sub, bv_succ.
    by rewrite (proj2 (Z.eqb_neq _ _)) by lia.
Qed.

(** ** Both operations *)

(** [push] run alone either appends the value or reports
    [Full] and changes nothing, and then more than [kCapacity] values are held;
    it is never [Busy].  (The heads and cursors have room for one more round.) *)
Lemma bbq_push_alone s l v fuel :
  bbq_rep s l -> rounds_left (producerHead s) ->
  (exists s', run (push N B (S (S fuel)) v) s = (s', Done PushOk) /\ bbq_rep s' (l ++ [v]) /\ Z.of_nat (length l) < N * B) \/
  (run (push N B (S (S fuel)) v) s = (s, Done PushFull) /\ kCapacity N B < Z.of_nat (length l) <= N * B).
Proof.
  intros (P & C & np & nc & Hr & Hne) Hleft. destruct (r_heads _ _ _ _ _ _ Hr) as [EP _]. rewrite EP in Hleft.
  pose proof (r_np _ _ _ _ _ _ Hr) as Hnp. pose proof (r_nc _ _ _ _ _ _ Hr) as Hnc.
  pose proof (r_window _ _ _ _ _ _ Hr) as (HC & HN & Hf). pose proof (r_len _ _ _ _ _ _ Hr) as Hlen.
  pose proof bN_pos. pose proof bB_pos. unfold kCapacity.
  destruct (decide (np - P * B < B)) as [Hlt|Hge].
  - left. exists (pushed_at P (np - P * B) v s). rewrite (run_push_here P C np nc s l v _ Hr Hlt). split; [done|].
    split; [exists P, C, (np + 1), nc; split; [by apply rep0_push|right; lia]|].
    rewrite Hlen. destruct (decide (P = C + N)) as [E|]; [rewrite (Hf E); nia|nia].
  - assert (np = (P + 1) * B) as Efull by lia.
    destruct (run_push_next P C np nc s l v (S fuel) Hr Efull) as [[Hfree ->]|[Hfree ->]].
    + left. pose proof (rep0_enter P C np nc s l Hr Efull Hfree Hleft) as Hr1.
      rewrite run_bind, (run_advance_phead P C np nc s l _ Hr Efull Hleft).
      exists (pushed_at (P + 1) (np - (P + 1) * B) v (entered P s)).
      rewrite (run_push_here (P + 1) C np nc _ l v _ Hr1) by lia. split; [done|].
      split; [exists (P + 1), C, (np + 1), nc; split; [apply rep0_push; done || lia|right; lia]|].
      rewrite Hlen. destruct Hfree as [?|[? ?]]; nia.
    + right. split; [done|]. rewrite Hlen. unfold free_next in Hfree.
      destruct (decide (P = C + N)) as [E|]; [rewrite (Hf E); nia|].
      assert (P + 1 - N = C) as E by lia. assert (nc < (C + 1) * B) by lia. nia.
Qed.

Lemma rep0_room P C np nc s l : rep0 P C np nc s l -> rounds_left P -> P + 1 < 2 ^ SIZE_BITS.
Proof. by intros _ [_ ?]. Qed.

(** [pop] run alone returns the front of the queue, or [Empty] when there is
    none; it is never [Busy]. *)
Lemma bbq_pop_alone s l fuel :
  bbq_rep s l -> rounds_left (producerHead s) ->
  exists s', run (pop N B (S (S (S fuel)))) s =
    (s', Done (match l with [] => (PopEmpty, None) | x :: _ => (PopOk, Some x) end)) /\
    bbq_rep s' (tail l) /\ producerHead s' = producerHead s.
Proof.
  intros (P & C & np & nc & Hr & Hne) [_ HW]. destruct (r_heads _ _ _ _ _ _ Hr) as [EP _]. rewrite EP in HW.
  pose proof (r_nc _ _ _ _ _ _ Hr) as Hnc. pose proof (r_np _ _ _ _ _ _ Hr) as Hnp.
  pose proof (r_len _ _ _ _ _ _ Hr) as Hlen. pose proof (r_window _ _ _ _ _ _ Hr) as Hw. pose proof bB_pos.
  destruct (decide (nc - C * B < B)) as [Hlt|Hge].
  - rewrite (run_pop_here P C np nc s l (S fuel) Hr Hlt). destruct l as [|x l].
    + exists s. splits; [done| |done]. exists P, C, np, nc. done.
    + exists (popped_at C (nc - C * B) s). splits; [done| |done]. exists P, C, np, (nc + 1). split; [by eapply rep0_pop|done].
  - assert (nc = (C + 1) * B) as Hfull by lia. rewrite (run_pop_next P C np nc s l (S fuel) Hr Hfull).
    destruct (Z.ltb_spec C P) as [HCP|HCP].
    + rewrite run_bind, (run_advance_chead P C np nc s l (S fuel) Hr Hfull HCP HW).
      pose proof (rep0_leave P C np nc s l Hr Hfull HCP) as Hr1.
      rewrite (run_pop_here P (C + 1) np nc _ l fuel Hr1) by lia. destruct l as [|x l].
      * exists (left_at C s). splits; [done| |done]. exists P, (C + 1), np, nc. done.
      * eexists. split; [done|]. split; [|done].
        exists P, (C + 1), np, (nc + 1). split; [eapply rep0_pop; [done|lia]|done].
    + assert (l = []) as -> by (apply nil_length_inv; nia). exists s. splits; [done| |done]. exists P, C, np, nc. done.
Qed.

Lemma bbq_rep_init junk : Z.of_nat (length junk) = B -> bbq_rep (init N B junk) [].
Proof.
  intros Hj. exists 0, 0, 0, 0. split; [|by left]. pose proof bN_pos. pose proof bB_pos. pose proof B_fits. pose proof cbits_range.
  assert (0 < 2 ^ vb) by (apply pow2_pos; unfold version_bits; lia).
  assert (Hblk : forall p, in_bbq p -> blk (init N B junk) p = init_block B junk p).
  { intros p Hp. red in Hp. unfold blk, init. simpl. apply lookup_total_Some.
    rewrite list_lookup_fmap, lookup_seq_lt by lia. done. }
  assert (Hcur : forall p, in_bbq p -> make (cbits B) 0 (if Nat.eqb p 0 then 0 else B) =
    cur (bv (lastb N 0 (Z.of_nat p))) (done_in 0 0 (lastb N 0 (Z.of_nat p)))).
  { intros p Hp. red in Hp. rewrite make_small by (done || split; destruct (Nat.eqb p 0); lia).
    unfold done_in, lastb. rewrite Z.sub_0_l. destruct (Nat.eqb_spec p 0) as [->|Hp0].
    - rewrite Z.mod_0_l by lia. rewrite Z.ltb_irrefl, bv_zero by lia. f_equal.
    - rewrite Z.mod_opp_l_nz, Z.mod_small by (rewrite ?Z.mod_small; lia).
      rewrite (proj2 (Z.ltb_lt _ _)) by lia. by rewrite bv_zero by lia. }
  constructor; simpl; try done; try lia.
  - rewrite bv_zero; lia.
  - rewrite length_fmap, length_seq. lia.
  - intros p Hp. by rewrite Hblk.
  - intros p Hp. rewrite Hblk by done. simpl. by rewrite Hcur.
  - intros p Hp. rewrite Hblk by done. simpl. by rewrite Hcur.
Qed.
End spec.

(** ** The properties *)
Section properties.
Context `{SizeT} {T : Type} `{!Inhabited T} (N B : Z).

(** C39: Run alone, the injection queue is a bounded FIFO.  [push] either appends the
    value or reports [Full], changing nothing, and then holds more than
    [kCapacity] values; [pop] takes the front value and reports [Empty] exactly
    when there is none.  Neither is ever [Busy], and both return.  This holds
    as long as [rounds_left]: the head and the version of the cursors have room for
    one more round.  What happens when the version wraps around is
    [bbq_version_wrap_full]: [push] reports [Full] on an empty queue. *)
Theorem bbq_refines_fifo (s : bbq T) l v fuel :
  bbq_config N B -> bbq_rep N B s l -> rounds_left N B (producerHead s) ->
  ((exists s', run (push N B (S (S fuel)) v) s = (s', Done PushOk) /\ bbq_rep N B s' (l ++ [v]) /\
      Z.of_nat (length l) < N * B) \/
   (run (push N B (S (S fuel)) v) s = (s, Done PushFull) /\ kCapacity N B < Z.of_nat (length l) <= N * B)) /\
  (exists s', run (pop N B (S (S (S fuel)))) s =
      (s', Done (match l with [] => (PopEmpty, None) | x :: _ => (PopOk, Some x) end)) /\ bbq_rep N B s' (tail l)).
Proof.
  intros HV Hr Hl. split; [by apply bbq_push_alone|].
  destruct (bbq_pop_alone N B HV s l fuel Hr Hl) as (s' & ? & ? & _). eauto.
Qed.
End properties.

Section witnesses.
#[local] Existing Instance size_t_64.

Lemma bbq_example_config : bbq_config 2 2.
Proof. constructor; vm_compute; try congruence. split; congruence. Qed.

Lemma bbq_refines_fifo_witness :
  ((exists s', run (push 2 2 2 7) (init 2 2 [0; 0]) = (s', Done PushOk) /\ bbq_rep 2 2 s' [7] /\ 0 < 4) \/
   (run (push 2 2 2 7) (init 2 2 [0; 0]) = (init 2 2 [0; 0], Done PushFull) /\ 2 < 0 <= 4)) /\
  (exists s', run (pop 2 2 3) (init 2 2 [0; 0]) = (s', Done (PopEmpty, None)) /\ bbq_rep 2 2 s' []).
Proof.
  apply (bbq_refines_fifo 2 2 (init 2 2 [0; 0]) [] 7 0).
  - apply bbq_example_config.
  - apply bbq_rep_init; [apply bbq_example_config|reflexivity].
  - split; vm_compute; reflexivity.
Defined.

(** The queue holds more than [kCapacity] values: a fresh one with two blocks of
    two entries ([kCapacity] is two) takes four. *)
Lemma bbq_more_than_kCapacity :
  kCapacity 2 2 = 2 /\
  (run (a <- push 2 2 2 1 ;; b <- push 2 2 2 2 ;; c <- push 2 2 2 3 ;; d <- push 2 2 2 4 ;; e <- push 2 2 2 5 ;;
        Ret [a; b; c; d; e]) (init 2 2 [0; 0])).2 = Done [PushOk; PushOk; PushOk; PushOk; PushFull].
Proof. by vm_compute. Qed.
End witnesses.

(** ** Narrow words *)
Section wrap.
#[local] Existing Instance size_t_32.

(** A 32-bit machine, two blocks of one entry (21 version bits): everything
    pushed so far was popped, and the cursors are in their last round. *)
Definition worn : bbq Z :=
  let c := (2 ^ 21 - 1) * 2 ^ 11 + 1 in
  MkBbq (2 ^ 22 - 2) (2 ^ 22 - 2) [MkBlock c c c c [0]; MkBlock c c c c [0]].

Lemma worn_rep : bbq_rep 2 1 worn [].
Proof.
  exists (2 ^ 22 - 2), (2 ^ 22 - 2), (2 ^ 22 - 1), (2 ^ 22 - 1). split; [|right; vm_compute; reflexivity].
  constructor.
  - split; reflexivity.
  - split; [split; vm_compute; congruence|]. split; vm_compute; congruence.
  - split; vm_compute; congruence.
  - split; vm_compute; congruence.
  - reflexivity.
  - vm_compute. reflexivity.
  - reflexivity.
  - intros [|[|p]] Hp; [reflexivity..|unfold in_bbq in Hp; lia].
  - intros [|[|p]] Hp; [split; vm_compute; reflexivity..|unfold in_bbq in Hp; lia].
  - intros [|[|p]] Hp; [split; vm_compute; reflexivity..|unfold in_bbq in Hp; lia].
  - intros k v Hk. rewrite lookup_nil in Hk. discriminate.
Qed.

(** When the version of the cursors wraps around, an empty queue reports [Full]:
    the new round's cursor is 0, [atomicMax] keeps the old one, and the heads
    run ahead of the blocks. *)
Lemma bbq_version_wrap_full :
  bbq_rep 2 1 worn [] /\ (run (push 2 1 4 7) worn).2 = Done PushFull /\
  (run (push 2 1 4 7 ;;; push 2 1 4 7) worn).2 = Done PushFull.
Proof. split; [apply worn_rep|]. by vm_compute. Qed.
End wrap.
