(* ===== verification/Park.v ===== *)
(** * Tasks: creation, park and wake, release

    The life of a [Task] and of its entry in the wake-token slab:
    [createTask] (TaskFactory.h), [this_task::park] and [yield] (ThisTask.h),
    the post-switch hooks and [SchedulerCore::wake] (Runtime.h),
    [WakeToken::wake] (WakeToken.cpp), [releaseTask] and [wakeAllParked]
    (SchedulerCore.cpp), [reapParkedTasks] (Worker.cpp), [forEachTask] and
    [statusOf] (Scheduler.cpp).

    - A [Task] is a heap cell, addressed by its index in [tasks]; a freed cell
      stays there with [alive = false], and every access to it is [Fatal]
      (use after free).
    - A task is one logical thread of the pool, whichever worker it is on: the
      spawning call, its body, and the post-switch hook that the arriving side
      runs for it.  [saved] says that its registers are saved ([fctx] is
      valid); resuming a task that is not switched out is [Fatal].
    - [enqueue] is [SchedulerCore::schedule], whose placement is modelled in
      Dispatch.v: the task becomes runnable, once.  A worker takes any
      runnable task ([dispatch]).
    - The slab's free list is a pool of indices here; Slots.v models it.
    - [signals] is memory of the tasks' clients: the condition a waker sets
      before it wakes and a task checks before it parks. *)

From Stdlib Require Import ZArith Lia.
From stdpp Require Import base tactics list numbers option strings.
From S2P Require Import Prelude Conc.

Inductive TaskState := Running | Parked | Notified | Done.
#[export] Instance TaskState_eq_dec : EqDecision TaskState.
Proof. solve_decision. Defined.

Inductive TaskStatus := Runnable | StParked | Waking | Finishing.

(** How a switched-out task is entered again: by an ordinary switch, or with
    [throwForcedUnwindIntoTask] on top. *)
Inductive resumption := Normal | ForcedUnwind.
#[export] Instance resumption_eq_dec : EqDecision resumption.
Proof. solve_decision. Defined.

(** The address of a [Task]: its index in the heap. *)
Abbreviation ptr := nat.

Record Task := MkTask {
  parkState : TaskState;
  forcedStopShields : Z;
  slot : nat;
  generation : Z;
  alive : bool;
  saved : bool;
  resumed : option resumption
}.

Record TaskSlot := MkSlot {
  task : option ptr;
  slot_generation : Z;
  pins : Z
}.
#[export] Instance TaskSlot_inhabited : Inhabited TaskSlot := populate (MkSlot None 0 0).

Record world := World {
  slots : list TaskSlot;
  tasks : list Task;
  freeSlots : list nat;
  runnable : list ptr;
  signals : list (nat * Z);
  switchCount : Z;
  stopping : bool
}.

Definition wrap8 (x : Z) : Z := wrap 8 x.
Definition wrap32 (x : Z) : Z := wrap 32 x.

(** ** Setters *)

Definition set_parkState (v : TaskState) (t : Task) : Task :=
  MkTask v (forcedStopShields t) (slot t) (generation t) (alive t) (saved t) (resumed t).
Definition set_shields (v : Z) (t : Task) : Task :=
  MkTask (parkState t) v (slot t) (generation t) (alive t) (saved t) (resumed t).
Definition set_alive (v : bool) (t : Task) : Task :=
  MkTask (parkState t) (forcedStopShields t) (slot t) (generation t) v (saved t) (resumed t).
Definition set_ctx (sv : bool) (r : option resumption) (t : Task) : Task :=
  MkTask (parkState t) (forcedStopShields t) (slot t) (generation t) (alive t) sv r.

Definition set_task (v : option ptr) (e : TaskSlot) : TaskSlot := MkSlot v (slot_generation e) (pins e).
Definition add_generation (e : TaskSlot) : TaskSlot :=
  MkSlot (task e) (wrap32 (slot_generation e + 1)) (pins e).
Definition add_pins (d : Z) (e : TaskSlot) : TaskSlot :=
  MkSlot (task e) (slot_generation e) (wrap32 (pins e + d)).

Definition with_slots f s := World (f (slots s)) (tasks s) (freeSlots s) (runnable s) (signals s) (switchCount s) (stopping s).
Definition with_tasks f s := World (slots s) (f (tasks s)) (freeSlots s) (runnable s) (signals s) (switchCount s) (stopping s).
Definition with_free f s := World (slots s) (tasks s) (f (freeSlots s)) (runnable s) (signals s) (switchCount s) (stopping s).
Definition with_runnable f s := World (slots s) (tasks s) (freeSlots s) (f (runnable s)) (signals s) (switchCount s) (stopping s).
Definition with_signals f s := World (slots s) (tasks s) (freeSlots s) (runnable s) (f (signals s)) (switchCount s) (stopping s).
Definition with_switches f s := World (slots s) (tasks s) (freeSlots s) (runnable s) (signals s) (f (switchCount s)) (stopping s).

Definition set_stopping v s := World (slots s) (tasks s) (freeSlots s) (runnable s) (signals s) (switchCount s) v.

Definition upd_task (p : ptr) (f : Task -> Task) (s : world) : world := with_tasks (alter f p) s.
Definition upd_slot (i : nat) (f : TaskSlot -> TaskSlot) (s : world) : world := with_slots (alter f i) s.

(** ** Accesses *)

(** The live task behind a pointer. *)
Definition live (s : world) (p : ptr) : option Task :=
  t ← tasks s !! p; if alive t then Some t else None.

(** An access to a [Task]: [f] gives its new value and the result. *)
Definition taccess {X} (p : ptr) (f : Task -> list (Task * X)) : prog world X :=
  Act (option X) (fun s =>
    match live s p with
    | Some t => (fun tx => (upd_task p (fun _ => tx.1) s, Some tx.2)) <$> f t
    | None => [(s, None)]
    end)
    (fun o => match o with Some x => Ret x | None => Fatal "use after free" end).

Definition tget {X} (p : ptr) (f : Task -> X) : prog world X := taccess p (fun t => [(t, f t)]).
Definition tset (p : ptr) (f : Task -> Task) : prog world unit := taccess p (fun t => [(f t, tt)]).
(** [compare_exchange_strong] and [compare_exchange_weak] on [parkState]. *)
Definition tcas (p : ptr) (expected desired : TaskState) : prog world (bool * TaskState) :=
  taccess p (fun t =>
    if decide (parkState t = expected) then [(set_parkState desired t, (true, parkState t))]
    else [(t, (false, parkState t))]).
Definition tcas_weak (p : ptr) (expected desired : TaskState) : prog world (bool * TaskState) :=
  taccess p (fun t =>
    if decide (parkState t = expected)
    then [(set_parkState desired t, (true, parkState t)); (t, (false, parkState t))]
    else [(t, (false, parkState t))]).

(** An access to [slots[i]]. *)
Definition saccess {X} (i : nat) (f : TaskSlot -> TaskSlot * X) : prog world X :=
  Act (option X) (fun s =>
    match slots s !! i with
    | Some e => [(upd_slot i (fun _ => (f e).1) s, Some (f e).2)]
    | None => [(s, None)]
    end)
    (fun o => match o with Some x => Ret x | None => Fatal "slot index out of range" end).
Definition sget {X} (i : nat) (f : TaskSlot -> X) : prog world X := saccess i (fun e => (e, f e)).
Definition sset (i : nat) (f : TaskSlot -> TaskSlot) : prog world unit := saccess i (fun e => (f e, tt)).

(** ** Making runnable, running *)

(** [SchedulerCore::schedule]. *)
Definition enqueue (p : ptr) : prog world unit := store (with_runnable (fun l => l ++ [p])).

(** [switchTo] away from the task: its registers are saved. *)
Definition switchOut (p : ptr) : prog world unit :=
  taccess p (fun t => [(set_ctx true (resumed t) t, tt)]).

(** [switchTo] (or [switchToOnTop]) into the task. *)
Definition switchInto (p : ptr) (how : resumption) (s : world) : world * bool :=
  match live s p with
  | Some t => if saved t then (upd_task p (set_ctx false (Some how)) s, true) else (s, false)
  | None => (s, false)
  end.

(** The switched-out side: continues once it is switched into. *)
Definition await (p : ptr) : prog world resumption :=
  Act resumption (fun s =>
    match t ← live s p; resumed t with
    | Some how => [(upd_task p (set_ctx false None) s, how)]
    | None => []
    end) Ret.

(** A worker takes a runnable task and switches to it. *)
Definition dispatch : prog world unit :=
  Act bool (fun s =>
    (fun ip => let '(s', ok) := switchInto ip.2 Normal (with_runnable (delete ip.1) s) in (s', ok))
      <$> imap (fun i p => (i, p)) (runnable s))
    (fun ok => check ok "switch into a task that is not switched out").

(** ** Park and wake *)

Definition countSwitch : prog world unit := store (with_switches (fun n => wrap32 (n + 1))).

Definition onTaskParked (p : ptr) : prog world unit :=
  r <- tcas p Running Parked;;
  if r.1 : bool then Ret tt
  else tset p (set_parkState Running);;; enqueue p.

Definition park (p : ptr) : prog world resumption :=
  countSwitch;;;
  state <- tget p parkState;;
  if decide (state = Notified) then tset p (set_parkState Running);;; Ret Normal
  else switchOut p;;; onTaskParked p;;; await p.

(** [this_task::yield] when it gives way, with [onTaskYielded]. *)
Definition yield (p : ptr) : prog world resumption :=
  switchOut p;;; enqueue p;;; await p.

Fixpoint wake_loop (fuel : nat) (p : ptr) (state : TaskState) : prog world unit :=
  match fuel with
  | O => Starved
  | S fuel' =>
      if decide (state = Notified \/ state = Done) then Ret tt
      else
        r <- tcas_weak p state Notified;;
        if r.1 : bool then
          if decide (state = Parked) then tset p (set_parkState Running);;; enqueue p
          else Ret tt
        else wake_loop fuel' p r.2
  end.

Definition wake (fuel : nat) (p : ptr) : prog world unit :=
  state <- tget p parkState;; wake_loop fuel p state.

(** [WakeToken::wake] of a token with a scheduler. *)
Definition WakeToken_wake (fuel : nat) (sl : nat) (gen : Z) : prog world bool :=
  sset sl (add_pins 1);;;
  g <- sget sl slot_generation;;
  woke <- (if g =? gen then
             t <- sget sl task;;
             match t with
             | Some p => wake fuel p;;; Ret true
             | None => Ret false
             end
           else Ret false);;
  sset sl (add_pins (-1));;;
  Ret woke.

(** One round of [wakeAllParked]'s loop, and the loop over the slots from
    [sl]. *)
Definition wakeSlot (fuel : nat) (sl : nat) : prog world unit :=
  sset sl (add_pins 1);;;
  t <- sget sl task;;
  match t with Some p => wake fuel p | None => Ret tt end;;;
  sset sl (add_pins (-1)).

Fixpoint wakeAllFrom (fuel : nat) (sl maxTasks : nat) : prog world unit :=
  match maxTasks with
  | O => Ret tt
  | S n => wakeSlot fuel sl;;; wakeAllFrom fuel (S sl) n
  end.

Definition wakeAllParked (fuel maxTasks : nat) : prog world unit := wakeAllFrom fuel 0 maxTasks.

(** ** Shutdown *)

(** [Scheduler::stop], as far as tasks are concerned. *)
Definition stop (fuel maxTasks : nat) : prog world unit :=
  before <- rmw (fun s => (set_stopping true s, stopping s));;
  if before : bool then Ret tt else wakeAllParked fuel maxTasks.

(** The claimed task, put back or unwound. *)
Definition reapClaimed (p : ptr) : prog world unit :=
  shields <- tget p forcedStopShields;;
  if negb (shields =? 0) then
    r <- tcas p Running Parked;;
    if r.1 : bool then Ret tt else tset p (set_parkState Running);;; enqueue p
  else
    ok <- rmw (switchInto p ForcedUnwind);;
    check ok "switch into a task that is not switched out".

Definition reapSlot (sl : nat) : prog world unit :=
  sset sl (add_pins 1);;;
  t <- sget sl task;;
  claimed <- match t with
             | Some p => r <- tcas p Parked Running;; Ret r.1
             | None => Ret false
             end;;
  sset sl (add_pins (-1));;;
  match t with
  | Some p => if claimed : bool then reapClaimed p else Ret tt
  | None => Ret tt
  end.

Fixpoint reapFrom (sl maxTasks : nat) : prog world unit :=
  match maxTasks with
  | O => Ret tt
  | S n => reapSlot sl;;; reapFrom (S sl) n
  end.

Definition reapParkedTasks (maxTasks : nat) : prog world unit := reapFrom 0 maxTasks.

(** ** Inspection *)

Definition statusOf (state : TaskState) : TaskStatus :=
  match state with
  | Running => Runnable
  | Parked => StParked
  | Notified => Waking
  | Done => Finishing
  end.

Definition inspectSlot (sl : nat) : prog world (option (nat * TaskStatus)) :=
  t0 <- sget sl task;;
  match t0 with
  | None => Ret None
  | Some _ =>
      sset sl (add_pins 1);;;
      t <- sget sl task;;
      info <- match t with
              | Some p => st <- tget p parkState;; Ret (Some (sl, statusOf st))
              | None => Ret None
              end;;
      sset sl (add_pins (-1));;;
      Ret info
  end.

Fixpoint inspectFrom (sl maxTasks : nat) : prog world (list (nat * TaskStatus)) :=
  match maxTasks with
  | O => Ret []
  | S n =>
      info <- inspectSlot sl;;
      rest <- inspectFrom (S sl) n;;
      Ret (match info with Some i => i :: rest | None => rest end)
  end.

Definition forEachTask (maxTasks : nat) : prog world (list (nat * TaskStatus)) := inspectFrom 0 maxTasks.

(** ** Creation and release *)

(** Some free slot; [None] when there is none. *)
Definition acquireSlot : prog world (option nat) :=
  Act (option nat) (fun s =>
    match freeSlots s with
    | [] => [(s, None)]
    | l => (fun sl => (with_free (fun f => list_difference f [sl]) s, Some sl)) <$> l
    end) Ret.

Definition releaseSlot (sl : nat) : prog world unit := store (with_free (fun f => f ++ [sl])).

(** [new Task] and the store of the pointer into the slab: the task cannot
    be seen by another thread in between. *)
Definition publish (sl : nat) (gen : Z) : prog world ptr :=
  rmw (fun s =>
    let p := length (tasks s) in
    (with_slots (alter (set_task (Some p)) sl)
       (with_tasks (fun l => l ++ [MkTask Running 0 sl gen true true None]) s), p)).

(** The stack is allocated and the task and its body fit on it; or one of the two
    fails, and [slotGuard] gives the slot back. *)
Definition stack_made : prog world bool := Act bool (fun s => [(s, true); (s, false)]) Ret.

(** [None]: refused, because the scheduler stops, every slot is in use or there is
    no stack. *)
Definition createTask : prog world (option ptr) :=
  st <- load stopping;;
  if st : bool then Ret None
  else
    o <- acquireSlot;;
    match o with
    | None => Ret None
    | Some sl =>
        made <- stack_made;;
        if made : bool then
          gen <- sget sl slot_generation;;
          p <- publish sl gen;;
          Ret (Some p)
        else releaseSlot sl;;; Ret None
    end.

Fixpoint waitUnpinned (fuel : nat) (sl : nat) : prog world unit :=
  match fuel with
  | O => Starved
  | S fuel' =>
      n <- sget sl pins;;
      if n =? 0 then Ret tt else waitUnpinned fuel' sl
  end.

(** The slab's part of [releaseTask]; Join.v has the joiner's. *)
Definition releaseTask (fuel : nat) (p : ptr) : prog world unit :=
  sl <- tget p slot;;
  tset p (set_parkState Done);;;
  sset sl (set_task None);;;
  sset sl add_generation;;;
  waitUnpinned fuel sl;;;
  tset p (set_alive false);;;
  releaseSlot sl.

Definition onTaskFinished (fuel : nat) (p : ptr) : prog world unit :=
  countSwitch;;; releaseTask fuel p.

(** ** Threads *)

(** What a task's body does between its blocking points. *)
Inductive body_op :=
| BYield
| BShield (up : bool)       (** [NoForcedStop]'s constructor, destructor *)
| BWaitSignal               (** [while (not exchange(signalled, false)) park()] *)
| BWake (sl : nat) (gen : Z)           (** a token, possibly stale *)
| BSignalWake (sl : nat) (gen : Z).    (** set the condition, then wake *)

Definition token_of (t : Task) : nat * Z := (slot t, generation t).

Fixpoint waitSignal (fuel : nat) (p : ptr) (tok : nat * Z) : prog world resumption :=
  match fuel with
  | O => Starved
  | S fuel' =>
      b <- rmw (fun s => (with_signals (filter (.≠ tok)) s, bool_decide (tok ∈ signals s)));;
      if b : bool then Ret Normal
      else
        r <- park p;;
        match r with Normal => waitSignal fuel' p tok | ForcedUnwind => Ret ForcedUnwind end
  end.

Definition signalWake (fuel sl : nat) (gen : Z) : prog world bool :=
  store (with_signals (cons (sl, gen)));;; WakeToken_wake fuel sl gen.

Definition shield (p : ptr) (up : bool) : prog world unit :=
  n <- tget p forcedStopShields;;
  tset p (set_shields (wrap8 (if up then n + 1 else n - 1))).

Definition run_op (fuel : nat) (p : ptr) (o : body_op) : prog world resumption :=
  match o with
  | BYield => yield p
  | BShield up => shield p up;;; Ret Normal
  | BWaitSignal => tok <- tget p token_of;; waitSignal fuel p tok
  | BWake sl gen => WakeToken_wake fuel sl gen;;; Ret Normal
  | BSignalWake sl gen => signalWake fuel sl gen;;; Ret Normal
  end.

(** The body; a forced unwind leaves it through the [cleanup] of its frames. *)
Fixpoint run_body (fuel : nat) (p : ptr) (ops cleanup : list body_op) : prog world unit :=
  match ops with
  | [] => Ret tt
  | o :: ops' =>
      r <- run_op fuel p o;;
      match r with
      | Normal => run_body fuel p ops' cleanup
      | ForcedUnwind =>
          (fix unwind (l : list body_op) : prog world unit :=
             match l with [] => Ret tt | o' :: l' => run_op fuel p o';;; unwind l' end) cleanup
      end
  end.

(** One task, from [spawn] to [onTaskFinished]. *)
Definition task_life (fuel : nat) (ops cleanup : list body_op) : prog world unit :=
  o <- createTask;;
  match o with
  | None => Ret tt
  | Some p =>
      enqueue p;;;
      how <- await p;;
      match how with
      | Normal => run_body fuel p ops cleanup
      | ForcedUnwind => Ret tt
      end;;;
      switchOut p;;;
      onTaskFinished fuel p
  end.

(** Threads that act on tasks from outside. *)
Inductive other_op :=
| OWake (sl : nat) (gen : Z)          (** a token, possibly stale *)
| OSignalWake (sl : nat) (gen : Z)    (** set the condition, then wake *)
| OStop
| OReap
| OForEach
| ODispatch.

Definition run_other (fuel maxTasks : nat) (o : other_op) : prog world unit :=
  match o with
  | OWake sl gen => WakeToken_wake fuel sl gen;;; Ret tt
  | OSignalWake sl gen => signalWake fuel sl gen;;; Ret tt
  | OStop => stop fuel maxTasks
  | OReap => reapParkedTasks maxTasks
  | OForEach => forEachTask maxTasks;;; Ret tt
  | ODispatch => dispatch
  end.

Fixpoint run_others (fuel maxTasks : nat) (l : list other_op) : prog world unit :=
  match l with
  | [] => Ret tt
  | o :: l' => run_other fuel maxTasks o;;; run_others fuel maxTasks l'
  end.

(** A thread of the pool is one task or one outside thread. *)
Inductive thread :=
| TTask (ops cleanup : list body_op)
| TOther (l : list other_op).

Definition thread_prog (fuel maxTasks : nat) (t : thread) : prog world unit :=
  match t with
  | TTask ops cleanup => task_life fuel ops cleanup
  | TOther l => run_others fuel maxTasks l
  end.

Definition init_world (maxTasks : nat) : world :=
  World (replicate maxTasks (MkSlot None 0 0)) [] (seq 0 maxTasks) [] [] 0 false.

Definition park_pool (fuel maxTasks : nat) (l : list thread) : config world unit :=
  (thread_prog fuel maxTasks <$> l, init_world maxTasks).
