(* ===== verification/ParkInv.v ===== *)
(** * Tasks: the invariant of the park protocol

    What every interleaving of task and outside threads preserves: a ghost
    state machine per task, who holds which slot of the slab, who has pinned
    it, and which wakes are still on their way. *)

From Stdlib Require Import ZArith Lia.
From stdpp Require Import base tactics list numbers option strings functions.
From S2P Require Import Prelude Conc Park.

(** ** Ghost state *)

(** Where a task is.  [GHand i]: thread [i] has the exclusive right (and duty)
    to make it runnable; [true] until it has stored [Running]. *)
Inductive phase :=
| GNone
| GHand (i : nat) (mid : bool)
| GClaim (i : nat)            (** a reaper holds it *)
| GQueued
| GAsleep
| GDeliv                      (** switched into, not yet continued *)
| GRun (fresh : bool)         (** [true]: has not read its condition since it last parked *)
| GHook                       (** switched out, [onTaskParked] not yet decided *)
| GFin (k : nat)              (** in [releaseTask] *)
| GFreed.
#[export] Instance phase_eq_dec : EqDecision phase.
Proof. solve_decision. Defined.

Inductive slot_owner := SFree | SAcq (i : nat) | STask (p : ptr).

Record ghost := Ghost {
  gown : ptr -> nat;
  gst : ptr -> phase;
  gpin : nat -> option (nat * option ptr);
  gpend : nat -> option (nat * Z);
  gsl : nat -> slot_owner
}.

Definition set_gst p x g := Ghost (gown g) (<[p := x]> (gst g)) (gpin g) (gpend g) (gsl g).
Definition set_gpin i x g := Ghost (gown g) (gst g) (<[i := x]> (gpin g)) (gpend g) (gsl g).
Definition set_gpend i x g := Ghost (gown g) (gst g) (gpin g) (<[i := x]> (gpend g)) (gsl g).
Definition set_gsl sl x g := Ghost (gown g) (gst g) (gpin g) (gpend g) (<[sl := x]> (gsl g)).
Definition set_gown p x g := Ghost (<[p := x]> (gown g)) (gst g) (gpin g) (gpend g) (gsl g).

(** ** What a phase says about the task *)

Definition state_ok (x : phase) (st : TaskState) : Prop :=
  match x with
  | GNone => False
  | GHand _ true => st = Notified
  | GAsleep => st = Parked
  | GFin (S _) | GFreed => st = Done
  | _ => st = Running \/ st = Notified
  end.

Definition is_saved (x : phase) : bool := match x with GDeliv | GRun _ => false | _ => true end.
Definition is_deliv (x : phase) : bool := match x with GDeliv => true | _ => false end.
Definition is_freed (x : phase) : bool := match x with GFreed => true | _ => false end.

(** The slab still points to the task. *)
Definition in_slot (x : phase) : bool :=
  match x with GNone | GFin (S (S _)) | GFreed => false | _ => true end.
(** A waker may still hold the pointer. *)
Definition holdable (x : phase) : bool :=
  match x with GNone | GFin (S (S (S (S _)))) | GFreed => false | _ => true end.

(** The task will not look at its condition again before it is woken. *)
Definition needs_wake (x : phase) (st : TaskState) : Prop :=
  match x with
  | GRun false | GHook | GClaim _ => st <> Notified
  | GAsleep => True
  | _ => False
  end.

(** Switched out, for others to resume. *)
Definition is_out (x : phase) : bool :=
  match x with GHand _ _ | GClaim _ | GQueued | GAsleep | GDeliv => true | _ => false end.

(** Whose hands the task is in. *)
Definition in_hands (i : nat) (x : phase) : Prop :=
  match x with GHand k _ | GClaim k => k = i | _ => False end.

(** *** The abstract state machine *)

Definition owner_ctl (i : nat) (x : phase) : Prop :=
  match x with GRun _ | GHook | GDeliv | GFin _ => True | GHand k _ => k = i | _ => False end.

Definition own_hands (i : nat) (x : phase) : Prop :=
  match x with GHand k _ | GClaim k => k = i | _ => True end.

(** [tstep i o a b]: thread [i] may take a task of owner [o] from [a] to [b]. *)
Inductive tstep (i : nat) : nat -> phase -> phase -> Prop :=
| ts_refl o a : tstep i o a a
| ts_own a b : owner_ctl i a -> own_hands i b -> b <> GNone -> tstep i i a b
| ts_new o b : own_hands i b -> tstep i o GNone b
| ts_wake o : tstep i o GAsleep (GHand i true)
| ts_claim o : tstep i o GAsleep (GClaim i)
| ts_store o : tstep i o (GHand i true) (GHand i false)
| ts_enqueue o : tstep i o (GHand i false) GQueued
| ts_putback o : tstep i o (GClaim i) GAsleep
| ts_rewoken o : tstep i o (GClaim i) (GHand i true)
| ts_unwind o : tstep i o (GClaim i) GDeliv
| ts_dispatch o : tstep i o GQueued GDeliv.
#[export] Hint Constructors tstep : sf.

Section inv.
Context (n maxTasks : nat) (Hn : Z.of_nat n < 2 ^ 32).
Implicit Types (s : world) (g : ghost).

Definition npins g sl : nat := length (filter (fun j => fst <$> gpin g j = Some sl) (seq 0 n)).

Definition slot_holds s p t (present : bool) : Prop :=
  exists e, slots s !! slot t = Some e /\
    if present then task e = Some p /\ slot_generation e = generation t else task e = None.

Record task_inv s g p t : Prop := {
  ti_state : state_ok (gst g p) (parkState t);
  ti_saved : saved t = is_saved (gst g p);
  ti_resumed : bool_decide (is_Some (resumed t)) = is_deliv (gst g p);
  ti_run : p ∈ runnable s <-> gst g p = GQueued;
  ti_alive : alive t = negb (is_freed (gst g p));
  ti_slot : gst g p <> GFreed -> gsl g (slot t) = STask p /\ slot_holds s p t (in_slot (gst g p));
  ti_needs : token_of t ∈ signals s -> needs_wake (gst g p) (parkState t) ->
             exists i, gpend g i = Some (token_of t)
}.

Definition slot_inv s g sl e : Prop :=
  match gsl g sl with
  | SFree => sl ∈ freeSlots s /\ task e = None
  | SAcq _ => sl ∉ freeSlots s /\ task e = None
  | STask p => sl ∉ freeSlots s /\ exists t, tasks s !! p = Some t /\ slot t = sl /\ gst g p <> GFreed
  end.

Record park_inv s g : Prop := {
  iv_len : length (slots s) = maxTasks;
  iv_tasks : forall p t, tasks s !! p = Some t -> task_inv s g p t;
  iv_none : forall p, tasks s !! p = None -> gst g p = GNone /\ p ∉ runnable s;
  iv_nodup : NoDup (runnable s);
  iv_slots : forall sl e, slots s !! sl = Some e -> slot_inv s g sl e /\ pins e = wrap32 (Z.of_nat (npins g sl));
  iv_free : NoDup (freeSlots s) /\ (forall sl, sl ∈ freeSlots s -> (sl < maxTasks)%nat);
  iv_hold : forall i sl p, gpin g i = Some (sl, Some p) ->
              holdable (gst g p) = true /\ exists t, tasks s !! p = Some t /\ slot t = sl;
  iv_thr : forall i, (gpin g i <> None \/ gpend g i <> None) -> (i < n)%nat;
  iv_own : forall p, (gst g p <> GNone -> gown g p < n)%nat /\
             (forall i, in_hands i (gst g p) -> i < n)%nat
}.

Record park_guar (i : nat) (a b : world * ghost) : Prop := {
  gu_pin : forall j, j <> i -> gpin b.2 j = gpin a.2 j;
  gu_pend : forall j, j <> i -> gpend b.2 j = gpend a.2 j;
  gu_step : forall p, tstep i (gown a.2 p) (gst a.2 p) (gst b.2 p);
  gu_own : forall p, gst a.2 p <> GNone -> gown b.2 p = gown a.2 p;
  gu_new : forall p, gst a.2 p = GNone -> gst b.2 p = GNone \/ gown b.2 p = i;
  gu_tok : forall p t, tasks a.1 !! p = Some t ->
             exists t', tasks b.1 !! p = Some t' /\ token_of t' = token_of t;
  gu_acq : forall sl j, j <> i -> gsl a.2 sl = SAcq j -> gsl b.2 sl = SAcq j;
  gu_gen : forall sl j e, j <> i -> gsl a.2 sl = SAcq j -> slots a.1 !! sl = Some e ->
             exists e', slots b.1 !! sl = Some e' /\ slot_generation e' = slot_generation e
}.

(** A thread that cannot move: a task that is switched out, or a worker with
    nothing to run; neither owes anybody anything. *)
Definition park_wait (i : nat) s g : Prop :=
  gpend g i = None /\ (forall p, ~ in_hands i (gst g p)) /\
  (forall p, gown g p = i ->
     (is_out (gst g p) = true /\ gst g p <> GDeliv) \/ gst g p = GNone \/ gst g p = GFreed).

Definition park_protocol : protocol world ghost := WaitProtocol park_inv park_guar park_wait.

Lemma park_guar_refl i x : park_guar i x x.
Proof. constructor; eauto with sf. Qed.

(** ** What a thread knows of itself *)

Record local := Local {
  lpin : option (nat * option ptr);
  lpend : option (nat * Z);
  lown : option (ptr * option phase);
  lhand : option (ptr * phase)
}.

(** [lown = Some (p, Some x)]: it is the task [p], in phase [x];
    [Some (p, None)]: the task [p], switched out. *)
Record at_ (i : nat) (l : local) (s : world) (g : ghost) : Prop := {
  at_pin : gpin g i = lpin l;
  at_pend : gpend g i = lpend l;
  at_own : forall p x, lown l = Some (p, x) -> gown g p = i /\
             match x with Some x => gst g p = x /\ owner_ctl i x | None => is_out (gst g p) = true end;
  at_only : forall p, gown g p = i -> gst g p = GNone \/ gst g p = GFreed \/ exists x, lown l = Some (p, x);
  at_hand : forall p x, lhand l = Some (p, x) -> gst g p = x /\ in_hands i x;
  at_hands : forall p, in_hands i (gst g p) -> lhand l = Some (p, gst g p)
}.

Lemma tstep_hands i j o a b : tstep j o a b -> i <> j -> in_hands i a -> b = a.
Proof.
  intros H Hij Hi. destruct H as [|a b Ho ? ?| | | | | | | | |]; simpl in *; try done; try congruence.
  destruct a; simpl in *; try done; congruence.
Qed.

Lemma tstep_hands_inv i j o a b : tstep j o a b -> i <> j -> in_hands i b -> a = b.
Proof.
  intros H Hij Hi. destruct H as [|a b Ho Hh ?|o b Hh| | | | | | | |]; simpl in *; try done; try congruence;
    destruct b; simpl in *; try done; congruence.
Qed.

Lemma tstep_owner i j a b : tstep j i a b -> i <> j -> owner_ctl i a -> b = a.
Proof. intros H Hij Hi. inversion H; subst; simpl in *; try done; congruence. Qed.

Lemma tstep_out i j a b : tstep j i a b -> i <> j -> is_out a = true -> is_out b = true.
Proof. intros H Hij Hi. inversion H; subst; simpl in *; try done; congruence. Qed.

Lemma tstep_freed i o b : tstep i o GFreed b -> b = GFreed.
Proof. by inversion 1. Qed.

Lemma stable_at i l : stable park_protocol i (at_ i l).
Proof.
  intros j s g s' g' Hj HI HI' [] []. simpl in *. constructor.
  - by rewrite gu_pin0.
  - by rewrite gu_pend0.
  - intros p x E. destruct (at_own0 p x E) as [Ho Hx].
    assert (gst g p <> GNone) by (destruct x; [destruct Hx as [<- ?]|]; by destruct (gst g p)).
    split; [by rewrite gu_own0|]. pose proof (gu_step0 p) as Hs. rewrite Ho in Hs. destruct x as [x|].
    + destruct Hx as [<- Hc]. split; [|done]. by eapply tstep_owner.
    + by eapply tstep_out.
  - intros p Ho. destruct (decide (gst g p = GNone)) as [E|E].
    + destruct (gu_new0 p E); [by left|congruence].
    + rewrite gu_own0 in Ho by done. destruct (at_only0 p Ho) as [|[Hf|]]; [done| |by right; right].
      right; left. pose proof (gu_step0 p) as Hs. rewrite Hf in Hs. by eapply tstep_freed.
  - intros p x E. destruct (at_hand0 p x E) as [Hx Hi]. split; [|done]. rewrite <- Hx in Hi |- *.
    eapply tstep_hands; eauto.
  - intros p Hp. assert (gst g p = gst g' p) as Heq by (eapply tstep_hands_inv; eauto).
    rewrite <- Heq in Hp |- *. auto.
Qed.

(** The token behind a pointer never changes. *)
Definition token_is p (tok : nat * Z) : asrt world ghost :=
  fun s _ => exists t, tasks s !! p = Some t /\ token_of t = tok.

Lemma stable_token i p tok : stable park_protocol i (token_is p tok).
Proof.
  intros j s g s' g' _ _ _ HG (t & Ht & <-). destruct (gu_tok _ _ _ HG p t Ht) as (t' & Ht' & E).
  by exists t'.
Qed.
#[local] Hint Resolve stable_at stable_token stable_and stable_const park_guar_refl : sf.
End inv.
#[export] Hint Resolve stable_at stable_token stable_and stable_const park_guar_refl : sf.
