(* ===== verification/ParkSteps.v ===== *)
(** * Tasks: the steps of the park protocol

    Each kind of access keeps the invariant of ParkInv.v and is allowed by its
    guarantee; these are the cases the programs of Park.v are made of. *)

From Stdlib Require Import ZArith Lia.
From stdpp Require Import base tactics list numbers option strings functions sets.
From S2P Require Import Prelude Conc Park ParkInv.

Lemma fn_insert_case {A} (f : nat -> A) i x j : <[i := x]> f j = if decide (j = i) then x else f j.
Proof. destruct (decide (j = i)) as [->|]; [apply fn_lookup_insert|by apply fn_lookup_insert_ne]. Qed.

Lemma lookup_alter_case {A} (f : A -> A) (l : list A) i j :
  alter f i l !! j = if decide (j = i) then f <$> l !! i else l !! j.
Proof. case_decide; [subst; apply list_lookup_alter_eq|by apply list_lookup_alter_ne]. Qed.

Lemma live_Some s p t : live s p = Some t <-> tasks s !! p = Some t /\ alive t = true.
Proof.
  unfold live. destruct (tasks s !! p) as [t1|]; simpl; [|split; [done|by intros []]].
  destruct (alive t1) eqn:E; split; [by intros [= <-]|by intros [[= <-] ?]|done|].
  intros [[= <-] ?]; congruence.
Qed.

(** Reading a field through an unchanged cell. *)
Lemma upd_task_id s p t : tasks s !! p = Some t -> upd_task p (fun _ => t) s = s.
Proof.
  intros H. unfold upd_task, with_tasks. destruct s; simpl in *. f_equal.
  apply list_eq; intros q; destruct (decide (q = p)) as [->|];
    [rewrite list_lookup_alter_eq; by rewrite H|by rewrite list_lookup_alter_ne].
Qed.

Lemma upd_slot_id s sl e : slots s !! sl = Some e -> upd_slot sl (fun _ => e) s = s.
Proof.
  intros H. unfold upd_slot, with_slots. destruct s; simpl in *. f_equal.
  apply list_eq; intros q; destruct (decide (q = sl)) as [->|];
    [by rewrite list_lookup_alter_eq, H|by rewrite list_lookup_alter_ne].
Qed.

Lemma filter_ext_in {A} (P P' : A -> Prop) `{!forall x, Decision (P x), !forall x, Decision (P' x)} (l : list A) :
  (forall x, x ∈ l -> P x <-> P' x) -> filter P l = filter P' l.
Proof.
  induction l as [|a l IH]; intros Hx; [done|]. rewrite !filter_cons, IH by (intros; apply Hx; by right).
  pose proof (Hx a ltac:(left)). by destruct (decide (P a)), (decide (P' a)); try tauto.
Qed.

(** Counting the threads that satisfy a predicate. *)
Lemma count_add {A} `{EqDecision A} (P P' : A -> Prop) `{!forall x, Decision (P x), !forall x, Decision (P' x)} (i : A) (l : list A) :
  NoDup l -> i ∈ l -> ~ P i -> P' i -> (forall j, j <> i -> P j <-> P' j) ->
  length (filter P' l) = S (length (filter P l)).
Proof.
  induction l as [|a l IH]; intros Hnd Hi HPi HPi' Heq; [by apply elem_of_nil in Hi|].
  apply list.NoDup_cons in Hnd as [Ha Hnd]. rewrite !filter_cons. destruct (decide (a = i)) as [->|Hne].
  - rewrite decide_True, decide_False by done. simpl. do 2 f_equal. apply filter_ext_in.
    intros x Hx. symmetry. apply Heq. by intros ->.
  - apply elem_of_cons in Hi as [->|Hi]; [done|]. specialize (IH Hnd Hi HPi HPi' Heq).
    destruct (decide (P' a)) as [H1|H1]; [rewrite decide_True by (by apply Heq)|rewrite decide_False by (by rewrite Heq)];
      simpl; by rewrite IH.
Qed.

Section steps.
Context (n maxTasks : nat) (Hn : Z.of_nat n < 2 ^ 32).
Implicit Types (s : world) (g : ghost).
#[local] Abbreviation inv := (park_inv n maxTasks).
#[local] Abbreviation proto := (park_protocol n maxTasks).

(** ** Facts of the invariant *)

Lemma inv_live s g p t : inv s g -> tasks s !! p = Some t -> gst g p <> GFreed -> live s p = Some t.
Proof.
  intros HI Ht Hf. apply live_Some. split; [done|]. rewrite (ti_alive _ _ _ _ (iv_tasks _ _ _ _ HI p t Ht)).
  by destruct (gst g p).
Qed.

Lemma inv_some s g p : inv s g -> gst g p <> GNone -> exists t, tasks s !! p = Some t.
Proof.
  intros HI Hp. destruct (tasks s !! p) as [t|] eqn:E; [by exists t|].
  by destruct (iv_none _ _ _ _ HI p E).
Qed.

Lemma inv_held s g i sl p :
  inv s g -> gpin g i = Some (sl, Some p) -> exists t, live s p = Some t /\ tasks s !! p = Some t /\ slot t = sl.
Proof.
  intros HI Hp. destruct (iv_hold _ _ _ _ HI i sl p Hp) as (Hh & t & Ht & Hs).
  exists t. split; [|done]. apply (inv_live s g); try done. by intros Hf; rewrite Hf in Hh.
Qed.

Lemma inv_task_of s g p t : inv s g -> live s p = Some t -> task_inv s g p t /\ gst g p <> GFreed /\ gst g p <> GNone.
Proof.
  intros HI [Ht Ha]%live_Some. pose proof (iv_tasks _ _ _ _ HI p t Ht) as HT. split; [done|].
  destruct HT. split; intros E; rewrite E in *; simpl in *; congruence || done.
Qed.

(** Two tasks that are not freed are in different slots. *)
Lemma inv_slot_inj s g p q t u :
  inv s g -> tasks s !! p = Some t -> tasks s !! q = Some u ->
  gst g p <> GFreed -> gst g q <> GFreed -> slot t = slot u -> p = q.
Proof.
  intros HI Ht Hu Hp Hq E.
  destruct (ti_slot _ _ _ _ (iv_tasks _ _ _ _ HI p t Ht) Hp) as [E1 _].
  destruct (ti_slot _ _ _ _ (iv_tasks _ _ _ _ HI q u Hu) Hq) as [E2 _]. congruence.
Qed.

(** What a slot points to. *)
Lemma inv_slot_task s g sl e p :
  inv s g -> slots s !! sl = Some e -> task e = Some p ->
  exists t, tasks s !! p = Some t /\ slot t = sl /\ in_slot (gst g p) = true.
Proof.
  intros HI He Hp. destruct (iv_slots _ _ _ _ HI sl e He) as [Hs _]. unfold slot_inv in Hs.
  destruct (gsl g sl) as [|i|q] eqn:Eg; [destruct Hs; congruence..|].
  destruct Hs as (_ & t & Ht & Es & Hf). pose proof (ti_slot _ _ _ _ (iv_tasks _ _ _ _ HI q t Ht) Hf) as (_ & e' & He' & Hh).
  rewrite Es, He in He'. injection He' as <-. destruct (in_slot (gst g q)) eqn:Ei; [|congruence].
  destruct Hh as [Hh _]. rewrite Hp in Hh. injection Hh as ->. by exists t.
Qed.

(** A task that needs a wake is the one its slot points to. *)
Lemma needs_in_slot x st : needs_wake x st -> in_slot x = true /\ x <> GFreed.
Proof. by destruct x. Qed.

(** ** A step of one task *)

(** What a new phase [x'] and cell [t'] of task [p] must satisfy. *)
Record step_ok s g p t t' x' : Prop := {
  so_tok : token_of t' = token_of t;
  so_alive : alive t' = true;
  so_state : state_ok x' (parkState t');
  so_saved : saved t' = is_saved x';
  so_resumed : bool_decide (is_Some (resumed t')) = is_deliv x';
  so_freed : x' <> GFreed;
  so_slot : in_slot x' = in_slot (gst g p);
  so_hold : holdable (gst g p) = true -> holdable x' = true;
  so_needs : needs_wake x' (parkState t') -> token_of t ∈ signals s ->
             needs_wake (gst g p) (parkState t) \/ exists i, gpend g i = Some (token_of t);
  so_hands : forall i, in_hands i x' -> (i < n)%nat
}.

(** [s'] differs from [s] in the cell of [p] and in the run queues. *)
Lemma inv_task_runnable s g p t t' x' s' :
  inv s g -> live s p = Some t -> step_ok s g p t t' x' ->
  s' = with_runnable (fun _ => runnable s') (upd_task p (fun _ => t') s) ->
  NoDup (runnable s') -> (p ∈ runnable s' <-> x' = GQueued) ->
  (forall q, q <> p -> q ∈ runnable s' <-> q ∈ runnable s) ->
  inv s' (set_gst p x' g).
Proof.
  intros HI Hl [] Es Hnd Hp Hq. destruct (inv_task_of s g p t HI Hl) as (HT & Hf & Hne).
  apply live_Some in Hl as [Ht Ha]. injection so_tok0 as Hsl Hgen.
  assert (forall q, tasks s' !! q = if decide (q = p) then Some t' else tasks s !! q) as Hlk.
  { intros q. rewrite Es. simpl. by rewrite lookup_alter_case, Ht. }
  assert (slots s' = slots s /\ freeSlots s' = freeSlots s /\ signals s' = signals s) as (E1 & E2 & E3) by (by rewrite Es).
  assert (x' <> GNone) by (by intros ->).
  destruct HI as [I1 I2 I3 I4 I5 I6 I7 I8 I9]. constructor; simpl; rewrite ?E1, ?E2; try done.
  - intros q u Hu. rewrite Hlk in Hu. case_decide as Hd; [subst q; injection Hu as <-|].
    + destruct HT as [? ? ? ? ? T6 T7]. constructor; simpl; rewrite ?fn_lookup_insert; try done.
      * rewrite so_alive0. by destruct x'.
      * intros _. destruct (T6 Hf) as [G1 (e & He & G2)]. rewrite Hsl. split; [done|].
        exists e. rewrite Hsl, E1, Hgen, so_slot0. done.
      * unfold token_of. rewrite E3, Hsl, Hgen. intros Hs Hnw. destruct (so_needs0 Hnw Hs); auto.
    + destruct (I2 q u Hu) as [? ? ? T4 ? T6 T7]. constructor; simpl; rewrite ?fn_lookup_insert_ne by done; try done.
      * by rewrite Hq.
      * unfold slot_holds. by rewrite E1.
      * by rewrite E3.
  - intros q Hu. rewrite Hlk in Hu. case_decide; [done|]. rewrite fn_lookup_insert_ne, Hq by done. auto.
  - intros sl e He. destruct (I5 sl e He) as [Hs Hpn]. split; [|done]. unfold slot_inv in *. simpl. rewrite E2.
    destruct (gsl g sl) as [| |q]; try done. destruct Hs as (Hs1 & u & Hu & Hs2). split; [done|].
    destruct (decide (q = p)) as [->|].
    + exists t'. rewrite Hlk, decide_True, fn_lookup_insert by done. destruct Hs2. simplify_eq. splits; congruence.
    + exists u. by rewrite Hlk, decide_False, fn_lookup_insert_ne by done.
  - intros i sl q Hpin. destruct (I7 i sl q Hpin) as (Hh & u & Hu & Hs).
    destruct (decide (q = p)) as [->|].
    + rewrite fn_lookup_insert, Hlk, decide_True by done. split; [auto|]. exists t'. simplify_eq. split; congruence.
    + rewrite fn_lookup_insert_ne, Hlk, decide_False by done. eauto.
  - intros q. rewrite fn_insert_case. case_decide; [subst q|auto]. split; [intros _; by apply I9|done].
Qed.

(** The common case: the run queues stay. *)
Lemma inv_task_step s g p t t' x' :
  inv s g -> live s p = Some t -> step_ok s g p t t' x' ->
  (gst g p = GQueued <-> x' = GQueued) ->
  inv (upd_task p (fun _ => t') s) (set_gst p x' g).
Proof.
  intros HI Hl Hok Hq. eapply (inv_task_runnable s g p t t' x'); try done.
  - apply (iv_nodup _ _ _ _ HI).
  - simpl. rewrite <- Hq. apply live_Some in Hl as [Ht _]. by apply (ti_run s g p t (iv_tasks _ _ _ _ HI p t Ht)).
Qed.

(** A wake that is no longer needed. *)
Lemma inv_drop_pend s g i :
  inv s g ->
  (forall p t, tasks s !! p = Some t -> gpend g i = Some (token_of t) -> ~ needs_wake (gst g p) (parkState t)) ->
  inv s (set_gpend i None g).
Proof.
  intros [I1 I2 I3 I4 I5 I6 I7 I8 I9] H. constructor; simpl; try done.
  - intros p t Ht. pose proof (I2 p t Ht) as [? ? ? ? ? T6 T7]. constructor; simpl; try done.
    intros Hs Hnw. destruct (T7 Hs Hnw) as [j Hj]. exists j. rewrite fn_insert_case. case_decide; [subst j|done].
    exfalso. by eapply H.
  - intros j. rewrite fn_insert_case. case_decide; [subst j; intros [?|?]; [auto|done]|auto].
Qed.

(** Its counterpart: the condition is set, a wake is on its way. *)
Lemma inv_signal s g i tok :
  inv s g -> (i < n)%nat -> gpend g i = None ->
  inv (with_signals (cons tok) s) (set_gpend i (Some tok) g).
Proof.
  intros [I1 I2 I3 I4 I5 I6 I7 I8 I9] Hi Hnone. constructor; simpl; try done.
  - intros p t Ht. pose proof (I2 p t Ht) as [? ? ? ? ? T6 T7]. constructor; simpl; try done.
    intros Hs Hnw. apply elem_of_cons in Hs as [Hs|Hs]; [exists i; by rewrite fn_lookup_insert, Hs|].
    destruct (T7 Hs Hnw) as [j Hj]. exists j. rewrite fn_insert_case. case_decide; [subst j|done]. congruence.
  - intros j. rewrite fn_insert_case. case_decide; [by subst j|auto].
Qed.

(** ** Pins *)

Lemma npins_other g i v sl :
  (i < n)%nat -> (fst <$> v = Some sl <-> fst <$> gpin g i = Some sl) ->
  npins n (set_gpin i v g) sl = npins n g sl.
Proof.
  intros Hi H. unfold npins. f_equal. apply filter_ext_in. intros j _. simpl. rewrite fn_insert_case.
  case_decide; [by subst j|done].
Qed.

Lemma npins_add g i o sl :
  (i < n)%nat -> gpin g i = None -> npins n (set_gpin i (Some (sl, o)) g) sl = S (npins n g sl).
Proof.
  intros Hi H. unfold npins. apply (count_add _ _ i).
  - apply NoDup_seq.
  - apply elem_of_seq. lia.
  - by rewrite H.
  - simpl. by rewrite fn_lookup_insert.
  - intros j Hj. simpl. by rewrite fn_lookup_insert_ne.
Qed.

Lemma npins_bound g sl : (npins n g sl <= n)%nat.
Proof. unfold npins. etrans; [apply length_filter|]. by rewrite length_seq. Qed.

Lemma npins_zero g sl i : (i < n)%nat -> npins n g sl = 0%nat -> fst <$> gpin g i <> Some sl.
Proof.
  intros Hi H E. apply length_zero_iff_nil in H.
  assert (i ∈ filter (fun j => fst <$> gpin g j = Some sl) (seq 0 n)) as Hin.
  { apply list_elem_of_filter. split; [done|]. apply elem_of_seq. lia. }
  rewrite H in Hin. by apply elem_of_nil in Hin.
Qed.

(** Changing the pin count of [sl] with the ghost pins. *)
Lemma inv_pins s g sl e i v d :
  inv s g -> slots s !! sl = Some e -> (i < n)%nat ->
  Z.of_nat (npins n (set_gpin i v g) sl) = Z.of_nat (npins n g sl) + d ->
  (forall k, k <> sl -> npins n (set_gpin i v g) k = npins n g k) ->
  (v = None \/ v = Some (sl, None)) ->
  inv (upd_slot sl (fun _ => add_pins d e) s) (set_gpin i v g).
Proof.
  intros [I1 I2 I3 I4 I5 I6 I7 I8 I9] He Hi Hsl Hk Hv. constructor; simpl; try done.
  - by rewrite length_alter.
  - intros p t Ht. pose proof (I2 p t Ht) as [? ? ? ? ? T6 T7]. constructor; simpl; try done.
    intros Hf. destruct (T6 Hf) as [G1 (e' & He' & G2)]. split; [done|]. unfold slot_holds.
    simpl. rewrite lookup_alter_case. case_decide as Hd; [|by exists e'].
    rewrite Hd in He'. rewrite He in He' |- *. injection He' as <-. by exists (add_pins d e).
  - intros k e' He'. rewrite lookup_alter_case in He'. case_decide as Hd; [subst k|].
    + rewrite He in He'. injection He' as <-. destruct (I5 sl e He) as [Hs Hp]. split; [done|].
      simpl. rewrite Hp, Hsl. unfold wrap32. by rewrite wrap_add_l.
    + destruct (I5 k e' He') as [Hs Hp]. split; [done|]. by rewrite Hk.
  - intros j k p. rewrite fn_insert_case. case_decide; [|apply I7]. by destruct Hv as [->| ->].
  - intros j. rewrite fn_insert_case. case_decide; [by subst j|apply I8].
Qed.

Lemma inv_pin s g sl e i :
  inv s g -> slots s !! sl = Some e -> (i < n)%nat -> gpin g i = None ->
  inv (upd_slot sl (fun _ => add_pins 1 e) s) (set_gpin i (Some (sl, None)) g).
Proof.
  intros HI He Hi Hp. apply (inv_pins s g sl e i); auto.
  - rewrite npins_add by done. lia.
  - intros k Hk. apply npins_other; [done|]. rewrite Hp. simpl. naive_solver.
Qed.

Lemma inv_unpin s g sl e i o :
  inv s g -> slots s !! sl = Some e -> (i < n)%nat -> gpin g i = Some (sl, o) ->
  inv (upd_slot sl (fun _ => add_pins (-1) e) s) (set_gpin i None g).
Proof.
  intros HI He Hi Hp. apply (inv_pins s g sl e i); auto.
  - assert (npins n g sl = S (npins n (set_gpin i None g) sl)); [|lia].
    rewrite <- (npins_add (set_gpin i None g) i o sl); [|done|simpl; by rewrite fn_lookup_insert].
    unfold npins. f_equal. apply filter_ext_in. intros j _. simpl. rewrite !fn_insert_case.
    case_decide; [subst j; by rewrite Hp|done].
  - intros k Hk. apply npins_other; [done|]. rewrite Hp. simpl. naive_solver.
Qed.

(** Holding the pointer that the pinned slot shows. *)
Lemma inv_hold s g sl e i p :
  inv s g -> slots s !! sl = Some e -> (i < n)%nat -> gpin g i = Some (sl, None) -> task e = Some p ->
  inv s (set_gpin i (Some (sl, Some p)) g).
Proof.
  intros HI He Hi Hp Ht. destruct (inv_slot_task s g sl e p HI He Ht) as (t & Htt & Hs & Hin).
  destruct HI as [I1 I2 I3 I4 I5 I6 I7 I8 I9]. constructor; simpl; try done.
  - intros q u Hu. by destruct (I2 q u Hu).
  - intros k e' He'. rewrite npins_other; [by apply I5|done|]. by rewrite Hp.
  - intros j k q. rewrite fn_insert_case. case_decide; [|apply I7]. intros [= <- <-]. split; [|by exists t].
    destruct (gst g p) as [| | | | | | | |[|[|?]]|]; done.
  - intros j. rewrite fn_insert_case. case_decide; [by subst j|apply I8].
Qed.

(** ** The run queues *)

Lemma inv_enqueue s g p i :
  inv s g -> gst g p = GHand i false ->
  inv (with_runnable (fun l => l ++ [p]) s) (set_gst p GQueued g).
Proof.
  intros HI Hp. destruct (inv_some s g p HI) as [t Ht]; [by rewrite Hp|].
  pose proof (iv_tasks _ _ _ _ HI p t Ht) as HT.
  assert (p ∉ runnable s) by (rewrite (ti_run _ _ _ _ HT), Hp; done).
  eapply (inv_task_runnable s g p t t GQueued); try done.
  - apply (inv_live s g); [done..|by rewrite Hp].
  - destruct HT. constructor; try done; rewrite Hp in *; done.
  - by rewrite upd_task_id by done.
  - apply list.NoDup_app. splits; [apply (iv_nodup _ _ _ _ HI)|set_solver|apply NoDup_singleton].
  - simpl. set_solver.
  - simpl. set_solver.
Qed.

Lemma inv_dispatch s g k p t :
  inv s g -> runnable s !! k = Some p -> tasks s !! p = Some t ->
  inv (upd_task p (fun _ => set_ctx false (Some Normal) t) (with_runnable (delete k) s)) (set_gst p GDeliv g).
Proof.
  intros HI Hk Ht. pose proof (iv_tasks _ _ _ _ HI p t Ht) as HT.
  assert (gst g p = GQueued) as Hp by (apply (ti_run _ _ _ _ HT); by eapply list_elem_of_lookup_2).
  pose proof (iv_nodup _ _ _ _ HI) as Hnd. rewrite <- (take_drop_middle _ _ _ Hk) in Hnd.
  apply list.NoDup_app in Hnd as (Hn1 & Hn2 & [Hn3 Hn4]%list.NoDup_cons).
  assert (delete k (runnable s) = take k (runnable s) ++ drop (S k) (runnable s)) as Ed by apply delete_take_drop.
  assert (forall q, q ∈ runnable s <-> q = p \/ q ∈ delete k (runnable s)) as Hin.
  { intros q. rewrite <- (take_drop_middle _ _ _ Hk) at 1. rewrite Ed. set_solver. }
  assert (p ∉ delete k (runnable s)) by (rewrite Ed; set_solver).
  eapply (inv_task_runnable s g p t (set_ctx false (Some Normal) t) GDeliv); try done.
  - apply (inv_live s g); [done..|by rewrite Hp].
  - destruct HT. constructor; try done; rewrite Hp in *; done.
  - simpl. rewrite Ed. apply list.NoDup_app. splits; try done. set_solver.
  - intros q Hq. simpl. rewrite Hin. naive_solver.
Qed.

Lemma inv_switches s g f : inv s g -> inv (with_switches f s) g.
Proof.
  intros [I1 I2 I3 I4 I5 I6 I7 I8 I9]. constructor; simpl; try done.
  intros p t Ht. by destruct (I2 p t Ht).
Qed.

Lemma inv_stopping s g v : inv s g -> inv (set_stopping v s) g.
Proof.
  intros [I1 I2 I3 I4 I5 I6 I7 I8 I9]. constructor; simpl; try done.
  intros p t Ht. by destruct (I2 p t Ht).
Qed.

(** ** Slots *)

(** [releaseTask]'s steps on its slot. *)
Lemma inv_fin s g p t e e' k :
  inv s g -> tasks s !! p = Some t -> gst g p = GFin (S k) -> slots s !! slot t = Some e ->
  pins e' = pins e -> task e' = None -> ((2 <= k)%nat -> pins e = 0) ->
  inv (upd_slot (slot t) (fun _ => e') s) (set_gst p (GFin (S (S k))) g).
Proof.
  intros HI Ht Hp He Hpin Hnone H0. pose proof (iv_tasks _ _ _ _ HI p t Ht) as HT.
  assert (Hlive : live s p = Some t) by (apply (inv_live s g); [done..|by rewrite Hp]).
  assert (forall q u, tasks s !! q = Some u -> gst g q <> GFreed -> q <> p -> slot u <> slot t) as Hinj.
  { intros q u Hu Hf Hne Heq. apply Hne. eapply (inv_slot_inj s g q p u t); try done. by rewrite Hp. }
  assert (Hnp : (2 <= k)%nat -> npins n g (slot t) = 0%nat).
  { intros Hk. destruct (iv_slots _ _ _ _ HI _ _ He) as [_ Hpe]. rewrite H0 in Hpe by done.
    pose proof (npins_bound g (slot t)) as Hb. unfold wrap32 in Hpe. rewrite wrap_small in Hpe; [lia|].
    red. lia. }
  pose proof HI as [I1 I2 I3 I4 I5 I6 I7 I8 I9]. constructor; simpl; try done.
  - by rewrite length_alter.
  - intros q u Hu. destruct (decide (q = p)) as [->|Hne].
    + rewrite Ht in Hu. injection Hu as <-. destruct HT as [T1 T2 T3 T4 T5 T6 T7]. rewrite Hp in *.
      constructor; simpl; rewrite ?fn_lookup_insert; try done.
      * rewrite T4. split; done.
      * intros _. destruct T6 as [G1 _]; [done|]. split; [done|]. exists e'. simpl.
        rewrite lookup_alter_case, decide_True, He by done. done.
    + pose proof (I2 q u Hu) as [T1 T2 T3 T4 T5 T6 T7]. constructor; simpl; rewrite ?fn_lookup_insert_ne by done; try done.
      intros Hf. destruct (T6 Hf) as [G1 (e1 & He1 & G2)]. split; [done|]. exists e1. simpl.
      rewrite lookup_alter_case, decide_False by (by apply Hinj with q). done.
  - intros q Hu. rewrite fn_lookup_insert_ne by congruence. auto.
  - intros sl e1 He1. rewrite lookup_alter_case in He1.
    assert (forall q, gst g q <> GFreed -> <[p:=GFin (S (S k))]> (gst g) q <> GFreed) as Hkeep.
    { intros q Hq. rewrite fn_insert_case. by destruct (decide (q = p)). }
    assert (exists e0, slots s !! sl = Some e0 /\ pins e1 = pins e0 /\ (task e0 = None -> task e1 = None))
      as (e0 & He0 & Hpe & Hte).
    { case_decide as Hd; [|by exists e1]. rewrite He in He1. injection He1 as <-. exists e. by rewrite Hd. }
    destruct (I5 sl e0 He0) as [Hs Hp1]. rewrite Hpe. split; [|done]. unfold slot_inv in *; simpl.
    destruct (gsl g sl); [destruct Hs; auto..|]. destruct Hs as (Hs1 & u & ? & ? & ?). split; [done|]. exists u. auto.
  - intros i sl q Hq. destruct (I7 i sl q Hq) as [Hh (u & Hu & Hs)]. split; [|by exists u].
    rewrite fn_insert_case. case_decide as Hd; [subst q|done].
    destruct k as [|[|k]]; [done..|]. exfalso.
    apply (npins_zero g (slot t) i); [apply I8; rewrite Hq; by left|apply Hnp; lia|].
    rewrite Hq. simpl. f_equal. congruence.
  - intros q. rewrite fn_insert_case. case_decide; [subst q|auto]. split; [intros _; apply I9; by rewrite Hp|done].
Qed.

(** The memory goes; the slot is the thread's alone. *)
Lemma inv_free s g p t i :
  inv s g -> tasks s !! p = Some t -> gst g p = GFin 4 ->
  inv (upd_task p (fun _ => set_alive false t) s) (set_gsl (slot t) (SAcq i) (set_gst p GFreed g)).
Proof.
  intros HI Ht Hp. pose proof (iv_tasks _ _ _ _ HI p t Ht) as HT.
  assert (forall q u, tasks s !! q = Some u -> gst g q <> GFreed -> q <> p -> slot u <> slot t) as Hinj.
  { intros q u Hu Hf Hne Heq. apply Hne. eapply (inv_slot_inj s g q p u t); try done. by rewrite Hp. }
  pose proof HI as [I1 I2 I3 I4 I5 I6 I7 I8 I9]. constructor; simpl; try done.
  - intros q u Hu. rewrite lookup_alter_case, Ht in Hu. case_decide as Hd; [subst q; injection Hu as <-|].
    + destruct HT as [T1 T2 T3 T4 T5 T6 T7]. rewrite Hp in *.
      constructor; simpl; rewrite ?fn_lookup_insert; try done. by rewrite T4.
    + pose proof (I2 q u Hu) as [T1 T2 T3 T4 T5 T6 T7].
      constructor; simpl; rewrite ?(fn_lookup_insert_ne (gst g) p) by done; try done.
      intros Hf. rewrite fn_lookup_insert_ne by (apply not_eq_sym; by apply Hinj with q). auto.
  - intros q Hu. rewrite lookup_alter_case, Ht in Hu. case_decide; [done|]. rewrite fn_lookup_insert_ne by done. auto.
  - intros sl e He. destruct (I5 sl e He) as [Hs Hpe]. split; [|done]. unfold slot_inv in *; simpl.
    rewrite fn_insert_case. case_decide as Hd.
    + subst sl. destruct HT as [_ _ _ _ _ T6 _]. rewrite Hp in T6. destruct T6 as [G1 (e1 & He1 & G2)]; [done|].
      rewrite G1 in Hs. simplify_eq. simpl in G2. naive_solver.
    + destruct (gsl g sl) as [| |q]; [done|done|]. destruct Hs as (Hs1 & u & Hu & Hs2 & Hs3). split; [done|].
      exists u. assert (q <> p) by (intros ->; congruence).
      rewrite lookup_alter_case, decide_False, fn_lookup_insert_ne by done. done.
  - intros j sl q Hq. destruct (I7 j sl q Hq) as [Hh (u & Hu & Hs)]. assert (q <> p) by (intros ->; by rewrite Hp in Hh).
    rewrite fn_lookup_insert_ne, lookup_alter_case, decide_False by done. eauto.
  - intros q. rewrite fn_insert_case. case_decide; [subst q|auto]. split; [intros _; apply I9; by rewrite Hp|done].
Qed.

(** A slot that belongs to no task changes hands. *)
Lemma inv_reslot s g sl f x :
  inv s g -> (sl < maxTasks)%nat -> (forall p, gsl g sl <> STask p) ->
  NoDup f -> (forall k, k <> sl -> k ∈ f <-> k ∈ freeSlots s) ->
  match x with SFree => sl ∈ f | SAcq _ => sl ∉ f | STask _ => False end ->
  inv (with_free (fun _ => f) s) (set_gsl sl x g).
Proof.
  intros [I1 I2 I3 I4 I5 I6 I7 I8 I9] Hsl Hg Hnd Hf Hx. constructor; simpl; try done.
  - intros p t Ht. pose proof (I2 p t Ht) as [T1 T2 T3 T4 T5 T6 T7]. constructor; simpl; try done.
    intros Hp. destruct (T6 Hp) as [G1 G2]. rewrite fn_lookup_insert_ne; [done|]. intros Heq. rewrite <- Heq in G1. by eapply Hg.
  - intros k e He. destruct (I5 k e He) as [Hs Hp]. split; [|done]. unfold slot_inv in *; simpl.
    rewrite fn_insert_case. case_decide as Hd.
    + subst k. assert (task e = None) by (destruct (gsl g sl) eqn:E; [naive_solver|naive_solver|by destruct (Hg p)]).
      by destruct x.
    + destruct (gsl g k); rewrite ?Hf by done; done.
  - split; [done|]. intros k Hk. destruct (decide (k = sl)) as [->|]; [done|]. apply I6. by apply Hf.
Qed.

(** The new task is in the slab, and its spawner will schedule it. *)
Lemma inv_publish s g sl e i :
  inv s g -> slots s !! sl = Some e -> gsl g sl = SAcq i -> (i < n)%nat ->
  let p := length (tasks s) in
  inv (with_slots (alter (set_task (Some p)) sl)
        (with_tasks (fun l => l ++ [MkTask Running 0 sl (slot_generation e) true true None]) s))
      (set_gsl sl (STask p) (set_gst p (GHand i false) (set_gown p i g))).
Proof.
  intros [I1 I2 I3 I4 I5 I6 I7 I8 I9] He Hg Hi p. set (t0 := MkTask _ _ _ _ _ _ _).
  assert (forall q, (tasks s ++ [t0]) !! q = if decide (q = p) then Some t0 else tasks s !! q) as Hlk.
  { intros q. case_decide as Hd.
    - subst q. by apply list_lookup_middle.
    - destruct (decide (q < p)%nat); [by apply lookup_app_l|].
      rewrite !lookup_ge_None_2; [done| |rewrite length_app; simpl]; unfold p in *; lia. }
  assert (tasks s !! p = None) as Hnp by (apply lookup_ge_None_2; done).
  destruct (I3 p Hnp) as [Gp Rp].
  assert (task e = None /\ sl ∉ freeSlots s) as [Hte Hnf].
  { destruct (I5 sl e He) as [Hs _]. unfold slot_inv in Hs. rewrite Hg in Hs. naive_solver. }
  constructor; simpl; try done.
  - by rewrite length_alter.
  - intros q u Hu. rewrite Hlk in Hu. case_decide as Hd; [subst q; injection Hu as <-|].
    + constructor; simpl; rewrite ?fn_lookup_insert; try done; [by left|].
      intros _. split; [done|]. exists (set_task (Some p) e). simpl.
      rewrite lookup_alter_case, decide_True, He by done. done.
    + pose proof (I2 q u Hu) as [T1 T2 T3 T4 T5 T6 T7].
      constructor; simpl; rewrite ?(fn_lookup_insert_ne (gst g) p) by done; try done.
      intros Hf. destruct (T6 Hf) as [G1 (e1 & He1 & G2)].
      assert (slot u <> sl) by congruence. rewrite fn_lookup_insert_ne by done. split; [done|].
      exists e1. simpl. rewrite lookup_alter_case, decide_False by done. done.
  - intros q Hu. rewrite Hlk in Hu. case_decide; [done|]. rewrite fn_lookup_insert_ne by done. auto.
  - intros k e' He'. unfold slot_inv; simpl. rewrite lookup_alter_case in He'. rewrite fn_insert_case.
    case_decide as Hd.
    + subst k. rewrite He in He'. injection He' as <-. split; [|by apply (I5 sl e He)]. split; [done|].
      exists t0. rewrite Hlk, decide_True, fn_lookup_insert by done. done.
    + destruct (I5 k e' He') as [Hs Hp']. split; [|done]. unfold slot_inv in Hs.
      destruct (gsl g k) as [| |q]; [done|done|]. destruct Hs as (Hs1 & u & Hu & Hs2). split; [done|].
      assert (q <> p) by congruence. exists u. rewrite Hlk, decide_False, fn_lookup_insert_ne by done. done.
  - intros j k q Hq. destruct (I7 j k q Hq) as [Hh (u & Hu & Hs)]. assert (q <> p) by congruence.
    rewrite fn_lookup_insert_ne, Hlk, decide_False by done. eauto.
  - intros q. rewrite !fn_insert_case. case_decide; [|apply I9]. split; [done|]. by intros j <-.
Qed.
End steps.
