(* ===== verification/ParkThreads.v ===== *)
(** * Tasks: the operations against the protocol

    Triples for the operations of Park.v, each from what the thread knows of
    itself ([at_]) to what it knows afterwards, with every other thread
    running at the same time. *)

From Stdlib Require Import ZArith Lia.
From stdpp Require Import base tactics list numbers option strings functions sets.
From S2P Require Import Prelude Conc Park ParkInv ParkSteps.

Section threads.
Context (n maxTasks : nat) (Hn : Z.of_nat n < 2 ^ 32).
Implicit Types (s : world) (g : ghost).
#[local] Abbreviation inv := (park_inv n maxTasks).
#[local] Abbreviation proto := (park_protocol n maxTasks).
#[local] Hint Resolve stable_at stable_token stable_and stable_const park_guar_refl : core.

(** ** Guarantees *)

Lemma guar_gst i s g s' p x' :
  tstep i (gown g p) (gst g p) x' -> gst g p <> GNone ->
  (forall q t, tasks s !! q = Some t -> exists t', tasks s' !! q = Some t' /\ token_of t' = token_of t) ->
  (forall sl j e, j <> i -> gsl g sl = SAcq j -> slots s !! sl = Some e ->
     exists e', slots s' !! sl = Some e' /\ slot_generation e' = slot_generation e) ->
  park_guar i (s, g) (s', set_gst p x' g).
Proof.
  intros Hs Hp Ht Hsl. constructor; simpl; try done.
  - intros q. rewrite fn_insert_case. case_decide; [by subst q|constructor].
  - intros q Hq. rewrite fn_insert_case. case_decide; [by subst q|by left].
Qed.

Lemma guar_pend i a s' g' v : park_guar i a (s', g') -> park_guar i a (s', set_gpend i v g').
Proof.
  intros []. constructor; simpl in *; try done. intros j Hj. rewrite fn_lookup_insert_ne by done. auto.
Qed.

Lemma guar_pin i a s' g' v : park_guar i a (s', g') -> park_guar i a (s', set_gpin i v g').
Proof.
  intros []. constructor; simpl in *; try done. intros j Hj. rewrite fn_lookup_insert_ne by done. auto.
Qed.

(** A step that changes no ghost phase. *)
Lemma guar_state i s g s' :
  tasks s' = tasks s ->
  (forall sl e, slots s !! sl = Some e -> exists e', slots s' !! sl = Some e' /\ slot_generation e' = slot_generation e) ->
  park_guar i (s, g) (s', g).
Proof. intros Ht Hsl. constructor; simpl; eauto with sf. rewrite Ht. eauto. Qed.

Lemma keep_tokens p t t' s :
  tasks s !! p = Some t -> token_of t' = token_of t ->
  forall q u, tasks s !! q = Some u -> exists u', tasks (upd_task p (fun _ => t') s) !! q = Some u' /\ token_of u' = token_of u.
Proof.
  intros Ht Htok q u Hu. simpl. rewrite lookup_alter_case. case_decide as Hd; [subst q|by exists u].
  rewrite Ht in Hu |- *. injection Hu as <-. by exists t'.
Qed.

Lemma keep_generations sl e e' s :
  slots s !! sl = Some e -> slot_generation e' = slot_generation e ->
  forall k u, slots s !! k = Some u ->
  exists u', slots (upd_slot sl (fun _ => e') s) !! k = Some u' /\ slot_generation u' = slot_generation u.
Proof.
  intros He Hg k u Hu. simpl. rewrite lookup_alter_case. case_decide as Hd; [subst k|by exists u].
  rewrite He in Hu |- *. injection Hu as <-. by exists e'.
Qed.

(** ** Local knowledge after a step *)

Definition handb (i : nat) (x : phase) : bool :=
  match x with GHand k _ | GClaim k => bool_decide (k = i) | _ => false end.
Lemma handb_spec i x : handb i x = true <-> in_hands i x.
Proof. destruct x; simpl; rewrite ?bool_decide_eq_true; done. Qed.

Definition hand_after i p x' : option (ptr * phase) := if handb i x' then Some (p, x') else None.

(** What becomes of the thread's own task. *)
Definition own_after i g p x' (own own' : option (ptr * option phase)) : Prop :=
  (own' = own /\ (forall z, own <> Some (p, Some z)) /\
     (gown g p = i -> is_out x' = true /\ is_out (gst g p) = true)) \/
  (exists y y', own = Some (p, y) /\ own' = Some (p, y') /\
     match y' with Some z => z = x' /\ owner_ctl i x' | None => is_out x' = true end) \/
  (exists y, own = Some (p, y) /\ own' = None /\ x' = GFreed).

Lemma at_gst i pin pend own hand own' p x' s g s' :
  at_ i (Local pin pend own hand) s g -> gst g p <> GNone ->
  (hand = None \/ exists x, hand = Some (p, x)) -> own_after i g p x' own own' ->
  at_ i (Local pin pend own' (hand_after i p x')) s' (set_gst p x' g).
Proof.
  intros [A1 A2 A3 A4 A5 A6] Hp Hh Ho. simpl in *. constructor; simpl; try done.
  - intros q x Hx. rewrite fn_insert_case. destruct Ho as [(-> & Hz & Hi)|[(y & y' & -> & -> & Hy)|(y & -> & -> & ->)]].
    + destruct (A3 q x Hx) as [Ho Hs]. split; [done|]. case_decide; [subst q|done].
      destruct x as [z|]; [by destruct (Hz z)|]. by apply Hi.
    + injection Hx as <- <-. split; [by eapply A3|]. rewrite decide_True by done. destruct y'; [naive_solver|done].
    + done.
  - intros q Hq. rewrite fn_insert_case. case_decide as Hd.
    + subst q. destruct Ho as [(-> & Hz & Hi)|[(y & y' & -> & -> & Hy)|(y & -> & -> & ->)]].
      * destruct (Hi Hq) as [H1 H2]. destruct (A4 p Hq) as [|[Hf|]]; [done| |by right; right]. by rewrite Hf in H2.
      * eauto.
      * auto.
    + destruct (A4 q Hq) as [|[|[y Hy]]]; auto. right; right.
      destruct Ho as [(-> & _)|[(y1 & y' & -> & -> & _)|(y1 & -> & -> & _)]]; [eauto| |]; congruence.
  - unfold hand_after. intros q x. destruct (handb i x') eqn:E; [|done]. intros [= <- <-].
    rewrite fn_lookup_insert. split; [done|]. by apply handb_spec.
  - intros q. unfold hand_after. rewrite fn_insert_case. case_decide as Hd.
    + subst q. intros E%handb_spec. by rewrite E.
    + intros E. specialize (A6 q E). destruct Hh as [->|[x ->]]; congruence.
Qed.

Lemma at_state i l s s' g : at_ i l s g -> at_ i l s' g.
Proof. by intros []. Qed.

Lemma at_set_pend i pin pend own hand s g v :
  at_ i (Local pin pend own hand) s g -> at_ i (Local pin v own hand) s (set_gpend i v g).
Proof. intros []. constructor; simpl in *; try done. by rewrite fn_lookup_insert. Qed.

Lemma at_set_pin i pin pend own hand s g v :
  at_ i (Local pin pend own hand) s g -> at_ i (Local v pend own hand) s (set_gpin i v g).
Proof. intros []. constructor; simpl in *; try done. by rewrite fn_lookup_insert. Qed.

Lemma at_not_none i pin pend own hand s g p x :
  at_ i (Local pin pend own hand) s g -> hand = Some (p, x) -> gst g p = x /\ gst g p <> GNone.
Proof. intros Ha Hh. destruct (at_hand _ _ _ _ Ha p x Hh) as [E Hi]. split; [done|]. rewrite E. by destruct x. Qed.

(** ** Rules for the accesses *)

Lemma rg_taccess {A X} i p (f : Task -> list (Task * X)) (k : X -> prog world A) P Q :
  (forall s g, inv s g -> P s g -> exists t, live s p = Some t /\ f t <> [] /\
     forall t' x, (t', x) ∈ f t -> exists g' P',
       inv (upd_task p (fun _ => t') s) g' /\ park_guar i (s, g) (upd_task p (fun _ => t') s, g') /\
       P' (upd_task p (fun _ => t') s) g' /\ stable proto i P' /\ rg proto i (k x) P' Q) ->
  rg proto i (bind (taccess p f) k) P Q.
Proof.
  intros H. split.
  - intros s g HI HP. destruct (H s g HI HP) as (t & Ht & Hf & _). simpl. rewrite Ht. by destruct (f t).
  - intros s g s' o HI HP Hx. destruct (H s g HI HP) as (t & Ht & Hf & Hk). simpl in Hx. rewrite Ht in Hx.
    apply list_elem_of_fmap in Hx as ([t' x] & [= -> ->] & Hx).
    destruct (Hk t' x Hx) as (g' & P' & ? & ? & ? & ? & ?). exists g', P'. splits; try done.
Qed.

Lemma rg_tget {A X} i p (f : Task -> X) (k : X -> prog world A) P Q :
  (forall s g, inv s g -> P s g -> exists t g' P', live s p = Some t /\ inv s g' /\ park_guar i (s, g) (s, g') /\
     P' s g' /\ stable proto i P' /\ rg proto i (k (f t)) P' Q) ->
  rg proto i (bind (tget p f) k) P Q.
Proof.
  intros H. apply rg_taccess. intros s g HI HP. destruct (H s g HI HP) as (t & g' & P' & Ht & H').
  exists t. splits; [done|done|]. intros t' x [= -> ->]%list_elem_of_singleton. exists g', P'.
  rewrite upd_task_id; [done|]. by apply live_Some in Ht as [? _].
Qed.

Lemma rg_saccess {A X} i sl (f : TaskSlot -> TaskSlot * X) (k : X -> prog world A) P Q :
  (sl < maxTasks)%nat ->
  (forall s g e, inv s g -> P s g -> slots s !! sl = Some e -> exists g' P',
     inv (upd_slot sl (fun _ => (f e).1) s) g' /\ park_guar i (s, g) (upd_slot sl (fun _ => (f e).1) s, g') /\
     P' (upd_slot sl (fun _ => (f e).1) s) g' /\ stable proto i P' /\ rg proto i (k (f e).2) P' Q) ->
  rg proto i (bind (saccess sl f) k) P Q.
Proof.
  intros Hsl H.
  assert (forall s g, inv s g -> exists e, slots s !! sl = Some e) as He.
  { intros s g HI. apply lookup_lt_is_Some_2. by rewrite (iv_len _ _ _ _ HI). }
  split.
  - intros s g HI HP. destruct (He s g HI) as [e E]. simpl. by rewrite E.
  - intros s g s' o HI HP Hx. destruct (He s g HI) as [e E]. simpl in Hx. rewrite E in Hx.
    apply list_elem_of_singleton in Hx. injection Hx as -> ->.
    destruct (H s g e HI HP E) as (g' & P' & ? & ? & ? & ? & ?). exists g', P'. splits; try done.
Qed.

Lemma rg_sget {A X} i sl (f : TaskSlot -> X) (k : X -> prog world A) P Q :
  (sl < maxTasks)%nat ->
  (forall s g e, inv s g -> P s g -> slots s !! sl = Some e -> exists g' P',
     inv s g' /\ park_guar i (s, g) (s, g') /\ P' s g' /\ stable proto i P' /\ rg proto i (k (f e)) P' Q) ->
  rg proto i (bind (sget sl f) k) P Q.
Proof.
  intros Hsl H. apply rg_saccess; [done|]. intros s g e HI HP He. simpl. rewrite upd_slot_id by done. eauto.
Qed.

(** ** Waking *)

Lemma fn_same (f : ptr -> phase) p q : <[p := f p]> f q = f q.
Proof. rewrite fn_insert_case. case_decide; congruence. Qed.

Lemma inv_same_phase s g p : inv s (set_gst p (gst g p) g) -> inv s g.
Proof.
  intros [I1 I2 I3 I4 I5 I6 I7 I8 I9]. simpl in *. constructor; try done.
  - intros q u Hu. destruct (I2 q u Hu) as [T1 T2 T3 T4 T5 T6 T7]. simpl in *. rewrite fn_same in *. by constructor.
  - intros q Hq. destruct (I3 q Hq). by rewrite fn_same in *.
  - intros sl e He. destruct (I5 sl e He) as [Hs Hp]. split; [|done]. unfold slot_inv in *. simpl in *.
    destruct (gsl g sl) as [| |q]; try done. by rewrite fn_same in *.
  - intros i sl q Hq. specialize (I7 i sl q Hq). by rewrite fn_same in *.
  - intros q. specialize (I9 q). by rewrite fn_same in *.
Qed.

(** The token whose wake thread [i] owes is [p]'s, which does not need it. *)
Lemma inv_drop_for s g i p t :
  inv s g -> tasks s !! p = Some t -> gst g p <> GFreed ->
  (forall tok, gpend g i = Some tok -> tok = token_of t) -> ~ needs_wake (gst g p) (parkState t) ->
  inv s (set_gpend i None g).
Proof.
  intros HI Ht Hf Htok Hnn. apply inv_drop_pend; [done|]. intros q u Hu Hpend Hnw.
  apply Htok in Hpend. injection Hpend as Hs _. destruct (needs_in_slot _ _ Hnw) as [_ Hq].
  assert (q = p) as -> by (by eapply (inv_slot_inj n maxTasks s g q p u t)). by simplify_eq.
Qed.

Lemma needs_not_NotDone x st : state_ok x st -> st = Notified \/ st = Done -> ~ needs_wake x st.
Proof. destruct x as [|? []| | | | |[]| |[]|]; simpl; naive_solver. Qed.

Section triples.
Context (i : nat) (Hi : (i < n)%nat).

(** What a thread inside [wake] knows: the pinned pointer, and that the
    wake it owes, if any, is for this task. *)
Definition waking sl p pend own : asrt world ghost := fun s g =>
  at_ i (Local (Some (sl, Some p)) pend own None) s g /\ (forall tok, pend = Some tok -> token_is p tok s g).

Lemma stable_waking sl p pend own : stable proto i (waking sl p pend own).
Proof.
  apply stable_and; [auto|]. intros j s g s' g' Hj HI HI' HG H tok Htok.
  by eapply (stable_token n maxTasks i p tok j s g s' g'); auto.
Qed.
#[local] Hint Resolve stable_waking : core.

(** After reading [parkState]: a state that needs no wake settles the debt. *)
Lemma read_state s g sl p t pend own :
  inv s g -> waking sl p pend own s g -> live s p = Some t ->
  exists pend' g', inv s g' /\ park_guar i (s, g) (s, g') /\ waking sl p pend' own s g' /\
    (parkState t = Notified \/ parkState t = Done -> pend' = None).
Proof.
  intros HI [Ha Htok] Hl. pose proof Hl as [Ht _]%live_Some.
  destruct (inv_task_of _ _ _ _ _ _ HI Hl) as (HT & Hf & _).
  destruct (decide (parkState t = Notified \/ parkState t = Done)) as [Hd|Hd].
  - exists None, (set_gpend i None g). splits; [|by apply guar_pend, park_guar_refl| |done].
    + eapply inv_drop_for; [done..| |by eapply needs_not_NotDone; [apply HT|]].
      intros tok E. rewrite (at_pend _ _ _ _ Ha) in E. destruct (Htok tok E) as (u & Hu & <-). by simplify_eq.
    + split; [by eapply at_set_pend|done].
  - exists pend, g. splits; done || apply park_guar_refl.
Qed.

(** Storing [Running], then making it runnable. *)
Lemma rg_store_enqueue p pin pend own Q :
  (forall z, own <> Some (p, Some z)) ->
  (forall s g, inv s g -> at_ i (Local pin pend own None) s g -> Q tt s g) ->
  rg proto i (tset p (set_parkState Running);;; enqueue p)
    (at_ i (Local pin pend own (Some (p, GHand i true)))) Q.
Proof.
  intros Hown HQ. apply rg_taccess. intros s g HI Ha.
  destruct (at_not_none _ _ _ _ _ _ _ _ _ Ha eq_refl) as [Hp Hnn].
  destruct (inv_some _ _ _ _ _ HI Hnn) as [t Ht].
  assert (live s p = Some t) as Hl by (apply (inv_live n maxTasks s g); [done..|by rewrite Hp]).
  exists t. splits; [done|done|]. intros t' x [= -> ->]%list_elem_of_singleton.
  pose proof (iv_tasks _ _ _ _ HI p t Ht) as HT. apply live_Some in Hl as [_ Hal].
  eexists (set_gst p (GHand i false) g), (at_ i (Local pin pend own (Some (p, GHand i false)))).
  splits; [| | |auto|].
  - apply inv_task_step with t; [done|by apply live_Some| |by rewrite Hp].
    destruct HT. rewrite Hp in *. constructor; try done; simpl; rewrite ?Hp; auto. by intros j <-.
  - apply guar_gst; [rewrite Hp; constructor|done|by eapply keep_tokens|eauto].
  - replace (Some (p, GHand i false)) with (hand_after i p (GHand i false))
      by (unfold hand_after; simpl; by rewrite bool_decide_true).
    eapply at_gst; [done|done|by right; eauto|]. left. splits; try done. intros _. by rewrite Hp.
  - apply (rg_store proto i _ (@Ret world unit)). intros s1 g1 HI1 Ha1.
    destruct (at_not_none _ _ _ _ _ _ _ _ _ Ha1 eq_refl) as [Hp1 Hnn1].
    exists (set_gst p GQueued g1), (at_ i (Local pin pend own None)). splits; [| | |auto|].
    + by eapply inv_enqueue.
    + apply guar_gst; [rewrite Hp1; constructor|done|eauto|eauto].
    + eapply (at_gst i pin pend own _ own p GQueued); [done|done|by right; eauto|]. left. splits; try done.
      intros _. by rewrite Hp1.
    + simpl. eauto.
Qed.

(** The compare-exchange that delivers the wake. *)
Lemma wake_notify s g sl p t pend own :
  inv s g -> waking sl p pend own s g -> live s p = Some t -> parkState t = Running ->
  let s' := upd_task p (fun _ => set_parkState Notified t) s in
  inv s' (set_gpend i None g) /\ park_guar i (s, g) (s', set_gpend i None g) /\
  waking sl p None own s' (set_gpend i None g).
Proof.
  intros HI [Ha Htok] Hl Hst s'. pose proof Hl as [Ht Hal]%live_Some.
  destruct (inv_task_of _ _ _ _ _ _ HI Hl) as (HT & Hf & Hnn).
  assert (inv s' g) as HI'.
  { apply (inv_same_phase s' g p). apply inv_task_step with t; [done..| |done].
    destruct HT as [T1 T2 T3 T4 T5 T6 T7]. rewrite Hst in *. constructor; try done; simpl.
    - destruct (gst g p) as [|? []| | | | | | |[]|]; simpl in *; auto; naive_solver.
    - destruct (gst g p) as [|? []| | | | |[]| |[]|]; simpl in *; naive_solver.
    - by apply (iv_own _ _ _ _ HI p). }
  assert (tasks s' !! p = Some (set_parkState Notified t)) as Ht'.
  { simpl. by rewrite lookup_alter_case, decide_True, Ht. }
  splits.
  - eapply inv_drop_for; [done..| |].
    + intros tok E. rewrite (at_pend _ _ _ _ Ha) in E. destruct (Htok tok E) as (u & Hu & <-). by simplify_eq.
    + eapply needs_not_NotDone; [|by left]. apply (iv_tasks _ _ _ _ HI' p _ Ht').
  - apply guar_pend. constructor; simpl; eauto with sf. by eapply keep_tokens.
  - split; [|done]. eapply at_set_pend, at_state. done.
Qed.

Lemma wake_parked s g sl p t pend own :
  inv s g -> waking sl p pend own s g -> live s p = Some t -> parkState t = Parked ->
  let s' := upd_task p (fun _ => set_parkState Notified t) s in
  let g' := set_gpend i None (set_gst p (GHand i true) g) in
  inv s' g' /\ park_guar i (s, g) (s', g') /\
  at_ i (Local (Some (sl, Some p)) None own (Some (p, GHand i true))) s' g' /\
  (forall z, own <> Some (p, Some z)).
Proof.
  intros HI [Ha Htok] Hl Hst s' g'. pose proof Hl as [Ht Hal]%live_Some.
  destruct (inv_task_of _ _ _ _ _ _ HI Hl) as (HT & Hf & Hnn).
  assert (gst g p = GAsleep) as Hp.
  { pose proof (ti_state _ _ _ _ HT) as Hs. rewrite Hst in Hs.
    destruct (gst g p) as [|? []| | | | | | |[]|]; simpl in Hs; naive_solver. }
  assert (forall z, own <> Some (p, Some z)) as Hown.
  { intros z E. destruct (at_own _ _ _ _ Ha p _ E) as [_ [Hz Hc]]. by rewrite <- Hz, Hp in Hc. }
  assert (inv s' (set_gst p (GHand i true) g)) as HI'.
  { apply inv_task_step with t; [done..| |by rewrite Hp].
    destruct HT as [T1 T2 T3 T4 T5 T6 T7]. rewrite Hp, Hst in *. constructor; try done; simpl; rewrite ?Hp; try done.
    by intros j <-. }
  assert (tasks s' !! p = Some (set_parkState Notified t)) as Ht'.
  { simpl. by rewrite lookup_alter_case, decide_True, Ht. }
  splits; [| | |done].
  - apply (inv_drop_for s' _ i p (set_parkState Notified t)); [done|done|simpl; by rewrite fn_lookup_insert| |].
    2: { simpl. rewrite fn_lookup_insert. by intros []. }
    intros tok E. simpl in E. rewrite (at_pend _ _ _ _ Ha) in E. destruct (Htok tok E) as (u & Hu & <-). by simplify_eq.
  - apply guar_pend, guar_gst; [rewrite Hp; constructor|done|by eapply keep_tokens|eauto].
  - eapply at_set_pend.
    replace (Some (p, GHand i true)) with (hand_after i p (GHand i true))
      by (unfold hand_after; simpl; by rewrite bool_decide_true).
    eapply at_gst; [done|done|by left|]. left. splits; try done. intros _. by rewrite Hp.
Qed.

Lemma rg_wake_loop fuel sl p st pend own :
  (st = Notified \/ st = Done -> pend = None) ->
  rg proto i (wake_loop fuel p st) (waking sl p pend own)
    (fun _ => at_ i (Local (Some (sl, Some p)) None own None)).
Proof.
  revert st pend. induction fuel as [|fuel IH]; intros st pend Hpend; [done|]. simpl.
  case_decide as Hd; [rewrite (Hpend Hd); by intros s g _ [? _]|].
  apply rg_taccess. intros s g HI Hw. pose proof Hw as [Ha _].
  destruct (inv_held _ _ _ _ _ _ _ HI (at_pin _ _ _ _ Ha)) as (t & Hl & Ht & _). exists t.
  assert (forall x, x = (false, parkState t) -> exists g' P',
    inv (upd_task p (fun _ => t) s) g' /\ park_guar i (s, g) (upd_task p (fun _ => t) s, g') /\
    P' (upd_task p (fun _ => t) s) g' /\ stable proto i P' /\
    rg proto i (if x.1 then if decide (st = Parked) then tset p (set_parkState Running);;; enqueue p else Ret tt
                else wake_loop fuel p x.2) P' (fun _ => at_ i (Local (Some (sl, Some p)) None own None))) as Hfail.
  { intros x ->. rewrite upd_task_id by done.
    destruct (read_state s g sl p t pend own HI Hw Hl) as (pend' & g' & ? & ? & ? & ?).
    exists g', (waking sl p pend' own). splits; auto. by apply IH. }
  splits; [done|by destruct (decide (parkState t = st))|]. intros t' x Hx. case_decide as Hst.
  - apply elem_of_cons in Hx as [Hx|Hx%list_elem_of_singleton]; injection Hx as -> ->; [|by apply Hfail].
    simpl. case_decide as Hpk.
    + destruct (wake_parked s g sl p t pend own HI Hw Hl) as (? & ? & ? & ?); [congruence|].
      eexists _, _. splits; [done|done|done|auto|]. by apply rg_store_enqueue.
    + assert (parkState t = Running) as Hr by (destruct (parkState t); naive_solver).
      destruct (wake_notify s g sl p t pend own HI Hw Hl Hr) as (? & ? & ?).
      eexists _, (waking sl p None own). splits; [done|done|done|auto|]. by intros ? ? _ [? _].
  - apply list_elem_of_singleton in Hx. injection Hx as -> ->. by apply Hfail.
Qed.

Lemma rg_wake fuel sl p pend own :
  rg proto i (wake fuel p) (waking sl p pend own)
    (fun _ => at_ i (Local (Some (sl, Some p)) None own None)).
Proof.
  apply rg_tget. intros s g HI Hw. pose proof Hw as [Ha _].
  destruct (inv_held _ _ _ _ _ _ _ HI (at_pin _ _ _ _ Ha)) as (t & Hl & Ht & _).
  destruct (read_state s g sl p t pend own HI Hw Hl) as (pend' & g' & ? & ? & ? & ?).
  exists t, g', (waking sl p pend' own). splits; auto. by apply rg_wake_loop.
Qed.

(** ** Pinning a slot and reading it *)

Lemma rg_pin {A} sl pend own (k : unit -> prog world A) Q :
  (sl < maxTasks)%nat ->
  rg proto i (k tt) (at_ i (Local (Some (sl, None)) pend own None)) Q ->
  rg proto i (bind (sset sl (add_pins 1)) k) (at_ i (Local None pend own None)) Q.
Proof.
  intros Hsl Hk. apply rg_saccess; [done|]. intros s g e HI Ha He. simpl.
  exists (set_gpin i (Some (sl, None)) g), (at_ i (Local (Some (sl, None)) pend own None)). splits; auto.
  - apply inv_pin; [done..|]. apply (at_pin _ _ _ _ Ha).
  - apply guar_pin, guar_state; [done|]. by eapply keep_generations.
  - eapply at_set_pin, at_state. done.
Qed.

Lemma rg_unpin sl o pend own hand (Q : unit -> asrt world ghost) :
  (sl < maxTasks)%nat ->
  (forall s g, inv s g -> at_ i (Local None pend own hand) s g -> Q tt s g) ->
  rg proto i (sset sl (add_pins (-1))) (at_ i (Local (Some (sl, o)) pend own hand)) Q.
Proof.
  intros Hsl HQ. apply rg_bind_ret, rg_saccess; [done|]. intros s g e HI Ha He. simpl.
  exists (set_gpin i None g), (at_ i (Local None pend own hand)). splits; auto.
  - eapply inv_unpin; [done..|]. apply (at_pin _ _ _ _ Ha).
  - apply guar_pin, guar_state; [done|]. by eapply keep_generations.
  - eapply at_set_pin, at_state. done.
Qed.

(** The slot shows that no task needs the wake that is owed. *)
Lemma inv_drop_slot s g sl e :
  inv s g -> slots s !! sl = Some e ->
  (forall tok, gpend g i = Some tok -> tok.1 = sl /\
     forall q u, task e = Some q -> tasks s !! q = Some u -> slot_generation e = generation u -> token_of u <> tok) ->
  inv s (set_gpend i None g).
Proof.
  intros HI He H. apply inv_drop_pend; [done|]. intros q u Hu Hpend Hnw.
  destruct (needs_in_slot _ _ Hnw) as [Hin Hf]. destruct (H _ Hpend) as [Hs Hno]. simpl in Hs.
  destruct (ti_slot _ _ _ _ (iv_tasks _ _ _ _ HI q u Hu) Hf) as [_ (e' & He' & Hh)].
  rewrite Hs, He in He'. injection He' as <-. rewrite Hin in Hh. destruct Hh as [H1 H2]. by eapply Hno.
Qed.

(** The task pointer of a pinned slot. *)
Lemma rg_get_task {A} sl pend own (k : option ptr -> prog world A) Q :
  (sl < maxTasks)%nat -> (forall tok, pend = Some tok -> tok.1 = sl) ->
  (forall p pend', pend' = pend \/ pend' = None -> rg proto i (k (Some p)) (waking sl p pend' own) Q) ->
  rg proto i (k None) (at_ i (Local (Some (sl, None)) None own None)) Q ->
  rg proto i (bind (sget sl task) k) (at_ i (Local (Some (sl, None)) pend own None)) Q.
Proof.
  intros Hsl Hpend Hsome Hnone. apply rg_sget; [done|]. intros s g e HI Ha He.
  assert (forall tok, gpend g i = Some tok -> tok.1 = sl) as Hpd by (by rewrite (at_pend _ _ _ _ Ha)).
  destruct (task e) as [p|] eqn:Et.
  - pose proof (inv_hold _ _ _ _ _ _ _ _ HI He Hi (at_pin _ _ _ _ Ha) Et) as HI'.
    destruct (inv_slot_task _ _ _ _ _ _ _ HI He Et) as (t & Ht & Hs & Hin).
    destruct (decide (pend = Some (token_of t))) as [Htok|Htok].
    + exists (set_gpin i (Some (sl, Some p)) g), (waking sl p pend own). splits; auto.
      * apply guar_pin, park_guar_refl.
      * split; [by eapply at_set_pin|]. intros tok E. exists t. split; congruence.
    + exists (set_gpend i None (set_gpin i (Some (sl, Some p)) g)), (waking sl p None own). splits; auto.
      * eapply inv_drop_slot; [done|done|]. simpl. intros tok E. split; [auto|]. intros q u Eq Hu _ <-.
        rewrite (at_pend _ _ _ _ Ha) in E. simpl in E. simplify_eq.
      * apply guar_pend, guar_pin, park_guar_refl.
      * split; [|done]. by eapply at_set_pend, at_set_pin.
  - exists (set_gpend i None g), (at_ i (Local (Some (sl, None)) None own None)). splits; auto.
    + eapply inv_drop_slot; [done|done|]. intros tok E. split; [auto|]. congruence.
    + apply guar_pend, park_guar_refl.
    + by eapply at_set_pend.
Qed.

Lemma rg_WakeToken_wake fuel sl gen pend own :
  (sl < maxTasks)%nat -> (pend = None \/ pend = Some (sl, gen)) ->
  rg proto i (WakeToken_wake fuel sl gen) (at_ i (Local None pend own None))
    (fun _ => at_ i (Local None None own None)).
Proof.
  intros Hsl Hpend. apply rg_pin; [done|]. apply rg_sget; [done|]. intros s g e HI Ha He.
  assert (Hend : forall (w : bool) o, rg proto i (sset sl (add_pins (-1));;; Ret w)
    (at_ i (Local (Some (sl, o)) None own None)) (fun _ => at_ i (Local None None own None))).
  { intros w o. eapply rg_bind; [by apply (rg_unpin sl o None own None (fun _ => at_ i (Local None None own None)))|].
    by intros [] s1 g1. }
  destruct (Z.eqb_spec (slot_generation e) gen) as [Hg|Hg].
  - exists g, (at_ i (Local (Some (sl, None)) pend own None)). splits; auto.
    eapply (rg_bind proto i _ _ _ (fun _ s1 g1 => exists o, at_ i (Local (Some (sl, o)) None own None) s1 g1));
      [|intros w; apply rg_ex; intros o; apply Hend].
    apply rg_get_task; [done|naive_solver| |].
    + intros p pend' _. eapply rg_bind; [apply rg_wake|]. intros [] s1 g1 _ H1. by exists (Some p).
    + intros s1 g1 _ H1. by exists None.
  - exists (set_gpend i None g), (at_ i (Local (Some (sl, None)) None own None)). splits; auto.
    + eapply inv_drop_slot; [done|done|]. intros tok E. rewrite (at_pend _ _ _ _ Ha) in E. simpl in E.
      destruct Hpend as [->| ->]; [done|]. injection E as <-. split; [done|]. intros q u _ _ Hgen [= _ Hg']. congruence.
    + apply guar_pend, park_guar_refl.
    + by eapply at_set_pend.
    + apply (Hend false).
Qed.

Lemma rg_signalWake fuel sl gen own :
  (sl < maxTasks)%nat ->
  rg proto i (signalWake fuel sl gen) (at_ i (Local None None own None)) (fun _ => at_ i (Local None None own None)).
Proof.
  intros Hsl. apply rg_store. intros s g HI Ha.
  exists (set_gpend i (Some (sl, gen)) g), (at_ i (Local None (Some (sl, gen)) own None)). splits; auto.
  - apply inv_signal; [done..|]. apply (at_pend _ _ _ _ Ha).
  - apply guar_pend, guar_state; eauto.
  - eapply at_set_pend, at_state. done.
  - apply rg_WakeToken_wake; auto.
Qed.

Lemma rg_wakeAllFrom fuel sl m own :
  (sl + m <= maxTasks)%nat ->
  rg proto i (wakeAllFrom fuel sl m) (at_ i (Local None None own None)) (fun _ => at_ i (Local None None own None)).
Proof.
  revert sl. induction m as [|m IH]; intros sl Hsl; [by intros s g|]. cbn [wakeAllFrom].
  eapply rg_seq; [|apply IH; lia].
  apply rg_pin; [lia|]. apply rg_get_task; [lia|done| |].
  - intros p pend' _. eapply rg_bind; [apply rg_wake|]. intros []. by apply rg_unpin; [lia|].
  - by apply rg_unpin; [lia|].
Qed.

Lemma rg_stop fuel own :
  rg proto i (stop fuel maxTasks) (at_ i (Local None None own None)) (fun _ => at_ i (Local None None own None)).
Proof.
  apply rg_rmw. intros s g HI Ha. exists g, (at_ i (Local None None own None)). simpl. splits; auto.
  - by apply inv_stopping.
  - apply guar_state; eauto.
  - by eapply at_state.
  - destruct (stopping s); [by intros s1 g1|]. apply rg_wakeAllFrom. lia.
Qed.

(** ** Reaping *)

Lemma own_not_hand pin pend own p x s g :
  at_ i (Local pin pend own (Some (p, x))) s g -> ~ owner_ctl i x -> forall z, own <> Some (p, Some z).
Proof.
  intros Ha Hx z E. destruct (at_hand _ _ _ _ Ha p x eq_refl) as [E1 _].
  destruct (at_own _ _ _ _ Ha p _ E) as [_ [E2 Hc]]. simpl in *. congruence.
Qed.

(** The claimed task goes from [GClaim] to a switched-out phase. *)
Lemma claim_step s g pin pend own p t t' x' :
  inv s g -> at_ i (Local pin pend own (Some (p, GClaim i))) s g -> live s p = Some t ->
  step_ok n s g p t t' x' -> tstep i (gown g p) (GClaim i) x' -> is_out x' = true -> x' <> GQueued ->
  let s' := upd_task p (fun _ => t') s in
  inv s' (set_gst p x' g) /\ park_guar i (s, g) (s', set_gst p x' g) /\
  at_ i (Local pin pend own (hand_after i p x')) s' (set_gst p x' g).
Proof.
  intros HI Ha Hl Hok Hts Hout Hq s'. destruct (at_not_none _ _ _ _ _ _ _ _ _ Ha eq_refl) as [Hp Hnn].
  pose proof Hl as [Ht _]%live_Some. splits.
  - apply inv_task_step with t; [done..|]. by rewrite Hp.
  - apply guar_gst; [by rewrite Hp|done| |eauto]. eapply keep_tokens; [done|apply Hok].
  - eapply at_gst; [done|done|by right; eauto|]. left. splits; [done|eapply own_not_hand; [done|by intros []]|].
    intros _. by rewrite Hp.
Qed.

Lemma rg_reapClaimed p own :
  rg proto i (reapClaimed p) (at_ i (Local None None own (Some (p, GClaim i))))
    (fun _ => at_ i (Local None None own None)).
Proof.
  assert (Hlive : forall s g, inv s g -> at_ i (Local None None own (Some (p, GClaim i))) s g ->
    exists t, live s p = Some t /\ task_inv s g p t /\ gst g p = GClaim i).
  { intros s g HI Ha. destruct (at_not_none _ _ _ _ _ _ _ _ _ Ha eq_refl) as [Hp Hnn].
    destruct (inv_some _ _ _ _ _ HI Hnn) as [t Ht]. exists t. splits; [|by apply (iv_tasks _ _ _ _ HI)|done].
    apply (inv_live n maxTasks s g); [done..|by rewrite Hp]. }
  apply rg_tget. intros s0 g0 HI0 Ha0. destruct (Hlive s0 g0 HI0 Ha0) as (t0 & Hl0 & _).
  exists t0, g0, (at_ i (Local None None own (Some (p, GClaim i)))). splits; auto.
  destruct (forcedStopShields t0 =? 0); cbn [negb].
  - apply rg_rmw. intros s g HI Ha. destruct (Hlive s g HI Ha) as (t & Hl & HT & Hp).
    destruct (claim_step s g None None own p t (set_ctx false (Some ForcedUnwind) t) GDeliv HI Ha Hl) as (? & ? & ?);
      try done; [|constructor|].
    { pose proof Hl as [_ Hal]%live_Some. destruct HT. rewrite Hp in *. constructor; simpl; rewrite ?Hp; done. }
    assert (switchInto p ForcedUnwind s = (upd_task p (fun _ => set_ctx false (Some ForcedUnwind) t) s, true)) as ->.
    { unfold switchInto. rewrite Hl. rewrite (ti_saved _ _ _ _ HT), Hp. simpl. f_equal. unfold upd_task, with_tasks.
      f_equal. pose proof Hl as [Ht _]%live_Some. apply list_eq. intros q. rewrite !lookup_alter_case.
      case_decide; [by rewrite Ht|done]. }
    eexists _, (at_ i (Local None None own None)). splits; [done|done|done|auto|]. by intros s1 g1 _ Hat1.
  - apply rg_taccess. intros s g HI Ha. destruct (Hlive s g HI Ha) as (t & Hl & HT & Hp). exists t.
    splits; [done|by destruct (decide (parkState t = Running))|]. pose proof Hl as [_ Hal]%live_Some.
    intros t' x Hx. case_decide as Hst; apply list_elem_of_singleton in Hx; injection Hx as -> ->; cbn [fst snd].
    + destruct (claim_step s g None None own p t (set_parkState Parked t) GAsleep HI Ha Hl) as (? & ? & ?);
        try done; [|constructor|].
      { destruct HT. rewrite Hp in *. constructor; simpl; rewrite ?Hp; try done. intros _ Hs. left. simpl. congruence. }
      eexists _, (at_ i (Local None None own None)). splits; [done|done|done|auto|]. by intros s1 g1 _ Hat1.
    + assert (parkState t = Notified) as Hnt.
      { pose proof (ti_state _ _ _ _ HT) as Hs. rewrite Hp in Hs. by destruct Hs. }
      destruct (claim_step s g None None own p t t (GHand i true) HI Ha Hl) as (? & ? & Ha1); try done; [|constructor|].
      { destruct HT. rewrite Hp in *. constructor; simpl; rewrite ?Hp; try done. by intros j <-. }
      assert (hand_after i p (GHand i true) = Some (p, GHand i true)) as Eh
        by (unfold hand_after; simpl; by rewrite bool_decide_true).
      rewrite Eh in Ha1. exists (set_gst p (GHand i true) g), (at_ i (Local None None own (Some (p, GHand i true)))). splits; [done|done|done|auto|].
      apply rg_store_enqueue; [|done]. eapply own_not_hand; [exact Ha|by intros []].
Qed.

Definition claimed_by p (c : bool) : option (ptr * phase) := if c then Some (p, GClaim i) else None.

Lemma rg_claim_task sl p own :
  rg proto i (r <- tcas p Parked Running;; Ret r.1) (waking sl p None own)
    (fun c => at_ i (Local (Some (sl, Some p)) None own (claimed_by p c))).
Proof.
  apply rg_taccess. intros s g HI [Ha _].
  destruct (inv_held _ _ _ _ _ _ _ HI (at_pin _ _ _ _ Ha)) as (t & Hl & Ht & _). exists t.
  splits; [done|by destruct (decide (parkState t = Parked))|]. intros t' x Hx.
  case_decide as Hst; apply list_elem_of_singleton in Hx; injection Hx as -> ->; cbn [fst snd].
  - destruct (inv_task_of _ _ _ _ _ _ HI Hl) as (HT & _ & Hnn). pose proof Hl as [_ Hal]%live_Some.
    assert (gst g p = GAsleep) as Hp.
    { pose proof (ti_state _ _ _ _ HT) as Hs. rewrite Hst in Hs.
      destruct (gst g p) as [|? []| | | | | | |[]|]; simpl in Hs; naive_solver. }
    exists (set_gst p (GClaim i) g), (at_ i (Local (Some (sl, Some p)) None own (hand_after i p (GClaim i)))).
    splits; [| | |auto|].
    + apply inv_task_step with t; [done..| |by rewrite Hp].
      destruct HT as [T1 T2 T3 T4 T5 T6 T7]. rewrite Hp, Hst in *. constructor; simpl; rewrite ?Hp; auto.
      * intros _ _. by left.
      * by intros j <-.
    + apply guar_gst; [rewrite Hp; constructor|done|by eapply keep_tokens|eauto].
    + eapply at_gst; [done|done|by left|]. left. splits; [done| |intros _; by rewrite Hp].
      intros z E. destruct (at_own _ _ _ _ Ha p _ E) as [_ [Hz Hc]]. by rewrite <- Hz, Hp in Hc.
    + unfold hand_after. simpl. rewrite bool_decide_true by done. by intros s1 g1.
  - exists g, (at_ i (Local (Some (sl, Some p)) None own None)). rewrite upd_task_id by done.
    splits; auto. by intros s1 g1.
Qed.

Lemma rg_reapSlot sl own :
  (sl < maxTasks)%nat ->
  rg proto i (reapSlot sl) (at_ i (Local None None own None)) (fun _ => at_ i (Local None None own None)).
Proof.
  intros Hsl. apply rg_pin; [done|]. apply rg_get_task; [done|done| |].
  - intros p pend' Hpend. assert (pend' = None) as -> by (by destruct Hpend).
    eapply rg_bind; [apply rg_claim_task|]. intros c.
    apply rg_seq with (at_ i (Local None None own (claimed_by p c))); [by apply rg_unpin|].
    destruct c; [apply rg_reapClaimed|by intros s g _ Hat1].
  - cbn [bind]. apply rg_seq with (at_ i (Local None None own None)); [by apply rg_unpin|]. by intros s g _ Hat1.
Qed.

Lemma rg_reapFrom sl m own :
  (sl + m <= maxTasks)%nat ->
  rg proto i (reapFrom sl m) (at_ i (Local None None own None)) (fun _ => at_ i (Local None None own None)).
Proof.
  revert sl. induction m as [|m IH]; intros sl Hsl; [by intros s g|]. cbn [reapFrom].
  eapply rg_seq; [apply rg_reapSlot; lia|apply IH; lia].
Qed.

(** ** Inspecting *)

Lemma rg_inspectSlot sl own :
  (sl < maxTasks)%nat ->
  rg proto i (inspectSlot sl) (at_ i (Local None None own None)) (fun _ => at_ i (Local None None own None)).
Proof.
  intros Hsl. apply rg_sget; [done|]. intros s0 g0 e0 HI0 Ha0 He0.
  exists g0, (at_ i (Local None None own None)). splits; auto.
  destruct (task e0); [|by intros s g _ Hat1]. apply rg_pin; [done|].
  assert (Hend : forall (w : option (nat * TaskStatus)) o, rg proto i (sset sl (add_pins (-1));;; Ret w)
    (at_ i (Local (Some (sl, o)) None own None)) (fun _ => at_ i (Local None None own None))).
  { intros w o. apply rg_seq with (at_ i (Local None None own None)); [by apply rg_unpin|]. by intros s g _ Hat1. }
  apply rg_get_task; [done|done| |apply (Hend None)].
  intros p pend' Hpend. assert (pend' = None) as -> by (by destruct Hpend).
  eapply (rg_bind proto i _ _ _ (fun _ => at_ i (Local (Some (sl, Some p)) None own None))); [|intros w; apply Hend].
  apply rg_tget. intros s g HI [Ha _].
  destruct (inv_held _ _ _ _ _ _ _ HI (at_pin _ _ _ _ Ha)) as (t & Hl & Ht & _).
  exists t, g, (at_ i (Local (Some (sl, Some p)) None own None)). splits; auto. by intros s1 g1.
Qed.

Lemma rg_inspectFrom sl m own :
  (sl + m <= maxTasks)%nat ->
  rg proto i (inspectFrom sl m) (at_ i (Local None None own None)) (fun _ => at_ i (Local None None own None)).
Proof.
  revert sl. induction m as [|m IH]; intros sl Hsl; [by intros s g|]. cbn [inspectFrom].
  eapply rg_bind; [apply rg_inspectSlot; lia|]. intros info.
  eapply rg_bind; [apply IH; lia|]. intros rest. by intros s g _ Hat1.
Qed.

(** ** A worker *)

Lemma rg_dispatch : rg proto i dispatch (at_ i (Local None None None None)) (fun _ => at_ i (Local None None None None)).
Proof.
  split.
  - intros s g HI Ha _. split; [apply (at_pend _ _ _ _ Ha)|]. split.
    + intros p Hp. by apply (at_hands _ _ _ _ Ha) in Hp.
    + intros p Hp. destruct (at_only _ _ _ _ Ha p Hp) as [|[|[x Hx]]]; auto. done.
  - intros s g s' ok HI Ha Hx. apply list_elem_of_fmap in Hx as ([k p] & E & Hx).
    apply elem_of_lookup_imap_1 in Hx as (k' & p' & [= <- <-] & Hk). simpl in E.
    assert (p ∈ runnable s) as Hin by (by eapply list_elem_of_lookup_2).
    destruct (tasks s !! p) as [t|] eqn:Ht; [|by destruct (iv_none _ _ _ _ HI p Ht)].
    pose proof (iv_tasks _ _ _ _ HI p t Ht) as HT. pose proof (proj1 (ti_run _ _ _ _ HT) Hin) as Hp.
    assert (live s p = Some t) as Hl by (apply (inv_live n maxTasks s g); [done..|by rewrite Hp]).
    pose proof (inv_dispatch n maxTasks Hn s g k p t HI Hk Ht) as HI'.
    assert (E' : switchInto p Normal (with_runnable (delete k) s) =
      (upd_task p (fun _ => set_ctx false (Some Normal) t) (with_runnable (delete k) s), true)).
    { unfold switchInto. change (live (with_runnable (delete k) s) p) with (live s p).
      rewrite Hl, (ti_saved _ _ _ _ HT), Hp. simpl. f_equal. unfold upd_task, with_tasks. f_equal.
      simpl. apply list_eq. intros q. rewrite !lookup_alter_case. case_decide; [by rewrite Ht|done]. }
    rewrite E' in E. injection E as -> ->.
    exists (set_gst p GDeliv g), (at_ i (Local None None None None)). splits; [done| | |auto|by intros s1 g1].
    + apply guar_gst; [rewrite Hp; constructor|by rewrite Hp| |eauto].
      intros q u Hu. simpl. rewrite lookup_alter_case. case_decide; [subst q; rewrite Ht in Hu |- *|by eauto].
      injection Hu as <-. by eexists.
    + eapply (at_gst i None None None None None p GDeliv); [done|by rewrite Hp|by left|].
      left. splits; try done. intros _. by rewrite Hp.
Qed.
End triples.
End threads.
