(* ===== verification/ParkTask.v ===== *)
(** * Tasks: the life of a task against the protocol

    Triples for [park], [yield], the post-switch hooks, [createTask] and
    [releaseTask], and for the threads of a pool. *)

From Stdlib Require Import ZArith Lia.
From stdpp Require Import base tactics list numbers option strings functions sets.
From S2P Require Import Prelude Conc Park ParkInv ParkSteps ParkThreads.

Section tasks.
Context (n maxTasks : nat) (Hn : Z.of_nat n < 2 ^ 32) (i : nat) (Hi : (i < n)%nat).
Implicit Types (s : world) (g : ghost).
#[local] Abbreviation inv := (park_inv n maxTasks).
#[local] Abbreviation proto := (park_protocol n maxTasks).
#[local] Hint Resolve stable_at stable_token stable_and stable_const park_guar_refl : core.

(** The thread is task [p] in phase [x], or switched out. *)
Definition own_in p x : asrt world ghost := at_ i (Local None None (Some (p, Some x)) None).
Definition own_out p : asrt world ghost := at_ i (Local None None (Some (p, None)) None).

Definition own_hand p x : asrt world ghost := at_ i (Local None None (Some (p, None)) (Some (p, x))).

Lemma stable_own_in p x : stable proto i (own_in p x).
Proof. apply stable_at. Qed.
Lemma stable_own_out p : stable proto i (own_out p).
Proof. apply stable_at. Qed.
#[local] Hint Resolve stable_own_in stable_own_out : core.

Lemma own_live s g p x :
  inv s g -> own_in p x s g -> exists t, live s p = Some t /\ task_inv s g p t /\ gst g p = x /\ owner_ctl i x /\ gown g p = i.
Proof.
  intros HI Ha. destruct (at_own _ _ _ _ Ha p _ eq_refl) as [Ho [Hx Hc]].
  assert (gst g p <> GNone /\ gst g p <> GFreed) as [? ?] by (rewrite Hx; by destruct x).
  destruct (inv_some n maxTasks s g p HI) as [t Ht]; [done|]. exists t.
  splits; try done; [by apply (inv_live n maxTasks s g)|by apply (iv_tasks _ _ _ _ HI)].
Qed.

(** The task's own step, to a phase it stays in charge of or out of it. *)
Lemma own_step s g p t t' x x' y' :
  inv s g -> own_in p x s g -> live s p = Some t -> step_ok n s g p t t' x' ->
  own_hands i x' -> x' <> GQueued ->
  match y' with Some z => z = x' /\ owner_ctl i x' | None => is_out x' = true end ->
  let s' := upd_task p (fun _ => t') s in
  inv s' (set_gst p x' g) /\ park_guar i (s, g) (s', set_gst p x' g) /\
  at_ i (Local None None (Some (p, y')) (hand_after i p x')) s' (set_gst p x' g).
Proof.
  intros HI Ha Hl Hok Hh Hq Hy s'. destruct (own_live s g p x HI Ha) as (t0 & _ & _ & Hx & Hc & Ho).
  assert (gst g p <> GNone) as Hnn by (rewrite Hx; by destruct x). pose proof Hl as [Ht _]%live_Some.
  assert (x' <> GNone) by (intros ->; by destruct (so_state _ _ _ _ _ _ _ Hok)). splits.
  - apply inv_task_step with t; [done..|]. rewrite Hx. split; [intros ->; by destruct Hc|done].
  - apply guar_gst; [rewrite Ho, Hx; by constructor|done| |eauto]. eapply keep_tokens; [done|apply Hok].
  - eapply at_gst; [done|done|by left|]. right; left. by eexists _, _.
Qed.

(** An access by the task itself: it is alive. *)
Lemma rg_own {A X} p x (f : Task -> list (Task * X)) (k : X -> prog world A) Q :
  (forall t, f t <> []) ->
  (forall s g t t' r, inv s g -> own_in p x s g -> live s p = Some t -> task_inv s g p t -> gst g p = x ->
     (t', r) ∈ f t -> exists x' y',
       step_ok n s g p t t' x' /\ own_hands i x' /\ x' <> GQueued /\
       match y' with Some z => z = x' /\ owner_ctl i x' | None => is_out x' = true end /\
       rg proto i (k r) (at_ i (Local None None (Some (p, y')) (hand_after i p x'))) Q) ->
  rg proto i (bind (taccess p f) k) (own_in p x) Q.
Proof.
  intros Hf Hk. apply rg_taccess. intros s g HI Ha. destruct (own_live s g p x HI Ha) as (t & Hl & HT & Hx & Hc & Ho).
  exists t. splits; [done|done|]. intros t' r Hr.
  destruct (Hk s g t t' r HI Ha Hl HT Hx Hr) as (x' & y' & Hok & Hh & Hq & Hy & Hrg).
  destruct (own_step s g p t t' x x' y' HI Ha Hl Hok Hh Hq Hy) as (? & ? & ?).
  eexists _, _. splits; [done|done|done|auto|done].
Qed.

Lemma rg_own_get {A X} p x (f : Task -> X) (k : X -> prog world A) Q :
  (forall s g t, inv s g -> live s p = Some t -> task_inv s g p t -> gst g p = x -> rg proto i (k (f t)) (own_in p x) Q) ->
  rg proto i (bind (tget p f) k) (own_in p x) Q.
Proof.
  intros Hk. apply rg_tget. intros s g HI Ha. destruct (own_live s g p x HI Ha) as (t & Hl & HT & Hx & Hc & Ho).
  exists t, g, (own_in p x). splits; auto. by eapply Hk.
Qed.

Lemma rg_countSwitch {A} l (q : prog world A) Q :
  rg proto i q (at_ i l) Q -> rg proto i (countSwitch;;; q) (at_ i l) Q.
Proof.
  intros Hq. apply rg_store. intros s g HI Ha. exists g, (at_ i l). splits; auto.
  - by apply inv_switches.
  - apply guar_state; eauto.
  - by eapply at_state.
Qed.

(** ** Making runnable, coming back *)

Lemma rg_enqueue p Q :
  (forall s g, inv s g -> own_out p s g -> Q tt s g) ->
  rg proto i (enqueue p) (own_hand p (GHand i false)) Q.
Proof.
  intros HQ. apply rg_bind_ret, rg_store. intros s g HI Ha.
  destruct (at_not_none _ _ _ _ _ _ _ _ _ Ha eq_refl) as [Hp Hnn].
  exists (set_gst p GQueued g), (own_out p). splits; [| | |unfold own_out; auto|].
  - by eapply inv_enqueue.
  - apply guar_gst; [rewrite Hp; constructor|done|eauto|eauto].
  - eapply (at_gst i None None (Some (p, None)) _ (Some (p, None)) p GQueued); [done|done|by right; eauto|].
    right; left. by eexists _, None.
  - simpl. eauto.
Qed.

Lemma rg_await p (Q : resumption -> asrt world ghost) :
  (forall how s g, inv s g -> own_in p (GRun true) s g -> Q how s g) ->
  rg proto i (await p) (own_out p) Q.
Proof.
  intros HQ. split.
  - intros s g HI Ha Hf. split; [apply (at_pend _ _ _ _ Ha)|]. split.
    + intros q Hq. by apply (at_hands _ _ _ _ Ha) in Hq.
    + intros q Hq. destruct (at_only _ _ _ _ Ha q Hq) as [|[|[x [= <- <-]]]]; [by auto..|].
      left. destruct (at_own _ _ _ _ Ha p _ eq_refl) as [_ Hout]. split; [done|]. intros Hd.
      destruct (inv_some n maxTasks s g p HI) as [t Ht]; [by rewrite Hd|].
      assert (live s p = Some t) as Hl by (apply (inv_live n maxTasks s g); [done..|by rewrite Hd]).
      pose proof (ti_resumed _ _ _ _ (iv_tasks _ _ _ _ HI p t Ht)) as Hr. rewrite Hd in Hr. simpl in Hr.
      apply bool_decide_eq_true in Hr as [how Hr]. simpl in Hf. by rewrite Hl in Hf; simpl in Hf; rewrite Hr in Hf.
  - intros s g s' how HI Ha Hx. simpl in Hx. destruct (live s p) as [t|] eqn:Hl; simpl in Hx; [|by apply elem_of_nil in Hx].
    destruct (resumed t) as [r|] eqn:Hr; [|by apply elem_of_nil in Hx].
    apply list_elem_of_singleton in Hx. injection Hx as -> ->.
    destruct (inv_task_of _ _ _ _ _ _ HI Hl) as (HT & _ & Hnn). pose proof Hl as [Ht Hal]%live_Some.
    destruct (at_own _ _ _ _ Ha p _ eq_refl) as [Ho Hout].
    assert (gst g p = GDeliv) as Hp.
    { pose proof (ti_resumed _ _ _ _ HT) as Hd. rewrite Hr in Hd. simpl in Hd. by destruct (gst g p). }
    assert (upd_task p (set_ctx false None) s = upd_task p (fun _ => set_ctx false None t) s) as ->.
    { unfold upd_task, with_tasks. f_equal. apply list_eq. intros q. rewrite !lookup_alter_case.
      case_decide; [by rewrite Ht|done]. }
    exists (set_gst p (GRun true) g), (own_in p (GRun true)). splits; [| | |unfold own_in; auto|simpl; eauto].
    + apply inv_task_step with t; [done..| |by rewrite Hp].
      destruct HT as [T1 T2 T3 T4 T5 T6 T7]. rewrite Hp in *. constructor; simpl; rewrite ?Hp; done.
    + apply guar_gst; [rewrite Hp, Ho; by constructor|done|by eapply keep_tokens|eauto].
    + eapply (at_gst i None None (Some (p, None)) None _ p (GRun true)); [done|done|by left|].
      right; left. by eexists _, (Some (GRun true)).
Qed.

(** ** Park and yield *)

Ltac so_solve HT Hx := destruct HT; rewrite Hx in *; constructor; simpl; rewrite ?Hx; try done; try (by intros ? <-).

Lemma hand_self p m : hand_after i p (GHand i m) = Some (p, GHand i m).
Proof. unfold hand_after. simpl. by rewrite bool_decide_true. Qed.

Lemma rg_onTaskParked p :
  rg proto i (onTaskParked p) (own_in p GHook) (fun _ => own_out p).
Proof.
  apply rg_own; [intros t; by destruct (decide (parkState t = Running))|].
  intros s g t t' r HI Ha Hl HT Hx Hr. pose proof Hl as [_ Hal]%live_Some. pose proof (ti_state _ _ _ _ HT) as Hs.
  rewrite Hx in Hs. simpl in Hs.
  case_decide as Hst; apply list_elem_of_singleton in Hr; injection Hr as -> ->; cbn [fst snd].
  - exists GAsleep, None. splits; try done; [|by intros s1 g1 _ Hat1].
    so_solve HT Hx. intros _ _. left. simpl. congruence.
  - exists (GHand i true), None. splits; try done.
    + so_solve HT Hx. by destruct Hs.
    + rewrite hand_self. by apply rg_store_enqueue.
Qed.

Lemma rg_switchOut {A} p x x' (q : prog world A) Q :
  match x with GRun _ => True | _ => False end ->
  (x = GRun false /\ x' = GHook \/ x' = GFin 0) ->
  rg proto i q (own_in p x') Q -> rg proto i (switchOut p;;; q) (own_in p x) Q.
Proof.
  intros Hrun Hx' Hq. apply rg_own; [done|]. intros s g t t' r HI Ha Hl HT Hx Hr.
  apply list_elem_of_singleton in Hr. injection Hr as -> ->. pose proof Hl as [_ Hal]%live_Some.
  pose proof (ti_resumed _ _ _ _ HT) as Hres. rewrite Hx in Hres.
  assert (hand_after i p x' = None) as Eh by (by destruct Hx' as [[_ ->]| ->]).
  exists x', (Some x'). rewrite Eh. splits; [|by destruct Hx' as [[_ ->]| ->]..|done].
  destruct x; try done. destruct Hx' as [[Efresh ->]| ->]; [injection Efresh as ->|]; so_solve HT Hx. by auto.
Qed.

(** [park] as a condition loop calls it: having just found the condition false. *)
Lemma rg_park p : rg proto i (park p) (own_in p (GRun false)) (fun _ => own_in p (GRun true)).
Proof.
  apply rg_countSwitch. apply rg_own_get. intros s0 g0 t0 _ _ _ _. case_decide as Hd.
  - apply rg_own; [done|]. intros s g t t' r HI Ha Hl HT Hx Hr.
    apply list_elem_of_singleton in Hr. injection Hr as -> ->. pose proof Hl as [_ Hal]%live_Some.
    exists (GRun true), (Some (GRun true)). splits; try done; [|by intros s1 g1 _ Hat1]. so_solve HT Hx. by left.
  - apply (rg_switchOut p (GRun false) GHook); [done|by auto|].
    eapply rg_seq; [apply rg_onTaskParked|]. by apply rg_await.
Qed.

Lemma rg_yield p b : rg proto i (yield p) (own_in p (GRun b)) (fun _ => own_in p (GRun true)).
Proof.
  apply rg_own; [done|]. intros s g t t' r HI Ha Hl HT Hx Hr.
  apply list_elem_of_singleton in Hr. injection Hr as -> ->. pose proof Hl as [_ Hal]%live_Some.
  pose proof (ti_resumed _ _ _ _ HT) as Hres. rewrite Hx in Hres.
  exists (GHand i false), None. splits; try done; [so_solve HT Hx|].
  rewrite hand_self. apply rg_seq with (own_out p); [by apply rg_enqueue|]. by apply rg_await.
Qed.

Lemma rg_shield p b up : rg proto i (shield p up) (own_in p (GRun b)) (fun _ => own_in p (GRun b)).
Proof.
  apply rg_own_get. intros s0 g0 t0 _ _ _ _. apply rg_bind_ret, rg_own; [done|].
  intros s g t t' r HI Ha Hl HT Hx Hr.
  apply list_elem_of_singleton in Hr. injection Hr as -> ->. pose proof Hl as [_ Hal]%live_Some.
  exists (GRun b), (Some (GRun b)). splits; try done; [|by intros s1 g1 _ Hat1]. so_solve HT Hx. by auto.
Qed.

(** ** The body *)

Lemma inv_signals_sub s g f :
  inv s g -> (forall tok, tok ∈ f (signals s) -> tok ∈ signals s) -> inv (with_signals f s) g.
Proof.
  intros [I1 I2 I3 I4 I5 I6 I7 I8 I9] Hf. constructor; simpl; try done.
  intros p t Ht. destruct (I2 p t Ht) as [T1 T2 T3 T4 T5 T6 T7]. constructor; simpl; auto.
Qed.

Definition own_run p : asrt world ghost := fun s g => exists b, own_in p (GRun b) s g.

Lemma token_step p tok s g s' g' : park_guar i (s, g) (s', g') -> token_is p tok s g -> token_is p tok s' g'.
Proof. intros HG (t & Ht & <-). destruct (gu_tok _ _ _ HG p t Ht) as (t' & Ht' & E). by exists t'. Qed.

Lemma rg_waitSignal fuel p tok b :
  rg proto i (waitSignal fuel p tok) (fun s g => own_in p (GRun b) s g /\ token_is p tok s g)
    (fun _ => own_run p).
Proof.
  revert b. induction fuel as [|fuel IH]; intros b; [done|]. cbn [waitSignal].
  apply rg_rmw. intros s g HI [Ha Htok]. cbn [fst snd].
  assert (inv (with_signals (filter (.≠ tok)) s) g) as HI'.
  { apply inv_signals_sub; [done|]. by intros t [_ ?]%list_elem_of_filter. }
  case_bool_decide as Hin.
  - exists g, (own_in p (GRun b)). splits; auto.
    + apply guar_state; eauto.
    + by eapply at_state.
    + intros s1 g1 _ H1. by exists b.
  - assert (own_in p (GRun b) (with_signals (filter (.≠ tok)) s) g) as Ha' by (by eapply at_state).
    destruct (own_live _ _ _ _ HI' Ha') as (t & Hl & HT & Hx & Hc & Ho). pose proof Hl as [Ht Hal]%live_Some.
    destruct (own_step _ _ p t t _ (GRun false) (Some (GRun false)) HI' Ha' Hl) as (HI1 & HG1 & Ha1); try done.
    { so_solve HT Hx. intros _ Hs. apply list_elem_of_filter in Hs as [_ Hs].
      destruct Htok as (u & Hu & <-). simpl in Ht. by simplify_eq. }
    rewrite upd_task_id in HI1, HG1, Ha1 by done.
    exists (set_gst p (GRun false) g), (fun s g => own_in p (GRun false) s g /\ token_is p tok s g).
    splits; try done; [|by apply stable_and; auto|].
    + destruct HG1. by constructor.
    + eapply (rg_bind proto i _ _ _ (fun _ s g => own_in p (GRun true) s g /\ token_is p tok s g)).
      * apply rg_frame; [auto|apply token_step|apply rg_park].
      * intros [|]; [apply IH|]. intros s1 g1 _ [H1 _]. by exists true.
Qed.

(** The tokens a body wakes are of this scheduler. *)
Definition op_ok (o : body_op) : Prop :=
  match o with BWake sl _ | BSignalWake sl _ => (sl < maxTasks)%nat | _ => True end.

Lemma rg_run_op fuel p o :
  op_ok o -> rg proto i (run_op fuel p o) (own_run p) (fun _ => own_run p).
Proof.
  intros Ho. apply rg_ex. intros b. destruct o as [|up| |sl gen|sl gen]; cbn [run_op].
  - eapply rg_weaken; [done| |apply rg_yield]. intros a s g _ H1. by exists true.
  - apply rg_seq with (own_in p (GRun b)); [apply rg_shield|]. intros s g _ H1. by exists b.
  - apply rg_tget. intros s g HI Ha. destruct (own_live _ _ _ _ HI Ha) as (t & Hl & HT & Hx & Hc & Ho').
    pose proof Hl as [Ht _]%live_Some.
    exists t, g, (fun s g => own_in p (GRun b) s g /\ token_is p (token_of t) s g).
    splits; auto; [by exists t|]. apply rg_waitSignal.
  - apply rg_seq with (own_in p (GRun b)); [by apply rg_WakeToken_wake; auto|]. intros s g _ H1. by exists b.
  - apply rg_seq with (own_in p (GRun b)); [by apply rg_signalWake|]. intros s g _ H1. by exists b.
Qed.

Lemma rg_run_body fuel p ops cleanup :
  Forall op_ok ops -> Forall op_ok cleanup ->
  rg proto i (run_body fuel p ops cleanup) (own_run p) (fun _ => own_run p).
Proof.
  intros Hops Hcl. induction Hops as [|o ops Ho Hops IH]; [by intros s g|]. cbn [run_body].
  eapply rg_bind; [by apply rg_run_op|]. intros [|]; [apply IH|]. clear IH Hops.
  induction Hcl as [|o' l Ho' Hl IH]; [by intros s g|]. eapply rg_seq; [by apply rg_run_op|apply IH].
Qed.

(** ** Release *)

Definition idle : asrt world ghost := at_ i (Local None None None None).

Definition slot_is p sl : asrt world ghost := fun s _ => exists t, tasks s !! p = Some t /\ slot t = sl.

Lemma slot_step p sl j s g s' g' : park_guar j (s, g) (s', g') -> slot_is p sl s g -> slot_is p sl s' g'.
Proof.
  intros HG (t & Ht & <-). destruct (gu_tok _ _ _ HG p t Ht) as (t' & Ht' & E). exists t'. by injection E.
Qed.

Lemma stable_slot_is p sl : stable proto i (slot_is p sl).
Proof. intros j s g s' g' _ _ _ HG. by eapply slot_step. Qed.
#[local] Hint Resolve stable_slot_is : core.

(** In [releaseTask], after its [k]-th step. *)
Definition releasing k p sl : asrt world ghost := fun s g => own_in p (GFin k) s g /\ slot_is p sl s g.

Lemma stable_releasing k p sl : stable proto i (releasing k p sl).
Proof. apply stable_and; auto. Qed.
#[local] Hint Resolve stable_releasing : core.

Lemma releasing_slot k p sl s g : inv s g -> releasing k p sl s g -> (sl < maxTasks)%nat.
Proof.
  intros HI [Ha (t & Ht & <-)]. destruct (own_live _ _ _ _ HI Ha) as (t' & Hl & HT & Hx & _).
  pose proof Hl as [Ht' _]%live_Some. simplify_eq. destruct (ti_slot _ _ _ _ HT) as [_ (e & He & _)]; [by rewrite Hx|].
  rewrite <- (iv_len _ _ _ _ HI). by eapply lookup_lt_Some.
Qed.

(** A step on the slot that the task is leaving. *)
Lemma releasing_step k p sl s g e e' :
  inv s g -> releasing (S k) p sl s g -> slots s !! sl = Some e ->
  pins e' = pins e -> task e' = None -> ((2 <= k)%nat -> pins e = 0) ->
  let s' := upd_slot sl (fun _ => e') s in let g' := set_gst p (GFin (S (S k))) g in
  inv s' g' /\ park_guar i (s, g) (s', g') /\ releasing (S (S k)) p sl s' g'.
Proof.
  intros HI [Ha (t & Ht & Hsl)] He Hpin Hnone H0 s' g'. destruct (own_live _ _ _ _ HI Ha) as (t' & Hl & HT & Hx & _ & Ho).
  pose proof Hl as [Ht' _]%live_Some. simplify_eq.
  assert (gsl g (slot t) = STask p) as Hg by (destruct (ti_slot _ _ _ _ HT); [by rewrite Hx|done]).
  assert (park_guar i (s, g) (s', g')) as HG.
  { apply guar_gst; [rewrite Ho, Hx; by constructor|by rewrite Hx|eauto|]. intros k' j e1 Hj Hg1 He1.
    exists e1. split; [|done]. simpl. rewrite lookup_alter_case, decide_False; [done|]. congruence. }
  splits; [|done|split].
  - by eapply inv_fin.
  - eapply (at_gst i None None (Some (p, Some (GFin (S k)))) None _ p (GFin (S (S k)))); [exact Ha|by rewrite Hx|by left|].
    right; left. by eexists _, (Some _).
  - eapply slot_step; [done|]. by exists t.
Qed.

Lemma rg_releasing {A} k p sl (f : TaskSlot -> TaskSlot) (q : prog world A) Q :
  (k < 2)%nat -> (forall e, pins (f e) = pins e) -> (forall e, (k = 0%nat \/ task e = None) -> task (f e) = None) ->
  rg proto i q (releasing (S (S k)) p sl) Q ->
  rg proto i (sset sl f;;; q) (releasing (S k) p sl) Q.
Proof.
  intros Hk Hpin Hnone Hq. apply (rg_pure_from _ _ _ (sl < maxTasks)%nat); [intros s g; by apply releasing_slot|]. intros Hsl.
  apply rg_saccess; [done|]. intros s g e HI HR He. cbn [fst snd].
  destruct (releasing_step k p sl s g e (f e) HI HR He) as (? & ? & ?); [done| |lia|].
  - apply Hnone. destruct k as [|k]; [by left|right]. destruct HR as [Ha (t & Ht & Hs)].
    destruct (own_live _ _ _ _ HI Ha) as (t' & Hl & HT & Hx & _). pose proof Hl as [Ht' _]%live_Some. simplify_eq.
    destruct (ti_slot _ _ _ _ HT) as [_ (e1 & He1 & Hh)]; [by rewrite Hx|]. rewrite Hx in Hh. simpl in Hh. by simplify_eq.
  - exists (set_gst p (GFin (S (S k))) g), (releasing (S (S k)) p sl). splits; auto.
Qed.

Lemma rg_waitUnpinned fuel p sl :
  rg proto i (waitUnpinned fuel sl) (releasing 3 p sl) (fun _ => releasing 4 p sl).
Proof.
  induction fuel as [|fuel IH]; [done|]. cbn [waitUnpinned].
  apply (rg_pure_from _ _ _ (sl < maxTasks)%nat); [intros s g; by apply releasing_slot|]. intros Hsl.
  apply rg_sget; [done|]. intros s g e HI HR He. destruct (Z.eqb_spec (pins e) 0) as [E0|E0].
  - destruct (releasing_step 2 p sl s g e e HI HR He) as (HI1 & HG1 & HR1); [done| |done|].
    { destruct HR as [Ha (t & Ht & Hs)].
      destruct (own_live _ _ _ _ HI Ha) as (t' & Hl & HT & Hx & _). pose proof Hl as [Ht' _]%live_Some. simplify_eq.
      destruct (ti_slot _ _ _ _ HT) as [_ (e1 & He1 & Hh)]; [by rewrite Hx|]. rewrite Hx in Hh. simpl in Hh. by simplify_eq. }
    rewrite upd_slot_id in HI1, HG1, HR1 by done.
    exists (set_gst p (GFin 4) g), (releasing 4 p sl). splits; auto. by intros s1 g1.
  - exists g, (releasing 3 p sl). splits; auto.
Qed.

Definition holds_slot sl : asrt world ghost := fun _ g => gsl g sl = SAcq i.

Lemma stable_holds_slot sl : stable proto i (holds_slot sl).
Proof. intros j s g s' g' Hj _ _ HG H. red in H |- *. by apply (gu_acq _ _ _ HG). Qed.
#[local] Hint Resolve stable_holds_slot : core.

Definition idle_with sl : asrt world ghost := fun s g => idle s g /\ holds_slot sl s g.
Lemma stable_idle_with sl : stable proto i (idle_with sl).
Proof. apply stable_and; [apply stable_at|auto]. Qed.
#[local] Hint Resolve stable_idle_with : core.

Lemma at_set_gsl l sl x s g : at_ i l s g -> at_ i l s (set_gsl sl x g).
Proof. by intros []. Qed.

Lemma guar_reslot s g s' sl x :
  tasks s' = tasks s -> slots s' = slots s -> (forall j, gsl g sl = SAcq j -> j = i) ->
  park_guar i (s, g) (s', set_gsl sl x g).
Proof.
  intros Ht Hs Hg. constructor; simpl; eauto with sf; rewrite ?Ht, ?Hs; eauto.
  intros k j Hj Hk. rewrite fn_insert_case. case_decide; [subst k|done]. exfalso. auto.
Qed.

Lemma rg_releaseSlot sl :
  (sl < maxTasks)%nat ->
  rg proto i (releaseSlot sl) (idle_with sl) (fun _ => idle).
Proof.
  intros Hsl. apply rg_bind_ret, rg_store. intros s g HI [Ha Hg]. red in Hg.
  assert (sl ∉ freeSlots s) as Hnf.
  { destruct (lookup_lt_is_Some_2 (slots s) sl) as [e He]; [by rewrite (iv_len _ _ _ _ HI)|].
    destruct (iv_slots _ _ _ _ HI sl e He) as [Hs _]. unfold slot_inv in Hs. rewrite Hg in Hs. by destruct Hs. }
  exists (set_gsl sl SFree g), idle. splits; [| | |apply stable_at|by intros s1 g1].
  - apply (inv_reslot n maxTasks s g sl (freeSlots s ++ [sl]) SFree); try done.
    + by rewrite Hg.
    + apply list.NoDup_app. splits; [apply (iv_free _ _ _ _ HI)|set_solver|apply NoDup_singleton].
    + intros k Hk. set_solver.
    + set_solver.
  - apply guar_reslot; [done|done|]. intros j. rewrite Hg. by intros [= ->].
  - by eapply at_set_gsl, at_state.
Qed.

Lemma rg_releaseTask fuel p :
  rg proto i (releaseTask fuel p) (own_in p (GFin 0)) (fun _ => idle).
Proof.
  apply rg_tget. intros s0 g0 HI0 Ha0. destruct (own_live _ _ _ _ HI0 Ha0) as (t0 & Hl0 & HT0 & Hx0 & _).
  pose proof Hl0 as [Ht0 _]%live_Some. set (sl := slot t0).
  exists t0, g0, (releasing 0 p sl). splits; auto; [split; [done|by exists t0]|].
  apply rg_seq with (releasing 1 p sl).
  { eapply (rg_weaken proto i _ _ _ (fun _ s g => own_in p (GFin 1) s g /\ slot_is p sl s g)); [by intros ? ? _ H|done|].
    apply rg_frame; [auto|by intros ? ? ? ?; apply slot_step|]. apply rg_bind_ret, rg_own; [done|].
    intros s g t t' r HI Ha Hl HT Hx Hr. apply list_elem_of_singleton in Hr. injection Hr as -> ->.
    pose proof Hl as [_ Hal]%live_Some. exists (GFin 1), (Some (GFin 1)).
    splits; try done; [so_solve HT Hx|by intros s1 g1]. }
  apply rg_releasing; [lia|done|done|]. apply rg_releasing; [lia|done|intros e [|]; done|].
  eapply rg_seq; [apply rg_waitUnpinned|]. apply (rg_pure_from _ _ _ (sl < maxTasks)%nat); [intros s g; by apply releasing_slot|]. intros Hsl.
  apply rg_taccess. intros s g HI [Ha (t & Ht & Hs)]. destruct (own_live _ _ _ _ HI Ha) as (t' & Hl & HT & Hx & _ & Ho).
  pose proof Hl as [Ht' _]%live_Some. assert (t = t') as -> by congruence. clear Ht. exists t'. splits; [done|done|].
  intros t1 r Hr. apply list_elem_of_singleton in Hr. injection Hr as -> ->.
  assert (gsl g (slot t') = STask p) as Hg by (destruct (ti_slot _ _ _ _ HT); [by rewrite Hx|done]).
  exists (set_gsl (slot t') (SAcq i) (set_gst p GFreed g)), (idle_with sl).
  splits; [| | |auto|].
  - by apply inv_free.
  - constructor; simpl; try done.
    + intros q. rewrite fn_insert_case. case_decide; [subst q; rewrite Hx, Ho; by constructor|constructor].
    + intros q Hq. rewrite fn_insert_case. case_decide; [subst q; by rewrite Hx in Hq|by left].
    + by eapply keep_tokens.
    + intros k j Hj Hk. rewrite fn_insert_case. case_decide; [congruence|done].
    + eauto.
  - split; [|red; simpl; by rewrite Hs, fn_lookup_insert].
    apply at_set_gsl. eapply (at_gst i None None _ None None p GFreed); [exact Ha|by rewrite Hx|by left|].
    right; right. by eexists.
  - by apply rg_releaseSlot.
Qed.

(** ** Creation *)

Definition slot_ready sl gen : asrt world ghost := fun s g =>
  holds_slot sl s g /\ exists e, slots s !! sl = Some e /\ slot_generation e = gen.

Lemma stable_slot_ready sl gen : stable proto i (slot_ready sl gen).
Proof.
  intros j s g s' g' Hj HI HI' HG [Hg (e & He & <-)]. split; [by apply (stable_holds_slot sl j s g s' g')|].
  destruct (gu_gen _ _ _ HG sl i e) as (e' & He' & E); [done..|]. by exists e'.
Qed.

Definition idle_ready sl gen : asrt world ghost := fun s g => idle s g /\ slot_ready sl gen s g.
Lemma stable_idle_ready sl gen : stable proto i (idle_ready sl gen).
Proof. apply stable_and; [apply stable_at|apply stable_slot_ready]. Qed.
#[local] Hint Resolve stable_idle_ready : core.

Lemma at_new sl p s g s' :
  idle s g -> gst g p = GNone ->
  own_hand p (GHand i false) s' (set_gsl sl (STask p) (set_gst p (GHand i false) (set_gown p i g))).
Proof.
  intros [A1 A2 A3 A4 A5 A6] Hp. simpl in *. constructor; simpl; try done.
  - intros q x [= <- <-]. by rewrite !fn_lookup_insert.
  - intros q. rewrite !fn_insert_case. case_decide; [subst q; eauto|]. intros Ho. destruct (A4 q Ho) as [|[|[? ?]]]; auto. done.
  - intros q x [= <- <-]. by rewrite fn_lookup_insert.
  - intros q. rewrite !fn_insert_case. case_decide; [by subst q|]. intros Hh. by apply A6 in Hh.
Qed.

Lemma rg_publish_task sl :
  (sl < maxTasks)%nat ->
  rg proto i (gen <- sget sl slot_generation;; p <- publish sl gen;; Ret (Some p)) (idle_with sl)
    (fun o => match o with Some p => own_hand p (GHand i false) | None => idle end).
Proof.
  intros Hsl.
  apply rg_sget; [done|]. intros s1 g1 e HI1 [Ha1 Hg1] He.
  exists g1, (idle_ready sl (slot_generation e)). splits; auto.
  { split; [done|]. split; [done|]. by exists e. }
  apply rg_rmw. intros s2 g2 HI2 (Ha2 & Hg2 & e2 & He2 & Hgen). cbn [fst snd]. rewrite <- Hgen.
  set (p := length (tasks s2)). assert (tasks s2 !! p = None) as Hnp by (by apply lookup_ge_None_2).
  destruct (iv_none _ _ _ _ HI2 p Hnp) as [Gp Rp].
  exists (set_gsl sl (STask p) (set_gst p (GHand i false) (set_gown p i g2))), (own_hand p (GHand i false)).
  splits; [by apply inv_publish| |by eapply at_new|apply stable_at|by intros s3 g3].
  constructor; simpl; try done.
  + intros q. rewrite fn_insert_case. case_decide; [subst q; rewrite Gp; by constructor|constructor].
  + intros q Hq. rewrite fn_insert_case. case_decide; [by subst q|done].
  + intros q Hq. rewrite !fn_insert_case. case_decide; [by right|by left].
  + intros q t Ht. exists t. split; [|done]. by apply lookup_app_l_Some.
  + intros k j Hj Hk. rewrite fn_insert_case. case_decide; [subst k; red in Hg2; congruence|done].
  + intros k j e' Hj Hk He'. rewrite lookup_alter_case. case_decide; [|by eauto]. subst k. rewrite He'. by eexists.
Qed.

Lemma rg_createTask :
  rg proto i createTask idle
    (fun o => match o with Some p => own_hand p (GHand i false) | None => idle end).
Proof.
  apply rg_load; [apply park_guar_refl|]. intros s0 g0 _ H0. exists idle. splits; [done|apply stable_at|].
  destruct (stopping s0); [by intros s g|]. split.
  { intros s g HI _. simpl. by destruct (freeSlots s). }
  intros s g s' o HI Ha Hx. simpl in Hx. destruct (freeSlots s) as [|k0 l0] eqn:Ef.
  { apply list_elem_of_singleton in Hx. injection Hx as -> ->. exists g, idle.
    splits; [done|apply park_guar_refl|done|apply stable_at|]. by intros s1 g1. }
  assert (exists sl, sl ∈ freeSlots s /\ s' = with_free (fun f => list_difference f [sl]) s /\ o = Some sl)
    as (sl & Hin & -> & ->).
  { rewrite Ef.
    apply (list_elem_of_fmap (fun sl => (with_free (fun f => list_difference f [sl]) s, Some sl)) (k0 :: l0)) in Hx
      as (sl & [= -> ->] & Hsl). eauto. }
  clear Hx Ef k0 l0. destruct (iv_free _ _ _ _ HI) as [Hnd Hlt]. pose proof (Hlt sl Hin) as Hsl.
  assert (gsl g sl = SFree) as Hg.
  { destruct (lookup_lt_is_Some_2 (slots s) sl) as [e He]; [by rewrite (iv_len _ _ _ _ HI)|].
    destruct (iv_slots _ _ _ _ HI sl e He) as [Hs _]. unfold slot_inv in Hs. by destruct (gsl g sl) as [| |?]; destruct Hs. }
  exists (set_gsl sl (SAcq i) g), (idle_with sl). splits; [| | |auto|].
  - apply (inv_reslot n maxTasks s g sl (list_difference (freeSlots s) [sl]) (SAcq i)); try done.
    + intros q. by rewrite Hg.
    + by apply NoDup_list_difference.
    + intros k Hk. rewrite list_elem_of_difference, list_elem_of_singleton. naive_solver.
    + rewrite list_elem_of_difference, list_elem_of_singleton. naive_solver.
  - apply guar_reslot; [done|done|]. intros j. by rewrite Hg.
  - split; [|red; simpl; by rewrite fn_lookup_insert]. by eapply at_set_gsl, at_state.
  - split; [done|]. intros s1 g1 s2 made HI1 Ha1 Hx. exists g1, (idle_with sl).
    apply elem_of_cons in Hx as [Hx|Hx%list_elem_of_singleton]; injection Hx as -> ->;
      (splits; [done|apply park_guar_refl|done|auto|]); [by apply rg_publish_task|].
    apply rg_seq with idle; [by apply rg_releaseSlot|by intros s2 g2].
Qed.

(** ** Threads *)

Lemma rg_task_life fuel ops cleanup :
  Forall op_ok ops -> Forall op_ok cleanup ->
  rg proto i (task_life fuel ops cleanup) idle (fun _ => idle).
Proof.
  intros Hops Hcl. eapply rg_bind; [apply rg_createTask|]. intros [p|]; [|by intros s g].
  apply rg_seq with (own_out p); [by apply rg_enqueue|].
  eapply rg_bind; [by apply (rg_await p (fun _ => own_in p (GRun true)))|]. intros how.
  apply rg_seq with (own_run p).
  - destruct how; [|by intros s g _ H; exists true].
    eapply rg_pre; [|by apply rg_run_body]. intros s g _ H. by exists true.
  - apply rg_ex. intros b. apply (rg_switchOut p (GRun b) (GFin 0)); [done|by right|].
    apply rg_countSwitch. apply rg_releaseTask.
Qed.

Definition other_ok (o : other_op) : Prop :=
  match o with OWake sl _ | OSignalWake sl _ => (sl < maxTasks)%nat | _ => True end.

Lemma rg_run_others fuel l :
  Forall other_ok l -> rg proto i (run_others fuel maxTasks l) idle (fun _ => idle).
Proof.
  intros Hl. induction Hl as [|o l Ho Hl IH]; [by intros s g|]. cbn [run_others].
  apply rg_seq with idle; [|apply IH]. destruct o as [sl gen|sl gen| | | |]; cbn [run_other].
  - apply rg_seq with idle; [by apply rg_WakeToken_wake; auto|by intros s g].
  - apply rg_seq with idle; [by apply rg_signalWake|by intros s g].
  - by apply rg_stop.
  - apply rg_reapFrom; done || lia.
  - apply rg_seq with idle; [apply rg_inspectFrom; done || lia|by intros s g].
  - by apply rg_dispatch.
Qed.

Definition thread_ok (t : thread) : Prop :=
  match t with
  | TTask ops cleanup => Forall op_ok ops /\ Forall op_ok cleanup
  | TOther l => Forall other_ok l
  end.

Lemma rg_thread fuel t : thread_ok t -> rg proto i (thread_prog fuel maxTasks t) idle (fun _ => idle).
Proof. destruct t; simpl; [intros []; by apply rg_task_life|apply rg_run_others]. Qed.
End tasks.
