(* ===== verification/ParkSpec.v ===== *)
(** * Tasks: the theorems about pools of tasks and wakers

    For any number of tasks and outside threads (wakers, workers, reapers, a
    thread that stops the scheduler), in any interleaving. *)

From Stdlib Require Import ZArith Lia.
From stdpp Require Import base tactics list numbers option strings functions sets.
From S2P Require Import Prelude Conc Park ParkInv ParkSteps ParkThreads ParkTask.

Section spec.
Context (fuel maxTasks : nat) (l : list thread).
Context (Hlen : Z.of_nat (length l) < 2 ^ 32) (Hok : Forall (thread_ok maxTasks) l).
#[local] Abbreviation n := (length l).
#[local] Abbreviation proto := (park_protocol n maxTasks).

Definition ghost0 : ghost := Ghost (fun _ => 0%nat) (fun _ => GNone) (fun _ => None) (fun _ => None) (fun _ => SFree).

Lemma init_inv : park_inv n maxTasks (init_world maxTasks) ghost0.
Proof.
  constructor; simpl; try done.
  - by rewrite length_replicate.
  - intros p _. split; [done|]. by apply not_elem_of_nil.
  - constructor.
  - intros sl e He. apply lookup_replicate in He as [-> Hsl]. split.
    + split; [|done]. apply elem_of_seq. lia.
    + unfold npins. simpl. destruct (filter _ _) as [|x r] eqn:E; [done|].
      assert (x ∈ x :: r) as Hx by left. rewrite <- E in Hx. by apply list_elem_of_filter in Hx as [? _].
  - split; [apply NoDup_seq|]. intros sl Hsl%elem_of_seq. lia.
  - by intros i [|].
Qed.

Lemma park_pool_ok : pool_ok proto (fun i _ => idle i) (park_pool fuel maxTasks l).
Proof.
  exists ghost0. split; [apply init_inv|]. intros i p Hp. simpl in Hp. rewrite list_lookup_fmap in Hp.
  destruct (l !! i) as [t|] eqn:Ht; [|done]. injection Hp as <-.
  exists (idle i). splits; [apply stable_at| |].
  - constructor; simpl; try done. by left.
  - apply rg_thread; [done|by eapply lookup_lt_Some|]. by eapply Forall_lookup_1.
Qed.

Lemma reach_pool_ok ts s :
  reach (park_pool fuel maxTasks l) (ts, s) -> pool_ok proto (fun i _ => idle i) (ts, s) /\ length ts = n.
Proof.
  intros Hr. split; [eapply pool_ok_reach; [done|apply park_pool_ok]|].
  apply reach_length in Hr. simpl in Hr. by rewrite <- Hr, length_fmap.
Qed.

(** A halted thread owes no wake and holds no task; its own task is gone or
    switched out. *)
Lemma halted_idle (ts : list (prog world unit)) s g :
  (forall i X f k, ts !! i = Some (Act X f k) -> f s = [] -> park_wait i s g) ->
  (forall i a, ts !! i = Some (Ret a) -> idle i s g) ->
  forall i th, ts !! i = Some th -> halted s th ->
  gpend g i = None /\ (forall p, ~ in_hands i (gst g p)) /\
  (forall p, gown g p = i -> (is_out (gst g p) = true /\ gst g p <> GDeliv /\ th <> Ret tt) \/ gst g p = GNone \/ gst g p = GFreed).
Proof.
  intros Hw Hq i th Hi [->|(X & f & k & -> & Hf)].
  - pose proof (Hq i tt Hi) as Ha. splits; [apply (at_pend _ _ _ _ Ha)| |].
    + intros p Hp. by apply (at_hands _ _ _ _ Ha) in Hp.
    + intros p Hp. destruct (at_only _ _ _ _ Ha p Hp) as [|[|[x Hx]]]; [by auto..|done].
  - destruct (Hw i X f k Hi Hf) as (H1 & H2 & H3). splits; try done. intros p Hp.
    destruct (H3 p Hp) as [[? ?]|]; [by left|by right].
Qed.

Lemma runnable_live s g p :
  park_inv n maxTasks s g -> p ∈ runnable s ->
  exists t, live s p = Some t /\ saved t = true /\ resumed t = None /\
     (parkState t = Running \/ parkState t = Notified).
Proof.
  intros HI Hp. destruct (tasks s !! p) as [t|] eqn:Ht; [|by destruct (iv_none _ _ _ _ HI p Ht)].
  pose proof (iv_tasks _ _ _ _ HI p t Ht) as HT. pose proof (proj1 (ti_run _ _ _ _ HT) Hp) as Hg.
  exists t. splits; [apply (inv_live n maxTasks s g); [done..|by rewrite Hg]| | |];
    destruct HT as [T1 T2 T3 _ _ _ _]; rewrite Hg in *; [done| |done].
  apply bool_decide_eq_false in T3. by destruct (resumed t); [destruct T3; eauto|].
Qed.

(** C7: In every interleaving of tasks, wakers, workers, reapers and [stop()]:
    no freed task is touched and no task is entered that is not switched out;
    a task is in the run queues at most once, and then it is alive, switched
    out, with its wake consumed; two live tasks never share a slot, and the
    slot of a live task is not on the free list. *)
Theorem park_exactly_once ts s :
  reach (park_pool fuel maxTasks l) (ts, s) ->
  (forall i m, ts !! i <> Some (Fatal m)) /\
  NoDup (runnable s) /\
  (forall p, p ∈ runnable s -> exists t, live s p = Some t /\ saved t = true /\ resumed t = None /\
     (parkState t = Running \/ parkState t = Notified)) /\
  (forall p q t u, live s p = Some t -> live s q = Some u -> slot t = slot u -> p = q) /\
  (forall p t, live s p = Some t -> slot t ∉ freeSlots s).
Proof.
  intros Hr. destruct (reach_pool_ok ts s Hr) as [Hpool _].
  split; [intros i m; by eapply pool_ok_not_fatal|]. destruct Hpool as (g & HI & _). simpl in HI.
  splits; [apply (iv_nodup _ _ _ _ HI)| | |].
  - intros p. by apply runnable_live with g.
  - intros p q t u Hp Hq E. destruct (inv_task_of _ _ _ _ _ _ HI Hp) as (_ & Hfp & _).
    destruct (inv_task_of _ _ _ _ _ _ HI Hq) as (_ & Hfq & _). apply live_Some in Hp as [Hp _], Hq as [Hq _].
    by eapply (inv_slot_inj n maxTasks s g p q t u).
  - intros p t Hp. destruct (inv_task_of _ _ _ _ _ _ HI Hp) as (HT & Hf & _).
    destruct (ti_slot _ _ _ _ HT Hf) as [Hg (e & He & _)]. destruct (iv_slots _ _ _ _ HI _ e He) as [Hs _].
    unfold slot_inv in Hs. rewrite Hg in Hs. by destruct Hs.
Qed.

(** C4: No wakeup is lost: when nothing can move any more (every thread has
    returned or waits), a task that is still alive is runnable (no worker is
    left to run it), or it is parked and nobody has set its condition and
    woken it since it last looked. *)
Theorem park_no_lost_wakeup ts s :
  reach (park_pool fuel maxTasks l) (ts, s) ->
  (forall i th, ts !! i = Some th -> halted s th) ->
  forall p t, live s p = Some t ->
  p ∈ runnable s \/ (parkState t = Parked /\ token_of t ∉ signals s).
Proof.
  intros Hr Hstuck p t Hl. destruct (reach_pool_ok ts s Hr) as [Hpool Hts].
  destruct (pool_ok_waits _ _ _ _ Hpool) as (g & HI & Hw & Hq). simpl in HI.
  assert (forall i, (i < n)%nat -> gpend g i = None /\ (forall p, ~ in_hands i (gst g p)) /\
    (forall p, gown g p = i -> (is_out (gst g p) = true /\ gst g p <> GDeliv) \/ gst g p = GNone \/ gst g p = GFreed)) as Hidle.
  { intros i Hi. rewrite <- Hts in Hi. apply lookup_lt_is_Some_2 in Hi as [th Hth].
    destruct (halted_idle ts s g Hw Hq i th Hth (Hstuck i th Hth)) as (? & ? & H3). splits; try done.
    intros q Hq'. destruct (H3 q Hq') as [(? & ? & _)|]; [by left|by right]. }
  destruct (inv_task_of _ _ _ _ _ _ HI Hl) as (HT & Hf & Hnn). destruct (iv_own _ _ _ _ HI p) as [Hown Hhand].
  destruct (Hidle _ (Hown Hnn)) as (_ & _ & Hout). destruct (Hout p eq_refl) as [[Ho Hd]|[|]]; [|done..].
  destruct (gst g p) as [|j m|j| | | | | | |] eqn:Hg; try done.
  - destruct (Hidle j) as (_ & Hh & _); [by apply Hhand|]. exfalso. apply (Hh p). by rewrite Hg.
  - destruct (Hidle j) as (_ & Hh & _); [by apply Hhand|]. exfalso. apply (Hh p). by rewrite Hg.
  - left. by apply (ti_run _ _ _ _ HT).
  - right. destruct HT as [T1 _ _ _ _ _ T7]. rewrite Hg in *. split; [done|]. intros Hs.
    destruct (T7 Hs I) as [j Hj]. destruct (Hidle j) as (Hp & _); [|congruence].
    apply (iv_thr _ _ _ _ HI). rewrite Hj. by right.
Qed.

(** When every thread has returned, every task has been released: no task
    is alive, nothing is runnable, and no slot is pinned or points to a task. *)
Theorem park_all_released ts s :
  reach (park_pool fuel maxTasks l) (ts, s) -> (forall i th, ts !! i = Some th -> th = Ret tt) ->
  (forall p, live s p = None) /\ runnable s = [] /\
  (forall sl e, slots s !! sl = Some e -> task e = None /\ pins e = 0).
Proof.
  intros Hr Hret. destruct (reach_pool_ok ts s Hr) as [Hpool Hts].
  destruct (pool_ok_waits _ _ _ _ Hpool) as (g & HI & Hw & Hq). simpl in HI.
  assert (forall i, (i < n)%nat -> idle i s g) as Hidle.
  { intros i Hi. rewrite <- Hts in Hi. apply lookup_lt_is_Some_2 in Hi as [th Hth].
    apply (Hq i tt). by rewrite Hth, (Hret i th Hth). }
  assert (forall p, live s p = None) as Hnone.
  { intros p. destruct (live s p) as [t|] eqn:Hl; [exfalso|done].
    destruct (inv_task_of _ _ _ _ _ _ HI Hl) as (HT & Hf & Hnn). destruct (iv_own _ _ _ _ HI p) as [Hown _].
    destruct (at_only _ _ _ _ (Hidle _ (Hown Hnn)) p eq_refl) as [|[|[x Hx]]]; done. }
  splits; [done| |].
  - destruct (runnable s) as [|p r] eqn:Er; [done|exfalso].
    destruct (runnable_live s g p HI) as (t & Hl & _); [rewrite Er; left|]. by rewrite Hnone in Hl.
  - intros sl e He. split.
    + destruct (task e) as [p|] eqn:Et; [exfalso|done].
      destruct (inv_slot_task _ _ _ _ _ _ _ HI He Et) as (t & Ht & _ & Hin).
      assert (live s p = Some t) as Hl; [|by rewrite Hnone in Hl].
      apply (inv_live n maxTasks s g); [done..|]. intros Hf. by rewrite Hf in Hin.
    + destruct (iv_slots _ _ _ _ HI sl e He) as [_ ->]. unfold npins.
      destruct (filter _ _) as [|x r] eqn:E; [done|exfalso].
      assert (x ∈ x :: r) as Hx by left. rewrite <- E in Hx. apply list_elem_of_filter in Hx as [Hp Hx].
      apply elem_of_seq in Hx. rewrite (at_pin _ _ _ _ (Hidle x ltac:(lia))) in Hp. done.
Qed.
End spec.

(** ** Runs *)
Section runs.
(** One task that yields once and waits for its condition, and a worker that
    also signals it. *)
Let woken : list thread :=
  [TTask [BYield; BWaitSignal] []; TOther [ODispatch; ODispatch; OSignalWake 0 0]].
Let unwoken : list thread := [TTask [BYield; BWaitSignal] []; TOther [ODispatch; ODispatch]].

Let ok (l : list thread) : Prop := Forall (thread_ok 1) l.
#[local] Lemma woken_ok : ok woken.
Proof. repeat constructor. Qed.
#[local] Lemma unwoken_ok : ok unwoken.
Proof. repeat constructor. Qed.

Let start (l : list thread) := park_pool 5 1 l.

(** A few steps in, the task is in the run queues. *)
Let queued := run_avail (round_robin 1 6) (start woken).

Lemma park_exactly_once_witness :
  runnable queued.2 = [0%nat] /\ NoDup (runnable queued.2).
Proof.
  split; [vm_compute; reflexivity|].
  apply (park_exactly_once 5 1 woken ltac:(vm_compute; reflexivity) woken_ok queued.1 queued.2).
  apply (run_avail_reach (round_robin 1 6)). apply surjective_pairing.
Defined.

Let asleep := run_avail (round_robin 2 40) (start unwoken).

Lemma park_no_lost_wakeup_witness :
  exists t, live asleep.2 0 = Some t /\
    (0%nat ∈ runnable asleep.2 \/ (parkState t = Parked /\ token_of t ∉ signals asleep.2)).
Proof.
  exists (MkTask Parked 0 0 0 true true None). split; [vm_compute; reflexivity|].
  apply (park_no_lost_wakeup 5 1 unwoken ltac:(vm_compute; reflexivity) unwoken_ok asleep.1 asleep.2).
  - apply (run_avail_reach (round_robin 2 40)). apply surjective_pairing.
  - apply haltedb_all. vm_compute. reflexivity.
  - vm_compute; reflexivity.
Defined.

Let over := run_avail (round_robin 2 40) (start woken).

Lemma park_all_released_witness : live over.2 0 = None /\ runnable over.2 = [].
Proof.
  destruct (park_all_released 5 1 woken ltac:(vm_compute; reflexivity) woken_ok over.1 over.2) as (H1 & H2 & _).
  - apply (run_avail_reach (round_robin 2 40)). apply surjective_pairing.
  - apply returnedb_all. vm_compute. reflexivity.
  - split; [apply H1|exact H2].
Defined.
End runs.
