(* ===== verification/Sums.v ===== *)
(** * Sums and occurrence counts

    Conservation arguments: what a component holds is counted per element, so
    that moving one is a linear equation. *)

From Stdlib Require Import ZArith Lia.
From stdpp Require Import base tactics list numbers functions.
From S2P Require Import Prelude.

Section lsum.
Context {A : Type}.
Implicit Types (f g : A -> nat) (l : list A).

Definition lsum f l : nat := foldr (fun x n => f x + n)%nat 0%nat l.

Lemma lsum_nil f : lsum f [] = 0%nat.
Proof. done. Qed.
Lemma lsum_cons f x l : lsum f (x :: l) = (f x + lsum f l)%nat.
Proof. done. Qed.
Lemma lsum_app f l k : lsum f (l ++ k) = (lsum f l + lsum f k)%nat.
Proof. induction l; simpl; lia. Qed.

Lemma lsum_ext f g l : (forall x, x ∈ l -> f x = g x) -> lsum f l = lsum g l.
Proof.
  induction l as [|a l IH]; intros H; [done|]. rewrite !lsum_cons, (H a), IH; [done| |left].
  intros x Hx. apply H. by right.
Qed.

Lemma lsum_insert f l k x y :
  l !! k = Some y -> (lsum f (<[k := x]> l) + f y = lsum f l + f x)%nat.
Proof.
  revert k. induction l as [|a l IH]; intros [|k] Hk; simplify_eq/=; [lia|].
  specialize (IH k Hk). lia.
Qed.

Lemma lsum_delete f l k y : l !! k = Some y -> (lsum f (delete k l) + f y = lsum f l)%nat.
Proof.
  revert k. induction l as [|a l IH]; intros [|k] Hk; simplify_eq/=; [lia|]. specialize (IH k Hk). lia.
Qed.

Lemma lsum_zero f l : (forall x, x ∈ l -> f x = 0%nat) -> lsum f l = 0%nat.
Proof. intros H. rewrite (lsum_ext f (fun _ => 0%nat)) by done. induction l; [done|]. apply IHl. intros. apply H. by right. Qed.

Lemma lsum_elem f l x : x ∈ l -> (f x <= lsum f l)%nat.
Proof. induction 1 as [|? ? ? ? IH]; simpl; lia. Qed.

Lemma lsum_replicate f n x : lsum f (replicate n x) = (n * f x)%nat.
Proof. induction n as [|n IH]; simpl; [done|]. rewrite IH. done. Qed.
End lsum.

(** Per-thread quantities, with one thread changed. *)
Lemma lsum_threads {B} (f : B -> nat) (g : nat -> B) (n i : nat) x :
  (i < n)%nat ->
  (lsum (fun j => f (<[i := x]> g j)) (seq 0 n) + f (g i) = lsum (fun j => f (g j)) (seq 0 n) + f x)%nat.
Proof.
  intros Hi. assert (Hs : seq 0 n = seq 0 i ++ i :: seq (S i) (n - S i)).
  { replace n with (i + S (n - S i))%nat at 1 by lia. rewrite seq_app. done. }
  rewrite Hs, !lsum_app, !lsum_cons, fn_lookup_insert.
  rewrite (lsum_ext (fun j => f (<[i := x]> g j)) (fun j => f (g j)) (seq 0 i)),
    (lsum_ext (fun j => f (<[i := x]> g j)) (fun j => f (g j)) (seq (S i) (n - S i))); [lia| |].
  - intros j Hj%elem_of_seq. by rewrite fn_lookup_insert_ne by lia.
  - intros j Hj%elem_of_seq. by rewrite fn_lookup_insert_ne by lia.
Qed.

(** Quantities and facts over the threads [0 .. n - 1]. *)
Section threads.
Context {B : Type} (n : nat).
Implicit Types (f : B -> nat) (b : B -> bool) (pf : nat -> B).

Definition total f pf : nat := lsum (fun j => f (pf j)) (seq 0 n).
Definition some b pf : Prop := exists j, (j < n)%nat /\ b (pf j) = true.
Definition others b pf (i : nat) : Prop := exists j, (j < n)%nat /\ j <> i /\ b (pf j) = true.

Lemma total_upd f pf i l l' : (i < n)%nat -> pf i = l -> (total f (<[i := l']> pf) + f l = total f pf + f l')%nat.
Proof. intros Hi <-. by apply lsum_threads. Qed.

Lemma total_elem f pf j : (j < n)%nat -> (f (pf j) <= total f pf)%nat.
Proof. intros Hj. apply (lsum_elem (fun j => f (pf j))). apply elem_of_seq. lia. Qed.

Lemma total_pos f pf : (0 < total f pf)%nat -> exists j, (j < n)%nat /\ (0 < f (pf j))%nat.
Proof.
  intros H. assert (exists j, j ∈ seq 0 n /\ (0 < f (pf j))%nat) as (j & Hj%elem_of_seq & ?); [|exists j; split; [lia|done]].
  unfold total in H. induction (seq 0 n) as [|x l IH]; simpl in H; [lia|]. destruct (decide (0 < f (pf x))%nat) as [?|Hx].
  - exists x. split; [left|done].
  - destruct IH as (j & Hj & ?); [lia|]. exists j. split; [by right|done].
Qed.

Lemma total_zero f pf : (forall j, (j < n)%nat -> f (pf j) = 0%nat) -> total f pf = 0%nat.
Proof. intros H. apply lsum_zero. intros j Hj%elem_of_seq. apply H. lia. Qed.

Lemma total_ext f pf pf' : (forall j, pf' j = pf j) -> total f pf' = total f pf.
Proof. intros H. apply lsum_ext. intros j _. by rewrite H. Qed.

Lemma some_ext b pf pf' : (forall j, pf' j = pf j) -> some b pf' <-> some b pf.
Proof. intros H. unfold some. by setoid_rewrite H. Qed.

Lemma some_upd b pf i l' : some b (<[i := l']> pf) -> b l' = true \/ others b pf i.
Proof.
  intros (j & Hj & Hf). destruct (decide (j = i)) as [->|Hne]; [rewrite fn_lookup_insert in Hf; by left|].
  rewrite fn_lookup_insert_ne in Hf by done. right. by exists j.
Qed.

Lemma some_here b pf i l' : (i < n)%nat -> b l' = true -> some b (<[i := l']> pf).
Proof. intros. exists i. by rewrite fn_lookup_insert. Qed.

Lemma some_ne b pf i l' j : (j < n)%nat -> j <> i -> b (pf j) = true -> some b (<[i := l']> pf).
Proof. intros. exists j. by rewrite fn_lookup_insert_ne. Qed.

(** The thread [i] changes: whoever did it before and is not [i] still does. *)
Lemma some_keep b pf i l l' : pf i = l -> (b l = true -> b l' = true) -> some b pf -> some b (<[i := l']> pf).
Proof.
  intros Hl Hb (j & Hj & E). destruct (decide (j = i)) as [->|]; [|by eapply some_ne]. apply some_here; [done|].
  rewrite Hl in E. auto.
Qed.

Lemma insert_same_fn pf i l j : pf i = l -> <[i := l]> pf j = pf j.
Proof. intros <-. destruct (decide (j = i)) as [->|]; [by rewrite fn_lookup_insert|by rewrite fn_lookup_insert_ne]. Qed.
End threads.

(** Occurrences of an element. *)
Section cnt.
Context {A : Type} `{!EqDecision A}.
Implicit Types (l : list A) (v : A).

Definition cnt v l : nat := lsum (fun x => if decide (x = v) then 1 else 0)%nat l.

Lemma cnt_nil v : cnt v [] = 0%nat.
Proof. done. Qed.
Lemma cnt_cons v x l : cnt v (x :: l) = ((if decide (x = v) then 1 else 0) + cnt v l)%nat.
Proof. done. Qed.
Lemma cnt_app v l k : cnt v (l ++ k) = (cnt v l + cnt v k)%nat.
Proof. apply lsum_app. Qed.
Lemma cnt_delete v l k y : l !! k = Some y -> (cnt v (delete k l) + cnt v [y] = cnt v l)%nat.
Proof. intros Hk. pose proof (lsum_delete (fun x => if decide (x = v) then 1 else 0)%nat l k y Hk). unfold cnt. simpl in *. lia. Qed.

Lemma cnt_elem v l : v ∈ l <-> (0 < cnt v l)%nat.
Proof.
  induction l as [|x l IH]; [by rewrite cnt_nil; split; [intros ?%elem_of_nil|lia]|].
  rewrite elem_of_cons, cnt_cons, IH. case_decide; [split; [lia|by left]|].
  split; [intros [->|]; [done|lia]|]. intros. right. lia.
Qed.

Lemma cnt_zero v l : v ∉ l <-> cnt v l = 0%nat.
Proof. rewrite cnt_elem. lia. Qed.

Lemma NoDup_cnt l : NoDup l <-> forall v, (cnt v l <= 1)%nat.
Proof.
  induction l as [|x l IH]; [split; [intros _ v; rewrite cnt_nil; lia|constructor]|].
  rewrite list.NoDup_cons, IH. split.
  - intros [Hx Hl] v. rewrite cnt_cons. case_decide; [subst v; apply cnt_zero in Hx; lia|apply Hl].
  - intros H. split.
    + apply cnt_zero. pose proof (H x) as Hx. rewrite cnt_cons, decide_True in Hx by done. lia.
    + intros v. pose proof (H v) as Hv. rewrite cnt_cons in Hv. lia.
Qed.

Lemma Permutation_cnt l k : (forall v, cnt v l = cnt v k) -> l ≡ₚ k.
Proof.
  revert k. induction l as [|x l IH]; intros k H.
  - destruct k as [|y k]; [done|]. specialize (H y). rewrite cnt_nil, cnt_cons, decide_True in H by done. lia.
  - assert (x ∈ k) as Hx by (apply cnt_elem; rewrite <- H, cnt_cons, decide_True by done; lia).
    apply elem_of_Permutation in Hx as [k' Hk']. rewrite Hk'. f_equiv. apply IH. intros v.
    assert (Hp : forall (a b : list A), a ≡ₚ b -> cnt v a = cnt v b).
    { induction 1; rewrite ?cnt_cons; lia. }
    specialize (H v). rewrite (Hp k (x :: k') Hk'), !cnt_cons in H. lia.
Qed.
End cnt.

#[global] Arguments cnt : simpl never.

(** Concatenations. *)
Lemma lsum_fmap {A B} (f : B -> nat) (h : A -> B) l : lsum f (h <$> l) = lsum (fun x => f (h x)) l.
Proof. induction l as [|x l IH]; [done|]. by rewrite fmap_cons, !lsum_cons, IH. Qed.

Lemma lsum_lookup {A} (f : A -> nat) (d : nat -> A) l : lsum (fun j => f (default (d j) (l !! j))) (seq 0 (length l)) = lsum f l.
Proof.
  revert d. induction l as [|x l IH]; intros d; [done|]. simpl. rewrite <- fmap_S_seq, lsum_fmap. f_equal. apply (IH (fun j => d (S j))).
Qed.

Lemma cnt_mjoin {A B} `{!EqDecision B} (f : A -> list B) t l : cnt t (mjoin (f <$> l)) = lsum (fun x => cnt t (f x)) l.
Proof. induction l as [|x l IH]; [done|]. rewrite fmap_cons, lsum_cons, <- IH. simpl. by rewrite cnt_app. Qed.

Lemma mjoin_all_nil {A B} (f : A -> list B) l : (forall x, x ∈ l -> f x = []) -> mjoin (f <$> l) = [].
Proof. induction l as [|x l IH]; intros H; [done|]. simpl. rewrite (H x) by left. apply IH. intros y Hy. apply H. by right. Qed.

Lemma cnt_seq t m : cnt t (seq 0 m) = if (t <? m)%nat then 1%nat else 0%nat.
Proof.
  assert (Hnd : NoDup (seq 0 m)) by apply NoDup_seq. rewrite NoDup_cnt in Hnd. specialize (Hnd t). destruct (t <? m)%nat eqn:E.
  - apply Nat.ltb_lt in E. assert (Hin : t ∈ seq 0 m) by (apply elem_of_seq; lia). apply cnt_elem in Hin. lia.
  - apply Nat.ltb_ge in E. apply cnt_zero. intros Hin%elem_of_seq. lia.
Qed.
