(* ===== verification/Circle.v ===== *)
(** * Circle: a ring buffer as a list

    [Channel] and [Stream] keep their values in [capacity] slots, [count] of them
    from [head] on, the rest empty. *)

From Stdlib Require Import ZArith Lia.
From stdpp Require Import base tactics list numbers option.
From S2P Require Import Prelude.

Lemma mod_wrap c h j : (h < c)%nat -> (j < c)%nat -> ((h + j) `mod` c = if (h + j <? c) then h + j else h + j - c)%nat.
Proof.
  intros Hh Hj. destruct (Nat.ltb_spec (h + j) c); [by apply Nat.mod_small|].
  replace (h + j)%nat with (h + j - c + 1 * c)%nat at 1 by lia. rewrite Nat.Div0.mod_add. apply Nat.mod_small. lia.
Qed.

Record circle {V} (capacity : nat) (slots : list (option V)) (head count : nat) (buf : list V) : Prop := {
  cr_cap : (1 <= capacity)%nat;
  cr_len : length slots = capacity;
  cr_head : (head < capacity)%nat;
  cr_count : count = length buf;
  cr_room : (count <= capacity)%nat;
  cr_slot : forall j, (j < capacity)%nat -> slots !! ((head + j) `mod` capacity)%nat = Some (buf !! j)
}.

Section circle.
Context {V : Type}.
Implicit Types (slots : list (option V)) (buf : list V).

Lemma circle_push capacity slots head count buf v :
  circle capacity slots head count buf -> (count < capacity)%nat ->
  slots !! ((head + count) `mod` capacity)%nat = Some None /\
  circle capacity (<[((head + count) `mod` capacity)%nat := Some v]> slots) head (S count) (buf ++ [v]).
Proof.
  intros [H1 H2 H3 H4 H5 H7] Hc. split.
  { rewrite H7 by lia. f_equal. rewrite H4. apply lookup_ge_None. lia. }
  assert (Hi : ((head + count) `mod` capacity < capacity)%nat) by (apply Nat.mod_upper_bound; lia).
  split; try lia.
  - by rewrite length_insert.
  - rewrite length_app. simpl. lia.
  - intros j Hj. destruct (decide (j = count)) as [->|Hne].
    + rewrite list_lookup_insert_eq by lia. f_equal. rewrite H4, lookup_app_r, Nat.sub_diag by lia. done.
    + rewrite list_lookup_insert_ne.
      * rewrite H7 by lia. f_equal. destruct (decide (j < count)%nat); [by rewrite lookup_app_l by lia|].
        rewrite !(proj2 (lookup_ge_None _ _)); [done|rewrite length_app; simpl; lia|lia].
      * rewrite !mod_wrap by lia. destruct (Nat.ltb_spec (head + count) capacity), (Nat.ltb_spec (head + j) capacity); lia.
Qed.

Lemma circle_pop capacity slots head count buf :
  circle capacity slots head count buf -> count <> 0%nat ->
  exists v buf', buf = v :: buf' /\ slots !! head = Some (Some v) /\
    circle capacity (<[head := None]> slots) ((head + 1) `mod` capacity)%nat (count - 1) buf'.
Proof.
  intros [H1 H2 H3 H4 H5 H7] Hc. destruct buf as [|v buf']; [simpl in H4; lia|]. exists v, buf'. split; [done|]. simpl in H4. split.
  { specialize (H7 0%nat ltac:(lia)). rewrite Nat.add_0_r, Nat.mod_small in H7 by done. done. }
  assert (Hh : ((head + 1) `mod` capacity < capacity)%nat) by (apply Nat.mod_upper_bound; lia).
  split; try lia.
  - by rewrite length_insert.
  - intros j Hj. rewrite Nat.Div0.add_mod_idemp_l, <- Nat.add_assoc. destruct (decide (j = capacity - 1)%nat) as [->|Hne].
    + replace (head + (1 + (capacity - 1)))%nat with (head + 1 * capacity)%nat by lia.
      rewrite Nat.Div0.mod_add, Nat.mod_small by done. rewrite list_lookup_insert_eq by lia.
      rewrite (proj2 (lookup_ge_None _ _)); [done|lia].
    + rewrite list_lookup_insert_ne.
      * by rewrite H7 by lia.
      * rewrite mod_wrap by lia. destruct (Nat.ltb_spec (head + (1 + j)) capacity); lia.
Qed.

Lemma circle_new capacity : (1 <= capacity)%nat -> circle (V:=V) capacity (replicate capacity None) 0 0 [].
Proof.
  intros Hc. split; simpl; try lia; [by rewrite length_replicate|].
  intros j Hj. apply lookup_replicate. split; [done|]. apply Nat.mod_upper_bound. lia.
Qed.

(** When nothing is buffered, every slot is empty. *)
Lemma circle_empty capacity slots head j o : circle capacity slots head 0 [] -> slots !! j = Some o -> o = None.
Proof.
  intros [H1 H2 H3 H4 H5 H7] Hj. assert (Hlt : (j < capacity)%nat) by (rewrite <- H2; by eapply lookup_lt_Some).
  specialize (H7 (if (head <=? j)%nat then (j - head)%nat else (j + capacity - head)%nat)).
  rewrite mod_wrap in H7 by (destruct (Nat.leb_spec head j); lia). destruct (Nat.leb_spec head j).
  - replace (head + (j - head))%nat with j in H7 by lia. rewrite (proj2 (Nat.ltb_lt _ _)) in H7 by lia.
    rewrite H7 in Hj by lia. by injection Hj.
  - replace (head + (j + capacity - head))%nat with (j + capacity)%nat in H7 by lia.
    rewrite (proj2 (Nat.ltb_ge _ _)) in H7 by lia. replace (j + capacity - capacity)%nat with j in H7 by lia.
    rewrite H7 in Hj by lia. by injection Hj.
Qed.
End circle.
