(* ===== verification/Join.v ===== *)
(** * Join: the end of a task and the handle on it

    sched/detail/JoinState.h, JoinHandle.cpp, and [finishJoin] with the part of
    [releaseTask] that calls it (SchedulerCore.cpp).

    - The [JoinState] is on the heap and counted by reference: one for the task,
      one for the handle.  [alive] says that it has not been deleted; every access
      checks it.
    - [token] is the wake-up pending for the party that joins, sticky as for
      [this_task::park] and [Parker::park] (ParkSpec.v, ParkerSpec.v).
    - A task that joins may be unwound by its scheduler's stop; the handle's
      destructor then gives the reference back.
    - [joined] is a history: what [join] found (the exception that escaped the
      task, if any). *)

From Stdlib Require Import ZArith Lia.
From stdpp Require Import base tactics list numbers option strings.
From S2P Require Import Prelude Conc.

Inductive WaiterKind := kNoWaiter | kTaskWaiter | kThreadWaiter.
#[global] Instance WaiterKind_eq_dec : EqDecision WaiterKind.
Proof. solve_decision. Defined.

Record jworld := JWorld {
  refs : Z;
  done : bool;
  waiterKind : WaiterKind;
  exception : option nat;
  alive : bool;
  token : bool;
  stopping : bool;
  handle : bool;                      (** [JoinHandle::state != nullptr] *)
  joined : option (option nat)
}.

Definition set_refs v w := JWorld v (done w) (waiterKind w) (exception w) (alive w) (token w) (stopping w) (handle w) (joined w).
Definition set_done w := JWorld (refs w) true (waiterKind w) (exception w) (alive w) (token w) (stopping w) (handle w) (joined w).
Definition set_kind k w := JWorld (refs w) (done w) k (exception w) (alive w) (token w) (stopping w) (handle w) (joined w).
Definition set_exception e w := JWorld (refs w) (done w) (waiterKind w) e (alive w) (token w) (stopping w) (handle w) (joined w).
Definition set_dead w := JWorld (refs w) (done w) (waiterKind w) (exception w) false (token w) (stopping w) (handle w) (joined w).
Definition set_token b w := JWorld (refs w) (done w) (waiterKind w) (exception w) (alive w) b (stopping w) (handle w) (joined w).
Definition set_stopping w := JWorld (refs w) (done w) (waiterKind w) (exception w) (alive w) (token w) true (handle w) (joined w).
Definition set_handle b w := JWorld (refs w) (done w) (waiterKind w) (exception w) (alive w) (token w) (stopping w) b (joined w).
Definition set_joined e w := JWorld (refs w) (done w) (waiterKind w) (exception w) (alive w) (token w) (stopping w) (handle w) (Some e).

Notation jprog := (prog jworld).

(** An access to the shared state. *)
Definition touch {R} (f : jworld -> jworld * R) : jprog R :=
  Act (option R) (fun w => if alive w then [(fst (f w), Some (snd (f w)))] else [(w, None)])
    (fun o => match o with Some r => Ret r | None => Fatal "use after free" end).
Definition tload {R} (f : jworld -> R) : jprog R := touch (fun w => (w, f w)).
Definition tstore (f : jworld -> jworld) : jprog unit := touch (fun w => (f w, tt)).

(** [JoinState::release]: the last one deletes. *)
Definition release : jprog unit :=
  r <- touch (fun w => (set_refs (refs w - 1) w, refs w));;
  if decide (r = 1%Z) then tstore set_dead else Ret tt.

(** ** The end of the task *)

Definition finishJoin : jprog unit :=
  tstore set_done;;;
  kind <- tload waiterKind;;
  (if decide (kind = kNoWaiter) then Ret tt else tload (fun _ => tt);;; store (set_token true));;;
  release.

Definition finishTask (escaped : option nat) : jprog unit :=
  tstore (set_exception escaped);;;
  finishJoin.

(** ** The handle *)

Definition isDone : jprog bool :=
  h <- load handle;;
  if h : bool then tload done else Ret false.

Definition detach : jprog unit :=
  h <- load handle;;
  if h : bool then release;;; store (set_handle false) else Ret tt.

(** False if the task is being unwound. *)
Definition block (isTask : bool) : jprog bool :=
  Act bool (fun w =>
    (if token w then [(set_token false w, true)] else []) ++
    (if isTask && stopping w then [(w, false)] else [])) Ret.

Fixpoint join_loop (fuel : nat) (isTask : bool) : jprog bool :=
  match fuel with
  | O => Starved
  | S fuel' =>
      d <- tload done;;
      if d : bool then Ret true
      else
        r <- block isTask;;
        if r : bool then join_loop fuel' isTask else Ret false
  end.

(** False if the task is being unwound; what [join] rethrows is recorded. *)
Definition join (fuel : nat) (isTask : bool) : jprog bool :=
  h <- load handle;;
  check h "stackfull: join() on an empty JoinHandle";;;
  d <- tload done;;
  ok <- (if d : bool then Ret true
         else tstore (set_kind (if isTask then kTaskWaiter else kThreadWaiter));;; join_loop fuel isTask);;
  if ok : bool then
    escaped <- tload exception;;
    tstore (set_exception None);;;
    detach;;;
    store (set_joined escaped);;;
    Ret true
  else Ret false.

Inductive handle_op := HIsDone | HJoin (isTask : bool) | HDetach.

(** The destructor comes last, also when the task is unwound. *)
Fixpoint owner (fuel : nat) (ops : list handle_op) : jprog unit :=
  match ops with
  | [] => detach
  | HIsDone :: ops => isDone;;; owner fuel ops
  | HDetach :: ops => detach;;; owner fuel ops
  | HJoin isTask :: ops =>
      ok <- join fuel isTask;;
      if ok : bool then owner fuel ops else detach
  end.

(** A handle is joined at most once, and not after [detach]. *)
Fixpoint usable (open : bool) (ops : list handle_op) : bool :=
  match ops with
  | [] => true
  | HIsDone :: ops => usable open ops
  | HDetach :: ops => usable false ops
  | HJoin _ :: ops => open && usable false ops
  end.

(** Others: a wake-up left over from earlier waits, and the scheduler's stop. *)
Inductive other_op := OWake | OStop.
Fixpoint others (l : list other_op) : jprog unit :=
  match l with
  | [] => Ret tt
  | OWake :: l => store (set_token true);;; others l
  | OStop :: l => store set_stopping;;; others l
  end.

(** [spawnJoinable]: two references. *)
Definition new_join : jworld := JWorld 2 false kNoWaiter None true false false true None.

Definition join_pool (fuel : nat) (escaped : option nat) (ops : list handle_op) (l : list (list other_op)) : config jworld unit :=
  (finishTask escaped :: owner fuel ops :: (others <$> l), new_join).
