(* ===== verification/JoinSpec.v ===== *)
(** * Join: the state is freed once and nobody waits for a finished task

    The Dekker pair of [join] and [finishJoin]: the joiner stores its kind and then
    loads [done], the task stores [done] and then loads the kind. *)

From Stdlib Require Import ZArith Lia.
From stdpp Require Import base tactics list numbers option strings.
From S2P Require Import Prelude Conc Join.

(** Where the task's end and the handle stand. *)
Inductive fphase := FRun | FDone | FWake | FRel | FFree | FGone.
Inductive hphase := HHas | HFree | HGone.
#[global] Instance fphase_eq_dec : EqDecision fphase.
Proof. solve_decision. Defined.
#[global] Instance hphase_eq_dec : EqDecision hphase.
Proof. solve_decision. Defined.

Record jghost := JG { fph : fphase; hph : hphase; taken : bool }.

Definition fholds (f : fphase) : Z := match f with FFree | FGone => 0 | _ => 1 end.
Definition hholds (h : hphase) : Z := match h with HHas => 1 | _ => 0 end.
(** The task has not yet woken the joiner. *)
Definition before_wake (f : fphase) : bool := match f with FRun | FDone | FWake => true | _ => false end.

Section spec.
Context (escaped : option nat).

Record jinv (w : jworld) (g : jghost) : Prop := {
  ji_refs : refs w = (fholds (fph g) + hholds (hph g))%Z;
  ji_ffree : fph g = FFree -> hph g = HGone;
  ji_hfree : hph g = HFree -> fph g = FGone;
  ji_alive : alive w = negb (bool_decide (fph g = FGone) && bool_decide (hph g = HGone));
  ji_done : done w = negb (bool_decide (fph g = FRun));
  ji_exception : taken g = false -> fph g <> FRun -> exception w = escaped;
  ji_joined : joined w = None \/ joined w = Some escaped
}.

Definition jguar (j : nat) (a b : jworld * jghost) : Prop :=
  (j <> 0%nat -> fph b.2 = fph a.2 /\ (fph a.2 = FRun -> exception b.1 = exception a.1)) /\
  (j <> 1%nat -> hph b.2 = hph a.2 /\ taken b.2 = taken a.2 /\ waiterKind b.1 = waiterKind a.1 /\ handle b.1 = handle a.1 /\
     (token a.1 = true -> token b.1 = true) /\ (fph a.2 <> FRun -> fph b.2 <> FRun) /\
     (before_wake (fph a.2) = true -> waiterKind a.1 <> kNoWaiter -> before_wake (fph b.2) = true \/ token b.1 = true)).

Definition jproto : protocol jworld jghost := WaitProtocol jinv jguar (fun i w g => i = 1%nat /\ before_wake (fph g) = true).
Notation R := jproto.

Ltac allowed := split; intros Hj; [try done; splits; auto|try done; splits; simpl in *; auto; try done].

Lemma jguar_refl j x : jguar j x x.
Proof. split; intros _; splits; auto. Qed.

(** ** Rules *)

Lemma j_touch {A B} i (f : jworld -> jworld * B) (q : B -> jprog A) P Q :
  (forall w g, jinv w g -> P w g -> alive w = true /\
     exists g' P', jinv (f w).1 g' /\ jguar i (w, g) ((f w).1, g') /\ P' (f w).1 g' /\ stable R i P' /\ rg R i (q (f w).2) P' Q) ->
  rg R i (bind (touch f) q) P Q.
Proof.
  intros H. split; [intros w g _ _; by destruct (alive w)|]. intros w g w' r HI HP Hin. destruct (H w g HI HP) as (Ha & g' & P' & H1 & H2 & H3 & H4 & H5).
  rewrite Ha in Hin. apply list_elem_of_singleton in Hin. injection Hin as -> ->. by exists g', P'.
Qed.

(** The task's end knows where it stands ... *)
Definition fin (f : fphase) : asrt jworld jghost := fun w g => fph g = f.
(** ... and so does the handle. *)
Definition hnd (h : hphase) (t hd : bool) : asrt jworld jghost := fun w g => hph g = h /\ taken g = t /\ handle w = hd.

Lemma stable_fin f : stable R 0 (fin f).
Proof. intros j w g w' g' Hj _ _ [H _] E. unfold fin in *. destruct (H Hj). simpl in *. congruence. Qed.
Lemma stable_fin_ex f : f = FRun -> stable R 0 (fun w g => fin f w g /\ exception w = escaped).
Proof. intros -> j w g w' g' Hj _ _ [H _] [E E2]. unfold fin in *. destruct (H Hj) as [H1 H2]. simpl in *. rewrite H1, H2 by done. done. Qed.
Lemma stable_hnd h t hd : stable R 1 (hnd h t hd).
Proof. intros j w g w' g' Hj _ _ [_ H] (E1 & E2 & E3). destruct (H Hj) as (H1 & H2 & _ & H4 & _). simpl in *. unfold hnd. splits; congruence. Qed.

Lemma alive_fin f w g : jinv w g -> fin f w g -> f <> FGone -> alive w = true.
Proof. intros [] E Hf. unfold fin in E. rewrite ji_alive0, E. by rewrite bool_decide_false. Qed.
Lemma alive_hnd h t hd w g : jinv w g -> hnd h t hd w g -> h <> HGone -> alive w = true.
Proof. intros [] (E & _) Hh. rewrite ji_alive0, E. by rewrite (bool_decide_false (h = HGone)), andb_false_r. Qed.

(** *** [release] *)

Lemma j_release_task (Q : unit -> asrt jworld jghost) : (forall w g, jinv w g -> fin FGone w g -> Q tt w g) -> rg R 0 release (fin FRel) Q.
Proof.
  intros HQ. unfold release. apply j_touch. intros w g HI HP. split; [by apply (alive_fin FRel w g)|]. unfold fin in HP. cbn [fst snd].
  destruct HI as [H1 H2 H3 H4 H5 H6 H7]. destruct g as [f h t]. simpl in *. subst f.
  assert (Hg : forall f', fph (JG f' h t) <> FRun -> jguar 0 (w, JG FRel h t) (set_refs (refs w - 1) w, JG f' h t)) by (intros f' Hf'; allowed).
  destruct h; simpl in H1; [|by discriminate H3|].
  - exists (JG FGone HHas t), (fin FGone). splits; [|by apply Hg|done|apply stable_fin|].
    + split; simpl; try done; [lia|]. intros Ht _. by apply H6.
    + rewrite decide_False by lia. simpl. intros w' g' HI' HP'. by apply HQ.
  - exists (JG FFree HGone t), (fin FFree). splits; [|by apply Hg|done|apply stable_fin|].
    + split; simpl; try done; [lia|]. intros Ht _. by apply H6.
    + rewrite decide_True by lia. apply rg_bind_ret, j_touch. intros w' g' HI' HP'. split; [by apply (alive_fin FFree w' g')|]. unfold fin in HP'. destruct g' as [f' h' t']. simpl in *. subst f'.
      destruct HI' as [G1 G2 G3 G4 G5 G6 G7]. simpl in *. rewrite (G2 eq_refl) in *. exists (JG FGone HGone t'), (fin FGone). splits; [|allowed|done|apply stable_fin|].
      * split; simpl; try done. intros Ht _. by apply G6.
      * simpl. intros w2 g2 HI2 HP2. by apply HQ.
Qed.

Lemma j_release_handle {A} t hd (q : unit -> jprog A) Q : rg R 1 (q tt) (hnd HGone t hd) Q -> rg R 1 (bind release q) (hnd HHas t hd) Q.
Proof.
  intros Hq. unfold release. apply rg_bind_assoc, j_touch. intros w g HI HP. split; [by apply (alive_hnd HHas t hd w g)|]. destruct HP as (E1 & E2 & E3). cbn [fst snd].
  destruct HI as [H1 H2 H3 H4 H5 H6 H7]. destruct g as [f h t']. simpl in *. subst h t'.
  assert (Hg : forall h', jguar 1 (w, JG f HHas t) (set_refs (refs w - 1) w, JG f h' t)) by (intros h'; allowed).
  destruct (decide (refs w = 1%Z)) as [Er|Er].
  - assert (Hf : f = FGone) by (destruct f; simpl in H1; try lia; [by discriminate H2|done]). subst f. exists (JG FGone HFree t), (hnd HFree t hd). splits; [|apply Hg|done|apply stable_hnd|].
    + split; simpl; try done. lia.
    + apply j_touch. intros w' g' HI' HP'. split; [by apply (alive_hnd HFree t hd w' g')|]. destruct HP' as (G1 & G2 & G3). destruct g' as [f' h' t']. simpl in *. subst h' t'.
      destruct HI' as [I1 I2 I3 I4 I5 I6 I7]. simpl in *. rewrite (I3 eq_refl) in *. exists (JG FGone HGone t), (hnd HGone t hd).
      splits; [|allowed|done|apply stable_hnd|exact Hq]. by split.
  - assert (Hf : fholds f = 1%Z) by (destruct f; simpl in *; lia). exists (JG f HGone t), (hnd HGone t hd). splits; [|apply Hg|done|apply stable_hnd|exact Hq].
    split; simpl; try done; [unfold hholds in *; lia|]. rewrite H4. destruct f; try done.
Qed.

(** *** The task's end *)

Lemma j_finishTask : rg R 0 (finishTask escaped) (fin FRun) (fun _ => fin FGone).
Proof.
  unfold finishTask, finishJoin. apply j_touch. intros w g HI HP. split; [by apply (alive_fin FRun w g)|]. exists g, (fun w g => fin FRun w g /\ exception w = escaped). cbn [fst snd].
  unfold fin in HP. splits; [|allowed|done|done|by apply stable_fin_ex|].
  { destruct HI. split; simpl; try done. }
  clear w g HI HP. apply j_touch. intros w g HI [HP Hex]. split; [by apply (alive_fin FRun w g)|]. destruct g as [f h t]. unfold fin in HP. simpl in HP. subst f. cbn [fst snd].
  exists (JG FDone h t), (fin FDone). splits; [| |done|apply stable_fin|].
  { destruct HI as [H1 H2 H3 H4 H5 H6 H7]. split; simpl in *; try done; intros E; discriminate (H3 E). }
  { allowed. }
  clear w HI Hex h t. apply j_touch. intros w g HI HP. split; [by apply (alive_fin FDone w g)|]. destruct g as [f h t]. unfold fin in HP. simpl in HP. subst f. cbn [fst snd].
  assert (Hstep : forall f', f' = FWake \/ f' = FRel -> jinv w (JG f' h t)).
  { intros f' Hf'. destruct HI as [H1 H2 H3 H4 H5 H6 H7]. simpl in *. destruct Hf' as [->| ->]; split; simpl; try done; try (intros E; discriminate (H3 E)); intros; by apply H6. }
  destruct (decide (waiterKind w = kNoWaiter)) as [Ek|Ek].
  - exists (JG FRel h t), (fin FRel). splits; [apply Hstep; by right| |done|apply stable_fin|by apply j_release_task]. allowed.
  - exists (JG FWake h t), (fin FWake). splits; [apply Hstep; by left| |done|apply stable_fin|]. { allowed. }
    clear w HI Hstep Ek h t. apply rg_bind_assoc, j_touch. intros w g HI HP. split; [by apply (alive_fin FWake w g)|]. exists g, (fin FWake).
    splits; [done|apply jguar_refl|done|apply stable_fin|]. clear w g HI HP. apply rg_store. intros w g HI HP. destruct g as [f h t]. unfold fin in HP. simpl in HP. subst f. cbn [fst snd].
    exists (JG FRel h t), (fin FRel). splits; [| |done|apply stable_fin|by apply j_release_task].
    + destruct HI as [H1 H2 H3 H4 H5 H6 H7]. simpl in *. split; simpl; try done; try (intros E; discriminate (H3 E)). intros. by apply H6.
    + allowed.
Qed.

(** *** The handle *)

(** The joiner has registered and has seen the task run: it will be woken. *)
Definition waiting (t hd : bool) : asrt jworld jghost :=
  fun w g => hnd HHas t hd w g /\ waiterKind w <> kNoWaiter /\ (before_wake (fph g) = true \/ token w = true).
(** The joiner has registered. *)
Definition registered (t hd : bool) : asrt jworld jghost := fun w g => hnd HHas t hd w g /\ waiterKind w <> kNoWaiter.
(** The joiner has seen the task done. *)
Definition finished (hd : bool) : asrt jworld jghost := fun w g => hnd HHas false hd w g /\ fph g <> FRun.

Lemma stable_registered t hd : stable R 1 (registered t hd).
Proof.
  intros j w g w' g' Hj HI HI' HG [H1 H2]. split; [by eapply (stable_hnd HHas t hd j w g)|]. destruct HG as [_ H]. destruct (H Hj) as (_ & _ & E & _). simpl in *. by rewrite E.
Qed.
Lemma stable_waiting t hd : stable R 1 (waiting t hd).
Proof.
  intros j w g w' g' Hj HI HI' HG (H1 & H2 & H3). split; [by eapply (stable_hnd HHas t hd j w g)|]. destruct HG as [_ H].
  destruct (H Hj) as (_ & _ & E & _ & Ht & _ & Hb). simpl in *. rewrite E. split; [done|]. destruct H3 as [H3|H3]; [by apply Hb|right; auto].
Qed.
Lemma stable_finished hd : stable R 1 (finished hd).
Proof.
  intros j w g w' g' Hj HI HI' HG [H1 H2]. split; [by eapply (stable_hnd HHas false hd j w g)|]. destruct HG as [_ H]. destruct (H Hj) as (_ & _ & _ & _ & _ & E & _). by apply E.
Qed.

Definition has (h : bool) : hphase := if h then HHas else HGone.

Lemma j_detach {A} h t (q : unit -> jprog A) Q : rg R 1 (q tt) (hnd HGone t false) Q -> rg R 1 (bind detach q) (hnd (has h) t h) Q.
Proof.
  intros Hq. unfold detach. apply rg_bind_assoc, rg_load; [apply jguar_refl|]. intros w g HI HP. pose proof HP as (_ & _ & Hh). exists (hnd (has h) t h).
  split; [exact HP|]. split; [apply stable_hnd|]. rewrite Hh. destruct h; [|exact Hq].
  apply rg_bind_assoc, j_release_handle, rg_store. intros w' g' HI' (E1 & E2 & E3). exists g', (hnd HGone t false). splits; [|allowed|by split|apply stable_hnd|exact Hq].
  destruct HI'. by split.
Qed.

Lemma j_isDone {A} h t (q : bool -> jprog A) Q : (forall b, rg R 1 (q b) (hnd (has h) t h) Q) -> rg R 1 (bind isDone q) (hnd (has h) t h) Q.
Proof.
  intros Hq. unfold isDone. apply rg_bind_assoc, rg_load; [apply jguar_refl|]. intros w g HI HP. pose proof HP as (_ & _ & Hh). exists (hnd (has h) t h).
  split; [exact HP|]. split; [apply stable_hnd|]. rewrite Hh. destruct h; [|apply Hq]. apply j_touch. intros w' g' HI' HP'. split; [by apply (alive_hnd HHas t true w' g')|].
  exists g', (hnd HHas t true). splits; [done|apply jguar_refl|exact HP'|apply stable_hnd|apply Hq].
Qed.

(** [join] loads [done]: if it is set the task has finished, otherwise it runs. *)
Lemma j_load_done {A} (P : asrt jworld jghost) (q : bool -> jprog A) Q :
  (forall w g, jinv w g -> P w g -> hnd HHas false true w g) -> stable R 1 P -> rg R 1 (q true) (finished true) Q ->
  (forall w0 g0, jinv w0 g0 -> P w0 g0 -> fph g0 = FRun -> exists P', P' w0 g0 /\ stable R 1 P' /\ rg R 1 (q false) P' Q) ->
  rg R 1 (bind (tload done) q) P Q.
Proof.
  intros HP Hst Ht Hf. apply j_touch. intros w g HI Hw. pose proof (HP w g HI Hw) as Hh. split; [by apply (alive_hnd HHas false true w g)|]. cbn [fst snd].
  rewrite (ji_done w g HI). case_bool_decide as E.
  - destruct (Hf w g HI Hw E) as (P' & H1 & H2 & H3). exists g, P'. splits; [done|apply jguar_refl|done|done|exact H3].
  - exists g, (finished true). splits; [done|apply jguar_refl|by split|apply stable_finished|exact Ht].
Qed.

Lemma j_block {A} isTask (q : bool -> jprog A) Q :
  rg R 1 (q true) (registered false true) Q -> rg R 1 (q false) (hnd HHas false true) Q -> rg R 1 (bind (block isTask) q) (waiting false true) Q.
Proof.
  intros Ht Hf. split.
  - intros w g HI (H1 & H2 & H3) E. simpl in E. apply app_eq_nil in E as [E _]. split; [done|]. destruct H3 as [?|H3]; [done|]. by rewrite H3 in E.
  - intros w g w' r HI (H1 & H2 & H3) Hin. simpl in Hin. apply elem_of_app in Hin as [Hin|Hin].
    + destruct (token w) eqn:Et; [|by apply not_elem_of_nil in Hin]. apply list_elem_of_singleton in Hin. injection Hin as -> ->.
      exists g, (registered false true). destruct H1 as (E1 & E2 & E3). splits; [destruct HI; by split|allowed|by split|apply stable_registered|exact Ht].
    + destruct (isTask && stopping w); [|by apply not_elem_of_nil in Hin]. apply list_elem_of_singleton in Hin. injection Hin as -> ->.
      exists g, (hnd HHas false true). splits; [done|apply jguar_refl|done|apply stable_hnd|exact Hf].
Qed.

Lemma j_join_loop {A} fuel isTask (q : bool -> jprog A) Q :
  rg R 1 (q true) (finished true) Q -> rg R 1 (q false) (hnd HHas false true) Q -> rg R 1 (bind (join_loop fuel isTask) q) (registered false true) Q.
Proof.
  intros Ht Hf. induction fuel as [|fuel IH]; [done|]. cbn [join_loop]. apply rg_bind_assoc, j_load_done; [by intros w g _ [? _]|apply stable_registered|exact Ht|].
  intros w g HI [H1 H2] Hrun. exists (waiting false true). split; [split; [done|split; [done|left; by rewrite Hrun]]|]. split; [apply stable_waiting|].
  apply rg_bind_assoc, j_block; [exact IH|exact Hf].
Qed.

Lemma j_join {A} fuel isTask (q : bool -> jprog A) Q :
  rg R 1 (q true) (hnd HGone true false) Q -> rg R 1 (q false) (hnd HHas false true) Q -> rg R 1 (bind (join fuel isTask) q) (hnd HHas false true) Q.
Proof.
  intros Ht Hf. unfold join. apply rg_bind_assoc, rg_load; [apply jguar_refl|]. intros w g HI HP. pose proof HP as (_ & _ & Hh). exists (hnd HHas false true).
  split; [exact HP|]. split; [apply stable_hnd|]. apply rg_bind_assoc, rg_check; [exact Hh|]. clear w g HI HP Hh.
  assert (Hend : rg R 1 (bind (escaped <- tload exception;; tstore (set_exception None);;; detach;;; store (set_joined escaped);;; Ret true) q) (finished true) Q).
  { apply rg_bind_assoc, j_touch. intros w g HI [HP Hrun]. split; [by apply (alive_hnd HHas false true w g)|]. pose proof HP as (E1 & E2 & E3). cbn [fst snd].
    rewrite (ji_exception w g HI E2 Hrun). exists g, (finished true). splits; [done|apply jguar_refl|by split|apply stable_finished|]. clear w g HI HP Hrun E1 E2 E3.
    apply rg_bind_assoc, j_touch. intros w g HI [HP Hrun]. split; [by apply (alive_hnd HHas false true w g)|]. destruct HP as (E1 & E2 & E3). cbn [fst snd].
    exists (JG (fph g) (hph g) true), (hnd HHas true true). splits; [|allowed|by split|apply stable_hnd|].
    - destruct HI. by split.
    - apply rg_bind_assoc, (j_detach true). clear w g HI Hrun E1 E2 E3. apply rg_bind_assoc, rg_store. intros w g HI (E1 & E2 & E3). exists g, (hnd HGone true false).
      splits; [|allowed|by split|apply stable_hnd|exact Ht]. destruct HI. split; try done. by right. }
  apply rg_bind_assoc, j_load_done; [done|apply stable_hnd|by apply Hend|].
  intros w g HI HP Hrun. exists (hnd HHas false true). split; [done|]. split; [apply stable_hnd|]. clear w g HI HP Hrun.
  apply rg_bind_assoc, rg_bind_assoc, j_touch. intros w g HI HP. split; [by apply (alive_hnd HHas false true w g)|]. destruct HP as (E1 & E2 & E3). cbn [fst snd].
  exists g, (registered false true). splits; [destruct HI; by split|allowed|split; [by splits|by destruct isTask]|apply stable_registered|].
  by apply j_join_loop.
Qed.

Definition gone (i : nat) (_ : unit) : asrt jworld jghost := fun w g => match i with 0 => fph g = FGone | 1 => hph g = HGone | _ => True end%nat.

Lemma j_owner fuel ops h t : usable h ops = true -> (h = true -> t = false) -> rg R 1 (owner fuel ops) (hnd (has h) t h) (gone 1).
Proof.
  assert (Hend : forall h t, rg R 1 detach (hnd (has h) t h) (gone 1)).
  { intros h' t'. apply rg_bind_ret, j_detach. by intros w g _ (? & _). }
  revert h t. induction ops as [|o ops IH]; intros h t Hu Hht; [apply Hend|]. destruct o as [|isTask|]; cbn [owner usable] in *.
  - apply j_isDone. intros b. by apply IH.
  - apply andb_true_iff in Hu as [-> Hu]. rewrite (Hht eq_refl). apply j_join; [by apply (IH false true)|apply (Hend true)].
  - apply j_detach. by apply (IH false t).
Qed.

Lemma j_others i l : (2 <= i)%nat -> rg R i (others l) (fun _ _ => True) (gone i).
Proof.
  intros Hi. induction l as [|[|] l IH]; cbn [others]; [intros w g _ _; by destruct i as [|[|i]]; [lia|lia|]|..]; apply rg_store; intros w g HI _; exists g, (fun _ _ => True);
    (splits; [destruct HI; by split| |done|done|exact IH]); split; intros _; splits; simpl; auto.
Qed.
End spec.

(** C19: In every interleaving of the task's end, the handle's calls, stale wake-ups and
    the scheduler's stop: the shared state is never used after it was deleted nor
    deleted twice, and it is deleted once both sides are through; [join] returns
    only after the task has ended, with the exception that escaped it; and once
    nobody can move, everybody has returned: [join] does not wait for a task that
    has ended. *)
Theorem join_contract fuel escaped ops l ts w :
  usable true ops = true -> reach (join_pool fuel escaped ops l) (ts, w) ->
  (forall i m, ts !! i <> Some (Fatal m)) /\
  (forall e, joined w = Some e -> e = escaped) /\
  ((forall i th, ts !! i = Some th -> th = Ret tt) -> alive w = false) /\
  ((forall i th, ts !! i = Some th -> halted w th) -> forall i th, ts !! i = Some th -> th = Ret tt).
Proof.
  intros Hu Hr. assert (Hok : pool_ok (jproto escaped) gone (join_pool fuel escaped ops l)).
  { exists (JG FRun HHas false). split; [by split; try done; left|]. intros i p Hp. destruct i as [|[|i]]; simpl in Hp.
    - injection Hp as <-. exists (fin FRun). split; [apply stable_fin|]. split; [done|]. apply j_finishTask.
    - injection Hp as <-. exists (hnd HHas false true). split; [apply stable_hnd|]. split; [done|]. by apply (j_owner escaped fuel ops true false).
    - rewrite list_lookup_fmap in Hp. destruct (l !! i) as [o|]; [|done]. injection Hp as <-. exists (fun _ _ => True). split; [done|]. split; [done|]. apply j_others. lia. }
  pose proof (pool_ok_reach _ _ _ _ Hr Hok) as Hok'. pose proof (reach_length _ _ Hr) as Hlen. simpl in Hlen. rewrite length_fmap in Hlen.
  split; [intros i m; by eapply pool_ok_not_fatal|]. destruct (pool_ok_waits _ _ _ _ Hok') as (g & HI & Hw & HQ).
  assert (Hth : forall i, (i < 2)%nat -> exists th, ts !! i = Some th) by (intros i Hi; apply lookup_lt_is_Some_2; lia). splits.
  - intros e He. destruct (ji_joined _ _ _ HI); congruence.
  - intros Hall. destruct (Hth 0%nat ltac:(lia)) as [t0 H0]. destruct (Hth 1%nat ltac:(lia)) as [t1 H1]. pose proof (Hall _ _ H0) as ->. pose proof (Hall _ _ H1) as ->.
    rewrite (ji_alive _ _ _ HI). pose proof (HQ 0%nat tt H0) as G0. pose proof (HQ 1%nat tt H1) as G1. simpl in G0, G1. by rewrite G0, G1.
  - intros Hall i th Hi. destruct (Hall i th Hi) as [?|(X & f & q & -> & Hf)]; [done|]. destruct (Hw i X f q Hi Hf) as [-> Hb].
    destruct (Hth 0%nat ltac:(lia)) as [t0 H0]. destruct (Hall 0%nat t0 H0) as [->|(X0 & f0 & q0 & -> & Hf0)].
    + pose proof (HQ 0%nat tt H0) as G0. simpl in G0. by rewrite G0 in Hb.
    + by destruct (Hw 0%nat X0 f0 q0 H0 Hf0).
Qed.

(** A task joins, is woken early once, and gets the exception. *)
Definition join_run := run_avail (round_robin 3 20) (join_pool 9 (Some 7%nat) [HIsDone; HJoin true] [[OWake]]).

Lemma join_contract_witness : joined join_run.2 = Some (Some 7%nat) /\ alive join_run.2 = false.
Proof.
  split; [vm_compute; reflexivity|].
  destruct (join_contract 9 (Some 7%nat) [HIsDone; HJoin true] [[OWake]] join_run.1 join_run.2) as (_ & _ & H & _); [reflexivity| |].
  - apply (run_avail_reach (round_robin 3 20)). unfold join_run. apply surjective_pairing.
  - apply H. apply returnedb_all. vm_compute. reflexivity.
Defined.
