(* ===== verification/Slots.v ===== *)
(** * Slots: wake-token slots, worker caches, live-task counts

    [acquireSlot], [tryAcquireSlot], [releaseSlot], [countCreated],
    [countFinished] and [liveTasks] of [SchedulerCore] (sched/src/
    SchedulerCore.cpp, sched/detail/Runtime.h) with [Worker::SlotCache]
    (sched/detail/Worker.h).

    The global free list is a [BbqQueue] and enters through what BbqSpec.v
    proves of it: first in, first out, and busy for a moment while a push is in
    progress.  [alive] lists the slots of the tasks that exist, [peak] the most
    there ever were, [refused] counts the calls of [acquireSlot] that gave up.
    The counters of thread [me] are at index [who me]: 0 for the threads that
    are not workers, [i + 1] for worker [i]. *)

From Stdlib Require Import ZArith Lia.
From stdpp Require Import base tactics list numbers option strings functions.
From S2P Require Import Prelude Conc Sums.

Definition kCapacity : nat := 64.
Definition kBatch : nat := 32.

Record SlotCache := MkSlotCache { locked : bool; slots : list nat }.

Record slot_core := MkSlotCore {
  freeSlots : list nat;
  freePushing : nat;
  caches : list SlotCache;
  tasksCreated : list nat;
  tasksFinished : list nat;
  alive : list nat;
  peak : nat;
  refused : nat
}.

Definition set_free q p s := MkSlotCore q p (caches s) (tasksCreated s) (tasksFinished s) (alive s) (peak s) (refused s).
Definition set_caches v s := MkSlotCore (freeSlots s) (freePushing s) v (tasksCreated s) (tasksFinished s) (alive s) (peak s) (refused s).
Definition set_created v s := MkSlotCore (freeSlots s) (freePushing s) (caches s) v (tasksFinished s) (alive s) (peak s) (refused s).
Definition set_finished v s := MkSlotCore (freeSlots s) (freePushing s) (caches s) (tasksCreated s) v (alive s) (peak s) (refused s).
Definition set_alive v s := MkSlotCore (freeSlots s) (freePushing s) (caches s) (tasksCreated s) (tasksFinished s) v (Nat.max (peak s) (length v)) (refused s).
Definition set_refused v s := MkSlotCore (freeSlots s) (freePushing s) (caches s) (tasksCreated s) (tasksFinished s) (alive s) (peak s) v.

Definition on_cache (c : nat) (f : SlotCache -> SlotCache) (s : slot_core) : slot_core := set_caches (alter f c (caches s)) s.
Definition cache (s : slot_core) (c : nat) : SlotCache := default (MkSlotCache false []) (caches s !! c).
Definition who (me : option nat) : nat := match me with Some i => S i | None => 0%nat end.

Abbreviation sprog := (prog slot_core).

(** ** The global free list *)

Inductive PopStatus := Ok (slot : nat) | Empty | Busy.

Definition free_pop : sprog PopStatus :=
  Act PopStatus (fun s =>
    (match freeSlots s with [] => [(s, Empty)] | t :: l => [(set_free l (freePushing s) s, Ok t)] end) ++
    (if (freePushing s =? 0)%nat then [] else [(s, Busy)])) Ret.

Fixpoint popFreeSlot (fuel : nat) : sprog (option nat) :=
  match fuel with
  | O => Starved
  | S fuel' =>
      status <- free_pop;;
      match status with
      | Ok slot => Ret (Some slot)
      | Empty => Ret None
      | Busy => popFreeSlot fuel'
      end
  end.

(** The list never is full: it has room for every slot. *)
Definition pushFreeSlot (slot : nat) : sprog unit :=
  store (fun s => set_free (freeSlots s) (S (freePushing s)) s);;;
  store (fun s => set_free (freeSlots s ++ [slot]) (freePushing s - 1) s).

(** ** The caches *)

Definition lock_cache (c : nat) : sprog unit :=
  Act unit (fun s => if locked (cache s c) then [] else [(on_cache c (fun x => MkSlotCache true (slots x)) s, tt)]) Ret.
Definition unlock_cache (c : nat) : sprog unit := store (on_cache c (fun x => MkSlotCache false (slots x))).
(** [SlotCacheGuard] *)
Definition SlotCacheGuard {A} (c : nat) (body : sprog A) : sprog A :=
  lock_cache c;;; r <- body;; unlock_cache c;;; Ret r.

Definition cache_count (c : nat) : sprog nat := load (fun s => length (slots (cache s c))).
(** [cache.slots[cache.count++] = slot] *)
Definition cache_push (c slot : nat) : sprog unit :=
  n <- cache_count c;;
  check (n <? kCapacity)%nat "slot cache overflow";;;
  store (on_cache c (fun x => MkSlotCache (locked x) (slots x ++ [slot]))).
(** [slot = cache.slots[--cache.count]], if there is one *)
Definition cache_pop (c : nat) : sprog (option nat) :=
  rmw (fun s => match slots (cache s c) !! (length (slots (cache s c)) - 1)%nat with
                | Some t => (on_cache c (fun x => MkSlotCache (locked x) (take (length (slots x) - 1) (slots x))) s, Some t)
                | None => (s, None)
                end).

(** [m] more slots from the global list *)
Fixpoint refill (fuel m c : nat) : sprog unit :=
  match m with
  | O => Ret tt
  | S m' =>
      o <- popFreeSlot fuel;;
      match o with
      | Some slot => cache_push c slot;;; refill fuel m' c
      | None => Ret tt
      end
  end.

Definition take_own (fuel c : nat) : sprog (option nat) :=
  n <- cache_count c;;
  (if (n =? 0)%nat then refill fuel kBatch c else Ret tt);;;
  cache_pop c.

(** The other workers' caches. *)
Fixpoint take_other (me : option nat) (cs : list nat) : sprog (option nat) :=
  match cs with
  | [] => Ret None
  | c :: cs' =>
      if bool_decide (me = Some c) then take_other me cs'
      else
        o <- SlotCacheGuard c (cache_pop c);;
        match o with Some slot => Ret (Some slot) | None => take_other me cs' end
  end.

Section slots.
Context (count maxTasks : nat).

Definition tryAcquireSlot (fuel : nat) (me : option nat) : sprog (option nat) :=
  o <- (match me with Some i => SlotCacheGuard i (take_own fuel i) | None => popFreeSlot fuel end);;
  match o with
  | Some slot => Ret (Some slot)
  | None =>
      o2 <- take_other me (seq 0 count);;
      match o2 with
      | Some slot => Ret (Some slot)
      | None => popFreeSlot fuel
      end
  end.

Definition load_finished (k : nat) : sprog nat := load (fun s => default 0%nat (tasksFinished s !! k)).
Definition load_created (k : nat) : sprog nat := load (fun s => default 0%nat (tasksCreated s !! k)).

Fixpoint sum_of (get : nat -> sprog nat) (l : list nat) (acc : nat) : sprog nat :=
  match l with [] => Ret acc | k :: l' => v <- get k;; sum_of get l' (acc + v) end.

(** Finished counts first, created counts second; in 64 bits. *)
Definition liveTasks : sprog Z :=
  finished <- sum_of load_finished (seq 0 (S count)) 0;;
  created <- sum_of load_created (seq 0 (S count)) 0;;
  Ret ((Z.of_nat created - Z.of_nat finished) mod 2 ^ 64).

Fixpoint acquireSlot (fuel : nat) (me : option nat) : sprog (option nat) :=
  match fuel with
  | O => Starved
  | S fuel' =>
      o <- tryAcquireSlot fuel' me;;
      match o with
      | Some slot => Ret (Some slot)
      | None =>
          n <- liveTasks;;
          if Z.of_nat maxTasks <=? n then Ret None else acquireSlot fuel' me
      end
  end.

(** The oldest half goes back. *)
Fixpoint hand_back (c k m : nat) : sprog unit :=
  match m with
  | O => Ret tt
  | S m' =>
      slot <- load (fun s => default 0%nat (slots (cache s c) !! k));;
      pushFreeSlot slot;;;
      hand_back c (S k) m'
  end.

Definition releaseSlot (me : option nat) (slot : nat) : sprog unit :=
  match me with
  | None => pushFreeSlot slot
  | Some c =>
      SlotCacheGuard c (
        n <- cache_count c;;
        (if (n =? kCapacity)%nat then
           hand_back c 0 kBatch;;;
           store (on_cache c (fun x => MkSlotCache (locked x) (drop kBatch (slots x))))
         else Ret tt);;;
        cache_push c slot)
  end.

Definition countCreated (me : option nat) : sprog unit :=
  match me with
  | Some i => n <- load_created (who me);; store (fun s => set_created (<[who me := S n]> (tasksCreated s)) s)
  | None => store (fun s => set_created (alter S (who me) (tasksCreated s)) s)
  end.
Definition countFinished (me : option nat) : sprog unit :=
  match me with
  | Some i => n <- load_finished (who me);; store (fun s => set_finished (<[who me := S n]> (tasksFinished s)) s)
  | None => store (fun s => set_finished (alter S (who me) (tasksFinished s)) s)
  end.

(** ** The threads *)

Inductive slot_op := SSpawn | SSpawnFails | SFinish.

(** A task is created, or its creation fails later and the slot goes back. *)
Definition spawn (fuel : nat) (me : option nat) (fails : bool) : sprog unit :=
  o <- acquireSlot fuel me;;
  match o with
  | None => store (fun s => set_refused (S (refused s)) s)
  | Some slot =>
      if fails then releaseSlot me slot
      else store (fun s => set_alive (slot :: alive s) s);;; countCreated me
  end.

(** Any task that exists ends here. *)
Definition finish (me : option nat) : sprog unit :=
  o <- Act (option nat) (fun s =>
    match alive s with
    | [] => [(s, None)]
    | l => imap (fun k t => (set_alive (delete k l) s, Some t)) l
    end) Ret;;
  match o with
  | None => Ret tt
  | Some slot => countFinished me;;; releaseSlot me slot
  end.

Fixpoint slot_thread (fuel : nat) (me : option nat) (l : list slot_op) : sprog unit :=
  match l with
  | [] => Ret tt
  | o :: l' =>
      (match o with SSpawn => spawn fuel me false | SSpawnFails => spawn fuel me true | SFinish => finish me end);;;
      slot_thread fuel me l'
  end.

Definition new_slot_core : slot_core :=
  MkSlotCore (seq 0 maxTasks) 0 (replicate count (MkSlotCache false [])) (replicate (S count) 0%nat) (replicate (S count) 0%nat) [] 0 0.

(** Worker [i] runs [ws !! i]; the others are not workers. *)
Definition slot_pool (fuel : nat) (ws os : list (list slot_op)) : config slot_core unit :=
  ((imap (fun i l => slot_thread fuel (Some i) l) ws) ++ (slot_thread fuel None <$> os), new_slot_core).
End slots.
