(* ===== verification/SlotsSpec.v ===== *)
(** * Slots: no slot is handed out twice, none is lost

    Each slot is in exactly one place: of a task that exists, in the global
    list, in a cache, or in the hands of a thread.  A cache that is handing
    slots back still has them in its array: [back] counts them. *)

From Stdlib Require Import ZArith Lia.
From stdpp Require Import base tactics list numbers option strings functions.
From S2P Require Import Prelude Conc Sums Slots.

(** The cache whose lock a thread holds; the slots in its hands. *)
Record spl := SPl { holds : option nat; hand : list nat }.
Record sghost := SGhost { pl : nat -> spl; back : nat -> nat }.

Section proof.
Context (C maxTasks n : nat).

(** What a cache still has. *)
Definition left_in (s : slot_core) (g : sghost) (c : nat) : list nat := drop (back g c) (slots (cache s c)).

Definition sinv (s : slot_core) (g : sghost) : Prop :=
  length (caches s) = C /\
  (forall t, cnt t (alive s) + cnt t (freeSlots s) + lsum (fun c => cnt t (left_in s g c)) (seq 0 C) + total n (fun l => cnt t (hand l)) (pl g) =
     if (t <? maxTasks)%nat then 1 else 0)%nat /\
  (forall c, (c < C)%nat -> locked (cache s c) = true <-> exists j, (j < n)%nat /\ holds (pl g j) = Some c) /\
  (forall i j c, (i < n)%nat -> (j < n)%nat -> holds (pl g i) = Some c -> holds (pl g j) = Some c -> i = j) /\
  (forall j c, (j < n)%nat -> holds (pl g j) = Some c -> (c < C)%nat) /\
  (forall c, (c < C)%nat -> locked (cache s c) = false -> back g c = 0%nat) /\
  (forall c, (c < C)%nat -> (length (slots (cache s c)) <= kCapacity)%nat).

Definition sguar (j : nat) (x y : slot_core * sghost) : Prop :=
  forall i, i <> j -> pl y.2 i = pl x.2 i /\
    forall c, (i < n)%nat -> holds (pl x.2 i) = Some c -> cache y.1 c = cache x.1 c /\ back y.2 c = back x.2 c.

Definition swaits (i : nat) (s : slot_core) (g : sghost) : Prop :=
  holds (pl g i) = None /\ exists c, (c < C)%nat /\ locked (cache s c) = true.

Definition sproto : protocol slot_core sghost := WaitProtocol sinv sguar swaits.
Notation R := sproto.

Definition out (i : nat) (h : list nat) : asrt slot_core sghost := fun _ g => pl g i = SPl None h.
(** It holds the lock of cache [c], with the array [l], of which it has handed
    back [k]. *)
Definition inside (i c k : nat) (l h : list nat) : asrt slot_core sghost :=
  fun s g => pl g i = SPl (Some c) h /\ back g c = k /\ cache s c = MkSlotCache true l.

Lemma stable_out i h : stable R i (out i h).
Proof. intros j s g s' g' Hj _ _ HG H. destruct (HG i) as [E _]; [done|]. unfold out in *. simpl in *. congruence. Qed.
Lemma stable_cached i c k l h : (i < n)%nat -> stable R i (inside i c k l h).
Proof.
  intros Hi j s g s' g' Hj _ _ HG (H1 & H2 & H3). destruct (HG i) as [E1 E2]; [done|]. simpl in *.
  destruct (E2 c Hi) as [E3 E4]; [by rewrite H1|]. unfold inside. by rewrite E1, E3, E4.
Qed.

Lemma cache_on s c f j : length (caches s) = C -> (c < C)%nat -> cache (on_cache c f s) j = if decide (j = c) then f (cache s c) else cache s j.
Proof.
  intros HL Hc. unfold cache, on_cache. simpl. case_decide as E; [subst j; rewrite list_lookup_alter_eq|by rewrite list_lookup_alter_ne].
  destruct (lookup_lt_is_Some_2 (caches s) c) as [x Hx]; [lia|]. by rewrite Hx.
Qed.

Lemma lsum_upd (f g : nat -> nat) c : (c < C)%nat -> (forall j, j <> c -> f j = g j) -> (lsum f (seq 0 C) + g c = lsum g (seq 0 C) + f c)%nat.
Proof.
  intros Hc H. pose proof (lsum_threads (fun x => x) g C c (f c) Hc) as E. simpl in E.
  change (lsum (fun j => g j) (seq 0 C)) with (lsum g (seq 0 C)) in E.
  rewrite (lsum_ext f (fun j => <[c := f c]> g j)); [exact E|]. intros j _.
  destruct (decide (j = c)) as [->|]; [by rewrite fn_lookup_insert|by rewrite fn_lookup_insert_ne; auto].
Qed.

(** A step of thread [i] that leaves the locks alone: it moves slots between
    its hands, the tasks, the global list and the cache it has locked. *)
Lemma move_step s s' g i o h h' b' :
  (i < n)%nat -> sinv s g -> pl g i = SPl o h -> length (caches s') = C ->
  (forall c, locked (cache s' c) = locked (cache s c)) ->
  (forall c, o <> Some c -> cache s' c = cache s c /\ b' c = back g c) ->
  (forall c, o = Some c -> (length (slots (cache s' c)) <= kCapacity)%nat) ->
  (forall t, cnt t (alive s') + cnt t (freeSlots s') + cnt t h' + (match o with Some c => cnt t (drop (b' c) (slots (cache s' c))) | None => 0 end) =
             cnt t (alive s) + cnt t (freeSlots s) + cnt t h + (match o with Some c => cnt t (left_in s g c) | None => 0 end))%nat ->
  let g' := SGhost (<[i := SPl o h']> (pl g)) b' in
  sinv s' g' /\ guar R i (s, g) (s', g').
Proof.
  intros Hi (I1 & I2 & I3 & I4 & I5 & I6 & I7) Hp HL Hlk Hsame Hlen Hcnt g'.
  assert (Hh : forall j, holds (pl g' j) = holds (pl g j)).
  { intros j. simpl. destruct (decide (j = i)) as [->|]; [by rewrite fn_lookup_insert, Hp|by rewrite fn_lookup_insert_ne]. }
  split.
  - split; [done|]. split; [|split; [|split; [|split; [|split]]]].
    + intros t. specialize (I2 t). specialize (Hcnt t). pose proof (total_upd n (fun l => cnt t (hand l)) (pl g) i _ (SPl o h') Hi Hp) as Ht. simpl in Ht.
      destruct o as [c|].
      * assert (Hc : (c < C)%nat) by (apply (I5 i); [done|by rewrite Hp]).
        pose proof (lsum_upd (fun j => cnt t (left_in s' g' j)) (fun j => cnt t (left_in s g j)) c Hc) as Hs. simpl in Hs.
        assert (Hpre : forall j, j <> c -> cnt t (left_in s' g' j) = cnt t (left_in s g j)).
        { intros j Hj. unfold left_in. destruct (Hsame j) as [-> Hb]; [congruence|]. simpl. by rewrite Hb. }
        specialize (Hs Hpre). unfold left_in in *. simpl in *. lia.
      * rewrite (lsum_ext (fun c => cnt t (left_in s' g' c)) (fun c => cnt t (left_in s g c))); [simpl in *; lia|].
        intros j _. unfold left_in. destruct (Hsame j) as [-> Hb]; [done|]. simpl. by rewrite Hb.
    + intros c Hc. rewrite Hlk, I3 by done. by setoid_rewrite Hh.
    + intros a b c Ha Hb. rewrite !Hh. by apply I4.
    + intros j c Hj. rewrite Hh. by apply I5.
    + intros c Hc Hl. rewrite Hlk in Hl. destruct (decide (o = Some c)) as [->|Hne].
      * assert (locked (cache s c) = true) by (apply I3; [done|]; exists i; by rewrite Hp). congruence.
      * simpl. destruct (Hsame c Hne) as [_ ->]. auto.
    + intros c Hc. destruct (decide (o = Some c)) as [->|Hne]; [by apply Hlen|]. destruct (Hsame c Hne) as [-> _]. auto.
  - intros j Hj. split; [simpl; by rewrite fn_lookup_insert_ne|]. intros c Hjn Hc. simpl in *. apply Hsame. intros ->.
    destruct Hj. apply (I4 j i c); [done..|by rewrite Hp].
Qed.
(** ** Rules *)

Lemma rg_out {A X} i h (f : slot_core -> list (slot_core * X)) (k : X -> prog slot_core A) Q :
  (i < n)%nat -> (forall s, f s <> []) ->
  (forall s g s' x, sinv s g -> pl g i = SPl None h -> (s', x) ∈ f s -> exists h', caches s' = caches s /\
     (forall t, cnt t (alive s') + cnt t (freeSlots s') + cnt t h' = cnt t (alive s) + cnt t (freeSlots s) + cnt t h)%nat /\ rg R i (k x) (out i h') Q) ->
  rg R i (Act X f k) (out i h) Q.
Proof.
  intros Hi Hne Hk. split; [intros s g _ _ E; by destruct (Hne s)|]. intros s g s' x HI Hp Hin.
  destruct (Hk s g s' x HI Hp Hin) as (h' & Hc & Hcnt & Hrg).
  assert (Hcache : forall c, cache s' c = cache s c) by (intros c; unfold cache; by rewrite Hc).
  destruct (move_step s s' g i None h h' (back g)) as [HI' HG]; try done.
  - rewrite Hc. apply HI.
  - intros c. by rewrite Hcache.
  - intros t. specialize (Hcnt t). lia.
  - eexists _, (out i h'). split; [exact HI'|]. split; [exact HG|]. split; [unfold out; simpl; by rewrite fn_lookup_insert|].
    split; [apply stable_out|done].
Qed.

Lemma rg_in {A X} i c b l h (f : slot_core -> list (slot_core * X)) (k : X -> prog slot_core A) Q :
  (i < n)%nat -> (c < C)%nat -> (forall s, f s <> []) ->
  (forall s g s' x, sinv s g -> inside i c b l h s g -> (s', x) ∈ f s -> exists b' l' h', length (caches s') = length (caches s) /\
     (forall j, cache s' j = if decide (j = c) then MkSlotCache true l' else cache s j) /\ (length l' <= kCapacity)%nat /\
     (forall t, cnt t (alive s') + cnt t (freeSlots s') + cnt t h' + cnt t (drop b' l') =
                cnt t (alive s) + cnt t (freeSlots s) + cnt t h + cnt t (drop b l))%nat /\ rg R i (k x) (inside i c b' l' h') Q) ->
  rg R i (Act X f k) (inside i c b l h) Q.
Proof.
  intros Hi Hc Hne Hk. split; [intros s g _ _ E; by destruct (Hne s)|]. intros s g s' x HI HP Hin.
  destruct (Hk s g s' x HI HP Hin) as (b' & l' & h' & HL & Hcache & Hlen & Hcnt & Hrg). destruct HP as (P1 & P2 & P3).
  destruct (move_step s s' g i (Some c) h h' (<[c := b']> (back g))) as [HI' HG]; try done.
  - rewrite HL. apply HI.
  - intros j. rewrite Hcache. case_decide; [subst; by rewrite P3|done].
  - intros j Hj. rewrite Hcache, decide_False, fn_lookup_insert_ne by congruence. done.
  - intros j [= <-]. rewrite Hcache, decide_True by done. done.
  - intros t. specialize (Hcnt t). rewrite Hcache, decide_True, fn_lookup_insert by done. unfold left_in. rewrite P2, P3. simpl. lia.
  - eexists _, (inside i c b' l' h'). split; [exact HI'|]. split; [exact HG|].
    split; [unfold inside; simpl; rewrite !fn_lookup_insert; split; [done|]; split; [done|]; by rewrite Hcache, decide_True|].
    split; [by apply stable_cached|done].
Qed.

Lemma rg_out_load {A X} i h (f : slot_core -> X) (k : X -> prog slot_core A) Q :
  (i < n)%nat -> (forall x, rg R i (k x) (out i h) Q) -> rg R i (bind (load f) k) (out i h) Q.
Proof.
  intros Hi Hk. apply rg_out; [done|done|]. intros s g s' x _ _ Hin. apply list_elem_of_singleton in Hin. injection Hin as -> ->.
  exists h. by split.
Qed.

Lemma rg_out_store {A} i h h' (f : slot_core -> slot_core) (k : unit -> prog slot_core A) Q :
  (i < n)%nat -> (forall s, caches (f s) = caches s /\
    forall t, cnt t (alive (f s)) + cnt t (freeSlots (f s)) + cnt t h' = cnt t (alive s) + cnt t (freeSlots s) + cnt t h)%nat ->
  rg R i (k tt) (out i h') Q -> rg R i (bind (store f) k) (out i h) Q.
Proof.
  intros Hi Hf Hk. apply rg_out; [done|done|]. intros s g s' x _ _ Hin. apply list_elem_of_singleton in Hin. injection Hin as -> ->.
  destruct (Hf s) as [? ?]. by exists h'.
Qed.

(** A load of the cache that is locked. *)
Lemma rg_in_load {A X} i c b l h (f : slot_core -> X) v (k : X -> prog slot_core A) Q :
  (i < n)%nat -> (c < C)%nat -> (forall s, cache s c = MkSlotCache true l -> f s = v) -> rg R i (k v) (inside i c b l h) Q ->
  rg R i (bind (load f) k) (inside i c b l h) Q.
Proof.
  intros Hi Hc Hf Hk. apply rg_in; [done|done|done|]. intros s g s' x (I1 & _ & _ & _ & _ & _ & I7) (P1 & P2 & P3) Hin. apply list_elem_of_singleton in Hin. injection Hin as -> ->.
  rewrite (Hf s P3). exists b, l, h. split; [done|]. split; [intros j; case_decide; [by subst|done]|].
  split; [specialize (I7 c Hc); by rewrite P3 in I7|]. by split.
Qed.

(** Stores beside the cache that is locked. *)
Lemma rg_in_store {A} i c b b' l h h' (f : slot_core -> slot_core) (k : unit -> prog slot_core A) Q :
  (i < n)%nat -> (c < C)%nat -> (forall s, caches (f s) = caches s /\
    forall t, cnt t (alive (f s)) + cnt t (freeSlots (f s)) + cnt t h' + cnt t (drop b' l) = cnt t (alive s) + cnt t (freeSlots s) + cnt t h + cnt t (drop b l))%nat ->
  rg R i (k tt) (inside i c b' l h') Q -> rg R i (bind (store f) k) (inside i c b l h) Q.
Proof.
  intros Hi Hc Hf Hk. apply rg_in; [done|done|done|]. intros s g s' x (_ & _ & _ & _ & _ & _ & I7) (P1 & P2 & P3) Hin. apply list_elem_of_singleton in Hin. injection Hin as -> ->.
  destruct (Hf s) as [E1 E2]. exists b', l, h'. rewrite E1. split; [done|]. split; [|split; [specialize (I7 c Hc); by rewrite P3 in I7|by split]].
  intros j. unfold cache. rewrite E1. case_decide as Ej; [subst; unfold cache in P3; by rewrite P3|done].
Qed.

(** A store to the cache that is locked. *)
Lemma rg_in_cache {A} i c b b' l l' h h' (f : SlotCache -> SlotCache) (k : unit -> prog slot_core A) Q :
  (i < n)%nat -> (c < C)%nat -> f (MkSlotCache true l) = MkSlotCache true l' -> (length l' <= kCapacity)%nat ->
  (forall t, cnt t h' + cnt t (drop b' l') = cnt t h + cnt t (drop b l))%nat ->
  rg R i (k tt) (inside i c b' l' h') Q -> rg R i (bind (store (on_cache c f)) k) (inside i c b l h) Q.
Proof.
  intros Hi Hc Hf Hlen Hcnt Hk. apply rg_in; [done|done|done|]. intros s g s' x (I1 & _) (P1 & P2 & P3) Hin. apply list_elem_of_singleton in Hin. injection Hin as -> ->.
  exists b', l', h'. split; [apply length_alter|]. split; [intros j; rewrite cache_on by done; case_decide; [by rewrite P3|done]|].
  split; [done|]. split; [intros t; specialize (Hcnt t); simpl; lia|done].
Qed.
(** Taking and releasing the lock of a cache. *)
Lemma lock_step s g i c h (b : bool) :
  (i < n)%nat -> (c < C)%nat -> sinv s g -> pl g i = SPl (if b then None else Some c) h -> locked (cache s c) = negb b -> back g c = 0%nat ->
  let s' := on_cache c (fun x => MkSlotCache b (slots x)) s in
  let g' := SGhost (<[i := SPl (if b then Some c else None) h]> (pl g)) (back g) in
  sinv s' g' /\ guar R i (s, g) (s', g').
Proof.
  intros Hi Hc (I1 & I2 & I3 & I4 & I5 & I6 & I7) Hp Hlk Hb s' g'.
  assert (Hcache : forall j, cache s' j = if decide (j = c) then MkSlotCache b (slots (cache s c)) else cache s j) by (intros j; by apply cache_on).
  assert (Hslots : forall j, slots (cache s' j) = slots (cache s j)) by (intros j; rewrite Hcache; case_decide; [by subst|done]).
  assert (Hnot : forall j, (j < n)%nat -> j <> i -> holds (pl g j) <> Some c).
  { intros j Hj Hne E. destruct b; simpl in *.
    - assert (locked (cache s c) = true) by (apply I3; [done|by exists j]). congruence.
    - destruct Hne. apply (I4 j i c); [done..|by rewrite Hp]. }
  split.
  - split; [unfold s', on_cache; simpl; by rewrite length_alter|]. split; [|split; [|split; [|split; [|split]]]].
    + intros t. specialize (I2 t). pose proof (total_upd n (fun l => cnt t (hand l)) (pl g) i _ (SPl (if b then Some c else None) h) Hi Hp) as Ht. simpl in Ht.
      rewrite (lsum_ext (fun c => cnt t (left_in s' g' c)) (fun c => cnt t (left_in s g c))); [simpl in *; lia|].
      intros j _. unfold left_in. by rewrite Hslots.
    + intros j Hj. rewrite Hcache. case_decide as E.
      * subst j. simpl. destruct b; simpl.
        -- split; [intros _; exists i; by rewrite fn_lookup_insert|done].
        -- split; [done|]. intros (m & Hm & E). destruct (decide (m = i)) as [->|Hmi]; [by rewrite fn_lookup_insert in E|].
           rewrite fn_lookup_insert_ne in E by done. by destruct (Hnot m Hm Hmi).
      * rewrite I3 by done. split; intros (m & Hm & Em); exists m; (split; [done|]); simpl in *.
        -- destruct (decide (m = i)) as [->|]; [rewrite Hp in Em; destruct b; simpl in Em; congruence|by rewrite fn_lookup_insert_ne].
        -- destruct (decide (m = i)) as [->|]; [rewrite fn_lookup_insert in Em; destruct b; simpl in Em; congruence|by rewrite fn_lookup_insert_ne in Em].
    + intros x y j Hx Hy Ex Ey. simpl in *. destruct (decide (x = i)) as [->|Hxi], (decide (y = i)) as [->|Hyi]; [done| | |].
      * rewrite fn_lookup_insert in Ex. rewrite fn_lookup_insert_ne in Ey by done. destruct b; simpl in Ex; [|done]. injection Ex as <-. by destruct (Hnot y Hy Hyi).
      * rewrite fn_lookup_insert in Ey. rewrite fn_lookup_insert_ne in Ex by done. destruct b; simpl in Ey; [|done]. injection Ey as <-. by destruct (Hnot x Hx Hxi).
      * rewrite fn_lookup_insert_ne in Ex by done. rewrite fn_lookup_insert_ne in Ey by done. by apply (I4 x y j).
    + intros m j Hm Em. simpl in *. destruct (decide (m = i)) as [->|]; [rewrite fn_lookup_insert in Em; destruct b; simpl in Em; congruence|].
      rewrite fn_lookup_insert_ne in Em by done. by apply (I5 m).
    + intros j Hj Hl. rewrite Hcache in Hl. case_decide as E; [by subst j|]. by apply I6.
    + intros j Hj. rewrite Hslots. auto.
  - intros j Hj. split; [simpl; by rewrite fn_lookup_insert_ne|]. intros m Hjn Hm. simpl in *. split; [|done].
    rewrite Hcache, decide_False; [done|]. intros ->. by destruct (Hnot j Hjn Hj).
Qed.

Lemma rg_lock_cache {A} i c h (k : unit -> prog slot_core A) Q :
  (i < n)%nat -> (c < C)%nat -> (forall l, (length l <= kCapacity)%nat -> rg R i (k tt) (inside i c 0 l h) Q) ->
  rg R i (bind (lock_cache c) k) (out i h) Q.
Proof.
  intros Hi Hc Hk. split.
  - intros s g _ Hp E. split; [unfold out in Hp; by rewrite Hp|]. exists c. split; [done|]. by destruct (locked (cache s c)).
  - intros s g s' x HI Hp Hin. destruct (locked (cache s c)) eqn:El; [by apply elem_of_nil in Hin|]. apply list_elem_of_singleton in Hin. injection Hin as -> ->.
    assert (Hb : back g c = 0%nat) by (destruct HI as (_ & _ & _ & _ & _ & I6 & _); auto).
    destruct (lock_step s g i c h true Hi Hc HI Hp El Hb) as [HI' HG].
    eexists _, (inside i c 0 (slots (cache s c)) h). split; [exact HI'|]. split; [exact HG|].
    split; [|split; [by apply stable_cached|apply Hk; by apply HI]].
    unfold inside. simpl. rewrite fn_lookup_insert. split; [done|]. split; [done|]. rewrite cache_on by (done || apply HI). by rewrite decide_True.
Qed.

Lemma rg_unlock_cache {A} i c l h (k : unit -> prog slot_core A) Q :
  (i < n)%nat -> (c < C)%nat -> rg R i (k tt) (out i h) Q -> rg R i (bind (unlock_cache c) k) (inside i c 0 l h) Q.
Proof.
  intros Hi Hc Hk. apply rg_store. intros s g HI (P1 & P2 & P3).
  destruct (lock_step s g i c h false Hi Hc HI P1) as [HI' HG]; [by rewrite P3|done|].
  eexists _, (out i h). split; [exact HI'|]. split; [exact HG|]. split; [unfold out; simpl; by rewrite fn_lookup_insert|]. split; [apply stable_out|done].
Qed.
(** ** Operations *)

Ltac cnt_lia := intros; simpl; rewrite ?drop_0, ?cnt_app, ?cnt_cons, ?cnt_nil; try lia.

Lemma free_pop_cases s s' x : (s', x) ∈ (match freeSlots s with [] => [(s, Empty)] | t :: l => [(set_free l (freePushing s) s, Ok t)] end) ++
    (if (freePushing s =? 0)%nat then [] else [(s, Busy)]) ->
  (exists t l, freeSlots s = t :: l /\ s' = set_free l (freePushing s) s /\ x = Ok t) \/ s' = s /\ (x = Empty \/ x = Busy).
Proof.
  intros Hin. apply elem_of_app in Hin as [Hin|Hin].
  - destruct (freeSlots s) as [|t l]; apply list_elem_of_singleton in Hin; injection Hin as -> ->; [right; auto|left; by exists t, l].
  - destruct (_ =? _)%nat; [by apply elem_of_nil in Hin|]. apply list_elem_of_singleton in Hin. injection Hin as -> ->. auto.
Qed.

Lemma free_pop_some (s : slot_core) : (match freeSlots s with [] => [(s, Empty)] | t :: l => [(set_free l (freePushing s) s, Ok t)] end) ++
    (if (freePushing s =? 0)%nat then [] else [(s, Busy)]) <> [].
Proof. intros E. apply app_nil in E as [E _]. by destruct (freeSlots s). Qed.

Lemma rg_popFreeSlot {A} fuel i h (k : option nat -> prog slot_core A) Q :
  (i < n)%nat -> (forall t, rg R i (k (Some t)) (out i (t :: h)) Q) -> rg R i (k None) (out i h) Q -> rg R i (bind (popFreeSlot fuel) k) (out i h) Q.
Proof.
  intros Hi Hk1 Hk2. induction fuel as [|fuel IH]; [done|]. cbn [popFreeSlot]. apply rg_bind_assoc, rg_out; [done|apply free_pop_some|].
  intros s g s' x _ _ Hin. apply free_pop_cases in Hin as [(t & l & E & -> & ->)|[-> [-> | ->]]]; [|exists h; by split|exists h; by split].
  exists (t :: h). split; [done|]. split; [intros u; simpl; rewrite E; cnt_lia|apply Hk1].
Qed.

Lemma rg_in_popFreeSlot {A} fuel i c b l h (k : option nat -> prog slot_core A) Q :
  (i < n)%nat -> (c < C)%nat -> (length l <= kCapacity)%nat -> (forall t, rg R i (k (Some t)) (inside i c b l (t :: h)) Q) -> rg R i (k None) (inside i c b l h) Q ->
  rg R i (bind (popFreeSlot fuel) k) (inside i c b l h) Q.
Proof.
  intros Hi Hc Hl Hk1 Hk2. induction fuel as [|fuel IH]; [done|]. cbn [popFreeSlot]. apply rg_bind_assoc, rg_in; [done|done|apply free_pop_some|].
  intros s g s' x _ (P1 & P2 & P3) Hin.
  assert (Hsame : forall j, cache s j = if decide (j = c) then MkSlotCache true l else cache s j) by (intros j; case_decide; [by subst|done]).
  apply free_pop_cases in Hin as [(t & q & E & -> & ->)|[-> [-> | ->]]]; [|exists b, l, h; by split|exists b, l, h; by split].
  exists b, l, (t :: h). split; [done|]. split; [done|]. split; [done|]. split; [intros u; simpl; rewrite E; cnt_lia|apply Hk1].
Qed.

Lemma rg_pushFreeSlot {A} i t h (k : unit -> prog slot_core A) Q :
  (i < n)%nat -> rg R i (k tt) (out i h) Q -> rg R i (bind (pushFreeSlot t) k) (out i (t :: h)) Q.
Proof.
  intros Hi Hk. apply rg_bind_assoc, (rg_out_store i _ (t :: h)); [done|done|]. apply (rg_out_store i _ h); [done| |done].
  intros s. split; [done|]. cnt_lia.
Qed.

Lemma rg_cache_push {A} i c t l h (k : unit -> prog slot_core A) Q :
  (i < n)%nat -> (c < C)%nat -> (length l < kCapacity)%nat -> rg R i (k tt) (inside i c 0 (l ++ [t]) h) Q ->
  rg R i (bind (cache_push c t) k) (inside i c 0 l (t :: h)) Q.
Proof.
  intros Hi Hc Hl Hk. apply rg_bind_assoc, (rg_in_load _ _ _ _ _ _ (length l)); [done|done|by intros s ->|].
  apply rg_bind_assoc, rg_check; [by apply Nat.ltb_lt|]. apply (rg_in_cache i c 0 0 l (l ++ [t]) (t :: h) h); [done..| | |done].
  - rewrite length_app. simpl. lia.
  - cnt_lia.
Qed.

Lemma rg_cache_pop {A} i c l h (k : option nat -> prog slot_core A) Q :
  (i < n)%nat -> (c < C)%nat -> (length l <= kCapacity)%nat ->
  (forall t l', (length l' <= kCapacity)%nat -> rg R i (k (Some t)) (inside i c 0 l' (t :: h)) Q) -> rg R i (k None) (inside i c 0 l h) Q ->
  rg R i (bind (cache_pop c) k) (inside i c 0 l h) Q.
Proof.
  intros Hi Hc Hl Hk1 Hk2. apply rg_in; [done|done|done|]. intros s g s' x (I1 & _) (P1 & P2 & P3) Hin. apply list_elem_of_singleton in Hin.
  rewrite P3 in Hin. simpl in Hin. destruct (l !! (length l - 1)%nat) as [t|] eqn:El; injection Hin as -> ->.
  - exists 0%nat, (take (length l - 1) l), (t :: h). split; [apply length_alter|].
    split; [intros j; rewrite cache_on by done; case_decide; [by rewrite P3|done]|].
    assert (Hsplit : l = take (length l - 1) l ++ [t]).
    { rewrite <- (take_drop (length l - 1) l) at 1. f_equal. rewrite (drop_S l t) by done. f_equal. apply drop_ge. lia. }
    split; [rewrite length_take; lia|]. split; [|apply Hk1; rewrite length_take; lia].
    intros u. assert (cnt u l = cnt u (take (length l - 1) l) + cnt u [t])%nat by (by rewrite <- cnt_app, <- Hsplit).
    rewrite !drop_0. simpl. rewrite !cnt_cons, cnt_nil in *. lia.
  - exists 0%nat, l, h. split; [done|]. split; [intros j; case_decide; [by subst|done]|]. by split.
Qed.

Lemma rg_refill {A} fuel m i c l h (k : unit -> prog slot_core A) Q :
  (i < n)%nat -> (c < C)%nat -> (length l + m <= kCapacity)%nat ->
  (forall l', (length l' <= kCapacity)%nat -> rg R i (k tt) (inside i c 0 l' h) Q) -> rg R i (bind (refill fuel m c) k) (inside i c 0 l h) Q.
Proof.
  intros Hi Hc Hl Hk. revert l Hl. induction m as [|m IH]; intros l Hl; [apply Hk; lia|]. cbn [refill].
  apply rg_bind_assoc, rg_in_popFreeSlot; [done|done|lia| |apply Hk; lia].
  intros t. apply rg_bind_assoc, rg_cache_push; [done|done|lia|]. apply IH. rewrite length_app. simpl. lia.
Qed.

Lemma rg_take_own {A} fuel i c l h (k : option nat -> prog slot_core A) Q :
  (i < n)%nat -> (c < C)%nat -> (length l <= kCapacity)%nat ->
  (forall t l', (length l' <= kCapacity)%nat -> rg R i (k (Some t)) (inside i c 0 l' (t :: h)) Q) ->
  (forall l', rg R i (k None) (inside i c 0 l' h) Q) ->
  rg R i (bind (take_own fuel c) k) (inside i c 0 l h) Q.
Proof.
  intros Hi Hc Hl Hk1 Hk2. apply rg_bind_assoc, (rg_in_load _ _ _ _ _ _ (length l)); [done|done|by intros s ->|]. apply rg_bind_assoc.
  destruct (length l =? 0)%nat eqn:E; [|by apply rg_cache_pop]. apply Nat.eqb_eq in E.
  apply rg_refill; [done|done|rewrite E; unfold kBatch, kCapacity; lia|]. intros l' Hl'. by apply rg_cache_pop.
Qed.

Lemma rg_guard_pop {A} i c h (body : sprog (option nat)) (k : option nat -> prog slot_core A) Q :
  (i < n)%nat -> (c < C)%nat ->
  (forall B l (kk : option nat -> prog slot_core B) QQ, (length l <= kCapacity)%nat ->
     (forall t l', (length l' <= kCapacity)%nat -> rg R i (kk (Some t)) (inside i c 0 l' (t :: h)) QQ) -> (forall l', rg R i (kk None) (inside i c 0 l' h) QQ) ->
     rg R i (bind body kk) (inside i c 0 l h) QQ) ->
  (forall t, rg R i (k (Some t)) (out i (t :: h)) Q) -> rg R i (k None) (out i h) Q ->
  rg R i (bind (SlotCacheGuard c body) k) (out i h) Q.
Proof.
  intros Hi Hc Hbody Hk1 Hk2. apply rg_bind_assoc, rg_lock_cache; [done|done|]. intros l Hl. apply rg_bind_assoc, Hbody; [done| |].
  - intros t l' Hl'. apply rg_bind_assoc, rg_unlock_cache; [done|done|]. apply Hk1.
  - intros l'. apply rg_bind_assoc, rg_unlock_cache; [done|done|]. exact Hk2.
Qed.

Lemma rg_take_other {A} i me cs h (k : option nat -> prog slot_core A) Q :
  (i < n)%nat -> Forall (fun c => (c < C)%nat) cs -> (forall t, rg R i (k (Some t)) (out i (t :: h)) Q) -> rg R i (k None) (out i h) Q ->
  rg R i (bind (take_other me cs) k) (out i h) Q.
Proof.
  intros Hi Hcs Hk1 Hk2. induction Hcs as [|c cs Hc Hcs IH]; [exact Hk2|]. cbn [take_other]. case_bool_decide; [exact IH|].
  apply rg_bind_assoc, rg_guard_pop; [done|done| |exact Hk1|exact IH]. intros B l kk QQ Hl H1 H2. by apply rg_cache_pop.
Qed.

Lemma all_below : Forall (fun c => (c < C)%nat) (seq 0 C).
Proof. apply list.Forall_forall. intros c Hc%elem_of_seq. lia. Qed.

(** [me] is a worker of this scheduler, or none. *)
Definition member (me : option nat) : Prop := match me with Some c => (c < C)%nat | None => True end.

Lemma rg_tryAcquireSlot {A} fuel i me h (k : option nat -> prog slot_core A) Q :
  (i < n)%nat -> member me -> (forall t, rg R i (k (Some t)) (out i (t :: h)) Q) -> rg R i (k None) (out i h) Q ->
  rg R i (bind (tryAcquireSlot C fuel me) k) (out i h) Q.
Proof.
  intros Hi Hme Hk1 Hk2.
  assert (Hrest : rg R i (bind (o2 <- take_other me (seq 0 C);; match o2 with Some slot => Ret (Some slot) | None => popFreeSlot fuel end) k) (out i h) Q).
  { apply rg_bind_assoc, rg_take_other; [done|apply all_below|exact Hk1|]. by apply rg_popFreeSlot. }
  apply rg_bind_assoc. destruct me as [c|]; [|by apply rg_popFreeSlot].
  apply rg_guard_pop; [done|done| |exact Hk1|exact Hrest]. intros B l kk QQ Hl H1 H2. by apply rg_take_own.
Qed.

Lemma rg_sum_of {A} i h (get : nat -> sprog nat) l acc (k : nat -> prog slot_core A) Q :
  (forall B j (kk : nat -> prog slot_core B) QQ, (forall v, rg R i (kk v) (out i h) QQ) -> rg R i (bind (get j) kk) (out i h) QQ) ->
  (forall v, rg R i (k v) (out i h) Q) -> rg R i (bind (sum_of get l acc) k) (out i h) Q.
Proof.
  intros Hget Hk. revert acc. induction l as [|j l IH]; intros acc; [apply Hk|]. cbn [sum_of]. apply rg_bind_assoc, Hget. intros v. apply IH.
Qed.

Lemma rg_liveTasks {A} i h (k : Z -> prog slot_core A) Q :
  (i < n)%nat -> (forall v, rg R i (k v) (out i h) Q) -> rg R i (bind (liveTasks C) k) (out i h) Q.
Proof.
  intros Hi Hk. apply rg_bind_assoc, rg_sum_of; [intros; by apply rg_out_load|]. intros f.
  apply rg_bind_assoc, rg_sum_of; [intros; by apply rg_out_load|]. intros c. apply Hk.
Qed.

Lemma rg_acquireSlot {A} fuel i me h (k : option nat -> prog slot_core A) Q :
  (i < n)%nat -> member me -> (forall t, rg R i (k (Some t)) (out i (t :: h)) Q) -> rg R i (k None) (out i h) Q ->
  rg R i (bind (acquireSlot C maxTasks fuel me) k) (out i h) Q.
Proof.
  intros Hi Hme Hk1 Hk2. induction fuel as [|fuel IH]; [done|]. cbn [acquireSlot]. apply rg_bind_assoc, rg_tryAcquireSlot; [done|done|exact Hk1|].
  apply rg_bind_assoc, rg_liveTasks; [done|]. intros v. destruct (_ <=? _); [exact Hk2|exact IH].
Qed.
Lemma rg_hand_back {A} i c b m l h (k : unit -> prog slot_core A) Q :
  (i < n)%nat -> (c < C)%nat -> (b + m <= length l)%nat -> rg R i (k tt) (inside i c (b + m) l h) Q ->
  rg R i (bind (hand_back c b m) k) (inside i c b l h) Q.
Proof.
  intros Hi Hc. revert b. induction m as [|m IH]; intros b Hb Hk; [by rewrite Nat.add_0_r in Hk|]. cbn [hand_back].
  destruct (lookup_lt_is_Some_2 l b) as [t Ht]; [lia|].
  apply rg_bind_assoc, (rg_in_load _ _ _ _ _ _ t); [done|done|intros s ->; simpl; by rewrite Ht|].
  apply rg_bind_assoc, rg_bind_assoc, (rg_in_store i c b b l h h); [done|done|done|].
  apply (rg_in_store i c b (S b) l h h); [done|done| |apply IH; [lia|by rewrite Nat.add_succ_comm]].
  intros s. split; [done|]. intros u. rewrite (drop_S l t b Ht). cnt_lia.
Qed.

Lemma rg_slot_release {A} i me t h (k : unit -> prog slot_core A) Q :
  (i < n)%nat -> member me -> rg R i (k tt) (out i h) Q -> rg R i (bind (releaseSlot me t) k) (out i (t :: h)) Q.
Proof.
  intros Hi Hme Hk. destruct me as [c|]; [|by apply rg_pushFreeSlot]. simpl in Hme.
  apply rg_bind_assoc, rg_lock_cache; [done|done|]. intros l Hl.
  assert (Hpush : forall l', (length l' < kCapacity)%nat -> rg R i (bind (cache_push c t) (fun r => bind (unlock_cache c;;; Ret r) k)) (inside i c 0 l' (t :: h)) Q).
  { intros l' Hl'. apply rg_cache_push; [done|done|done|]. apply rg_bind_assoc, rg_unlock_cache; done. }
  apply rg_bind_assoc, rg_bind_assoc, (rg_in_load _ _ _ _ _ _ (length l)); [done|done|by intros s ->|]. apply rg_bind_assoc.
  destruct (length l =? kCapacity)%nat eqn:E; [|apply Nat.eqb_neq in E; apply Hpush; lia]. apply Nat.eqb_eq in E.
  apply rg_bind_assoc, rg_hand_back; [done|done|unfold kBatch, kCapacity in *; lia|].
  apply (rg_in_cache i c (0 + kBatch) 0 l (drop kBatch l) (t :: h) (t :: h)); [done..| | |apply Hpush].
  - rewrite length_drop. lia.
  - intros u. by rewrite drop_0.
  - rewrite length_drop. unfold kBatch, kCapacity in *. lia.
Qed.

Lemma rg_slot_count {A} i me h (f : nat -> nat -> slot_core -> slot_core) (f' : slot_core -> slot_core) get (k : unit -> prog slot_core A) Q :
  (i < n)%nat -> (forall a b s, caches (f a b s) = caches s /\ alive (f a b s) = alive s /\ freeSlots (f a b s) = freeSlots s) ->
  (forall s, caches (f' s) = caches s /\ alive (f' s) = alive s /\ freeSlots (f' s) = freeSlots s) ->
  rg R i (k tt) (out i h) Q ->
  rg R i (bind (match me with Some j => m <- load (get (who me));; store (f (who me) m) | None => store f' end) k) (out i h) Q.
Proof.
  intros Hi Hf Hf' Hk. destruct me as [j|].
  - apply rg_bind_assoc, rg_out_load; [done|]. intros m. apply (rg_out_store i h h); [done| |done].
    intros s. destruct (Hf (who (Some j)) m s) as (-> & -> & ->). by split.
  - apply (rg_out_store i h h); [done| |done]. intros s. destruct (Hf' s) as (-> & -> & ->). by split.
Qed.

Lemma rg_spawn {A} fuel i me fails (k : unit -> prog slot_core A) Q :
  (i < n)%nat -> member me -> rg R i (k tt) (out i []) Q -> rg R i (bind (spawn C maxTasks fuel me fails) k) (out i []) Q.
Proof.
  intros Hi Hme Hk. apply rg_bind_assoc, rg_acquireSlot; [done|done| |by apply (rg_out_store i [] [])].
  intros t. destruct fails; [by apply rg_slot_release|].
  apply rg_bind_assoc, (rg_out_store i _ []); [done|intros s; split; [done|cnt_lia]|].
  by apply (rg_slot_count i me [] (fun a b s => set_created (<[a := S b]> (tasksCreated s)) s) _ (fun a s => default 0%nat (tasksCreated s !! a))).
Qed.

Lemma rg_task_finish {A} i me (k : unit -> prog slot_core A) Q :
  (i < n)%nat -> member me -> rg R i (k tt) (out i []) Q -> rg R i (bind (finish me) k) (out i []) Q.
Proof.
  intros Hi Hme Hk. apply rg_bind_assoc, rg_out; [done|intros s; by destruct (alive s)|]. intros s g s' x _ _ Hin.
  destruct (alive s) as [|t0 l0] eqn:E; [apply list_elem_of_singleton in Hin; injection Hin as -> ->; exists []; split; [done|]; split; [by rewrite E|exact Hk]|]. rewrite <- E in Hin.
  apply elem_of_lookup_imap in Hin as (m & t & [= -> ->] & Hm). exists [t]. split; [done|]. split.
  - intros u. simpl. pose proof (cnt_delete u (alive s) m t Hm). rewrite E in *. cnt_lia. rewrite cnt_cons in *. rewrite cnt_cons, cnt_nil in *. lia.
  - apply rg_bind_assoc.
    apply (rg_slot_count i me [t] (fun a b s => set_finished (<[a := S b]> (tasksFinished s)) s) _ (fun a s => default 0%nat (tasksFinished s !! a))); [done..|].
    by apply rg_slot_release.
Qed.

Lemma rg_slot_thread fuel i me l : (i < n)%nat -> member me -> rg R i (slot_thread C maxTasks fuel me l) (out i []) (fun _ => out i []).
Proof.
  intros Hi Hme. induction l as [|o l IH]; [by intros s g _ H|]. cbn [slot_thread].
  destruct o; [by apply rg_spawn|by apply rg_spawn|by apply rg_task_finish].
Qed.
End proof.

Section pool.
Context (W maxTasks : nat) (ws os : list (list slot_op)) (Hws : (length ws <= W)%nat).
Let n := (length ws + length os)%nat.

Lemma slots_ok fuel : pool_ok (sproto W maxTasks n) (fun i _ => out i []) (slot_pool W maxTasks fuel ws os).
Proof.
  assert (Hcache : forall c, cache (new_slot_core W maxTasks) c = MkSlotCache false []).
  { intros c. unfold cache, new_slot_core. cbn [caches]. destruct (replicate W (MkSlotCache false []) !! c) as [x|] eqn:E; [|done].
    by apply lookup_replicate_1 in E as [-> _]. }
  exists (SGhost (fun _ => SPl None []) (fun _ => 0%nat)). split.
  - split; [apply length_replicate|]. split; [|split; [|split; [|split; [|split]]]]; try done.
    + intros t. simpl. rewrite total_zero by done. rewrite lsum_zero by (intros c _; unfold left_in; simpl; by rewrite Hcache).
      rewrite !Nat.add_0_r. apply cnt_seq.
    + intros c Hc. simpl. rewrite Hcache. split; [done|]. by intros (j & _ & E).
    + intros c Hc. simpl. rewrite Hcache. simpl. lia.
  - intros i p Hi. exists (out i []). split; [apply stable_out|]. split; [done|].
    unfold slot_pool in Hi. cbn in Hi. apply lookup_app_Some in Hi as [Hi|[Hge Hi]].
    + rewrite list_lookup_imap in Hi. apply fmap_Some in Hi as (l & E & ->). apply lookup_lt_Some in E. apply rg_slot_thread; [lia|simpl; lia].
    + rewrite length_imap in *. rewrite list_lookup_fmap in Hi. apply fmap_Some in Hi as (l & E & ->). apply lookup_lt_Some in E.
      apply rg_slot_thread; [lia|done].
Qed.

(** Everybody is out: every slot is in a list. *)
Lemma slots_resting s g :
  sinv W maxTasks n s g -> (forall i, (i < n)%nat -> pl g i = SPl None []) -> alive s ++ freeSlots s ++ mjoin (slots <$> caches s) ≡ₚ seq 0 maxTasks.
Proof.
  intros (I1 & I2 & I3 & _ & _ & I6 & _) Hout. apply Permutation_cnt. intros t. specialize (I2 t).
  rewrite total_zero in I2 by (intros j Hj; by rewrite Hout). rewrite !cnt_app, cnt_mjoin, <- (lsum_lookup (fun x => cnt t (slots x)) (fun _ => MkSlotCache false [])), I1.
  rewrite (lsum_ext (fun c => cnt t (left_in s g c)) (fun j => cnt t (slots (cache s j)))) in I2.
  - unfold cache in I2. rewrite cnt_seq. lia.
  - intros c Hc%elem_of_seq. unfold left_in. rewrite I6; [by rewrite drop_0|lia|]. destruct (locked (cache s c)) eqn:El; [|done].
    apply I3 in El as (j & Hj & E); [|lia]. by rewrite Hout in E.
Qed.
End pool.

(** Slots: in every interleaving of spawning and finishing, on workers and on
    other threads: the tasks that exist have distinct slots, all below
    maxTasks, none of them in the global list or, unless it is handing slots
    back, in a cache; and no cache array is written out of bounds. *)
Theorem slots_exactly_once (W maxTasks fuel : nat) (ws os : list (list slot_op)) (ts : list (prog slot_core unit)) (s : slot_core) :
  (length ws <= W)%nat -> reach (slot_pool W maxTasks fuel ws os) (ts, s) ->
  NoDup (alive s) /\ (forall t, t ∈ alive s -> (t < maxTasks)%nat /\ t ∉ freeSlots s) /\
  (forall t c, t ∈ alive s -> (c < W)%nat -> locked (cache s c) = false -> t ∉ slots (cache s c)) /\
  (forall i m, ts !! i <> Some (Fatal m)).
Proof.
  intros Hws Hr. pose proof (pool_ok_reach _ _ _ _ Hr (slots_ok W maxTasks ws os Hws fuel)) as Hok.
  destruct (pool_ok_waits _ _ ts s Hok) as (g & (I1 & I2 & I3 & _ & _ & I6 & _) & _). splits.
  - apply NoDup_cnt. intros t. specialize (I2 t). destruct (t <? maxTasks)%nat; lia.
  - intros t Ht. apply cnt_elem in Ht. specialize (I2 t). destruct (t <? maxTasks)%nat eqn:E; [|lia]. apply Nat.ltb_lt in E.
    split; [done|]. apply cnt_zero. lia.
  - intros t c Ht Hc Hl. apply cnt_elem in Ht. specialize (I2 t).
    pose proof (lsum_elem (fun c => cnt t (left_in s g c)) (seq 0 W) c ltac:(apply elem_of_seq; lia)) as Hle. simpl in Hle.
    unfold left_in in Hle at 1. rewrite (I6 c Hc Hl), drop_0 in Hle. apply cnt_zero. destruct (t <? maxTasks)%nat; lia.
  - intros i m. by apply (pool_ok_not_fatal _ _ _ s i m Hok).
Qed.

(** Slots: the cache locks cannot deadlock, and no slot is lost: when no thread
    can move, every thread has returned, and the slots of the tasks that exist,
    the global list and the caches together are exactly the maxTasks slots. *)
Theorem slots_all_back (W maxTasks fuel : nat) (ws os : list (list slot_op)) (ts : list (prog slot_core unit)) (s : slot_core) :
  (length ws <= W)%nat -> reach (slot_pool W maxTasks fuel ws os) (ts, s) -> (forall i th, ts !! i = Some th -> halted s th) ->
  (forall i th, ts !! i = Some th -> th = Ret tt) /\ alive s ++ freeSlots s ++ mjoin (slots <$> caches s) ≡ₚ seq 0 maxTasks.
Proof.
  intros Hws Hr Hh. pose proof (pool_ok_reach _ _ _ _ Hr (slots_ok W maxTasks ws os Hws fuel)) as Hok.
  assert (Hlen : length ts = (length ws + length os)%nat).
  { apply reach_length in Hr. simpl in Hr. rewrite <- Hr, length_app, length_imap, length_fmap. done. }
  destruct (pool_ok_waits _ _ ts s Hok) as (g & HI & Hw & Hret).
  assert (Hnone : forall j, (j < length ws + length os)%nat -> holds (pl g j) = None).
  { intros j Hj. destruct (lookup_lt_is_Some_2 ts j) as [th Hth]; [lia|]. destruct (Hh j th Hth) as [->|(X & f & k & -> & Hf)].
    - by rewrite (Hret j tt Hth).
    - by destruct (Hw j X f k Hth Hf). }
  assert (Hdone : forall i th, ts !! i = Some th -> th = Ret tt).
  { intros i th Hth. destruct (Hh i th Hth) as [->|(X & f & k & -> & Hf)]; [done|]. destruct (Hw i X f k Hth Hf) as (_ & c & Hc & Hl).
    destruct HI as (_ & _ & I3 & _). apply I3 in Hl as (j & Hj & E); [|done]. by rewrite Hnone in E. }
  split; [done|]. apply (slots_resting W maxTasks ws os Hws s g HI). intros i Hi. destruct (lookup_lt_is_Some_2 ts i) as [th Hth]; [lia|].
  pose proof (Hdone i th Hth) as ->. apply (Hret i tt Hth).
Qed.

(** ** Runs *)

Definition busy_ws : list (list slot_op) := [[SSpawn; SSpawn; SFinish]; [SSpawn; SFinish]].
Definition busy_os : list (list slot_op) := [[SSpawn; SSpawnFails; SFinish]].
Definition busy_final := run_avail (round_robin 3 300) (slot_pool 2 4 20 busy_ws busy_os).

Lemma slots_exactly_once_witness : alive busy_final.2 = [1]%nat /\ NoDup (alive busy_final.2).
Proof.
  split; [vm_compute; reflexivity|].
  destruct (slots_exactly_once 2 4 20 busy_ws busy_os busy_final.1 busy_final.2) as (H & _); [simpl; lia| |exact H].
  apply (run_avail_reach (round_robin 3 300)). unfold busy_final. apply surjective_pairing.
Defined.

Lemma slots_all_back_witness : alive busy_final.2 ++ freeSlots busy_final.2 ++ mjoin (slots <$> caches busy_final.2) ≡ₚ seq 0 4.
Proof.
  destruct (slots_all_back 2 4 20 busy_ws busy_os busy_final.1 busy_final.2) as (_ & H); [simpl; lia| | |exact H].
  - apply (run_avail_reach (round_robin 3 300)). unfold busy_final. apply surjective_pairing.
  - apply haltedb_all. vm_compute. reflexivity.
Defined.

(** A task that has been counted as finished still has its slot; while another
    thread adds up the counts, a task ends and another begins. *)
Definition refuse_os : list (list slot_op) := [[SSpawn; SFinish]; [SSpawn; SFinish]; [SSpawn]; [SSpawn]].
Definition refuse_schedule : list (nat * nat) :=
  replicate 5 (0, 0)%nat ++ replicate 3 (1, 0)%nat ++ replicate 3 (2, 0)%nat ++ replicate 4 (1, 0)%nat ++ replicate 3 (3, 0)%nat ++
  replicate 2 (2, 0)%nat ++ replicate 2 (0, 0)%nat.
Definition refuse_final := run_avail refuse_schedule (slot_pool 0 2 9 [] refuse_os).

(** Slots: [acquireSlot] can give up although maxTasks tasks never existed at
    once: with room for two, at most one ever lives and one call is refused. *)
Theorem slots_refused_early :
  exists ts s, reach (slot_pool 0 2 9 [] refuse_os) (ts, s) /\ (forall i th, ts !! i = Some th -> th = Ret tt) /\ refused s = 1%nat /\ peak s = 1%nat.
Proof.
  exists refuse_final.1, refuse_final.2. split; [|split].
  - apply (run_avail_reach refuse_schedule). unfold refuse_final. apply surjective_pairing.
  - apply returnedb_all. vm_compute. reflexivity.
  - vm_compute. by split.
Qed.
