(* ===== verification/Mpsc.v ===== *)
(** * Mpsc: the intrusive inbox queue

    [MpscQueue] (sched/detail/MpscQueue.h): nodes carry their own link; a push
    exchanges [head] and then links the node behind its predecessor; the one
    consumer follows the links from [tail].  [stub] is node 0.

    [idle] lists the nodes that are in nobody's hands, [pushed] and [popped] are
    the nodes in the order in which they were put in (at the exchange) and
    taken out. *)

From Stdlib Require Import ZArith Lia.
From stdpp Require Import base tactics list numbers option strings functions.
From S2P Require Import Prelude Conc Sums.

Record MpscQueue := MkMpscQueue {
  mpscNext : nat -> option nat;
  head : nat;
  tail : nat;
  idle : list nat;
  pushed : list nat;
  popped : list nat
}.

Definition stub : nat := 0.

Definition set_next a v q := MkMpscQueue (<[a := v]> (mpscNext q)) (head q) (tail q) (idle q) (pushed q) (popped q).
Definition set_head v q := MkMpscQueue (mpscNext q) v (tail q) (idle q) (if decide (v = stub) then pushed q else pushed q ++ [v]) (popped q).
Definition set_tail v q := MkMpscQueue (mpscNext q) (head q) v (idle q) (pushed q) (popped q).
Definition take_out v front q := MkMpscQueue (mpscNext q) (head q) v (idle q) (pushed q) (popped q ++ [front]).
Definition set_idle v q := MkMpscQueue (mpscNext q) (head q) (tail q) v (pushed q) (popped q).

Abbreviation mprog := (prog MpscQueue).

Definition new_queue (nodes : list nat) : MpscQueue := MkMpscQueue (fun _ => None) stub stub nodes [] [].

Definition push (node : nat) : mprog unit :=
  store (set_next node None);;;
  previous <- rmw (fun q => (set_head node q, head q));;
  store (set_next previous (Some node)).

Definition load_next (a : nat) : mprog (option nat) := load (fun q => mpscNext q a).

(** The rest of [pop], from the first node that is not the stub. *)
Definition pop_front (front : nat) (next : option nat) : mprog (option nat) :=
  match next with
  | Some nx => store (take_out nx front);;; Ret (Some front)
  | None =>
      h <- load head;;
      if bool_decide (front = h) then
        push stub;;;
        next2 <- load_next front;;
        match next2 with
        | Some nx => store (take_out nx front);;; Ret (Some front)
        | None => Ret None
        end
      else Ret None
  end.

Definition pop : mprog (option nat) :=
  front <- load tail;;
  next <- load_next front;;
  if bool_decide (front = stub) then
    match next with
    | None => Ret None
    | Some nx =>
        store (set_tail nx);;;
        next2 <- load_next nx;;
        pop_front nx next2
    end
  else pop_front front next.

Definition isEmpty : mprog bool :=
  t <- load tail;;
  if bool_decide (t = stub) then n <- load_next stub;; Ret (bool_decide (n = None)) else Ret false.

(** ** The consumer and the producers *)

(** A node that was taken out may be pushed again. *)
Definition take_one : mprog (option nat) :=
  o <- pop;;
  (match o with Some t => store (fun q => set_idle (t :: idle q) q) | None => Ret tt end);;;
  Ret o.

Fixpoint consumer (m : nat) : mprog unit :=
  match m with
  | O => Ret tt
  | S m' => take_one;;; isEmpty;;; consumer m'
  end.

(** Until the queue is empty. *)
Fixpoint drain (m : nat) : mprog (list nat) :=
  match m with
  | O => Starved
  | S m' => o <- take_one;; match o with Some t => l <- drain m';; Ret (t :: l) | None => Ret [] end
  end.

Fixpoint producer (m : nat) : mprog unit :=
  match m with
  | O => Ret tt
  | S m' =>
      o <- Act (option nat) (fun q =>
        match idle q with [] => [(q, None)] | l => imap (fun k t => (set_idle (delete k l) q, Some t)) l end) Ret;;
      (match o with Some t => push t | None => Ret tt end);;;
      producer m'
  end.

Definition mpsc_pool (nodes : list nat) (m : nat) (ps : list nat) : config MpscQueue unit :=
  (consumer m :: (producer <$> ps), new_queue nodes).
