(* ===== verification/MpscSpec.v ===== *)
(** * Mpsc: first in, first out, whatever the producers do

    The ghost [chain] lists the nodes from [tail] to [head] in the order of the
    exchanges: each is linked to the next, or some thread is about to link it. *)

From Stdlib Require Import ZArith Lia.
From stdpp Require Import base tactics list numbers option strings functions.
From S2P Require Import Prelude Conc Sums Mpsc.

(** The link a thread is about to make, and the nodes in its hands. *)
Record mpl := MPl { link : option (nat * nat); hand : list nat }.
Record mghost := MGhost { chain : list nat; pl : nat -> mpl }.

Definition real (l : list nat) : list nat := filter (fun x => x <> stub) l.

Section proof.
Context (all : list nat) (Hall : NoDup all) (n : nat) (Hn : (0 < n)%nat).

Record minv (q : MpscQueue) (g : mghost) : Prop := {
  mi_tail : chain g !! 0%nat = Some (tail q);
  mi_head : chain g !! (length (chain g) - 1)%nat = Some (head q);
  mi_end : mpscNext q (head q) = None;
  mi_all : forall t, (cnt t (idle q) + total n (fun l => cnt t (hand l)) (pl g) + cnt t (chain g) = cnt t all)%nat;
  mi_stub : (cnt stub (chain g) + cnt stub (hand (pl g 0%nat)) = 1)%nat;
  mi_next : forall k a b, chain g !! k = Some a -> chain g !! S k = Some b ->
    mpscNext q a = Some b \/ mpscNext q a = None /\ exists j, (j < n)%nat /\ link (pl g j) = Some (a, b);
  mi_link : forall j a b, (j < n)%nat -> link (pl g j) = Some (a, b) ->
    mpscNext q a = None /\ exists k, chain g !! k = Some a /\ chain g !! S k = Some b;
  mi_one : forall i j a b c, (i < n)%nat -> (j < n)%nat -> link (pl g i) = Some (a, b) -> link (pl g j) = Some (a, c) -> i = j;
  mi_log : pushed q = popped q ++ real (chain g)
}.

Definition mguar (j : nat) (x y : MpscQueue * mghost) : Prop :=
  (forall i, i <> j -> pl y.2 i = pl x.2 i /\ ((i < n)%nat -> forall t, t ∈ hand (pl x.2 i) -> mpscNext y.1 t = mpscNext x.1 t)) /\
  (j <> 0%nat -> tail y.1 = tail x.1 /\ forall v, mpscNext x.1 (tail x.1) = Some v -> mpscNext y.1 (tail x.1) = Some v).

Definition mproto : protocol MpscQueue mghost := Protocol minv mguar.
Notation R := mproto.

Lemma mguar_refl i x : guar R i x x.
Proof. done. Qed.

(** What a thread has in hand; the consumer may know the node at the tail. *)
Definition at_ (i : nat) (l : mpl) (T : option nat) : asrt MpscQueue mghost :=
  fun q g => pl g i = l /\ forall f, T = Some f -> i = 0%nat /\ tail q = f.
(** A node in hand whose link is cleared. *)
Definition cleared (i : nat) (t : nat) (h : list nat) (T : option nat) : asrt MpscQueue mghost :=
  fun q g => at_ i (MPl None (t :: h)) T q g /\ mpscNext q t = None.
(** The consumer is at node [f]; it may know what comes next. *)
Definition front_at (f : nat) (o : option nat) (h : list nat) : asrt MpscQueue mghost :=
  fun q g => at_ 0 (MPl None h) (Some f) q g /\ (forall v, o = Some v -> mpscNext q f = Some v).

Lemma stable_mat i l T : stable R i (at_ i l T).
Proof.
  intros j q g q' g' Hj _ _ [HG HT] [H1 H2]. destruct (HG i) as [E _]; [done|]. simpl in *. split; [congruence|].
  intros f Ef. destruct (H2 f Ef) as [-> H]. destruct (HT Hj) as [E2 _]. simpl in *. split; congruence.
Qed.
Lemma stable_cleared i t h T : (i < n)%nat -> stable R i (cleared i t h T).
Proof.
  intros Hi j q g q' g' Hj HI HI' HG [H1 H2]. split; [exact (stable_mat i _ T j q g q' g' Hj HI HI' HG H1)|]. destruct HG as [HG _].
  destruct (HG i) as [E1 E2]; [done|]. simpl in *. rewrite E2; [done|done|]. destruct H1 as [-> _]. left.
Qed.
Lemma stable_front f o h : stable R 0 (front_at f o h).
Proof.
  intros j q g q' g' Hj HI HI' HG [H1 H2]. split; [exact (stable_mat 0 _ _ j q g q' g' Hj HI HI' HG H1)|]. destruct HG as [_ HG].
  destruct (HG Hj) as [_ E3]. simpl in *. intros v Ev. destruct H1 as [_ H1]. destruct (H1 f eq_refl) as [_ H3]. rewrite H3 in E3. auto.
Qed.

(** ** Facts *)

Lemma mi_once q g t : minv q g -> (cnt t (idle q) + total n (fun l => cnt t (hand l)) (pl g) + cnt t (chain g) <= 1)%nat.
Proof. intros HI. rewrite (mi_all q g HI t). by apply NoDup_cnt. Qed.

Lemma hand_cnt g i t h : (i < n)%nat -> pl g i = MPl None h -> (cnt t h <= total n (fun l => cnt t (hand l)) (pl g))%nat.
Proof. intros Hi Hp. pose proof (total_elem n (fun l => cnt t (hand l)) (pl g) i Hi) as H. by rewrite Hp in H. Qed.

Lemma in_hand q g i t h : minv q g -> (i < n)%nat -> pl g i = MPl None h -> t ∈ h -> t ∉ chain g.
Proof.
  intros HI Hi Hp Ht. apply cnt_zero. apply cnt_elem in Ht. pose proof (mi_once q g t HI). pose proof (hand_cnt g i t h Hi Hp). lia.
Qed.

Lemma other_hand q g i j t h : minv q g -> (i < n)%nat -> (j < n)%nat -> i <> j -> pl g i = MPl None h -> t ∈ h -> t ∉ hand (pl g j).
Proof.
  intros HI Hi Hj Hne Hp Ht. apply cnt_zero. apply cnt_elem in Ht. pose proof (mi_once q g t HI) as H1.
  pose proof (total_upd n (fun l => cnt t (hand l)) (pl g) i _ (MPl None []) Hi Hp) as H2. simpl in H2.
  pose proof (total_elem n (fun l => cnt t (hand l)) (<[i := MPl None []]> (pl g)) j Hj) as H3. rewrite fn_lookup_insert_ne in H3 by done.
  rewrite cnt_nil in H2. lia.
Qed.

Lemma chain_nodup q g : minv q g -> NoDup (chain g).
Proof. intros HI. apply NoDup_cnt. intros t. pose proof (mi_once q g t HI). lia. Qed.

Lemma chain_last q g : minv q g -> exists l, chain g = l ++ [head q].
Proof.
  intros HI. pose proof (mi_head q g HI) as H. destruct (chain g) as [|x l _] using rev_ind; [done|]. rewrite length_app in H. simpl in H.
  exists l. f_equal. f_equal. rewrite lookup_app_r in H by lia. replace (length l + 1 - 1 - length l)%nat with 0%nat in H by lia. simpl in H. congruence.
Qed.
(** ** Steps *)

(** The node in hand is cleared. *)
Lemma clear_step q g i t h :
  (i < n)%nat -> minv q g -> pl g i = MPl None (t :: h) -> minv (set_next t None q) g /\ guar R i (q, g) (set_next t None q, g).
Proof.
  intros Hi HI Hp. assert (Ht : t ∉ chain g) by (eapply (in_hand q g i); [done|done|exact Hp|left]).
  assert (Hnx : forall a, a ∈ chain g -> mpscNext (set_next t None q) a = mpscNext q a).
  { intros a Ha. simpl. rewrite fn_lookup_insert_ne; [done|]. intros ->. done. }
  pose proof HI as [M1 M2 M3 M4 M5 M6 M7 M8 M9]. split; [split; try done|].
  - rewrite Hnx; [done|]. by eapply list_elem_of_lookup_2.
  - intros k a b Ha Hb. rewrite Hnx by (by eapply list_elem_of_lookup_2). by apply (M6 k).
  - intros j a b Hj E. destruct (M7 j a b Hj E) as [H1 (k & H2 & H3)]. rewrite Hnx by (by eapply list_elem_of_lookup_2). split; [done|by exists k].
  - split.
    + intros j Hj. split; [done|]. intros Hjn u Hu. simpl. rewrite fn_lookup_insert_ne; [done|]. intros ->.
      eapply (other_hand q g i j u (u :: h)); [done|done|done|done|exact Hp|left|done].
    + intros _. split; [done|]. intros v Ev. simpl in *. rewrite fn_lookup_insert_ne; [done|]. intros ->. apply Ht. by eapply list_elem_of_lookup_2.
Qed.

(** The exchange. *)
Lemma exchange_step q g i t h :
  (i < n)%nat -> minv q g -> cleared i t h None q g -> (t = stub -> i = 0%nat) ->
  let g' := MGhost (chain g ++ [t]) (<[i := MPl (Some (head q, t)) h]> (pl g)) in
  minv (set_head t q) g' /\ guar R i (q, g) (set_head t q, g').
Proof.
  intros Hi HI [[Hp _] Hnx] Hs0 g'. assert (Ht : t ∉ chain g) by (eapply (in_hand q g i); [done|done|exact Hp|left]).
  destruct (chain_last q g HI) as [l El]. pose proof HI as [M1 M2 M3 M4 M5 M6 M7 M8 M9].
  assert (Hlen : (0 < length (chain g))%nat) by (rewrite El, length_app; simpl; lia).
  assert (Hlk : forall j, link (pl g' j) = if decide (j = i) then Some (head q, t) else link (pl g j)).
  { intros j. simpl. case_decide as E; [subst; by rewrite fn_lookup_insert|by rewrite fn_lookup_insert_ne]. }
  assert (Hold : forall j a b, (j < n)%nat -> link (pl g j) = Some (a, b) -> a <> head q).
  { intros j a b Hj E ->. destruct (M7 j _ b Hj E) as [_ (k & Hk & Hk')]. assert (k = length (chain g) - 1)%nat as ->.
    { eapply NoDup_lookup; [by eapply chain_nodup|done|done]. }
    apply lookup_lt_Some in Hk'. lia. }
  split; [split|split].
  - simpl. by rewrite lookup_app_l.
  - simpl. rewrite length_app. simpl. replace (length (chain g) + 1 - 1)%nat with (length (chain g)) by lia. by rewrite list_lookup_middle.
  - exact Hnx.
  - intros u. specialize (M4 u). pose proof (total_upd n (fun l => cnt u (hand l)) (pl g) i _ (MPl (Some (head q, t)) h) Hi Hp) as Htot. simpl in *.
    rewrite cnt_app, !cnt_cons, cnt_nil in *. lia.
  - simpl. rewrite cnt_app, cnt_cons, cnt_nil. destruct (decide (i = 0%nat)) as [->|Hne].
    + rewrite fn_lookup_insert. simpl. rewrite Hp in M5. simpl in M5. rewrite cnt_cons in M5. lia.
    + rewrite fn_lookup_insert_ne by done. rewrite decide_False by (intros ->; auto). lia.
  - intros k a b Ha Hb. simpl in Ha, Hb. apply lookup_app_Some in Hb as [Hb|[Hge Hb]].
    + rewrite lookup_app_l in Ha by (apply lookup_lt_Some in Hb; lia). destruct (M6 k a b Ha Hb) as [?|[? (j & Hj & E)]]; [by left|right].
      split; [done|]. exists j. split; [done|]. rewrite Hlk. case_decide as Eji; [subst j; by rewrite Hp in E|done].
    + assert (S k = length (chain g)) as Hk. { apply lookup_lt_Some in Hb. simpl in Hb. lia. }
      rewrite <- Hk, Nat.sub_diag in Hb. simpl in Hb. injection Hb as <-. rewrite lookup_app_l in Ha by lia.
      replace k with (length (chain g) - 1)%nat in Ha by lia. rewrite M2 in Ha. injection Ha as <-. right. split; [done|]. exists i.
      split; [done|]. rewrite Hlk. by rewrite decide_True.
  - intros j a b Hj E. rewrite Hlk in E. case_decide as Eji.
    + injection E as <- <-. split; [done|]. exists (length (chain g) - 1)%nat. simpl. split; [rewrite lookup_app_l by lia; done|].
      replace (S (length (chain g) - 1)) with (length (chain g)) by lia. by rewrite list_lookup_middle.
    + destruct (M7 j a b Hj E) as [? (k & ? & Hk)]. split; [done|]. exists k. simpl. rewrite !lookup_app_l by (by eapply lookup_lt_Some). done.
  - intros x y a b c Hx Hy Ex Ey. rewrite Hlk in Ex. rewrite Hlk in Ey. destruct (decide (x = i)) as [E1|E1], (decide (y = i)) as [E2|E2]; [congruence| | |].
    + injection Ex as <- <-. by destruct (Hold y _ c Hy Ey).
    + injection Ey as <- <-. by destruct (Hold x _ b Hx Ex).
    + by eapply M8.
  - simpl. unfold real. rewrite list.filter_app. rewrite list.filter_cons, list.filter_nil. case_decide as E1; case_decide as E2; try done; rewrite M9.
    + by rewrite app_nil_r.
    + by rewrite app_assoc.
  - intros j Hj. split; [simpl; by rewrite fn_lookup_insert_ne|done].
  - done.
Qed.

(** The link. *)
Lemma link_step q g i a b h :
  (i < n)%nat -> minv q g -> pl g i = MPl (Some (a, b)) h ->
  let g' := MGhost (chain g) (<[i := MPl None h]> (pl g)) in
  minv (set_next a (Some b) q) g' /\ guar R i (q, g) (set_next a (Some b) q, g').
Proof.
  intros Hi HI Hp g'. pose proof (chain_nodup q g HI) as Hnd. pose proof HI as [M1 M2 M3 M4 M5 M6 M7 M8 M9].
  destruct (M7 i a b Hi) as [Hna (k & Hk & Hk')]; [by rewrite Hp|].
  assert (Hlk : forall j, link (pl g' j) = if decide (j = i) then None else link (pl g j)).
  { intros j. simpl. case_decide as E; [subst; by rewrite fn_lookup_insert|by rewrite fn_lookup_insert_ne]. }
  assert (Hnh : a <> head q).
  { intros ->. assert (k = length (chain g) - 1)%nat as -> by (by eapply NoDup_lookup). apply lookup_lt_Some in Hk'. lia. }
  split; [split; try done|split].
  - simpl. by rewrite fn_lookup_insert_ne.
  - intros u. specialize (M4 u). pose proof (total_upd n (fun l => cnt u (hand l)) (pl g) i _ (MPl None h) Hi Hp) as Htot. simpl in *. lia.
  - simpl. destruct (decide (i = 0%nat)) as [->|]; [rewrite fn_lookup_insert; by rewrite Hp in M5|by rewrite fn_lookup_insert_ne].
  - intros m x y Hx Hy. destruct (decide (x = a)) as [->|Hne].
    + assert (m = k) as -> by (by eapply NoDup_lookup). simpl in Hy. rewrite Hk' in Hy. injection Hy as <-. left. simpl. by rewrite fn_lookup_insert.
    + simpl. rewrite fn_lookup_insert_ne by done. destruct (M6 m x y Hx Hy) as [?|[? (j & Hj & E)]]; [by left|right]. split; [done|]. exists j.
      split; [done|]. fold g'. change (link (pl g' j) = Some (x, y)). rewrite Hlk. case_decide as Eji; [subst j; rewrite Hp in E; simpl in E; congruence|done].
  - intros j x y Hj E. rewrite Hlk in E. case_decide as Eji; [done|]. destruct (M7 j x y Hj E) as [? Hex]. split; [|done]. simpl.
    rewrite fn_lookup_insert_ne; [done|]. intros <-. destruct Eji. apply (M8 j i a y b); [done..|by rewrite Hp].
  - intros x y u v w Hx Hy Ex Ey. rewrite Hlk in Ex. rewrite Hlk in Ey. case_decide; [done|]. case_decide; [done|]. by eapply M8.
  - intros j Hj. split; [simpl; by rewrite fn_lookup_insert_ne|]. intros Hjn u Hu. simpl. rewrite fn_lookup_insert_ne; [done|]. intros <-.
    apply list_elem_of_lookup_2, cnt_elem in Hk. apply cnt_elem in Hu. pose proof (mi_once q g a HI) as M.
    pose proof (total_elem n (fun l => cnt a (hand l)) (pl g) j Hjn) as Ht. simpl in Ht, Hu. lia.
  - intros _. split; [done|]. intros v Ev. simpl in *. rewrite fn_lookup_insert_ne; [done|]. intros ->. congruence.
Qed.

(** The consumer goes on to the next node. *)
Lemma advance_step q g f nx h :
  minv q g -> front_at f (Some nx) h q g ->
  let g' := MGhost (drop 1 (chain g)) (<[0%nat := MPl None (f :: h)]> (pl g)) in
  let q' := if decide (f = stub) then set_tail nx q else take_out nx f q in
  minv q' g' /\ guar R 0 (q, g) (q', g').
Proof.
  intros HI [[Hp HT] Hnx] g' q'. destruct (HT f eq_refl) as [_ Ht]. specialize (Hnx nx eq_refl). pose proof HI as [M1 M2 M3 M4 M5 M6 M7 M8 M9].
  destruct (chain g) as [|x l] eqn:El; [done|]. simpl in M1. injection M1 as ->. rewrite Ht in *.
  destruct l as [|y l].
  { simpl in M2. injection M2 as E. rewrite <- E in M3. congruence. }
  assert (y = nx) as ->. { destruct (M6 0%nat f y eq_refl eq_refl) as [E|[E _]]; congruence. }
  assert (Hq : mpscNext q' = mpscNext q /\ head q' = head q /\ tail q' = nx /\ idle q' = idle q /\ pushed q' = pushed q) by (unfold q'; by case_decide).
  destruct Hq as (Q1 & Q2 & Q3 & Q4 & Q5).
  assert (Hlk : forall j, link (pl g' j) = link (pl g j)).
  { intros j. simpl. destruct (decide (j = 0%nat)) as [->|]; [by rewrite fn_lookup_insert, Hp|by rewrite fn_lookup_insert_ne]. }
  split; [split; rewrite ?Q1, ?Q2, ?Q3, ?Q4, ?Q5; try done|split].
  - simpl in *. rewrite <- M2. f_equal. by rewrite Nat.sub_0_r.
  - intros u. specialize (M4 u). pose proof (total_upd n (fun l => cnt u (hand l)) (pl g) 0 _ (MPl None (f :: h)) Hn Hp) as Htot. simpl in *.
    rewrite !cnt_cons in *. lia.
  - assert (pl g' 0%nat = MPl None (f :: h)) as -> by apply fn_lookup_insert. rewrite Hp in M5. simpl in *. rewrite !cnt_cons in *. lia.
  - intros k a b Ha Hb. destruct (M6 (S k) a b) as [?|[? (j & Hj & E)]]; [done|done|by left|right]. split; [done|]. exists j. by rewrite Hlk.
  - intros j a b Hj E. rewrite Hlk in E. destruct (M7 j a b Hj E) as [Hna (k & Hk & Hk')]. split; [done|].
    destruct k as [|k]; [|by exists k]. simpl in Hk. injection Hk as <-. congruence.
  - intros i j a b c Hi Hj. rewrite !Hlk. by apply M8.
  - rewrite M9. unfold q', real. change (chain g') with (nx :: l). rewrite (list.filter_cons _ f). destruct (decide (f = stub)) as [E|E].
    + by rewrite decide_False by tauto.
    + rewrite decide_True by done. simpl. by rewrite <- app_assoc.
  - intros j Hj. split; [simpl; by rewrite fn_lookup_insert_ne|]. intros _ t _. simpl. by rewrite Q1.
  - done.
Qed.

(** ** The queue's operations *)

Lemma rg_mpsc_push {A} i t h T (k : unit -> mprog A) Q :
  (i < n)%nat -> (t = stub -> i = 0%nat) -> rg R i (k tt) (at_ i (MPl None h) T) Q ->
  rg R i (bind (push t) k) (at_ i (MPl None (t :: h)) T) Q.
Proof.
  intros Hi Hs Hk. unfold push. apply rg_bind_assoc, rg_store. intros q g HI [Hp HT].
  exists g, (cleared i t h T). destruct (clear_step q g i t h Hi HI Hp) as [HI' HG].
  splits; [done|done|by split; [split|simpl; rewrite fn_lookup_insert]|by apply stable_cleared|].
  apply rg_bind_assoc, rg_rmw. clear q g HI Hp HT HI' HG. intros q g HI [[Hp HT] Hnx].
  destruct (exchange_step q g i t h) as [HI' HG]; [done|done|by repeat split|done|].
  exists (MGhost (chain g ++ [t]) (<[i := MPl (Some (head q, t)) h]> (pl g))), (at_ i (MPl (Some (head q, t)) h) T).
  splits; [done|done|by split; [simpl; rewrite fn_lookup_insert|]|apply stable_mat|].
  apply rg_store. simpl. generalize (head q) as a. clear q g HI Hp HT HI' HG Hnx. intros a q g HI [Hp HT].
  destruct (link_step q g i a t h Hi HI Hp) as [HI' HG].
  exists (MGhost (chain g) (<[i := MPl None h]> (pl g))), (at_ i (MPl None h) T).
  splits; [done|done|by split; [simpl; rewrite fn_lookup_insert|]|apply stable_mat|exact Hk].
Qed.

Lemma rg_load_next {A} f h (k : option nat -> mprog A) Q :
  (forall o, rg R 0 (k o) (front_at f o h) Q) -> rg R 0 (bind (load_next f) k) (at_ 0 (MPl None h) (Some f)) Q.
Proof.
  intros Hk. apply rg_load; [apply mguar_refl|]. intros q g HI H. exists (front_at f (mpscNext q f) h).
  split; [by split|]. split; [apply stable_front|]. apply Hk.
Qed.

(** The consumer moves past [f]. *)
Lemma rg_advance {A} f nx h put (k : unit -> mprog A) Q :
  (forall q, put q = if decide (f = stub) then set_tail nx q else take_out nx f q) ->
  rg R 0 (k tt) (at_ 0 (MPl None (f :: h)) (Some nx)) Q -> rg R 0 (bind (store put) k) (front_at f (Some nx) h) Q.
Proof.
  intros Hput Hk. apply rg_store. intros q g HI H. rewrite Hput. destruct (advance_step q g f nx h HI H) as [HI' HG].
  eexists _, (at_ 0 (MPl None (f :: h)) (Some nx)). splits; [exact HI'|exact HG|split; [apply fn_lookup_insert|]|apply stable_mat|exact Hk].
  intros v [= <-]. split; [done|by case_decide].
Qed.

(** What the consumer has in hand between two calls: the stub, unless it is in the queue. *)
Definition consumer_hand (h : list nat) : Prop := h = [] \/ h = [stub].

Definition popped_post (a : option nat) : asrt MpscQueue mghost :=
  fun q g => exists h T, consumer_hand h /\ at_ 0 (MPl None (from_option (fun t => [t]) [] a ++ h)) T q g /\ (forall t, a = Some t -> t <> stub).

Lemma popped_none f o h q g : consumer_hand h -> front_at f o h q g -> popped_post None q g.
Proof. intros Hh [H _]. by exists h, (Some f). Qed.

(** Taking out a node that is not the stub. *)
Lemma rg_take_out f nx h Q :
  f <> stub -> consumer_hand h -> (forall q g, popped_post (Some f) q g -> Q (Some f) q g) ->
  rg R 0 (store (take_out nx f);;; Ret (Some f)) (front_at f (Some nx) h) Q.
Proof.
  intros Hf Hh HQ. apply rg_advance; [intros q; by rewrite decide_False|]. intros q g _ H. apply HQ. exists h, (Some nx).
  splits; [done|exact H|by intros t [= <-]].
Qed.

(** Only [f] is in the queue: the stub is in the consumer's hand. *)
Lemma stub_in_hand q g f o h : minv q g -> front_at f o h q g -> f <> stub -> f = head q -> consumer_hand h -> h = [stub].
Proof.
  intros HI [[Hp HT] _] Hf Hh [->|]; [|done]. destruct (HT f eq_refl) as [_ Ht]. exfalso.
  pose proof (chain_nodup q g HI) as Hnd. pose proof HI as [M1 M2 _ _ M5 _ _ _ _]. rewrite Hp in M5. simpl in M5. rewrite cnt_nil in M5.
  rewrite Ht in M1. rewrite <- Hh in M2. pose proof (NoDup_lookup _ _ _ _ Hnd M1 M2) as El.
  destruct (chain g) as [|x [|y l]]; [done| |simpl in El; lia]. injection M1 as ->. rewrite cnt_cons, cnt_nil, decide_False in M5 by congruence. lia.
Qed.

Lemma rg_pop_front f o h : f <> stub -> consumer_hand h -> rg R 0 (pop_front f o) (front_at f o h) popped_post.
Proof.
  intros Hf Hh. unfold pop_front. destruct o as [nx|]; [by apply rg_take_out|]. apply rg_load; [apply mguar_refl|].
  intros q g HI H. case_bool_decide as E.
  - pose proof (stub_in_hand q g f None h HI H Hf E Hh) as ->. exists (at_ 0 (MPl None [stub]) (Some f)).
    split; [apply H|]. split; [apply stable_mat|]. apply rg_mpsc_push; [done|done|]. apply rg_load_next. intros [nx|].
    + apply rg_take_out; [done|by left|done].
    + intros q' g' _ H'. by eapply (popped_none f None []); [left|].
  - exists (front_at f None h). split; [done|]. split; [apply stable_front|]. intros q' g' _ H'. by eapply popped_none.
Qed.

Lemma next_real q g nx h : minv q g -> at_ 0 (MPl None (stub :: h)) (Some nx) q g -> nx <> stub.
Proof.
  intros HI [Hp HT]. destruct (HT nx eq_refl) as [_ Ht]. intros ->. pose proof (in_hand q g 0 stub (stub :: h) HI Hn Hp) as H.
  apply H; [left|]. eapply list_elem_of_lookup_2. rewrite <- Ht. apply (mi_tail q g HI).
Qed.

(** The consumer's hand between two calls. *)
Definition resting : asrt MpscQueue mghost := fun q g => exists h, consumer_hand h /\ at_ 0 (MPl None h) None q g.

Lemma at_forget i l T q g : at_ i l T q g -> at_ i l None q g.
Proof. by intros [H _]. Qed.

Lemma stable_resting : stable R 0 resting.
Proof.
  intros j q g q' g' Hj HI HI' HG (h & Hh & H). exists h. split; [done|]. exact (stable_mat 0 _ None j q g q' g' Hj HI HI' HG H).
Qed.

Lemma stub_in_queue q g h : minv q g -> at_ 0 (MPl None h) (Some stub) q g -> consumer_hand h -> h = [].
Proof.
  intros HI [Hp HT] [E | ->]; [by subst|]. destruct (HT stub eq_refl) as [_ Ht].
  destruct (in_hand q g 0 stub [stub] HI Hn Hp); [left|]. eapply list_elem_of_lookup_2. rewrite <- Ht. apply (mi_tail q g HI).
Qed.

Lemma rg_mpsc_pop : rg R 0 pop resting popped_post.
Proof.
  apply rg_ex. intros h. apply rg_pure. intros Hh. apply rg_load; [apply mguar_refl|]. intros q g HI H.
  exists (at_ 0 (MPl None h) (Some (tail q))). split; [split; [apply H|by intros f [= <-]]|]. split; [apply stable_mat|].
  generalize (tail q) as f. clear q g HI H. intros f. apply rg_load_next. intros o. case_bool_decide as E.
  - subst f. destruct o as [nx|]; [|intros q g _ H; by eapply popped_none].
    eapply (rg_pure_from R 0 _ (h = [])); [intros q g HI [H _]; by eapply stub_in_queue|]. intros ->.
    apply rg_advance; [intros q; by rewrite decide_True|].
    eapply (rg_pure_from R 0 _ (nx <> stub)); [intros q g HI H; by eapply next_real|]. intros Hnx.
    apply rg_load_next. intros o. apply rg_pop_front; [done|by right].
  - by apply rg_pop_front.
Qed.

Lemma rg_mpsc_isEmpty : rg R 0 isEmpty resting (fun _ => resting).
Proof.
  apply rg_load; [apply mguar_refl|]. intros q g HI H. exists resting. split; [done|]. split; [apply stable_resting|].
  case_bool_decide; [|by intros ? ? _]. apply rg_load; [apply mguar_refl|]. intros q' g' HI' H'. exists resting. split; [done|].
  split; [apply stable_resting|]. by intros ? ? _.
Qed.

(** ** Nodes change hands outside the queue *)

Lemma idle_step q g i l l' h h' :
  (i < n)%nat -> minv q g -> pl g i = MPl None h -> idle q = l -> (forall t, cnt t l' + cnt t h' = cnt t l + cnt t h)%nat ->
  (cnt stub h' = cnt stub h)%nat ->
  let g' := MGhost (chain g) (<[i := MPl None h']> (pl g)) in
  minv (set_idle l' q) g' /\ guar R i (q, g) (set_idle l' q, g').
Proof.
  intros Hi HI Hp El Hc Hs g'. pose proof HI as [M1 M2 M3 M4 M5 M6 M7 M8 M9].
  assert (Hlk : forall j, link (pl g' j) = link (pl g j)).
  { intros j. simpl. destruct (decide (j = i)) as [->|]; [by rewrite fn_lookup_insert, Hp|by rewrite fn_lookup_insert_ne]. }
  split; [split; try done|split].
  - intros u. specialize (M4 u). specialize (Hc u). subst l.
    pose proof (total_upd n (fun l => cnt u (hand l)) (pl g) i _ (MPl None h') Hi Hp) as Htot. simpl in *. lia.
  - destruct (decide (i = 0%nat)) as [->|].
    + assert (pl g' 0%nat = MPl None h') as -> by apply fn_lookup_insert. rewrite Hp in M5. simpl in *. lia.
    + assert (pl g' 0%nat = pl g 0%nat) as -> by (by apply fn_lookup_insert_ne). done.
  - intros k a b Ha Hb. destruct (M6 k a b Ha Hb) as [?|[? (j & ? & ?)]]; [by left|right]. split; [done|]. exists j. by rewrite Hlk.
  - intros j a b Hj. rewrite Hlk. by apply M7.
  - intros x y a b c Hx Hy. rewrite !Hlk. by apply M8.
  - intros j Hj. split; [simpl; by rewrite fn_lookup_insert_ne|done].
  - done.
Qed.

Lemma rg_take_one : rg R 0 take_one resting (fun _ => resting).
Proof.
  unfold take_one. eapply rg_bind; [apply rg_mpsc_pop|]. intros o. eapply (rg_bind R 0 _ _ _ (fun _ => resting)); [|by intros ? ? ? _].
  apply rg_ex. intros h. apply rg_ex. intros T. apply rg_pure. intros Hh. destruct o as [t|].
  - apply rg_seq_ret, rg_store. intros q g HI [[Hp HT] Ht]. simpl in Hp.
    destruct (idle_step q g 0 (idle q) (t :: idle q) (t :: h) h) as [HI' HG]; [done|done|done|done| | |].
    { intros u. rewrite !cnt_cons. lia. }
    { specialize (Ht t eq_refl). rewrite cnt_cons. rewrite decide_False by congruence. lia. }
    eexists _, resting. splits; [exact HI'|exact HG| |apply stable_resting|by intros ? ? _].
    exists h. split; [done|]. split; [apply fn_lookup_insert|done].
  - intros q g _ [H _]. exists h. split; [done|]. by eapply at_forget.
Qed.

Lemma rg_consumer m : rg R 0 (consumer m) resting (fun _ => resting).
Proof.
  induction m as [|m IH]; [by intros q g _|]. cbn [consumer]. eapply rg_bind; [apply rg_take_one|]. intros o.
  eapply rg_bind; [apply rg_mpsc_isEmpty|]. intros b. exact IH.
Qed.

Lemma idle_real q g t : minv q g -> t ∈ idle q -> t <> stub.
Proof.
  intros HI Ht ->. apply cnt_elem in Ht. pose proof (mi_once q g stub HI) as H1. pose proof (mi_stub q g HI) as H2.
  pose proof (total_elem n (fun l => cnt stub (hand l)) (pl g) 0 Hn). simpl in *. lia.
Qed.

Lemma rg_producer i m : (i < n)%nat -> i <> 0%nat -> rg R i (producer m) (at_ i (MPl None []) None) (fun _ => at_ i (MPl None []) None).
Proof.
  intros Hi H0. induction m as [|m IH]; [by intros q g _|]. cbn [producer].
  eapply (rg_bind R i _ _ _ (fun o => fun q g => at_ i (MPl None (from_option (fun t => [t]) [] o)) None q g /\ o <> Some stub)).
  - split; [simpl; intros q g _ _; by destruct (idle q)|]. intros q g q' o HI [Hp HT] Hx.
    destruct (idle q) as [|x l] eqn:El.
    + apply list_elem_of_singleton in Hx. injection Hx as -> ->. exists g, (at_ i (MPl None []) None).
      splits; [done|done|done|apply stable_mat|]. by intros ? ? _.
    + apply elem_of_lookup_imap in Hx as (k & t & Hx & Hk). injection Hx as -> ->.
      assert (t <> stub) as Hts by (apply (idle_real q g t HI); rewrite El; by eapply list_elem_of_lookup_2).
      destruct (idle_step q g i (x :: l) (delete k (x :: l)) [] [t]) as [HI' HG]; [done|done|done|done| | |].
      { intros u. rewrite cnt_nil, (cnt_delete u (x :: l) k t Hk). lia. }
      { by rewrite cnt_cons, cnt_nil, decide_False. }
      eexists _, (fun q g => at_ i (MPl None [t]) None q g /\ t <> stub). splits; [exact HI'|exact HG| |done| |].
      * by split; [apply fn_lookup_insert|].
      * apply stable_and; [apply stable_mat|apply stable_const].
      * intros ? ? _ [? ?]. split; [done|congruence].
  - intros o. apply rg_pure_from with (phi := o <> Some stub); [by intros ? ? _ []|]. intros Ho.
    apply (rg_pre R i _ (at_ i (MPl None (from_option (fun t => [t]) [] o)) None)); [by intros ? ? _ []|].
    destruct o as [t|]; [apply rg_mpsc_push; [done|congruence|exact IH]|exact IH].
Qed.
End proof.

(** ** The pool *)

Section pool.
Context (nodes : list nat) (m : nat) (ps : list nat) (Hnd : NoDup nodes) (Hst : stub ∉ nodes).
Definition threads : nat := S (length ps).

Lemma minv_start : minv (stub :: nodes) threads (new_queue nodes) (MGhost [stub] (fun _ => MPl None [])).
Proof.
  split; try done.
  - intros t. rewrite total_zero by (intros; apply cnt_nil). simpl. rewrite !cnt_cons, cnt_nil. lia.
Qed.

Definition resting_at (i : nat) (_ : unit) : asrt MpscQueue mghost := if decide (i = 0%nat) then resting else at_ i (MPl None []) None.

Lemma mpsc_pool_ok c : reach (mpsc_pool nodes m ps) c -> pool_ok (mproto (stub :: nodes) threads) resting_at c.
Proof.
  assert (NoDup (stub :: nodes)) as Hall by (by apply list.NoDup_cons). assert (0 < threads)%nat as Hn by (unfold threads; lia).
  intros Hr. eapply pool_ok_reach; [exact Hr|]. exists (MGhost [stub] (fun _ => MPl None [])). split; [apply minv_start|].
  intros [|i] p Hp; simpl in Hp; unfold resting_at.
  - injection Hp as <-. exists resting. split; [apply stable_resting|]. split; [|by apply rg_consumer].
    exists []. by split; [left|].
  - rewrite list_lookup_fmap in Hp. apply fmap_Some in Hp as (k & Hk & ->). apply lookup_lt_Some in Hk.
    exists (at_ (S i) (MPl None []) None). split; [apply stable_mat|]. split; [done|]. apply rg_producer; unfold threads; [done|lia..].
Qed.
End pool.

(** ** The queue at rest *)

(** No push is under way, and [l] is in the queue. *)
Definition quiet (all : list nat) (q : MpscQueue) (l : list nat) : Prop :=
  exists g, minv all 1 q g /\ resting q g /\ real (chain g) = l.

Lemma quiet_next all q g : minv all 1 q g -> resting q g -> forall k a b, chain g !! k = Some a -> chain g !! S k = Some b -> mpscNext q a = Some b.
Proof.
  intros HI (h & _ & [Hp _]) k a b Ha Hb. destruct (mi_next _ _ _ _ HI k a b Ha Hb) as [?|[_ (j & Hj & E)]]; [done|].
  assert (j = 0%nat) as -> by lia. by rewrite Hp in E.
Qed.

Lemma run_pop_front q f l :
  f <> stub -> mpscNext q f = hd_error l -> (l = [] -> head q = f) ->
  exists q', run (pop_front f (hd_error l)) q = (q', Done (Some f)) /\ pushed q' = pushed q /\ popped q' = popped q ++ [f].
Proof.
  intros Hf Hn Hl. destruct l as [|nx l]; [|by eexists]. simpl in *. rewrite bool_decide_eq_true_2 by (by rewrite Hl). simpl.
  rewrite Hl, fn_lookup_insert by done. by eexists.
Qed.

Lemma run_pop_quiet all q g :
  minv all 1 q g -> resting q g ->
  exists q', run pop q = (q', Done (hd_error (real (chain g)))) /\ pushed q' = pushed q /\ popped q' = popped q ++ take 1 (real (chain g)).
Proof.
  intros HI Hr. pose proof (quiet_next all q g HI Hr) as Hnx. destruct (chain_last all 1 Nat.lt_0_1 q g HI) as [l0 El].
  pose proof (mi_tail _ _ _ _ HI) as Ht. pose proof (mi_end _ _ _ _ HI) as He. pose proof (mi_stub _ _ _ _ HI) as Hs. clear HI Hr.
  destruct (chain g) as [|x l]; [done|]. injection Ht as ->.
  assert (Hx : forall k a, (tail q :: l) !! k = Some a -> mpscNext q a = hd_error (drop (S k) (tail q :: l)) /\ (drop (S k) (tail q :: l) = [] -> head q = a)).
  { intros k a Ha. destruct ((tail q :: l) !! S k) as [b|] eqn:Eb.
    - rewrite (drop_S _ _ _ Eb). split; [by eapply Hnx|done].
    - apply lookup_ge_None in Eb. rewrite drop_ge by done. assert (head q = a) as <-.
      { rewrite El in Ha, Eb. rewrite length_app in Eb. simpl in Eb. pose proof (lookup_lt_Some _ _ _ Ha) as Hlt. rewrite length_app in Hlt. simpl in Hlt.
        rewrite lookup_app_r in Ha by lia. replace (k - length l0)%nat with 0%nat in Ha by lia. by injection Ha. }
      done. }
  destruct (Hx 0%nat _ eq_refl) as [H1 H2]. simpl in H1, H2. unfold real, pop. rewrite list.filter_cons. cbn -[pop_front bool_decide hd_error take]. 
  rewrite H1. destruct (decide (tail q = stub)) as [Es|Es].
  - rewrite bool_decide_eq_true_2 by done. rewrite decide_False by tauto. destruct l as [|y l]; [by eexists; rewrite app_nil_r|].
    assert (y <> stub) as Hy.
    { intros ->. rewrite Es, !cnt_cons, decide_True in Hs by done. lia. }
    rewrite list.filter_cons, decide_True by done. destruct (Hx 1%nat y eq_refl) as [H3 H4]. simpl in H3, H4. cbn -[pop_front take]. rewrite H3.
    by apply (run_pop_front (set_tail y q)).
  - rewrite bool_decide_eq_false_2 by done. rewrite decide_True by done. by apply run_pop_front.
Qed.

Lemma run_take_one q q1 o : run pop q = (q1, Done o) -> run take_one q = (from_option (fun t => set_idle (t :: idle q1) q1) q1 o, Done o).
Proof. intros E. unfold take_one. rewrite run_bind, E. by destruct o. Qed.

Lemma quiet_take_one all q l : NoDup all -> quiet all q l -> exists q', run take_one q = (q', Done (hd_error l)) /\ quiet all q' (list.tail l).
Proof.
  intros Hall (g & HI & Hr & El). destruct (run_pop_quiet all q g HI Hr) as (q1 & E1 & Hpu & Hpo). rewrite El in *. apply run_take_one in E1.
  set (q' := from_option _ _ _) in E1. exists q'. split; [done|].
  assert (pool_ok (mproto all 1) (fun _ _ => resting) ([Ret (hd_error l)], q')) as Hok.
  { eapply (pool_ok_reach (mproto all 1) (fun _ _ => resting) ([take_one], q)).
    - apply (run_reach take_one q q' _ [take_one] 0 eq_refl E1).
    - exists g. split; [done|]. intros [|i] p Hp; [|done]. injection Hp as <-. exists resting.
      split; [apply stable_resting|]. split; [done|]. apply rg_take_one; [done|lia]. }
  destruct (pool_ok_finished _ _ _ [hd_error l] _ eq_refl Hok) as (g' & HI' & HQ). exists g'. split; [done|].
  split; [by apply (HQ 0%nat (hd_error l))|].
  pose proof (mi_log _ _ _ _ HI) as H1. pose proof (mi_log _ _ _ _ HI') as H2. rewrite El in H1.
  assert (pushed q' = pushed q /\ popped q' = popped q ++ take 1 l) as [E2 E3] by (unfold q'; by destruct l).
  rewrite E2, E3, H1, <- app_assoc in H2. apply app_inv_head in H2. rewrite <- (take_drop 1 l) in H2 at 1. apply app_inv_head in H2. rewrite <- H2.
  by destruct l as [|? []].
Qed.

Lemma quiet_drain all q l : NoDup all -> quiet all q l -> exists q', run (drain (S (length l))) q = (q', Done l) /\ quiet all q' [].
Proof.
  intros Hall. revert q. induction l as [|x l IH]; intros q Hq.
  - destruct (quiet_take_one all q [] Hall Hq) as (q' & E & Hq'). exists q'. split; [|done]. cbn [drain length]. by rewrite run_bind, E.
  - destruct (quiet_take_one all q (x :: l) Hall Hq) as (q1 & E & Hq1). destruct (IH q1 Hq1) as (q' & E' & Hq'). exists q'. split; [|done].
    cbn [length]. cbn [drain]. rewrite run_bind, E. cbn [hd_error]. rewrite run_bind. change (o <- take_one;; _) with (drain (S (length l))). by rewrite E'.
Qed.

Lemma quiet_isEmpty all q l : quiet all q l -> run isEmpty q = (q, Done (bool_decide (l = []))).
Proof.
  intros (g & HI & Hr & <-). pose proof (quiet_next all q g HI Hr) as Hnx. destruct (chain_last all 1 Nat.lt_0_1 q g HI) as [l0 El].
  pose proof (mi_tail _ _ _ _ HI) as Ht. pose proof (mi_end _ _ _ _ HI) as He. pose proof (mi_stub _ _ _ _ HI) as Hs. clear HI Hr.
  destruct (chain g) as [|x l]; [done|]. injection Ht as ->. unfold isEmpty, real. rewrite list.filter_cons. cbn -[bool_decide].
  destruct (decide (tail q = stub)) as [Es|Es].
  - rewrite bool_decide_eq_true_2 by done. rewrite (decide_False (P := tail q <> stub)) by tauto. cbn -[bool_decide]. destruct l as [|y l].
    + assert (tail q = head q) as E by (destruct l0 as [|? []]; by injection El). rewrite <- Es, E, He. by rewrite !bool_decide_eq_true_2.
    + rewrite <- Es, (Hnx 0%nat _ y eq_refl eq_refl). rewrite list.filter_cons, decide_True; [by rewrite !bool_decide_eq_false_2|].
      intros ->. rewrite !cnt_cons, Es, decide_True in Hs by done. lia.
  - by rewrite decide_True, !bool_decide_eq_false_2.
Qed.

Lemma total_only {B} n (f : B -> nat) pf : (0 < n)%nat -> (forall j, j <> 0%nat -> (j < n)%nat -> f (pf j) = 0%nat) -> total n f pf = f (pf 0%nat).
Proof.
  intros Hn H. destruct n as [|n]; [lia|]. unfold total. simpl. rewrite lsum_zero; [lia|]. intros j Hj%elem_of_seq. apply H; lia.
Qed.

Lemma minv_one all n q g : (0 < n)%nat -> (forall i, i <> 0%nat -> (i < n)%nat -> pl g i = MPl None []) -> minv all n q g -> minv all 1 q g.
Proof.
  intros Hn Ho [M1 M2 M3 M4 M5 M6 M7 M8 M9]. split; try done.
  - intros t. rewrite <- (M4 t). f_equal. f_equal. rewrite !total_only; [done|done| |lia|intros; lia]. intros j Hj Hj0. rewrite Ho by done. apply cnt_nil.
  - intros k a b Ha Hb. destruct (M6 k a b Ha Hb) as [?|[? (j & Hj & E)]]; [by left|right]. split; [done|]. exists j. split; [|done].
    destruct j as [|j]; [lia|]. by rewrite Ho in E.
  - intros j a b Hj. apply M7. lia.
  - intros i j a b c Hi Hj. apply M8; lia.
Qed.

Lemma cnt_real t l : cnt t (real l) = if decide (stub = t) then 0%nat else cnt t l.
Proof.
  unfold real. induction l as [|x l IH]; [rewrite cnt_nil; by case_decide|]. rewrite list.filter_cons. destruct (decide (x = stub)) as [->|Hx].
  - rewrite decide_False by tauto. rewrite IH, cnt_cons. by case_decide.
  - rewrite decide_True by done. rewrite !cnt_cons, IH. destruct (decide (stub = t)) as [<-|]; [|done]. by rewrite decide_False.
Qed.

Lemma pool_quiet nodes m ps ts q :
  NoDup nodes -> stub ∉ nodes -> reach (mpsc_pool nodes m ps) (ts, q) -> (forall i th, ts !! i = Some th -> th = Ret tt) ->
  exists l, quiet (stub :: nodes) q l /\ pushed q = popped q ++ l /\ idle q ++ l ≡ₚ nodes.
Proof.
  intros Hnd Hst Hr Hret. pose proof (reach_length _ _ Hr) as Hlen. simpl in Hlen. rewrite length_fmap in Hlen.
  destruct (pool_ok_waits _ _ _ _ (mpsc_pool_ok nodes m ps Hnd Hst _ Hr)) as (g & HI & _ & HQ).
  assert (Hat : forall i, (i < threads ps)%nat -> resting_at i tt q g).
  { intros i Hi. apply HQ. destruct (lookup_lt_is_Some_2 ts i) as [th Hth]; [unfold threads in Hi; lia|]. by rewrite (Hret _ _ Hth) in Hth. }
  assert (Hrest : resting q g) by (apply (Hat 0%nat); unfold threads; lia).
  assert (HI1 : minv (stub :: nodes) 1 q g).
  { eapply (minv_one _ (threads ps)); [unfold threads; lia| |exact HI]. intros i Hi Hlt. specialize (Hat i Hlt). unfold resting_at in Hat.
    rewrite decide_False in Hat by done. apply Hat. }
  exists (real (chain g)). split; [by exists g|]. split; [apply (mi_log _ _ _ _ HI)|].
  apply Permutation_cnt. intros t. rewrite cnt_app, cnt_real. pose proof (mi_all _ _ _ _ HI1 t) as Ht. rewrite total_only in Ht by lia.
  rewrite cnt_cons in Ht. destruct Hrest as (h & Hh & [Hp _]). rewrite Hp in Ht. simpl in Ht. destruct (decide (stub = t)) as [<-|Hne].
  - assert (cnt stub (idle q) = 0%nat) as ->; [|apply cnt_zero in Hst; lia]. apply cnt_zero. intros H. by apply (idle_real (stub :: nodes) ltac:(by apply list.NoDup_cons) 1 Nat.lt_0_1 q g stub HI1 H).
  - assert (cnt t h = 0%nat) as Hz; [|lia]. destruct Hh as [-> | ->]; [apply cnt_nil|]. by rewrite cnt_cons, cnt_nil, decide_False.
Qed.

(** ** Theorems *)

(** C22: In every interleaving of the consumer with any number of producers,
    the nodes leave the queue in the order in which they entered it: what was
    taken out is a prefix of what was put in, the rest is what the queue
    holds, and no node is in it twice or in it and outside it. *)
Theorem mpsc_fifo (nodes : list nat) (m : nat) (ps : list nat) ts q :
  NoDup nodes -> stub ∉ nodes -> reach (mpsc_pool nodes m ps) (ts, q) ->
  exists rest, pushed q = popped q ++ rest /\ NoDup (rest ++ idle q) /\ stub ∉ rest ++ idle q /\ rest ++ idle q ⊆ nodes.
Proof.
  intros Hnd Hst Hr. destruct (mpsc_pool_ok nodes m ps Hnd Hst _ Hr) as (g & HI & _). simpl in HI. exists (real (chain g)).
  assert (Hc : forall t, (cnt t (real (chain g) ++ idle q) <= cnt t nodes)%nat).
  { intros t. rewrite cnt_app, cnt_real. pose proof (mi_all _ _ _ _ HI t) as H. rewrite cnt_cons in H. pose proof (mi_stub _ _ _ _ HI) as Hs.
    destruct (decide (stub = t)) as [<-|]; [|lia].
    pose proof (total_elem (threads ps) (fun l => cnt stub (hand l)) (pl g) 0). simpl in *. unfold threads in *. lia. }
  splits; [apply (mi_log _ _ _ _ HI)|apply NoDup_cnt; intros t; specialize (Hc t); pose proof (proj1 (NoDup_cnt nodes) Hnd t); lia| |].
  - apply cnt_zero. specialize (Hc stub). apply cnt_zero in Hst. lia.
  - intros t Ht. apply cnt_elem in Ht. apply cnt_elem. specialize (Hc t). lia.
Qed.

(** When every thread has returned no node is lost: those outside the
    queue and those in it are all there are, [isEmpty] says whether there are
    any in it, and popping until [nullptr] takes out exactly these, in the
    order of the pushes. *)
Theorem mpsc_drains (nodes : list nat) (m : nat) (ps : list nat) ts q :
  NoDup nodes -> stub ∉ nodes -> reach (mpsc_pool nodes m ps) (ts, q) -> (forall i th, ts !! i = Some th -> th = Ret tt) ->
  exists rest, pushed q = popped q ++ rest /\ idle q ++ rest ≡ₚ nodes /\
    run isEmpty q = (q, Done (bool_decide (rest = []))) /\
    (run (drain (S (length rest))) q).2 = Done rest.
Proof.
  intros Hnd Hst Hr Hret. destruct (pool_quiet nodes m ps ts q Hnd Hst Hr Hret) as (l & Hq & Hl & Hp). exists l.
  destruct (quiet_drain (stub :: nodes) q l) as (q' & E & _); [by apply list.NoDup_cons|done|]. rewrite E.
  splits; [done|done|by eapply quiet_isEmpty|done].
Qed.

(** *** An execution: the consumer and two producers over three nodes *)

Definition mpsc_run : config MpscQueue unit := run_avail (round_robin 3 30) (mpsc_pool [1; 2; 3]%nat 2 [1; 2]%nat).

Lemma mpsc_run_reach : reach (mpsc_pool [1; 2; 3]%nat 2 [1; 2]%nat) (mpsc_run.1, mpsc_run.2).
Proof. apply (run_avail_reach (round_robin 3 30)). unfold mpsc_run. apply surjective_pairing. Qed.

Lemma nodes_ok : NoDup [1; 2; 3]%nat /\ stub ∉ [1; 2; 3]%nat.
Proof. split; [by apply (bool_decide_unpack _)|]. by apply (bool_decide_unpack (stub ∉ [1; 2; 3]%nat)). Qed.

Lemma mpsc_fifo_witness : exists rest, pushed mpsc_run.2 = popped mpsc_run.2 ++ rest /\ NoDup (rest ++ idle mpsc_run.2).
Proof.
  destruct (mpsc_fifo [1; 2; 3]%nat 2 [1; 2]%nat mpsc_run.1 mpsc_run.2) as (rest & H1 & H2 & _);
    [apply nodes_ok|apply nodes_ok|apply mpsc_run_reach|]. exists rest. exact (conj H1 H2).
Defined.

Lemma mpsc_drains_witness : exists rest, pushed mpsc_run.2 = popped mpsc_run.2 ++ rest /\ rest <> [] /\ (run (drain (S (length rest))) mpsc_run.2).2 = Done rest.
Proof.
  destruct (mpsc_drains [1; 2; 3]%nat 2 [1; 2]%nat mpsc_run.1 mpsc_run.2) as (rest & H1 & _ & H2 & H3);
    [apply nodes_ok|apply nodes_ok|apply mpsc_run_reach|apply returnedb_all; vm_compute; reflexivity|].
  exists rest. split; [exact H1|]. split; [|exact H3]. intros ->. clear H1 H3.
  assert (E : (run isEmpty mpsc_run.2).2 = Done false) by (vm_compute; reflexivity). rewrite H2 in E. cbn [snd] in E.
  discriminate E.
Defined.
