(* ===== verification/Facade.v ===== *)
(** * Facade: the scheduler object

    sched/src/Scheduler.cpp: who runs which worker ([makeScheduler], [start],
    [run]), the counters of [stats], and the stall monitor; with the functions
    they use of SchedulerCore.cpp ([resolveWorkerCount]) and detail/Runtime.h
    ([wakeLatencyBucket]). *)

From Stdlib Require Import ZArith Lia.
From stdpp Require Import base tactics list numbers option strings sets relations.
From S2P Require Import Prelude.

(** ** Numbers of workers and latency buckets *)

Definition kMaxWorkers : Z := 64.
Definition kWakeLatencyBuckets : Z := 24.

Definition resolveWorkerCount (hardware_concurrency requested : Z) : Z :=
  let count := if negb (requested =? 0) then requested else hardware_concurrency in
  let count := if count =? 0 then 1 else count in
  if count >? kMaxWorkers then kMaxWorkers else count.

(** [__builtin_clzll]: the zeros above the highest one bit. *)
Fixpoint clz_go (k : nat) (v : Z) : Z :=
  match k with
  | O => 0
  | S k' => if Z.testbit v (Z.of_nat k') then 0 else 1 + clz_go k' v
  end.
Definition clzll (v : Z) : Z := clz_go 64 v.

Definition wakeLatencyBucket (nanos : Z) : Z :=
  let micros := if nanos >? 0 then nanos / 1000 else 0 in
  if micros <? 2 then 0
  else
    let log2 := 63 - clzll micros in
    if log2 <? kWakeLatencyBuckets then log2 else kWakeLatencyBuckets - 1.

(** ** Counters *)

Record WorkerStats := MkWorkerStats { ws_spawned : Z; ws_finished : Z; ws_sleeps : Z; ws_steals : Z; ws_yields : Z }.

Record worker_counters := MkCounters {
  tasksCreated : Z; tasksFinished : Z; sleeps : Z; steals : Z; yieldTick : Z; wakeLatency : list Z
}.
Record core_counters := MkCore { foreignCreated : Z; foreignFinished : Z; timersFired : Z; workers : list worker_counters }.

Record SchedulerStats := MkStats {
  st_live : Z; st_spawned : Z; st_finished : Z; st_timers : Z; st_workers : list WorkerStats; st_latency : list Z
}.

Definition u64 (x : Z) : Z := wrap 64 x.

(** [liveTasks], with nobody else running. *)
Definition liveTasks (c : core_counters) : Z :=
  let finished := fold_left (fun acc w => u64 (acc + tasksFinished w)) (workers c) (foreignFinished c) in
  let created := fold_left (fun acc w => u64 (acc + tasksCreated w)) (workers c) (foreignCreated c) in
  u64 (created - finished).

(** [wakeLatency[i] += worker.wakeLatency[i]] for every bucket. *)
Definition add_latency (acc l : list Z) : list Z := zip_with (fun x y => u64 (x + y)) acc l.

(** [recordWakeLatency]: the histogram of the worker that resumes the task. *)
Definition recordWakeLatency (readyAt now : Z) (w : worker_counters) : worker_counters :=
  if readyAt =? 0 then w
  else MkCounters (tasksCreated w) (tasksFinished w) (sleeps w) (steals w) (yieldTick w)
         (alter (fun n => u64 (n + 1)) (Z.to_nat (wakeLatencyBucket (now - readyAt))) (wakeLatency w)).

Definition stats_worker (r : SchedulerStats) (w : worker_counters) : SchedulerStats :=
  let s := MkWorkerStats (tasksCreated w) (tasksFinished w) (sleeps w) (steals w) (yieldTick w) in
  MkStats (st_live r) (u64 (st_spawned r + ws_spawned s)) (u64 (st_finished r + ws_finished s)) (st_timers r)
    (st_workers r ++ [s]) (add_latency (st_latency r) (wakeLatency w)).

Definition stats (c : core_counters) : SchedulerStats :=
  fold_left stats_worker (workers c)
    (MkStats (liveTasks c) (foreignCreated c) (foreignFinished c) (timersFired c) [] (replicate (Z.to_nat kWakeLatencyBuckets) 0)).

(** ** Who runs which worker *)

(** [ran] lists the workers whose [run] was entered, on a background thread
    ([threads]) or by the caller of [run]. *)
Record lifecycle := MkLifecycle {
  nworkers : nat;
  callerIsWorker : bool;
  worker0Taken : bool;
  launched : list bool;
  threads : list nat;
  ran : list nat
}.

(** An access outside [launched] gives [None]. *)
Definition launch_one (s : option lifecycle) (i : nat) : option lifecycle :=
  s ← s;
  l ← launched s !! i;
  if (l : bool) then Some s
  else if (i =? 0)%nat && worker0Taken s then Some s
  else Some (MkLifecycle (nworkers s) (callerIsWorker s) (if (i =? 0)%nat then true else worker0Taken s)
               (<[i := true]> (launched s)) (threads s ++ [i]) (ran s ++ [i])).

Definition launchFrom (first : nat) (s : lifecycle) : option lifecycle :=
  fold_left launch_one (seq first (nworkers s - first)) (Some s).

Definition makeScheduler (count : nat) (caller : bool) : option lifecycle :=
  launchFrom (if caller then 1%nat else 0%nat) (MkLifecycle count caller false (replicate (Z.to_nat kMaxWorkers) false) [] []).

Definition start (s : lifecycle) : option lifecycle := launchFrom 0 s.

Definition run (s : lifecycle) : string + lifecycle :=
  if negb (callerIsWorker s) then inl "stackfull: run() requires SchedulerOptions::callerIsWorker"%string
  else if worker0Taken s then inl "stackfull: run() called twice"%string
  else inr (MkLifecycle (nworkers s) (callerIsWorker s) true (launched s) (threads s) (ran s ++ [0%nat])).

(** ** The stall monitor *)

Record Sample := MkSample { switches : Z; since : Z; reported : bool }.

(** What the monitor reads of one worker. *)
Record observation := MkObs { o_now : Z; o_idle : bool; o_running : bool; o_switchCount : Z; o_yieldTick : Z }.

Definition o_switches (o : observation) : Z := wrap 32 (o_switchCount o + o_yieldTick o).
Definition quiet (o : observation) : bool := o_idle o || negb (o_running o).

Definition NS_PER_MS : Z := 1000000.

(** One worker in one scan; the duration that is reported, in milliseconds. *)
Definition scan_worker (threshold : Z) (s : Sample) (o : observation) : Sample * option Z :=
  if quiet o || negb (o_switches o =? switches s) || (since s =? 0) then (MkSample (o_switches o) (o_now o) false, None)
  else
    let stalled := Z.quot (o_now o - since s) NS_PER_MS in
    if negb (reported s) && (stalled >=? threshold) then (MkSample (switches s) (since s) true, Some stalled)
    else (s, None).

Definition fresh_sample : Sample := MkSample 0 0 false.

(** [watchForStalls] for one worker, scan after scan; every scan with what it reported. *)
Fixpoint watchForStalls (threshold : Z) (s : Sample) (os : list observation) : list (option Z) :=
  match os with
  | [] => []
  | o :: os' => let '(s', r) := scan_worker threshold s o in r :: watchForStalls threshold s' os'
  end.

(** The time between two scans, in milliseconds. *)
Definition scan_period (threshold : Z) : Z := if threshold >=? 2 then Z.quot threshold 2 else 1.

(** ** Buckets *)

Lemma clz_go_spec k v : 0 < v < 2 ^ Z.of_nat k -> clz_go k v = Z.of_nat k - 1 - Z.log2 v.
Proof.
  induction k as [|k IH]; intros Hv; [simpl in Hv; lia|]. cbn [clz_go]. destruct (Z.testbit v (Z.of_nat k)) eqn:Eb.
  - assert (2 ^ Z.of_nat k <= v) as Hge.
    { destruct (Z.le_gt_cases (2 ^ Z.of_nat k) v) as [|Hlt]; [done|]. rewrite Z.bits_above_log2 in Eb; [done|lia|].
      apply Z.log2_lt_pow2; lia. }
    rewrite Nat2Z.inj_succ in *. rewrite (Z.log2_unique v (Z.of_nat k)); [lia|lia|]. split; [done|]. apply Hv.
  - rewrite IH; [lia|]. split; [lia|]. destruct (Z.le_gt_cases (2 ^ Z.of_nat k) v) as [Hge|]; [|done]. exfalso.
    assert (Z.log2 v = Z.of_nat k) as El. { apply Z.log2_unique; [lia|]. rewrite Nat2Z.inj_succ in Hv. lia. }
    rewrite <- El, Z.bit_log2 in Eb by lia. done.
Qed.

Definition micros_of (nanos : Z) : Z := if nanos >? 0 then nanos / 1000 else 0.

Lemma bucket_log2 nanos :
  nanos < 2 ^ 63 -> wakeLatencyBucket nanos = if micros_of nanos <? 2 then 0 else Z.min (Z.log2 (micros_of nanos)) (kWakeLatencyBuckets - 1).
Proof.
  intros Hn. unfold wakeLatencyBucket. fold (micros_of nanos). assert (0 <= micros_of nanos < 2 ^ 63) as Hm.
  { unfold micros_of. zcase; [dlia|lia]. }
  zcase; [done|]. unfold clzll. rewrite clz_go_spec by (simpl Z.of_nat; lia). unfold kWakeLatencyBuckets. simpl Z.of_nat. zcase; lia.
Qed.

(** ** The counters *)

Lemma u64_add_l a b : u64 (u64 a + b) = u64 (a + b).
Proof. apply wrap_add_l. lia. Qed.

Definition zsum (f : worker_counters -> Z) (l : list worker_counters) : Z := fold_right (fun w acc => f w + acc) 0 l.

Lemma fold_u64 (f : worker_counters -> Z) l a : 0 <= a < 2 ^ 64 -> fold_left (fun acc w => u64 (acc + f w)) l a = u64 (a + zsum f l).
Proof.
  revert a. induction l as [|w l IH]; intros a Ha; simpl.
  - rewrite Z.add_0_r. symmetry. by apply wrap_small.
  - rewrite IH by (apply wrap_range; lia). rewrite u64_add_l. f_equal. lia.
Qed.

Lemma stats_fold l r :
  let r' := fold_left stats_worker l r in
  st_live r' = st_live r /\ st_timers r' = st_timers r /\
  st_spawned r' = fold_left (fun acc w => u64 (acc + tasksCreated w)) l (st_spawned r) /\
  st_finished r' = fold_left (fun acc w => u64 (acc + tasksFinished w)) l (st_finished r) /\
  st_workers r' = st_workers r ++ ((fun w => MkWorkerStats (tasksCreated w) (tasksFinished w) (sleeps w) (steals w) (yieldTick w)) <$> l) /\
  st_latency r' = fold_left (fun acc w => add_latency acc (wakeLatency w)) l (st_latency r).
Proof.
  cbv zeta. revert r. induction l as [|w l IH]; intros r; simpl; [by rewrite app_nil_r|].
  destruct (IH (stats_worker r w)) as (-> & -> & -> & -> & -> & ->). simpl. rewrite <- app_assoc. done.
Qed.

(** ** The monitor *)

Section monitor.
Context (threshold : Z).

Definition after (os : list observation) : Sample := fold_left (fun s o => (scan_worker threshold s o).1) os fresh_sample.
Notation reports os := (watchForStalls threshold fresh_sample os).

Lemma watch_app s os o : watchForStalls threshold s (os ++ [o]) = watchForStalls threshold s os ++ [(scan_worker threshold (fold_left (fun s o => (scan_worker threshold s o).1) os s) o).2].
Proof.
  revert s. induction os as [|x os IH]; intros s; simpl.
  - by destruct (scan_worker threshold s o).
  - destruct (scan_worker threshold s x) as [s' r] eqn:E. simpl. by rewrite IH.
Qed.

Lemma watch_length s os : length (watchForStalls threshold s os) = length os.
Proof. revert s. induction os as [|x os IH]; intros s; simpl; [done|]. destruct (scan_worker _ _ _). simpl. by rewrite IH. Qed.

Lemma watch_prefix s x os m : (m < length os + 1)%nat -> forall y, watchForStalls threshold s (os ++ x :: y) !! m = watchForStalls threshold s (os ++ [x]) !! m.
Proof.
  revert s m. induction os as [|o os IH]; intros s m Hm y; simpl; destruct (scan_worker threshold s _) as [s' r].
  - destruct m; [done|simpl in Hm; lia].
  - destruct m; [done|]. simpl in *. apply IH. lia.
Qed.

(** Since scan [j] the worker was seen busy with an unchanged count. *)
Definition unswitched (os : list observation) (j k : nat) (oj : observation) : Prop :=
  os !! j = Some oj /\ forall m o, (j < m <= k)%nat -> os !! m = Some o -> quiet o = false /\ o_switches o = o_switches oj.

(** The episode that scan [length os - 1] belongs to. *)
Record episode (os : list observation) (j : nat) (oj : observation) (s : Sample) : Prop := {
  ep_run : unswitched os j (length os - 1) oj;
  ep_switches : switches s = o_switches oj;
  ep_since : since s = o_now oj;
  ep_first : j = 0%nat \/ quiet oj = true \/ exists o', os !! (j - 1)%nat = Some o' /\ o_switches o' <> o_switches oj;
  ep_start : reports os !! j = Some None;
  ep_reported : reported s = true <-> exists m d, (j < m)%nat /\ reports os !! m = Some (Some d)
}.

Lemma scan_cases s o :
  (quiet o = true \/ o_switches o <> switches s \/ since s = 0) /\ scan_worker threshold s o = (MkSample (o_switches o) (o_now o) false, None) \/
  (quiet o = false /\ o_switches o = switches s /\ since s <> 0) /\
  (reported s = false /\ threshold <= Z.quot (o_now o - since s) NS_PER_MS /\
     scan_worker threshold s o = (MkSample (switches s) (since s) true, Some (Z.quot (o_now o - since s) NS_PER_MS)) \/
   (reported s = true \/ Z.quot (o_now o - since s) NS_PER_MS < threshold) /\ scan_worker threshold s o = (s, None)).
Proof.
  unfold scan_worker. destruct (quiet o); [left; split; [by left|done]|]. simpl.
  destruct (Z.eqb_spec (o_switches o) (switches s)); [|left; split; [by right; left|done]]. simpl.
  destruct (Z.eqb_spec (since s) 0); [left; split; [by right; right|done]|]. right. split; [done|].
  destruct (reported s) eqn:Er; simpl; [right; split; [by left|done]|]. zcase; [by left|right; split; [by right|done]].
Qed.

Lemma after_app os o : after (os ++ [o]) = (scan_worker threshold (after os) o).1.
Proof. unfold after. by rewrite fold_left_app. Qed.

Lemma reports_app os o : reports (os ++ [o]) = reports os ++ [(scan_worker threshold (after os) o).2].
Proof. apply watch_app. Qed.

(** The last scan of an episode saw its count. *)
Lemma episode_last os j oj s : episode os j oj s -> exists o', os !! (length os - 1)%nat = Some o' /\ o_switches o' = switches s.
Proof.
  intros [[Hj Hrun] Hsw _ _ _ _]. pose proof (lookup_lt_Some _ _ _ Hj). destruct (decide (j = length os - 1)%nat) as [<-|Hne]; [by exists oj|].
  destruct (lookup_lt_is_Some_2 os (length os - 1)) as [o' Ho']; [lia|]. exists o'. split; [done|]. rewrite Hsw. apply (Hrun (length os - 1)%nat); [lia|done].
Qed.

Lemma episode_reset os o :
  (os = [] \/ exists j oj, episode os j oj (after os) /\ o_now oj <> 0) ->
  scan_worker threshold (after os) o = (MkSample (o_switches o) (o_now o) false, None) ->
  quiet o = true \/ o_switches o <> switches (after os) \/ since (after os) = 0 ->
  episode (os ++ [o]) (length os) o (after (os ++ [o])).
Proof.
  intros Hos E Hwhy. rewrite after_app, E. split; simpl.
  - split; [by apply list_lookup_middle|]. intros m o' Hm. rewrite length_app in Hm. simpl in Hm. lia.
  - done.
  - done.
  - destruct Hos as [->|(j & oj & HE & Hnow)]; [by left|]. destruct (episode_last os j oj _ HE) as (o' & Ho' & Hs).
    destruct Hwhy as [?|[?|Hz]]; [by right; left| |by rewrite (ep_since _ _ _ _ HE) in Hz].
    right. right. exists o'. rewrite lookup_app_l by (by eapply lookup_lt_Some). split; [done|congruence].
  - rewrite reports_app, E. rewrite lookup_app_r by (by rewrite watch_length). by rewrite watch_length, Nat.sub_diag.
  - split; [done|]. intros (m & d & Hm & Hr). apply lookup_lt_Some in Hr. rewrite watch_length, length_app in Hr. simpl in Hr. lia.
Qed.

Lemma episode_goes_on os o j oj s' r :
  episode os j oj (after os) -> scan_worker threshold (after os) o = (s', r) ->
  quiet o = false -> o_switches o = switches (after os) ->
  switches s' = switches (after os) -> since s' = since (after os) -> (reported s' = true <-> reported (after os) = true \/ r <> None) ->
  episode (os ++ [o]) j oj (after (os ++ [o])).
Proof.
  intros HE E Hq Hs H1 H2 H3. pose proof HE as [[Hj Hrun] Hsw Hsi Hf Hst Hrep]. pose proof (lookup_lt_Some _ _ _ Hj) as Hjl. rewrite after_app, E. simpl. split.
  - split; [by rewrite lookup_app_l|]. intros m o' Hm Hl. rewrite length_app in Hm. simpl in Hm. apply lookup_app_Some in Hl as [Hl|[Hge Hl]].
    + apply (Hrun m); [|done]. apply lookup_lt_Some in Hl. lia.
    + apply list_lookup_singleton_Some in Hl as [_ <-]. split; [done|congruence].
  - congruence.
  - congruence.
  - destruct Hf as [?|[?|(o' & Ho' & ?)]]; [by left|by right; left|right; right]. exists o'. rewrite lookup_app_l by lia. done.
  - rewrite reports_app, lookup_app_l by (by rewrite watch_length). done.
  - rewrite H3, Hrep, reports_app, E. simpl. split.
    + intros [(m & d & Hm & Hr)|Hr].
      * exists m, d. split; [done|]. rewrite lookup_app_l; [done|]. by eapply lookup_lt_Some.
      * destruct r as [d|]; [|done]. exists (length os), d. split; [lia|]. rewrite lookup_app_r by (by rewrite watch_length). by rewrite watch_length, Nat.sub_diag.
    + intros (m & d & Hm & Hr). apply lookup_app_Some in Hr as [Hr|[_ Hr]]; [left; by exists m, d|right].
      apply list_lookup_singleton_Some in Hr as [_ ->]. done.
Qed.

Lemma episode_after os : os <> [] -> Forall (fun o => o_now o <> 0) os -> exists j oj, episode os j oj (after os) /\ o_now oj <> 0.
Proof.
  induction os as [|o os IH] using rev_ind; [done|]. intros _ Hn. apply Forall_app in Hn as [Hn Ho]. apply Forall_cons_1 in Ho as [Ho _].
  assert (os = [] \/ exists j oj, episode os j oj (after os) /\ o_now oj <> 0) as Hos by (destruct os; [by left|right; by apply IH]).
  destruct (scan_cases (after os) o) as [[Hwhy E]|[(Hq & Hs & Hz) Hrest]].
  - exists (length os), o. split; [|done]. by apply episode_reset.
  - destruct Hos as [->|(j & oj & HE & Hnow)]; [done|]. exists j, oj. split; [|done].
    destruct Hrest as [(Hr & _ & E)|[Hr E]]; (eapply episode_goes_on; [exact HE|exact E|done|done|done|done|]); simpl.
    + split; [intros _; by right|done].
    + split; [by left|]. by intros [?|?].
Qed.
End monitor.

(** ** Theorems *)

(** The bucket of a wake-up latency is the one the statistics document:
    0 for less than 2 microseconds, [i] for [2^i, 2^(i+1)) microseconds, and the
    last one for everything above. *)
Theorem wake_bucket_documented (nanos : Z) :
  nanos < 2 ^ 63 ->
  let us := micros_of nanos in
  0 <= wakeLatencyBucket nanos < kWakeLatencyBuckets /\
  (wakeLatencyBucket nanos = 0 <-> us < 2) /\
  (forall i, 1 <= i < kWakeLatencyBuckets - 1 -> wakeLatencyBucket nanos = i <-> 2 ^ i <= us < 2 ^ (i + 1)) /\
  (wakeLatencyBucket nanos = kWakeLatencyBuckets - 1 <-> 2 ^ (kWakeLatencyBuckets - 1) <= us).
Proof.
  intros Hn us. rewrite bucket_log2 by done. fold us. unfold kWakeLatencyBuckets. zcase.
  - splits; [lia|lia|lia| |].
    + intros i Hi. pose proof (Z.pow_le_mono_r 2 1 i). change (2 ^ 1) with 2 in *. split; lia.
    + split; [lia|]. intros. assert (2 ^ (24 - 1) = 8388608) by reflexivity. lia.
  - pose proof (Z.log2_spec us ltac:(lia)) as [H1 H2]. assert (1 <= Z.log2 us) as Hl. { apply Z.log2_le_pow2; lia. }
    splits; [lia|lia|lia| |].
    + intros i Hi. split.
      * intros E. assert (Z.log2 us = i) as <- by lia. done.
      * intros [? ?]. rewrite (Z.log2_unique us i); [lia|lia|done].
    + split.
      * intros E. etransitivity; [|exact H1]. apply Z.pow_le_mono_r; lia.
      * intros Hge. apply Z.log2_le_pow2 in Hge; lia.
Qed.

(** The totals of [stats] agree with each other: spawned minus finished
    (in 64-bit arithmetic) is the number of live tasks, and the totals are the
    sums of the counters. *)
Theorem stats_consistent (c : core_counters) :
  0 <= foreignCreated c < 2 ^ 64 -> 0 <= foreignFinished c < 2 ^ 64 ->
  st_live (stats c) = u64 (st_spawned (stats c) - st_finished (stats c)) /\
  st_spawned (stats c) = u64 (foreignCreated c + zsum tasksCreated (workers c)) /\
  st_finished (stats c) = u64 (foreignFinished c + zsum tasksFinished (workers c)) /\
  length (st_workers (stats c)) = length (workers c).
Proof.
  intros H1 H2. unfold stats. destruct (stats_fold (workers c) (MkStats (liveTasks c) (foreignCreated c) (foreignFinished c) (timersFired c) []
    (replicate (Z.to_nat kWakeLatencyBuckets) 0))) as (-> & _ & -> & -> & -> & _). cbn [st_live st_spawned st_finished st_workers].
  unfold liveTasks. rewrite !fold_u64 by done. splits; [done..|]. by rewrite length_app, length_fmap.
Qed.

(** Every stall report is justified and made once: since some earlier scan
    the worker was seen busy at every scan with an unchanged switch count, for at
    least the threshold, and nothing was reported in between. *)
Theorem stall_reported_once (threshold : Z) (os : list observation) k d :
  Forall (fun o => o_now o <> 0) os -> watchForStalls threshold fresh_sample os !! k = Some (Some d) ->
  exists j oj ok, (j < k)%nat /\ os !! k = Some ok /\ unswitched os j k oj /\
    threshold <= d /\ d = Z.quot (o_now ok - o_now oj) NS_PER_MS /\
    forall m, (j <= m < k)%nat -> watchForStalls threshold fresh_sample os !! m = Some None.
Proof.
  intros Hn Hk. pose proof (lookup_lt_Some _ _ _ Hk) as Hlt. rewrite watch_length in Hlt. destruct (lookup_lt_is_Some_2 os k Hlt) as [ok Hok].
  rewrite <- (take_drop_middle os k ok Hok) in Hn. apply Forall_app in Hn as [Hn _].
  assert (Hpre : forall m, (m <= k)%nat -> watchForStalls threshold fresh_sample os !! m = watchForStalls threshold fresh_sample (take k os ++ [ok]) !! m).
  { intros m Hm. rewrite <- (take_drop_middle os k ok Hok) at 1. apply watch_prefix. rewrite length_take. lia. }
  rewrite Hpre, reports_app, lookup_app_r in Hk by (rewrite ?watch_length, ?length_take; lia).
  rewrite watch_length, length_take, Nat.min_l, Nat.sub_diag in Hk by lia. simpl in Hk.
  destruct (scan_cases threshold (after threshold (take k os)) ok) as [[_ E]|[(Hq & Hs & Hz) [(Hr & Ht & E)|[_ E]]]]; rewrite E in Hk; [done| |done].
  injection Hk as <-.
  destruct (decide (take k os = [])) as [Enil|Hne]; [by rewrite Enil in Hz|].
  destruct (episode_after threshold (take k os) Hne Hn) as (j & oj & HE & _). pose proof HE as [[Hj Hrun] Hsw Hsi _ Hst Hrep].
  pose proof (lookup_lt_Some _ _ _ Hj) as Hjl. rewrite length_take in *. exists j, oj, ok. rewrite Hsi in *. splits; [lia|done| |done|done|].
  - split; [by rewrite lookup_take_lt in Hj by lia|]. intros m o Hm Ho. destruct (decide (m = k)) as [->|Hmk].
    + rewrite Ho in Hok. injection Hok as ->. split; [done|congruence].
    + apply (Hrun m); [lia|]. by rewrite lookup_take_lt by lia.
  - intros m Hm. rewrite Hpre, reports_app, lookup_app_l by (rewrite ?watch_length, ?length_take; lia).
    destruct (decide (m = j)) as [->|Hmj]; [done|]. destruct (lookup_lt_is_Some_2 (watchForStalls threshold fresh_sample (take k os)) m) as [[d|] Hd]; [rewrite watch_length, length_take; lia| |done].
    exfalso. assert (reported (after threshold (take k os)) = true) as H by (apply Hrep; exists m, d; split; [lia|done]). congruence.
Qed.

(** A stall is found: when a worker was seen busy with an unchanged switch
    count at every scan over at least the threshold, it has been reported by the
    last of them, and the report belongs to this episode. *)
Theorem stall_found (threshold : Z) (os : list observation) j oj ok :
  Forall (fun o => 0 < o_now o) os -> (forall a b x y, (a <= b)%nat -> os !! a = Some x -> os !! b = Some y -> o_now x <= o_now y) ->
  (j < length os - 1)%nat -> unswitched os j (length os - 1) oj -> os !! (length os - 1)%nat = Some ok ->
  threshold <= Z.quot (o_now ok - o_now oj) NS_PER_MS ->
  exists m d j' oj', (j' < m <= length os - 1)%nat /\ unswitched os j' (length os - 1) oj' /\ watchForStalls threshold fresh_sample os !! m = Some (Some d).
Proof.
  intros Hpos Hmono Hj [Hoj Hrun] Hok Ht.
  assert (Hn : Forall (fun o => o_now o <> 0) os) by (eapply list.Forall_impl; [exact Hpos|]; simpl; lia).
  assert (Hos : os = take (length os - 1) os ++ [ok]).
  { rewrite <- (take_drop_middle os _ ok Hok) at 1. rewrite drop_ge by lia. done. }
  set (pre := take (length os - 1) os) in *. assert (Hlen : length pre = (length os - 1)%nat) by (unfold pre; rewrite length_take; lia).
  assert (Hlk : forall m, (m < length os - 1)%nat -> pre !! m = os !! m) by (intros m Hm; unfold pre; by rewrite lookup_take_lt).
  assert (Hnp : Forall (fun o => o_now o <> 0) pre) by (rewrite Hos in Hn; by apply Forall_app in Hn as [? _]).
  destruct (episode_after threshold pre) as (j' & oj' & HE & Hnz); [intros E; rewrite E in Hlen; simpl in Hlen; lia|done|].
  pose proof HE as [[Hj' Hrun'] Hsw Hsi Hf Hst Hrep]. pose proof (lookup_lt_Some _ _ _ Hj') as Hjl. rewrite Hlen in *.
  assert (j' <= j)%nat as Hle.
  { destruct (Nat.le_gt_cases j' j) as [|Hgt]; [done|]. exfalso. rewrite Hlk in Hj' by lia. destruct (Hrun j' oj' ltac:(lia) Hj') as [Q1 Q2].
    destruct Hf as [?|[?|(o' & Ho' & Hd)]]; [lia|congruence|]. rewrite Hlk in Ho' by lia. apply Hd. rewrite Q2.
    destruct (decide (j' - 1 = j)%nat) as [E|Hne]; [rewrite E, Hoj in Ho'; congruence|]. apply (Hrun (j' - 1)%nat); [lia|done]. }
  assert (Hsame : o_switches oj = o_switches oj').
  { destruct (decide (j = j')) as [E|Hne]; [subst j'; rewrite Hlk in Hj' by lia; congruence|]. apply (Hrun' j); [lia|by rewrite Hlk by lia]. }
  destruct (Hrun (length os - 1)%nat ok ltac:(lia) Hok) as [Q1 Q2].
  assert (Hun : unswitched os j' (length os - 1) oj').
  { split; [by rewrite <- Hlk by lia|]. intros m o Hm Ho. destruct (decide (m = length os - 1)%nat) as [->|Hml].
    - rewrite Ho in Hok. injection Hok as ->. split; [done|congruence].
    - apply (Hrun' m); [lia|by rewrite Hlk by lia]. }
  assert (Hrr : watchForStalls threshold fresh_sample os = watchForStalls threshold fresh_sample pre ++ [(scan_worker threshold (after threshold pre) ok).2])
    by (rewrite Hos at 1; apply reports_app).
  assert (threshold <= Z.quot (o_now ok - since (after threshold pre)) NS_PER_MS) as Ht'.
  { rewrite Hsi. etransitivity; [exact Ht|]. apply Z.quot_le_mono; [unfold NS_PER_MS; lia|]. rewrite Hlk in Hj' by lia.
    pose proof (Hmono j' j oj' oj Hle Hj' Hoj). lia. }
  destruct (scan_cases threshold (after threshold pre) ok) as [[Hwhy _]|[_ [(_ & _ & E)|[Hr _]]]].
  - exfalso. destruct Hwhy as [?|[?|?]]; congruence.
  - eexists (length os - 1)%nat, _, j', oj'. splits; [lia|lia|exact Hun|]. rewrite Hrr, E, lookup_app_r by (rewrite watch_length; lia).
    rewrite watch_length, Hlen, Nat.sub_diag. reflexivity.
  - destruct Hr as [Hr|Hr]; [|lia]. apply Hrep in Hr as (m & d & Hm & Hd). pose proof (lookup_lt_Some _ _ _ Hd) as Hml. rewrite watch_length, Hlen in Hml.
    exists m, d, j', oj'. splits; [lia|lia|exact Hun|]. rewrite Hrr, lookup_app_l; [done|]. rewrite watch_length. lia.
Qed.

(** The time before the first busy scan counts towards the stall: a worker
    that was idle one period earlier is reported after running its task for less
    than the threshold. *)
Theorem stall_reported_early :
  exists os o0 o1 o2, os = [o0; o1; o2] /\ quiet o0 = true /\
    o_now o1 - o_now o0 = scan_period 100 * NS_PER_MS /\ o_now o2 - o_now o1 = scan_period 100 * NS_PER_MS /\
    o_now o2 - o_now o1 < 100 * NS_PER_MS /\
    watchForStalls 100 fresh_sample os = [None; None; Some 100].
Proof.
  eexists _, (MkObs 1000000000 true true 7 0), (MkObs 1050000000 false true 7 0), (MkObs 1100000000 false true 7 0). splits; reflexivity.
Qed.

(** ** Who runs which worker: proof *)

Record lifecycle_ok (s : lifecycle) : Prop := {
  lo_max : (nworkers s <= 64)%nat;
  lo_len : length (launched s) = 64%nat;
  lo_once : NoDup (ran s);
  lo_range : forall i, i ∈ ran s -> (i < nworkers s)%nat;
  lo_zero : 0%nat ∈ ran s <-> worker0Taken s = true;
  lo_rest : forall i, i <> 0%nat -> i ∈ ran s <-> launched s !! i = Some true;
  lo_first : launched s !! 0%nat = Some true -> worker0Taken s = true
}.

(** What a launch leaves as it is. *)
Definition grows (s s' : lifecycle) : Prop :=
  nworkers s' = nworkers s /\ callerIsWorker s' = callerIsWorker s /\ forall i, i ∈ ran s -> i ∈ ran s'.

Lemma launch_one_ok s i :
  lifecycle_ok s -> (i < nworkers s)%nat -> exists s', launch_one (Some s) i = Some s' /\ lifecycle_ok s' /\ grows s s' /\ i ∈ ran s'.
Proof.
  intros Hok Hi. pose proof Hok as [O1 O2 O3 O4 O5 O6 O7]. destruct (lookup_lt_is_Some_2 (launched s) i) as [l Hl]; [lia|].
  unfold launch_one. simpl. rewrite Hl. simpl. destruct l.
  { exists s. splits; try done. destruct (decide (i = 0%nat)) as [->|]; [by apply O5, O7|by apply O6]. }
  destruct (Nat.eqb_spec i 0) as [->|Hne]; simpl.
  - destruct (worker0Taken s) eqn:E0; simpl.
    { exists s. splits; try done. by apply O5. }
    eexists. splits; [reflexivity| |split; [done|split; [done|simpl; set_solver]]|simpl; set_solver].
    split; simpl; [done|by rewrite length_insert| | | | |done].
    + apply NoDup_app. splits; [done| |apply NoDup_singleton]. intros x Hx ->%list_elem_of_singleton. apply O5 in Hx. done.
    + intros i Hx. apply elem_of_app in Hx as [?| ->%list_elem_of_singleton]; [auto|done].
    + set_solver.
    + intros i Hne. rewrite list_lookup_insert_ne by done. rewrite <- O6 by done. set_solver.
  - eexists. splits; [reflexivity| |split; [done|split; [done|simpl; set_solver]]|simpl; set_solver].
    assert (i ∉ ran s) as Hni by (rewrite O6 by done; congruence).
    split; simpl; [done|by rewrite length_insert| | | | |].
    + apply NoDup_app. splits; [done| |apply NoDup_singleton]. intros x Hx ->%list_elem_of_singleton. done.
    + intros j Hx. apply elem_of_app in Hx as [?| ->%list_elem_of_singleton]; [auto|done].
    + rewrite <- O5. set_solver.
    + intros j Hj. destruct (decide (j = i)) as [->|Hji]; [rewrite list_lookup_insert_eq by lia; set_solver|].
      rewrite list_lookup_insert_ne by done. rewrite <- O6 by done. set_solver.
    + by rewrite list_lookup_insert_ne.
Qed.

Lemma launch_all_ok l s :
  lifecycle_ok s -> (forall i, i ∈ l -> (i < nworkers s)%nat) ->
  exists s', fold_left launch_one l (Some s) = Some s' /\ lifecycle_ok s' /\ grows s s' /\ forall i, i ∈ l -> i ∈ ran s'.
Proof.
  revert s. induction l as [|i l IH]; intros s Hok Hl; [exists s; splits; try done; set_solver|].
  destruct (launch_one_ok s i Hok) as (s1 & E & Hok1 & (G1 & G2 & G3) & Hi); [apply Hl; left|].
  change (fold_left launch_one (i :: l) (Some s)) with (fold_left launch_one l (launch_one (Some s) i)). rewrite E.
  destruct (IH s1 Hok1) as (s' & E' & Hok' & (G1' & G2' & G3') & Hl'); [intros j Hj; rewrite G1; apply Hl; by right|].
  exists s'. splits; [done|done|split; [congruence|split; [congruence|auto]]|]. intros j Hj. apply elem_of_cons in Hj as [->|Hj]; auto.
Qed.

Lemma launchFrom_ok first s :
  lifecycle_ok s -> exists s', launchFrom first s = Some s' /\ lifecycle_ok s' /\ grows s s' /\ forall i, (first <= i < nworkers s)%nat -> i ∈ ran s'.
Proof.
  intros Hok. unfold launchFrom. destruct (launch_all_ok (seq first (nworkers s - first)) s Hok) as (s' & E & ? & ? & Hl).
  { intros i Hi%elem_of_seq. lia. }
  exists s'. splits; try done. intros i Hi. apply Hl, elem_of_seq. lia.
Qed.

Lemma new_lifecycle_ok count caller : (count <= 64)%nat -> lifecycle_ok (MkLifecycle count caller false (replicate (Z.to_nat kMaxWorkers) false) [] []).
Proof.
  intros Hc. split; cbn [nworkers launched ran worker0Taken]; [done|done|constructor|set_solver|set_solver| |].
  - intros i Hi. split; [set_solver|]. intros H. by apply lookup_replicate in H as [? _].
  - intros H. by apply lookup_replicate in H as [? _].
Qed.

(** [start] and [run], by any thread in any order; a failed check ends the process. *)
Inductive lifecycle_step : lifecycle -> lifecycle -> Prop :=
| step_start s s' : start s = Some s' -> lifecycle_step s s'
| step_run s s' : run s = inr s' -> lifecycle_step s s'.

Lemma lifecycle_step_ok s s' : lifecycle_ok s -> (0 < nworkers s)%nat -> lifecycle_step s s' -> lifecycle_ok s' /\ grows s s'.
Proof.
  intros Hok Hn Hstep. destruct Hstep as [s s' E|s s' E].
  - unfold start in E. destruct (launchFrom_ok 0 s Hok) as (s1 & E1 & ? & ? & _). rewrite E1 in E. injection E as <-. done.
  - unfold run in E. destruct (callerIsWorker s) eqn:Ec; [|done]. simpl in E. destruct (worker0Taken s) eqn:E0; [done|]. injection E as <-.
    pose proof Hok as [O1 O2 O3 O4 O5 O6 O7]. split; [|split; [done|split; [done|simpl; set_solver]]]. split; simpl; [done|done| | |set_solver| |done].
    + apply NoDup_app. splits; [done| |apply NoDup_singleton]. intros x Hx ->%list_elem_of_singleton. apply O5 in Hx. congruence.
    + intros i Hx. apply elem_of_app in Hx as [?| ->%list_elem_of_singleton]; [auto|done].
    + intros i Hi. rewrite <- O6 by done. set_solver.
Qed.

(** A scheduler with 1 to 64 workers: whatever sequence of [start] and
    [run] follows, no worker is entered twice, the background workers all run
    from the start, all workers run unless the caller was to be one, and after
    [start] all of them do; no launch goes outside the arrays. *)
Theorem workers_run_once (count : nat) (caller : bool) :
  (1 <= count <= 64)%nat ->
  exists s0, makeScheduler count caller = Some s0 /\
    forall s, rtc lifecycle_step s0 s ->
      NoDup (ran s) /\ (forall i, i ∈ ran s -> (i < count)%nat) /\
      (forall i, (1 <= i < count)%nat -> i ∈ ran s) /\ (caller = false -> 0%nat ∈ ran s) /\
      (exists s', start s = Some s' /\ forall i, (i < count)%nat -> i ∈ ran s').
Proof.
  intros Hc. destruct (launchFrom_ok (if caller then 1%nat else 0%nat) _ (new_lifecycle_ok count caller ltac:(lia))) as (s0 & E & Hok & (G1 & G2 & _) & Hl).
  simpl in G1, G2, Hl. exists s0. split; [exact E|]. intros s Hr.
  assert (lifecycle_ok s /\ grows s0 s) as [Hoks (H1 & _ & H3)].
  { clear Hl E. revert Hok G1. induction Hr as [|x y z Hxy _ IH]; intros Hok G1; [done|].
    destruct (lifecycle_step_ok x y Hok ltac:(lia) Hxy) as [Hoky (Y1 & Y2 & Y3)].
    destruct IH as [? (Z1 & Z2 & Z3)]; [congruence|done|congruence|]. split; [done|]. split; [congruence|split; [congruence|auto]]. }
  splits; [apply Hoks|intros i Hi; rewrite <- G1, <- H1; by apply (lo_range s Hoks)| | |].
  - intros i Hi. apply H3, Hl. destruct caller; lia.
  - intros ->. apply H3, Hl. lia.
  - destruct (launchFrom_ok 0 s Hoks) as (s' & E' & _ & _ & Hl'). exists s'. split; [exact E'|]. intros i Hi. apply Hl'. lia.
Qed.

(** *** Witnesses *)

Lemma wake_bucket_documented_witness : 0 <= wakeLatencyBucket 5000 < kWakeLatencyBuckets.
Proof. apply (wake_bucket_documented 5000). lia. Defined.

Definition demo_core : core_counters := MkCore 3 1 0 [MkCounters 5 2 0 0 0 (replicate 24 0)].
Lemma stats_consistent_witness : st_live (stats demo_core) = u64 (st_spawned (stats demo_core) - st_finished (stats demo_core)).
Proof. apply (stats_consistent demo_core); vm_compute; done. Defined.

Definition demo_scans : list observation := [MkObs 1000000000 false true 7 0; MkObs 1050000000 false true 7 0; MkObs 1100000000 false true 7 0; MkObs 1150000000 false true 7 0].
Lemma stall_reported_once_witness : exists j oj ok, (j < 2)%nat /\ demo_scans !! 2%nat = Some ok /\ unswitched demo_scans j 2 oj.
Proof.
  destruct (stall_reported_once 100 demo_scans 2 100) as (j & oj & ok & H1 & H2 & H3 & _); [repeat constructor; discriminate|reflexivity|].
  by exists j, oj, ok.
Defined.

Lemma demo_unswitched : unswitched demo_scans 0 3 (MkObs 1000000000 false true 7 0).
Proof. split; [done|]. intros m o Hm Ho. destruct m as [|[|[|[|m]]]]; [lia|injection Ho as <-; done..|lia]. Qed.

Lemma demo_clock : forall a b x y, (a <= b)%nat -> demo_scans !! a = Some x -> demo_scans !! b = Some y -> o_now x <= o_now y.
Proof.
  intros a b x y Hab Hx Hy. destruct a as [|[|[|[|a]]]]; [injection Hx as <-..|done]; (destruct b as [|[|[|[|b]]]]; [injection Hy as <-..|done]); simpl; lia.
Qed.

Lemma stall_found_witness : exists m d, watchForStalls 100 fresh_sample demo_scans !! m = Some (Some d).
Proof.
  destruct (stall_found 100 demo_scans 0 (MkObs 1000000000 false true 7 0) (MkObs 1150000000 false true 7 0)) as (m & d & _ & _ & _ & _ & H);
    [repeat constructor|apply demo_clock|simpl; lia|apply demo_unswitched|reflexivity|vm_compute; discriminate|]. by exists m, d.
Defined.

Lemma workers_run_once_witness : exists s0, makeScheduler 4 true = Some s0 /\ NoDup (ran s0).
Proof.
  destruct (workers_run_once 4 true) as (s0 & E & H); [lia|]. exists s0. split; [exact E|]. apply (H s0). apply rtc_refl.
Defined.
