(* ===== verification/Coro.v ===== *)
(** * Coro: coroutines and the switch between them

    The coroutine layer: [Coroutine] (coro/Coroutine.h, coro/src/Coroutine.cpp),
    the switch path (coro/detail/Switch.h) and the life cycle
    (coro/src/Lifecycle.cpp), with exceptions enabled.

    A context is a number: [t] below the number of threads is the native context
    of thread [t], the others are coroutines.  What the assembly of fcontext
    saves and restores is a continuation: [fctx] of a context that is not running
    says where it goes on, and the code that runs is the one of [current].  User
    code is a tree of calls into the library ([body]); [released] marks a stack
    that went back to its allocator, and touching a block on it is an error.

    [ownEh] is what each context last put into its thread's exception globals;
    it is never read by the code. *)

From Stdlib Require Import ZArith Lia.
From stdpp Require Import base tactics list numbers option strings functions relations.
From S2P Require Import Prelude.

Inductive CoroutineState := Created | Running | Suspended | Done.
#[global] Instance CoroutineState_eq_dec : EqDecision CoroutineState.
Proof. solve_decision. Defined.

(** How a call into the library comes back: normally, with an exception that
    escaped a coroutine, or with [ForcedUnwind]. *)
Inductive signal := SNormal | SThrow (e : nat) | SForced.

(** What user code does next. *)
Inductive body :=
| BReturn
| BThrow (e : nat)
| BUnwind
| BYield (k : signal -> body)
| BResume (h : nat) (k : signal -> body)
| BMake (b : body) (k : option nat -> body)
| BDestroy (h : nat) (k : body)
| BRequestStop (h : nat) (k : body)
| BStopRequested (k : bool -> body)
| BIsInside (k : bool -> body)
| BCatch (eh : nat) (k : body).

(** Where a context goes on: at its entry, after the jump in [yield], after the
    one in [resume], after the one in [unwindSuspended], or after the last one. *)
Inductive kont :=
| KEntry (b : body)
| KYield (k : signal -> body)
| KResume (h : nat) (k : signal -> body)
| KUnwind (h : nat) (k : body)
| KFinished.

Record ContextBlock := MkBlock {
  fctx : kont;
  thread : nat;
  resumer : nat;
  entry : bool;
  state : CoroutineState;
  stopRequested : bool;
  exception : option nat;
  ehGlobals : nat;
  released : bool
}.

Record machine := MkMachine {
  nthreads : nat;
  blocks : nat -> option ContextBlock;
  next : nat;
  current : nat -> nat;
  liveEh : nat -> nat;
  code : nat -> option body;
  ownEh : nat -> nat
}.

Definition set_fctx v b := MkBlock v (thread b) (resumer b) (entry b) (state b) (stopRequested b) (exception b) (ehGlobals b) (released b).
Definition set_thread v b := MkBlock (fctx b) v (resumer b) (entry b) (state b) (stopRequested b) (exception b) (ehGlobals b) (released b).
Definition set_resumer v b := MkBlock (fctx b) (thread b) v (entry b) (state b) (stopRequested b) (exception b) (ehGlobals b) (released b).
Definition set_entry v b := MkBlock (fctx b) (thread b) (resumer b) v (state b) (stopRequested b) (exception b) (ehGlobals b) (released b).
Definition set_state v b := MkBlock (fctx b) (thread b) (resumer b) (entry b) v (stopRequested b) (exception b) (ehGlobals b) (released b).
Definition set_stop v b := MkBlock (fctx b) (thread b) (resumer b) (entry b) (state b) v (exception b) (ehGlobals b) (released b).
Definition set_exception v b := MkBlock (fctx b) (thread b) (resumer b) (entry b) (state b) (stopRequested b) v (ehGlobals b) (released b).
Definition set_eh v b := MkBlock (fctx b) (thread b) (resumer b) (entry b) (state b) (stopRequested b) (exception b) v (released b).
Definition set_released v b := MkBlock (fctx b) (thread b) (resumer b) (entry b) (state b) (stopRequested b) (exception b) (ehGlobals b) v.

Definition with_blocks v m := MkMachine (nthreads m) v (next m) (current m) (liveEh m) (code m) (ownEh m).
Definition with_current v m := MkMachine (nthreads m) (blocks m) (next m) v (liveEh m) (code m) (ownEh m).
Definition with_liveEh v m := MkMachine (nthreads m) (blocks m) (next m) (current m) v (code m) (ownEh m).
Definition with_code v m := MkMachine (nthreads m) (blocks m) (next m) (current m) (liveEh m) v (ownEh m).
Definition with_ownEh v m := MkMachine (nthreads m) (blocks m) (next m) (current m) (liveEh m) (code m) v.

(** ** Errors *)

Notation res := (sum string).
Definition then_ {A B} (x : res A) (f : A -> res B) : res B := match x with inl e => inl e | inr a => f a end.
Notation "x <-? p ;; q" := (then_ p (fun x => q)) (at level 100, p at next level, right associativity).

Definition check (b : bool) (msg : string) : res unit := if b then inr tt else inl msg.

(** A block is read or written while its stack is there. *)
Definition get (m : machine) (c : nat) : res ContextBlock :=
  match blocks m c with
  | Some b => if released b then inl "use after free"%string else inr b
  | None => inl "use after free"%string
  end.
Definition put (c : nat) (b : ContextBlock) (m : machine) : machine := with_blocks (<[c := Some b]> (blocks m)) m.
Definition upd (c : nat) (f : ContextBlock -> ContextBlock) (m : machine) : res machine := b <-? get m c;; inr (put c (f b) m).

Definition isNativeContext (m : machine) (c : nat) : bool := (c <? nthreads m)%nat.

(** ** The switch *)

(** [from.thread->current = &to], and the two states. *)
Definition prepareDeparture (from to : nat) (fromState : CoroutineState) (m : machine) : res machine :=
  b <-? get m from;;
  m <-? inr (with_current (<[thread b := to]> (current m)) m);;
  m <-? upd from (set_state fromState) m;;
  upd to (set_state Running) m.

Definition swapEhGlobals (t prev self : nat) (m : machine) : res machine :=
  m <-? upd prev (set_eh (liveEh m t)) m;;
  s <-? get m self;;
  inr (with_liveEh (<[t := ehGlobals s]> (liveEh m)) m).

(** [saved] is the context of [prev] that the jump hands over. *)
Definition onArrival (self prev : nat) (saved : kont) (m : machine) : res machine :=
  m <-? upd prev (set_fctx saved) m;;
  p <-? get m prev;;
  m <-? upd self (set_thread (thread p)) m;;
  swapEhGlobals (thread p) prev self m.

Definition destroyEntry (c : nat) (m : machine) : res machine := upd c (set_entry false) m.

Definition releaseStack (c : nat) (m : machine) : res machine := upd c (set_released true) m.

(** The code of thread [t] goes on with [b]. *)
Definition go_on (t : nat) (b : body) (m : machine) : machine := with_code (<[t := Some b]> (code m)) m.

(** The exception is moved out of the block. *)
Definition rethrowEscaped (h : nat) (m : machine) : res machine := upd h (set_exception None) m.

(** After the jump into [self]: what stands behind its own jump, or the
    function that [ontop] runs there ([how = SForced]). *)
Definition continue_ (self : nat) (k : kont) (how : signal) (m : machine) : res machine :=
  s <-? get m self;;
  match k with
  | KEntry b => match how with SForced => inl "unwinding a context that never ran"%string | _ => inr (go_on (thread s) b m) end
  | KYield k => inr (go_on (thread s) (k how) m)
  | KResume h k =>
      match how with
      | SForced => inr (go_on (thread s) (k SForced) m)
      | _ =>
          b <-? get m h;;
          match exception b with
          | Some e => m <-? rethrowEscaped h m;; inr (go_on (thread s) (k (SThrow e)) m)
          | None => inr (go_on (thread s) (k SNormal) m)
          end
      end
  | KUnwind h k =>
      match how with
      | SForced => inl "terminate: exception out of a destructor"%string
      | _ =>
          m <-? upd h (set_exception None) m;;
          m <-? releaseStack h m;;
          inr (go_on (thread s) k m)
      end
  | KFinished => inl "stackfull: a finished coroutine was resumed"%string
  end.

Definition jump (from to : nat) (saved : kont) (how : signal) (m : machine) : res machine :=
  b <-? get m to;;
  let k := fctx b in
  m <-? onArrival to from saved m;;
  continue_ to k how m.

Definition switchTo (from to : nat) (saved : kont) (m : machine) : res machine :=
  m <-? prepareDeparture from to Suspended m;;
  jump from to saved SNormal m.

Definition switchToOnTop (from to : nat) (saved : kont) (m : machine) : res machine :=
  m <-? prepareDeparture from to Suspended m;;
  jump from to saved SForced m.

Definition finishAndSwitchTo (from to : nat) (m : machine) : res machine :=
  m <-? prepareDeparture from to Done m;;
  jump from to KFinished SNormal m.

(** ** Handles *)

Definition resume (from h : nat) (k : signal -> body) (m : machine) : res machine :=
  b <-? get m h;;
  _ <-? check (bool_decide (state b = Created \/ state b = Suspended)) "stackfull: resume() requires a Created or Suspended coroutine"%string;;
  m <-? upd h (set_resumer from) m;;
  switchTo from h (KResume h k) m.

Definition yield (self : nat) (k : signal -> body) (m : machine) : res machine :=
  _ <-? check (negb (isNativeContext m self)) "stackfull: yield() outside a coroutine"%string;;
  b <-? get m self;;
  switchTo self (resumer b) (KYield k) m.

(** [runBody] from the end of the body on; [escaped] is what it threw, other
    than [ForcedUnwind]. *)
Definition runBody (self : nat) (escaped : option nat) (m : machine) : res machine :=
  m <-? (match escaped with Some e => upd self (set_exception (Some e)) m | None => inr m end);;
  destroyEntry self m.

(** The rest of [contextEntry]. *)
Definition contextEntry (self : nat) (escaped : option nat) (m : machine) : res machine :=
  m <-? runBody self escaped m;;
  b <-? get m self;;
  finishAndSwitchTo self (resumer b) m.

(** [makeCoroutine] when the stack was allocated and the records fit. *)
Definition makeCoroutine (b : body) (m : machine) : machine * nat :=
  let c := next m in
  (MkMachine (nthreads m) (<[c := Some (MkBlock (KEntry b) 0 0 true Created false None 0 false)]> (blocks m)) (S c)
     (current m) (liveEh m) (code m) (<[c := 0%nat]> (ownEh m)), c).

Definition unwindSuspended (from h : nat) (k : body) (m : machine) : res machine :=
  _ <-? check (negb (from =? h)%nat) "stackfull: a coroutine cannot destroy itself"%string;;
  m <-? upd h (set_resumer from) m;;
  switchToOnTop from h (KUnwind h k) m.

(** [~Coroutine]; [k] is what [from] does after it. *)
Definition destroyBlock (t from h : nat) (k : body) (m : machine) : res machine :=
  b <-? get m h;;
  match state b with
  | Running => inl "stackfull: destroying a running coroutine"%string
  | Suspended => unwindSuspended from h k m
  | Created => m <-? destroyEntry h m;; m <-? releaseStack h m;; inr (go_on t k m)
  | Done => m <-? releaseStack h m;; inr (go_on t k m)
  end.

(** ** One call of the code that runs on thread [t]

    [fits] says whether a stack can be allocated.  A thread whose native code
    has returned is over. *)

Definition step (fits : bool) (t : nat) (m : machine) : option (res machine) :=
  let self := current m t in
  b ← code m t;
  Some (match b with
  | BReturn => if isNativeContext m self then inr (with_code (<[t := None]> (code m)) m) else contextEntry self None m
  | BThrow e => if isNativeContext m self then inl "terminate: uncaught exception"%string else contextEntry self (Some e) m
  | BUnwind => if isNativeContext m self then inl "terminate: uncaught exception"%string else contextEntry self None m
  | BYield k => yield self k m
  | BResume h k => resume self h k m
  | BMake body k => if fits then let '(m', c) := makeCoroutine body m in inr (go_on t (k (Some c)) m') else inr (go_on t (k None) m)
  | BDestroy h k => destroyBlock t self h k m
  | BRequestStop h k => m' <-? upd h (set_stop true) m;; inr (go_on t k m')
  | BStopRequested k => s <-? get m self;; inr (go_on t (k (stopRequested s)) m)
  | BIsInside k => inr (go_on t (k (negb (isNativeContext m self))) m)
  | BCatch eh k => inr (go_on t k (with_ownEh (<[self := eh]> (ownEh m)) (with_liveEh (<[t := eh]> (liveEh m)) m)))
  end).

Definition native_block (t : nat) : ContextBlock := MkBlock KFinished t 0 false Running false None 0 false.

(** One native context per thread, running its program. *)
Definition new_machine (progs : list body) : machine :=
  let n := length progs in
  MkMachine n (fun c => if (c <? n)%nat then Some (native_block c) else None) n (fun t => t) (fun _ => 0%nat) (fun t => progs !! t) (fun _ => 0%nat).
