(* ===== verification/CoroSpec.v ===== *)
(** * Coro: nesting, exactly-once destruction, exception globals

    The ghost [ch t] lists the contexts that thread [t] is in: the one that
    runs, the one that resumed it, and so on down to the native context. *)

From Stdlib Require Import ZArith Lia.
From stdpp Require Import base tactics list numbers option strings functions relations.
From S2P Require Import Prelude Coro.

(** ** Access to live blocks *)

Definition live (m : machine) (c : nat) (b : ContextBlock) : Prop := blocks m c = Some b /\ released b = false.

Lemma get_live m c b : live m c b -> get m c = inr b.
Proof. intros [H1 H2]. unfold get. by rewrite H1, H2. Qed.

Lemma upd_live m c b f : live m c b -> upd c f m = inr (put c (f b) m).
Proof. intros H. unfold upd. by rewrite (get_live m c b H). Qed.

Lemma get_inv m c b : get m c = inr b -> live m c b.
Proof. unfold get, live. destruct (blocks m c) as [b'|]; [|done]. destruct (released b') eqn:E; [done|]. intros [= <-]. done. Qed.

Lemma put_eq m c b : blocks (put c b m) c = Some b.
Proof. apply fn_lookup_insert. Qed.
Lemma put_ne m c x b : x <> c -> blocks (put c b m) x = blocks m x.
Proof. intros H. by apply fn_lookup_insert_ne. Qed.

(** ** What a switch does

    Thread [t] goes from context [c] to context [h]: [bc] and [bh] are their
    blocks afterwards, [eh] what is in the exception globals. *)
Record moved (m m' : machine) (t c h : nat) (bc bh : ContextBlock) (eh : nat) : Prop := {
  mv_c : blocks m' c = Some bc;
  mv_h : blocks m' h = Some bh;
  mv_other : forall x, x <> c -> x <> h -> blocks m' x = blocks m x;
  mv_current : current m' t = h;
  mv_current_other : forall u, u <> t -> current m' u = current m u;
  mv_eh : liveEh m' t = eh;
  mv_eh_other : forall u, u <> t -> liveEh m' u = liveEh m u;
  mv_own : ownEh m' = ownEh m;
  mv_next : next m' = next m;
  mv_threads : nthreads m' = nthreads m
}.

Definition left_block (m : machine) (bc : ContextBlock) (st : CoroutineState) (saved : kont) : ContextBlock :=
  set_eh (liveEh m (thread bc)) (set_fctx saved (set_state st bc)).
Definition entered_block (bc bh : ContextBlock) : ContextBlock := set_thread (thread bc) (set_state Running bh).

Lemma switch_moves m c h bc bh st saved how :
  live m c bc -> live m h bh -> c <> h ->
  exists m', moved m m' (thread bc) c h (left_block m bc st saved) (entered_block bc bh) (ehGlobals bh) /\
    (m1 <-? prepareDeparture c h st m;; jump c h saved how m1) = continue_ h (fctx bh) how m'.
Proof.
  intros Hc Hh Hne. unfold prepareDeparture. rewrite (get_live m c bc Hc). cbn [then_].
  set (m1 := with_current _ m). assert (live m1 c bc) as H1 by done. rewrite (upd_live m1 c bc _ H1). cbn [then_].
  set (m2 := put c _ m1). assert (live m2 h bh) as H2 by (destruct Hh; split; [unfold m2; by rewrite put_ne|done]).
  rewrite (upd_live m2 h bh _ H2). cbn [then_]. set (m3 := put h _ m2). unfold jump.
  assert (live m3 h (set_state Running bh)) as H3 by (destruct Hh; split; [apply put_eq|done]). rewrite (get_live m3 h _ H3). cbn [then_ fctx set_state].
  unfold onArrival. assert (live m3 c (set_state st bc)) as H4.
  { destruct Hc. split; [unfold m3; rewrite put_ne by done; apply put_eq|done]. }
  rewrite (upd_live m3 c _ _ H4). cbn [then_]. set (m4 := put c _ m3).
  assert (live m4 c (set_fctx saved (set_state st bc))) as H5 by (destruct Hc; split; [apply put_eq|done]). rewrite (get_live m4 c _ H5). cbn [then_ thread set_fctx set_state].
  assert (live m4 h (set_state Running bh)) as H6 by (destruct Hh; split; [unfold m4; rewrite put_ne by done; apply put_eq|done]).
  rewrite (upd_live m4 h _ _ H6). cbn [then_]. set (m5 := put h _ m4). unfold swapEhGlobals.
  assert (live m5 c (set_fctx saved (set_state st bc))) as H7 by (destruct Hc; split; [unfold m5; rewrite put_ne by done; apply put_eq|done]).
  rewrite (upd_live m5 c _ _ H7). cbn [then_]. set (m6 := put c _ m5).
  assert (live m6 h (entered_block bc bh)) as H8 by (destruct Hh; split; [unfold m6; rewrite put_ne by done; apply put_eq|done]).
  rewrite (get_live m6 h _ H8). cbn [then_]. eexists. split; [|reflexivity]. split; simpl; try done.
  - apply fn_lookup_insert.
  - rewrite fn_lookup_insert_ne by done. apply fn_lookup_insert.
  - intros x Hx1 Hx2. by rewrite !fn_lookup_insert_ne by done.
  - apply fn_lookup_insert.
  - intros u Hu. by apply fn_lookup_insert_ne.
  - apply fn_lookup_insert.
  - intros u Hu. by apply fn_lookup_insert_ne.
Qed.

(** ** The invariant *)

Definition waits_for (c : nat) (b : ContextBlock) : Prop := (exists k, fctx b = KResume c k) \/ (exists k, fctx b = KUnwind c k).

(** A coroutine that no thread is in. *)
Inductive idle_block (b : ContextBlock) : Prop :=
| idle_created e : released b = false -> state b = Created -> fctx b = KEntry e -> entry b = true -> idle_block b
| idle_suspended k : released b = false -> state b = Suspended -> fctx b = KYield k -> entry b = true -> idle_block b
| idle_done : released b = false -> state b = Done -> entry b = false -> idle_block b
| idle_released : released b = true -> entry b = false -> idle_block b.

Record cinv (m : machine) (ch : nat -> list nat) : Prop := {
  ci_head : forall t, (t < nthreads m)%nat -> ch t !! 0%nat = Some (current m t);
  ci_base : forall t, (t < nthreads m)%nat -> last (ch t) = Some t;
  ci_native : forall t c, (t < nthreads m)%nat -> c ∈ ch t -> (c < nthreads m)%nat -> c = t;
  ci_apart : forall t u c, (t < nthreads m)%nat -> (u < nthreads m)%nat -> c ∈ ch t -> c ∈ ch u -> t = u;
  ci_nodup : forall t, (t < nthreads m)%nat -> NoDup (ch t);
  ci_link : forall t i c d, (t < nthreads m)%nat -> ch t !! i = Some c -> ch t !! S i = Some d ->
    exists bc bd, blocks m c = Some bc /\ blocks m d = Some bd /\ resumer bc = d /\ waits_for c bd /\ state bd = Suspended;
  ci_busy : forall t c, (t < nthreads m)%nat -> c ∈ ch t ->
    exists b, live m c b /\ ((nthreads m <= c)%nat -> entry b = true);
  ci_current : forall t, (t < nthreads m)%nat -> exists b, blocks m (current m t) = Some b /\ thread b = t /\ state b = Running;
  ci_idle : forall c b, (nthreads m <= c)%nat -> blocks m c = Some b -> (forall t, (t < nthreads m)%nat -> c ∉ ch t) -> idle_block b;
  ci_fresh : forall c, (next m <= c)%nat -> blocks m c = None;
  ci_next : (nthreads m <= next m)%nat;
  ci_live_eh : forall t, (t < nthreads m)%nat -> liveEh m t = ownEh m (current m t);
  ci_saved_eh : forall c b, live m c b -> (forall t, (t < nthreads m)%nat -> c <> current m t) -> ehGlobals b = ownEh m c
}.

(** Whoever runs is at the head of its thread's list, and at no other place. *)
Lemma head_in m ch t : cinv m ch -> (t < nthreads m)%nat -> current m t ∈ ch t.
Proof. intros HI Ht. eapply list_elem_of_lookup_2. by apply (ci_head m ch HI). Qed.

Lemma current_inj m ch t u : cinv m ch -> (t < nthreads m)%nat -> (u < nthreads m)%nat -> current m t = current m u -> t = u.
Proof. intros HI Ht Hu E. apply (ci_apart m ch HI t u (current m t)); [done|done|by apply head_in|]. rewrite E. by apply head_in. Qed.

Lemma current_live m ch t : cinv m ch -> (t < nthreads m)%nat ->
  exists b, live m (current m t) b /\ thread b = t /\ state b = Running /\ ((nthreads m <= current m t)%nat -> entry b = true).
Proof.
  intros HI Ht. destruct (ci_current m ch HI t Ht) as (b & Hb & H1 & H2). destruct (ci_busy m ch HI t _ Ht (head_in m ch t HI Ht)) as (b' & Hl & He).
  assert (b' = b) as -> by (destruct Hl; congruence). by exists b.
Qed.

(** A context of the list that is not its head waits. *)
Lemma not_head_waits m ch t c b : cinv m ch -> (t < nthreads m)%nat -> c ∈ ch t -> c <> current m t -> blocks m c = Some b -> state b = Suspended /\ exists d, waits_for d b.
Proof.
  intros HI Ht Hc Hne Hb. apply list_elem_of_lookup in Hc as [i Hi]. destruct i as [|i]; [rewrite (ci_head m ch HI) in Hi by done; congruence|].
  pose proof (lookup_lt_Some _ _ _ Hi). destruct (lookup_lt_is_Some_2 (ch t) i) as [d Hd]; [lia|].
  destruct (ci_link m ch HI t i d c Ht Hd Hi) as (bc & bd & _ & H1 & _ & H2 & H3). assert (bd = b) as -> by congruence. split; [done|]. by exists d.
Qed.

(** A context that neither runs nor waits is in no list. *)
Lemma in_no_list m ch c b : cinv m ch -> blocks m c = Some b -> state b <> Running -> ~ (exists d, waits_for d b) -> forall t, (t < nthreads m)%nat -> c ∉ ch t.
Proof.
  intros HI Hb Hs Hw t Ht Hc. destruct (decide (c = current m t)) as [->|Hne].
  - destruct (ci_current m ch HI t Ht) as (b' & Hb' & _ & H). congruence.
  - apply Hw. by eapply (not_head_waits m ch t c b).
Qed.

(** ** Entering and leaving a coroutine *)

Definition push (t h : nat) (ch : nat -> list nat) : nat -> list nat := <[t := h :: ch t]> ch.
Definition pop (t : nat) (ch : nat -> list nat) : nat -> list nat := <[t := list.tail (ch t)]> ch.

Lemma push_elem t h ch u x : x ∈ push t h ch u <-> x ∈ ch u \/ u = t /\ x = h.
Proof.
  unfold push. destruct (decide (u = t)) as [->|Hne]; [rewrite fn_lookup_insert, elem_of_cons; tauto|]. rewrite fn_lookup_insert_ne by done. tauto.
Qed.

Lemma fresh_ne m ch x c b : cinv m ch -> blocks m c = Some b -> (next m <= x)%nat -> x <> c.
Proof. intros HI Hb Hx ->. pose proof (ci_fresh m ch HI c Hx). congruence. Qed.

(** The same blocks at the places of a list that were not touched. *)
Lemma link_kept m m' ch t i x d :
  cinv m ch -> (t < nthreads m)%nat -> ch t !! i = Some x -> ch t !! S i = Some d ->
  (forall b, blocks m x = Some b -> exists b', blocks m' x = Some b' /\ resumer b' = resumer b) -> blocks m' d = blocks m d ->
  exists bx bd, blocks m' x = Some bx /\ blocks m' d = Some bd /\ resumer bx = d /\ waits_for x bd /\ state bd = Suspended.
Proof.
  intros HI Ht Hx Hd Hbx Hbd. destruct (ci_link m ch HI t i x d Ht Hx Hd) as (b1 & b2 & H1 & H2 & H3 & H4 & H5).
  destruct (Hbx b1 H1) as (b' & Hb' & Hr). exists b', b2. rewrite Hbd. splits; try done. congruence.
Qed.

Lemma push_ok m m' ch t h bc bh bc' bh' :
  cinv m ch -> (t < nthreads m)%nat -> live m (current m t) bc -> live m h bh ->
  (nthreads m <= h)%nat -> (forall u, (u < nthreads m)%nat -> h ∉ ch u) -> entry bh = true ->
  moved m m' t (current m t) h bc' bh' (ehGlobals bh) ->
  state bc' = Suspended -> waits_for h bc' -> released bc' = false -> entry bc' = entry bc -> resumer bc' = resumer bc -> ehGlobals bc' = liveEh m t ->
  state bh' = Running -> thread bh' = t -> resumer bh' = current m t -> released bh' = false -> entry bh' = true ->
  cinv m' (push t h ch).
Proof.
  intros HI Ht Hc Hh Hn Hout Heb [Vc Vh Vo Vt Vu Ve Veu Vown Vnx Vth] C1 C2 C3 C4 C5 C6 B1 B2 B3 B4 B5. set (c := current m t) in *.
  assert (Hcin : c ∈ ch t) by (by apply head_in). assert (Hch : c <> h) by (intros ->; by apply (Hout t)).
  assert (Hin_ne : forall u x, (u < nthreads m)%nat -> x ∈ ch u -> x <> h) by (intros u x Hu Hx ->; by apply (Hout u)).
  assert (Hcu : forall u, (u < nthreads m)%nat -> u <> t -> c ∉ ch u) by (intros u Hu Hne H; apply Hne; by apply (ci_apart m ch HI u t c)).
  assert (Hpu : forall u, u <> t -> push t h ch u = ch u) by (intros u Hu; by apply fn_lookup_insert_ne).
  assert (Hpt : push t h ch t = h :: ch t) by apply fn_lookup_insert.
  assert (Htail : forall i d, ch t !! S i = Some d -> d <> c).
  { intros i d Hd ->. pose proof (ci_head m ch HI t Ht) as H0. pose proof (NoDup_lookup _ _ _ _ (ci_nodup m ch HI t Ht) H0 Hd). done. }
  split; rewrite ?Vth; rewrite ?Vown, ?Vnx.
  - intros u Hu. destruct (decide (u = t)) as [->|Hne]; [rewrite Hpt, Vt; done|]. rewrite Hpu, Vu by done. by apply (ci_head m ch HI).
  - intros u Hu. destruct (decide (u = t)) as [->|Hne]; [|rewrite Hpu by done; by apply (ci_base m ch HI)].
    rewrite Hpt. pose proof (ci_base m ch HI t Ht) as Hb. destruct (ch t); [done|]. exact Hb.
  - intros u x Hu Hx Hlt. apply push_elem in Hx as [Hx|[-> ->]]; [by apply (ci_native m ch HI u)|lia].
  - intros u v x Hu Hv Hx Hy. apply push_elem in Hx as [Hx|[-> ->]]; apply push_elem in Hy as [Hy|[-> Ey]]; [by apply (ci_apart m ch HI u v x)| | |done].
    + subst x. by destruct (Hout u).
    + by destruct (Hout v).
  - intros u Hu. destruct (decide (u = t)) as [->|Hne]; [|rewrite Hpu by done; by apply (ci_nodup m ch HI)].
    rewrite Hpt. apply list.NoDup_cons. split; [by apply Hout|by apply (ci_nodup m ch HI)].
  - intros u i x d Hu Hx Hd. destruct (decide (u = t)) as [->|Hne].
    + rewrite Hpt in Hx, Hd. destruct i as [|i].
      * injection Hx as <-. simpl in Hd. rewrite (ci_head m ch HI) in Hd by done. injection Hd as <-. exists bh', bc'. by splits.
      * simpl in Hx, Hd. eapply link_kept; [done|exact Hu|exact Hx|exact Hd| |].
        -- intros b Hb. destruct (decide (x = c)) as [->|Hxc]; [exists bc'; destruct Hc; split; [done|congruence]|].
           exists b. split; [|done]. rewrite Vo; [done|done|]. eapply Hin_ne; [exact Hu|by eapply list_elem_of_lookup_2].
        -- apply Vo; [by eapply Htail|]. eapply Hin_ne; [exact Hu|by eapply list_elem_of_lookup_2].
    + rewrite Hpu in Hx, Hd by done. assert (x ∈ ch u /\ d ∈ ch u) as [Hxi Hdi] by (split; by eapply list_elem_of_lookup_2).
      eapply link_kept; [done|exact Hu|exact Hx|exact Hd| |].
      * intros b Hb. exists b. split; [|done]. rewrite Vo; [done|intros ->; by eapply Hcu|by eapply Hin_ne].
      * apply Vo; [intros ->; by eapply Hcu|by eapply Hin_ne].
  - intros u x Hu Hx. apply push_elem in Hx as [Hx|[-> ->]]; [|exists bh'; by repeat split].
    destruct (ci_busy m ch HI u x Hu Hx) as (b & [Hb1 Hb2] & He). destruct (decide (x = c)) as [->|Hxc].
    + exists bc'. split; [by split|]. destruct Hc as [Hc _]. assert (b = bc) as -> by congruence. by rewrite C4.
    + exists b. split; [|done]. split; [|done]. rewrite Vo; [done|done|by eapply Hin_ne].
  - intros u Hu. destruct (decide (u = t)) as [->|Hne]; [rewrite Vt; by exists bh'|]. rewrite Vu by done.
    destruct (ci_current m ch HI u Hu) as (b & Hb & ? & ?). exists b. split; [|done].
    rewrite Vo; [done|intros E; apply Hne; by apply (current_inj m ch u t)|]. eapply Hin_ne; [exact Hu|by apply head_in].
  - intros x b Hx Hb Hno. assert (x <> h) as Hxh by (intros ->; eapply (Hno t); [done|]; apply push_elem; by right).
    assert (x <> c) as Hxc by (intros ->; eapply (Hno t); [done|]; apply push_elem; by left).
    rewrite Vo in Hb by done. apply (ci_idle m ch HI x b Hx Hb). intros u Hu Hin. apply (Hno u Hu). apply push_elem. by left.
  - intros x Hx. rewrite Vo; [by apply (ci_fresh m ch HI)| |].
    + destruct Hc as [Hc _]. by eapply fresh_ne.
    + destruct Hh as [Hh _]. by eapply fresh_ne.
  - apply (ci_next m ch HI).
  - intros u Hu. destruct (decide (u = t)) as [->|Hne].
    + rewrite Ve, Vt. apply (ci_saved_eh m ch HI h bh Hh). intros v Hv ->. apply (Hout v Hv). by apply head_in.
    + rewrite Veu, Vu by done. by apply (ci_live_eh m ch HI).
  - intros x b [Hb1 Hb2] Hno. destruct (decide (x = c)) as [->|Hxc].
    + assert (b = bc') as -> by congruence. rewrite C6. by apply (ci_live_eh m ch HI).
    + destruct (decide (x = h)) as [->|Hxh]; [by destruct (Hno t Ht)|]. rewrite Vo in Hb1 by done. apply (ci_saved_eh m ch HI); [done|].
      intros u Hu ->. destruct (decide (u = t)) as [->|Hne]; [done|]. apply (Hno u Hu). by rewrite Vu.
Qed.

Lemma pop_elem t c l ch u x : ch t = c :: l -> NoDup (ch t) -> x ∈ pop t ch u <-> x ∈ ch u /\ (u = t -> x <> c).
Proof.
  intros E Hnd. unfold pop. destruct (decide (u = t)) as [->|Hne]; [|rewrite fn_lookup_insert_ne by done; tauto].
  rewrite fn_lookup_insert, E in *. simpl. apply list.NoDup_cons in Hnd as [Hc _]. rewrite elem_of_cons. split; [intros H; split; [by right|intros _ ->; done]|].
  intros [[->|H] Hx]; [by destruct Hx|done].
Qed.

(** Below a coroutine there is the context that waits for it. *)
Lemma below m ch t : cinv m ch -> (t < nthreads m)%nat -> (nthreads m <= current m t)%nat ->
  exists d l bc bd, ch t = current m t :: d :: l /\ live m (current m t) bc /\ live m d bd /\ resumer bc = d /\ waits_for (current m t) bd /\ state bd = Suspended /\ d <> current m t.
Proof.
  intros HI Ht Hn. pose proof (ci_head m ch HI t Ht) as Hh. pose proof (ci_base m ch HI t Ht) as Hb. pose proof (ci_nodup m ch HI t Ht) as Hnd.
  destruct (ch t) as [|c [|d l]] eqn:E; [done|simpl in *; injection Hh as ->; injection Hb as E2; lia|]. injection Hh as ->.
  destruct (ci_link m ch HI t 0 (current m t) d Ht) as (bc & bd & H1 & H2 & H3 & H4 & H5); [by rewrite E|by rewrite E|].
  destruct (ci_busy m ch HI t (current m t) Ht) as (bc2 & [B1 B2] & _); [rewrite E; left|].
  destruct (ci_busy m ch HI t d Ht) as (bd2 & [D1 D2] & _); [rewrite E; right; left|].
  exists d, l, bc, bd. splits; try done.
  - split; congruence.
  - split; congruence.
  - intros ->. apply list.NoDup_cons in Hnd as [Hnd _]. apply Hnd. left.
Qed.

Lemma pop_ok m m' ch t d l bc bd bc' bd' :
  cinv m ch -> (t < nthreads m)%nat -> (nthreads m <= current m t)%nat -> ch t = current m t :: d :: l ->
  live m (current m t) bc -> live m d bd -> moved m m' t (current m t) d bc' bd' (ehGlobals bd) ->
  idle_block bc' -> ehGlobals bc' = liveEh m t ->
  state bd' = Running -> thread bd' = t -> resumer bd' = resumer bd -> released bd' = false -> entry bd' = entry bd ->
  cinv m' (pop t ch).
Proof.
  intros HI Ht Hnc Ech Hc Hd [Vc Vh Vo Vt Vu Ve Veu Vown Vnx Vth] C1 C2 B1 B2 B3 B4 B5. set (c := current m t) in *.
  pose proof (ci_nodup m ch HI t Ht) as Hnd. pose proof (fun u x => pop_elem t c (d :: l) ch u x Ech Hnd) as Hel.
  assert (Hdin : d ∈ ch t) by (rewrite Ech; right; left).
  assert (Hcu : forall u, (u < nthreads m)%nat -> u <> t -> c ∉ ch u).
  { intros u Hu Hne H. apply Hne. apply (ci_apart m ch HI u t c); [done|done|done|rewrite Ech; left]. }
  assert (Hdu : forall u, (u < nthreads m)%nat -> u <> t -> d ∉ ch u) by (intros u Hu Hne H; apply Hne; by apply (ci_apart m ch HI u t d)).
  assert (Hpu : forall u, u <> t -> pop t ch u = ch u) by (intros u Hu; by apply fn_lookup_insert_ne).
  assert (Hpt : pop t ch t = d :: l) by (unfold pop; by rewrite fn_lookup_insert, Ech).
  assert (Hnd' : NoDup (d :: l)) by (rewrite Ech in Hnd; by apply list.NoDup_cons in Hnd as [_ ?]).
  assert (Hcl : c ∉ d :: l) by (rewrite Ech in Hnd; by apply list.NoDup_cons in Hnd as [? _]).
  split; rewrite ?Vth; rewrite ?Vown, ?Vnx.
  - intros u Hu. destruct (decide (u = t)) as [->|Hne]; [rewrite Hpt, Vt; done|]. rewrite Hpu, Vu by done. by apply (ci_head m ch HI).
  - intros u Hu. pose proof (ci_base m ch HI u Hu) as Hb. destruct (decide (u = t)) as [->|Hne]; [|by rewrite Hpu]. rewrite Hpt. rewrite Ech in Hb. exact Hb.
  - intros u x Hu Hx Hlt. apply Hel in Hx as [Hx _]. by apply (ci_native m ch HI u).
  - intros u v x Hu Hv Hx Hy. apply Hel in Hx as [Hx _]. apply Hel in Hy as [Hy _]. by apply (ci_apart m ch HI u v x).
  - intros u Hu. destruct (decide (u = t)) as [->|Hne]; [by rewrite Hpt|]. rewrite Hpu by done. by apply (ci_nodup m ch HI).
  - intros u i x e Hu Hx He. destruct (decide (u = t)) as [->|Hne].
    + rewrite Hpt in Hx, He. eapply (link_kept m m' ch t (S i)); [done|done|by rewrite Ech|by rewrite Ech| |].
      * intros b Hb. destruct (decide (x = d)) as [->|Hxd]; [exists bd'; destruct Hd; split; [done|congruence]|]. exists b. split; [|done]. rewrite Vo; [done| |done].
        intros ->. apply Hcl. by eapply list_elem_of_lookup_2.
      * apply Vo; [intros ->; apply Hcl; by eapply list_elem_of_lookup_2|]. intros ->. apply list.NoDup_cons in Hnd' as [Hdl _]. apply Hdl. by eapply list_elem_of_lookup_2.
    + rewrite Hpu in Hx, He by done. assert (x ∈ ch u /\ e ∈ ch u) as [Hxi Hei] by (split; by eapply list_elem_of_lookup_2).
      eapply link_kept; [done|exact Hu|exact Hx|exact He| |].
      * intros b Hb. exists b. split; [|done]. rewrite Vo; [done|intros ->; by eapply Hcu|intros ->; by eapply Hdu].
      * apply Vo; [intros ->; by eapply Hcu|intros ->; by eapply Hdu].
  - intros u x Hu Hx. apply Hel in Hx as [Hx Hxc]. destruct (ci_busy m ch HI u x Hu Hx) as (b & [Hb1 Hb2] & He). destruct (decide (x = d)) as [->|Hxd].
    + exists bd'. split; [by split|]. destruct Hd as [Hd _]. assert (b = bd) as -> by congruence. by rewrite B5.
    + exists b. split; [|done]. split; [|done]. rewrite Vo; [done| |done]. intros ->. destruct (decide (u = t)) as [->|Hne]; [by apply Hxc|by eapply Hcu].
  - intros u Hu. destruct (decide (u = t)) as [->|Hne]; [rewrite Vt; by exists bd'|]. rewrite Vu by done.
    destruct (ci_current m ch HI u Hu) as (b & Hb & ? & ?). exists b. split; [|done]. pose proof (head_in m ch u HI Hu).
    rewrite Vo; [done|intros E; rewrite E in *; by eapply Hcu|intros E; rewrite E in *; by eapply Hdu].
  - intros x b Hx Hb Hno. destruct (decide (x = c)) as [->|Hxc]; [assert (b = bc') as -> by congruence; done|].
    assert (x <> d) as Hxd by (intros ->; eapply (Hno t); [done|]; apply Hel; done).
    rewrite Vo in Hb by done. apply (ci_idle m ch HI x b Hx Hb). intros u Hu Hin. apply (Hno u Hu). apply Hel. done.
  - intros x Hx. rewrite Vo; [by apply (ci_fresh m ch HI)| |].
    + destruct Hc as [Hc _]. by eapply fresh_ne.
    + destruct Hd as [Hd _]. by eapply fresh_ne.
  - apply (ci_next m ch HI).
  - intros u Hu. destruct (decide (u = t)) as [->|Hne].
    + rewrite Ve, Vt. apply (ci_saved_eh m ch HI d bd Hd). intros v Hv E. assert (v = t) as ->.
      { apply (ci_apart m ch HI v t d); [done|done|rewrite E; by apply head_in|done]. }
      apply Hcl. fold c in E. rewrite <- E. left.
    + rewrite Veu, Vu by done. by apply (ci_live_eh m ch HI).
  - intros x b [Hb1 Hb2] Hno. destruct (decide (x = c)) as [->|Hxc].
    + assert (b = bc') as -> by congruence. rewrite C2. by apply (ci_live_eh m ch HI).
    + destruct (decide (x = d)) as [->|Hxd]; [by destruct (Hno t Ht)|]. rewrite Vo in Hb1 by done. apply (ci_saved_eh m ch HI); [done|].
      intros u Hu ->. destruct (decide (u = t)) as [->|Hne]; [done|]. apply (Hno u Hu). by rewrite Vu.
Qed.

(** ** Changes that are no switches *)

Lemma moved_go_on m m' t c h bc bh eh u b : moved m m' t c h bc bh eh -> moved m (go_on u b m') t c h bc bh eh.
Proof. by intros []. Qed.

Lemma moved_put m m' t c h bc bh eh b : c <> h -> moved m m' t c h bc bh eh -> moved m (put c b m') t c h b bh eh.
Proof.
  intros Hne [? ? Vo ? ? ? ? ? ? ?]. split; try done.
  - apply put_eq.
  - by rewrite put_ne.
  - intros x Hx1 Hx2. rewrite put_ne by done. by apply Vo.
Qed.

Lemma moved_from m m0 m' t c h bc bh eh :
  (forall x, x <> c -> x <> h -> blocks m0 x = blocks m x) -> current m0 = current m -> liveEh m0 = liveEh m -> ownEh m0 = ownEh m ->
  next m0 = next m -> nthreads m0 = nthreads m -> moved m0 m' t c h bc bh eh -> moved m m' t c h bc bh eh.
Proof.
  intros H1 H2 H3 H4 H5 H6 [V1 V2 V3 V4 V5 V6 V7 V8 V9 V10]. split; try congruence.
  - intros x Hx1 Hx2. rewrite V3, H1 by done. done.
  - intros u Hu. rewrite V5, H2 by done. done.
  - intros u Hu. rewrite V7, H3 by done. done.
Qed.

Lemma cinv_go_on m ch u b : cinv m ch -> cinv (go_on u b m) ch.
Proof. by intros []. Qed.

(** A block that changed in nothing but its flags. *)
Lemma cinv_keep m ch c b b' :
  cinv m ch -> blocks m c = Some b -> fctx b' = fctx b -> thread b' = thread b -> resumer b' = resumer b -> entry b' = entry b ->
  state b' = state b -> ehGlobals b' = ehGlobals b -> released b' = released b -> cinv (put c b' m) ch.
Proof.
  intros HI Hb E1 E2 E3 E4 E5 E6 E7.
  assert (Hblk : forall x bx, blocks m x = Some bx -> exists bx', blocks (put c b' m) x = Some bx' /\ fctx bx' = fctx bx /\ thread bx' = thread bx /\
    resumer bx' = resumer bx /\ entry bx' = entry bx /\ state bx' = state bx /\ ehGlobals bx' = ehGlobals bx /\ released bx' = released bx).
  { intros x bx Hx. destruct (decide (x = c)) as [->|Hne]; [|exists bx; by rewrite put_ne]. assert (bx = b) as -> by congruence. exists b'. rewrite put_eq. by splits. }
  assert (Hback : forall x bx', blocks (put c b' m) x = Some bx' -> exists bx, blocks m x = Some bx /\ fctx bx' = fctx bx /\ entry bx' = entry bx /\ state bx' = state bx /\ ehGlobals bx' = ehGlobals bx /\ released bx' = released bx).
  { intros x bx' Hx. destruct (decide (x = c)) as [->|Hne]; [|exists bx'; by rewrite put_ne in Hx]. rewrite put_eq in Hx. injection Hx as <-. exists b. by splits. }
  pose proof HI as [I1 I2 I3 I4 I5 I6 I7 I8 I9 I10 I11 I12 I13]. split; try done.
  - intros t i x d Ht Hx Hd. destruct (I6 t i x d Ht Hx Hd) as (bx & bd & H1 & H2 & H3 & H4 & H5).
    destruct (Hblk x bx H1) as (bx' & Q1 & _ & _ & Q2 & _). destruct (Hblk d bd H2) as (bd' & R1 & R2 & _ & _ & _ & R3 & _).
    exists bx', bd'. splits; [done|done|congruence| |congruence]. unfold waits_for. by rewrite R2.
  - intros t x Ht Hx. destruct (I7 t x Ht Hx) as (bx & [H1 H2] & H3). destruct (Hblk x bx H1) as (bx' & Q1 & _ & _ & _ & Q2 & _ & _ & Q3).
    exists bx'. split; [split; congruence|]. rewrite Q2. done.
  - intros t Ht. destruct (I8 t Ht) as (bx & H1 & H2 & H3). destruct (Hblk _ bx H1) as (bx' & Q1 & _ & Q2 & _ & _ & Q3 & _). exists bx'. splits; [done|congruence|congruence].
  - intros x bx' Hx Hbx Hno. destruct (Hback x bx' Hbx) as (bx & H1 & F1 & F2 & F3 & _ & F4). destruct (I9 x bx Hx H1 Hno) as [e ? ? ? ?|k ? ? ? ?|? ? ?|? ?].
    + apply (idle_created _ e); congruence.
    + apply (idle_suspended _ k); congruence.
    + apply idle_done; congruence.
    + apply idle_released; congruence.
  - intros x Hx. rewrite put_ne; [by apply I10|]. by eapply fresh_ne.
  - intros x bx' [Hbx Hl] Hno. destruct (Hback x bx' Hbx) as (bx & H1 & _ & _ & _ & F4 & F5). rewrite F4. apply I13; [split; congruence|done].
Qed.

Lemma cinv_ext m m' ch :
  (forall x, blocks m' x = blocks m x) -> current m' = current m -> liveEh m' = liveEh m -> ownEh m' = ownEh m -> next m' = next m -> nthreads m' = nthreads m ->
  cinv m ch -> cinv m' ch.
Proof.
  intros Hb H1 H2 H3 H4 H5 [I1 I2 I3 I4 I5 I6 I7 I8 I9 I10 I11 I12 I13].
  split; rewrite ?H5; rewrite ?H4; rewrite ?H3; rewrite ?H2; rewrite ?H1; try done.
  - intros t i x d Ht Hx Hd. rewrite !Hb. by apply (I6 t i).
  - intros t x Ht Hx. destruct (I7 t x Ht Hx) as (b & [L1 L2] & ?). exists b. split; [|done]. split; [by rewrite Hb|done].
  - intros t Ht. rewrite Hb. by apply I8.
  - intros x b Hx. rewrite Hb. by apply I9.
  - intros x Hx. rewrite Hb. by apply I10.
  - intros x b [L1 L2]. rewrite Hb in L1. by apply I13.
Qed.

Lemma cinv_put_put m ch c b1 b2 : cinv (put c b2 m) ch -> cinv (put c b2 (put c b1 m)) ch.
Proof.
  apply cinv_ext; try done. intros x. destruct (decide (x = c)) as [->|Hne]; [by rewrite !put_eq|by rewrite !put_ne].
Qed.

(** A coroutine that no thread is in is replaced by another such. *)
Lemma cinv_idle m ch c b b' :
  cinv m ch -> blocks m c = Some b -> (nthreads m <= c)%nat -> (forall t, (t < nthreads m)%nat -> c ∉ ch t) -> idle_block b' ->
  (released b' = false -> released b = false /\ ehGlobals b' = ehGlobals b) -> cinv (put c b' m) ch.
Proof.
  intros HI Hb Hn Hout Hidle Heh. pose proof HI as [I1 I2 I3 I4 I5 I6 I7 I8 I9 I10 I11 I12 I13].
  assert (Hin : forall t x, (t < nthreads m)%nat -> x ∈ ch t -> blocks (put c b' m) x = blocks m x).
  { intros t x Ht Hx. apply put_ne. intros ->. by eapply Hout. }
  split; try done.
  - intros t i x d Ht Hx Hd. rewrite (Hin t x Ht), (Hin t d Ht); [by eapply I6|by eapply list_elem_of_lookup_2..].
  - intros t x Ht Hx. destruct (I7 t x Ht Hx) as (bx & [H1 H2] & H3). exists bx. split; [|done]. split; [|done]. by rewrite (Hin t).
  - intros t Ht. rewrite (Hin t); [by apply I8|done|]. exact (head_in m ch t HI Ht).
  - intros x bx Hx Hbx Hno. destruct (decide (x = c)) as [->|Hne]; [rewrite put_eq in Hbx; by injection Hbx as <-|]. rewrite put_ne in Hbx by done. by eapply I9.
  - intros x Hx. rewrite put_ne; [by apply I10|]. by eapply fresh_ne.
  - intros x bx [Hbx Hl] Hno. destruct (decide (x = c)) as [->|Hne].
    + rewrite put_eq in Hbx. injection Hbx as <-. destruct (Heh Hl) as [? ->]. apply I13; [by split|done].
    + rewrite put_ne in Hbx by done. by apply I13.
Qed.

(** ** Exceptions that escaped

    [resume] takes the exception out of the block of the coroutine before it
    goes on: between two calls no block holds one, other than that of [x]. *)

Definition clean (x : option nat) (m : machine) : Prop := forall c b, Some c <> x -> blocks m c = Some b -> exception b = None.

Lemma then_inv {A B} (r : res A) (f : A -> res B) b : then_ r f = inr b -> exists a, r = inr a /\ f a = inr b.
Proof. destruct r as [e|a]; [done|]. intros H. by exists a. Qed.

Lemma clean_put x m c b : clean x m -> (Some c <> x -> exception b = None) -> clean x (put c b m).
Proof.
  intros Hx Hb c' b' Hne Hl. destruct (decide (c' = c)) as [->|Hc]; [rewrite put_eq in Hl; injection Hl as <-; by apply Hb|].
  rewrite put_ne in Hl by done. by apply (Hx c').
Qed.

Lemma clean_upd x m c f m' : clean x m -> upd c f m = inr m' -> (forall b, Some c <> x -> exception b = None -> exception (f b) = None) -> clean x m'.
Proof.
  intros Hx Hu Hf. apply then_inv in Hu as (b & Hg & [= <-]). apply get_inv in Hg as [Hb _]. apply clean_put; [done|]. intros Hne. apply Hf; [done|]. by apply (Hx c).
Qed.

Lemma clean_depart x m c h st m' : clean x m -> prepareDeparture c h st m = inr m' -> clean x m'.
Proof.
  intros Hx H. apply then_inv in H as (b & _ & H). apply then_inv in H as (m1 & [= <-] & H). apply then_inv in H as (m2 & H1 & H2).
  eapply clean_upd; [|exact H2|done]. eapply clean_upd; [|exact H1|done]. exact Hx.
Qed.

Lemma clean_continue x m h k how m' : clean x m -> continue_ h k how m = inr m' -> clean x m'.
Proof.
  intros Hx H. apply then_inv in H as (b & _ & H). destruct k as [e|k|h' k|h' k|]; [destruct how; try done; by injection H as <-|by injection H as <-| | |done].
  - destruct how; [| |by injection H as <-]; apply then_inv in H as (b' & _ & H); (destruct (exception b'); [|by injection H as <-]);
      apply then_inv in H as (m1 & H1 & [= <-]); exact (clean_upd x m h' _ m1 Hx H1 (fun _ _ _ => eq_refl)).
  - destruct how; [| |done]; apply then_inv in H as (m1 & H1 & H); apply then_inv in H as (m2 & H2 & [= <-]);
      apply (clean_upd x m1 h' (set_released true) m2); try done; exact (clean_upd x m h' _ m1 Hx H1 (fun _ _ _ => eq_refl)).
Qed.

Lemma clean_jump x m c h saved how m' : clean x m -> jump c h saved how m = inr m' -> clean x m'.
Proof.
  intros Hx H. apply then_inv in H as (b & _ & H). apply then_inv in H as (m1 & Ha & H). eapply clean_continue; [|exact H].
  apply then_inv in Ha as (m2 & H2 & Ha). apply then_inv in Ha as (p & _ & Ha). apply then_inv in Ha as (m3 & H3 & Ha).
  apply then_inv in Ha as (m4 & H4 & Ha). apply then_inv in Ha as (s & _ & [= <-]).
  change (clean x m4). eapply (clean_upd x m3); [|exact H4|done]. eapply (clean_upd x m2); [|exact H3|done]. by eapply (clean_upd x m).
Qed.

Lemma clean_switch x m c h st saved how m' : clean x m -> (m1 <-? prepareDeparture c h st m;; jump c h saved how m1) = inr m' -> clean x m'.
Proof. intros Hx H. apply then_inv in H as (m1 & H1 & H2). eapply clean_jump; [|exact H2]. by eapply clean_depart. Qed.

(** No call puts an exception into a block, but the one a body throws. *)
Lemma step_clean x fits t m m' :
  clean x m -> match code m t with Some (BThrow _) => x = Some (current m t) | _ => True end -> step fits t m = Some (inr m') -> clean x m'.
Proof.
  intros Hx Hth H. unfold step in H. destruct (code m t) as [b|]; [|done]. simpl in H. injection H as H.
  assert (Hfin : forall esc, contextEntry (current m t) esc m = inr m' -> esc = None \/ x = Some (current m t) -> clean x m').
  { intros esc Hc Hesc. apply then_inv in Hc as (m1 & Hb & Hc). apply then_inv in Hc as (b1 & _ & Hc). eapply clean_switch; [|exact Hc].
    apply then_inv in Hb as (m2 & He & Hd). eapply (clean_upd x m2); [|exact Hd|done]. destruct esc as [e|]; [|by injection He as <-].
    eapply (clean_upd x m); [done|exact He|]. intros b2 Hne. by destruct Hesc. }
  destruct b as [|e| |k|h k|b k|h k|h k|k|k|eh k].
  - destruct (isNativeContext m (current m t)); [by injection H as <-|]. apply (Hfin None); [done|by left].
  - destruct (isNativeContext m (current m t)); [done|]. apply (Hfin (Some e)); [done|by right].
  - destruct (isNativeContext m (current m t)); [done|]. apply (Hfin None); [done|by left].
  - apply then_inv in H as (_ & _ & H). apply then_inv in H as (b & _ & H). by eapply clean_switch.
  - apply then_inv in H as (b & _ & H). apply then_inv in H as (_ & _ & H). apply then_inv in H as (m1 & H1 & H). eapply clean_switch; [|exact H]. by eapply (clean_upd x m).
  - destruct fits; injection H as <-; [|exact Hx]. intros c b' Hne. simpl. destruct (decide (c = next m)) as [->|Hc]; [rewrite fn_lookup_insert; by intros [= <-]|].
    rewrite fn_lookup_insert_ne by done. by apply Hx.
  - apply then_inv in H as (b & _ & H). destruct (state b); [|done| |].
    + apply then_inv in H as (m1 & H1 & H). apply then_inv in H as (m2 & H2 & [= <-]). apply (clean_upd x m1 h (set_released true) m2); [|done|done]. by eapply (clean_upd x m).
    + apply then_inv in H as (_ & _ & H). apply then_inv in H as (m1 & H1 & H). eapply clean_switch; [|exact H]. by eapply (clean_upd x m).
    + apply then_inv in H as (m1 & H1 & [= <-]). exact (clean_upd x m h _ m1 Hx H1 (fun _ _ E => E)).
  - apply then_inv in H as (m1 & H1 & [= <-]). exact (clean_upd x m h _ m1 Hx H1 (fun _ _ E => E)).
  - apply then_inv in H as (b & _ & [= <-]). exact Hx.
  - injection H as <-. exact Hx.
  - injection H as <-. exact Hx.
Qed.

(** ** The calls *)

(** A context that waits for another one, in [resume] or in a destructor. *)
Definition waiting (b : ContextBlock) : bool :=
  bool_decide (state b = Suspended) && match fctx b with KResume _ _ | KUnwind _ _ => true | _ => false end.

(** Where a coroutine that was not running and not waiting goes on. *)
Definition entered (k : kont) (how : signal) : option body :=
  match k with
  | KEntry b => match how with SForced => None | _ => Some b end
  | KYield k => Some (k how)
  | _ => None
  end.

Lemma enter_ok m ch t h bh saved how b :
  cinv m ch -> (t < nthreads m)%nat -> (nthreads m <= h)%nat -> live m h bh -> (forall u, (u < nthreads m)%nat -> h ∉ ch u) -> entry bh = true ->
  entered (fctx bh) how = Some b -> (exists k, saved = KResume h k) \/ (exists k, saved = KUnwind h k) ->
  exists m', (m0 <-? upd h (set_resumer (current m t)) m;; m1 <-? prepareDeparture (current m t) h Suspended m0;; jump (current m t) h saved how m1) = inr m' /\
    cinv m' (push t h ch) /\ nthreads m' = nthreads m /\ current m' t = h /\ (forall u, u <> t -> current m' u = current m u).
Proof.
  intros HI Ht Hn Hh Hout He Hent Hsv. destruct (current_live m ch t HI Ht) as (bc & Hc & Htb & Hst & _). set (c := current m t) in *.
  assert (Hne : c <> h) by (intros E; apply (Hout t Ht); rewrite <- E; by apply head_in).
  rewrite (upd_live m h bh _ Hh). cbn [then_]. set (m0 := put h _ m).
  assert (live m0 c bc) as Hc0 by (destruct Hc; split; [unfold m0; by rewrite put_ne|done]).
  assert (live m0 h (set_resumer c bh)) as Hh0 by (destruct Hh; split; [apply put_eq|done]).
  destruct (switch_moves m0 c h bc (set_resumer c bh) Suspended saved how Hc0 Hh0 Hne) as (m1 & Hmv & ->). cbn [fctx set_resumer].
  rewrite Htb in Hmv. eapply (moved_from m m0) in Hmv; [|intros x _ Hx; by apply put_ne|done..].
  assert (live m1 h (entered_block bc (set_resumer c bh))) as Hl1 by (destruct Hh; split; [apply (mv_h _ _ _ _ _ _ _ _ Hmv)|done]).
  assert (continue_ h (fctx bh) how m1 = inr (go_on t b m1)) as ->.
  { unfold continue_. rewrite (get_live m1 h _ Hl1). cbn [then_ thread entered_block set_thread]. rewrite Htb. unfold entered in Hent.
    destruct (fctx bh); try done; [destruct how; try done|]; by injection Hent as ->. }
  exists (go_on t b m1). splits; [done| |apply (mv_threads _ _ _ _ _ _ _ _ Hmv)|apply (mv_current _ _ _ _ _ _ _ _ Hmv)|apply (mv_current_other _ _ _ _ _ _ _ _ Hmv)].
  apply cinv_go_on. eapply (push_ok m m1 ch t h bc bh); [done|done|exact Hc|done|done|done|done|exact Hmv|..]; simpl; try done.
  - apply Hc.
  - by rewrite Htb.
  - apply Hh.
Qed.

(** How the context below goes on when a coroutine leaves, and what becomes of
    the block of the one that left. *)
Definition left_to (k : kont) (bc : ContextBlock) : option (body * ContextBlock) :=
  match k with
  | KResume _ k => Some (match exception bc with Some e => k (SThrow e) | None => k SNormal end, set_exception None bc)
  | KUnwind _ k => Some (k, set_released true (set_exception None bc))
  | _ => None
  end.

Lemma set_exception_id b : exception b = None -> set_exception None b = b.
Proof. destruct b. simpl. by intros ->. Qed.

(** [m0] is [m] with [b] for the block of [c]. *)
Record same_but (m m0 : machine) (c : nat) (b : ContextBlock) : Prop := {
  sb_block : blocks m0 c = Some b;
  sb_other : forall x, x <> c -> blocks m0 x = blocks m x;
  sb_current : current m0 = current m;
  sb_liveEh : liveEh m0 = liveEh m;
  sb_ownEh : ownEh m0 = ownEh m;
  sb_next : next m0 = next m;
  sb_threads : nthreads m0 = nthreads m
}.

Lemma same_but_refl m c b : blocks m c = Some b -> same_but m m c b.
Proof. by intros. Qed.

Lemma same_but_put m m0 c b b' : same_but m m0 c b -> same_but m (put c b' m0) c b'.
Proof. intros [? Ho ? ? ? ? ?]. split; try done; [apply put_eq|]. intros x Hx. rewrite put_ne by done. by apply Ho. Qed.

Lemma leave_ok m m0 ch t bc0 st saved :
  same_but m m0 (current m t) bc0 -> cinv m ch -> (t < nthreads m)%nat -> (nthreads m <= current m t)%nat ->
  (forall bc, live m (current m t) bc -> released bc0 = false /\ thread bc0 = thread bc /\ resumer bc0 = resumer bc) ->
  (forall bd, blocks m (resumer bc0) = Some bd -> exists r, left_to (fctx bd) (left_block m bc0 st saved) = Some r /\ idle_block r.2) ->
  exists m' b bd, (m1 <-? prepareDeparture (current m t) (resumer bc0) st m0;; jump (current m t) (resumer bc0) saved SNormal m1) = inr m' /\
    cinv m' (pop t ch) /\ nthreads m' = nthreads m /\ (forall u, u <> t -> current m' u = current m u) /\ live m (resumer bc0) bd /\ waits_for (current m t) bd /\ current m' t = resumer bc0 /\ code m' t = Some b /\
    (exists r, left_to (fctx bd) (left_block m bc0 st saved) = Some r /\ b = r.1 /\ blocks m' (current m t) = Some r.2).
Proof.
  intros [Sb So Sc Sl Sw Sn St] HI Ht Hn H0 Hr. destruct (below m ch t HI Ht Hn) as (d & l & bc & bd & Ech & Hc & Hd & Hrs & Hw & Hsd & Hne).
  destruct (current_live m ch t HI Ht) as (bc2 & Hc2 & Htb & _). assert (bc2 = bc) as -> by (destruct Hc, Hc2; congruence). clear Hc2.
  destruct (H0 bc Hc) as (E1 & E2 & E3). set (c := current m t) in *. rewrite E3, Hrs in *.
  assert (live m0 c bc0) as Hc0 by done. assert (live m0 d bd) as Hd0 by (destruct Hd; split; [by rewrite So|done]).
  destruct (switch_moves m0 c d bc0 bd st saved SNormal Hc0 Hd0 (not_eq_sym Hne)) as (m1 & Hmv & ->).
  rewrite E2, Htb in Hmv. eapply (moved_from m m0) in Hmv; [|intros x Hx _; by apply So|done..].
  assert (left_block m0 bc0 st saved = left_block m bc0 st saved) as El by (unfold left_block; by rewrite Sl). rewrite El in Hmv. set (bl := left_block m bc0 st saved) in *.
  assert (live m1 d (entered_block bc0 bd)) as Hl1 by (destruct Hd; split; [apply (mv_h _ _ _ _ _ _ _ _ Hmv)|done]).
  assert (live m1 c bl) as Hl2 by (split; [apply (mv_c _ _ _ _ _ _ _ _ Hmv)|done]).
  destruct (Hr bd (proj1 Hd)) as (r & Er & Hid).
  assert (Heh : ehGlobals bl = liveEh m t) by (unfold bl, left_block; simpl; by rewrite E2, Htb).
  assert (Hcont : exists m2, continue_ d (fctx bd) SNormal m1 = inr (go_on t r.1 m2) /\ moved m m2 t c d r.2 (entered_block bc0 bd) (ehGlobals bd)).
  { unfold continue_. rewrite (get_live m1 d _ Hl1). cbn [then_ thread entered_block set_thread]. rewrite E2, Htb.
    destruct Hw as [[k E]|[k E]]; rewrite E in *; cbn [left_to] in Er; apply (inj Some) in Er; subst r; cbn [fst snd].
    - rewrite (get_live m1 c _ Hl2). cbn [then_]. destruct (exception bl) as [e|] eqn:Ee.
      + unfold rethrowEscaped. rewrite (upd_live m1 c _ _ Hl2). cbn [then_]. eexists. split; [reflexivity|]. by eapply moved_put.
      + eexists. split; [reflexivity|]. by rewrite set_exception_id.
    - rewrite (upd_live m1 c _ _ Hl2). cbn [then_]. unfold releaseStack.
      rewrite (upd_live _ c (set_exception None bl)) by (split; [apply put_eq|apply Hl2]). cbn [then_]. eexists. split; [reflexivity|].
      eapply moved_put; [done|]. eapply moved_put; [done|]. exact Hmv. }
  destruct Hcont as (m2 & -> & Hmv2). exists (go_on t r.1 m2), r.1, bd.
  splits; [done| |apply (mv_threads _ _ _ _ _ _ _ _ Hmv2)|apply (mv_current_other _ _ _ _ _ _ _ _ Hmv2)|done|exact Hw|apply (mv_current _ _ _ _ _ _ _ _ Hmv2)|apply fn_lookup_insert|exists r; splits; [done|done|apply (mv_c _ _ _ _ _ _ _ _ Hmv2)]].
  apply cinv_go_on. eapply (pop_ok m m2 ch t d l bc bd r.2); [done|done|done|exact Ech|exact Hc|exact Hd|exact Hmv2|done|..]; simpl; try done.
  - destruct Hw as [[k E]|[k E]]; rewrite E in Er; simpl in Er; by injection Er as <-.
  - by rewrite E2.
  - apply Hd.
Qed.

(** What user code has to keep to: it uses handles of coroutines that exist,
    it resumes and destroys none that waits for another one, a body that is
    being unwound does not yield, and nothing is thrown out of a thread's own
    code. *)
Definition unwound (m : machine) (t : nat) : bool :=
  match blocks m (current m t) with
  | Some b => match fctx <$> blocks m (resumer b) with Some (KUnwind _ _) => negb (isNativeContext m (current m t)) | _ => false end
  | None => false
  end.
Definition usable (m : machine) (h : nat) : bool :=
  (nthreads m <=? h)%nat && match blocks m h with Some b => negb (released b) && negb (waiting b) | None => false end.
Definition owned (m : machine) (h : nat) : bool :=
  match blocks m h with Some b => negb (released b) | None => false end.

Definition disciplined (m : machine) (t : nat) : bool :=
  match code m t with
  | Some (BResume h _) | Some (BDestroy h _) => usable m h
  | Some (BRequestStop h _) => owned m h
  | Some (BYield _) => negb (unwound m t)
  | Some (BThrow _) | Some BUnwind => negb (isNativeContext m (current m t))
  | _ => true
  end.

Lemma usable_live m h : usable m h = true -> (nthreads m <= h)%nat /\ exists b, live m h b /\ waiting b = false.
Proof.
  unfold usable. intros H. bool_to_prop. destruct (blocks m h) as [b|] eqn:E; [|done]. bool_to_prop.
  split; [by apply Nat.leb_le|]. exists b. done.
Qed.

Lemma usable_out m ch h b : cinv m ch -> live m h b -> waiting b = false -> state b <> Running -> forall u, (u < nthreads m)%nat -> h ∉ ch u.
Proof.
  intros HI [Hb _] Hw Hs u Hu Hin. destruct (decide (h = current m u)) as [->|Hne].
  - destruct (ci_current m ch HI u Hu) as (b' & Hb' & _ & H). congruence.
  - destruct (not_head_waits m ch u h b HI Hu Hin Hne Hb) as [Hsu (d & [[k E]|[k E]])]; unfold waiting in Hw; by rewrite Hsu, E in Hw.
Qed.

(** The checks of the library that user code can fail. *)
Definition api_errors : list string :=
  ["stackfull: resume() requires a Created or Suspended coroutine"%string; "stackfull: yield() outside a coroutine"%string;
   "stackfull: destroying a running coroutine"%string].

(** How the code of thread [t] leaves its coroutine: the state the coroutine is
    left in, and what [resume] then comes back with. *)
Definition leaving_state (m : machine) (t : nat) : CoroutineState :=
  match code m t with Some (BYield _) => Suspended | _ => Done end.
Definition leaving_signal (m : machine) (t : nat) : signal :=
  match code m t with Some (BThrow e) => SThrow e | _ => SNormal end.

(** The context below the one that left goes on: [resume] returns, with the
    exception that escaped if there was one, or the destructor does. *)
Definition came_back (m m' : machine) (t : nat) : Prop :=
  exists bd bh, live m (current m' t) bd /\ blocks m' (current m t) = Some bh /\ exception bh = None /\
    ((exists k, fctx bd = KResume (current m t) k /\ state bh = leaving_state m t /\ code m' t = Some (k (leaving_signal m t))) \/
     (exists k, fctx bd = KUnwind (current m t) k)).

Definition good (m : machine) (t : nat) (r : res machine) : Prop :=
  match r with
  | inr m' =>
      (exists ch, cinv m' ch) /\ nthreads m' = nthreads m /\ (forall u, u <> t -> current m' u = current m u) /\
      (current m' t = current m t \/ usable m (current m' t) = true \/ came_back m m' t)
  | inl e => e ∈ api_errors
  end.

Lemma good_entered m m' t h ch :
  cinv m' ch -> nthreads m' = nthreads m -> current m' t = h -> (forall u, u <> t -> current m' u = current m u) -> usable m h = true -> good m t (inr m').
Proof. intros H1 H2 <- H4 H5. unfold good. splits; [by exists ch|done|done|]. right. by left. Qed.

Lemma good_stays m m' t ch : cinv m' ch -> nthreads m' = nthreads m -> current m' = current m -> good m t (inr m').
Proof. intros H1 H2 H3. unfold good. rewrite H3. splits; [by exists ch|done|done|]. by left. Qed.

Lemma resume_good m ch t h k : cinv m ch -> (t < nthreads m)%nat -> usable m h = true -> good m t (resume (current m t) h k m).
Proof.
  intros HI Ht Hu. destruct (usable_live m h Hu) as (Hn & bh & Hh & Hw). unfold resume. rewrite (get_live m h bh Hh). cbn [then_].
  case_bool_decide as Hs; [|left]. cbn [check then_]. assert (Hout : forall u, (u < nthreads m)%nat -> h ∉ ch u).
  { eapply usable_out; [done|exact Hh|done|]. intros E. rewrite E in Hs. destruct Hs; done. }
  destruct (ci_idle m ch HI h bh Hn (proj1 Hh) Hout) as [e _ S1 K E|k' _ S1 K E|_ S1 E|E _].
  - destruct (enter_ok m ch t h bh (KResume h k) SNormal e) as (m' & Em & HI' & H1 & H2 & H3); try done; [by rewrite K|by left; exists k|].
    unfold switchTo. rewrite Em. by eapply good_entered.
  - destruct (enter_ok m ch t h bh (KResume h k) SNormal (k' SNormal)) as (m' & Em & HI' & H1 & H2 & H3); try done; [by rewrite K|by left; exists k|].
    unfold switchTo. rewrite Em. by eapply good_entered.
  - exfalso. destruct Hs; congruence.
  - destruct Hh. congruence.
Qed.

Lemma destroy_good m ch t h k : cinv m ch -> (t < nthreads m)%nat -> usable m h = true -> good m t (destroyBlock t (current m t) h k m).
Proof.
  intros HI Ht Hu. destruct (usable_live m h Hu) as (Hn & bh & Hh & Hw). unfold destroyBlock. rewrite (get_live m h bh Hh). cbn [then_].
  destruct (decide (state bh = Running)) as [->|Hnr]; [right; right; left|].
  pose proof (usable_out m ch h bh HI Hh Hw Hnr) as Hout.
  assert (Hrel : forall b', released b' = true -> entry b' = false -> cinv (put h b' m) ch).
  { intros b' R1 R2. eapply cinv_idle; [done|apply Hh|done|done|by apply idle_released|by rewrite R1]. }
  destruct (ci_idle m ch HI h bh Hn (proj1 Hh) Hout) as [e _ S1 K E|k' _ S1 K E|_ S1 E|E _]; [..|destruct Hh; congruence]; rewrite S1.
  - unfold destroyEntry. rewrite (upd_live m h bh _ Hh). cbn [then_]. unfold releaseStack.
    rewrite (upd_live _ h (set_entry false bh)) by (split; [apply put_eq|apply Hh]). cbn [then_]. eapply good_stays; [|done|done]. apply cinv_go_on.
    apply cinv_put_put. by apply Hrel.
  - unfold unwindSuspended. destruct (Nat.eqb_spec (current m t) h) as [E2|_]; [exfalso; apply (Hout t Ht); rewrite <- E2; by apply head_in|]. cbn [check negb then_].
    destruct (enter_ok m ch t h bh (KUnwind h k) SForced (k' SForced)) as (m' & Em & HI' & H1 & H2 & H3); try done; [by rewrite K|by right; exists k|].
    unfold switchToOnTop. rewrite Em. by eapply good_entered.
  - unfold releaseStack. rewrite (upd_live m h bh _ Hh). cbn [then_]. eapply good_stays; [|done|done]. apply cinv_go_on. by apply Hrel.
Qed.

(** The coroutine of thread [t] was left, to the context below it. *)
Definition left_well (m : machine) (t : nat) (m' : machine) : Prop :=
  (exists ch, cinv m' ch) /\ nthreads m' = nthreads m /\ (forall u, u <> t -> current m' u = current m u) /\ came_back m m' t.

Lemma left_well_good m t m' : left_well m t m' -> good m t (inr m').
Proof. intros (H1 & H2 & H3 & H4). unfold good. splits; try done. right. by right. Qed.

Lemma good_left m m' t ch bd bl r :
  cinv m' ch -> nthreads m' = nthreads m -> (forall u, u <> t -> current m' u = current m u) -> live m (current m' t) bd -> waits_for (current m t) bd ->
  left_to (fctx bd) bl = Some r -> state bl = leaving_state m t -> leaving_signal m t = match exception bl with Some e => SThrow e | None => SNormal end ->
  code m' t = Some r.1 -> blocks m' (current m t) = Some r.2 -> left_well m t m'.
Proof.
  intros H1 H2 H3 H4 H5 H6 H7 H7' H8 H9. unfold left_well. splits; [by exists ch|done|done|]. exists bd, r.2.
  destruct H5 as [[k E]|[k E]]; rewrite E in H6; cbn [left_to] in H6; apply (inj Some) in H6; subst r; cbn [fst snd] in *; splits; try done; [left|right; by exists k].
  exists k. splits; [done|done|]. rewrite H8, H7'. by destruct (exception bl).
Qed.

Lemma coroutine_current m t : isNativeContext m (current m t) = false -> (nthreads m <= current m t)%nat.
Proof. unfold isNativeContext. intros H. by apply Nat.ltb_ge in H. Qed.

Lemma yield_good m ch t k : cinv m ch -> clean None m -> (t < nthreads m)%nat -> code m t = Some (BYield k) -> unwound m t = false -> good m t (yield (current m t) k m).
Proof.
  intros HI Hx Ht Hcode Hu. unfold yield. destruct (isNativeContext m (current m t)) eqn:En; [right; left|]. cbn [check negb then_].
  pose proof (coroutine_current m t En) as Hn. destruct (current_live m ch t HI Ht) as (bc & Hc & _ & _ & He). rewrite (get_live m _ bc Hc). cbn [then_].
  destruct (leave_ok m m ch t bc Suspended (KYield k)) as (m' & b & bd & E & HI' & H1 & H2 & Hl & Hw & H3 & H4 & r & Er & Hb & Hbl); [by apply same_but_refl, Hc|done|done|done| | |].
  - intros b' [Hb' _]. destruct Hc as [Hc Hr]. assert (b' = bc) as -> by congruence. done.
  - intros bd Hbd. destruct (below m ch t HI Ht Hn) as (d & l & bc2 & bd2 & _ & Hc2 & Hd2 & Hrs & Hw & _).
    assert (bc2 = bc) as -> by (destruct Hc, Hc2; congruence). rewrite Hrs in Hbd. assert (bd2 = bd) as -> by (destruct Hd2; congruence).
    destruct Hw as [[k' E]|[k' E]]; rewrite E.
    + eexists. split; [reflexivity|]. eapply idle_suspended; [apply Hc|done|done|by apply He].
    + exfalso. unfold unwound in Hu. destruct Hc as [Hc _]. rewrite Hc, Hrs, Hbd in Hu. simpl in Hu. by rewrite E, En in Hu.
  - unfold switchTo. rewrite E. apply left_well_good. eapply good_left; [exact HI'|done|done|by rewrite H3|exact Hw|exact Er|by unfold leaving_state; rewrite Hcode| |by rewrite H4, Hb|exact Hbl].
    unfold leaving_signal. rewrite Hcode. simpl. by rewrite (Hx _ bc (fun H => ltac:(discriminate H)) (proj1 Hc)).
Qed.

(** The body of the coroutine of thread [t] is over, with [escaped] thrown out of it. *)
Lemma finish_left m ch t escaped :
  cinv m ch -> clean None m -> (t < nthreads m)%nat -> (nthreads m <= current m t)%nat -> leaving_state m t = Done ->
  leaving_signal m t = match escaped with Some e => SThrow e | None => SNormal end ->
  exists m', contextEntry (current m t) escaped m = inr m' /\ left_well m t m'.
Proof.
  intros HI Hx Ht Hn Hls Hsg. destruct (current_live m ch t HI Ht) as (bc & Hc & _ & _ & He).
  assert (exists m0 b0, (match escaped with Some e => upd (current m t) (set_exception (Some e)) m | None => inr m end) = inr m0 /\
    same_but m m0 (current m t) b0 /\ released b0 = false /\ thread b0 = thread bc /\ resumer b0 = resumer bc /\ exception b0 = escaped) as (m0 & b0 & E0 & S0 & R0 & T0 & U0 & X0).
  { destruct escaped as [e|].
    - rewrite (upd_live m _ bc _ Hc). eexists _, (set_exception (Some e) bc). split; [reflexivity|]. splits; [|apply Hc|done|done|done].
      eapply same_but_put. by apply same_but_refl, Hc.
    - exists m, bc. splits; try done; [by apply same_but_refl, Hc|apply Hc|]. apply (Hx (current m t)); [done|apply Hc]. }
  unfold contextEntry, runBody. rewrite E0. cbn [then_]. unfold destroyEntry. rewrite (upd_live m0 _ b0) by (split; [apply S0|done]). cbn [then_].
  set (m1 := put _ _ m0). assert (S1 : same_but m m1 (current m t) (set_entry false b0)) by (by eapply same_but_put).
  rewrite (get_live m1 _ (set_entry false b0)) by (split; [apply S1|done]). cbn [then_].
  destruct (leave_ok m m1 ch t (set_entry false b0) Done KFinished) as (m' & b & bd & E & HI' & H1 & H2 & Hl & Hw & H3 & H4 & r & Er & Hb & Hbl); [done|done|done|done| | |].
  - intros b' [Hb' _]. destruct Hc as [Hc Hr]. assert (b' = bc) as -> by congruence. done.
  - intros bd Hbd. destruct (below m ch t HI Ht Hn) as (d & l & bc2 & bd2 & _ & Hc2 & Hd2 & Hrs & Hw & _).
    assert (bc2 = bc) as -> by (destruct Hc, Hc2; congruence). cbn [resumer set_entry] in Hbd. rewrite U0, Hrs in Hbd. assert (bd2 = bd) as -> by (destruct Hd2; congruence).
    destruct Hw as [[k' E]|[k' E]]; rewrite E.
    + eexists. split; [reflexivity|]. by apply idle_done.
    + eexists. split; [reflexivity|]. by apply idle_released.
  - unfold finishAndSwitchTo. cbn [resumer set_entry] in E |- *. rewrite E. exists m'. split; [done|].
    eapply good_left; [exact HI'|done|done|by rewrite H3|exact Hw|exact Er|done|simpl; by rewrite X0|by rewrite H4, Hb|exact Hbl].
Qed.

Lemma finish_good m ch t escaped :
  cinv m ch -> clean None m -> (t < nthreads m)%nat -> (nthreads m <= current m t)%nat -> leaving_state m t = Done ->
  leaving_signal m t = match escaped with Some e => SThrow e | None => SNormal end -> good m t (contextEntry (current m t) escaped m).
Proof. intros HI Hx Ht Hn H1 H2. destruct (finish_left m ch t escaped HI Hx Ht Hn H1 H2) as (m' & -> & Hw). by apply left_well_good. Qed.

Lemma make_cinv m ch b : cinv m ch -> cinv (makeCoroutine b m).1 ch.
Proof.
  intros HI. pose proof HI as [I1 I2 I3 I4 I5 I6 I7 I8 I9 I10 I11 I12 I13]. set (nb := MkBlock (KEntry b) 0 0 true Created false None 0 false).
  assert (Hold : forall x bx, blocks m x = Some bx -> blocks (makeCoroutine b m).1 x = Some bx /\ x <> next m).
  { intros x bx Hx. assert (x <> next m) by (intros ->; rewrite I10 in Hx; [done|lia]). split; [|done]. simpl. by rewrite fn_lookup_insert_ne. }
  assert (Hcur : forall t, (t < nthreads m)%nat -> current m t <> next m).
  { intros t Ht. destruct (I8 t Ht) as (bx & Hx & _). by apply (Hold _ bx). }
  split; try done.
  - intros t i x d Ht Hx Hd. destruct (I6 t i x d Ht Hx Hd) as (bx & bd & H1 & H2 & H3 & H4 & H5). exists bx, bd. splits; try done; by apply Hold.
  - intros t x Ht Hx. destruct (I7 t x Ht Hx) as (bx & [H1 H2] & H3). exists bx. split; [|done]. split; [by apply Hold|done].
  - intros t Ht. destruct (I8 t Ht) as (bx & H1 & H2 & H3). exists bx. splits; try done. by apply Hold.
  - intros x bx Hx Hbx Hno. simpl in Hbx. destruct (decide (x = next m)) as [->|Hne].
    + rewrite fn_lookup_insert in Hbx. injection Hbx as <-. by apply (idle_created _ b).
    + rewrite fn_lookup_insert_ne in Hbx by done. by apply (I9 x).
  - intros x Hx. simpl in *. rewrite fn_lookup_insert_ne by lia. apply I10. lia.
  - simpl. lia.
  - intros t Ht. simpl. rewrite fn_lookup_insert_ne by (apply not_eq_sym; by apply Hcur). by apply I12.
  - intros x bx [Hbx Hl] Hno. simpl in *. destruct (decide (x = next m)) as [->|Hne].
    + rewrite fn_lookup_insert in Hbx. injection Hbx as <-. by rewrite fn_lookup_insert.
    + rewrite fn_lookup_insert_ne in Hbx by done. rewrite fn_lookup_insert_ne by done. apply I13; [by split|done].
Qed.

Lemma catch_cinv m ch t eh : cinv m ch -> (t < nthreads m)%nat -> cinv (with_ownEh (<[current m t := eh]> (ownEh m)) (with_liveEh (<[t := eh]> (liveEh m)) m)) ch.
Proof.
  intros HI Ht. pose proof HI as [I1 I2 I3 I4 I5 I6 I7 I8 I9 I10 I11 I12 I13]. split; try done.
  - intros u Hu. simpl. destruct (decide (u = t)) as [->|Hne]; [by rewrite !fn_lookup_insert|]. rewrite fn_lookup_insert_ne by done.
    rewrite fn_lookup_insert_ne; [by apply I12|]. intros E. apply Hne. by apply (current_inj m ch u t).
  - intros x b Hx Hno. simpl. rewrite fn_lookup_insert_ne; [by apply (I13 x b)|]. apply not_eq_sym. by apply (Hno t).
Qed.

Lemma step_good m ch fits t r : cinv m ch -> clean None m -> (t < nthreads m)%nat -> disciplined m t = true -> step fits t m = Some r -> good m t r.
Proof.
  intros HI Hx Ht Hd. unfold step, disciplined in *. destruct (code m t) as [[|e| |k|h k|b k|h k|h k|k|k|eh k]|] eqn:Ecode; simpl; [..|done]; intros [= <-].
  - destruct (isNativeContext m (current m t)) eqn:En; [eapply (good_stays m _ t ch); [by destruct HI|done|done]|].
    eapply finish_good; [done|done|done|by apply coroutine_current|unfold leaving_state; by rewrite Ecode|unfold leaving_signal; by rewrite Ecode].
  - bool_to_prop. rewrite Hd. eapply finish_good; [done|done|done|by apply coroutine_current|unfold leaving_state; by rewrite Ecode|unfold leaving_signal; by rewrite Ecode].
  - bool_to_prop. rewrite Hd. eapply finish_good; [done|done|done|by apply coroutine_current|unfold leaving_state; by rewrite Ecode|unfold leaving_signal; by rewrite Ecode].
  - bool_to_prop. by eapply yield_good.
  - by eapply resume_good.
  - destruct fits; eapply (good_stays m _ t ch); try done; apply cinv_go_on; [by apply (make_cinv m ch b)|done].
  - by eapply destroy_good.
  - unfold owned in Hd. destruct (blocks m h) as [bh|] eqn:Eh; [|done]. bool_to_prop. rewrite (upd_live m h bh) by done. cbn [then_].
    eapply (good_stays m _ t ch); try done. apply cinv_go_on. by eapply cinv_keep.
  - destruct (current_live m ch t HI Ht) as (bc & Hc & _). rewrite (get_live m _ bc Hc). cbn [then_]. eapply (good_stays m _ t ch); try done. by apply cinv_go_on.
  - eapply (good_stays m _ t ch); try done. by apply cinv_go_on.
  - eapply (good_stays m _ t ch); try done. apply cinv_go_on. by apply catch_cinv.
Qed.

(** ** Executions *)

Inductive cstep : machine -> machine -> Prop :=
| cstep_intro m m' t fits : (t < nthreads m)%nat -> disciplined m t = true -> step fits t m = Some (inr m') -> cstep m m'.

Lemma cinv_start progs : cinv (new_machine progs) (fun t => [t]).
Proof.
  split; simpl; try done.
  - intros t c Ht Hc%list_elem_of_singleton _. done.
  - intros t u c Ht Hu Hc%list_elem_of_singleton Hc'%list_elem_of_singleton. congruence.
  - intros t Ht. apply NoDup_singleton.
  - intros t c Ht ->%list_elem_of_singleton. exists (native_block t). unfold live. simpl. apply Nat.ltb_lt in Ht as E. rewrite E. split; [done|lia].
  - intros t Ht. exists (native_block t). apply Nat.ltb_lt in Ht as E. by rewrite E.
  - intros c b Hc. apply Nat.ltb_ge in Hc as E. by rewrite E.
  - intros c Hc. apply Nat.ltb_ge in Hc as E. by rewrite E.
  - intros c b [H _] _. simpl in H. destruct (c <? length progs)%nat; [|done]. by injection H as <-.
Qed.

Lemma clean_start progs : clean None (new_machine progs).
Proof. intros c b _. simpl. destruct (c <? length progs)%nat; [|done]. by intros [= <-]. Qed.

(** An exception that a body throws is handed on within the call. *)
Lemma cstep_clean m ch fits t m' : cinv m ch -> clean None m -> (t < nthreads m)%nat -> disciplined m t = true -> step fits t m = Some (inr m') -> clean None m'.
Proof.
  intros HI Hx Ht Hd Hs. destruct (code m t) as [b|] eqn:Ec; [|unfold step in Hs; by rewrite Ec in Hs].
  destruct (match b with BThrow e => Some e | _ => None end) as [e|] eqn:Eb; [|eapply step_clean; [done|rewrite Ec; by destruct b|done]]. destruct b; try done. clear Eb.
  assert (clean (Some (current m t)) m') as Hm' by (eapply step_clean; [intros c bc _; by apply Hx|by rewrite Ec|done]).
  unfold step, disciplined in *. rewrite Ec in *. bool_to_prop. rewrite Hd in Hs. simpl in Hs. injection Hs as Hs.
  destruct (finish_left m ch t (Some e0)) as (m2 & Em & _ & _ & _ & bd & bh & _ & Hbh & He & _); [done|done|done|by apply coroutine_current|unfold leaving_state; by rewrite Ec|unfold leaving_signal; by rewrite Ec|].
  rewrite Em in Hs. injection Hs as ->. intros c bc _ Hc. destruct (decide (c = current m t)) as [->|Hne]; [congruence|]. apply (Hm' c); [congruence|done].
Qed.

Lemma csteps_ok progs m : rtc cstep (new_machine progs) m -> nthreads m = length progs /\ clean None m /\ exists ch, cinv m ch.
Proof.
  intros Hr. assert (forall m0, rtc cstep m0 m -> nthreads m0 = length progs -> clean None m0 -> (exists ch, cinv m0 ch) -> nthreads m = length progs /\ clean None m /\ exists ch, cinv m ch) as H.
  { clear Hr. induction 1 as [|x y z Hxy _ IH]; intros Hn Hx [ch HI]; [splits; [done|done|by exists ch]|]. destruct Hxy as [x y t fits Ht Hd Hs].
    destruct (step_good x ch fits t _ HI Hx Ht Hd Hs) as (HI' & Hn' & _). apply IH; [congruence|by eapply (cstep_clean x ch)|done]. }
  apply (H (new_machine progs)); [done|done|apply clean_start|]. exists (fun t => [t]). apply cinv_start.
Qed.

Lemma running_in m ch t c b : cinv m ch -> (t < nthreads m)%nat -> c ∈ ch t -> live m c b -> state b = Running -> current m t = c.
Proof.
  intros HI Ht Hin [Hb _] Hs. destruct (decide (c = current m t)) as [->|Hne]; [done|].
  destruct (not_head_waits m ch t c b HI Ht Hin Hne Hb) as [E _]. congruence.
Qed.

Lemma running_current m ch c b : cinv m ch -> live m c b -> state b = Running -> exists t, (t < nthreads m)%nat /\ current m t = c.
Proof.
  intros HI Hb Hs. destruct (decide (Exists (fun t => c ∈ ch t) (seq 0 (nthreads m)))) as [Hex|Hno].
  - apply list.Exists_exists in Hex as (t & Ht%elem_of_seq & Hin). exists t. split; [lia|]. eapply running_in; [done|lia|done|done|done].
  - assert (Hout : forall t, (t < nthreads m)%nat -> c ∉ ch t).
    { intros t Ht Hin. apply Hno. apply list.Exists_exists. exists t. split; [apply elem_of_seq; lia|done]. }
    destruct (Nat.lt_ge_cases c (nthreads m)) as [Hlt|Hge].
    + exfalso. apply (Hout c Hlt). pose proof (ci_base m ch HI c Hlt) as H. rewrite last_lookup in H. by eapply list_elem_of_lookup_2.
    + destruct Hb as [Hb Hl]. destruct (ci_idle m ch HI c b Hge Hb Hout); congruence.
Qed.

(** ** Theorems *)

(** C1: Whatever disciplined code does on any number of threads, the only
    errors are the documented checks of [resume], [yield] and the destructor: no
    block is touched after its stack was released, no finished coroutine is
    entered, and nothing is thrown out of a destructor. *)
Theorem coro_safe (progs : list body) m t fits r :
  rtc cstep (new_machine progs) m -> (t < length progs)%nat -> disciplined m t = true -> step fits t m = Some r ->
  match r with inl e => e ∈ api_errors | inr _ => True end.
Proof.
  intros Hr Ht Hd Hs. destruct (csteps_ok progs m Hr) as (Hn & Hx & ch & HI). assert (good m t r) as H by (eapply step_good; [done|done|by rewrite Hn|done|done]).
  by destruct r.
Qed.

(** C2: In every reachable state each thread runs exactly one context, which
    knows its thread and finds the exception globals as it left them; a context is
    in state [Running] only if some thread runs it; the body of a coroutine exists
    exactly until the coroutine is done, and a stack is released after the body was
    destroyed. *)
Theorem coro_states (progs : list body) m :
  rtc cstep (new_machine progs) m ->
  (forall t, (t < length progs)%nat -> exists b, live m (current m t) b /\ state b = Running /\ thread b = t /\ liveEh m t = ownEh m (current m t)) /\
  (forall c b, live m c b -> state b = Running -> exists t, (t < length progs)%nat /\ current m t = c) /\
  (forall t u, (t < length progs)%nat -> (u < length progs)%nat -> current m t = current m u -> t = u) /\
  (forall c b, live m c b -> state b <> Running -> ehGlobals b = ownEh m c) /\
  (forall c b, (length progs <= c)%nat -> live m c b -> entry b = negb (bool_decide (state b = Done))) /\
  (forall c b, (length progs <= c)%nat -> blocks m c = Some b -> released b = true -> entry b = false).
Proof.
  intros Hr. destruct (csteps_ok progs m Hr) as (Hn & Hx & ch & HI). rewrite <- Hn. splits.
  - intros t Ht. destruct (current_live m ch t HI Ht) as (b & Hb & H1 & H2 & _). exists b. splits; try done. by apply (ci_live_eh m ch HI).
  - intros c b. by apply (running_current m ch).
  - intros t u. by apply (current_inj m ch).
  - intros c b Hb Hs. apply (ci_saved_eh m ch HI c b Hb). intros t Ht ->. destruct (current_live m ch t HI Ht) as (b' & Hb' & _ & H & _).
    destruct Hb, Hb'. congruence.
  - intros c b Hc Hb. destruct (decide (Exists (fun t => c ∈ ch t) (seq 0 (nthreads m)))) as [Hex|Hno].
    + apply list.Exists_exists in Hex as (t & Ht%elem_of_seq & Hin). destruct (ci_busy m ch HI t c ltac:(lia) Hin) as (b' & Hb' & He).
      assert (b' = b) as -> by (destruct Hb, Hb'; congruence). rewrite He by done. rewrite bool_decide_eq_false_2; [done|]. intros Hd.
      destruct (decide (c = current m t)) as [->|Hne].
      * destruct (ci_current m ch HI t ltac:(lia)) as (b' & Hb2 & _ & H). destruct Hb. congruence.
      * destruct (not_head_waits m ch t c b HI ltac:(lia) Hin Hne (proj1 Hb)) as [H _]. congruence.
    + destruct Hb as [Hb Hl]. destruct (ci_idle m ch HI c b Hc Hb) as [e _ S1 _ E|k _ S1 _ E|_ S1 E|E _]; [|by rewrite E, S1..|congruence].
      intros t Ht Hin. apply Hno. apply list.Exists_exists. exists t. split; [apply elem_of_seq; lia|done].
  - intros c b Hc Hb Hrel. destruct (ci_idle m ch HI c b Hc Hb) as [| | |_ E]; [|congruence..|done].
    intros t Ht Hin. destruct (ci_busy m ch HI t c Ht Hin) as (b' & [Hb' Hl] & _). congruence.
Qed.

(** C3: [resume] comes back only when the coroutine it resumed has yielded or
    finished: if a context that waits in [resume(h)] runs again after a step, then
    [h] was running on that thread and is now [Suspended] if it yielded, [Done] if
    its body returned or threw; the context goes on after its [resume], normally or,
    when the body threw, with exactly the exception that was thrown, which is no
    longer in the block of [h]. *)
Theorem coro_resume_post (progs : list body) m m' t fits d bd bd' h k :
  rtc cstep (new_machine progs) m -> (t < length progs)%nat -> disciplined m t = true -> step fits t m = Some (inr m') ->
  live m d bd -> state bd = Suspended -> fctx bd = KResume h k -> live m' d bd' -> state bd' = Running ->
  current m t = h /\ current m' t = d /\
  (exists bh, blocks m' h = Some bh /\ exception bh = None /\ state bh = match code m t with Some (BYield _) => Suspended | _ => Done end) /\
  code m' t = Some (k (match code m t with Some (BThrow e) => SThrow e | _ => SNormal end)).
Proof.
  intros Hr Ht Hd Hs Hb Hsu Hf Hb' Hrun. destruct (csteps_ok progs m Hr) as (Hn & Hx & ch & HI). rewrite <- Hn in Ht.
  destruct (step_good m ch fits t _ HI Hx Ht Hd Hs) as ([ch' HI'] & Hn' & Hu & Hcase).
  destruct (running_current m' ch' d bd' HI' Hb' Hrun) as (u & Hlt & Hcur). rewrite Hn' in Hlt.
  assert (Hnot : forall v, (v < nthreads m)%nat -> current m v <> d).
  { intros v Hv E. destruct (ci_current m ch HI v Hv) as (b & H1 & _ & H2). rewrite E in H1. destruct Hb. congruence. }
  destruct (decide (u = t)) as [->|Hne]; [|by destruct (Hnot u Hlt); rewrite <- Hu]. rewrite Hcur in Hcase.
  destruct Hcase as [E|[E|(b & bh & Hl & Hbh & Hex & Hcb)]]; [by destruct (Hnot t Ht)| |].
  - destruct (usable_live m d E) as (_ & b & Hl & Hw). assert (b = bd) as -> by (destruct Hl, Hb; congruence). unfold waiting in Hw. by rewrite Hsu, Hf in Hw.
  - rewrite Hcur in Hl. assert (b = bd) as -> by (destruct Hl, Hb; congruence). destruct Hcb as [(k' & E & H1 & H2)|(k' & E)]; [|congruence].
    rewrite Hf in E. injection E as -> ->. splits; [done|done|by exists bh|done].
Qed.

(** *** Executable runs *)

(** The calls of the threads named by [l], as long as they are disciplined and succeed. *)
Fixpoint run_calls (l : list nat) (m : machine) : machine :=
  match l with
  | [] => m
  | t :: l' =>
      if (t <? nthreads m)%nat && disciplined m t
      then match step true t m with Some (inr m') => run_calls l' m' | _ => m end
      else m
  end.

Lemma run_calls_reach l m : rtc cstep m (run_calls l m).
Proof.
  revert m. induction l as [|t l IH]; intros m; simpl; [apply rtc_refl|].
  destruct ((t <? nthreads m)%nat && disciplined m t) eqn:E; [|apply rtc_refl]. bool_to_prop. apply Nat.ltb_lt in H.
  destruct (step true t m) as [[e|m']|] eqn:Es; [apply rtc_refl| |apply rtc_refl]. eapply rtc_l; [|apply IH]. by eapply cstep_intro.
Qed.

(** A switch from the running context [c] of thread [t] to [h], whatever [h] waits for. *)
Lemma switch_back m t c h bc bh st saved k :
  live m c bc -> live m h bh -> c <> h -> thread bc = t -> fctx bh = KResume c k -> exception bc = None ->
  exists m', (m1 <-? prepareDeparture c h st m;; jump c h saved SNormal m1) = inr m' /\
    moved m m' t c h (left_block m bc st saved) (entered_block bc bh) (ehGlobals bh) /\ code m' t = Some (k SNormal) /\ nthreads m' = nthreads m.
Proof.
  intros Hc Hh Hne <- Hk He. destruct (switch_moves m c h bc bh st saved SNormal Hc Hh Hne) as (m1 & Hmv & ->). rewrite Hk.
  assert (live m1 h (entered_block bc bh)) as Hl1 by (destruct Hh; split; [apply (mv_h _ _ _ _ _ _ _ _ Hmv)|done]).
  assert (live m1 c (left_block m bc st saved)) as Hl2 by (destruct Hc; split; [apply (mv_c _ _ _ _ _ _ _ _ Hmv)|done]).
  exists (go_on (thread bc) (k SNormal) m1). unfold continue_. rewrite (get_live m1 h _ Hl1). cbn [then_]. rewrite (get_live m1 c _ Hl2). cbn [then_ exception left_block set_eh set_fctx set_state].
  rewrite He. splits; [done|by apply moved_go_on|apply fn_lookup_insert|apply (mv_threads _ _ _ _ _ _ _ _ Hmv)].
Qed.

(** A switch to a coroutine that is done. *)
Lemma finished_entered m c h bc bh st saved :
  live m c bc -> live m h bh -> c <> h -> fctx bh = KFinished ->
  (m1 <-? prepareDeparture c h st m;; jump c h saved SNormal m1) = inl "stackfull: a finished coroutine was resumed"%string.
Proof.
  intros Hc Hh Hne Hk. destruct (switch_moves m c h bc bh st saved SNormal Hc Hh Hne) as (m1 & Hmv & ->). rewrite Hk. unfold continue_.
  rewrite (get_live m1 h (entered_block bc bh)); [done|]. destruct Hh. split; [apply (mv_h _ _ _ _ _ _ _ _ Hmv)|done].
Qed.

(** The running body of thread [t] returns, to the context that resumed it. *)
Lemma return_switches m t bc :
  code m t = Some BReturn -> (nthreads m <= current m t)%nat -> live m (current m t) bc ->
  exists m1, step true t m = Some (m2 <-? prepareDeparture (current m t) (resumer bc) Done m1;; jump (current m t) (resumer bc) KFinished SNormal m2) /\
    same_but m m1 (current m t) (set_entry false bc) /\ code m1 = code m.
Proof.
  intros Hcode Hn Hc. unfold step. rewrite Hcode. simpl. assert (isNativeContext m (current m t) = false) as -> by (by apply Nat.ltb_ge).
  unfold contextEntry, runBody, destroyEntry. cbn [then_]. rewrite (upd_live m _ bc _ Hc). cbn [then_].
  rewrite (get_live _ _ (set_entry false bc)) by (split; [apply put_eq|apply Hc]). cbn [then_]. eexists. split; [reflexivity|]. split; [|done].
  eapply same_but_put. by apply same_but_refl, Hc.
Qed.

(** C34: Without the discipline the checks in [resume] are not enough.  Whatever
    disciplined code has done before, a coroutine [c] that resumes the coroutine
    [d] that resumed it passes every check: [d] goes on as if [c] had yielded,
    while [c] waits inside [resume(d)]; and if both bodies then return, [c] is
    sent to [d], which is done, and the program is aborted. *)
Theorem coro_resume_cycle (progs : list body) m t bc d bd k k' :
  rtc cstep (new_machine progs) m -> (t < length progs)%nat -> (length progs <= current m t)%nat -> code m t = Some (BResume d k) ->
  blocks m (current m t) = Some bc -> resumer bc = d -> (length progs <= d)%nat -> blocks m d = Some bd -> fctx bd = KResume (current m t) k' ->
  exists m1, step true t m = Some (inr m1) /\ current m1 t = d /\ code m1 t = Some (k' SNormal) /\
    (exists b, blocks m1 (current m t) = Some b /\ state b = Suspended /\ fctx b = KResume d k) /\
    (k' SNormal = BReturn -> k SNormal = BReturn ->
     exists m2, step true t m1 = Some (inr m2) /\ current m2 t = current m t /\
       step true t m2 = Some (inl "stackfull: a finished coroutine was resumed"%string)).
Proof.
  intros Hr Ht Hnc Hcode Hbc Hres Hnd Hbd Hk. destruct (csteps_ok progs m Hr) as (Hn & Hx & ch & HI). rewrite <- Hn in Ht, Hnc, Hnd.
  destruct (below m ch t HI Ht Hnc) as (d2 & l & bc2 & bd2 & _ & Hc & Hd & Hrs & _ & Hsd & Hne). assert (bc2 = bc) as -> by (destruct Hc; congruence).
  assert (d2 = d) as -> by congruence. assert (bd2 = bd) as -> by (destruct Hd; congruence).
  destruct (current_live m ch t HI Ht) as (bc2 & Hc2 & Hth & _). assert (bc2 = bc) as -> by (destruct Hc, Hc2; congruence). clear Hc2 Hrs. set (c := current m t) in *.
  set (m0 := put d (set_resumer c bd) m).
  assert (live m0 c bc) as Hc0 by (destruct Hc; split; [unfold m0; rewrite put_ne by done; done|done]).
  assert (live m0 d (set_resumer c bd)) as Hd0 by (destruct Hd; split; [apply put_eq|done]).
  destruct (switch_back m0 t c d bc (set_resumer c bd) Suspended (KResume d k) k') as (m1 & E1 & Hmv & Hcode1 & Hn1); [done|done|done|done|done|by apply (Hx c)|].
  exists m1. pose proof (mv_current _ _ _ _ _ _ _ _ Hmv) as Hcur1. splits; [|done|done| |].
  - unfold step. rewrite Hcode. simpl. fold c. unfold resume. rewrite (get_live m d bd Hd). cbn [then_]. rewrite bool_decide_eq_true_2 by (by right). cbn [check then_].
    rewrite (upd_live m d bd _ Hd). cbn [then_]. unfold switchTo. fold m0. by rewrite E1.
  - eexists. split; [apply (mv_c _ _ _ _ _ _ _ _ Hmv)|done].
  - intros R1 R2. rewrite R1 in Hcode1.
    assert (live m1 c (left_block m0 bc Suspended (KResume d k))) as Hc1 by (destruct Hc; split; [apply (mv_c _ _ _ _ _ _ _ _ Hmv)|done]).
    assert (live m1 d (entered_block bc (set_resumer c bd))) as Hd1 by (destruct Hd; split; [apply (mv_h _ _ _ _ _ _ _ _ Hmv)|done]).
    destruct (return_switches m1 t (entered_block bc (set_resumer c bd)) Hcode1) as (n1 & S1 & B1 & _); [rewrite Hcur1, Hn1; done|by rewrite Hcur1|]. rewrite Hcur1 in S1, B1. cbn [resumer entered_block set_thread set_state set_resumer] in S1.
    destruct B1 as [Bb Bo Bc Bl Bw Bn Bt].
    destruct (switch_back n1 t d c (set_entry false (entered_block bc (set_resumer c bd))) (left_block m0 bc Suspended (KResume d k)) Done KFinished k) as (m2 & E2 & Hmv2 & Hcode2 & Hn2);
      [destruct Hd1; split; done|destruct Hc1; split; [by rewrite Bo|done]|done|done|done|simpl; by apply (Hx d), Hd|].
    exists m2. pose proof (mv_current _ _ _ _ _ _ _ _ Hmv2) as Hcur2. rewrite S1, E2. splits; [done|done|]. rewrite R2 in Hcode2.
    destruct (return_switches m2 t (entered_block (set_entry false (entered_block bc (set_resumer c bd))) (left_block m0 bc Suspended (KResume d k))) Hcode2) as (n2 & S2 & B2 & _);
      [rewrite Hcur2, Hn2, Bt, Hn1; done|rewrite Hcur2; split; [apply (mv_h _ _ _ _ _ _ _ _ Hmv2)|apply Hc]|]. rewrite Hcur2 in S2, B2. rewrite S2. f_equal.
    cbn [resumer entered_block left_block set_thread set_state set_resumer set_eh set_fctx]. rewrite Hres.
    destruct B2 as [Cb Co _ _ _ _ _].
    eapply (finished_entered n2 c d _ (left_block n1 (set_entry false (entered_block bc (set_resumer c bd))) Done KFinished)); [split; [exact Cb|apply Hc]| |done|done].
    split; [|apply Hd]. rewrite Co by done. apply (mv_c _ _ _ _ _ _ _ _ Hmv2).
Qed.

(** *** A generator that throws, used from two threads *)

Definition demo_gen : body := BYield (fun s => match s with SForced => BUnwind | _ => BThrow 5 end).
Definition demo_main : body :=
  BMake demo_gen (fun _ => BResume 2 (fun _ => BResume 2 (fun s => match s with SThrow _ => BDestroy 2 BReturn | _ => BReturn end))).
Definition demo_progs : list body := [demo_main; BCatch 3 BReturn].

Definition demo_at (l : list nat) : machine := run_calls l (new_machine demo_progs).

(** A finished coroutine is resumed once more. *)
Definition demo_bad : machine := run_calls [0; 0; 0]%nat (new_machine [BMake BReturn (fun _ => BResume 1 (fun _ => BResume 1 (fun _ => BReturn)))]).

Lemma coro_safe_witness : "stackfull: resume() requires a Created or Suspended coroutine"%string ∈ api_errors.
Proof.
  refine (coro_safe [BMake BReturn (fun _ => BResume 1 (fun _ => BResume 1 (fun _ => BReturn)))] demo_bad 0 true
    (inl "stackfull: resume() requires a Created or Suspended coroutine"%string) _ _ _ _).
  - apply run_calls_reach.
  - simpl. lia.
  - vm_compute. reflexivity.
  - vm_compute. reflexivity.
Defined.

(** Coroutine 1 resumes coroutine 2, which resumes coroutine 1. *)
Definition demo_cycle_main : body :=
  BMake (BResume 2 (fun _ => BReturn)) (fun _ => BMake (BResume 1 (fun _ => BReturn)) (fun _ => BResume 1 (fun _ => BReturn))).
Definition demo_cycle : machine := run_calls [0; 0; 0; 0]%nat (new_machine [demo_cycle_main]).

Lemma coro_resume_cycle_witness : exists m2, current m2 0 = 2%nat /\ step true 0 m2 = Some (inl "stackfull: a finished coroutine was resumed"%string).
Proof.
  destruct (coro_resume_cycle [demo_cycle_main] demo_cycle 0 (default (native_block 0) (blocks demo_cycle 2)) 1 (default (native_block 0) (blocks demo_cycle 1))
    (fun _ => BReturn) (fun _ => BReturn)) as (m1 & _ & _ & _ & _ & H);
    [apply run_calls_reach|simpl; lia|apply Nat.leb_le; vm_compute; reflexivity|vm_compute; reflexivity|vm_compute; reflexivity|vm_compute; reflexivity|apply Nat.leb_le; vm_compute; reflexivity|vm_compute; reflexivity|vm_compute; reflexivity|].
  destruct (H eq_refl eq_refl) as (m2 & _ & Hc & Hs). exists m2. exact (conj Hc Hs).
Defined.

Lemma coro_states_witness : exists b, live (demo_at [0; 0]%nat) (current (demo_at [0; 0]%nat) 0) b /\ state b = Running.
Proof.
  destruct (coro_states demo_progs (demo_at [0; 0]%nat)) as (H & _); [apply run_calls_reach|].
  destruct (H 0%nat) as (b & Hb & Hs & _); [simpl; lia|]. exists b. exact (conj Hb Hs).
Defined.

(** The generator is about to throw 5, and has thrown it. *)
Definition demo_before : machine := demo_at [0; 0; 0; 0]%nat.
Definition demo_after : machine := demo_at [0; 0; 0; 0; 0]%nat.

Lemma coro_resume_post_witness : current demo_after 0 = 0%nat /\ code demo_after 0 = Some (BDestroy 2 BReturn).
Proof.
  destruct (coro_resume_post demo_progs demo_before demo_after 0 true 0 (default (native_block 0) (blocks demo_before 0)) (default (native_block 0) (blocks demo_after 0)) 2
    (fun s => match s with SThrow _ => BDestroy 2 BReturn | _ => BReturn end)) as (_ & H1 & _ & H2);
    [apply run_calls_reach|simpl; lia|vm_compute; reflexivity|vm_compute; reflexivity|split; vm_compute; reflexivity|vm_compute; reflexivity|vm_compute; reflexivity
    |split; vm_compute; reflexivity|vm_compute; reflexivity|]. exact (conj H1 H2).
Defined.
