(* ===== verification/SocketAddress.v ===== *)
(** * SocketAddress: endpoints and their text

    io/src/SocketAddress.cpp.  [storage] is the [sockaddr_storage] byte by
    byte, with the Linux layouts of [sockaddr_in], [sockaddr_in6] and
    [sockaddr_un] (little-endian host); a C string is the list of its bytes
    without the terminator.  [inet_pton] and [inet_ntop] belong to the C library
    and are parameters. *)

From Stdlib Require Import ZArith Lia Ascii String.
From stdpp Require Import base tactics list numbers option.
From S2P Require Import Prelude.

Notation bytes := (list Z).

Definition b (s : string) : bytes := (fun c => Z.of_nat (nat_of_ascii c)) <$> list_ascii_of_string s.

(** ** Words and bytes *)

Fixpoint le_bytes (n : nat) (v : Z) : bytes :=
  match n with
  | O => []
  | S n => Z.land v 255 :: le_bytes n (Z.shiftr v 8)
  end.
Fixpoint le_word (l : bytes) : Z :=
  match l with
  | [] => 0
  | x :: l => Z.lor x (Z.shiftl (le_word l) 8)
  end.

(** On a little-endian host these reverse the bytes. *)
Definition htons (v : Z) : Z := le_word (reverse (le_bytes 2 v)).
Definition ntohs (v : Z) : Z := htons v.
Definition htonl (v : Z) : Z := le_word (reverse (le_bytes 4 v)).
Definition ntohl (v : Z) : Z := htonl v.

(** ** The address *)

Record SocketAddress := MkSocketAddress { storage : bytes; length_ : Z }.

Definition no_address : SocketAddress := MkSocketAddress (replicate 128 0) 0.

Definition AF_UNIX : Z := 1.
Definition AF_INET : Z := 2.
Definition AF_INET6 : Z := 10.
Definition sizeof_sockaddr_in : Z := 16.
Definition sizeof_sockaddr_in6 : Z := 28.
Definition offsetof_sun_path : nat := 2.
Definition sizeof_sun_path : nat := 108.
Definition INET6_ADDRSTRLEN : nat := 46.

(** [memcpy] to an offset, and the field of a structure. *)
Definition blit (off : nat) (x st : bytes) : bytes := take off st ++ x ++ drop (off + length x) st.
Definition field (off n : nat) (st : bytes) : bytes := take n (drop off st).

Definition family (a : SocketAddress) : Z := le_word (field 0 2 (storage a)).

Definition ipv4 (hostOrder port : Z) : SocketAddress :=
  let st := blit 0 (le_bytes 2 AF_INET) (storage no_address) in
  let st := blit 2 (le_bytes 2 (htons port)) st in
  let st := blit 4 (le_bytes 4 (htonl hostOrder)) st in
  MkSocketAddress st sizeof_sockaddr_in.

Definition ipv6 (address : bytes) (port : Z) : SocketAddress :=
  let st := blit 0 (le_bytes 2 AF_INET6) (storage no_address) in
  let st := blit 2 (le_bytes 2 (htons port)) st in
  let st := blit 8 address st in
  MkSocketAddress st sizeof_sockaddr_in6.

Definition unixAddress (name : bytes) (prefix : nat) (terminate : bool) : option SocketAddress :=
  let term := if terminate then 1%nat else 0%nat in
  if bool_decide (sizeof_sun_path < prefix + length name + term)%nat then None
  else
    let st := blit 0 (le_bytes 2 AF_UNIX) (storage no_address) in
    let st := blit (offsetof_sun_path + prefix) name st in
    Some (MkSocketAddress st (Z.of_nat (offsetof_sun_path + prefix + length name + term))).

Definition INADDR_LOOPBACK : Z := 0x7f000001.
Definition INADDR_ANY : Z := 0.
Definition in6addr_loopback : bytes := replicate 15 0 ++ [1].
Definition in6addr_any : bytes := replicate 16 0.

Definition loopback (port : Z) : SocketAddress := ipv4 INADDR_LOOPBACK port.
Definition loopbackV6 (port : Z) : SocketAddress := ipv6 in6addr_loopback port.
Definition any (port : Z) : SocketAddress := ipv4 INADDR_ANY port.
Definition anyV6 (port : Z) : SocketAddress := ipv6 in6addr_any port.

Definition unixPath (path : bytes) : option SocketAddress := unixAddress path 0 true.
Definition unixAbstract (name : bytes) : option SocketAddress := unixAddress name 1 false.

Definition port (a : SocketAddress) : Z :=
  if bool_decide (family a = AF_INET) then ntohs (le_word (field 2 2 (storage a)))
  else if bool_decide (family a = AF_INET6) then ntohs (le_word (field 2 2 (storage a)))
  else 0.

(** ** Text *)

(** [%u]: the decimal digits. *)
Fixpoint decimal_go (fuel : nat) (n : Z) : bytes :=
  match fuel with
  | O => []
  | S fuel => if n <? 10 then [48 + n] else decimal_go fuel (n / 10) ++ [48 + n mod 10]
  end.
(** Ten digits are enough for 32 bits. *)
Definition decimal (n : Z) : bytes := decimal_go 10 n.

(** [snprintf] into a buffer of [size] bytes keeps what fits before the terminator. *)
Definition snprintf (size : nat) (text : bytes) : bytes := take (size - 1) text.

Definition strnlen (x : bytes) (n : nat) : nat :=
  default (Nat.min n (length x)) (fst <$> list_find (fun c => c = 0) (take n x)).

Section inet.
Context (inet_pton4 inet_pton6 : bytes -> option bytes) (inet_ntop4 inet_ntop6 : bytes -> bytes).

Definition parse (host : bytes) (p : Z) : option SocketAddress :=
  match inet_pton4 host with
  | Some v4 => Some (ipv4 (ntohl (le_word v4)) p)
  | None =>
      match inet_pton6 host with
      | Some v6 => Some (ipv6 v6 p)
      | None => None
      end
  end.

Definition toString (a : SocketAddress) : bytes :=
  if bool_decide (family a = AF_INET) then
    let host := inet_ntop4 (field 4 4 (storage a)) in
    snprintf (INET6_ADDRSTRLEN + 16) (host ++ b ":" ++ decimal (port a))
  else if bool_decide (family a = AF_INET6) then
    let host := inet_ntop6 (field 8 16 (storage a)) in
    snprintf (INET6_ADDRSTRLEN + 16) (b "[" ++ host ++ b "]:" ++ decimal (port a))
  else if bool_decide (family a = AF_UNIX) then
    let sun_path := field offsetof_sun_path sizeof_sun_path (storage a) in
    let total := Z.to_nat (length_ a) in
    let pathBytes := if bool_decide (offsetof_sun_path < total)%nat then (total - offsetof_sun_path)%nat else 0%nat in
    if negb (pathBytes =? 0)%nat && bool_decide (sun_path !! 0%nat = Some 0) then
      b "unix:@" ++ take (pathBytes - 1) (drop 1 sun_path)
    else b "unix:" ++ take (strnlen sun_path pathBytes) sun_path
  else b "(none)".
End inet.

(** ** Reading the text back

    The inverse of [toString] for an address with a port: the host is what
    stands before the last colon, without the brackets. *)

Definition read_decimal (l : bytes) : Z := fold_left (fun acc c => acc * 10 + (c - 48)) l 0.

Definition strip (host : bytes) : bytes :=
  match host with
  | 91 :: r => take (length r - 1) r
  | _ => host
  end.

Fixpoint after_colon (l : bytes) (acc : bytes) : option (bytes * bytes) :=
  match l with
  | [] => None
  | 58 :: r => Some (reverse r, acc)
  | c :: r => after_colon r (c :: acc)
  end.
Definition split_text (text : bytes) : option (bytes * Z) :=
  match after_colon (reverse text) [] with
  | Some (host, digits) => Some (strip host, read_decimal digits)
  | None => None
  end.

(** ** Bytes *)

Definition is_byte (x : Z) : Prop := 0 <= x < 256.

Lemma land_255 v : Z.land v 255 = v mod 256.
Proof. apply (land_pow2_mask v 8). lia. Qed.

Lemma byte_cons x r : is_byte x -> 0 <= r -> Z.lor x (Z.shiftl r 8) = x + 256 * r.
Proof. intros [? ?] ?. rewrite Z.lor_comm, lor_shiftl_add; lia. Qed.

Lemma le_bytes_ok n v : length (le_bytes n v) = n /\ Forall is_byte (le_bytes n v).
Proof.
  revert v. induction n as [|n IH]; intros v; [done|]. destruct (IH (Z.shiftr v 8)) as [H1 H2]. cbn [le_bytes length]. split; [lia|].
  constructor; [|done]. rewrite land_255. apply Z.mod_pos_bound. lia.
Qed.

Lemma le_word_nonneg l : Forall is_byte l -> 0 <= le_word l.
Proof. induction 1 as [|x l Hx _ IH]; [done|]. cbn [le_word]. rewrite byte_cons by done. destruct Hx. lia. Qed.

Lemma le_word_bytes n v : 0 <= v -> le_word (le_bytes n v) = v mod 256 ^ Z.of_nat n.
Proof.
  revert v. induction n as [|n IH]; intros v Hv; [by rewrite Z.mod_1_r|]. cbn [le_bytes le_word].
  rewrite byte_cons, IH, land_255, Z.shiftr_div_pow2 by
    first [lia | apply Z.shiftr_nonneg; lia | rewrite land_255; apply Z.mod_pos_bound; lia | apply le_word_nonneg, le_bytes_ok].
  rewrite Nat2Z.inj_succ, Z.pow_succ_r by lia. change (2 ^ 8) with 256. rewrite Z.rem_mul_r by lia. done.
Qed.

Lemma le_bytes_word l : Forall is_byte l -> le_bytes (length l) (le_word l) = l.
Proof.
  induction 1 as [|x l Hx Hl IH]; [done|]. cbn [length le_bytes le_word]. pose proof (le_word_nonneg l Hl). rewrite byte_cons by done.
  rewrite land_255, Z.shiftr_div_pow2 by lia. change (2 ^ 8) with 256. destruct Hx. f_equal; [dlia|].
  transitivity (le_bytes (length l) (le_word l)); [|done]. f_equal. dlia.
Qed.

Lemma swap_swap n v : 0 <= v < 256 ^ Z.of_nat n -> le_word (reverse (le_bytes n (le_word (reverse (le_bytes n v))))) = v.
Proof.
  intros Hv. destruct (le_bytes_ok n v) as [Hl Hb]. 
  assert (E : le_bytes n (le_word (reverse (le_bytes n v))) = reverse (le_bytes n v)).
  { rewrite <- (length_reverse (le_bytes n v)) in Hl. rewrite <- Hl at 1. apply le_bytes_word. by apply Forall_reverse. }
  rewrite E, reverse_involutive, le_word_bytes by lia. by apply Z.mod_small.
Qed.

(** ** Decimal numbers *)

Lemma decimal_go_digits fuel n : 0 <= n -> Forall (fun c => 48 <= c <= 57) (decimal_go fuel n) /\ (length (decimal_go fuel n) <= fuel)%nat.
Proof.
  revert n. induction fuel as [|fuel IH]; intros n Hn; [done|]. cbn [decimal_go]. zcase.
  - split; [repeat constructor; lia|simpl; lia].
  - destruct (IH (n / 10)) as [H1 H2]; [dlia|]. split; [|rewrite length_app; simpl; lia]. apply Forall_app. split; [done|]. repeat constructor; dlia.
Qed.

Lemma read_decimal_go fuel n : 0 <= n < 10 ^ Z.of_nat fuel -> read_decimal (decimal_go fuel n) = n.
Proof.
  revert n. induction fuel as [|fuel IH]; intros n Hn; [simpl in Hn; by replace n with 0 by lia|]. cbn [decimal_go]. zcase; [cbn; lia|].
  unfold read_decimal in *. rewrite fold_left_app. rewrite IH; [cbn; dlia|]. rewrite Nat2Z.inj_succ, Z.pow_succ_r in Hn by lia. dlia.
Qed.

Lemma decimal_short n : 0 <= n < 65536 -> (length (decimal n) <= 5)%nat.
Proof.
  intros Hn. unfold decimal. assert (decimal_go 10 n = decimal_go 5 n) as ->; [|apply decimal_go_digits; lia].
  do 5 (cbn [decimal_go]; zcase; [done|]; f_equal). cbn [decimal_go]. exfalso. revert Hn. dlia.
Qed.

Lemma after_colon_digits ds r acc : Forall (fun c => c <> 58) ds -> after_colon (ds ++ 58 :: r) acc = Some (reverse r, reverse ds ++ acc).
Proof.
  intros H. revert acc. induction H as [|c ds Hc _ IH]; intros acc; [done|]. rewrite reverse_cons, <- app_assoc. simpl. rewrite IH.
  destruct (decide (c = 58)); [done|]. simpl. repeat match goal with |- context [match ?p with _ => _ end] => destruct p end; done.
Qed.

Lemma split_text_app host n : 0 <= n < 65536 -> split_text (host ++ b ":" ++ decimal n) = Some (strip host, n).
Proof.
  intros Hn. destruct (decimal_go_digits 10 n) as [Hd _]; [lia|]. unfold split_text. rewrite !reverse_app, <- app_assoc.
  change (reverse (b ":")) with [58]. simpl. rewrite after_colon_digits.
  - rewrite app_nil_r, !reverse_involutive. unfold decimal. rewrite read_decimal_go; [done|]. simpl. lia.
  - apply Forall_reverse. eapply list.Forall_impl; [exact Hd|]. simpl. lia.
Qed.

(** ** Addresses *)

(** What inet_pton(3) and inet_ntop(3) document. *)
Record inet_laws (pton4 pton6 : bytes -> option bytes) (ntop4 ntop6 : bytes -> bytes) : Prop := {
  pton4_bytes : forall h x, pton4 h = Some x -> length x = 4%nat /\ Forall is_byte x;
  pton6_bytes : forall h x, pton6 h = Some x -> length x = 16%nat /\ Forall is_byte x;
  pton4_ntop4 : forall x, length x = 4%nat -> Forall is_byte x -> pton4 (ntop4 x) = Some x;
  pton6_ntop6 : forall x, length x = 16%nat -> Forall is_byte x -> pton6 (ntop6 x) = Some x;
  pton4_ntop6 : forall x, length x = 16%nat -> Forall is_byte x -> pton4 (ntop6 x) = None;
  ntop4_text : forall x, length x = 4%nat -> Forall is_byte x -> (length (ntop4 x) <= 15)%nat /\ Forall (fun c => c = 46 \/ 48 <= c <= 57) (ntop4 x);
  ntop6_text : forall x, length x = 16%nat -> Forall is_byte x -> (length (ntop6 x) <= 45)%nat
}.

Lemma le_word_bound l : Forall is_byte l -> 0 <= le_word l < 256 ^ Z.of_nat (length l).
Proof.
  intros H. rewrite <- (le_bytes_word l H), le_word_bytes by (by apply le_word_nonneg). rewrite (proj1 (le_bytes_ok _ _)).
  apply Z.mod_pos_bound. lia.
Qed.

Lemma stored_swap n v : 0 <= v < 256 ^ Z.of_nat n -> le_word (reverse (le_bytes n (le_word (le_bytes n (le_word (reverse (le_bytes n v))))))) = v.
Proof.
  intros Hv. set (w := le_word (reverse (le_bytes n v))). assert (le_bytes n (le_word (le_bytes n w)) = le_bytes n w) as ->; [|by apply swap_swap].
  destruct (le_bytes_ok n w) as [Hl Hb]. rewrite <- Hl at 1. by apply le_bytes_word.
Qed.

Lemma word4_stored x : length x = 4%nat -> Forall is_byte x -> le_bytes 4 (htonl (ntohl (le_word x))) = x.
Proof.
  intros Hl Hb. unfold ntohl, htonl. rewrite (swap_swap 4).
  - rewrite <- Hl. by apply le_bytes_word.
  - pose proof (le_word_bound x Hb) as H. by rewrite Hl in H.
Qed.

Lemma ipv4_fields h p :
  0 <= p < 65536 -> family (ipv4 h p) = AF_INET /\ port (ipv4 h p) = p /\ field 4 4 (storage (ipv4 h p)) = le_bytes 4 (htonl h).
Proof.
  intros Hp. assert (Hf : family (ipv4 h p) = AF_INET) by done. splits; [done| |done].
  unfold port. rewrite Hf, bool_decide_eq_true_2 by done. apply (stored_swap 2 p Hp).
Qed.

Lemma ipv6_fields x p :
  length x = 16%nat -> 0 <= p < 65536 -> family (ipv6 x p) = AF_INET6 /\ port (ipv6 x p) = p /\ field 8 16 (storage (ipv6 x p)) = x.
Proof.
  intros Hl Hp. do 17 (destruct x as [|? x]; try done). splits; [done| |done].
  unfold port. change (family (ipv6 _ p)) with AF_INET6. rewrite bool_decide_eq_false_2, bool_decide_eq_true_2 by done. apply (stored_swap 2 p Hp).
Qed.

Section text.
Context (pton4 pton6 : bytes -> option bytes) (ntop4 ntop6 : bytes -> bytes) (L : inet_laws pton4 pton6 ntop4 ntop6).

Lemma toString_v4 h p : 0 <= p < 65536 -> toString ntop4 ntop6 (ipv4 h p) = ntop4 (le_bytes 4 (htonl h)) ++ b ":" ++ decimal p.
Proof.
  intros Hp. destruct (ipv4_fields h p Hp) as (H1 & H2 & H3). unfold toString, snprintf. rewrite H1, H2, H3, bool_decide_eq_true_2 by done.
  apply take_ge. rewrite !length_app. destruct (le_bytes_ok 4 (htonl h)) as [Hl Hb].
  pose proof (proj1 (ntop4_text _ _ _ _ L _ Hl Hb)). pose proof (decimal_short p Hp).
  change (length (b ":")) with 1%nat. unfold INET6_ADDRSTRLEN. lia.
Qed.

Lemma toString_v6 x p : length x = 16%nat -> Forall is_byte x -> 0 <= p < 65536 -> toString ntop4 ntop6 (ipv6 x p) = (b "[" ++ ntop6 x ++ b "]") ++ b ":" ++ decimal p.
Proof.
  intros Hl Hb Hp. destruct (ipv6_fields x p Hl Hp) as (H1 & H2 & H3). unfold toString, snprintf.
  rewrite H1, H2, H3, bool_decide_eq_false_2, bool_decide_eq_true_2 by done.
  rewrite take_ge; [by rewrite <- !(app_assoc (A := Z))|]. rewrite !length_app. pose proof (ntop6_text _ _ _ _ L x Hl Hb). pose proof (decimal_short p Hp).
  change (length (b "[")) with 1%nat. change (length (b "]:")) with 2%nat. unfold INET6_ADDRSTRLEN. lia.
Qed.

Lemma strip_v4 x : length x = 4%nat -> Forall is_byte x -> strip (ntop4 x) = ntop4 x.
Proof.
  intros Hl Hb. destruct (ntop4_text _ _ _ _ L x Hl Hb) as [_ H]. destruct (ntop4 x) as [|c r]; [done|]. inversion H as [|? ? Hc _]. subst.
  unfold strip. repeat match goal with |- context [match ?p with _ => _ end] => destruct p; try done end. exfalso. lia.
Qed.

Lemma strip_v6 l : strip (b "[" ++ l ++ b "]") = l.
Proof. change (strip (91 :: (l ++ [93])) = l). simpl. rewrite length_app. simpl. rewrite take_app_le, take_ge by lia. done. Qed.
End text.

(** ** Unix-domain addresses *)

(** The structure after [unixAddress]. *)
Lemma unix_storage name k :
  (k <= 1)%nat -> (k + length name <= sizeof_sun_path)%nat ->
  let st := blit (offsetof_sun_path + k) name (blit 0 (le_bytes 2 AF_UNIX) (storage no_address)) in
  field 0 2 st = le_bytes 2 AF_UNIX /\ field offsetof_sun_path sizeof_sun_path st = replicate k 0 ++ name ++ replicate (sizeof_sun_path - k - length name) 0.
Proof.
  intros Hk Hl. unfold offsetof_sun_path, sizeof_sun_path in *.
  change (blit 0 (le_bytes 2 AF_UNIX) (storage no_address)) with ([1; 0] ++ replicate 126 0). cbv zeta. unfold blit, field.
  assert (take (2 + k) ([1; 0] ++ replicate 126 0) = [1; 0] ++ replicate k 0) as -> by (destruct k as [|[|]]; [done|done|lia]).
  rewrite <- (app_assoc [1; 0]). split; [done|]. rewrite drop_app_ge by (simpl; lia).
  change (length [1; 0]) with 2%nat. rewrite drop_0. rewrite drop_app_ge by (simpl; lia). change (length [1; 0]) with 2%nat.
  rewrite drop_replicate, take_app_ge, take_app_ge, take_replicate by (rewrite ?length_replicate; lia).
  f_equal. f_equal. f_equal. rewrite length_replicate. lia.
Qed.

Lemma unix_toString ntop4 ntop6 st len :
  field 0 2 st = le_bytes 2 AF_UNIX -> (0 < len)%nat ->
  toString ntop4 ntop6 (MkSocketAddress st (Z.of_nat (offsetof_sun_path + len))) =
  let sun_path := field offsetof_sun_path sizeof_sun_path st in
  if bool_decide (sun_path !! 0%nat = Some 0) then b "unix:@" ++ take (len - 1) (drop 1 sun_path)
  else b "unix:" ++ take (strnlen sun_path len) sun_path.
Proof.
  intros Hf Hlen. unfold toString, family. cbn [storage length_]. rewrite Hf. change (le_word (le_bytes 2 AF_UNIX)) with AF_UNIX.
  rewrite 2!bool_decide_eq_false_2 by done. rewrite bool_decide_eq_true_2 by done. rewrite Nat2Z.id.
  rewrite bool_decide_eq_true_2 by lia. replace (offsetof_sun_path + len - offsetof_sun_path)%nat with len by lia.
  destruct (Nat.eqb_spec len 0); [lia|]. done.
Qed.

Lemma strnlen_zero x r : Forall (fun c => c <> 0) x -> strnlen (x ++ 0 :: r) (S (length x)) = length x.
Proof.
  intros H. unfold strnlen. assert (take (S (length x)) (x ++ 0 :: r) = x ++ [0]) as ->.
  { rewrite take_app_ge by lia. f_equal. by replace (S (length x) - length x)%nat with 1%nat by lia. }
  assert (list_find (fun c => c = 0) (x ++ [0]) = Some (length x, 0)) as ->; [|done].
  apply list_find_Some. splits; [by apply list_lookup_middle|done|]. intros j c Hj Hlt. rewrite lookup_app_l in Hj by done.
  rewrite list.Forall_forall in H. apply H. by eapply list_elem_of_lookup_2.
Qed.

Lemma unixAddress_Some name k (t : bool) a :
  unixAddress name k t = Some a ->
  (k + length name + (if t then 1 else 0) <= sizeof_sun_path)%nat /\
  a = MkSocketAddress (blit (offsetof_sun_path + k) name (blit 0 (le_bytes 2 AF_UNIX) (storage no_address)))
        (Z.of_nat (offsetof_sun_path + (k + length name + if t then 1 else 0))).
Proof.
  unfold unixAddress. case_bool_decide as Hc; [done|]. intros E. split; [lia|]. inversion E. f_equal.
Qed.

Lemma unixPath_text ntop4 ntop6 path a :
  Forall (fun c => c <> 0) path -> unixPath path = Some a ->
  (length path <= 107)%nat /\ toString ntop4 ntop6 a = if bool_decide (path = []) then b "unix:@" else b "unix:" ++ path.
Proof.
  intros Hnz Hu. apply unixAddress_Some in Hu as [Hl ->]. unfold sizeof_sun_path in Hl. split; [lia|].
  destruct (unix_storage path 0) as [H1 H2]; [lia|unfold sizeof_sun_path; lia|]. cbv zeta in H1, H2.
  replace (0 + length path + 1)%nat with (S (length path)) by lia. rewrite unix_toString; [|done|lia].
  cbv zeta. rewrite H2. simpl replicate. rewrite (app_nil_l (A := Z)).
  replace (108 - length path)%nat with (S (107 - length path)) by lia. cbn [replicate].
  destruct path as [|c path]; [done|]. inversion Hnz; subst. rewrite bool_decide_eq_false_2 by (simpl; congruence).
  rewrite bool_decide_eq_false_2 by done. rewrite strnlen_zero by done. by rewrite take_app_length.
Qed.

Lemma unixAbstract_text ntop4 ntop6 name a :
  unixAbstract name = Some a -> (length name <= 107)%nat /\ toString ntop4 ntop6 a = b "unix:@" ++ name.
Proof.
  intros Hu. apply unixAddress_Some in Hu as [Hl ->]. unfold sizeof_sun_path in Hl. split; [lia|].
  destruct (unix_storage name 1) as [H1 H2]; [lia|unfold sizeof_sun_path; lia|]. cbv zeta in H1, H2.
  replace (1 + length name + 0)%nat with (S (length name)) by lia. rewrite unix_toString; [|done|lia].
  cbv zeta. rewrite H2. simpl. rewrite Nat.sub_0_r. by rewrite drop_0, take_app_length.
Qed.

(** ** Theorems *)

(** C35: An address that was parsed prints as a text that gives back its port
    and a numeric host which parses to the same address; nothing is cut off by the
    buffer. *)
Theorem socket_text_roundtrip (pton4 pton6 : bytes -> option bytes) (ntop4 ntop6 : bytes -> bytes) host p a :
  inet_laws pton4 pton6 ntop4 ntop6 -> 0 <= p < 65536 -> parse pton4 pton6 host p = Some a ->
  port a = p /\ exists host', split_text (toString ntop4 ntop6 a) = Some (host', p) /\ parse pton4 pton6 host' p = Some a.
Proof.
  intros L Hp. unfold parse at 1. destruct (pton4 host) as [x|] eqn:E4.
  - intros E. assert (a = ipv4 (ntohl (le_word x)) p) as -> by congruence. clear E.
    destruct (pton4_bytes _ _ _ _ L _ _ E4) as [Hl Hb]. split; [by apply ipv4_fields|]. exists (ntop4 x).
    rewrite (toString_v4 pton4 pton6 ntop4 ntop6 L) by done. rewrite word4_stored by done. rewrite split_text_app, (strip_v4 pton4 pton6 ntop4 ntop6 L) by done.
    split; [done|]. unfold parse. by rewrite (pton4_ntop4 _ _ _ _ L) by done.
  - destruct (pton6 host) as [x|] eqn:E6; [|done]. intros E. assert (a = ipv6 x p) as -> by congruence. clear E.
    destruct (pton6_bytes _ _ _ _ L _ _ E6) as [Hl Hb]. split; [by apply ipv6_fields|]. exists (ntop6 x).
    rewrite (toString_v6 pton4 pton6 ntop4 ntop6 L) by done. rewrite split_text_app, strip_v6 by done.
    split; [done|]. unfold parse. by rewrite (pton4_ntop6 _ _ _ _ L), (pton6_ntop6 _ _ _ _ L) by done.
Qed.

(** A Unix-domain path is accepted exactly when it fits with its
    terminator, an abstract name when it fits behind the leading NUL, and the
    text of the address is the path or the name again. *)
Theorem unix_text_roundtrip (ntop4 ntop6 : bytes -> bytes) path :
  Forall (fun c => c <> 0) path -> path <> [] ->
  match unixPath path with
  | Some a => (length path <= 107)%nat /\ toString ntop4 ntop6 a = b "unix:" ++ path
  | None => (107 < length path)%nat
  end /\
  match unixAbstract path with
  | Some a => (length path <= 107)%nat /\ toString ntop4 ntop6 a = b "unix:@" ++ path
  | None => (107 < length path)%nat
  end.
Proof.
  intros Hnz Hne. split.
  - destruct (unixPath path) as [a|] eqn:E.
    + destruct (unixPath_text ntop4 ntop6 path a Hnz E) as [? H]. rewrite bool_decide_eq_false_2 in H by done. done.
    + unfold unixPath, unixAddress, sizeof_sun_path in E. case_bool_decide; [lia|done].
  - destruct (unixAbstract path) as [a|] eqn:E.
    + by apply unixAbstract_text.
    + unfold unixAbstract, unixAddress, sizeof_sun_path in E. case_bool_decide; [lia|done].
Qed.

(** The empty path is accepted: it gives the same address as the empty
    name of the abstract namespace, and prints as that. *)
Theorem unix_empty_path_is_abstract (ntop4 ntop6 : bytes -> bytes) :
  exists a, unixPath [] = Some a /\ unixAbstract [] = Some a /\ toString ntop4 ntop6 a = b "unix:@".
Proof. eexists. splits; [reflexivity|reflexivity|vm_compute; reflexivity]. Qed.

(** *** A numeric notation with the documented laws: three digits per byte of
    an IPv4 address, two letters per byte of an IPv6 address *)

Fixpoint enc3 (l : bytes) : bytes := match l with x :: r => 48 + x / 100 :: 48 + (x / 10) mod 10 :: 48 + x mod 10 :: enc3 r | [] => [] end.
Fixpoint enc2 (l : bytes) : bytes := match l with x :: r => 65 + x / 16 :: 65 + x mod 16 :: enc2 r | [] => [] end.
Fixpoint dec3 (l : bytes) : bytes := match l with u :: v :: w :: r => ((u - 48) * 100 + (v - 48) * 10 + (w - 48)) :: dec3 r | _ => [] end.
Fixpoint dec2 (l : bytes) : bytes := match l with u :: v :: r => ((u - 65) * 16 + (v - 65)) :: dec2 r | _ => [] end.
Definition valid (len n : nat) (x h : bytes) : option bytes :=
  if bool_decide (length h = len) && bool_decide (length x = n) && forallb (fun c => (0 <=? c) && (c <? 256)) x then Some x else None.
Definition digits_pton4 (h : bytes) : option bytes := valid 12 4 (dec3 h) h.
Definition letters_pton6 (h : bytes) : option bytes := valid 32 16 (dec2 h) h.
Definition digits_ntop4 (x : bytes) : bytes := enc3 x.
Definition letters_ntop6 (x : bytes) : bytes := enc2 x.

Lemma valid_Some len n x h y : valid len n x h = Some y -> length y = n /\ Forall is_byte y.
Proof.
  unfold valid. destruct (bool_decide _ && _ && _) eqn:E; [|done]. intros [= <-]. bool_to_prop. case_bool_decide; [|done]. case_bool_decide; [|done].
  split; [done|]. apply list.Forall_forall. intros c Hc. apply list_elem_of_In in Hc. rewrite List.forallb_forall in *.
  match goal with H : forall _, _ |- _ => specialize (H c Hc) end. bool_to_prop. unfold is_byte. lia.
Qed.

Lemma valid_ok len n x h : length h = len -> length x = n -> Forall is_byte x -> valid len n x h = Some x.
Proof.
  intros <- <- Hb. unfold valid. rewrite !bool_decide_eq_true_2 by done. simpl. assert (forallb (fun c => (0 <=? c) && (c <? 256)) x = true) as ->; [|done].
  apply List.forallb_forall. intros c Hc. apply list_elem_of_In in Hc. rewrite list.Forall_forall in Hb. destruct (Hb c Hc).
  apply andb_true_iff. split; [apply Z.leb_le|apply Z.ltb_lt]; lia.
Qed.

Lemma dec3_enc x : Forall is_byte x -> dec3 (enc3 x) = x /\ length (enc3 x) = (3 * length x)%nat /\ Forall (fun c => 48 <= c <= 57) (enc3 x).
Proof.
  induction 1 as [|c x [? ?] _ (IH1 & IH2 & IH3)]; [done|]. cbn [enc3 dec3 enc2 dec2 length]. rewrite IH1.
  splits; [f_equal; dlia|lia|]. repeat constructor; [dlia..|done].
Qed.

Lemma dec2_enc x : Forall is_byte x -> dec2 (enc2 x) = x /\ length (enc2 x) = (2 * length x)%nat.
Proof.
  induction 1 as [|c x [? ?] _ (IH1 & IH2)]; [done|]. cbn [enc3 dec3 enc2 dec2 length]. rewrite IH1.
  splits; [f_equal; dlia|lia].
Qed.

Lemma digits_laws : inet_laws digits_pton4 letters_pton6 digits_ntop4 letters_ntop6.
Proof.
  split.
  - intros h x. apply valid_Some.
  - intros h x. apply valid_Some.
  - intros x Hl Hb. destruct (dec3_enc x Hb) as (E & El & _). unfold digits_pton4, digits_ntop4. rewrite E. apply valid_ok; [lia|done|done].
  - intros x Hl Hb. destruct (dec2_enc x Hb) as (E & El). unfold letters_pton6, letters_ntop6. rewrite E. apply valid_ok; [lia|done|done].
  - intros x Hl Hb. destruct (dec2_enc x Hb) as (E & El). unfold digits_pton4, letters_ntop6, valid. rewrite bool_decide_eq_false_2 by lia. done.
  - intros x Hl Hb. destruct (dec3_enc x Hb) as (_ & El & H). unfold digits_ntop4. split; [lia|]. eapply list.Forall_impl; [exact H|]. simpl. lia.
  - intros x Hl Hb. destruct (dec2_enc x Hb) as (_ & El). unfold letters_ntop6. lia.
Qed.

Lemma socket_text_roundtrip_witness : exists a, parse digits_pton4 letters_pton6 (b "127000000001") 8080 = Some a /\ port a = 8080.
Proof.
  eexists. split; [reflexivity|].
  apply (socket_text_roundtrip digits_pton4 letters_pton6 digits_ntop4 letters_ntop6 (b "127000000001") 8080); [apply digits_laws|lia|reflexivity].
Defined.

Lemma unix_text_roundtrip_witness : match unixPath (b "/run/app.sock") with Some a => toString digits_ntop4 letters_ntop6 a = b "unix:/run/app.sock" | None => False end.
Proof.
  pose proof (unix_text_roundtrip digits_ntop4 letters_ntop6 (b "/run/app.sock")) as H.
  destruct H as [[_ H] _]; [repeat constructor; discriminate|discriminate|]. exact H.
Defined.
