(* ===== verification/Pool.v ===== *)
(** * PooledStackAllocator: thread caches, shared pool, reserve

    [PooledStackAllocatorImpl] (stack/src/PooledStackAllocator.cpp) in front
    of an upstream allocator.  Three tiers of free stacks: a cache per thread,
    bucketed by size; a lock-free queue shared by all threads; a reserve per
    size behind a mutex.

    - A chain of [FreeNode]s is the list of its nodes' addresses; a node lies
      at the top of its stack ([nodeOf], [viewOf]).
    - The body of a [reserveMutex] section is one action, as is an access of a
      thread to its own cache; an access to the shared queue is one action:
      the queue is a bag whose entries come out once, and which may be found busy,
      empty or full at any time (Bbq.v models the queue as one thread uses it).
    - The upstream allocator is a parameter: [pick live size] is the stack it
      gives out while the stacks in [live] are mapped, or [None]; it may be
      larger than what was asked for.
      Returning a stack that is not mapped is [Fatal].
    - [inuse] holds the stacks the allocator's clients use: any thread may
      return a stack that another one allocated.
    - Counters of stacks and cached bytes are unbounded: they count disjoint
      ranges of the address space. *)

From Stdlib Require Import ZArith Lia.
From stdpp Require Import base tactics list numbers option strings.
From S2P Require Import Prelude Conc.

Record StackView := MkView { vbase : Z; vsize : Z }.
#[export] Instance StackView_eq_dec : EqDecision StackView.
Proof. solve_decision. Defined.

Definition topOf (v : StackView) : Z := vbase v + vsize v.
Definition isEmpty (v : StackView) : bool := vbase v =? 0.

Definition FREE_NODE_SIZE : Z := 8.
Definition nodeOf (v : StackView) : Z := topOf v - FREE_NODE_SIZE.
Definition viewOf (node size : Z) : StackView := MkView (node + FREE_NODE_SIZE - size) size.

Record SizeClass := MkClass { csize : Z; chead : list Z; ccount : Z }.
Record ThreadCache := MkCache { classes : list SizeClass; cachedStacks : Z; cachedBytes : Z }.
Record ReserveClass := MkReserve { rsize : Z; rhead : list Z; rcount : Z; rtarget : Z }.

Definition kMaxSizeClasses : nat := 8.
Definition kReserveBatch : nat := 32.
Definition kChunk : nat := 256.

Record options := MkOptions { maxCachedStacksPerThread : Z; maxCachedBytesPerThread : Z }.

Record pool := MkPool {
  caches : list (option ThreadCache);
  shared : list StackView;
  reserves : list ReserveClass;
  keyValid : bool;
  up : list StackView;
  inuse : list StackView
}.

Definition emptyCache : ThreadCache := MkCache (replicate kMaxSizeClasses (MkClass 0 [] 0)) 0 0.

Definition with_caches f s := MkPool (f (caches s)) (shared s) (reserves s) (keyValid s) (up s) (inuse s).
Definition with_shared f s := MkPool (caches s) (f (shared s)) (reserves s) (keyValid s) (up s) (inuse s).
Definition with_reserves f s := MkPool (caches s) (shared s) (f (reserves s)) (keyValid s) (up s) (inuse s).
Definition with_up f s := MkPool (caches s) (shared s) (reserves s) (keyValid s) (f (up s)) (inuse s).
Definition with_inuse f s := MkPool (caches s) (shared s) (reserves s) (keyValid s) (up s) (f (inuse s)).

Inductive PopStatus := PopOk | PopEmpty | PopBusy.
Inductive PushStatus := PushOk | PushFull | PushBusy.

Section pool.
Context `{SizeT} (page : Z) (opts : options).
(** The upstream allocator. *)
Context (pick : list StackView -> Z -> option StackView).

Definition roundUpToPage (bytes : Z) : Z := (szwrap (szwrap (bytes + page) - 1)) / page * page.

(** ** The thread's cache *)

Definition canCache (c : ThreadCache) (sz : Z) : bool :=
  (cachedStacks c <? maxCachedStacksPerThread opts) && (cachedBytes c + sz <=? maxCachedBytesPerThread opts).

(** The index of the first class of that size. *)
Fixpoint find_size (l : list SizeClass) (sz : Z) : option nat :=
  match l with
  | [] => None
  | x :: r => if csize x =? sz then Some 0%nat else S <$> find_size r sz
  end.
Definition findClass (c : ThreadCache) (sz : Z) : option nat := find_size (classes c) sz.

Definition set_class (k : nat) (x : SizeClass) (c : ThreadCache) : ThreadCache :=
  MkCache (<[k := x]> (classes c)) (cachedStacks c) (cachedBytes c).

Definition findOrAddClass (c : ThreadCache) (sz : Z) : ThreadCache * option nat :=
  match findClass c sz with
  | Some k => (c, Some k)
  | None =>
      match find_size (classes c) 0 with
      | Some k =>
          let x := default (MkClass 0 [] 0) (classes c !! k) in
          (set_class k (MkClass sz (chead x) (ccount x)) c, Some k)
      | None => (c, None)
      end
  end.

Definition pushFront (c : ThreadCache) (k : nat) (v : StackView) : ThreadCache :=
  match classes c !! k with
  | Some x =>
      MkCache (<[k := MkClass (csize x) (nodeOf v :: chead x) (ccount x + 1)]> (classes c))
        (cachedStacks c + 1) (cachedBytes c + vsize v)
  | None => c
  end.

Definition popFront (c : ThreadCache) (k : nat) : option (ThreadCache * StackView) :=
  x ← classes c !! k;
  match chead x with
  | node :: next =>
      Some (MkCache (<[k := MkClass (csize x) next (ccount x - 1)]> (classes c))
              (cachedStacks c - 1) (cachedBytes c - csize x), viewOf node (csize x))
  | [] => None
  end.

(** Into the cache, if there is one with room. *)
Definition tryCache (oc : option ThreadCache) (v : StackView) : option ThreadCache :=
  c ← oc;
  if canCache c (vsize v) then
    match findOrAddClass c (vsize v) with
    | (c', Some k) => Some (pushFront c' k v)
    | (_, None) => None
    end
  else None.

(** ** The reserve *)

Fixpoint find_rsize (l : list ReserveClass) (sz : Z) : option nat :=
  match l with
  | [] => None
  | x :: r => if rsize x =? sz then Some 0%nat else S <$> find_rsize r sz
  end.

Definition findOrAddReserve (l : list ReserveClass) (sz : Z) : list ReserveClass * option nat :=
  match find_rsize l sz with
  | Some k => (l, Some k)
  | None =>
      match find_rsize l 0 with
      | Some k =>
          let x := default (MkReserve 0 [] 0 0) (l !! k) in
          (<[k := MkReserve sz (rhead x) (rcount x) (rtarget x)]> l, Some k)
      | None => (l, None)
      end
  end.

Definition pushReserve (x : ReserveClass) (v : StackView) : ReserveClass :=
  MkReserve (rsize x) (nodeOf v :: rhead x) (rcount x + 1) (rtarget x).

Definition popReserve (x : ReserveClass) : option (ReserveClass * StackView) :=
  match rhead x with
  | node :: next => Some (MkReserve (rsize x) next (rcount x - 1) (rtarget x), viewOf node (rsize x))
  | [] => None
  end.

(** The batch moved from the reserve to the cache class [k]. *)
Fixpoint refill (n : nat) (x : ReserveClass) (c : ThreadCache) (k : nat) : ReserveClass * ThreadCache :=
  match n with
  | O => (x, c)
  | S n' =>
      match popReserve x with
      | Some (x', v) => if canCache c (rsize x) then refill n' x' (pushFront c k v) k else (x, c)
      | None => (x, c)
      end
  end.

(** The body of [takeFromReserve]. *)
Definition reserve_take (l : list ReserveClass) (sz : Z) (oc : option ThreadCache) :
  list ReserveClass * option ThreadCache * option StackView :=
  match findOrAddReserve l sz with
  | (l', Some k) =>
      match x ← l' !! k; popReserve x with
      | Some (x', v) =>
          match oc with
          | None => (<[k := x']> l', oc, Some v)
          | Some c =>
              match findOrAddClass c sz with
              | (c', Some kc) =>
                  let '(x'', c'') := refill (kReserveBatch - 1) x' c' kc in
                  (<[k := x'']> l', Some c'', Some v)
              | (c', None) => (<[k := x']> l', Some c', Some v)
              end
          end
      | None => (l', oc, None)
      end
  | (l', None) => (l', oc, None)
  end.

(** The body of [giveToReserve]; [None]: not taken. *)
Definition reserve_give (l : list ReserveClass) (v : StackView) : option (list ReserveClass) :=
  k ← find_rsize l (vsize v);
  x ← l !! k;
  if rcount x >=? rtarget x then None else Some (<[k := pushReserve x v]> l).

(** ** Programs *)

Abbreviation mem := (prog pool).

Definition upstream_allocate (sz : Z) : mem (option StackView) :=
  rmw (fun s =>
    match pick (up s) sz with
    | Some v => (with_up (cons v) s, Some v)
    | None => (s, None)
    end).

Fixpoint remove_one (v : StackView) (l : list StackView) : list StackView :=
  match l with
  | [] => []
  | x :: r => if decide (x = v) then r else x :: remove_one v r
  end.

Definition upstream_deallocate (v : StackView) : mem unit :=
  ok <- rmw (fun s => if decide (v ∈ up s) then (with_up (remove_one v) s, true) else (s, false));;
  check ok "a stack that is not mapped is unmapped".

(** [shared.push] and [shared.pop].  Of the queue only this is used: what was pushed
    comes out once.  A push may find it full or busy at any time; a pop may take any
    entry, and may find the queue empty or busy also when it is not. *)
Definition shared_push (v : StackView) : mem PushStatus :=
  Act PushStatus (fun s => [(with_shared (fun l => l ++ [v]) s, PushOk); (s, PushFull); (s, PushBusy)]) Ret.

Definition shared_pop : mem (PopStatus * StackView) :=
  Act (PopStatus * StackView) (fun s =>
    imap (fun k v => (with_shared (delete k) s, (PopOk, v))) (shared s) ++
    [(s, (PopEmpty, MkView 0 0)); (s, (PopBusy, MkView 0 0))]) Ret.

Section thread.
(** The calling thread. *)
Context (i : nat).

Definition get_cache : mem (option ThreadCache) := load (fun s => default None (caches s !! i)).
Definition set_cache (oc : option ThreadCache) : mem unit := store (with_caches (<[i := oc]>)).

(** [currentCache], with [createCache], whose [pthread_setspecific] may fail. *)
Definition currentCache : mem (option ThreadCache) :=
  Act (option ThreadCache) (fun s =>
    if keyValid s then
      match default None (caches s !! i) with
      | Some c => [(s, Some c)]
      | None => [(with_caches (<[i := Some emptyCache]>) s, Some emptyCache); (s, None)]
      end
    else [(s, None)]) Ret.

Fixpoint giveToShared_loop (spins : nat) (v : StackView) : mem bool :=
  match spins with
  | O => Ret false
  | S n =>
      st <- shared_push v;;
      match st with
      | PushOk => Ret true
      | PushFull => Ret false
      | PushBusy => giveToShared_loop n v
      end
  end.
Definition giveToShared (v : StackView) : mem bool := giveToShared_loop 8 v.

Fixpoint takeFromShared_loop (attempts : nat) (sz : Z) (oc : option ThreadCache) :
  mem (option ThreadCache * option StackView) :=
  match attempts with
  | O => Ret (oc, None)
  | S n =>
      r <- shared_pop;;
      match r with
      | (PopEmpty, _) => Ret (oc, None)
      | (PopBusy, _) => takeFromShared_loop n sz oc
      | (PopOk, v) =>
          if vsize v =? sz then Ret (oc, Some v)
          else
            match tryCache oc v with
            | Some c' => set_cache (Some c');;; takeFromShared_loop n sz (Some c')
            | None => upstream_deallocate v;;; takeFromShared_loop n sz oc
            end
      end
  end.
Definition takeFromShared (sz : Z) (oc : option ThreadCache) := takeFromShared_loop 4 sz oc.

Definition takeFromReserve (sz : Z) (oc : option ThreadCache) : mem (option ThreadCache * option StackView) :=
  rmw (fun s =>
    let '(l, oc', ov) := reserve_take (reserves s) sz oc in
    (with_caches (match oc' with Some c => <[i := Some c]> | None => id end) (with_reserves (fun _ => l) s),
     (oc', ov))).

Definition giveToReserve (v : StackView) : mem bool :=
  rmw (fun s =>
    match reserve_give (reserves s) v with
    | Some l => (with_reserves (fun _ => l) s, true)
    | None => (s, false)
    end).

Definition release (v : StackView) : mem unit :=
  a <- giveToShared v;;
  if a : bool then Ret tt
  else
    b <- giveToReserve v;;
    if b : bool then Ret tt else upstream_deallocate v.

Definition allocate (sz : Z) : mem (option StackView) :=
  let rounded := roundUpToPage sz in
  oc <- currentCache;;
  match oc ≫= fun c => findClass c rounded ≫= popFront c with
  | Some (c', v) => set_cache (Some c');;; Ret (Some v)
  | None =>
      r <- takeFromShared rounded oc;;
      match r with
      | (_, Some v) => Ret (Some v)
      | (oc', None) =>
          r' <- takeFromReserve rounded oc';;
          match r' with
          | (_, Some v) => Ret (Some v)
          | (_, None) => upstream_allocate rounded
          end
      end
  end.

Definition deallocate (v : StackView) : mem unit :=
  if isEmpty v then Ret tt
  else
    oc <- currentCache;;
    match tryCache oc v with
    | Some c' => set_cache (Some c')
    | None => release v
    end.

(** ** [reserve] *)

(** Up to [n] stacks from upstream. *)
Fixpoint upstream_allocateMany (n : nat) (sz : Z) : mem (list StackView) :=
  match n with
  | O => Ret []
  | S n' =>
      o <- upstream_allocate sz;;
      match o with
      | Some v => r <- upstream_allocateMany n' sz;; Ret (v :: r)
      | None => Ret []
      end
  end.

(** The first section of [reserve]: how many stacks are missing. *)
Definition reserve_open (l : list ReserveClass) (sz count : Z) : list ReserveClass * option Z :=
  match findOrAddReserve l sz with
  | (l', Some k) =>
      let x := default (MkReserve 0 [] 0 0) (l' !! k) in
      let target := Z.max (rtarget x) count in
      (<[k := MkReserve (rsize x) (rhead x) (rcount x) target]> l',
       Some (if target >? rcount x then target - rcount x else 0))
  | (l', None) => (l', None)
  end.

(** The section that adds a batch, and the one that reads the count; [None]
    where they go through a null pointer. *)
Definition reserve_add (l : list ReserveClass) (sz : Z) (batch : list StackView) : option (list ReserveClass) :=
  match findOrAddReserve l sz with
  | (l', Some k) =>
      let x := default (MkReserve 0 [] 0 0) (l' !! k) in
      Some (<[k := foldl pushReserve x batch]> l')
  | (_, None) => None
  end.

Definition reserve_count (l : list ReserveClass) (sz : Z) : option (list ReserveClass * Z) :=
  match findOrAddReserve l sz with
  | (l', Some k) => Some (l', rcount (default (MkReserve 0 [] 0 0) (l' !! k)))
  | (_, None) => None
  end.

Fixpoint reserve_fill (fuel : nat) (sz : Z) (missing : nat) : mem unit :=
  match fuel with
  | O => Starved
  | S fuel' =>
      if (missing =? 0)%nat then Ret tt
      else
        let wanted := Nat.min missing kChunk in
        batch <- upstream_allocateMany wanted sz;;
        ok <- rmw (fun s =>
          match reserve_add (reserves s) sz batch with
          | Some l => (with_reserves (fun _ => l) s, true)
          | None => (s, false)
          end);;
        check ok "null ReserveClass";;;
        if (length batch <? wanted)%nat then Ret tt
        else reserve_fill fuel' sz (missing - length batch)
  end.

Definition reserve (fuel : nat) (sz count : Z) : mem Z :=
  let rounded := roundUpToPage sz in
  o <- rmw (fun s => let '(l, o) := reserve_open (reserves s) rounded count in (with_reserves (fun _ => l) s, o));;
  match o with
  | None => Ret 0
  | Some missing =>
      reserve_fill fuel rounded (Z.to_nat missing);;;
      r <- rmw (fun s =>
        match reserve_count (reserves s) rounded with
        | Some (l, n) => (with_reserves (fun _ => l) s, Some n)
        | None => (s, None)
        end);;
      match r with Some n => Ret n | None => Fatal "null ReserveClass" end
  end.

(** ** Thread exit *)

Fixpoint drainClass (fuel : nat) (c : ThreadCache) (k : nat) : mem ThreadCache :=
  match fuel with
  | O => Ret c
  | S fuel' =>
      match popFront c k with
      | Some (c', v) => set_cache (Some c');;; upstream_deallocate v;;; drainClass fuel' c' k
      | None => Ret c
      end
  end.

Fixpoint drainClasses (c : ThreadCache) (ks : list nat) : mem ThreadCache :=
  match ks with
  | [] => Ret c
  | k :: r =>
      let fuel := match classes c !! k with Some x => length (chead x) | None => O end in
      c' <- drainClass fuel c k;; drainClasses c' r
  end.

Definition drainToUpstream (c : ThreadCache) : mem ThreadCache := drainClasses c (seq 0 kMaxSizeClasses).

(** The cache's memory is freed with what is still in it. *)
Definition onThreadExit : mem unit :=
  oc <- get_cache;;
  match oc with
  | Some c => drainToUpstream c;;; set_cache None
  | None => Ret tt
  end.

(** ** Clients *)

Inductive client_op :=
| CAllocate (sz : Z)
| CDeallocate (k : nat)        (** the [k]-th stack in use, if there is one *)
| CReserve (sz count : Z)
| CExit.

Definition run_client (fuel : nat) (o : client_op) : mem unit :=
  match o with
  | CAllocate sz =>
      r <- allocate sz;;
      match r with
      | Some v =>
          check (roundUpToPage sz <=? vsize v) "a stack smaller than what was asked for";;;
          store (with_inuse (fun l => l ++ [v]))
      | None => Ret tt
      end
  | CDeallocate k =>
      o <- rmw (fun s => (with_inuse (delete k) s, inuse s !! k));;
      match o with Some v => deallocate v | None => Ret tt end
  | CReserve sz count => reserve fuel sz count;;; Ret tt
  | CExit => onThreadExit
  end.

Fixpoint run_clients (fuel : nat) (l : list client_op) : mem unit :=
  match l with
  | [] => Ret tt
  | o :: r => run_client fuel o;;; run_clients fuel r
  end.
End thread.

Definition init_pool (n : nat) (kv : bool) : pool :=
  MkPool (replicate n None) [] (replicate kMaxSizeClasses (MkReserve 0 [] 0 0)) kv [] [].

Definition pool_threads (fuel : nat) (kv : bool) (l : list (list client_op)) : config pool unit :=
  (imap (fun i ops => run_clients i fuel ops) l, init_pool (length l) kv).
End pool.
