(* ===== verification/PoolInv.v ===== *)
(** * PooledStackAllocator: accounting

    The pure operations on caches and reserves move stacks without losing,
    duplicating or resizing one; the invariant of the whole pool. *)

From Stdlib Require Import ZArith Lia.
From stdpp Require Import base tactics list numbers option strings functions.
From S2P Require Import Prelude Conc Sums Pool.

Lemma viewOf_nodeOf v : viewOf (nodeOf v) (vsize v) = v.
Proof. destruct v as [b sz]. unfold viewOf, nodeOf, topOf. simpl. f_equal. lia. Qed.

(** ** Contents *)

Definition cviews (x : SizeClass) : list StackView := (fun n => viewOf n (csize x)) <$> chead x.
Definition rviews (x : ReserveClass) : list StackView := (fun n => viewOf n (rsize x)) <$> rhead x.

Definition cnt_cache (v : StackView) (c : ThreadCache) : nat := lsum (fun x => cnt v (cviews x)) (classes c).
Definition cnt_ocache (v : StackView) (oc : option ThreadCache) : nat := default 0%nat (cnt_cache v <$> oc).
Definition cnt_reserves (v : StackView) (l : list ReserveClass) : nat := lsum (fun x => cnt v (rviews x)) l.

Definition cnt_held (v : StackView) (s : pool) : nat :=
  (lsum (cnt_ocache v) (caches s) + cnt v (shared s) + cnt_reserves v (reserves s))%nat.

(** ** Well-formedness *)

Record wf_class (x : SizeClass) : Prop := {
  wc_count : ccount x = Z.of_nat (length (chead x));
  wc_unused : csize x = 0 -> chead x = [];
  wc_size : 0 <= csize x
}.

Definition stacks_of (c : ThreadCache) : nat := lsum (fun x => length (chead x)) (classes c).
Definition bytes_of (c : ThreadCache) : nat := lsum (fun x => length (chead x) * Z.to_nat (csize x))%nat (classes c).

Record wf_cache (opts : options) (c : ThreadCache) : Prop := {
  wt_len : length (classes c) = kMaxSizeClasses;
  wt_classes : forall k x, classes c !! k = Some x -> wf_class x;
  wt_stacks : cachedStacks c = Z.of_nat (stacks_of c);
  wt_bytes : cachedBytes c = Z.of_nat (bytes_of c);
  wt_max_stacks : cachedStacks c <= maxCachedStacksPerThread opts;
  wt_max_bytes : cachedBytes c <= maxCachedBytesPerThread opts
}.

Record wf_reserve (x : ReserveClass) : Prop := {
  wr_count : rcount x = Z.of_nat (length (rhead x));
  wr_unused : rsize x = 0 -> rhead x = [];
  wr_size : 0 <= rsize x
}.
Definition wf_reserves (l : list ReserveClass) : Prop := forall k x, l !! k = Some x -> wf_reserve x.

Section caches.
Context (opts : options).
Implicit Types (c : ThreadCache) (v w : StackView) (k : nat).

(** ** Looking for a class *)

Lemma find_size_spec l sz k : find_size l sz = Some k -> exists x, l !! k = Some x /\ csize x = sz.
Proof.
  revert k. induction l as [|a l IH]; intros k; simpl; [done|].
  destruct (Z.eqb_spec (csize a) sz) as [E|E]; [intros [= <-]; by exists a|].
  intros (k' & Hk' & ->)%fmap_Some. by apply IH.
Qed.

Lemma find_rsize_spec l sz k : find_rsize l sz = Some k -> exists x, l !! k = Some x /\ rsize x = sz.
Proof.
  revert k. induction l as [|a l IH]; intros k; simpl; [done|].
  destruct (Z.eqb_spec (rsize a) sz) as [E|E]; [intros [= <-]; by exists a|].
  intros (k' & Hk' & ->)%fmap_Some. by apply IH.
Qed.

(** Replacing one class. *)
Lemma wf_cache_upd c k x x' st by' :
  wf_cache opts c -> classes c !! k = Some x -> wf_class x' ->
  st = cachedStacks c + Z.of_nat (length (chead x')) - Z.of_nat (length (chead x)) ->
  by' = cachedBytes c + Z.of_nat (length (chead x') * Z.to_nat (csize x')) - Z.of_nat (length (chead x) * Z.to_nat (csize x)) ->
  st <= maxCachedStacksPerThread opts -> by' <= maxCachedBytesPerThread opts ->
  wf_cache opts (MkCache (<[k := x']> (classes c)) st by').
Proof.
  intros [] Hk Hx' Est Eby H1 H2. constructor; simpl; try done.
  - by rewrite length_insert.
  - intros j y. destruct (decide (j = k)) as [->|].
    + rewrite list_lookup_insert_eq by (by eapply lookup_lt_Some). by intros [= <-].
    + rewrite list_lookup_insert_ne by done. eauto.
  - unfold stacks_of in *. simpl.
    pose proof (lsum_insert (fun x => length (chead x)) (classes c) k x' x Hk) as Hs. cbn beta in Hs. lia.
  - unfold bytes_of in *. simpl.
    pose proof (lsum_insert (fun x => length (chead x) * Z.to_nat (csize x))%nat (classes c) k x' x Hk) as Hs. cbn beta in Hs. lia.
Qed.

Lemma findOrAddClass_spec c sz c' k :
  wf_cache opts c -> 0 < sz -> findOrAddClass c sz = (c', Some k) ->
  wf_cache opts c' /\ (exists x, classes c' !! k = Some x /\ csize x = sz) /\
  (forall w, cnt_cache w c' = cnt_cache w c) /\ cachedStacks c' = cachedStacks c /\ cachedBytes c' = cachedBytes c.
Proof.
  intros Hwf Hsz. unfold findOrAddClass. destruct (findClass c sz) as [k1|] eqn:E1.
  { intros [= <- <-]. splits; try done. by apply find_size_spec. }
  destruct (find_size (classes c) 0) as [k1|] eqn:E2; [|done]. intros [= <- <-].
  destruct (find_size_spec _ _ _ E2) as (x & Hx & Hx0). rewrite Hx. simpl.
  destruct (wt_classes _ _ Hwf k1 x Hx) as [W1 W2 W3]. specialize (W2 Hx0).
  splits; try done.
  - unfold set_class. rewrite W2. eapply wf_cache_upd; [done|done| |simpl; rewrite W2; simpl; lia..|apply Hwf|apply Hwf].
    constructor; simpl; [by rewrite W1, W2|done|lia].
  - eexists. split; [apply list_lookup_insert_eq; by eapply lookup_lt_Some|done].
  - intros w. unfold cnt_cache. simpl.
    pose proof (lsum_insert (fun x => cnt w (cviews x)) (classes c) k1 (MkClass sz (chead x) (ccount x)) x Hx) as Hs.
    cbn beta in Hs. unfold cviews in Hs at 2 4. simpl in Hs. rewrite W2 in *. simpl in Hs. lia.
Qed.

Lemma pushFront_spec c k v x :
  wf_cache opts c -> classes c !! k = Some x -> csize x = vsize v -> 0 < vsize v ->
  canCache opts c (vsize v) = true ->
  wf_cache opts (pushFront c k v) /\ forall w, cnt_cache w (pushFront c k v) = (cnt_cache w c + cnt w [v])%nat.
Proof.
  intros Hwf Hk Hsz Hpos Hcan. unfold canCache in Hcan. apply andb_true_iff in Hcan as [Hc1 Hc2].
  apply Z.ltb_lt in Hc1. apply Z.leb_le in Hc2. unfold pushFront. rewrite Hk.
  destruct (wt_classes _ _ Hwf k x Hk) as [W1 W2 W3]. split.
  - eapply wf_cache_upd; [done|done| |simpl; lia..]. constructor; simpl; [lia|lia|lia].
  - intros w. unfold cnt_cache. simpl.
    pose proof (lsum_insert (fun x => cnt w (cviews x)) (classes c) k
      (MkClass (csize x) (nodeOf v :: chead x) (ccount x + 1)) x Hk) as Hs. cbn beta in Hs.
    assert (cviews (MkClass (csize x) (nodeOf v :: chead x) (ccount x + 1)) = v :: cviews x) as E
      by (unfold cviews; simpl; by rewrite Hsz, viewOf_nodeOf).
    rewrite E, cnt_cons in Hs. rewrite cnt_cons, cnt_nil. lia.
Qed.

Lemma popFront_spec c k c' v :
  wf_cache opts c -> popFront c k = Some (c', v) ->
  wf_cache opts c' /\ (forall w, cnt_cache w c = (cnt_cache w c' + cnt w [v])%nat) /\
  (exists x, classes c !! k = Some x /\ vsize v = csize x) /\
  cachedStacks c' = cachedStacks c - 1 /\ cachedBytes c' = cachedBytes c - vsize v /\
  stacks_of c = S (stacks_of c').
Proof.
  intros Hwf. unfold popFront. destruct (classes c !! k) as [x|] eqn:Hk; simpl; [|done].
  destruct (chead x) as [|node next] eqn:Hh; [done|]. intros [= <- <-].
  destruct (wt_classes _ _ Hwf k x Hk) as [W1 W2 W3].
  assert (wf_class (MkClass (csize x) next (ccount x - 1))) as Hc.
  { constructor; simpl; [rewrite W1, Hh; simpl; lia| |done]. intros E. specialize (W2 E). congruence. }
  pose proof (wt_max_stacks _ _ Hwf). pose proof (wt_max_bytes _ _ Hwf).
  splits; try done.
  - eapply wf_cache_upd; [done|done|done|rewrite ?Hh; simpl; lia..].
  - intros w. unfold cnt_cache. simpl.
    pose proof (lsum_insert (fun x => cnt w (cviews x)) (classes c) k (MkClass (csize x) next (ccount x - 1)) x Hk) as Hs.
    cbn beta in Hs. assert (cviews x = viewOf node (csize x) :: cviews (MkClass (csize x) next (ccount x - 1))) as E
      by (unfold cviews; by rewrite Hh).
    rewrite E, cnt_cons in Hs. rewrite cnt_cons, cnt_nil. lia.
  - by exists x.
  - unfold stacks_of. simpl.
    pose proof (lsum_insert (fun x => length (chead x)) (classes c) k (MkClass (csize x) next (ccount x - 1)) x Hk) as Hs.
    simpl in Hs. rewrite Hh in Hs. simpl in Hs. lia.
Qed.

Lemma tryCache_spec oc v c' :
  (forall c, oc = Some c -> wf_cache opts c) -> 0 < vsize v -> tryCache opts oc v = Some c' ->
  wf_cache opts c' /\ forall w, cnt_cache w c' = (cnt_ocache w oc + cnt w [v])%nat.
Proof.
  intros Hwf Hpos. unfold tryCache. destruct oc as [c|]; simpl; [|done]. specialize (Hwf c eq_refl).
  destruct (canCache opts c (vsize v)) eqn:Hcan; [|done].
  destruct (findOrAddClass c (vsize v)) as [c1 [k|]] eqn:E; [|done]. intros [= <-].
  destruct (findOrAddClass_spec c (vsize v) c1 k Hwf Hpos E) as (Hwf1 & (x & Hx & Hs) & Hcnt & E1 & E2).
  destruct (pushFront_spec c1 k v x Hwf1 Hx Hs Hpos) as [Hwf2 Hcnt2].
  { unfold canCache in *. by rewrite E1, E2. }
  split; [done|]. intros w. by rewrite Hcnt2, Hcnt.
Qed.
End caches.

Section reserves.
Context (opts : options).
Implicit Types (l : list ReserveClass) (x : ReserveClass) (v w : StackView) (k : nat).

Lemma wf_reserves_upd l k x' : wf_reserves l -> wf_reserve x' -> wf_reserves (<[k := x']> l).
Proof.
  intros Hl Hx j y Hj. destruct (decide (j = k)) as [->|]; [|rewrite list_lookup_insert_ne in Hj by done; eauto].
  rewrite list_lookup_insert_eq in Hj; [by injection Hj as <-|].
  apply lookup_lt_Some in Hj. by rewrite length_insert in Hj.
Qed.

Lemma cnt_reserves_upd l k x x' w :
  l !! k = Some x -> (cnt_reserves w (<[k := x']> l) + cnt w (rviews x) = cnt_reserves w l + cnt w (rviews x'))%nat.
Proof. apply (lsum_insert (fun x => cnt w (rviews x))). Qed.

Lemma findOrAddReserve_spec l sz l' o :
  wf_reserves l -> 0 <= sz -> findOrAddReserve l sz = (l', o) ->
  wf_reserves l' /\ (forall w, cnt_reserves w l' = cnt_reserves w l) /\
  (forall k, o = Some k -> exists x, l' !! k = Some x /\ rsize x = sz).
Proof.
  intros Hwf Hsz. unfold findOrAddReserve. destruct (find_rsize l sz) as [k1|] eqn:E1.
  { intros [= <- <-]. splits; try done. intros k [= <-]. by apply find_rsize_spec. }
  destruct (find_rsize l 0) as [k1|] eqn:E2; [|by intros [= <- <-]]. intros [= <- <-].
  destruct (find_rsize_spec _ _ _ E2) as (x & Hx & Hx0). rewrite Hx. simpl.
  destruct (Hwf k1 x Hx) as [W1 W2 W3]. specialize (W2 Hx0). splits.
  - apply wf_reserves_upd; [done|]. constructor; simpl; [done|by rewrite W2|done].
  - intros w. pose proof (cnt_reserves_upd l k1 x (MkReserve sz (rhead x) (rcount x) (rtarget x)) w Hx) as Hs.
    unfold rviews in Hs. simpl in Hs. rewrite W2 in *. simpl in Hs. lia.
  - intros k [= <-]. eexists. split; [apply list_lookup_insert_eq; by eapply lookup_lt_Some|done].
Qed.

Lemma pushReserve_spec x v :
  wf_reserve x -> rsize x = vsize v -> 0 < vsize v ->
  wf_reserve (pushReserve x v) /\ rviews (pushReserve x v) = v :: rviews x.
Proof.
  intros [W1 W2 W3] Hs Hpos. split.
  - constructor; simpl; [lia|lia|lia].
  - unfold rviews. simpl. by rewrite Hs, viewOf_nodeOf.
Qed.

Lemma popReserve_spec x x' v :
  wf_reserve x -> popReserve x = Some (x', v) ->
  wf_reserve x' /\ rviews x = v :: rviews x' /\ vsize v = rsize x /\ rsize x' = rsize x.
Proof.
  intros [W1 W2 W3]. unfold popReserve. destruct (rhead x) as [|node next] eqn:Hh; [done|]. intros [= <- <-].
  splits; try done.
  - constructor; simpl; [simpl in W1; lia| |done]. intros E. specialize (W2 E). done.
  - unfold rviews. by rewrite Hh.
Qed.

Lemma refill_spec n x c k y x' c' :
  wf_reserve x -> wf_cache opts c -> classes c !! k = Some y -> csize y = rsize x -> 0 < rsize x ->
  refill opts n x c k = (x', c') ->
  wf_reserve x' /\ wf_cache opts c' /\
  (forall w, (cnt w (rviews x') + cnt_cache w c' = cnt w (rviews x) + cnt_cache w c)%nat).
Proof.
  revert x c y. induction n as [|n IH]; intros x c y Hx Hc Hk Hs Hpos; simpl; [by intros [= <- <-]|].
  destruct (popReserve x) as [[x1 v]|] eqn:Hp; [|by intros [= <- <-]].
  destruct (canCache opts c (rsize x)) eqn:Hcan; [|by intros [= <- <-]]. intros Hr.
  destruct (popReserve_spec x x1 v Hx Hp) as (Hx1 & E & Ev & Es).
  destruct (pushFront_spec opts c k v y Hc Hk) as [Hc1 Hcnt]; [congruence|lia|by rewrite Ev|].
  assert (exists y', classes (pushFront c k v) !! k = Some y' /\ csize y' = rsize x1) as (y' & Hk' & Hs').
  { unfold pushFront. rewrite Hk. eexists. split; [apply list_lookup_insert_eq; by eapply lookup_lt_Some|simpl; congruence]. }
  destruct (IH x1 (pushFront c k v) y' Hx1 Hc1 Hk' Hs' ltac:(lia) Hr) as (? & ? & Hsum). splits; try done.
  intros w. rewrite Hsum, Hcnt, E, !cnt_cons, cnt_nil. lia.
Qed.

Lemma refill_size n x c k : rsize (refill opts n x c k).1 = rsize x.
Proof.
  revert x c. induction n as [|n IH]; intros x c; [done|]. simpl. unfold popReserve.
  destruct (rhead x); [done|]. destruct (canCache opts c (rsize x)); [|done]. by rewrite IH.
Qed.

#[local] Arguments refill : simpl never.

(** Everything in the reserve, the thread's cache and the result. *)
Definition total3 w l (oc : option ThreadCache) (ov : option StackView) : nat :=
  (cnt_reserves w l + cnt_ocache w oc + cnt w (option_list ov))%nat.

Lemma reserve_take_spec l sz oc l' oc' ov :
  wf_reserves l -> (forall c, oc = Some c -> wf_cache opts c) -> 0 <= sz ->
  reserve_take opts l sz oc = (l', oc', ov) ->
  wf_reserves l' /\ (forall c, oc' = Some c -> wf_cache opts c) /\ (oc = None -> oc' = None) /\
  (forall c, oc = Some c -> exists c', oc' = Some c') /\
  (forall v, ov = Some v -> vsize v = sz /\ 0 < sz) /\
  (forall w, total3 w l' oc' ov = total3 w l oc None).
Proof.
  intros Hl Hoc Hsz. unfold reserve_take, total3.
  destruct (findOrAddReserve l sz) as [l1 [k|]] eqn:E; destruct (findOrAddReserve_spec l sz l1 _ Hl Hsz E) as (Hl1 & Hcnt & Hk).
  2: { intros [= <- <- <-]. splits; try done; [eauto|]. intros w. by rewrite Hcnt. }
  destruct (Hk k eq_refl) as (x & Hx & Hxs). rewrite Hx. simpl.
  destruct (popReserve x) as [[x1 v]|] eqn:Hp.
  2: { intros [= <- <- <-]. splits; try done; [eauto|]. intros w. by rewrite Hcnt. }
  destruct (popReserve_spec x x1 v (Hl1 k x Hx) Hp) as (Hx1 & Ev & Es & Es1).
  assert (0 < sz) as Hpos.
  { destruct (Hl1 k x Hx) as [_ W2 _]. destruct (decide (sz = 0)); [|lia].
    unfold popReserve in Hp. rewrite W2 in Hp by congruence. done. }
  assert (forall x2 w, (cnt_reserves w (<[k := x2]> l1) + cnt w (v :: rviews x1) = cnt_reserves w l + cnt w (rviews x2))%nat) as Hupd.
  { intros x2 w. rewrite <- Hcnt, <- Ev. by apply cnt_reserves_upd. }
  destruct oc as [c|].
  2: { intros [= <- <- <-]. splits; try done; [by apply wf_reserves_upd| |].
       - intros v' [= <-]. split; [congruence|done].
       - intros w. specialize (Hupd x1 w). unfold cnt_ocache. simpl. rewrite !cnt_cons, cnt_nil in *. lia. }
  specialize (Hoc c eq_refl). destruct (findOrAddClass c sz) as [c1 [kc|]] eqn:Ec.
  - destruct (findOrAddClass_spec opts c sz c1 kc Hoc Hpos Ec) as (Hc1 & (y & Hy & Hys) & Hcc & _).
    match goal with |- context [refill opts ?m x1 c1 kc] => destruct (refill opts m x1 c1 kc) as [x2 c2] eqn:Er end. intros [= <- <- <-].
    destruct (refill_spec _ x1 c1 kc y x2 c2 Hx1 Hc1 Hy ltac:(congruence) ltac:(congruence) Er) as (Hx2 & Hc2 & Hsum).
    splits; [by apply wf_reserves_upd|by intros ? [= <-]|done|eauto| |].
    + intros v' [= <-]. split; [congruence|done].
    + intros w. specialize (Hupd x2 w). specialize (Hsum w). unfold cnt_ocache. simpl. rewrite Hcc in Hsum.
      rewrite !cnt_cons, ?cnt_nil in *. lia.
  - assert (c1 = c) as ->.
    { unfold findOrAddClass in Ec. destruct (findClass c sz); [done|]. by destruct (find_size (classes c) 0); simplify_eq. }
    intros [= <- <- <-]. splits; [by apply wf_reserves_upd|by intros ? [= <-]|done|eauto| |].
    + intros v' [= <-]. split; [congruence|done].
    + intros w. specialize (Hupd x1 w). unfold cnt_ocache. simpl. rewrite !cnt_cons, ?cnt_nil in *. lia.
Qed.

Lemma reserve_give_spec l v l' :
  wf_reserves l -> 0 < vsize v -> reserve_give l v = Some l' ->
  wf_reserves l' /\ forall w, cnt_reserves w l' = (cnt_reserves w l + cnt w [v])%nat.
Proof.
  intros Hl Hpos. unfold reserve_give. destruct (find_rsize l (vsize v)) as [k|] eqn:E; simpl; [|done].
  destruct (find_rsize_spec _ _ _ E) as (x & Hx & Hs). rewrite Hx. simpl.
  destruct (rcount x >=? rtarget x); [done|]. intros [= <-].
  destruct (pushReserve_spec x v (Hl k x Hx) Hs Hpos) as [Hx' Hv]. split; [by apply wf_reserves_upd|].
  intros w. pose proof (cnt_reserves_upd l k x (pushReserve x v) w Hx) as Hu. rewrite Hv, cnt_cons in Hu.
  rewrite cnt_cons, cnt_nil. lia.
Qed.

Lemma reserve_open_spec l sz count l' o :
  wf_reserves l -> 0 <= sz -> reserve_open l sz count = (l', o) ->
  wf_reserves l' /\ forall w, cnt_reserves w l' = cnt_reserves w l.
Proof.
  intros Hl Hsz. unfold reserve_open.
  destruct (findOrAddReserve l sz) as [l1 [k|]] eqn:E; destruct (findOrAddReserve_spec l sz l1 _ Hl Hsz E) as (Hl1 & Hcnt & Hk).
  2: { by intros [= <- <-]. }
  destruct (Hk k eq_refl) as (x & Hx & Hxs). rewrite Hx. simpl. intros [= <- <-].
  destruct (Hl1 k x Hx) as [W1 W2 W3]. split; [apply wf_reserves_upd; [done|by constructor]|].
  intros w. pose proof (cnt_reserves_upd l1 k x (MkReserve (rsize x) (rhead x) (rcount x) (rtarget x `max` count)) w Hx) as Hu.
  unfold rviews in Hu. simpl in Hu. rewrite <- Hcnt. lia.
Qed.

Lemma pushReserves_spec x batch :
  wf_reserve x -> (forall v, v ∈ batch -> vsize v = rsize x /\ 0 < vsize v) ->
  wf_reserve (foldl pushReserve x batch) /\
  forall w, cnt w (rviews (foldl pushReserve x batch)) = (cnt w (rviews x) + cnt w batch)%nat.
Proof.
  revert x. induction batch as [|v batch IH]; intros x Hx Hb; simpl; [split; [done|]; intros; rewrite cnt_nil; lia|].
  destruct (Hb v ltac:(left)) as [Hs Hpos]. destruct (pushReserve_spec x v Hx (eq_sym Hs) Hpos) as [Hx1 Hv].
  destruct (IH (pushReserve x v) Hx1) as [Hx2 Hc]; [intros u Hu; apply Hb; by right|]. split; [done|].
  intros w. rewrite Hc, Hv, !cnt_cons. lia.
Qed.

(** *** A class keeps its size *)

Definition sizes_kept l l' : Prop :=
  forall k x, l !! k = Some x -> rsize x <> 0 -> exists x', l' !! k = Some x' /\ rsize x' = rsize x.
Definition has_class l sz : Prop := exists k x, l !! k = Some x /\ rsize x = sz.

Lemma sizes_kept_refl l : sizes_kept l l.
Proof. intros k x Hk _. by exists x. Qed.
Lemma sizes_kept_trans l1 l2 l3 : sizes_kept l1 l2 -> sizes_kept l2 l3 -> sizes_kept l1 l3.
Proof.
  intros H1 H2 k x Hk Hx. destruct (H1 k x Hk Hx) as (x1 & Hk1 & E1).
  destruct (H2 k x1 Hk1) as (x2 & Hk2 & E2); [congruence|]. exists x2. split; congruence.
Qed.
Lemma sizes_kept_has l l' sz : sizes_kept l l' -> sz <> 0 -> has_class l sz -> has_class l' sz.
Proof. intros H Hsz (k & x & Hk & <-). destruct (H k x Hk Hsz) as (x' & Hk' & E). by exists k, x'. Qed.

Lemma sizes_kept_insert l k x x' : l !! k = Some x -> rsize x' = rsize x -> sizes_kept l (<[k := x']> l).
Proof.
  intros Hk E j y Hj _. destruct (decide (j = k)) as [->|]; [|rewrite list_lookup_insert_ne by done; by exists y].
  exists x'. rewrite list_lookup_insert_eq by (by eapply lookup_lt_Some). simplify_eq. done.
Qed.

Lemma sizes_kept_findOrAdd l sz : sizes_kept l (findOrAddReserve l sz).1.
Proof.
  unfold findOrAddReserve. destruct (find_rsize l sz); [apply sizes_kept_refl|].
  destruct (find_rsize l 0) as [k|] eqn:E; [|apply sizes_kept_refl]. simpl.
  destruct (find_rsize_spec _ _ _ E) as (x & Hx & Hx0). intros j y Hj Hy.
  destruct (decide (j = k)) as [->|]; [congruence|]. rewrite list_lookup_insert_ne by done. by exists y.
Qed.

Lemma has_class_find l sz : has_class l sz -> exists k, findOrAddReserve l sz = (l, Some k).
Proof.
  intros (k & x & Hk & Hx). unfold findOrAddReserve.
  assert (exists k', find_rsize l sz = Some k') as [k' ->]; [|by exists k'].
  revert k Hk. induction l as [|a l IH]; intros [|k] Hk; simplify_eq/=.
  - rewrite Z.eqb_refl. by exists 0%nat.
  - destruct (rsize a =? rsize x); [by exists 0%nat|]. destruct (IH k Hk) as [k' ->]. by exists (S k').
Qed.

Lemma findOrAdd_has l sz l' k :
  wf_reserves l -> 0 <= sz -> findOrAddReserve l sz = (l', Some k) -> has_class l' sz.
Proof. intros Hl Hsz E. destruct (findOrAddReserve_spec l sz l' _ Hl Hsz E) as (_ & _ & Hk). exists k. by apply Hk. Qed.

Lemma reserve_take_kept l sz oc : sizes_kept l (reserve_take opts l sz oc).1.1.
Proof.
  unfold reserve_take. pose proof (sizes_kept_findOrAdd l sz) as Hk. destruct (findOrAddReserve l sz) as [l1 [k|]]; [|done].
  simpl in Hk. destruct (l1 !! k) as [x|] eqn:Hx; simpl; [|done]. destruct (popReserve x) as [[x1 v]|] eqn:Hp; [|done].
  assert (rsize x1 = rsize x) as E1 by (unfold popReserve in Hp; destruct (rhead x); by simplify_eq).
  assert (forall x2, rsize x2 = rsize x -> sizes_kept l (<[k := x2]> l1)) as Hins.
  { intros x2 E2. eapply sizes_kept_trans; [done|]. by eapply sizes_kept_insert. }
  destruct oc as [c|]; [|by apply Hins]. destruct (findOrAddClass c sz) as [c1 [kc|]]; [|by apply Hins].
  match goal with |- context [refill opts ?m x1 c1 kc] => pose proof (refill_size m x1 c1 kc) as Hr;
    destruct (refill opts m x1 c1 kc) as [x2 c2] end.
  apply Hins. simpl in Hr. congruence.
Qed.

Lemma reserve_give_kept l v l' : reserve_give l v = Some l' -> sizes_kept l l'.
Proof.
  unfold reserve_give. destruct (find_rsize l (vsize v)) as [k|]; simpl; [|done].
  destruct (l !! k) as [x|] eqn:Hx; simpl; [|done]. destruct (rcount x >=? rtarget x); [done|]. intros [= <-].
  by eapply sizes_kept_insert.
Qed.

Lemma reserve_open_kept l sz count : sizes_kept l (reserve_open l sz count).1.
Proof.
  unfold reserve_open. pose proof (sizes_kept_findOrAdd l sz) as Hk. destruct (findOrAddReserve l sz) as [l1 [k|]]; [|done].
  simpl in *. eapply sizes_kept_trans; [done|]. destruct (l1 !! k) as [x|] eqn:Hx.
  - by eapply sizes_kept_insert.
  - rewrite list_insert_ge by (by apply lookup_ge_None_1). apply sizes_kept_refl.
Qed.

Lemma reserve_open_has l sz count l' o :
  wf_reserves l -> 0 <= sz -> reserve_open l sz count = (l', Some o) -> has_class l' sz.
Proof.
  intros Hl Hsz. unfold reserve_open.
  destruct (findOrAddReserve l sz) as [l1 [k|]] eqn:E; [|done]. intros [= <- <-].
  destruct (findOrAddReserve_spec l sz l1 _ Hl Hsz E) as (_ & _ & Hk). destruct (Hk k eq_refl) as (x & Hx & Hs).
  rewrite Hx. simpl. exists k. eexists. split; [apply list_lookup_insert_eq; by eapply lookup_lt_Some|done].
Qed.

Lemma reserve_add_spec l sz batch :
  wf_reserves l -> 0 < sz -> has_class l sz -> (forall v, v ∈ batch -> vsize v = sz) ->
  exists l', reserve_add l sz batch = Some l' /\ wf_reserves l' /\ sizes_kept l l' /\
  forall w, cnt_reserves w l' = (cnt_reserves w l + cnt w batch)%nat.
Proof.
  intros Hl Hsz Hh Hb. unfold reserve_add. destruct (has_class_find l sz Hh) as [k E]. rewrite E.
  destruct (findOrAddReserve_spec l sz l _ Hl ltac:(lia) E) as (_ & _ & Hk).
  destruct (Hk k eq_refl) as (x & Hx & Hxs). rewrite Hx. simpl. eexists. split; [done|].
  destruct (pushReserves_spec x batch (Hl k x Hx)) as [Hx' Hc]; [intros v Hv; rewrite (Hb v Hv); lia|].
  splits; [by apply wf_reserves_upd| |].
  - eapply sizes_kept_insert; [done|]. clear. revert x. induction batch as [|v b IH]; intros x; simpl; [done|]. by rewrite IH.
  - intros w. pose proof (cnt_reserves_upd l k x (foldl pushReserve x batch) w Hx) as Hu. rewrite Hc in Hu. lia.
Qed.
End reserves.
