(* ===== verification/PoolSpec.v ===== *)
(** * PooledStackAllocator: concurrent use

    Any number of threads allocate, return (also each other's) stacks, reserve
    and exit; every stack has one owner. *)

From Stdlib Require Import ZArith Lia.
From stdpp Require Import base tactics list numbers option strings functions.
From S2P Require Import Prelude Conc Sums Pool PoolInv.

Definition disjoint_views (v w : StackView) : Prop := topOf v <= vbase w \/ topOf w <= vbase v.

(** What the pool relies on of the upstream allocator: the stack it gives out
    is not empty, is as large as asked for or larger, overlaps none that is mapped and
    is not at address 0. *)
Definition upstream_ok (pick : list StackView -> Z -> option StackView) : Prop :=
  forall l sz v, pick l sz = Some v -> vbase v <> 0 /\ (0 < vsize v /\ sz <= vsize v) /\ forall w, w ∈ l -> disjoint_views v w.

(** It does not round that size up. *)
Definition exact_for (pick : list StackView -> Z -> option StackView) (sz : Z) : Prop :=
  forall l v, pick l sz = Some v -> vsize v = sz.

Section pool.
Context `{SizeT} (page : Z) (opts : options) (pick : list StackView -> Z -> option StackView).
Context (Hpage : 0 < page) (Hpick : upstream_ok pick).
Context (Hstacks : 0 <= maxCachedStacksPerThread opts) (Hbytes : 0 <= maxCachedBytesPerThread opts).
Context (n : nat).
Implicit Types (s : pool) (g : nat -> list StackView) (v w : StackView).

(** Stacks between two owners, per thread. *)
Definition in_transit g v : nat := lsum (fun j => cnt v (g j)) (seq 0 n).

Record pool_inv s g : Prop := {
  pi_len : length (caches s) = n;
  pi_caches : forall i c, caches s !! i = Some (Some c) -> wf_cache opts c;
  pi_reserves : wf_reserves (reserves s);
  pi_up : forall v, v ∈ up s -> 0 < vsize v /\ vbase v <> 0;
  pi_once : forall v, (cnt v (up s) <= 1)%nat;
  pi_disjoint : forall v w, v ∈ up s -> w ∈ up s -> v <> w -> disjoint_views v w;
  pi_count : forall v, cnt v (up s) = (cnt_held v s + cnt v (inuse s) + in_transit g v)%nat
}.

Record pool_guar (i : nat) (a b : pool * (nat -> list StackView)) : Prop := {
  pg_transit : forall j, j <> i -> b.2 j = a.2 j;
  pg_caches : forall j, j <> i -> caches b.1 !! j = caches a.1 !! j;
  pg_sizes : sizes_kept (reserves a.1) (reserves b.1)
}.

Definition pool_protocol : protocol pool (nat -> list StackView) := Protocol pool_inv pool_guar.
#[local] Abbreviation proto := pool_protocol.
#[local] Hint Resolve sizes_kept_refl : core.

Lemma pool_guar_refl i x : pool_guar i x x.
Proof. constructor; auto. Qed.

Lemma transit_set g i vs v :
  (i < n)%nat -> (in_transit (<[i := vs]> g) v + cnt v (g i) = in_transit g v + cnt v vs)%nat.
Proof. intros Hi. apply (lsum_threads (cnt v)). done. Qed.

Lemma transit_up s g i v : pool_inv s g -> (i < n)%nat -> v ∈ g i -> v ∈ up s.
Proof.
  intros HI Hi Hv. apply cnt_elem. rewrite (pi_count _ _ HI). apply cnt_elem in Hv.
  assert (cnt v (g i) <= in_transit g v)%nat; [|lia].
  apply (lsum_elem (fun j => cnt v (g j))). apply elem_of_seq. lia.
Qed.

Section thread.
Context (i : nat) (Hi : (i < n)%nat).

(** The thread's cache is [oc], and it has the stacks [vs] in its hands;
    [r] is the cache it works with ([None] when it could not get one). *)
Definition mine (r : option ThreadCache) (vs : list StackView) : asrt pool (nat -> list StackView) :=
  fun s g => g i = vs /\ exists oc, caches s !! i = Some oc /\ (r = oc \/ r = None).

Lemma stable_pool_mine r vs : stable proto i (mine r vs).
Proof.
  intros j s g s' g' Hj _ _ [] (E & oc & Ho & Hr). simpl in *. split; [rewrite pg_transit0; auto|].
  exists oc. by rewrite pg_caches0 by auto.
Qed.
#[local] Hint Resolve stable_pool_mine pool_guar_refl : core.

Lemma mine_wf s g c vs : pool_inv s g -> mine (Some c) vs s g -> wf_cache opts c.
Proof. intros HI (_ & oc & Ho & [<-|]); [|done]. by eapply pi_caches. Qed.

(** A thread's step on its own cache, the shared parts and its hands. *)
Lemma inv_step s g s' vs' :
  pool_inv s g ->
  length (caches s') = length (caches s) ->
  (forall j c, caches s' !! j = Some (Some c) -> wf_cache opts c) -> wf_reserves (reserves s') ->
  (forall v, v ∈ up s' -> 0 < vsize v /\ vbase v <> 0) -> (forall v, cnt v (up s') <= 1)%nat ->
  (forall v w, v ∈ up s' -> w ∈ up s' -> v <> w -> disjoint_views v w) ->
  (forall v, (cnt v (up s') + (cnt_held v s + cnt v (inuse s) + cnt v (g i)) =
              cnt v (up s) + (cnt_held v s' + cnt v (inuse s') + cnt v vs'))%nat) ->
  pool_inv s' (<[i := vs']> g).
Proof.
  intros HI Hlen Hc Hr Hup Honce Hdisj Hcnt. constructor; try done.
  - rewrite Hlen. apply HI.
  - intros v. specialize (Hcnt v). pose proof (pi_count _ _ HI v). pose proof (transit_set g i vs' v Hi). lia.
Qed.

Lemma guar_step s g s' vs' :
  (forall j, j <> i -> caches s' !! j = caches s !! j) -> sizes_kept (reserves s) (reserves s') ->
  pool_guar i (s, g) (s', <[i := vs']> g).
Proof. intros Hc Hr. constructor; simpl; try done. intros j Hj. by rewrite fn_lookup_insert_ne. Qed.

Lemma mine_hands s g r vs vs' : mine r vs s g -> mine r vs' s (<[i := vs']> g).
Proof. intros (_ & ?). split; [by rewrite fn_lookup_insert|done]. Qed.

(** ** The thread's cache *)

Lemma rg_set_cache {A} c vs c' vs' (q : prog pool A) Q :
  (wf_cache opts c -> wf_cache opts c') ->
  (wf_cache opts c -> forall w, (cnt_cache w c' + cnt w vs' = cnt_cache w c + cnt w vs)%nat) ->
  rg proto i q (mine (Some c') vs') Q ->
  rg proto i (set_cache i (Some c');;; q) (mine (Some c) vs) Q.
Proof.
  intros Hwf Hcnt Hq. apply rg_store. intros s g HI Hm. pose proof (mine_wf _ _ _ _ HI Hm) as Hc.
  destruct Hm as (Eg & oc & Ho & Hr). destruct Hr as [<-|]; [|done].
  exists (<[i := vs']> g), (mine (Some c') vs'). splits; [| | |auto|done].
  - apply (inv_step s g); simpl; try apply HI; try done.
    + by rewrite length_insert.
    + intros j c1. destruct (decide (j = i)) as [->|]; [|rewrite list_lookup_insert_ne by done; apply HI].
      rewrite list_lookup_insert_eq by (by eapply lookup_lt_Some). intros [= <-]. auto.
    + intros v. unfold cnt_held. simpl.
      pose proof (lsum_insert (cnt_ocache v) (caches s) i (Some c') (Some c) Ho) as Hs. unfold cnt_ocache in Hs at 2 4.
      simpl in Hs. specialize (Hcnt Hc v). rewrite Eg. lia.
  - apply guar_step; simpl; [|done]. intros j Hj. by rewrite list_lookup_insert_ne.
  - split; [by rewrite fn_lookup_insert|]. exists (Some c'). simpl. split; [|by left].
    apply list_lookup_insert_eq. by eapply lookup_lt_Some.
Qed.

Lemma rg_currentCache {A} vs (k : option ThreadCache -> prog pool A) Q :
  (forall r, rg proto i (k r) (mine r vs) Q) ->
  rg proto i (bind (currentCache i) k) (mine None vs) Q.
Proof.
  intros Hk. split; [intros s g _ _; simpl; destruct (keyValid s); [destruct (default None (caches s !! i))|]; done|].
  intros s g s' r HI (Eg & oc & Ho & _) Hx. cbn beta iota in Hx.
  assert (Hsame : s' = s -> r = oc \/ r = None -> exists g' P', Inv proto s' g' /\ guar proto i (s, g) (s', g') /\
    P' s' g' /\ stable proto i P' /\ rg proto i (bind (Ret r) k) P' Q).
  { intros -> Hr. exists g, (mine r vs). splits; [done|apply pool_guar_refl| |auto|apply Hk]. split; [done|]. by exists oc. }
  rewrite Ho in Hx. simpl in Hx. destruct (keyValid s).
  2: { apply list_elem_of_singleton in Hx. injection Hx as -> ->. by apply Hsame; [|right]. }
  destruct oc as [c|].
  { apply list_elem_of_singleton in Hx. injection Hx as -> ->. by apply Hsame; [|left]. }
  apply elem_of_cons in Hx as [Hx|Hx%list_elem_of_singleton]; injection Hx as -> ->; [|by apply Hsame; [|right]].
  assert (wf_cache opts emptyCache) as Hwf.
  { constructor; try done. intros kk x Hx. unfold emptyCache in Hx. simpl in Hx.
    repeat (destruct kk as [|kk]; [injection Hx as <-; by constructor|]). done. }
  exists (<[i := vs]> g), (mine (Some emptyCache) vs). splits; [| | |auto|apply Hk].
  - apply (inv_step s g); simpl; try apply HI; try done.
    + by rewrite length_insert.
    + intros j c1. destruct (decide (j = i)) as [->|]; [|rewrite list_lookup_insert_ne by done; apply HI].
      rewrite list_lookup_insert_eq by (by eapply lookup_lt_Some). by intros [= <-].
    + intros v. unfold cnt_held. simpl.
      pose proof (lsum_insert (cnt_ocache v) (caches s) i (Some emptyCache) None Ho) as Hs.
      assert (cnt_ocache v (Some emptyCache) = 0%nat) as E0 by done. rewrite E0 in Hs. unfold cnt_ocache in Hs at 2.
      simpl in Hs. rewrite Eg. lia.
  - apply guar_step; simpl; [|done]. intros j Hj. by rewrite list_lookup_insert_ne.
  - split; [by rewrite fn_lookup_insert|]. exists (Some emptyCache). simpl. split; [|by left].
    apply list_lookup_insert_eq. by eapply lookup_lt_Some.
Qed.

(** ** Upstream *)

Lemma cnt_remove_one v w l : v ∈ l -> (cnt w (remove_one v l) + cnt w [v] = cnt w l)%nat.
Proof.
  induction l as [|x l IH]; [by intros ?%elem_of_nil|]. intros Hv. cbn [remove_one]. case_decide as Hd.
  - subst x. rewrite !cnt_cons, cnt_nil. lia.
  - apply elem_of_cons in Hv as [->|Hv]; [done|]. specialize (IH Hv). rewrite !cnt_cons, cnt_nil in *. lia.
Qed.

Lemma elem_of_remove_one v w l : w ∈ remove_one v l -> w ∈ l.
Proof.
  induction l as [|x l IH]; [done|]. cbn [remove_one]. case_decide; [by right|].
  intros [->|Hw]%elem_of_cons; [left|right; auto].
Qed.

Lemma rg_upstream_deallocate v r vs (Q : unit -> asrt pool (nat -> list StackView)) :
  (forall s g, pool_inv s g -> mine r vs s g -> Q tt s g) ->
  rg proto i (upstream_deallocate v) (mine r (v :: vs)) Q.
Proof.
  intros HQ. apply rg_rmw. intros s g HI Hm. pose proof Hm as (Eg & oc & Ho & Hr).
  assert (v ∈ up s) as Hv by (apply (transit_up s g i); [done..|rewrite Eg; left]).
  rewrite decide_True by done. cbn [fst snd].
  exists (<[i := vs]> g), (mine r vs). splits; [| | |auto|simpl; eauto].
  - apply (inv_step s g); simpl; try apply HI; try done.
    + intros w Hw. apply HI. by eapply elem_of_remove_one.
    + intros w. pose proof (cnt_remove_one v w (up s) Hv). pose proof (pi_once _ _ HI w). lia.
    + intros u w Hu Hw. apply HI; by eapply elem_of_remove_one.
    + intros w. pose proof (cnt_remove_one v w (up s) Hv). unfold cnt_held. simpl. rewrite Eg, !cnt_cons, cnt_nil in *. lia.
  - by apply guar_step.
  - split; [by rewrite fn_lookup_insert|]. by exists oc.
Qed.

Lemma rg_upstream_allocate {A} sz r vs (k : option StackView -> prog pool A) Q :
  (forall v, sz <= vsize v -> (exact_for pick sz -> vsize v = sz) -> rg proto i (k (Some v)) (mine r (v :: vs)) Q) ->
  rg proto i (k None) (mine r vs) Q ->
  rg proto i (bind (upstream_allocate pick sz) k) (mine r vs) Q.
Proof.
  intros Hs Hf. apply rg_rmw. intros s g HI Hm. pose proof Hm as (Eg & oc & Ho & Hr).
  destruct (pick (up s) sz) as [v|] eqn:Ep; cbn [fst snd]; [|exists g, (mine r vs); splits; auto; apply pool_guar_refl].
  destruct (Hpick _ _ _ Ep) as (Hb & Hsz & Hd).
  assert (v ∉ up s) as Hfresh.
  { intros Hv. pose proof (Hd v Hv) as Hdd. unfold disjoint_views, topOf in Hdd. simpl in Hdd. lia. }
  exists (<[i := v :: vs]> g), (mine r (v :: vs)). splits; [| | |auto|apply Hs; [lia|intros Hx; by apply (Hx _ _ Ep)]].
  - apply (inv_step s g); simpl; try apply HI; try done.
    + intros w [->|Hw]%elem_of_cons; [split; [lia|done]|by apply HI].
    + intros w. rewrite cnt_cons. pose proof (pi_once _ _ HI w). case_decide; [subst w; apply cnt_zero in Hfresh|]; lia.
    + intros u w [->|Hu]%elem_of_cons [->|Hw]%elem_of_cons Hne; [done|by apply Hd| |by apply HI].
      apply or_comm. by apply Hd.
    + intros w. unfold cnt_held. simpl. rewrite Eg, !cnt_cons. lia.
  - by apply guar_step.
  - split; [by rewrite fn_lookup_insert|]. by exists oc.
Qed.

(** ** The shared pool *)

Lemma rg_shared_pop {A} r vs (k : PopStatus * StackView -> prog pool A) Q :
  (forall v, 0 < vsize v -> rg proto i (k (PopOk, v)) (mine r (v :: vs)) Q) ->
  (forall v, rg proto i (k (PopEmpty, v)) (mine r vs) Q) -> (forall v, rg proto i (k (PopBusy, v)) (mine r vs) Q) ->
  rg proto i (bind shared_pop k) (mine r vs) Q.
Proof.
  intros Hok Hempty Hbusy. split; [intros s g _ _; simpl; by destruct (imap _ _)|].
  intros s g s' x HI Hm Hx. pose proof Hm as (Eg & oc & Ho & Hr). cbn beta iota in Hx.
  apply elem_of_app in Hx as [Hx|Hx].
  - apply elem_of_lookup_imap in Hx as (j & v & [= -> ->] & Hj).
    pose proof (fun w => cnt_delete w (shared s) j v Hj) as Ed.
    exists (<[i := v :: vs]> g), (mine r (v :: vs)). splits; [| | |auto|].
    + apply (inv_step s g); simpl; try apply HI; try done.
      intros w. unfold cnt_held. simpl. rewrite Eg, <- (Ed w), !cnt_cons, cnt_nil. lia.
    + by apply guar_step.
    + split; [by rewrite fn_lookup_insert|]. by exists oc.
    + apply Hok. apply (pi_up _ _ HI). apply cnt_elem. rewrite (pi_count _ _ HI). unfold cnt_held.
      rewrite <- (Ed v), !cnt_cons, decide_True by done. lia.
  - apply elem_of_cons in Hx as [Hx|Hx%list_elem_of_singleton]; injection Hx as -> ->;
      exists g, (mine r vs); (splits; [done|apply pool_guar_refl|done|auto|apply Hempty || apply Hbusy]).
Qed.

Lemma rg_giveToShared_loop spins r v vs :
  rg proto i (giveToShared_loop spins v) (mine r (v :: vs)) (fun b => mine r (if b then vs else v :: vs)).
Proof.
  induction spins as [|spins IH]; [by intros s g|]. split; [done|].
  intros s g s' x HI Hm Hx. pose proof Hm as (Eg & oc & Ho & Hr).
  apply elem_of_cons in Hx as [Hx|Hx]; [|apply elem_of_cons in Hx as [Hx|Hx%list_elem_of_singleton]]; injection Hx as -> ->.
  - exists (<[i := vs]> g), (mine r vs). splits; [| | |auto|by intros s1 g1].
    + apply (inv_step s g); simpl; try apply HI; try done.
      intros w. unfold cnt_held. simpl. rewrite Eg, cnt_app, !cnt_cons, cnt_nil. lia.
    + by apply guar_step.
    + split; [by rewrite fn_lookup_insert|]. by exists oc.
  - exists g, (mine r (v :: vs)). splits; [done|apply pool_guar_refl|done|auto|by intros s1 g1].
  - exists g, (mine r (v :: vs)). splits; [done|apply pool_guar_refl|done|auto|apply IH].
Qed.

Lemma tryCache_none_or r v : tryCache opts r v = None \/ exists c c', r = Some c /\ tryCache opts r v = Some c'.
Proof. destruct r as [c|]; [|by left]. destruct (tryCache opts (Some c) v) as [c'|] eqn:E; [right|by left]. by exists c, c'. Qed.

(** Caching a stack from the thread's hands. *)
Lemma rg_cache {A} c v vs c' (q : prog pool A) Q :
  0 < vsize v -> tryCache opts (Some c) v = Some c' ->
  rg proto i q (mine (Some c') vs) Q -> rg proto i (set_cache i (Some c');;; q) (mine (Some c) (v :: vs)) Q.
Proof.
  intros Hpos E. assert (wf_cache opts c -> wf_cache opts c' /\ forall w, cnt_cache w c' = (cnt_cache w c + cnt w [v])%nat) as Hs.
  { intros Hc. destruct (tryCache_spec opts (Some c) v c') as [? Hcnt]; [by intros ? [= <-]|done|done|].
    split; [done|]. intros w. by rewrite Hcnt. }
  apply rg_set_cache; [apply Hs|]. intros Hc w. destruct (Hs Hc) as [_ ->]. rewrite !cnt_cons, cnt_nil. lia.
Qed.

Lemma rg_takeFromShared_loop attempts sz r vs :
  rg proto i (takeFromShared_loop opts i attempts sz r) (mine r vs)
    (fun x s g => (exists v, x.2 = Some v /\ vsize v = sz /\ mine x.1 (v :: vs) s g) \/ (x.2 = None /\ mine x.1 vs s g)).
Proof.
  revert r. induction attempts as [|m IH]; intros r; [intros s g _ Hm; by right|]. cbn [takeFromShared_loop].
  apply rg_shared_pop; [|intros _ s g _ Hm; by right|intros _; apply IH].
  intros v Hpos. destruct (Z.eqb_spec (vsize v) sz) as [E|E]; [intros s g _ Hm; left; by exists v|].
  destruct (tryCache_none_or r v) as [->|(c & c' & -> & Et)].
  - apply rg_seq with (mine r vs); [by apply rg_upstream_deallocate|apply IH].
  - rewrite Et. apply rg_cache; [done|done|apply IH].
Qed.

(** ** The reserve *)

Lemma rg_takeFromReserve sz r vs :
  0 <= sz ->
  rg proto i (takeFromReserve opts i sz r) (mine r vs)
    (fun x s g => (exists v, x.2 = Some v /\ vsize v = sz /\ mine x.1 (v :: vs) s g) \/ (x.2 = None /\ mine x.1 vs s g)).
Proof.
  intros Hsz. apply rg_bind_ret, rg_rmw. intros s g HI Hm. pose proof Hm as (Eg & oc & Ho & Hr).
  pose proof (reserve_take_kept opts (reserves s) sz r) as Hkept.
  destruct (reserve_take opts (reserves s) sz r) as [[l r'] ov] eqn:E. cbn [fst snd] in *.
  destruct (reserve_take_spec opts _ sz r l r' ov (pi_reserves _ _ HI)) as (Hl & Hc & HNone & HSome & Hv & Htot); [|done|done|].
  { intros c ->. by eapply mine_wf. }
  exists (<[i := option_list ov ++ vs]> g), (mine r' (option_list ov ++ vs)). splits; [| | |auto|].
  - apply (inv_step s g); simpl; try apply HI; try done.
    + destruct r'; [by rewrite length_insert|done].
    + intros j c1. destruct r' as [c'|]; [|apply HI].
      destruct (decide (j = i)) as [->|]; [|rewrite list_lookup_insert_ne by done; apply HI].
      rewrite list_lookup_insert_eq by (by eapply lookup_lt_Some). intros [= <-]. auto.
    + intros w. unfold cnt_held. simpl. specialize (Htot w). unfold total3 in Htot. rewrite cnt_app, Eg. simpl option_list in Htot at 2. rewrite cnt_nil in Htot.
      destruct r as [c|].
      * destruct (HSome c eq_refl) as [c' ->]. destruct Hr as [<-|]; [|done].
        pose proof (lsum_insert (cnt_ocache w) (caches s) i (Some c') (Some c) Ho). lia.
      * rewrite (HNone eq_refl) in *. simpl. unfold cnt_ocache in Htot. simpl in Htot. lia.
  - apply guar_step; simpl; [|done]. intros j Hj. destruct r'; [by rewrite list_lookup_insert_ne|done].
  - split; [by rewrite fn_lookup_insert|]. simpl. destruct r as [c|].
    + destruct (HSome c eq_refl) as [c' ->]. exists (Some c'). split; [|by left].
      apply list_lookup_insert_eq. by eapply lookup_lt_Some.
    + rewrite (HNone eq_refl). exists oc. split; [done|by right].
  - intros s1 g1 _ Hm1. destruct ov as [v|]; [left; exists v; by destruct (Hv v eq_refl)|by right].
Qed.

Lemma rg_giveToReserve r v vs :
  0 < vsize v ->
  rg proto i (giveToReserve v) (mine r (v :: vs)) (fun b => mine r (if b then vs else v :: vs)).
Proof.
  intros Hpos. apply rg_bind_ret, rg_rmw. intros s g HI Hm. pose proof Hm as (Eg & oc & Ho & Hr).
  destruct (reserve_give (reserves s) v) as [l|] eqn:E; cbn [fst snd].
  - destruct (reserve_give_spec _ v l (pi_reserves _ _ HI) Hpos E) as [Hl Hcnt].
    exists (<[i := vs]> g), (mine r vs). splits; [| | |auto|by intros s1 g1].
    + apply (inv_step s g); simpl; try apply HI; try done.
      intros w. unfold cnt_held. simpl. rewrite Hcnt, Eg, !cnt_cons, cnt_nil. lia.
    + apply guar_step; simpl; [done|]. by eapply reserve_give_kept.
    + split; [by rewrite fn_lookup_insert|]. by exists oc.
  - exists g, (mine r (v :: vs)). splits; [done|apply pool_guar_refl|done|auto|by intros s1 g1].
Qed.

(** ** The operations *)

Lemma rg_release r v vs (Q : unit -> asrt pool (nat -> list StackView)) :
  0 < vsize v -> (forall s g, pool_inv s g -> mine r vs s g -> Q tt s g) ->
  rg proto i (release v) (mine r (v :: vs)) Q.
Proof.
  intros Hpos HQ. eapply rg_bind; [apply rg_giveToShared_loop|]. intros [|]; [intros s g HI Hm; by apply HQ|].
  eapply rg_bind; [by apply rg_giveToReserve|]. intros [|]; [intros s g HI Hm; by apply HQ|].
  by apply rg_upstream_deallocate.
Qed.

Lemma mine_none r vs s g : mine r vs s g -> mine None vs s g.
Proof. intros (E & oc & Ho & _). split; [done|]. exists oc. split; [done|by right]. Qed.

Lemma rg_deallocate v vs :
  0 < vsize v ->
  rg proto i (deallocate opts i v) (mine None (v :: vs)) (fun _ s g => mine None vs s g \/ (isEmpty v = true /\ mine None (v :: vs) s g)).
Proof.
  intros Hpos. unfold deallocate. destruct (isEmpty v) eqn:Ee; [intros s g _ Hm; by right|].
  apply rg_currentCache. intros r. destruct (tryCache_none_or r v) as [->|(c & c' & -> & Et)].
  - apply rg_release; [done|]. intros s g _ Hm. left. by eapply mine_none.
  - rewrite Et. apply rg_seq_ret. apply (rg_cache c v vs c'); [done..|].
    intros s g _ Hm. left. by eapply mine_none.
Qed.

Lemma round_nonneg sz : 0 <= roundUpToPage page sz.
Proof.
  unfold roundUpToPage. apply Z.mul_nonneg_nonneg; [|lia]. apply Z.div_pos; [|done]. apply szwrap_range.
Qed.

Lemma rg_allocate sz vs :
  rg proto i (allocate page opts pick i sz) (mine None vs)
    (fun o s g => match o with
                  | Some v => roundUpToPage page sz <= vsize v /\ mine None (v :: vs) s g
                  | None => mine None vs s g
                  end).
Proof.
  unfold allocate. set (rounded := roundUpToPage page sz). pose proof (round_nonneg sz) as Hpos. fold rounded in Hpos.
  apply rg_currentCache. intros r.
  destruct (r ≫= (fun c => findClass c rounded ≫= popFront c)) as [[c' v]|] eqn:Ef.
  - destruct r as [c|]; simpl in Ef; [|done]. destruct (findClass c rounded) as [k|] eqn:Ek; simpl in Ef; [|done].
    assert (wf_cache opts c -> wf_cache opts c' /\ (forall w, cnt_cache w c = (cnt_cache w c' + cnt w [v])%nat)) as Hs.
    { intros Hc. destruct (popFront_spec opts c k c' v Hc Ef) as (? & ? & _). done. }
    assert (vsize v = rounded) as Ev.
    { destruct (find_size_spec _ _ _ Ek) as (x & Hx & Hxs). unfold popFront in Ef. rewrite Hx in Ef. simpl in Ef.
      destruct (chead x); [done|]. by injection Ef as <- <-. }
    apply (rg_set_cache c vs c' (v :: vs)); [apply Hs| |].
    + intros Hc w. destruct (Hs Hc) as [_ ->]. rewrite !cnt_cons, cnt_nil. lia.
    + intros s g _ Hm. split; [by rewrite Ev|]. by eapply mine_none.
  - eapply rg_bind; [apply rg_takeFromShared_loop|]. intros [r1 [v|]].
    { intros s g _ [(v' & [= <-] & Ev & Hm)|[? _]]; [|done]. split; [by rewrite Ev|]. by eapply mine_none. }
    eapply rg_pre; [|eapply (rg_bind _ _ _ _ (mine r1 vs)); [by apply rg_takeFromReserve|]].
    { intros s g _ [(v' & ? & _)|[_ Hm]]; [done|]. done. }
    intros [r2 [v|]].
    { intros s g _ [(v' & [= <-] & Ev & Hm)|[? _]]; [|done]. split; [by rewrite Ev|]. by eapply mine_none. }
    eapply (rg_pre _ _ _ (mine r2 vs)); [intros s g _ [(v' & ? & _)|[_ Hm]]; done|].
    apply rg_bind_ret. apply rg_upstream_allocate.
    + intros v Ev _ s g _ Hm. split; [exact Ev|]. by eapply mine_none.
    + intros s g _ Hm. by eapply mine_none.
Qed.

(** ** [reserve] *)

Definition has_reserve sz : asrt pool (nat -> list StackView) := fun s _ => has_class (reserves s) sz.

Lemma has_reserve_step sz j s g s' g' : sz <> 0 -> pool_guar j (s, g) (s', g') -> has_reserve sz s g -> has_reserve sz s' g'.
Proof. intros Hsz HG. by apply sizes_kept_has; [apply (pg_sizes _ _ _ HG)|]. Qed.

Lemma stable_has_reserve sz : sz <> 0 -> stable proto i (has_reserve sz).
Proof. intros Hsz j s g s' g' _ _ _ HG. by eapply has_reserve_step. Qed.

(** The batch is in the thread's hands, on top of what it had. *)
Definition holding vs batch : asrt pool (nat -> list StackView) := fun s g =>
  exists vs', mine None vs' s g /\ forall w, cnt w vs' = (cnt w batch + cnt w vs)%nat.

Lemma rg_allocateMany m sz vs :
  exact_for pick sz -> rg proto i (upstream_allocateMany pick m sz) (mine None vs)
    (fun batch s g => (forall v, v ∈ batch -> vsize v = sz) /\ holding vs batch s g).
Proof.
  intros Hx. revert vs. induction m as [|m IH]; intros vs; cbn [upstream_allocateMany].
  - intros s g _ Hm. split; [by intros ? ?%elem_of_nil|]. by exists vs.
  - apply rg_upstream_allocate.
    + intros v _ Ev. specialize (Ev Hx). eapply rg_bind; [apply IH|]. intros b s g _ [Hb (vs' & Hm & Hc)]. split.
      * intros u [->|Hu]%elem_of_cons; auto.
      * exists vs'. split; [done|]. intros w. rewrite Hc, !cnt_cons. lia.
    + intros s g _ Hm. split; [by intros ? ?%elem_of_nil|]. by exists vs.
Qed.

Lemma rg_reserve_fill fuel sz missing :
  0 < sz -> exact_for pick sz ->
  rg proto i (reserve_fill pick fuel sz missing) (fun s g => mine None [] s g /\ has_reserve sz s g)
    (fun _ s g => mine None [] s g /\ has_reserve sz s g).
Proof.
  intros Hsz Hx. revert missing. induction fuel as [|fuel IH]; intros missing; [done|]. cbn [reserve_fill].
  destruct (missing =? 0)%nat; [by intros s g|].
  eapply (rg_bind proto i _ _ _ (fun b s g => ((forall v, v ∈ b -> vsize v = sz) /\ holding [] b s g) /\ has_reserve sz s g)).
  { apply rg_frame; [apply stable_has_reserve; lia|intros ? ? ? ?; apply has_reserve_step; lia|by apply rg_allocateMany]. }
  intros batch. apply rg_rmw. intros s g HI [[Hb (vs & Hm & Hc)] Hh]. pose proof Hm as (Eg & oc & Ho & Hr).
  destruct (reserve_add_spec (reserves s) sz batch (pi_reserves _ _ HI) Hsz Hh Hb) as (l' & E & Hl & Hk & Hcnt).
  rewrite E. cbn [fst snd]. exists (<[i := []]> g), (fun s g => mine None [] s g /\ has_reserve sz s g).
  split; [|split; [|split; [|split]]].
  - apply (inv_step s g); simpl; try apply HI; try done.
    intros w. unfold cnt_held. simpl. rewrite Hcnt, Eg, Hc, cnt_nil. lia.
  - by apply guar_step.
  - split; [split; [by rewrite fn_lookup_insert|by exists oc]|]. apply (sizes_kept_has (reserves s)); [done|lia|done].
  - apply stable_and; [auto|apply stable_has_reserve; lia].
  - cbn [check bind]. destruct (length batch <? _)%nat; [by intros s1 g1|apply IH].
Qed.

Lemma rg_reserve fuel sz count :
  roundUpToPage page sz <> 0 -> exact_for pick (roundUpToPage page sz) ->
  rg proto i (reserve page pick fuel sz count) (mine None []) (fun _ => mine None []).
Proof.
  unfold reserve. set (rounded := roundUpToPage page sz). intros Hnz Hx.
  pose proof (round_nonneg sz) as Hpos. fold rounded in Hpos.
  apply rg_rmw. intros s g HI Hm. pose proof Hm as (Eg & oc & Ho & Hr).
  pose proof (reserve_open_kept (reserves s) rounded count) as Hk.
  destruct (reserve_open (reserves s) rounded count) as [l o] eqn:E. cbn [fst snd] in *.
  destruct (reserve_open_spec _ _ _ _ _ (pi_reserves _ _ HI) Hpos E) as [Hl Hcnt].
  assert (pool_inv (with_reserves (fun _ => l) s) (<[i := []]> g)) as HI'.
  { apply (inv_step s g); simpl; try apply HI; try done.
    intros w. unfold cnt_held. simpl. rewrite Hcnt, Eg, cnt_nil. lia. }
  assert (pool_guar i (s, g) (with_reserves (fun _ => l) s, <[i := []]> g)) as HG by (by apply guar_step).
  assert (mine None [] (with_reserves (fun _ => l) s) (<[i := []]> g)) as Hm' by (split; [by rewrite fn_lookup_insert|by exists oc]).
  destruct o as [missing|].
  - exists (<[i := []]> g), (fun s g => mine None [] s g /\ has_reserve rounded s g).
    split; [done|]. split; [done|]. split; [split; [done|]|].
    { eapply reserve_open_has; [apply HI|done|done]. }
    split; [apply stable_and; [auto|by apply stable_has_reserve]|].
    eapply rg_seq; [apply rg_reserve_fill; [lia|done]|]. apply rg_rmw. intros s1 g1 HI1 [Hm1 Hh1].
    destruct (has_class_find _ _ Hh1) as [k Ek]. unfold reserve_count. rewrite Ek. cbn [fst snd].
    exists g1, (mine None []). splits; [|by constructor; simpl; auto| |auto|by intros s2 g2].
    + by destruct HI1; constructor.
    + destruct Hm1 as (? & ? & ? & ?). split; [done|]. eauto.
  - exists (<[i := []]> g), (mine None []). splits; auto. by intros s1 g1.
Qed.

(** ** Thread exit *)

Lemma popFront_Some c k x : classes c !! k = Some x -> chead x <> [] ->
  exists c' v x', popFront c k = Some (c', v) /\ classes c' = <[k := x']> (classes c) /\
    length (chead x) = S (length (chead x')).
Proof.
  intros Hk Hh. unfold popFront. rewrite Hk. simpl. destruct (chead x) as [|node next] eqn:E; [done|].
  eexists _, _, _. split; [done|]. done.
Qed.

Definition emptied c k : Prop := forall x, classes c !! k = Some x -> chead x = [].

Lemma rg_drainClass fuel c k :
  (forall x, classes c !! k = Some x -> (length (chead x) <= fuel)%nat) ->
  rg proto i (drainClass i fuel c k) (mine (Some c) [])
    (fun c' s g => (emptied c' k /\ forall j, j <> k -> classes c' !! j = classes c !! j) /\ mine (Some c') [] s g).
Proof.
  revert c. induction fuel as [|fuel IH]; intros c Hf; cbn [drainClass].
  { intros s g _ Hm. split; [split; [|done]|done]. intros x Hx. specialize (Hf x Hx). destruct (chead x); [done|simpl in Hf; lia]. }
  destruct (popFront c k) as [[c' v]|] eqn:E.
  - assert (exists x x', classes c !! k = Some x /\ classes c' = <[k := x']> (classes c) /\ length (chead x) = S (length (chead x')))
      as (x & x' & Hx & Ec & El).
    { unfold popFront in E. destruct (classes c !! k) as [x|]; simpl in E; [|done]. destruct (chead x) as [|node next] eqn:Eh; [done|].
      injection E as <- <-. eexists x, _. split; [done|]. split; [done|]. by rewrite Eh. }
    apply (rg_set_cache c [] c' [v]).
    + intros Hc. by destruct (popFront_spec opts c k c' v Hc E) as (? & _).
    + intros Hc w. destruct (popFront_spec opts c k c' v Hc E) as (_ & Hcnt & _). rewrite Hcnt, cnt_nil. lia.
    + apply rg_seq with (mine (Some c') []); [by apply rg_upstream_deallocate|].
      eapply rg_weaken; [done| |apply IH].
      * intros c2 s g _ [[He Ho] Hm]. split; [split; [done|]|done]. intros j Hj. rewrite Ho, Ec by done.
        by apply list_lookup_insert_ne.
      * intros y Hy. rewrite Ec, list_lookup_insert_eq in Hy by (by eapply lookup_lt_Some). injection Hy as <-.
        specialize (Hf x Hx). lia.
  - intros s g _ Hm. split; [split; [|done]|done]. intros x Hx. destruct (chead x) as [|node next] eqn:Eh; [done|].
    destruct (popFront_Some c k x Hx) as (? & ? & ? & E' & _); [by rewrite Eh|congruence].
Qed.

Lemma rg_drainClasses ks c :
  rg proto i (drainClasses i c ks) (mine (Some c) [])
    (fun c' s g => (forall k, k ∈ ks \/ emptied c k -> emptied c' k) /\ mine (Some c') [] s g).
Proof.
  revert c. induction ks as [|k ks IH]; intros c; cbn [drainClasses].
  { intros s g _ Hm. split; [|done]. intros k [?%elem_of_nil|]; done. }
  eapply rg_bind; [apply rg_drainClass|].
  { intros x ->. done. }
  intros c1. apply rg_pure. intros [He Ho]. eapply rg_weaken; [done| |apply IH].
  intros c2 s g _ [H2 Hm]. split; [|done]. intros j Hj. apply H2.
  destruct (decide (j = k)) as [->|Hne]; [by right|].
  destruct Hj as [[->|Hj]%elem_of_cons|Hj]; [done|by left|]. right. intros x Hx. apply Hj. by rewrite <- Ho.
Qed.

Lemma rg_onThreadExit : rg proto i (onThreadExit i) (mine None []) (fun _ => mine None []).
Proof.
  apply rg_load; [apply pool_guar_refl|]. intros s0 g0 HI0 (Eg0 & oc & Ho & _). rewrite Ho. simpl default.
  destruct oc as [c|].
  2: { exists (mine None []). splits; [split; [done|]; exists None; auto|auto|by intros s g]. }
  exists (mine (Some c) []). splits; [split; [done|]; exists (Some c); auto|auto|].
  eapply rg_bind; [apply rg_drainClasses|]. intros c1. apply rg_pure. intros He.
  apply rg_bind_ret, rg_store. intros s g HI Hm. pose proof (mine_wf _ _ _ _ HI Hm) as Hwf.
  destruct Hm as (Eg & oc & Hoc & [<-|]); [|done].
  assert (forall w, cnt_cache w c1 = 0%nat) as Hz.
  { intros w. apply lsum_zero. intros x (k & Hk)%list_elem_of_lookup_1. unfold cviews.
    rewrite (He k ltac:(left; apply elem_of_seq; apply lookup_lt_Some in Hk; rewrite (wt_len _ _ Hwf) in Hk; lia) x Hk). done. }
  exists (<[i := []]> g), (mine None []). splits; [| | |auto|by intros s1 g1].
  - apply (inv_step s g); simpl; try apply HI; try done.
    + by rewrite length_insert.
    + intros j c2. destruct (decide (j = i)) as [->|]; [|rewrite list_lookup_insert_ne by done; apply HI].
      rewrite list_lookup_insert_eq by (by eapply lookup_lt_Some). done.
    + intros w. unfold cnt_held. simpl. pose proof (lsum_insert (cnt_ocache w) (caches s) i None (Some c1) Hoc) as Hs.
      assert (cnt_ocache w (Some c1) = 0%nat) as E1 by apply Hz. rewrite E1 in Hs. unfold cnt_ocache in Hs at 3.
      simpl in Hs. rewrite Eg, cnt_nil. lia.
  - apply guar_step; simpl; [|done]. intros j Hj. by rewrite list_lookup_insert_ne.
  - split; [by rewrite fn_lookup_insert|]. exists None. simpl. split; [|by left].
    apply list_lookup_insert_eq. by eapply lookup_lt_Some.
Qed.

(** ** Clients *)

Lemma delete_none {A} (l : list A) k : l !! k = None -> delete k l = l.
Proof. revert k. induction l as [|x l IH]; intros [|k] Hk; simplify_eq/=; [done..|]. f_equal. by apply IH. Qed.

(** [reserve] is called with sizes that round up to a whole number of pages, not to
    none, and that the upstream allocator does not round up further. *)
Definition client_ok (o : client_op) : Prop :=
  match o with CReserve sz _ => roundUpToPage page sz <> 0 /\ exact_for pick (roundUpToPage page sz) | _ => True end.

Lemma rg_run_client fuel o :
  client_ok o -> rg proto i (run_client page opts pick i fuel o) (mine None []) (fun _ => mine None []).
Proof.
  destruct o as [sz|k|sz count|]; intros Hok; cbn [run_client].
  - eapply rg_bind; [apply rg_allocate|]. intros [v|]; [|by intros s g].
    apply rg_pure. intros Ev. rewrite (proj2 (Z.leb_le _ _) Ev). cbn [check bind].
    apply rg_bind_ret, rg_store. intros s g HI Hm. pose proof Hm as (Eg & oc & Ho & Hr).
    exists (<[i := []]> g), (mine None []). splits; [| | |auto|by intros s1 g1].
    + apply (inv_step s g); simpl; try apply HI; try done.
      intros w. unfold cnt_held. simpl. rewrite Eg, cnt_app, !cnt_cons, cnt_nil. lia.
    + by apply guar_step.
    + split; [by rewrite fn_lookup_insert|]. by exists oc.
  - apply rg_rmw. intros s g HI Hm. pose proof Hm as (Eg & oc & Ho & Hr). cbn [fst snd].
    destruct (inuse s !! k) as [v|] eqn:Hv.
    + assert (v ∈ up s) as Hup.
      { apply cnt_elem. rewrite (pi_count _ _ HI). assert (0 < cnt v (inuse s))%nat; [|lia].
        apply cnt_elem. by eapply list_elem_of_lookup_2. }
      destruct (pi_up _ _ HI v Hup) as [Hpos Hb].
      exists (<[i := [v]]> g), (mine None [v]). splits; [| | |auto|].
      * apply (inv_step s g); simpl; try apply HI; try done.
        intros w. unfold cnt_held. simpl. pose proof (cnt_delete w (inuse s) k v Hv). rewrite Eg, cnt_nil. lia.
      * by apply guar_step.
      * split; [by rewrite fn_lookup_insert|]. by exists oc.
      * eapply rg_weaken; [done| |by apply rg_deallocate]. intros [] s1 g1 _ [Hm1|[He _]]; [done|].
        unfold isEmpty in He. apply Z.eqb_eq in He. done.
    + exists g, (mine None []). splits; [| | |auto|by intros s1 g1].
      * destruct HI. constructor; try done. intros w. specialize (pi_count0 w). simpl.
        by rewrite delete_none.
      * constructor; simpl; auto.
      * split; [done|]. by exists oc.
  - destruct Hok. apply rg_seq with (mine None []); [by apply rg_reserve|by intros s g].
  - apply rg_onThreadExit.
Qed.

Lemma rg_run_clients fuel l :
  Forall client_ok l -> rg proto i (run_clients page opts pick i fuel l) (mine None []) (fun _ => mine None []).
Proof.
  intros Hl. induction Hl as [|o l Ho Hl IH]; [by intros s g|]. cbn [run_clients].
  eapply rg_seq; [by apply rg_run_client|apply IH].
Qed.
End thread.
End pool.

(** ** Theorems *)
Section theorems.
Context `{SizeT} (page : Z) (opts : options) (pick : list StackView -> Z -> option StackView).
Context (Hpage : 0 < page) (Hpick : upstream_ok pick).
Context (Hstacks : 0 <= maxCachedStacksPerThread opts) (Hbytes : 0 <= maxCachedBytesPerThread opts).

Lemma pool_threads_ok fuel kv l :
  Forall (Forall (client_ok page pick)) l ->
  pool_ok (pool_protocol opts (length l)) (fun i _ => mine i None []) (pool_threads page opts pick fuel kv l).
Proof.
  intros Hl. exists (fun _ => []). split.
  - constructor; simpl; try done.
    + by rewrite length_replicate.
    + intros i c Hc. by apply lookup_replicate in Hc as [? _].
    + intros k x Hx. apply (lookup_replicate kMaxSizeClasses (MkReserve 0 [] 0 0)) in Hx as [-> _]. by constructor.
    + by intros v ?%elem_of_nil.
    + intros v. rewrite cnt_nil. lia.
    + by intros v w ?%elem_of_nil.
    + intros v. rewrite cnt_nil. unfold cnt_held, in_transit. simpl. rewrite lsum_replicate.
      unfold cnt_ocache. simpl. rewrite (lsum_zero (fun _ => cnt v [])) by done.
      unfold cnt_reserves. simpl. unfold rviews. simpl. rewrite ?cnt_nil. lia.
  - intros i p Hp. simpl in Hp. rewrite list_lookup_imap in Hp. destruct (l !! i) as [ops|] eqn:Hops; [|done].
    injection Hp as <-. pose proof (lookup_lt_Some _ _ _ Hops) as Hi. exists (mine i None []). splits.
    + apply stable_pool_mine.
    + split; [done|]. exists None. simpl. split; [by apply lookup_replicate_2|by left].
    + apply rg_run_clients; [done..|]. by eapply Forall_lookup_1.
Qed.


(** C29: When every thread has returned, nothing has leaked: the mapped stacks are
    exactly those in use and those held in the caches, the shared pool and the
    reserve.  The clients are those of [client_ok], as above. *)
Theorem pool_no_leak fuel kv l rs s :
  Forall (Forall (client_ok page pick)) l ->
  reach (pool_threads page opts pick fuel kv l) (Ret <$> rs, s) ->
  forall v, cnt v (up s) = (cnt_held v s + cnt v (inuse s))%nat.
Proof.
  intros Hl Hr v. pose proof (pool_ok_reach _ _ _ _ Hr (pool_threads_ok fuel kv l Hl)) as Hok.
  apply reach_length in Hr. simpl in Hr. rewrite length_imap, length_fmap in Hr.
  destruct (pool_ok_finished _ _ (Ret <$> rs) rs s eq_refl Hok) as (g & HI & Hq). simpl in HI.
  rewrite (pi_count _ _ _ _ HI v). unfold in_transit.
  rewrite (lsum_zero (fun j => cnt v (g j))); [lia|]. intros j Hj%elem_of_seq.
  destruct (lookup_lt_is_Some_2 rs j) as [a Ha]; [lia|]. destruct (Hq j a Ha) as [-> _]. done.
Qed.

(** A request that fits the address space is rounded up to whole pages; one
    that does not fit is rounded to 0, which the upstream allocator refuses:
    a stack smaller than the request is never given out. *)
Theorem pool_rounding sz :
  page <= 2 ^ SIZE_BITS -> 0 <= sz < 2 ^ SIZE_BITS ->
  (sz + page <= 2 ^ SIZE_BITS -> sz <= roundUpToPage page sz < sz + page /\ roundUpToPage page sz mod page = 0) /\
  (2 ^ SIZE_BITS < sz + page -> roundUpToPage page sz = 0).
Proof.
  intros Hp Hsz. unfold roundUpToPage. pose proof word_two as Hw.
  assert (E : szwrap (szwrap (sz + page) - 1) = szwrap (sz + page - 1)).
  { unfold szwrap, wrap. by rewrite Zminus_mod_idemp_l. }
  rewrite E. split; intros Hfit.
  - rewrite szwrap_small by lia. split; [|by apply Z.mod_mul; lia].
    pose proof (Z.div_mod (sz + page - 1) page ltac:(lia)). pose proof (Z.mod_pos_bound (sz + page - 1) page Hpage). lia.
  - assert (szwrap (sz + page - 1) = sz + page - 1 - 2 ^ SIZE_BITS) as ->.
    { unfold szwrap, wrap. rewrite <- (Z_mod_plus_full _ (-1)). apply Z.mod_small. lia. }
    rewrite Z.div_small by lia. done.
Qed.
End theorems.

(** ** The reserve's classes *)
Section classes.
Context (opts : options).

Lemma find_rsize_none l sz : sz ∉ (rsize <$> l) -> find_rsize l sz = None.
Proof.
  induction l as [|x l IH]; [done|]. intros Hn. simpl.
  destruct (Z.eqb_spec (rsize x) sz) as [E|E]; [destruct Hn; rewrite <- E; left|].
  rewrite IH; [done|]. intros ?. apply Hn. by right.
Qed.

Lemma find_rsize_app l k sz : sz ∉ (rsize <$> l) -> find_rsize (l ++ k) sz = (fun n => length l + n)%nat <$> find_rsize k sz.
Proof.
  induction l as [|x l IH]; intros Hn; [simpl; destruct (find_rsize k sz); done|]. simpl.
  destruct (Z.eqb_spec (rsize x) sz) as [E|E]; [destruct Hn; rewrite <- E; left|].
  rewrite IH; [by destruct (find_rsize k sz)|]. intros ?. apply Hn. by right.
Qed.

Definition unreserved (sz : Z) : ReserveClass := MkReserve sz [] 0 0.

Lemma sizes_unreserved (l : list Z) : rsize <$> (unreserved <$> l) = l.
Proof. induction l as [|x l IH]; [done|]. simpl. f_equal. exact IH. Qed.

(** A miss for a size that nobody reserved takes a class for it. *)
Lemma miss_takes_class (done : list Z) m sz :
  0 < sz -> sz ∉ done -> Forall (Z.lt 0) done ->
  (reserve_take opts ((unreserved <$> done) ++ replicate (S m) (unreserved 0)) sz None).1.1 =
  (unreserved <$> (done ++ [sz])) ++ replicate m (unreserved 0).
Proof.
  intros Hsz Hn Hpos.
  assert (forall x, x ∉ done -> x ∉ (rsize <$> (unreserved <$> done))) as Hr.
  { intros x Hx. by rewrite sizes_unreserved. }
  assert (0 ∉ done) as H0 by (intros H0; rewrite list.Forall_forall in Hpos; specialize (Hpos 0 H0); lia).
  unfold reserve_take, findOrAddReserve. rewrite find_rsize_app by auto.
  rewrite (find_rsize_none (replicate _ _)); simpl.
  2: { intros [E|E]%elem_of_cons; [lia|]. rewrite fmap_replicate in E. apply elem_of_replicate_inv in E. simpl in E. lia. }
  rewrite find_rsize_app by auto. simpl. rewrite length_fmap, Nat.add_0_r.
  rewrite (lookup_app_r (unreserved <$> done)) by (rewrite length_fmap; lia). rewrite length_fmap, Nat.sub_diag. simpl.
  replace (length done) with (length (unreserved <$> done) + 0)%nat by (rewrite length_fmap; lia).
  rewrite insert_app_r. simpl. rewrite list_lookup_middle by lia. simpl.
  by rewrite fmap_app, <- app_assoc.
Qed.

(** [reserve] of a new size is refused once eight other sizes have been
    allocated, although none of them was ever reserved: every allocation that
    misses the caches takes a reserve class for its size. *)
Theorem pool_reserve_classes_exhausted sizes sz count :
  NoDup sizes -> Forall (Z.lt 0) sizes -> length sizes = kMaxSizeClasses -> 0 < sz -> sz ∉ sizes ->
  (reserve_open (foldl (fun l x => (reserve_take opts l x None).1.1)
                   (replicate kMaxSizeClasses (unreserved 0)) sizes) sz count).2 = None.
Proof.
  intros Hnd Hpos Hlen Hsz Hn.
  assert (forall done todo : list Z, NoDup (done ++ todo) -> Forall (Z.lt 0) (done ++ todo) ->
    foldl (fun l x => (reserve_take opts l x None).1.1)
      ((unreserved <$> done) ++ replicate (length todo) (unreserved 0)) todo = unreserved <$> (done ++ todo)) as Hfold.
  { intros done todo. revert done. induction todo as [|x todo IH]; intros done Hd Hp.
    - simpl. by rewrite !app_nil_r.
    - cbn [foldl length]. rewrite miss_takes_class.
      + rewrite IH; by rewrite <- ?app_assoc.
      + rewrite Forall_app in Hp. destruct Hp as [_ Hp]. by inversion Hp.
      + apply list.NoDup_app in Hd as (_ & Hd & _). intros Hx. apply (Hd x Hx). left.
      + rewrite Forall_app in Hp. by destruct Hp. }
  specialize (Hfold [] sizes Hnd Hpos). simpl in Hfold. rewrite Hlen in Hfold. rewrite Hfold.
  assert (forall x, x ∉ sizes -> x ∉ (rsize <$> (unreserved <$> sizes))) as Hr.
  { intros x Hx. by rewrite sizes_unreserved. }
  unfold reserve_open, findOrAddReserve. rewrite !find_rsize_none; [done| |auto].
  apply Hr. intros H0. rewrite list.Forall_forall in Hpos. specialize (Hpos 0 H0). lia.
Qed.

(** [reserve] of no bytes sets a target on a class that has no size yet; the
    next size that takes the class inherits it. *)
Theorem pool_reserve_zero_target count sz :
  0 <= count -> 0 < sz ->
  exists l k x,
    findOrAddReserve (reserve_open (replicate kMaxSizeClasses (unreserved 0)) 0 count).1 sz = (l, Some k) /\
    l !! k = Some x /\ rsize x = sz /\ rcount x = 0 /\ rtarget x = count.
Proof.
  intros Hc Hsz. destruct sz as [|sz|sz]; [lia| |lia]. eexists _, _, _. split; [reflexivity|].
  split; [reflexivity|]. simpl. splits; try done. lia.
Qed.
End classes.

(** ** Runs *)
Section runs.
(** An upstream allocator that maps above everything that is mapped, and rounds up to
    [unit] bytes. *)
Let above (unit : Z) (l : list StackView) (sz : Z) : option StackView :=
  if 0 <? sz then Some (MkView (foldr (fun v b => Z.max (topOf v) b) 8192 l) ((sz + unit - 1) / unit * unit)) else None.

#[local] Lemma above_ok unit : 0 < unit -> upstream_ok (above unit).
Proof.
  intros Hu l sz v. unfold above. destruct (Z.ltb_spec 0 sz) as [Hsz|]; [|done]. intros [= <-].
  assert (8192 <= foldr (fun v b => Z.max (topOf v) b) 8192 l /\
    forall w, w ∈ l -> topOf w <= foldr (fun v b => Z.max (topOf v) b) 8192 l) as [H1 H2].
  { induction l as [|v l [IH1 IH2]]; simpl; [split; [lia|by intros w ?%elem_of_nil]|]. split; [lia|].
    intros w [->|Hw]%elem_of_cons; [lia|]. specialize (IH2 w Hw). lia. }
  pose proof (Z.div_mod (sz + unit - 1) unit ltac:(lia)). pose proof (Z.mod_pos_bound (sz + unit - 1) unit ltac:(lia)).
  simpl. split; [lia|]. split; [lia|]. intros w Hw. right. simpl. auto.
Qed.

Let limits : options := MkOptions 2 100000.
Let clients : list (list client_op) :=
  [[CAllocate 5000; CAllocate 100; CDeallocate 0]; [CReserve 5000 2; CAllocate 5000; CDeallocate 0; CExit]].
(** Upstream rounds up to 8192 bytes, twice the page size. *)
Let start := pool_threads (H:=size_t_64) 4096 limits (above 8192) 9 true clients.
Let final := run_avail (round_robin 2 40) start.

#[local] Lemma clients_ok : Forall (Forall (client_ok (H:=size_t_64) 4096 (above 8192))) clients.
Proof. repeat constructor; [vm_compute; discriminate|]. intros l v. change (roundUpToPage 4096 5000) with 8192. unfold above. simpl. by intros [= <-]. Qed.


Lemma pool_no_leak_witness :
  cnt (MkView 8192 8192) (up final.2) =
    (cnt_held (MkView 8192 8192) final.2 + cnt (MkView 8192 8192) (inuse final.2))%nat.
Proof.
  apply (pool_no_leak (H:=size_t_64) 4096 limits (above 8192) ltac:(lia) (above_ok 8192 ltac:(lia)) ltac:(vm_compute; discriminate)
           ltac:(vm_compute; discriminate) 9 true clients [tt; tt] final.2 clients_ok).
  apply (run_avail_reach (round_robin 2 40)). vm_compute. reflexivity.
Defined.

(** An upstream allocator that rounds up what [reserve] asks for: the reserve rebuilds
    the stack with the size it asked for, so the base is wrong, and what is returned
    upstream in the end was never mapped. *)
Definition rounded_clients : list (list client_op) := [[CReserve 4096 1; CAllocate 4096; CDeallocate 0; CExit]].
Lemma pool_reserve_rounded :
  let c := run_avail (replicate 60 (0, 0)%nat) (pool_threads (H:=size_t_64) 4096 limits (above 8192) 9 true rounded_clients) in
  reach (pool_threads (H:=size_t_64) 4096 limits (above 8192) 9 true rounded_clients) c /\
  c.1 !! 0%nat = Some (Fatal "a stack that is not mapped is unmapped").
Proof. split; [by apply (run_avail_reach (replicate 60 (0, 0)%nat))|vm_compute; reflexivity]. Qed.

(** [reserve] of no bytes, with the eight reserve classes claimed by others between its
    sections: the second section follows a null pointer. *)
Definition racing_clients : list (list client_op) := [[CReserve 0 1]; (fun k => CAllocate (4096 * k)) <$> [1; 2; 3; 4; 5; 6; 7; 8]].
Lemma pool_reserve_zero_race :
  let c := run_avail ((0, 0)%nat :: replicate 60 (1, 0)%nat ++ replicate 20 (0, 0)%nat) (pool_threads (H:=size_t_64) 4096 limits (above 4096) 9 true racing_clients) in
  reach (pool_threads (H:=size_t_64) 4096 limits (above 4096) 9 true racing_clients) c /\
  c.1 !! 0%nat = Some (Fatal "null ReserveClass").
Proof. split; [by apply (run_avail_reach ((0, 0)%nat :: replicate 60 (1, 0)%nat ++ replicate 20 (0, 0)%nat))|vm_compute; reflexivity]. Qed.

Lemma pool_rounding_witness :
  roundUpToPage (H:=size_t_64) 4096 5000 = 8192 /\ roundUpToPage (H:=size_t_64) 4096 (2 ^ 64 - 1) = 0.
Proof.
  split; [vm_compute; reflexivity|].
  apply (pool_rounding (H:=size_t_64) 4096 ltac:(lia) (2 ^ 64 - 1)); vm_compute; try split; congruence.
Defined.

Lemma pool_reserve_classes_exhausted_witness :
  (reserve_open (foldl (fun l x => (reserve_take limits l x None).1.1)
     (replicate kMaxSizeClasses (unreserved 0)) [1; 2; 3; 4; 5; 6; 7; 8]) 9 100).2 = None.
Proof.
  apply (pool_reserve_classes_exhausted limits [1; 2; 3; 4; 5; 6; 7; 8] 9 100).
  - apply (bool_decide_unpack _). vm_compute. exact I.
  - repeat constructor.
  - reflexivity.
  - lia.
  - apply (bool_decide_unpack _). vm_compute. exact I.
Defined.

Lemma pool_reserve_zero_target_witness :
  exists l k x, findOrAddReserve (reserve_open (replicate kMaxSizeClasses (unreserved 0)) 0 7).1 4096 = (l, Some k) /\
    l !! k = Some x /\ rsize x = 4096 /\ rcount x = 0 /\ rtarget x = 7.
Proof. apply (pool_reserve_zero_target 7 4096); lia. Defined.
End runs.
