(* ===== verification/StackMem.v ===== *)
(** * Stack memory: mappings and layout

    [MmapStackAllocatorImpl] (stack/src/MmapStackAllocator.cpp): the address
    arithmetic and the system calls it makes, with the kernel's answers as
    parameters; and [carveStack] (coro/detail/StackLayout.h), which places a
    task's records at the top of its stack. *)

From Stdlib Require Import ZArith Lia.
From stdpp Require Import base tactics list numbers option.
From S2P Require Import Prelude Pool.

Section mmap.
Context `{SizeT} (page guardPages : Z).

(** The system calls, in order. *)
Inductive syscall :=
| Mmap (len : Z)
| Mprotect (addr len : Z)
| Munmap (addr len : Z).

Inductive mmap_error := InvalidArgument | OsError.

Definition size_max : Z := 2 ^ SIZE_BITS - 1.
Definition guard : Z := szwrap (guardPages * page).

(** [mapping]: what [mmap] returns ([None]: [MAP_FAILED]); [prot k]: whether
    the [k]-th [mprotect] succeeds. *)
Definition mmap_allocate (mapping : option Z) (prot : nat -> bool) (sz : Z) :
  list syscall * (StackView + mmap_error) :=
  let usable := roundUpToPage page sz in
  if (usable =? 0) || (usable >? size_max - guard) then ([], inr InvalidArgument)
  else
    let total := szwrap (usable + guard) in
    match mapping with
    | None => ([Mmap total], inr OsError)
    | Some m =>
        if negb (guard =? 0) && negb (prot 0%nat)
        then ([Mmap total; Mprotect m guard; Munmap m total], inr OsError)
        else (Mmap total :: (if guard =? 0 then [] else [Mprotect m guard]), inl (MkView (m + guard) usable))
    end.

(** The loop of [allocateMany] over the slots from [done] on. *)
Fixpoint carve_slots (prot : nat -> bool) (m slot usable : Z) (done todo : nat) : list syscall * list StackView :=
  match todo with
  | O => ([], [])
  | S todo' =>
      let start := m + Z.of_nat done * slot in
      if negb (guard =? 0) && negb (prot done)
      then ([Mprotect start guard; Munmap start (Z.of_nat todo * slot)], [])
      else
        let '(calls, views) := carve_slots prot m slot usable (S done) todo' in
        ((if guard =? 0 then [] else [Mprotect start guard]) ++ calls, MkView (start + guard) usable :: views)
  end.

Definition mmap_allocateMany (mapping : option Z) (prot : nat -> bool) (sz : Z) (count : nat) :
  list syscall * list StackView :=
  let usable := roundUpToPage page sz in
  if (count =? 0)%nat || (usable =? 0) || (usable >? size_max - guard) then ([], [])
  else
    let slot := usable + guard in
    if slot >? size_max / Z.of_nat count then ([], [])
    else
      match mapping with
      | None => ([Mmap (slot * Z.of_nat count)], [])
      | Some m =>
          let '(calls, views) := carve_slots prot m slot usable 0 count in
          (Mmap (slot * Z.of_nat count) :: calls, views)
      end.

Definition mmap_deallocate (v : StackView) : list syscall :=
  if isEmpty v then [] else [Munmap (vbase v - guard) (vsize v + guard)].

(** ** What is mapped *)

(** Bytes of address [a] mapped minus unmapped by a sequence of calls, when
    the mapping starts at [m]. *)
Definition covers (a addr len : Z) : Z := if (addr <=? a) && (a <? addr + len) then 1 else 0.
Definition balance (m a : Z) (calls : list syscall) : Z :=
  foldr (fun c n => match c with
                    | Mmap len => covers a m len + n
                    | Munmap addr len => n - covers a addr len
                    | Mprotect _ _ => n
                    end) 0 calls.

Lemma balance_app m a l k : balance m a (l ++ k) = balance m a l + balance m a k.
Proof. induction l as [|[] l IH]; simpl; lia. Qed.

Lemma covers_split a addr x y : 0 <= x -> 0 <= y -> covers a addr (x + y) = covers a addr x + covers a (addr + x) y.
Proof.
  intros. unfold covers. destruct (Z.leb_spec addr a), (Z.ltb_spec a (addr + (x + y))), (Z.ltb_spec a (addr + x)),
    (Z.leb_spec (addr + x) a), (Z.ltb_spec a (addr + x + y)); simpl; lia.
Qed.

Lemma covers_zero a addr : covers a addr 0 = 0.
Proof. unfold covers. destruct (Z.leb_spec addr a), (Z.ltb_spec a (addr + 0)); simpl; lia. Qed.

Context (Hpage : 0 < page).

Lemma guard_nonneg : 0 <= guard.
Proof. apply szwrap_range. Qed.

Lemma usable_nonneg sz : 0 <= roundUpToPage page sz.
Proof. unfold roundUpToPage. apply Z.mul_nonneg_nonneg; [|lia]. apply Z.div_pos; [|done]. apply szwrap_range. Qed.

Lemma deallocate_balance m a v :
  vbase v <> 0 -> balance m a (mmap_deallocate v) = - covers a (vbase v - guard) (vsize v + guard).
Proof.
  intros Hb. unfold mmap_deallocate, isEmpty. destruct (Z.eqb_spec (vbase v) 0); [done|]. simpl. lia.
Qed.

(** A stack of [allocate] has the rounded size above its guard pages, and no
    address overflows; every failure leaves nothing mapped; returning the
    stack unmaps exactly what was mapped. *)
Theorem mmap_allocate_balanced mapping prot sz m :
  0 < m -> (mapping = Some m \/ mapping = None) ->
  match mmap_allocate mapping prot sz with
  | (calls, inl v) =>
      vbase v = m + guard /\ vsize v = roundUpToPage page sz /\ 0 < vsize v /\ vsize v + guard < 2 ^ SIZE_BITS /\
      forall a, balance m a (calls ++ mmap_deallocate v) = 0
  | (calls, inr InvalidArgument) => calls = []
  | (calls, inr OsError) => mapping = Some m -> forall a, balance m a calls = 0
  end.
Proof.
  intros Hm Hmap. pose proof guard_nonneg as Hg. pose proof (usable_nonneg sz) as Hu. unfold mmap_allocate.
  set (usable := roundUpToPage page sz) in *. destruct (Z.eqb_spec usable 0) as [E0|E0]; [done|]. simpl.
  rewrite Z.gtb_ltb. destruct (Z.ltb_spec (size_max - guard) usable) as [Hbig|Hfit]; [done|].
  assert (szwrap (usable + guard) = usable + guard) as Et by (apply szwrap_small; unfold size_max in Hfit; lia). rewrite Et.
  destruct Hmap as [->| ->]; [|done].
  destruct (negb (guard =? 0) && negb (prot 0%nat)) eqn:Ep.
  - intros _ a. simpl. lia.
  - splits; simpl; try done; [lia|unfold size_max in Hfit; lia|]. intros a.
    rewrite balance_app. simpl.
    assert (balance m a (if guard =? 0 then [] else [Mprotect m guard]) = 0) as -> by (by destruct (guard =? 0)).
    rewrite deallocate_balance by (simpl; lia). simpl. replace (m + guard - guard) with m by lia. lia.
Qed.

Lemma carve_slots_spec prot m slot usable done todo calls views a :
  0 < m -> 0 < usable -> slot = usable + guard ->
  carve_slots prot m slot usable done todo = (calls, views) ->
  (length views <= todo)%nat /\
  (forall k v, views !! k = Some v -> v = MkView (m + Z.of_nat (done + k) * slot + guard) usable) /\
  balance m a (calls ++ mjoin (mmap_deallocate <$> views)) =
    - covers a (m + Z.of_nat done * slot) (Z.of_nat todo * slot).
Proof.
  intros Hm Hu Hs. pose proof guard_nonneg as Hg. revert done calls views.
  induction todo as [|todo IH]; intros done calls views; cbn [carve_slots].
  - intros [= <- <-]. splits; [simpl; lia|done|]. simpl. by rewrite covers_zero.
  - destruct (negb (guard =? 0) && negb (prot done)) eqn:Ep.
    + intros [= <- <-]. splits; [simpl; lia|done|]. simpl. lia.
    + destruct (carve_slots prot m slot usable (S done) todo) as [calls' views'] eqn:E. intros [= <- <-].
      destruct (IH (S done) calls' views' E) as (Hl & Hv & Hb). splits.
      * simpl. lia.
      * intros [|k] v; simpl; [intros [= <-]; f_equal; f_equal; f_equal; f_equal; lia|].
        intros Hk. rewrite (Hv k v Hk). f_equal. f_equal. f_equal. f_equal. lia.
      * cbn [fmap list_fmap mjoin list_join]. rewrite !balance_app in *.
        assert (balance m a (if guard =? 0 then [] else [Mprotect (m + Z.of_nat done * slot) guard]) = 0) as -> by (by destruct (guard =? 0)).
        rewrite deallocate_balance by (simpl; nia). simpl vbase. simpl vsize.
        replace (m + Z.of_nat done * slot + guard - guard) with (m + Z.of_nat done * slot) by lia.
        rewrite <- Hs. pose proof (covers_split a (m + Z.of_nat done * slot) slot (Z.of_nat todo * slot)) as Hc.
        replace (Z.of_nat (S todo) * slot) with (slot + Z.of_nat todo * slot) by lia.
        rewrite Hc by nia. replace (m + Z.of_nat done * slot + slot) with (m + Z.of_nat (S done) * slot) by lia.
        unfold mjoin in *. simpl in *. lia.
Qed.

(** [allocateMany]: at most [count] stacks of the rounded size, one slot apart
    (so disjoint, each with its own guard below it); whatever it returned, when
    all of the stacks have been given back nothing stays mapped. *)
Theorem mmap_allocateMany_balanced m prot sz count calls views :
  0 < m -> mmap_allocateMany (Some m) prot sz count = (calls, views) ->
  (length views <= count)%nat /\
  (forall k v, views !! k = Some v ->
     vsize v = roundUpToPage page sz /\ vbase v = m + Z.of_nat k * (vsize v + guard) + guard) /\
  forall a, balance m a (calls ++ mjoin (mmap_deallocate <$> views)) = 0.
Proof.
  intros Hm. pose proof guard_nonneg as Hg. pose proof (usable_nonneg sz) as Hu. unfold mmap_allocateMany.
  set (usable := roundUpToPage page sz) in *.
  destruct ((count =? 0)%nat || (usable =? 0) || (usable >? size_max - guard)) eqn:E0.
  { intros [= <- <-]. splits; [simpl; lia|done|done]. }
  apply orb_false_iff in E0 as [E0 _]. apply orb_false_iff in E0 as [_ E0%Z.eqb_neq].
  destruct (usable + guard >? size_max / Z.of_nat count).
  { intros [= <- <-]. splits; [simpl; lia|done|done]. }
  destruct (carve_slots prot m (usable + guard) usable 0 count) as [c v] eqn:E. intros [= <- <-].
  assert (forall a, _) as Hspec by (intros a; exact (carve_slots_spec prot m (usable + guard) usable 0 count c v a Hm ltac:(lia) eq_refl E)).
  splits.
  - by destruct (Hspec 0).
  - intros k w Hk. destruct (Hspec 0) as (_ & Hv & _). rewrite (Hv k w Hk). simpl. done.
  - intros a. destruct (Hspec a) as (_ & _ & Hb). simpl. rewrite Hb.
    replace (m + Z.of_nat 0 * (usable + guard)) with m by lia. rewrite (Z.mul_comm (usable + guard)). lia.
Qed.
End mmap.

(** One page, one guard page: the mapping is given back whole. *)
Lemma mmap_allocate_balanced_witness :
  balance 16384 20000
    ((mmap_allocate (H:=size_t_64) 4096 1 (Some 16384) (fun _ => true) 5000).1 ++
     mmap_deallocate (H:=size_t_64) 4096 1 (MkView 20480 8192)) = 0.
Proof.
  exact (proj2 (proj2 (proj2 (proj2 (mmap_allocate_balanced (H:=size_t_64) 4096 1 eq_refl (Some 16384) (fun _ => true) 5000
    16384 eq_refl (or_introl eq_refl))))) 20000).
Defined.

(** The third [mprotect] of four fails: two stacks, the rest is unmapped. *)
Lemma mmap_allocateMany_balanced_witness :
  mmap_allocateMany (H:=size_t_64) 4096 1 (Some 16384) (fun k => negb (k =? 2)%nat) 4096 4 =
    ([Mmap 32768; Mprotect 16384 4096; Mprotect 24576 4096; Mprotect 32768 4096; Munmap 32768 16384],
     [MkView 20480 4096; MkView 28672 4096]) /\
  balance 16384 33000
    ([Mmap 32768; Mprotect 16384 4096; Mprotect 24576 4096; Mprotect 32768 4096; Munmap 32768 16384] ++
     mjoin (mmap_deallocate (H:=size_t_64) 4096 1 <$> [MkView 20480 4096; MkView 28672 4096])) = 0.
Proof.
  split; [reflexivity|].
  exact (proj2 (proj2 (mmap_allocateMany_balanced (H:=size_t_64) 4096 1 eq_refl 16384 (fun k => negb (k =? 2)%nat) 4096 4
    _ _ eq_refl eq_refl)) 33000).
Defined.

(** ** Where a task's records lie in its stack *)

Record StackLayout := MkLayout { lblock : Z; lentry : Z; lstackTop : Z; lusableSize : Z; lfits : bool }.

Definition kMinUsableStack : Z := 4096.

Section layout.
Context `{SizeT}.

Definition alignDown (value alignment : Z) : Z := Z.land value (szwrap (Z.lnot (alignment -w 1))).

Definition carveStack (stack : StackView) (entrySize entryAlign blockSize blockAlign : Z) : StackLayout :=
  let stackAlign := 16 in
  let align := if entryAlign >? stackAlign then entryAlign else stackAlign in
  let recordAlign := if blockAlign >? stackAlign then blockAlign else stackAlign in
  let top := topOf stack in
  let base := vbase stack in
  let entryAddr := alignDown (top -w entrySize) align in
  let blockAddr := alignDown (entryAddr -w blockSize) recordAlign in
  let fits := (entryAddr <=? top) && (blockAddr <? entryAddr) && (blockAddr >? base) &&
              (blockAddr -w base >=? kMinUsableStack) in
  if fits then MkLayout blockAddr entryAddr blockAddr (blockAddr -w base) fits else MkLayout 0 0 0 0 fits.

(** The alignment used is the larger of the type's and the stack's. *)
Definition alignment (a : Z) : Z := Z.max a 16.

Lemma alignment_if a : (if a >? 16 then a else 16) = alignment a.
Proof. unfold alignment. rewrite Z.gtb_ltb. destruct (Z.ltb_spec 16 a); lia. Qed.

Lemma alignDown_eq v k : 0 <= k < SIZE_BITS -> 0 <= v < 2 ^ SIZE_BITS -> alignDown v (2 ^ k) = v - v mod 2 ^ k.
Proof.
  intros Hk Hv. unfold alignDown. rewrite (szwrap_small (2 ^ k - 1)).
  2:{ pose proof (Z.pow_pos_nonneg 2 k). pose proof (Z.pow_lt_mono_r 2 k SIZE_BITS). lia. }
  assert (v - v mod 2 ^ k = Z.ldiff v (Z.ones k)) as ->.
  { rewrite Z.ldiff_ones_r, Z.shiftl_mul_pow2, Z.shiftr_div_pow2 by lia. pose proof (Z.div_mod v (2 ^ k)). nia. }
  rewrite Z.sub_1_r, <- Z.ones_equiv. apply Z.bits_inj'. intros n Hn.
  rewrite Z.land_spec, Z.ldiff_spec. unfold szwrap, wrap. destruct (decide (n < SIZE_BITS)).
  - by rewrite Z.mod_pow2_bits_low, Z.lnot_spec by lia.
  - assert (Z.testbit v n = false) as ->; [|done].
    rewrite <- (Z.mod_small v (2 ^ SIZE_BITS)) by lia. apply Z.mod_pow2_bits_high. lia.
Qed.

(** Subtracting and aligning down, when the subtraction may wrap around:
    either it stays below, or the result is above where it started. *)
Lemma sub_alignDown from n k :
  0 <= k < SIZE_BITS -> 0 <= from < 2 ^ SIZE_BITS -> 0 < n -> n + 2 ^ k <= 2 ^ SIZE_BITS ->
  let r := alignDown (from -w n) (2 ^ k) in
  r mod 2 ^ k = 0 /\ 0 <= r < 2 ^ SIZE_BITS /\
  (n <= from -> r <= from - n < r + 2 ^ k) /\ (from < n -> from < r).
Proof.
  intros Hk Hf Hn Hs r. pose proof (Z.pow_pos_nonneg 2 k) as Hp. pose proof (szwrap_range (from - n)) as Hr.
  assert (Er : r = (from -w n) - (from -w n) mod 2 ^ k) by (unfold r; by rewrite alignDown_eq).
  pose proof (Z.mod_pos_bound (from -w n) (2 ^ k) ltac:(lia)) as Hm.
  pose proof (Z.div_mod (from -w n) (2 ^ k) ltac:(lia)) as Hd.
  split; [rewrite Er; replace (_ - _) with ((from -w n) / 2 ^ k * 2 ^ k) by lia; apply Z.mod_mul; lia|].
  split; [pose proof (Z.mod_le (from -w n) (2 ^ k)); lia|].
  split; intros Hc.
  - assert (from -w n = from - n) as E by (apply szwrap_small; lia). rewrite E in *. lia.
  - assert (from -w n = from - n + 2 ^ SIZE_BITS) as E; [|rewrite E in *; lia].
    unfold szwrap, wrap. symmetry. apply (Z.mod_unique _ _ (-1)); lia.
Qed.

(** C38: In the layout that fits, from the top down: the entry, the block, the usable
    stack of at least [kMinUsableStack] bytes, none of them overlapping, each at
    its alignment. A stack with room for the records, their padding and the
    minimum fits.  The sizes are at most [2 ^ SIZE_BITS] less the alignment; see
    [carveStack_huge] for what is beyond. *)
Theorem carveStack_layout (v : StackView) (entrySize blockSize a b : Z) (l : StackLayout) :
  0 <= vbase v -> 0 <= vsize v -> topOf v < 2 ^ SIZE_BITS ->
  0 <= a < SIZE_BITS -> 0 <= b < SIZE_BITS -> 4 < SIZE_BITS ->
  0 < entrySize -> entrySize + alignment (2 ^ a) <= 2 ^ SIZE_BITS ->
  0 < blockSize -> blockSize + alignment (2 ^ b) <= 2 ^ SIZE_BITS ->
  carveStack v entrySize (2 ^ a) blockSize (2 ^ b) = l ->
  (lfits l = true ->
     lstackTop l = lblock l /\
     lentry l + entrySize <= topOf v /\ lblock l + blockSize <= lentry l /\
     vbase v + lusableSize l = lblock l /\ kMinUsableStack <= lusableSize l /\
     lentry l mod alignment (2 ^ a) = 0 /\ lblock l mod alignment (2 ^ b) = 0) /\
  (kMinUsableStack + entrySize + blockSize + alignment (2 ^ a) + alignment (2 ^ b) <= vsize v -> lfits l = true).
Proof.
  intros Hb Hv Ht Ha Hb' H4 He Hea Hbk Hba <-. unfold carveStack. rewrite !alignment_if.
  assert (forall k, 0 <= k < SIZE_BITS -> exists k', 0 <= k' < SIZE_BITS /\ alignment (2 ^ k) = 2 ^ k') as Hal.
  { intros k Hk. unfold alignment. change 16 with (2 ^ 4). destruct (decide (k <= 4)).
    - exists 4. split; [lia|]. apply Z.max_r. apply Z.pow_le_mono_r; lia.
    - exists k. split; [lia|]. apply Z.max_l. apply Z.pow_le_mono_r; lia. }
  destruct (Hal a Ha) as (a' & Ha' & Ea), (Hal b Hb') as (b' & Hb'' & Eb). rewrite Ea, Eb in *.
  unfold topOf in *.
  destruct (sub_alignDown (vbase v + vsize v) entrySize a' Ha' ltac:(lia) He Hea) as (He1 & He2 & He3 & He4).
  set (en := alignDown (vbase v + vsize v -w entrySize) (2 ^ a')) in *.
  destruct (sub_alignDown en blockSize b' Hb'' He2 Hbk Hba) as (Hb1 & Hb2 & Hb3 & Hb4).
  set (bl := alignDown (en -w blockSize) (2 ^ b')) in *.
  assert (vbase v <= bl -> bl -w vbase v = bl - vbase v) as Esub by (intros; apply szwrap_small; lia).
  unfold kMinUsableStack in *. rewrite Z.gtb_ltb, Z.geb_leb.
  destruct (Z.leb_spec en (vbase v + vsize v)), (Z.ltb_spec bl en), (Z.ltb_spec (vbase v) bl);
    simpl; [destruct (Z.leb_spec 4096 (bl -w vbase v)); simpl|..];
    split; intros Hx; try done; lia.
Qed.
End layout.

(** Beyond that bound a record can wrap around and be taken to fit. *)
Lemma carveStack_huge : lfits (carveStack (H:=size_t_64) (MkView 65536 8192) (2 ^ 64 - 8) (2 ^ 3) 192 (2 ^ 6)) = true.
Proof. vm_compute. reflexivity. Qed.

(** A page-sized usable part, a task record of 192 bytes and a body of 40. *)
Lemma carveStack_layout_witness :
  lfits (carveStack (H:=size_t_64) (MkView 65536 8192) 40 (2 ^ 3) 192 (2 ^ 6)) = true /\
  65536 + lusableSize (carveStack (H:=size_t_64) (MkView 65536 8192) 40 (2 ^ 3) 192 (2 ^ 6)) =
    lblock (carveStack (H:=size_t_64) (MkView 65536 8192) 40 (2 ^ 3) 192 (2 ^ 6)).
Proof.
  assert (lfits (carveStack (H:=size_t_64) (MkView 65536 8192) 40 (2 ^ 3) 192 (2 ^ 6)) = true) as Hf by (vm_compute; reflexivity).
  split; [exact Hf|].
  refine (proj1 (proj2 (proj2 (proj2 (proj1 (carveStack_layout (H:=size_t_64) (MkView 65536 8192) 40 192 3 6 _
    _ _ _ _ _ _ _ _ _ _ eq_refl) Hf)))));
  try (split; [intros C|]); vm_compute; first [reflexivity|discriminate|intros C; discriminate C].
Defined.
