(* ===== verification/Parker.v ===== *)
(** * Parker: blocking one thread until another unparks it

    [Parker] (sched/Parker.h) and its two implementations (sched/src/
    Parker.cpp): one word and a futex, or a mutex and a condition variable.

    The contract is that of a token: [unpark] leaves one (several coalesce),
    [park] returns once it has taken it, [parkFor] returns true when it has
    taken it and false when the time is up.  [pworld] records it beside the
    implementation's state: [told] is set by the step of [unpark] that others
    can see and reset when a [park], or a [parkFor] that returns true, ends.

    The futex sleeps only while the word has the expected value, may return at
    once, and is woken by [futex_wake]; a condition variable releases the mutex
    and sleeps in one step, may return at once, and is woken by [notify_one].
    Whether a deadline has passed is any answer. *)

From Stdlib Require Import ZArith Lia.
From stdpp Require Import base tactics list numbers option strings functions.
From S2P Require Import Prelude Conc Sums.

Record pworld (X : Type) := PWorld { impl : X; told : bool; parks : nat; unparks : nat }.
Arguments PWorld {X}.
Arguments impl {X}.
Arguments told {X}.
Arguments parks {X}.
Arguments unparks {X}.

Definition put {X} (f : X -> X) (s : pworld X) : pworld X := PWorld (f (impl s)) (told s) (parks s) (unparks s).
(** A token is left, a token is taken. *)
Definition leave {X} (f : X -> X) (s : pworld X) : pworld X := PWorld (f (impl s)) true (parks s) (S (unparks s)).
Definition taken {X} (f : X -> X) (s : pworld X) : pworld X := PWorld (f (impl s)) false (S (parks s)) (unparks s).

(** The interface. *)
Class Parker (X : Type) := {
  makeParker : X;
  park : nat -> prog (pworld X) unit;
  parkFor : nat -> prog (pworld X) bool;
  unpark : prog (pworld X) unit
}.

(** Any of two answers. *)
Definition flip {S} : prog S bool := Act bool (fun s => [(s, false); (s, true)]) Ret.

(** ** The futex *)
Module Futex.

Definition kEmpty : Z := 0.
Definition kNotified : Z := 1.
Definition kParked : Z := 2.

Record FutexParker := MkFutexParker { state : Z; sleeping : bool }.
Definition set_state v (x : FutexParker) := MkFutexParker v (sleeping x).
Definition set_sleeping v (x : FutexParker) := MkFutexParker (state x) v.

Abbreviation fprog := (prog (pworld FutexParker)).

(** [FUTEX_WAIT]: whether it sleeps. *)
Definition futex_wait : fprog bool :=
  Act bool (fun s => (if state (impl s) =? kParked then [(put (set_sleeping true) s, true)] else []) ++ [(s, false)]) Ret.
Definition futex_sleep : fprog unit := Act unit (fun s => if sleeping (impl s) then [] else [(s, tt)]) Ret.
(** With a timeout. *)
Definition futex_sleepFor : fprog unit := store (put (set_sleeping false)).
Definition futex_wake : fprog unit := store (put (set_sleeping false)).

Definition cas_state (e d : Z) : fprog (bool * Z) := cas (fun s => state (impl s)) (fun v => put (set_state v)) e d.

Fixpoint FutexParker_park_loop (fuel : nat) : fprog unit :=
  match fuel with
  | O => Starved
  | S fuel' =>
      v <- load (fun s => state (impl s));;
      if v =? kParked then
        b <- futex_wait;;
        (if b : bool then futex_sleep else Ret tt);;;
        FutexParker_park_loop fuel'
      else Ret tt
  end.

Definition FutexParker_park (fuel : nat) : fprog unit :=
  r <- cas_state kEmpty kParked;;
  (if r.1 : bool then FutexParker_park_loop fuel else Ret tt);;;
  store (taken (set_state kEmpty)).

Fixpoint FutexParker_parkFor_loop (fuel : nat) : fprog bool :=
  match fuel with
  | O => Starved
  | S fuel' =>
      v <- load (fun s => state (impl s));;
      if v =? kParked then
        due <- flip;;
        if due : bool then
          r <- cas_state kParked kEmpty;;
          Ret (negb r.1)
        else
          b <- futex_wait;;
          (if b : bool then futex_sleepFor else Ret tt);;;
          FutexParker_parkFor_loop fuel'
      else Ret true
  end.

Definition FutexParker_parkFor (fuel : nat) : fprog bool :=
  r <- cas_state kEmpty kParked;;
  notified <- (if r.1 : bool then FutexParker_parkFor_loop fuel else Ret true);;
  (if notified : bool then store (taken (set_state kEmpty)) else store (put (set_state kEmpty)));;;
  Ret notified.

Definition FutexParker_unpark : fprog unit :=
  old <- rmw (fun s => (leave (set_state kNotified) s, state (impl s)));;
  if old =? kParked then futex_wake else Ret tt.
End Futex.

#[export] Instance FutexParker_Parker : Parker Futex.FutexParker :=
  { makeParker := Futex.MkFutexParker Futex.kEmpty false; park := Futex.FutexParker_park; parkFor := Futex.FutexParker_parkFor; unpark := Futex.FutexParker_unpark }.

(** ** The condition variable *)
Module Condvar.

Record CondvarParker := MkCondvarParker { mutex : bool; waiting : bool; notified : bool }.
Definition set_mutex v (x : CondvarParker) := MkCondvarParker v (waiting x) (notified x).
Definition set_waiting v (x : CondvarParker) := MkCondvarParker (mutex x) v (notified x).
Definition set_notified v (x : CondvarParker) := MkCondvarParker (mutex x) (waiting x) v.

Abbreviation cprog := (prog (pworld CondvarParker)).

Definition lock : cprog unit := Act unit (fun s => if mutex (impl s) then [] else [(put (set_mutex true) s, tt)]) Ret.
Definition unlock : cprog unit := store (put (set_mutex false)).

(** [condition.wait]: releases the mutex and sleeps, or returns at once. *)
Definition wait : cprog unit :=
  b <- Act bool (fun s => [(put (fun x => set_mutex false (set_waiting true x)) s, true); (put (set_mutex false) s, false)]) Ret;;
  (if b : bool then Act unit (fun s => if waiting (impl s) then [] else [(s, tt)]) Ret else Ret tt);;;
  lock.
(** [condition.wait_until]: whether it timed out. *)
Definition wait_until : cprog bool :=
  store (put (fun x => set_mutex false (set_waiting true x)));;;
  store (put (set_waiting false));;;
  timeout <- flip;;
  lock;;;
  Ret timeout.
Definition notify_one : cprog unit := store (put (set_waiting false)).

Fixpoint CondvarParker_park_loop (fuel : nat) : cprog unit :=
  match fuel with
  | O => Starved
  | S fuel' => b <- load (fun s => notified (impl s));; if b : bool then Ret tt else wait;;; CondvarParker_park_loop fuel'
  end.

Definition CondvarParker_park (fuel : nat) : cprog unit :=
  lock;;;
  CondvarParker_park_loop fuel;;;
  store (taken (set_notified false));;;
  unlock.

Fixpoint CondvarParker_parkFor_loop (fuel : nat) : cprog bool :=
  match fuel with
  | O => Starved
  | S fuel' =>
      b <- load (fun s => notified (impl s));;
      if b : bool then Ret true
      else
        timeout <- wait_until;;
        b2 <- load (fun s => notified (impl s));;
        if timeout && negb b2 then Ret false else CondvarParker_parkFor_loop fuel'
  end.

Definition CondvarParker_parkFor (fuel : nat) : cprog bool :=
  lock;;;
  ok <- CondvarParker_parkFor_loop fuel;;
  (if ok : bool then store (taken (set_notified false)) else Ret tt);;;
  unlock;;;
  Ret ok.

Definition CondvarParker_unpark : cprog unit :=
  lock;;;
  store (leave (set_notified true));;;
  unlock;;;
  notify_one.
End Condvar.

#[export] Instance CondvarParker_Parker : Parker Condvar.CondvarParker :=
  { makeParker := Condvar.MkCondvarParker false false false; park := Condvar.CondvarParker_park; parkFor := Condvar.CondvarParker_parkFor; unpark := Condvar.CondvarParker_unpark }.

(** ** An owner and the threads that unpark it *)

Inductive owner_op := OPark | OParkFor.

Section pool.
Context {X : Type} `{!Parker X}.

Fixpoint owner (fuel : nat) (l : list owner_op) : prog (pworld X) unit :=
  match l with
  | [] => Ret tt
  | OPark :: l' => park fuel;;; owner fuel l'
  | OParkFor :: l' => parkFor fuel;;; owner fuel l'
  end.

Fixpoint unparker (m : nat) : prog (pworld X) unit :=
  match m with O => Ret tt | S m' => unpark;;; unparker m' end.

Definition parker_pool (fuel : nat) (l : list owner_op) (us : list nat) : config (pworld X) unit :=
  (owner fuel l :: (unparker <$> us), PWorld makeParker false 0 0).

(** The contract: a token for each park that returned, and an owner that
    sleeps for good has not been told anything it has not heard. *)
Definition parker_contract (ts : list (prog (pworld X) unit)) (s : pworld X) : Prop :=
  (parks s <= unparks s)%nat /\
  ((forall i th, ts !! i = Some th -> halted s th) -> ts !! 0%nat <> Some (Ret tt) -> told s = false).
End pool.
