(* ===== verification/ParkerSpec.v ===== *)
(** * Parker: the contract

    Both implementations keep [parker_contract] with [park] and [unpark]; the
    condition variable also with [parkFor].  The futex does not: a [parkFor]
    that times out stores [kEmpty] after it has given up the parked state, and
    wipes out a token that was left in between. *)

From Stdlib Require Import ZArith Lia.
From stdpp Require Import base tactics list numbers option strings functions.
From S2P Require Import Prelude Conc Sums Parker.

(** ** The futex *)
Module FutexSpec.
Import Futex.

Section proof.
Context (n : nat) (Hn : (0 < n)%nat).
Notation world := (pworld FutexParker).

(** [g j]: thread [j] is about to wake the sleeper. *)
Definition finv (s : world) (g : nat -> bool) : Prop :=
  (state (impl s) = kEmpty \/ state (impl s) = kNotified \/ state (impl s) = kParked) /\
  (told s = true <-> state (impl s) = kNotified) /\
  (sleeping (impl s) = true -> state (impl s) = kParked \/ exists j, (j < n)%nat /\ j <> 0%nat /\ g j = true) /\
  (parks s + (if told s then 1 else 0) <= unparks s)%nat.

Definition fguar (j : nat) (x y : world * (nat -> bool)) : Prop :=
  (forall i, i <> j -> y.2 i = x.2 i) /\
  (j <> 0%nat -> (state (impl y.1) = state (impl x.1) \/ state (impl y.1) = kNotified) /\ (sleeping (impl y.1) = true -> sleeping (impl x.1) = true)).

Definition fproto : protocol world (nat -> bool) :=
  WaitProtocol finv fguar (fun i s _ => i = 0%nat /\ sleeping (impl s) = true).
Notation R := fproto.

Lemma fguar_refl i x : guar R i x x.
Proof. split; [done|]. intros _. split; [by left|done]. Qed.

(** What the owner knows: not parked, parked or notified, notified; awake. *)
Definition idle : asrt world (nat -> bool) := fun s _ => state (impl s) <> kParked /\ sleeping (impl s) = false.
Definition parked : asrt world (nat -> bool) := fun s _ => state (impl s) <> kEmpty /\ sleeping (impl s) = false.
Definition heard : asrt world (nat -> bool) := fun s _ => state (impl s) = kNotified /\ sleeping (impl s) = false.
Definition asleep : asrt world (nat -> bool) := fun s _ => state (impl s) <> kEmpty.

Lemma owner_stable (P : Z -> Prop) (b : bool) :
  P kNotified -> stable R 0 (fun s _ => P (state (impl s)) /\ (b = true -> sleeping (impl s) = false)).
Proof.
  intros HP j s g s' g' Hj _ _ [_ HG] [H1 H2]. simpl in HG. destruct (HG Hj) as [[-> | ->] Hs]; split; try done; intros Hb;
    destruct (sleeping (impl s')); try done; specialize (H2 Hb); rewrite Hs in H2; done.
Qed.

Lemma stable_unparked : stable R 0 idle.
Proof.
  intros j s g s' g' Hj HI HI' HG [H1 H2].
  destruct (owner_stable (fun v => v <> kParked) true ltac:(done) j s g s' g' Hj HI HI' HG) as [? ?]; [done|]. split; auto.
Qed.
Lemma stable_parked : stable R 0 parked.
Proof.
  intros j s g s' g' Hj HI HI' HG [H1 H2].
  destruct (owner_stable (fun v => v <> kEmpty) true ltac:(done) j s g s' g' Hj HI HI' HG) as [? ?]; [done|]. split; auto.
Qed.
Lemma stable_heard : stable R 0 heard.
Proof.
  intros j s g s' g' Hj HI HI' HG [H1 H2].
  destruct (owner_stable (fun v => v = kNotified) true ltac:(done) j s g s' g' Hj HI HI' HG) as [? ?]; [done|]. split; auto.
Qed.
Lemma stable_asleep : stable R 0 asleep.
Proof.
  intros j s g s' g' Hj HI HI' HG H1.
  destruct (owner_stable (fun v => v <> kEmpty) false ltac:(done) j s g s' g' Hj HI HI' HG) as [? ?]; done.
Qed.

Lemma rg_fpark_loop fuel : rg R 0 (FutexParker_park_loop fuel) parked (fun _ => heard).
Proof.
  induction fuel as [|fuel IH]; [done|]. cbn [FutexParker_park_loop]. apply rg_load; [exact fguar_refl|]. intros s g HI [H1 H2].
  destruct (state (impl s) =? kParked) eqn:Ep.
  - exists parked. splits; [done|apply stable_parked|]. split; [intros ? ? _ _ E; by apply app_nil in E as [_ E]|]. clear s g HI H1 H2 Ep. intros s g s' x HI [H1 H2] Hin.
    apply elem_of_app in Hin as [Hin|Hin].
    + destruct (state (impl s) =? kParked) eqn:Ep; [|by apply elem_of_nil in Hin]. apply list_elem_of_singleton in Hin. injection Hin as -> ->.
      apply Z.eqb_eq in Ep. exists g, asleep. split.
      { destruct HI as (I1 & I2 & I3 & I4). split; [done|]. split; [done|]. split; [by left|done]. }
      split; [split; done|]. split; [done|]. split; [apply stable_asleep|].
      split; [intros s1 g1 _ _ E; split; [done|]; by destruct (sleeping (impl s1))|]. intros s1 g1 s2 x HI1 HP1 Hin.
      destruct (sleeping (impl s1)) eqn:Es; [by apply elem_of_nil in Hin|]. apply list_elem_of_singleton in Hin. injection Hin as -> ->.
      exists g1, parked. split; [done|]. split; [apply fguar_refl|]. split; [done|]. split; [apply stable_parked|exact IH].
    + apply list_elem_of_singleton in Hin. injection Hin as -> ->. exists g, parked. split; [done|]. split; [apply fguar_refl|].
      split; [done|]. split; [apply stable_parked|exact IH].
  - apply Z.eqb_neq in Ep. exists heard. split; [|split; [apply stable_heard|by intros s1 g1 _ H]]. destruct HI as ([?|[?|?]] & _); done.
Qed.

Lemma rg_fpark {A} fuel (k : unit -> prog world A) Q : rg R 0 (k tt) idle Q -> rg R 0 (bind (Futex.FutexParker_park fuel) k) idle Q.
Proof.
  intros Hk. apply rg_bind_assoc. unfold cas_state.
  assert (Hend : rg R 0 (bind (store (taken (set_state kEmpty))) k) heard Q).
  { apply rg_store. intros s g (I1 & I2 & I3 & I4) [H1 H2]. exists g, idle. split; [|split; [split; [done|done]|split; [by split|split; [apply stable_unparked|exact Hk]]]].
    assert (told s = true) as Ht by (by apply I2). rewrite Ht in I4. split; [by left|]. split; [done|]. split; [simpl; congruence|simpl; lia]. }
  apply rg_cas; [exact fguar_refl| |].
  - intros s g (I1 & I2 & I3 & I4) [H1 H2] E. exists g, parked. split.
    { split; [right; by right|]. split; [simpl; split; [intros Ht; apply I2 in Ht; by rewrite E in Ht|done]|]. split; [by left|done]. }
    split; [split; done|]. split; [split; done|]. split; [apply stable_parked|]. apply rg_bind_assoc. simpl.
    eapply rg_bind; [apply rg_fpark_loop|]. intros []. exact Hend.
  - intros s g (I1 & _) [H1 H2] E. exists heard. split; [destruct I1 as [?|[?|?]]; done|]. split; [apply stable_heard|exact Hend].
Qed.

Lemma rg_fowner fuel l : Forall (eq OPark) l -> rg R 0 (owner fuel l) idle (fun _ _ _ => True).
Proof. induction 1 as [|o l <- Hl IH]; [by intros s g|]. cbn [owner]. by apply rg_fpark. Qed.

Definition told_all (i : nat) : asrt world (nat -> bool) := fun _ g => g i = false.

Lemma stable_told_all i : stable R i (told_all i).
Proof. intros j s g s' g' Hj _ _ [HG _] H. unfold told_all. simpl in HG. by rewrite HG. Qed.

Lemma rg_funparker i m : i <> 0%nat -> (i < n)%nat -> rg R i (unparker m) (told_all i) (fun _ => told_all i).
Proof.
  intros Hi Hin. induction m as [|m IH]; [by intros s g|]. cbn [unparker]. apply rg_bind_assoc, rg_rmw.
  intros s g (I1 & I2 & I3 & I4) Hg. simpl. destruct (state (impl s) =? kParked) eqn:Ep.
  - exists (<[i := true]> g), (fun _ g => g i = true). split.
    { split; [right; by left|]. split; [done|]. split; [|simpl; destruct (told s); lia]. intros _. right. exists i. by rewrite fn_lookup_insert. }
    split; [split; [intros j Hj; simpl; by rewrite fn_lookup_insert_ne|intros _; split; [by right|done]]|].
    split; [by rewrite fn_lookup_insert|]. split; [intros j s1 g1 s2 g2 Hj _ _ [HG _] H; simpl in HG; by rewrite HG|].
    apply rg_store. clear s g I1 I2 I3 I4 Hg Ep. intros s g (I1 & I2 & I3 & I4) Hg. exists (<[i := false]> g), (told_all i). split.
    { split; [done|]. split; [done|]. split; [done|done]. }
    split; [split; [intros j Hj; simpl; by rewrite fn_lookup_insert_ne|intros _; split; [by left|done]]|].
    split; [unfold told_all; by rewrite fn_lookup_insert|]. split; [apply stable_told_all|exact IH].
  - exists g, (told_all i). split.
    { split; [right; by left|]. split; [done|]. apply Z.eqb_neq in Ep. split; [|simpl; destruct (told s); lia].
      intros Hs. destruct (I3 Hs) as [?|?]; [done|by right]. }
    split; [split; [done|intros _; split; [by right|done]]|]. split; [done|]. split; [apply stable_told_all|exact IH].
Qed.
End proof.
End FutexSpec.

(** ** The condition variable *)
Module CondvarSpec.
Import Condvar.

Section proof.
Context (n : nat) (Hn : (0 < n)%nat).
Notation world := (pworld CondvarParker).

(** Thread [j] holds the mutex, is about to notify. *)
Record cpl := CPl { holds : bool; owes : bool }.
Definition calm : cpl := CPl false false.

Definition cinv (s : world) (g : nat -> cpl) : Prop :=
  (mutex (impl s) = true <-> exists j, (j < n)%nat /\ holds (g j) = true) /\
  (forall i j, (i < n)%nat -> (j < n)%nat -> holds (g i) = true -> holds (g j) = true -> i = j) /\
  told s = notified (impl s) /\
  (waiting (impl s) = true -> notified (impl s) = false \/ exists j, (j < n)%nat /\ j <> 0%nat /\ owes (g j) = true) /\
  (parks s + (if told s then 1 else 0) <= unparks s)%nat.

Definition cguar (j : nat) (x y : world * (nat -> cpl)) : Prop :=
  forall i, i <> j -> y.2 i = x.2 i /\ ((i < n)%nat -> holds (x.2 i) = true -> notified (impl y.1) = notified (impl x.1)).

(** Waiting for the mutex, or asleep; not holding it. *)
Definition cwait (i : nat) (s : world) (g : nat -> cpl) : Prop :=
  holds (g i) = false /\ (mutex (impl s) = true \/ i = 0%nat /\ waiting (impl s) = true).

Definition cproto : protocol world (nat -> cpl) := WaitProtocol cinv cguar cwait.
Notation R := cproto.

Definition at_ (i : nat) (l : cpl) : asrt world (nat -> cpl) := fun _ g => g i = l.
(** With the mutex, it knows whether there is a token. *)
Definition inside (i : nat) (o b : bool) : asrt world (nat -> cpl) := fun s g => g i = CPl true o /\ notified (impl s) = b.

Lemma stable_cat i l : stable R i (at_ i l).
Proof. intros j s g s' g' Hj _ _ HG H. unfold at_ in *. destruct (HG i) as [E _]; [done|]. simpl in E. congruence. Qed.
Lemma stable_inside i o b : (i < n)%nat -> stable R i (inside i o b).
Proof. intros Hi j s g s' g' Hj _ _ HG [H1 H2]. destruct (HG i) as [E1 E2]; [done|]. simpl in *. split; [congruence|]. rewrite E2; [done..|]. by rewrite H1. Qed.

(** Nobody else holds it. *)
Lemma only_holder s g i j o : cinv s g -> (i < n)%nat -> (j < n)%nat -> g i = CPl true o -> j <> i -> holds (g j) = false.
Proof. intros (_ & I2 & _) Hi Hj Hg Hne. destruct (holds (g j)) eqn:E; [|done]. destruct Hne. apply I2; [done..|by rewrite Hg]. Qed.

Lemma unique_upd g i l :
  (forall j, (j < n)%nat -> j <> i -> holds (g j) = false) ->
  forall a b, (a < n)%nat -> (b < n)%nat -> holds (<[i := l]> g a) = true -> holds (<[i := l]> g b) = true -> a = b.
Proof.
  intros H. assert (Hone : forall a, (a < n)%nat -> holds (<[i := l]> g a) = true -> a = i).
  { intros a Ha E. destruct (decide (a = i)) as [|Hne]; [done|]. rewrite fn_lookup_insert_ne, H in E by done. done. }
  intros a b Ha Hb Ea Eb. by rewrite (Hone a Ha Ea), (Hone b Hb Eb).
Qed.

(** *** Steps *)

Lemma rg_mutex_lock {A} i o (k : unit -> prog world A) Q :
  (i < n)%nat -> (forall b, rg R i (k tt) (inside i o b) Q) -> rg R i (bind lock k) (at_ i (CPl false o)) Q.
Proof.
  intros Hi Hk. split.
  - intros s g HI Hl E. unfold cwait. split; [by rewrite Hl|]. left. by destruct (mutex (impl s)).
  - intros s g s' x HI Hl Hin. destruct (mutex (impl s)) eqn:Em; [by apply elem_of_nil in Hin|]. apply list_elem_of_singleton in Hin. injection Hin as -> ->.
    assert (Hfree : forall j, (j < n)%nat -> holds (g j) = false).
    { intros j Hj. destruct (holds (g j)) eqn:E; [|done]. destruct HI as (I1 & _). assert (mutex (impl s) = true) by (apply I1; by exists j). congruence. }
    destruct HI as (I1 & I2 & I3 & I4 & I5). exists (<[i := CPl true o]> g), (inside i o (notified (impl s))).
    split; [|split; [|split; [|split; [by apply stable_inside|apply Hk]]]].
    + split; [split; [intros _; exists i; by rewrite fn_lookup_insert|done]|]. split; [|split; [done|split; [|done]]].
      * apply unique_upd. intros j Hj _. by apply Hfree.
      * intros Hw. destruct (I4 Hw) as [?|(j & Hj & Hj0 & Ej)]; [by left|right]. exists j. split; [done|]. split; [done|].
        destruct (decide (j = i)) as [->|]; [rewrite fn_lookup_insert; by rewrite Hl in Ej|by rewrite fn_lookup_insert_ne].
    + intros j Hj. split; [simpl; by rewrite fn_lookup_insert_ne|done].
    + split; [by rewrite fn_lookup_insert|done].
Qed.

(** A step of the holder, which may give the mutex up. *)
Lemma inside_step s s' g i o l' :
  (i < n)%nat -> cinv s g -> g i = CPl true o -> (o = true -> owes l' = true \/ waiting (impl s') = false) -> (i = 0%nat -> o = false) ->
  mutex (impl s') = holds l' -> told s' = notified (impl s') ->
  (waiting (impl s') = true -> notified (impl s') = true -> waiting (impl s) = true /\ (notified (impl s) = true \/ owes l' = true /\ i <> 0%nat)) ->
  (parks s' + (if told s' then 1 else 0) <= unparks s')%nat ->
  cinv s' (<[i := l']> g) /\ guar R i (s, g) (s', <[i := l']> g).
Proof.
  intros Hi HI Hg Ho H0 Hm Ht Hw Hp. pose proof (only_holder s g i) as Hoth. destruct HI as (I1 & I2 & I3 & I4 & I5).
  assert (Hothers : forall j, (j < n)%nat -> j <> i -> holds (g j) = false) by (intros j Hj Hne; by apply (Hoth j o)).
  split.
  - split; [|split; [|split; [done|split; [|done]]]].
    + rewrite Hm. split; [intros E; exists i; by rewrite fn_lookup_insert|]. intros (j & Hj & Ej).
      destruct (decide (j = i)) as [->|Hne]; [by rewrite fn_lookup_insert in Ej|]. rewrite fn_lookup_insert_ne, Hothers in Ej by done. done.
    + by apply unique_upd.
    + intros Hws. destruct (notified (impl s')) eqn:En; [right|by left]. destruct (Hw Hws eq_refl) as [Hws0 [Hn0|[Ho' Hi0]]].
      * destruct (I4 Hws0) as [?|(j & Hj & Hj0 & Ej)]; [congruence|]. exists j. split; [done|]. split; [done|].
        destruct (decide (j = i)) as [->|]; [|by rewrite fn_lookup_insert_ne]. rewrite fn_lookup_insert. rewrite Hg in Ej. simpl in Ej.
        destruct (Ho Ej); [done|congruence].
      * exists i. by rewrite fn_lookup_insert.
  - intros j Hj. split; [simpl; by rewrite fn_lookup_insert_ne|]. intros Hjn Hh. simpl in *. by rewrite Hothers in Hh.
Qed.
Lemma rg_inside {A X} i o b (f : world -> list (world * X)) (k : X -> prog world A) Q :
  (i < n)%nat -> (forall s, f s <> []) ->
  (forall s g s' x, cinv s g -> g i = CPl true o -> notified (impl s) = b -> (s', x) ∈ f s ->
     exists l' P', cinv s' (<[i := l']> g) /\ guar R i (s, g) (s', <[i := l']> g) /\ P' s' (<[i := l']> g) /\ stable R i P' /\ rg R i (k x) P' Q) ->
  rg R i (Act X f k) (inside i o b) Q.
Proof.
  intros Hi Hne Hk. split; [intros s g _ _ E; by destruct (Hne s)|]. intros s g s' x HI [Hg Hb] Hin.
  destruct (Hk s g s' x HI Hg Hb Hin) as (l' & P' & H1 & H2 & H3 & H4 & H5). by exists (<[i := l']> g), P'.
Qed.

Lemma rg_notified {A} i o b (k : bool -> prog world A) Q :
  (i < n)%nat -> rg R i (k b) (inside i o b) Q -> rg R i (bind (load (fun s => notified (impl s))) k) (inside i o b) Q.
Proof.
  intros Hi Hk. apply rg_load; [by intros j x m Hm|]. intros s g _ [Hg Hb]. rewrite Hb. exists (inside i o b).
  split; [done|]. split; [by apply stable_inside|done].
Qed.

Lemma rg_mutex_unlock {A} i o b (k : unit -> prog world A) Q :
  (i < n)%nat -> (i = 0%nat -> o = false) -> rg R i (k tt) (at_ i (CPl false o)) Q -> rg R i (bind unlock k) (inside i o b) Q.
Proof.
  intros Hi H0 Hk. apply rg_inside; [done|done|]. intros s g s' x HI Hg Hb Hin. apply list_elem_of_singleton in Hin. injection Hin as -> ->.
  pose proof HI as (_ & _ & I3 & _ & I5).
  destruct (inside_step s (put (set_mutex false) s) g i o (CPl false o)) as [HI' HG]; try done; [by left|intros ? ?; split; [done|by left]|].
  exists (CPl false o), (at_ i (CPl false o)). split; [done|]. split; [done|]. split; [by unfold at_; rewrite fn_lookup_insert|]. split; [apply stable_cat|done].
Qed.

Lemma rg_leave {A} i b (k : unit -> prog world A) Q :
  (i < n)%nat -> i <> 0%nat -> rg R i (k tt) (inside i true true) Q -> rg R i (bind (store (leave (set_notified true))) k) (inside i false b) Q.
Proof.
  intros Hi H0 Hk. apply rg_inside; [done|done|]. intros s g s' x HI Hg Hb Hin. apply list_elem_of_singleton in Hin. injection Hin as -> ->.
  pose proof HI as (I1 & _ & I3 & _ & I5).
  destruct (inside_step s (leave (set_notified true) s) g i false (CPl true true)) as [HI' HG]; try done.
  - simpl. apply I1. exists i. by rewrite Hg.
  - simpl. intros Hw _. split; [done|by right].
  - simpl. destruct (told s); lia.
  - exists (CPl true true), (inside i true true). split; [done|]. split; [done|].
    split; [split; [by rewrite fn_lookup_insert|done]|]. split; [by apply stable_inside|done].
Qed.

Lemma rg_taken {A} (k : unit -> prog world A) Q :
  rg R 0 (k tt) (inside 0 false false) Q -> rg R 0 (bind (store (taken (set_notified false))) k) (inside 0 false true) Q.
Proof.
  intros Hk. apply rg_inside; [done|done|]. intros s g s' x HI Hg Hb Hin. apply list_elem_of_singleton in Hin. injection Hin as -> ->.
  pose proof HI as (I1 & _ & I3 & _ & I5).
  destruct (inside_step s (taken (set_notified false) s) g 0 false (CPl true false)) as [HI' HG]; try done.
  - simpl. apply I1. exists 0%nat. by rewrite Hg.
  - simpl. rewrite I3, Hb in I5. lia.
  - exists (CPl true false), (inside 0 false false). split; [done|]. split; [done|].
    split; [split; [by rewrite fn_lookup_insert|done]|]. split; [by apply stable_inside|done].
Qed.

(** Sleeping: the mutex is given up in the same step. *)
Lemma sleep_inv s g w :
  cinv s g -> g 0%nat = CPl true false -> notified (impl s) = false ->
  let s' := put (fun x => set_mutex false (if w : bool then set_waiting true x else x)) s in
  cinv s' (<[0%nat := calm]> g) /\ guar R 0 (s, g) (s', <[0%nat := calm]> g).
Proof.
  intros HI Hg Hb s'. pose proof HI as (_ & _ & I3 & _ & I5).
  apply (inside_step s s' g 0 false calm); try done; unfold s'; destruct w; simpl; try done; congruence.
Qed.

(** [waiting] is reset by whoever notifies or gives up waiting. *)
Lemma outside_step s g i o o' :
  (i < n)%nat -> cinv s g -> g i = CPl false o ->
  cinv (put (set_waiting false) s) (<[i := CPl false o']> g) /\ guar R i (s, g) (put (set_waiting false) s, <[i := CPl false o']> g).
Proof.
  intros Hi (I1 & I2 & I3 & I4 & I5) Hg.
  assert (Hh : forall j, holds (<[i := CPl false o']> g j) = holds (g j)).
  { intros j. destruct (decide (j = i)) as [->|]; [by rewrite fn_lookup_insert, Hg|by rewrite fn_lookup_insert_ne]. }
  split; [|intros j Hj; split; [simpl; by rewrite fn_lookup_insert_ne|done]].
  split; [|split; [|done]].
  - simpl. rewrite I1. split; intros (j & Hj & E); exists j; (split; [done|]); specialize (Hh j); congruence.
  - intros a b Ha Hb. rewrite !Hh. by apply I2.
Qed.

Lemma rg_reset_waiting {A} i o o' (k : unit -> prog world A) Q :
  (i < n)%nat -> rg R i (k tt) (at_ i (CPl false o')) Q -> rg R i (bind (store (put (set_waiting false))) k) (at_ i (CPl false o)) Q.
Proof.
  intros Hi Hk. apply rg_store. intros s g HI Hg. destruct (outside_step s g i o o' Hi HI Hg) as [HI' HG].
  exists (<[i := CPl false o']> g), (at_ i (CPl false o')). split; [done|]. split; [done|].
  split; [by unfold at_; rewrite fn_lookup_insert|]. split; [apply stable_cat|done].
Qed.

Lemma rg_cwait {A} (k : unit -> prog world A) Q :
  (forall b, rg R 0 (k tt) (inside 0 false b) Q) -> rg R 0 (bind wait k) (inside 0 false false) Q.
Proof.
  intros Hk. apply rg_bind_assoc. apply rg_inside; [done|done|]. intros s g s' x HI Hg Hb Hin.
  apply elem_of_cons in Hin as [Hin|Hin]; [|apply list_elem_of_singleton in Hin]; injection Hin as -> ->.
  - destruct (sleep_inv s g true HI Hg Hb) as [HI' HG]. exists calm, (at_ 0 calm). split; [done|]. split; [done|].
    split; [by unfold at_; rewrite fn_lookup_insert|]. split; [apply stable_cat|]. apply rg_bind_assoc. split.
    + intros s1 g1 _ Hg1 E. split; [by rewrite Hg1|]. right. split; [done|]. by destruct (waiting (impl s1)).
    + clear s g HI Hg Hb HI' HG. intros s g s' x HI Hg Hin. destruct (waiting (impl s)); [by apply elem_of_nil in Hin|].
      apply list_elem_of_singleton in Hin. injection Hin as -> ->. exists g, (at_ 0 calm). split; [done|].
      split; [by intros j Hj|]. split; [done|]. split; [apply stable_cat|]. by apply rg_mutex_lock.
  - destruct (sleep_inv s g false HI Hg Hb) as [HI' HG]. exists calm, (at_ 0 calm). split; [exact HI'|]. split; [exact HG|].
    split; [by unfold at_; rewrite fn_lookup_insert|]. split; [apply stable_cat|]. by apply rg_mutex_lock.
Qed.

Lemma rg_cwait_until {A} (k : bool -> prog world A) Q :
  (forall t b, rg R 0 (k t) (inside 0 false b) Q) -> rg R 0 (bind wait_until k) (inside 0 false false) Q.
Proof.
  intros Hk. apply rg_bind_assoc. apply rg_inside; [done|done|]. intros s g s' x HI Hg Hb Hin.
  apply list_elem_of_singleton in Hin. injection Hin as -> ->. destruct (sleep_inv s g true HI Hg Hb) as [HI' HG].
  exists calm, (at_ 0 calm). split; [exact HI'|]. split; [exact HG|].
  split; [by unfold at_; rewrite fn_lookup_insert|]. split; [apply stable_cat|]. apply rg_bind_assoc, (rg_reset_waiting 0 false false); [done|].
  apply rg_bind_assoc. split; [done|]. clear s g HI Hg Hb HI' HG. intros s g s' t HI Hg Hin. exists g, (at_ 0 calm).
  assert (s' = s) as ->. { apply elem_of_cons in Hin as [Hin|Hin]; [|apply list_elem_of_singleton in Hin]; by injection Hin as -> ->. }
  split; [done|]. split; [by intros j Hj|]. split; [done|]. split; [apply stable_cat|]. apply rg_bind_assoc, rg_mutex_lock; [done|]. intros b. apply Hk.
Qed.

(** *** Operations *)

Lemma rg_cpark_loop {A} fuel b (k : unit -> prog world A) Q :
  rg R 0 (k tt) (inside 0 false true) Q -> rg R 0 (bind (CondvarParker_park_loop fuel) k) (inside 0 false b) Q.
Proof.
  intros Hk. revert b. induction fuel as [|fuel IH]; intros b; [done|]. cbn [CondvarParker_park_loop]. apply rg_bind_assoc, rg_notified; [done|].
  destruct b; [exact Hk|]. apply rg_bind_assoc, rg_cwait. exact IH.
Qed.

Lemma rg_cpark {A} fuel (k : unit -> prog world A) Q : rg R 0 (k tt) (at_ 0 calm) Q -> rg R 0 (bind (Condvar.CondvarParker_park fuel) k) (at_ 0 calm) Q.
Proof.
  intros Hk. apply rg_bind_assoc, rg_mutex_lock; [done|]. intros b. apply rg_bind_assoc, rg_cpark_loop. apply rg_bind_assoc, rg_taken.
  by apply rg_mutex_unlock.
Qed.

Lemma rg_cparkFor_loop {A} fuel b (k : bool -> prog world A) Q :
  rg R 0 (k true) (inside 0 false true) Q -> rg R 0 (k false) (inside 0 false false) Q -> rg R 0 (bind (CondvarParker_parkFor_loop fuel) k) (inside 0 false b) Q.
Proof.
  intros Hk1 Hk2. revert b. induction fuel as [|fuel IH]; intros b; [done|]. cbn [CondvarParker_parkFor_loop]. apply rg_bind_assoc, rg_notified; [done|].
  destruct b; [exact Hk1|]. apply rg_bind_assoc, rg_cwait_until. intros t b. apply rg_bind_assoc, rg_notified; [done|].
  destruct t, b; simpl; [apply IH|exact Hk2|apply IH|apply IH].
Qed.

Lemma rg_cparkFor {A} fuel (k : bool -> prog world A) Q :
  (forall b, rg R 0 (k b) (at_ 0 calm) Q) -> rg R 0 (bind (Condvar.CondvarParker_parkFor fuel) k) (at_ 0 calm) Q.
Proof.
  intros Hk. apply rg_bind_assoc, rg_mutex_lock; [done|]. intros b. apply rg_bind_assoc, rg_cparkFor_loop.
  - apply rg_bind_assoc, rg_taken. apply rg_bind_assoc, rg_mutex_unlock; [done|done|]. apply (Hk true).
  - apply rg_bind_assoc, rg_mutex_unlock; [done|done|]. apply (Hk false).
Qed.

Lemma rg_cowner fuel l : rg R 0 (owner fuel l) (at_ 0 calm) (fun _ => at_ 0 calm).
Proof. induction l as [|[|] l IH]; [by intros s g|by apply rg_cpark|]. apply rg_cparkFor. intros _. exact IH. Qed.

Lemma rg_cunparker i m : i <> 0%nat -> (i < n)%nat -> rg R i (unparker m) (at_ i calm) (fun _ => at_ i calm).
Proof.
  intros Hi Hin. induction m as [|m IH]; [by intros s g|]. cbn [unparker]. apply rg_bind_assoc, rg_mutex_lock; [done|]. intros b.
  apply rg_bind_assoc, rg_leave; [done|done|]. apply rg_bind_assoc, rg_mutex_unlock; [done|done|]. by apply (rg_reset_waiting i true false).
Qed.
End proof.
End CondvarSpec.

(** ** The contract *)

Lemma owner_first {X} `{!Parker X} fuel l us i p :
  (parker_pool fuel l us).1 !! i = Some p -> (i = 0%nat /\ p = owner fuel l) \/ (i <> 0%nat /\ (i < S (length us))%nat /\ exists m, p = unparker m).
Proof.
  intros Hi. destruct i as [|i]; simpl in Hi; [injection Hi as <-; by left|right]. split; [done|].
  rewrite list_lookup_fmap in Hi. apply fmap_Some in Hi as (m & E & ->). apply lookup_lt_Some in E. split; [lia|]. by exists m.
Qed.

Lemma pool_size {X} `{!Parker X} fuel l us ts s : reach (parker_pool fuel l us) (ts, s) -> length ts = S (length us).
Proof. intros Hr. apply reach_length in Hr. simpl in Hr. rewrite <- Hr. by rewrite length_fmap. Qed.

(** C13: Parker: the futex implementation keeps the contract under [park] and
    [unpark] from any number of threads: no more parks return than unparks were
    made, and when nobody can move and the owner has not returned, no unpark
    was made since the last park returned. *)
Theorem futex_parker_contract (fuel : nat) (ops : list owner_op) (us : list nat) (ts : list (prog (pworld Futex.FutexParker) unit)) (s : pworld Futex.FutexParker) :
  Forall (eq OPark) ops -> reach (parker_pool fuel ops us) (ts, s) -> parker_contract ts s.
Proof.
  intros Hops Hr. pose proof (pool_size _ _ _ _ _ Hr) as Hlen. set (n := S (length us)) in *.
  apply (pool_ok_reach (FutexSpec.fproto n)) with (Q := fun i _ s g => i <> 0%nat -> g i = false) in Hr.
  - destruct (pool_ok_waits _ _ ts s Hr) as (g & (I1 & I2 & I3 & I4) & Hw & Hret). split; [destruct (told s); lia|].
    intros Hh Hnr. destruct (lookup_lt_is_Some_2 ts 0%nat) as [th Hth]; [lia|]. destruct (Hh 0%nat th Hth) as [->|(X & f & k & -> & Hf)]; [done|].
    destruct (Hw 0%nat X f k Hth Hf) as [_ Hs]. destruct (I3 Hs) as [E|(j & Hj & Hj0 & Ej)].
    + destruct (told s) eqn:Et; [|done]. assert (Futex.state (impl s) = Futex.kNotified) as E2 by (by apply I2). by rewrite E in E2.
    + destruct (lookup_lt_is_Some_2 ts j) as [tj Htj]; [lia|]. destruct (Hh j tj Htj) as [->|(X' & f' & k' & -> & Hf')].
      * rewrite (Hret j tt Htj Hj0) in Ej. done.
      * by destruct (Hw j X' f' k' Htj Hf') as [? _].
  - exists (fun _ => false). split; [split; [by left|split; [done|split; [done|done]]]|].
    intros i p Hi. destruct (owner_first _ _ _ _ _ Hi) as [[-> ->]|(Hi0 & Hin & m & ->)].
    + exists FutexSpec.idle. split; [apply FutexSpec.stable_unparked|]. split; [done|].
      eapply rg_weaken; [| |apply FutexSpec.rg_fowner; [lia|done]]; [by intros|by intros a s1 g1 _ _ []].
    + exists (FutexSpec.told_all i). split; [apply FutexSpec.stable_told_all|]. split; [done|].
      eapply rg_weaken; [| |apply FutexSpec.rg_funparker; first [done|lia]]; [by intros|by intros a s1 g1 _ H _].
Qed.

(** Parker: the condition-variable implementation keeps the contract under
    [park], [parkFor] and [unpark] from any number of threads. *)
Theorem condvar_parker_contract (fuel : nat) (ops : list owner_op) (us : list nat) (ts : list (prog (pworld Condvar.CondvarParker) unit)) (s : pworld Condvar.CondvarParker) :
  reach (parker_pool fuel ops us) (ts, s) -> parker_contract ts s.
Proof.
  intros Hr. pose proof (pool_size _ _ _ _ _ Hr) as Hlen. set (n := S (length us)) in *.
  assert (Hn : (0 < n)%nat) by (unfold n; lia).
  apply (pool_ok_reach (CondvarSpec.cproto n)) with (Q := fun i _ => CondvarSpec.at_ i CondvarSpec.calm) in Hr.
  - destruct (pool_ok_waits _ _ ts s Hr) as (g & HI & Hw & Hret). pose proof HI as (I1 & I2 & I3 & I4 & I5). split; [destruct (told s); lia|].
    intros Hh Hnr.
    assert (Hfree : forall j, (j < n)%nat -> CondvarSpec.holds (g j) = false).
    { intros j Hj. destruct (lookup_lt_is_Some_2 ts j) as [tj Htj]; [lia|]. destruct (Hh j tj Htj) as [->|(X & f & k & -> & Hf)].
      - by rewrite (Hret j tt Htj).
      - by destruct (Hw j X f k Htj Hf). }
    assert (Hm : Condvar.mutex (impl s) = false).
    { destruct (Condvar.mutex (impl s)) eqn:Em; [|done]. destruct I1 as [I1 _]. destruct (I1 eq_refl) as (j & Hj & Ej). by rewrite Hfree in Ej. }
    destruct (lookup_lt_is_Some_2 ts 0%nat) as [th Hth]; [lia|]. destruct (Hh 0%nat th Hth) as [->|(X & f & k & -> & Hf)]; [done|].
    destruct (Hw 0%nat X f k Hth Hf) as [_ [?|[_ Hs]]]; [congruence|]. destruct (I4 Hs) as [E|(j & Hj & Hj0 & Ej)]; [congruence|].
    destruct (lookup_lt_is_Some_2 ts j) as [tj Htj]; [lia|]. destruct (Hh j tj Htj) as [->|(X' & f' & k' & -> & Hf')].
    + by rewrite (Hret j tt Htj) in Ej.
    + destruct (Hw j X' f' k' Htj Hf') as [_ [?|[? _]]]; congruence.
  - exists (fun _ => CondvarSpec.calm). split.
    { split; [split; [done|intros (j & _ & E); done]|]. split; [done|]. split; [done|]. split; [done|done]. }
    intros i p Hi. exists (CondvarSpec.at_ i CondvarSpec.calm). split; [apply CondvarSpec.stable_cat|]. split; [done|].
    destruct (owner_first _ _ _ _ _ Hi) as [[-> ->]|(Hi0 & Hin & m & ->)]; [by apply CondvarSpec.rg_cowner|by apply CondvarSpec.rg_cunparker].
Qed.

(** ** Runs *)

(** The owner's timed park gives up, the unpark comes, the timed park stores
    [kEmpty] and returns false; the next park sleeps for good. *)
Definition swallow_schedule : list (nat * nat) :=
  [(0, 0); (0, 0); (0, 1); (0, 0); (1, 0); (0, 0); (0, 0); (0, 0); (0, 0)]%nat.
Definition swallow_final := run_avail swallow_schedule (parker_pool (X := Futex.FutexParker) 9 [OParkFor; OPark] [1%nat]).

(** C32: Parker: the futex implementation's [parkFor] can swallow a token: it times
    out, an [unpark] comes before its last store, it returns false and the
    token is gone: nobody can move, the owner sleeps, and it was told. *)
Theorem futex_parkFor_swallows_token :
  exists ts s, reach (parker_pool (X := Futex.FutexParker) 9 [OParkFor; OPark] [1%nat]) (ts, s) /\
    (forall i th, ts !! i = Some th -> halted s th) /\ ts !! 0%nat <> Some (Ret tt) /\ told s = true /\ parks s = 0%nat.
Proof.
  exists swallow_final.1, swallow_final.2. split.
  - apply (run_avail_reach swallow_schedule). unfold swallow_final. apply surjective_pairing.
  - split; [apply haltedb_all; vm_compute; reflexivity|]. split; [vm_compute; discriminate|]. vm_compute. by split.
Qed.

Definition futex_final := run_avail (round_robin 3 40) (parker_pool (X := Futex.FutexParker) 9 [OPark; OPark] [1; 0]%nat).
Definition condvar_final := run_avail (round_robin 3 40) (parker_pool (X := Condvar.CondvarParker) 9 [OParkFor; OPark; OPark] [1; 0]%nat).

Lemma futex_parker_contract_witness :
  returnedb <$> futex_final.1 = [false; true; true] /\ parks futex_final.2 = 1%nat /\ parker_contract futex_final.1 futex_final.2.
Proof.
  split; [vm_compute; reflexivity|]. split; [vm_compute; reflexivity|].
  apply (futex_parker_contract 9 [OPark; OPark] [1; 0]%nat); [by repeat constructor|].
  apply (run_avail_reach (round_robin 3 40)). unfold futex_final. apply surjective_pairing.
Defined.

Lemma condvar_parker_contract_witness :
  returnedb <$> condvar_final.1 = [false; true; true] /\ parker_contract condvar_final.1 condvar_final.2.
Proof.
  split; [vm_compute; reflexivity|].
  apply (condvar_parker_contract 9 [OParkFor; OPark; OPark] [1; 0]%nat).
  apply (run_avail_reach (round_robin 3 40)). unfold condvar_final. apply surjective_pairing.
Defined.
