(* ===== verification/Dispatch.v ===== *)
(** * Dispatch: where runnable tasks wait, and how workers sleep

    [Worker] (sched/src/Worker.cpp, sched/detail/Runtime.h) and the parts of
    [SchedulerCore] (sched/src/SchedulerCore.cpp) that place runnable tasks,
    search for them, put idle workers to sleep and wake them, with the timers
    and the ramp-up requests that the timekeeper sleeps on.

    The other components enter through what they promise:
    - [LocalQueue] (BwosSpec.v): the owner's [pop] fails only on an empty
      queue; [push], [popBlock], [steal], [stealBlock], [pushBatch] and
      [minRemainingSlots] may answer anything the queue's contents allow.
    - [InjectionQueue] (BbqSpec.v): first in, first out; a push takes a moment
      ([injPushing]) during which [pop] may find it [Busy].
    - [MpscQueue], the pinned inbox: likewise ([inboxPushing]).
    - [TimerQueue] (TimerSpec.v): [earliestTicks] is the earliest queued
      deadline, and the worker's bit of [timerMask] says that there is one.
    - [Parker]: a token that [unpark] sets and [park] waits for and takes.
      [Driver] (sched/Driver.h): [wait] returns once [wake] was called, at its
      timeout, or with tasks that became ready ([ioReady]).
    - Tasks: [script t] lists what task [t] does each time it runs.  Park.v
      models the states of a task; here a task is pinned or not for good.

    The clock is a number that only the environment advances. *)

From Stdlib Require Import ZArith Lia.
From stdpp Require Import base tactics list numbers option strings functions.
From S2P Require Import Prelude Conc.

Record Worker := MkWorker {
  lifoSlot : option nat;
  lifoStreak : nat;
  local : list nat;
  pinnedInbox : list nat;
  inboxPushing : nat;
  gathering : bool;
  gathered : list nat;
  tick : nat;
  yieldTick : nat;
  rng : Z;
  spinMisses : nat;
  spinSkips : nat;
  handoffWake : bool;
  parker : bool;
  timers : list (Z * nat)
}.

Record SchedulerCore := MkCore {
  workers : list Worker;
  injection : list nat;
  injPushing : nat;
  idleMask : Z;
  searching : Z;
  timekeeper : option nat;
  timerMask : Z;
  keeperDeadline : Z;
  rampUpDeadline : Z;
  lastKeeperWake : Z;
  stopping : bool;
  live : nat;                      (** [liveTasks()] *)
  driverWoken : bool;
  ioReady : list nat;
  clock : Z;
  progress : nat -> nat;           (** how often each task has run *)
  scheduled : list nat;            (** what was made runnable, and what ran *)
  dispatched : list nat
}.

(** What a task does in one run, and how the run ends. *)
Inductive action := AWake (t : nat) | ATimer (deadline : Z) (t : nat).
Inductive ending := EPark | EFinish | EYield.

Record options := Options {
  hasDriver : bool;
  idleSpin : Z;
  rampUpDelay : Z;
  pinnedTo : nat -> option nat;
  script : nat -> nat -> list action * ending
}.

Definition kNoDeadline : Z := 2 ^ 63 - 1.
Definition kScanningTimers : Z := 2 ^ 63 - 1.
Definition kEntriesPerBlock : nat := 32.
Definition kInjectionCheckPeriod : nat := 61.
Definition kMaxSpinners : Z := 2.
Definition kMaxSpinBackoff : nat := 32.

Definition new_worker (index : nat) : Worker :=
  MkWorker None 0 [] [] 0 false [] 0 0 (2654435769 * (Z.of_nat index + 1) mod 2 ^ 32) 0 0 false false [].
Definition new_core (count : nat) : SchedulerCore :=
  MkCore (new_worker <$> seq 0 count) [] 0 0 0 None 0 kNoDeadline kNoDeadline (- 2 ^ 62) false 0 false [] 0 (fun _ => 0%nat) [] [].

(** [__builtin_ctzll] *)
Fixpoint ctz_go (fuel : nat) (m : Z) : nat :=
  match fuel with O => 0%nat | S fuel' => if Z.odd m then 0%nat else S (ctz_go fuel' (m / 2)) end.
Definition ctz (m : Z) : nat := ctz_go 64 m.

(** [state ^= state << 13; state ^= state >> 17; state ^= state << 5] *)
Definition nextRandom (state : Z) : Z :=
  let a := Z.lxor state (Z.shiftl state 13 mod 2 ^ 32) in
  let b := Z.lxor a (Z.shiftr a 17) in
  Z.lxor b (Z.shiftl b 5 mod 2 ^ 32).

(** ** Accesses *)

Definition wk (s : SchedulerCore) (i : nat) : Worker := default (new_worker i) (workers s !! i).

Definition set_workers v s := MkCore v (injection s) (injPushing s) (idleMask s) (searching s) (timekeeper s) (timerMask s)
  (keeperDeadline s) (rampUpDeadline s) (lastKeeperWake s) (stopping s) (live s) (driverWoken s) (ioReady s) (clock s) (progress s) (scheduled s) (dispatched s).
Definition set_injection q p s := MkCore (workers s) q p (idleMask s) (searching s) (timekeeper s) (timerMask s)
  (keeperDeadline s) (rampUpDeadline s) (lastKeeperWake s) (stopping s) (live s) (driverWoken s) (ioReady s) (clock s) (progress s) (scheduled s) (dispatched s).
Definition set_idleMask v s := MkCore (workers s) (injection s) (injPushing s) v (searching s) (timekeeper s) (timerMask s)
  (keeperDeadline s) (rampUpDeadline s) (lastKeeperWake s) (stopping s) (live s) (driverWoken s) (ioReady s) (clock s) (progress s) (scheduled s) (dispatched s).
Definition set_searching v s := MkCore (workers s) (injection s) (injPushing s) (idleMask s) v (timekeeper s) (timerMask s)
  (keeperDeadline s) (rampUpDeadline s) (lastKeeperWake s) (stopping s) (live s) (driverWoken s) (ioReady s) (clock s) (progress s) (scheduled s) (dispatched s).
Definition set_timekeeper v s := MkCore (workers s) (injection s) (injPushing s) (idleMask s) (searching s) v (timerMask s)
  (keeperDeadline s) (rampUpDeadline s) (lastKeeperWake s) (stopping s) (live s) (driverWoken s) (ioReady s) (clock s) (progress s) (scheduled s) (dispatched s).
Definition set_timerMask v s := MkCore (workers s) (injection s) (injPushing s) (idleMask s) (searching s) (timekeeper s) v
  (keeperDeadline s) (rampUpDeadline s) (lastKeeperWake s) (stopping s) (live s) (driverWoken s) (ioReady s) (clock s) (progress s) (scheduled s) (dispatched s).
Definition set_keeperDeadline v s := MkCore (workers s) (injection s) (injPushing s) (idleMask s) (searching s) (timekeeper s) (timerMask s)
  v (rampUpDeadline s) (lastKeeperWake s) (stopping s) (live s) (driverWoken s) (ioReady s) (clock s) (progress s) (scheduled s) (dispatched s).
Definition set_rampUpDeadline v s := MkCore (workers s) (injection s) (injPushing s) (idleMask s) (searching s) (timekeeper s) (timerMask s)
  (keeperDeadline s) v (lastKeeperWake s) (stopping s) (live s) (driverWoken s) (ioReady s) (clock s) (progress s) (scheduled s) (dispatched s).
Definition set_lastKeeperWake v s := MkCore (workers s) (injection s) (injPushing s) (idleMask s) (searching s) (timekeeper s) (timerMask s)
  (keeperDeadline s) (rampUpDeadline s) v (stopping s) (live s) (driverWoken s) (ioReady s) (clock s) (progress s) (scheduled s) (dispatched s).
Definition set_stopping v s := MkCore (workers s) (injection s) (injPushing s) (idleMask s) (searching s) (timekeeper s) (timerMask s)
  (keeperDeadline s) (rampUpDeadline s) (lastKeeperWake s) v (live s) (driverWoken s) (ioReady s) (clock s) (progress s) (scheduled s) (dispatched s).
Definition set_live v s := MkCore (workers s) (injection s) (injPushing s) (idleMask s) (searching s) (timekeeper s) (timerMask s)
  (keeperDeadline s) (rampUpDeadline s) (lastKeeperWake s) (stopping s) v (driverWoken s) (ioReady s) (clock s) (progress s) (scheduled s) (dispatched s).
Definition set_driver w r s := MkCore (workers s) (injection s) (injPushing s) (idleMask s) (searching s) (timekeeper s) (timerMask s)
  (keeperDeadline s) (rampUpDeadline s) (lastKeeperWake s) (stopping s) (live s) w r (clock s) (progress s) (scheduled s) (dispatched s).
Definition set_clock v s := MkCore (workers s) (injection s) (injPushing s) (idleMask s) (searching s) (timekeeper s) (timerMask s)
  (keeperDeadline s) (rampUpDeadline s) (lastKeeperWake s) (stopping s) (live s) (driverWoken s) (ioReady s) v (progress s) (scheduled s) (dispatched s).
Definition set_logs p a b s := MkCore (workers s) (injection s) (injPushing s) (idleMask s) (searching s) (timekeeper s) (timerMask s)
  (keeperDeadline s) (rampUpDeadline s) (lastKeeperWake s) (stopping s) (live s) (driverWoken s) (ioReady s) (clock s) p a b.

Definition on_worker (i : nat) (f : Worker -> Worker) (s : SchedulerCore) : SchedulerCore := set_workers (alter f i (workers s)) s.

Definition set_lifo v w := MkWorker v (lifoStreak w) (local w) (pinnedInbox w) (inboxPushing w) (gathering w) (gathered w) (tick w) (yieldTick w)
  (rng w) (spinMisses w) (spinSkips w) (handoffWake w) (parker w) (timers w).
Definition set_streak v w := MkWorker (lifoSlot w) v (local w) (pinnedInbox w) (inboxPushing w) (gathering w) (gathered w) (tick w) (yieldTick w)
  (rng w) (spinMisses w) (spinSkips w) (handoffWake w) (parker w) (timers w).
Definition set_local v w := MkWorker (lifoSlot w) (lifoStreak w) v (pinnedInbox w) (inboxPushing w) (gathering w) (gathered w) (tick w) (yieldTick w)
  (rng w) (spinMisses w) (spinSkips w) (handoffWake w) (parker w) (timers w).
Definition set_inbox v p w := MkWorker (lifoSlot w) (lifoStreak w) (local w) v p (gathering w) (gathered w) (tick w) (yieldTick w)
  (rng w) (spinMisses w) (spinSkips w) (handoffWake w) (parker w) (timers w).
Definition set_gathering v w := MkWorker (lifoSlot w) (lifoStreak w) (local w) (pinnedInbox w) (inboxPushing w) v (gathered w) (tick w) (yieldTick w)
  (rng w) (spinMisses w) (spinSkips w) (handoffWake w) (parker w) (timers w).
Definition set_gathered v w := MkWorker (lifoSlot w) (lifoStreak w) (local w) (pinnedInbox w) (inboxPushing w) (gathering w) v (tick w) (yieldTick w)
  (rng w) (spinMisses w) (spinSkips w) (handoffWake w) (parker w) (timers w).
Definition set_ticks v y w := MkWorker (lifoSlot w) (lifoStreak w) (local w) (pinnedInbox w) (inboxPushing w) (gathering w) (gathered w) v y
  (rng w) (spinMisses w) (spinSkips w) (handoffWake w) (parker w) (timers w).
Definition set_rng v w := MkWorker (lifoSlot w) (lifoStreak w) (local w) (pinnedInbox w) (inboxPushing w) (gathering w) (gathered w) (tick w) (yieldTick w)
  v (spinMisses w) (spinSkips w) (handoffWake w) (parker w) (timers w).
Definition set_spin m k w := MkWorker (lifoSlot w) (lifoStreak w) (local w) (pinnedInbox w) (inboxPushing w) (gathering w) (gathered w) (tick w) (yieldTick w)
  (rng w) m k (handoffWake w) (parker w) (timers w).
Definition set_handoff v w := MkWorker (lifoSlot w) (lifoStreak w) (local w) (pinnedInbox w) (inboxPushing w) (gathering w) (gathered w) (tick w) (yieldTick w)
  (rng w) (spinMisses w) (spinSkips w) v (parker w) (timers w).
Definition set_parker v w := MkWorker (lifoSlot w) (lifoStreak w) (local w) (pinnedInbox w) (inboxPushing w) (gathering w) (gathered w) (tick w) (yieldTick w)
  (rng w) (spinMisses w) (spinSkips w) (handoffWake w) v (timers w).
Definition set_timers v w := MkWorker (lifoSlot w) (lifoStreak w) (local w) (pinnedInbox w) (inboxPushing w) (gathering w) (gathered w) (tick w) (yieldTick w)
  (rng w) (spinMisses w) (spinSkips w) (handoffWake w) (parker w) v.

Abbreviation dprog := (prog SchedulerCore).

(** Any of the answers. *)
Definition choose {B} (l : list B) : dprog B := Act B (fun s => (fun b => (s, b)) <$> l) Ret.

(** *** The local queue *)

Definition local_push (i t : nat) : dprog bool :=
  Act bool (fun s => [(on_worker i (fun w => set_local (local w ++ [t]) w) s, true); (s, false)]) Ret.
Definition local_pop (i : nat) : dprog (option nat) :=
  rmw (fun s => match local (wk s i) with [] => (s, None) | t :: l => (on_worker i (set_local l) s, Some t) end).
(** The first [k] entries, for any [k]. *)
Definition local_popBlock (i : nat) : dprog (list nat) :=
  Act (list nat) (fun s =>
    (fun k => (on_worker i (set_local (drop k (local (wk s i)))) s, take k (local (wk s i)))) <$> seq 0 (S (length (local (wk s i))))) Ret.
(** Nothing, or any entry. *)
Definition local_steal (v : nat) : dprog (option nat) :=
  Act (option nat) (fun s =>
    (s, None) :: imap (fun k t => (on_worker v (set_local (delete k (local (wk s v)))) s, Some t)) (local (wk s v))) Ret.
(** Nothing, or any run of entries. *)
Definition local_stealBlock (v : nat) : dprog (list nat) :=
  Act (list nat) (fun s =>
    (fun ab : nat * nat => (on_worker v (set_local (take ab.1 (local (wk s v)) ++ drop (ab.1 + ab.2) (local (wk s v)))) s,
       take ab.2 (drop ab.1 (local (wk s v))))) <$>
    (a ← seq 0 (S (length (local (wk s v)))); b ← seq 0 (S (length (local (wk s v)))); [(a, b)])) Ret.
(** How many of [l] went in. *)
Definition local_pushBatch (i : nat) (l : list nat) : dprog nat :=
  Act nat (fun s => (fun k => (on_worker i (fun w => set_local (local w ++ take k l) w) s, k)) <$> seq 0 (S (length l))) Ret.
Definition local_hasEntries (i : nat) : dprog bool := load (fun s => match local (wk s i) with [] => false | _ => true end).

(** *** The inbox *)

Definition inbox_push (i t : nat) : dprog unit :=
  store (on_worker i (fun w => set_inbox (pinnedInbox w) (S (inboxPushing w)) w));;;
  store (on_worker i (fun w => set_inbox (pinnedInbox w ++ [t]) (inboxPushing w - 1) w)).
Definition inbox_pop (i : nat) : dprog (option nat) :=
  Act (option nat) (fun s =>
    (match pinnedInbox (wk s i) with
     | [] => [(s, None)]
     | t :: l => [(on_worker i (fun w => set_inbox l (inboxPushing w) w) s, Some t)]
     end) ++ (if (inboxPushing (wk s i) =? 0)%nat then [] else [(s, None)])) Ret.

(** *** The injection queue *)

Definition pushInjection (t : nat) : dprog unit :=
  store (fun s => set_injection (injection s) (S (injPushing s)) s);;;
  store (fun s => set_injection (injection s ++ [t]) (injPushing s - 1) s).
Definition popInjection : dprog (option nat) :=
  Act (option nat) (fun s =>
    (match injection s with
     | [] => [(s, None)]
     | t :: l => [(set_injection l (injPushing s) s, Some t)]
     end) ++ (if (injPushing s =? 0)%nat then [] else [(s, None)])) Ret.
Definition hasInjectedWork : dprog bool := load (fun s => match injection s with [] => false | _ => true end).

(** *** Parkers, the driver *)

Definition parker_unpark (i : nat) : dprog unit := store (on_worker i (set_parker true)).
Definition parker_park (i : nat) : dprog unit :=
  Act unit (fun s => if parker (wk s i) then [(on_worker i (set_parker false) s, tt)] else []) Ret.
Definition parker_parkFor (i : nat) : dprog unit := store (on_worker i (set_parker false)).

(** The tasks that became ready. *)
Definition driver_wait (timed : bool) : dprog (list nat) :=
  Act (list nat) (fun s =>
    (if driverWoken s then [(set_driver false [] s, ioReady s)] else []) ++
    (match ioReady s with [] => [] | l => [(set_driver (driverWoken s) [] s, l)] end) ++
    (if timed then [(s, [])] else [])) Ret.
Definition driver_wake : dprog unit := store (fun s => set_driver true (ioReady s) s).

(** *** Timers *)

Definition earliest (l : list (Z * nat)) : Z := foldr (fun e m => Z.min e.1 m) kNoDeadline l.
Definition earliestTicks (i : nat) : dprog Z := load (fun s => earliest (timers (wk s i))).

Definition timers_add (i : nat) (d : Z) (t : nat) : dprog unit :=
  store (fun s => set_timerMask (Z.setbit (timerMask s) (Z.of_nat i)) (on_worker i (fun w => set_timers ((d, t) :: timers w) w) s)).

(** The first entry with deadline [d]. *)
Fixpoint take_due (d : Z) (l : list (Z * nat)) : option (nat * list (Z * nat)) :=
  match l with
  | [] => None
  | e :: l' => if e.1 =? d then Some (e.2, l')
               else match take_due d l' with Some (t, r) => Some (t, e :: r) | None => None end
  end.

(** One turn of [fireExpired]: the earliest entry, if it is due. *)
Definition timers_fireOne (i : nat) (now : Z) : dprog (option nat) :=
  rmw (fun s =>
    let l := timers (wk s i) in
    if earliest l <=? now then
      match take_due (earliest l) l with
      | Some (t, []) => (set_timerMask (Z.clearbit (timerMask s) (Z.of_nat i)) (on_worker i (set_timers []) s), Some t)
      | Some (t, r) => (on_worker i (set_timers r) s, Some t)
      | None => (s, None)
      end
    else (s, None)).

(** ** Waking workers *)

Section dispatch.
Context (opt : options) (count : nat).

Definition hasIdleWorkers : dprog bool := load (fun s => negb (idleMask s =? 0)).
Definition hasPendingTimers : dprog bool := load (fun s => negb (timerMask s =? 0)).

Definition markIdle (i : nat) : dprog unit := store (fun s => set_idleMask (Z.setbit (idleMask s) (Z.of_nat i)) s).
Definition clearIdle (i : nat) : dprog bool :=
  rmw (fun s => (set_idleMask (Z.clearbit (idleMask s) (Z.of_nat i)) s, Z.testbit (idleMask s) (Z.of_nat i))).

Definition unparkWorker (i : nat) : dprog unit :=
  (if hasDriver opt then
     keeper <- load timekeeper;;
     if bool_decide (keeper = Some i) then driver_wake else Ret tt
   else Ret tt);;;
  parker_unpark i.

(** [me]: the calling worker, if it is one. *)
Definition handOffTo (me : option nat) (i : nat) : dprog unit :=
  (match me with Some _ => store (on_worker i (set_handoff true)) | None => Ret tt end);;;
  unparkWorker i.

(** Prefers a worker that is not the timekeeper. *)
Definition pickCandidate (keeper : option nat) (mask : Z) : nat :=
  match keeper with
  | Some k => if Z.clearbit mask (Z.of_nat k) =? 0 then ctz mask else ctz (Z.clearbit mask (Z.of_nat k))
  | None => ctz mask
  end.

Fixpoint notify_loop (fuel : nat) (me : option nat) (mask : Z) : dprog unit :=
  match fuel with
  | O => Starved
  | S fuel' =>
      if mask =? 0 then Ret tt
      else
        keeper <- load timekeeper;;
        let index := pickCandidate keeper mask in
        r <- cas_weak idleMask set_idleMask mask (Z.clearbit mask (Z.of_nat index));;
        if r.1 : bool then handOffTo me index else notify_loop fuel' me r.2
  end.

Definition notifyIdleWorker (fuel : nat) (me : option nat) : dprog unit :=
  n <- load searching;;
  if 0 <? n then Ret tt
  else mask <- load idleMask;; notify_loop fuel me mask.

Definition notifyWorker (me : option nat) (i : nat) : dprog unit :=
  b <- clearIdle i;; if b : bool then handOffTo me i else Ret tt.

Definition tryBecomeTimekeeper (i : nat) : dprog bool :=
  r <- cas timekeeper set_timekeeper None (Some i);; Ret r.1.
Definition releaseTimekeeper (i : nat) : dprog unit :=
  r <- cas timekeeper set_timekeeper (Some i) None;; Ret tt.

(** ** Placing tasks *)

Definition inject (fuel : nat) (me : option nat) (t : nat) : dprog unit :=
  pushInjection t;;; notifyIdleWorker fuel me.

Fixpoint injectAll (fuel : nat) (me : option nat) (l : list nat) : dprog unit :=
  match l with [] => Ret tt | t :: l' => inject fuel me t;;; injectAll fuel me l' end.

Definition takeLifo (i : nat) : dprog (option nat) :=
  rmw (fun s => (on_worker i (set_lifo None) s, lifoSlot (wk s i))).

Definition takeLocal (i : nat) : dprog (option nat) :=
  o <- rmw (fun s =>
    match lifoSlot (wk s i) with
    | Some t =>
        if (lifoStreak (wk s i) <? 3)%nat || (match local (wk s i) with [] => true | _ => false end)
        then (on_worker i (fun w => set_lifo None (set_streak (S (lifoStreak w)) w)) s, Some t)
        else (on_worker i (set_streak 0) s, None)
    | None => (on_worker i (set_streak 0) s, None)
    end);;
  match o with
  | Some t => Ret (Some t)
  | None =>
      p <- local_pop i;;
      match p with
      | Some t => Ret (Some t)
      | None =>
          q <- inbox_pop i;;
          match q with
          | Some t => Ret (Some t)
          | None => takeLifo i
          end
      end
  end.

Definition pushLocalFifo (fuel i t : nat) : dprog unit :=
  ok <- local_push i t;;
  if ok : bool then Ret tt
  else
    busy <- choose [true; false];;
    (if busy : bool then Ret tt else batch <- local_popBlock i;; injectAll fuel (Some i) batch);;;
    inject fuel (Some i) t.

Definition pushLocalLifo (fuel i t : nat) : dprog unit :=
  o <- takeLifo i;;
  match o with Some t' => pushLocalFifo fuel i t' | None => Ret tt end;;;
  store (on_worker i (set_lifo (Some t))).

Definition hasLocalWork (i : nat) : dprog bool :=
  load (fun s => match lifoSlot (wk s i), local (wk s i), pinnedInbox (wk s i) with None, [], [] => false | _, _, _ => true end).

Definition gather (i t : nat) : dprog unit := store (on_worker i (fun w => set_gathered (gathered w ++ [t]) w)).

(** A task becomes runnable. *)
Definition log_scheduled (t : nat) : dprog unit := store (fun s => set_logs (progress s) (scheduled s ++ [t]) (dispatched s) s).

Definition schedule (fuel : nat) (me : option nat) (t : nat) : dprog unit :=
  log_scheduled t;;;
  match pinnedTo opt t with
  | Some target => inbox_push target t;;; notifyWorker me target
  | None =>
      match me with
      | Some i =>
          g <- load (fun s => gathering (wk s i));;
          if g : bool then gather i t
          else
            idle <- hasIdleWorkers;;
            if idle : bool then inject fuel me t else pushLocalLifo fuel i t
      | None => inject fuel me t
      end
  end.

(** ** Timers and ramp-up *)

Definition ensureTimekeeper (fuel : nat) (me : option nat) : dprog unit :=
  keeper <- load timekeeper;;
  idle <- hasIdleWorkers;;
  pending <- hasPendingTimers;;
  if bool_decide (keeper <> None) || negb idle || negb pending then Ret tt
  else if 0 <? rampUpDelay opt then
    now <- load clock;;
    last <- load lastKeeperWake;;
    if now - last <? rampUpDelay opt then Ret tt
    else
      r <- cas lastKeeperWake set_lastKeeperWake last now;;
      if r.1 : bool then notifyIdleWorker fuel me else Ret tt
  else notifyIdleWorker fuel me.

(** The timekeeper would sleep past [d]. *)
Definition wakeKeeper (d : Z) (keeper : nat) : dprog unit :=
  kd <- load keeperDeadline;; if d <? kd then unparkWorker keeper else Ret tt.

Definition addTimer (fuel i : nat) (d : Z) (t : nat) : dprog unit :=
  timers_add i d t;;;
  keeper <- load timekeeper;;
  match keeper with
  | Some k => wakeKeeper d k
  | None => b <- hasLocalWork i;; if b : bool then ensureTimekeeper fuel (Some i) else Ret tt
  end.

(** From any thread, on the caller's queue or worker 0's; the queue may refuse
    it (cancelled, closed). *)
Definition addCallbackTimer (fuel : nat) (me : option nat) (d : Z) (t : nat) : dprog bool :=
  ok <- choose [true; false];;
  if negb ok then Ret false
  else
    timers_add (default 0%nat me) d t;;;
    keeper <- load timekeeper;;
    match keeper with
    | Some k => wakeKeeper d k;;; Ret true
    | None =>
        b <- (match me with Some i => hasLocalWork i | None => Ret true end);;
        (if b : bool then ensureTimekeeper fuel me else Ret tt);;; Ret true
    end.

Fixpoint request_loop (fuel : nat) (due current : Z) : dprog bool :=
  match fuel with
  | O => Starved
  | S fuel' =>
      if current <=? due then Ret false
      else
        r <- cas_weak rampUpDeadline set_rampUpDeadline current due;;
        if r.1 : bool then Ret true else request_loop fuel' due r.2
  end.

Definition requestRampUp (fuel : nat) (me : option nat) : dprog unit :=
  if rampUpDelay opt <=? 0 then notifyIdleWorker fuel me
  else
    idle <- hasIdleWorkers;;
    if negb idle then Ret tt
    else
      now <- load clock;;
      current <- load rampUpDeadline;;
      published <- request_loop fuel (now + rampUpDelay opt) current;;
      if negb published then Ret tt
      else
        keeper <- load timekeeper;;
        match keeper with
        | Some k => wakeKeeper (now + rampUpDelay opt) k
        | None => notifyIdleWorker fuel me
        end.

(** The worker's bits of a mask, lowest first. *)
Definition bits (mask : Z) : list nat := filter (fun i => Z.testbit mask (Z.of_nat i) = true) (seq 0 count).

Fixpoint scan_deadlines (l : list nat) (acc : Z) : dprog Z :=
  match l with
  | [] => Ret acc
  | i :: l' => mine <- earliestTicks i;; scan_deadlines l' (Z.min mine acc)
  end.
Definition nextDeadline : dprog Z := mask <- load timerMask;; scan_deadlines (bits mask) kNoDeadline.

(** [wake] of each entry that is due, in order. *)
Fixpoint fireExpired (fuel i queue : nat) (now : Z) : dprog unit :=
  match fuel with
  | O => Starved
  | S fuel' =>
      o <- timers_fireOne queue now;;
      match o with
      | Some t => schedule fuel' (Some i) t;;; fireExpired fuel' i queue now
      | None => Ret tt
      end
  end.

Fixpoint fire_queues (fuel i : nat) (l : list nat) (now : Z) : dprog unit :=
  match l with
  | [] => Ret tt
  | q :: l' =>
      e <- earliestTicks q;;
      (if e <=? now then fireExpired fuel i q now else Ret tt);;;
      fire_queues fuel i l' now
  end.

Definition fireTimers (fuel i : nat) : dprog unit :=
  mask <- load timerMask;;
  if mask =? 0 then Ret tt else now <- load clock;; fire_queues fuel i (bits mask) now.

(** ** Gathered tasks *)

Fixpoint placeAll (fuel i : nat) (feedPeers : bool) (l : list nat) : dprog unit :=
  match l with
  | [] => Ret tt
  | t :: l' => (if feedPeers then pushInjection t else pushLocalFifo fuel i t);;; placeAll fuel i feedPeers l'
  end.

Definition place_rest (fuel i : nat) (l : list nat) : dprog unit :=
  feedPeers <- hasIdleWorkers;;
  placeAll fuel i feedPeers l;;;
  if feedPeers && negb (bool_decide (l = [])) then notifyIdleWorker fuel (Some i) else Ret tt.

Definition placeGathered (fuel i : nat) (keepFirst : bool) : dprog (option nat) :=
  batch <- rmw (fun s => (on_worker i (set_gathered []) s, gathered (wk s i)));;
  match batch, keepFirst with
  | t :: rest, true => place_rest fuel i rest;;; Ret (Some t)
  | [t], false =>
      b <- hasLocalWork i;;
      if b : bool then place_rest fuel i [t];;; Ret None
      else pushLocalLifo fuel i t;;; Ret None
  | l, _ => place_rest fuel i l;;; Ret None
  end.

Fixpoint deliver (fuel i : nat) (l : list nat) : dprog unit :=
  match l with [] => Ret tt | t :: l' => schedule fuel (Some i) t;;; deliver fuel i l' end.

Definition maintain (fuel i : nat) : dprog unit :=
  store (on_worker i (set_gathering true));;;
  fireTimers fuel i;;;
  (if hasDriver opt then
     b <- tryBecomeTimekeeper i;;
     if b : bool then
       ready <- driver_wait true;;
       deliver fuel i ready;;;
       releaseTimekeeper i
     else Ret tt
   else Ret tt);;;
  store (on_worker i (set_gathering false));;;
  placeGathered fuel i false;;;
  Ret tt.

(** ** Searching *)

Fixpoint steal_loop (fuel i : nat) (victims : list nat) : dprog (option nat) :=
  match victims with
  | [] => Ret None
  | v :: l =>
      if bool_decide (v = i) then steal_loop fuel i l
      else
        little <- choose [true; false];;
        if little : bool then
          o <- local_steal v;;
          match o with Some t => Ret (Some t) | None => steal_loop fuel i l end
        else
          batch <- local_stealBlock v;;
          match batch with
          | [] => steal_loop fuel i l
          | t :: rest =>
              pushed <- local_pushBatch i rest;;
              injectAll fuel (Some i) (drop pushed rest);;;
              Ret (Some t)
          end
  end.

Definition steal (fuel i : nat) : dprog (option nat) :=
  if (count <=? 1)%nat then Ret None
  else
    r <- rmw (fun s => (on_worker i (set_rng (nextRandom (rng (wk s i)))) s, nextRandom (rng (wk s i))));;
    let start := Z.to_nat (r mod Z.of_nat count) in
    steal_loop fuel i ((fun k => (start + k) mod count)%nat <$> seq 0 count).

Definition wakePeerForLeftovers (fuel i : nat) : dprog unit :=
  a <- hasInjectedWork;;
  b <- (if a : bool then Ret true else hasLocalWork i);;
  if b : bool then requestRampUp fuel (Some i) else Ret tt.

(** Whether the worker counts as a searcher. *)
Fixpoint join_search (fuel : nat) (limit current : Z) : dprog bool :=
  match fuel with
  | O => Starved
  | S fuel' =>
      if current <? limit then
        r <- cas_weak searching set_searching current (current + 1);;
        if r.1 : bool then Ret true else join_search fuel' limit r.2
      else Ret false
  end.

Definition leave_search : dprog Z := rmw (fun s => (set_searching (searching s - 1) s, searching s)).

Definition searchForWork (fuel i : nat) : dprog (option nat) :=
  current <- load searching;;
  searcher <- join_search fuel (Z.of_nat count / 2 + 1) current;;
  o <- popInjection;;
  task <- (match o with
           | Some t => Ret (Some t)
           | None =>
               if searcher : bool then
                 o2 <- steal fuel i;;
                 match o2 with Some t => Ret (Some t) | None => popInjection end
               else Ret None
           end);;
  (if searcher : bool then
     before <- leave_search;;
     if bool_decide (task <> None) && (before =? 1) then wakePeerForLeftovers fuel i else Ret tt
   else Ret tt);;;
  Ret task.

Fixpoint spin_loop (fuel i n : nat) (deadline : Z) : dprog (option nat) :=
  match fuel with
  | O => Starved
  | S fuel' =>
      o1 <- takeLocal i;;
      match o1 with
      | Some t => Ret (Some t)
      | None =>
          h <- hasInjectedWork;;
          o2 <- (if h : bool then popInjection else Ret None);;
          match o2 with
          | Some t => Ret (Some t)
          | None =>
              o3 <- (if (n mod 128 =? 0)%nat then steal fuel' i else Ret None);;
              match o3 with
              | Some t => Ret (Some t)
              | None =>
                  if (n mod 32 =? 0)%nat then
                    now <- load clock;;
                    if deadline <=? now then Ret None else spin_loop fuel' i (S n) deadline
                  else spin_loop fuel' i (S n) deadline
              end
          end
      end
  end.

Definition spin_missed (w : Worker) : Worker :=
  let misses := if (spinMisses w <? 16)%nat then S (spinMisses w) else spinMisses w in
  set_spin misses (if (2 <=? misses)%nat then Nat.min (2 ^ (misses - 1)) kMaxSpinBackoff else spinSkips w) w.

Definition spinForWork (fuel i : nat) : dprog (option nat) :=
  if idleSpin opt <=? 0 then Ret None
  else
    keeper <- load timekeeper;;
    if hasDriver opt && bool_decide (keeper = None) then Ret None
    else
      skip <- rmw (fun s => match spinSkips (wk s i) with
                            | O => (s, false)
                            | S k => (on_worker i (fun w => set_spin (spinMisses w) k w) s, true)
                            end);;
      if skip : bool then Ret None
      else
        current <- load searching;;
        joined <- join_search fuel kMaxSpinners current;;
        if negb joined then Ret None
        else
          now <- load clock;;
          o <- spin_loop fuel i 1 (now + idleSpin opt);;
          before <- leave_search;;
          o1 <- (match o with Some t => Ret (Some t) | None => takeLocal i end);;
          task <- (match o1 with Some t => Ret (Some t) | None => popInjection end);;
          match task with
          | Some t =>
              store (on_worker i (fun w => set_spin 0 (spinSkips w) w));;;
              (if before =? 1 then wakePeerForLeftovers fuel i else Ret tt);;;
              Ret (Some t)
          | None => store (on_worker i spin_missed);;; Ret None
          end.

(** ** Sleeping *)

Definition sleepIdle (fuel i : nat) : dprog unit :=
  stop <- load stopping;;
  b <- tryBecomeTimekeeper i;;
  if negb b then (if stop : bool then parker_parkFor i else parker_park i)
  else
    store (set_keeperDeadline kScanningTimers);;;
    d <- nextDeadline;;
    rampUp <- load rampUpDeadline;;
    let wakeAt := Z.min rampUp d in
    now <- (if wakeAt =? kNoDeadline then Ret 0 else load clock);;
    store (set_keeperDeadline wakeAt);;;
    let timed := negb (wakeAt =? kNoDeadline) || stop in
    store (on_worker i (set_gathering true));;;
    (if hasDriver opt then ready <- driver_wait timed;; deliver fuel i ready
     else if timed then parker_parkFor i else parker_park i);;;
    releaseTimekeeper i;;;
    fireTimers fuel i;;;
    store (on_worker i (set_gathering false));;;
    due <- load rampUpDeadline;;
    if due =? kNoDeadline then Ret tt
    else
      now2 <- load clock;;
      if due <=? now2 then r <- cas rampUpDeadline set_rampUpDeadline due kNoDeadline;; Ret tt else Ret tt.

Definition parkIdle (fuel i : nat) : dprog (option nat) :=
  stop <- load stopping;;
  o <- (if stop : bool then Ret None else spinForWork fuel i);;
  match o with
  | Some t => Ret (Some t)
  | None =>
      markIdle i;;;
      o1 <- takeLocal i;;
      task <- (match o1 with Some t => Ret (Some t) | None => popInjection end);;
      match task with
      | Some t =>
          b <- clearIdle i;;
          (if b : bool then Ret tt else parker_parkFor i);;;
          Ret (Some t)
      | None =>
          sleepIdle fuel i;;;
          clearIdle i;;;
          store (on_worker i (fun w => if handoffWake w then set_handoff false (set_spin 0 0 w) else w));;;
          placeGathered fuel i true
      end
  end.

(** ** Running tasks *)

Fixpoint perform (fuel i : nat) (l : list action) : dprog unit :=
  match l with
  | [] => Ret tt
  | AWake t :: l' => schedule fuel (Some i) t;;; perform fuel i l'
  | ATimer d t :: l' => addTimer fuel i d t;;; perform fuel i l'
  end.

Definition log_dispatched (t : nat) : dprog nat :=
  rmw (fun s => (set_logs (<[t := S (progress s t)]> (progress s)) (scheduled s) (dispatched s ++ [t]) s, progress s t)).

Definition onTaskYielded (fuel i t : nat) : dprog unit :=
  log_scheduled t;;;
  match pinnedTo opt t with
  | Some target => inbox_push target t
  | None => pushLocalFifo fuel i t
  end.

(** Whom [yield] lets go first: nobody, the dispatcher, or a task. *)
Inductive yield_to := YNobody | YDispatcher | YTask (t : nat).

Definition yield (fuel i : nat) : dprog yield_to :=
  yields <- rmw (fun s => (on_worker i (fun w => set_ticks (tick w) (S (yieldTick w)) w) s, S (yieldTick (wk s i))));;
  let fairnessTick := (yields mod 64 =? 0)%nat in
  (if fairnessTick then
     o <- popInjection;;
     match o with Some t => pushLocalFifo fuel i t | None => Ret tt end
   else Ret tt);;;
  o1 <- takeLocal i;;
  next <- (match o1 with Some t => Ret (Some t) | None => popInjection end);;
  match next with
  | Some t => Ret (YTask t)
  | None => Ret (if fairnessTick then YDispatcher else YNobody)
  end.

(** A task runs, and those it hands over to, until the dispatcher's turn. *)
Fixpoint switchTo (fuel i t : nat) : dprog unit :=
  match fuel with
  | O => Starved
  | S fuel' =>
      turn <- log_dispatched t;;
      perform fuel' i (script opt t turn).1;;;
      match (script opt t turn).2 with
      | EYield =>
          y <- yield fuel' i;;
          match y with
          | YNobody => log_scheduled t;;; switchTo fuel' i t
          | YDispatcher => onTaskYielded fuel' i t
          | YTask t' => onTaskYielded fuel' i t;;; switchTo fuel' i t'
          end
      | e =>
          o <- takeLocal i;;
          (match e with EFinish => store (fun s => set_live (live s - 1) s) | _ => Ret tt end);;;
          match o with Some t' => switchTo fuel' i t' | None => Ret tt end
      end
  end.

Fixpoint run (fuel i : nat) : dprog unit :=
  match fuel with
  | O => Starved
  | S fuel' =>
      tk <- load (fun s => tick (wk s i));;
      o0 <- (if (tk mod kInjectionCheckPeriod =? 0)%nat then maintain fuel' i;;; popInjection else Ret None);;
      o1 <- (match o0 with Some t => Ret (Some t) | None => takeLocal i end);;
      o2 <- (match o1 with Some t => Ret (Some t) | None => searchForWork fuel' i end);;
      o3 <- (match o2 with
             | Some t => Ret (Some (Some t))
             | None =>
                 stop <- load stopping;;
                 n <- load live;;
                 if stop && (n =? 0)%nat then Ret None
                 else o <- parkIdle fuel' i;; Ret (Some o)
             end);;
      match o3 with
      | None => Ret tt
      | Some None => run fuel' i
      | Some (Some t) =>
          store (on_worker i (fun w => set_ticks (S (tick w)) (yieldTick w) w));;;
          keeper <- load timekeeper;;
          (match keeper with None => ensureTimekeeper fuel' (Some i) | Some _ => Ret tt end);;;
          switchTo fuel' i t;;;
          run fuel' i
      end
  end.

(** ** Threads that are not workers *)

Inductive client_op :=
| DSpawn (t : nat)                (** a new task *)
| DWake (t : nat)
| DTimer (deadline : Z) (t : nat)
| DIo (t : nat)                   (** the driver's file becomes ready *)
| DTime (d : Z)
| DStop.

Definition client (fuel : nat) (o : client_op) : dprog unit :=
  match o with
  | DSpawn t => store (fun s => set_live (S (live s)) s);;; schedule fuel None t
  | DWake t => schedule fuel None t
  | DTimer d t => addCallbackTimer fuel None d t;;; Ret tt
  | DIo t => store (fun s => set_driver (driverWoken s) (ioReady s ++ [t]) s)
  | DTime d => store (fun s => set_clock (clock s + Z.abs d) s)
  | DStop => store (set_stopping true);;; Ret tt
  end.

Fixpoint clients (fuel : nat) (l : list client_op) : dprog unit :=
  match l with [] => Ret tt | o :: l' => client fuel o;;; clients fuel l' end.

Definition sched_pool (fuel : nat) (cs : list (list client_op)) : config SchedulerCore unit :=
  ((run fuel <$> seq 0 count) ++ (clients fuel <$> cs), new_core count).
End dispatch.
