(* ===== verification/DispatchInv.v ===== *)
(** * Dispatch: invariant

    Every runnable task is in exactly one place, and no worker sleeps while
    there is work that nobody is about to tell it of.

    Each thread has a ghost value: how far it is towards sleeping ([ph]: up,
    marked idle, inbox checked, down), what it knows of its own queue, LIFO
    slot and batch, whether it counts as a searcher, what it owes ([db]: a
    push in progress, a notification, a worker it has claimed and not yet
    unparked), and the tasks in its hands. *)

From Stdlib Require Import ZArith Lia.
From stdpp Require Import base tactics list numbers option strings functions.
From S2P Require Import Prelude Conc Sums Dispatch.

Inductive Phase := Up | Marked | Checked | Down.
#[export] Instance Phase_eq_dec : EqDecision Phase.
Proof. solve_decision. Defined.

Record debts := Debts { midI : bool; owesI : bool; midP : option nat; owesP : option nat; claim : option nat }.
Definition nodebt : debts := Debts false false None None None.

Record dpl := DP {
  ph : Phase;
  emp : bool;            (** its local queue is empty *)
  lif : bool;            (** its LIFO slot is empty *)
  gat : bool;            (** it may have gathered tasks *)
  gth : bool;            (** it gathers *)
  sr : bool;             (** it counts as a searcher *)
  db : debts;
  hand : list nat
}.

(** What of the state the argument is about. *)
Record wview := WV {
  vlifo : option nat; vlocal : list nat; vinbox : list nat; vpushing : nat; vgathering : bool; vgathered : list nat; vparker : bool
}.
Record view := View {
  vw : nat -> wview; vinj : list nat; vinjp : nat; vmask : Z; vsearch : Z; vsch : list nat; vdis : list nat
}.

Definition relw (w : Worker) : wview :=
  WV (lifoSlot w) (local w) (pinnedInbox w) (inboxPushing w) (gathering w) (gathered w) (parker w).
Definition view_of (s : SchedulerCore) : view :=
  View (fun j => relw (wk s j)) (injection s) (injPushing s) (idleMask s) (searching s) (scheduled s) (dispatched s).

Definition free_of (x : wview) : list nat := option_list (vlifo x) ++ vlocal x ++ vgathered x.
Definition held (x : wview) : list nat := free_of x ++ vinbox x.

Section inv.
Context (pins : nat -> option nat) (W n : nat).
Implicit Types (v : view) (g : nat -> dpl) (l : dpl).

Definition counted v g : Prop := forall t,
  (cnt t (vdis v) + cnt t (vinj v) + total W (fun x => cnt t (held x)) (vw v) + total n (fun l => cnt t (hand l)) g = cnt t (vsch v))%nat.

Definition placed v : Prop :=
  Forall (fun t => pins t = None) (vinj v) /\
  forall j, (j < W)%nat -> Forall (fun t => pins t = None) (free_of (vw v j)) /\ Forall (fun t => pins t = Some j) (vinbox (vw v j)).

Definition b2n (b : bool) : nat := if b then 1%nat else 0%nat.
Definition midAt (k : nat) l : nat := b2n (bool_decide (midP (db l) = Some k)).

Definition pl_ok (j : nat) l : Prop :=
  (sr l = true -> ph l = Up /\ (j < W)%nat) /\
  (midI (db l) = true -> owesI (db l) = true) /\
  (forall k, midP (db l) = Some k -> owesP (db l) = Some k /\ (k < W)%nat) /\
  (forall k, claim (db l) = Some k -> (k < W)%nat) /\
  (ph l = Down -> emp l = true /\ lif l = true /\ gat l = false).

Definition numbers v g : Prop :=
  vsearch v = Z.of_nat (total n (fun l => b2n (sr l)) g) /\
  vinjp v = total n (fun l => b2n (midI (db l))) g /\
  (forall j, (j < W)%nat -> vpushing (vw v j) = total n (midAt j) g) /\
  (forall j, (j < n)%nat -> pl_ok j (g j)) /\
  0 <= vmask v < 2 ^ Z.of_nat W.

Definition claimed g (k : nat) : Prop := some n (fun l => bool_decide (claim (db l) = Some k)) g.
Definition told g (k : nat) : Prop := some n (fun l => bool_decide (owesP (db l) = Some k)) g.

(** A wake-up for worker [k] is there or on its way. *)
Definition woken v g (k : nat) : Prop := vparker (vw v k) = true \/ claimed g k.

Record asleep v g (j : nat) : Prop := {
  as_emp : emp (g j) = true -> vlocal (vw v j) = [];
  as_lif : lif (g j) = true -> vlifo (vw v j) = None;
  as_gat : gat (g j) = false -> vgathered (vw v j) = [];
  as_gth : vgathering (vw v j) = gth (g j);
  as_bit : ph (g j) <> Up -> Z.testbit (vmask v) (Z.of_nat j) = true \/ woken v g j;
  as_box : ph (g j) = Checked \/ ph (g j) = Down -> vinbox (vw v j) <> [] -> woken v g j \/ told g j
}.

(** Somebody will look at the injection queue. *)
Definition minded v g : Prop :=
  (exists j, (j < W)%nat /\ (ph (g j) <> Down \/ woken v g j)) \/ some n (fun l => owesI (db l)) g.

Record dinv v g : Prop := {
  di_count : counted v g;
  di_place : placed v;
  di_num : numbers v g;
  di_sleep : forall j, (j < W)%nat -> asleep v g j;
  di_inj : vinj v <> [] -> minded v g
}.

(** ** Steps *)

Lemma counted_step v g i l l' v' k x' :
  (i < n)%nat -> g i = l -> (k < W)%nat -> (forall j, vw v' j = <[k := x']> (vw v) j) ->
  (forall t, cnt t (vdis v') + cnt t (vinj v') + cnt t (held x') + cnt t (hand l') + cnt t (vsch v) =
             cnt t (vdis v) + cnt t (vinj v) + cnt t (held (vw v k)) + cnt t (hand l) + cnt t (vsch v'))%nat ->
  counted v g -> counted v' (<[i := l']> g).
Proof.
  intros Hi Hl Hk Hw H Hc t. specialize (Hc t). specialize (H t).
  pose proof (total_upd n (fun l => cnt t (hand l)) g i l l' Hi Hl).
  pose proof (total_upd W (fun x => cnt t (held x)) (vw v) k (vw v k) x' Hk eq_refl).
  rewrite (total_ext W _ _ _ Hw). simpl in *. lia.
Qed.

Lemma placed_step v v' k x' :
  (k < W)%nat -> (forall j, vw v' j = <[k := x']> (vw v) j) -> placed v ->
  Forall (fun t => pins t = None) (vinj v') ->
  Forall (fun t => pins t = None) (free_of x') -> Forall (fun t => pins t = Some k) (vinbox x') -> placed v'.
Proof.
  intros Hk Hw [Hi Hp] Hi' Hx Hb. split; [done|]. intros j Hj. rewrite Hw. destruct (decide (j = k)) as [->|].
  - by rewrite fn_lookup_insert.
  - rewrite fn_lookup_insert_ne by done. by apply Hp.
Qed.

Lemma numbers_step v g i l l' v' :
  (i < n)%nat -> g i = l -> numbers v g -> pl_ok i l' ->
  vsearch v' + Z.of_nat (b2n (sr l)) = vsearch v + Z.of_nat (b2n (sr l')) ->
  (vinjp v' + b2n (midI (db l)) = vinjp v + b2n (midI (db l')))%nat ->
  (forall j, (j < W)%nat -> (vpushing (vw v' j) + midAt j l = vpushing (vw v j) + midAt j l')%nat) ->
  0 <= vmask v' < 2 ^ Z.of_nat W ->
  numbers v' (<[i := l']> g).
Proof.
  intros Hi Hl (H1 & H2 & H3 & H4 & H5) Hok Hs Hp Hb Hm.
  pose proof (total_upd n (fun l => b2n (sr l)) g i l l' Hi Hl). pose proof (total_upd n (fun l => b2n (midI (db l))) g i l l' Hi Hl).
  simpl in *. unfold numbers. split; [lia|]. split; [lia|]. split; [|split; [|done]].
  - intros j Hj. pose proof (total_upd n (midAt j) g i l l' Hi Hl). specialize (Hb j Hj). specialize (H3 j Hj). lia.
  - intros j Hj. destruct (decide (j = i)) as [->|]; [by rewrite fn_lookup_insert|]. rewrite fn_lookup_insert_ne by done. auto.
Qed.

Lemma claimed_keep g i l l' k :
  g i = l -> claimed g k -> (claim (db l) = Some k -> claim (db l') = Some k \/ False) -> claimed (<[i := l']> g) k.
Proof.
  intros Hl Hc H. eapply some_keep; [exact Hl| |exact Hc]. intros E%bool_decide_eq_true. apply bool_decide_eq_true. by destruct (H E).
Qed.

(** A thread that keeps its phase and goes on to owe what it owed, or has paid
    it. *)
Lemma sleep_step v g i l l' v' :
  (i < n)%nat -> g i = l -> (forall j, (j < W)%nat -> asleep v g j) ->
  (* it is still as far, or up again *)
  (ph l' = ph l \/ ph l' = Up) ->
  (* wake-ups are kept; only its own may be used, when it is up *)
  (forall k, (k < W)%nat -> vparker (vw v k) = true -> woken v' (<[i := l']> g) k \/ k = i /\ ph l' = Up) ->
  (forall k, claim (db l) = Some k -> woken v' (<[i := l']> g) k \/ k = i /\ ph l' = Up) ->
  (* idle bits are cleared only by claiming, or by their owner when it is up *)
  (forall k, (k < W)%nat -> Z.testbit (vmask v) (Z.of_nat k) = true ->
     Z.testbit (vmask v') (Z.of_nat k) = true \/ woken v' (<[i := l']> g) k \/ k = i /\ ph l' = Up) ->
  (* inboxes grow only by threads that owe a notification *)
  (forall k, (k < W)%nat -> vinbox (vw v' k) <> [] -> vinbox (vw v k) <> [] \/ told (<[i := l']> g) k) ->
  (forall k, (k < W)%nat -> owesP (db l) = Some k -> owesP (db l') = Some k \/ woken v' (<[i := l']> g) k \/ ph (<[i := l']> g k) = Up \/ vinbox (vw v' k) = []) ->
  (* what the others know of their own queues *)
  (forall k, (k < W)%nat -> k <> i -> (vlocal (vw v k) = [] -> vlocal (vw v' k) = []) /\ vlifo (vw v' k) = vlifo (vw v k) /\
     vgathered (vw v' k) = vgathered (vw v k) /\ vgathering (vw v' k) = vgathering (vw v k)) ->
  (* what it knows of its own *)
  ((i < W)%nat -> (emp l' = true -> vlocal (vw v' i) = []) /\ (lif l' = true -> vlifo (vw v' i) = None) /\
     (gat l' = false -> vgathered (vw v' i) = []) /\ vgathering (vw v' i) = gth l') ->
  forall j, (j < W)%nat -> asleep v' (<[i := l']> g) j.
Proof.
  intros Hi Hl HA Hph Hpk Hcl Hbit Hbox Howe Hoth Hown j Hj.
  assert (Hwk : forall k, (k < W)%nat -> woken v g k -> woken v' (<[i := l']> g) k \/ k = i /\ ph l' = Up).
  { intros k Hk [Hp|(m & Hm & Em)]; [by apply Hpk|]. apply bool_decide_eq_true in Em. destruct (decide (m = i)) as [->|Hmi].
    - rewrite Hl in Em. by apply Hcl.
    - left. right. exists m. split; [done|]. rewrite fn_lookup_insert_ne by done. by apply bool_decide_eq_true. }
  destruct (decide (j = i)) as [->|Hji].
  - destruct (Hown Hj) as (O1 & O2 & O3 & O4). destruct (HA i Hj) as [A1 A2 A3 A4 A5 A6]. rewrite Hl in *.
    split; rewrite ?fn_lookup_insert; try done.
    + intros Hne. destruct Hph as [Hph|Hph]; [|congruence]. rewrite Hph in Hne. destruct (A5 Hne) as [Hb|Hw].
      * destruct (Hbit i Hj Hb) as [?|[?|[_ ?]]]; [by left|by right|congruence].
      * destruct (Hwk i Hj Hw) as [?|[_ ?]]; [by right|congruence].
    + intros Hcd Hne. assert (Hnu : ph l' <> Up) by (destruct Hcd as [-> | ->]; done).
      destruct Hph as [Hph|Hph]; [|congruence]. rewrite Hph in Hcd.
      destruct (Hbox i Hj Hne) as [Hne'|?]; [|by right]. destruct (A6 Hcd Hne') as [Hw|(m & Hm & Em)].
      * destruct (Hwk i Hj Hw) as [?|[_ ?]]; [by left|congruence].
      * apply bool_decide_eq_true in Em. destruct (decide (m = i)) as [->|Hmi].
        -- rewrite Hl in Em. destruct (Howe i Hj Em) as [E|[E|[E|E]]]; [|by left| |done].
           ++ right. exists i. split; [done|]. rewrite fn_lookup_insert. by apply bool_decide_eq_true.
           ++ rewrite fn_lookup_insert in E. congruence.
        -- right. exists m. split; [done|]. rewrite fn_lookup_insert_ne by done. by apply bool_decide_eq_true.
  - destruct (Hoth j Hj Hji) as (O1 & O2 & O3 & O4). destruct (HA j Hj) as [A1 A2 A3 A4 A5 A6].
    split; rewrite ?fn_lookup_insert_ne by done; try congruence; auto.
    + intros H. rewrite O2. auto.
    + intros H. rewrite O3. auto.
    + intros Hne. destruct (A5 Hne) as [Hb|Hw].
      * destruct (Hbit j Hj Hb) as [?|[?|[? _]]]; [by left|by right|done].
      * destruct (Hwk j Hj Hw) as [?|[? _]]; [by right|done].
    + intros Hcd Hne. destruct (Hbox j Hj Hne) as [Hne'|?]; [|by right]. destruct (A6 Hcd Hne') as [Hw|(m & Hm & Em)].
      * destruct (Hwk j Hj Hw) as [?|[? _]]; [by left|done].
      * apply bool_decide_eq_true in Em. destruct (decide (m = i)) as [->|Hmi].
        -- rewrite Hl in Em. destruct (Howe j Hj Em) as [E|[E|[E|E]]]; [|by left| |done].
           ++ right. exists i. split; [done|]. rewrite fn_lookup_insert. by apply bool_decide_eq_true.
           ++ rewrite fn_lookup_insert_ne in E by done. destruct Hcd; congruence.
        -- right. exists m. split; [done|]. rewrite fn_lookup_insert_ne by done. by apply bool_decide_eq_true.
Qed.

Lemma minded_step v g i l l' v' :
  (i < n)%nat -> g i = l -> minded v g ->
  (ph l' = ph l \/ ph l' = Up) ->
  (forall k, (k < W)%nat -> vparker (vw v k) = true -> woken v' (<[i := l']> g) k \/ k = i /\ ph l' = Up) ->
  (forall k, claim (db l) = Some k -> woken v' (<[i := l']> g) k \/ k = i /\ ph l' = Up) ->
  (owesI (db l) = true -> owesI (db l') = true \/ minded v' (<[i := l']> g)) ->
  minded v' (<[i := l']> g).
Proof.
  intros Hi Hl Hm Hph Hpk Hcl How. destruct Hm as [(j & Hj & Hor)|(m & Hm & Em)].
  - assert (Hup : woken v' (<[i := l']> g) j \/ j = i /\ ph l' = Up -> minded v' (<[i := l']> g)).
    { intros [?|[-> E]]; left; [exists j; auto|]. exists i. split; [done|]. left. rewrite fn_lookup_insert. congruence. }
    destruct Hor as [Hnd|[Hp|(m & Hm & Em)]].
    + left. exists j. split; [done|]. left. destruct (decide (j = i)) as [->|]; [|by rewrite fn_lookup_insert_ne].
      rewrite fn_lookup_insert. rewrite Hl in Hnd. destruct Hph as [-> | ->]; done.
    + apply Hup. by apply Hpk.
    + apply bool_decide_eq_true in Em. destruct (decide (m = i)) as [->|Hmi].
      * rewrite Hl in Em. apply Hup. by apply Hcl.
      * left. exists j. split; [done|]. right. right. exists m. split; [done|]. rewrite fn_lookup_insert_ne by done. by apply bool_decide_eq_true.
  - destruct (decide (m = i)) as [->|Hmi].
    + rewrite Hl in Em. destruct (How Em) as [?|?]; [|done]. right. exists i. by rewrite fn_lookup_insert.
    + right. exists m. by rewrite fn_lookup_insert_ne.
Qed.

(** Tasks move between the thread's hands and worker [k] or the injection
    queue; debts, searchers, wake-ups and idle bits stay. *)
Lemma dinv_move v g i l l' v' k x' :
  (i < n)%nat -> g i = l -> dinv v g -> (k < W)%nat -> (forall j, vw v' j = <[k := x']> (vw v) j) ->
  vinjp v' = vinjp v -> vmask v' = vmask v -> vsearch v' = vsearch v ->
  db l' = db l -> sr l' = sr l -> (ph l' = ph l \/ ph l' = Up) -> (ph l' = Down -> emp l' = true /\ lif l' = true /\ gat l' = false) ->
  vpushing x' = vpushing (vw v k) -> vparker x' = vparker (vw v k) ->
  (vinbox x' <> [] -> vinbox (vw v k) <> [] \/ owesP (db l) = Some k) -> (vinj v' <> [] -> vinj v <> [] \/ owesI (db l) = true) ->
  (forall t, cnt t (vdis v') + cnt t (vinj v') + cnt t (held x') + cnt t (hand l') + cnt t (vsch v) =
             cnt t (vdis v) + cnt t (vinj v) + cnt t (held (vw v k)) + cnt t (hand l) + cnt t (vsch v'))%nat ->
  Forall (fun t => pins t = None) (vinj v') -> Forall (fun t => pins t = None) (free_of x') -> Forall (fun t => pins t = Some k) (vinbox x') ->
  (k <> i -> (vlocal (vw v k) = [] -> vlocal x' = []) /\ vlifo x' = vlifo (vw v k) /\ vgathered x' = vgathered (vw v k) /\ vgathering x' = vgathering (vw v k)) ->
  ((i < W)%nat -> (emp l' = true -> vlocal (<[k := x']> (vw v) i) = []) /\ (lif l' = true -> vlifo (<[k := x']> (vw v) i) = None) /\
     (gat l' = false -> vgathered (<[k := x']> (vw v) i) = []) /\ vgathering (<[k := x']> (vw v) i) = gth l') ->
  dinv v' (<[i := l']> g).
Proof.
  intros Hi Hl [D1 D2 D3 D4 D5] Hk Hw Hip Hm Hs Hdb Hsr Hph Hdn Hvp Hpar Hvb Hvi Hcnt P1 P2 P3 Hoth Hown.
  assert (Hpk : forall j, vparker (vw v' j) = vparker (vw v j)).
  { intros j. rewrite Hw. destruct (decide (j = k)) as [->|]; [by rewrite fn_lookup_insert|by rewrite fn_lookup_insert_ne]. }
  assert (Hcl : forall j, claim (db l) = Some j -> woken v' (<[i := l']> g) j).
  { intros j E. right. exists i. split; [done|]. rewrite fn_lookup_insert, Hdb. by apply bool_decide_eq_true. }
  pose proof D3 as (_ & _ & _ & Hok & Hrange). pose proof (Hok i Hi) as (K1 & K2 & K3 & K4 & K5). rewrite Hl in K1, K2, K3, K4, K5.
  split.
  - by eapply counted_step.
  - by eapply placed_step.
  - eapply numbers_step; try done; rewrite ?Hs, ?Hip, ?Hsr, ?Hdb, ?Hm; try done.
    + split; [|rewrite Hdb; done]. rewrite Hsr. intros E. destruct (K1 E) as [Hu ?]. split; [|done]. destruct Hph as [->|]; done.
    + intros j Hj. unfold midAt. rewrite Hdb, Hw. destruct (decide (j = k)) as [->|]; [by rewrite fn_lookup_insert, Hvp|by rewrite fn_lookup_insert_ne].
  - eapply sleep_step; try done.
    + intros j Hj E. left. left. by rewrite Hpk.
    + intros j E. left. by apply Hcl.
    + intros j Hj E. left. by rewrite Hm.
    + intros j Hj. rewrite Hw. destruct (decide (j = k)) as [->|]; [rewrite fn_lookup_insert|rewrite fn_lookup_insert_ne by done; auto].
      intros Hne. destruct (Hvb Hne) as [?|Ho]; [by left|right]. exists i. split; [done|]. rewrite fn_lookup_insert, Hdb. by apply bool_decide_eq_true.
    + intros j Hj E. left. by rewrite Hdb.
    + intros j Hj Hji. rewrite Hw. destruct (decide (j = k)) as [->|]; [rewrite fn_lookup_insert; by apply Hoth|by rewrite fn_lookup_insert_ne].
    + intros HiW. rewrite Hw. by apply Hown.
  - intros Hne. destruct (Hvi Hne) as [Hne'|Ho]; [|right; exists i; by rewrite fn_lookup_insert, Hdb]. eapply minded_step; try done.
    + by apply D5.
    + intros j Hj E. left. left. by rewrite Hpk.
    + intros j E. left. by apply Hcl.
    + intros E. left. by rewrite Hdb.
Qed.

(** No task moves: pushes begin, notifications are made, workers are claimed,
    unparked, woken. *)
Lemma dinv_signal v g i l l' v' :
  (i < n)%nat -> g i = l -> dinv v g -> hand l' = hand l ->
  vinj v' = vinj v -> vsch v' = vsch v -> vdis v' = vdis v ->
  (forall j, vlifo (vw v' j) = vlifo (vw v j) /\ vlocal (vw v' j) = vlocal (vw v j) /\ vinbox (vw v' j) = vinbox (vw v j) /\
     vgathered (vw v' j) = vgathered (vw v j)) ->
  (forall j, (j < W)%nat -> vgathering (vw v' j) = if decide (j = i) then gth l' else vgathering (vw v j)) ->
  numbers v' (<[i := l']> g) ->
  (ph l' = ph l \/ ph l' = Up) -> (emp l' = true -> emp l = true) -> (lif l' = true -> lif l = true) -> (gat l' = false -> gat l = false) ->
  (forall k, (k < W)%nat -> vparker (vw v k) = true -> woken v' (<[i := l']> g) k \/ k = i /\ ph l' = Up) ->
  (forall k, claim (db l) = Some k -> woken v' (<[i := l']> g) k \/ k = i /\ ph l' = Up) ->
  (forall k, (k < W)%nat -> Z.testbit (vmask v) (Z.of_nat k) = true ->
     Z.testbit (vmask v') (Z.of_nat k) = true \/ woken v' (<[i := l']> g) k \/ k = i /\ ph l' = Up) ->
  (forall k, (k < W)%nat -> owesP (db l) = Some k ->
     owesP (db l') = Some k \/ woken v' (<[i := l']> g) k \/ ph (<[i := l']> g k) = Up \/ vinbox (vw v' k) = []) ->
  (owesI (db l) = true -> owesI (db l') = true \/ minded v' (<[i := l']> g)) ->
  dinv v' (<[i := l']> g).
Proof.
  intros Hi Hl [D1 D2 D3 D4 D5] Hh E1 E2 E3 Hw Hg Hnum Hph K1 K2 K3 Hpk Hcl Hbit HoP HoI.
  assert (Hfree : forall j, free_of (vw v' j) = free_of (vw v j)).
  { intros j. unfold free_of. destruct (Hw j) as (-> & -> & _ & ->). done. }
  split; [| |done| |].
  - intros t. specialize (D1 t). pose proof (total_upd n (fun l => cnt t (hand l)) g i l l' Hi Hl). rewrite E1, E2, E3.
    assert (total W (fun x => cnt t (held x)) (vw v') = total W (fun x => cnt t (held x)) (vw v)) as ->.
    { apply lsum_ext. intros j _. unfold held. destruct (Hw j) as (_ & _ & -> & _). by rewrite Hfree. }
    simpl in *. rewrite Hh in *. lia.
  - destruct D2 as [P1 P2]. split; [by rewrite E1|]. intros j Hj. rewrite Hfree. destruct (Hw j) as (_ & _ & -> & _). auto.
  - eapply sleep_step; try done.
    + intros k Hk Hne. left. destruct (Hw k) as (_ & _ & E & _). by rewrite <- E.
    + intros k Hk Hki. destruct (Hw k) as (-> & -> & _ & ->). rewrite (Hg k Hk), decide_False by done. done.
    + intros HiW. destruct (Hw i) as (-> & -> & _ & ->). destruct (D4 i HiW) as [A1 A2 A3 A4 _ _]. rewrite Hl in *.
      rewrite (Hg i HiW), decide_True by done. splits; auto.
  - rewrite E1. intros Hne. eapply minded_step; eauto.
Qed.

(** A thread moves on towards sleeping. *)
Lemma dinv_phase v g i l l' v' :
  (i < W)%nat -> (i < n)%nat -> g i = l -> dinv v g -> hand l' = hand l -> db l' = db l -> gth l' = gth l -> sr l' = false -> sr l = false ->
  (forall j, vw v' j = vw v j) -> vinj v' = vinj v -> vinjp v' = vinjp v -> vsearch v' = vsearch v -> vsch v' = vsch v -> vdis v' = vdis v ->
  (forall k, Z.testbit (vmask v) (Z.of_nat k) = true -> Z.testbit (vmask v') (Z.of_nat k) = true) -> 0 <= vmask v' < 2 ^ Z.of_nat W ->
  (emp l' = true -> vlocal (vw v i) = []) -> (lif l' = true -> vlifo (vw v i) = None) -> (gat l' = false -> vgathered (vw v i) = []) ->
  (ph l' <> Up -> Z.testbit (vmask v') (Z.of_nat i) = true \/ woken v g i) ->
  (ph l' = Checked \/ ph l' = Down -> vinbox (vw v i) <> [] -> woken v g i \/ told g i) ->
  (ph l' = Down -> emp l' = true /\ lif l' = true /\ gat l' = false) ->
  (ph l' = Down -> vinj v <> [] -> some n (fun l => owesI (db l)) g) ->
  dinv v' (<[i := l']> g).
Proof.
  intros HiW Hi Hl [D1 D2 D3 D4 D5] Hh Hdb Hg Hsr Hsr0 Hw E1 E2 E3 E4 E5 Hbits Hm K1 K2 K3 Kb Kx Kd Ki.
  assert (Hsome : forall b, b (db l') = b (db l) -> some n (fun l => b (db l)) g -> some n (fun l => b (db l)) (<[i := l']> g)).
  { intros b Hb. eapply some_keep; [exact Hl|]. by rewrite Hb. }
  assert (Hwk : forall k, woken v g k -> woken v' (<[i := l']> g) k).
  { intros k [Hp|Hc]; [left; by rewrite Hw|right]. eapply some_keep; [exact Hl| |exact Hc]. by rewrite Hdb. }
  assert (Htold : forall k, told g k -> told (<[i := l']> g) k).
  { intros k. eapply some_keep; [exact Hl|]. by rewrite Hdb. }
  pose proof D3 as (_ & _ & _ & Hok & _). destruct (Hok i Hi) as (O1 & O2 & O3 & O4 & O5). rewrite Hl in O1, O2, O3, O4, O5.
  split.
  - intros t. specialize (D1 t). pose proof (total_upd n (fun l => cnt t (hand l)) g i l l' Hi Hl).
    rewrite E1, E4, E5, (total_ext W _ _ _ Hw). simpl in *. rewrite Hh in *. lia.
  - destruct D2 as [P1 P2]. split; [by rewrite E1|]. intros j Hj. rewrite Hw. auto.
  - eapply numbers_step; try done; rewrite ?E2, ?E3, ?Hsr, ?Hsr0, ?Hdb; try done.
    + split; [congruence|]. rewrite Hdb. auto.
    + intros j Hj. unfold midAt. by rewrite Hw, Hdb.
  - intros j Hj. destruct (decide (j = i)) as [->|Hji].
    + split; rewrite ?fn_lookup_insert, ?Hw; try done; [| |].
      * destruct (D4 i Hj) as [_ _ _ A4 _ _]. rewrite Hl in A4. congruence.
      * intros Hne. destruct (Kb Hne) as [?|?]; [by left|right; auto].
      * intros Hcd Hne. destruct (Kx Hcd Hne) as [?|?]; auto.
    + destruct (D4 j Hj) as [A1 A2 A3 A4 A5 A6]. split; rewrite ?fn_lookup_insert_ne, ?Hw by done; try done.
      * intros Hne. destruct (A5 Hne) as [?|?]; [left; auto|right; auto].
      * intros Hcd Hne. destruct (A6 Hcd Hne) as [?|?]; auto.
  - rewrite E1. intros Hne. destruct (decide (ph l' = Down)) as [Hd|Hd].
    + right. apply (Hsome owesI); [by rewrite Hdb|]. by apply Ki.
    + left. exists i. split; [done|]. left. by rewrite fn_lookup_insert.
Qed.
End inv.
