(* ===== verification/DispatchRules.v ===== *)
(** * Dispatch: proof rules for the steps

    One rule per atomic step of Dispatch.v. *)

From Stdlib Require Import ZArith Lia.
From stdpp Require Import base tactics list numbers option strings functions.
From S2P Require Import Prelude Conc Sums Dispatch DispatchInv.

(** ** Workers *)

Lemma wk_on W i f s j :
  (i < W)%nat -> length (workers s) = W ->
  relw (wk (on_worker i f s) j) = <[i := relw (f (wk s i))]> (fun j => relw (wk s j)) j.
Proof.
  intros Hi HW. unfold wk, on_worker. simpl. destruct (decide (j = i)) as [->|Hji].
  - rewrite fn_lookup_insert, list_lookup_alter_eq. destruct (lookup_lt_is_Some_2 (workers s) i) as [w Hw]; [lia|]. by rewrite Hw.
  - by rewrite fn_lookup_insert_ne, list_lookup_alter_ne by done.
Qed.

Lemma vw_on W i f s j :
  (i < W)%nat -> length (workers s) = W ->
  vw (view_of (on_worker i f s)) j = <[i := relw (f (wk s i))]> (vw (view_of s)) j.
Proof. apply wk_on. Qed.

(** What a view keeps when worker [i] changes. *)
Lemma vw_on_same {B} (p : wview -> B) W i f s j :
  (i < W)%nat -> length (workers s) = W -> p (relw (f (wk s i))) = p (relw (wk s i)) ->
  p (vw (view_of (on_worker i f s)) j) = p (vw (view_of s) j).
Proof.
  intros Hi HL Hp. rewrite (vw_on W) by done. destruct (decide (j = i)) as [->|]; [by rewrite fn_lookup_insert|by rewrite fn_lookup_insert_ne].
Qed.

Lemma on_worker_id i s : on_worker i (fun w => w) s = s.
Proof.
  unfold on_worker. replace (alter (fun w => w) i (workers s)) with (workers s); [by destruct s|].
  apply list_eq. intros j. destruct (decide (j = i)) as [->|]; [|by rewrite list_lookup_alter_ne].
  rewrite list_lookup_alter_eq. by destruct (workers s !! i).
Qed.

Lemma length_on i f s : length (workers (on_worker i f s)) = length (workers s).
Proof. apply length_alter. Qed.

Ltac len_tac := first [by rewrite length_on | by rewrite length_alter].

Ltac cnt_tac := intros; unfold held, free_of; simpl; rewrite ?cnt_app, ?cnt_cons, ?cnt_nil; try lia.

Ltac free_tac := unfold free_of; simpl; rewrite ?Forall_app; splits; try done; try by apply Forall_singleton.

Section rules.
Context (opt : options) (W n : nat).
Context (HW : (1 <= W <= 64)%nat) (Hn : (W <= n)%nat) (Hpins : forall t k, pinnedTo opt t = Some k -> (k < W)%nat).
Notation dinv := (dinv (pinnedTo opt) W n).

Definition quiet (l : dpl) : Prop := sr l = false /\ db l = nodebt /\ hand l = [].

Definition dmay_wait (i : nat) (s : SchedulerCore) (g : nat -> dpl) : Prop :=
  hasDriver opt = true \/ (i < W)%nat /\ ph (g i) = Down /\ quiet (g i) /\ parker (wk s i) = false.

Definition dproto : protocol SchedulerCore (nat -> dpl) :=
  WaitProtocol (fun s g => length (workers s) = W /\ dinv (view_of s) g)
    (fun j sg sg' => forall i, i <> j -> sg'.2 i = sg.2 i) dmay_wait.

Definition at_ (i : nat) (l : dpl) : asrt SchedulerCore (nat -> dpl) := fun _ g => g i = l.
(** Up; it may remember that its LIFO slot is empty. *)
Definition up (i : nat) (f a gt b : bool) (d : debts) (h : list nat) : asrt SchedulerCore (nat -> dpl) :=
  fun _ g => exists e f', (f = true -> f' = true) /\ g i = DP Up e f' a gt b d h.

Notation R := dproto.

Lemma stable_at_ i l : stable R i (at_ i l).
Proof. intros j s g s' g' Hj _ _ HG HP. unfold at_ in *. simpl in HG. by rewrite HG. Qed.
Lemma stable_up i f a gt b d h : stable R i (up i f a gt b d h).
Proof. intros j s g s' g' Hj _ _ HG (e & f' & Hf & HP). exists e, f'. simpl in HG. split; [done|]. by rewrite HG. Qed.
Hint Resolve stable_at_ stable_up : core.

Lemma rg_up {A} i f a gt b d h (p : prog SchedulerCore A) Q :
  (forall e f', (f = true -> f' = true) -> rg R i p (at_ i (DP Up e f' a gt b d h)) Q) -> rg R i p (up i f a gt b d h) Q.
Proof.
  intros H. eapply (rg_pre R i _ (fun s g => exists e, exists f', (f = true -> f' = true) /\ at_ i (DP Up e f' a gt b d h) s g)).
  - intros s g _ (e & f' & E). by exists e, f'.
  - apply rg_ex. intros e. apply rg_ex. intros f'. apply rg_pure. apply H.
Qed.

Lemma rg_down {A} i e f f' a gt b d h (p : prog SchedulerCore A) Q :
  (f = true -> f' = true) -> rg R i p (up i f a gt b d h) Q -> rg R i p (at_ i (DP Up e f' a gt b d h)) Q.
Proof. intros Hf. apply rg_pre. intros s g _ E. by exists e, f'. Qed.

Lemma rg_forget {A} i f a gt b d h (p : prog SchedulerCore A) Q :
  rg R i p (up i false a gt b d h) Q -> rg R i p (up i f a gt b d h) Q.
Proof. apply rg_pre. intros s g _ (e & f' & _ & E). by exists e, f'. Qed.

(** One step, with the ghost value it leaves. *)
Lemma rg_act {A X} i l (f : SchedulerCore -> list (SchedulerCore * X)) (k : X -> prog SchedulerCore A) Q :
  (forall s g, length (workers s) = W -> dinv (view_of s) g -> g i = l -> f s = [] -> dmay_wait i s g) ->
  (forall s g s' x, length (workers s) = W -> dinv (view_of s) g -> g i = l -> (s', x) ∈ f s ->
     exists l', length (workers s') = W /\ dinv (view_of s') (<[i := l']> g) /\ rg R i (k x) (at_ i l') Q) ->
  rg R i (Act X f k) (at_ i l) Q.
Proof.
  intros Hw Hk. split; [intros s g [HL HI] HP; by apply Hw|]. intros s g s' x [HL HI] HP Hin.
  destruct (Hk s g s' x HL HI HP Hin) as (l' & HL' & HI' & Hrg). exists (<[i := l']> g), (at_ i l').
  split; [done|]. split; [intros j Hj; simpl; by rewrite fn_lookup_insert_ne|]. split; [by unfold at_; rewrite fn_lookup_insert|]. by split.
Qed.

Lemma own_facts v g i l :
  dinv v g -> g i = l -> (i < W)%nat ->
  (emp l = true -> vlocal (vw v i) = []) /\ (lif l = true -> vlifo (vw v i) = None) /\ (gat l = false -> vgathered (vw v i) = []) /\
  vgathering (vw v i) = gth l.
Proof. intros [_ _ _ H _] <- Hi. by destruct (H i Hi). Qed.

Lemma ok_facts v g i l : dinv v g -> (i < n)%nat -> g i = l -> pl_ok W i l.
Proof. intros [_ _ (_ & _ & _ & H & _) _ _] Hi <-. auto. Qed.

(** Forgetting. *)
Definition weaker (l l' : dpl) : Prop :=
  db l' = db l /\ sr l' = sr l /\ hand l' = hand l /\ gth l' = gth l /\ (ph l' = ph l \/ ph l' = Up) /\
  (emp l' = true -> emp l = true) /\ (lif l' = true -> lif l = true) /\ (gat l' = false -> gat l = false) /\
  (ph l' = Down -> emp l' = true /\ lif l' = true /\ gat l' = false).

Lemma weaker_refl v g i l : dinv v g -> (i < n)%nat -> g i = l -> weaker l l.
Proof. intros HI Hi Hl. pose proof (ok_facts v g i l HI Hi Hl) as (_ & _ & _ & _ & H). unfold weaker. splits; try done; try (by left); try (by intros ?; left); try apply H. Qed.

(** Nothing that matters changes. *)
Lemma dinv_same v g i l l' v' :
  (i < n)%nat -> g i = l -> dinv v g -> weaker l l' ->
  (forall j, vw v' j = vw v j) -> vinj v' = vinj v -> vinjp v' = vinjp v -> vmask v' = vmask v -> vsearch v' = vsearch v ->
  vsch v' = vsch v -> vdis v' = vdis v -> dinv v' (<[i := l']> g).
Proof.
  intros Hi Hl HI (W1 & W2 & W3 & W4 & W5 & W6 & W7 & W8 & W9) Hw E1 E2 E3 E4 E5 E6. pose proof (di_place _ _ _ _ _ HI) as [P1 P2].
  destruct (P2 0%nat ltac:(lia)) as [P3 P4].
  assert (Hid : forall j, <[0%nat := vw v 0]> (vw v) j = vw v j).
  { intros j. destruct (decide (j = 0%nat)) as [->|]; [by rewrite fn_lookup_insert|by rewrite fn_lookup_insert_ne]. }
  eapply (dinv_move _ _ _ v g i l l' v' 0 (vw v 0)); try done; try lia; try (by intros ?; left).
  - intros j. by rewrite Hid.
  - rewrite E1. by left.
  - intros t. rewrite E1, E5, E6, W3. lia.
  - by rewrite E1.
  - intros HiW. rewrite !Hid. destruct (own_facts v g i l HI Hl HiW) as (O1 & O2 & O3 & O4). rewrite W4. splits; auto.
Qed.

(** *** Loads, and stores to what the argument is not about *)

Lemma rg_read {A X} i l l' (f : SchedulerCore -> X) (k : X -> prog SchedulerCore A) Q :
  (i < n)%nat -> (l' = l \/ weaker l l') -> (forall x, rg R i (k x) (at_ i l') Q) -> rg R i (bind (load f) k) (at_ i l) Q.
Proof.
  intros Hi Hw Hk. apply rg_act; [done|]. intros s g s' x HL HI Hl Hin. apply list_elem_of_singleton in Hin. injection Hin as -> ->.
  exists l'. splits; [done| |apply Hk]. eapply dinv_same; try done. destruct Hw as [->|]; [by eapply weaker_refl|done].
Qed.

Lemma rg_read_with {A X} i l (f : SchedulerCore -> X) (k : X -> prog SchedulerCore A) Q :
  (i < n)%nat ->
  (forall s g, length (workers s) = W -> dinv (view_of s) g -> g i = l -> rg R i (k (f s)) (at_ i l) Q) -> rg R i (bind (load f) k) (at_ i l) Q.
Proof.
  intros Hi Hk. apply rg_act; [done|]. intros s g s' x HL HI Hl Hin. apply list_elem_of_singleton in Hin. injection Hin as -> ->.
  exists l. splits; [done| |by eapply Hk]. eapply dinv_same; try done. by eapply weaker_refl.
Qed.

Lemma rg_silent {A} i l (f : SchedulerCore -> SchedulerCore) (k : unit -> prog SchedulerCore A) Q :
  (i < n)%nat ->
  (forall s, length (workers s) = W -> length (workers (f s)) = W /\ (forall j, relw (wk (f s) j) = relw (wk s j)) /\
     injection (f s) = injection s /\ injPushing (f s) = injPushing s /\ idleMask (f s) = idleMask s /\ searching (f s) = searching s /\
     scheduled (f s) = scheduled s /\ dispatched (f s) = dispatched s) ->
  rg R i (k tt) (at_ i l) Q -> rg R i (bind (store f) k) (at_ i l) Q.
Proof.
  intros Hi Hf Hk. apply rg_act; [done|]. intros s g s' x HL HI Hl Hin. apply list_elem_of_singleton in Hin. injection Hin as -> ->.
  destruct (Hf s HL) as (E1 & E2 & E3 & E4 & E5 & E6 & E7 & E8). exists l. splits; [done| |done]. eapply dinv_same; try done. by eapply weaker_refl.
Qed.

Lemma rg_silent_rmw {A X} i l (f : SchedulerCore -> SchedulerCore * X) (k : X -> prog SchedulerCore A) Q :
  (i < n)%nat ->
  (forall s, length (workers s) = W -> length (workers (f s).1) = W /\ (forall j, relw (wk (f s).1 j) = relw (wk s j)) /\
     injection (f s).1 = injection s /\ injPushing (f s).1 = injPushing s /\ idleMask (f s).1 = idleMask s /\ searching (f s).1 = searching s /\
     scheduled (f s).1 = scheduled s /\ dispatched (f s).1 = dispatched s) ->
  (forall x, rg R i (k x) (at_ i l) Q) -> rg R i (bind (rmw f) k) (at_ i l) Q.
Proof.
  intros Hi Hf Hk. apply rg_act; [done|]. intros s g s' x HL HI Hl Hin. apply list_elem_of_singleton in Hin.
  destruct (Hf s HL) as (E1 & E2 & E3 & E4 & E5 & E6 & E7 & E8). rewrite <- Hin in *. simpl in *.
  exists l. splits; [done| |apply Hk]. eapply dinv_same; try done. by eapply weaker_refl.
Qed.

(** A field of a worker that the argument is not about. *)
Lemma relw_on i f s j :
  length (workers s) = W -> (forall w, relw (f w) = relw w) -> relw (wk (on_worker i f s) j) = relw (wk s j).
Proof.
  intros HL Hf. destruct (decide (i < W)%nat) as [Hi|Hi].
  - rewrite (wk_on W i f s j Hi HL). destruct (decide (j = i)) as [->|]; [by rewrite fn_lookup_insert, Hf|by rewrite fn_lookup_insert_ne].
  - unfold on_worker, wk. simpl. destruct (decide (j = i)) as [->|]; [|by rewrite list_lookup_alter_ne].
    rewrite list_lookup_alter_eq. rewrite (lookup_ge_None_2 (workers s) i) by lia. done.
Qed.

Lemma rg_field {A} i l j (f : Worker -> Worker) (k : unit -> prog SchedulerCore A) Q :
  (i < n)%nat -> (forall w, relw (f w) = relw w) -> rg R i (k tt) (at_ i l) Q -> rg R i (bind (store (on_worker j f)) k) (at_ i l) Q.
Proof.
  intros Hi Hf Hk. apply rg_silent; [done| |done]. intros s HL. splits; try done; [len_tac|]. intros m. by apply relw_on.
Qed.

Lemma rg_choose {A B} i l (bs : list B) (k : B -> prog SchedulerCore A) Q :
  (i < n)%nat -> bs <> [] -> (forall b, rg R i (k b) (at_ i l) Q) -> rg R i (bind (choose bs) k) (at_ i l) Q.
Proof.
  intros Hi Hne Hk. apply rg_act.
  - intros s g _ _ _ E. by apply fmap_nil_inv in E.
  - intros s g s' x HL HI Hl Hin. apply list_elem_of_fmap in Hin as (b & [= -> ->] & _). exists l. splits; [done| |apply Hk].
    eapply dinv_same; try done. by eapply weaker_refl.
Qed.

(** The same, up. *)
Lemma rg_uread {A X} i f0 a gt b d h (f : SchedulerCore -> X) (k : X -> prog SchedulerCore A) Q :
  (i < n)%nat -> (forall x, rg R i (k x) (up i f0 a gt b d h) Q) -> rg R i (bind (load f) k) (up i f0 a gt b d h) Q.
Proof. intros Hi Hk. apply rg_up. intros e fl Hfl. apply (rg_read i _ (DP Up e fl a gt b d h)); [done|by left|]. intros x. by apply (rg_down i e f0). Qed.

Lemma rg_usilent {A} i f0 a gt b d h (f : SchedulerCore -> SchedulerCore) (k : unit -> prog SchedulerCore A) Q :
  (i < n)%nat ->
  (forall s, length (workers s) = W -> length (workers (f s)) = W /\ (forall j, relw (wk (f s) j) = relw (wk s j)) /\
     injection (f s) = injection s /\ injPushing (f s) = injPushing s /\ idleMask (f s) = idleMask s /\ searching (f s) = searching s /\
     scheduled (f s) = scheduled s /\ dispatched (f s) = dispatched s) ->
  rg R i (k tt) (up i f0 a gt b d h) Q -> rg R i (bind (store f) k) (up i f0 a gt b d h) Q.
Proof. intros Hi Hf Hk. apply rg_up. intros e fl Hfl. apply rg_silent; [done|done|]. by apply (rg_down i e f0). Qed.

Lemma rg_usilent_rmw {A X} i f0 a gt b d h (f : SchedulerCore -> SchedulerCore * X) (k : X -> prog SchedulerCore A) Q :
  (i < n)%nat ->
  (forall s, length (workers s) = W -> length (workers (f s).1) = W /\ (forall j, relw (wk (f s).1 j) = relw (wk s j)) /\
     injection (f s).1 = injection s /\ injPushing (f s).1 = injPushing s /\ idleMask (f s).1 = idleMask s /\ searching (f s).1 = searching s /\
     scheduled (f s).1 = scheduled s /\ dispatched (f s).1 = dispatched s) ->
  (forall x, rg R i (k x) (up i f0 a gt b d h) Q) -> rg R i (bind (rmw f) k) (up i f0 a gt b d h) Q.
Proof. intros Hi Hf Hk. apply rg_up. intros e fl Hfl. apply rg_silent_rmw; [done|done|]. intros x. by apply (rg_down i e f0). Qed.

Lemma rg_ufield {A} i f0 a gt b d h j (f : Worker -> Worker) (k : unit -> prog SchedulerCore A) Q :
  (i < n)%nat -> (forall w, relw (f w) = relw w) -> rg R i (k tt) (up i f0 a gt b d h) Q -> rg R i (bind (store (on_worker j f)) k) (up i f0 a gt b d h) Q.
Proof. intros Hi Hf Hk. apply rg_up. intros e fl Hfl. apply rg_field; [done|done|]. by apply (rg_down i e f0). Qed.

Lemma rg_uchoose {A B} i f0 a gt b d h (bs : list B) (k : B -> prog SchedulerCore A) Q :
  (i < n)%nat -> bs <> [] -> (forall x, rg R i (k x) (up i f0 a gt b d h) Q) -> rg R i (bind (choose bs) k) (up i f0 a gt b d h) Q.
Proof. intros Hi Hne Hk. apply rg_up. intros e fl Hfl. apply rg_choose; [done|done|]. intros x. by apply (rg_down i e f0). Qed.

(** One step of a thread that is up and stays so. *)
Lemma rg_act_up {A X} i f0 a gt b d h (f : SchedulerCore -> list (SchedulerCore * X)) (k : X -> prog SchedulerCore A) Q :
  (forall s, f s <> []) ->
  (forall s g s' x e fl, length (workers s) = W -> dinv (view_of s) g -> g i = DP Up e fl a gt b d h -> (f0 = true -> fl = true) -> (s', x) ∈ f s ->
     exists e' f' a' gt' b' d' h', length (workers s') = W /\ dinv (view_of s') (<[i := DP Up e' f' a' gt' b' d' h']> g) /\
       (f0 = true -> f' = true) /\ rg R i (k x) (up i f0 a' gt' b' d' h') Q) ->
  rg R i (Act X f k) (up i f0 a gt b d h) Q.
Proof.
  intros Hne Hk. apply rg_up. intros e fl Hfl. apply rg_act; [intros s g _ _ _ E; by destruct (Hne s)|].
  intros s g s' x HL HI Hl Hin. destruct (Hk s g s' x e fl HL HI Hl Hfl Hin) as (e' & f' & a' & gt' & b' & d' & h' & HL' & HI' & Hf' & Hrg).
  exists (DP Up e' f' a' gt' b' d' h'). splits; [done|done|]. by apply (rg_down i e' f0).
Qed.

Lemma unpinned v g j : dinv v g -> (j < W)%nat ->
  Forall (fun t => pinnedTo opt t = None) (option_list (vlifo (vw v j))) /\ Forall (fun t => pinnedTo opt t = None) (vlocal (vw v j)) /\
  Forall (fun t => pinnedTo opt t = None) (vgathered (vw v j)) /\ Forall (fun t => pinnedTo opt t = Some j) (vinbox (vw v j)).
Proof.
  intros [_ [_ H] _ _ _] Hj. destruct (H j Hj) as [H1 H2]. unfold free_of in H1. apply Forall_app in H1 as [? H1]. by apply Forall_app in H1 as [? ?].
Qed.

Lemma inj_unpinned v g : dinv v g -> Forall (fun t => pinnedTo opt t = None) (vinj v).
Proof. by intros [_ [H _] _ _ _]. Qed.

(** [dinv_move] for a change of worker [k]'s record. *)
Lemma dinv_on s g i l l' k f :
  (i < n)%nat -> g i = l -> length (workers s) = W -> dinv (view_of s) g -> (k < W)%nat ->
  db l' = db l -> sr l' = sr l -> (ph l' = ph l \/ ph l' = Up) -> (ph l' = Down -> emp l' = true /\ lif l' = true /\ gat l' = false) ->
  inboxPushing (f (wk s k)) = inboxPushing (wk s k) -> parker (f (wk s k)) = parker (wk s k) ->
  (pinnedInbox (f (wk s k)) <> [] -> pinnedInbox (wk s k) <> [] \/ owesP (db l) = Some k) ->
  (forall t, cnt t (held (relw (f (wk s k)))) + cnt t (hand l') = cnt t (held (relw (wk s k))) + cnt t (hand l))%nat ->
  Forall (fun t => pinnedTo opt t = None) (free_of (relw (f (wk s k)))) -> Forall (fun t => pinnedTo opt t = Some k) (pinnedInbox (f (wk s k))) ->
  (k <> i -> (local (wk s k) = [] -> local (f (wk s k)) = []) /\ lifoSlot (f (wk s k)) = lifoSlot (wk s k) /\
     gathered (f (wk s k)) = gathered (wk s k) /\ gathering (f (wk s k)) = gathering (wk s k)) ->
  (k = i -> (emp l' = true -> local (f (wk s i)) = []) /\ (lif l' = true -> lifoSlot (f (wk s i)) = None) /\
     (gat l' = false -> gathered (f (wk s i)) = []) /\ gathering (f (wk s i)) = gth l') ->
  (k <> i -> (emp l' = true -> emp l = true) /\ (lif l' = true -> lif l = true) /\ (gat l' = false -> gat l = false) /\ gth l' = gth l) ->
  dinv (view_of (on_worker k f s)) (<[i := l']> g).
Proof.
  intros Hi Hl HL HI Hk Hdb Hsr Hph Hdn Hvp Hpar Hvb Hcnt P2 P3 Hoth Hown Hgh.
  eapply (dinv_move _ _ _ (view_of s) g i l l' _ k (relw (f (wk s k)))); try done; try (by intros ?; left).
  - intros j. by apply (wk_on W).
  - intros t. specialize (Hcnt t). simpl. lia.
  - by apply (inj_unpinned (view_of s) g).
  - intros HiW. destruct (decide (k = i)) as [->|Hne]; [rewrite fn_lookup_insert; by apply Hown|].
    rewrite fn_lookup_insert_ne by done. destruct (own_facts _ g i l HI Hl HiW) as (O1 & O2 & O3 & O4).
    destruct (Hgh Hne) as (G1 & G2 & G3 & ->). splits; auto.
Qed.

(** *** The local queue *)

Lemma rg_local_push {A} i f0 a gt b d t h (k : bool -> prog SchedulerCore A) Q :
  (i < n)%nat -> (i < W)%nat -> pinnedTo opt t = None ->
  rg R i (k true) (up i f0 a gt b d h) Q -> rg R i (k false) (up i f0 a gt b d (t :: h)) Q ->
  rg R i (bind (local_push i t) k) (up i f0 a gt b d (t :: h)) Q.
Proof.
  intros Hi HiW Ht Hk1 Hk2. apply rg_act_up; [done|]. intros s g s' x e fl HL HI Hl Hfl Hin.
  destruct (unpinned _ g i HI HiW) as (U1 & U2 & U3 & U4). destruct (own_facts _ g i _ HI Hl HiW) as (O1 & O2 & O3 & O4). simpl in *.
  apply elem_of_cons in Hin as [[= -> ->]|[[= -> ->]|[]%elem_of_nil]%elem_of_cons].
  - exists false, fl, a, gt, b, d, h. splits; [len_tac| |done|done].
    eapply (dinv_on s g i _ _ i); try done; simpl; try (by left); try (by intros ?; left).
    + cnt_tac.
    + free_tac.
  - exists e, fl, a, gt, b, d, (t :: h). splits; [done| |done|done]. eapply dinv_same; try done. by eapply weaker_refl.
Qed.

(** Learning something of its own queues. *)
Lemma dinv_know s g i l l' :
  (i < n)%nat -> (i < W)%nat -> g i = l -> length (workers s) = W -> dinv (view_of s) g ->
  db l' = db l -> sr l' = sr l -> ph l' = ph l -> hand l' = hand l -> gth l' = gth l ->
  (ph l' = Down -> emp l' = true /\ lif l' = true /\ gat l' = false) ->
  (emp l' = true -> local (wk s i) = []) -> (lif l' = true -> lifoSlot (wk s i) = None) -> (gat l' = false -> gathered (wk s i) = []) ->
  dinv (view_of s) (<[i := l']> g).
Proof.
  intros Hi HiW Hl HL HI H1 H2 H3 H4 H5 H6 H7 H8 H9. destruct (unpinned _ g i HI HiW) as (U1 & U2 & U3 & U4).
  destruct (own_facts _ g i _ HI Hl HiW) as (O1 & O2 & O3 & O4). simpl in *.
  rewrite <- (on_worker_id i s). eapply (dinv_on s g i _ _ i); try done; simpl; try (by left); try (by intros ?; left).
  - intros t. rewrite H4. lia.
  - free_tac.
  - intros _. rewrite H5. by splits.
Qed.

Lemma rg_local_pop {A} i p e fl a gt b d h (k : option nat -> prog SchedulerCore A) Q :
  (i < n)%nat -> (i < W)%nat -> p <> Down ->
  (forall t, pinnedTo opt t = None -> rg R i (k (Some t)) (up i false a gt b d (t :: h)) Q) ->
  rg R i (k None) (at_ i (DP p true fl a gt b d h)) Q ->
  rg R i (bind (local_pop i) k) (at_ i (DP p e fl a gt b d h)) Q.
Proof.
  intros Hi HiW Hp Hk1 Hk2. apply rg_act; [done|]. intros s g s' x HL HI Hl Hin. apply list_elem_of_singleton in Hin.
  destruct (unpinned _ g i HI HiW) as (U1 & U2 & U3 & U4). destruct (own_facts _ g i _ HI Hl HiW) as (O1 & O2 & O3 & O4). simpl in *.
  destruct (local (wk s i)) as [|t q] eqn:El; injection Hin as -> ->.
  - exists (DP p true fl a gt b d h). splits; [done| |done]. by eapply dinv_know.
  - exists (DP Up false fl a gt b d (t :: h)). apply Forall_cons_1 in U2 as [Ut U2]. splits; [len_tac| |by apply (rg_down i _ false), Hk1].
    eapply (dinv_on s g i _ _ i); try done; simpl; try (by right); try (by intros ?; left).
    + cnt_tac. rewrite El. cnt_tac.
    + free_tac.
Qed.

(** The tasks of [l] leave worker [v]'s queue. *)
Lemma dinv_local_take s g i p e fl a gt b d h v q l h' :
  (i < n)%nat -> (v < W)%nat -> p <> Down -> g i = DP p e fl a gt b d h -> length (workers s) = W -> dinv (view_of s) g ->
  (forall t, cnt t q + cnt t l = cnt t (local (wk s v)))%nat -> (forall t, cnt t h' = cnt t (l ++ h)) ->
  dinv (view_of (on_worker v (set_local q) s)) (<[i := DP p e fl a gt b d h']> g) /\ Forall (fun t => pinnedTo opt t = None) l.
Proof.
  intros Hi HvW Hp Hl HL HI Hq Hh. destruct (unpinned _ g v HI HvW) as (U1 & U2 & U3 & U4). simpl in *.
  assert (Hsub : forall t, t ∈ q \/ t ∈ l -> t ∈ local (wk s v)).
  { intros t Ht. rewrite !cnt_elem in *. specialize (Hq t). lia. }
  assert (Hnil : local (wk s v) = [] -> q = []).
  { intros E. destruct q as [|t q]; [done|]. assert (t ∈ local (wk s v)) as Ht by (apply Hsub; left; left). rewrite E in Ht. by apply elem_of_nil in Ht. }
  rewrite list.Forall_forall in U2. split; [|apply list.Forall_forall; auto].
  eapply (dinv_on s g i _ _ v); try done; simpl; try (by left); try (by intros ?; left).
  - intros t. specialize (Hq t). unfold held, free_of. simpl. rewrite Hh, !cnt_app. lia.
  - free_tac. apply list.Forall_forall. auto.
  - intros ->. destruct (own_facts _ g i _ HI Hl HvW) as (O1 & O2 & O3 & O4). simpl in *. splits; auto.
Qed.

Lemma rg_local_popBlock {A} i f0 a gt b d h (k : list nat -> prog SchedulerCore A) Q :
  (i < n)%nat -> (i < W)%nat ->
  (forall l, Forall (fun t => pinnedTo opt t = None) l -> rg R i (k l) (up i f0 a gt b d (l ++ h)) Q) ->
  rg R i (bind (local_popBlock i) k) (up i f0 a gt b d h) Q.
Proof.
  intros Hi HiW Hk. apply rg_act_up; [done|]. intros s g s' x e fl HL HI Hl Hfl Hin.
  apply list_elem_of_fmap in Hin as (m & [= -> ->] & _).
  destruct (dinv_local_take s g i Up e fl a gt b d h i (drop m (local (wk s i))) (take m (local (wk s i))) (take m (local (wk s i)) ++ h)) as [HI' Hl']; try done.
  { intros t. rewrite Nat.add_comm, <- cnt_app. by rewrite take_drop. }
  exists e, fl, a, gt, b, d, (take m (local (wk s i)) ++ h). splits; [len_tac|done|done|]. by apply Hk.
Qed.

Lemma rg_local_steal {A} i f0 a gt b d h v (k : option nat -> prog SchedulerCore A) Q :
  (i < n)%nat -> (v < W)%nat ->
  (forall t, pinnedTo opt t = None -> rg R i (k (Some t)) (up i f0 a gt b d (t :: h)) Q) -> rg R i (k None) (up i f0 a gt b d h) Q ->
  rg R i (bind (local_steal v) k) (up i f0 a gt b d h) Q.
Proof.
  intros Hi HvW Hk1 Hk2. apply rg_act_up; [done|]. intros s g s' x e fl HL HI Hl Hfl Hin.
  apply elem_of_cons in Hin as [[= -> ->]|Hin].
  - exists e, fl, a, gt, b, d, h. splits; [done| |done|done]. eapply dinv_same; try done. by eapply weaker_refl.
  - apply elem_of_lookup_imap in Hin as (m & t & [= -> ->] & Hm).
    destruct (dinv_local_take s g i Up e fl a gt b d h v (delete m (local (wk s v))) [t] ([t] ++ h)) as [HI' Hl']; try done.
    { intros u. by apply cnt_delete. }
    exists e, fl, a, gt, b, d, ([t] ++ h). splits; [len_tac|done|done|]. apply Hk1. by apply Forall_cons_1 in Hl' as [? _].
Qed.

Lemma rg_local_stealBlock {A} i f0 a gt b d h v (k : list nat -> prog SchedulerCore A) Q :
  (i < n)%nat -> (v < W)%nat ->
  (forall l, Forall (fun t => pinnedTo opt t = None) l -> exists h', (forall t, cnt t h' = cnt t (l ++ h)) /\ rg R i (k l) (up i f0 a gt b d h') Q) ->
  rg R i (bind (local_stealBlock v) k) (up i f0 a gt b d h) Q.
Proof.
  intros Hi HvW Hk. apply rg_act_up; [done|]. intros s g s' x e fl HL HI Hl Hfl Hin.
  apply list_elem_of_fmap in Hin as ([m c] & E & _). cbn [fst snd] in E. injection E as -> ->.
  assert (Hnone : Forall (fun t => pinnedTo opt t = None) (take c (drop m (local (wk s v))))).
  { apply Forall_take, Forall_drop. by apply (unpinned _ g v HI HvW). }
  destruct (Hk _ Hnone) as (h' & Hh & Hrg).
  destruct (dinv_local_take s g i Up e fl a gt b d h v (take m (local (wk s v)) ++ drop (m + c) (local (wk s v))) (take c (drop m (local (wk s v)))) h')
    as [HI' Hl']; try done.
  { intros t. rewrite <- drop_drop. rewrite <- (take_drop m (local (wk s v))) at 4. rewrite <- (take_drop c (drop m (local (wk s v)))) at 3.
    rewrite !cnt_app. lia. }
  exists e, fl, a, gt, b, d, h'. splits; [len_tac|done|done|done].
Qed.

Lemma rg_local_pushBatch {A} i f0 a gt b d l h (k : nat -> prog SchedulerCore A) Q :
  (i < n)%nat -> (i < W)%nat -> Forall (fun t => pinnedTo opt t = None) l ->
  (forall m, rg R i (k m) (up i f0 a gt b d (drop m l ++ h)) Q) ->
  rg R i (bind (local_pushBatch i l) k) (up i f0 a gt b d (l ++ h)) Q.
Proof.
  intros Hi HiW Hnone Hk. apply rg_act_up; [intros s; done|]. intros s g s' x e fl HL HI Hl Hfl Hin.
  apply list_elem_of_fmap in Hin as (m & [= -> ->] & _).
  destruct (unpinned _ g i HI HiW) as (U1 & U2 & U3 & U4). destruct (own_facts _ g i _ HI Hl HiW) as (O1 & O2 & O3 & O4). simpl in *.
  exists false, fl, a, gt, b, d, (drop m l ++ h). splits; [len_tac| |done|apply Hk].
  eapply (dinv_on s g i _ _ i); try done; simpl; try (by left); try (by intros ?; left).
  - intros t. unfold held, free_of. simpl. rewrite <- (take_drop m l) at 3. rewrite !cnt_app. lia.
  - free_tac. by apply Forall_take.
Qed.
(** *** Pushes that others can see in progress *)

(** One step with any ghost state that changes only the thread's own value. *)
Lemma rg_act_up_any {A X} i f0 a gt b d h (f : SchedulerCore -> list (SchedulerCore * X)) (k : X -> prog SchedulerCore A) Q :
  (forall s, f s <> []) ->
  (forall s g s' x e fl, length (workers s) = W -> dinv (view_of s) g -> g i = DP Up e fl a gt b d h -> (f0 = true -> fl = true) -> (s', x) ∈ f s ->
     exists g' e' f' a' gt' b' d' h', length (workers s') = W /\ dinv (view_of s') g' /\ g' i = DP Up e' f' a' gt' b' d' h' /\
       (forall j, j <> i -> g' j = g j) /\ (f0 = true -> f' = true) /\ rg R i (k x) (up i f0 a' gt' b' d' h') Q) ->
  rg R i (Act X f k) (up i f0 a gt b d h) Q.
Proof.
  intros Hne Hk. split; [intros s g _ _ E; by destruct (Hne s)|]. intros s g s' x [HL HI] (e & fl & Hfl & Hl) Hin.
  destruct (Hk s g s' x e fl HL HI Hl Hfl Hin) as (g' & e' & f' & a' & gt' & b' & d' & h' & HL' & HI' & Hl' & Hoth & Hf' & Hrg).
  exists g', (up i f0 a' gt' b' d' h'). split; [done|]. split; [done|]. split; [by exists e', f'|]. by split.
Qed.

Lemma midAt_hit j l : midP (db l) = Some j -> midAt j l = 1%nat.
Proof. intros E. unfold midAt. by rewrite bool_decide_true. Qed.
Lemma midAt_miss j l : midP (db l) <> Some j -> midAt j l = 0%nat.
Proof. intros E. unfold midAt. by rewrite bool_decide_false. Qed.

(** Only counters and debts change. *)
Lemma dinv_debt v g i l l' v' :
  (i < n)%nat -> g i = l -> dinv v g -> hand l' = hand l -> gth l' = gth l -> emp l' = emp l -> lif l' = lif l -> gat l' = gat l -> ph l' = ph l ->
  vinj v' = vinj v -> vsch v' = vsch v -> vdis v' = vdis v -> vmask v' = vmask v ->
  (forall j, vlifo (vw v' j) = vlifo (vw v j) /\ vlocal (vw v' j) = vlocal (vw v j) /\ vinbox (vw v' j) = vinbox (vw v j) /\
     vgathered (vw v' j) = vgathered (vw v j) /\ vgathering (vw v' j) = vgathering (vw v j) /\ vparker (vw v' j) = vparker (vw v j)) ->
  numbers W n v' (<[i := l']> g) -> claim (db l') = claim (db l) ->
  (forall k, (k < W)%nat -> owesP (db l) = Some k ->
     owesP (db l') = Some k \/ woken n v' (<[i := l']> g) k \/ ph (<[i := l']> g k) = Up \/ vinbox (vw v' k) = []) ->
  (owesI (db l) = true -> owesI (db l') = true \/ minded W n v' (<[i := l']> g)) ->
  dinv v' (<[i := l']> g).
Proof.
  intros Hi Hl HI Hh Hg He Hf Ha Hp E1 E2 E3 E4 Hw Hnum Hcl HoP HoI. eapply dinv_signal; try done; try (by left).
  - intros j. destruct (Hw j) as (-> & -> & -> & -> & _). done.
  - intros j Hj. destruct (Hw j) as (_ & _ & _ & _ & -> & _). case_decide as Hj'; [|done]. subst j.
    rewrite Hg. by apply (own_facts v g i l).
  - by rewrite He.
  - by rewrite Hf.
  - by rewrite Ha.
  - intros j Hj E. left. left. destruct (Hw j) as (_ & _ & _ & _ & _ & ->). done.
  - intros j E. left. right. exists i. split; [done|]. rewrite fn_lookup_insert, Hcl. by apply bool_decide_eq_true.
  - intros j Hj E. left. by rewrite E4.
Qed.

Lemma rg_inbox_commit {A} i f0 a gt b j o t h (k : unit -> prog SchedulerCore A) Q :
  (i < n)%nat -> (j < W)%nat -> pinnedTo opt t = Some j -> (o = Some j \/ o = None /\ j = i) ->
  rg R i (k tt) (up i f0 a gt b (Debts false false None o None) h) Q ->
  rg R i (bind (store (on_worker j (fun w => set_inbox (pinnedInbox w ++ [t]) (inboxPushing w - 1) w))) k)
    (up i f0 a gt b (Debts false false (Some j) (Some j) None) (t :: h)) Q.
Proof.
  intros Hi HjW Ht Ho Hk.
  apply rg_act_up_any; [done|]. intros s g s' x0 e fl HL HI Hl Hfl Hin.
  apply list_elem_of_singleton in Hin. injection Hin as -> ->.
  pose proof (ok_facts _ _ _ _ HI Hi Hl) as (_ & _ & _ & _ & K5). destruct (unpinned _ g j HI HjW) as (U1 & U2 & U3 & U4).
  set (g1 := <[i := DP Up e fl a gt b (Debts false false (Some j) (Some j) None) h]> g).
  set (s1 := on_worker j (fun w => set_inbox (pinnedInbox w ++ [t]) (inboxPushing w) w) s).
  assert (HI1 : dinv (view_of s1) g1).
  { eapply (dinv_on s g i _ _ j); try done; try (by left).
    - intros _. by right.
    - cnt_tac.
    - free_tac.
    - free_tac.
    - intros ->. pose proof (own_facts _ g i _ HI Hl HjW) as (O1 & O2 & O3 & O4). by splits. }
  exists (<[i := DP Up e fl a gt b (Debts false false None o None) h]> g1), e, fl, a, gt, b, (Debts false false None o None), h.
  splits; [len_tac| |by rewrite fn_lookup_insert|intros m Hm; unfold g1; by rewrite !fn_lookup_insert_ne|done|done].
  assert (Hl1 : g1 i = DP Up e fl a gt b (Debts false false (Some j) (Some j) None) h) by (unfold g1; by rewrite fn_lookup_insert).
  assert (HL1 : length (workers s1) = W) by (unfold s1; len_tac).
  assert (Hpos : (0 < inboxPushing (wk s j))%nat).
  { destruct HI as [_ _ (_ & _ & Hp & _) _ _]. specialize (Hp j HjW). simpl in Hp. rewrite Hp.
    pose proof (total_elem n (midAt j) g i Hi) as Hle. rewrite Hl in Hle. rewrite midAt_hit in Hle by done. lia. }
  assert (Hview : forall m, vw (view_of (on_worker j (fun w => set_inbox (pinnedInbox w ++ [t]) (inboxPushing w - 1) w) s)) m =
    <[j := relw (set_inbox (pinnedInbox (wk s j) ++ [t]) (inboxPushing (wk s j) - 1) (wk s j))]> (vw (view_of s1)) m).
  { intros m. rewrite (vw_on W) by done. destruct (decide (m = j)) as [->|]; [by rewrite !fn_lookup_insert|].
    rewrite !fn_lookup_insert_ne by done. unfold s1. rewrite (vw_on W) by done. by rewrite fn_lookup_insert_ne. }
  assert (Hj1 : vw (view_of s1) j = relw (set_inbox (pinnedInbox (wk s j) ++ [t]) (inboxPushing (wk s j)) (wk s j))).
  { unfold s1. rewrite (vw_on W) by done. by rewrite fn_lookup_insert. }
  eapply (dinv_debt (view_of s1) g1); try done.
  - intros m. rewrite Hview. destruct (decide (m = j)) as [->|]; [by rewrite fn_lookup_insert, Hj1|by rewrite fn_lookup_insert_ne].
  - eapply (numbers_step W n (view_of s1) g1); try done.
    + by apply HI1.
    + destruct (ok_facts _ _ _ _ HI1 Hi Hl1) as (K1 & _). by split.
    + intros m Hm. rewrite Hview. destruct (decide (m = j)) as [->|].
      * rewrite fn_lookup_insert, Hj1, midAt_hit, midAt_miss by done. simpl. lia.
      * rewrite fn_lookup_insert_ne, !midAt_miss by (simpl; congruence). lia.
    + apply HI.
  - intros m Hm E. injection E as <-. destruct Ho as [->|[-> ->]]; [by left|]. right. right. left. by rewrite fn_lookup_insert.
Qed.

Lemma rg_inbox_push {A} i f0 a gt b j o t h (k : unit -> prog SchedulerCore A) Q :
  (i < n)%nat -> (j < W)%nat -> pinnedTo opt t = Some j -> (o = Some j \/ o = None /\ j = i) ->
  rg R i (k tt) (up i f0 a gt b (Debts false false None o None) h) Q ->
  rg R i (bind (inbox_push j t) k) (up i f0 a gt b nodebt (t :: h)) Q.
Proof.
  intros Hi HjW Ht Ho Hk. apply rg_bind_assoc.
  apply rg_act_up; [done|]. intros s g s' x e fl HL HI Hl Hfl Hin. apply list_elem_of_singleton in Hin. injection Hin as -> ->.
  pose proof (ok_facts _ _ _ _ HI Hi Hl) as (K1 & K2 & K3 & K4 & K5).
  exists e, fl, a, gt, b, (Debts false false (Some j) (Some j) None), (t :: h). splits; [len_tac| |done|].
  { eapply dinv_debt; try done.
    - intros m. splits; by apply (vw_on_same _ W).
    - eapply (numbers_step W n (view_of s) g); try done.
      + by apply HI.
      + unfold pl_ok. cbn. split; [done|]. split; [done|]. split; [by intros m [= <-]|]. done.
      + intros m Hm. rewrite (vw_on W) by done. destruct (decide (m = j)) as [->|].
        * rewrite fn_lookup_insert. rewrite midAt_miss, midAt_hit by done. simpl. lia.
        * rewrite fn_lookup_insert_ne, !midAt_miss by (simpl; congruence). lia.
      + apply HI. }
  by apply (rg_inbox_commit _ _ _ _ _ _ o).
Qed.
(** Tasks move between the thread's hands and the injection queue. *)
Lemma dinv_inj v g i l l' v' :
  (i < n)%nat -> g i = l -> dinv v g -> ph l <> Down -> weaker (DP (ph l) (emp l) (lif l) (gat l) (gth l) (sr l) (db l) (hand l')) l' ->
  (forall j, vw v' j = vw v j) -> vinjp v' = vinjp v -> vmask v' = vmask v -> vsearch v' = vsearch v ->
  vsch v' = vsch v -> vdis v' = vdis v -> (vinj v' <> [] -> vinj v <> [] \/ owesI (db l) = true) ->
  (forall t, cnt t (vinj v') + cnt t (hand l') = cnt t (vinj v) + cnt t (hand l))%nat -> Forall (fun t => pinnedTo opt t = None) (vinj v') ->
  dinv v' (<[i := l']> g).
Proof.
  intros Hi Hl HI Hnd (W1 & W2 & W3 & W4 & W5 & W6 & W7 & W8 & W9) Hw E2 E3 E4 E5 E6 Hne Hcnt P1. cbn in *.
  pose proof (di_place _ _ _ _ _ HI) as [_ P2]. destruct (P2 0%nat ltac:(lia)) as [P3 P4].
  assert (Hid : forall j, <[0%nat := vw v 0]> (vw v) j = vw v j).
  { intros j. destruct (decide (j = 0%nat)) as [->|]; [by rewrite fn_lookup_insert|by rewrite fn_lookup_insert_ne]. }
  eapply (dinv_move _ _ _ v g i l l' v' 0 (vw v 0)); try done; try lia; try (by intros ?; left).
  - intros j. by rewrite Hid.
  - intros t. specialize (Hcnt t). rewrite E5, E6. lia.
  - intros HiW. rewrite !Hid. destruct (own_facts v g i l HI Hl HiW) as (O1 & O2 & O3 & O4). rewrite W4. splits; auto.
Qed.

Lemma rg_injection_commit {A} i f0 a gt b t h (k : unit -> prog SchedulerCore A) Q :
  (i < n)%nat -> pinnedTo opt t = None ->
  rg R i (k tt) (up i f0 a gt b (Debts false true None None None) h) Q ->
  rg R i (bind (store (fun s => set_injection (injection s ++ [t]) (injPushing s - 1) s)) k)
    (up i f0 a gt b (Debts true true None None None) (t :: h)) Q.
Proof.
  intros Hi Ht Hk. apply rg_act_up_any; [done|]. intros s g s' x0 e fl HL HI Hl Hfl Hin.
  apply list_elem_of_singleton in Hin. injection Hin as -> ->.
  set (g1 := <[i := DP Up e fl a gt b (Debts true true None None None) h]> g).
  set (s1 := set_injection (injection s ++ [t]) (injPushing s) s).
  assert (HI1 : dinv (view_of s1) g1).
  { eapply (dinv_inj (view_of s) g i); try done.
    - unfold weaker. splits; try done; by left.
    - intros _. by right.
    - simpl. cnt_tac.
    - simpl. apply Forall_app. split; [by apply (inj_unpinned _ g HI)|by apply Forall_singleton]. }
  exists (<[i := DP Up e fl a gt b (Debts false true None None None) h]> g1), e, fl, a, gt, b, (Debts false true None None None), h.
  splits; [done| |by rewrite fn_lookup_insert|intros m Hm; unfold g1; by rewrite !fn_lookup_insert_ne|done|done].
  assert (Hl1 : g1 i = DP Up e fl a gt b (Debts true true None None None) h) by (unfold g1; by rewrite fn_lookup_insert).
  assert (Hpos : (0 < injPushing s)%nat).
  { destruct HI as [_ _ (_ & Hp & _) _ _]. simpl in Hp. rewrite Hp.
    pose proof (total_elem n (fun l => b2n (midI (db l))) g i Hi) as Hle. rewrite Hl in Hle. simpl in Hle. lia. }
  eapply (dinv_debt (view_of s1) g1); try done; [|by left].
  eapply (numbers_step W n (view_of s1) g1); try done.
  - by apply HI1.
  - destruct (ok_facts _ _ _ _ HI1 Hi Hl1) as (K1 & _). by split.
  - simpl. lia.
  - apply HI.
Qed.

Lemma rg_pushInjection {A} i f0 a gt b ow t h (k : unit -> prog SchedulerCore A) Q :
  (i < n)%nat -> pinnedTo opt t = None ->
  rg R i (k tt) (up i f0 a gt b (Debts false true None None None) h) Q ->
  rg R i (bind (pushInjection t) k) (up i f0 a gt b (Debts false ow None None None) (t :: h)) Q.
Proof.
  intros Hi Ht Hk. apply rg_bind_assoc. apply rg_act_up; [done|]. intros s g s' x e fl HL HI Hl Hfl Hin.
  apply list_elem_of_singleton in Hin. injection Hin as -> ->.
  pose proof (ok_facts _ _ _ _ HI Hi Hl) as (K1 & K2 & K3 & K4 & K5).
  exists e, fl, a, gt, b, (Debts true true None None None), (t :: h). splits; [done| |done|by apply rg_injection_commit].
  eapply dinv_debt; try done; [|by left]. eapply (numbers_step W n (view_of s) g); try done.
  - by apply HI.
  - simpl. lia.
  - apply HI.
Qed.
(** *** Taking tasks *)

Lemma pushing_told v g j : dinv v g -> (j < W)%nat -> (0 < vpushing (vw v j))%nat -> told n g j.
Proof.
  intros HI Hj Hp. destruct HI as [_ _ (_ & _ & Hpu & Hok & _) _ _]. rewrite (Hpu j Hj) in Hp. apply total_pos in Hp as (m & Hm & Hpos).
  exists m. split; [done|]. unfold midAt in Hpos. case_bool_decide as E; simpl in Hpos; [|lia].
  destruct (Hok m Hm) as (_ & _ & K & _). apply bool_decide_eq_true. by apply K.
Qed.

Lemma pushing_minded v g : dinv v g -> (0 < vinjp v)%nat -> some n (fun l => owesI (db l)) g.
Proof.
  intros HI Hp. destruct HI as [_ _ (_ & Hpu & _ & Hok & _) _ _]. rewrite Hpu in Hp. apply total_pos in Hp as (m & Hm & Hpos).
  exists m. split; [done|]. destruct (Hok m Hm) as (_ & K & _). destruct (midI (db (g m))) eqn:E; simpl in Hpos; [auto|lia].
Qed.

(** A phase that it keeps, or the next. *)
Definition advance (from to : Phase) (b : bool) (p p' : Phase) : Prop := p' = p \/ p = from /\ p' = to /\ b = false.

Lemma rg_inbox_pop {A} i p p' e fl a gt b d h (k : option nat -> prog SchedulerCore A) Q :
  (i < n)%nat -> (i < W)%nat -> p <> Down -> advance Marked Checked b p p' ->
  (forall t, pinnedTo opt t = Some i -> rg R i (k (Some t)) (up i false a gt b d (t :: h)) Q) ->
  rg R i (k None) (at_ i (DP p' e fl a gt b d h)) Q ->
  rg R i (bind (inbox_pop i) k) (at_ i (DP p e fl a gt b d h)) Q.
Proof.
  intros Hi HiW Hp Hadv Hk1 Hk2. apply rg_act.
  { intros s g _ _ _ E. destruct (pinnedInbox (wk s i)); by apply app_nil in E as [E _]. }
  intros s g s' x HL HI Hl Hin.
  assert (Hnone : pinnedInbox (wk s i) = [] \/ inboxPushing (wk s i) <> 0%nat -> dinv (view_of s) (<[i := DP p' e fl a gt b d h]> g)).
  { intros Hbox. destruct Hadv as [->|(-> & -> & ->)]; [eapply dinv_same; try done; by eapply weaker_refl|].
    destruct (own_facts _ g i _ HI Hl HiW) as (O1 & O2 & O3 & O4). eapply dinv_phase; try done; try apply HI.
    - intros _. pose proof (di_sleep _ _ _ _ _ HI i HiW) as [_ _ _ _ A5 _]. apply A5. by rewrite Hl.
    - intros _ Hne. right. apply (pushing_told _ _ _ HI HiW). simpl in *. destruct Hbox; [done|lia]. }
  destruct (unpinned _ g i HI HiW) as (U1 & U2 & U3 & U4). destruct (own_facts _ g i _ HI Hl HiW) as (O1 & O2 & O3 & O4). simpl in *.
  apply elem_of_app in Hin as [Hin|Hin].
  - destruct (pinnedInbox (wk s i)) as [|t q] eqn:Eq; apply list_elem_of_singleton in Hin; injection Hin as -> ->.
    + exists (DP p' e fl a gt b d h). splits; [done| |done]. apply Hnone. by left.
    + apply Forall_cons_1 in U4 as [Ut U4]. exists (DP Up e fl a gt b d (t :: h)). splits; [len_tac| |by apply (rg_down i _ false), Hk1].
      eapply (dinv_on s g i _ _ i); try done; simpl; try (by right).
      * intros _. left. by rewrite Eq.
      * cnt_tac. rewrite Eq. cnt_tac.
      * free_tac.
  - case_match eqn:Ez; [by apply elem_of_nil in Hin|]. apply list_elem_of_singleton in Hin. injection Hin as -> ->.
    exists (DP p' e fl a gt b d h). splits; [done| |done]. apply Hnone. right. by apply Nat.eqb_neq.
Qed.

Lemma rg_takeLifo {A} i p e fl a gt b d h (k : option nat -> prog SchedulerCore A) Q :
  (i < n)%nat -> (i < W)%nat -> p <> Down ->
  (forall t, pinnedTo opt t = None -> rg R i (k (Some t)) (up i true a gt b d (t :: h)) Q) ->
  rg R i (k None) (at_ i (DP p e true a gt b d h)) Q ->
  rg R i (bind (takeLifo i) k) (at_ i (DP p e fl a gt b d h)) Q.
Proof.
  intros Hi HiW Hp Hk1 Hk2. apply rg_act; [done|]. intros s g s' x HL HI Hl Hin. apply list_elem_of_singleton in Hin. injection Hin as -> ->.
  destruct (unpinned _ g i HI HiW) as (U1 & U2 & U3 & U4). destruct (own_facts _ g i _ HI Hl HiW) as (O1 & O2 & O3 & O4). simpl in *.
  destruct (lifoSlot (wk s i)) as [t|] eqn:El.
  - apply Forall_cons_1 in U1 as [Ut _]. exists (DP Up e true a gt b d (t :: h)). splits; [len_tac| |by apply (rg_down i _ true), Hk1].
    eapply (dinv_on s g i _ _ i); try done; simpl; try (by right); try (by intros ?; left).
    + cnt_tac. rewrite El. simpl. cnt_tac.
    + free_tac.
  - exists (DP p e true a gt b d h). splits; [len_tac| |done].
    eapply (dinv_on s g i _ _ i); try done; simpl; try (by left); try (by intros ?; left).
    + cnt_tac. rewrite El. simpl. cnt_tac.
    + free_tac.
Qed.

Lemma rg_popInjection {A} i p p' e fl a gt b d h (k : option nat -> prog SchedulerCore A) Q :
  (i < n)%nat -> p <> Down -> advance Checked Down b p p' -> (p' = Down -> (i < W)%nat /\ e = true /\ fl = true /\ a = false) ->
  (forall t, pinnedTo opt t = None -> rg R i (k (Some t)) (up i false a gt b d (t :: h)) Q) ->
  rg R i (k None) (at_ i (DP p' e fl a gt b d h)) Q ->
  rg R i (bind popInjection k) (at_ i (DP p e fl a gt b d h)) Q.
Proof.
  intros Hi Hp Hadv Hdown Hk1 Hk2. apply rg_act.
  { intros s g _ _ _ E. destruct (injection s); by apply app_nil in E as [E _]. }
  intros s g s' x HL HI Hl Hin.
  assert (Hnone : injection s = [] \/ injPushing s <> 0%nat -> dinv (view_of s) (<[i := DP p' e fl a gt b d h]> g)).
  { intros Hbox. destruct Hadv as [->|(-> & -> & ->)]; [eapply dinv_same; try done; by eapply weaker_refl|].
    destruct Hdown as (HiW & -> & -> & ->); [done|].
    destruct (own_facts _ g i _ HI Hl HiW) as (O1 & O2 & O3 & O4). pose proof (di_sleep _ _ _ _ _ HI i HiW) as [_ _ _ _ A5 A6].
    eapply dinv_phase; try done; try apply HI.
    - intros _. apply A5. by rewrite Hl.
    - intros _ Hne. apply A6; [|done]. rewrite Hl. by left.
    - intros _ Hne. apply (pushing_minded _ _ HI). simpl in *. destruct Hbox; [done|lia]. }
  apply elem_of_app in Hin as [Hin|Hin].
  - destruct (injection s) as [|t q] eqn:Eq; apply list_elem_of_singleton in Hin; injection Hin as -> ->.
    + exists (DP p' e fl a gt b d h). splits; [done| |done]. apply Hnone. by left.
    + pose proof (inj_unpinned _ g HI) as U. simpl in U. rewrite Eq in U. apply Forall_cons_1 in U as [Ut U].
      exists (DP Up e fl a gt b d (t :: h)). splits; [done| |by apply (rg_down i _ false), Hk1].
      eapply (dinv_inj (view_of s) g i); try done.
      * unfold weaker. splits; try done; by right.
      * intros _. left. simpl. by rewrite Eq.
      * simpl. rewrite Eq. cnt_tac.
  - case_match eqn:Ez; [by apply elem_of_nil in Hin|]. apply list_elem_of_singleton in Hin. injection Hin as -> ->.
    exists (DP p' e fl a gt b d h). splits; [done| |done]. apply Hnone. right. by apply Nat.eqb_neq.
Qed.
(** A task that worker [i] may run. *)
Definition here (i t : nat) : Prop := pinnedTo opt t = None \/ pinnedTo opt t = Some i.

Lemma rg_takeLocal {A} i p p' e fl a gt b d h (k : option nat -> prog SchedulerCore A) Q :
  (i < n)%nat -> (i < W)%nat -> p <> Down -> p' <> Down -> advance Marked Checked b p p' ->
  (forall t, here i t -> rg R i (k (Some t)) (up i false a gt b d (t :: h)) Q) ->
  rg R i (k None) (at_ i (DP p' true true a gt b d h)) Q ->
  rg R i (bind (takeLocal i) k) (at_ i (DP p e fl a gt b d h)) Q.
Proof.
  intros Hi HiW Hp Hp' Hadv Hk1 Hk2. apply rg_bind_assoc. apply rg_act; [done|].
  intros s g s' x HL HI Hl Hin. apply list_elem_of_singleton in Hin.
  destruct (unpinned _ g i HI HiW) as (U1 & U2 & U3 & U4). destruct (own_facts _ g i _ HI Hl HiW) as (O1 & O2 & O3 & O4). cbn [relw vw view_of] in *.
  assert (Hrest : rg R i (bind (p <- local_pop i;; match p with
      | Some t => Ret (Some t)
      | None => q <- inbox_pop i;; match q with Some t => Ret (Some t) | None => takeLifo i end end) k) (at_ i (DP p e fl a gt b d h)) Q).
  { apply rg_bind_assoc, rg_local_pop; try done; [intros t Ht; apply Hk1; by left|].
    apply rg_bind_assoc, (rg_inbox_pop i p p'); try done; [intros t Ht; apply Hk1; by right|].
    apply rg_takeLifo; try done. intros t Ht. apply rg_forget, Hk1. by left. }
  assert (Hsame : (s', x) = (on_worker i (set_streak 0) s, None) -> exists l', length (workers s') = W /\ dinv (view_of s') (<[i:=l']> g) /\
    rg R i (bind (match x with Some t => Ret (Some t) | None => p <- local_pop i;; match p with
      | Some t => Ret (Some t)
      | None => q <- inbox_pop i;; match q with Some t => Ret (Some t) | None => takeLifo i end end end) k) (at_ i l') Q).
  { intros [= -> ->]. exists (DP p e fl a gt b d h). splits; [len_tac| |exact Hrest]. eapply (dinv_same (view_of s) g i); try done; [by eapply weaker_refl|].
    intros j. by apply (vw_on_same (fun x => x) W). }
  destruct (lifoSlot (wk s i)) as [t|] eqn:El; [|by apply Hsame].
  destruct ((lifoStreak (wk s i) <? 3)%nat || match local (wk s i) with [] => true | _ => false end); [|by apply Hsame]. injection Hin as -> ->. simpl in U1. rewrite El in U1. apply Forall_cons_1 in U1 as [Ut _].
  exists (DP Up e true a gt b d (t :: h)). splits; [len_tac| |apply (rg_down i _ false); [done|]; apply Hk1; by left].
  eapply (dinv_on s g i _ _ i); try done; simpl; try (by right); try (by intros ?; left).
  - cnt_tac. rewrite El. simpl. cnt_tac.
  - free_tac.
Qed.

Lemma rg_utakeLocal {A} i f0 a gt b d h (k : option nat -> prog SchedulerCore A) Q :
  (i < n)%nat -> (i < W)%nat -> (forall t, here i t -> rg R i (k (Some t)) (up i false a gt b d (t :: h)) Q) -> rg R i (k None) (up i f0 a gt b d h) Q ->
  rg R i (bind (takeLocal i) k) (up i f0 a gt b d h) Q.
Proof.
  intros Hi HiW Hk1 Hk2. apply rg_up. intros e fl Hfl. apply (rg_takeLocal i Up Up); try done; [by left|]. by apply (rg_down i _ f0).
Qed.

Lemma rg_upopInjection {A} i f0 a gt b d h (k : option nat -> prog SchedulerCore A) Q :
  (i < n)%nat -> (forall t, pinnedTo opt t = None -> rg R i (k (Some t)) (up i false a gt b d (t :: h)) Q) -> rg R i (k None) (up i f0 a gt b d h) Q ->
  rg R i (bind popInjection k) (up i f0 a gt b d h) Q.
Proof.
  intros Hi Hk1 Hk2. apply rg_up. intros e fl Hfl. apply (rg_popInjection i Up Up); try done; [by left|]. by apply (rg_down i _ f0).
Qed.
End rules.
