(* ===== verification/DispatchWake.v ===== *)
(** * Dispatch: proof rules for sleeping and waking

    The steps that mark workers idle, claim them, unpark them and let them
    sleep; searchers; gathered batches. *)

From Stdlib Require Import ZArith Lia.
From stdpp Require Import base tactics list numbers option strings functions.
From S2P Require Import Prelude Conc Sums Dispatch DispatchInv DispatchRules.

(** ** Bits *)

Lemma ctz_go_bit fuel m : 0 < m < 2 ^ Z.of_nat fuel -> Z.testbit m (Z.of_nat (ctz_go fuel m)) = true.
Proof.
  revert m. induction fuel as [|fuel IH]; intros m Hm; [simpl in Hm; lia|]. simpl. destruct (Z.odd m) eqn:Ho; [by rewrite Z.bit0_odd|].
  rewrite Nat2Z.inj_succ in Hm. rewrite Z.pow_succ_r in Hm by lia. rewrite Nat2Z.inj_succ, <- Z.div2_bits by lia.
  apply IH. rewrite <- Z.negb_even in Ho. apply negb_false_iff, Z.even_spec in Ho as [q ->]. rewrite Z.mul_comm, Z.div_mul by lia. lia.
Qed.

Lemma bit_below W m k : 0 <= m < 2 ^ Z.of_nat W -> Z.testbit m (Z.of_nat k) = true -> (k < W)%nat.
Proof.
  intros Hm Hb. destruct (decide (k < W)%nat) as [?|Hge]; [done|].
  assert (Z.testbit m (Z.of_nat k) = false); [|congruence].
  destruct (decide (m = 0)) as [->|]; [apply Z.bits_0|]. apply Z.bits_above_log2; [lia|].
  assert (Z.log2 m < Z.of_nat W) by (apply Z.log2_lt_pow2; lia). lia.
Qed.

Lemma mask_range W m : 0 <= m -> (forall k, Z.testbit m k = true -> k < Z.of_nat W) -> 0 <= m < 2 ^ Z.of_nat W.
Proof.
  intros Hm H. split; [done|]. destruct (decide (m = 0)) as [->|]; [lia|]. apply Z.log2_lt_pow2; [lia|].
  apply H. apply Z.bit_log2. lia.
Qed.

Lemma clearbit_range W m k : 0 <= m < 2 ^ Z.of_nat W -> 0 <= Z.clearbit m (Z.of_nat k) < 2 ^ Z.of_nat W.
Proof.
  intros Hm. apply mask_range.
  - rewrite Z.clearbit_spec'. apply Z.ldiff_nonneg. lia.
  - intros j Hj. rewrite Z.clearbit_eqb in Hj by lia. apply andb_true_iff in Hj as [Hj _].
    destruct (decide (0 <= j)) as [Hj0|]; [|by rewrite Z.testbit_neg_r in Hj by lia].
    rewrite <- (Z2Nat.id j) in Hj by done. apply (bit_below W) in Hj; [lia|done].
Qed.

Lemma setbit_range W m k : (k < W)%nat -> 0 <= m < 2 ^ Z.of_nat W -> 0 <= Z.setbit m (Z.of_nat k) < 2 ^ Z.of_nat W.
Proof.
  intros Hk Hm. apply mask_range.
  - rewrite Z.setbit_spec'. apply Z.lor_nonneg. split; [lia|]. apply Z.pow_nonneg. lia.
  - intros j Hj. rewrite Z.setbit_eqb in Hj by lia. apply orb_true_iff in Hj as [Hj|Hj]; [apply Z.eqb_eq in Hj; lia|].
    destruct (decide (0 <= j)) as [Hj0|]; [|by rewrite Z.testbit_neg_r in Hj by lia].
    rewrite <- (Z2Nat.id j) in Hj by done. apply (bit_below W) in Hj; [lia|done].
Qed.

Lemma clearbit_other m j k : j <> k -> Z.testbit (Z.clearbit m (Z.of_nat k)) (Z.of_nat j) = Z.testbit m (Z.of_nat j).
Proof. intros H. apply Z.clearbit_neq; lia. Qed.

(** Whom a notification picks is idle. *)
Lemma ctz_idle W m : (W <= 64)%nat -> 0 < m < 2 ^ Z.of_nat W -> Z.testbit m (Z.of_nat (ctz m)) = true /\ (ctz m < W)%nat.
Proof.
  intros HW Hm. assert (Hb : Z.testbit m (Z.of_nat (ctz m)) = true).
  { apply ctz_go_bit. split; [lia|]. eapply Z.lt_le_trans; [apply Hm|]. apply Z.pow_le_mono_r; lia. }
  split; [done|]. apply (bit_below W m); [lia|done].
Qed.

Lemma pickCandidate_idle W keeper m :
  (W <= 64)%nat -> 0 < m < 2 ^ Z.of_nat W ->
  Z.testbit m (Z.of_nat (pickCandidate keeper m)) = true /\ (pickCandidate keeper m < W)%nat.
Proof.
  intros HW Hm. unfold pickCandidate. destruct keeper as [k|]; [|by apply ctz_idle]. case_match eqn:E; [by apply ctz_idle|].
  apply Z.eqb_neq in E. pose proof (clearbit_range W m k ltac:(lia)). destruct (ctz_idle W (Z.clearbit m (Z.of_nat k))) as [Hb Hlt]; [done|lia|].
  split; [|done]. rewrite Z.clearbit_eqb in Hb by lia. by apply andb_true_iff in Hb as [Hb _].
Qed.

Section wake.
Context (opt : options) (W n : nat).
Context (HW : (1 <= W <= 64)%nat) (Hn : (W <= n)%nat).
Notation dinv := (dinv (pinnedTo opt) W n).
Notation R := (dproto opt W n).
Notation act := (rg_act opt W n).
Notation act_up := (rg_act_up opt W n).
Notation same := (dinv_same opt W n HW Hn).
Notation debt := (dinv_debt opt W n).
Notation ok := (ok_facts opt W n).

Definition owing (o : bool) : debts := Debts false o None None None.
Definition telling (k : nat) : debts := Debts false false None (Some k) None.
Definition claiming (k : nat) : debts := Debts false false None None (Some k).

(** ** Paying without telling anybody *)

(** Somebody else will look anyway. *)
Lemma minded_first v g i l l' :
  (i < n)%nat -> g i = l -> ph l' = ph l -> claim (db l') = claim (db l) ->
  (exists j, (j < W)%nat /\ (ph (g j) <> Down \/ woken n v g j)) -> minded W n v (<[i := l']> g).
Proof.
  intros Hi Hl Hp Hc (j & Hj & Hor). left. exists j. split; [done|]. destruct Hor as [Hph|[Hpk|Hcl]].
  - left. destruct (decide (j = i)) as [->|]; [rewrite fn_lookup_insert; congruence|by rewrite fn_lookup_insert_ne].
  - right. by left.
  - right. right. eapply some_keep; [exact Hl| |exact Hcl]. by rewrite Hc.
Qed.

Lemma dinv_pay_inj v g i e fl a gt b ow h :
  (i < n)%nat -> g i = DP Up e fl a gt b (owing ow) h -> dinv v g ->
  (exists j, (j < W)%nat /\ (ph (g j) <> Down \/ woken n v g j)) ->
  dinv v (<[i := DP Up e fl a gt b nodebt h]> g).
Proof.
  intros Hi Hl HI Hm. destruct (ok _ _ _ _ HI Hi Hl) as (K1 & K2 & K3 & K4 & K5).
  eapply debt; try done.
  - eapply (numbers_step W n v g); try done; [apply HI|apply HI].
  - intros _. right. by eapply minded_first.
Qed.

(** A searcher is up. *)
Lemma searcher_minds v g : dinv v g -> 0 < vsearch v -> exists j, (j < W)%nat /\ (ph (g j) <> Down \/ woken n v g j).
Proof.
  intros [_ _ (Hs & _ & _ & Hok & _) _ _] Hp. rewrite Hs in Hp. destruct (total_pos n (fun l => b2n (sr l)) g) as (j & Hj & Hpos); [lia|].
  destruct (Hok j Hj) as (K & _). destruct (sr (g j)) eqn:E; [|simpl in Hpos; lia]. destruct (K eq_refl) as [Hu HjW]. exists j.
  split; [done|]. left. by rewrite Hu.
Qed.

(** No idle bit: the first worker is up or woken. *)
Lemma no_idle_minds v g : dinv v g -> vmask v = 0 -> exists j, (j < W)%nat /\ (ph (g j) <> Down \/ woken n v g j).
Proof.
  intros HI Hz. exists 0%nat. split; [lia|]. destruct (decide (ph (g 0%nat) = Up)) as [->|Hne]; [by left|].
  destruct (as_bit _ _ _ _ (di_sleep _ _ _ _ _ HI 0%nat ltac:(lia)) Hne) as [Hb|Hw]; [|by right]. by rewrite Hz, Z.bits_0 in Hb.
Qed.

(** ** Notifications *)

Lemma rg_load_searching {A} i f0 a gt b ow h (k : Z -> prog SchedulerCore A) Q :
  (i < n)%nat -> (forall x, 0 < x -> rg R i (k x) (up i f0 a gt b nodebt h) Q) -> (forall x, x <= 0 -> rg R i (k x) (up i f0 a gt b (owing ow) h) Q) ->
  rg R i (bind (load searching) k) (up i f0 a gt b (owing ow) h) Q.
Proof.
  intros Hi Hk1 Hk2. apply act_up; [done|]. intros s g s' x e fl HL HI Hl Hfl Hin. apply list_elem_of_singleton in Hin. injection Hin as -> ->.
  destruct (decide (0 < searching s)) as [Hp|Hp].
  - exists e, fl, a, gt, b, nodebt, h. splits; [done| |done|by apply Hk1]. eapply dinv_pay_inj; try done. by apply (searcher_minds (view_of s)).
  - exists e, fl, a, gt, b, (owing ow), h. splits; [done| |done|apply Hk2; lia]. eapply same; try done. by eapply weaker_refl.
Qed.

Lemma rg_load_idle {A} i f0 a gt b ow h (k : Z -> prog SchedulerCore A) Q :
  (i < n)%nat -> rg R i (k 0) (up i f0 a gt b nodebt h) Q -> (forall x, 0 < x < 2 ^ Z.of_nat W -> rg R i (k x) (up i f0 a gt b (owing ow) h) Q) ->
  rg R i (bind (load idleMask) k) (up i f0 a gt b (owing ow) h) Q.
Proof.
  intros Hi Hk1 Hk2. apply act_up; [done|]. intros s g s' x e fl HL HI Hl Hfl Hin. apply list_elem_of_singleton in Hin. injection Hin as -> ->.
  destruct (decide (idleMask s = 0)) as [Hz|Hz].
  - rewrite Hz. exists e, fl, a, gt, b, nodebt, h. splits; [done| |done|by apply Hk1]. eapply dinv_pay_inj; try done. by apply (no_idle_minds (view_of s)).
  - exists e, fl, a, gt, b, (owing ow), h. splits; [done| |done|].
    + eapply same; try done. by eapply weaker_refl.
    + apply Hk2. pose proof (di_num _ _ _ _ _ HI) as (_ & _ & _ & _ & Hr). simpl in Hr. lia.
Qed.

(** An idle bit is taken: the worker is claimed. *)
Lemma dinv_claim s g i e fl a gt b d h m :
  (i < n)%nat -> (m < W)%nat -> g i = DP Up e fl a gt b d h -> midI d = false -> midP d = None -> claim d = None ->
  (forall k, owesP d = Some k -> k = m) ->
  dinv (view_of s) g ->
  dinv (view_of (set_idleMask (Z.clearbit (idleMask s) (Z.of_nat m)) s)) (<[i := DP Up e fl a gt b (claiming m) h]> g).
Proof.
  intros Hi Hm Hl Hd1 Hd2 Hd3 Hd4 HI. destruct (ok _ _ _ _ HI Hi Hl) as (K1 & K2 & K3 & K4 & K5).
  assert (Hwk : woken n (view_of (set_idleMask (Z.clearbit (idleMask s) (Z.of_nat m)) s)) (<[i := DP Up e fl a gt b (claiming m) h]> g) m).
  { right. exists i. split; [done|]. rewrite fn_lookup_insert. by apply bool_decide_eq_true. }
  eapply (dinv_signal _ _ _ (view_of s) g i); try done; try (by left).
  - intros j Hj. case_decide as Eji; [subst j|done]. by apply (own_facts opt W n (view_of s) g i _ HI Hl).
  - eapply (numbers_step W n (view_of s) g); try done.
    + apply HI.
    + split; [done|]. split; [done|]. split; [done|]. split; [by intros k [= <-]|done].
    + simpl. by rewrite Hd1.
    + intros j Hj. simpl. by rewrite !midAt_miss by (simpl; congruence).
    + apply clearbit_range. apply HI.
  - intros j Hj E. left. by left.
  - simpl. by rewrite Hd3.
  - intros j Hj Hb. destruct (decide (j = m)) as [->|Hne]; [right; by left|]. left. simpl. by rewrite clearbit_other.
  - intros j Hj E. right. left. simpl in E. by rewrite (Hd4 j E).
  - intros _. right. left. exists m. split; [done|]. by right.
Qed.

(** *** Unparking *)

Lemma rg_parker_unpark {A} i f0 a gt b d m h (k : unit -> prog SchedulerCore A) Q :
  (i < n)%nat -> (m < W)%nat -> (d = nodebt \/ d = claiming m) ->
  rg R i (k tt) (up i f0 a gt b nodebt h) Q -> rg R i (bind (parker_unpark m) k) (up i f0 a gt b d h) Q.
Proof.
  intros Hi Hm Hd Hk. apply act_up; [done|]. intros s g s' x e fl HL HI Hl Hfl Hin. apply list_elem_of_singleton in Hin. injection Hin as -> ->.
  destruct (ok _ _ _ _ HI Hi Hl) as (K1 & K2 & K3 & K4 & K5).
  exists e, fl, a, gt, b, nodebt, h. splits; [len_tac| |done|done].
  assert (Hpk : forall j, (j < W)%nat -> vparker (vw (view_of s) j) = true -> vparker (vw (view_of (on_worker m (set_parker true) s)) j) = true).
  { intros j Hj E. rewrite (vw_on W) by done. destruct (decide (j = m)) as [->|]; [by rewrite fn_lookup_insert|by rewrite fn_lookup_insert_ne]. }
  assert (Hm' : vparker (vw (view_of (on_worker m (set_parker true) s)) m) = true) by (rewrite (vw_on W) by done; by rewrite fn_lookup_insert).
  eapply (dinv_signal _ _ _ (view_of s) g i); try done; try (by left).
  - intros j. splits; by apply (vw_on_same _ W).
  - intros j Hj. rewrite (vw_on_same vgathering W) by done. case_decide as Eji; [subst j|done]. by apply (own_facts opt W n (view_of s) g i _ HI Hl).
  - eapply (numbers_step W n (view_of s) g); try done.
    + apply HI.
    + destruct Hd as [-> | ->]; simpl; lia.
    + intros j Hj. rewrite (vw_on_same vpushing W) by done. destruct Hd as [-> | ->]; by rewrite !midAt_miss.
    + apply HI.
  - intros j Hj E. left. left. by apply Hpk.
  - intros j E. destruct Hd as [-> | ->]; [done|]. injection E as <-. left. by left.
  - intros j Hj E. by destruct Hd as [-> | ->].
  - intros E. by destruct Hd as [-> | ->].
Qed.

Lemma rg_unparkWorker {A} i f0 a gt b d m h (k : unit -> prog SchedulerCore A) Q :
  (i < n)%nat -> (m < W)%nat -> (d = nodebt \/ d = claiming m) ->
  rg R i (k tt) (up i f0 a gt b nodebt h) Q -> rg R i (bind (unparkWorker opt m) k) (up i f0 a gt b d h) Q.
Proof.
  intros Hi Hm Hd Hk. apply rg_bind_assoc.
  assert (Hp : rg R i (bind (parker_unpark m) k) (up i f0 a gt b d h) Q) by by apply rg_parker_unpark.
  destruct (hasDriver opt); [|exact Hp]. apply rg_bind_assoc, (rg_uread opt W n HW Hn); [done|]. intros x.
  case_bool_decide; [|exact Hp]. apply (rg_usilent opt W n HW Hn); [done|by intros|exact Hp].
Qed.

Lemma rg_handOffTo {A} i f0 a gt b me m h (k : unit -> prog SchedulerCore A) Q :
  (i < n)%nat -> (m < W)%nat ->
  rg R i (k tt) (up i f0 a gt b nodebt h) Q -> rg R i (bind (handOffTo opt me m) k) (up i f0 a gt b (claiming m) h) Q.
Proof.
  intros Hi Hm Hk. apply rg_bind_assoc. destruct me; [apply (rg_ufield opt W n HW Hn); [done|done|]|]; (apply rg_unparkWorker; [done|done|by right|done]).
Qed.
Lemma rg_notify_loop {A} fuel i f0 a gt b ow me mask h (k : unit -> prog SchedulerCore A) Q :
  (i < n)%nat -> 0 < mask < 2 ^ Z.of_nat W -> rg R i (k tt) (up i f0 a gt b nodebt h) Q ->
  rg R i (bind (notify_loop opt fuel me mask) k) (up i f0 a gt b (owing ow) h) Q.
Proof.
  intros Hi Hmask Hk. revert mask Hmask. induction fuel as [|fuel IH]; intros mask Hmask; [done|]. cbn [notify_loop].
  destruct (mask =? 0) eqn:Ez; [apply Z.eqb_eq in Ez; lia|]. apply rg_bind_assoc, (rg_uread opt W n HW Hn); [done|]. intros keeper.
  destruct (pickCandidate_idle W keeper mask) as [Hb HmW]; [lia|done|]. set (m := pickCandidate keeper mask) in *.
  apply rg_bind_assoc. apply act_up; [intros s; by case_decide|]. intros s g s' x e fl HL HI Hl Hfl Hin.
  assert (Hfail : (s', x) = (s, (false, idleMask s)) -> exists e' f' a' gt' b' d' h', length (workers s') = W /\
    dinv (view_of s') (<[i := DP Up e' f' a' gt' b' d' h']> g) /\ (f0 = true -> f' = true) /\
    rg R i (bind (if x.1 : bool then handOffTo opt me m else notify_loop opt fuel me x.2) k) (up i f0 a' gt' b' d' h') Q).
  { intros [= -> ->]. destruct (decide (idleMask s = 0)) as [Hz|Hz].
    - exists e, fl, a, gt, b, nodebt, h. splits; [done| |done|].
      + eapply dinv_pay_inj; try done. by apply (no_idle_minds (view_of s)).
      + rewrite Hz. by destruct fuel.
    - exists e, fl, a, gt, b, (owing ow), h. splits; [done| |done|].
      + eapply same; try done. by eapply weaker_refl.
      + apply (IH (idleMask s)). pose proof (di_num _ _ _ _ _ HI) as (_ & _ & _ & _ & Hr). simpl in Hr. lia. }
  case_decide as Em; [|apply Hfail; by apply list_elem_of_singleton in Hin].
  apply elem_of_cons in Hin as [Hin|Hin]; [|apply Hfail; by apply list_elem_of_singleton in Hin]. injection Hin as -> ->.
  exists e, fl, a, gt, b, (claiming m), h. splits; [done| |done|by apply rg_handOffTo].
  rewrite <- Em. by eapply dinv_claim.
Qed.

Lemma rg_notifyIdleWorker {A} fuel i f0 a gt b ow me h (k : unit -> prog SchedulerCore A) Q :
  (i < n)%nat -> rg R i (k tt) (up i f0 a gt b nodebt h) Q ->
  rg R i (bind (notifyIdleWorker opt fuel me) k) (up i f0 a gt b (owing ow) h) Q.
Proof.
  intros Hi Hk. apply rg_bind_assoc, rg_load_searching; [done| |].
  - intros x Hx. destruct (0 <? x) eqn:E; [exact Hk|apply Z.ltb_ge in E; lia].
  - intros x Hx. destruct (0 <? x) eqn:E; [apply Z.ltb_lt in E; lia|]. apply rg_bind_assoc, rg_load_idle; [done| |].
    + destruct fuel; [done|]. exact Hk.
    + intros m Hm. by apply rg_notify_loop.
Qed.

(** The worker's own bit. *)
Lemma rg_clearIdle_own {A} i f0 a gt b d h (k : bool -> prog SchedulerCore A) Q :
  (i < n)%nat -> (i < W)%nat -> (forall x, rg R i (k x) (up i f0 a gt b d h) Q) -> rg R i (bind (clearIdle i) k) (up i f0 a gt b d h) Q.
Proof.
  intros Hi HiW Hk. apply act_up; [done|]. intros s g s' x e fl HL HI Hl Hfl Hin. apply list_elem_of_singleton in Hin. injection Hin as -> ->.
  pose proof (ok _ _ _ _ HI Hi Hl) as Hok. exists e, fl, a, gt, b, d, h. splits; [done| |done|apply Hk].
  eapply (dinv_signal _ _ _ (view_of s) g i); try done; try (by left).
  - intros j Hj. case_decide as Eji; [subst j|done]. by apply (own_facts opt W n (view_of s) g i _ HI Hl).
  - eapply (numbers_step W n (view_of s) g); try done; [apply HI|]. apply clearbit_range. apply HI.
  - intros j Hj E. left. by left.
  - intros j E. left. right. exists i. split; [done|]. rewrite fn_lookup_insert. by apply bool_decide_eq_true.
  - intros j Hj Hb. destruct (decide (j = i)) as [->|Hne]; [by right; right|]. left. simpl. by rewrite clearbit_other.
Qed.

Lemma rg_notifyWorker {A} i f0 a gt b me m h (k : unit -> prog SchedulerCore A) Q :
  (i < n)%nat -> (m < W)%nat -> rg R i (k tt) (up i f0 a gt b nodebt h) Q ->
  rg R i (bind (notifyWorker opt me m) k) (up i f0 a gt b (telling m) h) Q.
Proof.
  intros Hi Hm Hk. apply rg_bind_assoc. apply act_up; [done|]. intros s g s' x e fl HL HI Hl Hfl Hin.
  apply list_elem_of_singleton in Hin. injection Hin as -> ->.
  destruct (Z.testbit (idleMask s) (Z.of_nat m)) eqn:Eb.
  - exists e, fl, a, gt, b, (claiming m), h. splits; [done| |done|by apply rg_handOffTo].
    eapply dinv_claim; try done. by intros j [= <-].
  - assert (Hid : Z.clearbit (idleMask s) (Z.of_nat m) = idleMask s).
    { apply Z.bits_inj'. intros j Hj. rewrite Z.clearbit_eqb by lia. destruct (Z.of_nat m =? j) eqn:E; simpl; [|by rewrite andb_true_r].
      apply Z.eqb_eq in E. subst j. by rewrite Eb. }
    pose proof (ok _ _ _ _ HI Hi Hl) as (K1 & K2 & K3 & K4 & K5).
    exists e, fl, a, gt, b, nodebt, h. splits; [done| |done|exact Hk].
    eapply debt; try done.
    + eapply (numbers_step W n (view_of s) g); try done; [apply HI|]. simpl. rewrite Hid. apply HI.
    + intros j Hj [= <-]. right. destruct (decide (m = i)) as [->|Hmi]; [right; left; by rewrite fn_lookup_insert|].
      destruct (decide (ph (g m) = Up)) as [Hu|Hu]; [right; left; by rewrite fn_lookup_insert_ne|].
      destruct (as_bit _ _ _ _ (di_sleep _ _ _ _ _ HI m Hm) Hu) as [Hb|[Hp|Hc]]; [simpl in Hb; congruence|by left; left|].
      left. right. eapply some_keep; [exact Hl| |exact Hc]. done.
Qed.
(** ** Going to sleep and waking up *)

Lemma rg_markIdle {A} i f0 a gt d h (k : unit -> prog SchedulerCore A) Q :
  (i < n)%nat -> (i < W)%nat -> (forall e f, rg R i (k tt) (at_ i (DP Marked e f a gt false d h)) Q) ->
  rg R i (bind (markIdle i) k) (up i f0 a gt false d h) Q.
Proof.
  intros Hi HiW Hk. apply rg_up. intros e fl Hfl. apply act; [done|]. intros s g s' x HL HI Hl Hin.
  apply list_elem_of_singleton in Hin. injection Hin as -> ->. exists (DP Marked e fl a gt false d h). splits; [done| |apply Hk].
  destruct (own_facts opt W n _ _ _ _ HI Hl HiW) as (O1 & O2 & O3 & O4).
  eapply (dinv_phase _ _ _ (view_of s) g i); try done; simpl.
  - intros m Hb. rewrite Z.setbit_eqb by lia. rewrite Hb. apply orb_true_r.
  - apply setbit_range; [done|]. apply HI.
  - intros _. left. apply Z.setbit_eq. lia.
  - by intros [|].
Qed.

Lemma dinv_take_token s g i p e f a a' gt b d h :
  (a' = false -> a = false) ->
  (i < n)%nat -> (i < W)%nat -> length (workers s) = W -> g i = DP p e f a gt b d h -> dinv (view_of s) g ->
  dinv (view_of (on_worker i (set_parker false) s)) (<[i := DP Up e f a' gt b d h]> g).
Proof.
  intros Ha Hi HiW HL Hl HI. pose proof (ok _ _ _ _ HI Hi Hl) as (K1 & K2 & K3 & K4 & K5).
  eapply (dinv_signal _ _ _ (view_of s) g i); try done; try (by right).
  - intros j. splits; by apply (vw_on_same _ W).
  - intros j Hj. rewrite (vw_on_same vgathering W) by done. case_decide as Eji; [subst j|done]. by apply (own_facts opt W n (view_of s) g i _ HI Hl).
  - eapply (numbers_step W n (view_of s) g); try done.
    + apply HI.
    + intros j Hj. by rewrite (vw_on_same vpushing W).
    + apply HI.
  - intros j Hj E. destruct (decide (j = i)) as [->|Hne]; [by right|]. left. left. rewrite (vw_on W) by done. by rewrite fn_lookup_insert_ne.
  - intros j E. left. right. exists i. split; [done|]. rewrite fn_lookup_insert. by apply bool_decide_eq_true.
  - intros j Hj E. by left.
  - intros j Hj E. by left.
  - intros E. by left.
Qed.

Lemma rg_parkFor {A} i p e f a a' gt b d h (k : unit -> prog SchedulerCore A) Q :
  (i < n)%nat -> (i < W)%nat -> (a' = false -> a = false) -> rg R i (k tt) (up i false a' gt b d h) Q ->
  rg R i (bind (parker_parkFor i) k) (at_ i (DP p e f a gt b d h)) Q.
Proof.
  intros Hi HiW Ha Hk. apply act; [done|]. intros s g s' x HL HI Hl Hin. apply list_elem_of_singleton in Hin. injection Hin as -> ->.
  exists (DP Up e f a' gt b d h). splits; [len_tac| |by apply (rg_down opt W n i _ false)]. by eapply dinv_take_token.
Qed.

(** The only place where a worker waits for others. *)
Lemma rg_parker_park {A} i e f a a' gt (k : unit -> prog SchedulerCore A) Q :
  (i < n)%nat -> (i < W)%nat -> (a' = false -> a = false) -> rg R i (k tt) (up i false a' gt false nodebt []) Q ->
  rg R i (bind (parker_park i) k) (at_ i (DP Down e f a gt false nodebt [])) Q.
Proof.
  intros Hi HiW Ha Hk. apply act.
  - intros s g HL HI Hl E. right. rewrite Hl. splits; try done. by destruct (parker (wk s i)).
  - intros s g s' x HL HI Hl Hin. destruct (parker (wk s i)); [|by apply elem_of_nil in Hin].
    apply list_elem_of_singleton in Hin. injection Hin as -> ->.
    exists (DP Up e f a' gt false nodebt []). splits; [len_tac| |by apply (rg_down opt W n i _ false)]. by eapply dinv_take_token.
Qed.

Lemma rg_driver_wait {A} i p e f a a' gt b d h timed (k : list nat -> prog SchedulerCore A) Q :
  (i < n)%nat -> hasDriver opt = true -> (a' = false -> a = false) -> (forall l, rg R i (k l) (up i false a' gt b d h) Q) ->
  rg R i (bind (driver_wait timed) k) (at_ i (DP p e f a gt b d h)) Q.
Proof.
  intros Hi Hd Ha Hk. apply act; [intros s g _ _ _ _; by left|]. intros s g s' x HL HI Hl Hin.
  exists (DP Up e f a' gt b d h).
  assert (Hs : length (workers s') = W /\ view_of s' = view_of s).
  { apply elem_of_app in Hin as [Hin|Hin]; [|apply elem_of_app in Hin as [Hin|Hin]].
    - destruct (driverWoken s); [|by apply elem_of_nil in Hin]. apply list_elem_of_singleton in Hin. by injection Hin as -> ->.
    - destruct (ioReady s); [by apply elem_of_nil in Hin|]. apply list_elem_of_singleton in Hin. by injection Hin as -> ->.
    - destruct timed; [|by apply elem_of_nil in Hin]. apply list_elem_of_singleton in Hin. by injection Hin as -> ->. }
  destruct Hs as [HL' ->]. splits; [done| |by apply (rg_down opt W n i _ false)].
  eapply same; try done. unfold weaker. splits; try done. by right.
Qed.

(** ** Searchers *)

Lemma dinv_search s g i e f a gt b b' d h :
  (i < n)%nat -> (i < W)%nat -> g i = DP Up e f a gt b d h -> dinv (view_of s) g ->
  dinv (view_of (set_searching (searching s + Z.of_nat (b2n b') - Z.of_nat (b2n b)) s)) (<[i := DP Up e f a gt b' d h]> g).
Proof.
  intros Hi HiW Hl HI. pose proof (ok _ _ _ _ HI Hi Hl) as (K1 & K2 & K3 & K4 & K5).
  eapply debt; try done.
  - eapply (numbers_step W n (view_of s) g); try done; [apply HI|simpl; lia|apply HI].
  - intros j Hj E. by left.
  - intros E. by left.
Qed.

Lemma rg_join_search {A} fuel i f0 a gt d h limit current (k : bool -> prog SchedulerCore A) Q :
  (i < n)%nat -> (i < W)%nat -> (forall b, rg R i (k b) (up i f0 a gt b d h) Q) ->
  rg R i (bind (join_search fuel limit current) k) (up i f0 a gt false d h) Q.
Proof.
  intros Hi HiW Hk. revert current. induction fuel as [|fuel IH]; intros current; [done|]. cbn [join_search].
  destruct (current <? limit); [|exact (Hk false)].
  apply rg_bind_assoc. apply act_up; [intros s; by case_decide|]. intros s g s' x e fl HL HI Hl Hfl Hin.
  assert (Hfail : (s', x) = (s, (false, searching s)) -> exists e' f' a' gt' b' d' h', length (workers s') = W /\
    dinv (view_of s') (<[i := DP Up e' f' a' gt' b' d' h']> g) /\ (f0 = true -> f' = true) /\
    rg R i (bind (if x.1 : bool then Ret true else join_search fuel limit x.2) k) (up i f0 a' gt' b' d' h') Q).
  { intros [= -> ->]. exists e, fl, a, gt, false, d, h. splits; [done| |done|exact (IH (searching s))].
    eapply same; try done. by eapply weaker_refl. }
  case_decide as Em; [|apply Hfail; by apply list_elem_of_singleton in Hin].
  apply elem_of_cons in Hin as [Hin|Hin]; [|apply Hfail; by apply list_elem_of_singleton in Hin]. injection Hin as -> ->.
  exists e, fl, a, gt, true, d, h. splits; [done| |done|exact (Hk true)].
  pose proof (dinv_search s g i e fl a gt false true d h Hi HiW Hl HI) as H. simpl in H. rewrite Z.sub_0_r in H. by rewrite <- Em.
Qed.

Lemma rg_leave_search {A} i f0 a gt d h (k : Z -> prog SchedulerCore A) Q :
  (i < n)%nat -> (i < W)%nat -> (forall x, rg R i (k x) (up i f0 a gt false d h) Q) ->
  rg R i (bind leave_search k) (up i f0 a gt true d h) Q.
Proof.
  intros Hi HiW Hk. apply act_up; [done|]. intros s g s' x e fl HL HI Hl Hfl Hin. apply list_elem_of_singleton in Hin. injection Hin as -> ->.
  exists e, fl, a, gt, false, d, h. splits; [done| |done|apply Hk].
  pose proof (dinv_search s g i e fl a gt true false d h Hi HiW Hl HI) as H. simpl in H. rewrite Z.add_0_r in H. done.
Qed.
(** ** The worker's own slot and batch *)

Lemma rg_set_gathering {A} i p e f a a' gt gt' b d h (k : unit -> prog SchedulerCore A) Q :
  (i < n)%nat -> (i < W)%nat -> (a' = false -> a = false) -> (p = Down -> a' = a) -> rg R i (k tt) (at_ i (DP p e f a' gt' b d h)) Q ->
  rg R i (bind (store (on_worker i (set_gathering gt'))) k) (at_ i (DP p e f a gt b d h)) Q.
Proof.
  intros Hi HiW Ha Hp Hk. apply act; [done|]. intros s g s' x HL HI Hl Hin. apply list_elem_of_singleton in Hin. injection Hin as -> ->.
  destruct (unpinned opt W n _ g i HI HiW) as (U1 & U2 & U3 & U4). destruct (own_facts opt W n _ g i _ HI Hl HiW) as (O1 & O2 & O3 & O4).
  pose proof (ok _ _ _ _ HI Hi Hl) as (_ & _ & _ & _ & K5). simpl in *.
  exists (DP p e f a' gt' b d h). splits; [len_tac| |exact Hk].
  eapply (dinv_on opt W n HW Hn s g i _ _ i); try done; simpl; try (by left); try (by intros ?; left).
  - intros E. rewrite (Hp E). auto.
  - free_tac.
  - intros _. splits; auto.
Qed.

Lemma rg_load_gathering {A} i f0 a gt b d h (k : bool -> prog SchedulerCore A) Q :
  (i < n)%nat -> (i < W)%nat -> rg R i (k gt) (up i f0 a gt b d h) Q ->
  rg R i (bind (load (fun s => gathering (wk s i))) k) (up i f0 a gt b d h) Q.
Proof.
  intros Hi HiW Hk. apply act_up; [done|]. intros s g s' x e fl HL HI Hl Hfl Hin. apply list_elem_of_singleton in Hin. injection Hin as -> ->.
  destruct (own_facts opt W n _ g i _ HI Hl HiW) as (_ & _ & _ & O4). simpl in O4. rewrite O4.
  exists e, fl, a, gt, b, d, h. splits; [done| |done|done]. eapply same; try done. by eapply weaker_refl.
Qed.

Lemma rg_gather {A} i f0 a gt b d t h (k : unit -> prog SchedulerCore A) Q :
  (i < n)%nat -> (i < W)%nat -> pinnedTo opt t = None -> rg R i (k tt) (up i f0 true gt b d h) Q ->
  rg R i (bind (gather i t) k) (up i f0 a gt b d (t :: h)) Q.
Proof.
  intros Hi HiW Ht Hk. apply act_up; [done|]. intros s g s' x e fl HL HI Hl Hfl Hin. apply list_elem_of_singleton in Hin. injection Hin as -> ->.
  destruct (unpinned opt W n _ g i HI HiW) as (U1 & U2 & U3 & U4). destruct (own_facts opt W n _ g i _ HI Hl HiW) as (O1 & O2 & O3 & O4).
  exists e, fl, true, gt, b, d, h. splits; [len_tac| |done|done].
  eapply (dinv_on opt W n HW Hn s g i _ _ i); try done; try (by left); try (by intros ?; left); [cnt_tac|free_tac].
Qed.

Lemma rg_take_batch {A} i f0 a gt b d h (k : list nat -> prog SchedulerCore A) Q :
  (i < n)%nat -> (i < W)%nat ->
  (forall l, Forall (fun t => pinnedTo opt t = None) l -> exists h', (forall t, cnt t h' = cnt t (l ++ h)) /\ rg R i (k l) (up i f0 false gt b d h') Q) ->
  rg R i (bind (rmw (fun s => (on_worker i (set_gathered []) s, gathered (wk s i)))) k) (up i f0 a gt b d h) Q.
Proof.
  intros Hi HiW Hk. apply act_up; [done|]. intros s g s' x e fl HL HI Hl Hfl Hin. apply list_elem_of_singleton in Hin. injection Hin as -> ->.
  destruct (unpinned opt W n _ g i HI HiW) as (U1 & U2 & U3 & U4). destruct (own_facts opt W n _ g i _ HI Hl HiW) as (O1 & O2 & O3 & O4).
  destruct (Hk (gathered (wk s i)) U3) as (h' & Hh & Hrg).
  exists e, fl, false, gt, b, d, h'. splits; [len_tac| |done|done].
  eapply (dinv_on opt W n HW Hn s g i _ _ i); try done; try (by left); try (by intros ?; left); [|free_tac].
  intros u. specialize (Hh u). unfold held, free_of. simpl. rewrite Hh. cnt_tac.
Qed.

Lemma rg_set_lifo {A} i a gt b d t h (k : unit -> prog SchedulerCore A) Q :
  (i < n)%nat -> (i < W)%nat -> pinnedTo opt t = None -> rg R i (k tt) (up i false a gt b d h) Q ->
  rg R i (bind (store (on_worker i (set_lifo (Some t)))) k) (up i true a gt b d (t :: h)) Q.
Proof.
  intros Hi HiW Ht Hk. apply rg_up. intros e fl Hfl. rewrite (Hfl eq_refl). apply act; [done|].
  intros s g s' x HL HI Hl Hin. apply list_elem_of_singleton in Hin. injection Hin as -> ->.
  destruct (unpinned opt W n _ g i HI HiW) as (U1 & U2 & U3 & U4). destruct (own_facts opt W n _ g i _ HI Hl HiW) as (O1 & O2 & O3 & O4).
  exists (DP Up e false a gt b d h). splits; [len_tac| |by apply (rg_down opt W n i _ false)].
  eapply (dinv_on opt W n HW Hn s g i _ _ i); try done; try (by left); try (by intros ?; left).
  - intros u. specialize (O2 eq_refl). simpl in O2. unfold held, free_of. simpl. rewrite O2. simpl. cnt_tac. cnt_tac.
  - unfold free_of. simpl. constructor; [done|]. by apply Forall_app.
Qed.

(** ** The logs *)

Lemma dinv_logs v g i l l' v' :
  (i < n)%nat -> g i = l -> dinv v g -> weaker (DP (ph l) (emp l) (lif l) (gat l) (gth l) (sr l) (db l) (hand l')) l' ->
  (forall j, vw v' j = vw v j) -> vinj v' = vinj v -> vinjp v' = vinjp v -> vmask v' = vmask v -> vsearch v' = vsearch v ->
  (forall t, cnt t (vdis v') + cnt t (hand l') + cnt t (vsch v) = cnt t (vdis v) + cnt t (hand l) + cnt t (vsch v'))%nat ->
  dinv v' (<[i := l']> g).
Proof.
  intros Hi Hl HI (W1 & W2 & W3 & W4 & W5 & W6 & W7 & W8 & W9) Hw E1 E2 E3 E4 Hcnt. cbn in *.
  pose proof (di_place _ _ _ _ _ HI) as [P1 P2]. destruct (P2 0%nat ltac:(lia)) as [P3 P4].
  assert (Hid : forall j, <[0%nat := vw v 0]> (vw v) j = vw v j) by (intros j; by apply insert_same_fn).
  eapply (dinv_move _ _ _ v g i l l' v' 0 (vw v 0)); try done; try lia; try (by intros ?; left).
  - intros j. by rewrite Hid.
  - rewrite E1. by left.
  - intros t. specialize (Hcnt t). rewrite E1. lia.
  - by rewrite E1.
  - intros HiW. rewrite !Hid. destruct (own_facts opt W n v g i l HI Hl HiW) as (O1 & O2 & O3 & O4). rewrite W4. splits; auto.
Qed.

Lemma rg_log_scheduled {A} i f0 a gt b d t h (k : unit -> prog SchedulerCore A) Q :
  (i < n)%nat -> rg R i (k tt) (up i f0 a gt b d (t :: h)) Q -> rg R i (bind (log_scheduled t) k) (up i f0 a gt b d h) Q.
Proof.
  intros Hi Hk. apply act_up; [done|]. intros s g s' x e fl HL HI Hl Hfl Hin. apply list_elem_of_singleton in Hin. injection Hin as -> ->.
  exists e, fl, a, gt, b, d, (t :: h). splits; [done| |done|done]. eapply (dinv_logs (view_of s) g i); try done.
  - unfold weaker. splits; try done; by left.
  - simpl. cnt_tac.
Qed.

Lemma rg_log_dispatched {A} i f0 a gt b d t h (k : nat -> prog SchedulerCore A) Q :
  (i < n)%nat -> (forall x, rg R i (k x) (up i f0 a gt b d h) Q) -> rg R i (bind (log_dispatched t) k) (up i f0 a gt b d (t :: h)) Q.
Proof.
  intros Hi Hk. apply act_up; [done|]. intros s g s' x e fl HL HI Hl Hfl Hin. apply list_elem_of_singleton in Hin. injection Hin as -> ->.
  exists e, fl, a, gt, b, d, h. splits; [done| |done|apply Hk]. eapply (dinv_logs (view_of s) g i); try done.
  - unfold weaker. splits; try done; by left.
  - simpl. cnt_tac.
Qed.
(** ** Steps that the argument does not see *)

Definition unseen (s s' : SchedulerCore) : Prop :=
  length (workers s') = length (workers s) /\ (forall j, relw (wk s' j) = relw (wk s j)) /\ injection s' = injection s /\ injPushing s' = injPushing s /\
  idleMask s' = idleMask s /\ searching s' = searching s /\ scheduled s' = scheduled s /\ dispatched s' = dispatched s.

Lemma unseen_refl s : unseen s s.
Proof. done. Qed.

Lemma unseen_on i f s : length (workers s) = W -> (forall w, relw (f w) = relw w) -> unseen s (on_worker i f s).
Proof. intros HL Hf. unfold unseen. splits; try done; [by rewrite length_on|]. intros j. by eapply (relw_on W n). Qed.

Lemma unseen_beyond i f s : length (workers s) = W -> (W <= i)%nat -> unseen s (on_worker i f s).
Proof.
  intros HL Hi. assert (on_worker i f s = s) as ->; [|done]. unfold on_worker.
  replace (alter f i (workers s)) with (workers s); [by destruct s|]. apply list_eq. intros j.
  destruct (decide (j = i)) as [->|]; [|by rewrite list_lookup_alter_ne]. rewrite list_lookup_alter_eq. by rewrite lookup_ge_None_2 by lia.
Qed.

Lemma rg_unseen {A X} i l (f : SchedulerCore -> list (SchedulerCore * X)) (k : X -> prog SchedulerCore A) Q :
  (i < n)%nat -> (forall s, f s <> []) -> (forall s s' x, length (workers s) = W -> (s', x) ∈ f s -> unseen s s') ->
  (forall x, rg R i (k x) (at_ i l) Q) -> rg R i (Act X f k) (at_ i l) Q.
Proof.
  intros Hi Hne Hf Hk. apply act; [intros s g _ _ _ E; by destruct (Hne s)|]. intros s g s' x HL HI Hl Hin.
  destruct (Hf s s' x HL Hin) as (E1 & E2 & E3 & E4 & E5 & E6 & E7 & E8).
  exists l. splits; [congruence| |apply Hk]. eapply same; try done. by eapply weaker_refl.
Qed.

Lemma rg_uunseen {A X} i f0 a gt b d h (f : SchedulerCore -> list (SchedulerCore * X)) (k : X -> prog SchedulerCore A) Q :
  (i < n)%nat -> (forall s, f s <> []) -> (forall s s' x, length (workers s) = W -> (s', x) ∈ f s -> unseen s s') ->
  (forall x, rg R i (k x) (up i f0 a gt b d h) Q) -> rg R i (Act X f k) (up i f0 a gt b d h) Q.
Proof. intros Hi Hne Hf Hk. apply rg_up. intros e fl Hfl. apply rg_unseen; [done|done|done|]. intros x. by apply (rg_down opt W n i e f0). Qed.

(** A compare-and-swap of a variable that the argument does not see. *)
Lemma cas_unseen {V} `{!EqDecision V} (get : SchedulerCore -> V) (put : V -> SchedulerCore -> SchedulerCore) (e d : V) s s' x :
  (forall v s, unseen s (put v s)) -> (s', x) ∈ (if decide (get s = e) then [(put d s, (true, get s))] else [(s, (false, get s))]) -> unseen s s'.
Proof. intros Hp Hin. case_decide; apply list_elem_of_singleton in Hin; injection Hin as -> ->; [apply Hp|done]. Qed.

Lemma rg_cas_unseen {A V} `{!EqDecision V} i l (get : SchedulerCore -> V) (put : V -> SchedulerCore -> SchedulerCore) (e d : V) (k : bool * V -> prog SchedulerCore A) Q :
  (i < n)%nat -> (forall v s, unseen s (put v s)) -> (forall x, rg R i (k x) (at_ i l) Q) -> rg R i (bind (cas get put e d) k) (at_ i l) Q.
Proof. intros Hi Hp Hk. apply rg_unseen; [done|intros s; by case_decide| |exact Hk]. intros s s' x _. by apply cas_unseen. Qed.

Lemma rg_ucas_unseen {A V} `{!EqDecision V} i f0 a gt b d0 h (get : SchedulerCore -> V) (put : V -> SchedulerCore -> SchedulerCore) (e d : V) (k : bool * V -> prog SchedulerCore A) Q :
  (i < n)%nat -> (forall v s, unseen s (put v s)) -> (forall x, rg R i (k x) (up i f0 a gt b d0 h) Q) ->
  rg R i (bind (cas get put e d) k) (up i f0 a gt b d0 h) Q.
Proof. intros Hi Hp Hk. apply rg_up. intros e' fl Hfl. apply rg_cas_unseen; [done|done|]. intros x. by apply (rg_down opt W n i e' f0). Qed.

Lemma rg_ustore_unseen {A} i f0 a gt b d h (put : SchedulerCore -> SchedulerCore) (k : unit -> prog SchedulerCore A) Q :
  (i < n)%nat -> (forall s, length (workers s) = W -> unseen s (put s)) -> rg R i (k tt) (up i f0 a gt b d h) Q ->
  rg R i (bind (store put) k) (up i f0 a gt b d h) Q.
Proof.
  intros Hi Hp Hk. apply rg_uunseen; [done|done| |by intros []]. intros s s' x HL Hin. apply list_elem_of_singleton in Hin. injection Hin as -> ->. auto.
Qed.
End wake.
