(* ===== verification/DispatchOps.v ===== *)
(** * Dispatch: proof rules for the operations

    What the workers and the threads around them do with runnable tasks:
    every operation leaves the thread up, without debts, and with the tasks in
    its hands that it does not say it has placed. *)

From Stdlib Require Import ZArith Lia.
From stdpp Require Import base tactics list numbers option strings functions.
From S2P Require Import Prelude Conc Sums Dispatch DispatchInv DispatchRules DispatchWake.

Section ops.
Context (opt : options) (W n : nat).
Context (HW : (1 <= W <= 64)%nat) (Hn : (W <= n)%nat) (Hpins : forall t k, pinnedTo opt t = Some k -> (k < W)%nat).
Notation R := (dproto opt W n).
Notation none := (Forall (fun t => pinnedTo opt t = None)).
Notation read := (rg_uread opt W n HW Hn).
Notation quietly := (rg_uunseen opt W n HW Hn).

Lemma nodebt_owing : nodebt = owing false.
Proof. done. Qed.

(** ** Placing *)

Lemma rg_inject {A} fuel i f0 a gt b me t h (k : unit -> prog SchedulerCore A) Q :
  (i < n)%nat -> pinnedTo opt t = None -> rg R i (k tt) (up i f0 a gt b nodebt h) Q ->
  rg R i (bind (inject opt fuel me t) k) (up i f0 a gt b nodebt (t :: h)) Q.
Proof. intros Hi Ht Hk. apply rg_bind_assoc, (rg_pushInjection opt W n HW Hn); [done|done|]. by apply (rg_notifyIdleWorker opt W n HW Hn _ _ _ _ _ _ true). Qed.

Lemma rg_injectAll {A} fuel i f0 a gt b me l h (k : unit -> prog SchedulerCore A) Q :
  (i < n)%nat -> none l -> rg R i (k tt) (up i f0 a gt b nodebt h) Q ->
  rg R i (bind (injectAll opt fuel me l) k) (up i f0 a gt b nodebt (l ++ h)) Q.
Proof.
  intros Hi Hl Hk. induction l as [|t l IH]; [exact Hk|]. apply Forall_cons_1 in Hl as [Ht Hl].
  apply rg_bind_assoc, rg_inject; [done|done|]. by apply IH.
Qed.

Lemma rg_pushLocalFifo {A} fuel i f0 a gt b t h (k : unit -> prog SchedulerCore A) Q :
  (i < n)%nat -> (i < W)%nat -> pinnedTo opt t = None -> rg R i (k tt) (up i f0 a gt b nodebt h) Q ->
  rg R i (bind (pushLocalFifo opt fuel i t) k) (up i f0 a gt b nodebt (t :: h)) Q.
Proof.
  intros Hi HiW Ht Hk. apply rg_bind_assoc, (rg_local_push opt W n HW Hn); [done..|exact Hk|].
  apply rg_bind_assoc, (rg_uchoose opt W n HW Hn); [done|done|]. intros busy. apply rg_bind_assoc. destruct busy; [by apply rg_inject|].
  apply rg_bind_assoc, (rg_local_popBlock opt W n HW Hn); [done|done|]. intros l Hl. apply rg_injectAll; [done|done|]. by apply rg_inject.
Qed.

Lemma rg_pushLocalLifo {A} fuel i f0 a gt b t h (k : unit -> prog SchedulerCore A) Q :
  (i < n)%nat -> (i < W)%nat -> pinnedTo opt t = None -> rg R i (k tt) (up i false a gt b nodebt h) Q ->
  rg R i (bind (pushLocalLifo opt fuel i t) k) (up i f0 a gt b nodebt (t :: h)) Q.
Proof.
  intros Hi HiW Ht Hk. apply rg_bind_assoc, rg_up. intros e fl Hfl. apply (rg_takeLifo opt W n HW Hn); [done..| |].
  - intros t' Ht'. apply rg_bind_assoc, rg_pushLocalFifo; [done..|]. by apply (rg_set_lifo opt W n HW Hn).
  - apply (rg_down opt W n i _ true); [done|]. by apply (rg_set_lifo opt W n HW Hn).
Qed.

(** The caller: a worker, or another thread. *)
Definition caller (i : nat) (me : option nat) : Prop := me = None \/ me = Some i /\ (i < W)%nat.

Lemma rg_schedule {A} fuel i f0 a gt b me t h (k : unit -> prog SchedulerCore A) Q :
  (i < n)%nat -> caller i me -> (gt = true -> a = true) -> rg R i (k tt) (up i false a gt b nodebt h) Q ->
  rg R i (bind (schedule opt fuel me t) k) (up i f0 a gt b nodebt h) Q.
Proof.
  intros Hi Hme Hga Hk. apply rg_forget. apply rg_bind_assoc, (rg_log_scheduled opt W n HW Hn); [done|].
  destruct (pinnedTo opt t) as [m|] eqn:Ep.
  - apply rg_bind_assoc, (rg_inbox_push opt W n HW Hn _ _ _ _ _ _ (Some m)); [done|by eapply Hpins|done|by left|].
    apply (rg_notifyWorker opt W n HW Hn); [done|by eapply Hpins|done].
  - destruct Hme as [->|[-> HiW]]; [by apply rg_inject|].
    apply rg_bind_assoc, (rg_load_gathering opt W n HW Hn); [done|done|]. destruct gt.
    + rewrite Hga in * by done. by apply (rg_gather opt W n HW Hn).
    + apply rg_bind_assoc, read; [done|]. intros [|]; [by apply rg_inject|by apply rg_pushLocalLifo].
Qed.

(** ** Timers and ramp-up *)

Lemma rg_unpark_any {A} i f0 a gt b m h (k : unit -> prog SchedulerCore A) Q :
  (i < n)%nat -> rg R i (k tt) (up i f0 a gt b nodebt h) Q -> rg R i (bind (unparkWorker opt m) k) (up i f0 a gt b nodebt h) Q.
Proof.
  intros Hi Hk. destruct (decide (m < W)%nat) as [Hm|Hm]; [apply (rg_unparkWorker opt W n HW Hn); [done|done|by left|done]|].
  assert (Hp : rg R i (bind (parker_unpark m) k) (up i f0 a gt b nodebt h) Q).
  { apply (rg_ustore_unseen opt W n HW Hn); [done| |done]. intros s HL. apply (unseen_beyond W n HW Hn); [done|lia]. }
  apply rg_bind_assoc. destruct (hasDriver opt); [|exact Hp]. apply rg_bind_assoc, read; [done|]. intros x.
  case_bool_decide; [|exact Hp]. by apply (rg_ustore_unseen opt W n HW Hn).
Qed.

Lemma rg_wakeKeeper {A} i f0 a gt b d m h (k : unit -> prog SchedulerCore A) Q :
  (i < n)%nat -> rg R i (k tt) (up i f0 a gt b nodebt h) Q -> rg R i (bind (wakeKeeper opt d m) k) (up i f0 a gt b nodebt h) Q.
Proof.
  intros Hi Hk. apply rg_bind_assoc, read; [done|]. intros kd. destruct (d <? kd); [by apply rg_unpark_any|exact Hk].
Qed.

Lemma rg_notify_idle {A} fuel i f0 a gt b me h (k : unit -> prog SchedulerCore A) Q :
  (i < n)%nat -> rg R i (k tt) (up i f0 a gt b nodebt h) Q -> rg R i (bind (notifyIdleWorker opt fuel me) k) (up i f0 a gt b nodebt h) Q.
Proof. apply (rg_notifyIdleWorker opt W n HW Hn _ _ _ _ _ _ false). Qed.

Lemma rg_ensureTimekeeper {A} fuel i f0 a gt b me h (k : unit -> prog SchedulerCore A) Q :
  (i < n)%nat -> rg R i (k tt) (up i f0 a gt b nodebt h) Q -> rg R i (bind (ensureTimekeeper opt fuel me) k) (up i f0 a gt b nodebt h) Q.
Proof.
  intros Hi Hk. apply rg_bind_assoc, read; [done|]. intros keeper. apply rg_bind_assoc, read; [done|]. intros idle.
  apply rg_bind_assoc, read; [done|]. intros pending. destruct (_ || _); [exact Hk|]. destruct (0 <? rampUpDelay opt); [|by apply rg_notify_idle].
  apply rg_bind_assoc, read; [done|]. intros now. apply rg_bind_assoc, read; [done|]. intros last.
  destruct (_ <? _); [exact Hk|]. apply rg_bind_assoc, (rg_ucas_unseen opt W n HW Hn); [done|done|].
  intros [[|] v]; [by apply rg_notify_idle|exact Hk].
Qed.

Lemma unseen_timers_add i d t s : length (workers s) = W ->
  unseen s (set_timerMask (Z.setbit (timerMask s) (Z.of_nat i)) (on_worker i (fun w => set_timers ((d, t) :: timers w) w) s)).
Proof. intros HL. by apply (unseen_on W n HW Hn). Qed.

Lemma rg_addTimer {A} fuel i f0 a gt b d t h (k : unit -> prog SchedulerCore A) Q :
  (i < n)%nat -> rg R i (k tt) (up i f0 a gt b nodebt h) Q -> rg R i (bind (addTimer opt fuel i d t) k) (up i f0 a gt b nodebt h) Q.
Proof.
  intros Hi Hk. apply rg_bind_assoc, (rg_ustore_unseen opt W n HW Hn); [done|intros s HL; by apply unseen_timers_add|].
  apply rg_bind_assoc, read; [done|]. intros [m|]; [by apply rg_wakeKeeper|].
  apply rg_bind_assoc, read; [done|]. intros [|]; [by apply rg_ensureTimekeeper|exact Hk].
Qed.

Lemma rg_addCallbackTimer {A} fuel i f0 a gt b me d t h (k : bool -> prog SchedulerCore A) Q :
  (i < n)%nat -> (forall x, rg R i (k x) (up i f0 a gt b nodebt h) Q) -> rg R i (bind (addCallbackTimer opt fuel me d t) k) (up i f0 a gt b nodebt h) Q.
Proof.
  intros Hi Hk. apply rg_bind_assoc, (rg_uchoose opt W n HW Hn); [done|done|]. intros [|]; [|exact (Hk false)].
  apply rg_bind_assoc, (rg_ustore_unseen opt W n HW Hn); [done|intros s HL; by apply unseen_timers_add|].
  apply rg_bind_assoc, read; [done|]. intros [m|]; [apply rg_bind_assoc, rg_wakeKeeper; [done|exact (Hk true)]|].
  assert (Hlast : forall x : bool, rg R i (bind (bind (if x then ensureTimekeeper opt fuel me else Ret tt) (fun _ => Ret true)) k) (up i f0 a gt b nodebt h) Q).
  { intros [|]; [apply rg_bind_assoc, rg_ensureTimekeeper; [done|exact (Hk true)]|exact (Hk true)]. }
  apply rg_bind_assoc. destruct me as [m|]; [|apply (Hlast true)]. apply read; [done|]. intros x. apply Hlast.
Qed.

Lemma rg_request_loop {A} fuel i f0 a gt b due current h (k : bool -> prog SchedulerCore A) Q :
  (i < n)%nat -> (forall x, rg R i (k x) (up i f0 a gt b nodebt h) Q) -> rg R i (bind (request_loop fuel due current) k) (up i f0 a gt b nodebt h) Q.
Proof.
  intros Hi Hk. revert current. induction fuel as [|fuel IH]; intros current; [done|]. cbn [request_loop].
  destruct (current <=? due); [exact (Hk false)|]. apply rg_bind_assoc, quietly; [done|intros s; by case_decide| |].
  - intros s s' x _ Hin. case_decide; [apply elem_of_cons in Hin as [Hin|Hin]; [by injection Hin as -> ->|]|];
      apply list_elem_of_singleton in Hin; by injection Hin as -> ->.
  - intros [[|] v]; [exact (Hk true)|apply IH].
Qed.

Lemma rg_requestRampUp {A} fuel i f0 a gt b me h (k : unit -> prog SchedulerCore A) Q :
  (i < n)%nat -> rg R i (k tt) (up i f0 a gt b nodebt h) Q -> rg R i (bind (requestRampUp opt fuel me) k) (up i f0 a gt b nodebt h) Q.
Proof.
  intros Hi Hk. unfold requestRampUp. destruct (_ <=? _); [by apply rg_notify_idle|]. apply rg_bind_assoc, read; [done|]. intros [|]; [|exact Hk].
  apply rg_bind_assoc, read; [done|]. intros now. apply rg_bind_assoc, read; [done|]. intros current.
  apply rg_bind_assoc, rg_request_loop; [done|]. intros [|]; [|exact Hk]. apply rg_bind_assoc, read; [done|].
  intros [m|]; [by apply rg_wakeKeeper|by apply rg_notify_idle].
Qed.
Lemma rg_earliest {A} i f0 a gt b q h (k : Z -> prog SchedulerCore A) Q :
  (i < n)%nat -> (forall x, rg R i (k x) (up i f0 a gt b nodebt h) Q) -> rg R i (bind (earliestTicks q) k) (up i f0 a gt b nodebt h) Q.
Proof. apply read. Qed.

Lemma rg_fireOne {A} i f0 a gt b q now h (k : option nat -> prog SchedulerCore A) Q :
  (i < n)%nat -> (forall x, rg R i (k x) (up i f0 a gt b nodebt h) Q) -> rg R i (bind (timers_fireOne q now) k) (up i f0 a gt b nodebt h) Q.
Proof.
  intros Hi Hk. apply quietly; [done|done| |exact Hk]. intros s s' x HL Hin. apply list_elem_of_singleton in Hin.
  cbn zeta in Hin. destruct (earliest _ <=? _); [|by injection Hin as -> ->]. destruct (take_due _ _) as [[t [|? ?]]|]; injection Hin as -> ->; [| |done].
  - by apply (unseen_on W n HW Hn q (set_timers [])).
  - by apply (unseen_on W n HW Hn).
Qed.

Lemma rg_fireExpired {A} fuel i a gt b q now h (k : unit -> prog SchedulerCore A) Q :
  (i < n)%nat -> (i < W)%nat -> (gt = true -> a = true) -> rg R i (k tt) (up i false a gt b nodebt h) Q ->
  rg R i (bind (fireExpired opt fuel i q now) k) (up i false a gt b nodebt h) Q.
Proof.
  intros Hi HiW Hga Hk. induction fuel as [|fuel IH]; [done|]. cbn [fireExpired]. apply rg_bind_assoc, rg_fireOne; [done|].
  intros [t|]; [|exact Hk]. apply rg_bind_assoc, rg_schedule; [done|by right|done|exact IH].
Qed.

Lemma rg_fire_queues {A} fuel i a gt b l now h (k : unit -> prog SchedulerCore A) Q :
  (i < n)%nat -> (i < W)%nat -> (gt = true -> a = true) -> rg R i (k tt) (up i false a gt b nodebt h) Q ->
  rg R i (bind (fire_queues opt fuel i l now) k) (up i false a gt b nodebt h) Q.
Proof.
  intros Hi HiW Hga Hk. induction l as [|q l IH]; [exact Hk|]. cbn [fire_queues]. apply rg_bind_assoc, read; [done|]. intros e.
  apply rg_bind_assoc. destruct (e <=? now); [|exact IH]. by apply rg_fireExpired.
Qed.

Lemma rg_fireTimers {A} fuel i a gt b h (k : unit -> prog SchedulerCore A) Q :
  (i < n)%nat -> (i < W)%nat -> (gt = true -> a = true) -> rg R i (k tt) (up i false a gt b nodebt h) Q ->
  rg R i (bind (fireTimers opt W fuel i) k) (up i false a gt b nodebt h) Q.
Proof.
  intros Hi HiW Hga Hk. apply rg_bind_assoc, read; [done|]. intros mask. destruct (mask =? 0); [exact Hk|].
  apply rg_bind_assoc, read; [done|]. intros now. by apply rg_fire_queues.
Qed.

(** ** Gathered tasks *)

Lemma rg_placeAll {A} fuel i a gt b (feed : bool) ow l h (k : unit -> prog SchedulerCore A) Q :
  (i < n)%nat -> (i < W)%nat -> none l -> (feed = false -> ow = false) ->
  rg R i (k tt) (up i false a gt b (owing (if feed then match l with [] => ow | _ => true end else false)) h) Q ->
  rg R i (bind (placeAll opt fuel i feed l) k) (up i false a gt b (owing ow) (l ++ h)) Q.
Proof.
  intros Hi HiW Hl How Hk. revert ow How Hk. induction l as [|t l IH]; intros ow How Hk.
  { destruct feed; [exact Hk|]. rewrite (How eq_refl). exact Hk. }
  apply Forall_cons_1 in Hl as [Ht Hl]. cbn [placeAll]. apply rg_bind_assoc. destruct feed.
  - apply (rg_pushInjection opt W n HW Hn); [done|done|]. apply (IH Hl true); [done|]. by destruct l.
  - rewrite (How eq_refl). apply rg_pushLocalFifo; [done..|]. by apply (IH Hl false).
Qed.

Lemma rg_place_rest {A} fuel i a gt b l h (k : unit -> prog SchedulerCore A) Q :
  (i < n)%nat -> (i < W)%nat -> none l -> rg R i (k tt) (up i false a gt b nodebt h) Q ->
  rg R i (bind (place_rest opt fuel i l) k) (up i false a gt b nodebt (l ++ h)) Q.
Proof.
  intros Hi HiW Hl Hk. apply rg_bind_assoc, read; [done|]. intros feed. apply rg_bind_assoc, (rg_placeAll _ _ _ _ _ _ false); [done..|].
  destruct feed; [|exact Hk]. destruct l as [|t l]; [exact Hk|]. by apply (rg_notifyIdleWorker opt W n HW Hn).
Qed.

Lemma rg_placeGathered {A} fuel i f0 a gt b (keep : bool) h (k : option nat -> prog SchedulerCore A) Q :
  (i < n)%nat -> (i < W)%nat ->
  (forall t, keep = true -> pinnedTo opt t = None -> rg R i (k (Some t)) (up i false false gt b nodebt (t :: h)) Q) ->
  rg R i (k None) (up i false false gt b nodebt h) Q ->
  rg R i (bind (placeGathered opt fuel i keep) k) (up i f0 a gt b nodebt h) Q.
Proof.
  intros Hi HiW Hk1 Hk2. apply rg_forget, rg_bind_assoc, (rg_take_batch opt W n HW Hn); [done|done|]. intros l Hl.
  assert (Hall : exists h', (forall t, cnt t h' = cnt t (l ++ h)) /\
    rg R i (bind (place_rest opt fuel i l;;; Ret None) k) (up i false false gt b nodebt h') Q).
  { exists (l ++ h). split; [done|]. by apply rg_bind_assoc, rg_place_rest. }
  destruct l as [|t l]; [by destruct keep|]. destruct keep.
  - pose proof (Forall_cons_1 _ _ _ Hl) as [Ht Hl']. exists (l ++ t :: h). split; [intros u; rewrite <- app_comm_cons, cnt_cons, !cnt_app, cnt_cons; lia|].
    assert (rg R i (bind (place_rest opt fuel i l;;; Ret (Some t)) k) (up i false false gt b nodebt (l ++ t :: h)) Q) as Hrg; [|by destruct l].
    apply rg_bind_assoc, rg_place_rest; [done..|]. by apply Hk1.
  - destruct l as [|t' l]; [|exact Hall]. exists (t :: h). split; [done|]. pose proof (Forall_cons_1 _ _ _ Hl) as [Ht _].
    apply rg_bind_assoc, read; [done|]. intros [|]; apply rg_bind_assoc; [by apply (rg_place_rest _ _ _ _ _ [t])|by apply rg_pushLocalLifo].
Qed.
Lemma rg_deliver {A} fuel i a gt b l h (k : unit -> prog SchedulerCore A) Q :
  (i < n)%nat -> (i < W)%nat -> (gt = true -> a = true) -> rg R i (k tt) (up i false a gt b nodebt h) Q ->
  rg R i (bind (deliver opt fuel i l) k) (up i false a gt b nodebt h) Q.
Proof.
  intros Hi HiW Hga Hk. induction l as [|t l IH]; [exact Hk|]. cbn [deliver]. apply rg_bind_assoc, rg_schedule; [done|by right|done|exact IH].
Qed.

Lemma rg_uset_gathering {A} i f0 a a' gt gt' b d h (k : unit -> prog SchedulerCore A) Q :
  (i < n)%nat -> (i < W)%nat -> (a' = false -> a = false) -> rg R i (k tt) (up i f0 a' gt' b d h) Q ->
  rg R i (bind (store (on_worker i (set_gathering gt'))) k) (up i f0 a gt b d h) Q.
Proof.
  intros Hi HiW Ha Hk. apply rg_up. intros e fl Hfl. apply (rg_set_gathering opt W n HW Hn _ _ _ _ _ a'); [done..|].
  by apply (rg_down opt W n i e f0).
Qed.

Lemma rg_tryBecomeTimekeeper {A} i f0 a gt b d h (k : bool -> prog SchedulerCore A) Q :
  (i < n)%nat -> (forall x, rg R i (k x) (up i f0 a gt b d h) Q) -> rg R i (bind (tryBecomeTimekeeper i) k) (up i f0 a gt b d h) Q.
Proof. intros Hi Hk. apply rg_bind_assoc, (rg_ucas_unseen opt W n HW Hn); [done|done|]. intros x. exact (Hk x.1). Qed.

Lemma rg_releaseTimekeeper {A} i f0 a gt b d h (k : unit -> prog SchedulerCore A) Q :
  (i < n)%nat -> rg R i (k tt) (up i f0 a gt b d h) Q -> rg R i (bind (releaseTimekeeper i) k) (up i f0 a gt b d h) Q.
Proof. intros Hi Hk. apply rg_bind_assoc, (rg_ucas_unseen opt W n HW Hn); [done|done|]. intros x. exact Hk. Qed.

Lemma rg_maintain {A} fuel i b h (k : unit -> prog SchedulerCore A) Q :
  (i < n)%nat -> (i < W)%nat -> rg R i (k tt) (up i false false false b nodebt h) Q ->
  rg R i (bind (maintain opt W fuel i) k) (up i false false false b nodebt h) Q.
Proof.
  intros Hi HiW Hk. apply rg_bind_assoc, (rg_uset_gathering _ _ _ true); [done..|]. apply rg_bind_assoc, rg_fireTimers; [done..|].
  assert (Hend : rg R i (bind (store (on_worker i (set_gathering false));;; placeGathered opt fuel i false;;; Ret tt) k) (up i false true true b nodebt h) Q).
  { apply rg_bind_assoc, (rg_uset_gathering _ _ _ true); [done..|]. apply rg_bind_assoc, rg_placeGathered; done. }
  apply rg_bind_assoc. destruct (hasDriver opt) eqn:Hd; [|exact Hend].
  apply rg_bind_assoc, rg_tryBecomeTimekeeper; [done|]. intros [|]; [|exact Hend].
  apply rg_bind_assoc, rg_up. intros e fl Hfl. eapply (rg_driver_wait opt W n HW Hn _ _ _ _ true true); [done..|]. intros ready.
  apply rg_bind_assoc, rg_deliver; [done..|]. by apply rg_releaseTimekeeper.
Qed.

(** ** Searching *)

Lemma rg_steal_loop {A} fuel i a gt b l h (k : option nat -> prog SchedulerCore A) Q :
  (i < n)%nat -> (i < W)%nat -> Forall (fun v => (v < W)%nat) l ->
  (forall t, pinnedTo opt t = None -> rg R i (k (Some t)) (up i false a gt b nodebt (t :: h)) Q) -> rg R i (k None) (up i false a gt b nodebt h) Q ->
  rg R i (bind (steal_loop opt fuel i l) k) (up i false a gt b nodebt h) Q.
Proof.
  intros Hi HiW Hl Hk1 Hk2. induction Hl as [|v l Hv Hl IH]; [exact Hk2|]. cbn [steal_loop]. case_bool_decide; [exact IH|].
  apply rg_bind_assoc, (rg_uchoose opt W n HW Hn); [done|done|]. intros [|].
  - apply rg_bind_assoc, (rg_local_steal opt W n HW Hn); [done|done|exact Hk1|exact IH].
  - apply rg_bind_assoc, (rg_local_stealBlock opt W n HW Hn); [done|done|]. intros [|t rest] Hr; [exists h; by split|].
    apply Forall_cons_1 in Hr as [Ht Hr]. exists (rest ++ t :: h).
    split; [intros u; rewrite <- app_comm_cons, cnt_cons, !cnt_app, cnt_cons; lia|].
    apply rg_bind_assoc, (rg_local_pushBatch opt W n HW Hn); [done..|]. intros m.
    apply rg_bind_assoc, rg_injectAll; [done|by apply Forall_drop|]. by apply Hk1.
Qed.

Lemma rg_worker_steal {A} fuel i a gt b h (k : option nat -> prog SchedulerCore A) Q :
  (i < n)%nat -> (i < W)%nat ->
  (forall t, pinnedTo opt t = None -> rg R i (k (Some t)) (up i false a gt b nodebt (t :: h)) Q) -> rg R i (k None) (up i false a gt b nodebt h) Q ->
  rg R i (bind (steal opt W fuel i) k) (up i false a gt b nodebt h) Q.
Proof.
  intros Hi HiW Hk1 Hk2. unfold steal. destruct (W <=? 1)%nat; [exact Hk2|]. apply rg_bind_assoc, quietly; [done|done| |].
  - intros s s' x HL Hin. apply list_elem_of_singleton in Hin. injection Hin as -> _. by apply (unseen_on W n HW Hn).
  - intros r. apply rg_steal_loop; [done..| |exact Hk1|exact Hk2]. apply list.Forall_forall. intros v Hv. apply list_elem_of_fmap in Hv as (j & -> & _).
    apply Nat.mod_upper_bound. lia.
Qed.

Lemma rg_wakePeer {A} fuel i a gt b h (k : unit -> prog SchedulerCore A) Q :
  (i < n)%nat -> rg R i (k tt) (up i false a gt b nodebt h) Q -> rg R i (bind (wakePeerForLeftovers opt fuel i) k) (up i false a gt b nodebt h) Q.
Proof.
  intros Hi Hk. apply rg_bind_assoc, read; [done|]. intros x. apply rg_bind_assoc.
  destruct x; [by apply rg_requestRampUp|]. apply read; [done|]. intros [|]; [by apply rg_requestRampUp|exact Hk].
Qed.

Lemma rg_searchForWork {A} fuel i a gt h (k : option nat -> prog SchedulerCore A) Q :
  (i < n)%nat -> (i < W)%nat ->
  (forall t, pinnedTo opt t = None -> rg R i (k (Some t)) (up i false a gt false nodebt (t :: h)) Q) -> rg R i (k None) (up i false a gt false nodebt h) Q ->
  rg R i (bind (searchForWork opt W fuel i) k) (up i false a gt false nodebt h) Q.
Proof.
  intros Hi HiW Hk1 Hk2. apply rg_bind_assoc, read; [done|]. intros current.
  apply rg_bind_assoc, (rg_join_search opt W n HW Hn); [done|done|]. intros sb.
  assert (Hend : forall task h', match task with Some t => h' = t :: h /\ pinnedTo opt t = None | None => h' = h end ->
    rg R i (bind ((if sb then before <- leave_search;;
      if bool_decide (task <> None) && (before =? 1) then wakePeerForLeftovers opt fuel i else Ret tt else Ret tt);;; Ret task) k)
      (up i false a gt sb nodebt h') Q).
  { intros task h' Ht.
    assert (Hfin : rg R i (k task) (up i false a gt false nodebt h') Q) by (destruct task as [t|]; [destruct Ht as [-> ?]; auto|by subst h']).
    apply rg_bind_assoc. destruct sb; [|exact Hfin]. apply rg_bind_assoc, (rg_leave_search opt W n HW Hn); [done|done|]. intros before.
    destruct (_ && _); [|exact Hfin]. by apply rg_wakePeer. }
  apply rg_bind_assoc, (rg_upopInjection opt W n HW Hn); [done|intros t Ht; by apply (Hend (Some t))|]. apply rg_bind_assoc.
  destruct sb; [|by apply (Hend None)]. apply rg_bind_assoc, rg_worker_steal; [done|done|intros t Ht; by apply (Hend (Some t))|].
  apply (rg_upopInjection opt W n HW Hn); [done|intros t Ht; by apply (Hend (Some t))|by apply (Hend None)].
Qed.

Lemma rg_spin_loop {A} fuel i m a gt b deadline h (k : option nat -> prog SchedulerCore A) Q :
  (i < n)%nat -> (i < W)%nat ->
  (forall t, here opt i t -> rg R i (k (Some t)) (up i false a gt b nodebt (t :: h)) Q) -> rg R i (k None) (up i false a gt b nodebt h) Q ->
  rg R i (bind (spin_loop opt W fuel i m deadline) k) (up i false a gt b nodebt h) Q.
Proof.
  intros Hi HiW Hk1 Hk2. revert m. induction fuel as [|fuel IH]; intros m; [done|]. cbn [spin_loop].
  assert (Hfree : forall t, pinnedTo opt t = None -> rg R i (k (Some t)) (up i false a gt b nodebt (t :: h)) Q) by (intros t Ht; apply Hk1; by left).
  apply rg_bind_assoc, (rg_utakeLocal opt W n HW Hn); [done|done|exact Hk1|]. apply rg_bind_assoc, read; [done|]. intros hw.
  assert (Hclock : rg R i (bind (if (m mod 32 =? 0)%nat then now <- load clock;; if deadline <=? now then Ret None else spin_loop opt W fuel i (S m) deadline
    else spin_loop opt W fuel i (S m) deadline) k) (up i false a gt b nodebt h) Q).
  { destruct (_ =? _)%nat; [|apply IH]. apply rg_bind_assoc, read; [done|]. intros now. destruct (_ <=? _); [exact Hk2|apply IH]. }
  assert (Hsteal : rg R i (bind (o3 <- (if (m mod 128 =? 0)%nat then steal opt W fuel i else Ret None);; match o3 with Some t => Ret (Some t) | None =>
    if (m mod 32 =? 0)%nat then now <- load clock;; if deadline <=? now then Ret None else spin_loop opt W fuel i (S m) deadline
    else spin_loop opt W fuel i (S m) deadline end) k) (up i false a gt b nodebt h) Q).
  { apply rg_bind_assoc. destruct (m mod 128 =? 0)%nat; [|exact Hclock]. by apply rg_worker_steal. }
  apply rg_bind_assoc. destruct hw; [|exact Hsteal]. by apply (rg_upopInjection opt W n HW Hn).
Qed.
Lemma rg_spinForWork {A} fuel i a gt h (k : option nat -> prog SchedulerCore A) Q :
  (i < n)%nat -> (i < W)%nat ->
  (forall t, here opt i t -> rg R i (k (Some t)) (up i false a gt false nodebt (t :: h)) Q) -> rg R i (k None) (up i false a gt false nodebt h) Q ->
  rg R i (bind (spinForWork opt W fuel i) k) (up i false a gt false nodebt h) Q.
Proof.
  intros Hi HiW Hk1 Hk2. unfold spinForWork. destruct (idleSpin opt <=? 0); [exact Hk2|].
  apply rg_bind_assoc, read; [done|]. intros keeper. destruct (_ && _); [exact Hk2|].
  apply rg_bind_assoc, quietly; [done|intros s; by destruct (spinSkips _)| |].
  { intros s s' x HL Hin. apply list_elem_of_singleton in Hin. destruct (spinSkips _); injection Hin as -> ->; [done|]. by apply (unseen_on W n HW Hn). }
  intros [|]; [exact Hk2|]. apply rg_bind_assoc, read; [done|]. intros current.
  apply rg_bind_assoc, (rg_join_search opt W n HW Hn); [done|done|]. intros [|]; [|exact Hk2]. apply rg_bind_assoc, read; [done|]. intros now.
  assert (Hfound : forall before t, here opt i t ->
    rg R i (bind (store (on_worker i (fun w => set_spin 0 (spinSkips w) w));;; (if before =? 1 then wakePeerForLeftovers opt fuel i else Ret tt);;;
      Ret (Some t)) k) (up i false a gt false nodebt (t :: h)) Q).
  { intros before t Ht. apply rg_bind_assoc, (rg_ufield opt W n HW Hn); [done|done|]. apply rg_bind_assoc.
    destruct (before =? 1); [apply rg_wakePeer; [done|]|]; by apply Hk1. }
  assert (Hlast : forall before, rg R i (bind (task <- popInjection;; match task with
      | Some t => store (on_worker i (fun w => set_spin 0 (spinSkips w) w));;; (if before =? 1 then wakePeerForLeftovers opt fuel i else Ret tt);;; Ret (Some t)
      | None => store (on_worker i spin_missed);;; Ret None end) k) (up i false a gt false nodebt h) Q).
  { intros before. apply rg_bind_assoc, (rg_upopInjection opt W n HW Hn); [done|intros t Ht; apply Hfound; by left|].
    by apply rg_bind_assoc, (rg_ufield opt W n HW Hn). }
  apply rg_bind_assoc, rg_spin_loop; [done|done| |].
  - intros t Ht. apply rg_bind_assoc, (rg_leave_search opt W n HW Hn); [done|done|]. intros before. by apply (Hfound before).
  - apply rg_bind_assoc, (rg_leave_search opt W n HW Hn); [done|done|]. intros before.
    apply rg_bind_assoc, (rg_utakeLocal opt W n HW Hn); [done|done|intros t Ht; by apply (Hfound before)|]. apply (Hlast before).
Qed.

(** ** Sleeping *)

Lemma rg_scan {A} i l ws acc (k : Z -> prog SchedulerCore A) Q :
  (i < n)%nat -> (forall x, rg R i (k x) (at_ i l) Q) -> rg R i (bind (scan_deadlines ws acc) k) (at_ i l) Q.
Proof.
  intros Hi Hk. revert acc. induction ws as [|w ws IH]; intros acc; [apply Hk|]. cbn [scan_deadlines].
  apply rg_bind_assoc, (rg_read opt W n HW Hn i l l); [done|by left|]. intros x. apply IH.
Qed.

(** From the wake-up on. *)
Lemma rg_woken {A} fuel i (k : unit -> prog SchedulerCore A) Q :
  (i < n)%nat -> (i < W)%nat -> rg R i (k tt) (up i false true false false nodebt []) Q ->
  rg R i (bind (releaseTimekeeper i;;; fireTimers opt W fuel i;;; store (on_worker i (set_gathering false));;;
     due <- load rampUpDeadline;;
     if due =? kNoDeadline then Ret tt
     else now2 <- load clock;; if due <=? now2 then r <- cas rampUpDeadline set_rampUpDeadline due kNoDeadline;; Ret tt else Ret tt) k)
    (up i false true true false nodebt []) Q.
Proof.
  intros Hi HiW Hk. apply rg_bind_assoc, rg_releaseTimekeeper; [done|]. apply rg_bind_assoc, rg_fireTimers; [done..|].
  apply rg_bind_assoc, (rg_uset_gathering _ _ _ true); [done..|]. apply rg_bind_assoc, read; [done|]. intros due.
  destruct (due =? kNoDeadline); [exact Hk|]. apply rg_bind_assoc, read; [done|]. intros now2. destruct (due <=? now2); [|exact Hk].
  apply rg_bind_assoc, (rg_ucas_unseen opt W n HW Hn); [done|done|]. intros x. exact Hk.
Qed.

(** The timekeeper's sleep. *)
Lemma rg_keeper_sleep {A} fuel i e f timed (k : unit -> prog SchedulerCore A) Q :
  (i < n)%nat -> (i < W)%nat -> rg R i (k tt) (up i false true true false nodebt []) Q ->
  rg R i (bind (if hasDriver opt then ready <- driver_wait timed;; deliver opt fuel i ready
      else if timed then parker_parkFor i else parker_park i) k) (at_ i (DP Down e f false true false nodebt [])) Q.
Proof.
  intros Hi HiW Hk. destruct (hasDriver opt) eqn:Hd.
  - apply rg_bind_assoc. eapply (rg_driver_wait opt W n HW Hn _ _ _ _ false true); [done..|]. intros ready. by apply rg_deliver.
  - destruct timed; [by eapply (rg_parkFor _ _ _ _ _ _ _ false true)|by eapply (rg_parker_park _ _ _ _ _ _ false true)].
Qed.

Lemma rg_sleepIdle {A} fuel i e f (k : unit -> prog SchedulerCore A) Q :
  (i < n)%nat -> (i < W)%nat -> (forall a, rg R i (k tt) (up i false a false false nodebt []) Q) ->
  rg R i (bind (sleepIdle opt W fuel i) k) (at_ i (DP Down e f false false false nodebt [])) Q.
Proof.
  intros Hi HiW Hk. set (l := DP Down e f false false false nodebt []).
  assert (Hload : forall X (fn : SchedulerCore -> X) B (kk : X -> prog SchedulerCore B) QQ, (forall x, rg R i (kk x) (at_ i l) QQ) -> rg R i (bind (load fn) kk) (at_ i l) QQ).
  { intros X fn B kk QQ H. apply (rg_read opt W n HW Hn i l l); [done|by left|exact H]. }
  assert (Hstore : forall v B (kk : unit -> prog SchedulerCore B) QQ, rg R i (kk tt) (at_ i l) QQ -> rg R i (bind (store (set_keeperDeadline v)) kk) (at_ i l) QQ).
  { intros v B kk QQ H. apply (rg_silent opt W n HW Hn); [done|by intros|exact H]. }
  apply rg_bind_assoc, Hload. intros stop. apply rg_bind_assoc, rg_bind_assoc, (rg_cas_unseen opt W n HW Hn); [done|done|].
  intros [[|] v]; cbn [negb fst bind].
  2: { destruct stop; [by eapply (rg_parkFor _ _ _ _ _ _ _ false false)|by eapply (rg_parker_park _ _ _ _ _ _ false false)]. }
  apply rg_bind_assoc, Hstore. apply rg_bind_assoc, rg_bind_assoc, Hload. intros mask. apply rg_scan; [done|]. intros d.
  apply rg_bind_assoc, Hload. intros rampUp. cbn zeta. apply rg_bind_assoc. set (wakeAt := Z.min rampUp d).
  assert (Hrest : rg R i (bind (store (set_keeperDeadline wakeAt);;;
     store (on_worker i (set_gathering true));;;
     (if hasDriver opt then ready <- driver_wait (negb (wakeAt =? kNoDeadline) || stop);; deliver opt fuel i ready
      else if negb (wakeAt =? kNoDeadline) || stop then parker_parkFor i else parker_park i);;;
     releaseTimekeeper i;;; fireTimers opt W fuel i;;; store (on_worker i (set_gathering false));;;
     due <- load rampUpDeadline;;
     if due =? kNoDeadline then Ret tt
     else now2 <- load clock;; if due <=? now2 then r <- cas rampUpDeadline set_rampUpDeadline due kNoDeadline;; Ret tt else Ret tt) k) (at_ i l) Q).
  { apply rg_bind_assoc, Hstore. apply rg_bind_assoc, (rg_set_gathering opt W n HW Hn _ _ _ _ _ false); [done..|].
    apply rg_bind_assoc, rg_keeper_sleep; [done..|]. by apply rg_woken. }
  destruct (wakeAt =? kNoDeadline); [exact Hrest|]. apply Hload. intros now. exact Hrest.
Qed.
(** Between two tasks: up, nothing gathered, in nobody's debt. *)
Definition ready (i : nat) (h : list nat) : asrt SchedulerCore (nat -> dpl) := up i false false false false nodebt h.

Lemma rg_parkIdle {A} fuel i (k : option nat -> prog SchedulerCore A) Q :
  (i < n)%nat -> (i < W)%nat ->
  (forall t, here opt i t -> rg R i (k (Some t)) (ready i [t]) Q) -> rg R i (k None) (ready i []) Q ->
  rg R i (bind (parkIdle opt W fuel i) k) (ready i []) Q.
Proof.
  intros Hi HiW Hk1 Hk2. apply rg_bind_assoc, read; [done|]. intros stop.
  assert (Hback : forall t, here opt i t -> rg R i (bind (b <- clearIdle i;; (if b : bool then Ret tt else parker_parkFor i);;; Ret (Some t)) k) (ready i [t]) Q).
  { intros t Ht. apply rg_bind_assoc, (rg_clearIdle_own opt W n); [done|done|]. intros b. apply rg_bind_assoc. destruct b; [by apply Hk1|].
    apply rg_up. intros e fl _. eapply (rg_parkFor _ _ _ _ _ _ _ false false); [done..|]. by apply Hk1. }
  assert (Hsleep : rg R i (bind (markIdle i;;; o1 <- takeLocal i;; task <- (match o1 with Some t => Ret (Some t) | None => popInjection end);;
      match task with
      | Some t => b <- clearIdle i;; (if b : bool then Ret tt else parker_parkFor i);;; Ret (Some t)
      | None => sleepIdle opt W fuel i;;; clearIdle i;;;
          store (on_worker i (fun w => if handoffWake w then set_handoff false (set_spin 0 0 w) else w));;; placeGathered opt fuel i true
      end) k) (ready i []) Q).
  { apply rg_bind_assoc, (rg_markIdle opt W n HW Hn); [done|done|]. intros e f.
    apply rg_bind_assoc, (rg_takeLocal opt W n HW Hn i Marked Checked); [done..|by right|intros t Ht; by apply (Hback t)|].
    apply rg_bind_assoc, (rg_popInjection opt W n HW Hn i Checked Down); [done|done|by right|done|intros t Ht; apply (Hback t); by left|].
    apply rg_bind_assoc, rg_sleepIdle; [done|done|]. intros a.
    apply rg_bind_assoc, (rg_clearIdle_own opt W n); [done|done|]. intros _.
    apply rg_bind_assoc, (rg_ufield opt W n HW Hn); [done|by intros w; destruct (handoffWake w)|].
    apply rg_placeGathered; [done|done|intros t _ Ht; apply Hk1; by left|exact Hk2]. }
  apply rg_bind_assoc. destruct stop; [exact Hsleep|]. by apply rg_spinForWork.
Qed.

(** ** Running *)

Lemma rg_perform {A} fuel i h l (k : unit -> prog SchedulerCore A) Q :
  (i < n)%nat -> (i < W)%nat -> rg R i (k tt) (ready i h) Q -> rg R i (bind (perform opt fuel i l) k) (ready i h) Q.
Proof.
  intros Hi HiW Hk. induction l as [|[t|d t] l IH]; [exact Hk| |]; cbn [perform]; apply rg_bind_assoc.
  - apply rg_schedule; [done|by right|done|exact IH].
  - by apply rg_addTimer.
Qed.

Lemma rg_onTaskYielded {A} fuel i t h (k : unit -> prog SchedulerCore A) Q :
  (i < n)%nat -> (i < W)%nat -> here opt i t -> rg R i (k tt) (ready i h) Q ->
  rg R i (bind (onTaskYielded opt fuel i t) k) (ready i h) Q.
Proof.
  intros Hi HiW Ht Hk. apply rg_bind_assoc, (rg_log_scheduled opt W n HW Hn); [done|]. destruct Ht as [Ht|Ht]; rewrite Ht.
  - by apply rg_pushLocalFifo.
  - apply (rg_inbox_push opt W n HW Hn _ _ _ _ _ _ None); [done|done|done|by right|done].
Qed.

Lemma rg_task_yield {A} fuel i h (k : yield_to -> prog SchedulerCore A) Q :
  (i < n)%nat -> (i < W)%nat ->
  (forall t, here opt i t -> rg R i (k (YTask t)) (ready i (t :: h)) Q) -> rg R i (k YNobody) (ready i h) Q -> rg R i (k YDispatcher) (ready i h) Q ->
  rg R i (bind (yield opt fuel i) k) (ready i h) Q.
Proof.
  intros Hi HiW Hk1 Hk2 Hk3. apply rg_bind_assoc, quietly; [done|done| |].
  { intros s s' x HL Hin. apply list_elem_of_singleton in Hin. injection Hin as -> _. by apply (unseen_on W n HW Hn). }
  intros yields. cbn zeta. apply rg_bind_assoc. set (fair := (yields mod 64 =? 0)%nat).
  assert (Hnext : rg R i (bind (o1 <- takeLocal i;; next <- (match o1 with Some t => Ret (Some t) | None => popInjection end);;
    match next with Some t => Ret (YTask t) | None => Ret (if fair then YDispatcher else YNobody) end) k) (ready i h) Q).
  { apply rg_bind_assoc, (rg_utakeLocal opt W n HW Hn); [done|done|exact Hk1|].
    apply rg_bind_assoc, (rg_upopInjection opt W n HW Hn); [done|intros t Ht; apply Hk1; by left|]. by destruct fair. }
  destruct fair; [|exact Hnext]. apply rg_bind_assoc, (rg_upopInjection opt W n HW Hn); [done| |exact Hnext].
  intros t Ht. by apply rg_pushLocalFifo.
Qed.

Lemma rg_switchTo {A} fuel i t (k : unit -> prog SchedulerCore A) Q :
  (i < n)%nat -> (i < W)%nat -> here opt i t -> rg R i (k tt) (ready i []) Q ->
  rg R i (bind (switchTo opt fuel i t) k) (ready i [t]) Q.
Proof.
  intros Hi HiW Ht Hk. revert t Ht. induction fuel as [|fuel IH]; intros t Ht; [done|]. cbn [switchTo].
  apply rg_bind_assoc, (rg_log_dispatched opt W n HW Hn); [done|]. intros turn. apply rg_bind_assoc, rg_perform; [done|done|].
  assert (Hnext : forall e, rg R i (bind (o <- takeLocal i;; (match e with EFinish => store (fun s => set_live (live s - 1) s) | _ => Ret tt end);;;
    match o with Some t' => switchTo opt fuel i t' | None => Ret tt end) k) (ready i []) Q).
  { intros e. assert (Hlive : forall o h, rg R i (bind (match o with Some t' => switchTo opt fuel i t' | None => Ret tt end) k) (ready i h) Q ->
      rg R i (bind ((match e with EFinish => store (fun s => set_live (live s - 1) s) | _ => Ret tt end);;;
        match o with Some t' => switchTo opt fuel i t' | None => Ret tt end) k) (ready i h) Q).
    { intros o h Ho. apply rg_bind_assoc. destruct e; try exact Ho. by apply (rg_ustore_unseen opt W n HW Hn). }
    apply rg_bind_assoc, (rg_utakeLocal opt W n HW Hn); [done|done| |].
    - intros t' Ht'. apply (Hlive (Some t')). by apply IH.
    - apply (Hlive None). exact Hk. }
  destruct ((script opt t turn).2); [apply (Hnext EPark)|apply (Hnext EFinish)|].
  apply rg_bind_assoc, rg_task_yield; [done|done| | |].
  - intros t' Ht'. apply rg_bind_assoc, rg_onTaskYielded; [done|done|done|]. by apply IH.
  - apply rg_bind_assoc, (rg_log_scheduled opt W n HW Hn); [done|]. by apply IH.
  - by apply rg_onTaskYielded.
Qed.

Lemma rg_run fuel i :
  (i < n)%nat -> (i < W)%nat -> rg R i (run opt W fuel i) (ready i []) (fun _ => ready i []).
Proof.
  intros Hi HiW. induction fuel as [|fuel IH]; [done|]. cbn [run]. apply read; [done|]. intros tk.
  assert (Hgo : forall t, here opt i t -> rg R i (
     store (on_worker i (fun w => set_ticks (S (tick w)) (yieldTick w) w));;;
     keeper <- load timekeeper;;
     (match keeper with None => ensureTimekeeper opt fuel (Some i) | Some _ => Ret tt end);;;
     switchTo opt fuel i t;;; run opt W fuel i) (ready i [t]) (fun _ => ready i [])).
  { intros t Ht. apply (rg_ufield opt W n HW Hn); [done|done|]. apply read; [done|]. intros [m|]; [|apply rg_ensureTimekeeper; [done|]]; by apply rg_switchTo. }
  assert (Hfree : forall t, pinnedTo opt t = None -> here opt i t) by (intros t Ht; by left).
  assert (Hsearch : rg R i (
      o2 <- searchForWork opt W fuel i;;
      o3 <- (match o2 with
             | Some t => Ret (Some (Some t))
             | None => stop <- load stopping;; m <- load live;; if stop && (m =? 0)%nat then Ret None else o <- parkIdle opt W fuel i;; Ret (Some o)
             end);;
      match o3 with
      | None => Ret tt
      | Some None => run opt W fuel i
      | Some (Some t) => store (on_worker i (fun w => set_ticks (S (tick w)) (yieldTick w) w));;;
          keeper <- load timekeeper;; (match keeper with None => ensureTimekeeper opt fuel (Some i) | Some _ => Ret tt end);;;
          switchTo opt fuel i t;;; run opt W fuel i
      end) (ready i []) (fun _ => ready i [])).
  { apply rg_searchForWork; [done|done|intros t Ht; by apply Hgo, Hfree|]. apply rg_bind_assoc, read; [done|]. intros stop.
    apply rg_bind_assoc, read; [done|]. intros m. destruct (stop && (m =? 0)%nat); [intros s g _ H; exact H|].
    apply rg_bind_assoc, rg_parkIdle; [done|done|exact Hgo|exact IH]. }
  assert (Hlocal : rg R i (
      o1 <- takeLocal i;;
      o2 <- (match o1 with Some t => Ret (Some t) | None => searchForWork opt W fuel i end);;
      o3 <- (match o2 with
             | Some t => Ret (Some (Some t))
             | None => stop <- load stopping;; m <- load live;; if stop && (m =? 0)%nat then Ret None else o <- parkIdle opt W fuel i;; Ret (Some o)
             end);;
      match o3 with
      | None => Ret tt
      | Some None => run opt W fuel i
      | Some (Some t) => store (on_worker i (fun w => set_ticks (S (tick w)) (yieldTick w) w));;;
          keeper <- load timekeeper;; (match keeper with None => ensureTimekeeper opt fuel (Some i) | Some _ => Ret tt end);;;
          switchTo opt fuel i t;;; run opt W fuel i
      end) (ready i []) (fun _ => ready i [])).
  { apply (rg_utakeLocal opt W n HW Hn); [done|done|exact Hgo|exact Hsearch]. }
  destruct (tk mod kInjectionCheckPeriod =? 0)%nat; [|exact Hlocal].
  apply rg_bind_assoc, rg_maintain; [done|done|]. apply (rg_upopInjection opt W n HW Hn); [done|intros t Ht; by apply Hgo, Hfree|exact Hlocal].
Qed.

(** ** Threads that are not workers *)

Lemma rg_clients fuel i l :
  (i < n)%nat -> rg R i (clients opt fuel l) (ready i []) (fun _ => ready i []).
Proof.
  intros Hi. assert (Hme : caller i None) by by left. induction l as [|o l IH]; [by intros s g _ H|]. cbn [clients].
  destruct o as [t|t|d t|t|d|]; cbn [client].
  - apply rg_bind_assoc, (rg_ustore_unseen opt W n HW Hn); [done|done|]. by apply rg_schedule.
  - by apply rg_schedule.
  - apply rg_bind_assoc, rg_addCallbackTimer; [done|]. intros x. exact IH.
  - by apply (rg_ustore_unseen opt W n HW Hn).
  - by apply (rg_ustore_unseen opt W n HW Hn).
  - by apply rg_bind_assoc, (rg_ustore_unseen opt W n HW Hn).
Qed.
End ops.
