(* ===== verification/DispatchSpec.v ===== *)
(** * Dispatch: what the scheduler promises

    For every number of workers (1 to 64), any number of other threads, any
    task scripts and any interleaving:
    - a task that becomes runnable is run once for each time it does;
    - without a driver, nobody sleeps while there is work: when no thread can
      move and no worker has returned, every queue, slot and inbox is empty and
      every task that was made runnable has run.
    With a driver the second does not hold: [sched_driver_lost_wakeup]. *)

From Stdlib Require Import ZArith Lia.
From stdpp Require Import base tactics list numbers option strings functions.
From S2P Require Import Prelude Conc Sums Dispatch DispatchInv DispatchRules DispatchWake DispatchOps.

Definition worker_tasks (w : Worker) : list nat := option_list (lifoSlot w) ++ local w ++ gathered w ++ pinnedInbox w.
(** The runnable tasks that wait somewhere. *)
Definition queued (s : SchedulerCore) : list nat := injection s ++ mjoin (worker_tasks <$> workers s).

Lemma queued_cnt t s W : length (workers s) = W ->
  cnt t (queued s) = (cnt t (injection s) + total W (fun x => cnt t (held x)) (fun j => relw (wk s j)))%nat.
Proof.
  intros <-. unfold queued. rewrite cnt_app, cnt_mjoin. f_equal. unfold total, wk.
  rewrite <- (lsum_lookup (fun w => cnt t (worker_tasks w)) new_worker). apply lsum_ext. intros j _.
  unfold worker_tasks, held, free_of. simpl. rewrite !cnt_app. lia.
Qed.

Section spec.
Context (opt : options) (W : nat) (cs : list (list client_op)).
Context (HW : (1 <= W <= 64)%nat) (Hpins : forall t k, pinnedTo opt t = Some k -> (k < W)%nat).
Let n := (W + length cs)%nat.
Notation R := (dproto opt W n).

Lemma sched_ok fuel : pool_ok R (fun i _ => ready i []) (sched_pool opt W fuel cs).
Proof.
  exists (fun _ => DP Up false false false false false nodebt []). split.
  - assert (Hwk : forall j, wk (new_core W) j = new_worker j).
    { intros j. unfold wk, new_core. cbn [workers]. rewrite list_lookup_fmap. destruct (seq 0 W !! j) as [x|] eqn:E; [|done].
      apply lookup_seq in E as [-> _]. done. }
    split; [simpl; by rewrite length_fmap, length_seq|]. split.
    + intros t. simpl. rewrite !total_zero; [done| |]; intros j _; cbn; [done|]. by rewrite Hwk.
    + split; [done|]. intros j _. cbn. rewrite Hwk. by split.
    + unfold numbers. cbn. rewrite !total_zero by done. splits; try done; [|lia]. intros j _. rewrite Hwk, total_zero; done.
    + intros j _. split; cbn; rewrite ?Hwk; try done.
    + done.
  - intros i p Hi. exists (ready i []). splits; [apply stable_up|by exists false, false|].
    unfold sched_pool in Hi. cbn in Hi. apply lookup_app_Some in Hi as [Hi|[Hge Hi]].
    + rewrite list_lookup_fmap in Hi. apply fmap_Some in Hi as (j & E & ->). apply lookup_seq in E as [-> Hlt]. simpl in *. apply rg_run; try done; lia.
    + rewrite length_fmap, length_seq in *. rewrite list_lookup_fmap in Hi. apply fmap_Some in Hi as (l & E & ->). apply lookup_lt_Some in E.
      apply rg_clients; [done|lia|done|lia].
Qed.
(** Every task is in as many places as it was made runnable and not yet run. *)
Lemma sched_counts fuel ts s :
  reach (sched_pool opt W fuel cs) (ts, s) ->
  exists g, dinv (pinnedTo opt) W n (view_of s) g /\ length (workers s) = W /\
    (forall t, cnt t (dispatched s) + cnt t (queued s) + total n (fun l => cnt t (hand l)) g = cnt t (scheduled s))%nat /\
    (forall i X f k, ts !! i = Some (Act X f k) -> f s = [] -> dmay_wait opt W i s g) /\
    (forall i a, ts !! i = Some (Ret a) -> ready i [] s g).
Proof.
  intros Hr. apply (pool_ok_reach R) with (Q := fun i _ => ready i []) in Hr; [|apply sched_ok].
  destruct (pool_ok_waits R _ ts s Hr) as (g & [HL HI] & Hw & Hret). exists g. splits; try done.
  intros t. rewrite (queued_cnt t s W) by done. pose proof (di_count _ _ _ _ _ HI t) as H. simpl in H. unfold relw in *. simpl in *. lia.
Qed.

(** Nobody can move: whoever has not returned is down. *)
Lemma sched_halted fuel ts s :
  reach (sched_pool opt W fuel cs) (ts, s) -> hasDriver opt = false -> (forall i th, ts !! i = Some th -> halted s th) ->
  (forall i, (i < W)%nat -> ts !! i <> Some (Ret tt)) ->
  exists g, dinv (pinnedTo opt) W n (view_of s) g /\ length (workers s) = W /\
    (forall t, cnt t (dispatched s) + cnt t (queued s) + total n (fun l => cnt t (hand l)) g = cnt t (scheduled s))%nat /\
    (forall i, (i < n)%nat -> quiet (g i)) /\ (forall i, (i < W)%nat -> ph (g i) = Down /\ parker (wk s i) = false).
Proof.
  intros Hr Hd Hh Hnr. destruct (sched_counts fuel ts s Hr) as (g & HI & HL & Hc & Hw & Hret).
  assert (Hlen : length ts = n).
  { apply reach_length in Hr. simpl in Hr. rewrite <- Hr, length_app, !length_fmap, length_seq. done. }
  exists g. splits; try done.
  - intros i Hi. destruct (lookup_lt_is_Some_2 ts i) as [th Hth]; [lia|]. destruct (Hh i th Hth) as [->|(X & f & k & -> & Hf)].
    + destruct (Hret i tt Hth) as (e & fl & _ & ->). done.
    + destruct (Hw i X f k Hth Hf) as [?|(_ & _ & ? & _)]; [congruence|done].
  - intros i Hi. destruct (lookup_lt_is_Some_2 ts i) as [th Hth]; [lia|]. destruct (Hh i th Hth) as [->|(X & f & k & -> & Hf)].
    + by destruct (Hnr i Hi).
    + destruct (Hw i X f k Hth Hf) as [?|(_ & ? & _ & ?)]; [congruence|done].
Qed.

Lemma quiet_none g b : (forall i, (i < n)%nat -> quiet (g i)) -> (forall d, b d = true -> d <> nodebt) -> ~ some n (fun l => b (db l)) g.
Proof. intros Hq Hb (j & Hj & E). destruct (Hq j Hj) as (_ & Hd & _). by apply (Hb (db (g j))). Qed.

(** Down, and no wake-up is there or on its way: its queues are empty. *)
Lemma down_empty s g i :
  dinv (pinnedTo opt) W n (view_of s) g -> (forall i, (i < n)%nat -> quiet (g i)) -> (i < W)%nat -> ph (g i) = Down -> parker (wk s i) = false ->
  worker_tasks (wk s i) = [].
Proof.
  intros HI Hq Hi Hd Hp. assert (Hin : (i < n)%nat) by (unfold n; lia).
  destruct (di_sleep _ _ _ _ _ HI i Hi) as [A1 A2 A3 _ _ A6]. pose proof (di_num _ _ _ _ _ HI) as (_ & _ & _ & Hok & _).
  destruct (Hok i Hin) as (_ & _ & _ & _ & K5). destruct (K5 Hd) as (He & Hf & Ha). simpl in *.
  unfold worker_tasks. rewrite A1, A2, A3 by done. simpl. destruct (pinnedInbox (wk s i)) as [|t q] eqn:E; [done|exfalso].
  destruct A6 as [[Hw|Hw]|Hw]; [by right|done|simpl in Hw; congruence| |].
  - apply (quiet_none g (fun d => bool_decide (claim d = Some i)) Hq); [|exact Hw]. intros d E1 ->. by apply bool_decide_eq_true in E1.
  - apply (quiet_none g (fun d => bool_decide (owesP d = Some i)) Hq); [|exact Hw]. intros d E1 ->. by apply bool_decide_eq_true in E1.
Qed.

Lemma down_injection s g :
  dinv (pinnedTo opt) W n (view_of s) g -> (forall i, (i < n)%nat -> quiet (g i)) ->
  (forall i, (i < W)%nat -> ph (g i) = Down /\ parker (wk s i) = false) -> injection s = [].
Proof.
  intros HI Hq Hd. destruct (injection s) as [|t l] eqn:E; [done|exfalso].
  destruct (di_inj _ _ _ _ _ HI) as [(j & Hj & Hor)|Ho]; [simpl; by rewrite E| |].
  - destruct (Hd j Hj) as [Hdj Hpj]. destruct Hor as [?|[Hp|Hc]]; [done|simpl in Hp; congruence|].
    apply (quiet_none g (fun d => bool_decide (claim d = Some j)) Hq); [|exact Hc]. intros d E1 ->. by apply bool_decide_eq_true in E1.
  - apply (quiet_none g owesI Hq); [|exact Ho]. by intros d E1 ->.
Qed.
End spec.

(** C6: Sched: in every interleaving of workers and other threads, a task is never
    in two places: for every task, how often it has been run plus how often it
    is queued is at most how often it was made runnable; and a task that is
    pinned to a worker is queued in that worker's inbox and nowhere else. *)
Theorem sched_exactly_once (opt : options) (W fuel : nat) (cs : list (list client_op)) (ts : list (prog SchedulerCore unit)) (s : SchedulerCore) :
  (1 <= W <= 64)%nat -> (forall t k, pinnedTo opt t = Some k -> (k < W)%nat) ->
  reach (sched_pool opt W fuel cs) (ts, s) ->
  (forall t, cnt t (dispatched s) + cnt t (queued s) <= cnt t (scheduled s))%nat /\
  (forall t k j w, pinnedTo opt t = Some k -> workers s !! j = Some w -> t ∈ worker_tasks w -> j = k /\ t ∈ pinnedInbox w) /\
  (forall t k, pinnedTo opt t = Some k -> t ∉ injection s).
Proof.
  intros HW Hpins Hr. destruct (sched_counts opt W cs HW Hpins fuel ts s Hr) as (g & HI & HL & Hc & _). splits.
  - intros t. specialize (Hc t). lia.
  - intros t k j w Ht Hj Hin. pose proof (lookup_lt_Some _ _ _ Hj) as Hlt. rewrite HL in Hlt.
    destruct (unpinned opt W _ _ g j HI Hlt) as (U1 & U2 & U3 & U4). simpl in *. unfold wk in *. rewrite Hj in *. simpl in *.
    rewrite list.Forall_forall in *. unfold worker_tasks in Hin. rewrite !elem_of_app in Hin.
    destruct Hin as [Hin|[Hin|[Hin|Hin]]]; [by rewrite (U1 t Hin) in Ht|by rewrite (U2 t Hin) in Ht|by rewrite (U3 t Hin) in Ht|].
    rewrite (U4 t Hin) in Ht. by injection Ht as ->.
  - intros t k Ht Hin. pose proof (inj_unpinned opt W _ _ g HI) as U. rewrite list.Forall_forall in U. by rewrite (U t Hin) in Ht.
Qed.

(** C5: Sched: without a driver, when no thread can move and no worker has
    returned, nothing waits in the injection queue, a local queue, a LIFO slot,
    a gathered batch or an inbox, and every task has been run exactly as often
    as it was made runnable. *)
Theorem sched_no_lost_work (opt : options) (W fuel : nat) (cs : list (list client_op)) (ts : list (prog SchedulerCore unit)) (s : SchedulerCore) :
  (1 <= W <= 64)%nat -> (forall t k, pinnedTo opt t = Some k -> (k < W)%nat) -> hasDriver opt = false ->
  reach (sched_pool opt W fuel cs) (ts, s) ->
  (forall i th, ts !! i = Some th -> halted s th) ->
  (forall i, (i < W)%nat -> ts !! i <> Some (Ret tt)) ->
  queued s = [] /\ dispatched s ≡ₚ scheduled s.
Proof.
  intros HW Hpins Hd Hr Hh Hnr. destruct (sched_halted opt W cs HW Hpins fuel ts s Hr Hd Hh Hnr) as (g & HI & HL & Hc & Hq & Hdown).
  assert (Hqueued : queued s = []).
  { unfold queued. rewrite (down_injection opt W cs s g HI Hq Hdown). simpl. apply mjoin_all_nil. intros w Hw. apply list_elem_of_lookup in Hw as [j Hj].
    pose proof (lookup_lt_Some _ _ _ Hj) as Hlt. rewrite HL in Hlt. destruct (Hdown j Hlt) as [Hdj Hpj].
    pose proof (down_empty opt W cs HW s g j HI Hq Hlt Hdj Hpj) as He. unfold wk in He. by rewrite Hj in He. }
  split; [done|]. apply Permutation_cnt. intros t. specialize (Hc t). rewrite Hqueued, cnt_nil in Hc. rewrite total_zero in Hc; [lia|].
  intros j Hj. destruct (Hq j Hj) as (_ & _ & ->). done.
Qed.

(** ** Runs *)

(** Two workers, no driver; task 0 wakes task 1, which is pinned to worker 1,
    and both finish; two threads spawn them. *)
Definition small : options :=
  Options false 0 0 (fun t => if (t =? 1)%nat then Some 1%nat else None)
    (fun t turn => if (t =? 0)%nat then ([AWake 1], EFinish) else ([], EFinish)).
Definition small_clients : list (list client_op) := [[DSpawn 0]; [DSpawn 2; DWake 2]].
Definition small_final := run_avail (round_robin 4 400) (sched_pool small 2 40 small_clients).

Lemma small_pins t k : pinnedTo small t = Some k -> (k < 2)%nat.
Proof. simpl. destruct (t =? 1)%nat; [intros [= <-]; lia|done]. Qed.

Lemma not_returned W (ts : list (prog SchedulerCore unit)) :
  forallb (fun th => negb (returnedb th)) (take W ts) = true -> forall i, (i < W)%nat -> ts !! i <> Some (Ret tt).
Proof.
  intros H i Hi E. rewrite List.forallb_forall in H. rewrite <- (lookup_take_lt ts W i Hi) in E. apply list_elem_of_lookup_2 in E.
  apply list_elem_of_In in E. by specialize (H _ E).
Qed.

(** One worker and a driver; one thread spawns a task. *)
Definition one : options := Options true 0 0 (fun _ => None) (fun _ _ => ([], EFinish)).
Definition lost_schedule : list (nat * nat) := replicate 28 (0, 0)%nat ++ replicate 40 (1, 0)%nat ++ replicate 100 (0, 0)%nat.
Definition lost_final := run_avail lost_schedule (sched_pool one 1 30 [[DSpawn 0]]).

(** C30: Sched: with a driver a wake-up can be lost.  A notification that claims an
    idle worker between the worker's last look at the queues and its
    [tryBecomeTimekeeper] does not find it to be the timekeeper, so it sets
    the worker's parker and does not wake the driver; the worker then sleeps in
    the driver without a timeout: nobody can move, the worker has not
    returned, and the task stays in the injection queue. *)
Theorem sched_driver_lost_wakeup :
  exists ts s, reach (sched_pool one 1 30 [[DSpawn 0]]) (ts, s) /\ (forall i th, ts !! i = Some th -> halted s th) /\
    ts !! 0%nat <> Some (Ret tt) /\ queued s = [0%nat] /\ dispatched s = [] /\ parker (wk s 0) = true /\ timekeeper s = Some 0%nat.
Proof.
  exists lost_final.1, lost_final.2. split.
  - apply (run_avail_reach lost_schedule). unfold lost_final. apply surjective_pairing.
  - split; [apply haltedb_all; vm_compute; reflexivity|]. split; [apply (not_returned 1); [vm_compute; reflexivity|lia]|]. vm_compute. repeat split.
Qed.

Lemma sched_exactly_once_witness :
  dispatched small_final.2 = [0; 2; 1; 2]%nat /\
  forall t, (cnt t (dispatched small_final.2) + cnt t (queued small_final.2) <= cnt t (scheduled small_final.2))%nat.
Proof.
  split; [vm_compute; reflexivity|].
  destruct (sched_exactly_once small 2 40 small_clients small_final.1 small_final.2) as (H & _); [lia|exact small_pins| |exact H].
  apply (run_avail_reach (round_robin 4 400)). unfold small_final. apply surjective_pairing.
Defined.

Lemma sched_no_lost_work_witness :
  length (scheduled small_final.2) = 4%nat /\ dispatched small_final.2 ≡ₚ scheduled small_final.2.
Proof.
  split; [vm_compute; reflexivity|].
  destruct (sched_no_lost_work small 2 40 small_clients small_final.1 small_final.2) as (_ & H); [lia|exact small_pins|reflexivity| | | |exact H].
  - apply (run_avail_reach (round_robin 4 400)). unfold small_final. apply surjective_pairing.
  - apply haltedb_all. vm_compute. reflexivity.
  - apply not_returned. vm_compute. reflexivity.
Defined.

