(* ===== verification/StopSource.v ===== *)
(** * StopSource: what exec/ relies on of the sender library's stop tokens

    The stop source and its callbacks belong to the sender library.  The class has its
    operations, and as laws what exec/detail/waiting_operation.hpp relies on: registering a
    callback runs it at once if stop was requested; requesting stop runs the registered
    callback, once; when its destructor returns, the callback is not running on another
    thread and will not run. *)

From Stdlib Require Import ZArith Lia.
From stdpp Require Import base tactics list numbers option strings.
From S2P Require Import Prelude.
Local Open Scope nat_scope.

(** The stop callback. *)
Inductive cbstate := CbNone | CbRegistered | CbRunning (by_ : nat).
#[global] Instance cbstate_eq_dec : EqDecision cbstate.
Proof. solve_decision. Defined.

(** What the sender library documents of its stop source and callback, as actions of
    thread [i]: [s_construct] and [s_request] say whether the callback now runs here,
    [s_destroy] gives nothing while it has to wait. *)
Class StopSource := {
  sstate : Type;
  stop_requested : sstate -> bool;
  callback_of : sstate -> cbstate;
  s_init : sstate;
  s_construct : nat -> sstate -> sstate * bool;
  s_destroy : nat -> sstate -> option sstate;
  s_request : nat -> sstate -> sstate * bool;
  s_return : nat -> sstate -> sstate;
  s_init_fresh : stop_requested s_init = false /\ callback_of s_init = CbNone;
  s_construct_runs i s : callback_of s = CbNone ->
    let r := stop_requested s in
    (s_construct i s).2 = r /\ stop_requested (s_construct i s).1 = r /\
    callback_of (s_construct i s).1 = if r then CbRunning i else CbRegistered;
  s_destroy_waits i s : s_destroy i s = None <-> exists j, j <> i /\ callback_of s = CbRunning j;
  s_destroy_ends i s s' : s_destroy i s = Some s' -> stop_requested s' = stop_requested s /\ callback_of s' = CbNone;
  s_request_runs i s : stop_requested (s_request i s).1 = true /\
    if negb (stop_requested s) && bool_decide (callback_of s = CbRegistered)
    then (s_request i s).2 = true /\ callback_of (s_request i s).1 = CbRunning i
    else (s_request i s).2 = false /\ callback_of (s_request i s).1 = callback_of s;
  s_return_ends i s : stop_requested (s_return i s) = stop_requested s /\
    callback_of (s_return i s) = if decide (callback_of s = CbRunning i) then CbNone else callback_of s
}.

(** A stop source with one callback. *)
Definition source_destroy (i : nat) (s : bool * cbstate) : option (bool * cbstate) :=
  match s.2 with CbRunning j => if (j =? i)%nat then Some (s.1, CbNone) else None | _ => Some (s.1, CbNone) end.

#[local] Instance stop_source_example : StopSource.
Proof.
  refine {|
    sstate := bool * cbstate;
    stop_requested := fst;
    callback_of := snd;
    s_init := (false, CbNone);
    s_construct i s := if s.1 then ((true, CbRunning i), true) else ((false, CbRegistered), false);
    s_destroy := source_destroy;
    s_request i s := if negb s.1 && bool_decide (s.2 = CbRegistered) then ((true, CbRunning i), true) else ((true, s.2), false);
    s_return i s := (s.1, if decide (s.2 = CbRunning i) then CbNone else s.2)
  |}.
  - done.
  - by intros i [[] c].
  - intros i [r c]. unfold source_destroy. simpl. destruct c as [| |j]; [split; [done|]; by intros (j & _ & ?)..|].
    destruct (Nat.eqb_spec j i) as [->|Hj]; split; try done; [|by exists j]. intros (k & Hk & E). congruence.
  - intros i [r c] s'. unfold source_destroy. simpl. destruct c as [| |j]; [by intros [= <-]..|]. destruct (j =? i)%nat; [|done]. by intros [= <-].
  - intros i [r c]. simpl. by destruct (negb r && bool_decide (c = CbRegistered)).
  - done.
Defined.
