(* ===== verification/ExecWait.v ===== *)
(** * ExecWait: a task waits for an asynchronous operation

    exec/detail/waiting_operation.hpp ([stop_listener], [waiting_operation]), the
    operations of exec/sync.hpp over it ([event_operation], [transfer_operation]) and
    exec/wait.hpp ([wait_receiver], [run_wait]): the task starts an operation that lives
    in its frame and parks until the receiver has been completed, by the task itself
    inside [start], by whoever notifies the waiter, or by whoever requests stop.

    - [alive] says that the frame with the operation, its receiver and the wait state
      is still there; every access to them checks it.
    - The primitive waited for is what Semaphore.v, WaitGroup.v, Channel.v,
      Completion.v, Stream.v and Registration.v promise: things that can be taken
      ([avail]) or a state that lasts ([over]: ready, closed), and the waiter in its queue.
      [hands] says that a notification brings the thing (a permit), otherwise it
      means "try again"; [cancelFirst] in which order an attempt looks at the waiter's
      [cancelled] flag.
    - The stop source belongs to the sender library (StopSource.v).
    - [token] is the wake-up pending for the task (ParkSpec.v); the task is shielded
      from forced unwinding.
    - [results], [produced] and [stolen] are histories. *)

From Stdlib Require Import ZArith Lia.
From stdpp Require Import base tactics list numbers option strings functions.
From S2P Require Import Prelude Conc StopSource.

Inductive completion := SetValue | SetClosed | SetStopped.
#[global] Instance completion_eq_dec : EqDecision completion.
Proof. solve_decision. Defined.

Inductive TransferResult := TDone | TClosed | TWouldBlock | TEnqueued | TCancelled.

Section source.
Context `{SS : StopSource}.

Record eworld := EWorld {
  source : sstate;
  active : bool;
  queued : bool;
  cancelled : bool;
  avail : nat;
  over : bool;
  alive : bool;
  done : bool;
  token : bool;
  stopping : bool;
  results : list completion;
  produced : nat;
  stolen : nat
}.

Definition requested (w : eworld) : bool := stop_requested (source w).
Definition cb (w : eworld) : cbstate := callback_of (source w).

Definition set_source s w := EWorld s (active w) (queued w) (cancelled w) (avail w) (over w) (alive w) (done w) (token w) (stopping w) (results w) (produced w) (stolen w).
Definition set_active b w := EWorld (source w) b (queued w) (cancelled w) (avail w) (over w) (alive w) (done w) (token w) (stopping w) (results w) (produced w) (stolen w).
Definition set_queue q c w := EWorld (source w) (active w) q c (avail w) (over w) (alive w) (done w) (token w) (stopping w) (results w) (produced w) (stolen w).
Definition set_prim q a o p s w := EWorld (source w) (active w) q (cancelled w) a o (alive w) (done w) (token w) (stopping w) (results w) p s.
Definition set_dead w := EWorld (source w) (active w) (queued w) (cancelled w) (avail w) (over w) false (done w) (token w) (stopping w) (results w) (produced w) (stolen w).
Definition set_done w := EWorld (source w) (active w) (queued w) (cancelled w) (avail w) (over w) (alive w) true (token w) (stopping w) (results w) (produced w) (stolen w).
Definition set_token b w := EWorld (source w) (active w) (queued w) (cancelled w) (avail w) (over w) (alive w) (done w) b (stopping w) (results w) (produced w) (stolen w).
Definition set_stopping w := EWorld (source w) (active w) (queued w) (cancelled w) (avail w) (over w) (alive w) (done w) (token w) true (results w) (produced w) (stolen w).
Definition add_result r w := EWorld (source w) (active w) (queued w) (cancelled w) (avail w) (over w) (alive w) (done w) (token w) (stopping w) (results w ++ [r]) (produced w) (stolen w).

Notation eprog := (prog eworld).

(** An access to the operation or the wait state. *)
Definition touch {R} (f : eworld -> eworld * R) : eprog R :=
  Act (option R) (fun w => if alive w then [(fst (f w), Some (snd (f w)))] else [(w, None)])
    (fun o => match o with Some r => Ret r | None => Fatal "operation used after its end" end).
Definition tload {R} (f : eworld -> R) : eprog R := touch (fun w => (w, f w)).
Definition tstore (f : eworld -> eworld) : eprog unit := touch (fun w => (f w, tt)).

(** ** The receiver: [wait_receiver] *)

(** [starting]: this thread is inside [start] ([starting_wait == state]). *)
Definition finish (starting : bool) : eprog unit :=
  if starting then tstore set_done
  else
    tload (fun _ => tt);;;
    tstore set_done;;;
    store (set_token true).

(** [set_value], [set_stopped] *)
Definition complete (starting : bool) (r : completion) : eprog unit :=
  tstore (add_result r);;; finish starting.

(** ** The stop listener *)

(** The callback's destructor, on thread [i]. *)
Definition destroyCallback (i : nat) : eprog unit :=
  Act unit (fun w => match s_destroy i (source w) with Some s => [(set_source s w, tt)] | None => [] end) Ret.

(** [stop_listener::stop] *)
Definition stopListener (i : nat) : eprog unit :=
  a <- tload active;;
  if a : bool then tstore (set_active false);;; destroyCallback i else Ret tt.

Section operation.
Context (hands cancelFirst : bool).

(** [finish_value], [finish_stopped] *)
Definition finishOp (i : nat) (starting : bool) (r : completion) : eprog unit :=
  stopListener i;;; complete starting r.

(** ** The primitive *)

(** [acquireOrEnqueue], [sendOrEnqueue], [watch], ...; without a waiter, [ready],
    [tryAcquire], ... *)
Definition attempt_locked (enqueue : bool) (w : eworld) : eworld * TransferResult :=
  if enqueue && cancelFirst && cancelled w then (w, TCancelled)
  else match avail w with
  | S a => (set_prim (queued w) a (over w) (produced w) (stolen w) w, TDone)
  | O =>
      if over w then (w, TClosed)
      else if negb enqueue then (w, TWouldBlock)
      else if cancelled w then (w, TCancelled)
      else (set_queue true (cancelled w) w, TEnqueued)
  end.
Definition attempt (enqueue : bool) : eprog TransferResult := touch (attempt_locked enqueue).

(** [cancelWaiter]: true if the waiter was queued, otherwise it is marked. *)
Definition cancel_wait : eprog bool :=
  touch (fun w => if queued w then (set_queue false (cancelled w) w, true) else (set_queue (queued w) true w, false)).

(** ** The operation *)

(** [settle], [finished]: whether the operation is complete *)
Definition settle (i : nat) (starting : bool) (r : TransferResult) : eprog bool :=
  match r with
  | TDone => finishOp i starting SetValue;;; Ret true
  | TClosed => finishOp i starting SetClosed;;; Ret true
  | TCancelled => finishOp i starting SetStopped;;; Ret true
  | TWouldBlock | TEnqueued => Ret false
  end.

Definition try_now (i : nat) (starting : bool) : eprog bool :=
  r <- attempt false;; settle i starting r.
Definition drive (i : nat) (starting : bool) : eprog unit :=
  r <- attempt true;; settle i starting r;;; Ret tt.

(** [waiting_operation::notified], on thread [i]; [closing] when the notification
    says that the event has happened for good. *)
Definition on_notified (i : nat) (closing : bool) : eprog unit :=
  if hands then settle i false (if closing then TClosed else TDone);;; Ret tt
  else drive i false.

(** [on_stop] *)
Definition on_stop (i : nat) (starting : bool) : eprog unit :=
  b <- cancel_wait;;
  if b : bool then finishOp i starting SetStopped else Ret tt.

(** The callback returns to the source that called it. *)
Definition endCallback (i : nat) : eprog unit := store (fun w => set_source (s_return i (source w)) w).

(** [stop_listener::listen] *)
Definition listen (i : nat) : eprog unit :=
  r <- touch (fun w => (set_source (s_construct i (source w)).1 w, (s_construct i (source w)).2));;
  (if r : bool then on_stop i true;;; endCallback i else Ret tt);;;
  tstore (set_active true).

(** [waiting_operation::start] *)
Definition start (i : nat) : eprog unit :=
  s <- tload requested;;
  if s : bool then complete true SetStopped
  else
    b <- try_now i true;;
    if b : bool then Ret tt
    else listen i;;; drive i true.

(** [request_stop] *)
Definition request_stop (i : nat) : eprog unit :=
  r <- rmw (fun w => (set_source (s_request i (source w)).1 w, (s_request i (source w)).2));;
  if r : bool then on_stop i false;;; endCallback i else Ret tt.

(** ** The task: [run_wait] *)

Definition park : eprog unit := Act unit (fun w => if token w then [(set_token false w, tt)] else []) Ret.

Fixpoint wait_loop (fuel : nat) (forwarded : bool) : eprog unit :=
  match fuel with
  | O => Starved
  | S fuel' =>
      d <- tload done;;
      if d : bool then Ret tt
      else
        s <- load stopping;;
        if negb forwarded && s then (request_stop 0;;; wait_loop fuel' true)
        else (park;;; wait_loop fuel' forwarded)
  end.

(** What the receiver was given; the frame ends with the operation in it. *)
Definition run_wait (fuel : nat) : eprog (list completion) :=
  start 0;;;
  wait_loop fuel false;;;
  r <- tload results;;
  stopListener 0;;;
  store set_dead;;;
  Ret r.

(** ** The others *)

Inductive env_op := Release | Close | Steal | RequestStop | SchedulerStop | Stale.

(** A permit, an item: given to the waiter, or put down for whoever comes. *)
Definition release_locked (w : eworld) : eworld * bool :=
  if queued w then (set_prim false (if hands then avail w else S (avail w)) (over w) (S (produced w)) (stolen w) w, true)
  else (set_prim (queued w) (S (avail w)) (over w) (S (produced w)) (stolen w) w, false).
Definition close_locked (w : eworld) : eworld * bool :=
  (set_prim false (avail w) true (produced w) (stolen w) w, queued w).

Definition env_perform (i : nat) (o : env_op) : eprog unit :=
  match o with
  | Release => n <- rmw release_locked;; if n : bool then on_notified i false else Ret tt
  | Close => n <- rmw close_locked;; if n : bool then on_notified i true else Ret tt
  | Steal => store (fun w => match avail w with S a => set_prim (queued w) a (over w) (produced w) (S (stolen w)) w | O => w end)
  | RequestStop => request_stop i
  | SchedulerStop => store set_stopping;;; store (set_token true)
  | Stale => store (set_token true)
  end.

Fixpoint env_run (i : nat) (l : list env_op) : eprog unit :=
  match l with
  | [] => Ret tt
  | o :: l => env_perform i o;;; env_run i l
  end.

Definition exec_world : eworld := EWorld s_init false false false 0 false true false false false [] 0 0.
Definition exec_pool (fuel : nat) (l : list (list env_op)) : config eworld (list completion) :=
  (run_wait fuel :: imap (fun i ops => env_run (S i) ops;;; Ret []) l, exec_world).
End operation.
End source.
Notation eprog := (prog eworld).
