(* ===== verification/ExecWaitSpec.v ===== *)
(** * ExecWait: one completion, on an operation that is still there

    Whoever took the waiter out of the queue has the operation in hand, alone: the
    starting task, a notifier or the thread that requests stop.  The completion is
    its last access but for the wake-up, for which it uses a copy of the task's token. *)

From Stdlib Require Import ZArith Lia.
From stdpp Require Import base tactics list numbers option strings functions.
From S2P Require Import Prelude Conc Sums StopSource ExecWait.
Open Scope nat_scope.

(** Who has the operation: thread [i], with the thing that was waited for or without;
    nobody, it is in the queue; thread [i], which is completing it; it is complete. *)
Inductive place := HHas (i : nat) (item : bool) | HQueue | HFin (i : nat) | HDone.
#[global] Instance place_eq_dec : EqDecision place.
Proof. solve_decision. Defined.

(** [ow i]: thread [i] is about to wake the task. *)
Record xghost := XG { hand : place; ow : nat -> bool }.

Definition is_value (r : completion) : bool := match r with SetValue => true | _ => false end.
Definition item_of (h : place) : nat := match h with HHas _ true => 1 | _ => 0 end.
Definition values (l : list completion) : nat := lsum (fun r => if is_value r then 1 else 0) l.
Definition completed (h : place) : bool := match h with HFin _ | HDone => true | _ => false end.

Section spec.
Context `{SS : StopSource} (n : nat).

(** A completion has its reason. *)
Definition res_ok (r : completion) (w : eworld) : Prop :=
  match r with SetValue => True | SetClosed => over w = true | SetStopped => requested w = true end.

Definition waking (g : xghost) : Prop := some n id (ow g).

Record xinv (w : eworld) (g : xghost) : Prop := {
  xi_alive : alive w = false -> hand g = HDone;
  xi_queued : queued w = bool_decide (hand g = HQueue);
  xi_queue : hand g = HQueue -> active w = true /\ cancelled w = false /\ avail w = 0 /\ over w = false /\ cb w <> CbNone;
  xi_cb : requested w = true -> cb w <> CbRegistered;
  xi_run : forall j, cb w = CbRunning j -> requested w = true /\ (j < n);
  xi_cancelled : cancelled w = true -> requested w = true;
  xi_has : forall i b, hand g = HHas i b -> (i < n);
  xi_fin : forall i, hand g = HFin i -> (i < n);
  xi_listener : completed (hand g) = true -> cb w = CbNone /\ active w = false;
  xi_results : length (results w) = if completed (hand g) then 1 else 0;
  xi_reason : forall r, r ∈ results w -> res_ok r w;
  xi_done : done w = bool_decide (hand g = HDone);
  xi_count : produced w = (avail w + stolen w + item_of (hand g) + values (results w))
}.

(** The task would be woken. *)
Definition woken_by (b : bool) (w : eworld) (g : xghost) : Prop := b = false \/ waking g \/ token w = true.

Record xguar (j : nat) (a b : eworld * xghost) : Prop := {
  xg_has : forall i x, i <> j -> hand a.2 = HHas i x <-> hand b.2 = HHas i x;
  xg_fin : forall i, i <> j -> hand a.2 = HFin i <-> hand b.2 = HFin i;
  xg_run : forall i, i <> j -> cb a.1 = CbRunning i <-> cb b.1 = CbRunning i;
  xg_ow : forall i, i <> j -> ow b.2 i = ow a.2 i;
  xg_held : forall i x, i <> j -> hand a.2 = HHas i x ->
    active b.1 = active a.1 /\ (cb a.1 = CbNone -> cb b.1 = CbNone) /\
    (cancelled a.1 = true \/ cb a.1 <> CbNone -> cancelled b.1 = true \/ cb b.1 <> CbNone);
  xg_requested : requested a.1 = true -> requested b.1 = true;
  xg_over : over a.1 = true -> over b.1 = true;
  xg_cancelled : cancelled a.1 = true -> cancelled b.1 = true;
  xg_done : hand a.2 = HDone -> hand b.2 = HDone /\ results b.1 = results a.1;
  xg_task : j <> 0 -> alive b.1 = alive a.1 /\
    (woken_by (done a.1) a.1 a.2 -> woken_by (done b.1) b.1 b.2) /\
    (woken_by (stopping a.1) a.1 a.2 -> woken_by (stopping b.1) b.1 b.2)
}.

(** Thread [i] has nothing to do with the operation. *)
Definition apart (i : nat) (w : eworld) (g : xghost) : Prop :=
  (forall x, hand g <> HHas i x) /\ hand g <> HFin i /\ cb w <> CbRunning i /\ ow g i = false.

Definition xwait (i : nat) (w : eworld) (g : xghost) : Prop :=
  ((exists j, j <> i /\ cb w = CbRunning j) /\ ow g i = false /\ hand g <> HFin i) \/
  (i = 0 /\ apart 0 w g /\ token w = false /\ woken_by (done w) w g /\ (requested w = true \/ woken_by (stopping w) w g)).

Definition xproto : protocol eworld xghost := WaitProtocol xinv xguar xwait.
Notation R := xproto.

Lemma xguar_refl j x : xguar j x x.
Proof. split; intros; tauto. Qed.

Lemma x_touch {A B} i (f : eworld -> eworld * B) (q : B -> eprog A) P Q :
  (forall w g, xinv w g -> P w g -> alive w = true /\
     exists g' P', xinv (f w).1 g' /\ xguar i (w, g) ((f w).1, g') /\ P' (f w).1 g' /\ stable R i P' /\ rg R i (q (f w).2) P' Q) ->
  rg R i (bind (touch f) q) P Q.
Proof.
  intros H. split; [intros w g _ _; by destruct (alive w)|]. intros w g w' r HI HP Hin. destruct (H w g HI HP) as (Ha & g' & P' & H1 & H2 & H3 & H4 & H5).
  rewrite Ha in Hin. apply list_elem_of_singleton in Hin. injection Hin as -> ->. by exists g', P'.
Qed.

Lemma x_tload {A B} i (f : eworld -> B) (q : B -> eprog A) P Q :
  (forall w g, xinv w g -> P w g -> alive w = true /\ exists P', P' w g /\ stable R i P' /\ rg R i (q (f w)) P' Q) ->
  rg R i (bind (tload f) q) P Q.
Proof.
  intros H. apply x_touch. intros w g HI HP. destruct (H w g HI HP) as (Ha & P' & ? & ? & ?). split; [done|]. exists g, P'. splits; [done|apply xguar_refl|done..].
Qed.

(** A step of the thread that has the operation ([H]: where it stands). *)
Ltac xallowed H :=
  split; simpl; intros; rewrite ?H in *; try done; try (split; congruence); try congruence;
  try (unfold woken_by, waking in *; simpl in *; tauto).

(** ** What a thread knows *)

Definition quiet (i : nat) : asrt eworld xghost := fun w g => apart i w g /\ (i = 0 -> alive w = true).

(** Thread [i] has the operation, inside the stop callback or not. *)
Definition holds (i : nat) (item own : bool) : asrt eworld xghost := fun w g =>
  hand g = HHas i item /\ ow g i = false /\ if own then cb w = CbRunning i else cb w <> CbRunning i.
(** ... and what it says about the listener is so. *)
Definition listening (i : nat) (item own : bool) : asrt eworld xghost := fun w g =>
  holds i item own w g /\ (active w = false -> cb w = CbNone).
(** ... and it knows the completion. *)
Definition finishing (i : nat) (own : bool) (r : completion) : asrt eworld xghost := fun w g =>
  listening i (is_value r) own w g /\ res_ok r w.
(** The listener is gone. *)
Definition unheard (i : nat) (r : completion) : asrt eworld xghost := fun w g =>
  finishing i false r w g /\ cb w = CbNone /\ active w = false.

Lemma stable_quiet i : stable R i (quiet i).
Proof.
  intros j w g w' g' Hj _ _ [] [(H1 & H2 & H3 & H4) H5]. simpl in *. unfold quiet, apart. splits.
  - intros x E. apply (H1 x). by apply xg_has0.
  - intros E. apply H2. by apply xg_fin0.
  - intros E. apply H3. by apply xg_run0.
  - by rewrite xg_ow0.
  - intros ->. destruct (xg_task0 Hj) as [-> _]. by apply H5.
Qed.

Lemma stable_has_op i x own : stable R i (holds i x own).
Proof.
  intros j w g w' g' Hj _ _ [] (H1 & H2 & H3). simpl in *. unfold holds. splits; [by apply xg_has0|by rewrite xg_ow0|].
  destruct own; [by apply xg_run0|]. intros E. apply H3. by apply xg_run0.
Qed.

Lemma stable_listening i x own : stable R i (listening i x own).
Proof.
  intros j w g w' g' Hj HI HI' HG [H1 H2]. split; [by eapply (stable_has_op i x own j w g)|]. destruct H1 as (H1 & _). destruct HG. simpl in *.
  destruct (xg_held0 i x) as (-> & E & _); [done..|]. auto.
Qed.

Lemma stable_finishing i own r : stable R i (finishing i own r).
Proof.
  intros j w g w' g' Hj HI HI' HG [H1 H2]. split; [by eapply (stable_listening i _ own j w g)|]. destruct HG. destruct r; simpl in *; auto.
Qed.

Lemma stable_unheard i r : stable R i (unheard i r).
Proof.
  intros j w g w' g' Hj HI HI' HG (H1 & H2 & H3). split; [by eapply (stable_finishing i _ r j w g)|]. destruct H1 as [[(H1 & _) _] _]. destruct HG. simpl in *.
  destruct (xg_held0 i (is_value r)) as (-> & E & _); [done..|]. auto.
Qed.

Lemma stable_requested i : stable R i (fun w _ => requested w = true).
Proof. intros j w g w' g' Hj HI HI' []. done. Qed.

Lemma alive_unless w g : xinv w g -> hand g <> HDone -> alive w = true.
Proof. intros [] H. destruct (alive w); [done|]. by destruct H; auto. Qed.

Lemma alive_running w g j : xinv w g -> cb w = CbRunning j -> alive w = true.
Proof. intros HI E. apply (alive_unless w g); [done|]. intros Eh. destruct (xi_listener w g HI) as [? _]; [by rewrite Eh|]. congruence. Qed.

(** A step that leaves the ghost state and the stop callback alone. *)
Lemma xguar_same j w g w' :
  cb w' = cb w -> (forall i x, i <> j -> hand g = HHas i x -> active w' = active w) ->
  (requested w = true -> requested w' = true) -> (over w = true -> over w' = true) -> (cancelled w = true -> cancelled w' = true) ->
  results w' = results w ->
  (j <> 0 -> alive w' = alive w /\ done w' = done w /\ stopping w' = stopping w /\ (token w = true -> token w' = true)) ->
  xguar j (w, g) (w', g).
Proof.
  intros H1 H2 H3 H4 H5 H6 H7. split; simpl; rewrite ?H1; try tauto.
  - intros i x Hi Hh. rewrite (H2 i x) by done. tauto.
  - intros Hj. destruct (H7 Hj) as (-> & -> & -> & Ht). unfold woken_by. tauto.
Qed.

(** A step of the stop source. *)
Lemma source_inv w g s : xinv w g -> (requested w = true -> stop_requested s = true) -> (cancelled w = true -> stop_requested s = true) ->
  (hand g = HQueue -> callback_of s <> CbNone) -> (stop_requested s = true -> callback_of s <> CbRegistered) ->
  (forall j, callback_of s = CbRunning j -> stop_requested s = true /\ j < n) -> (completed (hand g) = true -> callback_of s = CbNone) ->
  xinv (set_source s w) g.
Proof.
  intros [] H1 H2 H3 H4 H5 H6. split; try done.
  - intros Eh. destruct (xi_queue0 Eh) as (? & ? & ? & ? & _). splits; try done. by apply H3.
  - intros Eh. destruct (xi_listener0 Eh) as [_ ?]. split; [by apply H6|done].
  - intros r Hr. specialize (xi_reason0 r Hr). destruct r; [done|done|by apply H1].
Qed.

Lemma source_guar i w g s : (requested w = true -> stop_requested s = true) -> (forall j, j <> i -> cb w = CbRunning j <-> callback_of s = CbRunning j) ->
  (forall j x, j <> i -> hand g = HHas j x -> (cb w = CbNone -> callback_of s = CbNone) /\ (cancelled w = true \/ cb w <> CbNone -> cancelled w = true \/ callback_of s <> CbNone)) ->
  xguar i (w, g) (set_source s w, g).
Proof. intros H1 H2 H3. split; try done. - intros j x Hj Hh. split; [done|]. by apply (H3 j x). Qed.

(** *** The completion *)

(** The listener is being stopped. *)
Definition unlisted (i : nat) (own : bool) (r : completion) : asrt eworld xghost := fun w g =>
  holds i (is_value r) own w g /\ res_ok r w /\ active w = false.

Lemma stable_unlisted i own r : stable R i (unlisted i own r).
Proof.
  intros j w g w' g' Hj HI HI' HG (H1 & H2 & H3). split; [by eapply (stable_has_op i _ own j w g)|]. destruct H1 as (H1 & _). destruct HG. simpl in *.
  destruct (xg_held0 i (is_value r)) as (-> & _); [done..|]. split; [destruct r; simpl in *; auto|done].
Qed.

(** What changes only the fields that the invariant relates to the operation in hand. *)
Lemma x_destroyCallback {A} i r own (q : unit -> eprog A) Q : (i < n) ->
  rg R i (q tt) (unheard i r) Q -> rg R i (bind (destroyCallback i) q) (unlisted i own r) Q.
Proof.
  intros Hi Hq. split.
  - intros w g HI ((H1 & H2 & H3) & H4 & H5) E. left. destruct (s_destroy i (source w)) eqn:Ed; [done|]. apply s_destroy_waits in Ed as (j & Hj & Ec).
    splits; [by exists j|done|by rewrite H1].
  - intros w g w' x HI ((H1 & H2 & H3) & H4 & H5) Hin. destruct (s_destroy i (source w)) as [s|] eqn:Ed; [|by apply not_elem_of_nil in Hin]. apply list_elem_of_singleton in Hin as [= -> ->].
    destruct (s_destroy_ends _ _ _ Ed) as [Er Ec].
    assert (Hr : forall j, j <> i -> cb w <> CbRunning j). { intros j Hj E. rewrite (proj2 (s_destroy_waits i (source w))) in Ed; [done|by exists j]. }
    exists g, (unheard i r). splits; [apply source_inv; rewrite ?Er, ?Ec, ?H1; try done|apply source_guar; rewrite ?Er, ?Ec, ?H1; try done| |apply stable_unheard|exact Hq].
    + by apply (xi_cancelled w g HI).
    + intros j Hj. split; [intros E; by destruct (Hr j)|done].
    + congruence.
    + split; [|by split]. split; [|destruct r; try done; simpl in *; unfold requested in *; simpl; congruence]. split; [|done]. split; [done|]. split; [done|]. unfold cb. simpl. by rewrite Ec.
Qed.

Lemma x_stopListener {A} i r own (q : unit -> eprog A) Q : (i < n) ->
  rg R i (q tt) (unheard i r) Q -> rg R i (bind (stopListener i) q) (finishing i own r) Q.
Proof.
  intros Hi Hq. unfold stopListener. apply rg_bind_assoc, x_tload. intros w g HI HP. pose proof HP as [[(H1 & H2 & H3) H4] H5].
  split; [apply (alive_unless w g HI); by rewrite H1|]. destruct (active w) eqn:Ea.
  - exists (finishing i own r). splits; [done|apply stable_finishing|]. clear w g HI HP H1 H2 H3 H4 H5 Ea.
    apply rg_bind_assoc, x_touch. intros w g HI [[(H1 & H2 & H3) H4] H5]. split; [apply (alive_unless w g HI); by rewrite H1|]. cbn [fst snd].
    exists g, (unlisted i own r). splits; [|apply xguar_same; try done; intros; congruence|by split|apply stable_unlisted|by apply x_destroyCallback].
    destruct HI. split; simpl; try done; rewrite ?H1 in *; done.
  - exists (unheard i r). splits; [|apply stable_unheard|exact Hq]. split; [|auto]. split; [|done]. split; [|auto]. split; [done|]. split; [done|]. by rewrite H4.
Qed.

(** The operation is complete; whether the task is still to be woken. *)
Definition ended (i : nat) (owing : bool) : asrt eworld xghost := fun w g =>
  hand g = HDone /\ ow g i = owing /\ (i = 0 -> alive w = true).

Lemma stable_ended i o : stable R i (ended i o).
Proof.
  intros j w g w' g' Hj _ _ [] (H1 & H2 & H3). simpl in *. unfold ended. splits; [by apply xg_done0|by rewrite xg_ow0|].
  intros ->. destruct (xg_task0 Hj) as [-> _]. by apply H3.
Qed.

Lemma ended_quiet i w g : xinv w g -> ended i false w g -> quiet i w g.
Proof.
  intros HI (H1 & H2 & H3). split; [|done]. unfold apart. rewrite H1. splits; try done. destruct (xi_listener w g HI) as [-> _]; [by rewrite H1|done].
Qed.

Lemma x_set_done {A} i owing (q : unit -> eprog A) Q : (i < n) -> (i <> 0 -> owing = true) ->
  rg R i (q tt) (ended i owing) Q -> rg R i (bind (tstore set_done) q) (fun w g => hand g = HFin i /\ ow g i = false) Q.
Proof.
  intros Hi Ho Hq. apply x_touch. intros w g HI [H1 H2]. assert (Ha : alive w = true) by (apply (alive_unless w g HI); by rewrite H1). split; [done|].
  cbn [fst snd]. exists (XG HDone (<[i := owing]> (ow g))), (ended i owing). splits; [|split; simpl|..|apply stable_ended|exact Hq].
  - destruct HI. split; simpl; try done; rewrite ?H1 in *; done.
  - intros j x Hj. rewrite H1. split; congruence.
  - intros j Hj. rewrite H1. split; congruence.
  - tauto.
  - intros j Hj. by rewrite fn_lookup_insert_ne.
  - intros j x Hj E. congruence.
  - tauto.
  - tauto.
  - tauto.
  - done.
  - intros Hi0. rewrite (Ho Hi0). assert (some n id (<[i:=true]> (ow g))) by by apply some_here. unfold woken_by, waking. simpl. tauto.
  - split; [done|]. simpl. by rewrite fn_lookup_insert.
Qed.

(** A pending wake-up of the task. *)
Lemma x_wake {A} i (P P' : asrt eworld xghost) (q : unit -> eprog A) Q :
  (forall w g, xinv w g -> P w g -> P' (set_token true w) (XG (hand g) (<[i := false]> (ow g)))) -> stable R i P' ->
  rg R i (q tt) P' Q -> rg R i (bind (store (set_token true)) q) P Q.
Proof.
  intros HP Hst Hq. apply rg_store. intros w g HI Hw. exists (XG (hand g) (<[i := false]> (ow g))), P'. splits; [|split; simpl|by apply HP|exact Hst|exact Hq]; try done.
  - destruct HI. by split.
  - intros j Hj. by rewrite fn_lookup_insert_ne.
  - intros _. unfold woken_by. simpl. tauto.
Qed.

Lemma x_complete {A} i starting r (q : unit -> eprog A) Q : (i < n) -> (starting = true -> i = 0) ->
  rg R i (q tt) (quiet i) Q -> rg R i (bind (complete starting r) q) (unheard i r) Q.
Proof.
  intros Hi Hs Hq. unfold complete. apply rg_bind_assoc, x_touch. intros w g HI ([[(H1 & H2 & H3) H4] H5] & H6 & H7). split; [apply (alive_unless w g HI); by rewrite H1|].
  cbn [fst snd]. set (P := fun (w : eworld) g => hand g = HFin i /\ ow g i = false).
  assert (HstP : stable R i P). { intros j w1 g1 w2 g2 Hj _ _ [] [E1 E2]. split; simpl in *; [by apply xg_fin0|by rewrite xg_ow0]. }
  exists (XG (HFin i) (ow g)), P. splits; [|xallowed H1|done|done|].
  - pose proof (xi_results w g HI) as Hl. rewrite H1 in Hl. apply nil_length_inv in Hl. destruct HI. split; simpl; try done; rewrite ?H1, ?Hl in *; try done.
    + intros E. by apply xi_alive0 in E.
    + by intros j [= <-].
    + intros r' Hr'%list_elem_of_singleton. subst. by destruct r.
    + simpl in *. unfold values in *. simpl. destruct r; simpl in *; lia.
  - unfold finish. destruct starting.
    + apply (x_set_done i false); [done|by rewrite Hs|]. eapply rg_pre; [|exact Hq]. intros w1 g1 ?. by apply ended_quiet.
    + apply rg_bind_assoc, x_tload. intros w1 g1 HI1 HP1. split; [apply (alive_unless w1 g1 HI1); by destruct HP1 as [-> _]|]. exists P. splits; [done..|].
      apply rg_bind_assoc, (x_set_done i true); [done..|]. eapply x_wake; [|apply stable_quiet|exact Hq]. intros w2 g2 HI2 (E1 & E2 & E3). apply ended_quiet.
      * destruct HI2. by split.
      * split; [done|]. simpl. by rewrite fn_lookup_insert.
Qed.

Lemma x_finishOp {A} i starting own r (q : unit -> eprog A) Q : (i < n) -> (starting = true -> i = 0) ->
  rg R i (q tt) (quiet i) Q -> rg R i (bind (finishOp i starting r) q) (finishing i own r) Q.
Proof. intros. unfold finishOp. by apply rg_bind_assoc, x_stopListener, x_complete. Qed.

(** *** The primitive *)

Section operation.
Context (hands cancelFirst : bool).

(** The holder has not got the thing and the listener stands. *)
Definition driving (i : nat) : asrt eworld xghost := fun w g =>
  holds i false false w g /\ active w = true /\ (cancelled w = true \/ cb w <> CbNone).

Lemma stable_driving i : stable R i (driving i).
Proof.
  intros j w g w' g' Hj HI HI' HG (H1 & H2 & H3). split; [by eapply (stable_has_op i _ _ j w g)|]. destruct H1 as (H1 & _). destruct HG. simpl in *.
  destruct (xg_held0 i false) as (-> & _ & E); [done..|]. auto.
Qed.

(** The task has started the operation, without a listener so far. *)
Definition unstarted : asrt eworld xghost := fun w g => listening 0 false false w g /\ active w = false.

Lemma stable_unstarted : stable R 0 unstarted.
Proof.
  intros j w g w' g' Hj HI HI' HG [H1 H2]. split; [by eapply (stable_listening 0 false false j w g)|]. destruct H1 as [(H1 & _) _]. destruct HG. simpl in *.
  destruct (xg_held0 0 false) as (-> & _); done.
Qed.

(** The thing is taken. *)
Lemma take_ok i own a w g : xinv w g -> listening i false own w g -> avail w = S a ->
  let w' := set_prim (queued w) a (over w) (produced w) (stolen w) w in
  let g' := XG (HHas i true) (ow g) in
  xinv w' g' /\ xguar i (w, g) (w', g') /\ finishing i own SetValue w' g'.
Proof.
  intros HI [(H1 & H2 & H3) H4] Ea. simpl. splits; [|xallowed H1|].
  - destruct HI. rewrite H1 in *. split; simpl in *; try done.
    + intros E. by apply xi_alive0 in E.
    + intros j x [= <- <-]. by eapply xi_has0.
    + rewrite Ea in *. lia.
  - split; [|done]. split; [by split|done].
Qed.

Lemma x_settle {A} i starting own r c (q : bool -> eprog A) Q : (i < n) -> (starting = true -> i = 0) ->
  match r with TDone => c = SetValue | TClosed => c = SetClosed | TCancelled => c = SetStopped | _ => False end ->
  rg R i (q true) (quiet i) Q -> rg R i (bind (settle i starting r) q) (finishing i own c) Q.
Proof. intros Hi Hs Hc Hq. destruct r; try done; subst c; cbn [settle]; by apply rg_bind_assoc, x_finishOp. Qed.

Lemma x_try_now {A} (q : bool -> eprog A) Q : (0 < n) ->
  rg R 0 (q true) (quiet 0) Q -> rg R 0 (q false) unstarted Q -> rg R 0 (bind (try_now cancelFirst 0 true) q) unstarted Q.
Proof.
  intros Hn Ht Hf. unfold try_now. apply rg_bind_assoc. unfold attempt. apply x_touch. intros w g HI [HP Ha]. pose proof HP as [(H1 & H2 & H3) H4].
  split; [apply (alive_unless w g HI); by rewrite H1|]. unfold attempt_locked. cbn [andb]. destruct (avail w) as [|a] eqn:Ea.
  - destruct (over w) eqn:Eo; cbn [fst snd negb].
    + exists g, (finishing 0 false SetClosed). splits; [done|apply xguar_refl|by split|apply stable_finishing|]. by eapply x_settle.
    + exists g, unstarted. splits; [done|apply xguar_refl|done|apply stable_unstarted|exact Hf].
  - destruct (take_ok 0 false a w g HI HP Ea) as (? & ? & ?). exists (XG (HHas 0 true) (ow g)), (finishing 0 false SetValue). splits; [done..|apply stable_finishing|].
    cbn [snd]. by eapply x_settle.
Qed.

Lemma x_drive {A} i starting (q : unit -> eprog A) Q : (i < n) -> (starting = true -> i = 0) ->
  rg R i (q tt) (quiet i) Q -> rg R i (bind (drive cancelFirst i starting) q) (driving i) Q.
Proof.
  intros Hi Hs Hq. unfold drive. apply rg_bind_assoc. unfold attempt. apply x_touch. intros w g HI (HP & Ha & Hc). pose proof HP as (H1 & H2 & H3).
  split; [apply (alive_unless w g HI); by rewrite H1|].
  assert (Hl : listening i false false w g) by (split; [done|congruence]).
  assert (Hcancel : cancelled w = true -> exists g' P', xinv w g' /\ xguar i (w, g) (w, g') /\ P' w g' /\ stable R i P' /\
     rg R i (bind (settle i starting TCancelled;;; Ret tt) q) P' Q).
  { intros Hx. exists g, (finishing i false SetStopped). splits; [done|apply xguar_refl| |apply stable_finishing|].
    - split; [done|]. simpl. by apply (xi_cancelled w g HI).
    - apply rg_bind_assoc. by eapply x_settle. }
  unfold attempt_locked. cbn [andb negb]. destruct (cancelFirst && cancelled w) eqn:Ecf; [apply andb_true_iff in Ecf as [_ Ec]; by apply Hcancel|].
  destruct (avail w) as [|a] eqn:Ea.
  - destruct (over w) eqn:Eo; cbn [fst snd].
    + exists g, (finishing i false SetClosed). splits; [done|apply xguar_refl|by split|apply stable_finishing|]. apply rg_bind_assoc. by eapply x_settle.
    + destruct (cancelled w) eqn:Ec; [by apply Hcancel|]. cbn [fst snd]. exists (XG HQueue (ow g)), (quiet i). splits; [|xallowed H1|..|apply stable_quiet|].
      * destruct HI. rewrite H1 in *. split; simpl in *; try done.
        -- intros E. by apply xi_alive0 in E.
        -- intros _. splits; try done. by destruct Hc.
      * split; [by split|]. intros _. apply (alive_unless w g HI). by rewrite H1.
      * simpl. exact Hq.
  - destruct (take_ok i false a w g HI Hl Ea) as (? & ? & ?). exists (XG (HHas i true) (ow g)), (finishing i false SetValue). splits; [done..|apply stable_finishing|].
    apply rg_bind_assoc. cbn [snd]. by eapply x_settle.
Qed.

(** *** The stop callback *)

(** Thread [i] runs the stop callback of an operation it does not have. *)
Definition inside (i : nat) : asrt eworld xghost := fun w g =>
  cb w = CbRunning i /\ (forall x, hand g <> HHas i x) /\ hand g <> HFin i /\ ow g i = false /\ (i = 0 -> alive w = true).
Definition inside_marked (i : nat) : asrt eworld xghost := fun w g => inside i w g /\ cancelled w = true.
Definition holds_marked (i : nat) : asrt eworld xghost := fun w g => holds i false true w g /\ active w = false /\ cancelled w = true.
(** The listener is made, but not yet said to be active. *)
Definition armed (i : nat) : asrt eworld xghost := fun w g =>
  holds i false false w g /\ active w = false /\ (cancelled w = true \/ cb w <> CbNone).

Lemma stable_in_callback i : stable R i (inside i).
Proof.
  intros j w g w' g' Hj _ _ [] (H1 & H2 & H3 & H4 & H5). simpl in *. unfold inside. splits.
  - by apply xg_run0.
  - intros x E. apply (H2 x). by apply xg_has0.
  - intros E. apply H3. by apply xg_fin0.
  - by rewrite xg_ow0.
  - intros ->. destruct (xg_task0 Hj) as [-> _]. by apply H5.
Qed.
Lemma stable_cancelled i : stable R i (fun w _ => cancelled w = true).
Proof. intros j w g w' g' Hj HI HI' []. done. Qed.
Lemma stable_in_callback_marked i : stable R i (inside_marked i).
Proof. apply stable_and; [apply stable_in_callback|apply stable_cancelled]. Qed.
Lemma stable_holds_marked i : stable R i (holds_marked i).
Proof.
  intros j w g w' g' Hj HI HI' HG (H1 & H2 & H3). split; [by eapply (stable_has_op i _ _ j w g)|]. destruct H1 as (H1 & _). destruct HG. simpl in *.
  destruct (xg_held0 i false) as (-> & _ & E); [done..|]. auto.
Qed.
Lemma stable_armed i : stable R i (armed i).
Proof.
  intros j w g w' g' Hj HI HI' HG (H1 & H2 & H3). split; [by eapply (stable_has_op i _ _ j w g)|]. destruct H1 as (H1 & _). destruct HG. simpl in *.
  destruct (xg_held0 i false) as (-> & _ & E); [done..|]. auto.
Qed.

(** A cancellation that finds the waiter out of the queue marks it. *)
Lemma mark_ok i w g : xinv w g -> cb w = CbRunning i -> hand g <> HQueue ->
  let w' := set_queue (queued w) true w in queued w = false /\ xinv w' g /\ xguar i (w, g) (w', g).
Proof.
  intros HI Hc Hh. simpl. destruct HI. splits; [by rewrite xi_queued0, bool_decide_false| |apply xguar_same; try done; by splits].
  split; simpl; try done. intros _. by apply (xi_run0 i).
Qed.

(** [request_stop] runs the callback. *)
Lemma x_on_stop {A} i (q : unit -> eprog A) Q : i < n ->
  rg R i (q tt) (quiet i) Q -> rg R i (q tt) (inside_marked i) Q -> rg R i (bind (on_stop i false) q) (inside i) Q.
Proof.
  intros Hi Hq Hm. unfold on_stop. apply rg_bind_assoc. unfold cancel_wait. apply x_touch. intros w g HI HP. pose proof HP as (H1 & H2 & H3 & H4 & H5).
  split; [by eapply alive_running|]. destruct (decide (hand g = HQueue)) as [Eh|Eh].
  - destruct (xi_queue w g HI Eh) as (Q1 & Q2 & Q3 & Q4 & Q5). pose proof (xi_queued w g HI) as Eq. rewrite Eh, bool_decide_true in Eq by done. rewrite Eq. cbn [fst snd].
    exists (XG (HHas i false) (ow g)), (finishing i true SetStopped). splits; [|xallowed Eh| |apply stable_finishing|by apply x_finishOp].
    + assert (Hr : requested w = true) by by apply (xi_run w g HI i). destruct HI. rewrite Eh in *. split; simpl in *; try done.
      * intros E. by apply xi_alive0 in E.
      * by intros j x [= <- <-].
    + split; [|by apply (xi_run w g HI i)]. split; [by split|]. simpl. congruence.
  - destruct (mark_ok i w g HI H1 Eh) as (Eq & HI' & HG). rewrite Eq in *. cbn [fst snd]. exists g, (inside_marked i). splits; [done..|apply stable_in_callback_marked|exact Hm].
Qed.

Lemma x_endCallback {A} i (P P' : asrt eworld xghost) (q : unit -> eprog A) Q :
  (forall w g, xinv w g -> P w g -> cb w = CbRunning i -> cancelled w = true) ->
  (forall w g s, xinv w g -> P w g -> callback_of s <> CbRunning i -> (cb w <> CbRunning i -> callback_of s = cb w) -> P' (set_source s w) g) -> stable R i P' ->
  rg R i (q tt) P' Q -> rg R i (bind (endCallback i) q) P Q.
Proof.
  intros Hc HP Hst Hq. unfold endCallback. apply rg_store. intros w g HI Hw. destruct (s_return_ends i (source w)) as [Er Ec]. fold (cb w) in Ec. fold (requested w) in Er.
  exists g, P'. specialize (HP w g (s_return i (source w)) HI Hw). specialize (Hc w g HI Hw). revert HP Er Ec. generalize (s_return i (source w)). intros s HP Er Ec.
  case_decide as E; splits; [apply source_inv|apply source_guar|apply HP|done|done|apply source_inv|apply source_guar|apply HP|done|done]; rewrite ?Er, ?Ec; try done.
  - by apply (xi_cancelled w g HI).
  - intros Eh. destruct (xi_queue w g HI Eh) as (? & ? & _). rewrite Hc in *; congruence.
  - intros j Hj. rewrite E. split; congruence.
  - intros j x Hj Hh. auto.
  - by apply (xi_cancelled w g HI).
  - intros Eh. by apply (xi_queue w g HI Eh).
  - by apply (xi_cb w g HI).
  - by apply (xi_run w g HI).
  - intros Eh. by destruct (xi_listener w g HI Eh).
Qed.

Lemma x_request_stop i : i < n -> rg R i (request_stop i) (quiet i) (fun _ w g => quiet i w g /\ requested w = true).
Proof.
  intros Hi. unfold request_stop. apply rg_rmw. intros w g HI [(H1 & H2 & H3 & H4) H5]. cbn [fst snd]. destruct (s_request_runs i (source w)) as [Er Ec]. fold (cb w) (requested w) in Ec.
  revert Er Ec. destruct (s_request i (source w)) as [s runs]. cbn [fst snd]. intros Er Ec. destruct (negb (requested w) && bool_decide (cb w = CbRegistered)) eqn:Eb.
  - apply andb_true_iff in Eb as [_ Eb]. apply bool_decide_eq_true in Eb. destruct Ec as [-> Ec]. exists g, (fun w g => inside i w g /\ requested w = true).
    split; [|split; [|split; [|split; [apply stable_and; [apply stable_in_callback|apply stable_requested]|]]]].
    + apply source_inv; rewrite ?Er, ?Ec; try done. { by intros j [= <-]. } intros Eh. destruct (xi_listener w g HI Eh). congruence.
    + apply source_guar; rewrite ?Er, ?Ec, ?Eb; try done. { intros j Hj. split; congruence. } intros j x Hj Hh. by split; [|right].
    + by split.
    + apply (rg_frame R i _ (inside i) (fun _ => quiet i)); [apply stable_requested|by intros ? ? ? ? []|].
      apply x_on_stop; [done|..]; apply rg_bind_ret.
      * eapply (x_endCallback i (quiet i) (quiet i)); [by intros ? ? _ [(? & ? & ? & ?) _]|by intros w1 g1 s1 _ [(? & ? & ? & ?) ?] Hs _|apply stable_quiet|by intros ? ? _ ?].
      * eapply (x_endCallback i (inside_marked i) (quiet i)); [by intros w1 g1 _ [? ?]|by intros w1 g1 s1 _ [(? & ? & ? & ? & ?) ?] Hs _|apply stable_quiet|by intros ? ? _ ?].
  - destruct Ec as [-> Ec]. exists g, (fun w g => quiet i w g /\ requested w = true). split; [|split; [|split; [|split; [apply stable_and; [apply stable_quiet|apply stable_requested]|by intros w1 g1 _ ?]]]].
    + apply source_inv; rewrite ?Er, ?Ec; try done.
      * intros Eh. by apply (xi_queue w g HI Eh).
      * intros _ E. rewrite E, bool_decide_true, andb_true_r in Eb by done. destruct (requested w) eqn:Erq; [|done]. by apply (xi_cb w g HI).
      * intros j E. split; [done|]. by apply (xi_run w g HI j).
      * intros Eh. by destruct (xi_listener w g HI Eh).
    + apply source_guar; rewrite ?Er, ?Ec; done.
    + split; [|done]. split; [|done]. unfold apart, cb. simpl. by rewrite Ec.
Qed.

(** *** The task *)

Lemma x_activate {A} (q : unit -> eprog A) Q : rg R 0 (q tt) (driving 0) Q -> rg R 0 (bind (tstore (set_active true)) q) (armed 0) Q.
Proof.
  intros Hq. apply x_touch. intros w g HI (HP & Ha & Hc). pose proof HP as (H1 & H2 & H3). split; [apply (alive_unless w g HI); by rewrite H1|]. cbn [fst snd].
  exists g, (driving 0). splits; [|apply xguar_same; try done; congruence|by split|apply stable_driving|exact Hq]. destruct HI. split; simpl; try done; by rewrite H1.
Qed.

(** Stop was requested while the task was making the listener: the callback runs here. *)
Lemma x_on_stop_starting {A} (q : unit -> eprog A) Q :
  rg R 0 (q tt) (holds_marked 0) Q -> rg R 0 (bind (on_stop 0 true) q) (fun w g => holds 0 false true w g /\ active w = false) Q.
Proof.
  intros Hq. unfold on_stop. apply rg_bind_assoc. unfold cancel_wait. apply x_touch. intros w g HI [(H1 & H2 & H3) Ha]. split; [by eapply alive_running|].
  destruct (mark_ok 0 w g HI H3) as (Eq & HI' & HG); [by rewrite H1|]. rewrite Eq in *. cbn [fst snd]. exists g, (holds_marked 0). splits; [done|done|by split|apply stable_holds_marked|exact Hq].
Qed.

Lemma x_listen {A} (q : unit -> eprog A) Q : 0 < n -> rg R 0 (q tt) (driving 0) Q -> rg R 0 (bind (listen 0) q) unstarted Q.
Proof.
  intros Hn Hq. unfold listen. apply rg_bind_assoc, x_touch. intros w g HI [[(H1 & H2 & H3) H4] Ha]. split; [apply (alive_unless w g HI); by rewrite H1|]. cbn [fst snd].
  pose proof (H4 Ha) as Ec. destruct (s_construct_runs 0 (source w) Ec) as (Erun & Er & Ec'). fold (requested w) in Erun, Er, Ec'. revert Erun Er Ec'.
  destruct (s_construct 0 (source w)) as [s runs]. cbn [fst snd]. intros -> Er Ec'.
  assert (HG : xguar 0 (w, g) (set_source s w, g)).
  { apply source_guar; rewrite ?Ec, ?Ec', ?Er; try done; [intros j Hj; destruct (requested w); split; congruence|congruence]. }
  assert (HI' : xinv (set_source s w) g).
  { apply source_inv; rewrite ?H1, ?Er, ?Ec'; try done; [apply (xi_cancelled w g HI)|by intros ->|]. intros j E. destruct (requested w); [injection E as <-|]; done. }
  destruct (requested w) eqn:Erq.
  - exists g, (fun w g => holds 0 false true w g /\ active w = false). split; [done|split; [done|split; [by split|split]]].
    + intros j w1 g1 w2 g2 Hj HI1 HI2 HG1 [E1 E2]. split; [by eapply (stable_has_op 0 _ _ j w1 g1)|]. destruct E1 as (E1 & _). destruct HG1. simpl in *.
      destruct (xg_held0 0 false) as (-> & _); done.
    + apply rg_bind_assoc, rg_bind_assoc, x_on_stop_starting. eapply (x_endCallback 0 (holds_marked 0) (armed 0)); [by intros ? ? _ (_ & _ & ?)| |apply stable_armed|by apply x_activate].
      intros w1 g1 s1 _ ((E1 & E2 & E3) & E4 & E5) Hs _. split; [by split|]. by split; [|left].
  - exists g, (armed 0). splits; [done|done| |apply stable_armed|by apply rg_bind_assoc; cbn [bind]; apply x_activate]. unfold armed, holds, cb. simpl. rewrite Ec'. splits; try done. by right.
Qed.

Lemma x_start : 0 < n -> rg R 0 (start cancelFirst 0) unstarted (fun _ => quiet 0).
Proof.
  intros Hn. unfold start. apply x_tload. intros w g HI HP. pose proof HP as [[(H1 & H2 & H3) H4] Ha]. split; [apply (alive_unless w g HI); by rewrite H1|].
  destruct (requested w) eqn:Er.
  - exists (unheard 0 SetStopped). splits; [|apply stable_unheard|]. { split; [|auto]. split; [|done]. split; [by split|auto]. }
    apply rg_seq_ret, x_complete; [done..|]. by intros ? ? _ ?.
  - exists unstarted. splits; [done|apply stable_unstarted|]. apply x_try_now; [done|by intros ? ? _ ?|]. apply x_listen; [done|]. apply rg_seq_ret, x_drive; [done..|]. by intros ? ? _ ?.
Qed.

Definition waiting (forwarded : bool) : asrt eworld xghost := fun w g => quiet 0 w g /\ (forwarded = true -> requested w = true).

Lemma stable_expects f : stable R 0 (waiting f).
Proof. intros j w g w' g' Hj HI HI' HG [H1 H2]. split; [by eapply (stable_quiet 0 j w g)|]. destruct HG. auto. Qed.

(** The operation is not complete, or a wake-up is on its way. *)
Definition expecting (f st : bool) : asrt eworld xghost := fun w g =>
  waiting f w g /\ woken_by (done w) w g /\ (st = true -> f = false -> woken_by (stopping w) w g).

Lemma stable_expecting f st : stable R 0 (expecting f st).
Proof.
  intros j w g w' g' Hj HI HI' HG (H1 & H2 & H3). split; [by eapply (stable_expects f j w g)|]. destruct HG. simpl in *. destruct (xg_task0 Hj) as (_ & E1 & E2). auto.
Qed.

Lemma x_park {A} f (q : unit -> eprog A) Q : rg R 0 (q tt) (waiting f) Q -> rg R 0 (bind park q) (expecting f true) Q.
Proof.
  intros Hq. split.
  - intros w g HI ((HP & Hf) & H2 & H3) E. right. split; [done|]. destruct HP as [HP Ha]. splits; try done; [by destruct (token w)|]. destruct f; [left; auto|right; auto].
  - intros w g w' x HI (HP & H2 & H3) Hin. destruct (token w); [|by apply not_elem_of_nil in Hin]. apply list_elem_of_singleton in Hin as [= -> ->].
    exists g, (waiting f). splits; [destruct HI; by split|by apply xguar_same|done|apply stable_expects|exact Hq].
Qed.

Lemma x_wait_loop fuel f : 0 < n -> rg R 0 (wait_loop fuel f) (waiting f) (fun _ => ended 0 false).
Proof.
  intros Hn. revert f. induction fuel as [|fuel IH]; intros f; [done|]. cbn [wait_loop]. apply x_tload. intros w g HI HP. split; [by apply HP|].
  pose proof (xi_done w g HI) as Hd. destruct (done w) eqn:Ed.
  - symmetry in Hd. apply bool_decide_eq_true in Hd. exists (ended 0 false). splits; [|apply stable_ended|by intros ? ? _ ?]. by destruct HP as [[(? & ? & ? & ?) ?] _].
  - exists (expecting f false). splits; [split; [done|]; split; [by left|done]|apply stable_expecting|]. clear w g HI HP Hd Ed.
    apply rg_load; [apply xguar_refl|]. intros w g HI (HP & Hw & _). destruct (negb f && stopping w) eqn:Es.
    + apply andb_true_iff in Es as [Ef _]. destruct f; [done|]. exists (quiet 0). split; [apply HP|]. split; [apply stable_quiet|].
      eapply rg_seq; [by apply x_request_stop|]. eapply rg_pre; [|apply IH]. intros w1 g1 _ [? ?]. by split.
    + exists (expecting f true). splits; [|apply stable_expecting|by apply x_park]. split; [done|]. split; [done|]. intros _ ->. left. by destruct (stopping w).
Qed.

(** What [run_wait] returned. *)
Definition returned (r : list completion) : asrt eworld xghost := fun w g => hand g = HDone /\ results w = r /\ ow g 0 = false.

Lemma stable_returned r : stable R 0 (returned r).
Proof. intros j w g w' g' Hj HI HI' [] (H1 & H2 & H3). simpl in *. destruct (xg_done0 H1) as [? E]. unfold returned. rewrite E, xg_ow0 by done. done. Qed.

Lemma x_run_wait fuel : 0 < n -> rg R 0 (run_wait cancelFirst fuel) unstarted returned.
Proof.
  intros Hn. unfold run_wait. eapply rg_seq; [by apply x_start|]. eapply rg_seq; [eapply rg_pre; [|by apply x_wait_loop]; by intros|].
  set (P r := fun w g => returned r w g /\ alive w = true).
  assert (HP : forall r, stable R 0 (P r)). { intros r j w g w' g' Hj HI HI' HG [H1 H2]. split; [by eapply (stable_returned r j w g)|]. destruct HG. simpl in *. by destruct (xg_task0 Hj) as [-> _]. }
  apply x_tload. intros w g HI (H1 & H2 & H3). split; [by apply H3|]. exists (P (results w)). split; [by split; [|apply H3]|]. split; [apply HP|].
  generalize (results w). clear w g HI H1 H2 H3. intros r. unfold stopListener. apply rg_bind_assoc, x_tload. intros w g HI [(H1 & H2 & H3) Ha]. split; [done|].
  destruct (xi_listener w g HI) as [_ ->]; [by rewrite H1|]. exists (P r). split; [by split|]. split; [apply HP|]. clear w g HI H1 H2 H3 Ha.
  apply rg_store. intros w g HI [(H1 & H2 & H3) Ha]. exists g, (returned r). splits; [destruct HI; by split|apply xguar_same; by try done|done|apply stable_returned|by intros ? ? _ ?].
Qed.

(** *** The others *)

(** Thread [i] takes the waiter out of the queue, with what it brings. *)
Lemma dequeue_ok i (item : bool) (w : eworld) (g : xghost) (w' : eworld) : i < n -> xinv w g -> quiet i w g -> hand g = HQueue ->
  w' = set_prim false (avail w') (over w') (produced w') (stolen w') w -> (over w = true -> over w' = true) ->
  produced w' = avail w' + stolen w' + (if item then 1 else 0) ->
  let g' := XG (HHas i item) (ow g) in
  xinv w' g' /\ xguar i (w, g) (w', g') /\ holds i item false w' g' /\ active w' = true /\ cb w' <> CbNone.
Proof.
  intros Hi HI [(H1 & H2 & H3 & H4) _] Eh Ew Ho Hp. destruct (xi_queue w g HI Eh) as (Q1 & Q2 & Q3 & Q4 & Q5).
  pose proof (xi_results w g HI) as Hl. rewrite Eh in Hl. apply nil_length_inv in Hl. rewrite Ew. revert Ho Hp. generalize (avail w') (over w') (produced w') (stolen w').
  clear w' Ew. intros a o p st Ho Hp. simpl in *. splits; [|xallowed Eh|by split|done|done].
  destruct HI. rewrite Eh in *. split; simpl in *; try done.
  - intros E. by apply xi_alive0 in E.
  - by intros j x [= <- <-].
  - rewrite Hl. by intros r ?%not_elem_of_nil.
  - rewrite Hl. unfold values. simpl. by destruct item; lia.
Qed.

(** A change to the primitive alone. *)
Lemma prim_ok i a o p s (w : eworld) (g : xghost) : xinv w g -> hand g <> HQueue \/ (a = avail w /\ o = over w) -> (over w = true -> o = true) ->
  p = a + s + item_of (hand g) + values (results w) ->
  let w' := set_prim (queued w) a o p s w in xinv w' g /\ xguar i (w, g) (w', g).
Proof.
  intros HI Hq Ho Hp. simpl. split; [|apply xguar_same; by try done]. destruct HI. split; simpl; try done.
  - intros Eh. destruct Hq as [?|[-> ->]]; [done|by apply xi_queue0].
  - intros r Hr. specialize (xi_reason0 r Hr). destruct r; simpl in *; auto.
Qed.


Lemma x_notified i closing : i < n -> hands = true ->
  rg R i (on_notified hands cancelFirst i closing) (finishing i false (if closing then SetClosed else SetValue)) (fun _ => quiet i).
Proof.
  intros Hi Hh. unfold on_notified. rewrite Hh. eapply x_settle; [done|done| |by intros ? ? _ ?]. by destruct closing.
Qed.

Lemma x_notified_retry i closing : i < n -> hands = false -> rg R i (on_notified hands cancelFirst i closing) (driving i) (fun _ => quiet i).
Proof. intros Hi Hh. unfold on_notified. rewrite Hh. apply rg_seq_ret, x_drive; [done..|]. by intros ? ? _ ?. Qed.

Lemma x_release i : i < n -> rg R i (env_perform hands cancelFirst i Release) (quiet i) (fun _ => quiet i).
Proof.
  intros Hi. cbn [env_perform]. apply rg_rmw. intros w g HI HP. unfold release_locked. pose proof (xi_queued w g HI) as Eq. pose proof (xi_count w g HI) as Hc.
  case_bool_decide as Eh; rewrite Eq; cbn [fst snd].
  - destruct (xi_queue w g HI Eh) as (_ & _ & Q3 & _). pose proof (xi_results w g HI) as Hl. rewrite Eh in *. apply nil_length_inv in Hl. rewrite Hl in Hc. simpl in Hc. unfold values in Hc. simpl in Hc.
    match goal with |- context [Inv _ ?w0 _] => destruct (dequeue_ok i hands w g w0) as (P1 & P2 & P3 & P4 & P5); [done..|simpl; destruct hands; lia|] end.
    exists (XG (HHas i hands) (ow g)). destruct hands eqn:Hh.
    + exists (finishing i false SetValue). splits; [done..| |apply stable_finishing|]; [split; [split; [done|congruence]|done]|]. pose proof (x_notified i false Hi Hh) as E. rewrite Hh in E. exact E.
    + exists (driving i). splits; [done..| |apply stable_driving|]; [split; [done|]; split; [done|by right]|]. pose proof (x_notified_retry i false Hi Hh) as E. rewrite Hh in E. exact E.
  - destruct (prim_ok i (S (avail w)) (over w) (S (produced w)) (stolen w) w g) as [P1 P2]; [done|by left|done|lia|]. rewrite Eq in *.
    exists g, (quiet i). splits; [done..|apply stable_quiet|by intros ? ? _ ?].
Qed.

Lemma x_close i : i < n -> rg R i (env_perform hands cancelFirst i Close) (quiet i) (fun _ => quiet i).
Proof.
  intros Hi. cbn [env_perform]. apply rg_rmw. intros w g HI HP. unfold close_locked. pose proof (xi_queued w g HI) as Eq. pose proof (xi_count w g HI) as Hc.
  case_bool_decide as Eh; rewrite Eq; cbn [fst snd].
  - pose proof (xi_results w g HI) as Hl. rewrite Eh in *. apply nil_length_inv in Hl. rewrite Hl in Hc. simpl in Hc. unfold values in Hc. simpl in Hc.
    match goal with |- context [Inv _ ?w0 _] => destruct (dequeue_ok i false w g w0) as (P1 & P2 & P3 & P4 & P5); [done..|simpl; lia|] end.
    exists (XG (HHas i false) (ow g)). destruct hands eqn:Hh.
    + exists (finishing i false SetClosed). splits; [done..| |apply stable_finishing|]; [split; [split; [done|congruence]|done]|]. pose proof (x_notified i true Hi Hh) as E. rewrite Hh in E. exact E.
    + exists (driving i). splits; [done..| |apply stable_driving|]; [split; [done|]; split; [done|by right]|]. pose proof (x_notified_retry i true Hi Hh) as E. rewrite Hh in E. exact E.
  - destruct (prim_ok i (avail w) true (produced w) (stolen w) w g) as [P1 P2]; [done|by left|done|lia|]. rewrite Eq in *.
    exists g, (quiet i). splits; [done..|apply stable_quiet|by intros ? ? _ ?].
Qed.

Lemma x_scheduler_stop i : i < n -> rg R i (env_perform hands cancelFirst i SchedulerStop) (quiet i) (fun _ => quiet i).
Proof.
  intros Hi. cbn [env_perform]. apply rg_store. intros w g HI HP. set (P := fun w g => quiet i w (XG (hand g) (<[i := false]> (ow g)))).
  exists (XG (hand g) (<[i := true]> (ow g))), P. destruct HP as [(H1 & H2 & H3 & H4) H5]. splits; [destruct HI; by split|split; simpl; try done; try tauto|..].
  - intros j Hj. by rewrite fn_lookup_insert_ne.
  - intros Hi0. assert (some n id (<[i:=true]> (ow g))) by by apply some_here. unfold woken_by, waking. simpl. tauto.
  - split; [|done]. unfold apart. simpl. by rewrite fn_lookup_insert.
  - intros j w1 g1 w2 g2 Hj HI1 HI2 [] [(E1 & E2 & E3 & E4) E5]. simpl in *. split; [|intros ->; destruct (xg_task0 Hj) as [-> _]; by apply E5].
    unfold apart. simpl. rewrite fn_lookup_insert. splits; [|..|done]; [intros x E; apply (E1 x); by apply xg_has0|intros E; apply E2; by apply xg_fin0|intros E; apply E3; by apply xg_run0].
  - apply rg_seq_ret. eapply (x_wake i _ (quiet i)); [by intros ? ? _ ?|apply stable_quiet|by intros ? ? _ ?].
Qed.

Lemma x_env i o : i < n -> rg R i (env_perform hands cancelFirst i o) (quiet i) (fun _ => quiet i).
Proof.
  intros Hi. destruct o; [by apply x_release|by apply x_close| | |by apply x_scheduler_stop|]; cbn [env_perform].
  - apply rg_seq_ret, rg_store. intros w g HI HP. exists g, (quiet i). pose proof (xi_count w g HI) as Hc. destruct (avail w) as [|a] eqn:Ea.
    + splits; [done|apply xguar_refl|done|apply stable_quiet|by intros ? ? _ ?].
    + destruct (prim_ok i a (over w) (produced w) (S (stolen w)) w g) as [P1 P2]; [done| |done|lia|splits; [done..|apply stable_quiet|by intros ? ? _ ?]].
      left. intros Eh. destruct (xi_queue w g HI Eh) as (_ & _ & ? & _). lia.
  - eapply rg_weaken; [| |by apply x_request_stop]; [done|]. by intros ? ? ? _ [? _].
  - apply rg_seq_ret. eapply (x_wake i _ (quiet i)); [|apply stable_quiet|by intros ? ? _ ?]. intros w g _ [(? & ? & ? & ?) ?]. split; [|done]. unfold apart. simpl. by rewrite fn_lookup_insert.
Qed.

Lemma x_env_run i l : i < n -> rg R i (env_run hands cancelFirst i l) (quiet i) (fun _ => quiet i).
Proof. intros Hi. induction l as [|o l IH]; [by intros ? ? _ ?|]. cbn [env_run]. eapply rg_seq; [by apply x_env|exact IH]. Qed.
End operation.
End spec.

Definition result_of `{SS : StopSource} (n : nat) (i : nat) (r : list completion) : asrt eworld xghost :=
  if decide (i = 0) then returned r else quiet i.

Lemma exec_pool_ok `{SS : StopSource} hands cancelFirst fuel l :
  pool_ok (xproto (S (length l))) (result_of (S (length l))) (exec_pool hands cancelFirst fuel l).
Proof.
  exists (XG (HHas 0 false) (fun _ => false)). split.
  { destruct s_init_fresh as [Er Ec]. split; simpl; unfold requested, cb; simpl; rewrite ?Er, ?Ec; try done. { intros i b [= <- <-]. lia. } by intros r ?%not_elem_of_nil. }
  intros i p Hp. destruct i as [|i]; simpl in Hp.
  - injection Hp as <-. exists unstarted. split; [apply stable_unstarted|]. split; [|apply x_run_wait; lia]. unfold unstarted, listening, holds, cb. simpl. by rewrite (proj2 s_init_fresh).
  - rewrite list_lookup_imap in Hp. destruct (l !! i) as [ops|] eqn:El; [|done]. injection Hp as <-. apply lookup_lt_Some in El. exists (quiet (S i)). split; [apply stable_quiet|]. split.
    + split; [|done]. unfold apart, cb. simpl. rewrite (proj2 s_init_fresh). splits; congruence.
    + eapply rg_seq; [apply x_env_run; simpl; lia|]. by intros ? ? _ ?.
Qed.

(** At rest, nobody has the operation in hand, runs its callback or is about to wake. *)
Lemma at_rest `{SS : StopSource} n (ts : list (eprog (list completion))) w g :
  (forall i X f k, ts !! i = Some (Act X f k) -> f w = [] -> xwait n i w g) ->
  (forall i a, ts !! i = Some (Ret a) -> result_of n i a w g) -> xinv n w g -> n = length ts ->
  (forall i th, ts !! i = Some th -> resting w th) ->
  (forall j, cb w <> CbRunning j) /\ ~ waking n g /\ (forall i x, hand g <> HHas i x) /\ forall i, hand g <> HFin i.
Proof.
  intros Hw HQ HI Hn Hall.
  assert (Hi : forall i, i < n -> apart i w g \/ (hand g = HDone /\ ow g i = false) \/ ((exists j, j <> i /\ cb w = CbRunning j) /\ ow g i = false /\ hand g <> HFin i)).
  { intros i Hi. destruct (lookup_lt_is_Some_2 ts i ltac:(lia)) as [th Hth]. destruct (Hall i th Hth) as [[a ->]|(X & f & k & -> & Hf)].
    - specialize (HQ i a Hth). unfold result_of in HQ. case_decide as Ei; [|left; apply HQ]. subst i. right; left. by destruct HQ as (? & _ & ?).
    - destruct (Hw i X f k Hth Hf) as [?|(-> & ? & _)]; [by right; right|by left]. }
  assert (Hcb : forall j, cb w <> CbRunning j).
  { intros j Ej. destruct (xi_run n w g HI j Ej) as [_ Hj]. destruct (Hi j Hj) as [(_ & _ & ? & _)|[[E _]|[(k & Hk & E) _]]]; [done| |congruence].
    destruct (xi_listener n w g HI) as [? _]; [by rewrite E|]. congruence. }
  splits; [done|..].
  - intros (j & Hj & Ho). cbv [id] in Ho. destruct (Hi j Hj) as [(_ & _ & _ & ?)|[[_ ?]|[_ [? _]]]]; congruence.
  - intros i x E. destruct (Hi i (xi_has n w g HI i x E)) as [[E1 _]|[[E1 _]|[(j & _ & E1) _]]]; [by apply (E1 x)|congruence|by apply (Hcb j)].
  - intros i E. destruct (Hi i (xi_fin n w g HI i E)) as [(_ & E1 & _)|[[E1 _]|[_ [_ E1]]]]; congruence.
Qed.

(** C16: In every interleaving of a task that waits for an asynchronous operation with
    whoever provides what it waits for, takes it away, closes it, requests stop or stops
    the scheduler: nobody uses the operation after its frame has ended; it is completed
    at most once; when [run_wait] returns, it was completed exactly once and for a
    reason (closed, or stop requested), and what was produced is there, was taken by
    others or was delivered: a stopped operation loses nothing; and once nobody can move,
    the task has returned, or it waits in the queue for something that is not there,
    with no stop requested and a scheduler that is not stopping. *)
Theorem exec_wait_once `{SS : StopSource} hands cancelFirst fuel l ts w :
  reach (exec_pool hands cancelFirst fuel l) (ts, w) ->
  (forall i m, ts !! i <> Some (Fatal m)) /\
  length (results w) <= 1 /\
  (forall r, ts !! 0 = Some (Ret r) ->
     exists c, r = [c] /\ res_ok c w /\ produced w = avail w + stolen w + (if is_value c then 1 else 0)) /\
  ((forall i th, ts !! i = Some th -> resting w th) ->
     (exists r, ts !! 0 = Some (Ret r)) \/
     (queued w = true /\ avail w = 0 /\ over w = false /\ requested w = false /\ stopping w = false)).
Proof.
  intros Hr. pose proof (pool_ok_reach _ _ _ _ Hr (exec_pool_ok hands cancelFirst fuel l)) as Hok. pose proof (reach_length _ _ Hr) as Hlen. simpl in Hlen. rewrite length_imap in Hlen.
  split; [intros i m; by eapply pool_ok_not_fatal|]. destruct (pool_ok_waits _ _ _ _ Hok) as (g & HI & Hw & HQ). splits.
  - rewrite (xi_results _ _ _ HI). destruct (completed (hand g)); lia.
  - intros r H0. specialize (HQ 0 r H0). unfold result_of in HQ. rewrite decide_True in HQ by done. destruct HQ as (E1 & E2 & _).
    pose proof (xi_results _ _ _ HI) as Hl. pose proof (xi_count _ _ _ HI) as Hc. pose proof (xi_reason _ _ _ HI) as Hre. rewrite E1, E2 in *. simpl in Hl.
    destruct r as [|c [|]]; try done. exists c. splits; [done|apply Hre; left|]. unfold values in Hc. simpl in Hc. lia.
  - intros Hall. destruct (at_rest _ ts w g Hw HQ HI Hlen Hall) as (Hcb & Hwk & Hhas & Hfin).
    destruct (lookup_lt_is_Some_2 ts 0 ltac:(lia)) as [t0 H0]. destruct (Hall 0 t0 H0) as [[r ->]|(X & f & k & -> & Hf)]; [left; by exists r|right].
    destruct (Hw 0 X f k H0 Hf) as [[(j & _ & E) _]|(_ & _ & Ht & Hd & Hs)]; [by destruct (Hcb j)|].
    assert (Hdone : forall b, woken_by _ b w g -> b = false) by (intros b [?|[?|?]]; [done|done|congruence]).
    assert (Eh : hand g = HQueue). { destruct (hand g) as [i x| |i|] eqn:Eh; [by destruct (Hhas i x)|done|by destruct (Hfin i)|]. pose proof (xi_done _ _ _ HI) as E. rewrite Eh, (Hdone _ Hd) in E. by rewrite bool_decide_true in E. }
    destruct (xi_queue _ _ _ HI Eh) as (_ & _ & Q3 & Q4 & Q5). assert (Ec : cb w = CbRegistered) by (destruct (cb w) as [| |j]; [done|done|by destruct (Hcb j)]).
    assert (Er : requested w = false). { destruct (requested w) eqn:Er; [|done]. by destruct (xi_cb _ _ _ HI Er). }
    splits; try done; [by rewrite (xi_queued _ _ _ HI), bool_decide_true|]. destruct Hs as [?|Hs]; [congruence|by apply Hdone].
Qed.

(** A thread requests stop while another brings an item, which the first notification lost to a third. *)
Definition exec_run := run_avail (round_robin 4 40) (exec_pool (SS := stop_source_example) false false 9 [[Release; RequestStop]; [Steal; Stale]; [Release]]).

Lemma exec_wait_once_witness : (exists c, exec_run.1 !! 0 = Some (Ret [c]) /\ res_ok c exec_run.2) /\ length (results exec_run.2) <= 1.
Proof.
  destruct (exec_wait_once (SS := stop_source_example) false false 9 [[Release; RequestStop]; [Steal; Stale]; [Release]] exec_run.1 exec_run.2) as (_ & H1 & H2 & _).
  { apply (run_avail_reach (round_robin 4 40)). unfold exec_run. apply surjective_pairing. }
  split; [|exact H1]. assert (E : exists r, exec_run.1 !! 0 = Some (Ret r)) by (eexists; vm_compute; reflexivity).
  destruct E as [r E]. destruct (H2 r E) as (c & -> & Hc & _). exists c. split; [exact E|exact Hc].
Defined.
