(* ===== verification/ExecTimer.v ===== *)
(** * ExecTimer: schedule() after a deadline

    exec/timer.hpp ([timer_operation]): a timer in a worker's queue that, when it fires,
    spawns the task which completes the receiver; a stop request takes the timer back;
    [Scheduler::stop] (sched/Scheduler.cpp) calls it back at once.

    - The queue is that of TimerQueue.v, with other timers in it, which others add,
      cancel and fire; the operation's entry is at [self].
    - [alive] says that the operation is still there: the receiver may destroy it inside
      the completion, so it ends with the completion.  Accesses to the operation check
      it, and so do the critical sections of the queue while the entry is in it.
    - [tasks] counts the operation's tasks that wait to be run.  [spawn] refuses
      when the scheduler is stopping and may fail for want of a slot or a stack
      (TaskFactory.h).
    - The stop source is StopSource.v's; the clock is [now], up to [horizon].
    - [results], [started], [spawnFailed] are histories.

    The second half says what the critical sections of the queue do, as the owner of one
    entry sees them: [view] has all it can tell. *)

From Stdlib Require Import ZArith Lia.
From stdpp Require Import base tactics list numbers option strings gmap.
From S2P Require Import Prelude Conc TimerQueue TimerHeap TimerSpec StopSource.

(** [set_value], [set_error], [set_stopped] *)
Inductive tcompletion := TValue | TError | TStopped.
#[global] Instance tcompletion_eq_dec : EqDecision tcompletion.
Proof. solve_decision. Defined.

(** [SpawnResult]: a task, [operation_canceled], another error. *)
Inductive spawn_result := Spawned | SpawnCanceled | SpawnError.

Section timer.
Context `{SS : StopSource} (self : nat) (relative : bool) (at_ after horizon : Z).

Record tworld := TWorld {
  tsource : sstate;
  tactive : bool;
  timers : TimerQueue.world;
  talive : bool;
  tstopping : bool;
  now : Z;
  tasks : nat;
  started : Z;
  spawnFailed : bool;
  tresults : list tcompletion
}.

Definition set_tsource s w := TWorld s (tactive w) (timers w) (talive w) (tstopping w) (now w) (tasks w) (started w) (spawnFailed w) (tresults w).
Definition set_tactive b w := TWorld (tsource w) b (timers w) (talive w) (tstopping w) (now w) (tasks w) (started w) (spawnFailed w) (tresults w).
Definition set_timers q w := TWorld (tsource w) (tactive w) q (talive w) (tstopping w) (now w) (tasks w) (started w) (spawnFailed w) (tresults w).
Definition set_tstopping w := TWorld (tsource w) (tactive w) (timers w) (talive w) true (now w) (tasks w) (started w) (spawnFailed w) (tresults w).
Definition set_now t w := TWorld (tsource w) (tactive w) (timers w) (talive w) (tstopping w) t (tasks w) (started w) (spawnFailed w) (tresults w).
Definition set_tasks k w := TWorld (tsource w) (tactive w) (timers w) (talive w) (tstopping w) (now w) k (started w) (spawnFailed w) (tresults w).
Definition set_spawnFailed w := TWorld (tsource w) (tactive w) (timers w) (talive w) (tstopping w) (now w) (tasks w) (started w) true (tresults w).
Definition set_armed t q w := TWorld (tsource w) (tactive w) q (talive w) (tstopping w) (now w) (tasks w) t (spawnFailed w) (tresults w).
Definition set_ended r w := TWorld (tsource w) (tactive w) (timers w) false (tstopping w) (now w) (tasks w) (started w) (spawnFailed w) (tresults w ++ [r]).

Definition trequested (w : tworld) : bool := stop_requested (tsource w).
Definition tcb (w : tworld) : cbstate := callback_of (tsource w).

Notation tprog := (prog tworld).

(** ** Accesses *)

(** An access to the operation, with the outcomes it may have. *)
Definition touch_any {R} (f : tworld -> list (tworld * R)) : tprog R :=
  Act (option R) (fun w => if talive w then (fun o => (o.1, Some o.2)) <$> f w else [(w, None)])
    (fun o => match o with Some r => Ret r | None => Fatal "operation used after its end" end).
Definition touch {R} (f : tworld -> tworld * R) : tprog R := touch_any (fun w => [f w]).
Definition tload {R} (f : tworld -> R) : tprog R := touch (fun w => (w, f w)).
Definition tstore (f : tworld -> tworld) : tprog unit := touch (fun w => (f w, tt)).

(** A critical section of the queue, which goes through the entries in it. *)
Definition section {R} (f : TimerQueue.world -> TimerQueue.world * R) : tprog R :=
  Act (option R)
    (fun w => if talive w || negb (bool_decide (self ∈ heap (timers w)))
              then [(set_timers (f (timers w)).1 w, Some (f (timers w)).2)] else [(w, None)])
    (fun o => match o with Some r => Ret r | None => Fatal "entry used after its end" end).

(** ** The completion *)

(** [set_value], [set_error], [set_stopped] of the receiver, which may destroy the operation. *)
Definition complete (r : tcompletion) : tprog unit := tstore (set_ended r).

(** The callback's destructor, on thread [i]. *)
Definition destroyCallback (i : nat) : tprog unit :=
  Act unit (fun w => match s_destroy i (tsource w) with Some s => [(set_tsource s w, tt)] | None => [] end) Ret.

(** [stop_listener::stop] *)
Definition stopListener (i : nat) : tprog unit :=
  a <- tload tactive;;
  if a : bool then tstore (set_tactive false);;; destroyCallback i else Ret tt.

(** [finish_stopped], and its like for errors *)
Definition finishTimer (i : nat) (r : tcompletion) : tprog unit := stopListener i;;; complete r.

(** ** A stop request *)

(** [on_stop] *)
Definition on_stop (i : nat) : tprog unit :=
  b <- touch (fun w => (set_timers (cancelTimer self (timers w)).1 w, (cancelTimer self (timers w)).2));;
  if b : bool then finishTimer i TStopped else Ret tt.

(** The callback returns to the source that called it. *)
Definition endCallback (i : nat) : tprog unit := store (fun w => set_tsource (s_return i (tsource w)) w).

(** [stop_listener::listen] *)
Definition listen (i : nat) : tprog unit :=
  r <- touch (fun w => (set_tsource (s_construct i (tsource w)).1 w, (s_construct i (tsource w)).2));;
  (if r : bool then on_stop i;;; endCallback i else Ret tt);;;
  tstore (set_tactive true).

(** [request_stop] *)
Definition request_stop (i : nat) : tprog unit :=
  r <- rmw (fun w => (set_tsource (s_request i (tsource w)).1 w, (s_request i (tsource w)).2));;
  if r : bool then on_stop i;;; endCallback i else Ret tt.

(** ** Starting *)

(** [&timer_operation::fired] *)
Definition firedCallback : nat := 0.
Definition firedEvent : event := Called firedCallback self.
Definition callsSelf (ev : event) : bool :=
  match ev with Called c a => Nat.eqb c firedCallback && Nat.eqb a self | Woke _ => false end.

(** A value of [std::chrono::steady_clock::rep]. *)
Definition in_ticks (t : Z) : bool := (- 2 ^ 63 <=? t) && (t <? 2 ^ 63).

Definition deadlineFrom (t : Z) : Z := if relative then t + after else at_.

(** The entry's fields, in the order of [start]. *)
Definition armEntry (t : Z) (e : TimerEntry) : TimerEntry :=
  MkEntry (deadlineFrom t) (token e) (Some 0%nat) (heapIndex e) (fired e) (Some firedCallback) self (cancelled e).
Definition arm (t : Z) (w : tworld) : tworld := set_armed t (modify self (armEntry t) (timers w)) w.

(** [addCallbackTimer]; which worker is woken to keep the time is Dispatch.v's. *)
Definition addCallbackTimer : tprog bool :=
  touch (fun w => (set_timers (addUnlessCancelled self (timers w)).1 w, (addUnlessCancelled self (timers w)).2)).

(** [timer_operation::start] *)
Definition start (i : nat) : tprog unit :=
  s <- tload trequested;;
  s' <- (if s : bool then Ret true else tload tstopping);;
  if s' : bool then complete TStopped
  else
    t <- load now;;
    check (in_ticks (deadlineFrom t)) "deadline overflows";;;
    tstore (arm t);;;
    listen i;;;
    b <- addCallbackTimer;;
    if b : bool then Ret tt else finishTimer i TStopped.

(** ** Firing *)

(** [Scheduler::spawn] of the task that runs [run] *)
Definition spawn : tprog spawn_result :=
  s <- tload tstopping;;
  if s : bool then Ret SpawnCanceled
  else touch_any (fun w => [(set_tasks (S (tasks w)) w, Spawned); (set_spawnFailed w, SpawnError)]).

(** [timer_operation::fired] *)
Definition firedTimer (i : nat) : tprog unit :=
  r <- spawn;;
  match r with
  | Spawned => Ret tt
  | SpawnCanceled => finishTimer i TStopped
  | SpawnError => finishTimer i TError
  end.

(** [timer_operation::run], in the task *)
Definition runTask (i : nat) : tprog unit :=
  stopListener i;;;
  s <- tload trequested;;
  s' <- (if s : bool then Ret true else tload tstopping);;
  complete (if s' : bool then TStopped else TValue).

(** The call or wake-up after a critical section that took an entry out. *)
Definition dispatch (i : nat) (ev : event) : tprog unit :=
  if callsSelf ev then firedTimer i else store (fun w => set_timers (emit ev (timers w)) w).

(** [TimerQueue::fireExpired] *)
Fixpoint fireExpired (i fuel : nat) (t : Z) : tprog unit :=
  match fuel with
  | O => Starved
  | S fuel =>
      ev <- section (fireOne t);;
      match ev with
      | None => Ret tt
      | Some ev => dispatch i ev;;; fireExpired i fuel t
      end
  end.

(** [TimerQueue::fireCallbacksAndClose] *)
Fixpoint fireCallbacksAndClose (i fuel : nat) : tprog unit :=
  match fuel with
  | O => Starved
  | S fuel =>
      ev <- section closeOne;;
      match ev with
      | None => Ret tt
      | Some ev => dispatch i ev;;; fireCallbacksAndClose i fuel
      end
  end.

(** [Scheduler::stop], as far as the timers go *)
Definition schedulerStop (i fuel : nat) : tprog unit :=
  b <- rmw (fun w => (set_tstopping w, tstopping w));;
  if b : bool then Ret tt else fireCallbacksAndClose i fuel.

(** ** The others *)

Inductive timer_op :=
| Tick (d : nat) | FireTimers | RunTask | RequestStop | SchedulerStop | OtherAdd (q : nat) | OtherCancel (q : nat).

(** Entries are added while they are not queued. *)
Definition otherAdd (q : nat) (t : TimerQueue.world) : TimerQueue.world * unit :=
  if bool_decide (q = self) || bool_decide (q ∈ heap t) then (t, tt) else ((add 0 q t).1, tt).
Definition otherCancel (q : nat) (t : TimerQueue.world) : TimerQueue.world * unit :=
  if bool_decide (q = self) then (t, tt) else ((cancelTimer q t).1, tt).

Definition timer_perform (i fuel : nat) (o : timer_op) : tprog unit :=
  match o with
  | Tick d => store (fun w => set_now (Z.min horizon (now w + Z.of_nat d)) w)
  | FireTimers => t <- load now;; fireExpired i fuel t
  | RunTask =>
      b <- rmw (fun w => match tasks w with S k => (set_tasks k w, true) | O => (w, false) end);;
      if b : bool then runTask i else Ret tt
  | RequestStop => request_stop i
  | SchedulerStop => schedulerStop i fuel
  | OtherAdd q => section (otherAdd q)
  | OtherCancel q => section (otherCancel q)
  end.

Fixpoint timer_run (i fuel : nat) (l : list timer_op) : tprog unit :=
  match l with
  | [] => Ret tt
  | o :: l => timer_perform i fuel o;;; timer_run i fuel l
  end.

Definition timer_world (q : TimerQueue.world) : tworld := TWorld s_init false q true false 0 0 0 false [].
Definition timer_pool (q : TimerQueue.world) (fuel : nat) (l : list (list timer_op)) : config tworld unit :=
  (start 0 :: imap (fun i ops => timer_run (S i) fuel ops) l, timer_world q).
End timer.
Notation tprog := (prog tworld).

(** ** One entry among the timers of a queue *)

(** Whether the entry is queued, was cancelled, the queue is closed; the entry's deadline
    and whether it is to call the operation. *)
Record eview := EView { v_queued : bool; v_cancelled : bool; v_closed : bool; v_deadline : Z; v_ours : bool }.
Definition v_set_queued b v := EView b (v_cancelled v) (v_closed v) (v_deadline v) (v_ours v).
Definition v_set_cancelled v := EView (v_queued v) true (v_closed v) (v_deadline v) (v_ours v).
Definition v_set_closed v := EView (v_queued v) (v_cancelled v) true (v_deadline v) (v_ours v).
Definition v_set_armed d v := EView (v_queued v) (v_cancelled v) (v_closed v) d true.

Section view.
Context (self : nat).
Implicit Types (t : TimerQueue.world).

Definition ours (e : TimerEntry) : bool :=
  bool_decide (callback e = Some firedCallback) && bool_decide (argument e = self) && bool_decide (queue e = Some 0%nat).
Definition view t : eview :=
  EView (bool_decide (self ∈ heap t)) (cancelled (entry t self)) (closed t) (deadline (entry t self)) (ours (entry t self)).

Lemma view_queued t : v_queued (view t) = bool_decide (self ∈ heap t).
Proof. done. Qed.
Lemma view_closed t : view (set_closed true t) = v_set_closed (view t).
Proof. done. Qed.

(** A well-formed queue in which only the operation's entry calls it. *)
Record tok t : Prop := {
  tok_wf : wf t;
  tok_other : forall q, q <> self -> event_of (entry t q) <> firedEvent self
}.

Lemma callsSelf_eq ev : callsSelf self ev = true <-> ev = firedEvent self.
Proof.
  destruct ev as [k|c a]; [done|]. unfold firedEvent. cbn [callsSelf]. rewrite andb_true_iff, !Nat.eqb_eq. split; [by intros [-> ->]|by intros [= -> ->]].
Qed.

(** *** Entries that differ in their places *)

Notation like e e' := (set_heapIndex None e = set_heapIndex None e').

Lemma like_event e e' : like e e' -> event_of e = event_of e'.
Proof. intros H. unfold event_of. by rewrite (f_equal callback H : callback e = callback e'), (f_equal argument H : argument e = argument e'), (f_equal token H : token e = token e'). Qed.

Lemma like_view e e' : like e e' -> cancelled e = cancelled e' /\ deadline e = deadline e' /\ ours e = ours e'.
Proof.
  intros H. unfold ours. by rewrite (f_equal callback H : callback e = callback e'), (f_equal argument H : argument e = argument e'), (f_equal queue H : queue e = queue e'),
    (f_equal cancelled H : cancelled e = cancelled e'), (f_equal deadline H : deadline e = deadline e').
Qed.

Lemma view_like t t' : (self ∈ heap t' <-> self ∈ heap t) -> closed t' = closed t -> like (entry t' self) (entry t self) -> view t' = view t.
Proof. intros H1 H2 (E1 & E2 & E3)%like_view. unfold view. by rewrite H2, E1, E2, E3, (bool_decide_ext _ _ H1). Qed.

Lemma view_at t t' b : bool_decide (self ∈ heap t') = b -> closed t' = closed t -> like (entry t' self) (entry t self) -> view t' = v_set_queued b (view t).
Proof. intros H1 H2 (E1 & E2 & E3)%like_view. unfold view, v_set_queued. simpl. by rewrite H2, E1, E2, E3, H1. Qed.

Lemma ours_event e : ours e = true -> event_of e = firedEvent self.
Proof. intros [[E1 E2]%andb_true_iff _]%andb_true_iff. unfold event_of, firedEvent. by rewrite (bool_decide_eq_true_1 _ E1), (bool_decide_eq_true_1 _ E2). Qed.

(** Membership after [p] has entered or left. *)
Lemma queued_other h h' p : h ≡ₚ p :: h' -> p <> self -> self ∈ h <-> self ∈ h'.
Proof. intros -> Hp. rewrite elem_of_cons. split; [intros [?|?]; [congruence|done]|auto]. Qed.

Lemma unqueued_self t h : wf t -> heap t ≡ₚ self :: h -> self ∉ h.
Proof. intros Hw E. pose proof (linked_nodup t (wf_linked _ Hw)) as Hn. rewrite E in Hn. by apply NoDup_cons in Hn as [? _]. Qed.

(** *** The critical sections *)

(** The fields of an entry that is not queued. *)
Lemma wf_unqueued t f : wf t -> self ∉ heap t -> (forall e, heapIndex (f e) = heapIndex e) -> wf (modify self f t).
Proof.
  intros [Hl Ho (M1 & M2 & M3)] Hn Hf.
  assert (Hk : forall q, q ∈ heap t -> entry (modify self f t) q = entry t q) by (intros q Hq; apply entry_modify_ne; by intros <-).
  constructor.
  - intros q i. rewrite entry_modify. case_decide; rewrite ?Hf; apply Hl.
  - intros i Hi. unfold ok_at, key in *. change (heap (modify self f t)) with (heap t) in *.
    assert (Hin : forall j, (j < length (heap t))%nat -> heap t !!! j ∈ heap t) by (intros j Hj; by eapply list_elem_of_lookup_2, lookup_lt_total).
    rewrite !Hk; [by apply Ho|apply Hin; lia|apply Hin]. unfold par. pose proof (Nat.Div0.div_le_upper_bound (i - 1) 2 (i - 1)). lia.
  - unfold mirrors. splits; [done| |done]. etrans; [exact M2|]. change (heap (modify self f t)) with (heap t).
    destruct (heap t) as [|p h]; [done|]. by rewrite Hk by left.
Qed.

Lemma view_arm relative at_ after s t : tok t -> v_queued (view t) = false ->
  tok (modify self (armEntry self relative at_ after s) t) /\
  view (modify self (armEntry self relative at_ after s) t) = v_set_armed (deadlineFrom relative at_ after s) (view t).
Proof.
  intros [Hw Ho] Hq. apply bool_decide_eq_false in Hq. split; [split; [by apply wf_unqueued|]|].
  - intros q Hne. rewrite entry_modify_ne by done. by apply Ho.
  - unfold view, v_set_armed, ours. rewrite entry_modify_eq. simpl. by rewrite (bool_decide_true (self = self)).
Qed.

Lemma view_emit ev t : tok t -> tok (emit ev t) /\ view (emit ev t) = view t.
Proof. intros [Hw Ho]. split; [|done]. split; [by apply wf_emit|done]. Qed.

Lemma cancel_closed p t : wf t -> closed (cancel p t).1 = closed t.
Proof.
  intros Hw. unfold cancel. destruct (heapIndex (entry t p)) as [i|] eqn:Ei; [|done]. apply (wf_linked _ Hw) in Ei.
  destruct (removeLocked_ok i t p Hw Ei) as [_ [_ _ [? _]]]. done.
Qed.

Lemma view_cancel t : tok t -> v_ours (view t) = true ->
  tok (cancelTimer self t).1 /\ (cancelTimer self t).2 = v_queued (view t) /\
  view (cancelTimer self t).1 = if v_queued (view t) then v_set_queued false (view t) else v_set_cancelled (view t).
Proof.
  intros [Hw Ho] Hq. cbn [view v_ours] in Hq. unfold ours in Hq. apply andb_true_iff in Hq as [_ Hq]. apply bool_decide_eq_true in Hq. unfold cancelTimer. rewrite Hq.
  pose proof (cancel_closed self t Hw) as Hcl. pose proof (cancel_ok self t Hw) as Hc. cbn [view v_queued]. case_decide as Hin.
  - destruct Hc as (-> & Hw' & Hp & Hs). rewrite bool_decide_true by done. splits; [split; [done|]|done|].
    + intros q Hne. rewrite (like_event _ _ (Hs q)). by apply Ho.
    + apply view_at; [|done|apply Hs]. apply bool_decide_eq_false. exact (unqueued_self t _ Hw Hp).
  - destruct Hc as [-> Hw']. rewrite bool_decide_false by done. cbn [fst snd]. splits; [split; [done|]|done|].
    + intros q Hne. rewrite entry_modify_ne by done. by apply Ho.
    + unfold view, v_set_cancelled. simpl. rewrite entry_modify_eq. simpl. by rewrite bool_decide_false.
Qed.

Lemma addUnlessCancelled_like p t q : wf t -> p ∉ heap t ->
  like (set_fired false (entry (addUnlessCancelled p t).1 q)) (set_fired false (entry t q)) /\ closed (addUnlessCancelled p t).1 = closed t.
Proof.
  intros Hw Hp. unfold addUnlessCancelled. destruct (cancelled (entry t p) || closed t); [done|]. cbn [fst].
  assert (Hw1 : wf (modify p (set_fired false) t)) by (by apply wf_modify).
  destruct (enqueue_ok p _ Hw1 Hp) as (_ & _ & _ & _ & S3 & C3 & _). split; [|done].
  specialize (S3 q). apply (f_equal (set_fired false)) in S3. etrans; [exact S3|]. rewrite entry_modify. by case_decide.
Qed.

Lemma view_add t : tok t -> v_queued (view t) = false ->
  let v := view t in
  tok (addUnlessCancelled self t).1 /\ (addUnlessCancelled self t).2 = negb (v_cancelled v || v_closed v) /\
  view (addUnlessCancelled self t).1 = v_set_queued (negb (v_cancelled v || v_closed v)) v.
Proof.
  intros [Hw Ho] Hq v. cbn [view v_queued] in Hq. apply bool_decide_eq_false in Hq. destruct (addUnlessCancelled_ok self t Hw Hq) as (Hw' & Hr & Hh).
  assert (Hlk : forall q, like (set_fired false (entry (addUnlessCancelled self t).1 q)) (set_fired false (entry t q))) by (intros q; by apply addUnlessCancelled_like).
  destruct (addUnlessCancelled_like self t self Hw Hq) as [_ Hcl]. cbn [v view v_cancelled v_closed].
  assert (E2 : (addUnlessCancelled self t).2 = negb (cancelled (entry t self) || closed t)) by (unfold addUnlessCancelled; by destruct (cancelled (entry t self) || closed t)).
  splits; [split; [done|]|done|].
  - intros q Hne. pose proof (like_event _ _ (Hlk q)) as E. change (event_of (entry (addUnlessCancelled self t).1 q) = event_of (entry t q)) in E. rewrite E. by apply Ho.
  - destruct (like_view _ _ (Hlk self)) as (L1 & L2 & L3). simpl in L1, L2. change (ours (entry (addUnlessCancelled self t).1 self) = ours (entry t self)) in L3.
    unfold view, v_set_queued. simpl. rewrite Hcl, L1, L2, L3. f_equal. rewrite <- E2. destruct (addUnlessCancelled self t).2.
    + rewrite bool_decide_true; [done|]. rewrite Hh. left.
    + rewrite Hh. by rewrite bool_decide_false.
Qed.

(** An entry has fired: the owner's, or another's. *)
Lemma fires_like p t t' : fires p t t' -> wf t -> like (set_fired false (entry t' p)) (set_fired false (entry t p)) -> tok t ->
  tok t' /\ view t' = if decide (p = self) then v_set_queued false (view t) else view t.
Proof.
  intros [F1 F2 F3 F4 F5 [F6 F7]] Hw Hlk [_ Ho]. split; [split; [done|]|].
  - intros q Hne. destruct (decide (q = p)) as [->|Hqp].
    + pose proof (like_event _ _ Hlk) as E. change (event_of (entry t' p) = event_of (entry t p)) in E. rewrite E. by apply Ho.
    + rewrite (like_event _ _ (F3 q Hqp)). by apply Ho.
  - case_decide as Ep; [subst p|].
    + destruct (like_view _ _ Hlk) as (L1 & L2 & L3). simpl in L1, L2. change (ours (entry t' self) = ours (entry t self)) in L3.
      unfold view, v_set_queued. simpl. rewrite F6, L1, L2, L3, bool_decide_false; [done|]. exact (unqueued_self t _ Hw F2).
    + apply view_like; [by rewrite (queued_other _ _ p F2)|done|]. by apply F3.
Qed.

Lemma fireLocked_like p i t : wf t -> heap t !! i = Some p ->
  like (set_fired false (entry (fireLocked p (removeLocked i t)).1 p)) (set_fired false (entry t p)).
Proof.
  intros Hw Hi. destruct (removeLocked_ok i t p Hw Hi) as [_ [_ R2 _]]. unfold fireLocked. cbn [fst]. rewrite entry_modify_eq.
  specialize (R2 p). apply (f_equal (set_fired false)) in R2. exact R2.
Qed.

(** What firing an entry tells its owner. *)
Definition fired_view (t t' : TimerQueue.world) (ev : event) : Prop :=
  tok t' /\
  if callsSelf self ev then v_queued (view t) = true /\ view t' = v_set_queued false (view t) else view t' = view t.

Lemma fired_view_of p i t : tok t -> (v_queued (view t) = true -> v_ours (view t) = true) -> heap t !! i = Some p ->
  fired_view t (fireLocked p (removeLocked i t)).1 (event_of (entry t p)).
Proof.
  intros Ht Hours Hi. pose proof (tok_wf _ Ht) as Hw. destruct (fireLocked_ok p i t Hw Hi) as [HF _].
  destruct (fires_like p t _ HF Hw (fireLocked_like p i t Hw Hi) Ht) as [Ht' Hv]. split; [done|].
  assert (Hin : p ∈ heap t) by by eapply list_elem_of_lookup_2. destruct (decide (p = self)) as [->|Hne].
  - assert (Hq : v_queued (view t) = true) by by apply bool_decide_eq_true. specialize (Hours Hq). rewrite (proj2 (callsSelf_eq _) (ours_event _ Hours)). done.
  - rewrite (not_true_is_false (callsSelf self (event_of (entry t p)))); [done|]. rewrite callsSelf_eq. by apply (tok_other _ Ht).
Qed.

Lemma view_fire s t : tok t -> (v_queued (view t) = true -> v_ours (view t) = true) ->
  match fireOne s t with
  | (t', None) => t' = t
  | (t', Some ev) => fired_view t t' ev /\ (callsSelf self ev = true -> v_deadline (view t) <= s)
  end.
Proof.
  intros Ht Hours. pose proof (fireOne_ok s t (tok_wf _ Ht)) as H. unfold fireOne in *. destruct (heap t) as [|p h] eqn:Eh; [done|].
  destruct (deadline (entry t p) >? s) eqn:Ed; [by destruct H|]. destruct H as (p' & Hp & Hd & Hev & _ & _). rewrite Hev.
  injection Hp as <-. split; [apply fired_view_of; [done..|by rewrite Eh]|]. intros E%callsSelf_eq. destruct (decide (p = self)) as [->|Hne]; [done|by destruct (tok_other _ Ht p)].
Qed.

Lemma view_close t : tok t -> (v_queued (view t) = true -> v_ours (view t) = true) ->
  match closeOne t with
  | (t', None) => tok t' /\ view t' = v_set_closed (view t) /\ v_queued (view t) = false
  | (t', Some ev) => fired_view (set_closed true t) t' ev
  end.
Proof.
  intros Ht Hours. unfold closeOne. set (t0 := set_closed true t).
  assert (Ht0 : tok t0) by (destruct Ht; split; [by apply wf_closed|done]).
  destruct (findCallback_spec t0 (heap t0) 0) as (H1 & _ & H3). destruct (Nat.eqb_spec (findCallback t0 0 (heap t0)) (length (heap t0))) as [Heq|Hne].
  - splits; [done|done|]. apply not_true_is_false. intros Hq. specialize (Hours Hq). apply bool_decide_eq_true in Hq. specialize (H3 Heq). rewrite Forall_forall in H3.
    specialize (H3 self Hq). cbn [view v_ours] in Hours. unfold ours in Hours. change (entry t0 self) with (entry t self) in H3. rewrite H3 in Hours. done.
  - destruct (lookup_lt_is_Some_2 (heap t0) (findCallback t0 0 (heap t0)) ltac:(lia)) as [p Hp]. rewrite (lookup_total_Some _ _ _ Hp). cbn [fst snd].
    destruct (fireLocked_ok p _ t0 (tok_wf _ Ht0) Hp) as [_ ->]. by apply fired_view_of.
Qed.

Lemma view_otherAdd q t : tok t -> tok (otherAdd self q t).1 /\ view (otherAdd self q t).1 = view t.
Proof.
  intros Ht. pose proof Ht as [Hw Ho]. unfold otherAdd. case_bool_decide as Eq; [done|]. case_bool_decide as Eh; [done|]. cbn [orb fst].
  destruct (add_ok 0 q t Hw Eh) as (Hw' & Hh & Hs & Hqq & _). assert (He : event_of (entry (add 0 q t).1 q) = event_of (entry t q) /\ closed (add 0 q t).1 = closed t).
  { unfold add. cbn [fst]. set (w2 := modify q _ _). assert (Hw2 : wf w2) by (apply wf_modify; [done|]; by apply wf_modify).
    destruct (enqueue_ok q w2 Hw2 Eh) as (_ & _ & _ & _ & S3 & C3 & _). split; [|done]. etrans; [apply like_event; exact (S3 q)|]. unfold w2. by rewrite !entry_modify_eq. }
  split; [split; [done|]|].
  - intros p Hne. destruct (decide (p = q)) as [->|Hpq]; [rewrite (proj1 He); by apply Ho|]. rewrite (like_event _ _ (Hs p Hpq)). by apply Ho.
  - apply view_like; [by rewrite (queued_other _ _ q Hh)|apply He|apply Hs; congruence].
Qed.

Lemma view_otherCancel q t : tok t -> tok (otherCancel self q t).1 /\ view (otherCancel self q t).1 = view t.
Proof.
  intros Ht. pose proof Ht as [Hw Ho]. unfold otherCancel. case_bool_decide as Eq; [done|]. cbn [fst]. unfold cancelTimer. destruct (queue (entry t q)); [|done].
  pose proof (cancel_ok q t Hw) as Hc. pose proof (cancel_closed q t Hw) as Hcl. case_decide as Hin.
  - destruct Hc as (_ & Hw' & Hp & Hs). split; [split; [done|]|].
    + intros p Hne. rewrite (like_event _ _ (Hs p)). by apply Ho.
    + apply view_like; [by rewrite (queued_other _ _ q Hp)|done|apply Hs].
  - destruct Hc as [-> Hw']. cbn [fst] in *. split; [split; [done|]|].
    + intros p Hne. rewrite entry_modify. case_decide; [|by apply Ho]. by apply (Ho p).
    + apply view_like; [done|done|]. by rewrite entry_modify_ne.
Qed.
End view.
