(* ===== verification/ExecTimerSpec.v ===== *)
(** * ExecTimer: one completion, on an operation that is still there

    Whoever took the timer out of the queue has the operation in hand, alone: the
    starting thread, the timekeeper, the thread that stops the scheduler or requests
    stop, the task.  The completion is its last access. *)

From Stdlib Require Import ZArith Lia.
From stdpp Require Import base tactics list numbers option strings gmap functions.
From S2P Require Import Prelude Conc TimerQueue TimerHeap TimerSpec StopSource ExecTimer.
Local Open Scope nat_scope.
#[local] Opaque ExecTimer.view.

(** Who has the operation: thread [i]; nobody, its timer is queued, or its task; it is
    complete. *)
Inductive tplace := PHas (i : nat) | PQueue | PTask | PDone.
#[global] Instance tplace_eq_dec : EqDecision tplace.
Proof. solve_decision. Defined.

(** [closer]: the thread that is calling the timers back for [Scheduler::stop]. *)
Record tghost := TG { tplc : tplace; closer : option nat }.

Section spec.
Context `{SS : StopSource} (self : nat) (relative : bool) (at_ after horizon : Z) (n : nat).
Notation start := (start self relative at_ after).
Notation view w := (view self (timers w)).

Definition due (w : tworld) : Z := deadlineFrom relative at_ after (started w).

(** A completion has its reason. *)
Definition tres_ok (r : tcompletion) (w : tworld) : Prop :=
  match r with
  | TValue => (due w <= now w)%Z
  | TError => spawnFailed w = true
  | TStopped => trequested w = true \/ tstopping w = true
  end.

Record tinv (w : tworld) (g : tghost) : Prop := {
  ti_tok : tok self (timers w);
  ti_alive : talive w = negb (bool_decide (tplc g = PDone));
  ti_queued : v_queued (view w) = bool_decide (tplc g = PQueue);
  ti_queue : tplc g = PQueue -> tactive w = true /\ v_cancelled (view w) = false /\ tcb w <> CbNone /\ v_deadline (view w) = due w;
  ti_tasks : tasks w = if bool_decide (tplc g = PTask) then 1 else 0;
  ti_task : tplc g = PTask -> tactive w = true /\ (due w <= now w)%Z;
  ti_ours : tcb w <> CbNone -> v_ours (view w) = true;
  ti_cb : trequested w = true -> tcb w <> CbRegistered;
  ti_run : forall j, tcb w = CbRunning j -> trequested w = true /\ j < n;
  ti_cancelled : v_cancelled (view w) = true -> trequested w = true;
  ti_has : forall i, tplc g = PHas i -> i < n;
  ti_done : tplc g = PDone -> tcb w = CbNone /\ tactive w = false;
  ti_results : length (tresults w) = if bool_decide (tplc g = PDone) then 1 else 0;
  ti_reason : forall r, r ∈ tresults w -> tres_ok r w;
  ti_closed : v_closed (view w) = true -> tstopping w = true;
  ti_stop : tstopping w = true -> tplc g = PQueue \/ v_closed (view w) = false -> closer g <> None;
  ti_closer : forall j, closer g = Some j -> tstopping w = true /\ j < n;
  ti_now : (0 <= now w <= horizon)%Z
}.

(** What only ever grows. *)
Definition grows (w w' : tworld) : Prop :=
  (trequested w = true -> trequested w' = true) /\ (tstopping w = true -> tstopping w' = true) /\
  (spawnFailed w = true -> spawnFailed w' = true) /\ (now w <= now w')%Z /\
  (v_cancelled (view w) = true -> v_cancelled (view w') = true).

(** The holder's view of its operation. *)
Definition unmoved (w w' : tworld) : Prop :=
  tactive w' = tactive w /\ started w' = started w /\ v_deadline (view w') = v_deadline (view w) /\ v_ours (view w') = v_ours (view w) /\
  (tcb w = CbNone -> tcb w' = CbNone) /\
  (v_cancelled (view w) = true \/ tcb w <> CbNone -> v_cancelled (view w') = true \/ tcb w' <> CbNone).

Record tguar (j : nat) (a b : tworld * tghost) : Prop := {
  tg_has : forall i, i <> j -> tplc a.2 = PHas i <-> tplc b.2 = PHas i;
  tg_run : forall i, i <> j -> tcb a.1 = CbRunning i <-> tcb b.1 = CbRunning i;
  tg_closer : forall i, i <> j -> closer a.2 = Some i <-> closer b.2 = Some i;
  tg_held : forall i, i <> j -> tplc a.2 = PHas i -> unmoved a.1 b.1;
  tg_grows : grows a.1 b.1
}.

Definition twait (i : nat) (w : tworld) (g : tghost) : Prop := exists j, j <> i /\ tcb w = CbRunning j.

Definition tproto : protocol tworld tghost := WaitProtocol tinv tguar twait.
Notation R := tproto.

Lemma grows_refl w : grows w w.
Proof. unfold grows. splits; done || lia. Qed.
Lemma unmoved_refl w : unmoved w w.
Proof. unfold unmoved. tauto. Qed.
Lemma tguar_refl j x : tguar j x x.
Proof. split; intros; [tauto..|apply unmoved_refl|apply grows_refl]. Qed.

Lemma t_alive_unless w g : tinv w g -> tplc g <> PDone -> talive w = true.
Proof. intros HI H. rewrite (ti_alive w g HI), bool_decide_false; done. Qed.

Lemma alive_listened w g : tinv w g -> tcb w <> CbNone -> talive w = true.
Proof. intros HI H. apply (t_alive_unless w g HI). intros E. by destruct (ti_done w g HI E). Qed.

(** ** Rules for the accesses *)

Lemma t_touch_any {A B} i (f : tworld -> list (tworld * B)) (q : B -> tprog A) P Q :
  (forall w g, tinv w g -> P w g -> talive w = true /\ f w <> [] /\
     forall o, o ∈ f w -> exists g' P', tinv o.1 g' /\ tguar i (w, g) (o.1, g') /\ P' o.1 g' /\ stable R i P' /\ rg R i (q o.2) P' Q) ->
  rg R i (bind (touch_any f) q) P Q.
Proof.
  intros H. split.
  - intros w g HI HP E. destruct (H w g HI HP) as (Ha & Hf & _). rewrite Ha in E. by apply fmap_nil_inv in E.
  - intros w g w' r HI HP Hin. destruct (H w g HI HP) as (Ha & _ & Ho). rewrite Ha in Hin. apply list_elem_of_fmap in Hin as ([w1 x] & [= -> ->] & Hin). by apply Ho in Hin.
Qed.

Lemma t_touch {A B} i (f : tworld -> tworld * B) (q : B -> tprog A) P Q :
  (forall w g, tinv w g -> P w g -> talive w = true /\
     exists g' P', tinv (f w).1 g' /\ tguar i (w, g) ((f w).1, g') /\ P' (f w).1 g' /\ stable R i P' /\ rg R i (q (f w).2) P' Q) ->
  rg R i (bind (touch f) q) P Q.
Proof. intros H. apply t_touch_any. intros w g HI HP. destruct (H w g HI HP) as [Ha Ho]. splits; [done..|]. by intros o ->%list_elem_of_singleton. Qed.

Lemma t_tload {A B} i (f : tworld -> B) (q : B -> tprog A) P Q :
  (forall w g, tinv w g -> P w g -> talive w = true /\ exists P', P' w g /\ stable R i P' /\ rg R i (q (f w)) P' Q) ->
  rg R i (bind (tload f) q) P Q.
Proof.
  intros H. apply t_touch. intros w g HI HP. destruct (H w g HI HP) as (Ha & P' & ? & ? & ?). split; [done|]. exists g, P'. splits; [done|apply tguar_refl|done..].
Qed.

Lemma t_section {A B} i (f : TimerQueue.world -> TimerQueue.world * B) (q : B -> tprog A) P Q :
  (forall w g, tinv w g -> P w g ->
     exists g' P', tinv (set_timers (f (timers w)).1 w) g' /\ tguar i (w, g) (set_timers (f (timers w)).1 w, g') /\
       P' (set_timers (f (timers w)).1 w) g' /\ stable R i P' /\ rg R i (q (f (timers w)).2) P' Q) ->
  rg R i (bind (section self f) q) P Q.
Proof.
  intros H. split; [intros w g _ _; by destruct (talive w || _)|]. intros w g w' r HI HP Hin.
  assert (Ha : talive w || negb (bool_decide (self ∈ heap (timers w))) = true).
  { rewrite <- view_queued, (ti_queued w g HI), (ti_alive w g HI). by destruct (tplc g). }
  rewrite Ha in Hin. apply list_elem_of_singleton in Hin as [= -> ->]. by apply H.
Qed.

(** ** What a thread knows *)

Definition closing (i : nat) (c : bool) (g : tghost) : Prop := if c then closer g = Some i else closer g <> Some i.

(** Thread [i] has nothing to do with the operation. *)
Definition quiet (i : nat) (c : bool) : asrt tworld tghost := fun w g =>
  tplc g <> PHas i /\ tcb w <> CbRunning i /\ closing i c g.
(** Thread [i] has it, inside the stop callback or not. *)
Definition holds (i : nat) (c own : bool) : asrt tworld tghost := fun w g =>
  tplc g = PHas i /\ closing i c g /\ if own then tcb w = CbRunning i else tcb w <> CbRunning i.

(** Facts that last while the operation is in hand. *)
Class Lasting (F : tworld -> Prop) : Prop := lasting w w' : grows w w' -> started w' = started w -> F w -> F w'.

#[local] Instance tres_ok_lasting r : Lasting (tres_ok r).
Proof. intros w w' (H1 & H2 & H3 & H4 & _) Hs. unfold tres_ok, due. destruct r; rewrite ?Hs; [lia|done|intuition]. Qed.
#[local] Instance due_lasting : Lasting (fun w => (due w <= now w)%Z).
Proof. intros w w' (_ & _ & _ & H4 & _) Hs. unfold due. rewrite Hs. lia. Qed.
#[local] Instance requested_lasting : Lasting (fun w => trequested w = true).
Proof. by intros w w' (? & _) _. Qed.
#[local] Instance stopping_lasting : Lasting (fun w => tstopping w = true).
Proof. by intros w w' (_ & ? & _) _. Qed.
#[local] Instance lasting_and F F' : Lasting F -> Lasting F' -> Lasting (fun w => F w /\ F' w).
Proof. intros H H' w w' Hg Hs [? ?]. split; [by eapply H|by eapply H']. Qed.
#[local] Instance lasting_or F F' : Lasting F -> Lasting F' -> Lasting (fun w => F w \/ F' w).
Proof. intros H H' w w' Hg Hs [?|?]; [left; by eapply H|right; by eapply H']. Qed.
#[local] Instance lasting_impl (phi : Prop) F : Lasting F -> Lasting (fun w => phi -> F w).
Proof. intros H w w' Hg Hs Hp ?. by eapply H; eauto. Qed.

(** ... and what it says about the listener is so. *)
Definition listening (i : nat) (c own : bool) (F : tworld -> Prop) : asrt tworld tghost := fun w g =>
  holds i c own w g /\ (tactive w = false -> tcb w = CbNone) /\ F w.
(** The listener is being stopped. *)
Definition unlisted (i : nat) (c own : bool) (F : tworld -> Prop) : asrt tworld tghost := fun w g =>
  holds i c own w g /\ tactive w = false /\ F w.
(** The listener is gone. *)
Definition unheard (i : nat) (c : bool) (F : tworld -> Prop) : asrt tworld tghost := fun w g =>
  holds i c false w g /\ tactive w = false /\ tcb w = CbNone /\ F w.

Lemma closing_stable i c j w g w' g' : i <> j -> tguar j (w, g) (w', g') -> closing i c g -> closing i c g'.
Proof. intros Hj [] H. simpl in *. destruct c; simpl in *; [by apply tg_closer0|]. intros E. apply H. by apply tg_closer0. Qed.

Lemma stable_t_quiet i c : stable R i (quiet i c).
Proof.
  intros j w g w' g' Hj _ _ HG (H1 & H2 & H3). pose proof HG as []. simpl in *. unfold quiet. splits; [|..|by eapply closing_stable].
  - intros E. apply H1. by apply tg_has0.
  - intros E. apply H2. by apply tg_run0.
Qed.

Lemma holds_stable i c own j w g w' g' : i <> j -> tguar j (w, g) (w', g') -> holds i c own w g ->
  holds i c own w' g' /\ unmoved w w' /\ grows w w'.
Proof.
  intros Hj HG (H1 & H2 & H3). pose proof HG as []. simpl in *. splits; [|by eapply tg_held0|done]. unfold holds. splits; [by apply tg_has0|by eapply closing_stable|].
  destruct own; [by apply tg_run0|]. intros E. apply H3. by apply tg_run0.
Qed.

(** What a holder knows is stable if it is about what others leave alone. *)
Lemma stable_held i c own (K : tworld -> Prop) :
  (forall w w', unmoved w w' -> grows w w' -> K w -> K w') -> stable R i (fun w g => holds i c own w g /\ K w).
Proof. intros HK j w g w' g' Hj _ _ HG [H1 H2]. destruct (holds_stable i c own j w g w' g') as (? & ? & ?); [done..|]. split; [done|by eapply HK]. Qed.

Lemma stable_t_listening i c own F `{!Lasting F} : stable R i (listening i c own F).
Proof. apply stable_held. intros w w' (U1 & U2 & _ & _ & U3 & _) Hg [H1 H2]. rewrite U1. split; [auto|by eapply lasting]. Qed.
Lemma stable_t_unlisted i c own F `{!Lasting F} : stable R i (unlisted i c own F).
Proof. apply stable_held. intros w w' (U1 & U2 & _ & _ & U3 & _) Hg [H1 H2]. rewrite U1. split; [auto|by eapply lasting]. Qed.
Lemma stable_t_unheard i c F `{!Lasting F} : stable R i (unheard i c F).
Proof. apply stable_held. intros w w' (U1 & U2 & _ & _ & U3 & _) Hg (H1 & H2 & H3). rewrite U1. splits; [auto..|by eapply lasting]. Qed.

(** ** Steps *)

(** A step that leaves the ghost state, the stop callback and the entry alone. *)
Lemma tguar_same j w g w' :
  tcb w' = tcb w -> (forall i, i <> j -> tplc g = PHas i -> unmoved w w') -> grows w w' -> tguar j (w, g) (w', g).
Proof. intros H1 H2 H3. split; simpl; rewrite ?H1; (tauto || done). Qed.

(** The operation changes hands. *)
Lemma tguar_moved j w g w' pl : (forall i, i <> j -> tplc g <> PHas i) -> (forall i, i <> j -> pl <> PHas i) -> tcb w' = tcb w -> grows w w' ->
  tguar j (w, g) (w', TG pl (closer g)).
Proof. intros H1 H2 H3 H4. split; simpl; rewrite ?H3; try tauto. - intros i Hi. split; intros E; [by destruct (H1 i)|by destruct (H2 i)]. - intros i Hi E. by destruct (H1 i). Qed.

(** A step of the stop source. *)
Lemma t_source_inv w g s : tinv w g -> (trequested w = true -> stop_requested s = true) ->
  (tplc g = PQueue -> callback_of s <> CbNone) -> (callback_of s <> CbNone -> v_ours (view w) = true) -> (stop_requested s = true -> callback_of s <> CbRegistered) ->
  (forall j, callback_of s = CbRunning j -> stop_requested s = true /\ j < n) -> (tplc g = PDone -> callback_of s = CbNone) ->
  tinv (set_tsource s w) g.
Proof.
  intros [] H1 H3 H4 H5 H6 H7. split; try done.
  - intros Eh. destruct (ti_queue0 Eh) as (? & ? & _ & ?). splits; try done. by apply H3.
  - intros E. apply H1. by apply ti_cancelled0.
  - intros Eh. destruct (ti_done0 Eh) as [_ ?]. split; [by apply H7|done].
  - intros r Hr. specialize (ti_reason0 r Hr). destruct r; [done|done|]. destruct ti_reason0; [left; by apply H1|by right].
Qed.

Lemma t_source_guar i w g s : (trequested w = true -> stop_requested s = true) -> (forall j, j <> i -> tcb w = CbRunning j <-> callback_of s = CbRunning j) ->
  (forall j, j <> i -> tplc g = PHas j -> (tcb w = CbNone -> callback_of s = CbNone) /\ (v_cancelled (view w) = true \/ tcb w <> CbNone -> v_cancelled (view w) = true \/ callback_of s <> CbNone)) ->
  tguar i (w, g) (set_tsource s w, g).
Proof.
  intros H1 H2 H3. split; simpl; try done. intros j Hj Hh. destruct (H3 j Hj Hh) as [? ?]. unfold unmoved. simpl. splits; done.
Qed.

(** *** The completion *)

Lemma t_destroyCallback {A} i c own F `{!Lasting F} (q : unit -> tprog A) Q :
  rg R i (q tt) (unheard i c F) Q -> rg R i (bind (destroyCallback i) q) (unlisted i c own F) Q.
Proof.
  intros Hq. split.
  - intros w g HI _ E. destruct (s_destroy i (tsource w)) eqn:Ed; [done|]. by apply s_destroy_waits in Ed.
  - intros w g w' x HI ((H1 & H2 & H3) & H4 & H5) Hin. destruct (s_destroy i (tsource w)) as [s|] eqn:Ed; [|by apply not_elem_of_nil in Hin].
    apply list_elem_of_singleton in Hin as [= -> ->]. destruct (s_destroy_ends _ _ _ Ed) as [Er Ec].
    assert (Hr : forall j, j <> i -> tcb w <> CbRunning j). { intros j Hj E. rewrite (proj2 (s_destroy_waits i (tsource w))) in Ed; [done|by exists j]. }
    exists g, (unheard i c F). splits; [apply t_source_inv; rewrite ?Er, ?Ec, ?H1; done|apply t_source_guar; rewrite ?Er, ?Ec, ?H1; try done| |by apply stable_t_unheard|exact Hq].
    + intros j Hj. split; [intros E; by destruct (Hr j)|done].
    + congruence.
    + unfold unheard, holds, tcb. simpl. rewrite Ec. splits; try done. eapply lasting; [| |exact H5]; [|done]. unfold grows, trequested. simpl. rewrite Er. splits; done || lia.
Qed.

Lemma t_stopListener {A} i c own F `{!Lasting F} (q : unit -> tprog A) Q :
  rg R i (q tt) (unheard i c F) Q -> rg R i (bind (stopListener i) q) (listening i c own F) Q.
Proof.
  intros Hq. unfold stopListener. apply rg_bind_assoc, t_tload. intros w g HI HP. pose proof HP as ((H1 & H2 & H3) & H4 & H5).
  split; [apply (t_alive_unless w g HI); by rewrite H1|]. destruct (tactive w) eqn:Ea.
  - exists (listening i c own F). splits; [done|by apply stable_t_listening|]. clear w g HI HP H1 H2 H3 H4 H5 Ea.
    apply rg_bind_assoc, t_touch. intros w g HI ((H1 & H2 & H3) & H4 & H5). split; [apply (t_alive_unless w g HI); by rewrite H1|]. cbn [fst snd].
    exists g, (unlisted i c own F). splits; [|apply tguar_same; [done|congruence|exact (grows_refl w)]| |by apply stable_t_unlisted|by apply t_destroyCallback].
    + destruct HI. split; simpl; try done; rewrite ?H1 in *; done.
    + split; [done|]. split; [done|]. eapply lasting; [exact (grows_refl w)|done|exact H5].
  - exists (unheard i c F). splits; [|by apply stable_t_unheard|exact Hq]. specialize (H4 eq_refl). unfold unheard, holds. rewrite H4. splits; done.
Qed.

Lemma t_complete {A} i c r (q : unit -> tprog A) Q :
  rg R i (q tt) (quiet i c) Q -> rg R i (bind (complete r) q) (unheard i c (tres_ok r)) Q.
Proof.
  intros Hq. unfold complete. apply t_touch. intros w g HI ((H1 & H2 & H3) & H4 & H5 & H6). split; [apply (t_alive_unless w g HI); by rewrite H1|]. cbn [fst snd].
  exists (TG PDone (closer g)), (quiet i c). splits; [|apply tguar_moved; [congruence|done|done|exact (grows_refl w)]|by split|apply stable_t_quiet|exact Hq].
  pose proof (ti_results w g HI) as Hl. rewrite H1 in Hl. apply nil_length_inv in Hl. destruct HI. split; simpl; try done; rewrite ?H1, ?Hl in *; try done.
  - by intros r' ->%list_elem_of_singleton.
  - intros Hs [?|Hc]; [done|]. auto.
Qed.

Lemma t_finishTimer {A} i c own r (q : unit -> tprog A) Q :
  rg R i (q tt) (quiet i c) Q -> rg R i (bind (finishTimer i r) q) (listening i c own (tres_ok r)) Q.
Proof. intros. unfold finishTimer. apply rg_bind_assoc, t_stopListener; [apply _|]. by apply t_complete. Qed.

(** *** A stop request *)

(** Thread [i] runs the stop callback of an operation it does not have. *)
Definition inside (i : nat) : asrt tworld tghost := fun w g =>
  tcb w = CbRunning i /\ tplc g <> PHas i /\ closing i false g.
(** ... and has marked the timer. *)
Definition inside_marked (i : nat) : asrt tworld tghost := fun w g => inside i w g /\ v_cancelled (view w) = true.
(** The timer is set up, and will be found cancelled or has a listener. *)
Definition heeded (w : tworld) : Prop :=
  v_ours (view w) = true /\ v_deadline (view w) = due w /\ (v_cancelled (view w) = true \/ tcb w <> CbNone).

Lemma stable_t_inside i : stable R i (inside i).
Proof.
  intros j w g w' g' Hj _ _ HG (H1 & H2 & H3). pose proof HG as []. simpl in *. unfold inside. splits; [by apply tg_run0| |by eapply closing_stable].
  intros E. apply H2. by apply tg_has0.
Qed.

(** A change to the entry that leaves it where it is. *)
Lemma t_mark_ok i w g : tinv w g -> tcb w = CbRunning i -> tplc g <> PQueue ->
  let r := cancelTimer self (timers w) in r.2 = false /\ tinv (set_timers r.1 w) g /\ tguar i (w, g) (set_timers r.1 w, g) /\
    view (set_timers r.1 w) = v_set_cancelled (view w).
Proof.
  intros HI Hc Hh. destruct (view_cancel self (timers w)) as (T1 & T2 & T3); [apply (ti_tok w g HI)|apply (ti_ours w g HI); congruence|].
  rewrite (ti_queued w g HI), bool_decide_false in T2, T3 by done. simpl. splits; [done|..|done].
  - assert (Hr : trequested w = true) by by apply (ti_run w g HI i). destruct HI. split; simpl; rewrite ?T3; simpl; try done.
  - apply tguar_same; [done|..]; [intros j Hj Hp|]; unfold unmoved, grows; simpl; rewrite T3; simpl; splits; try done; by left || lia.
Qed.

(** A section that leaves the entry alone. *)
Lemma same_view_ok i (w : tworld) (g : tghost) (t' : TimerQueue.world) : tinv w g -> tok self t' -> ExecTimer.view self t' = view w ->
  tinv (set_timers t' w) g /\ tguar i (w, g) (set_timers t' w, g).
Proof.
  intros HI Ht' Ev. split; [destruct HI; split; simpl; by rewrite ?Ev|].
  apply tguar_same; [done|..]; [intros j Hj Hp|]; unfold unmoved, grows; simpl; rewrite Ev; [tauto|splits; done || lia].
Qed.

(** The timer leaves the queue into the hands of thread [i]. *)
Lemma t_dequeue_ok i (w : tworld) (g : tghost) (t' : TimerQueue.world) (v : eview) : i < n -> tinv w g -> tplc g = PQueue -> tok self t' ->
  ExecTimer.view self t' = v_set_queued false v -> v = view w \/ v = v_set_closed (view w) /\ tstopping w = true ->
  let w' := set_timers t' w in let g' := TG (PHas i) (closer g) in
  tinv w' g' /\ tguar i (w, g) (w', g').
Proof.
  intros Hi HI Eh Ht' Ev Hv. destruct (ti_queue w g HI Eh) as (Q1 & Q2 & Q3 & Q4).
  assert (Hf : v_cancelled v = false /\ v_ours v = v_ours (view w) /\ v_deadline v = v_deadline (view w) /\ (v_closed v = v_closed (view w) \/ tstopping w = true /\ v_closed v = true)).
  { destruct Hv as [->|[-> ?]]; simpl; tauto. }
  destruct Hf as (F1 & F2 & F3 & F4). split.
  - destruct HI. rewrite Eh in *. split; simpl; rewrite ?Ev; simpl; rewrite ?F1, ?F2; try done.
    + by intros j [= <-].
    + intros E. destruct F4 as [F4|[? _]]; [apply ti_closed0; congruence|done].
    + intros Hs _. apply ti_stop0; [done|by left].
  - apply tguar_moved; [congruence|congruence|done|]. unfold grows. simpl. rewrite Ev. simpl. rewrite F1, Q2. splits; done || lia.
Qed.

(** What a callback leaves: the operation is not touched again. *)
Lemma t_on_stop {A} i (q : unit -> tprog A) Q : i < n ->
  rg R i (q tt) (quiet i false) Q -> rg R i (q tt) (inside_marked i) Q -> rg R i (bind (on_stop self i) q) (inside i) Q.
Proof.
  intros Hi Hq Hm. unfold on_stop. apply rg_bind_assoc, t_touch. intros w g HI HP. pose proof HP as (H1 & H2 & H3).
  split; [apply (alive_listened w g HI); congruence|]. cbn [fst snd]. destruct (decide (tplc g = PQueue)) as [Eh|Eh].
  - destruct (ti_queue w g HI Eh) as (Q1 & Q2 & Q3 & Q4). destruct (view_cancel self (timers w)) as (T1 & T2 & T3); [apply (ti_tok w g HI)|by apply (ti_ours w g HI)|].
    rewrite (ti_queued w g HI), bool_decide_true in T2, T3 by done. rewrite T2.
    destruct (t_dequeue_ok i w g (cancelTimer self (timers w)).1 (view w) Hi HI Eh T1 T3) as [HI' HG]; [by left|].
    exists (TG (PHas i) (closer g)), (listening i false true (tres_ok TStopped)). splits; [done..| |by apply stable_t_listening, _|by apply t_finishTimer].
    unfold listening, holds. simpl. rewrite Q1. splits; try done. left. by apply (ti_run w g HI i).
  - destruct (t_mark_ok i w g HI H1 Eh) as (Eq & HI' & HG & Hv). rewrite Eq. exists g, (inside_marked i). splits; [done..| | |exact Hm].
    + split; [done|]. by rewrite Hv.
    + intros j w1 g1 w2 g2 Hj HI1 HI2 HG1 [E1 E2]. split; [by eapply (stable_t_inside i j w1 g1)|]. destruct HG1 as [_ _ _ _ (_ & _ & _ & _ & E)]. by apply E.
Qed.

Lemma t_endCallback {A} i (P P' : asrt tworld tghost) (q : unit -> tprog A) Q :
  (forall w g, tinv w g -> P w g -> tcb w = CbRunning i -> v_cancelled (view w) = true) ->
  (forall w g s, tinv w g -> P w g -> callback_of s <> CbRunning i -> stop_requested s = trequested w -> P' (set_tsource s w) g) -> stable R i P' ->
  rg R i (q tt) P' Q -> rg R i (bind (endCallback i) q) P Q.
Proof.
  intros Hc HP Hst Hq. unfold endCallback. apply rg_store. intros w g HI Hw. destruct (s_return_ends i (tsource w)) as [Er Ec]. fold (tcb w) in Ec. fold (trequested w) in Er.
  exists g, P'. specialize (HP w g (s_return i (tsource w)) HI Hw). specialize (Hc w g HI Hw). revert HP Er Ec. generalize (s_return i (tsource w)). intros s HP Er Ec.
  case_decide as E; splits; [apply t_source_inv|apply t_source_guar|apply HP|done|done|apply t_source_inv|apply t_source_guar|apply HP|done|done]; rewrite ?Er, ?Ec; try done.
  - intros Eh. destruct (ti_queue w g HI Eh) as (_ & Q2 & _). rewrite Hc in Q2; done.
  - intros j Hj. rewrite E. split; congruence.
  - intros j Hj Hh. split; [done|]. intros _. left. auto.
  - intros Eh. by apply (ti_queue w g HI Eh).
  - by apply (ti_ours w g HI).
  - by apply (ti_cb w g HI).
  - by apply (ti_run w g HI).
  - intros Eh. by destruct (ti_done w g HI Eh).
Qed.

Lemma t_request_stop i : i < n -> rg R i (request_stop self i) (quiet i false) (fun _ => quiet i false).
Proof.
  intros Hi. unfold request_stop. apply rg_rmw. intros w g HI (H1 & H2 & H3). cbn [fst snd]. destruct (s_request_runs i (tsource w)) as [Er Ec]. fold (tcb w) (trequested w) in Ec.
  revert Er Ec. destruct (s_request i (tsource w)) as [s runs]. cbn [fst snd]. intros Er Ec. destruct (negb (trequested w) && bool_decide (tcb w = CbRegistered)) eqn:Eb.
  - apply andb_true_iff in Eb as [_ Eb]. apply bool_decide_eq_true in Eb. destruct Ec as [-> Ec]. exists g, (inside i).
    split; [|split; [|split; [by split|split; [apply stable_t_inside|]]]].
    + apply t_source_inv; rewrite ?Er, ?Ec; try done; [intros _; apply (ti_ours w g HI); congruence|by intros j [= <-]|]. intros Eh. destruct (ti_done w g HI Eh). congruence.
    + apply t_source_guar; rewrite ?Er, ?Ec, ?Eb; try done. { intros j Hj. split; congruence. } intros j Hj Hh. by split; [|right].
    + apply t_on_stop; [done|..]; apply rg_bind_ret.
      * eapply (t_endCallback i (quiet i false) (quiet i false)); [by intros ? ? _ (? & ? & ?)|by intros w1 g1 s1 _ (? & ? & ?) Hs _|apply stable_t_quiet|by intros ? ? _ ?].
      * eapply (t_endCallback i (inside_marked i) (quiet i false)); [by intros w1 g1 _ [? ?]|by intros w1 g1 s1 _ [(? & ? & ?) ?] Hs _|apply stable_t_quiet|by intros ? ? _ ?].
  - destruct Ec as [-> Ec]. exists g, (quiet i false). split; [|split; [|split; [|split; [apply stable_t_quiet|by intros w1 g1 _ ?]]]].
    + apply t_source_inv; rewrite ?Er, ?Ec; try done.
      * intros Eh. by apply (ti_queue w g HI Eh).
      * apply (ti_ours w g HI).
      * intros _ E. rewrite E, bool_decide_true, andb_true_r in Eb by done. destruct (trequested w) eqn:Erq; [|done]. by apply (ti_cb w g HI).
      * intros j E. split; [done|]. by apply (ti_run w g HI j).
      * intros Eh. by destruct (ti_done w g HI Eh).
    + apply t_source_guar; rewrite ?Er, ?Ec; done.
    + unfold quiet, tcb. simpl. by rewrite Ec.
Qed.

(** *** Starting *)

(** The entry is set up for the operation. *)
Definition set_up (w : tworld) : Prop := v_ours (view w) = true /\ v_deadline (view w) = due w.

Lemma set_up_unmoved w w' : unmoved w w' -> set_up w -> set_up w'.
Proof. intros (_ & U2 & U3 & U4 & _) [H1 H2]. unfold set_up, due in *. by rewrite U2, U3, U4. Qed.

Definition prepared : asrt tworld tghost := fun w g => holds 0 false false w g /\ (set_up w /\ tactive w = false /\ tcb w = CbNone).
Definition called (m : bool) : asrt tworld tghost := fun w g =>
  holds 0 false true w g /\ (set_up w /\ tactive w = false /\ (m = true -> v_cancelled (view w) = true)).
Definition armed (act : bool) : asrt tworld tghost := fun w g =>
  holds 0 false false w g /\ (set_up w /\ tactive w = act /\ (v_cancelled (view w) = true \/ tcb w <> CbNone)).

Lemma stable_prepared : stable R 0 prepared.
Proof. apply stable_held. intros w w' Hu _ (H1 & H2 & H3). split; [by eapply set_up_unmoved|]. destruct Hu as (-> & _ & _ & _ & U5 & _). auto. Qed.
Lemma stable_called m : stable R 0 (called m).
Proof. apply stable_held. intros w w' Hu (_ & _ & _ & _ & Hg) (H1 & H2 & H3). split; [by eapply set_up_unmoved|]. destruct Hu as (-> & _). auto. Qed.
Lemma stable_t_armed act : stable R 0 (armed act).
Proof. apply stable_held. intros w w' Hu _ (H1 & H2 & H3). split; [by eapply set_up_unmoved|]. destruct Hu as (-> & _ & _ & _ & _ & U6). auto. Qed.

Lemma t_activate {A} (q : unit -> tprog A) Q : rg R 0 (q tt) (armed true) Q -> rg R 0 (bind (tstore (set_tactive true)) q) (armed false) Q.
Proof.
  intros Hq. apply t_touch. intros w g HI (HP & Hu & Ha & Hc). pose proof HP as (H1 & H2 & H3). split; [apply (t_alive_unless w g HI); by rewrite H1|]. cbn [fst snd].
  exists g, (armed true). splits; [|apply tguar_same; [done|congruence|exact (grows_refl w)]|done|apply stable_t_armed|exact Hq].
  destruct HI. split; simpl; try done; by rewrite H1.
Qed.

(** Stop was requested while the thread was making the listener: the callback runs here. *)
Lemma t_on_stop_starting {A} (q : unit -> tprog A) Q :
  rg R 0 (q tt) (called true) Q -> rg R 0 (bind (on_stop self 0) q) (called false) Q.
Proof.
  intros Hq. unfold on_stop. apply rg_bind_assoc, t_touch. intros w g HI ((H1 & H2 & H3) & [U1 U2] & Ha & _). split; [apply (alive_listened w g HI); congruence|].
  destruct (t_mark_ok 0 w g HI H3) as (Eq & HI' & HG & Hv); [by rewrite H1|]. cbn [fst snd]. rewrite Eq. exists g, (called true). splits; [done|done| |apply stable_called|exact Hq].
  split; [done|]. unfold set_up. rewrite Hv. done.
Qed.

Lemma t_listen {A} (q : unit -> tprog A) Q : 0 < n -> rg R 0 (q tt) (armed true) Q -> rg R 0 (bind (listen self 0) q) prepared Q.
Proof.
  intros Hn Hq. unfold listen. apply rg_bind_assoc, t_touch. intros w g HI ((H1 & H2 & H3) & [U1 U2] & Ha & Ec). split; [apply (t_alive_unless w g HI); by rewrite H1|]. cbn [fst snd].
  destruct (s_construct_runs 0 (tsource w) Ec) as (Erun & Er & Ec'). fold (trequested w) in Erun, Er, Ec'. revert Erun Er Ec'.
  destruct (s_construct 0 (tsource w)) as [s runs]. cbn [fst snd]. intros -> Er Ec'.
  assert (HG : tguar 0 (w, g) (set_tsource s w, g)).
  { apply t_source_guar; rewrite ?Ec, ?Ec', ?Er; try done; [intros j Hj; destruct (trequested w); split; congruence|congruence]. }
  assert (HI' : tinv (set_tsource s w) g).
  { apply t_source_inv; rewrite ?H1, ?Er, ?Ec'; try done; [by intros ->|]. intros j E. destruct (trequested w); [injection E as <-|]; done. }
  destruct (trequested w) eqn:Erq.
  - exists g, (called false). splits; [done|done|by split|apply stable_called|].
    apply rg_bind_assoc, rg_bind_assoc, t_on_stop_starting. eapply (t_endCallback 0 (called true) (armed false)); [by intros ? ? _ (_ & _ & _ & ?); auto| |apply stable_t_armed|by apply t_activate].
    intros w1 g1 s1 _ ((E1 & E2 & E3) & E4 & E5 & E6) Hs _. split; [by split|]. split; [done|]. split; [done|]. left. by apply E6.
  - exists g, (armed false). splits; [done|done| |apply stable_t_armed|by apply rg_bind_assoc; cbn [bind]; apply t_activate]. unfold armed, holds, tcb. simpl. rewrite Ec'. splits; try done. by right.
Qed.

Lemma t_addCallbackTimer : rg R 0 (b <- addCallbackTimer self;; if b : bool then Ret tt else finishTimer 0 TStopped) (armed true) (fun _ => quiet 0 false).
Proof.
  unfold addCallbackTimer. apply t_touch. intros w g HI (HP & [U1 U2] & Ha & Hc). pose proof HP as (H1 & H2 & H3). split; [apply (t_alive_unless w g HI); by rewrite H1|]. cbn [fst snd].
  assert (Hq : v_queued (view w) = false) by (rewrite (ti_queued w g HI), H1; done).
  destruct (view_add self (timers w) (ti_tok w g HI) Hq) as (T1 & T2 & T3). cbv zeta in *. destruct (v_cancelled (view w) || v_closed (view w)) eqn:Ex; cbn [negb] in *; rewrite T2.
  - assert (Ev : ExecTimer.view self (addUnlessCancelled self (timers w)).1 = view w) by (rewrite T3; unfold v_set_queued; rewrite <- Hq; by destruct (view w)).
    destruct (same_view_ok 0 w g _ HI T1 Ev) as [HI' HG].
    exists g, (listening 0 false false (tres_ok TStopped)). splits; [done..| |by apply stable_t_listening, _|by apply rg_seq_ret, t_finishTimer; intros ? ? _ ?].
    unfold listening. simpl. rewrite Ha. splits; try done. apply orb_true_iff in Ex as [Ex|Ex]; [left; by apply (ti_cancelled w g HI)|right; by apply (ti_closed w g HI)].
  - apply orb_false_iff in Ex as [Ex1 Ex2]. destruct Hc as [?|Hc]; [congruence|]. exists (TG PQueue (closer g)), (quiet 0 false). splits; [|apply tguar_moved; [congruence|done|done|]|by split|apply stable_t_quiet|by intros ? ? _ ?].
    + destruct HI. rewrite H1 in *. split; simpl; rewrite ?T3; simpl; try done. intros Hs _. apply ti_stop0; [done|by right].
    + unfold grows. simpl. rewrite T3. simpl. splits; done || lia.
Qed.

Lemma t_start : 0 < n -> (relative = true -> horizon + after < 2 ^ 63 /\ - 2 ^ 63 <= after)%Z -> (relative = false -> - 2 ^ 63 <= at_ < 2 ^ 63)%Z ->
  rg R 0 (start 0) (unheard 0 false (fun _ => True)) (fun _ => quiet 0 false).
Proof.
  intros Hn Hrel Habs. unfold ExecTimer.start. set (P (F : tworld -> Prop) := unheard 0 false F).
  assert (Hstop : forall w g, P (tres_ok TStopped) w g -> exists P', P' w g /\ stable R 0 P' /\ rg R 0 (complete TStopped) P' (fun _ => quiet 0 false)).
  { intros w g HP. exists (P (tres_ok TStopped)). splits; [done|by apply stable_t_unheard, _|]. apply rg_seq_ret, t_complete. by intros ? ? _ ?. }
  assert (HT : Lasting (fun _ => True)) by done.
  apply t_tload. intros w g HI HP. pose proof HP as ((H1 & H2 & H3) & H4 & H5 & _). split; [apply (t_alive_unless w g HI); by rewrite H1|]. destruct (trequested w) eqn:Er; cbn [bind].
  { apply Hstop. unfold P, unheard. splits; try done. by left. }
  exists (P (fun _ => True)). splits; [done|by apply stable_t_unheard|]. clear w g HI HP H1 H2 H3 H4 H5 Er.
  apply t_tload. intros w g HI HP. pose proof HP as ((H1 & H2 & H3) & H4 & H5 & _). split; [apply (t_alive_unless w g HI); by rewrite H1|]. destruct (tstopping w) eqn:Er.
  { apply Hstop. unfold P, unheard. splits; try done. by right. }
  exists (P (fun _ => True)). splits; [done|by apply stable_t_unheard|]. clear w g HI HP H1 H2 H3 H4 H5 Er.
  apply rg_load; [apply tguar_refl|]. intros w g HI HP. pose proof (ti_now w g HI) as Hnow. exists (P (fun _ => True)). splits; [done|by apply stable_t_unheard|].
  assert (Htick : in_ticks (deadlineFrom relative at_ after (now w)) = true).
  { unfold in_ticks, deadlineFrom. apply andb_true_iff. rewrite Z.leb_le, Z.ltb_lt. destruct relative; [destruct (Hrel eq_refl)|specialize (Habs eq_refl)]; lia. }
  apply rg_check; [done|]. generalize (now w). clear w g HI HP Hnow Htick. intros s. apply t_touch. intros w g HI ((H1 & H2 & H3) & H4 & H5 & _). split; [apply (t_alive_unless w g HI); by rewrite H1|].
  cbn [fst snd]. assert (Hq : v_queued (view w) = false) by (rewrite (ti_queued w g HI), H1; done).
  destruct (view_arm self relative at_ after s (timers w) (ti_tok w g HI) Hq) as [T1 T2]. pose proof (ti_results w g HI) as Hl. rewrite H1 in Hl. apply nil_length_inv in Hl.
  exists g, prepared. splits; [|apply tguar_same; [done|congruence|]| |apply stable_prepared|by apply t_listen, t_addCallbackTimer].
  - destruct HI. rewrite H1, Hl in *. split; simpl; rewrite ?H1, ?Hl, ?T2; simpl; try done. by intros r ?%not_elem_of_nil.
  - unfold grows. simpl. rewrite T2. simpl. splits; done || lia.
  - unfold prepared, set_up. simpl. rewrite T2. done.
Qed.

(** *** Firing *)

(** Thread [i] has taken the timer: it was due, or the scheduler is stopping. *)
Definition fired_by (i : nat) (c : bool) (F : tworld -> Prop) : asrt tworld tghost := fun w g =>
  holds i c false w g /\ (tactive w = true /\ F w).

Lemma stable_fired_by i c F `{!Lasting F} : stable R i (fired_by i c F).
Proof. apply stable_held. intros w w' (-> & U2 & _) Hg [H1 H2]. split; [done|by eapply lasting]. Qed.

Lemma fired_listening i c F w g : fired_by i c F w g -> listening i c false F w g.
Proof. intros (H1 & H2 & H3). split; [done|]. split; [congruence|done]. Qed.

Lemma t_firedTimer i c : i < n ->
  rg R i (firedTimer i) (fired_by i c (fun w => (due w <= now w)%Z \/ tstopping w = true)) (fun _ => quiet i c).
Proof.
  intros Hi. unfold firedTimer, spawn. apply rg_bind_assoc, t_tload. intros w g HI HP. pose proof HP as ((H1 & H2 & H3) & H4 & H5). split; [apply (t_alive_unless w g HI); by rewrite H1|].
  destruct (tstopping w) eqn:Es; cbn [bind].
  - exists (listening i c false (tres_ok TStopped)). splits; [|by apply stable_t_listening, _|by apply rg_seq_ret, t_finishTimer; intros ? ? _ ?].
    eapply fired_listening. split; [done|]. split; [done|by right].
  - exists (fired_by i c (fun w => (due w <= now w)%Z)). splits; [|by apply stable_fired_by, _|]. { split; [done|]. split; [done|]. by destruct H5. }
    clear w g HI HP H1 H2 H3 H4 H5 Es. apply t_touch_any. intros w g HI ((H1 & H2 & H3) & H4 & H5). splits; [apply (t_alive_unless w g HI); by rewrite H1|done|].
    intros o Ho. apply elem_of_cons in Ho as [->|Ho]; [|apply list_elem_of_singleton in Ho as ->]; cbn [fst snd].
    + exists (TG PTask (closer g)), (quiet i c). splits; [|apply tguar_moved; [congruence|done|done|exact (grows_refl w)]|by split|apply stable_t_quiet|by intros ? ? _ ?].
      pose proof (ti_tasks w g HI) as Ht. rewrite H1 in Ht. destruct HI. rewrite H1 in *. split; simpl; rewrite ?Ht; try done. intros Hs [?|?]; [done|auto].
    + exists g, (listening i c false (tres_ok TError)). splits; [|apply tguar_same; [done|congruence|]| |by apply stable_t_listening, _|by apply rg_seq_ret, t_finishTimer; intros ? ? _ ?].
      * destruct HI. split; simpl; try done. intros r Hr. specialize (ti_reason0 r Hr). by destruct r.
      * unfold grows. simpl. splits; done || lia.
      * split; [done|]. split; [simpl; congruence|done].
Qed.

Lemma t_runTask i : i < n -> rg R i (runTask i) (fired_by i false (fun w => (due w <= now w)%Z)) (fun _ => quiet i false).
Proof.
  intros Hi. unfold runTask. eapply rg_pre; [intros w g _; apply fired_listening|]. apply t_stopListener; [apply _|].
  set (P (F : tworld -> Prop) := unheard i false F).
  assert (Hend : forall s : bool, forall w g, P (tres_ok (if s then TStopped else TValue)) w g ->
     exists P', P' w g /\ stable R i P' /\ rg R i (complete (if s then TStopped else TValue)) P' (fun _ => quiet i false)).
  { intros s w g HP. exists (P (tres_ok (if s then TStopped else TValue))). splits; [done|by apply stable_t_unheard, _|]. apply rg_seq_ret, t_complete. by intros ? ? _ ?. }
  apply t_tload. intros w g HI HP. pose proof HP as ((H1 & H2 & H3) & H4 & H5 & H6). split; [apply (t_alive_unless w g HI); by rewrite H1|]. destruct (trequested w) eqn:Er; cbn [bind].
  { apply (Hend true). unfold P, unheard. splits; try done. by left. }
  exists (P (fun w => (due w <= now w)%Z)). splits; [done|by apply stable_t_unheard, _|]. clear w g HI HP H1 H2 H3 H4 H5 H6 Er.
  apply t_tload. intros w g HI HP. pose proof HP as ((H1 & H2 & H3) & H4 & H5 & H6). split; [apply (t_alive_unless w g HI); by rewrite H1|]. apply (Hend (tstopping w)).
  unfold P, unheard. splits; try done. destruct (tstopping w) eqn:Es; [by right|done].
Qed.

(** An event taken out of the queue: the operation's, which thread [i] now has, or not. *)
Definition event_in_hand (i : nat) (c : bool) (ev : event) (F : tworld -> Prop) : asrt tworld tghost := fun w g =>
  F w /\ if callsSelf self ev then fired_by i c (fun w => (due w <= now w)%Z \/ tstopping w = true) w g else quiet i c w g.

(** Facts that last in any case. *)
Definition monotone (F : tworld -> Prop) : Prop := forall w w', grows w w' -> F w -> F w'.

Lemma stable_monotone i F : monotone F -> stable R i (fun w _ => F w).
Proof. intros HF j w g w' g' Hj _ _ HG. eapply HF. apply HG. Qed.

Lemma t_dispatch i c ev F : i < n -> monotone F ->
  rg R i (dispatch self i ev) (event_in_hand i c ev F) (fun _ w g => quiet i c w g /\ F w).
Proof.
  intros Hi HF. unfold dispatch, event_in_hand. destruct (callsSelf self ev).
  - eapply rg_pre; [|apply (rg_frame R i _ (fired_by i c (fun w => (due w <= now w)%Z \/ tstopping w = true)) (fun _ => quiet i c) (fun w _ => F w)); [by apply stable_monotone| |by apply t_firedTimer]].
    + by intros w g _ [? ?].
    + intros w g w' g' HG. eapply HF. apply HG.
  - apply rg_seq_ret, rg_store. intros w g HI [H1 H2]. destruct (view_emit self ev (timers w) (ti_tok w g HI)) as [T1 T2]. destruct (same_view_ok i w g _ HI T1 T2) as [HI' HG].
    exists g, (fun w g => quiet i c w g /\ F w). split; [done|split; [done|split; [split; [done|]|split; [apply stable_and; [apply stable_t_quiet|by apply stable_monotone]|by intros ? ? _ ?]]]].
    eapply HF; [apply HG|done].
Qed.

(** The timer, or another, was taken out of the queue. *)
Lemma fired_ok i c (w : tworld) (g : tghost) t0 t' ev F : i < n -> monotone F -> tinv w g -> quiet i c w g -> F w -> fired_view self t0 t' ev ->
  ExecTimer.view self t0 = view w \/ (ExecTimer.view self t0 = v_set_closed (view w) /\ tstopping w = true /\ c = true) ->
  (callsSelf self ev = true -> (v_deadline (view w) <= now w)%Z \/ tstopping w = true) ->
  exists g', tinv (set_timers t' w) g' /\ tguar i (w, g) (set_timers t' w, g') /\ event_in_hand i c ev F (set_timers t' w) g'.
Proof.
  intros Hi HF HI HP HFw [Ht' Hv] Hv0 Hdue. pose proof HP as (H1 & H2 & H3). unfold event_in_hand. destruct (callsSelf self ev) eqn:Ev.
  - destruct Hv as [Hq Hv]. assert (Eh : tplc g = PQueue).
    { apply (bool_decide_eq_true_1 (tplc g = PQueue)). rewrite <- (ti_queued w g HI). destruct Hv0 as [E|[E _]]; by rewrite E in Hq. }
    destruct (ti_queue w g HI Eh) as (Q1 & Q2 & Q3 & Q4). destruct (t_dequeue_ok i w g t' (ExecTimer.view self t0) Hi HI Eh Ht' Hv) as [HI' HG]; [tauto|].
    exists (TG (PHas i) (closer g)). splits; [done..|eapply HF; [apply HG|done]|]. split; [by split|]. split; [done|]. simpl. rewrite Q4 in Hdue. by apply Hdue.
  - destruct Hv0 as [E|(E & Es & ->)].
    + rewrite E in Hv. destruct (same_view_ok i w g t' HI Ht' Hv) as [HI' HG]. exists g. splits; [done..|eapply HF; [apply HG|done]|done].
    + rewrite E in Hv. simpl in H3. exists g.
      assert (HG : tguar i (w, g) (set_timers t' w, g)). { apply tguar_same; [done|..]; [intros j Hj Hp|]; unfold unmoved, grows; simpl; rewrite Hv; simpl; [tauto|splits; done || lia]. }
      splits; [|done|eapply HF; [apply HG|done]|done]. destruct HI. split; simpl; rewrite ?Hv; simpl; try done. by rewrite H3.
Qed.

Lemma stable_event_in_hand i c ev F : monotone F -> stable R i (event_in_hand i c ev F).
Proof.
  intros HF. apply stable_and; [by apply stable_monotone|]. destruct (callsSelf self ev); [apply stable_fired_by, _|apply stable_t_quiet].
Qed.

Lemma queued_ours w g : tinv w g -> v_queued (view w) = true -> v_ours (view w) = true.
Proof. intros HI Hq. rewrite (ti_queued w g HI) in Hq. apply bool_decide_eq_true in Hq. apply (ti_ours w g HI). by destruct (ti_queue w g HI Hq) as (_ & _ & ? & _). Qed.

Lemma t_fireExpired i fuel s : i < n ->
  rg R i (fireExpired self i fuel s) (fun w g => quiet i false w g /\ (s <= now w)%Z) (fun _ => quiet i false).
Proof.
  intros Hi. assert (HF : monotone (fun w => (s <= now w)%Z)) by (intros w w' (_ & _ & _ & ? & _) ?; lia).
  induction fuel as [|fuel IH]; [done|]. cbn [fireExpired]. apply t_section. intros w g HI [HP Hs].
  pose proof (view_fire self s (timers w) (ti_tok w g HI) (queued_ours w g HI)) as Hf. destruct (fireOne s (timers w)) as [t' [ev|]]; cbn [fst snd].
  - destruct Hf as [Hf Hd]. destruct (fired_ok i false w g (timers w) t' ev (fun w => (s <= now w)%Z)) as (g' & HI' & HG & HP'); [done..|by left|intros E; left; specialize (Hd E); lia|].
    exists g', (event_in_hand i false ev (fun w => (s <= now w)%Z)). splits; [done..|by apply stable_event_in_hand|]. eapply rg_seq; [by apply t_dispatch|exact IH].
  - subst t'. destruct (same_view_ok i w g (timers w) HI (ti_tok w g HI) eq_refl) as [HI' HG]. exists g, (quiet i false). splits; [done..|apply stable_t_quiet|by intros ? ? _ ?].
Qed.

(** *** Stopping the scheduler *)

Lemma t_fireCallbacksAndClose i fuel : i < n ->
  rg R i (fireCallbacksAndClose self i fuel) (fun w g => quiet i true w g /\ tstopping w = true) (fun _ => quiet i false).
Proof.
  intros Hi. assert (HF : monotone (fun w => tstopping w = true)) by (by intros w w' (_ & ? & _)).
  induction fuel as [|fuel IH]; [done|]. cbn [fireCallbacksAndClose]. apply t_section. intros w g HI [HP Hs].
  pose proof (view_close self (timers w) (ti_tok w g HI) (queued_ours w g HI)) as Hf. destruct (closeOne (timers w)) as [t' [ev|]]; cbn [fst snd].
  - destruct (fired_ok i true w g _ t' ev (fun w => tstopping w = true) Hi HF HI HP Hs Hf) as (g' & HI' & HG & HP'); [by right; rewrite view_closed|by right|].
    exists g', (event_in_hand i true ev (fun w => tstopping w = true)). splits; [done..|by apply stable_event_in_hand|]. eapply rg_seq; [by apply t_dispatch|exact IH].
  - destruct Hf as (T1 & T2 & Hq). destruct HP as (H1 & H2 & H3). simpl in H3. assert (Hnq : tplc g <> PQueue) by (rewrite (ti_queued w g HI) in Hq; by apply bool_decide_eq_false in Hq).
    exists (TG (tplc g) None), (quiet i false). splits; [| |by split|apply stable_t_quiet|by intros ? ? _ ?].
    + destruct HI. split; simpl; rewrite ?T2; simpl; try done. by intros _ [?|?].
    + split; simpl; try done; [intros j Hj; rewrite H3; split; congruence|..]; unfold unmoved, grows; simpl; rewrite T2; simpl; [tauto|splits; done || lia].
Qed.

Lemma t_schedulerStop i fuel : i < n -> rg R i (schedulerStop self i fuel) (quiet i false) (fun _ => quiet i false).
Proof.
  intros Hi. unfold schedulerStop. apply rg_rmw. intros w g HI HP. pose proof HP as (H1 & H2 & H3). cbn [fst snd]. destruct (tstopping w) eqn:Es.
  - exists g, (quiet i false). assert (E : set_tstopping w = w) by (destruct w; simpl in *; by subst). rewrite E. splits; [done|apply tguar_refl|done|apply stable_t_quiet|by intros ? ? _ ?].
  - assert (Hc : closer g = None). { destruct (closer g) as [j|] eqn:E; [|done]. destruct (ti_closer w g HI j E). congruence. }
    exists (TG (tplc g) (Some i)), (fun w g => quiet i true w g /\ tstopping w = true).
    split; [|split; [|split; [by split|split; [apply stable_and; [apply stable_t_quiet|by apply stable_monotone; intros ? ? (_ & ? & _)]|by apply t_fireCallbacksAndClose]]]].
    + destruct HI. split; simpl; try done; [intros r Hr; specialize (ti_reason0 r Hr); destruct r; by simpl; auto|by intros j [= <-]].
    + split; simpl; try done. intros j Hj. rewrite Hc. split; congruence.
Qed.

(** *** The others *)

Lemma t_other i (f : TimerQueue.world -> TimerQueue.world * unit) :
  (forall t, tok self t -> tok self (f t).1 /\ ExecTimer.view self (f t).1 = ExecTimer.view self t) ->
  rg R i (section self f) (quiet i false) (fun _ => quiet i false).
Proof.
  intros Hf. apply rg_bind_ret, t_section. intros w g HI HP. destruct (Hf (timers w) (ti_tok w g HI)) as [T1 T2]. destruct (same_view_ok i w g _ HI T1 T2) as [HI' HG].
  exists g, (quiet i false). splits; [done..|apply stable_t_quiet|by intros ? ? _ ?].
Qed.

Lemma t_take_task i : i < n -> rg R i (timer_perform self horizon i 0 RunTask) (quiet i false) (fun _ => quiet i false).
Proof.
  intros Hi. cbn [timer_perform]. apply rg_rmw. intros w g HI HP. pose proof (ti_tasks w g HI) as Ht. destruct (tasks w) as [|k] eqn:Ek; cbn [fst snd].
  - exists g, (quiet i false). splits; [done|apply tguar_refl|done|apply stable_t_quiet|by intros ? ? _ ?].
  - case_bool_decide as Eh; [|done]. injection Ht as ->. destruct (ti_task w g HI Eh) as [Q1 Q2]. destruct HP as (H1 & H2 & H3).
    exists (TG (PHas i) (closer g)), (fired_by i false (fun w => (due w <= now w)%Z)). splits; [|apply tguar_moved; [congruence|congruence|done|exact (grows_refl w)]| |by apply stable_fired_by, _|by apply t_runTask].
    + destruct HI. rewrite Eh in *. split; simpl; try done; [by intros j [= <-]|]. intros Hs [?|?]; [done|auto].
    + split; [by split|done].
Qed.

Lemma t_perform i fuel o : i < n -> rg R i (timer_perform self horizon i fuel o) (quiet i false) (fun _ => quiet i false).
Proof.
  intros Hi. destruct o as [d| | | | |q|q]; cbn [timer_perform].
  - apply rg_seq_ret, rg_store. intros w g HI HP. pose proof (ti_now w g HI) as Hnow. exists g, (quiet i false). splits; [|apply tguar_same; [done|..]|done|apply stable_t_quiet|by intros ? ? _ ?].
    + destruct HI. split; simpl; try done.
      * intros Eh. destruct (ti_task0 Eh) as [? Hd]. split; [done|]. unfold due in *. simpl. lia.
      * intros r Hr. specialize (ti_reason0 r Hr). destruct r; simpl in *; try done. unfold due in *. simpl. lia.
      * lia.
    + intros j Hj Hp. exact (unmoved_refl w).
    + unfold grows. simpl. splits; done || lia.
  - apply rg_load; [apply tguar_refl|]. intros w g HI HP. exists (fun w' g' => quiet i false w' g' /\ (now w <= now w')%Z). split; [split; [done|lia]|].
    split; [apply stable_and; [apply stable_t_quiet|apply stable_monotone; intros ? ? (_ & _ & _ & ? & _) ?; lia]|by apply t_fireExpired].
  - by apply t_take_task.
  - by apply t_request_stop.
  - by apply t_schedulerStop.
  - apply t_other. apply view_otherAdd.
  - apply t_other. apply view_otherCancel.
Qed.

Lemma t_run i fuel l : i < n -> rg R i (timer_run self horizon i fuel l) (quiet i false) (fun _ => quiet i false).
Proof. intros Hi. induction l as [|o l IH]; [by intros ? ? _ ?|]. cbn [timer_run]. eapply rg_seq; [by apply t_perform|exact IH]. Qed.
End spec.

(** A queue that the operation's fresh entry may enter. *)
Record ready_for (self : nat) (q : TimerQueue.world) : Prop := {
  rf_wf : wf q;
  rf_open : closed q = false;
  rf_unqueued : self ∉ heap q;
  rf_fresh : cancelled (entry q self) = false;
  rf_other : forall p, p <> self -> event_of (entry q p) <> firedEvent self
}.

(** The deadline is a time of the clock. *)
Definition within_clock (relative : bool) (at_ after horizon : Z) : Prop :=
  (0 <= horizon /\ if relative then horizon + after < 2 ^ 63 /\ - 2 ^ 63 <= after else - 2 ^ 63 <= at_ < 2 ^ 63)%Z.

Lemma timer_pool_ok `{SS : StopSource} self relative at_ after horizon q fuel l : ready_for self q -> within_clock relative at_ after horizon ->
  pool_ok (tproto self relative at_ after horizon (S (length l))) (fun i _ => quiet i false) (timer_pool self relative at_ after horizon q fuel l).
Proof.
  intros [Q1 Q2 Q3 Q4 Q5] [Hh Hc]. destruct s_init_fresh as [Er Ec]. exists (TG (PHas 0) None). split.
  { assert (Hv : v_queued (view self q) = false) by (rewrite view_queued; by apply bool_decide_eq_false).
    split; simpl; unfold trequested, tcb; simpl; rewrite ?Er, ?Ec; try done.
    - with_strategy transparent [view] (cbn [view v_cancelled]). congruence.
    - intros i [= <-]. lia.
    - by intros r ?%not_elem_of_nil.
    - with_strategy transparent [view] (cbn [view v_closed]). congruence. }
  intros i p Hp. destruct i as [|i]; simpl in Hp.
  - injection Hp as <-. exists (unheard 0 false (fun _ => True)). split; [apply stable_t_unheard; done|]. split; [|apply t_start; [lia|by intros ->|by intros ->]].
    unfold unheard, holds, tcb. simpl. by rewrite Ec.
  - rewrite list_lookup_imap in Hp. destruct (l !! i) as [ops|] eqn:El; [|done]. injection Hp as <-. apply lookup_lt_Some in El. exists (quiet (S i) false). split; [apply stable_t_quiet|]. split.
    + unfold quiet, tcb. simpl. rewrite Ec. by split.
    + apply t_run. simpl. lia.
Qed.

(** At rest, nobody runs the callback, has the operation in hand or closes the queue. *)
Lemma timer_at_rest `{SS : StopSource} self relative at_ after horizon n (ts : list (tprog unit)) w g :
  (forall i X f k, ts !! i = Some (Act X f k) -> f w = [] -> twait i w g) ->
  (forall i a, ts !! i = Some (Ret a) -> quiet i false w g) -> tinv self relative at_ after horizon n w g -> n = length ts ->
  (forall i th, ts !! i = Some th -> resting w th) ->
  (forall j, tcb w <> CbRunning j) /\ (forall i, tplc g <> PHas i) /\ closer g = None.
Proof.
  intros Hw HQ HI Hn Hall.
  assert (Hi : forall i, i < n -> quiet i false w g \/ exists j, j <> i /\ tcb w = CbRunning j).
  { intros i Hi. destruct (lookup_lt_is_Some_2 ts i ltac:(lia)) as [th Hth]. destruct (Hall i th Hth) as [[a ->]|(X & f & k & -> & Hf)]; [left; by eapply HQ|right; by eapply Hw]. }
  assert (Hcb : forall j, tcb w <> CbRunning j).
  { intros j Ej. destruct (ti_run _ _ _ _ _ _ w g HI j Ej) as [_ Hj]. destruct (Hi j Hj) as [(_ & ? & _)|(k & Hk & E)]; [done|congruence]. }
  assert (Hq : forall i, i < n -> quiet i false w g) by (intros i Hlt; destruct (Hi i Hlt) as [?|(k & _ & E)]; [done|by destruct (Hcb k)]).
  splits; [done|..].
  - intros i E. destruct (Hq i (ti_has _ _ _ _ _ _ w g HI i E)) as (? & _). done.
  - destruct (closer g) as [j|] eqn:E; [|done]. destruct (ti_closer _ _ _ _ _ _ w g HI j E) as [_ Hj]. destruct (Hq j Hj) as (_ & _ & ?). done.
Qed.

(** C17: In every interleaving of a thread that starts a timed schedule() with time passing,
    timekeepers firing timers, workers running the task, other timers coming and going, and
    whoever requests stop or stops the scheduler: nobody uses the operation, or its
    timer, after the receiver was called; the receiver is called at most once, with a
    value only when the deadline has passed, with an error only if no task could be
    spawned, with stopped only if stop was requested or the scheduler is stopping; and
    once nobody can move, it was called, or the timer is in the queue with no stop requested
    and the scheduler not stopping, or the task waits to be run.  The deadline is a time of the clock
    ([within_clock]): [clock::now() + after] does not overflow its 64 bits; see
    [exec_timer_overflow] for when it does. *)
Theorem exec_timer_once `{SS : StopSource} self relative at_ after horizon q fuel l ts w :
  ready_for self q -> within_clock relative at_ after horizon ->
  reach (timer_pool self relative at_ after horizon q fuel l) (ts, w) ->
  (forall i m, ts !! i <> Some (Fatal m)) /\
  length (tresults w) <= 1 /\
  (forall r, r ∈ tresults w -> tres_ok relative at_ after r w) /\
  ((forall i th, ts !! i = Some th -> resting w th) ->
     (exists r, tresults w = [r]) \/
     (self ∈ heap (timers w) /\ trequested w = false /\ tstopping w = false) \/
     tasks w = 1).
Proof.
  intros Hq Hc Hr. pose proof (pool_ok_reach _ _ _ _ Hr (timer_pool_ok self relative at_ after horizon q fuel l Hq Hc)) as Hok.
  pose proof (reach_length _ _ Hr) as Hlen. simpl in Hlen. rewrite length_imap in Hlen.
  split; [intros i m; by eapply pool_ok_not_fatal|]. destruct (pool_ok_waits _ _ _ _ Hok) as (g & HI & Hw & HQ). simpl in HI.
  pose proof (ti_results _ _ _ _ _ _ _ _ HI) as Hl. splits; [rewrite Hl; case_bool_decide; lia|apply (ti_reason _ _ _ _ _ _ _ _ HI)|].
  intros Hall. destruct (timer_at_rest _ _ _ _ _ _ ts w g Hw HQ HI Hlen Hall) as (Hcb & Hhas & Hcl). destruct (tplc g) as [i| | |] eqn:Eh.
  - by destruct (Hhas i).
  - right; left. destruct (ti_queue _ _ _ _ _ _ _ _ HI Eh) as (_ & _ & Q3 & _). splits.
    + apply (bool_decide_eq_true_1 (self ∈ heap (timers w))). rewrite <- view_queued, (ti_queued _ _ _ _ _ _ _ _ HI). by rewrite Eh.
    + destruct (trequested w) eqn:Er; [|done]. destruct (ti_cb _ _ _ _ _ _ _ _ HI Er). destruct (tcb w) as [| |j] eqn:Ec; [done|done|by destruct (Hcb j)].
    + destruct (tstopping w) eqn:Es; [|done]. by destruct (ti_stop _ _ _ _ _ _ _ _ HI Es (or_introl Eh)).
  - right; right. by rewrite (ti_tasks _ _ _ _ _ _ _ _ HI), Eh.
  - left. rewrite bool_decide_true in Hl by done. destruct (tresults w) as [|r [|]]; try done. by exists r.
Qed.

(** The operation's entry at 1, and two timers of tasks. *)
Lemma ready_example : ready_for 1 ex_world.
Proof.
  split; [apply ex_world_wf|done|apply not_elem_of_nil|vm_compute; reflexivity|].
  assert (H : map_Forall (fun _ e => event_of e <> firedEvent 1) ex_mem) by (apply map_Forall_to_list; vm_compute; by repeat constructor).
  intros p _. unfold entry. rewrite lookup_total_alt. destruct (mem ex_world !! p) as [e|] eqn:Ee; [|done]. exact (H p e Ee).
Qed.

(** The timer fires among others; stop is requested after the receiver was called. *)
Definition timer_sched := replicate 20 (0, 0) ++ replicate 12 (1, 0) ++ round_robin 4 40.
Definition timer_final := run_avail timer_sched
  (timer_pool (SS := stop_source_example) 1 true 0 5 100 ex_world 9 [[OtherAdd 2; Tick 9; FireTimers; RunTask]; [OtherAdd 3; FireTimers; FireTimers; RequestStop]; [OtherCancel 3; SchedulerStop]]).

Lemma exec_timer_once_witness :
  ready_for 1 ex_world /\ within_clock true 0 5 100 /\
  tresults timer_final.2 = [TValue] /\ tres_ok true 0 5 TValue timer_final.2.
Proof.
  assert (Hc : within_clock true 0 5 100) by (unfold within_clock; lia). split; [exact ready_example|]. split; [exact Hc|].
  destruct (exec_timer_once (SS := stop_source_example) 1 true 0 5 100 ex_world 9 [[OtherAdd 2; Tick 9; FireTimers; RunTask]; [OtherAdd 3; FireTimers; FireTimers; RequestStop]; [OtherCancel 3; SchedulerStop]] timer_final.1 timer_final.2 ready_example Hc) as (_ & _ & H2 & H3).
  { apply (run_avail_reach timer_sched). unfold timer_final. apply surjective_pairing. }
  assert (E : tresults timer_final.2 = [TValue]) by (vm_compute; reflexivity).
  split; [exact E|]. apply H2. rewrite E. left.
Defined.

(** [schedule_after(duration::max())] when the clock has started: the deadline is no
    time of the clock, and nothing checks it. *)
Definition overflow_final := run_avail ([(1, 0)] ++ replicate 9 (0, 0))
  (timer_pool (SS := stop_source_example) 1 true 0 (2 ^ 63 - 1) 100 ex_world 9 [[Tick 1]]).

Lemma exec_timer_overflow :
  reach (timer_pool (SS := stop_source_example) 1 true 0 (2 ^ 63 - 1) 100 ex_world 9 [[Tick 1]]) overflow_final /\
  overflow_final.1 !! 0 = Some (Fatal "deadline overflows").
Proof.
  split; [|vm_compute; reflexivity]. apply (run_avail_reach ([(1, 0)] ++ replicate 9 (0, 0))). exact eq_refl.
Qed.
