(* ===== verification/SpinLock.v ===== *)
(** * SpinLock: critical sections are atomic

    [SpinLock] and [SpinLockGuard] (sync/SpinLock.h): a flag that is looked at
    first and exchanged when it was clear; after [kSpinsBeforeYield] attempts
    the thread yields between two of them.

    A section under the lock may be any program on the guarded data, of any
    number of accesses.  [spin_serialises] shows that threads that enter
    sections with [lock] or [tryLock] end with the data and the results of
    running the sections one after the other, each as a whole; this is why the
    other files take a section under a spin lock in one step. *)

From Stdlib Require Import ZArith Lia.
From stdpp Require Import base tactics list numbers option strings relations.
From S2P Require Import Prelude Conc.

Section spin.
Context {X : Type}.

(** The lock with the data it guards. *)
Record SpinLock := MkSpinLock { locked : bool; data : X }.
Definition set_locked v (w : SpinLock) := MkSpinLock v (data w).
Definition set_data x (w : SpinLock) := MkSpinLock (locked w) x.

Abbreviation lprog := (prog SpinLock).

Definition kSpinsBeforeYield : nat := 32.

Definition tryLock : lprog bool :=
  b <- load locked;;
  if b : bool then Ret false
  else e <- rmw (fun w => (set_locked true w, locked w));; Ret (negb e).

(** [std::this_thread::yield]. *)
Definition yield : lprog unit := store (fun w => w).

Fixpoint lock_loop (fuel spins : nat) : lprog unit :=
  match fuel with
  | O => Starved
  | S fuel' =>
      b <- load locked;;
      e <- (if b : bool then Ret true else rmw (fun w => (set_locked true w, locked w)));;
      if negb e then Ret tt
      else
        (if bool_decide (kSpinsBeforeYield <= spins)%nat then yield else Ret tt);;;
        lock_loop fuel' (S spins)
  end.
Definition lock (fuel : nat) : lprog unit := lock_loop fuel 0.

Definition unlock : lprog unit := store (set_locked false).

(** A program on the data, run inside a section. *)
Fixpoint inside {A} (p : prog X A) : lprog A :=
  match p with
  | Ret a => Ret a
  | Act Y f k => Act Y (fun w => (fun r => (set_data r.1 w, r.2)) <$> f (data w)) (fun y => inside (k y))
  | Starved => Starved
  | Fatal m => Fatal m
  end.

(** [SpinLockGuard]: locks when it is made, unlocks at the end of its scope. *)
Definition guarded {A} (fuel : nat) (p : prog X A) : lprog A :=
  lock fuel;;; a <- inside p;; unlock;;; Ret a.
Definition try_guarded {A} (p : prog X A) : lprog (option A) :=
  b <- tryLock;;
  if b : bool then a <- inside p;; unlock;;; Ret (Some a) else Ret None.

(** ** Threads that enter sections *)

Inductive entry := Waits (p : prog X Z) | Tries (p : prog X Z).

Definition enter (fuel : nat) (e : entry) : lprog (option Z) :=
  match e with
  | Waits p => z <- guarded fuel p;; Ret (Some z)
  | Tries p => try_guarded p
  end.

Fixpoint client (fuel : nat) (es : list entry) (r : list (option Z)) : lprog (list (option Z)) :=
  match es with
  | [] => Ret r
  | e :: es' => z <- enter fuel e;; client fuel es' (r ++ [z])
  end.

Definition spin_pool (fuel : nat) (ess : list (list entry)) (x : X) : config SpinLock (list (option Z)) :=
  ((fun es => client fuel es []) <$> ess, MkSpinLock false x).

(** Sections that do not abort. *)
Fixpoint sound {A} (p : prog X A) : Prop :=
  match p with
  | Ret _ | Starved => True
  | Act Y f k => forall y, sound (k y)
  | Fatal _ => False
  end.
Definition sound_entry (e : entry) : Prop := match e with Waits p | Tries p => sound p end.

(** ** One section after the other *)

(** [p] can go from [x] to [x'] and end with [a]. *)
Inductive ends {A} : prog X A -> X -> X -> A -> Prop :=
| ends_ret a x : ends (Ret a) x x a
| ends_act Y f k x x1 (y : Y) x' a : (x1, y) ∈ f x -> ends (k y) x1 x' a -> ends (Act Y f k) x x' a.

Record serial := Serial { todo : list (list entry); results : list (list (option Z)); now : X }.

Inductive serial_step : serial -> serial -> Prop :=
| serial_section i e p es r x' z s :
    todo s !! i = Some (e :: es) -> e = Waits p \/ e = Tries p -> results s !! i = Some r ->
    ends p (now s) x' z ->
    serial_step s (Serial (<[i := es]> (todo s)) (<[i := r ++ [Some z]]> (results s)) x')
| serial_busy i p es r s :
    todo s !! i = Some (Tries p :: es) -> results s !! i = Some r ->
    serial_step s (Serial (<[i := es]> (todo s)) (<[i := r ++ [None]]> (results s)) (now s)).

(** ** The protocol *)

(** The ghost state: the serial execution so far, and who holds the lock. *)
Record sghost := SGhost { ser : serial; owner : option nat }.

Context (start : serial).

Abbreviation sasrt := (asrt SpinLock sghost).

Definition spin_inv (w : SpinLock) (g : sghost) : Prop :=
  rtc serial_step start (ser g) /\
  (owner g = None -> locked w = false /\ data w = now (ser g)) /\
  (forall i, owner g = Some i -> locked w = true /\ (i < length (todo (ser g)))%nat).

Definition spin_guar (i : nat) (c c' : SpinLock * sghost) : Prop :=
  (forall j, j <> i -> todo (ser c'.2) !! j = todo (ser c.2) !! j /\ results (ser c'.2) !! j = results (ser c.2) !! j) /\
  (forall j, j <> i -> owner c.2 = Some j <-> owner c'.2 = Some j) /\
  (forall j, j <> i -> owner c.2 = Some j -> data c'.1 = data c.1 /\ now (ser c'.2) = now (ser c.2)).

Definition spin_protocol : protocol SpinLock sghost := WaitProtocol spin_inv spin_guar (fun _ _ _ => True).

(** What thread [i] has to do and has got; that it does not hold the lock; that
    it holds it and still has [q] of its section [p] to do. *)
Definition share (i : nat) (es : list entry) (r : list (option Z)) : sasrt :=
  fun _ g => todo (ser g) !! i = Some es /\ results (ser g) !! i = Some r.
Definition out (i : nat) es r : sasrt := fun w g => share i es r w g /\ owner g <> Some i.
Definition within {A} (i : nat) es r (p q : prog X A) : sasrt :=
  fun w g => share i es r w g /\ owner g = Some i /\
    forall x' a, ends q (data w) x' a -> ends p (now (ser g)) x' a.

Lemma out_stable i es r : stable spin_protocol i (out i es r).
Proof.
  intros j w g w' g' Hj _ _ (Hs & Ho & _) ((? & ?) & Hn). cbn [fst snd] in *.
  destruct (Hs i) as [H1 H2]; [done|]. split; [split; congruence|].
  by rewrite <- (Ho i) by done.
Qed.

Lemma within_stable {A} i es r (p q : prog X A) : stable spin_protocol i (within i es r p q).
Proof.
  intros j w g w' g' Hj _ _ (Hs & Ho & Hd) ((? & ?) & Hn & He). cbn [fst snd] in *.
  destruct (Hs i) as [H1 H2]; [done|]. destruct (Hd i) as [Hw Hx]; [done..|].
  split; [split; congruence|]. split; [by apply (Ho i)|]. by rewrite Hw, Hx.
Qed.

Lemma spin_guar_refl i c : spin_guar i c c.
Proof. by repeat split. Qed.

(** ** The rules *)

(** A step of the serial execution only concerns the thread that takes it. *)
Lemma insert_guar {A} i j (l : list A) v : j <> i -> <[i := v]> l !! j = l !! j.
Proof. intros. by apply list_lookup_insert_ne. Qed.

(** [busy i P P']: an access that finds the lock held may turn [P] into [P']. *)
Definition busy (i : nat) (P P' : sasrt) : Prop :=
  forall w g, spin_inv w g -> P w g -> locked w = true ->
    exists g', spin_inv w g' /\ spin_guar i (w, g) (w, g') /\ P' w g'.

Lemma busy_refl i P : busy i P P.
Proof. intros w g HI HP _. exists g. split; [done|]. split; [apply spin_guar_refl|done]. Qed.

(** Looking at the flag. *)
Lemma spin_load {A} i es r P' (k : bool -> lprog A) Q :
  busy i (out i es r) P' -> stable spin_protocol i P' ->
  rg spin_protocol i (k true) P' Q ->
  rg spin_protocol i (k false) (out i es r) Q ->
  rg spin_protocol i (bind (load locked) k) (out i es r) Q.
Proof.
  intros Hb HP' Ht Hf. split; [done|]. intros w g w' b HI HP Hin. apply list_elem_of_singleton in Hin. injection Hin as -> ->.
  destruct (locked w) eqn:Hl.
  - destruct (Hb w g) as (g' & ? & ? & ?); [done..|]. by exists g', P'.
  - exists g, (out i es r). splits; [done|apply spin_guar_refl|done|apply out_stable|done].
Qed.

(** Exchanging it: the lock was free and is ours, or it is held. *)
Lemma spin_exchange {A B} i es r P' (p : prog X B) (k : bool -> lprog A) Q :
  busy i (out i es r) P' -> stable spin_protocol i P' ->
  rg spin_protocol i (k true) P' Q ->
  rg spin_protocol i (k false) (within i es r p p) Q ->
  rg spin_protocol i (bind (rmw (fun w => (set_locked true w, locked w))) k) (out i es r) Q.
Proof.
  intros Hb HP' Ht Hf. apply rg_rmw. intros w g HI HP. cbn [fst snd].
  destruct (locked w) eqn:Hl.
  - replace (set_locked true w) with w by (by destruct w; simpl in *; subst).
    destruct (Hb w g) as (g' & ? & ? & ?); [done..|]. by exists g', P'.
  - destruct HI as (Hr & Hfree & Hheld), HP as (Hs & Hn).
    destruct (owner g) as [j|] eqn:Ho; [by destruct (Hheld j) as [? _]; [|congruence]|]. destruct Hfree as [_ Hd]; [done|].
    exists (SGhost (ser g) (Some i)), (within i es r p p). splits; [| | |apply within_stable|done].
    + split; [done|]. split; [done|]. intros ? [= <-]. split; [done|]. eapply lookup_lt_Some, Hs.
    + split; [done|]. cbn. rewrite Ho. split; [|done]. intros j Hj. split; congruence.
    + split; [done|]. split; [done|]. cbn. by rewrite Hd.
Qed.

(** Running the section. *)
Lemma spin_inside {A B} i es r (p q : prog X B) (k : B -> lprog A) Q :
  sound q ->
  (forall a, rg spin_protocol i (k a) (within i es r p (Ret a)) Q) ->
  rg spin_protocol i (bind (inside q) k) (within i es r p q) Q.
Proof.
  intros Hs Hk. induction q as [a|Y f q IH| |m]; [apply Hk| |done|done].
  cbn [inside bind]. split; [done|]. intros w g w' y (Hr & Hfree & Hheld) (Hsh & Ho & He) Hin.
  apply list_elem_of_fmap in Hin as ([x1 y1] & [= -> ->] & Hin).
  exists g, (within i es r p (q y1)). splits; [| | |apply within_stable|apply IH, Hs].
  - split; [done|]. split; [congruence|]. done.
  - split; [done|]. split; [done|]. cbn. congruence.
  - split; [done|]. split; [done|]. intros x' a Ha. apply He. by econstructor.
Qed.

(** The end of the section is a step of the serial execution. *)
Lemma spin_unlock {A} i e es r (p : prog X Z) z (k : unit -> lprog A) Q :
  e = Waits p \/ e = Tries p ->
  rg spin_protocol i (k tt) (out i es (r ++ [Some z])) Q ->
  rg spin_protocol i (bind unlock k) (within i (e :: es) r p (Ret z)) Q.
Proof.
  intros Hep Hk. apply rg_store. intros w g (Hr & Hfree & Hheld) ((Ht & Hres) & Ho & He).
  set (s' := Serial (<[i := es]> (todo (ser g))) (<[i := r ++ [Some z]]> (results (ser g))) (data w)).
  exists (SGhost s' None), (out i es (r ++ [Some z])). splits; [| | |apply out_stable|done].
  - split; [|split; [done|done]]. eapply rtc_r; [done|]. eapply serial_section; [done..|]. apply He. constructor.
  - split; [cbn; intros; by rewrite !insert_guar|]. cbn. split; [|congruence]. rewrite Ho. intros j Hj. split; congruence.
  - split; [|done]. cbn. split; apply list_lookup_insert_eq; by eapply lookup_lt_Some.
Qed.

(** Giving up is one too: at the access that finds the lock held. *)
Lemma busy_gives_up i p es r : busy i (out i (Tries p :: es) r) (out i es (r ++ [None])).
Proof.
  intros w g (Hr & Hfree & Hheld) ((Ht & Hres) & Hn) Hl.
  set (s' := Serial (<[i := es]> (todo (ser g))) (<[i := r ++ [None]]> (results (ser g))) (now (ser g))).
  exists (SGhost s' (owner g)). split; [|split].
  - split; [eapply rtc_r; [done|]; by eapply serial_busy|]. split; [done|]. cbn. by rewrite length_insert.
  - split; [cbn; intros; by rewrite !insert_guar|done].
  - split; [|done]. cbn. split; apply list_lookup_insert_eq; by eapply lookup_lt_Some.
Qed.

Lemma spin_tryLock {A} i p es r (k : bool -> lprog A) Q :
  rg spin_protocol i (k true) (within i (Tries p :: es) r p p) Q ->
  rg spin_protocol i (k false) (out i es (r ++ [None])) Q ->
  rg spin_protocol i (bind tryLock k) (out i (Tries p :: es) r) Q.
Proof.
  intros Ht Hf. pose proof (out_stable i es (r ++ [None])). pose proof (busy_gives_up i p es r).
  apply rg_bind_assoc. eapply spin_load; [done..|].
  apply rg_bind_assoc. by eapply spin_exchange.
Qed.

Lemma spin_lock {A B} i es r (p : prog X B) fuel (k : unit -> lprog A) Q :
  rg spin_protocol i (k tt) (within i es r p p) Q ->
  rg spin_protocol i (bind (lock fuel) k) (out i es r) Q.
Proof.
  intros Hk. unfold lock. generalize O. induction fuel as [|fuel IH]; intros spins; [done|]. cbn [lock_loop].
  pose proof (out_stable i es r) as Hst.
  assert (Hagain : rg spin_protocol i (bind (bind (if bool_decide (kSpinsBeforeYield <= spins)%nat then yield else Ret tt)
    (fun _ => lock_loop fuel (S spins))) k) (out i es r) Q).
  { case_bool_decide; [|apply IH]. apply rg_bind_assoc, rg_store. intros w g HI HP.
    exists g, (out i es r). splits; [done|apply spin_guar_refl|done..|apply IH]. }
  apply rg_bind_assoc. eapply spin_load; [apply busy_refl|done|exact Hagain|].
  apply rg_bind_assoc. by eapply spin_exchange; [apply busy_refl|..].
Qed.

Lemma spin_enter {A} i e es r fuel (k : option Z -> lprog A) Q :
  sound_entry e ->
  (forall o, rg spin_protocol i (k o) (out i es (r ++ [o])) Q) ->
  rg spin_protocol i (bind (enter fuel e) k) (out i (e :: es) r) Q.
Proof.
  intros Hs Hk. destruct e as [p|p]; cbn [enter sound_entry] in *.
  - unfold guarded. apply rg_bind_assoc, rg_bind_assoc, (spin_lock _ _ _ p), rg_bind_assoc, spin_inside; [done|].
    intros z. apply rg_bind_assoc. eapply spin_unlock; [by left|]. apply Hk.
  - apply rg_bind_assoc, spin_tryLock; [|apply Hk].
    apply rg_bind_assoc, spin_inside; [done|]. intros z. apply rg_bind_assoc.
    eapply spin_unlock; [by right|]. apply Hk.
Qed.

Lemma spin_client i fuel es r :
  Forall sound_entry es -> rg spin_protocol i (client fuel es r) (out i es r) (fun a => out i [] a).
Proof.
  intros Hs. revert r. induction Hs as [|e es He _ IH]; intros r; cbn [client]; [by intros w g _ ?|].
  by apply spin_enter.
Qed.
End spin.
Arguments SpinLock X : clear implicits.

(** ** The theorem *)

(** A counter, and a section of two accesses. *)
Definition add_to (d : Z) : prog Z Z := n <- load (fun x => x);; store (fun _ => n + d);;; Ret n.

Lemma serial_length {X} (s s' : serial (X := X)) :
  rtc serial_step s s' -> length (todo s') = length (todo s) /\ length (results s') = length (results s).
Proof.
  induction 1 as [|s s1 s' Hs _ [-> ->]]; [done|]. by destruct Hs; cbn; rewrite !length_insert.
Qed.

Definition spin_start {X} (ess : list (list (@entry X))) (x : X) : serial := Serial ess (replicate (length ess) []) x.

(** C27: threads that enter sections under a spin lock, with [lock] or with [tryLock], any number of
    accesses to a section, interleaved in any order: when all have returned, the data and what every section
    returned are those of running the sections one after the other as a whole, in an order that keeps the
    order of each thread, where a [tryLock] may give up; and the lock is free. *)
Theorem spin_serialises {X} fuel (ess : list (list entry)) (x : X) ts w rs :
  Forall (Forall sound_entry) ess ->
  reach (spin_pool fuel ess x) (ts, w) -> finished ts rs ->
  rtc serial_step (spin_start ess x) (Serial (replicate (length ess) []) rs (data w)) /\ locked w = false.
Proof.
  intros Hs Hreach Hfin.
  assert (Hok : pool_ok (spin_protocol (spin_start ess x)) (fun i a => out i [] a) (ts, w)).
  { eapply pool_ok_reach; [exact Hreach|]. exists (SGhost (spin_start ess x) None). split.
    - split; [apply rtc_refl|]. by split.
    - intros i th Hi. apply list_lookup_fmap_Some in Hi as (es & -> & Hi). exists (out i es []).
      split; [apply out_stable|]. split; [|apply spin_client; by eapply list.Forall_lookup_1].
      split; [|done]. split; [done|]. apply lookup_replicate_2. by eapply lookup_lt_Some. }
  destruct (pool_ok_finished _ _ _ _ _ Hfin Hok) as (g & (Hr & Hfree & Hheld) & Hall).
  pose proof (serial_length _ _ Hr) as [Ht Hres]. cbn in Ht, Hres. rewrite length_replicate in Hres.
  assert (Hlen : length rs = length ess).
  { apply reach_length in Hreach. rewrite Hfin in Hreach. cbn in Hreach. by rewrite !length_fmap in Hreach. }
  destruct (owner g) as [i|] eqn:Ho.
  { destruct (Hheld i) as [_ Hi]; [done|]. destruct (lookup_lt_is_Some_2 rs i) as [a Ha]; [lia|].
    by destruct (Hall i a Ha) as [_ []]. }
  destruct Hfree as [Hl ->]; [done|]. split; [|done].
  replace (Serial _ rs _) with (ser g); [done|]. destruct (ser g) as [td res x'] eqn:Eg. cbn in *. f_equal.
  - symmetry. apply (proj2 (replicate_as_Forall [] _ td)). split; [done|].
    apply list.Forall_lookup_2. intros i es Hi. destruct (lookup_lt_is_Some_2 rs i) as [a Ha]; [apply lookup_lt_Some in Hi; lia|].
    destruct (Hall i a Ha) as [[Hes _] _]. rewrite Eg in Hes. cbn in Hes. congruence.
  - apply list_eq. intros i. destruct (rs !! i) as [a|] eqn:Ha.
    + destruct (Hall i a Ha) as [[_ H] _]. by rewrite Eg in H.
    + apply lookup_ge_None_1 in Ha. apply lookup_ge_None_2. lia.
Qed.

(** Two threads add to a counter with three sections, one of which finds the lock held. *)
Definition spin_example : list (list (@entry Z)) := [[Waits (add_to 1); Tries (add_to 10)]; [Waits (add_to 5)]].
Definition spin_final : config (SpinLock Z) (list (option Z)) :=
  run_avail (round_robin 2 40) (spin_pool 50 spin_example 0).

Lemma spin_serialises_witness :
  rtc serial_step (spin_start spin_example 0) (Serial (replicate 2 []) [[Some 0; None]; [Some 1]] (data spin_final.2)) /\
  locked spin_final.2 = false.
Proof.
  apply (spin_serialises 50 spin_example 0 spin_final.1 spin_final.2 [[Some 0; None]; [Some 1]]).
  - repeat constructor.
  - apply (run_avail_reach (round_robin 2 40)). unfold spin_final. apply surjective_pairing.
  - unfold finished. vm_compute. reflexivity.
Defined.
