(* ===== verification/WaitList.v ===== *)
(** * Waiters and the intrusive list they wait on

    [Waiter], [WaitList] and [cancelWaiter] (sync/detail/Waiter.h).  A waiter
    is a cell of a heap, its address is its index; the list is doubly linked
    through the cells.  [is_list] relates the pointers to the sequence of
    waiters, and the operations are proved against operations on sequences.

    Model-only parts of a cell: [wparty] stands for the token, parker or
    callback of which exactly one is set; [walive] says whether the object
    still exists; [wcalled] whether its callback has been called; [wtag] for
    which of the primitive's lists it was made. *)

From Stdlib Require Import ZArith Lia.
From stdpp Require Import base tactics list numbers option.
From S2P Require Import Prelude.

(** Whom a waiter wakes: a task, a thread, or a function to call.  Tasks and
    threads are named by their index in the pool. *)
Inductive party := PTask (i : nat) | PThread (i : nat) | PCallback (i : nat).
#[export] Instance party_eq_dec : EqDecision party.
Proof. solve_decision. Defined.

Definition party_of (p : party) : nat := match p with PTask i | PThread i | PCallback i => i end.

Record Waiter := MkWaiter {
  wnext : option nat;
  wprev : option nat;
  wlinked : bool;
  wsatisfied : bool;
  wparty : party;
  wcancelled : bool;
  walive : bool;
  wcalled : bool;
  wtag : nat
}.

Definition set_next v x := MkWaiter v (wprev x) (wlinked x) (wsatisfied x) (wparty x) (wcancelled x) (walive x) (wcalled x) (wtag x).
Definition set_prev v x := MkWaiter (wnext x) v (wlinked x) (wsatisfied x) (wparty x) (wcancelled x) (walive x) (wcalled x) (wtag x).
Definition set_links n p l x := MkWaiter n p l (wsatisfied x) (wparty x) (wcancelled x) (walive x) (wcalled x) (wtag x).
Definition set_satisfied v x := MkWaiter (wnext x) (wprev x) (wlinked x) v (wparty x) (wcancelled x) (walive x) (wcalled x) (wtag x).
Definition set_cancelled v x := MkWaiter (wnext x) (wprev x) (wlinked x) (wsatisfied x) (wparty x) v (walive x) (wcalled x) (wtag x).
Definition set_walive v x := MkWaiter (wnext x) (wprev x) (wlinked x) (wsatisfied x) (wparty x) (wcancelled x) v (wcalled x) (wtag x).
Definition set_called v x := MkWaiter (wnext x) (wprev x) (wlinked x) (wsatisfied x) (wparty x) (wcancelled x) (walive x) v (wtag x).

Definition new_waiter (p : party) (k : nat) : Waiter := MkWaiter None None false false p false true false k.

Record WaitList := MkWaitList { whead : option nat; wtail : option nat }.

Abbreviation heap := (list Waiter).

(** ** Operations *)

Definition wl_isEmpty (l : WaitList) : bool := match whead l with None => true | Some _ => false end.

Definition wl_pushBack (c : heap) (l : WaitList) (w : nat) : heap * WaitList :=
  let c1 := alter (set_links None (wtail l) true) w c in
  match wtail l with
  | Some t => (alter (set_next (Some w)) t c1, MkWaitList (whead l) (Some w))
  | None => (c1, MkWaitList (Some w) (Some w))
  end.

Definition wl_unlink (c : heap) (l : WaitList) (w : nat) : heap * WaitList :=
  match c !! w with
  | None => (c, l)
  | Some x =>
      let '(c1, h) := match wprev x with
                      | Some p => (alter (set_next (wnext x)) p c, whead l)
                      | None => (c, wnext x)
                      end in
      let '(c2, t) := match wnext x with
                      | Some n => (alter (set_prev (wprev x)) n c1, wtail l)
                      | None => (c1, wprev x)
                      end in
      (alter (set_links None None false) w c2, MkWaitList h t)
  end.

Definition wl_popFront (c : heap) (l : WaitList) : heap * WaitList * option nat :=
  match whead l with
  | Some w => (wl_unlink c l w, Some w)
  | None => (c, l, None)
  end.

Definition cancelWaiter (c : heap) (l : WaitList) (w : nat) : heap * WaitList * bool :=
  match c !! w with
  | Some x => if wlinked x then (wl_unlink c l w, true) else (alter (set_cancelled true) w c, l, false)
  | None => (c, l, false)
  end.

Lemma list_alter_insert {A} (f : A -> A) (l : list A) w x : l !! w = Some x -> alter f w l = <[w := f x]> l.
Proof. revert w. induction l as [|y l IH]; intros [|w] Hw; simplify_eq/=; [done|]. f_equal. by apply IH. Qed.

(** ** The sequence a list stands for *)

Record is_list (c : heap) (l : WaitList) (ws : list nat) : Prop := {
  il_nodup : NoDup ws;
  il_head : whead l = ws !! 0%nat;
  il_tail : wtail l = list.last ws;
  il_cell : forall k w, ws !! k = Some w ->
    exists x, c !! w = Some x /\ wlinked x = true /\ wnext x = ws !! S k /\
      wprev x = match k with O => None | S k' => ws !! k' end
}.

(** Two heaps that agree, links apart. *)
Definition same_but_links (x y : Waiter) : Prop :=
  wsatisfied x = wsatisfied y /\ wparty x = wparty y /\ wcancelled x = wcancelled y /\
  walive x = walive y /\ wcalled x = wcalled y /\ wtag x = wtag y.

#[export] Instance same_but_links_refl : Reflexive same_but_links.
Proof. by intros x. Qed.
#[export] Instance same_but_links_trans : Transitive same_but_links.
Proof. intros x y z (?&?&?&?&?&?) (?&?&?&?&?&?). unfold same_but_links. splits; congruence. Qed.

Lemma is_list_nil c : is_list c (MkWaitList None None) [].
Proof. split; try done. apply NoDup_nil_2. Qed.

(** Cells outside the sequence do not matter. *)
Lemma is_list_frame c c' l ws :
  (forall w, w ∈ ws -> c' !! w = c !! w) -> is_list c l ws -> is_list c' l ws.
Proof.
  intros Hc [Hn Hh Ht Hcell]. split; try done. intros k w Hw. rewrite Hc; [by apply Hcell|]. by eapply list_elem_of_lookup_2.
Qed.

Lemma is_list_empty c l ws : is_list c l ws -> wl_isEmpty l = bool_decide (ws = []).
Proof. intros H. unfold wl_isEmpty. rewrite (il_head _ _ _ H). by destruct ws. Qed.

Lemma is_list_linked c l ws w : is_list c l ws -> w ∈ ws -> exists x, c !! w = Some x /\ wlinked x = true.
Proof. intros H [k Hk]%list_elem_of_lookup. destruct (il_cell _ _ _ H k w Hk) as (x & ? & ? & _). eauto. Qed.

(** What an operation may do to a cell. *)
Definition links_only (c c' : heap) : Prop :=
  length c' = length c /\
  forall w x, c !! w = Some x -> exists x', c' !! w = Some x' /\ same_but_links x x'.

#[export] Instance links_only_refl : Reflexive links_only.
Proof. intros c. split; [done|]. intros w x Hx. exists x. by split. Qed.
#[export] Instance links_only_trans : Transitive links_only.
Proof.
  intros c1 c2 c3 [L1 H1] [L2 H2]. split; [congruence|]. intros w x Hx.
  destruct (H1 w x Hx) as (y & Hy & E1). destruct (H2 w y Hy) as (z & Hz & E2). exists z. split; [done|]. by etransitivity.
Qed.

Lemma links_only_alter f w c : (forall x, same_but_links x (f x)) -> links_only c (alter f w c).
Proof.
  intros Hf. split; [apply length_alter|]. intros v x Hx. destruct (decide (v = w)) as [->|Hne].
  - exists (f x). rewrite list_lookup_alter_eq, Hx. by split.
  - exists x. rewrite list_lookup_alter_ne by done. by split.
Qed.

(** ** The operations on sequences *)

Lemma last_lookup_pred {A} (l : list A) : list.last l = l !! pred (length l).
Proof. apply last_lookup. Qed.

(** [pushBack] of a waiter that is in no list. *)
Lemma pushBack_list c l ws w x c' l' :
  is_list c l ws -> c !! w = Some x -> w ∉ ws -> wl_pushBack c l w = (c', l') ->
  is_list c' l' (ws ++ [w]) /\ links_only c c' /\ (forall v, v ∉ ws -> v <> w -> c' !! v = c !! v) /\
  (forall v y y', v <> w -> c !! v = Some y -> c' !! v = Some y' -> wlinked y' = wlinked y).
Proof.
  intros [Hn Hh Ht Hcell] Hx Hw. unfold wl_pushBack. rewrite Ht.
  set (c1 := alter (set_links None (list.last ws) true) w c).
  assert (H1w : c1 !! w = Some (set_links None (list.last ws) true x)) by (unfold c1; by rewrite list_lookup_alter_eq, Hx).
  assert (H1 : forall v, v <> w -> c1 !! v = c !! v) by (intros v Hv; unfold c1; by apply list_lookup_alter_ne).
  assert (HL : links_only c c1) by (by apply links_only_alter).
  assert (NoDup (ws ++ [w])) as Hnd.
  { apply list.NoDup_app. splits; [done|by intros ? ? ->%list_elem_of_singleton|apply NoDup_singleton]. }
  destruct (list.last ws) as [t|] eqn:El.
  - intros [= <- <-].
    assert (Hlt : exists k, ws !! k = Some t /\ length ws = S k).
    { rewrite last_lookup in El. exists (pred (length ws)). split; [done|]. apply lookup_lt_Some in El. lia. }
    destruct Hlt as (kt & Hkt & Hlen).
    assert (t <> w) as Htw by (intros ->; apply Hw; by eapply list_elem_of_lookup_2).
    assert (Hout : forall v, v <> t -> alter (set_next (Some w)) t c1 !! v = c1 !! v)
      by (intros v Hv; by apply list_lookup_alter_ne).
    splits; [split| | |].
    + done.
    + simpl. rewrite Hh. destruct ws; done.
    + simpl. by rewrite last_snoc.
    + intros k v Hv. apply lookup_app_Some in Hv as [Hv|[Hk Hv]].
      * assert (v <> w) as Hvw by (intros ->; apply Hw; by eapply list_elem_of_lookup_2).
        destruct (Hcell k v Hv) as (y & Hy & Hlk & Hnx & Hpv). pose proof (lookup_lt_Some _ _ _ Hv) as Hkl.
        assert (Hprev : wprev y = match k with O => None | S k' => (ws ++ [w]) !! k' end).
        { rewrite Hpv. destruct k as [|k']; [done|]. by rewrite lookup_app_l by lia. }
        destruct (decide (v = t)) as [->|Hvt].
        -- exists (set_next (Some w) y). rewrite list_lookup_alter_eq, H1, Hy by done. splits; try done.
           simpl. assert (k = kt) as -> by exact (NoDup_lookup ws k kt t Hn Hv Hkt). rewrite lookup_app_r by lia.
           by rewrite Hlen, Nat.sub_diag.
        -- exists y. rewrite Hout, H1 by done. splits; try done. rewrite Hnx. rewrite lookup_app_l; [done|].
           destruct (decide (k = kt)) as [->|]; [congruence|lia].
      * destruct (k - length ws)%nat as [|m] eqn:Ek; [|by destruct m]. injection Hv as <-.
        exists (set_links None (Some t) true x). rewrite Hout by done. splits; try done.
        -- simpl. symmetry. apply lookup_ge_None_2. rewrite length_app. simpl. lia.
        -- simpl. assert (k = S kt) as -> by lia. by rewrite lookup_app_l by lia.
    + etransitivity; [done|]. by apply links_only_alter.
    + intros v Hv Hvw. rewrite Hout; [by apply H1|]. intros ->. apply Hv. by eapply list_elem_of_lookup_2.
    + intros v y y' Hvw Hy. destruct (decide (v = t)) as [->|Hvt].
      * rewrite list_lookup_alter_eq, H1, Hy by done. by intros [= <-].
      * rewrite Hout, H1, Hy by done. by intros [= <-].
  - intros [= <- <-]. apply last_None in El as ->.
    splits; [split| | |]; try done.
    + intros [|k] v; [|done]. intros [= <-]. exists (set_links None None true x). by splits.
    + intros v _ Hv. by apply H1.
    + intros v y y' Hvw Hy. rewrite H1, Hy by done. by intros [= <-].
Qed.

(** [unlink] of the waiter at place [k]. *)
Lemma unlink_list c l ws k w c' l' :
  is_list c l ws -> ws !! k = Some w -> wl_unlink c l w = (c', l') ->
  is_list c' l' (delete k ws) /\ links_only c c' /\ (forall v, v ∉ ws -> c' !! v = c !! v) /\
  (exists x', c' !! w = Some x' /\ wlinked x' = false /\ wnext x' = None) /\
  (forall v y y', v <> w -> c !! v = Some y -> c' !! v = Some y' -> wlinked y' = wlinked y).
Proof.
  intros [Hn Hh Ht Hcell] Hk. unfold wl_unlink.
  destruct (Hcell k w Hk) as (x & Hx & Hlk & Hnx & Hpv). rewrite Hx.
  set (pr := match k with O => None | S k' => ws !! k' end) in *.
  set (nx := ws !! S k) in *. rewrite Hnx, Hpv.
  (* the three writes *)
  set (c1 := match pr with Some p => alter (set_next nx) p c | None => c end).
  set (c2 := match nx with Some n => alter (set_prev pr) n c1 | None => c1 end).
  set (c3 := alter (set_links None None false) w c2).
  assert (Hidx : forall j v, ws !! j = Some v -> v = w -> j = k) by (intros j v Hj ->; by eapply NoDup_lookup).
  assert (Hp : forall v, pr = Some v -> exists k', k = S k' /\ ws !! k' = Some v) by (intros v; unfold pr; destruct k; naive_solver).
  assert (H1 : forall v y, c !! v = Some y -> c1 !! v = Some (if decide (pr = Some v) then set_next nx y else y)).
  { intros v y Hy. unfold c1. destruct pr as [p|]; [|by rewrite decide_False by done].
    destruct (decide (v = p)) as [->|]; [rewrite list_lookup_alter_eq, Hy, decide_True by done; done|].
    rewrite list_lookup_alter_ne, decide_False by congruence. done. }
  assert (H2 : forall v y, c1 !! v = Some y -> c2 !! v = Some (if decide (nx = Some v) then set_prev pr y else y)).
  { intros v y Hy. unfold c2. destruct nx as [p|]; [|by rewrite decide_False by done].
    destruct (decide (v = p)) as [->|]; [rewrite list_lookup_alter_eq, Hy, decide_True by done; done|].
    rewrite list_lookup_alter_ne, decide_False by congruence. done. }
  assert (H3 : forall v y, v <> w -> c2 !! v = Some y -> c3 !! v = Some y)
    by (intros v y Hv Hy; unfold c3; by rewrite list_lookup_alter_ne).
  assert (HL : links_only c c3).
  { transitivity c1; [unfold c1; destruct pr; [by apply links_only_alter|done]|].
    transitivity c2; [unfold c2; destruct nx; [by apply links_only_alter|done]|]. by apply links_only_alter. }
  assert (Hres : (let '(a, h) := match pr with Some p => (alter (set_next nx) p c, whead l) | None => (c, nx) end in
     let '(b, t) := match nx with Some n => (alter (set_prev pr) n a, wtail l) | None => (a, pr) end in
     (alter (set_links None None false) w b, MkWaitList h t)) =
     (c3, MkWaitList (match pr with Some _ => whead l | None => nx end) (match nx with Some _ => wtail l | None => pr end))).
  { unfold c3, c2, c1. by destruct pr, nx. }
  rewrite Hres. intros [= <- <-]. clear Hres.
  assert (Hcells : forall j v, ws !! j = Some v -> v <> w -> exists y, c3 !! v = Some y /\ wlinked y = true /\
      wnext y = (if decide (S j = k) then nx else ws !! S j) /\
      wprev y = (if decide (j = S k) then pr else match j with O => None | S j' => ws !! j' end)).
  { intros j v Hj Hvw. destruct (Hcell j v Hj) as (y & Hy & Hyl & Hyn & Hyp).
    pose proof (H3 v _ Hvw (H2 v _ (H1 v y Hy))) as Hv3.
    assert (Epr : pr = Some v <-> S j = k).
    { split.
      - intros (k' & -> & Hk')%Hp. f_equal. by eapply NoDup_lookup.
      - intros <-. exact Hj. }
    assert (Enx : nx = Some v <-> j = S k).
    { split; [intros Hn'; by eapply NoDup_lookup|by intros ->]. }
    eexists. split; [exact Hv3|].
    destruct (decide (pr = Some v)) as [e1|e1], (decide (nx = Some v)) as [e2|e2];
      rewrite Epr in e1; rewrite Enx in e2.
    - exfalso. lia.
    - rewrite (decide_True _ _ e1), (decide_False _ _ e2). by splits.
    - rewrite (decide_False _ _ e1), (decide_True _ _ e2). by splits.
    - rewrite (decide_False _ _ e1), (decide_False _ _ e2). by splits. }
  pose proof (lookup_lt_Some _ _ _ Hk) as Hlt.
  splits.
  - split.
    + eapply sublist_NoDup; [exact Hn|apply sublist_delete].
    + simpl. rewrite Hh. unfold pr, nx. destruct k as [|k']; [by destruct ws|].
      destruct (ws !! k') eqn:E; [by destruct ws|]. apply lookup_ge_None in E. lia.
    + simpl. rewrite Ht, !last_lookup, length_delete by done. unfold nx, pr.
      destruct (ws !! S k) eqn:E.
      * apply lookup_lt_Some in E. rewrite list_lookup_delete_ge by lia. f_equal. lia.
      * apply lookup_ge_None in E. destruct k as [|k'].
        -- assert (length ws = 1%nat) as -> by lia. symmetry. apply lookup_ge_None_2. rewrite length_delete by done. lia.
        -- rewrite list_lookup_delete_lt by lia. f_equal. lia.
    + intros j v Hj. destruct (decide (j < k)%nat) as [Hjk|Hjk].
      * rewrite list_lookup_delete_lt in Hj by done.
        assert (v <> w) as Hvw by (intros ->; pose proof (Hidx j w Hj eq_refl); lia).
        destruct (Hcells j v Hj Hvw) as (y & Hy & Hyl & Hyn & Hyp). exists y. splits; try done.
        -- rewrite Hyn. destruct (decide (S j = k)) as [e|e]; [rewrite list_lookup_delete_ge by lia; unfold nx; f_equal; lia|].
           symmetry. apply list_lookup_delete_lt. lia.
        -- rewrite Hyp, decide_False by lia. destruct j; [done|]. by rewrite list_lookup_delete_lt by lia.
      * rewrite list_lookup_delete_ge in Hj by lia.
        assert (v <> w) as Hvw by (intros ->; pose proof (Hidx _ w Hj eq_refl); lia).
        destruct (Hcells (S j) v Hj Hvw) as (y & Hy & Hyl & Hyn & Hyp). exists y. splits; try done.
        -- rewrite Hyn, decide_False by lia. by rewrite list_lookup_delete_ge by lia.
        -- rewrite Hyp. case_decide as e; [injection e as ->; unfold pr; destruct k; [done|];
             by rewrite list_lookup_delete_lt by lia|]. destruct j; [lia|]. by rewrite list_lookup_delete_ge by lia.
  - done.
  - intros v Hv. assert (v <> w) as Hvw by (intros ->; apply Hv; by eapply list_elem_of_lookup_2).
    unfold c3. rewrite list_lookup_alter_ne by done. unfold c2. assert (c1 !! v = c !! v) as H1v.
    { unfold c1. destruct pr as [p|] eqn:Ep; [|done]. apply list_lookup_alter_ne. intros ->.
      destruct (Hp v eq_refl) as (k' & _ & Hk'). apply Hv. by eapply list_elem_of_lookup_2. }
    destruct nx as [n|] eqn:En; [|done]. rewrite list_lookup_alter_ne; [done|]. intros ->. apply Hv.
    by eapply list_elem_of_lookup_2.
  - unfold c3. rewrite list_lookup_alter_eq, (H2 w _ (H1 w x Hx)). eexists. split; [reflexivity|]. done.
  - intros v y y' Hvw Hy. rewrite (H3 v _ Hvw (H2 v _ (H1 v y Hy))). intros [= <-]. by repeat case_decide.
Qed.

(** ** Refinement

    The list promises a FIFO from which any waiter can be removed. *)

Inductive wl_op :=
| OpPush (w : nat)
| OpPop
| OpUnlink (w : nat)
| OpCancel (w : nat).

Inductive wl_out := OutNone | OutWaiter (o : option nat) | OutBool (b : bool).

Definition exec_op (o : wl_op) (s : heap * WaitList) : heap * WaitList * wl_out :=
  match o with
  | OpPush w => (wl_pushBack s.1 s.2 w, OutNone)
  | OpPop => let '(c, l, r) := wl_popFront s.1 s.2 in (c, l, OutWaiter r)
  | OpUnlink w => (wl_unlink s.1 s.2 w, OutNone)
  | OpCancel w => let '(c, l, b) := cancelWaiter s.1 s.2 w in (c, l, OutBool b)
  end.

Definition remove (w : nat) (ws : list nat) : list nat := filter (.≠ w) ws.

Definition spec_op (o : wl_op) (ws : list nat) : list nat * wl_out :=
  match o with
  | OpPush w => (ws ++ [w], OutNone)
  | OpPop => (tail ws, OutWaiter (head ws))
  | OpUnlink w => (remove w ws, OutNone)
  | OpCancel w => (remove w ws, OutBool (bool_decide (w ∈ ws)))
  end.

(** A waiter is pushed while in no list, and unlinked while in this one. *)
Definition op_ok (n : nat) (ws : list nat) (o : wl_op) : bool :=
  match o with
  | OpPush w => (w <? n)%nat && bool_decide (w ∉ ws)
  | OpPop => true
  | OpUnlink w => bool_decide (w ∈ ws)
  | OpCancel w => (w <? n)%nat
  end.

Fixpoint exec_ops (l : list wl_op) (s : heap * WaitList) : list wl_out :=
  match l with
  | [] => []
  | o :: l' => let '(s', r) := exec_op o s in r :: exec_ops l' s'
  end.

Fixpoint spec_ops (l : list wl_op) (ws : list nat) : list wl_out :=
  match l with
  | [] => []
  | o :: l' => let '(ws', r) := spec_op o ws in r :: spec_ops l' ws'
  end.

Fixpoint ops_ok (n : nat) (l : list wl_op) (ws : list nat) : bool :=
  match l with
  | [] => true
  | o :: l' => op_ok n ws o && ops_ok n l' (spec_op o ws).1
  end.

(** The pointers stand for the sequence, and [linked] for membership. *)
Definition refines (s : heap * WaitList) (ws : list nat) : Prop :=
  is_list s.1 s.2 ws /\ forall w x, s.1 !! w = Some x -> wlinked x = true <-> w ∈ ws.

Lemma remove_none w ws : w ∉ ws -> remove w ws = ws.
Proof.
  induction ws as [|v ws IH]; intros Hw; [done|]. apply not_elem_of_cons in Hw as [? ?].
  unfold remove in *. rewrite filter_cons_True by done. f_equal. auto.
Qed.

Lemma remove_delete k w ws : NoDup ws -> ws !! k = Some w -> remove w ws = delete k ws.
Proof.
  revert k. induction ws as [|v ws IH]; intros k Hn Hk; [done|].
  apply list.NoDup_cons in Hn as [Hv Hn]. unfold remove. destruct k as [|k]; simpl in *.
  - injection Hk as ->. rewrite filter_cons_False by (intros E; by apply E). by apply remove_none.
  - rewrite filter_cons_True; [f_equal; by apply IH|]. intros ->. apply Hv. by eapply list_elem_of_lookup_2.
Qed.

Lemma length_remove w ws : NoDup ws -> w ∈ ws -> S (length (remove w ws)) = length ws.
Proof.
  intros Hn [k Hk]%list_elem_of_lookup. rewrite (remove_delete k w ws Hn Hk), length_delete by done.
  apply lookup_lt_Some in Hk. lia.
Qed.

Lemma elem_of_remove v w ws : v ∈ remove w ws <-> v ∈ ws /\ v <> w.
Proof. unfold remove. rewrite list_elem_of_filter. naive_solver. Qed.

Lemma links_lookup c c' w x' : links_only c c' -> c' !! w = Some x' -> exists x, c !! w = Some x.
Proof.
  intros [Hlen _] Hx%lookup_lt_Some. rewrite Hlen in Hx. by apply lookup_lt_is_Some.
Qed.

Lemma unlink_refines c l ws w :
  refines (c, l) ws -> w ∈ ws -> refines (wl_unlink c l w) (remove w ws).
Proof.
  intros [Hl Hm] [k Hk]%list_elem_of_lookup. destruct (wl_unlink c l w) as [c' l'] eqn:E.
  destruct (unlink_list _ _ _ _ _ _ _ Hl Hk E) as (Hl' & HL & _ & (x' & Hx' & Hf & _) & Hsame).
  rewrite (remove_delete k) by (by try apply Hl). split; [done|]. simpl. intros v y Hy.
  rewrite <- (remove_delete k w) by (by try apply Hl). rewrite elem_of_remove.
  destruct (decide (v = w)) as [->|Hvw]; [simplify_eq; rewrite Hf; naive_solver|].
  destruct (links_lookup _ _ _ _ HL Hy) as [z Hz]. rewrite (Hsame v z y Hvw Hz Hy). rewrite (Hm v z Hz). naive_solver.
Qed.

Lemma op_refines c l ws o :
  refines (c, l) ws -> op_ok (length c) ws o = true ->
  refines (exec_op o (c, l)).1 (spec_op o ws).1 /\ (exec_op o (c, l)).2 = (spec_op o ws).2 /\
  length (exec_op o (c, l)).1.1 = length c.
Proof.
  intros HR Hok. pose proof HR as [Hl Hm]. simpl in Hl, Hm.
  assert (Hlen : forall w, length (wl_unlink c l w).1 = length c).
  { intros w. unfold wl_unlink. destruct (c !! w) as [x|]; [|done].
    destruct (wprev x), (wnext x); simpl; by rewrite !length_alter. }
  destruct o as [w| |w|w]; simpl in *.
  - apply andb_prop in Hok as [Hw%Nat.ltb_lt Hni%bool_decide_eq_true].
    apply lookup_lt_is_Some in Hw as [x Hx]. destruct (wl_pushBack c l w) as [c' l'] eqn:E.
    destruct (pushBack_list _ _ _ _ _ _ _ Hl Hx Hni E) as (Hl' & HL & _ & Hsame).
    splits; [split; [done|]|done|apply HL]. simpl. intros v y Hy. rewrite elem_of_app, list_elem_of_singleton.
    destruct (decide (v = w)) as [->|Hvw].
    + destruct (is_list_linked _ _ _ w Hl') as (x' & Hx' & ?); [apply elem_of_app; right; by apply list_elem_of_singleton|]. simplify_eq. naive_solver.
    + destruct (links_lookup _ _ _ _ HL Hy) as [z Hz]. rewrite (Hsame v z y Hvw Hz Hy), (Hm v z Hz). naive_solver.
  - unfold wl_popFront. rewrite (il_head _ _ _ Hl). destruct ws as [|w ws]; simpl; [done|].
    assert (refines (wl_unlink c l w) (remove w (w :: ws))) as H by (apply unlink_refines; [done|by left]).
    rewrite (remove_delete 0) in H by (by try apply Hl). pose proof (Hlen w). destruct (wl_unlink c l w). by splits.
  - apply bool_decide_eq_true in Hok. splits; [by apply unlink_refines|done|apply Hlen].
  - apply Nat.ltb_lt, lookup_lt_is_Some in Hok as [x Hx]. unfold cancelWaiter. rewrite Hx.
    destruct (wlinked x) eqn:E.
    + assert (w ∈ ws) as Hw by (by apply (Hm w x)). rewrite bool_decide_eq_true_2 by done.
      pose proof (unlink_refines _ _ _ _ HR Hw) as H. pose proof (Hlen w).
      destruct (wl_unlink c l w) as [c' l']. by splits.
    + assert (w ∉ ws) as Hw by (intros Hw%(Hm w x Hx); congruence).
      rewrite bool_decide_eq_false_2, remove_none by done. splits; [split|done|apply length_alter].
      * eapply is_list_frame; [|exact Hl]. simpl. intros v Hv. apply list_lookup_alter_ne. by intros ->.
      * simpl. intros v y Hy. destruct (decide (v = w)) as [->|Hvw].
        -- rewrite list_lookup_alter_eq, Hx in Hy. injection Hy as <-. simpl. rewrite E. naive_solver.
        -- rewrite list_lookup_alter_ne in Hy by done. by apply Hm.
Qed.

(** Every sequence of pushBack, popFront, unlink and cancelWaiter calls on the
    doubly linked list gives the answers of the same calls on a sequence: first
    come first served, with waiters leaving from anywhere. *)
Theorem waitlist_refines_fifo (c : heap) (l : WaitList) (ws : list nat) (ops : list wl_op) :
  refines (c, l) ws -> ops_ok (length c) ops ws = true -> exec_ops ops (c, l) = spec_ops ops ws.
Proof.
  revert c l ws. induction ops as [|o ops IH]; intros c l ws HR Hok; [done|]. cbn [ops_ok] in Hok.
  apply andb_prop in Hok as [Ho Hops]. cbn [exec_ops spec_ops].
  destruct (op_refines c l ws o HR Ho) as (HR' & Hout & Hlen).
  destruct (exec_op o (c, l)) as [[c' l'] r], (spec_op o ws) as [ws' r']. simpl in *. subst r'. f_equal.
  apply IH; [done|]. by rewrite Hlen.
Qed.

Lemma waitlist_refines_fifo_witness :
  exec_ops [OpPush 0; OpPush 1; OpPush 2; OpUnlink 1; OpCancel 0; OpCancel 1; OpPop; OpPop]
    (replicate 3 (new_waiter (PThread 0) 0), MkWaitList None None) =
  [OutNone; OutNone; OutNone; OutNone; OutBool true; OutBool false; OutWaiter (Some 2%nat); OutWaiter None].
Proof.
  apply (waitlist_refines_fifo (replicate 3 (new_waiter (PThread 0) 0)) (MkWaitList None None) []).
  - split; [apply is_list_nil|]. intros w x Hx. apply lookup_replicate in Hx as [-> _].
    split; [discriminate|by intros ?%elem_of_nil].
  - vm_compute. reflexivity.
Defined.
