(* ===== verification/Waiting.v ===== *)
(** * Waiting: locks, waiters, notification

    The part the blocking primitives share: [SpinLock] (sync/SpinLock.h),
    [Waiter::wait], [notify], [awaitNotifier], [block] (sync/detail/Waiter.h,
    sync/src/Waiter.cpp) and [WaitGuard].  A world [sworld X] holds the
    primitive's own state [X], its spin lock, its waiter lists, and the
    waiters themselves.

    - [spinLock] waits until the lock is free; SpinLock.v shows that the
      test-and-set loop does that.
    - [stokens i] says that party [i] has a wake-up pending: what
      [this_task::park] and [Parker::park] wait for and consume.  A wake-up may
      also be stale, left by a wait that is long over.
    - A task that parks while its scheduler stops may be unwound instead.
    - A callback is represented by [wcalled]: its owner goes on once it is set.
    - An access to a waiter that no longer exists is [Fatal]. *)

From Stdlib Require Import ZArith Lia.
From stdpp Require Import base tactics list numbers option strings functions.
From S2P Require Import Prelude Conc WaitList.

Inductive EnqueueResult := EqReady | EqEnqueued | EqCancelled.
Inductive TransferResult := TrDone | TrClosed | TrWouldBlock | TrEnqueued | TrCancelled.

(** How a blocking call ends: normally, or by a forced unwind. *)
Inductive resumed := Woken | Unwound.

Record sworld (X : Type) := SW {
  sprim : X;
  slocked : bool;
  slists : list WaitList;
  scells : heap;
  stokens : nat -> bool;
  sstopping : bool
}.
Arguments SW {X} sprim slocked slists scells stokens sstopping.
Arguments sprim {X} s.
Arguments slocked {X} s.
Arguments slists {X} s.
Arguments scells {X} s.
Arguments stokens {X} s.
Arguments sstopping {X} s.

Section waiting.
Context {X : Type}.
Implicit Types s : sworld X.

Definition set_prim (v : X) s := SW v (slocked s) (slists s) (scells s) (stokens s) (sstopping s).
Definition set_locked v s := SW (sprim s) v (slists s) (scells s) (stokens s) (sstopping s).
Definition set_lists l c s := SW (sprim s) (slocked s) l c (stokens s) (sstopping s).
Definition set_cells c s := SW (sprim s) (slocked s) (slists s) c (stokens s) (sstopping s).
Definition set_token i v s := SW (sprim s) (slocked s) (slists s) (scells s) (<[i := v]> (stokens s)) (sstopping s).
Definition set_stop v s := SW (sprim s) (slocked s) (slists s) (scells s) (stokens s) v.

(** An atomic access to the primitive's own state. *)
Definition prim {B} (f : X -> list (X * B)) : prog (sworld X) B :=
  Act B (fun s => (fun xb => (set_prim xb.1 s, xb.2)) <$> f (sprim s)) Ret.

(** ** The spin lock *)

Definition spinLock : prog (sworld X) unit :=
  Act unit (fun s => if slocked s then [] else [(set_locked true s, tt)]) Ret.
Definition spinUnlock : prog (sworld X) unit := store (set_locked false).

(** ** Accesses to waiters *)

Definition alive_at (c : heap) (o : option nat) : bool :=
  match o with
  | None => true
  | Some w => match c !! w with Some x => walive x | None => false end
  end.

Definition use_after_scope {A} : prog (sworld X) A := Fatal "waiter used after its scope".

Definition wget {Y} (w : nat) (f : Waiter -> Y) : prog (sworld X) Y :=
  Act (option Y) (fun s =>
    match scells s !! w with
    | Some x => if walive x then [(s, Some (f x))] else [(s, None)]
    | None => [(s, None)]
    end)
    (fun o => match o with Some y => Ret y | None => use_after_scope end).

Definition wset (w : nat) (f : Waiter -> Waiter) : prog (sworld X) unit :=
  Act bool (fun s =>
    if alive_at (scells s) (Some w) then [(set_cells (alter f w (scells s)) s, true)] else [(s, false)])
    (fun b => if b : bool then Ret tt else use_after_scope).

(** [Waiter waiter;] and the end of its scope. *)
Definition newWaiter (p : party) (k : nat) : prog (sworld X) nat :=
  rmw (fun s => (set_cells (scells s ++ [new_waiter p k]) s, length (scells s))).
Definition endWaiter (w : nat) : prog (sworld X) unit := wset w (set_walive false).

(** List operations, under the lock.  They touch the waiter and its
    neighbours. *)
Definition list_at (k : nat) s : WaitList := default (MkWaitList None None) (slists s !! k).

Definition isEmpty (k : nat) : prog (sworld X) bool := load (fun s => wl_isEmpty (list_at k s)).

Definition pushBack (k w : nat) : prog (sworld X) unit :=
  Act bool (fun s =>
    if alive_at (scells s) (Some w) && alive_at (scells s) (wtail (list_at k s)) then
      let '(c, l) := wl_pushBack (scells s) (list_at k s) w in [(set_lists (<[k := l]> (slists s)) c s, true)]
    else [(s, false)])
    (fun b => if b : bool then Ret tt else use_after_scope).

Definition touched (c : heap) (w : nat) : bool :=
  match c !! w with
  | Some x => walive x && alive_at c (wprev x) && alive_at c (wnext x)
  | None => false
  end.

Definition popFront (k : nat) : prog (sworld X) (option nat) :=
  Act (option (option nat)) (fun s =>
    match whead (list_at k s) with
    | None => [(s, Some None)]
    | Some w =>
        if touched (scells s) w then
          let '(c, l, o) := wl_popFront (scells s) (list_at k s) in [(set_lists (<[k := l]> (slists s)) c s, Some o)]
        else [(s, None)]
    end)
    (fun r => match r with Some o => Ret o | None => use_after_scope end).

Definition unlink (k w : nat) : prog (sworld X) unit :=
  Act bool (fun s =>
    if touched (scells s) w then
      let '(c, l) := wl_unlink (scells s) (list_at k s) w in [(set_lists (<[k := l]> (slists s)) c s, true)]
    else [(s, false)])
    (fun b => if b : bool then Ret tt else use_after_scope).

(** ** Waiting *)

(** [this_task::park], [Parker::park]. *)
Definition park (p : party) : prog (sworld X) resumed :=
  Act resumed (fun s =>
    (if stokens s (party_of p) then [(set_token (party_of p) false s, Woken)] else []) ++
    (match p with PTask _ => if sstopping s then [(s, Unwound)] else [] | _ => [] end)) Ret.

(** [WakeToken::wake], [Parker::unpark]. *)
Definition unpark (i : nat) : prog (sworld X) unit := store (set_token i true).

(** [Waiter::wait] *)
Fixpoint wait (fuel : nat) (p : party) (w : nat) : prog (sworld X) resumed :=
  match fuel with
  | O => Starved
  | S fuel' =>
      b <- wget w wsatisfied;;
      if b : bool then Ret Woken
      else
        r <- park p;;
        match r with Woken => wait fuel' p w | Unwound => Ret Unwound end
  end.

(** [Waiter::notify] *)
Definition notify (w : nat) : prog (sworld X) unit :=
  p <- wget w wparty;;
  match p with
  | PCallback _ => wset w (set_called true)
  | PTask i | PThread i => wset w (set_satisfied true);;; unpark i
  end.

(** [Waiter::awaitNotifier] *)
Definition awaitNotifier (w : nat) : prog (sworld X) unit :=
  Act (option unit) (fun s =>
    match scells s !! w with
    | Some x => if walive x then (if wsatisfied x then [(s, Some tt)] else []) else [(s, None)]
    | None => [(s, None)]
    end)
    (fun o => match o with Some _ => Ret tt | None => use_after_scope end).

(** [~WaitGuard]: whether the waiter was still linked. *)
Definition leaveEarly (k w : nat) (onUnlinked : prog (sworld X) unit) : prog (sworld X) bool :=
  spinLock;;;
  wasLinked <- wget w wlinked;;
  (if wasLinked : bool then unlink k w;;; onUnlinked else Ret tt);;;
  spinUnlock;;;
  (if wasLinked : bool then Ret tt else awaitNotifier w);;;
  Ret wasLinked.

(** [cancelWaiter] *)
Definition cancelQueued (k w : nat) : prog (sworld X) bool :=
  Act (option bool) (fun s =>
    if (match scells s !! w with Some x => if wlinked x then touched (scells s) w else walive x | None => false end) then
      let '(c, l, b) := cancelWaiter (scells s) (list_at k s) w in [(set_lists (<[k := l]> (slists s)) c s, Some b)]
    else [(s, None)])
    (fun o => match o with Some b => Ret b | None => use_after_scope end).

(** The owner of a callback waiter goes on when it is called. *)
Definition awaitCallback (w : nat) : prog (sworld X) unit :=
  Act (option unit) (fun s =>
    match scells s !! w with
    | Some x => if walive x then (if wcalled x then [(set_cells (alter (set_called false) w (scells s)) s, Some tt)] else [])
                else [(s, None)]
    | None => [(s, None)]
    end)
    (fun o => match o with Some _ => Ret tt | None => use_after_scope end).

(** ** Chains of waiters taken off a list, through [next] *)

(** [while (w = list.popFront()) { w->next = chain; chain = w; }] *)
Fixpoint popAll (fuel k : nat) (chain : option nat) : prog (sworld X) (option nat) :=
  match fuel with
  | O => Starved
  | S fuel' =>
      o <- popFront k;;
      match o with
      | None => Ret chain
      | Some w => wset w (set_next chain);;; popAll fuel' k (Some w)
      end
  end.

(** [while (chain) { w = chain; chain = w->next; w->notify(); }] *)
Fixpoint notifyChain (fuel : nat) (chain : option nat) : prog (sworld X) unit :=
  match fuel with
  | O => Starved
  | S fuel' =>
      match chain with
      | None => Ret tt
      | Some w => nx <- wget w wnext;; notify w;;; notifyChain fuel' nx
      end
  end.

Definition init_sworld (x : X) (lists : nat) : sworld X :=
  SW x false (replicate lists (MkWaitList None None)) [] (fun _ => false) false.
End waiting.
