(* ===== verification/WaitingInv.v ===== *)
(** * Waiting: who may touch a waiter, and when

    The argument every blocking primitive shares.  Each waiter is in one
    [place]: with its owner, in a list, taken off a list by a notifier, being
    woken, awake.  The invariant ties the places to the lists and flags, each
    thread knows its own part ([at_]), and a primitive adds its own invariant
    [pinv] over its state, the queued waiters, the lock holder, a ghost value
    [PL] per thread, and the number of waiters that have been granted a
    wake-up and have not returned with it. *)

From Stdlib Require Import ZArith Lia.
From stdpp Require Import base tactics list numbers option strings functions.
From S2P Require Import Prelude Conc Sums WaitList Waiting.

Inductive Place := Fresh | InList (k : nat) | Taken (j : nat) | Waking (j : nat) | Awake.
#[export] Instance Place_eq_dec : EqDecision Place.
Proof. solve_decision. Defined.

Record ghost (PL : Type) := Ghost {
  place : nat -> Place;
  holder : option nat;
  glists : list (list nat);
  pl : nat -> PL
}.
Arguments Ghost {PL} place holder glists pl.
Arguments place {PL} g.
Arguments holder {PL} g.
Arguments glists {PL} g.
Arguments pl {PL} g.

Definition granted (x : Waiter) (p : Place) : bool :=
  walive x && match p with Taken _ | Waking _ | Awake => true | Fresh => wcalled x | InList _ => false end.

(** A parked party or a callback. *)
Definition is_callback (p : party) : bool := match p with PCallback _ => true | _ => false end.

Section inv.
Context {X Y PL : Type}.
(** The number of threads; the part of the primitive the lock protects; the
    primitive's invariant; when a thread owes nothing to the others. *)
Context (n : nat) (lockd : X -> Y).
Context (pinv : X -> list (list nat) -> option nat -> (nat -> PL) -> nat * nat -> Prop).
Context (calm : PL -> Prop).
Implicit Types (s : sworld X) (g : ghost PL).

(** Grants to waiters of list [t]; of lists 0 and 1. *)
Definition ngrt (t : nat) (c : heap) (pf : nat -> Place) : nat :=
  lsum (fun w => match c !! w with Some x => if granted x (pf w) && (wtag x =? t)%nat then 1 else 0 | None => 0 end)%nat
    (seq 0 (length c)).
Definition ngr (c : heap) (pf : nat -> Place) : nat * nat := (ngrt 0 c pf, ngrt 1 c pf).
Definition ngranted s g : nat * nat := ngr (scells s) (place g).

(** One more grant to a waiter of list [k]. *)
Definition bump (k : nat) (gr : nat * nat) : nat * nat :=
  (((if (k =? 0)%nat then 1 else 0) + gr.1)%nat, ((if (k =? 1)%nat then 1 else 0) + gr.2)%nat).

Definition place_ok (gl : list (list nat)) (w : nat) (x : Waiter) (p : Place) : Prop :=
  (wlinked x = true <-> exists k, p = InList k) /\
  (wsatisfied x = true <-> (exists j, p = Waking j) \/ p = Awake) /\
  (wcalled x = true -> is_callback (wparty x) = true /\ p = Fresh) /\
  (is_callback (wparty x) = true -> wsatisfied x = false) /\
  match p with
  | InList k => walive x = true /\ wtag x = k /\ exists ws, gl !! k = Some ws /\ w ∈ ws
  | Taken j => walive x = true /\ (j < n)%nat
  | Waking j => (j < n)%nat
  | _ => True
  end.

Record winv s g : Prop := {
  wi_lock : slocked s = bool_decide (holder g <> None);
  wi_holder : forall i, holder g = Some i -> (i < n)%nat;
  wi_len : length (glists g) = length (slists s);
  wi_list : forall k l ws, slists s !! k = Some l -> glists g !! k = Some ws -> is_list (scells s) l ws;
  wi_mem : forall k ws w, glists g !! k = Some ws -> w ∈ ws -> place g w = InList k;
  wi_place : forall w x, scells s !! w = Some x -> place_ok (glists g) w x (place g w);
  wi_none : forall w, (length (scells s) <= w)%nat -> place g w = Fresh;
  wi_owner : forall w x, scells s !! w = Some x -> (party_of (wparty x) < n)%nat;
  wi_prim : pinv (sprim s) (glists g) (holder g) (pl g) (ngranted s g)
}.

(** What thread [j] may do, as the others see it. *)
Record wguar (j : nat) (sg sg' : sworld X * ghost PL) : Prop := {
  wg_hold : forall i, i <> j -> holder sg.2 = Some i <-> holder sg'.2 = Some i;
  wg_held : forall i, i <> j -> holder sg.2 = Some i ->
    glists sg'.2 = glists sg.2 /\ lockd (sprim sg'.1) = lockd (sprim sg.1);
  wg_pl : forall i, i <> j -> pl sg'.2 i = pl sg.2 i;
  wg_hand : forall i w, i <> j -> (place sg.2 w = Taken i <-> place sg'.2 w = Taken i) /\
    (place sg.2 w = Waking i <-> place sg'.2 w = Waking i);
  wg_cell : forall w x, scells sg.1 !! w = Some x -> exists x', scells sg'.1 !! w = Some x' /\
    wparty x' = wparty x /\ wtag x' = wtag x /\
    (wsatisfied x = true -> wsatisfied x' = true) /\
    (forall i, i <> j -> place sg.2 w = Taken i -> wnext x' = wnext x) /\
    (party_of (wparty x) <> j ->
       walive x' = walive x /\
       (place sg.2 w = Fresh -> place sg'.2 w = Fresh /\ x' = x) /\
       (place sg.2 w <> Fresh -> place sg'.2 w = Fresh -> wcalled x' = true) /\
       (place sg.2 w <> Awake -> place sg'.2 w = Awake -> stokens sg'.1 (party_of (wparty x)) = true));
  wg_new : forall w x', scells sg.1 !! w = None -> scells sg'.1 !! w = Some x' -> party_of (wparty x') = j;
  wg_tok : forall i, i <> j -> stokens sg.1 i = true -> stokens sg'.1 i = true
}.

(** The thread's own waiter: not queued; in list [k] or on its way; on its way,
    and parked only while its wake-up is not there; satisfied; called or to be
    called. *)
Inductive stage := SFresh (x : Waiter) | SWait (p : party) (k : nat) | STok (p : party) (k : nat) | SSat (p : party) (k : nat)
| SCall (p : party) (k : nat).

Definition owns (i w : nat) (st : stage) s g : Prop :=
  exists x, scells s !! w = Some x /\ party_of (wparty x) = i /\ walive x = true /\
  match st with
  | SFresh x' => x = x' /\ place g w = Fresh
  | SWait p k => wparty x = p /\ is_callback p = false /\ place g w <> Fresh /\
      wtag x = k
  | STok p k => wparty x = p /\ is_callback p = false /\ place g w <> Fresh /\
      wtag x = k /\ (place g w = Awake -> stokens s i = true)
  | SSat p k => wparty x = p /\ wsatisfied x = true /\ wtag x = k
  | SCall p k => wparty x = p /\ is_callback p = true /\ (place g w <> Fresh \/ wcalled x = true) /\
      wtag x = k
  end.

(** What thread [i] knows: whether it holds the lock, and then the lists and
    what the lock protects; its waiter; the waiters it has taken and the one it
    is waking; its ghost value. *)
Record core (i : nat) (h : option (list (list nat) * Y)) (o : option (nat * stage)) (hand : list nat)
    (wk : option nat) (l : PL) s g : Prop := {
  at_hold : match h with
            | Some (gl, y) => holder g = Some i /\ glists g = gl /\ lockd (sprim s) = y
            | None => holder g <> Some i
            end;
  at_own : match o with Some (w, st) => owns i w st s g | None => True end;
  at_hand : forall w, place g w = Taken i <-> w ∈ hand;
  at_wk : forall w, place g w = Waking i <-> wk = Some w;
  at_pl : pl g i = l
}.

(** Its waiter is the only one of its waiters that exists. *)
Definition only (i : nat) (o : option (nat * stage)) (c : heap) : Prop :=
  forall w x, c !! w = Some x -> party_of (wparty x) = i -> walive x = true -> fst <$> o = Some w.

Record at_ i h o hand wk l s g : Prop := {
  at_core : core i h o hand wk l s g;
  at_only : only i o (scells s)
}.

(** Waiting for the lock, or for a waiter that has not been satisfied. *)
Definition wmay_wait (i : nat) s g : Prop :=
  (exists j, j <> i /\ holder g = Some j) \/
  (holder g <> Some i /\ calm (pl g i) /\ (forall w, place g w <> Taken i /\ place g w <> Waking i) /\
   exists w x, scells s !! w = Some x /\ party_of (wparty x) = i /\ walive x = true /\
     place g w <> Fresh /\ place g w <> Awake /\
     forall v y, scells s !! v = Some y -> party_of (wparty y) = i -> walive y = true -> v = w).

Definition wproto : protocol (sworld X) (ghost PL) := WaitProtocol winv wguar wmay_wait.

Lemma wguar_refl j x : wguar j x x.
Proof. split; try done; [intros w x' Hx; exists x'; splits; try done|intros w x' Hx; congruence]. Qed.

Lemma stable_wat i h o hand wk l : stable wproto i (at_ i h o hand wk l).
Proof.
  intros j s g s' g' Hj HI HI' [Gh Gd Gp Ga Gc Gn Gt] [[Hh Ho Hd Hw Hl] Hon]. simpl in *.
  assert (Hij : i <> j) by done. split; [split|].
  - destruct h as [[gl y]|].
    + destruct Hh as (H1 & H2 & H3). destruct (Gd i Hij H1) as [-> ->]. splits; try done. by apply (Gh i Hij).
    + by rewrite <- (Gh i Hij).
  - destruct o as [[w st]|]; [|done]. destruct Ho as (x & Hx & Hp & Ha & Hst).
    destruct (Gc w x Hx) as (x' & Hx' & Hp' & Htg & Hsat & _ & Hown). destruct Hown as (E1 & E3 & E4 & E5); [congruence|].
    assert (Hnf' : is_callback (wparty x) = false -> place g w <> Fresh -> place g' w <> Fresh).
    { intros Hnc Hnf Hf. specialize (E4 Hnf Hf).
      pose proof (wi_place _ _ HI' w x' Hx') as (_ & _ & Hcl & _). destruct (Hcl E4). congruence. }
    exists x'. splits; [done|congruence|congruence|]. destruct st as [x0|p k|p k|p k|p k].
    + destruct Hst as [-> Hf]. destruct (E3 Hf) as [? ->]. done.
    + destruct Hst as (Hpx & Hnc & Hnf & Hk). splits; [congruence|done|apply Hnf'; congruence|congruence].
    + destruct Hst as (Hpx & Hnc & Hnf & Hk & Htk). splits; [congruence|done|apply Hnf'; congruence|congruence|].
      intros Haw. destruct (decide (place g w = Awake)) as [Hpa|Hpa]; [by apply Gt; auto|].
      specialize (E5 Hpa Haw). by rewrite Hp in E5.
    + destruct Hst as (Hpx & Hs & Hk). splits; [congruence|auto|congruence].
    + destruct Hst as (Hpx & Hc & Hor & Hk). splits; [congruence|done| |congruence].
      destruct (decide (place g' w = Fresh)) as [Hf|]; [right|by left].
      destruct (decide (place g w = Fresh)) as [Hf'|]; [|by apply E4].
      destruct (E3 Hf') as [_ ->]. by destruct Hor.
  - intros w. destruct (Ga i w Hij) as [<- _]. done.
  - intros w. destruct (Ga i w Hij) as [_ <-]. done.
  - by rewrite (Gp i Hij).
  - intros w x' Hx' Hp Ha. destruct (scells s !! w) as [x|] eqn:Hx; [|by rewrite (Gn w x' Hx Hx') in Hp].
    destruct (Gc w x Hx) as (x1 & Hx1 & Hp1 & _ & _ & _ & Hown). assert (x1 = x') as -> by congruence.
    destruct Hown as [E1 _]; [congruence|]. apply (Hon w x Hx); congruence.
Qed.

Lemma only_links i o c c' : links_only c c' -> only i o c -> only i o c'.
Proof.
  intros HL Ho w x' Hx' Hp Ha. destruct (links_lookup _ _ _ _ HL Hx') as [x Hx].
  destruct (proj2 HL w x Hx) as (x1 & Hx1 & _ & E2 & _ & E4 & _ & _). assert (x1 = x') as -> by congruence.
  apply (Ho w x Hx); congruence.
Qed.

Lemma only_insert i o c w x x' :
  c !! w = Some x -> wparty x' = wparty x -> (walive x' = true -> walive x = true) -> only i o c -> only i o (<[w := x']> c).
Proof.
  intros Hx Hp Ha Ho v y Hy Hpy Hay. destruct (decide (v = w)) as [->|].
  - rewrite list_lookup_insert_eq in Hy by (by eapply lookup_lt_Some). injection Hy as <-. apply (Ho w x); [done|congruence|auto].
  - rewrite list_lookup_insert_ne in Hy by done. by eapply Ho.
Qed.

(** ** Counting grants *)

Lemma ngrt_change t c pf c' pf' w x x' :
  length c' = length c -> c !! w = Some x -> c' !! w = Some x' ->
  (forall v y y', v <> w -> c !! v = Some y -> c' !! v = Some y' -> granted y' (pf' v) = granted y (pf v) /\ wtag y' = wtag y) ->
  (ngrt t c' pf' + (if granted x (pf w) && (wtag x =? t)%nat then 1 else 0) =
   ngrt t c pf + (if granted x' (pf' w) && (wtag x' =? t)%nat then 1 else 0))%nat.
Proof.
  intros Hlen Hx Hx' Hsame. pose proof (lookup_lt_Some _ _ _ Hx) as Hw.
  set (f := fun v => match c !! v with Some x => if granted x (pf v) && (wtag x =? t)%nat then 1 else 0 | None => 0 end%nat).
  set (e := (if granted x' (pf' w) && (wtag x' =? t)%nat then 1 else 0)%nat).
  pose proof (lsum_threads (fun m : nat => m) f (length c) w e Hw) as H.
  assert (f w = if granted x (pf w) && (wtag x =? t)%nat then 1 else 0)%nat as Ef by (unfold f; by rewrite Hx). rewrite Ef in H.
  unfold ngrt. rewrite Hlen. rewrite (lsum_ext _ (fun j => <[w := e]> f j)); [exact H|].
  intros v [_ Hv]%elem_of_seq. simpl in Hv. destruct (decide (v = w)) as [->|Hvw].
  - by rewrite fn_lookup_insert, Hx'.
  - rewrite fn_lookup_insert_ne by done. unfold f. destruct (lookup_lt_is_Some_2 c v Hv) as [y Hy].
    destruct (lookup_lt_is_Some_2 c' v ltac:(lia)) as [y' Hy']. rewrite Hy, Hy'.
    destruct (Hsame v y y' Hvw Hy Hy') as [-> ->]. done.
Qed.

(** The waiter [w] changes, from [x] at [p] to [x'] at [p']. *)
Definition changes (c c' : heap) (pf pf' : nat -> Place) (w : nat) (x x' : Waiter) : Prop :=
  length c' = length c /\ c !! w = Some x /\ c' !! w = Some x' /\ wtag x' = wtag x /\
  forall v y y', v <> w -> c !! v = Some y -> c' !! v = Some y' -> granted y' (pf' v) = granted y (pf v) /\ wtag y' = wtag y.

Lemma changes_insert c pf w x x' p' :
  c !! w = Some x -> wtag x' = wtag x -> changes c (<[w := x']> c) pf (<[w := p']> pf) w x x'.
Proof.
  intros Hx Ht. unfold changes. splits; try done; [apply length_insert|apply list_lookup_insert_eq; by eapply lookup_lt_Some|].
  intros v y y' Hv Hy Hy'. rewrite list_lookup_insert_ne in Hy' by done. rewrite fn_lookup_insert_ne by done.
  simplify_eq. done.
Qed.

Lemma changes_links c c' pf w x x' p' :
  links_only c c' -> c !! w = Some x -> c' !! w = Some x' -> changes c c' pf (<[w := p']> pf) w x x'.
Proof.
  intros HL Hx Hx'. destruct (proj2 HL w x Hx) as (x1 & Hx1 & _ & _ & _ & _ & _ & E). unfold changes. splits; try done; [apply HL|congruence|].
  intros v y y' Hv Hy Hy'. rewrite fn_lookup_insert_ne by done.
  destruct (proj2 HL v y Hy) as (z & Hz & _ & _ & _ & F4 & F5 & F6). assert (z = y') as -> by congruence.
  unfold granted. by rewrite F4, F5, F6.
Qed.

Lemma ngr_same c c' pf pf' w x x' :
  changes c c' pf pf' w x x' -> granted x' (pf' w) = granted x (pf w) -> ngr c' pf' = ngr c pf.
Proof.
  intros (Hl & Hx & Hx' & Ht & Hs) Hg. unfold ngr.
  pose proof (ngrt_change 0 c pf c' pf' w x x' Hl Hx Hx' Hs). pose proof (ngrt_change 1 c pf c' pf' w x x' Hl Hx Hx' Hs).
  rewrite Hg, Ht in *. f_equal; lia.
Qed.

Lemma ngr_bump c c' pf pf' w x x' :
  changes c c' pf pf' w x x' -> granted x (pf w) = false -> granted x' (pf' w) = true -> ngr c' pf' = bump (wtag x) (ngr c pf).
Proof.
  intros (Hl & Hx & Hx' & Ht & Hs) Hg Hg'. unfold ngr, bump. simpl.
  pose proof (ngrt_change 0 c pf c' pf' w x x' Hl Hx Hx' Hs). pose proof (ngrt_change 1 c pf c' pf' w x x' Hl Hx Hx' Hs).
  rewrite Hg, Hg', Ht in *. simpl in *. f_equal; lia.
Qed.

Lemma ngr_drop c c' pf pf' w x x' :
  changes c c' pf pf' w x x' -> granted x (pf w) = true -> granted x' (pf' w) = false -> ngr c pf = bump (wtag x) (ngr c' pf').
Proof.
  intros (Hl & Hx & Hx' & Ht & Hs) Hg Hg'. unfold ngr, bump. simpl.
  pose proof (ngrt_change 0 c pf c' pf' w x x' Hl Hx Hx' Hs). pose proof (ngrt_change 1 c pf c' pf' w x x' Hl Hx Hx' Hs).
  rewrite Hg, Hg', Ht in *. simpl in *. f_equal; lia.
Qed.

Lemma ngr_new c pf x : granted x (pf (length c)) = false -> ngr (c ++ [x]) pf = ngr c pf.
Proof.
  intros Hg. assert (forall t, ngrt t (c ++ [x]) pf = ngrt t c pf) as E; [|unfold ngr; by rewrite !E].
  intros t. unfold ngrt. rewrite length_app, Nat.add_1_r, seq_S, lsum_app, lsum_cons, lsum_nil. simpl.
  rewrite lookup_app_r, Nat.sub_diag by lia. simpl. rewrite Hg. simpl.
  rewrite (lsum_ext _ (fun w => match c !! w with Some x => if granted x (pf w) && (wtag x =? t)%nat then 1 else 0 | None => 0 end)%nat); [lia|].
  intros v [_ Hv]%elem_of_seq. simpl in Hv. by rewrite lookup_app_l by lia.
Qed.

(** ** Steps that keep the invariant *)

(** One cell outside the lists changes. *)
Lemma winv_cell s g w x x' p' prim' tok' stop' pl' :
  winv s g -> scells s !! w = Some x -> wparty x' = wparty x -> wlinked x = false -> (forall k, p' <> InList k) ->
  place_ok (glists g) w x' p' ->
  pinv prim' (glists g) (holder g) pl' (ngr (<[w := x']> (scells s)) (<[w := p']> (place g))) ->
  winv (SW prim' (slocked s) (slists s) (<[w := x']> (scells s)) tok' stop')
       (Ghost (<[w := p']> (place g)) (holder g) (glists g) pl').
Proof.
  intros [HL HH Hlen Hlist Hmem Hpl Hno Hown Hpr] Hx Hpx Hlk Hp' Hok Hpinv.
  assert (Hout : forall k ws, glists g !! k = Some ws -> w ∉ ws).
  { intros k ws Hk Hw. pose proof (Hmem k ws w Hk Hw) as E. destruct (Hpl w x Hx) as [[_ H1] _].
    rewrite H1 in Hlk; [done|]. by exists k. }
  split; simpl; try done.
  - intros k l ws Hk Hg. eapply is_list_frame; [|by eapply Hlist]. intros v Hv.
    apply list_lookup_insert_ne. intros <-. by eapply Hout.
  - intros k ws v Hk Hv. rewrite fn_lookup_insert_ne; [by eapply Hmem|]. intros <-. by eapply Hout.
  - intros v y Hy. destruct (decide (v = w)) as [->|Hvw].
    + rewrite fn_lookup_insert. rewrite list_lookup_insert_eq in Hy by (by eapply lookup_lt_Some). by injection Hy as <-.
    + rewrite fn_lookup_insert_ne by done. rewrite list_lookup_insert_ne in Hy by done. by apply Hpl.
  - rewrite length_insert. intros v Hv. rewrite fn_lookup_insert_ne; [by apply Hno|].
    intros <-. apply lookup_lt_Some in Hx. lia.
  - intros v y Hy. destruct (decide (v = w)) as [->|Hvw].
    + rewrite list_lookup_insert_eq in Hy by (by eapply lookup_lt_Some). injection Hy as <-. rewrite Hpx. by eapply Hown.
    + rewrite list_lookup_insert_ne in Hy by done. by eapply Hown.
Qed.

(** Only the primitive, the ghost values, the tokens change. *)
Lemma winv_prim s g prim' tok' stop' pl' :
  winv s g -> pinv prim' (glists g) (holder g) pl' (ngranted s g) ->
  winv (SW prim' (slocked s) (slists s) (scells s) tok' stop') (Ghost (place g) (holder g) (glists g) pl').
Proof. intros [HL HH Hlen Hlist Hmem Hpl Hno Hown Hpr] Hp. by split. Qed.

(** The lists change: the waiter [w] enters or leaves list [k]. *)
Lemma winv_list s g k w x' ws ws' l' c' p' prim' pl' :
  winv s g -> glists g !! k = Some ws ->
  is_list c' l' ws' -> links_only (scells s) c' ->
  (forall v, v ∉ ws -> v <> w -> c' !! v = scells s !! v) ->
  (forall v y y', v <> w -> scells s !! v = Some y -> c' !! v = Some y' -> wlinked y' = wlinked y) ->
  (w ∈ ws \/ place g w = Fresh) ->
  (forall v, v <> w -> v ∈ ws <-> v ∈ ws') -> (w ∈ ws' <-> p' = InList k) -> (forall k', p' = InList k' -> k' = k) ->
  c' !! w = Some x' -> place_ok (<[k := ws']> (glists g)) w x' p' ->
  pinv prim' (<[k := ws']> (glists g)) (holder g) pl' (ngr c' (<[w := p']> (place g))) ->
  winv (SW prim' (slocked s) (<[k := l']> (slists s)) c' (stokens s) (sstopping s))
       (Ghost (<[w := p']> (place g)) (holder g) (<[k := ws']> (glists g)) pl').
Proof.
  intros [HL HH Hlen Hlist Hmem Hpl Hno Hown Hpr] Hk Hl' HLO Hframe Hlinked Hw Hin Hwin Hpk Hx' Hok Hpinv.
  assert (Hother : forall k' ws1 v, k' <> k -> glists g !! k' = Some ws1 -> v ∈ ws1 -> v <> w /\ v ∉ ws).
  { intros k' ws1 v Hk' Hg Hv. pose proof (Hmem k' ws1 v Hg Hv) as E. split.
    - intros ->. destruct Hw as [Hw|Hw]; [pose proof (Hmem k ws w Hk Hw); congruence|congruence].
    - intros Hv'. pose proof (Hmem k ws v Hk Hv'). congruence. }
  split; simpl; try done.
  - by rewrite !length_insert.
  - intros k' l ws1 Hl Hg. destruct (decide (k' = k)) as [->|Hkk].
    + rewrite list_lookup_insert_eq in Hg by (by eapply lookup_lt_Some). injection Hg as <-.
      rewrite list_lookup_insert_eq in Hl; [by injection Hl as <-|]. apply lookup_lt_Some in Hl. by rewrite length_insert in Hl.
    + rewrite list_lookup_insert_ne in Hg by done. rewrite list_lookup_insert_ne in Hl by done. eapply is_list_frame; [|by eapply Hlist].
      intros v Hv. destruct (Hother k' ws1 v Hkk Hg Hv). by apply Hframe.
  - intros k' ws1 v Hg Hv. destruct (decide (k' = k)) as [->|Hkk].
    + rewrite list_lookup_insert_eq in Hg by (by eapply lookup_lt_Some). injection Hg as <-.
      destruct (decide (v = w)) as [->|Hvw]; [rewrite fn_lookup_insert; by apply Hwin|].
      rewrite fn_lookup_insert_ne by done. eapply Hmem; [exact Hk|]. by apply Hin.
    + rewrite list_lookup_insert_ne in Hg by done. destruct (Hother k' ws1 v Hkk Hg Hv).
      rewrite fn_lookup_insert_ne by done. by eapply Hmem.
  - intros v y Hy. destruct (decide (v = w)) as [->|Hvw].
    + rewrite fn_lookup_insert. congruence.
    + rewrite fn_lookup_insert_ne by done. destruct (links_lookup _ _ _ _ HLO Hy) as [z Hz].
      destruct (proj2 HLO v z Hz) as (y' & Hy' & (E1 & E2 & E3 & E4 & E5 & E6)). assert (y' = y) as -> by congruence.
      destruct (Hpl v z Hz) as (P1 & P2 & P3 & P4 & P5). unfold place_ok.
      rewrite <- E1, <- E2, <- E5, (Hlinked v z y Hvw Hz Hy). splits; try done.
      destruct (place g v) as [|k'|j|j|]; rewrite <- ?E4; try done. destruct P5 as (P5 & P6 & (ws1 & Hg1 & Hv1)). split; [done|]. split; [congruence|].
      destruct (decide (k' = k)) as [->|Hkk].
      * exists ws'. rewrite list_lookup_insert_eq by (by eapply lookup_lt_Some). split; [done|]. apply Hin; [done|]. congruence.
      * exists ws1. by rewrite list_lookup_insert_ne.
  - intros v Hv. rewrite (proj1 HLO) in Hv. rewrite fn_lookup_insert_ne; [by apply Hno|].
    intros <-. apply lookup_lt_Some in Hx'. rewrite (proj1 HLO) in Hx'. lia.
  - intros v y Hy. destruct (links_lookup _ _ _ _ HLO Hy) as [z Hz].
    destruct (proj2 HLO v z Hz) as (y' & Hy' & (_ & E2 & _)). assert (y' = y) as -> by congruence. rewrite <- E2. by eapply Hown.
Qed.

Lemma winv_new s g p k :
  winv s g -> (party_of p < n)%nat ->
  winv (set_cells (scells s ++ [new_waiter p k]) s) g /\ place g (length (scells s)) = Fresh.
Proof.
  intros [HL HH Hlen Hlist Hmem Hpl Hno Hown Hpr] Hpn. split; [|by apply Hno]. split; simpl; try done.
  - intros k' l ws Hk Hg. eapply is_list_frame; [|by eapply Hlist]. intros v Hv.
    destruct (is_list_linked _ _ _ v (Hlist k' l ws Hk Hg) Hv) as (y & Hy & _).
    apply lookup_app_l. by eapply lookup_lt_Some.
  - intros v y [Hy|[Hv Hy]]%lookup_app_Some; [by apply Hpl|].
    destruct (v - length (scells s))%nat as [|m] eqn:Ev; [|by destruct m]. injection Hy as <-.
    rewrite Hno by done. unfold place_ok; simpl. splits; try done; split; try done; [by intros [k' Hk']|].
    by intros [[j Hj]|Hj].
  - rewrite length_app. simpl. intros v Hv. apply Hno. lia.
  - intros v y [Hy|[Hv Hy]]%lookup_app_Some; [by eapply Hown|].
    destruct (v - length (scells s))%nat as [|m] eqn:Ev; [|by destruct m]. by injection Hy as <-.
  - unfold ngranted. simpl. rewrite ngr_new; [done|]. rewrite Hno by done. done.
Qed.

Lemma winv_holder s g h pl' :
  winv s g -> (forall i, h = Some i -> (i < n)%nat) -> pinv (sprim s) (glists g) h pl' (ngranted s g) ->
  winv (set_locked (bool_decide (h <> None)) s) (Ghost (place g) h (glists g) pl').
Proof. intros [HL HH Hlen Hlist Hmem Hpl Hno Hown Hpr] Hh Hp. by split. Qed.
End inv.
