(* ===== verification/WaitingRules.v ===== *)
(** * Waiting: proof rules

    One rule per operation of Waiting.v, proved once and used by every
    primitive, and what a pool of threads that cannot move looks like. *)

From Stdlib Require Import ZArith Lia.
From stdpp Require Import base tactics list numbers option strings functions.
From S2P Require Import Prelude Conc Sums WaitList Waiting WaitingInv.

Section rules.
Context {X Y PL : Type} (n : nat) (lockd : X -> Y).
Context (pinv : X -> list (list nat) -> option nat -> (nat -> PL) -> nat * nat -> Prop) (calm : PL -> Prop).
Implicit Types (s : sworld X) (g : ghost PL).
Notation R := (wproto n lockd pinv calm).
Notation winv := (winv n pinv).
Notation at_ := (at_ lockd).
Notation core := (core lockd).
Notation wguar := (wguar lockd).

(** A primitive says nothing about who just took the lock. *)
Context (pinv_lock : forall x gl f gr i, (i < n)%nat -> pinv x gl None f gr -> pinv x gl (Some i) f gr).

Lemma at_stable i h o hand wk l : stable R i (at_ i h o hand wk l).
Proof. apply stable_wat. Qed.
Hint Resolve at_stable wguar_refl : core.

(** ** The guarantee of a step *)

(** Nothing but the lock, the primitive and wake-ups change. *)
Lemma wguar_quiet j s g prim' lk' tok' stop' h' pl' :
  (forall i, i <> j -> holder g = Some i <-> h' = Some i) ->
  (forall i, i <> j -> holder g = Some i -> lockd prim' = lockd (sprim s)) ->
  (forall i, i <> j -> pl' i = pl g i) -> (forall i, i <> j -> stokens s i = true -> tok' i = true) ->
  wguar j (s, g) (SW prim' lk' (slists s) (scells s) tok' stop', Ghost (place g) h' (glists g) pl').
Proof.
  intros Hh Hd Hp Ht. split; simpl; try done.
  - intros i Hi Hhold. split; [done|]. eauto.
  - intros w x Hx. exists x. splits; try done.
  - intros w x' Hx. congruence.
Qed.

(** The waiter [w] changes; others keep their places, and only the links of
    queued ones change. *)
Lemma wguar_waiter j s g w p' gl' s' pl' x x' :
  (glists g = gl' \/ holder g = Some j) ->
  (forall i, i <> j -> holder g = Some i -> lockd (sprim s') = lockd (sprim s)) ->
  (forall i, i <> j -> pl' i = pl g i) ->
  (forall i, i <> j -> stokens s i = true -> stokens s' i = true) ->
  (forall v y, v <> w -> scells s !! v = Some y -> exists y', scells s' !! v = Some y' /\ same_but_links y y' /\
     ((forall k, place g v <> InList k) -> y' = y)) ->
  length (scells s') = length (scells s) -> scells s !! w = Some x -> scells s' !! w = Some x' -> wparty x' = wparty x -> wtag x' = wtag x ->
  (wsatisfied x = true -> wsatisfied x' = true) ->
  (forall i, i <> j -> (place g w = Taken i <-> p' = Taken i) /\ (place g w = Waking i <-> p' = Waking i)) ->
  (forall i, i <> j -> place g w = Taken i -> wnext x' = wnext x) ->
  (party_of (wparty x) <> j -> walive x' = walive x /\ place g w <> Fresh /\ (forall k, p' <> InList k) /\
     (p' = Fresh -> wcalled x' = true) /\ (p' = Awake -> stokens s' (party_of (wparty x)) = true)) ->
  wguar j (s, g) (s', Ghost (<[w := p']> (place g)) (holder g) gl' pl').
Proof.
  intros Hgl Hd Hp Ht Hv Hlen Hx Hx' Hpx Htg Hsat Hpl Hnx Hown. split; simpl; try done.
  - intros i Hi Hh. destruct Hgl as [<-|Hgl]; [|congruence]. split; [done|]. eauto.
  - intros i v Hi. destruct (decide (v = w)) as [->|Hvw]; [rewrite fn_lookup_insert; by apply Hpl|].
    by rewrite fn_lookup_insert_ne.
  - intros v y Hy. destruct (decide (v = w)) as [->|Hvw].
    + simplify_eq. exists x'. rewrite fn_lookup_insert. splits; try done. intros Hj.
      destruct (Hown Hj) as (? & ? & ? & ? & ?). splits; try done.
    + destruct (Hv v y Hvw Hy) as (y' & Hy' & (E1 & E2 & E3 & E4 & E5 & E6) & Heq). exists y'. rewrite fn_lookup_insert_ne by done.
      splits; try done; [congruence| |].
      * intros i Hi Hti. rewrite Heq; [done|]. intros k. congruence.
      * intros Hj. splits; try done. intros Hf. split; [done|]. apply Heq. intros k. congruence.
  - intros v y Hn Hy. apply lookup_ge_None in Hn. apply lookup_lt_Some in Hy. lia.
Qed.

(** ** The lock *)

Lemma rg_lock {A} i o hand wk l (k : unit -> prog (sworld X) A) Q :
  (i < n)%nat -> (forall gl y, rg R i (k tt) (at_ i (Some (gl, y)) o hand wk l) Q) ->
  rg R i (bind spinLock k) (at_ i None o hand wk l) Q.
Proof.
  intros Hi Hk. split.
  - intros s g HI [[Hh _ _ _ _] _]. destruct (slocked s) eqn:E; [|done]. intros _. left.
    pose proof (wi_lock _ _ _ _ HI) as HL. rewrite E in HL. symmetry in HL. apply bool_decide_eq_true in HL.
    destruct (holder g) as [j|]; [|done]. exists j. split; [|done]. intros ->. by apply Hh.
  - intros s g s' [] HI Hat Hx. pose proof (wi_lock _ _ _ _ HI) as HL. destruct (slocked s) eqn:E; [by apply elem_of_nil in Hx|].
    apply list_elem_of_singleton in Hx. injection Hx as ->. symmetry in HL. apply bool_decide_eq_false in HL.
    apply dec_stable in HL.
    exists (Ghost (place g) (Some i) (glists g) (pl g)), (at_ i (Some (glists g, lockd (sprim s))) o hand wk l). splits.
    + apply (winv_holder n pinv s g (Some i)); [done|by intros ? [= <-]|]. apply pinv_lock; [done|].
      rewrite <- HL. apply HI.
    + apply (wguar_quiet i s g (sprim s) true (stokens s) (sstopping s)); try done.
      intros j Hj. rewrite HL. split; congruence.
    + destruct Hat as [[Hh Ho Hd Hw Hl] Hon]. by split.
    + done.
    + apply Hk.
Qed.

Lemma rg_unlock {A} i gl y o hand wk l l' (k : unit -> prog (sworld X) A) Q :
  (forall x f gr, f i = l -> lockd x = y -> pinv x gl (Some i) f gr -> pinv x gl None (<[i := l']> f) gr) ->
  rg R i (k tt) (at_ i None o hand wk l') Q ->
  rg R i (bind spinUnlock k) (at_ i (Some (gl, y)) o hand wk l) Q.
Proof.
  intros Hp Hk. apply rg_store. intros s g HI [[(Hh & Hgl & Hy) Ho Hd Hw Hl] Hon].
  exists (Ghost (place g) None (glists g) (<[i := l']> (pl g))), (at_ i None o hand wk l'). splits; [| | |done|done].
  - apply (winv_holder n pinv s g None); [done|done|]. rewrite Hgl. apply Hp; [done..|].
    rewrite <- Hgl, <- Hh. apply HI.
  - apply (wguar_quiet i s g (sprim s) false (stokens s) (sstopping s)); try done.
    + intros j Hj. rewrite Hh. split; congruence.
    + intros j Hj. by rewrite fn_lookup_insert_ne.
  - split; [|done]. split; simpl; try done. by rewrite fn_lookup_insert.
Qed.

(** ** The primitive's own state *)

(** The thread also knows [C] of the waiters. *)
Definition at_with (C : heap -> Prop) i h o hand wk l : asrt (sworld X) (ghost PL) :=
  fun s g => at_ i h o hand wk l s g /\ C (scells s).

Lemma rg_prim_with {A B} C i h o hand wk l (f : X -> list (X * B)) (k : B -> prog (sworld X) A) Q :
  (forall h l, stable R i (at_with C i h o hand wk l)) ->
  (forall x, f x <> []) ->
  (forall x gl hd pf gr x' z, (x', z) ∈ f x -> pf i = l -> pinv x gl hd pf gr ->
     match h with Some (gl0, y) => hd = Some i /\ gl = gl0 /\ lockd x = y | None => hd <> Some i end ->
     exists l' h', pinv x' gl hd (<[i := l']> pf) gr /\
       match h, h' with
       | None, None => lockd x' = lockd x
       | Some (gl0, _), Some (gl1, y') => gl1 = gl0 /\ lockd x' = y'
       | _, _ => False
       end /\
       rg R i (k z) (at_with C i h' o hand wk l') Q) ->
  rg R i (bind (prim f) k) (at_with C i h o hand wk l) Q.
Proof.
  intros HS Hne Hk. split.
  - intros s g HI _ Hnil. destruct (f (sprim s)) eqn:E; [|done]. by destruct (Hne (sprim s)).
  - intros s g s' z HI [Hat HC] Hx. apply list_elem_of_fmap in Hx as ([x' z'] & [= -> ->] & Hin).
    destruct Hat as [[Hh Ho Hd Hw Hl] Hon].
    destruct (Hk (sprim s) (glists g) (holder g) (pl g) (ngranted s g) x' z' Hin Hl (wi_prim _ _ _ _ HI)) as (l' & h' & Hp & Hh' & Hrg).
    { destruct h as [[gl y]|]; [|done]. by destruct Hh as (? & ? & ?). }
    exists (Ghost (place g) (holder g) (glists g) (<[i := l']> (pl g))), (at_with C i h' o hand wk l'). splits; [| | |done|done].
    + by apply (winv_prim n pinv s g x' (stokens s) (sstopping s)).
    + apply (wguar_quiet i s g x' (slocked s) (stokens s) (sstopping s)); try done.
      * intros j Hj Hj'. destruct h as [[gl y]|], h' as [[gl' y']|]; try done. destruct Hh. congruence.
      * intros j Hj. by rewrite fn_lookup_insert_ne.
    + split; [|done]. split; [|done]. split; simpl; try done; [|by rewrite fn_lookup_insert].
      destruct h as [[gl y]|], h' as [[gl' y']|]; try done. destruct Hh as (? & ? & ?), Hh' as [-> ?]. done.
Qed.

Lemma rg_prim {A B} i h o hand wk l (f : X -> list (X * B)) (k : B -> prog (sworld X) A) Q :
  (forall x, f x <> []) ->
  (forall x gl hd pf gr x' z, (x', z) ∈ f x -> pf i = l -> pinv x gl hd pf gr ->
     match h with Some (gl0, y) => hd = Some i /\ gl = gl0 /\ lockd x = y | None => hd <> Some i end ->
     exists l' h', pinv x' gl hd (<[i := l']> pf) gr /\
       match h, h' with
       | None, None => lockd x' = lockd x
       | Some (gl0, _), Some (gl1, y') => gl1 = gl0 /\ lockd x' = y'
       | _, _ => False
       end /\
       rg R i (k z) (at_ i h' o hand wk l') Q) ->
  rg R i (bind (prim f) k) (at_ i h o hand wk l) Q.
Proof.
  intros Hne Hk. eapply rg_pre; [|apply (rg_prim_with (fun _ => True) i h o hand wk l f k Q)]; [by split| |done|].
  - intros h' l'. apply stable_and; [done|]. apply (stable_const R i True).
  - intros x gl hd pf gr x' z Hin Hl Hp Hh. destruct (Hk x gl hd pf gr x' z Hin Hl Hp Hh) as (l' & h' & ? & ? & Hrg).
    exists l', h'. splits; try done. eapply rg_pre; [|exact Hrg]. by intros s g HI [? _].
Qed.

(** ** The thread's own waiter *)

Lemma alive_at_Some c w x : c !! w = Some x -> alive_at c (Some w) = walive x.
Proof. intros Hx. simpl. by rewrite Hx. Qed.

Lemma rg_new {A} i h hand wk l p t (k : nat -> prog (sworld X) A) Q :
  (i < n)%nat -> party_of p = i ->
  (forall w, rg R i (k w) (at_ i h (Some (w, SFresh (new_waiter p t))) hand wk l) Q) ->
  rg R i (bind (newWaiter p t) k) (at_ i h None hand wk l) Q.
Proof.
  intros Hi Hp Hk. apply rg_rmw. intros s g HI [[Hh _ Hd Hw Hl] Hon]. simpl.
  destruct (winv_new n pinv s g p t HI) as [HI' Hf]; [congruence|].
  exists g, (at_ i h (Some (length (scells s), SFresh (new_waiter p t))) hand wk l). splits; [done| | |done|apply Hk].
  - split; simpl; try done.
    + intros w x Hx. exists x. rewrite lookup_app_l by (by eapply lookup_lt_Some). splits; try done.
    + intros w x Hx. apply lookup_ge_None in Hx. rewrite lookup_app_r by done.
      destruct (w - length (scells s))%nat as [|m]; [by intros [= <-]|by destruct m].
  - split.
    + split; try done. exists (new_waiter p t). simpl. by rewrite lookup_app_r, Nat.sub_diag by lia.
    + simpl. intros w x [Hx|[Hw' Hx]]%lookup_app_Some Hpx Hax; [by specialize (Hon w x Hx Hpx Hax)|].
      destruct (w - length (scells s))%nat as [|m] eqn:Ew; [|by destruct m]. simpl. f_equal. lia.
Qed.

(** A step on the thread's own cell, which is in no list. *)
Lemma own_cell_step i h o' hand wk l w x x' p' l' s g :
  winv s g -> core i h None hand wk l s g -> scells s !! w = Some x -> party_of (wparty x) = i -> wparty x' = wparty x -> wtag x' = wtag x ->
  wlinked x = false -> (forall k, p' <> InList k) -> place_ok n (glists g) w x' p' ->
  (wsatisfied x = true -> wsatisfied x' = true) ->
  (forall j, (place g w = Taken j <-> p' = Taken j) /\ (place g w = Waking j <-> p' = Waking j)) ->
  (forall j, j <> i -> place g w = Taken j -> wnext x' = wnext x) ->
  pinv (sprim s) (glists g) (holder g) (<[i := l']> (pl g)) (ngr (<[w := x']> (scells s)) (<[w := p']> (place g))) ->
  match o' with Some (v, st) => owns i v st (set_cells (<[w := x']> (scells s)) s)
     (Ghost (<[w := p']> (place g)) (holder g) (glists g) (<[i := l']> (pl g))) | None => True end ->
  exists g', winv (set_cells (<[w := x']> (scells s)) s) g' /\
    wguar i (s, g) (set_cells (<[w := x']> (scells s)) s, g') /\
    core i h o' hand wk l' (set_cells (<[w := x']> (scells s)) s) g'.
Proof.
  intros HI [Hh _ Hd Hw Hl] Hx Hpi Hpx Htg Hlk Hp' Hok Hsat Hpl Hnx Hpinv Ho'.
  exists (Ghost (<[w := p']> (place g)) (holder g) (glists g) (<[i := l']> (pl g))). splits.
  - by eapply (winv_cell n pinv s g w x x' p' (sprim s) (stokens s) (sstopping s)).
  - eapply (wguar_waiter i s g w p' (glists g) _ _ x x'); simpl; try done.
    + by left.
    + intros j Hj. by rewrite fn_lookup_insert_ne.
    + intros v y Hv Hy. exists y. by rewrite list_lookup_insert_ne.
    + apply length_insert.
    + apply list_lookup_insert_eq. by eapply lookup_lt_Some.
  - split; simpl; try done.
    + intros v. destruct (decide (v = w)) as [->|Hvw]; [rewrite fn_lookup_insert; rewrite <- Hd; symmetry; apply Hpl|].
      rewrite fn_lookup_insert_ne by done. apply Hd.
    + intros v. destruct (decide (v = w)) as [->|Hvw]; [rewrite fn_lookup_insert; rewrite <- Hw; symmetry; apply Hpl|].
      rewrite fn_lookup_insert_ne by done. apply Hw.
    + by rewrite fn_lookup_insert.
Qed.

Lemma at_drop_own i h o hand wk l s g : at_ i h o hand wk l s g -> core i h None hand wk l s g.
Proof. intros [[Hh Ho Hd Hw Hl] _]. by split. Qed.

(** [wset] on a live cell. *)
Lemma rg_wset {A} i w f (k : unit -> prog (sworld X) A) P Q :
  (forall s g, winv s g -> P s g -> exists x g' (P' : asrt (sworld X) (ghost PL)),
     scells s !! w = Some x /\ walive x = true /\ winv (set_cells (<[w := f x]> (scells s)) s) g' /\
     wguar i (s, g) (set_cells (<[w := f x]> (scells s)) s, g') /\ P' (set_cells (<[w := f x]> (scells s)) s) g' /\
     stable R i P' /\ rg R i (k tt) P' Q) ->
  rg R i (bind (wset w f) k) P Q.
Proof.
  intros Hk. split.
  - intros s g HI HP. destruct (alive_at (scells s) (Some w)); done.
  - intros s g s' b HI HP Hin. destruct (Hk s g HI HP) as (x & g' & P' & Hx & Ha & HI' & HG & HP' & HS & Hrg).
    rewrite (alive_at_Some _ _ _ Hx), Ha in Hin. apply list_elem_of_singleton in Hin. injection Hin as -> ->.
    exists g', P'. rewrite (list_alter_insert _ _ _ x) by done. done.
Qed.

Lemma rg_wget {A B} i w (f : Waiter -> B) (k : B -> prog (sworld X) A) P Q :
  (forall s g, winv s g -> P s g -> exists x (P' : asrt (sworld X) (ghost PL)),
     scells s !! w = Some x /\ walive x = true /\ P' s g /\ stable R i P' /\ rg R i (k (f x)) P' Q) ->
  rg R i (bind (wget w f) k) P Q.
Proof.
  intros Hk. split.
  - intros s g HI HP. destruct (Hk s g HI HP) as (x & P' & Hx & Ha & _). by rewrite Hx, Ha.
  - intros s g s' o HI HP Hin. destruct (Hk s g HI HP) as (x & P' & Hx & Ha & HP' & HS & Hrg).
    rewrite Hx, Ha in Hin. apply list_elem_of_singleton in Hin. injection Hin as -> ->.
    exists g, P'. splits; try done. apply wguar_refl.
Qed.

(** ** Lists, under the lock *)

Lemma list_at_lookup s g k ws :
  winv s g -> glists g !! k = Some ws -> slists s !! k = Some (list_at k s) /\ is_list (scells s) (list_at k s) ws.
Proof.
  intros HI Hk. unfold list_at. destruct (lookup_lt_is_Some_2 (slists s) k) as [wl Hwl].
  { rewrite <- (wi_len _ _ _ _ HI). by eapply lookup_lt_Some. }
  rewrite Hwl. split; [done|]. by eapply (wi_list _ _ _ _ HI).
Qed.

Lemma queued_alive s g k ws w :
  winv s g -> glists g !! k = Some ws -> w ∈ ws -> alive_at (scells s) (Some w) = true.
Proof.
  intros HI Hk Hw. destruct (list_at_lookup s g k ws HI Hk) as [_ Hl].
  destruct (is_list_linked _ _ _ w Hl Hw) as (x & Hx & _). rewrite (alive_at_Some _ _ _ Hx).
  destruct (wi_place _ _ _ _ HI w x Hx) as (_ & _ & _ & _ & Hp). rewrite (wi_mem _ _ _ _ HI k ws w Hk Hw) in Hp. apply Hp.
Qed.

Lemma queued_touched s g k ws w :
  winv s g -> glists g !! k = Some ws -> w ∈ ws -> touched (scells s) w = true.
Proof.
  intros HI Hk Hw. pose proof (queued_alive s g k ws w HI Hk Hw) as Ha.
  destruct (list_at_lookup s g k ws HI Hk) as [_ Hl].
  apply list_elem_of_lookup in Hw as [j Hj]. destruct (il_cell _ _ _ Hl j w Hj) as (x & Hx & _ & Hn & Hp).
  rewrite (alive_at_Some _ _ _ Hx) in Ha. unfold touched. rewrite Hx, Ha, Hn, Hp. simpl.
  assert (forall j', alive_at (scells s) (ws !! j') = true) as Hat.
  { intros j'. destruct (ws !! j') as [v|] eqn:Ev; [|done]. eapply queued_alive; [done..|]. by eapply list_elem_of_lookup_2. }
  rewrite Hat. destruct j; [done|]. by rewrite Hat.
Qed.

Lemma queue_step_frame s g k ws c' :
  winv s g -> glists g !! k = Some ws -> links_only (scells s) c' ->
  forall w, (forall v, v ∉ ws -> v <> w -> c' !! v = scells s !! v) ->
  forall v y, v <> w -> scells s !! v = Some y -> exists y', c' !! v = Some y' /\ same_but_links y y' /\
     ((forall k, place g v <> InList k) -> y' = y).
Proof.
  intros HI Hk HL w Hf v y Hv Hy. destruct (proj2 HL v y Hy) as (y' & Hy' & Hs). exists y'. splits; try done.
  intros Hni. rewrite Hf in Hy'; [congruence| |done]. intros Hin. by destruct (Hni k); eapply (wi_mem _ _ _ _ HI).
Qed.

(** The stage of a waiter that has just been queued. *)
Definition queued_stage (p : party) (k : nat) : stage := if is_callback p then SCall p k else SWait p k.

Lemma rg_pushBack {A} i gl y w x hand wk l l' k ws (q : unit -> prog (sworld X) A) Q :
  gl !! k = Some ws -> wcalled x = false -> wtag x = k ->
  (forall z f gr, f i = l -> lockd z = y -> pinv z gl (Some i) f gr ->
     pinv z (<[k := ws ++ [w]]> gl) (Some i) (<[i := l']> f) gr) ->
  rg R i (q tt) (at_ i (Some (<[k := ws ++ [w]]> gl, y)) (Some (w, queued_stage (wparty x) k)) hand wk l') Q ->
  rg R i (bind (pushBack k w) q) (at_ i (Some (gl, y)) (Some (w, SFresh x)) hand wk l) Q.
Proof.
  intros Hk Hnc Htg Hpinv Hq.
  assert (Hmain : forall s g, winv s g -> at_ i (Some (gl, y)) (Some (w, SFresh x)) hand wk l s g ->
    alive_at (scells s) (Some w) && alive_at (scells s) (wtail (list_at k s)) = true /\
    exists g', winv (let '(c, wl) := wl_pushBack (scells s) (list_at k s) w in set_lists (<[k := wl]> (slists s)) c s) g' /\
      wguar i (s, g) (let '(c, wl) := wl_pushBack (scells s) (list_at k s) w in set_lists (<[k := wl]> (slists s)) c s, g') /\
      at_ i (Some (<[k := ws ++ [w]]> gl, y)) (Some (w, queued_stage (wparty x) k)) hand wk l'
        (let '(c, wl) := wl_pushBack (scells s) (list_at k s) w in set_lists (<[k := wl]> (slists s)) c s) g').
  { intros s g HI [[(Hh & <- & Hy) (x0 & Hx & Hpi & Ha & -> & Hf) Hd Hw Hl] Hon].
    destruct (list_at_lookup s g k ws HI Hk) as [Hsl Hlist].
    assert (w ∉ ws) as Hni by (intros Hin; pose proof (wi_mem _ _ _ _ HI k ws w Hk Hin); congruence).
    split.
    { rewrite (alive_at_Some _ _ _ Hx), Ha, (il_tail _ _ _ Hlist). simpl.
      destruct (list.last ws) as [t|] eqn:Et; [|done]. eapply queued_alive; [done..|].
      apply last_Some in Et as (ws1 & ->). apply elem_of_app. right. by left. }
    destruct (wl_pushBack (scells s) (list_at k s) w) as [c' wl'] eqn:E.
    destruct (pushBack_list _ _ _ _ _ _ _ Hlist Hx Hni E) as (Hl' & HL & Hframe & Hlinked).
    destruct (is_list_linked _ _ _ w Hl') as (x' & Hx' & Hlk'); [apply elem_of_app; right; by left|].
    destruct (proj2 HL w x Hx) as (x'' & Hx'' & E1 & E2 & E3 & E4 & E5 & E6). assert (x'' = x') as -> by congruence.
    destruct (wi_place _ _ _ _ HI w x Hx) as (P1 & P2 & P3 & P4 & P5). rewrite Hf in P1, P2.
    assert (Hns : wsatisfied x' = false).
    { rewrite <- E1. destruct (wsatisfied x); [|done]. destruct (proj1 P2 eq_refl) as [[j Hj]|Hj]; done. }
    exists (Ghost (<[w := InList k]> (place g)) (holder g) (<[k := ws ++ [w]]> (glists g)) (<[i := l']> (pl g))). splits.
    - eapply (winv_list n pinv s g k w x' ws); try done.
      + by right.
      + intros v Hv. rewrite elem_of_app, list_elem_of_singleton. naive_solver.
      + rewrite elem_of_app, list_elem_of_singleton. naive_solver.
      + naive_solver.
      + unfold place_ok. rewrite Hlk', Hns, <- E2, <- E5, Hnc, <- E4, Ha. split; [split; [eauto|done]|].
        split; [split; [done|by intros [[j Hj]|Hj]]|]. do 3 (split; [done|]). split; [congruence|].
        exists (ws ++ [w]). split; [apply list_lookup_insert_eq; by eapply lookup_lt_Some|].
        apply elem_of_app. right. by left.
      + rewrite Hh. pose proof (Hpinv (sprim s) (pl g) (ngranted s g) Hl Hy) as Hp. rewrite <- Hh in Hp at 1.
        specialize (Hp (wi_prim _ _ _ _ HI)).
        assert (ngr c' (<[w := InList k]> (place g)) = ngranted s g) as ->; [|done].
        eapply ngr_same; [by eapply changes_links|]. unfold granted. by rewrite Hf, Hnc, fn_lookup_insert, !andb_false_r.
    - eapply (wguar_waiter i s g w (InList k) _ _ _ x x'); simpl; try done.
      + by right.
      + intros j Hj. by rewrite fn_lookup_insert_ne.
      + by eapply queue_step_frame.
      + apply HL.
      + intros Ht. rewrite <- E1, Ht. done.
      + intros j Hj. rewrite Hf. done.
      + intros j Hj. congruence.
    - split; [|simpl; eapply (only_links i _ _ _ HL); exact Hon]. split; simpl; try done; [| | |by rewrite fn_lookup_insert].
      + exists x'. unfold owns. splits; [done|congruence|congruence|]. unfold queued_stage. cbn [place stokens]. rewrite fn_lookup_insert.
        destruct (is_callback (wparty x)) eqn:Ec; splits; try done; try congruence; try by left.
      + intros v. destruct (decide (v = w)) as [->|Hvw]; [rewrite fn_lookup_insert, <- Hd, Hf; done|].
        rewrite fn_lookup_insert_ne by done. apply Hd.
      + intros v. destruct (decide (v = w)) as [->|Hvw]; [rewrite fn_lookup_insert, <- Hw, Hf; done|].
        rewrite fn_lookup_insert_ne by done. apply Hw. }
  split.
  - intros s g HI Hat. destruct (Hmain s g HI Hat) as [-> _]. by destruct (wl_pushBack _ _ _).
  - intros s g s' b HI Hat Hin. destruct (Hmain s g HI Hat) as [Hal (g' & HI' & HG & Hat')]. rewrite Hal in Hin.
    destruct (wl_pushBack (scells s) (list_at k s) w) as [c wl]. apply list_elem_of_singleton in Hin. injection Hin as -> ->.
    exists g'. eexists. splits; [exact HI'|exact HG|exact Hat'|done|exact Hq].
Qed.

(** The thread may have a waiter of its own meanwhile, not queued: what it
    knows of it is kept by steps on the others. *)
Definition ofresh (o : option (nat * Waiter)) : option (nat * stage) := (fun wx => (wx.1, SFresh wx.2)) <$> o.

Lemma ofresh_frame i o w p' s g s' h' gl' (pl' : nat -> PL) :
  (match ofresh o with Some (v, st) => owns i v st s g | None => True end) -> place g w <> Fresh ->
  (forall v, v <> w -> place g v = Fresh -> scells s' !! v = scells s !! v) ->
  match ofresh o with Some (v, st) => owns i v st s' (@Ghost PL (<[w := p']> (place g)) h' gl' pl') | None => True end.
Proof.
  destruct o as [[v x]|]; [|done]. simpl. intros (x0 & Hx & Hp & Ha & -> & Hf) Hw Hc. exists x.
  assert (v <> w) by congruence. simpl. rewrite fn_lookup_insert_ne by done. rewrite Hc by done. by splits.
Qed.

(** A waiter leaves a list: to the thread that takes it, or back to its owner. *)
Lemma unlink_step i gl y o hand hand' wk l l' k ws idx w p' s g :
  (i < n)%nat -> winv s g -> core i (Some (gl, y)) (ofresh o) hand wk l s g -> gl !! k = Some ws -> ws !! idx = Some w ->
  (p' = Taken i \/ p' = Fresh /\ exists x, scells s !! w = Some x /\ party_of (wparty x) = i) ->
  (forall v, v ∈ hand' <-> v ∈ hand \/ v = w /\ p' = Taken i) ->
  (forall z f gr, f i = l -> lockd z = y -> pinv z gl (Some i) f gr ->
     pinv z (<[k := delete idx ws]> gl) (Some i) (<[i := l']> f) (if decide (p' = Taken i) then bump k gr else gr)) ->
  exists x x' c' wl', scells s !! w = Some x /\ wl_unlink (scells s) (list_at k s) w = (c', wl') /\ c' !! w = Some x' /\
    walive x = true /\ wtag x = k /\ same_but_links x x' /\ wlinked x' = false /\ wnext x' = None /\ wcalled x' = false /\ wsatisfied x' = false /\
    (forall v, v ∉ ws -> c' !! v = scells s !! v) /\ links_only (scells s) c' /\
    exists g', winv (set_lists (<[k := wl']> (slists s)) c' s) g' /\
      wguar i (s, g) (set_lists (<[k := wl']> (slists s)) c' s, g') /\
      core i (Some (<[k := delete idx ws]> gl, y)) (ofresh o) hand' wk l' (set_lists (<[k := wl']> (slists s)) c' s) g' /\
      place g' w = p'.
Proof.
  intros Hi HI [(Hh & <- & Hy) Hown Hd Hw Hl] Hk Hidx Hp' Hhand Hpinv.
  destruct (list_at_lookup s g k ws HI Hk) as [Hsl Hlist].
  assert (Hin : w ∈ ws) by (by eapply list_elem_of_lookup_2).
  pose proof (wi_mem _ _ _ _ HI k ws w Hk Hin) as Hpw.
  destruct (is_list_linked _ _ _ w Hlist Hin) as (x & Hx & Hlk).
  destruct (wl_unlink (scells s) (list_at k s) w) as [c' wl'] eqn:E.
  destruct (unlink_list _ _ _ _ _ _ _ Hlist Hidx E) as (Hl' & HL & Hframe & (x' & Hx' & Hlk' & Hnx') & Hlinked).
  destruct (proj2 HL w x Hx) as (x'' & Hx'' & Hsbl). assert (x'' = x') as -> by congruence.
  pose proof Hsbl as (E1 & E2 & E3 & E4 & E5 & E6).
  destruct (wi_place _ _ _ _ HI w x Hx) as (P1 & P2 & P3 & P4 & P5). rewrite Hpw in P1, P2, P3, P5.
  destruct P5 as (Ha & Htg & _).
  assert (Hns : wsatisfied x' = false).
  { rewrite <- E1. destruct (wsatisfied x); [|done]. destruct (proj1 P2 eq_refl) as [[j Hj]|Hj]; done. }
  assert (Hnc : wcalled x' = false) by (rewrite <- E5; destruct (wcalled x); [by destruct (P3 eq_refl)|done]).
  exists x, x', c', wl'. splits; try done.
  exists (Ghost (<[w := p']> (place g)) (holder g) (<[k := delete idx ws]> (glists g)) (<[i := l']> (pl g))).
  assert (Hnl : forall k', p' <> InList k') by (destruct Hp' as [->|[-> _]]; done).
  assert (Hdel : forall v, v <> w -> v ∈ ws <-> v ∈ delete idx ws).
  { intros v Hv. rewrite <- (remove_delete idx w ws) by (by try apply (il_nodup _ _ _ Hlist)). rewrite elem_of_remove. naive_solver. }
  assert (Hwdel : w ∉ delete idx ws).
  { rewrite <- (remove_delete idx w ws) by (by try apply (il_nodup _ _ _ Hlist)). rewrite elem_of_remove. naive_solver. }
  splits.
  - eapply (winv_list n pinv s g k w x' ws); try done.
    + intros v Hv _. by apply Hframe.
    + by left.
    + split; [done|]. intros Hp. by destruct (Hnl k).
    + intros k' Hp. by destruct (Hnl k').
    + unfold place_ok. rewrite Hlk', Hns, Hnc, <- E2. split; [split; [done|]|].
      { intros [k' Hk']. by destruct (Hnl k'). }
      split; [split; [done|]|].
      { intros [[j Hj]|Hj]; destruct Hp' as [->|[-> _]]; done. }
      split; [done|]. split; [done|]. rewrite <- E4, Ha. destruct Hp' as [->|[-> _]]; done.
    + rewrite Hh. pose proof (Hpinv (sprim s) (pl g) (ngranted s g) Hl Hy) as Hp. rewrite <- Hh in Hp at 1.
      specialize (Hp (wi_prim _ _ _ _ HI)).
      assert (ngr c' (<[w := p']> (place g)) = if decide (p' = Taken i) then bump k (ngranted s g) else ngranted s g) as ->; [|done].
      assert (Hch : changes (scells s) c' (place g) (<[w := p']> (place g)) w x x') by (by eapply changes_links).
      destruct Hp' as [->|[-> _]]; [rewrite decide_True, <- Htg by done; eapply ngr_bump|rewrite decide_False by done; eapply ngr_same];
        try exact Hch; unfold granted; rewrite ?fn_lookup_insert, ?Hpw, ?Hnc, <- ?E4, Ha; done.
  - eapply (wguar_waiter i s g w p' _ _ _ x x'); simpl; try done.
    + by right.
    + intros j Hj. by rewrite fn_lookup_insert_ne.
    + eapply queue_step_frame; [done..|]. intros v Hv _. by apply Hframe.
    + apply HL.
    + intros Ht. rewrite <- E1, Ht. done.
    + intros j Hj. rewrite Hpw. destruct Hp' as [->|[-> _]]; split; split; try done; congruence.
    + intros j Hj. congruence.
    + intros Hpj. splits; try done; [congruence| |].
      * intros ->. destruct Hp' as [?|[_ (x0 & ? & ?)]]; [done|]. congruence.
      * intros ->. by destruct Hp' as [?|[? _]].
  - split; simpl; try done; [| | |by rewrite fn_lookup_insert].
    + eapply ofresh_frame; [exact Hown|congruence|]. intros v Hv Hf. apply Hframe. intros Hv'.
      pose proof (wi_mem _ _ _ _ HI k ws v Hk Hv'). congruence.
    + intros v. rewrite Hhand, <- Hd. destruct (decide (v = w)) as [->|Hvw].
      * rewrite fn_lookup_insert, Hpw. naive_solver.
      * rewrite fn_lookup_insert_ne by done. naive_solver.
    + intros v. rewrite <- Hw. destruct (decide (v = w)) as [->|Hvw]; [|by rewrite fn_lookup_insert_ne].
      rewrite fn_lookup_insert, Hpw. destruct Hp' as [->|[-> _]]; split; congruence.
  - simpl. by rewrite fn_lookup_insert.
Qed.

(** *** Taking waiters: the chain through [next] *)

Fixpoint chained (c : heap) (first : option nat) (ws : list nat) : Prop :=
  match ws with
  | [] => first = None
  | w :: ws' => first = Some w /\ exists x, c !! w = Some x /\ chained c (wnext x) ws'
  end.

Definition at_chain o i h l first hand : asrt (sworld X) (ghost PL) :=
  at_with (fun c => NoDup hand /\ chained c first hand) i h (ofresh o) hand None l.

Lemma chained_frame c c' ws first :
  (forall w x, w ∈ ws -> c !! w = Some x -> exists x', c' !! w = Some x' /\ wnext x' = wnext x) ->
  chained c first ws -> chained c' first ws.
Proof.
  revert first. induction ws as [|w ws IH]; intros first Hc; simpl; [done|]. intros [-> (x & Hx & Hch)].
  split; [done|]. destruct (Hc w x) as (x' & Hx' & Hn); [by left|done|]. exists x'. split; [done|]. rewrite Hn.
  apply IH; [|done]. intros v z Hv. apply Hc. by right.
Qed.

Lemma stable_chain o i h l first hand : stable R i (at_chain o i h l first hand).
Proof.
  intros j s g s' g' Hj HI HI' HG (Hat & Hnd & Hch). split; [by eapply (at_stable i h (ofresh o) hand None l j s g)|]. split; [done|].
  eapply chained_frame; [|done]. intros w x Hw Hx. simpl in HG.
  destruct (wg_cell _ _ _ _ HG w x Hx) as (x' & Hx' & _ & _ & _ & Ht & _). exists x'. split; [done|].
  apply (Ht i); [done|]. by apply (at_hand _ _ _ _ _ _ _ _ _ (at_core _ _ _ _ _ _ _ _ _ Hat)).
Qed.
Hint Resolve stable_chain : core.

(** A waiter just popped: not in the chain yet, its [next] is null. *)
Definition at_popped o i h l first hand w : asrt (sworld X) (ghost PL) :=
  at_with (fun c => NoDup (w :: hand) /\ chained c first hand /\ exists x, c !! w = Some x /\ wnext x = None)
    i h (ofresh o) (w :: hand) None l.

Lemma stable_popped o i h l first hand w : stable R i (at_popped o i h l first hand w).
Proof.
  intros j s g s' g' Hj HI HI' HG (Hat & Hnd & Hch & x & Hx & Hn). simpl in HG.
  assert (Hat' := at_stable i h (ofresh o) (w :: hand) None l j s g s' g' Hj HI HI' HG Hat).
  assert (Hc : forall v z, v ∈ w :: hand -> scells s !! v = Some z -> exists z', scells s' !! v = Some z' /\ wnext z' = wnext z).
  { intros v z Hv Hz. destruct (wg_cell _ _ _ _ HG v z Hz) as (x' & Hx' & _ & _ & _ & Ht & _). exists x'. split; [done|].
    apply (Ht i); [done|]. by apply (at_hand _ _ _ _ _ _ _ _ _ (at_core _ _ _ _ _ _ _ _ _ Hat)). }
  split; [done|]. split; [done|]. split.
  - eapply chained_frame; [|done]. intros v z Hv. apply Hc. by right.
  - destruct (Hc w x) as (x' & Hx' & Hn'); [by left|done|]. exists x'. split; [done|congruence].
Qed.
Hint Resolve stable_popped : core.

Lemma rg_popFront {A} {o} i gl y l first hand k ws (q : option nat -> prog (sworld X) A) Q :
  (i < n)%nat -> gl !! k = Some ws ->
  (ws = [] -> rg R i (q None) (at_chain o i (Some (gl, y)) l first hand) Q) ->
  (forall w ws', ws = w :: ws' -> exists l',
     (forall z f gr, f i = l -> lockd z = y -> pinv z gl (Some i) f gr ->
        pinv z (<[k := ws']> gl) (Some i) (<[i := l']> f) (bump k gr)) /\
     rg R i (q (Some w)) (at_popped o i (Some (<[k := ws']> gl, y)) l' first hand w) Q) ->
  rg R i (bind (popFront k) q) (at_chain o i (Some (gl, y)) l first hand) Q.
Proof.
  intros Hi Hk Hnone Hsome.
  assert (Hhead : forall s g, winv s g -> at_chain o i (Some (gl, y)) l first hand s g -> whead (list_at k s) = head ws /\
    forall w, w ∈ ws -> touched (scells s) w = true).
  { intros s g HI [[[(_ & Hgl & _) _ _ _ _] _] _]. rewrite <- Hgl in Hk. destruct (list_at_lookup s g k ws HI Hk) as [_ Hl].
    split; [rewrite (il_head _ _ _ Hl); by destruct ws|]. intros w Hw. by eapply queued_touched. }
  split.
  - intros s g HI Hat. destruct (Hhead s g HI Hat) as [-> Ht]. destruct ws as [|w ws]; simpl; [done|].
    rewrite (Ht w) by left. by destruct (wl_popFront _ _) as [[? ?] ?].
  - intros s g s' r HI Hat Hin. destruct (Hhead s g HI Hat) as [Eh Ht]. rewrite Eh in Hin.
    destruct ws as [|w ws]; simpl in Hin.
    + apply list_elem_of_singleton in Hin. injection Hin as -> ->. exists g, (at_chain o i (Some (gl, y)) l first hand).
      splits; try done; [apply wguar_refl|]. by apply Hnone.
    + rewrite (Ht w) in Hin by left. destruct (Hsome w ws eq_refl) as (l' & Hp & Hq).
      destruct Hat as (Hat & Hnd & Hch).
      destruct (unlink_step i gl y o hand (w :: hand) None l l' k (w :: ws) 0 w (Taken i) s g Hi HI (at_core _ _ _ _ _ _ _ _ _ Hat) Hk eq_refl) as
        (x & x' & c' & wl' & Hx & E & Hx' & Ha & Htg & Hs & Hlk & Hnx & _ & _ & Hfr & HL & g' & HI' & HG & Hat' & Hpl).
      * by left.
      * intros v. rewrite elem_of_cons. naive_solver.
      * intros z f gr Hf Hz Hpi. simpl. rewrite decide_True by done. by apply Hp.
      * unfold wl_popFront in Hin. rewrite Eh in Hin. cbn [head] in Hin. rewrite E in Hin. apply list_elem_of_singleton in Hin. injection Hin as -> ->.
        assert (Hnin : forall v, v ∈ hand -> v ∉ w :: ws).
        { intros v Hv Hv'. pose proof (at_hold _ _ _ _ _ _ _ _ _ (at_core _ _ _ _ _ _ _ _ _ Hat)) as (_ & Hgl & _). rewrite <- Hgl in Hk.
          pose proof (wi_mem _ _ _ _ HI k _ v Hk Hv') as E1. apply (at_hand _ _ _ _ _ _ _ _ _ (at_core _ _ _ _ _ _ _ _ _ Hat)) in Hv. congruence. }
        exists g', (at_popped o i (Some (<[k := ws]> gl, y)) l' first hand w). splits; try done.
        split; [split; [exact Hat'|by eapply only_links; [exact HL|apply Hat]]|]. split; [apply list.NoDup_cons; split; [|done]; intros Hw; by apply (Hnin w Hw); left|]. split; [|by exists x'].
        simpl. eapply chained_frame; [|exact Hch]. intros v z Hv Hz. exists z. rewrite Hfr by auto. done.
Qed.

Lemma rg_unlock_chain {A} {o} i gl y l l' first hand (k : unit -> prog (sworld X) A) Q :
  (forall x f gr, f i = l -> lockd x = y -> pinv x gl (Some i) f gr -> pinv x gl None (<[i := l']> f) gr) ->
  rg R i (k tt) (at_chain o i None l' first hand) Q ->
  rg R i (bind spinUnlock k) (at_chain o i (Some (gl, y)) l first hand) Q.
Proof.
  intros Hp Hk. apply rg_store. intros s g HI [[[(Hh & Hgl & Hy) Ho Hd Hw Hl] Hon] HC].
  exists (Ghost (place g) None (glists g) (<[i := l']> (pl g))), (at_chain o i None l' first hand). splits; [| | |apply stable_chain|done].
  - apply (winv_holder n pinv s g None); [done|done|]. rewrite Hgl. apply Hp; [done..|].
    rewrite <- Hgl, <- Hh. apply HI.
  - apply (wguar_quiet i s g (sprim s) false (stokens s) (sstopping s)); try done.
    + intros j Hj. rewrite Hh. split; congruence.
    + intros j Hj. by rewrite fn_lookup_insert_ne.
  - split; [|done]. split; [|done]. split; simpl; try done. by rewrite fn_lookup_insert.
Qed.

Lemma rg_isEmpty {A} {o} i gl y l first hand k ws (q : bool -> prog (sworld X) A) Q :
  gl !! k = Some ws ->
  (ws = [] -> exists l',
     (forall z f gr, f i = l -> lockd z = y -> pinv z gl (Some i) f gr -> pinv z gl (Some i) (<[i := l']> f) gr) /\
     rg R i (q true) (at_chain o i (Some (gl, y)) l' first hand) Q) ->
  (ws <> [] -> rg R i (q false) (at_chain o i (Some (gl, y)) l first hand) Q) ->
  rg R i (bind (isEmpty k) q) (at_chain o i (Some (gl, y)) l first hand) Q.
Proof.
  intros Hk Ht Hf. split; [done|]. intros s g s' b HI Hat Hin. apply list_elem_of_singleton in Hin. injection Hin as -> ->.
  pose proof Hat as [[[(Hh & Hgl & Hy) Hown Hd Hw Hl] Hon] HC]. pose proof Hk as Hk'. rewrite <- Hgl in Hk'.
  destruct (list_at_lookup s g k ws HI Hk') as [_ Hlist]. rewrite (is_list_empty _ _ _ Hlist).
  destruct (decide (ws = [])) as [->|Hne].
  - destruct (Ht eq_refl) as (l' & Hp & Hrg). rewrite bool_decide_eq_true_2 by done.
    exists (Ghost (place g) (holder g) (glists g) (<[i := l']> (pl g))). eexists. splits; [| | |apply stable_chain|exact Hrg].
    + destruct s as [a b c d e f0]. apply (winv_prim n pinv (SW a b c d e f0) g a e f0); [done|]. rewrite Hh, Hgl. apply Hp; [done..|].
      rewrite <- Hh, <- Hgl. apply HI.
    + destruct s as [a b c d e f0]. apply (wguar_quiet i (SW a b c d e f0) g a b e f0); try done.
      intros j Hj. by rewrite fn_lookup_insert_ne.
    + split; [|done]. split; [|done]. split; simpl; try done; by rewrite fn_lookup_insert.
  - rewrite bool_decide_eq_false_2 by done. exists g. eexists. splits; [done|apply wguar_refl|exact Hat|apply stable_chain|auto].
Qed.

(** A write to the links of a waiter this thread has taken. *)
Lemma taken_links_step o i h hand l w x f s g :
  winv s g -> at_ i h (ofresh o) hand None l s g -> w ∈ hand -> scells s !! w = Some x ->
  (forall z, same_but_links z (f z) /\ wlinked (f z) = wlinked z) ->
  walive x = true /\ winv (set_cells (<[w := f x]> (scells s)) s) (Ghost (<[w := Taken i]> (place g)) (holder g) (glists g) (pl g)) /\
  wguar i (s, g) (set_cells (<[w := f x]> (scells s)) s, Ghost (<[w := Taken i]> (place g)) (holder g) (glists g) (pl g)) /\
  at_ i h (ofresh o) hand None l (set_cells (<[w := f x]> (scells s)) s) (Ghost (<[w := Taken i]> (place g)) (holder g) (glists g) (pl g)).
Proof.
  intros HI [[Hh Hown Hd Hw Hl] Hon] Hin Hx Hf. assert (Hpw : place g w = Taken i) by (by apply Hd).
  destruct (Hf x) as [(E1 & E2 & E3 & E4 & E5 & E7) E6].
  destruct (wi_place _ _ _ _ HI w x Hx) as (P1 & P2 & P3 & P4 & P5). rewrite Hpw in P1, P2, P3, P5.
  assert (Hlk : wlinked x = false) by (destruct (wlinked x); [by destruct (proj1 P1 eq_refl)|done]).
  splits; [apply P5| | |].
  - eapply (winv_cell n pinv s g w x (f x) (Taken i) (sprim s) (stokens s) (sstopping s)); try done.
    + unfold place_ok. rewrite E6, <- E1, <- E2, <- E4, <- E5. done.
    + assert (ngr (<[w := f x]> (scells s)) (<[w := Taken i]> (place g)) = ngranted s g) as ->; [|apply HI].
      eapply ngr_same; [by eapply changes_insert|]. unfold granted. by rewrite fn_lookup_insert, Hpw, <- E4.
  - eapply (wguar_waiter i s g w (Taken i) _ _ _ x (f x)); simpl; try done.
    + by left.
    + intros v y Hv Hy. exists y. by rewrite list_lookup_insert_ne.
    + apply length_insert.
    + apply list_lookup_insert_eq. by eapply lookup_lt_Some.
    + congruence.
    + intros j Hj. by rewrite Hpw.
    + intros j Hj. congruence.
    + intros _. splits; try done. congruence.
  - split; [|simpl; eapply only_insert; [done..| |done]; congruence]. split; simpl; try done.
    + eapply ofresh_frame; [exact Hown|congruence|]. intros v Hv _. simpl. by rewrite list_lookup_insert_ne.
    + intros v. destruct (decide (v = w)) as [->|Hvw]; [rewrite fn_lookup_insert; naive_solver|].
      rewrite fn_lookup_insert_ne by done. apply Hd.
    + intros v. rewrite <- Hw. destruct (decide (v = w)) as [->|Hvw]; [rewrite fn_lookup_insert; naive_solver|].
      by rewrite fn_lookup_insert_ne.
Qed.

(** [waiter->next = chain; chain = waiter;] *)
Lemma rg_prepend {A} {o} i h l first hand w (q : unit -> prog (sworld X) A) Q :
  rg R i (q tt) (at_chain o i h l (Some w) (w :: hand)) Q ->
  rg R i (bind (wset w (set_next first)) q) (at_popped o i h l first hand w) Q.
Proof.
  intros Hq. apply rg_wset. intros s g HI (Hat & Hnd & Hch & x & Hx & Hn).
  destruct (taken_links_step o i h (w :: hand) l w x (set_next first) s g HI Hat) as (Ha & HI' & HG & Hat'); [by left|done|done|].
  eexists x, _, (at_chain o i h l (Some w) (w :: hand)). splits; [done|done|exact HI'|exact HG| |done|exact Hq].
  split; [exact Hat'|]. split; [done|]. simpl. split; [done|]. exists (set_next first x).
  rewrite list_lookup_insert_eq by (by eapply lookup_lt_Some). split; [done|]. simpl.
  eapply chained_frame; [|exact Hch]. intros v z Hv Hz. exists z. rewrite list_lookup_insert_ne; [done|].
  intros <-. by apply list.NoDup_cons in Hnd as [? _].
Qed.

Lemma chained_snoc c first ws last w x :
  chained c first (ws ++ [last]) -> NoDup (ws ++ [last]) -> w ∉ ws ++ [last] -> c !! w = Some x -> wnext x = None ->
  forall y, c !! last = Some y -> chained (<[last := set_next (Some w) y]> c) first (ws ++ [last; w]).
Proof.
  revert first. induction ws as [|v ws IH]; intros first Hch Hnd Hw Hx Hn y Hy.
  - simpl in *. destruct Hch as [-> _]. split; [done|]. exists (set_next (Some w) y).
    rewrite list_lookup_insert_eq by (by eapply lookup_lt_Some). split; [done|]. split; [done|]. exists x.
    rewrite list_lookup_insert_ne; [done|]. intros ->. apply Hw. by left.
  - simpl in *. destruct Hch as [-> (z & Hz & Hch)]. apply list.NoDup_cons in Hnd as [Hv Hnd]. apply not_elem_of_cons in Hw as [? ?].
    split; [done|]. exists z. rewrite list_lookup_insert_ne; [|intros <-; apply Hv, elem_of_app; right; by left].
    split; [done|]. by apply IH.
Qed.

(** [*last = waiter;] where [last] points at the chain's head, or at its last
    waiter's [next]. *)
Lemma rg_append_first {A} {o} i h l w (q : prog (sworld X) A) Q :
  rg R i q (at_chain o i h l (Some w) [w]) Q -> rg R i q (at_popped o i h l None [] w) Q.
Proof.
  apply rg_pre. intros s g HI (Hat & Hnd & Hch & x & Hx & Hn). split; [done|]. split; [done|]. simpl. split; [done|]. by exists x.
Qed.

Lemma rg_append {A} {o} i h l first hand last w (q : unit -> prog (sworld X) A) Q :
  rg R i (q tt) (at_chain o i h l first (hand ++ [last; w])) Q ->
  rg R i (bind (wset last (set_next (Some w))) q) (at_popped o i h l first (hand ++ [last]) w) Q.
Proof.
  intros Hq. apply rg_wset. intros s g HI (Hat & Hnd & Hch & x & Hx & Hn).
  assert (Hlast : last ∈ w :: hand ++ [last]) by (right; apply elem_of_app; right; by left).
  assert (exists y, scells s !! last = Some y) as [y Hy].
  { apply lookup_lt_is_Some. destruct (decide (last < length (scells s))%nat); [done|].
    pose proof (wi_none _ _ _ _ HI last ltac:(lia)). apply (at_hand _ _ _ _ _ _ _ _ _ (at_core _ _ _ _ _ _ _ _ _ Hat)) in Hlast. congruence. }
  destruct (taken_links_step o i h _ l last y (set_next (Some w)) s g HI Hat Hlast Hy) as (Ha & HI' & HG & Hat'); [done|].
  eexists y, _, (at_chain o i h l first (hand ++ [last; w])). splits; [done|done|exact HI'|exact HG| |done|exact Hq].
  assert (Hperm : forall v, v ∈ hand ++ [last; w] <-> v ∈ w :: hand ++ [last]).
  { intros v. rewrite elem_of_cons, !elem_of_app, !elem_of_cons. naive_solver. }
  split.
  - destruct Hat' as [[B1 B2 B3 B4 B5] B6]. split; [|done]. split; try done. intros v. by rewrite Hperm, <- B3.
  - apply list.NoDup_cons in Hnd as [Hwn Hnd]. split.
    + replace (hand ++ [last; w]) with ((hand ++ [last]) ++ [w]) by (by rewrite <- app_assoc).
      apply list.NoDup_app. splits; [done|by intros v Hv ->%list_elem_of_singleton|apply NoDup_singleton].
    + simpl. by eapply chained_snoc.
Qed.

(** [*last = nullptr;]: already so. *)
Lemma rg_close {A} {o} i h l first hand last (q : unit -> prog (sworld X) A) Q :
  rg R i (q tt) (at_chain o i h l first (hand ++ [last])) Q ->
  rg R i (bind (wset last (set_next None)) q) (at_chain o i h l first (hand ++ [last])) Q.
Proof.
  intros Hq. apply rg_wset. intros s g HI (Hat & Hnd & Hch).
  assert (Hlast : last ∈ hand ++ [last]) by (apply elem_of_app; right; by left).
  assert (exists y, scells s !! last = Some y /\ wnext y = None) as (y & Hy & Hny).
  { clear -Hch. revert first Hch. induction hand as [|v ws IH]; intros first; simpl.
    - intros [_ (x & Hx & Hn)]. by exists x.
    - intros [_ (x & Hx & Hn)]. by eapply IH. }
  destruct (taken_links_step o i h _ l last y (set_next None) s g HI Hat Hlast Hy) as (Ha & HI' & HG & Hat'); [done|].
  eexists y, _, _. splits; [done|done|exact HI'|exact HG| |apply stable_chain|exact Hq].
  split; [exact Hat'|]. split; [done|]. simpl. eapply chained_frame; [|exact Hch]. intros v z Hv Hz.
  destruct (decide (v = last)) as [->|Hne].
  - exists (set_next None y). rewrite list_lookup_insert_eq by (by eapply lookup_lt_Some). simplify_eq. done.
  - exists z. by rewrite list_lookup_insert_ne.
Qed.

Lemma rg_popAll {A} {o} i gl y l k fuel :
  (i < n)%nat ->
  (forall w ws z f gr, f i = l -> lockd z = y -> pinv z (<[k := w :: ws]> gl) (Some i) f gr ->
     pinv z (<[k := ws]> gl) (Some i) (<[i := l]> f) (bump k gr)) ->
  forall ws first hand (q : option nat -> prog (sworld X) A) Q,
  (k < length gl)%nat ->
  (forall chain hand', rg R i (q chain) (at_chain o i (Some (<[k := []]> gl, y)) l chain hand') Q) ->
  rg R i (bind (popAll fuel k first) q) (at_chain o i (Some (<[k := ws]> gl, y)) l first hand) Q.
Proof.
  intros Hi Hp. induction fuel as [|fuel IH]; intros ws first hand q Q Hk Hq; [done|]. cbn [popAll]. apply rg_bind_assoc.
  apply (rg_popFront i (<[k := ws]> gl) y l first hand k ws); [done|by apply list_lookup_insert_eq| |].
  - intros ->. apply Hq.
  - intros w ws' ->. exists l. rewrite list_insert_insert_eq. split; [by apply Hp|].
    apply rg_bind_assoc, rg_prepend. by apply IH.
Qed.

(** ** Notification *)

(** About to notify [w], a party [p]; the rest of the chain follows. *)
Definition at_next o i h l first hand w (p : party) wk : asrt (sworld X) (ghost PL) :=
  fun s g => at_ i h (ofresh o) (if wk is Some _ then hand else w :: hand) wk l s g /\ NoDup (w :: hand) /\
    chained (scells s) first hand /\ exists x, scells s !! w = Some x /\ wparty x = p.

Lemma stable_next o i h l first hand w p wk : stable R i (at_next o i h l first hand w p wk).
Proof.
  intros j s g s' g' Hj HI HI' HG (Hat & Hnd & Hch & x & Hx & Hp). simpl in HG.
  split; [by eapply (at_stable _ _ _ _ _ _ j s g)|]. split; [done|]. split.
  - eapply chained_frame; [|done]. intros v z Hv Hz. destruct (wg_cell _ _ _ _ HG v z Hz) as (x' & Hx' & _ & _ & _ & Ht & _).
    exists x'. split; [done|]. apply (Ht i); [done|]. apply (at_hand _ _ _ _ _ _ _ _ _ (at_core _ _ _ _ _ _ _ _ _ Hat)). destruct wk; [done|by right].
  - destruct (wg_cell _ _ _ _ HG w x Hx) as (x' & Hx' & Hp' & _). exists x'. split; [done|congruence].
Qed.
Hint Resolve stable_next : core.

(** A waiter this thread has taken moves on. *)
Lemma taken_step o i h hand l w x x' p' wk wk' tok' s g :
  winv s g -> at_ i h (ofresh o) (if wk is Some _ then hand else w :: hand) wk l s g -> w ∉ hand -> scells s !! w = Some x ->
  (wk = None \/ wk = Some w) -> wk' = (if decide (p' = Waking i) then Some w else None) ->
  wlinked x' = wlinked x -> wparty x' = wparty x -> wtag x' = wtag x -> walive x' = walive x -> wnext x' = wnext x ->
  (wsatisfied x = true -> wsatisfied x' = true) ->
  (forall k, p' <> InList k) -> (forall j, p' <> Taken j) -> (forall j, p' = Waking j -> j = i) ->
  place_ok n (glists g) w x' p' -> granted x' p' = granted x (place g w) ->
  (p' = Fresh -> wcalled x' = true) -> (p' = Awake -> tok' (party_of (wparty x)) = true) ->
  (forall j, stokens s j = true -> tok' j = true) ->
  exists g', winv (SW (sprim s) (slocked s) (slists s) (<[w := x']> (scells s)) tok' (sstopping s)) g' /\
    wguar i (s, g) (SW (sprim s) (slocked s) (slists s) (<[w := x']> (scells s)) tok' (sstopping s), g') /\
    at_ i h (ofresh o) hand wk' l (SW (sprim s) (slocked s) (slists s) (<[w := x']> (scells s)) tok' (sstopping s)) g'.
Proof.
  intros HI [[Hh Hown Hd Hw Hl] Hon] Hnin Hx Hwk -> Elk Epa Etg Eal Enx Hsat Hnl Hnt Hwi Hok Hgr Hf Haw Htok.
  assert (Hpw : place g w = Taken i \/ place g w = Waking i).
  { destruct Hwk as [->| ->]; [left; apply Hd; by left|right; by apply Hw]. }
  destruct (wi_place _ _ _ _ HI w x Hx) as (P1 & P2 & P3 & P4 & P5).
  assert (Hlk : wlinked x = false).
  { destruct (wlinked x); [|done]. destruct (proj1 P1 eq_refl) as [k Hk]. destruct Hpw; congruence. }
  exists (Ghost (<[w := p']> (place g)) (holder g) (glists g) (pl g)). splits.
  - eapply (winv_cell n pinv s g w x x' p' (sprim s) tok' (sstopping s)); try done.
    assert (ngr (<[w := x']> (scells s)) (<[w := p']> (place g)) = ngranted s g) as ->; [|apply HI].
    eapply ngr_same; [by eapply changes_insert|]. by rewrite fn_lookup_insert.
  - eapply (wguar_waiter i s g w p' _ _ _ x x'); simpl; try done.
    + by left.
    + intros j _. apply Htok.
    + intros v y Hv Hy. exists y. by rewrite list_lookup_insert_ne.
    + apply length_insert.
    + apply list_lookup_insert_eq. by eapply lookup_lt_Some.
    + intros j Hj. split; split; intros E.
      * destruct Hpw; congruence.
      * by destruct (Hnt j).
      * destruct Hpw; congruence.
      * specialize (Hwi j E). congruence.
    + intros _. splits; try done. destruct Hpw; congruence.
  - assert (Hv : forall v, v <> w -> (place g v = Taken i <-> v ∈ hand) /\ place g v <> Waking i).
    { intros v Hv. split.
      - rewrite Hd. destruct wk; [done|]. rewrite elem_of_cons. naive_solver.
      - rewrite Hw. destruct Hwk as [->| ->]; congruence. }
    split; [|simpl; eapply only_insert; [done..| |done]; congruence]. split; simpl; try done.
    + eapply ofresh_frame; [exact Hown|destruct Hpw; congruence|]. intros v' Hv' _. simpl. by rewrite list_lookup_insert_ne.
    + intros v. destruct (decide (v = w)) as [->|Hvw]; [rewrite fn_lookup_insert; split; [by intros ?%Hnt|done]|].
      rewrite fn_lookup_insert_ne by done. by apply Hv.
    + intros v. destruct (decide (v = w)) as [->|Hvw].
      * rewrite fn_lookup_insert. case_decide; naive_solver.
      * rewrite fn_lookup_insert_ne by done. destruct (Hv v Hvw) as [_ Hv']. case_decide; naive_solver.
Qed.

Lemma chained_notified c first hand w x : w ∉ hand -> chained c first hand -> chained (<[w := x]> c) first hand.
Proof.
  intros Hw. apply chained_frame. intros v z Hv Hz. exists z. rewrite list_lookup_insert_ne; [done|]. by intros ->.
Qed.

Lemma rg_unpark {A} {o} i h l first hand w p j (q : unit -> prog (sworld X) A) Q :
  is_callback p = false -> party_of p = j -> rg R i (q tt) (at_chain o i h l first hand) Q ->
  rg R i (bind (unpark j) q) (at_next o i h l first hand w p (Some w)) Q.
Proof.
  intros Hc Hj Hq. apply rg_store. intros s g HI (Hat & Hnd & Hch & x & Hx & Hp).
  apply list.NoDup_cons in Hnd as [Hw Hnd].
  assert (Hpw : place g w = Waking i) by (by apply (at_wk _ _ _ _ _ _ _ _ _ (at_core _ _ _ _ _ _ _ _ _ Hat))).
  destruct (wi_place _ _ _ _ HI w x Hx) as (P1 & P2 & P3 & P4 & P5). rewrite Hpw in P1, P2, P3.
  destruct (taken_step o i h hand l w x x Awake (Some w) None (<[j := true]> (stokens s)) s g HI Hat Hw Hx) as (g' & HI' & HG & Hat');
    try done; try tauto.
  - unfold place_ok. splits; try done; try naive_solver.
  - unfold granted. by rewrite Hpw.
  - intros _. rewrite Hp, Hj. apply fn_lookup_insert.
  - intros j' Hj'. destruct (decide (j' = j)) as [->|]; [by rewrite fn_lookup_insert|by rewrite fn_lookup_insert_ne].
  - rewrite list_insert_id in HI', HG, Hat' by done. unfold set_token.
    exists g', (at_chain o i h l first hand). splits; done.
Qed.

Lemma rg_notify {A} {o} i h l first hand w p (q : unit -> prog (sworld X) A) Q :
  rg R i (q tt) (at_chain o i h l first hand) Q ->
  rg R i (bind (notify w) q) (at_next o i h l first hand w p None) Q.
Proof.
  intros Hq. unfold notify. apply rg_bind_assoc. apply rg_wget. intros s g HI (Hat & Hnd & Hch & x & Hx & Hp).
  pose proof (proj1 (list.NoDup_cons _ _) Hnd) as [Hw _].
  assert (Hpw : place g w = Taken i) by (apply (at_hand _ _ _ _ _ _ _ _ _ (at_core _ _ _ _ _ _ _ _ _ Hat)); by left).
  destruct (wi_place _ _ _ _ HI w x Hx) as (_ & _ & _ & _ & P5). rewrite Hpw in P5. destruct P5 as [Ha Hi].
  exists x, (at_next o i h l first hand w p None). rewrite Hp. splits; try done; [split; [done|]; split; [done|]; split; [done|by exists x]|].
  clear s g HI x Hat Hch Hx Hp Hpw Ha.
  assert (Hset : forall f, (forall z, wlinked (f z) = wlinked z /\ wparty (f z) = wparty z /\ wtag (f z) = wtag z /\ walive (f z) = walive z /\ wnext (f z) = wnext z) ->
    forall p', (forall k, p' <> InList k) -> (forall j, p' <> Taken j) -> (p' = Waking i \/ p' = Fresh) ->
    (forall gl z, wparty z = p -> place_ok n gl w z (Taken i) -> place_ok n gl w (f z) p' /\ granted (f z) p' = true /\
       (p' = Fresh -> wcalled (f z) = true)) ->
    forall s g, winv s g -> at_next o i h l first hand w p None s g -> exists x g', scells s !! w = Some x /\ walive x = true /\
       winv (set_cells (<[w := f x]> (scells s)) s) g' /\ wguar i (s, g) (set_cells (<[w := f x]> (scells s)) s, g') /\
       at_ i h (ofresh o) hand (if decide (p' = Waking i) then Some w else None) l (set_cells (<[w := f x]> (scells s)) s) g' /\
       wparty (f x) = p).
  { intros f Hf p' Hnl Hnt Hor Hok s g HI (Hat & _ & Hch & x & Hx & Hp). destruct (Hf x) as (F1 & F2 & F5 & F3 & F4).
    assert (Hpw : place g w = Taken i) by (apply (at_hand _ _ _ _ _ _ _ _ _ (at_core _ _ _ _ _ _ _ _ _ Hat)); by left).
    pose proof (wi_place _ _ _ _ HI w x Hx) as P. rewrite Hpw in P. destruct (Hok _ x Hp P) as (O1 & O2 & O3).
    destruct P as (_ & P2 & _ & _ & P5). destruct P5 as [Ha _].
    destruct (taken_step o i h hand l w x (f x) p' None (if decide (p' = Waking i) then Some w else None) (stokens s) s g HI Hat Hw Hx)
      as (g' & HI' & HG & Hat'); try done; try tauto.
    - intros Hs. destruct (proj1 P2 Hs) as [[? ?]|]; done.
    - intros j ->. destruct Hor as [Hor|Hor]; congruence.
    - rewrite O2, Hpw. unfold granted. by rewrite Ha.
    - intros ->. destruct Hor; done.
    - exists x, g'. splits; try done. congruence. }
  assert (Hsat : forall j, is_callback p = false -> party_of p = j ->
    rg R i (bind (wset w (set_satisfied true)) (fun _ => bind (unpark j) q)) (at_next o i h l first hand w p None) Q).
  { intros j Hc Hj. apply rg_wset. intros s g HI Hn.
    destruct (Hset (set_satisfied true) ltac:(done) (Waking i) ltac:(done) ltac:(done) ltac:(by left)) with (s:=s) (g:=g)
      as (x & g' & Hx & Ha & HI' & HG & Hat' & Hp); [|done..|].
    - intros gl z Hz (P1 & P2 & P3 & P4 & P5 & P6). unfold place_ok, granted; simpl. rewrite P5. splits; try done.
      + split; [intros E; apply P1 in E as [? ?]; done|intros [? ?]; done].
      + split; [intros _; left; eauto|done].
      + intros E. by destruct (P3 E).
      + intros E. rewrite Hz in E. congruence.
    - rewrite decide_True in Hat' by done. destruct Hn as (_ & _ & Hch & _).
      exists x, g', (at_next o i h l first hand w p (Some w)). splits; try done.
      + split; [done|]. split; [done|]. split; [by apply chained_notified|]. exists (set_satisfied true x).
        split; [|done]. apply list_lookup_insert_eq. by eapply lookup_lt_Some.
      + by apply (rg_unpark i h l first hand w p j). }
  destruct p as [j|j|j].
  - apply rg_bind_assoc. by apply Hsat.
  - apply rg_bind_assoc. by apply Hsat.
  - apply rg_wset. intros s g HI Hn.
    destruct (Hset (set_called true) ltac:(done) Fresh ltac:(done) ltac:(done) ltac:(by right)) with (s:=s) (g:=g)
      as (x & g' & Hx & Ha & HI' & HG & Hat' & Hp); [|done..|].
    + intros gl z Hz (P1 & P2 & P3 & P4 & P5 & P6). unfold place_ok, granted; simpl. rewrite P5, Hz. splits; try done.
      * split; [intros E; apply P1 in E as [? ?]; done|intros [? ?]; done].
      * split; [intros E; apply P2 in E as [[? ?]|?]; done|intros [[? ?]|?]; done].
      * intros _. apply P4. by rewrite Hz.
    + rewrite decide_False in Hat' by done. destruct Hn as (_ & _ & Hch & _).
      exists x, g', (at_chain o i h l first hand). splits; try done. split; [done|].
      split; [by apply list.NoDup_cons in Hnd as [_ ?]|]. by apply chained_notified.
Qed.

Lemma rg_notifyChain {A} {o} i h l fuel : forall first hand (q : unit -> prog (sworld X) A) Q,
  rg R i (q tt) (at_ i h (ofresh o) [] None l) Q ->
  rg R i (bind (notifyChain fuel first) q) (at_chain o i h l first hand) Q.
Proof.
  induction fuel as [|fuel IH]; intros first hand q Q Hq; [done|]. cbn [notifyChain]. destruct first as [w|].
  - apply rg_bind_assoc, rg_wget. intros s g HI (Hat & Hnd & Hch).
    destruct hand as [|w' hand]; [done|]. simpl in Hch. destruct Hch as [[= <-] (x & Hx & Hch)].
    assert (Hpw : place g w = Taken i) by (apply (at_hand _ _ _ _ _ _ _ _ _ (at_core _ _ _ _ _ _ _ _ _ Hat)); by left).
    destruct (wi_place _ _ _ _ HI w x Hx) as (_ & _ & _ & _ & P5). rewrite Hpw in P5. destruct P5 as [Ha _].
    exists x, (at_next o i h l (wnext x) hand w (wparty x) None). splits; try done.
    + split; [done|]. split; [done|]. split; [done|by exists x].
    + apply rg_bind_assoc, rg_notify. by apply IH.
  - eapply rg_pre; [|exact Hq]. intros s g HI (Hat & Hnd & Hch). destruct hand; [done|]. by destruct Hch.
Qed.

(** One waiter, notified after the lock is released. *)
Lemma rg_notify_one {A} {o} i h l w (q : unit -> prog (sworld X) A) Q :
  rg R i (q tt) (at_ i h (ofresh o) [] None l) Q ->
  rg R i (bind (notify w) q) (at_chain o i h l (Some w) [w]) Q.
Proof.
  intros Hq. eapply (rg_pre R i _ (fun s g => exists p, at_next o i h l None [] w p None s g)).
  - intros s g HI (Hat & Hnd & _ & x & Hx & Hn). exists (wparty x). split; [done|]. split; [done|]. split; [done|]. by exists x.
  - apply rg_ex. intros p. apply rg_notify. eapply rg_pre; [|exact Hq]. by intros s g _ [? _].
Qed.

Lemma at_no_chain o i h l : forall s g, at_ i h (ofresh o) [] None l s g -> at_chain o i h l None [] s g.
Proof. intros s g Hat. split; [exact Hat|]. split; [apply NoDup_nil_2|done]. Qed.

(** ** Waiting and leaving *)

Lemma only_own i w st c :
  only i (Some (w, st)) c -> forall v y, c !! v = Some y -> party_of (wparty y) = i -> walive y = true -> v = w.
Proof. intros Ho v y Hy Hp Ha. specialize (Ho v y Hy Hp Ha). by injection Ho. Qed.

Lemma idle_hand (g : ghost PL) i :
  (forall w, place g w = Taken i <-> w ∈ []) -> (forall w, place g w = Waking i <-> None = Some w) ->
  forall w, place g w <> Taken i /\ place g w <> Waking i.
Proof. intros Hd Hw w. split; [by intros E%Hd; apply elem_of_nil in E|by intros E%Hw]. Qed.

Lemma rg_wait {A} i l w p k fuel (q : resumed -> prog (sworld X) A) Q :
  calm l ->
  rg R i (q Woken) (at_ i None (Some (w, SSat p k)) [] None l) Q ->
  rg R i (q Unwound) (at_ i None (Some (w, SWait p k)) [] None l) Q ->
  rg R i (bind (wait fuel p w) q) (at_ i None (Some (w, SWait p k)) [] None l) Q.
Proof.
  intros Hcalm Hwk Hun. induction fuel as [|fuel IH]; [done|]. cbn [wait]. apply rg_bind_assoc, rg_wget.
  intros s g HI [[Hh (x & Hx & Hpi & Ha & Hp & Hnc & Hnf & Hkk) Hd Hw Hl] Hon].
  destruct (wi_place _ _ _ _ HI w x Hx) as (_ & P2 & _). destruct (wsatisfied x) eqn:Es.
  - exists x, (at_ i None (Some (w, SSat p k)) [] None l). rewrite Es.
    split; [done|]. split; [done|]. split; [|split; [done|exact Hwk]]. split; [|exact Hon]. split; try done. by exists x.
  - exists x, (at_ i None (Some (w, STok p k)) [] None l). rewrite Es.
    split; [done|]. split; [done|]. split; [|split; [done|]].
    { split; [|exact Hon]. split; try done. exists x. splits; try done. intros Haw. assert (false = true) by (apply P2; by right). done. }
    clear s g HI Hh Hon x Hx Hpi Ha Hp Hnc Hnf Hkk Hd Hw Hl P2 Es. apply rg_bind_assoc. split.
    + intros s g HI [[Hh (x & Hx & Hpi & Ha & Hp & Hnc & Hnf & Hkk & Htk) Hd Hw Hl] Hon] Hnil. apply app_nil in Hnil as [Hnil _].
      assert (Htok : stokens s i = false) by (rewrite <- Hpi, Hp; by destruct (stokens s (party_of p))).
      right. splits; try done; [congruence|by apply idle_hand|].
      exists w, x. splits; try done; [|by eapply only_own]. intros Haw. specialize (Htk Haw). congruence.
    + intros s g s' r HI Hat Hin. apply elem_of_app in Hin as [Hin|Hin].
      * destruct (stokens s (party_of p)) eqn:Et; [|by apply elem_of_nil in Hin].
        apply list_elem_of_singleton in Hin. injection Hin as -> ->.
        destruct Hat as [[Hh (x & Hx & Hpi & Ha & Hp & Hnc & Hnf & Hkk & Htk) Hd Hw Hl] Hon].
        assert (party_of p = i) as -> by congruence.
        exists (Ghost (place g) (holder g) (glists g) (pl g)), (at_ i None (Some (w, SWait p k)) [] None l). splits; [| | |done|exact IH].
        -- apply (winv_prim n pinv s g (sprim s) _ (sstopping s)); [done|apply HI].
        -- apply (wguar_quiet i s g (sprim s) (slocked s) _ (sstopping s)); try done.
           intros j Hj. by rewrite fn_lookup_insert_ne.
        -- split; [|exact Hon]. split; try done. by exists x.
      * assert (s' = s /\ r = Unwound) as [-> ->].
        { destruct p as [j|j|j]; [destruct (sstopping s)|..]; try by apply elem_of_nil in Hin.
          apply list_elem_of_singleton in Hin. by injection Hin as -> ->. }
        exists g, (at_ i None (Some (w, SWait p k)) [] None l). splits; try done; [apply wguar_refl|].
        destruct Hat as [[Hh (x & Hx & Hpi & Ha & Hp & Hnc & Hnf & Hkk & Htk) Hd Hw Hl] Hon]. split; [|exact Hon]. split; try done. by exists x.
Qed.

Lemma rg_linked {A} i gl y w p k hand wk l (q : bool -> prog (sworld X) A) Q :
  (forall ws, gl !! k = Some ws -> w ∈ ws -> rg R i (q true) (at_ i (Some (gl, y)) (Some (w, SWait p k)) hand wk l) Q) ->
  rg R i (q false) (at_ i (Some (gl, y)) (Some (w, SWait p k)) hand wk l) Q ->
  rg R i (bind (wget w wlinked) q) (at_ i (Some (gl, y)) (Some (w, SWait p k)) hand wk l) Q.
Proof.
  intros Ht Hf. apply rg_wget. intros s g HI Hat. pose proof Hat as [[(_ & <- & _) (x & Hx & Hpi & Ha & Hp & Hnc & Hnf & Hkk) _ _ _] _].
  exists x, (at_ i (Some (glists g, y)) (Some (w, SWait p k)) hand wk l). splits; try done.
  destruct (wlinked x) eqn:E; [|done]. destruct (wi_place _ _ _ _ HI w x Hx) as (P1 & _ & _ & _ & P5).
  destruct (proj1 P1 E) as [k' Hk']. rewrite Hk' in P5. destruct P5 as (_ & Etg & ws & Hws & Hin).
  rewrite Hkk in Etg. subst k'. by eapply Ht.
Qed.

Lemma rg_unlink {A} i gl y w p k ws hand wk l l' (q : unit -> prog (sworld X) A) Q :
  (i < n)%nat -> gl !! k = Some ws -> w ∈ ws ->
  (forall z f gr, NoDup ws -> f i = l -> lockd z = y -> pinv z gl (Some i) f gr ->
     pinv z (<[k := remove w ws]> gl) (Some i) (<[i := l']> f) gr) ->
  (forall x, wparty x = p -> wcalled x = false -> wtag x = k ->
     rg R i (q tt) (at_ i (Some (<[k := remove w ws]> gl, y)) (Some (w, SFresh x)) hand wk l') Q) ->
  rg R i (bind (unlink k w) q) (at_ i (Some (gl, y)) (Some (w, SWait p k)) hand wk l) Q.
Proof.
  intros Hi Hk Hw Hp Hq.
  assert (Htouch : forall s g, winv s g -> at_ i (Some (gl, y)) (Some (w, SWait p k)) hand wk l s g -> touched (scells s) w = true).
  { intros s g HI [[(_ & Hgl & _) _ _ _ _] _]. subst gl. by eapply queued_touched. }
  split.
  - intros s g HI Hat. rewrite (Htouch s g HI Hat). by destruct (wl_unlink _ _ _).
  - intros s g s' b HI Hat Hin. rewrite (Htouch s g HI Hat) in Hin.
    pose proof Hw as [idx Hidx]%list_elem_of_lookup. pose proof (at_drop_own _ _ _ _ _ _ _ _ Hat) as Hat0.
    assert (Hnd : NoDup ws).
    { pose proof (at_hold _ _ _ _ _ _ _ _ _ (at_core _ _ _ _ _ _ _ _ _ Hat)) as (_ & Hgl & _). subst gl.
      destruct (list_at_lookup s g k ws HI Hk) as [_ Hl]. apply Hl. }
    destruct (at_own _ _ _ _ _ _ _ _ _ (at_core _ _ _ _ _ _ _ _ _ Hat)) as (x0 & Hx0 & Hpi & Ha & Hpx & Hnc & Hnf & Hkk).
    destruct (unlink_step i gl y None hand hand wk l l' k ws idx w Fresh s g Hi HI Hat0 Hk Hidx) as
      (x & x' & c' & wl' & Hx & E & Hx' & _ & Htg & Hs & Hlk & Hnx & Hcl & Hsat & Hfr & HL & g' & HI' & HG & Hat' & Hpl).
    + right. split; [done|]. by exists x0.
    + intros v. naive_solver.
    + intros z f gr Hf Hz Hpi'. rewrite decide_False by done. rewrite <- (remove_delete idx w ws) by done. by apply Hp.
    + rewrite E in Hin. apply list_elem_of_singleton in Hin. injection Hin as -> ->.
      rewrite <- (remove_delete idx w ws) in Hat' by done. destruct Hs as (E1 & E2 & E3 & E4 & E5 & E6). assert (x = x0) as -> by congruence.
      exists g', (at_ i (Some (<[k := remove w ws]> gl, y)) (Some (w, SFresh x')) hand wk l'). splits; try done.
      * split; [|by eapply only_links; [exact HL|apply Hat]]. destruct Hat' as [B1 _ B3 B4 B5]. split; try done. exists x'. splits; try done; congruence.
      * apply Hq; congruence.
Qed.

Lemma rg_awaitNotifier {A} i w p k l (q : unit -> prog (sworld X) A) Q :
  calm l -> rg R i (q tt) (at_ i None (Some (w, SSat p k)) [] None l) Q ->
  rg R i (bind (awaitNotifier w) q) (at_ i None (Some (w, SWait p k)) [] None l) Q.
Proof.
  intros Hcalm Hq. split.
  - intros s g HI [[Hh (x & Hx & Hpi & Ha & Hp & Hnc & Hnf & Hkk) Hd Hw Hl] Hon]. rewrite Hx, Ha.
    destruct (wsatisfied x) eqn:Es; [done|]. intros _. right.
    destruct (wi_place _ _ _ _ HI w x Hx) as (_ & P2 & _).
    splits; try done; [congruence|by apply idle_hand|].
    exists w, x. splits; try done; [|by eapply only_own]. intros Haw. rewrite Es in P2. assert (false = true) by (apply P2; by right). done.
  - intros s g s' o HI [[Hh (x & Hx & Hpi & Ha & Hp & Hnc & Hnf & Hkk) Hd Hw Hl] Hon] Hin. rewrite Hx, Ha in Hin.
    destruct (wsatisfied x) eqn:Es; [|by apply elem_of_nil in Hin]. apply list_elem_of_singleton in Hin. injection Hin as -> ->.
    exists g, (at_ i None (Some (w, SSat p k)) [] None l). splits; try done; [apply wguar_refl|]. split; [|exact Hon]. split; try done. by exists x.
Qed.

(** The end of a waiter's scope. *)
Lemma rg_end {A} i h w st hand wk l l' (q : unit -> prog (sworld X) A) Q :
  match st with
  | SFresh x => wcalled x = false /\ l' = l /\ forall z gl hd f gr, f i = l -> pinv z gl hd f gr -> pinv z gl hd (<[i := l]> f) gr
  | SSat _ k => forall z gl hd f gr, f i = l -> match h with Some (gl0, y) => hd = Some i /\ gl = gl0 /\ lockd z = y | None => hd <> Some i end ->
      pinv z gl hd f (bump k gr) -> pinv z gl hd (<[i := l']> f) gr
  | _ => False
  end ->
  rg R i (q tt) (at_ i h None hand wk l') Q ->
  rg R i (bind (endWaiter w) q) (at_ i h (Some (w, st)) hand wk l) Q.
Proof.
  intros Hst Hq. unfold endWaiter. apply rg_wset. intros s g HI Hat.
  destruct (at_own _ _ _ _ _ _ _ _ _ (at_core _ _ _ _ _ _ _ _ _ Hat)) as (x & Hx & Hpi & Ha & Hown).
  pose proof (wi_place _ _ _ _ HI w x Hx) as (P1 & P2 & P3 & P4 & P5).
  assert (Hpl : place g w = Fresh \/ (exists j, place g w = Waking j) \/ place g w = Awake).
  { destruct st as [x0|p k|p k|p k|p k]; try done; [left; apply Hown|right; apply P2, Hown]. }
  assert (Hnl : forall k, place g w <> InList k) by (intros k Hk; destruct Hpl as [?|[[? ?]|?]]; congruence).
  assert (Hlk : wlinked x = false) by (destruct (wlinked x); [destruct (proj1 P1 eq_refl) as [k Hk]; by destruct (Hnl k)|done]).
  assert (Hch : changes (scells s) (<[w := set_walive false x]> (scells s)) (place g) (<[w := place g w]> (place g)) w x (set_walive false x))
    by (by eapply changes_insert).
  destruct (own_cell_step i h None hand wk l w x (set_walive false x) (place g w) l' s g HI) as (g' & HI' & HG & Hat'); try done.
  - by eapply at_drop_own.
  - unfold place_ok. simpl. splits; try done. destruct Hpl as [->|[[j Hj]| ->]]; [done| |done]. rewrite Hj in *. done.
  - pose proof (wi_prim _ _ _ _ HI) as Hprim. pose proof (at_pl _ _ _ _ _ _ _ _ _ (at_core _ _ _ _ _ _ _ _ _ Hat)) as Hl.
    destruct st as [x0|p k|p k|p k|p k]; try done.
    + destruct Hown as [-> Hf], Hst as (Hc & -> & Hst). erewrite ngr_same; [by apply Hst|exact Hch|].
      unfold granted. by rewrite fn_lookup_insert, Hf, Hc, !andb_false_r.
    + destruct Hown as (Hp & Hs & Htg). apply Hst; [done| |].
      * pose proof (at_hold _ _ _ _ _ _ _ _ _ (at_core _ _ _ _ _ _ _ _ _ Hat)) as Hh. destruct h as [[gl y]|]; [|done]. by destruct Hh as (? & ? & ?).
      * rewrite <- Htg. erewrite <- ngr_drop; [exact Hprim|exact Hch| |done].
        unfold granted. rewrite Ha. destruct (proj1 P2 Hs) as [[j Hj]|Hj]; by rewrite Hj.
  - exists x, g', (at_ i h None hand wk l'). splits; [done|done|exact HI'|exact HG| |done|exact Hq].
    split; [exact Hat'|]. simpl. intros v y Hy Hpy Hay. exfalso. pose proof (lookup_lt_Some _ _ _ Hx).
    destruct (decide (v = w)) as [->|Hvw].
    + rewrite list_lookup_insert_eq in Hy by done. by injection Hy as <-.
    + rewrite list_lookup_insert_ne in Hy by done. apply Hvw. by eapply (only_own i w st); [apply Hat|..].
Qed.

(** ** Callback waiters *)

(** Reading a waiter that is with its owner. *)
Lemma rg_read_own {A B} i h w x hand wk l (f : Waiter -> B) (q : B -> prog (sworld X) A) Q :
  rg R i (q (f x)) (at_ i h (Some (w, SFresh x)) hand wk l) Q ->
  rg R i (bind (wget w f) q) (at_ i h (Some (w, SFresh x)) hand wk l) Q.
Proof.
  intros Hq. apply rg_wget. intros s g HI Hat. destruct (at_own _ _ _ _ _ _ _ _ _ (at_core _ _ _ _ _ _ _ _ _ Hat)) as (x0 & Hx & _ & Ha & -> & _).
  exists x, (at_ i h (Some (w, SFresh x)) hand wk l). by splits.
Qed.

(** [cancelWaiter] marks a waiter that is not queued: its own, or one that a
    notifier has taken. *)
Lemma mark_step i gl y w x st hand wk l s g :
  winv s g -> at_ i (Some (gl, y)) (Some (w, st)) hand wk l s g -> scells s !! w = Some x -> wlinked x = false ->
  (forall z gl hd f gr, f i = l -> pinv z gl hd f gr -> pinv z gl hd (<[i := l]> f) gr) ->
  exists g', winv (set_cells (<[w := set_cancelled true x]> (scells s)) s) g' /\
    wguar i (s, g) (set_cells (<[w := set_cancelled true x]> (scells s)) s, g') /\
    at_ i (Some (gl, y)) (Some (w, match st with SFresh x => SFresh (set_cancelled true x) | _ => st end)) hand wk l
      (set_cells (<[w := set_cancelled true x]> (scells s)) s) g'.
Proof.
  intros HI Hat Hx Hlk Hsame.
  destruct (at_own _ _ _ _ _ _ _ _ _ (at_core _ _ _ _ _ _ _ _ _ Hat)) as (x0 & Hx0 & Hpi & Ha & Hst). assert (x0 = x) as -> by congruence.
  pose proof (wi_place _ _ _ _ HI w x Hx) as (P1 & P2 & P3 & P4 & P5).
  assert (Hnl : forall k, place g w <> InList k).
  { intros k Hk. assert (wlinked x = true) by (apply P1; by exists k). congruence. }
  destruct (own_cell_step i (Some (gl, y)) (Some (w, match st with SFresh x => SFresh (set_cancelled true x) | _ => st end))
    hand wk l w x (set_cancelled true x) (place g w) l s g HI) as (g' & HI' & HG & Hc); try done.
  - by eapply at_drop_own.
  - assert (ngr (<[w := set_cancelled true x]> (scells s)) (<[w := place g w]> (place g)) = ngranted s g) as ->.
    { eapply ngr_same; [by eapply changes_insert|]. by rewrite fn_lookup_insert. }
    apply Hsame; [apply (at_pl _ _ _ _ _ _ _ _ _ (at_core _ _ _ _ _ _ _ _ _ Hat))|apply HI].
  - exists (set_cancelled true x). simpl. rewrite fn_lookup_insert. splits; try done.
    + apply list_lookup_insert_eq. by eapply lookup_lt_Some.
    + destruct st; try done. by destruct Hst as [-> ?].
  - exists g'. splits; try done. split; [exact Hc|]. simpl. eapply (only_insert i (Some (w, st))); [exact Hx|done|done|apply Hat].
Qed.

Lemma rg_cancel {A} i gl y w st k ws hand wk l (q : bool -> prog (sworld X) A) Q :
  (i < n)%nat -> gl !! k = Some ws ->
  (match st with SFresh _ => True | SCall _ k' => k' = k | _ => False end) ->
  (forall z gl hd f gr, f i = l -> pinv z gl hd f gr -> pinv z gl hd (<[i := l]> f) gr) ->
  rg R i (q false) (at_ i (Some (gl, y)) (Some (w, match st with SFresh x => SFresh (set_cancelled true x) | _ => st end)) hand wk l) Q ->
  (forall p, st = SCall p k -> w ∈ ws -> exists l',
    (forall z f gr, NoDup ws -> f i = l -> lockd z = y -> pinv z gl (Some i) f gr ->
       pinv z (<[k := remove w ws]> gl) (Some i) (<[i := l']> f) gr) /\
    forall x, wparty x = p -> wcalled x = false -> wtag x = k ->
     rg R i (q true) (at_ i (Some (<[k := remove w ws]> gl, y)) (Some (w, SFresh x)) hand wk l') Q) ->
  rg R i (bind (cancelQueued k w) q) (at_ i (Some (gl, y)) (Some (w, st)) hand wk l) Q.
Proof.
  intros Hi Hk Hst Hsame Hqf Hqt.
  assert (Hcase : forall s g, winv s g -> at_ i (Some (gl, y)) (Some (w, st)) hand wk l s g ->
    exists x, scells s !! w = Some x /\ walive x = true /\
      (if wlinked x then touched (scells s) w = true /\ w ∈ ws /\ exists p, st = SCall p k /\ wparty x = p else True)).
  { intros s g HI [[(_ & Hgl & _) (x & Hx & Hpi & Ha & Hown) _ _ _] _]. subst gl. exists x. splits; try done.
    destruct (wlinked x) eqn:E; [|done]. destruct (wi_place _ _ _ _ HI w x Hx) as (P1 & _ & _ & _ & P5).
    destruct (proj1 P1 E) as [k' Hk']. rewrite Hk' in P5. destruct P5 as (_ & Etg & ws' & Hws & Hin).
    destruct st as [x0|p k0|p k0|p k0|p k0]; try done; [destruct Hown; congruence|]. destruct Hown as (Hp & _ & _ & Hkk).
    rewrite Hst in *. rewrite Hkk in Etg. subst k'. assert (ws' = ws) as -> by congruence.
    splits; [by eapply queued_touched|done|by exists p]. }
  split.
  - intros s g HI Hat. destruct (Hcase s g HI Hat) as (x & Hx & Ha & Hl). rewrite Hx.
    destruct (wlinked x); [destruct Hl as [-> _]|rewrite Ha]; by destruct (cancelWaiter _ _ _) as [[? ?] ?].
  - intros s g s' o HI Hat Hin. destruct (Hcase s g HI Hat) as (x & Hx & Ha & Hl). rewrite Hx in Hin.
    unfold cancelWaiter in Hin. rewrite Hx in Hin. pose proof (at_hold _ _ _ _ _ _ _ _ _ (at_core _ _ _ _ _ _ _ _ _ Hat)) as (_ & Hgl & _).
    destruct (wlinked x) eqn:E.
    + destruct Hl as (Ht & Hw & p & Hp & Hpx). rewrite Ht in Hin. destruct (Hqt p Hp Hw) as (l' & Hpinv & Hq).
      pose proof Hw as [idx Hidx]%list_elem_of_lookup. pose proof (at_drop_own _ _ _ _ _ _ _ _ Hat) as Hat0.
      assert (Hnd : NoDup ws) by (subst gl; destruct (list_at_lookup s g k ws HI Hk) as [_ Hl]; apply Hl).
      destruct (at_own _ _ _ _ _ _ _ _ _ (at_core _ _ _ _ _ _ _ _ _ Hat)) as (x0 & Hx0 & Hpi & _). assert (x0 = x) as -> by congruence.
      destruct (unlink_step i gl y None hand hand wk l l' k ws idx w Fresh s g Hi HI Hat0 Hk Hidx) as
        (x1 & x' & c' & wl' & Hx1 & Eu & Hx' & _ & Htg & Hs & Hlk & Hnx & Hcl & Hsat & Hfr & HL & g' & HI' & HG & Hat' & Hpl).
      * right. split; [done|]. by exists x.
      * intros v. naive_solver.
      * intros z f gr Hf Hz Hpi'. rewrite decide_False by done. rewrite <- (remove_delete idx w ws) by done. by apply Hpinv.
      * rewrite Eu in Hin. apply list_elem_of_singleton in Hin. injection Hin as -> ->.
        rewrite <- (remove_delete idx w ws) in Hat' by done. destruct Hs as (E1 & E2 & E3 & E4 & E5 & E6). assert (x1 = x) as -> by congruence.
        exists g', (at_ i (Some (<[k := remove w ws]> gl, y)) (Some (w, SFresh x')) hand wk l'). splits; try done.
        -- split; [|by eapply only_links; [exact HL|apply Hat]]. destruct Hat' as [B1 _ B3 B4 B5]. split; try done. exists x'. splits; try done; congruence.
        -- apply Hq; congruence.
    + rewrite Ha in Hin. apply list_elem_of_singleton in Hin. injection Hin as -> ->.
      destruct (mark_step i gl y w x st hand wk l s g HI Hat Hx E Hsame) as (g' & HI' & HG & Hat').
      subst gl. destruct (list_at_lookup s g k ws HI Hk) as [Hsl _].
      rewrite (list_insert_id (slists s)), (list_alter_insert _ _ _ x) by done.
      exists g'. eexists. splits; [exact HI'|exact HG|exact Hat'|done|exact Hqf].
Qed.

Lemma rg_awaitCallback {A} i w p k l l' (q : unit -> prog (sworld X) A) Q :
  calm l ->
  (forall z gl hd f gr, f i = l -> hd <> Some i -> pinv z gl hd f (bump k gr) -> pinv z gl hd (<[i := l']> f) gr) ->
  (forall x, wparty x = p -> wcalled x = false -> wtag x = k -> rg R i (q tt) (at_ i None (Some (w, SFresh x)) [] None l') Q) ->
  rg R i (bind (awaitCallback w) q) (at_ i None (Some (w, SCall p k)) [] None l) Q.
Proof.
  intros Hcalm Hpinv Hq. split.
  - intros s g HI [[Hh (x & Hx & Hpi & Ha & Hp & Hc & Hor & Hkk) Hd Hw Hl] Hon]. rewrite Hx, Ha.
    destruct (wcalled x) eqn:Ec; [done|]. intros _. right.
    destruct (wi_place _ _ _ _ HI w x Hx) as (_ & P2 & _ & P4 & _). rewrite <- Hp in Hc.
    splits; try done; [congruence|by apply idle_hand|].
    exists w, x. splits; try done; [by destruct Hor| |by eapply only_own]. intros Haw.
    assert (wsatisfied x = true) by (apply P2; by right). rewrite P4 in *; done.
  - intros s g s' o HI Hat Hin. pose proof Hat as [[Hh (x & Hx & Hpi & Ha & Hp & Hc & Hor & Hkk) Hd Hw Hl] Hon]. rewrite Hx, Ha in Hin.
    destruct (wcalled x) eqn:Ec; [|by apply elem_of_nil in Hin]. apply list_elem_of_singleton in Hin. injection Hin as -> ->.
    destruct (wi_place _ _ _ _ HI w x Hx) as (P1 & P2 & P3 & P4 & P5). destruct (P3 Ec) as [_ Hf].
    rewrite (list_alter_insert _ _ _ x) by done.
    assert (Hlk : wlinked x = false).
    { destruct (wlinked x); [|done]. destruct (proj1 P1 eq_refl) as [k' Hk']. congruence. }
    destruct (own_cell_step i None (Some (w, SFresh (set_called false x))) [] None l w x (set_called false x) Fresh l' s g HI)
      as (g' & HI' & HG & Hat'); try done.
    + rewrite Hf in P1, P2. unfold place_ok. simpl. by splits.
    + intros j. rewrite Hf. done.
    + apply Hpinv; [done|done|]. rewrite <- Hkk. erewrite <- ngr_drop; [apply HI|by eapply changes_insert| |].
      * unfold granted. by rewrite Ha, Hf.
      * unfold granted. rewrite fn_lookup_insert. apply andb_false_r.
    + exists (set_called false x). simpl. rewrite fn_lookup_insert. splits; try done.
      apply list_lookup_insert_eq. by eapply lookup_lt_Some.
    + exists g', (at_ i None (Some (w, SFresh (set_called false x))) [] None l'). splits; [exact HI'|exact HG| |done|by apply Hq].
      split; [exact Hat'|]. simpl. eapply (only_insert i (Some (w, SCall p k))); [exact Hx|done|done|apply Hat].
Qed.

(** ** Stale wake-ups, stopping *)

Lemma rg_stale {A} i h o hand wk l j (q : unit -> prog (sworld X) A) Q :
  match o with None => True | Some (_, SFresh _) => True | _ => False end ->
  rg R i (q tt) (at_ i h o hand wk l) Q -> rg R i (bind (unpark j) q) (at_ i h o hand wk l) Q.
Proof.
  intros Ho Hq. apply rg_store. intros s g HI Hat. unfold set_token.
  exists (Ghost (place g) (holder g) (glists g) (pl g)). eexists. splits; [| | |apply at_stable|exact Hq].
  - apply (winv_prim n pinv s g (sprim s) _ (sstopping s)); [done|apply HI].
  - apply (wguar_quiet i s g (sprim s) (slocked s) _ (sstopping s)); try done.
    intros j' _ Hj'. destruct (decide (j' = j)) as [->|]; [by rewrite fn_lookup_insert|by rewrite fn_lookup_insert_ne].
  - destruct Hat as [[B1 B2 B3 B4 B5] B6]. split; [|done]. split; try done. destruct o as [[w [| | | |]]|]; done.
Qed.

Lemma rg_set_stop {A} i h o hand wk l (q : unit -> prog (sworld X) A) Q :
  rg R i (q tt) (at_ i h o hand wk l) Q -> rg R i (bind (store (set_stop true)) q) (at_ i h o hand wk l) Q.
Proof.
  intros Hq. apply rg_store. intros s g HI Hat.
  exists (Ghost (place g) (holder g) (glists g) (pl g)). eexists. splits; [| | |apply at_stable|exact Hq].
  - apply (winv_prim n pinv s g (sprim s) (stokens s) true); [done|apply HI].
  - by apply (wguar_quiet i s g (sprim s) (slocked s) (stokens s) true).
  - destruct Hat as [[B1 B2 B3 B4 B5] B6]. split; [by split|done].
Qed.

(** ** Pools: the start *)

Lemma waiters_start (ts : list (prog (sworld X) unit)) x m (f : nat -> PL) :
  length ts = n -> pinv x (replicate m []) None f (0, 0)%nat ->
  (forall i th, ts !! i = Some th -> (i < n)%nat ->
     rg R i th (at_ i None None [] None (f i)) (fun _ s g => exists l, calm l /\ at_ i None None [] None l s g)) ->
  pool_ok R (fun i _ s g => exists l, calm l /\ at_ i None None [] None l s g) (ts, init_sworld x m).
Proof.
  intros Hlen Hp Hts. exists (Ghost (fun _ => Fresh) None (replicate m []) f). split.
  - split; simpl; try done.
    + by rewrite !length_replicate.
    + intros k wl ws [-> _]%lookup_replicate_1 [-> _]%lookup_replicate_1. apply is_list_nil.
    + intros k ws w [-> _]%lookup_replicate_1 Hw. by apply elem_of_nil in Hw.
  - intros i p Hi. simpl in Hi. exists (at_ i None None [] None (f i)). splits.
    + apply at_stable.
    + split; [|done]. split; simpl; try done; intros w; split; try done. by intros ?%elem_of_nil.
    + apply Hts; [done|]. rewrite <- Hlen. by eapply lookup_lt_Some.
Qed.

(** ** Pools that cannot move *)

(** Nobody can move: nobody holds the lock, nobody owes anybody a wake-up,
    nobody has been granted one, and whoever has not returned is in a list. *)
Lemma halted_waiters_at (ts : list (prog (sworld X) unit)) s g :
  length ts = n -> winv s g ->
  (forall i T f k, ts !! i = Some (Act T f k) -> f s = [] -> wmay_wait calm i s g) ->
  (forall i a, ts !! i = Some (Ret a) -> exists l, calm l /\ at_ i None None [] None l s g) ->
  (forall i th, ts !! i = Some th -> halted s th) ->
  holder g = None /\ (forall i, (i < n)%nat -> calm (pl g i)) /\
    ngranted s g = (0, 0)%nat /\
    (forall i X f k, ts !! i = Some (Act X f k) ->
       exists w x m ws, scells s !! w = Some x /\ party_of (wparty x) = i /\ glists g !! m = Some ws /\ w ∈ ws).
Proof.
  intros Hlen HI Hwait Hret Hhalt.
  assert (Hthread : forall i, (i < n)%nat -> (exists j, j <> i /\ holder g = Some j) \/
    (holder g <> Some i /\ calm (pl g i) /\ (forall w, place g w <> Taken i /\ place g w <> Waking i))).
  { intros i Hi. rewrite <- Hlen in Hi. apply lookup_lt_is_Some in Hi as [th Hth].
    destruct (Hhalt i th Hth) as [->|(T & f & k & -> & Hf)].
    - destruct (Hret i tt Hth) as (l & Hc & [[Hh _ Hd Hw Hl] _]). right. split; [done|]. split; [by rewrite Hl|]. by apply idle_hand.
    - destruct (Hwait i T f k Hth Hf) as [?|(? & ? & ? & _)]; [by left|by right]. }
  assert (Hfree : holder g = None).
  { destruct (holder g) as [j|] eqn:E; [|done]. pose proof (wi_holder _ _ _ _ HI j E) as Hj.
    destruct (Hthread j Hj) as [(j' & Hj' & Ej')|[Hn _]]; congruence. }
  assert (Hcalm : forall i, (i < n)%nat -> calm (pl g i) /\ (forall w, place g w <> Taken i /\ place g w <> Waking i)).
  { intros i Hi. destruct (Hthread i Hi) as [(j & _ & Ej)|(_ & ? & ?)]; [congruence|done]. }
  assert (Hplaces : forall w x, scells s !! w = Some x -> forall j, place g w <> Taken j /\ place g w <> Waking j).
  { intros w x Hx j. destruct (wi_place _ _ _ _ HI w x Hx) as (_ & _ & _ & _ & P5).
    destruct (decide (j < n)%nat) as [Hj|Hj]; [by apply Hcalm|]. split; intros E; rewrite E in P5; [by destruct P5|done]. }
  assert (Hng : forall w x, scells s !! w = Some x -> granted x (place g w) = false).
  { intros w x Hx.
    unfold granted. destruct (walive x) eqn:Ha; [|done]. simpl. set (i := party_of (wparty x)).
    assert (Hi : (i < n)%nat) by (by eapply (wi_owner _ _ _ _ HI)). rewrite <- Hlen in Hi. apply lookup_lt_is_Some in Hi as [th Hth].
    destruct (Hhalt i th Hth) as [->|(T & f & k & -> & Hf)].
    - destruct (Hret i tt Hth) as (l & Hc & [_ Hon]). by specialize (Hon w x Hx eq_refl Ha).
    - destruct (Hwait i T f k Hth Hf) as [(j & _ & Ej)|(_ & _ & _ & v & y & Hy & _ & _ & Hnf & Hna & Honly)]; [congruence|].
      pose proof (Honly w x Hx eq_refl Ha) as <-. pose proof (Hplaces w x Hx) as Hp. destruct (place g w) as [|m|j|j|]; try done.
      + by destruct (proj1 (Hp j)).
      + by destruct (proj2 (Hp j)). }
  assert (Hnone : ngranted s g = (0, 0)%nat).
  { unfold ngranted, ngr. f_equal; apply lsum_zero; intros w Hw;
    (destruct (scells s !! w) as [x|] eqn:Hx; [|done]); rewrite (Hng w x Hx); done. }
  splits; try done; [by intros i Hi; apply Hcalm|].
  intros i T f k Hth. destruct (Hhalt i _ Hth) as [?|(T' & f' & k' & Heq & Hf)]; [done|]. rewrite Heq in Hth.
  destruct (Hwait i T' f' k' Hth Hf) as [(j & _ & Ej)|(_ & _ & _ & w & x & Hx & Hpi & Ha & Hnf & Hna & _)]; [congruence|].
  destruct (wi_place _ _ _ _ HI w x Hx) as (_ & _ & _ & _ & P5).
  destruct (place g w) as [|m|j|j|] eqn:Ep; try done.
  - destruct P5 as (_ & _ & ws & Hws & Hin). by exists w, x, m, ws.
  - by destruct (proj1 (Hplaces w x Hx j)).
  - by destruct (proj2 (Hplaces w x Hx j)).
Qed.

Lemma halted_waiters (ts : list (prog (sworld X) unit)) s :
  length ts = n ->
  pool_ok R (fun i _ s g => exists l, calm l /\ at_ i None None [] None l s g) (ts, s) ->
  (forall i th, ts !! i = Some th -> halted s th) ->
  exists g, winv s g /\ holder g = None /\ (forall i, (i < n)%nat -> calm (pl g i)) /\
    ngranted s g = (0, 0)%nat /\
    (forall i X f k, ts !! i = Some (Act X f k) ->
       exists w x m ws, scells s !! w = Some x /\ party_of (wparty x) = i /\ glists g !! m = Some ws /\ w ∈ ws).
Proof.
  intros Hlen Hpool Hhalt. destruct (pool_ok_waits R _ ts s Hpool) as (g & HI & Hwait & Hret). exists g. split; [exact HI|]. by apply (halted_waiters_at ts).
Qed.
End rules.
