(* ===== verification/Semaphore.v ===== *)
(** * Semaphore and Mutex

    [Semaphore] (sync/Semaphore.h, sync/src/Semaphore.cpp): a count of permits
    taken with compare-and-swap, a list of waiters behind a spin lock, and a
    count of waiters that releasers look at before they take the lock.
    [Mutex] (sync/Mutex.h) is a semaphore with one permit.

    [permits] and [waiterCount] count permits and waiting parties, and are
    unbounded.  [events] records what the clients did: it is written by the
    clients of the model, right after an acquire returns and right before a
    release starts. *)

From Stdlib Require Import ZArith Lia.
From stdpp Require Import base tactics list numbers option strings functions.
From S2P Require Import Prelude Conc WaitList Waiting.

Inductive event :=
| Acquired (i : nat)
| Released (i : nat)
| Lost (i : nat).   (** unwound after a permit had been taken on its behalf *)

Record Semaphore := MkSem { permits : Z; waiterCount : Z; events : list event }.

Definition set_permits v x := MkSem v (waiterCount x) (events x).
Definition set_waiterCount v x := MkSem (permits x) v (events x).
Definition add_event e x := MkSem (permits x) (waiterCount x) (e :: events x).

Abbreviation sprog := (prog (sworld Semaphore)).

Definition sload (f : Semaphore -> Z) : sprog Z := prim (fun x => [(x, f x)]).
Definition addWaiters (d : Z) : sprog unit := prim (fun x => [(set_waiterCount (waiterCount x + d) x, tt)]).
Definition log (e : event) : sprog unit := prim (fun x => [(add_event e x, tt)]).

(** [while (count > 0) if (permits.compare_exchange_weak(count, count - 1)) return true;] *)
Fixpoint takeLoop (fuel : nat) (count : Z) : sprog bool :=
  match fuel with
  | O => Starved
  | S fuel' =>
      if count <=? 0 then Ret false
      else
        r <- prim (fun x => if permits x =? count
                            then [(set_permits (count - 1) x, (true, count)); (x, (false, count))]
                            else [(x, (false, permits x))]);;
        if r.1 : bool then Ret true else takeLoop fuel' r.2
  end.

Definition tryAcquire (fuel : nat) : sprog bool :=
  count <- sload permits;; takeLoop fuel count.

(** How [acquire] ends: with a permit, or unwound ([wasLinked]: still queued). *)
Inductive acquired := AcquiredOk | AcquiredUnwound (wasLinked : bool).

Definition acquireSlow (fuel : nat) (p : party) : sprog acquired :=
  w <- newWaiter p 0;;
  spinLock;;;
  addWaiters 1;;;
  b <- tryAcquire fuel;;
  if b : bool then
    addWaiters (-1);;; spinUnlock;;; endWaiter w;;; Ret AcquiredOk
  else
    pushBack 0 w;;;
    spinUnlock;;;
    r <- wait fuel p w;;
    match r with
    | Woken => endWaiter w;;; Ret AcquiredOk
    | Unwound =>
        wasLinked <- leaveEarly 0 w (addWaiters (-1));;
        endWaiter w;;; Ret (AcquiredUnwound wasLinked)
    end.

Definition acquire (fuel : nat) (p : party) : sprog acquired :=
  b <- tryAcquire fuel;;
  if b : bool then Ret AcquiredOk else acquireSlow fuel p.

Definition acquireOrEnqueue (fuel w : nat) : sprog EnqueueResult :=
  b0 <- tryAcquire fuel;;
  if b0 : bool then Ret EqReady
  else
    spinLock;;;
    c <- wget w wcancelled;;
    if c : bool then spinUnlock;;; Ret EqCancelled
    else
      addWaiters 1;;;
      b <- tryAcquire fuel;;
      if b : bool then addWaiters (-1);;; spinUnlock;;; Ret EqReady
      else pushBack 0 w;;; spinUnlock;;; Ret EqEnqueued.

Definition cancel (w : nat) : sprog bool :=
  spinLock;;;
  b <- cancelQueued 0 w;;
  if b : bool then addWaiters (-1);;; spinUnlock;;; Ret true
  else spinUnlock;;; Ret false.

(** The loop under the lock: hands permits to waiters, in order; the chain of
    those it took and where to append to it ([None]: at its head). *)
Fixpoint grantLoop (fuel : nat) (first last : option nat) : sprog (option nat * option nat) :=
  match fuel with
  | O => Starved
  | S fuel' =>
      e <- isEmpty 0;;
      if e : bool then Ret (first, last)
      else
        count <- sload permits;;
        taken <- takeLoop fuel' count;;
        if negb taken then Ret (first, last)
        else
          o <- popFront 0;;
          match o with
          | None => Fatal "null waiter"
          | Some w =>
              addWaiters (-1);;;
              match last with
              | None => grantLoop fuel' (Some w) (Some w)
              | Some lw => wset lw (set_next (Some w));;; grantLoop fuel' first (Some w)
              end
          end
  end.

Definition release (fuel : nat) : sprog unit :=
  prim (fun x => [(set_permits (permits x + 1) x, tt)]);;;
  wc <- sload waiterCount;;
  if wc =? 0 then Ret tt
  else
    spinLock;;;
    chain <- grantLoop fuel None None;;
    spinUnlock;;;
    match chain.2 with None => Ret tt | Some lw => wset lw (set_next None) end;;;
    notifyChain fuel chain.1.

(** ** Clients *)

Inductive client_op :=
| CAcquire (task : bool)                 (** from a task, or from a thread *)
| CTryAcquire
| CRelease
| CCallback (early late : bool)          (** with a callback, cancelled before or after *)
| CStale (j : nat)                       (** a wake-up left over from an earlier wait of [j] *)
| CStop.

Definition acquireCallback (fuel i : nat) (early late : bool) : sprog unit :=
  w <- newWaiter (PCallback i) 0;;
  (if early then cancel w;;; Ret tt else Ret tt);;;
  r <- acquireOrEnqueue fuel w;;
  match r with
  | EqReady => endWaiter w;;; log (Acquired i)
  | EqCancelled => endWaiter w
  | EqEnqueued =>
      b <- (if late then cancel w else Ret false);;
      if b : bool then endWaiter w
      else awaitCallback w;;; endWaiter w;;; log (Acquired i)
  end.

(** Whether the client goes on: an unwound one does not. *)
Definition run_op (fuel i : nat) (o : client_op) : sprog bool :=
  match o with
  | CAcquire task =>
      r <- acquire fuel (if task then PTask i else PThread i);;
      match r with
      | AcquiredOk => log (Acquired i);;; Ret true
      | AcquiredUnwound true => Ret false
      | AcquiredUnwound false => log (Lost i);;; Ret false
      end
  | CTryAcquire => b <- tryAcquire fuel;; (if b : bool then log (Acquired i) else Ret tt);;; Ret true
  | CRelease => log (Released i);;; release fuel;;; Ret true
  | CCallback early late => acquireCallback fuel i early late;;; Ret true
  | CStale j => unpark j;;; Ret true
  | CStop => store (set_stop true);;; Ret true
  end.

Fixpoint run_ops (fuel i : nat) (l : list client_op) : sprog unit :=
  match l with
  | [] => Ret tt
  | o :: l' => go <- run_op fuel i o;; if go : bool then run_ops fuel i l' else Ret tt
  end.

Definition sem_pool (fuel : nat) (initial : Z) (l : list (list client_op)) : config (sworld Semaphore) unit :=
  (imap (run_ops fuel) l, init_sworld (MkSem initial 0 []) 1).
