(* ===== verification/SemaphoreSpec.v ===== *)
(** * Semaphore: no permit is made up, no wake-up is lost

    The invariant counts permits: those in [permits], those on their way to a
    waiter or a client, those the clients hold.  For wake-ups it says that
    while somebody waits (or has decided to) and a permit is there, some
    releaser is still going to look. *)

From Stdlib Require Import ZArith Lia.
From stdpp Require Import base tactics list numbers option strings functions.
From S2P Require Import Prelude Conc Sums WaitList Waiting WaitingInv WaitingRules Semaphore.

(** What a thread is doing to the counts: announced and not queued; a permit
    taken and not recorded; a release recorded and not added; found no permit
    after announcing; added a permit and not looked for waiters yet. *)
Record spl := SP { ann : nat; own : nat; pend : nat; chk : bool; rel : bool }.

Definition idle : spl := SP 0 0 0 false false.

Definition acquiredCount (es : list event) : nat := lsum (fun e => match e with Acquired _ => 1 | _ => 0 end)%nat es.
Definition releasedCount (es : list event) : nat := lsum (fun e => match e with Released _ => 1 | _ => 0 end)%nat es.
Definition lostCount (es : list event) : nat := lsum (fun e => match e with Lost _ => 1 | _ => 0 end)%nat es.

Section spec.
Context (n : nat) (initial : Z).

Notation total := (total n).
Notation some := (some n).
Notation others := (others n chk).

Record sinv (x : Semaphore) (gl : list (list nat)) (hd : option nat) (pf : nat -> spl) (gr : nat * nat) : Prop := {
  si_pos : 0 <= permits x;
  si_list : exists ws, gl = [ws] /\ waiterCount x = Z.of_nat (length ws + total ann pf) /\
    (ws <> [] \/ some chk pf -> 0 < permits x -> some rel pf);
  si_count : permits x + Z.of_nat (total own pf + total pend pf + gr.1 + acquiredCount (events x) + lostCount (events x)) =
    initial + Z.of_nat (releasedCount (events x));
  si_hold : forall i, (i < n)%nat -> ann (pf i) <> 0%nat \/ chk (pf i) = true -> hd = Some i;
  si_chk : forall i, (i < n)%nat -> chk (pf i) = true -> ann (pf i) <> 0%nat
}.

Definition calm (l : spl) : Prop := rel l = false /\ own l = 0%nat /\ pend l = 0%nat.

Notation R := (wproto n (fun _ : Semaphore => tt) sinv calm).
Notation at_ := (at_ (fun _ : Semaphore => tt)).

Lemma sinv_lock x gl f gr i : (i < n)%nat -> sinv x gl None f gr -> sinv x gl (Some i) f gr.
Proof.
  intros Hi [H1 H2 H3 H4 H5]. split; try done. intros j Hj Ha. by specialize (H4 j Hj Ha).
Qed.

(** A thread changes its own counts: what has to be shown. *)
Lemma sinv_step x gl hd pf gr i l l' x' gl' gr' ws ws' :
  (i < n)%nat -> pf i = l -> sinv x gl hd pf gr -> gl = [ws] -> gl' = [ws'] ->
  0 <= permits x' ->
  waiterCount x' + Z.of_nat (length ws + ann l) = waiterCount x + Z.of_nat (length ws' + ann l') ->
  permits x' + Z.of_nat (own l' + pend l' + gr'.1 + acquiredCount (events x') + lostCount (events x') + releasedCount (events x)) =
    permits x + Z.of_nat (own l + pend l + gr.1 + acquiredCount (events x) + lostCount (events x) + releasedCount (events x')) ->
  (ann l' <> 0%nat \/ chk l' = true -> hd = Some i) ->
  (chk l' = true -> ann l' <> 0%nat) ->
  ((others pf i -> hd <> Some i) -> ws' <> [] \/ chk l' = true \/ others pf i -> 0 < permits x' ->
   rel l' = true \/ rel l = false /\ 0 < permits x /\ (ws <> [] \/ chk l = true \/ others pf i)) ->
  sinv x' gl' hd (<[i := l']> pf) gr'.
Proof.
  intros Hi Hl [H1 (ws0 & Hgl & Hwc & Hphi) H3 H4 H5] -> -> Hpos Hw Hc Hh Hck Hob. injection Hgl as <-.
  pose proof (total_upd n ann pf i l l' Hi Hl). pose proof (total_upd n own pf i l l' Hi Hl). pose proof (total_upd n pend pf i l l' Hi Hl).
  split.
  - done.
  - exists ws'. split; [done|]. split; [lia|]. intros Ho Hp.
    assert (Hother : others pf i -> hd <> Some i).
    { intros (j & Hj & Hji & E). specialize (H4 j Hj (or_intror E)). congruence. }
    destruct (Hob Hother) as [Hr|(Hr & Hp' & Ho')]; [|done|by apply some_here|].
    + destruct Ho as [Ho|[?|?]%some_upd]; [by left|right; by left|right; by right].
    + destruct Hphi as (j & Hj & Hjr); [|done|].
      * destruct Ho' as [?|[Hck'|(j & Hj & _ & Hjc)]]; [by left|right; exists i; split; [done|by rewrite Hl]|right; by exists j].
      * destruct (decide (j = i)) as [->|]; [|by eapply some_ne]. apply some_here; [done|]. rewrite Hl in Hjr. congruence.
  - lia.
  - intros j Hj. destruct (decide (j = i)) as [->|]; [rewrite fn_lookup_insert; auto|rewrite fn_lookup_insert_ne by done; auto].
  - intros j Hj. destruct (decide (j = i)) as [->|]; [rewrite fn_lookup_insert; auto|rewrite fn_lookup_insert_ne by done; auto].
Qed.

(** ** The accesses to the counts *)

Lemma rg_count {A B} C i h o hand l (f : Semaphore -> list (Semaphore * B)) (k : B -> sprog A) Q :
  (forall h l, stable R i (at_with (fun _ => tt) C i h o hand None l)) -> (forall x, f x <> []) ->
  (forall x gl hd pf gr x' z, (x', z) ∈ f x -> pf i = l -> sinv x gl hd pf gr ->
     match h with Some gl0 => hd = Some i /\ gl = gl0 | None => hd <> Some i end ->
     exists l', sinv x' gl hd (<[i := l']> pf) gr /\
       rg R i (k z) (at_with (fun _ => tt) C i ((fun gl => (gl, tt)) <$> h) o hand None l') Q) ->
  rg R i (bind (prim f) k) (at_with (fun _ => tt) C i ((fun gl => (gl, tt)) <$> h) o hand None l) Q.
Proof.
  intros HS Hne Hk. apply rg_prim_with; [done|done|]. intros x gl hd pf gr x' z Hin Hl Hp Hh.
  destruct (Hk x gl hd pf gr x' z Hin Hl Hp) as (l' & Hp' & Hrg).
  { destruct h as [gl0|]; [|done]. by destruct Hh as (? & ? & ?). }
  exists l', ((fun gl => (gl, tt)) <$> h). splits; try done. by destruct h.
Qed.

Lemma take_false x gl hd pf gr i l l' :
  (i < n)%nat -> pf i = l -> sinv x gl hd pf gr -> permits x = 0 ->
  ann l' = ann l -> own l' = own l -> pend l' = pend l -> (chk l' = true -> hd = Some i /\ ann l <> 0%nat) ->
  sinv x gl hd (<[i := l']> pf) gr.
Proof.
  intros Hi Hl Hs H0 E1 E2 E3 Hc. destruct (si_list _ _ _ _ _ Hs) as (ws & -> & _).
  eapply (sinv_step x [ws] hd pf gr i l l' x [ws] gr ws ws); try done; try lia.
  - intros [Ha|Ha]; [|by apply Hc]. rewrite E1, <- Hl in Ha. eapply (si_hold _ _ _ _ _ Hs); [done|by left].
  - intros Ha. rewrite E1. by apply Hc.
Qed.

(** The loop that takes a permit: with the permit it owns one more; without,
    there was a moment without permits. *)
Lemma rg_takeLoop {A} C i h o hand l l' fuel : forall count (k : bool -> sprog A) Q,
  (i < n)%nat -> (forall h l, stable R i (at_with (fun _ => tt) C i h o hand None l)) ->
  rel l = false \/ rel l = true /\ is_Some h -> chk l = false ->
  ann l' = ann l -> own l' = own l -> pend l' = pend l -> (chk l' = true -> is_Some h /\ ann l <> 0%nat) ->
  rg R i (k true) (at_with (fun _ => tt) C i ((fun gl => (gl, tt)) <$> h) o hand None (SP (ann l) (S (own l)) (pend l) (chk l) (rel l))) Q ->
  rg R i (k false) (at_with (fun _ => tt) C i ((fun gl => (gl, tt)) <$> h) o hand None l') Q ->
  (0 < count -> rg R i (bind (takeLoop fuel count) k) (at_with (fun _ => tt) C i ((fun gl => (gl, tt)) <$> h) o hand None l) Q) /\
  (count <= 0 -> rg R i (bind (takeLoop fuel count) k) (at_with (fun _ => tt) C i ((fun gl => (gl, tt)) <$> h) o hand None l') Q).
Proof.
  induction fuel as [|fuel IH]; intros count k Q Hi HS Hr Hnc E1 E2 E3 Hc Ht Hf; [done|].
  split; intros Hcount; cbn [takeLoop].
  2:{ destruct (Z.leb_spec count 0); [exact Hf|lia]. }
  destruct (Z.leb_spec count 0); [lia|]. apply rg_bind_assoc. apply rg_count; [done| |].
  { intros x. by destruct (permits x =? count). }
  intros x gl hd pf gr x' [b z] Hin Hl Hs Hh.
  assert (Hstay : forall z, b = false -> x' = x -> z = permits x ->
    exists l', sinv x' gl hd (<[i := l']> pf) gr /\
      rg R i (bind (takeLoop fuel z) k) (at_with (fun _ => tt) C i ((fun gl => (gl, tt)) <$> h) o hand None l') Q).
  { intros z0 -> -> ->. pose proof (si_pos _ _ _ _ _ Hs) as Hpos. destruct (decide (permits x = 0)) as [E0|E0].
    - exists l'. split; [|apply (IH (permits x)); try done; lia].
      eapply take_false; try done. intros Hck. destruct (Hc Hck) as [[gl0 ->] ?]. by destruct Hh.
    - exists l. split; [|apply (IH (permits x)); try done; lia].
      destruct (si_list _ _ _ _ _ Hs) as (ws & -> & _).
      eapply (sinv_step x [ws] hd pf gr i l l x [ws] gr ws ws); try done; try lia.
      + intros Ha. eapply (si_hold _ _ _ _ _ Hs); [done|]. by rewrite Hl.
      + intros Ha. rewrite <- Hl. eapply (si_chk _ _ _ _ _ Hs); [done|]. by rewrite Hl.
      + intros _ Ho Hp. destruct (rel l) eqn:Erl; [by left|right; tauto]. }
  destruct (Z.eqb_spec (permits x) count) as [Ep|Ep].
  - apply elem_of_cons in Hin as [Hin|Hin%list_elem_of_singleton]; injection Hin as -> -> ->.
    + exists (SP (ann l) (S (own l)) (pend l) (chk l) (rel l)). split; [|exact Ht].
      destruct (si_list _ _ _ _ _ Hs) as (ws & -> & _).
      eapply (sinv_step x [ws] hd pf gr i l _ (set_permits (count - 1) x) [ws] gr ws ws); simpl; try done; try lia.
      * intros Ha. eapply (si_hold _ _ _ _ _ Hs); [done|]. by rewrite Hl.
      * congruence.
      * intros _ Ho Hp. destruct (rel l) eqn:Erl; [by left|right]. splits; try done; try lia; tauto.
    + by apply Hstay.
  - apply list_elem_of_singleton in Hin. injection Hin as -> -> ->. by apply Hstay.
Qed.

Notation lk h := ((fun gl : list (list nat) => (gl, tt)) <$> h).
Notation with_c C := (at_with (fun _ : Semaphore => tt) C).

(** Loading the count first. *)
Lemma rg_loadTake {A} C i h o hand l l' fuel (k : bool -> sprog A) Q :
  (i < n)%nat -> (forall h l, stable R i (with_c C i h o hand None l)) ->
  rel l = false \/ rel l = true /\ is_Some h -> chk l = false ->
  ann l' = ann l -> own l' = own l -> pend l' = pend l -> (chk l' = true -> is_Some h /\ ann l <> 0%nat) ->
  rg R i (k true) (with_c C i (lk h) o hand None (SP (ann l) (S (own l)) (pend l) (chk l) (rel l))) Q ->
  rg R i (k false) (with_c C i (lk h) o hand None l') Q ->
  rg R i (bind (sload permits) (fun c => bind (takeLoop fuel c) k)) (with_c C i (lk h) o hand None l) Q.
Proof.
  intros Hi HS Hr Hnc E1 E2 E3 Hc Ht Hf. apply rg_count; [done|done|].
  intros x gl hd pf gr x' z Hin Hl Hs Hh. apply list_elem_of_singleton in Hin. injection Hin as -> ->.
  pose proof (si_pos _ _ _ _ _ Hs) as Hpos. destruct (decide (permits x = 0)) as [E0|E0].
  - exists l'. split.
    + eapply take_false; try done. intros Hck. destruct (Hc Hck) as [[gl0 ->] ?]. by destruct Hh.
    + apply (rg_takeLoop C i h o hand l l'); try done. lia.
  - exists l. split.
    + destruct (si_list _ _ _ _ _ Hs) as (ws & -> & _).
      eapply (sinv_step x [ws] hd pf gr i l l x [ws] gr ws ws); try done; try lia.
      * intros Ha. eapply (si_hold _ _ _ _ _ Hs); [done|]. by rewrite Hl.
      * congruence.
      * intros _ Ho Hp. destruct (rel l) eqn:Erl; [by left|right; tauto].
    + apply (rg_takeLoop C i h o hand l l'); try done. lia.
Qed.

Lemma with_true i h o hand (l : spl) : forall s g, with_c (fun _ => True) i h o hand None l s g <-> at_ i h o hand None l s g.
Proof. intros s g. split; [by intros [? _]|by split]. Qed.

Lemma stable_true i h o hand (l : spl) : stable R i (with_c (fun _ => True) i h o hand None l).
Proof. apply stable_and; [apply at_stable|apply (stable_const R i True)]. Qed.

Lemma rg_true {A} i h o hand l (p : sprog A) Q :
  rg R i p (with_c (fun _ => True) i h o hand None l) Q <-> rg R i p (at_ i h o hand None l) Q.
Proof. split; apply rg_pre; intros s g _; apply with_true. Qed.

Lemma rg_tryAcquire {A} i h o hand l l' fuel (k : bool -> sprog A) Q :
  (i < n)%nat -> rel l = false -> chk l = false ->
  ann l' = ann l -> own l' = own l -> pend l' = pend l -> (chk l' = true -> is_Some h /\ ann l <> 0%nat) ->
  rg R i (k true) (at_ i (lk h) o hand None (SP (ann l) (S (own l)) (pend l) (chk l) (rel l))) Q ->
  rg R i (k false) (at_ i (lk h) o hand None l') Q ->
  rg R i (bind (tryAcquire fuel) k) (at_ i (lk h) o hand None l) Q.
Proof.
  intros Hi Hr Hnc E1 E2 E3 Hc Ht Hf. apply rg_bind_assoc. apply rg_true.
  apply (rg_loadTake (fun _ => True) i h o hand l l'); try done; [intros ? ?; apply stable_true|by left|by apply rg_true..].
Qed.

(** One access that always happens, in any context. *)
Lemma rg_access {A} C i h o hand l l' (f : Semaphore -> Semaphore) (k : unit -> sprog A) Q :
  (forall h l, stable R i (with_c C i h o hand None l)) ->
  (forall x gl hd pf gr, pf i = l -> sinv x gl hd pf gr ->
     match h with Some gl0 => hd = Some i /\ gl = gl0 | None => hd <> Some i end -> sinv (f x) gl hd (<[i := l']> pf) gr) ->
  rg R i (k tt) (with_c C i (lk h) o hand None l') Q ->
  rg R i (bind (prim (fun x => [(f x, tt)])) k) (with_c C i (lk h) o hand None l) Q.
Proof.
  intros HS Hp Hk. apply rg_count; [done|done|].
  intros x gl hd pf gr x' [] Hin Hl Hs Hh. apply list_elem_of_singleton in Hin. injection Hin as ->.
  exists l'. split; [by apply Hp|done].
Qed.

Lemma rg_addWaiters {A} C i gl o hand l d (a : nat) (k : unit -> sprog A) Q :
  (i < n)%nat -> (forall h l, stable R i (with_c C i h o hand None l)) ->
  Z.of_nat a = Z.of_nat (ann l) + d -> chk l = false ->
  rg R i (k tt) (with_c C i (lk (Some gl)) o hand None (SP a (own l) (pend l) false (rel l))) Q ->
  rg R i (bind (addWaiters d) k) (with_c C i (lk (Some gl)) o hand None l) Q.
Proof.
  intros Hi HS Ha Hc Hk. eapply rg_access; [done| |exact Hk].
  intros x gl' hd pf gr Hl Hs [-> ->]. destruct (si_list _ _ _ _ _ Hs) as (ws & -> & _).
  eapply (sinv_step x [ws] (Some i) pf gr i l _ _ [ws] gr ws ws); simpl; try done; try lia.
  - apply Hs.
  - intros _ Ho Hp. destruct (rel l) eqn:Erl; [by left|right]. splits; try done. naive_solver.
Qed.

Lemma rg_log {A} i o hand e l l' (k : unit -> sprog A) Q :
  (i < n)%nat -> ann l = 0%nat -> chk l = false -> rel l = false ->
  match e with
  | Acquired _ | Lost _ => l' = SP 0 (own l - 1) (pend l) false false /\ own l <> 0%nat
  | Released _ => l' = SP 0 (own l) (S (pend l)) false false
  end ->
  rg R i (k tt) (at_ i None o hand None l') Q ->
  rg R i (bind (log e) k) (at_ i None o hand None l) Q.
Proof.
  intros Hi Ha Hc Hr He Hk. apply rg_true. eapply (rg_access _ i None); [intros ? ?; apply stable_true| |by apply rg_true].
  intros x gl' hd pf gr Hl Hs Hh. destruct (si_list _ _ _ _ _ Hs) as (ws & -> & _).
  destruct e as [j|j|j]; [destruct He as [-> Ho]|rewrite He|destruct He as [-> Ho]];
    eapply (sinv_step x [ws] hd pf gr i l _ _ [ws] gr ws ws); simpl; unfold acquiredCount, lostCount, releasedCount;
    rewrite ?lsum_cons; simpl; try done; try lia; try (apply Hs); try naive_solver.
Qed.

(** ** Acquiring *)

Lemma sinv_ext x gl hd f f' gr : (forall j, f' j = f j) -> sinv x gl hd f gr -> sinv x gl hd f' gr.
Proof.
  intros Hf [H1 (ws & Hgl & Hw & Hphi) H3 H4 H5].
  assert (Ht : forall h, total h f' = total h f) by (intros h; by apply total_ext).
  assert (Hs : forall h, some h f' <-> some h f) by (intros h; by apply some_ext).
  split; rewrite ?Ht; try done.
  - exists ws. rewrite ?Ht, !Hs. done.
  - intros j. rewrite Hf. apply H4.
  - intros j. rewrite Hf. apply H5.
Qed.

Lemma sinv_same i l x gl hd f gr : f i = l -> sinv x gl hd f gr -> sinv x gl hd (<[i := l]> f) gr.
Proof.
  intros Hl. apply sinv_ext. intros j. by apply insert_same_fn.
Qed.

Lemma sinv_unlock i l x gl f gr :
  f i = l -> ann l = 0%nat -> chk l = false -> sinv x gl (Some i) f gr -> sinv x gl None f gr.
Proof.
  intros Hl Ha Hc [H1 H2 H3 H4 H5]. split; try done. intros j Hj Hor. pose proof (H4 j Hj Hor) as [= ->].
  rewrite Hl in Hor. destruct Hor; congruence.
Qed.

Lemma rg_sunlock {A} i gl o hand l (k : unit -> sprog A) Q :
  ann l = 0%nat -> chk l = false ->
  rg R i (k tt) (at_ i None o hand None l) Q ->
  rg R i (bind spinUnlock k) (at_ i (Some (gl, tt)) o hand None l) Q.
Proof.
  intros Ha Hc Hk. apply (rg_unlock _ _ _ _ i gl tt o hand None l l); [|done]. intros x f gr Hl _ Hs. apply sinv_same; [done|].
  by eapply sinv_unlock.
Qed.

Lemma rg_slock {A} i o hand l (k : unit -> sprog A) Q :
  (i < n)%nat -> (forall gl, rg R i (k tt) (at_ i (lk (Some gl)) o hand None l) Q) ->
  rg R i (bind spinLock k) (at_ i None o hand None l) Q.
Proof. intros Hi Hk. apply rg_lock; [intros; by apply sinv_lock|done|]. intros gl []. apply Hk. Qed.

Lemma rg_addWaiters_at {A} i gl o hand l d (a : nat) (k : unit -> sprog A) Q :
  (i < n)%nat -> Z.of_nat a = Z.of_nat (ann l) + d -> chk l = false ->
  rg R i (k tt) (at_ i (lk (Some gl)) o hand None (SP a (own l) (pend l) false (rel l))) Q ->
  rg R i (bind (addWaiters d) k) (at_ i (lk (Some gl)) o hand None l) Q.
Proof.
  intros Hi Ha Hc Hk. apply rg_true. eapply rg_addWaiters; try done; [intros ? ?; apply stable_true|by apply rg_true].
Qed.

(** The lock section has exactly one list. *)
Lemma rg_one_list {A} i gl o hand l (p : sprog A) Q :
  (forall ws, gl = [ws] -> rg R i p (at_ i (Some (gl, tt)) o hand None l) Q) ->
  rg R i p (at_ i (Some (gl, tt)) o hand None l) Q.
Proof.
  intros H. apply (rg_pure_from R i p (exists ws, gl = [ws])); [|by intros [ws Hws]; eauto].
  intros s g HI [[(_ & <- & _) _ _ _ _] _]. destruct (si_list _ _ _ _ _ (wi_prim _ _ _ _ HI)) as (ws & ? & _). eauto.
Qed.

(** Joining the queue, after announcing and finding no permit. *)
Lemma rg_spush {A} i gl w x (k : unit -> sprog A) Q :
  (i < n)%nat -> wcalled x = false -> wtag x = 0%nat ->
  (forall gl', rg R i (k tt) (at_ i (Some (gl', tt)) (Some (w, queued_stage (wparty x) 0)) [] None idle) Q) ->
  rg R i (bind (pushBack 0 w) k) (at_ i (Some (gl, tt)) (Some (w, SFresh x)) [] None (SP 1 0 0 true false)) Q.
Proof.
  intros Hi Hx Hg Hk. apply rg_one_list. intros ws ->. apply (rg_pushBack _ _ _ _ i [ws] tt w x [] None _ idle 0 ws); [done|done|done| |apply Hk].
  intros z f gr Hf _ Hs. eapply (sinv_step z [ws] (Some i) f gr i _ idle z _ gr ws (ws ++ [w])); try done; simpl; try apply Hs.
  - rewrite length_app. simpl. lia.
  - intros _ _ Hp. right. splits; try done. right. by left.
Qed.

Lemma rg_leaveEarly {A} i w p (k : bool -> sprog A) Q :
  (i < n)%nat ->
  (forall x, wcalled x = false -> rg R i (k true) (at_ i None (Some (w, SFresh x)) [] None idle) Q) ->
  rg R i (k false) (at_ i None (Some (w, SSat p 0)) [] None idle) Q ->
  rg R i (bind (leaveEarly 0 w (addWaiters (-1))) k) (at_ i None (Some (w, SWait p 0)) [] None idle) Q.
Proof.
  intros Hi Ht Hf. unfold leaveEarly. apply rg_bind_assoc, rg_slock; [done|]. intros gl.
  apply rg_bind_assoc, rg_one_list. intros ws ->. eapply rg_linked.
  - intros ws' [= <-] Hw. apply rg_bind_assoc, rg_bind_assoc.
    apply (rg_unlink _ _ _ _ i [ws] tt w p 0 ws [] None idle (SP 1 0 0 false false)); try done.
    + intros z f gr Hnd Hfi _ Hs. eapply (sinv_step z [ws] (Some i) f gr i idle _ z _ gr ws (remove w ws)); try done; simpl; try apply Hs.
      * pose proof (length_remove w ws Hnd Hw). lia.
      * intros _ Ho Hp. right. splits; try done. left. intros ->. by apply elem_of_nil in Hw.
    + intros x Hpx Hcx _. apply (rg_addWaiters_at i [remove w ws] _ _ _ (-1) 0%nat); try done.
      apply rg_bind_assoc, rg_sunlock; [done|done|]. by apply Ht.
  - apply rg_bind_assoc, rg_sunlock; [done|done|]. apply rg_bind_assoc, rg_awaitNotifier; done.
Qed.

Lemma rg_end_granted {A} i w p (k : unit -> sprog A) Q :
  (i < n)%nat ->
  rg R i (k tt) (at_ i None None [] None (SP 0 1 0 false false)) Q ->
  rg R i (bind (endWaiter w) k) (at_ i None (Some (w, SSat p 0)) [] None idle) Q.
Proof.
  intros Hi Hk. eapply (rg_end _ _ _ _ i None w (SSat p 0)); [|exact Hk].
  intros z gl hd f gr Hl Hh Hs. destruct (si_list _ _ _ _ _ Hs) as (ws & -> & _).
  eapply (sinv_step z [ws] hd f (bump 0 gr) i idle _ z [ws] gr ws ws); try done; simpl; try lia; try apply Hs.
  - tauto.
Qed.

Lemma rg_end_fresh {A} i w x l (k : unit -> sprog A) Q :
  wcalled x = false ->
  rg R i (k tt) (at_ i None None [] None l) Q ->
  rg R i (bind (endWaiter w) k) (at_ i None (Some (w, SFresh x)) [] None l) Q.
Proof.
  intros Hx Hk. eapply (rg_end _ _ _ _ i None w (SFresh x)); [|exact Hk]. splits; try done. intros. by apply sinv_same.
Qed.

Lemma rg_acquireSlow {A} i p fuel (k : acquired -> sprog A) Q :
  (i < n)%nat -> party_of p = i -> is_callback p = false ->
  rg R i (k AcquiredOk) (at_ i None None [] None (SP 0 1 0 false false)) Q ->
  rg R i (k (AcquiredUnwound true)) (at_ i None None [] None idle) Q ->
  rg R i (k (AcquiredUnwound false)) (at_ i None None [] None (SP 0 1 0 false false)) Q ->
  rg R i (bind (acquireSlow fuel p) k) (at_ i None None [] None idle) Q.
Proof.
  intros Hi Hp Hc Hok Ht Hf. unfold acquireSlow. apply rg_bind_assoc, rg_new; [done|done|]. intros w.
  apply rg_bind_assoc, rg_slock; [done|]. intros gl.
  apply rg_bind_assoc, (rg_addWaiters_at i gl _ _ idle 1 1%nat); try done.
  apply rg_bind_assoc, (rg_tryAcquire i (Some gl) _ [] _ (SP 1 0 0 true false)); try done.
  - apply rg_bind_assoc, (rg_addWaiters_at i gl _ _ _ (-1) 0%nat); try done.
    apply rg_bind_assoc, rg_sunlock; [done|done|]. by apply rg_bind_assoc, rg_end_fresh.
  - apply rg_bind_assoc, rg_spush; [done|done|done|]. intros gl'. apply rg_bind_assoc, rg_sunlock; [done|done|].
    cbn [new_waiter wparty]. unfold queued_stage. rewrite Hc. apply rg_bind_assoc, rg_wait; [done| |].
    + by apply rg_bind_assoc, (rg_end_granted i w p).
    + apply rg_bind_assoc, rg_leaveEarly; [done| |].
      * intros x Hx. by apply rg_bind_assoc, rg_end_fresh.
      * by apply rg_bind_assoc, (rg_end_granted i w p).
Qed.

Lemma rg_acquire {A} i p fuel (k : acquired -> sprog A) Q :
  (i < n)%nat -> party_of p = i -> is_callback p = false ->
  rg R i (k AcquiredOk) (at_ i None None [] None (SP 0 1 0 false false)) Q ->
  rg R i (k (AcquiredUnwound true)) (at_ i None None [] None idle) Q ->
  rg R i (k (AcquiredUnwound false)) (at_ i None None [] None (SP 0 1 0 false false)) Q ->
  rg R i (bind (acquire fuel p) k) (at_ i None None [] None idle) Q.
Proof.
  intros Hi Hp Hc Hok Ht Hf. unfold acquire. apply rg_bind_assoc, (rg_tryAcquire i None None [] idle idle); try done.
  by apply rg_acquireSlow.
Qed.

(** ** Callback waiters *)

Lemma rg_acquireOrEnqueue {A} i w x fuel (k : EnqueueResult -> sprog A) Q :
  (i < n)%nat -> wcalled x = false -> wtag x = 0%nat -> is_callback (wparty x) = true ->
  rg R i (k EqReady) (at_ i None (Some (w, SFresh x)) [] None (SP 0 1 0 false false)) Q ->
  rg R i (k EqCancelled) (at_ i None (Some (w, SFresh x)) [] None idle) Q ->
  rg R i (k EqEnqueued) (at_ i None (Some (w, SCall (wparty x) 0)) [] None idle) Q ->
  rg R i (bind (acquireOrEnqueue fuel w) k) (at_ i None (Some (w, SFresh x)) [] None idle) Q.
Proof.
  intros Hi Hx Hg Hc Hr Hca He. unfold acquireOrEnqueue. apply rg_bind_assoc, (rg_tryAcquire i None _ [] idle idle); try done.
  apply rg_bind_assoc, rg_slock; [done|]. intros gl. apply rg_bind_assoc, rg_read_own.
  destruct (wcancelled x); [by apply rg_bind_assoc, rg_sunlock|].
  apply rg_bind_assoc, (rg_addWaiters_at i gl _ _ idle 1 1%nat); try done.
  apply rg_bind_assoc, (rg_tryAcquire i (Some gl) _ [] _ (SP 1 0 0 true false)); try done.
  - apply rg_bind_assoc, (rg_addWaiters_at i gl _ _ _ (-1) 0%nat); try done. by apply rg_bind_assoc, rg_sunlock.
  - apply rg_bind_assoc, rg_spush; [done|done|done|]. intros gl'. unfold queued_stage. rewrite Hc. by apply rg_bind_assoc, rg_sunlock.
Qed.

Lemma rg_cancelSem {A} i w st (k : bool -> sprog A) Q :
  (i < n)%nat -> (match st with SFresh _ => True | SCall _ k' => k' = 0%nat | _ => False end) ->
  rg R i (k false) (at_ i None (Some (w, match st with SFresh x => SFresh (set_cancelled true x) | _ => st end)) [] None idle) Q ->
  (forall p x, st = SCall p 0 -> wcalled x = false -> rg R i (k true) (at_ i None (Some (w, SFresh x)) [] None idle) Q) ->
  rg R i (bind (cancel w) k) (at_ i None (Some (w, st)) [] None idle) Q.
Proof.
  intros Hi Hst Hf Ht. unfold cancel. apply rg_bind_assoc, rg_slock; [done|]. intros gl.
  apply rg_bind_assoc, rg_one_list. intros ws ->.
  apply (rg_cancel _ _ _ _ i [ws] tt w st 0 ws); try done.
  - intros. by apply sinv_same.
  - by apply rg_bind_assoc, rg_sunlock.
  - intros p Hp Hw. exists (SP 1 0 0 false false). split.
    + intros z f gr Hnd Hfi _ Hs. eapply (sinv_step z [ws] (Some i) f gr i idle _ z _ gr ws (remove w ws)); try done; simpl; try apply Hs.
      * pose proof (length_remove w ws Hnd Hw). lia.
      * intros _ Ho Hpos. right. splits; try done. left. intros ->. by apply elem_of_nil in Hw.
    + intros x Hpx Hcx _. apply rg_bind_assoc, (rg_addWaiters_at i [remove w ws] _ _ _ (-1) 0%nat); try done.
      apply rg_bind_assoc, rg_sunlock; [done|done|]. by eapply Ht.
Qed.

(** ** Releasing *)

Notation at_chain := (at_chain (fun _ : Semaphore => tt) None).
Definition releasing : spl := SP 0 0 0 false true.

Lemma rg_one_list_chain {A} i gl l first hand (p : sprog A) Q :
  (forall ws, gl = [ws] -> rg R i p (at_chain i (Some (gl, tt)) l first hand) Q) ->
  rg R i p (at_chain i (Some (gl, tt)) l first hand) Q.
Proof.
  intros H. apply (rg_pure_from R i p (exists ws, gl = [ws])); [|by intros [ws Hws]; eauto].
  intros s g HI [[[(_ & <- & _) _ _ _ _] _] _]. destruct (si_list _ _ _ _ _ (wi_prim _ _ _ _ HI)) as (ws & ? & _). eauto.
Qed.

(** The chain and its end. *)
Definition ends_at (first last : option nat) (hand : list nat) : Prop :=
  match last with None => first = None /\ hand = [] | Some lw => exists h, hand = h ++ [lw] end.

(** The releaser stops looking: nobody is queued, or there was no permit. *)
Lemma stop_looking x ws pf gr i :
  (i < n)%nat -> pf i = releasing -> sinv x [ws] (Some i) pf gr -> ws = [] \/ permits x = 0 ->
  sinv x [ws] (Some i) (<[i := idle]> pf) gr.
Proof.
  intros Hi Hl Hs Hor. eapply (sinv_step x [ws] (Some i) pf gr i releasing idle x [ws] gr ws ws); try done; try apply Hs.
  intros Hot Ho Hp. exfalso. destruct Hor as [->|H0]; [|lia]. destruct Ho as [?|[?|?]]; try done. by apply Hot.
Qed.

Lemma rg_grantLoop {A} i fuel : forall gl first last hand (k : option nat * option nat -> sprog A) Q,
  (i < n)%nat -> ends_at first last hand ->
  (forall gl first last hand, ends_at first last hand -> rg R i (k (first, last)) (at_chain i (lk (Some gl)) idle first hand) Q) ->
  rg R i (bind (grantLoop fuel first last) k) (at_chain i (lk (Some gl)) releasing first hand) Q.
Proof.
  induction fuel as [|fuel IH]; intros gl first last hand k Q Hi Hends Hk; [done|]. cbn [grantLoop].
  apply rg_one_list_chain. intros ws ->. apply rg_bind_assoc. eapply (rg_isEmpty _ _ _ _ i [ws] tt _ _ _ 0 ws); [done| |].
  - intros Hws. exists idle. split; [|by apply Hk]. intros z f gr Hf _ Hs. apply stop_looking; auto.
  - intros Hne. apply rg_bind_assoc.
    eapply rg_bind_mono; [intros a P0 Q0; apply rg_bind_assoc|].
    eapply (rg_pre R i _ (with_c _ i (lk (Some [ws])) None hand None releasing)); [|].
    2:{ eapply (rg_loadTake (fun c => NoDup hand /\ chained c first hand) i (Some [ws]) None hand releasing idle fuel
          (fun taken => bind _ k) Q); try done.
        - intros h l. apply (stable_chain n (fun _ : Semaphore => tt) sinv calm None i h l first hand).
        - right. done.
        - apply rg_bind_assoc. eapply (rg_popFront (o:=None) _ _ _ _ i [ws] tt _ first hand 0 ws); [done|done|done|].
          intros w ws' ->. exists (SP 1 0 0 false true). split.
          + intros z f gr Hf _ Hs.
            eapply (sinv_step z [w :: ws'] (Some i) f gr i _ _ z _ (bump 0 gr) (w :: ws') ws'); try done; simpl; try lia; try apply Hs.
          + apply rg_bind_assoc. eapply (rg_addWaiters _ i [ws'] None (w :: hand) _ (-1) 0%nat); try done.
            { intros h l. apply (stable_popped n (fun _ : Semaphore => tt) sinv calm None i h l first hand w). }
            destruct last as [lw|].
            * destruct Hends as [h ->]. apply rg_bind_assoc. eapply (rg_append (o:=None) _ _ _ _ i _ _ first h lw w).
              apply IH; [done| |done]. exists (h ++ [lw]). by rewrite <- app_assoc.
            * destruct Hends as [-> ->]. apply (rg_append_first _ _ _ _ (o:=None)). apply IH; [done| |done]. by exists [].
        - by apply Hk. }
    by intros s g _ ?.
Qed.

Lemma rg_semRelease {A} i fuel (k : unit -> sprog A) Q :
  (i < n)%nat ->
  rg R i (k tt) (at_ i None None [] None idle) Q ->
  rg R i (bind (release fuel) k) (at_ i None None [] None (SP 0 0 1 false false)) Q.
Proof.
  intros Hi Hk. unfold release. apply rg_bind_assoc, rg_true.
  eapply (rg_access _ i None _ _ _ releasing); [intros ? ?; apply stable_true| |].
  { intros x gl hd pf gr Hl Hs Hh. destruct (si_list _ _ _ _ _ Hs) as (ws & -> & _).
    pose proof (si_pos _ _ _ _ _ Hs).
    eapply (sinv_step x [ws] hd pf gr i _ _ _ [ws] gr ws ws); simpl; try done; try lia; simpl; try tauto. lia. }
  apply rg_bind_assoc. eapply (rg_count _ i None); [intros ? ?; apply stable_true|done|].
  intros x gl hd pf gr x' z Hin Hl Hs Hh. apply list_elem_of_singleton in Hin. injection Hin as -> ->.
  destruct (si_list _ _ _ _ _ Hs) as (ws & -> & Hwc & _). destruct (Z.eqb_spec (waiterCount x) 0) as [E|E].
  - exists idle. split; [|by apply rg_true]. rewrite Hwc in E.
    eapply (sinv_step x [ws] hd pf gr i releasing idle x [ws] gr ws ws); try done; try apply Hs; simpl; try tauto.
    + intros [H|H]; [by destruct H|done].
    + intros _ Ho Hp. exfalso. destruct Ho as [Hws|[?|(j & Hj & _ & Hc)]]; [|done|].
      * destruct ws; [done|]. simpl in E. lia.
      * pose proof (si_chk _ _ _ _ _ Hs j Hj Hc) as Ha. pose proof (total_elem n ann pf j Hj). lia.
  - exists releasing. split; [by apply sinv_same|]. apply rg_true.
    apply rg_bind_assoc, rg_slock; [done|]. intros gl. apply rg_bind_assoc.
    eapply (rg_pre R i _ (at_chain i (lk (Some gl)) releasing None [])).
    { intros s g _ Hat. split; [exact Hat|]. split; [apply NoDup_nil_2|done]. }
    apply rg_grantLoop; [done|done|]. intros gl' first last hand Hends.
    apply rg_bind_assoc, (rg_unlock_chain _ _ _ _ i gl' tt idle idle); [intros; apply sinv_same; [done|by eapply sinv_unlock]|].
    apply rg_bind_assoc. cbn [fst snd]. destruct last as [lw|].
    + destruct Hends as [h ->]. apply rg_close. by apply rg_notifyChain.
    + by apply rg_notifyChain.
Qed.

(** ** Clients *)

Lemma rg_acquireCallback {A} i fuel early late (k : unit -> sprog A) Q :
  (i < n)%nat ->
  rg R i (k tt) (at_ i None None [] None idle) Q ->
  rg R i (bind (acquireCallback fuel i early late) k) (at_ i None None [] None idle) Q.
Proof.
  intros Hi Hk. unfold acquireCallback. apply rg_bind_assoc, rg_new; [done|done|]. intros w.
  assert (Hlog : rg R i (bind (log (Acquired i)) k) (at_ i None None [] None (SP 0 1 0 false false)) Q).
  { by apply (rg_log i None [] (Acquired i) _ idle). }
  assert (Hmain : forall x, wcalled x = false -> wtag x = 0%nat -> wparty x = PCallback i ->
    rg R i (bind (r <- acquireOrEnqueue fuel w;;
      match r with
      | EqReady => endWaiter w;;; log (Acquired i)
      | EqCancelled => endWaiter w
      | EqEnqueued =>
          b <- (if late then cancel w else Ret false);;
          if b : bool then endWaiter w else awaitCallback w;;; endWaiter w;;; log (Acquired i)
      end) k) (at_ i None (Some (w, SFresh x)) [] None idle) Q).
  { intros x Hx Hg Hp. apply rg_bind_assoc, rg_acquireOrEnqueue; [done|done|done|by rewrite Hp| | |].
    - by apply rg_bind_assoc, rg_end_fresh.
    - by apply rg_end_fresh.
    - assert (Hawait : rg R i (bind (awaitCallback w;;; endWaiter w;;; log (Acquired i)) k)
        (at_ i None (Some (w, SCall (wparty x) 0)) [] None idle) Q).
      { apply rg_bind_assoc. eapply (rg_awaitCallback _ _ _ _ i w _ 0 idle (SP 0 1 0 false false)); [done| |].
        - intros z gl hd f gr Hl Hh Hs. destruct (si_list _ _ _ _ _ Hs) as (ws & -> & _).
          eapply (sinv_step z [ws] hd f (bump 0 gr) i idle _ z [ws] gr ws ws); try done; simpl; try lia; try apply Hs; tauto.
        - intros x' _ Hx' _. by apply rg_bind_assoc, rg_end_fresh. }
      apply rg_bind_assoc. destruct late; [|exact Hawait].
      apply (rg_cancelSem i w (SCall (wparty x) 0)); [done|done|exact Hawait|].
      intros p x' _ Hx'. by apply rg_end_fresh. }
  apply rg_bind_assoc. destruct early; [|by apply Hmain].
  apply rg_bind_assoc, (rg_cancelSem i w (SFresh _)); [done|done|by apply Hmain|done].
Qed.

Lemma rg_sem_op {A} i fuel o (k : bool -> sprog A) Q :
  (i < n)%nat -> (forall b, rg R i (k b) (at_ i None None [] None idle) Q) ->
  rg R i (bind (run_op fuel i o) k) (at_ i None None [] None idle) Q.
Proof.
  intros Hi Hk. destruct o as [task| | |early late|j|]; cbn [run_op].
  - apply rg_bind_assoc, rg_acquire; [done|by destruct task|by destruct task| |apply Hk|].
    + apply rg_bind_assoc, (rg_log i None [] (Acquired i) _ idle); try done. apply Hk.
    + apply rg_bind_assoc, (rg_log i None [] (Lost i) _ idle); try done. apply Hk.
  - apply rg_bind_assoc, (rg_tryAcquire i None None [] idle idle); try done; [|apply Hk].
    apply rg_bind_assoc, (rg_log i None [] (Acquired i) _ idle); try done. apply Hk.
  - apply rg_bind_assoc. apply (rg_log i None [] (Released i) _ (SP 0 0 1 false false)); try done. apply rg_bind_assoc, rg_semRelease; [done|apply Hk].
  - apply rg_bind_assoc, rg_acquireCallback; [done|apply Hk].
  - apply rg_bind_assoc, rg_stale; [done|apply Hk].
  - apply rg_bind_assoc, rg_set_stop. apply Hk.
Qed.

Lemma rg_run_ops i fuel l :
  (i < n)%nat ->
  rg R i (run_ops fuel i l) (at_ i None None [] None idle) (fun _ s g => exists l, calm l /\ at_ i None None [] None l s g).
Proof.
  intros Hi. induction l as [|o l IH]; cbn [run_ops].
  - intros s g _ Hat. by exists idle.
  - apply rg_sem_op; [done|]. intros [|]; [exact IH|]. intros s g _ Hat. by exists idle.
Qed.
End spec.

Lemma sem_pool_ok fuel initial l :
  0 <= initial ->
  pool_ok (wproto (length l) (fun _ => tt) (sinv (length l) initial) calm)
    (fun i _ s g => exists l, calm l /\ at_ (fun _ => tt) i None None [] None l s g) (sem_pool fuel initial l).
Proof.
  intros Hpos. apply (waiters_start _ _ _ _ _ _ 1 (fun _ => idle)); [apply length_imap| |].
  - assert (forall f : spl -> nat, f idle = 0%nat -> total (length l) f (fun _ => idle) = 0%nat) as Ht.
    { intros f Hf. by apply total_zero. }
    split; simpl; rewrite ?Ht by done; try done.
    + exists []. rewrite ?Ht by done. splits; try done. intros [?|(j & _ & Hj)]; done.
    + unfold acquiredCount, lostCount, releasedCount. simpl. lia.
  - intros i p Hp Hi. rewrite list_lookup_imap in Hp. destruct (l !! i) as [ops|] eqn:E; [|done]. injection Hp as <-.
    by apply rg_run_ops.
Qed.

(** C8: In every interleaving of tasks and threads that acquire (waiting, trying, or
    with a callback that may be cancelled), release, are woken spuriously and
    are unwound: no waiter is touched after its scope, [permits] is never
    negative, and the clients have never acquired more than the initial permits
    and those released. With one initial permit this is mutual exclusion. *)
Theorem sem_safe fuel initial l ts s :
  0 <= initial -> reach (sem_pool fuel initial l) (ts, s) ->
  (forall i m, ts !! i <> Some (Fatal m)) /\ 0 <= permits (sprim s) /\
  Z.of_nat (acquiredCount (events (sprim s)) + lostCount (events (sprim s))) <=
    initial + Z.of_nat (releasedCount (events (sprim s))).
Proof.
  intros Hpos Hr. pose proof (pool_ok_reach _ _ _ _ Hr (sem_pool_ok fuel initial l Hpos)) as Hok.
  split; [intros i m; by eapply pool_ok_not_fatal|]. destruct Hok as (g & HI & _).
  pose proof (wi_prim _ _ _ _ HI) as [H1 _ H3 _ _]. simpl in *. split; [done|lia].
Qed.

(** C9: No wake-up is lost: when nobody can move any more, everybody who has not
    returned waits in the queue, and if somebody does there is no permit; every
    permit is accounted for: held, or lost to a forced unwind. *)
Theorem sem_no_lost_wakeup fuel initial l ts s :
  0 <= initial -> reach (sem_pool fuel initial l) (ts, s) ->
  (forall i th, ts !! i = Some th -> halted s th) ->
  ((exists i X f k, ts !! i = Some (Act X f k)) -> permits (sprim s) = 0) /\
  permits (sprim s) + Z.of_nat (acquiredCount (events (sprim s)) + lostCount (events (sprim s))) =
    initial + Z.of_nat (releasedCount (events (sprim s))).
Proof.
  intros Hpos Hr Hhalt. pose proof (pool_ok_reach _ _ _ _ Hr (sem_pool_ok fuel initial l Hpos)) as Hok.
  apply reach_length in Hr. simpl in Hr. rewrite length_imap in Hr. symmetry in Hr.
  destruct (halted_waiters _ _ _ _ ts s Hr Hok Hhalt) as (g & HI & Hfree & Hcalm & Hnone & Hact).
  pose proof (wi_prim _ _ _ _ HI) as [H1 (ws & Hgl & _ & Hphi) H3 _ _].
  assert (Hzero : forall f, (forall l, calm l -> f l = 0%nat) -> total (length l) f (pl g) = 0%nat).
  { intros f Hf. apply total_zero. intros j Hj. by apply Hf, Hcalm. }
  assert (total (length l) own (pl g) = 0%nat /\ total (length l) pend (pl g) = 0%nat) as [E1 E2]
    by (split; apply Hzero; by intros ? (? & ? & ?)).
  rewrite E1, E2, Hnone in H3. cbn [fst] in H3. split; [|lia].
  intros (i & X & f & k & Hth). destruct (Hact i X f k Hth) as (w & x & m & ws' & _ & _ & Hm & Hw). rewrite Hgl in Hm.
  destruct m as [|m]; [|done]. injection Hm as <-.
  destruct (decide (permits (sprim s) = 0)) as [|Hne]; [done|]. exfalso.
  destruct Hphi as (j & Hj & Hrel); [left; intros ->; by apply elem_of_nil in Hw|lia|].
  destruct (Hcalm j Hj) as (Hr0 & _). congruence.
Qed.

(** ** Runs *)

(** Two clients of a mutex, one of them a task. *)
Definition two_clients : list (list client_op) := [[CAcquire true; CRelease]; [CAcquire false; CRelease; CCallback false true]].
Definition two_final := run_avail (round_robin 2 60) (sem_pool 9 1 two_clients).

Lemma sem_safe_witness :
  events (sprim two_final.2) <> [] /\ 0 <= permits (sprim two_final.2).
Proof.
  split; [vm_compute; discriminate|].
  apply (sem_safe 9 1 two_clients two_final.1 two_final.2); [lia|].
  apply (run_avail_reach (round_robin 2 60)). unfold two_final. apply surjective_pairing.
Defined.

(** One permit, two clients that keep it: the second waits for good. *)
Definition greedy : list (list client_op) := [[CAcquire true]; [CAcquire false]].
Definition greedy_final := run_avail (round_robin 2 60) (sem_pool 9 1 greedy).

Lemma sem_no_lost_wakeup_witness :
  permits (sprim greedy_final.2) = 0.
Proof.
  apply (sem_no_lost_wakeup 9 1 greedy greedy_final.1 greedy_final.2); [lia| | |].
  - apply (run_avail_reach (round_robin 2 60)). unfold greedy_final. apply surjective_pairing.
  - apply haltedb_all. vm_compute. reflexivity.
  - exists 1%nat. vm_compute. repeat eexists.
Defined.

(** A thread with the permit, a task that waits, a scheduler that stops. *)
Definition unwinding : list (list client_op) := [[CAcquire false; CRelease]; [CAcquire true]; [CStop]].

Definition unwinding_schedule : list (nat * nat) :=
  replicate 3 (0, 0)%nat ++ replicate 9 (1, 0)%nat ++ [(2, 0); (1, 0)]%nat ++
  replicate 10 (0, 0)%nat ++ replicate 20 (1, 0)%nat ++ replicate 10 (0, 0)%nat ++ replicate 20 (1, 0)%nat.

Definition unwinding_final := run_avail unwinding_schedule (sem_pool 9 1 unwinding).

(** A thread holds the only permit and returns it while a task waits for it and
    is unwound by its scheduler's stop: the task is granted the permit, does not
    return it, and the semaphore is left without permits although nobody holds
    one. *)
Theorem sem_permit_lost_on_unwind :
  exists ts s, reach (sem_pool 9 1 unwinding) (ts, s) /\ ts = [Ret tt; Ret tt; Ret tt] /\
    permits (sprim s) = 0 /\ acquiredCount (events (sprim s)) = 1%nat /\ releasedCount (events (sprim s)) = 1%nat /\
    lostCount (events (sprim s)) = 1%nat.
Proof.
  exists unwinding_final.1, unwinding_final.2. split.
  - apply (run_avail_reach unwinding_schedule). unfold unwinding_final. apply surjective_pairing.
  - vm_compute. repeat split; reflexivity.
Qed.
