(* ===== verification/WaitGroup.v ===== *)
(** * WaitGroup

    [WaitGroup] (sync/WaitGroup.h, sync/src/WaitGroup.cpp): a counter, and a
    list of waiters that the [done] which brings it to zero releases.  The
    counter counts pending jobs and is unbounded.

    Shown: no waiter is touched after its scope and no wake-up is lost; and
    that a [wait] can return while jobs are pending when [add] runs between a
    [done] that reached zero and its release of the waiters. *)

From Stdlib Require Import ZArith Lia.
From stdpp Require Import base tactics list numbers option strings functions.
From S2P Require Import Prelude Conc Sums WaitList Waiting WaitingInv WaitingRules.

Record WaitGroup := MkWaitGroup { pending : Z }.

(** The group, and the jobs that were added for tasks that have not started:
    the group does not know of these. *)
Record wg_state := MkState { group :> WaitGroup; spawned : nat }.
Definition set_pending (v : Z) (x : wg_state) : wg_state := MkState (MkWaitGroup v) (spawned x).
Definition set_spawned (v : nat) (x : wg_state) : wg_state := MkState (group x) v.

Abbreviation wprog := (prog (sworld wg_state)).

Definition pendingCount : wprog Z := prim (fun x : wg_state => [(x, pending x)]).
Definition wg_add (count : Z) : wprog unit := prim (fun x : wg_state => [(set_pending (pending x + count) x, tt)]).

Definition wg_done (fuel : nat) : wprog unit :=
  before <- prim (fun x : wg_state => [(set_pending (pending x - 1) x, pending x)]);;
  check (negb (before =? 0)) "WaitGroup::done() without matching add()";;;
  if negb (before =? 1) then Ret tt
  else
    spinLock;;;
    chain <- popAll fuel 0 None;;
    spinUnlock;;;
    notifyChain fuel chain.

(** [Unwound]: left by a forced unwind. *)
Definition wg_wait (fuel : nat) (p : party) : wprog resumed :=
  c0 <- pendingCount;;
  if c0 =? 0 then Ret Woken
  else
    w <- newWaiter p 0;;
    spinLock;;;
    c <- pendingCount;;
    if c =? 0 then spinUnlock;;; endWaiter w;;; Ret Woken
    else
      pushBack 0 w;;;
      spinUnlock;;;
      r <- wait fuel p w;;
      match r with
      | Woken => endWaiter w;;; Ret Woken
      | Unwound => leaveEarly 0 w (Ret tt);;; endWaiter w;;; Ret Unwound
      end.

Definition waitOrEnqueue (w : nat) : wprog EnqueueResult :=
  c0 <- pendingCount;;
  if c0 =? 0 then Ret EqReady
  else
    spinLock;;;
    cn <- wget w wcancelled;;
    if cn : bool then spinUnlock;;; Ret EqCancelled
    else
      c <- pendingCount;;
      if c =? 0 then spinUnlock;;; Ret EqReady
      else pushBack 0 w;;; spinUnlock;;; Ret EqEnqueued.

Definition wg_cancel (w : nat) : wprog bool :=
  spinLock;;; b <- cancelQueued 0 w;; spinUnlock;;; Ret b.

(** ** Clients *)

(** [WSpawn] hands one of the caller's jobs to a task that some other thread
    will run; [WStart] is the start of such a task, with that job; it ends the
    thread if no job was handed over yet. *)
Inductive wg_op :=
| WAdd (count : nat)
| WSpawn
| WStart
| WDone
| WWait (task : bool)
| WCallback (early late : bool)
| WStale (j : nat)
| WStop.

Definition wg_callback (i : nat) (early late : bool) : wprog unit :=
  w <- newWaiter (PCallback i) 0;;
  (if early then wg_cancel w;;; Ret tt else Ret tt);;;
  r <- waitOrEnqueue w;;
  match r with
  | EqEnqueued =>
      b <- (if late then wg_cancel w else Ret false);;
      if b : bool then endWaiter w else awaitCallback w;;; endWaiter w
  | _ => endWaiter w
  end.

Definition wg_run (fuel i : nat) (o : wg_op) : wprog resumed :=
  match o with
  | WAdd count => wg_add (Z.of_nat count);;; Ret Woken
  | WSpawn => prim (fun x => [(set_spawned (S (spawned x)) x, tt)]);;; Ret Woken
  | WStart => prim (fun x => [(set_spawned (pred (spawned x)) x, if (spawned x =? 0)%nat then Unwound else Woken)])
  | WDone => wg_done fuel;;; Ret Woken
  | WWait task => wg_wait fuel (if task then PTask i else PThread i)
  | WCallback early late => wg_callback i early late;;; Ret Woken
  | WStale j => unpark j;;; Ret Woken
  | WStop => store (set_stop true);;; Ret Woken
  end.

Fixpoint wg_runs (fuel i : nat) (l : list wg_op) : wprog unit :=
  match l with
  | [] => Ret tt
  | o :: l' => r <- wg_run fuel i o;; match r with Woken => wg_runs fuel i l' | Unwound => Ret tt end
  end.

(** Every [done] is matched by an earlier [add]: of the same thread, of the one
    that spawned the task that calls [done], or before the start.  A job is spawned
    by a thread that has one. *)
Fixpoint matched (jobs : nat) (l : list wg_op) : bool :=
  match l with
  | [] => true
  | WAdd c :: l' => matched (jobs + c) l'
  | WDone :: l' | WSpawn :: l' => match jobs with O => false | S j => matched j l' end
  | WStart :: l' => matched (S jobs) l'
  | _ :: l' => matched jobs l'
  end.

(** A thread: the jobs it was given, and what it does. *)
Definition wg_pool (fuel : nat) (l : list (nat * list wg_op)) : config (sworld wg_state) unit :=
  (imap (fun i t => wg_runs fuel i t.2) l, init_sworld (MkState (MkWaitGroup (Z.of_nat (lsum fst l))) 0) 1).

(** ** Invariant *)

(** The jobs a thread has; whether it saw jobs pending and is about to queue;
    whether it brought the count to zero and has not released the waiters. *)
Record wgl := WL { jobs : nat; chk : bool; rel : bool }.

Section spec.
Context (n : nat).

Record ginv (x : wg_state) (gl : list (list nat)) (hd : option nat) (pf : nat -> wgl) (gr : nat * nat) : Prop := {
  gi_list : exists ws, gl = [ws] /\ (ws <> [] \/ some n chk pf -> pending x = 0 -> some n rel pf);
  gi_count : pending x = Z.of_nat (total n jobs pf + spawned x);
  gi_hold : forall i, (i < n)%nat -> chk (pf i) = true -> hd = Some i
}.

Definition wcalm (l : wgl) : Prop := rel l = false.
Definition at_rest (j : nat) : wgl := WL j false false.

Notation R := (wproto n (fun _ : wg_state => tt) ginv wcalm).
Notation at_ := (at_ (fun _ : wg_state => tt)).

Lemma ginv_lock x gl f gr i : (i < n)%nat -> ginv x gl None f gr -> ginv x gl (Some i) f gr.
Proof. intros Hi [H1 H2 H3]. split; try done. intros j Hj Ha. by specialize (H3 j Hj Ha). Qed.

Lemma ginv_step (x : wg_state) gl hd pf gr i l l' (x' : wg_state) gl' hd' gr' ws ws' :
  (i < n)%nat -> pf i = l -> ginv x gl hd pf gr -> gl = [ws] -> gl' = [ws'] ->
  (hd' = hd \/ hd = Some i /\ hd' = None /\ chk l' = false) ->
  pending x' + Z.of_nat (jobs l + spawned x) = pending x + Z.of_nat (jobs l' + spawned x') -> (chk l' = true -> hd' = Some i) ->
  ((others n chk pf i -> hd <> Some i) -> ws' <> [] \/ chk l' = true \/ others n chk pf i -> pending x' = 0 ->
   rel l' = true \/ rel l = false /\ pending x = 0 /\ (ws <> [] \/ chk l = true \/ others n chk pf i)) ->
  ginv x' gl' hd' (<[i := l']> pf) gr'.
Proof.
  intros Hi Hl [(ws0 & Hgl & Hphi) Hc Hh] -> -> Hhd Hcount Hck Hob. injection Hgl as <-.
  pose proof (total_upd n jobs pf i l l' Hi Hl).
  assert (Hother : others n chk pf i -> hd <> Some i).
  { intros (j & Hj & Hji & E). specialize (Hh j Hj E). congruence. }
  split; [|lia|].
  - exists ws'. split; [done|]. intros Ho Hp. destruct (Hob Hother) as [Hr|(Hr & Hp' & Ho')]; [|done|by apply some_here|].
    + destruct Ho as [?|[?|?]%some_upd]; auto.
    + eapply some_keep; [exact Hl|congruence|]. apply Hphi; [|done].
      destruct Ho' as [?|[?|(j & Hj & _ & E)]]; [by left|right; exists i; by rewrite Hl|right; by exists j].
  - intros j Hj. destruct (decide (j = i)) as [->|]; [by rewrite fn_lookup_insert|rewrite fn_lookup_insert_ne by done].
    intros E. destruct Hhd as [->|(-> & _ & _)]; [by apply Hh|]. specialize (Hh j Hj E). congruence.
Qed.

Lemma ginv_same i l x gl hd f gr : f i = l -> ginv x gl hd f gr -> ginv x gl hd (<[i := l]> f) gr.
Proof.
  intros Hl [(ws & Hgl & Hphi) Hc Hh]. assert (Hf : forall j, <[i := l]> f j = f j) by (intros j; by apply insert_same_fn).
  split.
  - exists ws. by rewrite !(some_ext n _ _ _ Hf).
  - by rewrite (total_ext n _ _ _ Hf).
  - intros j. rewrite Hf. apply Hh.
Qed.

Lemma ginv_gr x gl hd f gr gr' : ginv x gl hd f gr -> ginv x gl hd f gr'.
Proof. by intros [H1 H2 H3]. Qed.

(** ** Rules *)

Notation lk h := ((fun gl : list (list nat) => (gl, tt)) <$> h).

Lemma rg_gprim {A B} i h o hand l (f : wg_state -> wg_state * B) (k : B -> wprog A) Q :
  (forall x gl hd pf gr, pf i = l -> ginv x gl hd pf gr ->
     match h with Some gl0 => hd = Some i /\ gl = gl0 | None => hd <> Some i end ->
     exists l', ginv (f x).1 gl hd (<[i := l']> pf) gr /\ rg R i (k (f x).2) (at_ i (lk h) o hand None l') Q) ->
  rg R i (bind (prim (fun x => [f x])) k) (at_ i (lk h) o hand None l) Q.
Proof.
  intros Hk. apply rg_prim; [done|]. intros x gl hd pf gr x' z Hin Hl Hp Hh. apply list_elem_of_singleton in Hin.
  destruct (Hk x gl hd pf gr Hl Hp) as (l' & Hp' & Hrg).
  { destruct h as [gl0|]; [|done]. by destruct Hh as (? & ? & ?). }
  rewrite <- Hin in *. exists l', (lk h). splits; try done. by destruct h.
Qed.

Lemma rg_glock {A} i o hand l (k : unit -> wprog A) Q :
  (i < n)%nat -> (forall gl, rg R i (k tt) (at_ i (lk (Some gl)) o hand None l) Q) ->
  rg R i (bind spinLock k) (at_ i None o hand None l) Q.
Proof. intros Hi Hk. apply rg_lock; [intros; by apply ginv_lock|done|]. intros gl []. apply Hk. Qed.

Lemma ginv_unlock i x gl f gr l :
  (i < n)%nat -> f i = l -> chk l = false -> ginv x gl (Some i) f gr -> ginv x gl None (<[i := l]> f) gr.
Proof.
  intros Hi Hl Hc Hs. destruct (gi_list _ _ _ _ _ Hs) as (ws & -> & _).
  eapply (ginv_step x [ws] (Some i) f gr i l l x [ws] None gr ws ws); try done; [right; done|congruence|].
  intros _ Ho Hp. destruct (rel l) eqn:E; [by left|right]. auto.
Qed.

Lemma rg_gunlock {A} i gl o hand l (k : unit -> wprog A) Q :
  (i < n)%nat -> chk l = false -> rg R i (k tt) (at_ i None o hand None l) Q ->
  rg R i (bind spinUnlock k) (at_ i (Some (gl, tt)) o hand None l) Q.
Proof.
  intros Hi Hc Hk. apply (rg_unlock _ _ _ _ i gl tt o hand None l l); [|done]. intros x f gr Hl _. by apply ginv_unlock.
Qed.

Lemma rg_gone {A} i gl o hand l (p : wprog A) Q :
  (forall ws, gl = [ws] -> rg R i p (at_ i (Some (gl, tt)) o hand None l) Q) ->
  rg R i p (at_ i (Some (gl, tt)) o hand None l) Q.
Proof.
  intros H. apply (rg_pure_from R i p (exists ws, gl = [ws])); [|by intros [ws Hws]; eauto].
  intros s g HI [[(_ & <- & _) _ _ _ _] _]. destruct (gi_list _ _ _ _ _ (wi_prim _ _ _ _ HI)) as (ws & ? & _). eauto.
Qed.

(** Reading the count: zero, or the thread may queue while it holds the lock. *)
Lemma rg_pending {A} i h o hand j (k : Z -> wprog A) Q :
  (i < n)%nat ->
  (forall z, rg R i (k z) (at_ i (lk h) o hand None (WL j (bool_decide (is_Some h /\ z <> 0)) false)) Q) ->
  rg R i (bind pendingCount k) (at_ i (lk h) o hand None (at_rest j)) Q.
Proof.
  intros Hi Hk. apply rg_gprim. intros x gl hd pf gr Hl Hs Hh. simpl. eexists. split; [|apply Hk].
  destruct (gi_list _ _ _ _ _ Hs) as (ws & -> & _).
  eapply (ginv_step x [ws] hd pf gr i _ _ x [ws] hd gr ws ws); try done; try (by left); try (simpl; lia).
  - intros [[gl0 ->] _]%bool_decide_eq_true. by destruct Hh.
  - simpl. intros _ Ho Hp. right. splits; try done. destruct Ho as [?|[[_ ?]%bool_decide_eq_true|?]]; auto.
Qed.

Lemma rg_gpush {A} i gl w x j (k : unit -> wprog A) Q :
  (i < n)%nat -> wcalled x = false -> wtag x = 0%nat ->
  (forall gl', rg R i (k tt) (at_ i (Some (gl', tt)) (Some (w, queued_stage (wparty x) 0)) [] None (at_rest j)) Q) ->
  rg R i (bind (pushBack 0 w) k) (at_ i (Some (gl, tt)) (Some (w, SFresh x)) [] None (WL j true false)) Q.
Proof.
  intros Hi Hx Hg Hk. apply rg_gone. intros ws ->. apply (rg_pushBack _ _ _ _ i [ws] tt w x [] None _ (at_rest j) 0 ws); [done|done|done| |apply Hk].
  intros z f gr Hf _ Hs. eapply (ginv_step z [ws] (Some i) f gr i _ _ z _ (Some i) gr ws (ws ++ [w])); try done; try (by left); try (simpl; lia).
Qed.

Lemma rg_gend {A} i w st l (k : unit -> wprog A) Q :
  match st with SFresh x => wcalled x = false | SSat _ _ => True | _ => False end ->
  rg R i (k tt) (at_ i None None [] None l) Q ->
  rg R i (bind (endWaiter w) k) (at_ i None (Some (w, st)) [] None l) Q.
Proof.
  intros Hst Hk. eapply (rg_end _ _ _ _ i None w st); [|exact Hk]. destruct st; try done.
  - splits; try done. intros. by apply ginv_same.
  - intros z gl hd f gr Hl _ Hs. apply ginv_same; [done|]. by eapply ginv_gr.
Qed.

Lemma rg_gleave {A} i w p j (k : bool -> wprog A) Q :
  (i < n)%nat ->
  (forall x, wcalled x = false -> rg R i (k true) (at_ i None (Some (w, SFresh x)) [] None (at_rest j)) Q) ->
  rg R i (k false) (at_ i None (Some (w, SSat p 0)) [] None (at_rest j)) Q ->
  rg R i (bind (leaveEarly 0 w (Ret tt)) k) (at_ i None (Some (w, SWait p 0)) [] None (at_rest j)) Q.
Proof.
  intros Hi Ht Hf. unfold leaveEarly. apply rg_bind_assoc, rg_glock; [done|]. intros gl.
  apply rg_bind_assoc, rg_gone. intros ws ->. eapply rg_linked.
  - intros ws' [= <-] Hw. apply rg_bind_assoc, rg_bind_assoc.
    apply (rg_unlink _ _ _ _ i [ws] tt w p 0 ws [] None _ (at_rest j)); try done.
    + intros z f gr Hnd Hfi _ Hs. eapply (ginv_step z [ws] (Some i) f gr i _ _ z _ (Some i) gr ws (remove w ws)); try done; try (by left); try (simpl; lia).
      intros _ Ho Hp. right. splits; try done. left. intros ->. by apply elem_of_nil in Hw.
    + intros x Hpx Hcx _. apply rg_bind_assoc, rg_gunlock; [done|done|]. by apply Ht.
  - apply rg_bind_assoc, rg_gunlock; [done|done|]. apply rg_bind_assoc, rg_awaitNotifier; done.
Qed.

Lemma rg_wg_wait {A} i p fuel j (k : resumed -> wprog A) Q :
  (i < n)%nat -> party_of p = i -> is_callback p = false ->
  (forall r, rg R i (k r) (at_ i None None [] None (at_rest j)) Q) ->
  rg R i (bind (wg_wait fuel p) k) (at_ i None None [] None (at_rest j)) Q.
Proof.
  intros Hi Hp Hc Hk. unfold wg_wait. apply rg_bind_assoc, (rg_pending i None); [done|]. intros c0.
  rewrite bool_decide_eq_false_2 by (by intros [[? ?] _]).
  destruct (c0 =? 0); [apply Hk|]. apply rg_bind_assoc, rg_new; [done|done|]. intros w.
  apply rg_bind_assoc, rg_glock; [done|]. intros gl. apply rg_bind_assoc, (rg_pending i (Some gl)); [done|]. intros c.
  destruct (Z.eqb_spec c 0) as [->|Hne].
  - rewrite bool_decide_eq_false_2 by (by intros [_ ?]). apply rg_bind_assoc, rg_gunlock; [done|done|].
    apply rg_bind_assoc, rg_gend; [done|]. apply Hk.
  - rewrite bool_decide_eq_true_2 by done. apply rg_bind_assoc, rg_gpush; [done|done|done|]. intros gl'.
    apply rg_bind_assoc, rg_gunlock; [done|done|]. cbn [new_waiter wparty]. unfold queued_stage. rewrite Hc.
    apply rg_bind_assoc, rg_wait; [done| |].
    + apply rg_bind_assoc, rg_gend; [done|]. apply Hk.
    + apply rg_bind_assoc, rg_gleave; [done| |].
      * intros x Hx. apply rg_bind_assoc, rg_gend; [done|]. apply Hk.
      * apply rg_bind_assoc, rg_gend; [done|]. apply Hk.
Qed.

Notation at_chain := (at_chain (fun _ : wg_state => tt) None).

Lemma rg_wg_done {A} i fuel j (k : unit -> wprog A) Q :
  (i < n)%nat -> rg R i (k tt) (at_ i None None [] None (at_rest j)) Q ->
  rg R i (bind (wg_done fuel) k) (at_ i None None [] None (at_rest (S j))) Q.
Proof.
  intros Hi Hk. unfold wg_done. apply rg_bind_assoc, (rg_gprim i None None []). intros x gl hd pf gr Hl Hs Hh. cbn [fst snd].
  pose proof (gi_count _ _ _ _ _ Hs) as Hc. pose proof (total_elem n jobs pf i Hi) as Hle. rewrite Hl in Hle. simpl in Hle.
  exists (WL j false (pending x =? 1)). split.
  - destruct (gi_list _ _ _ _ _ Hs) as (ws & -> & _).
    eapply (ginv_step x [ws] hd pf gr i _ _ _ [ws] hd gr ws ws); simpl; try done; try (by left); try lia.
    unfold at_rest, jobs. lia.
  - apply rg_bind_assoc, rg_check; [destruct (Z.eqb_spec (pending x) 0); [lia|done]|].
    destruct (Z.eqb_spec (pending x) 1) as [E1|E1]; [|exact Hk]. cbn [negb].
    apply rg_bind_assoc, rg_glock; [done|]. intros gl0. apply rg_gone. intros ws0 ->. apply rg_bind_assoc.
    eapply (rg_pre R i _ (at_chain i (Some (<[0%nat := ws0]> [ws0], tt)) (WL j false true) None [])).
    { intros s g _ Hat. split; [exact Hat|]. split; [apply NoDup_nil_2|done]. }
    apply (rg_popAll _ _ _ _ i [ws0] tt); [done| |simpl; lia|].
    + intros w ws z f gr0 Hf _ Hz. simpl in *.
      eapply (ginv_step z [w :: ws] (Some i) f gr0 i _ _ z _ (Some i) (bump 0 gr0) (w :: ws) ws); try done; try (by left).
    + intros chain hand'. change (<[0%nat := []]> [ws0]) with [@nil nat]. apply rg_bind_assoc, (rg_unlock_chain _ _ _ _ i [[]] tt _ (at_rest j)).
      * intros z f gr0 Hf _ Hz. eapply (ginv_step z [[]] (Some i) f gr0 i _ _ z _ None gr0 [] []); try done; [right; done|].
        simpl. intros Hot Ho Hp. destruct Ho as [?|[?|Ho]]; try done. by destruct (Hot Ho).
      * by apply rg_notifyChain.
Qed.

Lemma rg_wg_cancel {A} i w st j (k : bool -> wprog A) Q :
  (i < n)%nat -> (match st with SFresh _ => True | SCall _ k' => k' = 0%nat | _ => False end) ->
  rg R i (k false) (at_ i None (Some (w, match st with SFresh x => SFresh (set_cancelled true x) | _ => st end)) [] None (at_rest j)) Q ->
  (forall p x, st = SCall p 0 -> wcalled x = false -> rg R i (k true) (at_ i None (Some (w, SFresh x)) [] None (at_rest j)) Q) ->
  rg R i (bind (wg_cancel w) k) (at_ i None (Some (w, st)) [] None (at_rest j)) Q.
Proof.
  intros Hi Hst Hf Ht. unfold wg_cancel. apply rg_bind_assoc, rg_glock; [done|]. intros gl.
  apply rg_bind_assoc, rg_gone. intros ws ->.
  apply (rg_cancel _ _ _ _ i [ws] tt w st 0 ws); try done.
  - intros. by apply ginv_same.
  - by apply rg_bind_assoc, rg_gunlock.
  - intros p Hp Hw. exists (at_rest j). split.
    + intros z f gr Hnd Hfi _ Hs. eapply (ginv_step z [ws] (Some i) f gr i _ _ z _ (Some i) gr ws (remove w ws)); try done; try (by left).
      intros _ Ho Hpos. right. splits; try done. left. intros ->. by apply elem_of_nil in Hw.
    + intros x Hpx Hcx _. apply rg_bind_assoc, rg_gunlock; [done|done|]. by eapply Ht.
Qed.

Lemma rg_wg_callback {A} i early late j (k : unit -> wprog A) Q :
  (i < n)%nat -> rg R i (k tt) (at_ i None None [] None (at_rest j)) Q ->
  rg R i (bind (wg_callback i early late) k) (at_ i None None [] None (at_rest j)) Q.
Proof.
  intros Hi Hk. unfold wg_callback. apply rg_bind_assoc, rg_new; [done|done|]. intros w.
  assert (Hend : forall x, wcalled x = false -> rg R i (bind (endWaiter w) k) (at_ i None (Some (w, SFresh x)) [] None (at_rest j)) Q).
  { intros x Hx. by apply rg_gend. }
  assert (Hmain : forall x, wcalled x = false -> wtag x = 0%nat -> wparty x = PCallback i ->
    rg R i (bind (r <- waitOrEnqueue w;;
      match r with
      | EqEnqueued => b <- (if late then wg_cancel w else Ret false);; if b : bool then endWaiter w else awaitCallback w;;; endWaiter w
      | _ => endWaiter w
      end) k) (at_ i None (Some (w, SFresh x)) [] None (at_rest j)) Q).
  { intros x Hx Hg Hp. unfold waitOrEnqueue. apply rg_bind_assoc, rg_bind_assoc, (rg_pending i None); [done|]. intros c0.
    rewrite bool_decide_eq_false_2 by (by intros [[? ?] _]).
    destruct (c0 =? 0); [by apply Hend|]. apply rg_bind_assoc, rg_glock; [done|]. intros gl.
    apply rg_bind_assoc, rg_read_own. destruct (wcancelled x).
    { apply rg_bind_assoc, rg_gunlock; [done|done|]. by apply Hend. }
    apply rg_bind_assoc, (rg_pending i (Some gl)); [done|]. intros c. destruct (Z.eqb_spec c 0) as [->|Hne].
    { rewrite bool_decide_eq_false_2 by (by intros [_ ?]). apply rg_bind_assoc, rg_gunlock; [done|done|]. by apply Hend. }
    rewrite bool_decide_eq_true_2 by done. apply rg_bind_assoc, rg_gpush; [done|done|done|]. intros gl'.
    apply rg_bind_assoc, rg_gunlock; [done|done|]. unfold queued_stage. rewrite Hp. cbn [is_callback bind].
    assert (Hawait : rg R i (bind (awaitCallback w;;; endWaiter w) k) (at_ i None (Some (w, SCall (PCallback i) 0)) [] None (at_rest j)) Q).
    { apply rg_bind_assoc. eapply (rg_awaitCallback _ _ _ _ i w _ 0 (at_rest j) (at_rest j)); [done| |].
      - intros z gl0 hd f gr Hl Hh Hs. apply ginv_same; [done|]. by eapply ginv_gr.
      - intros x' _ Hx' _. by apply Hend. }
    apply rg_bind_assoc. destruct late; [|exact Hawait].
    apply (rg_wg_cancel i w (SCall (PCallback i) 0)); [done|done|exact Hawait|]. intros p x' _ Hx'. by apply Hend. }
  apply rg_bind_assoc. destruct early; [|by apply Hmain].
  apply rg_bind_assoc, (rg_wg_cancel i w (SFresh _)); [done|done|by apply Hmain|done].
Qed.

Lemma rg_wg_runs i fuel l : forall j, (i < n)%nat -> matched j l = true ->
  rg R i (wg_runs fuel i l) (at_ i None None [] None (at_rest j)) (fun _ s g => exists l, wcalm l /\ at_ i None None [] None l s g).
Proof.
  induction l as [|o l IH]; intros j Hi Hm; cbn [wg_runs].
  { intros s g _ Hat. by exists (at_rest j). }
  assert (Hstop : rg R i (Ret tt) (at_ i None None [] None (at_rest j)) (fun _ s g => exists l, wcalm l /\ at_ i None None [] None l s g)).
  { intros s g _ Hat. by exists (at_rest j). }
  destruct o as [c| | | |task|early late|j'|]; cbn [wg_run matched] in *.
  - apply rg_bind_assoc, (rg_gprim i None None []). intros x gl hd pf gr Hl Hs Hh. exists (at_rest (j + c)). split; [|by apply IH].
    destruct (gi_list _ _ _ _ _ Hs) as (ws & -> & _).
    eapply (ginv_step x [ws] hd pf gr i _ _ _ [ws] hd gr ws ws); simpl; try done; try (by left); try lia.
    + unfold at_rest, jobs. lia.
    + intros _ Ho Hp. pose proof (gi_count _ _ _ _ _ Hs). right. splits; try done; lia.
  - destruct j as [|j]; [done|]. apply rg_bind_assoc, (rg_gprim i None None []). intros x gl hd pf gr Hl Hs Hh. exists (at_rest j). split; [|by apply IH].
    destruct (gi_list _ _ _ _ _ Hs) as (ws & -> & _).
    eapply (ginv_step x [ws] hd pf gr i (WL (S j) false false) _ _ [ws] hd gr ws ws); simpl; try done; try (by left); try lia.
    intros _ Ho Hp. right. done.
  - apply (rg_gprim i None None []). intros x gl hd pf gr Hl Hs Hh. cbn [fst snd]. destruct (gi_list _ _ _ _ _ Hs) as (ws & -> & _).
    destruct (Nat.eqb_spec (spawned x) 0) as [Es|Es]; [exists (at_rest j)|exists (at_rest (S j))]; (split; [|first [exact Hstop|by apply IH]]);
      (eapply (ginv_step x [ws] hd pf gr i (WL j false false) _ _ [ws] hd gr ws ws); simpl; try done; try (by left); try lia; intros _ Ho Hp; right; done).
  - destruct j as [|j]; [done|]. apply rg_bind_assoc, rg_wg_done; [done|]. by apply IH.
  - apply rg_wg_wait; [done|by destruct task|by destruct task|]. intros [|]; [by apply IH|exact Hstop].
  - apply rg_bind_assoc, rg_wg_callback; [done|]. by apply IH.
  - apply rg_bind_assoc, rg_stale; [done|]. by apply IH.
  - apply rg_bind_assoc, rg_set_stop. by apply IH.
Qed.
End spec.

Lemma lsum_imap_total (l : list (nat * list wg_op)) :
  total (length l) jobs (fun i => at_rest (default 0%nat (fst <$> l !! i))) = lsum fst l.
Proof.
  unfold total. simpl. induction l as [|x l IH] using rev_ind; [done|].
  rewrite length_app, Nat.add_1_r, seq_S, lsum_app, lsum_app, !lsum_cons, !lsum_nil. simpl.
  rewrite lookup_app_r, Nat.sub_diag by lia. simpl. rewrite <- IH. f_equal. apply lsum_ext.
  intros j Hj%elem_of_seq. by rewrite lookup_app_l by lia.
Qed.

Lemma wg_pool_ok fuel l :
  Forall (fun t => matched t.1 t.2 = true) l ->
  pool_ok (wproto (length l) (fun _ => tt) (ginv (length l)) wcalm)
    (fun i _ s g => exists l, wcalm l /\ at_ (fun _ => tt) i None None [] None l s g) (wg_pool fuel l).
Proof.
  intros Hm. apply (waiters_start _ _ _ _ _ _ 1 (fun i => at_rest (default 0%nat (fst <$> l !! i)))); [apply length_imap| |].
  - split; simpl; try done; [|by rewrite Nat.add_0_r, lsum_imap_total]. exists []. split; [done|]. intros [?|(j & _ & Hj)]; done.
  - intros i p Hp Hi. rewrite list_lookup_imap in Hp. destruct (l !! i) as [t|] eqn:E; [|done]. injection Hp as <-.
    apply rg_wg_runs; [done|]. exact (Forall_lookup_1 _ _ _ _ Hm E).
Qed.

(** C18: In every interleaving of threads in which each [done] follows an [add] of
    its own (of the same thread, or of the one that spawned the task that calls
    [done]): no [done] fails its check, no waiter is touched after its scope, and
    no wake-up is lost: when nobody can move and somebody waits, jobs are pending. *)
Theorem wg_no_lost_wakeup fuel l ts s :
  Forall (fun t => matched t.1 t.2 = true) l -> reach (wg_pool fuel l) (ts, s) ->
  (forall i m, ts !! i <> Some (Fatal m)) /\
  ((forall i th, ts !! i = Some th -> halted s th) ->
   (exists i X f k, ts !! i = Some (Act X f k)) -> 0 < pending (sprim s)).
Proof.
  intros Hm Hr. pose proof (pool_ok_reach _ _ _ _ Hr (wg_pool_ok fuel l Hm)) as Hok.
  split; [intros i m; by eapply pool_ok_not_fatal|]. intros Hhalt (i & X & f & k & Hth).
  apply reach_length in Hr. simpl in Hr. rewrite length_imap in Hr. symmetry in Hr.
  destruct (halted_waiters _ _ _ _ ts s Hr Hok Hhalt) as (g & HI & Hfree & Hcalm & Hnone & Hact).
  pose proof (wi_prim _ _ _ _ HI) as [(ws & Hgl & Hphi) Hc _].
  destruct (Hact i X f k Hth) as (w & x & m & ws' & _ & _ & Hm' & Hw). rewrite Hgl in Hm'.
  destruct m as [|m]; [|done]. injection Hm' as <-.
  destruct (decide (pending (sprim s) = 0)) as [E|]; [exfalso|lia].
  destruct Hphi as (j & Hj & Hrel); [left; intros ->; by apply elem_of_nil in Hw|done|].
  specialize (Hcalm j Hj). unfold wcalm in Hcalm. congruence.
Qed.

(** ** Runs *)

(** A thread adds two jobs and spawns two tasks for them, of which one is run by
    another thread and one never starts; then it waits. *)
Definition wg_waiting : list (nat * list wg_op) := [(0%nat, [WAdd 2; WSpawn; WSpawn; WWait true]); (0%nat, [WStart; WDone])].
Definition wg_waiting_final := run_avail (replicate 4 (0, 0)%nat ++ round_robin 2 30) (wg_pool 9 wg_waiting).

Lemma wg_no_lost_wakeup_witness : pending (sprim wg_waiting_final.2) = 1 /\ 0 < pending (sprim wg_waiting_final.2).
Proof.
  split; [vm_compute; reflexivity|]. apply (wg_no_lost_wakeup 9 wg_waiting wg_waiting_final.1 wg_waiting_final.2).
  - repeat constructor.
  - apply (run_avail_reach (replicate 4 (0, 0)%nat ++ round_robin 2 30)). unfold wg_waiting_final. apply surjective_pairing.
  - apply haltedb_all. vm_compute. reflexivity.
  - exists 0%nat. vm_compute. repeat eexists.
Defined.

(** Thread 0 finishes its job; thread 1 adds another for thread 2, which never
    runs, and waits. *)
Definition wg_reuse : list (nat * list wg_op) := [(1%nat, [WDone]); (0%nat, [WAdd 1; WWait false]); (0%nat, [WDone])].
Definition wg_reuse_schedule : list (nat * nat) :=
  replicate 1 (0, 0)%nat ++ replicate 9 (1, 0)%nat ++ replicate 12 (0, 0)%nat ++ replicate 9 (1, 0)%nat.
Definition wg_reuse_final := run_avail wg_reuse_schedule (wg_pool 9 wg_reuse).

(** A [done] brings the count to zero and is about to take the lock; another
    thread adds a job and waits for it; the [done] finds that waiter in the list
    and releases it: [wait] returns although the job it waits for is pending and
    the thread that has it has not run at all. *)
Theorem wg_wait_returns_early :
  exists ts s, reach (wg_pool 9 wg_reuse) (ts, s) /\ ts !! 1%nat = Some (Ret tt) /\ pending (sprim s) = 1 /\
    ts !! 2%nat = (wg_pool 9 wg_reuse).1 !! 2%nat.
Proof.
  exists wg_reuse_final.1, wg_reuse_final.2. split.
  - apply (run_avail_reach wg_reuse_schedule). unfold wg_reuse_final. apply surjective_pairing.
  - vm_compute. repeat split; reflexivity.
Qed.
