(* ===== verification/CondVar.v ===== *)
(** * ConditionVariable

    [ConditionVariable] (sync/ConditionVariable.h, sync/src/ConditionVariable.cpp): a
    list of waiters and the mutex that a waiter gives up while it waits.

    - [permits] is the mutex, by what SemaphoreSpec.v shows of it: [lock] goes on
      with the permit when there is one, and a task parked in it can be unwound.
    - [items] is the condition of the clients: consumers wait until there is an item
      and take it, producers add items under the mutex and notify after, as the header
      asks for.
    - [left_] is a history: some task was unwound out of a wait or a [lock].

    Shown (CondVarSpec.v): no waiter is touched after its scope and, unless a task was
    unwound, no notification is lost. *)

From Stdlib Require Import ZArith Lia.
From stdpp Require Import base tactics list numbers option strings functions.
From S2P Require Import Prelude Conc Sums WaitList Waiting.
Open Scope nat_scope.

Record cvar := MkCvar { permits : nat; items : nat; left_ : bool }.
Definition set_permits p x := MkCvar p (items x) (left_ x).
Definition set_items k x := MkCvar (permits x) k (left_ x).
Definition set_left x := MkCvar (permits x) (items x) true.

Abbreviation cprog := (prog (sworld cvar)).

(** ** The mutex *)

Definition mutexLock (p : party) : cprog resumed :=
  Act resumed (fun s =>
    (match permits (sprim s) with S k => [(set_prim (set_permits k (sprim s)) s, Woken)] | O => [] end) ++
    (match p with PTask _ => if sstopping s then [(set_prim (set_left (sprim s)) s, Unwound)] else [] | _ => [] end)) Ret.
Definition tryLock : cprog bool :=
  prim (fun x => [match permits x with S k => (set_permits k x, true) | O => (x, false) end]).
Definition mutexUnlock : cprog unit := prim (fun x => [(set_permits (S (permits x)) x, tt)]).

(** [~RelockOnUnwind] *)
Fixpoint relock (spins : nat) : cprog unit :=
  match spins with
  | O => Ret tt
  | S spins' => b <- tryLock;; if b : bool then Ret tt else relock spins'
  end.

(** ** Operations *)
Section operations.
(** [spins] is 1024. *)
Context (fuel spins : nat).

(** [wait(mutex)] *)
Definition cv_wait (p : party) : cprog resumed :=
  w <- newWaiter p 0;;
  spinLock;;;
  pushBack 0 w;;;
  spinUnlock;;;
  mutexUnlock;;;
  r <- wait fuel p w;;
  match r with
  | Woken => r' <- mutexLock p;; endWaiter w;;; Ret r'
  | Unwound => prim (fun x => [(set_left x, tt)]);;; leaveEarly 0 w (Ret tt);;; relock spins;;; endWaiter w;;; Ret Unwound
  end.

(** [wait(mutex, predicate)] *)
Fixpoint cv_wait_until (iterations : nat) (p : party) : cprog resumed :=
  match iterations with
  | O => Starved
  | S iterations' =>
      c <- prim (fun x => [(x, items x)]);;
      if 0 <? c then Ret Woken
      else
        r <- cv_wait p;;
        match r with Woken => cv_wait_until iterations' p | Unwound => Ret Unwound end
  end.

Definition cv_notifyOne : cprog unit :=
  spinLock;;;
  o <- popFront 0;;
  spinUnlock;;;
  match o with Some w => notify w | None => Ret tt end.

Definition cv_notifyAll : cprog unit :=
  spinLock;;;
  chain <- popAll fuel 0 None;;
  spinUnlock;;;
  notifyChain fuel chain.

(** ** Clients *)

Inductive cv_op := CConsume (task : bool) | CProduce (task : bool) | CProduceAll (task : bool) (count : nat) | CStale (j : nat) | CStop.

(** The mutex is held by a [LockGuard]: a forced unwind unlocks it too. *)
Definition consume (p : party) : cprog resumed :=
  r <- mutexLock p;;
  match r with
  | Unwound => Ret Unwound
  | Woken =>
      r' <- cv_wait_until fuel p;;
      match r' with
      | Woken => prim (fun x => [(set_items (items x - 1) x, tt)]);;; mutexUnlock;;; Ret Woken
      | Unwound => mutexUnlock;;; Ret Unwound
      end
  end.

Definition produce (p : party) (count : nat) (notification : cprog unit) : cprog resumed :=
  r <- mutexLock p;;
  match r with
  | Unwound => Ret Unwound
  | Woken => prim (fun x => [(set_items (items x + count) x, tt)]);;; mutexUnlock;;; notification;;; Ret Woken
  end.

Definition cv_party (i : nat) (task : bool) : party := if task then PTask i else PThread i.

Definition cv_run (i : nat) (o : cv_op) : cprog resumed :=
  match o with
  | CConsume task => consume (cv_party i task)
  | CProduce task => produce (cv_party i task) 1 cv_notifyOne
  | CProduceAll task count => produce (cv_party i task) count cv_notifyAll
  | CStale j => unpark j;;; Ret Woken
  | CStop => store (set_stop true);;; Ret Woken
  end.

Fixpoint cv_runs (i : nat) (l : list cv_op) : cprog unit :=
  match l with
  | [] => Ret tt
  | o :: l' => r <- cv_run i o;; match r with Woken => cv_runs i l' | Unwound => Ret tt end
  end.

Definition cv_pool (l : list (list cv_op)) : config (sworld cvar) unit :=
  (imap cv_runs l, init_sworld (MkCvar 1 0 false) 1).
End operations.
