(* ===== verification/CondVarSpec.v ===== *)
(** * ConditionVariable: no notification is lost

    While somebody waits, the items that are there are covered by notifications
    still to come, by waiters that were notified and by threads that are about to look. *)

From Stdlib Require Import ZArith Lia.
From stdpp Require Import base tactics list numbers option strings functions.
From S2P Require Import Prelude Conc Sums WaitList Waiting WaitingInv WaitingRules CondVar.
Open Scope nat_scope.

(** Where a thread stands: it does not hold the mutex; it holds it ([look]: notified,
    about to look); it saw no item; it saw one; it has added items and is to notify; it was unwound. *)
Inductive cvl := CIdle | CHeld (look : bool) | CZero | CPos (look : bool) | COwe (held all : bool) | CDead.

Definition b2n (b : bool) : nat := if b then 1 else 0.
Definition mtx (l : cvl) : nat := match l with CHeld _ | CZero | CPos _ => 1 | COwe h _ => b2n h | _ => 0 end.
Definition owe (l : cvl) : nat := match l with COwe _ false => 1 | _ => 0 end.
Definition oweAll (l : cvl) : bool := match l with COwe _ true => true | _ => false end.
Definition look (l : cvl) : nat := match l with CHeld b | CPos b => b2n b | _ => 0 end.
(** What it knows of the items. *)
Definition seen (l : cvl) (k : nat) : Prop := match l with CZero => k = 0 | CPos _ => 0 < k | _ => True end.
Definition cv_calm (l : cvl) : Prop := mtx l = 0 /\ owe l = 0 /\ oweAll l = false /\ look l = 0.

Section spec.
Context (n : nat).

Definition covered (x : cvar) (ws : list nat) (pf : nat -> cvl) (gr : nat) : Prop :=
  ws <> [] -> some n oweAll pf \/ items x <= total n owe pf + gr + total n look pf.

Record cv_inv (x : cvar) (gl : list (list nat)) (hd : option nat) (pf : nat -> cvl) (gr : nat * nat) : Prop := {
  ci_list : exists ws, gl = [ws] /\ (left_ x = false -> covered x ws pf gr.1);
  ci_mutex : left_ x = false -> permits x + total n mtx pf = 1;
  ci_seen : forall i, i < n -> left_ x = false -> seen (pf i) (items x);
  ci_dead : forall i, i < n -> pf i = CDead -> left_ x = true
}.

Lemma cv_inv_lock x gl f gr i : i < n -> cv_inv x gl None f gr -> cv_inv x gl (Some i) f gr.
Proof. intros _ []. by split. Qed.

Lemma cv_inv_step x ws hd pf gr i l l' x' ws' hd' gr' :
  i < n -> pf i = l -> cv_inv x [ws] hd pf gr -> (left_ x = true -> left_ x' = true) -> (l' = CDead -> left_ x' = true) ->
  (left_ x' = false -> (items x' = items x \/ mtx l = 1) /\ permits x' + mtx l' = permits x + mtx l /\ seen l' (items x') /\
     (ws' <> [] -> oweAll l' = true \/ items x' = 0 \/
        (ws <> [] /\ oweAll l = false /\ items x' + owe l + gr.1 + look l <= items x + owe l' + gr'.1 + look l'))) ->
  cv_inv x' [ws'] hd' (<[i := l']> pf) gr'.
Proof.
  intros Hi Hl [(ws0 & [= <-] & Hcov) Hm Hs Hd] Hmono Hdead Hlive.
  assert (Hx : left_ x' = false -> left_ x = false) by (intros E; destruct (left_ x); [by rewrite Hmono in E|done]).
  pose proof (total_upd n mtx pf i l l' Hi Hl) as Tm. pose proof (total_upd n owe pf i l l' Hi Hl) as To. pose proof (total_upd n look pf i l l' Hi Hl) as Tl. split.
  - exists ws'. split; [done|]. intros E Hne. destruct (Hlive E) as (_ & _ & _ & Hc). destruct (Hc Hne) as [Ha|[H0|(Hws & Ha & Hle)]].
    + left. by apply some_here.
    + right. lia.
    + destruct (Hcov (Hx E) Hws) as [Hall|Hle']; [left; eapply some_keep; [exact Hl|congruence|exact Hall]|right; lia].
  - intros E. destruct (Hlive E) as (_ & Hp & _). specialize (Hm (Hx E)). lia.
  - intros j Hj E. destruct (Hlive E) as (Hit & Hp & Hse & _). destruct (decide (j = i)) as [->|Hne]; [by rewrite fn_lookup_insert|].
    rewrite fn_lookup_insert_ne by done. destruct Hit as [->|Hmx]; [by apply Hs; auto|]. specialize (Hm (Hx E)).
    assert (mtx (pf j) = 0) as Hmj. { pose proof (total_elem n mtx (<[i := l']> pf) j Hj) as Ht. rewrite fn_lookup_insert_ne in Ht by done. pose proof (total_upd n mtx pf i l CIdle Hi Hl) as T0. pose proof (total_elem n mtx (<[i := CIdle]> pf) j Hj) as Ht0. rewrite fn_lookup_insert_ne in Ht0 by done. simpl in T0. lia. }
    by destruct (pf j).
  - intros j Hj. destruct (decide (j = i)) as [->|Hne]; [by rewrite fn_lookup_insert|]. rewrite fn_lookup_insert_ne by done. eauto.
Qed.

Lemma cv_inv_same x gl hd hd' pf gr i l : i < n -> pf i = l -> cv_inv x gl hd pf gr -> cv_inv x gl hd' (<[i := l]> pf) gr.
Proof.
  intros Hi Hl [H1 H2 H3 H4]. assert (Hf : forall j, <[i := l]> pf j = pf j) by (intros j; by apply insert_same_fn). split.
  - destruct H1 as (ws & -> & H1). exists ws. split; [done|]. intros E Hne. rewrite !(some_ext n _ _ _ Hf), !(total_ext n _ _ _ Hf). by apply H1.
  - by rewrite (total_ext n _ _ _ Hf).
  - intros j Hj. rewrite Hf. by apply H3.
  - intros j Hj. rewrite Hf. by apply H4.
Qed.

(** Threads wait for the mutex, too. *)
Notation R0 := (wproto n (fun _ : cvar => tt) cv_inv cv_calm).
Definition cv_waits (i : nat) (s : sworld cvar) (g : ghost cvl) : Prop :=
  holder g <> Some i /\ cv_calm (pl g i) /\ (forall w, place g w <> Taken i /\ place g w <> Waking i) /\ permits (sprim s) = 0.
Definition cv_proto : protocol (sworld cvar) (ghost cvl) := with_waits R0 cv_waits.
Notation R := cv_proto.
Notation at_ := (at_ (fun _ : cvar => tt)).
Notation lk h := ((fun gl : list (list nat) => (gl, tt)) <$> h).

Lemma rg_more {A} i (p : cprog A) P Q : rg R0 i p P Q -> rg R i p P Q.
Proof. apply rg_with_waits. Qed.

(** ** Rules *)

Lemma x_cv_prim {A B} i h o hand l (f : cvar -> cvar * B) (k : B -> cprog A) Q :
  (forall x gl hd pf gr, pf i = l -> cv_inv x gl hd pf gr ->
     exists l', cv_inv (f x).1 gl hd (<[i := l']> pf) gr /\ rg R0 i (k (f x).2) (at_ i (lk h) o hand None l') Q) ->
  rg R0 i (bind (prim (fun x => [f x])) k) (at_ i (lk h) o hand None l) Q.
Proof.
  intros Hk. apply rg_prim; [done|]. intros x gl hd pf gr x' z Hin Hl Hp Hh. apply list_elem_of_singleton in Hin.
  destruct (Hk x gl hd pf gr Hl Hp) as (l' & Hp' & Hrg). rewrite <- Hin in *. exists l', (lk h). splits; try done. by destruct h.
Qed.

(** A rule of WaitingRules.v, for the operation alone. *)
Ltac alone rule := apply rg_more, rg_bind_ret; rule.

(** *** The mutex *)

Lemma x_mutexLock i p o l : cv_calm l -> l <> CDead -> i < n ->
  rg R i (mutexLock p) (at_ i None o [] None l) (fun r => at_ i None o [] None (match r with Woken => CHeld false | Unwound => CDead end)).
Proof.
  intros (Hm & Ho & Ha & Hlk) Hnd Hi.
  assert (Hstep : forall x' l' s g, Inv R s g -> at_ i None o [] None l s g ->
    (forall gl pf gr, pf i = l -> cv_inv (sprim s) gl (holder g) pf gr -> cv_inv x' gl (holder g) (<[i := l']> pf) gr) ->
    exists g' P', Inv R (set_prim x' s) g' /\ guar R i (s, g) (set_prim x' s, g') /\ P' (set_prim x' s) g' /\ stable R i P' /\
      forall s g, Inv R s g -> P' s g -> at_ i None o [] None l' s g).
  { intros x' l' s g HI [[Hh Hown Hd Hw Hl] Hon] Hc. exists (Ghost (place g) (holder g) (glists g) (<[i := l']> (pl g))), (at_ i None o [] None l'). splits.
    - apply (winv_prim n cv_inv s g x' (stokens s) (sstopping s)); [done|]. apply Hc; [done|]. apply HI.
    - apply (wguar_quiet _ i s g x' (slocked s) (stokens s) (sstopping s)); try done. intros j Hj. by rewrite fn_lookup_insert_ne.
    - split; [|done]. split; simpl; try done. by rewrite fn_lookup_insert.
    - apply at_stable.
    - by intros. }
  split.
  - intros s g HI [[Hh Hown Hd Hw Hl] Hon] E. right. apply app_nil in E as [E _]. unfold cv_waits, cv_calm. rewrite Hl. splits; [done|done|done|done|done|by apply idle_hand|by destruct (permits (sprim s))].
  - intros s g s' r HI Hat Hin. apply elem_of_app in Hin as [Hin|Hin].
    + destruct (permits (sprim s)) as [|k] eqn:Ek; [by apply elem_of_nil in Hin|]. apply list_elem_of_singleton in Hin as [= -> ->]. apply Hstep; [done|done|].
      intros gl pf gr Hl Hc. destruct (ci_list _ _ _ _ _ Hc) as (ws & -> & _).
      eapply (cv_inv_step _ ws _ pf gr i l); [done|done|exact Hc|done|done|]. intros E. simpl. splits; [by left|lia|done|].
      intros Hws. right; right. splits; [done|done|lia].
    + assert (s' = set_prim (set_left (sprim s)) s /\ r = Unwound) as [-> ->].
      { destruct p; [destruct (sstopping s)|..]; try by apply elem_of_nil in Hin. by apply list_elem_of_singleton in Hin as [= -> ->]. }
      apply Hstep; [done|done|]. intros gl pf gr Hl Hc. destruct (ci_list _ _ _ _ _ Hc) as (ws & -> & _).
      by eapply (cv_inv_step _ ws _ pf gr i l); [done|done|exact Hc|done|done|].
Qed.

Lemma x_mutexUnlock i o l l' : i < n ->
  (l = CDead /\ l' = CDead \/ mtx l = 1 /\ mtx l' = 0 /\ owe l' = owe l /\ oweAll l' = oweAll l /\ look l = 0 /\ look l' = 0 /\ l' <> CDead) ->
  rg R i mutexUnlock (at_ i None o [] None l) (fun _ => at_ i None o [] None l').
Proof.
  intros Hi Hl. alone ltac:(apply (x_cv_prim i None)). intros x gl hd pf gr Hpf Hc. exists l'. split; [|by intros ? ? _ ?].
  destruct (ci_list _ _ _ _ _ Hc) as (ws & -> & _). eapply (cv_inv_step _ ws _ pf gr i l); [done|done|exact Hc|done| |].
  - intros ->. destruct Hl as [[-> _]|(_ & _ & _ & _ & _ & _ & ?)]; [|done]. by eapply (ci_dead _ _ _ _ _ Hc i).
  - intros E. destruct Hl as [[-> _]|(H1 & H2 & H3 & H4 & H5 & H6 & H7)]; [simpl in E; by rewrite (ci_dead _ _ _ _ _ Hc i Hi Hpf) in E|]. cbn [fst set_permits permits items].
    splits; [by left|lia|by destruct l'|]. intros Hws. destruct (oweAll l) eqn:Ea; [by left|]. right; right. splits; [done|done|lia].
Qed.

(** After a forced unwind nothing is known of the mutex. *)
Lemma x_dead i o (f : cvar -> cvar * bool) : i < n -> (forall x, left_ (f x).1 = left_ x) ->
  rg R i (prim (fun x => [f x])) (at_ i None o [] None CDead) (fun _ => at_ i None o [] None CDead).
Proof.
  intros Hi Hf. alone ltac:(apply (x_cv_prim i None)). intros x gl hd pf gr Hpf Hc. exists CDead. split; [|by intros ? ? _ ?].
  pose proof (ci_dead _ _ _ _ _ Hc i Hi Hpf) as Hx. destruct (ci_list _ _ _ _ _ Hc) as (ws & -> & _).
  eapply (cv_inv_step _ ws _ pf gr i CDead); [done|done|exact Hc|..]; rewrite Hf, Hx; done.
Qed.

Lemma x_relock i o spins : i < n -> rg R i (relock spins) (at_ i None o [] None CDead) (fun _ => at_ i None o [] None CDead).
Proof.
  intros Hi. induction spins as [|spins IH]; [by intros ? ? _ ?|]. cbn [relock]. eapply rg_bind.
  - apply (x_dead i o (fun x => match permits x with S k => (set_permits k x, true) | O => (x, false) end)); [done|]. intros x. by destruct (permits x).
  - intros [|]; [by intros ? ? _ ?|exact IH].
Qed.

(** *** Waiting *)

Lemma x_spinLock i o l : i < n -> rg R i spinLock (at_ i None o [] None l) (fun _ s g => exists ws, at_ i (Some ([ws], tt)) o [] None l s g).
Proof.
  intros Hi. alone ltac:(apply rg_lock); [intros; by apply cv_inv_lock|done|]. intros gl [] s g HI Hat. pose proof Hat as [[(_ & Hgl & _) _ _ _ _] _].
  destruct (ci_list _ _ _ _ _ (wi_prim _ _ _ _ HI)) as (ws & E & _). exists ws. rewrite <- E, Hgl. exact Hat.
Qed.

Lemma x_spinUnlock i gl o l : i < n -> rg R i spinUnlock (at_ i (Some (gl, tt)) o [] None l) (fun _ => at_ i None o [] None l).
Proof.
  intros Hi. alone ltac:(apply (rg_unlock _ _ _ _ i gl tt o [] None l l)); [|by intros ? ? _ ?]. intros x f gr Hf _ Hc. by eapply cv_inv_same.
Qed.

Lemma x_endWaiter i w st l l' : i < n ->
  match st with SFresh x => wcalled x = false /\ l' = l | SSat _ k => k = 0 /\ (l = CHeld false /\ l' = CHeld true \/ l = CDead /\ l' = CDead) | _ => False end ->
  rg R i (endWaiter w) (at_ i None (Some (w, st)) [] None l) (fun _ => at_ i None None [] None l').
Proof.
  intros Hi Hst. alone ltac:(eapply (rg_end _ _ _ _ i None w st _ _ l l')); [|by intros ? ? _ ?]. destruct st as [x|? ?|? ?|? k|? ?]; try done.
  - destruct Hst as [Hx ->]. splits; [done|done|]. intros z gl hd f gr Hf Hc. by eapply cv_inv_same.
  - destruct Hst as [-> Hst]. intros z gl hd f gr Hf _ Hc. destruct (ci_list _ _ _ _ _ Hc) as (ws & -> & _).
    eapply (cv_inv_step _ ws _ f _ i l); [done|done|exact Hc|done|..].
    + intros ->. destruct Hst as [[_ ?]|[-> _]]; [done|]. by apply (ci_dead _ _ _ _ _ Hc i).
    + intros E. destruct Hst as [[-> ->]|[-> _]]; [|by rewrite (ci_dead _ _ _ _ _ Hc i Hi Hf) in E]. simpl. splits; [by left|lia|done|]. intros Hws. right; right. splits; [done|done|lia].
Qed.

(** The waiter leaves early, on a forced unwind. *)
Lemma x_leaveEarly i w p : i < n ->
  rg R i (leaveEarly 0 w (Ret tt)) (at_ i None (Some (w, SWait p 0)) [] None CDead)
    (fun b s g => if b then exists x, wcalled x = false /\ at_ i None (Some (w, SFresh x)) [] None CDead s g else at_ i None (Some (w, SSat p 0)) [] None CDead s g).
Proof.
  intros Hi. unfold leaveEarly. eapply rg_seq; [by apply x_spinLock|]. apply rg_ex. intros ws. apply rg_more. eapply rg_linked.
  - intros ws' [= <-] Hw. apply rg_bind_assoc, (rg_unlink _ _ _ _ i [ws] tt w p 0 ws [] None CDead CDead); try done.
    + intros z f gr _ Hf _ Hc. pose proof (ci_dead _ _ _ _ _ Hc i Hi Hf) as Hd. eapply (cv_inv_step _ ws _ f gr i CDead _ _ (remove w ws)); [done|done|exact Hc|done|done|]. by rewrite Hd.
    + intros x Hpx Hcx _. apply (rg_unlock _ _ _ _ i _ tt _ [] None CDead CDead); [intros y f gr Hf _ Hc; by eapply cv_inv_same|]. intros s g _ Hat. by exists x.
  - apply (rg_unlock _ _ _ _ i _ tt _ [] None CDead CDead); [intros y f gr Hf _ Hc; by eapply cv_inv_same|]. apply rg_awaitNotifier; [done|]. by intros ? ? _ ?.
Qed.

Definition resumed_as (r : resumed) : cvl := match r with Woken => CHeld true | Unwound => CDead end.

Lemma x_cv_wait i p fuel spins : i < n -> party_of p = i -> is_callback p = false ->
  rg R i (cv_wait fuel spins p) (at_ i None None [] None CZero) (fun r => at_ i None None [] None (resumed_as r)).
Proof.
  intros Hi Hp Hc. unfold cv_wait. eapply (rg_bind _ _ _ _ _ (fun w => at_ i None (Some (w, SFresh (new_waiter p 0))) [] None CZero)).
  { alone ltac:(apply rg_new); [done|done|]. by intros w ? ? _ ?. }
  intros w. eapply rg_seq; [by apply x_spinLock|]. apply rg_ex. intros ws.
  eapply (rg_seq _ _ _ _ _ (at_ i (Some ([ws ++ [w]], tt)) (Some (w, SWait p 0)) [] None CZero)).
  { alone ltac:(apply (rg_pushBack _ _ _ _ i [ws] tt w _ [] None CZero CZero 0 ws)); [done|done|done| |].
    - intros z f gr Hf _ Hz. eapply (cv_inv_step _ ws _ f gr i CZero _ _ (ws ++ [w])); [done|done|exact Hz|done|done|]. intros E. pose proof (ci_seen _ _ _ _ _ Hz i Hi E) as Hs. rewrite Hf in Hs.
      splits; [by left|lia|done|by right; left].
    - simpl. unfold queued_stage. rewrite Hc. by intros ? ? _ ?. }
  eapply rg_seq; [by apply x_spinUnlock|]. eapply rg_seq; [apply (x_mutexUnlock i _ CZero CIdle Hi); by right; splits|].
  eapply (rg_bind _ _ _ _ _ (fun r => match r with Woken => at_ i None (Some (w, SSat p 0)) [] None CIdle | Unwound => at_ i None (Some (w, SWait p 0)) [] None CIdle end)).
  { alone ltac:(apply rg_wait); [by splits|by intros ? ? _ ?|by intros ? ? _ ?]. }
  intros [|].
  - eapply rg_bind; [by apply x_mutexLock|]. intros r. eapply rg_seq; [apply (x_endWaiter i w (SSat p 0) _ (resumed_as r) Hi)|by intros ? ? _ ?]. split; [done|]. destruct r; [by left|by right].
  - eapply (rg_seq _ _ _ _ _ (at_ i None (Some (w, SWait p 0)) [] None CDead)).
    { alone ltac:(apply (x_cv_prim i None)). intros x gl hd pf gr Hpf Hx. exists CDead. split; [|by intros ? ? _ ?]. destruct (ci_list _ _ _ _ _ Hx) as (ws' & -> & _).
      by eapply (cv_inv_step _ ws' _ pf gr i CIdle); [done|done|exact Hx|..]. }
    assert (Hend : forall st, match st with SFresh x => wcalled x = false | SSat _ k => k = 0 | _ => False end ->
      rg R i (relock spins;;; endWaiter w;;; Ret Unwound) (at_ i None (Some (w, st)) [] None CDead) (fun r => at_ i None None [] None (resumed_as r))).
    { intros st Hst. eapply rg_seq; [by apply x_relock|]. eapply rg_seq; [apply (x_endWaiter i w st CDead CDead Hi)|by intros ? ? _ ?]. destruct st; try done. split; [done|by right]. }
    eapply rg_bind; [by apply x_leaveEarly|]. intros [|]; [|by apply Hend]. apply rg_ex. intros x. apply rg_pure. intros Hx. by apply Hend.
Qed.

Lemma x_look {A} i lk (k : nat -> cprog A) Q : i < n ->
  (forall c, rg R i (k c) (at_ i None None [] None (if 0 <? c then CPos lk else CZero)) Q) ->
  rg R i (bind (prim (fun x => [(x, items x)])) k) (at_ i None None [] None (CHeld lk)) Q.
Proof.
  intros Hi Hk. eapply rg_bind; [|exact Hk]. alone ltac:(apply (x_cv_prim i None)). intros x gl hd pf gr Hpf Hx. exists (if 0 <? items x then CPos lk else CZero). split; [|by intros ? ? _ ?].
  destruct (ci_list _ _ _ _ _ Hx) as (ws & -> & _). eapply (cv_inv_step _ ws _ pf gr i (CHeld lk)); [done|done|exact Hx|done|by destruct (0 <? items x)|]. intros E. cbn [fst].
  destruct (Nat.ltb_spec 0 (items x)); simpl; splits; try lia; try done; try (by left).
  - intros Hws. right; right. splits; [done|done|lia].
Qed.

Lemma x_wait_until i p fuel spins its lk : i < n -> party_of p = i -> is_callback p = false ->
  rg R i (cv_wait_until fuel spins its p) (at_ i None None [] None (CHeld lk))
    (fun r s g => match r with Woken => exists lk, at_ i None None [] None (CPos lk) s g | Unwound => at_ i None None [] None CDead s g end).
Proof.
  intros Hi Hp Hc. revert lk. induction its as [|its IH]; intros lk; [done|]. cbn [cv_wait_until]. apply x_look; [done|]. intros c. destruct (0 <? c).
  - intros s g _ Hat. by exists lk.
  - eapply rg_bind; [by apply x_cv_wait|]. intros [|]; [apply IH|by intros ? ? _ ?].
Qed.

(** *** Notifications *)

(** Notifying when nothing is owed (the list ended up empty, or somebody was taken off it). *)
Lemma owe_none x ws hd hd' pf gr i b : i < n -> pf i = COwe false b -> ws = [] -> cv_inv x [ws] hd pf gr -> cv_inv x [ws] hd' (<[i := CIdle]> pf) gr.
Proof.
  intros Hi Hpf -> Hc. eapply (cv_inv_step _ [] _ pf gr i (COwe false b)); [done|done|exact Hc|done|done|]. intros E. splits; [by left|simpl; lia|done|done].
Qed.

Lemma x_notifyOne i : i < n -> rg R i cv_notifyOne (at_ i None None [] None (COwe false false)) (fun _ => at_ i None None [] None CIdle).
Proof.
  intros Hi. unfold cv_notifyOne. eapply rg_seq; [by apply x_spinLock|]. apply rg_ex. intros ws. apply rg_more.
  eapply (rg_pre _ i _ (at_chain (fun _ => tt) None i (Some ([ws], tt)) (COwe false false) None [])); [intros s g _; apply (at_no_chain (fun _ : cvar => tt) None)|].
  apply (rg_popFront _ _ _ _ i [ws] tt _ None [] 0 ws); [done|done| |].
  - intros ->. apply (rg_unlock_chain _ _ _ _ i [[]] tt _ CIdle); [intros x f gr Hf _ Hc; by eapply owe_none|]. intros s g _ [Hat _]. exact Hat.
  - intros w ws' ->. exists CIdle. split.
    + intros z f gr Hf _ Hc. eapply (cv_inv_step _ (w :: ws') _ f gr i (COwe false false)); [done|done|exact Hc|done|done|]. intros E. splits; [by left|simpl; lia|done|].
      intros Hws. right; right. simpl. splits; [done|done|lia].
    + apply rg_append_first, (rg_unlock_chain _ _ _ _ i _ tt _ CIdle); [intros x f gr Hf _ Hc; by eapply cv_inv_same|]. apply rg_bind_ret, rg_notify_one. by intros ? ? _ ?.
Qed.

Lemma x_notifyAll i fuel : i < n -> rg R i (cv_notifyAll fuel) (at_ i None None [] None (COwe false true)) (fun _ => at_ i None None [] None CIdle).
Proof.
  intros Hi. unfold cv_notifyAll. eapply rg_seq; [by apply x_spinLock|]. apply rg_ex. intros ws. apply rg_more.
  eapply (rg_pre _ i _ (at_chain (fun _ => tt) None i (Some (<[0 := ws]> [ws], tt)) (COwe false true) None [])); [intros s g _; apply (at_no_chain (fun _ : cvar => tt) None)|].
  apply (rg_popAll _ _ _ _ i [ws] tt); [done| |simpl; lia|].
  - intros w ws' z f gr Hf _ Hc. simpl in *. eapply (cv_inv_step _ (w :: ws') _ f gr i (COwe false true)); [done|done|exact Hc|done|done|]. intros E. splits; [by left|simpl; lia|done|by left].
  - intros chain hand'. change (<[0 := []]> [ws]) with [@nil nat]. apply (rg_unlock_chain _ _ _ _ i [[]] tt _ CIdle); [intros x f gr Hf _ Hc; by eapply owe_none|].
    apply rg_bind_ret, rg_notifyChain. by intros ? ? _ ?.
Qed.

(** *** Clients *)

(** A change of the items, under the mutex. *)
Lemma x_items i l l' (f : nat -> nat) : i < n -> mtx l = 1 -> mtx l' = 1 -> l' <> CDead -> oweAll l = false -> (forall k, seen l' k) ->
  (forall k, seen l k -> oweAll l' = true \/ f k + owe l + look l <= k + owe l' + look l') ->
  rg R i (prim (fun x => [(set_items (f (items x)) x, tt)])) (at_ i None None [] None l) (fun _ => at_ i None None [] None l').
Proof.
  intros Hi H1 H2 H3 H4 H5 H6. alone ltac:(apply (x_cv_prim i None)). intros x gl hd pf gr Hpf Hx. exists l'. split; [|by intros ? ? _ ?].
  destruct (ci_list _ _ _ _ _ Hx) as (ws & -> & _). eapply (cv_inv_step _ ws _ pf gr i l); [done|done|exact Hx|done|done|]. intros E. simpl.
  splits; [by right|lia|apply H5|]. intros Hws. pose proof (ci_seen _ _ _ _ _ Hx i Hi E) as Hs. rewrite Hpf in Hs. destruct (H6 _ Hs) as [?|?]; [by left|]. right; right. splits; [done|done|lia].
Qed.

Definition ran (r : resumed) : cvl := match r with Woken => CIdle | Unwound => CDead end.

Lemma x_consume i p fuel spins : i < n -> party_of p = i -> is_callback p = false ->
  rg R i (consume fuel spins p) (at_ i None None [] None CIdle) (fun r => at_ i None None [] None (ran r)).
Proof.
  intros Hi Hp Hc. unfold consume. eapply rg_bind; [by apply x_mutexLock|]. intros [|]; [|by intros ? ? _ ?]. eapply rg_bind; [by apply x_wait_until|]. intros [|].
  - apply rg_ex. intros lk. eapply rg_seq; [apply (x_items i (CPos lk) (CHeld false) (fun k => k - 1)); try done|]. { intros k Hk. simpl in Hk. right. destruct lk; simpl; lia. }
    eapply rg_seq; [apply (x_mutexUnlock i None (CHeld false) CIdle Hi); by right; splits|]. by intros ? ? _ ?.
  - eapply rg_seq; [apply (x_mutexUnlock i None CDead CDead Hi); by left|]. by intros ? ? _ ?.
Qed.

Lemma x_produce i p count all (notification : cprog unit) : i < n -> (all = false -> count = 1) ->
  rg R i notification (at_ i None None [] None (COwe false all)) (fun _ => at_ i None None [] None CIdle) ->
  rg R i (produce p count notification) (at_ i None None [] None CIdle) (fun r => at_ i None None [] None (ran r)).
Proof.
  intros Hi Hall Hn. unfold produce. eapply rg_bind; [by apply x_mutexLock|]. intros [|]; [|by intros ? ? _ ?].
  eapply rg_seq; [apply (x_items i (CHeld false) (COwe true all) (fun k => k + count)); try done|]. { intros k _. destruct all; [by left|right]. rewrite Hall by done. simpl. lia. }
  eapply rg_seq; [apply (x_mutexUnlock i None (COwe true all) (COwe false all) Hi); right; by destruct all|]. eapply rg_seq; [exact Hn|]. by intros ? ? _ ?.
Qed.

Lemma x_runs i fuel spins l : i < n -> rg R i (cv_runs fuel spins i l) (at_ i None None [] None CIdle) (fun _ s g => exists l, cv_calm l /\ at_ i None None [] None l s g).
Proof.
  intros Hi. induction l as [|o l IH]; cbn [cv_runs]; [intros s g _ Hat; by exists CIdle|].
  eapply (rg_bind _ _ _ _ _ (fun r => at_ i None None [] None (ran r))).
  - destruct o as [task|task|task count|j|]; cbn [cv_run].
    + apply x_consume; [done|by destruct task|by destruct task].
    + apply (x_produce i _ 1 false); [done|done|by apply x_notifyOne].
    + apply (x_produce i _ count true); [done|done|by apply x_notifyAll].
    + apply rg_more, rg_stale; [done|]. by intros ? ? _ ?.
    + apply rg_more, rg_set_stop. by intros ? ? _ ?.
  - intros [|]; [exact IH|]. intros s g _ Hat. by exists CDead.
Qed.
End spec.

Lemma cv_pool_ok fuel spins l :
  pool_ok (cv_proto (length l)) (fun i _ s g => exists l, cv_calm l /\ at_ (fun _ => tt) i None None [] None l s g) (cv_pool fuel spins l).
Proof.
  exists (Ghost (fun _ => Fresh) None [[]] (fun _ => CIdle)). split.
  - split; simpl; try done.
    + intros [|k] wl ws; simpl; [|done]. intros [= <-] [= <-]. apply is_list_nil.
    + intros [|k] ws w; simpl; [|done]. intros [= <-] Hw. by apply elem_of_nil in Hw.
    + split; simpl; try done; [|intros _; by rewrite total_zero]. exists []. split; [done|]. by intros _ ?.
  - intros i p Hp. simpl in Hp. rewrite list_lookup_imap in Hp. destruct (l !! i) as [ops|] eqn:E; [|done]. injection Hp as <-. apply lookup_lt_Some in E.
    exists (at_ (fun _ => tt) i None None [] None CIdle). split; [apply at_stable|]. split; [|by apply x_runs].
    split; [|done]. split; simpl; try done; intros w; split; try done. by intros ?%elem_of_nil.
Qed.

(** At rest and with nobody unwound, the mutex is free. *)
Lemma cv_rest_mutex n ts s g :
  length ts = n -> Inv (cv_proto n) s g -> left_ (sprim s) = false ->
  (forall i X f k, ts !! i = Some (Act X f k) -> f s = [] -> may_wait (cv_proto n) i s g) ->
  (forall i (a : unit), ts !! i = Some (Ret a) -> exists l, cv_calm l /\ at_ (fun _ => tt) i None None [] None l s g) ->
  (forall i th, ts !! i = Some th -> halted s th) -> permits (sprim s) = 1.
Proof.
  intros Hlen HI Hleft Hwait Hret Hhalt.
  assert (Hth : forall i, i < n -> (exists j, j <> i /\ holder g = Some j) \/ (holder g <> Some i /\ cv_calm (pl g i))).
  { intros i Hi. destruct (lookup_lt_is_Some_2 ts i ltac:(lia)) as [th Hi']. destruct (Hhalt i th Hi') as [->|(T & f & k & -> & Hf)].
    - destruct (Hret i tt Hi') as (l & Hc & [[Hh _ _ _ Hl] _]). right. by rewrite Hl.
    - destruct (Hwait i T f k Hi' Hf) as [[?|(? & ? & _)]|(? & ? & _)]; auto. }
  assert (Hfree : holder g = None).
  { destruct (holder g) as [j|] eqn:E; [|done]. destruct (Hth j (wi_holder _ _ _ _ HI j E)) as [(j' & ? & [= ->])|[? _]]; done. }
  pose proof (ci_mutex _ _ _ _ _ _ (wi_prim _ _ _ _ HI) Hleft) as Hm. rewrite total_zero in Hm; [lia|].
  intros j Hj. destruct (Hth j Hj) as [(j' & _ & E)|(_ & Hc & _)]; [congruence|done].
Qed.

(** C24: In every interleaving of consumers, which wait for an item under the mutex,
    producers that notify one waiter per item or all of them, stale wake-ups and the
    scheduler's stop: no waiter is touched after its scope; and once nobody can move,
    unless a task was unwound out of its wait, the mutex is free and there is no item
    while somebody waits: no notification is lost, also not one that comes
    between the unlock and the park. *)
Theorem cv_no_lost_wakeup fuel spins l ts s :
  reach (cv_pool fuel spins l) (ts, s) ->
  (forall i m, ts !! i <> Some (Fatal m)) /\
  ((forall i th, ts !! i = Some th -> halted s th) -> left_ (sprim s) = false ->
     permits (sprim s) = 1 /\ ((exists i X f k, ts !! i = Some (Act X f k)) -> items (sprim s) = 0)).
Proof.
  intros Hr. pose proof (pool_ok_reach _ _ _ _ Hr (cv_pool_ok fuel spins l)) as Hok. apply reach_length in Hr. simpl in Hr. rewrite length_imap in Hr. symmetry in Hr.
  split; [intros i m; by eapply pool_ok_not_fatal|]. intros Hhalt Hleft. destruct (pool_ok_waits _ _ _ _ Hok) as (g & HI & Hwait & Hret).
  pose proof (cv_rest_mutex _ ts s g Hr HI Hleft Hwait Hret Hhalt) as Hp. split; [done|]. intros (i & X & f & k & Hi).
  destruct (halted_waiters_at _ (fun _ : cvar => tt) _ cv_calm ts s g Hr HI) as (_ & Hcalm & Hng & Hact); [|done|done|].
  { intros j T f' k' Hj Hf. destruct (Hwait j T f' k' Hj Hf) as [?|(_ & _ & _ & ?)]; [done|lia]. }
  destruct (Hact i X f k Hi) as (w & x & m & ws' & _ & _ & Hm & Hw). pose proof (wi_prim _ _ _ _ HI) as Hc. destruct (ci_list _ _ _ _ _ _ Hc) as (ws & Hgl & Hcov). rewrite Hgl in Hm. destruct m as [|m]; [|done]. injection Hm as <-.
  destruct (Hcov Hleft) as [(j & Hj & E)|Hle]; [by intros ->; apply elem_of_nil in Hw| |].
  - destruct (Hcalm j Hj) as (_ & _ & ? & _). congruence.
  - rewrite Hng in Hle. rewrite !total_zero in Hle; [simpl in Hle; lia|..]; intros j Hj; by destruct (Hcalm j Hj) as (? & ? & ? & ?).
Qed.

(** Two consumers, one item. *)
Definition cv_final := run_avail (round_robin 3 60) (cv_pool 9 3 [[CConsume true]; [CConsume false]; [CProduce false]]).

Lemma cv_no_lost_wakeup_witness : permits (sprim cv_final.2) = 1 /\ items (sprim cv_final.2) = 0.
Proof.
  destruct (cv_no_lost_wakeup 9 3 [[CConsume true]; [CConsume false]; [CProduce false]] cv_final.1 cv_final.2) as [_ H].
  - apply (run_avail_reach (round_robin 3 60)). unfold cv_final. apply surjective_pairing.
  - destruct H as [Hp Hi]; [apply haltedb_all; vm_compute; reflexivity|vm_compute; reflexivity|]. split; [exact Hp|]. apply Hi. exists 1. vm_compute. repeat eexists.
Defined.

(** A consumer is notified while a producer is in its critical section, and waits for the
    mutex inside [wait]; the scheduler stops. *)
Definition cv_stop_schedule : list (nat * nat) :=
  replicate 20 (0, 0) ++ replicate 12 (1, 0) ++ [(2, 0)] ++ [(3, 0)] ++ replicate 20 (0, 0).
Definition cv_stopped := run_avail (cv_stop_schedule ++ round_robin 4 20) (cv_pool 9 3 [[CConsume true]; [CProduce false]; [CProduce false]; [CStop]]).

(** The guard [RelockOnUnwind] covers the wait but not the [mutex.lock()] after it: a task
    unwound there leaves without the mutex, and its caller's guard unlocks it all the same,
    while the producer holds it.  In the end the mutex has two permits. *)
Lemma cv_unwound_in_lock_two_permits :
  exists ts s, reach (cv_pool 9 3 [[CConsume true]; [CProduce false]; [CProduce false]; [CStop]]) (ts, s) /\
    (forall i th, ts !! i = Some th -> th = Ret tt) /\ permits (sprim s) = 2.
Proof.
  exists cv_stopped.1, cv_stopped.2. splits.
  - apply (run_avail_reach (cv_stop_schedule ++ round_robin 4 20)). unfold cv_stopped. apply surjective_pairing.
  - apply returnedb_all. vm_compute. reflexivity.
  - vm_compute. reflexivity.
Qed.
