(* ===== verification/Channel.v ===== *)
(** * Channel

    [Channel<T>] (sync/Channel.h): a bounded FIFO between tasks, threads and
    callbacks.  A ring of [capacity] slots, [head] and [count], [closed], and
    two waiter lists (0: [senders], 1: [receivers]), all behind one spin lock.

    - A slot is [None] while it holds no object.  Constructing over a live
      object, moving out of a slot without one and an index outside the array
      are [Fatal].
    - [sent] and [received] record the values in the order they went in and
      came out; [lostSend] and [lostRecv] count the wake-ups that were given to
      a task that left by a forced unwind instead of trying again.  Only the
      model has them. *)

From Stdlib Require Import ZArith Lia.
From stdpp Require Import base tactics list numbers option strings functions.
From S2P Require Import Prelude Conc WaitList Waiting.

Record Channel (V : Type) := MkChannel {
  capacity : nat;
  slots : list (option V);
  head : nat;
  count : nat;
  closed : bool;
  sent : list V;
  received : list V
}.

Record chan (V : Type) := Chan { channel : Channel V; lostSend : nat; lostRecv : nat }.
Arguments MkChannel {V}.
Arguments Chan {V}.
Arguments channel {V} c.
Arguments capacity {V} c.
Arguments slots {V} c.
Arguments head {V} c.
Arguments count {V} c.
Arguments closed {V} c.
Arguments sent {V} c.
Arguments received {V} c.
Arguments lostSend {V} c.
Arguments lostRecv {V} c.

Section channel.
Context {V : Type}.
Implicit Types (x : Channel V) (v : V).
Abbreviation cprog := (prog (sworld (chan V))).

Definition new_channel (cap : nat) : Channel V := MkChannel cap (replicate cap None) 0 0 false [] [].

(** The whole state is read and written under the lock. *)
Definition cprim {B} (f : Channel V -> Channel V * B) : cprog B :=
  prim (fun c => [(Chan (f (channel c)).1 (lostSend c) (lostRecv c), (f (channel c)).2)]).
Definition cload {B} (f : Channel V -> B) : cprog B := cprim (fun x => (x, f x)).

Definition pushLocked (v : V) : cprog unit :=
  ok <- cprim (fun x =>
    let index := ((head x + count x) `mod` capacity x)%nat in
    match slots x !! index with
    | Some None =>
        (MkChannel (capacity x) (<[index := Some v]> (slots x)) (head x) (count x + 1) (closed x) (sent x ++ [v]) (received x), true)
    | _ => (x, false)
    end);;
  check ok "object constructed over another, or outside the slots".

Definition popLocked : cprog V :=
  o <- cprim (fun x =>
    match slots x !! head x with
    | Some (Some v) =>
        (MkChannel (capacity x) (<[head x := None]> (slots x)) ((head x + 1) `mod` capacity x)%nat (count x - 1) (closed x) (sent x)
           (received x ++ [v]), Some v)
    | _ => (x, None)
    end);;
  match o with Some v => Ret v | None => Fatal "value moved out of an empty slot" end.

Definition senders : nat := 0.
Definition receivers : nat := 1.

(** [if (w != nullptr) { w->notify(); }] *)
Definition notifyIf (o : option nat) : cprog unit :=
  match o with Some w => notify w | None => Ret tt end.

(** A wake-up was given to a task that leaves. *)
Definition loseSend : cprog unit := prim (fun c => [(Chan (channel c) (lostSend c + 1) (lostRecv c), tt)]).
Definition loseRecv : cprog unit := prim (fun c => [(Chan (channel c) (lostSend c) (lostRecv c + 1), tt)]).

(** [~WaitGuard] *)
Definition unwindWait (k w : nat) (lose : cprog unit) : cprog unit :=
  wasLinked <- leaveEarly k w (Ret tt);;
  endWaiter w;;;
  if wasLinked : bool then Ret tt else lose.

(** [send], [recv]: what they return; [None]: the caller was unwound. *)
Fixpoint send (fuel : nat) (p : party) (v : V) : cprog (option bool) :=
  match fuel with
  | O => Starved
  | S fuel' =>
      spinLock;;;
      c <- cload closed;;
      if c : bool then spinUnlock;;; Ret (Some false)
      else
        room <- cload (fun x => (count x <? capacity x)%nat);;
        if room : bool then
          pushLocked v;;;
          receiver <- popFront receivers;;
          spinUnlock;;;
          notifyIf receiver;;;
          Ret (Some true)
        else
          w <- newWaiter p senders;;
          pushBack senders w;;;
          spinUnlock;;;
          r <- wait fuel' p w;;
          match r with
          | Woken => endWaiter w;;; send fuel' p v
          | Unwound => unwindWait senders w loseSend;;; Ret None
          end
  end.

Definition trySend (v : V) : cprog bool :=
  spinLock;;;
  no <- cload (fun x => closed x || (count x =? capacity x)%nat);;
  if no : bool then spinUnlock;;; Ret false
  else
    pushLocked v;;;
    receiver <- popFront receivers;;
    spinUnlock;;;
    notifyIf receiver;;;
    Ret true.

(** The value, or that the channel is closed and drained. *)
Fixpoint recv (fuel : nat) (p : party) : cprog (option (option V)) :=
  match fuel with
  | O => Starved
  | S fuel' =>
      spinLock;;;
      some <- cload (fun x => negb (count x =? 0)%nat);;
      if some : bool then
        v <- popLocked;;
        sender <- popFront senders;;
        spinUnlock;;;
        notifyIf sender;;;
        Ret (Some (Some v))
      else
        c <- cload closed;;
        if c : bool then spinUnlock;;; Ret (Some None)
        else
          w <- newWaiter p receivers;;
          pushBack receivers w;;;
          spinUnlock;;;
          r <- wait fuel' p w;;
          match r with
          | Woken => endWaiter w;;; recv fuel' p
          | Unwound => unwindWait receivers w loseRecv;;; Ret None
          end
  end.

Definition tryRecv : cprog (option V) :=
  spinLock;;;
  none <- cload (fun x => (count x =? 0)%nat);;
  if none : bool then spinUnlock;;; Ret None
  else
    v <- popLocked;;
    sender <- popFront senders;;
    spinUnlock;;;
    notifyIf sender;;;
    Ret (Some v).

(** ** Callback waiters *)

Definition enqueueLocked (k : nat) (waiter : option nat) : cprog TransferResult :=
  match waiter with
  | None => Ret TrWouldBlock
  | Some w =>
      c <- wget w wcancelled;;
      if c : bool then Ret TrCancelled
      else pushBack k w;;; Ret TrEnqueued
  end.

Definition sendOrEnqueue (v : V) (waiter : option nat) : cprog TransferResult :=
  spinLock;;;
  c <- cload closed;;
  if c : bool then spinUnlock;;; Ret TrClosed
  else
    room <- cload (fun x => (count x <? capacity x)%nat);;
    if room : bool then
      pushLocked v;;;
      receiver <- popFront receivers;;
      spinUnlock;;;
      notifyIf receiver;;;
      Ret TrDone
    else
      result <- enqueueLocked senders waiter;;
      spinUnlock;;;
      Ret result.

(** The value given to [sink], when [Done]. *)
Definition recvOrEnqueue (waiter : option nat) : cprog (TransferResult * option V) :=
  spinLock;;;
  some <- cload (fun x => negb (count x =? 0)%nat);;
  if some : bool then
    v <- popLocked;;
    sender <- popFront senders;;
    spinUnlock;;;
    notifyIf sender;;;
    Ret (TrDone, Some v)
  else
    c <- cload closed;;
    result <- (if c : bool then Ret TrClosed else enqueueLocked receivers waiter);;
    spinUnlock;;;
    Ret (result, None).

Definition cancelTransfer (k w : nat) : cprog bool :=
  spinLock;;; b <- cancelQueued k w;; spinUnlock;;; Ret b.
Definition cancelSend (w : nat) : cprog bool := cancelTransfer senders w.
Definition cancelRecv (w : nat) : cprog bool := cancelTransfer receivers w.

(** ** Closing, asking *)

Definition close (fuel : nat) : cprog unit :=
  spinLock;;;
  cprim (fun x => (MkChannel (capacity x) (slots x) (head x) (count x) true (sent x) (received x), tt));;;
  chain <- popAll fuel senders None;;
  chain' <- popAll fuel receivers chain;;
  spinUnlock;;;
  notifyChain fuel chain'.

Definition isClosed : cprog bool := spinLock;;; c <- cload closed;; spinUnlock;;; Ret c.
Definition size : cprog nat := spinLock;;; c <- cload count;; spinUnlock;;; Ret c.

(** [~Channel]: what is still buffered is destroyed, from [head] on. *)
Fixpoint destroy (fuel : nat) (x : Channel V) : option (Channel V) :=
  match fuel with
  | O => None
  | S fuel' =>
      if (count x =? 0)%nat then Some x
      else
        match slots x !! head x with
        | Some (Some v) =>
            destroy fuel' (MkChannel (capacity x) (<[head x := None]> (slots x)) ((head x + 1) `mod` capacity x)%nat (count x - 1)
              (closed x) (sent x) (received x))
        | _ => None
        end
  end.

(** ** Clients *)

Inductive ch_op :=
| ChSend (task : bool) (v : V)
| ChTrySend (v : V)
| ChRecv (task : bool)
| ChTryRecv
| ChSendCallback (v : V) (early late : bool)   (** cancelled before or after it is queued *)
| ChRecvCallback (early late : bool)
| ChAttempt (v : option V)                     (** the same without a waiter *)
| ChClose
| ChAsk
| ChStale (j : nat)                            (** a wake-up left over from an earlier wait of [j] *)
| ChStop.

(** After [Enqueued], the callback means: try again. *)
Fixpoint transferLoop (fuel k w : nat) (late : bool) (attempt : cprog TransferResult) : cprog unit :=
  match fuel with
  | O => Starved
  | S fuel' =>
      r <- attempt;;
      match r with
      | TrEnqueued =>
          b <- (if late then cancelTransfer k w else Ret false);;
          if b : bool then endWaiter w
          else awaitCallback w;;; transferLoop fuel' k w late attempt
      | _ => endWaiter w
      end
  end.

Definition transferCallback (fuel i k : nat) (early late : bool) (attempt : nat -> cprog TransferResult) : cprog unit :=
  w <- newWaiter (PCallback i) k;;
  (if early then cancelTransfer k w;;; Ret tt else Ret tt);;;
  transferLoop fuel k w late (attempt w).

Definition recvAttempt (w : nat) : cprog TransferResult := r <- recvOrEnqueue (Some w);; Ret r.1.

Definition ch_run (fuel i : nat) (o : ch_op) : cprog resumed :=
  match o with
  | ChSend task v =>
      r <- send fuel (if task then PTask i else PThread i) v;; Ret (match r with Some _ => Woken | None => Unwound end)
  | ChTrySend v => trySend v;;; Ret Woken
  | ChRecv task =>
      r <- recv fuel (if task then PTask i else PThread i);; Ret (match r with Some _ => Woken | None => Unwound end)
  | ChTryRecv => tryRecv;;; Ret Woken
  | ChSendCallback v early late =>
      transferCallback fuel i senders early late (fun w => sendOrEnqueue v (Some w));;; Ret Woken
  | ChRecvCallback early late => transferCallback fuel i receivers early late recvAttempt;;; Ret Woken
  | ChAttempt (Some v) => sendOrEnqueue v None;;; Ret Woken
  | ChAttempt None => recvOrEnqueue None;;; Ret Woken
  | ChClose => close fuel;;; Ret Woken
  | ChAsk => isClosed;;; size;;; Ret Woken
  | ChStale j => unpark j;;; Ret Woken
  | ChStop => store (set_stop true);;; Ret Woken
  end.

Fixpoint ch_runs (fuel i : nat) (l : list ch_op) : cprog unit :=
  match l with
  | [] => Ret tt
  | o :: l' => r <- ch_run fuel i o;; match r with Woken => ch_runs fuel i l' | Unwound => Ret tt end
  end.

Definition ch_pool (fuel cap : nat) (l : list (list ch_op)) : config (sworld (chan V)) unit :=
  (imap (ch_runs fuel) l, init_sworld (Chan (new_channel cap) 0 0) 2).
End channel.
Arguments ch_op V : clear implicits.
