(* ===== verification/ChannelSpec.v ===== *)
(** * Channel: first in, first out, and no lost wake-up

    The invariant: the ring holds, from [head] on, what was sent and not yet
    received; while the channel is open and somebody is queued to send, every
    free slot is spoken for: by a sender that has been woken and has not tried
    again, by a receiver that is about to wake one, or by a wake-up lost to a
    forced unwind; likewise for receivers and buffered values. *)

From Stdlib Require Import ZArith Lia.
From stdpp Require Import base tactics list numbers option strings functions.
From S2P Require Import Prelude Conc Sums Circle WaitList Waiting WaitingInv WaitingRules Channel.

(** ** The ring *)

Definition ring {V} (x : Channel V) (buf : list V) : Prop := circle (capacity x) (slots x) (head x) (count x) buf.

Section ring.
Context {V : Type}.
Implicit Types (x : Channel V) (buf : list V).

Definition ring_push (v : V) x : Channel V :=
  MkChannel (capacity x) (<[((head x + count x) `mod` capacity x)%nat := Some v]> (slots x)) (head x) (count x + 1) (closed x)
    (sent x ++ [v]) (received x).
Definition ring_pop (v : V) x : Channel V :=
  MkChannel (capacity x) (<[head x := None]> (slots x)) ((head x + 1) `mod` capacity x)%nat (count x - 1) (closed x)
    (sent x) (received x ++ [v]).
Definition ring_close x : Channel V :=
  MkChannel (capacity x) (slots x) (head x) (count x) true (sent x) (received x).

Lemma ring_push_ok x buf v :
  ring x buf -> (count x < capacity x)%nat ->
  slots x !! ((head x + count x) `mod` capacity x)%nat = Some None /\ ring (ring_push v x) (buf ++ [v]).
Proof. intros Hr Hc. destruct (circle_push _ _ _ _ _ v Hr Hc) as [H1 H2]. unfold ring. simpl. by rewrite Nat.add_1_r. Qed.

Lemma ring_pop_ok x buf :
  ring x buf -> count x <> 0%nat ->
  exists v buf', buf = v :: buf' /\ slots x !! head x = Some (Some v) /\ ring (ring_pop v x) buf'.
Proof. intros Hr Hc. exact (circle_pop _ _ _ _ _ Hr Hc). Qed.

(** The destructor destroys exactly what is buffered and leaves no object. *)
Lemma destroy_ok x buf fuel :
  ring x buf -> (length buf < fuel)%nat ->
  exists x', destroy fuel x = Some x' /\ length (slots x') = capacity x /\ forall j o, slots x' !! j = Some o -> o = None.
Proof.
  revert x buf. induction fuel as [|fuel IH]; intros x buf Hr Hf; [lia|]. cbn [destroy].
  destruct (Nat.eqb_spec (count x) 0) as [E|E].
  - exists x. split; [done|]. split; [apply Hr|]. intros j o. apply (circle_empty (capacity x) (slots x) (head x)).
    pose proof (cr_count _ _ _ _ _ Hr) as Hl. rewrite E in Hl. destruct buf; [|done]. unfold ring in Hr. by rewrite E in Hr.
  - destruct (ring_pop_ok x buf Hr E) as (v & buf' & -> & Hs & Hr'). rewrite Hs. simpl in Hf.
    match goal with |- exists x', destroy fuel ?y = _ /\ _ => destruct (IH y buf') as (x' & ? & ? & ?) end; [exact Hr'|lia|by exists x'].
Qed.
End ring.

(** ** Invariant *)

(** What a thread owes: senders that may use a slot it knows of (itself, or one
    it is about to wake); receivers likewise; whether it is closing. *)
Record cpl := CP { ds : nat; dr : nat; cl : bool }.
Definition at_ease : cpl := CP 0 0 false.
Definition ccalm (l : cpl) : Prop := l = at_ease.

Section spec.
Context {V : Type} (n : nat).
Implicit Types (c : chan V) (x : Channel V) (pf : nat -> cpl) (l : cpl).

Record cinv c (gl : list (list nat)) (hd : option nat) pf (gr : nat * nat) : Prop := {
  ci_ring : exists buf, ring (channel c) buf /\ sent (channel c) = received (channel c) ++ buf;
  ci_lists : exists ss rs, gl = [ss; rs] /\
    (closed (channel c) = true -> ss <> [] \/ rs <> [] -> some n cl pf) /\
    (closed (channel c) = false -> ss <> [] ->
       (capacity (channel c) <= count (channel c) + gr.1 + lostSend c + total n ds pf)%nat) /\
    (closed (channel c) = false -> rs <> [] -> (count (channel c) <= gr.2 + lostRecv c + total n dr pf)%nat)
}.

Notation R := (wproto n channel cinv ccalm).
Notation at_ := (at_ channel).
Notation at_chain := (at_chain channel).

Lemma cinv_lock c gl pf gr i : (i < n)%nat -> cinv c gl None pf gr -> cinv c gl (Some i) pf gr.
Proof. by intros _ [H1 H2]. Qed.

(** A step of thread [i]. *)
Lemma cinv_step c gl hd pf gr i l l' c' hd' gr' ss rs ss' rs' buf' :
  (i < n)%nat -> pf i = l -> cinv c gl hd pf gr -> gl = [ss; rs] ->
  ring (channel c') buf' -> sent (channel c') = received (channel c') ++ buf' ->
  (closed (channel c') = true -> ss' <> [] \/ rs' <> [] ->
     cl l' = true \/ cl l = false /\ closed (channel c) = true /\ (ss <> [] \/ rs <> [])) ->
  (forall t, (closed (channel c) = false -> ss <> [] -> (capacity (channel c) <= count (channel c) + gr.1 + lostSend c + (ds l + t))%nat) ->
     closed (channel c') = false -> ss' <> [] -> (capacity (channel c') <= count (channel c') + gr'.1 + lostSend c' + (ds l' + t))%nat) ->
  (forall t, (closed (channel c) = false -> rs <> [] -> (count (channel c) <= gr.2 + lostRecv c + (dr l + t))%nat) ->
     closed (channel c') = false -> rs' <> [] -> (count (channel c') <= gr'.2 + lostRecv c' + (dr l' + t))%nat) ->
  cinv c' [ss'; rs'] hd' (<[i := l']> pf) gr'.
Proof.
  intros Hi Hl [_ (ss0 & rs0 & Hgl & Hcl & Hs & Hr)] Hgl' Hring Hf Hob Hobs Hobr. rewrite Hgl' in Hgl. injection Hgl as <- <-.
  pose proof (total_upd n ds pf i l l' Hi Hl). pose proof (total_upd n dr pf i l l' Hi Hl).
  pose proof (total_elem n ds pf i Hi). pose proof (total_elem n dr pf i Hi). rewrite Hl in *.
  split; [by exists buf'|]. exists ss', rs'. split; [done|]. splits.
  - intros Hc Hne. destruct (Hob Hc Hne) as [?|(Hl0 & Hc0 & Hne0)]; [by apply some_here|].
    eapply some_keep; [exact Hl|congruence|auto].
  - intros Hc Hne. specialize (Hobs (total n ds pf - ds l)%nat). replace (ds l + (total n ds pf - ds l))%nat with (total n ds pf) in Hobs by lia.
    specialize (Hobs Hs Hc Hne). lia.
  - intros Hc Hne. specialize (Hobr (total n dr pf - dr l)%nat). replace (dr l + (total n dr pf - dr l))%nat with (total n dr pf) in Hobr by lia.
    specialize (Hobr Hr Hc Hne). lia.
Qed.

Lemma cinv_same i l c gl hd hd' pf gr : pf i = l -> cinv c gl hd pf gr -> cinv c gl hd' (<[i := l]> pf) gr.
Proof.
  intros Hl [H1 (ss & rs & Hgl & Hcl & Hs & Hr)]. assert (Hf : forall j, <[i := l]> pf j = pf j) by (intros j; by apply insert_same_fn).
  split; [done|]. exists ss, rs. by rewrite (some_ext n _ _ _ Hf), !(total_ext n _ _ _ Hf).
Qed.

(** ** Rules *)

Lemma rg_clock {A} i o hand l (k : unit -> prog (sworld (chan V)) A) Q :
  (i < n)%nat ->
  (forall ss rs x buf, ring x buf -> sent x = received x ++ buf ->
     rg R i (k tt) (at_ i (Some ([ss; rs], x)) o hand None l) Q) ->
  rg R i (bind spinLock k) (at_ i None o hand None l) Q.
Proof.
  intros Hi Hk. apply rg_lock; [intros; by apply cinv_lock|done|]. intros gl x.
  apply (rg_pure_from R i _ (exists ss rs buf, gl = [ss; rs] /\ ring x buf /\ sent x = received x ++ buf)).
  - intros s g HI [[(_ & <- & <-) _ _ _ _] _]. destruct (wi_prim _ _ _ _ HI) as [(buf & ? & ?) (ss & rs & ? & _)]. by exists ss, rs, buf.
  - intros (ss & rs & buf & -> & Hr & Hf). by eapply Hk.
Qed.

Lemma rg_cunlock {A} i gl x o hand l (k : unit -> prog (sworld (chan V)) A) Q :
  rg R i (k tt) (at_ i None o hand None l) Q -> rg R i (bind spinUnlock k) (at_ i (Some (gl, x)) o hand None l) Q.
Proof. intros Hk. apply (rg_unlock _ _ _ _ i gl x o hand None l l); [|done]. intros c f gr Hl _. by apply cinv_same. Qed.

(** A step on the state under the lock. *)
Lemma rg_cprim {A B} i gl x o hand l l' (f : Channel V -> Channel V * B) (k : B -> prog (sworld (chan V)) A) Q :
  (forall c pf gr, channel c = x -> pf i = l -> cinv c gl (Some i) pf gr ->
     cinv (Chan (f x).1 (lostSend c) (lostRecv c)) gl (Some i) (<[i := l']> pf) gr) ->
  rg R i (k (f x).2) (at_ i (Some (gl, (f x).1)) o hand None l') Q ->
  rg R i (bind (cprim f) k) (at_ i (Some (gl, x)) o hand None l) Q.
Proof.
  intros Hs Hk. apply rg_prim; [done|]. intros c gl' hd pf gr c' z Hin Hl Hp (-> & -> & Hx). apply list_elem_of_singleton in Hin.
  injection Hin as -> ->. rewrite Hx. exists l', (Some (gl, (f x).1)). splits; try done. by apply Hs.
Qed.

Lemma rg_cload {A B} i gl x o hand l (f : Channel V -> B) (k : B -> prog (sworld (chan V)) A) Q :
  rg R i (k (f x)) (at_ i (Some (gl, x)) o hand None l) Q ->
  rg R i (bind (cload f) k) (at_ i (Some (gl, x)) o hand None l) Q.
Proof.
  intros Hk. apply (rg_cprim i gl x o hand l l); [|exact Hk]. intros [x0 a b] pf gr <- Hl. by apply cinv_same.
Qed.

(** One party of list [k] that may use what it knows of. *)
Definition debt (k d : nat) : cpl := match k with O => CP d 0 false | _ => CP 0 d false end.
(** Nothing for the parties of list [k]: no room, or no values. *)
Definition nothing (k : nat) x : Prop := match k with O => count x = capacity x | _ => count x = 0%nat end.

Lemma cinv_ring c gl hd pf gr : cinv c gl hd pf gr -> exists buf, ring (channel c) buf /\ sent (channel c) = received (channel c) ++ buf.
Proof. apply ci_ring. Qed.

Ltac cstep c := destruct (cinv_ring c _ _ _ _ ltac:(eassumption)) as (?buf & ?Hring & ?Hfifo); eapply (cinv_step c); try eassumption; try done.

(** A thread whose turn has come tried, or goes on to queue. *)
Lemma cinv_settle c ss rs hd hd' pf gr i k d :
  (i < n)%nat -> (k < 2)%nat -> pf i = debt k d -> (closed (channel c) = true \/ nothing k (channel c)) ->
  cinv c [ss; rs] hd pf gr -> cinv c [ss; rs] hd' (<[i := at_ease]> pf) gr.
Proof.
  intros Hi Hk Hl Hn Hc. cstep c.
  - intros E Hne. right. split; [by destruct k|done].
  - intros t H E Hne. destruct Hn as [?|Hn]; [congruence|]. destruct k as [|[|k]]; simpl in *; [lia| |lia]. by apply H.
  - intros t H E Hne. destruct Hn as [?|Hn]; [congruence|]. destruct k as [|[|k]]; simpl in *; [by apply H|lia|lia].
Qed.

Lemma rg_settle {A} i gl x o hand k d (q : unit -> prog (sworld (chan V)) A) Q :
  (i < n)%nat -> (k < 2)%nat -> (closed x = true \/ nothing k x) -> (exists ss rs, gl = [ss; rs]) ->
  rg R i (q tt) (at_ i None o hand None at_ease) Q ->
  rg R i (bind spinUnlock q) (at_ i (Some (gl, x)) o hand None (debt k d)) Q.
Proof.
  intros Hi Hk Hn (ss & rs & ->) Hq. apply (rg_unlock _ _ _ _ i _ x o hand None _ at_ease); [|done]. intros c f gr Hl <-. by eapply cinv_settle.
Qed.

(** Queueing, having found nothing. *)
Lemma rg_cpush {A} i ss rs x w y k d (q : unit -> prog (sworld (chan V)) A) Q :
  (i < n)%nat -> (k < 2)%nat -> nothing k x -> closed x = false -> wcalled y = false -> wtag y = k ->
  (forall ss rs, rg R i (q tt) (at_ i (Some ([ss; rs], x)) (Some (w, queued_stage (wparty y) k)) [] None at_ease) Q) ->
  rg R i (bind (pushBack k w) q) (at_ i (Some ([ss; rs], x)) (Some (w, SFresh y)) [] None (debt k d)) Q.
Proof.
  intros Hi Hk Hn Hcl Hy Hg Hq. destruct k as [|[|k]]; [| |lia].
  - apply (rg_pushBack _ _ _ _ i _ x w y [] None _ at_ease 0 ss); try done; [|apply Hq]. intros c f gr Hl <- Hc. simpl. cstep c.
    + congruence.
    + simpl in *. lia.
  - apply (rg_pushBack _ _ _ _ i _ x w y [] None _ at_ease 1 rs); try done; [|apply Hq]. intros c f gr Hl <- Hc. simpl. cstep c.
    + congruence.
    + simpl in *. lia.
Qed.

(** The wait is over: the grant becomes the thread's own turn. *)
Lemma rg_cend {A} i w p k (q : unit -> prog (sworld (chan V)) A) Q :
  (i < n)%nat -> (k < 2)%nat ->
  rg R i (q tt) (at_ i None None [] None (debt k 1)) Q ->
  rg R i (bind (endWaiter w) q) (at_ i None (Some (w, SSat p k)) [] None at_ease) Q.
Proof.
  intros Hi Hk Hq. eapply (rg_end _ _ _ _ i None w (SSat p k)); [|exact Hq]. intros c gl hd f gr Hl _ Hc.
  destruct (ci_lists _ _ _ _ _ Hc) as (ss & rs & -> & _). cstep c.
  - intros. right. done.
  - intros t H E Hne. specialize (H E Hne). destruct k as [|[|k]]; simpl in *; lia.
  - intros t H E Hne. specialize (H E Hne). destruct k as [|[|k]]; simpl in *; lia.
Qed.

Lemma rg_cend_fresh {A} i w y l (q : unit -> prog (sworld (chan V)) A) Q :
  wcalled y = false -> rg R i (q tt) (at_ i None None [] None l) Q ->
  rg R i (bind (endWaiter w) q) (at_ i None (Some (w, SFresh y)) [] None l) Q.
Proof.
  intros Hy Hq. eapply (rg_end _ _ _ _ i None w (SFresh y)); [|exact Hq]. splits; try done. intros. by apply (cinv_same i l _ _ hd hd).
Qed.

(** A waiter of list [k] leaves it. *)
Lemma cinv_leave c ss rs hd pf gr i k w ws :
  (i < n)%nat -> (k < 2)%nat -> pf i = at_ease -> [ss; rs] !! k = Some ws -> w ∈ ws -> cinv c [ss; rs] hd pf gr ->
  cinv c (<[k := remove w ws]> [ss; rs]) hd (<[i := at_ease]> pf) gr.
Proof.
  intros Hi Hk Hl Hws Hw Hc. assert (Hne : ws <> []) by (intros ->; by apply elem_of_nil in Hw).
  destruct k as [|[|k]]; [| |lia]; injection Hws as ->; simpl; cstep c.
  - intros E Ho. right. splits; try done. by left.
  - intros t H E _. by apply H.
  - intros E Ho. right. splits; try done. by right.
  - intros t H E _. by apply H.
Qed.

Lemma rg_cleave {A} i w p k (q : bool -> prog (sworld (chan V)) A) Q :
  (i < n)%nat -> (k < 2)%nat ->
  (forall y, wcalled y = false -> rg R i (q true) (at_ i None (Some (w, SFresh y)) [] None at_ease) Q) ->
  rg R i (q false) (at_ i None (Some (w, SSat p k)) [] None at_ease) Q ->
  rg R i (bind (leaveEarly k w (Ret tt)) q) (at_ i None (Some (w, SWait p k)) [] None at_ease) Q.
Proof.
  intros Hi Hk Ht Hf. unfold leaveEarly. apply rg_bind_assoc, rg_clock; [done|]. intros ss rs x buf _ _. apply rg_bind_assoc. eapply rg_linked.
  - intros ws Hws Hw. apply rg_bind_assoc, rg_bind_assoc.
    apply (rg_unlink _ _ _ _ i _ x w p k ws [] None _ at_ease); try done.
    + intros c f gr Hnd Hfi _ Hc. by apply cinv_leave.
    + intros y Hpy Hcy _. apply rg_bind_assoc, rg_cunlock. by apply Ht.
  - apply rg_bind_assoc, rg_cunlock. by apply rg_bind_assoc, rg_awaitNotifier.
Qed.

(** The wake-up that was not used is recorded. *)
Lemma rg_lose {A} i k (q : unit -> prog (sworld (chan V)) A) Q :
  (i < n)%nat -> (k < 2)%nat ->
  rg R i (q tt) (at_ i None None [] None at_ease) Q ->
  rg R i (bind (match k with O => loseSend | _ => loseRecv end) q) (at_ i None None [] None (debt k 1)) Q.
Proof.
  intros Hi Hk Hq. destruct k as [|[|k]]; [| |lia]; (apply rg_prim; [done|]); intros c gl hd pf gr c' z Hin Hl Hc Hh;
    apply list_elem_of_singleton in Hin; injection Hin as -> ->; exists at_ease, None; (splits; [|done|exact Hq]);
    destruct (ci_lists _ _ _ _ _ Hc) as (ss & rs & -> & _); cstep c.
  - intros E Ho. by right.
  - intros t H E Hne. specialize (H E Hne). simpl in *. lia.
  - intros E Ho. by right.
  - intros t H E Hne. specialize (H E Hne). simpl in *. lia.
Qed.

Lemma rg_unwindWait {A} i w p k (q : unit -> prog (sworld (chan V)) A) Q :
  (i < n)%nat -> (k < 2)%nat ->
  rg R i (q tt) (at_ i None None [] None at_ease) Q ->
  rg R i (bind (unwindWait k w (match k with O => loseSend | _ => loseRecv end)) q) (at_ i None (Some (w, SWait p k)) [] None at_ease) Q.
Proof.
  intros Hi Hk Hq. unfold unwindWait. apply rg_bind_assoc, rg_cleave; [done|done| |].
  - intros y Hy. by apply rg_bind_assoc, rg_cend_fresh.
  - apply rg_bind_assoc, rg_cend; [done|done|]. by apply rg_lose.
Qed.

(** After a push or a pop: the first of the other list is taken, and woken once
    the lock is free. *)
Lemma rg_finish {A B} {o} i ss rs x k (b : B) (q : B -> prog (sworld (chan V)) A) Q :
  (i < n)%nat -> (k < 2)%nat ->
  rg R i (q b) (at_ i None (ofresh o) [] None at_ease) Q ->
  rg R i (bind (w <- popFront k;; spinUnlock;;; notifyIf w;;; Ret b) q)
    (at_ i (Some ([ss; rs], x)) (ofresh o) [] None (debt k 1)) Q.
Proof.
  intros Hi Hk Hq. eapply rg_pre; [intros s g _; apply at_no_chain|].
  destruct (lookup_lt_is_Some_2 [ss; rs] k) as [ws Hws]; [simpl; lia|].
  apply rg_bind_assoc, (rg_popFront _ _ _ _ i _ x _ None [] k ws); [done|done| |].
  - intros ->. apply rg_bind_assoc. eapply (rg_unlock_chain _ _ _ _ i _ x _ at_ease).
    + intros c f gr Hl <- Hc. destruct k as [|[|k]]; [| |lia]; injection Hws as ->; cstep c; intros; by right.
    + cbn [notifyIf]. eapply rg_pre; [|exact Hq]. by intros s g _ [? _].
  - intros w ws' ->. exists at_ease. split.
    + intros c f gr Hl <- Hc. destruct k as [|[|k]]; [| |lia]; injection Hws as ->; simpl; cstep c.
      * intros E Ho. right. splits; try done. by left.
      * intros t H E Ho. specialize (H E ltac:(done)). simpl in *. lia.
      * intros E Ho. right. splits; try done. by right.
      * intros t H E Ho. specialize (H E ltac:(done)). simpl in *. lia.
    + apply rg_append_first, rg_bind_assoc, (rg_unlock_chain _ _ _ _ i _ x _ at_ease).
      * intros c f gr Hl _. by apply cinv_same.
      * by apply rg_bind_assoc, rg_notify_one.
Qed.

Lemma rg_pushLocked {A} i ss rs x buf o v d (q : unit -> prog (sworld (chan V)) A) Q :
  (i < n)%nat -> (d <= 1)%nat -> ring x buf -> sent x = received x ++ buf -> (count x < capacity x)%nat ->
  rg R i (q tt) (at_ i (Some ([ss; rs], ring_push v x)) o [] None (debt 1 1)) Q ->
  rg R i (bind (pushLocked v) q) (at_ i (Some ([ss; rs], x)) o [] None (debt 0 d)) Q.
Proof.
  intros Hi Hd Hr Hf Hlt Hq. destruct (ring_push_ok x buf v Hr Hlt) as [Hs Hr']. unfold pushLocked.
  apply rg_bind_assoc, (rg_cprim i _ x o [] _ (debt 1 1)); cbv zeta; rewrite Hs; [|exact Hq].
  intros c pf gr <- Hl Hc. eapply (cinv_step c); try eassumption; try done.
  - simpl. by rewrite Hf, app_assoc.
  - intros. by right.
  - intros t H E Hne. specialize (H E Hne). simpl in *. lia.
  - intros t H E Hne. specialize (H E Hne). simpl in *. lia.
Qed.

Lemma rg_popLocked {A} i ss rs x buf o d (q : V -> prog (sworld (chan V)) A) Q :
  (i < n)%nat -> (d <= 1)%nat -> ring x buf -> sent x = received x ++ buf -> count x <> 0%nat ->
  (forall v x', rg R i (q v) (at_ i (Some ([ss; rs], x')) o [] None (debt 0 1)) Q) ->
  rg R i (bind popLocked q) (at_ i (Some ([ss; rs], x)) o [] None (debt 1 d)) Q.
Proof.
  intros Hi Hd Hr Hf Hlt Hq. destruct (ring_pop_ok x buf Hr Hlt) as (v & buf' & -> & Hs & Hr'). unfold popLocked.
  apply rg_bind_assoc, (rg_cprim i _ x o [] _ (debt 0 1)); rewrite Hs; [|apply Hq].
  intros c pf gr <- Hl Hc. eapply (cinv_step c); try eassumption; try done.
  - simpl. by rewrite Hf, <- app_assoc.
  - intros. by right.
  - intros t H E Hne. specialize (H E Hne). simpl in *. lia.
  - intros t H E Hne. specialize (H E Hne). simpl in *. lia.
Qed.

(** ** Operations *)

Lemma full x buf : ring x buf -> (count x <? capacity x)%nat = false -> nothing 0 x.
Proof. intros [_ _ _ _ H _] Hc%Nat.ltb_ge. simpl. lia. Qed.

Lemma rg_send {A} i p v fuel : forall d (q : option bool -> prog (sworld (chan V)) A) Q,
  (i < n)%nat -> party_of p = i -> is_callback p = false -> (d <= 1)%nat ->
  (forall r, rg R i (q r) (at_ i None None [] None at_ease) Q) ->
  rg R i (bind (send fuel p v) q) (at_ i None None [] None (debt 0 d)) Q.
Proof.
  induction fuel as [|fuel IH]; intros d q Q Hi Hp Hcb Hd Hq; [done|]. cbn [send].
  apply rg_bind_assoc, rg_clock; [done|]. intros ss rs x buf Hr Hf. apply rg_bind_assoc, rg_cload. destruct (closed x) eqn:Hcl.
  { apply rg_bind_assoc, rg_settle; try done; [lia|by left|eauto|apply Hq]. }
  apply rg_bind_assoc, rg_cload. destruct (count x <? capacity x)%nat eqn:Hroom.
  - apply Nat.ltb_lt in Hroom. apply rg_bind_assoc. eapply rg_pushLocked; try done.
    apply (rg_finish (o:=None)); [done|lia|apply Hq].
  - apply rg_bind_assoc, rg_new; [done|done|]. intros w. apply rg_bind_assoc, rg_cpush; try done; [lia|by eapply full|].
    clear ss rs. intros ss rs. apply rg_bind_assoc, rg_cunlock. unfold queued_stage. cbn [wparty new_waiter]. rewrite Hcb.
    apply rg_bind_assoc, rg_wait; [done| |].
    + apply rg_bind_assoc, rg_cend; [done|lia|]. by apply IH.
    + apply rg_bind_assoc, (rg_unwindWait i w p 0); [done|lia|]. apply Hq.
Qed.

Lemma rg_trySend {A} i v (q : bool -> prog (sworld (chan V)) A) Q :
  (i < n)%nat -> (forall b, rg R i (q b) (at_ i None None [] None at_ease) Q) ->
  rg R i (bind (trySend v) q) (at_ i None None [] None at_ease) Q.
Proof.
  intros Hi Hq. unfold trySend. apply rg_bind_assoc, rg_clock; [done|]. intros ss rs x buf Hr Hf. apply rg_bind_assoc, rg_cload.
  destruct (closed x || (count x =? capacity x)%nat) eqn:E.
  - apply rg_bind_assoc, rg_cunlock. apply Hq.
  - apply orb_false_iff in E as [Hcl Hc%Nat.eqb_neq]. pose proof (cr_room _ _ _ _ _ Hr). apply rg_bind_assoc.
    change at_ease with (debt 0 0). eapply rg_pushLocked; try done; [lia|lia|]. apply (rg_finish (o:=None)); [done|lia|apply Hq].
Qed.

Lemma rg_recv {A} i p fuel : forall d (q : option (option V) -> prog (sworld (chan V)) A) Q,
  (i < n)%nat -> party_of p = i -> is_callback p = false -> (d <= 1)%nat ->
  (forall r, rg R i (q r) (at_ i None None [] None at_ease) Q) ->
  rg R i (bind (recv fuel p) q) (at_ i None None [] None (debt 1 d)) Q.
Proof.
  induction fuel as [|fuel IH]; intros d q Q Hi Hp Hcb Hd Hq; [done|]. cbn [recv].
  apply rg_bind_assoc, rg_clock; [done|]. intros ss rs x buf Hr Hf. apply rg_bind_assoc, rg_cload.
  destruct (Nat.eqb_spec (count x) 0) as [E|E]; cbn [negb].
  - apply rg_bind_assoc, rg_cload. destruct (closed x) eqn:Hcl.
    { apply rg_bind_assoc, rg_settle; try done; [lia|by left|eauto|apply Hq]. }
    apply rg_bind_assoc, rg_new; [done|done|]. intros w. apply rg_bind_assoc, rg_cpush; try done; [lia|].
    clear ss rs. intros ss rs. apply rg_bind_assoc, rg_cunlock. unfold queued_stage. cbn [wparty new_waiter]. rewrite Hcb.
    apply rg_bind_assoc, rg_wait; [done| |].
    + apply rg_bind_assoc, rg_cend; [done|lia|]. by apply IH.
    + apply rg_bind_assoc, (rg_unwindWait i w p 1); [done|lia|]. apply Hq.
  - apply rg_bind_assoc. eapply rg_popLocked; try done. intros v x'. apply (rg_finish (o:=None)); [done|lia|apply Hq].
Qed.

Lemma rg_tryRecv {A} i (q : option V -> prog (sworld (chan V)) A) Q :
  (i < n)%nat -> (forall b, rg R i (q b) (at_ i None None [] None at_ease) Q) ->
  rg R i (bind tryRecv q) (at_ i None None [] None at_ease) Q.
Proof.
  intros Hi Hq. unfold tryRecv. apply rg_bind_assoc, rg_clock; [done|]. intros ss rs x buf Hr Hf. apply rg_bind_assoc, rg_cload.
  destruct (Nat.eqb_spec (count x) 0) as [E|E].
  - apply rg_bind_assoc, rg_cunlock. apply Hq.
  - apply rg_bind_assoc. change at_ease with (debt 1 0). eapply rg_popLocked; try done; [lia|]. intros v x'.
    apply (rg_finish (o:=None)); [done|lia|apply Hq].
Qed.

(** *** Callback waiters *)

(** What is left of the waiter after an attempt. *)
Definition after_attempt i k (o : option (nat * Waiter)) (r : TransferResult) : asrt (sworld (chan V)) (ghost cpl) :=
  match o, r with
  | Some (w, y), TrEnqueued => at_ i None (Some (w, SCall (wparty y) k)) [] None at_ease
  | None, TrEnqueued => fun _ _ => False
  | _, _ => at_ i None (ofresh o) [] None at_ease
  end.

Definition callable k (o : option (nat * Waiter)) : Prop :=
  match o with Some (w, y) => wcalled y = false /\ wtag y = k /\ is_callback (wparty y) = true | None => True end.

Lemma rg_enqueueLocked {A B} i k o ss rs x d (f : TransferResult -> B) (q : B -> prog (sworld (chan V)) A) Q :
  (i < n)%nat -> (k < 2)%nat -> nothing k x -> closed x = false -> callable k o ->
  (forall r, rg R i (q (f r)) (after_attempt i k o r) Q) ->
  rg R i (bind (result <- enqueueLocked k (fst <$> o);; spinUnlock;;; Ret (f result)) q)
    (at_ i (Some ([ss; rs], x)) (ofresh o) [] None (debt k d)) Q.
Proof.
  intros Hi Hk Hn Hcl Ho Hq. unfold enqueueLocked. destruct o as [[w y]|]; simpl fmap.
  - destruct Ho as (Hy & Hg & Hcb). change (ofresh (Some (w, y))) with (Some (w, SFresh y)).
    apply rg_bind_assoc, rg_bind_assoc, rg_read_own. destruct (wcancelled y).
    + apply rg_bind_assoc, rg_settle; try done; [by right|eauto|]. apply (Hq TrCancelled).
    + apply rg_bind_assoc, rg_cpush; try done. clear ss rs. intros ss rs. unfold queued_stage. rewrite Hcb.
      apply rg_bind_assoc, rg_cunlock. apply (Hq TrEnqueued).
  - apply rg_bind_assoc, rg_bind_assoc, rg_settle; try done; [by right|eauto|]. apply (Hq TrWouldBlock).
Qed.

Lemma rg_sendOrEnqueue {A} i v o d (q : TransferResult -> prog (sworld (chan V)) A) Q :
  (i < n)%nat -> (d <= 1)%nat -> callable 0 o -> (forall r, rg R i (q r) (after_attempt i 0 o r) Q) ->
  rg R i (bind (sendOrEnqueue v (fst <$> o)) q) (at_ i None (ofresh o) [] None (debt 0 d)) Q.
Proof.
  intros Hi Hd Ho Hq. unfold sendOrEnqueue. apply rg_bind_assoc, rg_clock; [done|]. intros ss rs x buf Hr Hf.
  assert (Hback : forall r, r <> TrEnqueued -> rg R i (q r) (at_ i None (ofresh o) [] None at_ease) Q).
  { intros r Hne. specialize (Hq r). by destruct o as [[w y]|], r. }
  apply rg_bind_assoc, rg_cload. destruct (closed x) eqn:Hcl.
  { apply rg_bind_assoc, rg_settle; try done; [lia|by left|eauto|by apply Hback]. }
  apply rg_bind_assoc, rg_cload. destruct (count x <? capacity x)%nat eqn:Hroom.
  - apply Nat.ltb_lt in Hroom. apply rg_bind_assoc. eapply rg_pushLocked; try done. apply rg_finish; [done|lia|by apply Hback].
  - apply (rg_enqueueLocked i 0 o ss rs x d (fun r => r)); try done; [lia|by eapply full].
Qed.

Lemma rg_recvOrEnqueue {A} i o d (q : TransferResult * option V -> prog (sworld (chan V)) A) Q :
  (i < n)%nat -> (d <= 1)%nat -> callable 1 o -> (forall r v, rg R i (q (r, v)) (after_attempt i 1 o r) Q) ->
  rg R i (bind (recvOrEnqueue (fst <$> o)) q) (at_ i None (ofresh o) [] None (debt 1 d)) Q.
Proof.
  intros Hi Hd Ho Hq. unfold recvOrEnqueue. apply rg_bind_assoc, rg_clock; [done|]. intros ss rs x buf Hr Hf.
  assert (Hback : forall r v, r <> TrEnqueued -> rg R i (q (r, v)) (at_ i None (ofresh o) [] None at_ease) Q).
  { intros r v Hne. specialize (Hq r v). by destruct o as [[w y]|], r. }
  apply rg_bind_assoc, rg_cload. destruct (Nat.eqb_spec (count x) 0) as [E|E]; cbn [negb].
  - apply rg_bind_assoc, rg_cload. destruct (closed x) eqn:Hcl.
    + apply rg_bind_assoc, rg_settle; try done; [lia|by left|eauto|by apply Hback].
    + apply (rg_enqueueLocked i 1 o ss rs x d (fun r => (r, None))); try done; lia.
  - apply rg_bind_assoc. eapply rg_popLocked; try done. intros v x'. apply rg_finish; [done|lia|by apply Hback].
Qed.

Lemma rg_cancelTransfer {A} i k w st (q : bool -> prog (sworld (chan V)) A) Q :
  (i < n)%nat -> (k < 2)%nat -> (match st with SFresh _ => True | SCall _ k' => k' = k | _ => False end) ->
  rg R i (q false) (at_ i None (Some (w, match st with SFresh y => SFresh (set_cancelled true y) | _ => st end)) [] None at_ease) Q ->
  (forall p y, st = SCall p k -> wcalled y = false -> rg R i (q true) (at_ i None (Some (w, SFresh y)) [] None at_ease) Q) ->
  rg R i (bind (cancelTransfer k w) q) (at_ i None (Some (w, st)) [] None at_ease) Q.
Proof.
  intros Hi Hk Hst Hf Ht. unfold cancelTransfer. apply rg_bind_assoc, rg_clock; [done|]. intros ss rs x buf Hr Hfi.
  destruct (lookup_lt_is_Some_2 [ss; rs] k) as [ws Hws]; [simpl; lia|].
  apply rg_bind_assoc, (rg_cancel _ _ _ _ i [ss; rs] x w st k ws); try done.
  - intros. by apply (cinv_same i at_ease _ _ hd hd).
  - by apply rg_bind_assoc, rg_cunlock.
  - intros p Hp Hw. exists at_ease. split.
    + intros c f gr Hnd Hl _ Hc. by apply cinv_leave.
    + intros y Hpy Hcy _. apply rg_bind_assoc, rg_cunlock. by eapply Ht.
Qed.

(** An attempt that may queue the waiter [w] in list [k]. *)
Definition attempts i k w (attempt : prog (sworld (chan V)) TransferResult) : Prop :=
  forall A d y (q : TransferResult -> prog (sworld (chan V)) A) Q, (d <= 1)%nat -> callable k (Some (w, y)) ->
  (forall r, rg R i (q r) (after_attempt i k (Some (w, y)) r) Q) ->
  rg R i (bind attempt q) (at_ i None (Some (w, SFresh y)) [] None (debt k d)) Q.

Lemma rg_transferLoop {A} i k w late attempt fuel : forall d y (q : unit -> prog (sworld (chan V)) A) Q,
  (i < n)%nat -> (k < 2)%nat -> attempts i k w attempt -> (d <= 1)%nat -> callable k (Some (w, y)) ->
  rg R i (q tt) (at_ i None None [] None at_ease) Q ->
  rg R i (bind (transferLoop fuel k w late attempt) q) (at_ i None (Some (w, SFresh y)) [] None (debt k d)) Q.
Proof.
  induction fuel as [|fuel IH]; intros d y q Q Hi Hk Hat Hd Hc Hq; [done|]. cbn [transferLoop].
  apply rg_bind_assoc, (Hat A d y); [done|done|].
  assert (Hend : rg R i (bind (endWaiter w) q) (at_ i None (Some (w, SFresh y)) [] None at_ease) Q) by (by apply rg_cend_fresh; [apply Hc|]).
  intros [| | | |]; try exact Hend. unfold after_attempt.
  assert (Hwait : rg R i (bind (awaitCallback w;;; transferLoop fuel k w late attempt) q) (at_ i None (Some (w, SCall (wparty y) k)) [] None at_ease) Q).
  { apply rg_bind_assoc. eapply (rg_awaitCallback _ _ _ _ i w _ k at_ease (debt k 1)); [done| |].
    - intros c gl hd f gr Hl Hh Hci. destruct (ci_lists _ _ _ _ _ Hci) as (ss & rs & -> & _). cstep c.
      + intros. by right.
      + intros t H E Hne. specialize (H E Hne). destruct k as [|[|k]]; simpl in *; lia.
      + intros t H E Hne. specialize (H E Hne). destruct k as [|[|k]]; simpl in *; lia.
    - intros y' Hy' Hc' Hg'. apply IH; try done. destruct Hc as (_ & _ & Hcb). split; [done|]. split; [done|]. by rewrite Hy'. }
  apply rg_bind_assoc. destruct late; [|exact Hwait].
  apply (rg_cancelTransfer i k w (SCall (wparty y) k)); try done. intros p y' _ Hy'. by apply rg_cend_fresh.
Qed.

Lemma rg_transferCallback {A} i k early late attempt fuel (q : unit -> prog (sworld (chan V)) A) Q :
  (i < n)%nat -> (k < 2)%nat -> (forall w, attempts i k w (attempt w)) ->
  rg R i (q tt) (at_ i None None [] None at_ease) Q ->
  rg R i (bind (transferCallback fuel i k early late attempt) q) (at_ i None None [] None at_ease) Q.
Proof.
  intros Hi Hk Hat Hq. unfold transferCallback. apply rg_bind_assoc, rg_new; [done|done|]. intros w.
  assert (Hmain : forall y, callable k (Some (w, y)) ->
    rg R i (bind (transferLoop fuel k w late (attempt w)) q) (at_ i None (Some (w, SFresh y)) [] None at_ease) Q).
  { intros y Hy. replace at_ease with (debt k 0) by (by destruct k). by apply rg_transferLoop; auto with lia. }
  apply rg_bind_assoc. destruct early; [|by apply Hmain].
  apply rg_bind_assoc, (rg_cancelTransfer i k w (SFresh _)); [done|done|done|by apply Hmain|done].
Qed.

(** *** Closing *)

Definition closing : cpl := CP 0 0 true.

Lemma rg_chclose {A} i fuel (q : unit -> prog (sworld (chan V)) A) Q :
  (i < n)%nat -> rg R i (q tt) (at_ i None None [] None at_ease) Q ->
  rg R i (bind (close fuel) q) (at_ i None None [] None at_ease) Q.
Proof.
  intros Hi Hq. unfold close. apply rg_bind_assoc, rg_clock; [done|]. intros ss rs x buf Hr Hf.
  apply rg_bind_assoc, (rg_cprim i _ x None [] _ closing).
  { intros c pf gr <- Hl Hc. eapply (cinv_step c); try eassumption; try done. by left. }
  cbn [fst snd].
  assert (Hpop : forall k w (ws : list nat) (z : chan V) f gr, (k < 2)%nat -> forall ss rs, f i = closing -> channel z = ring_close x ->
    cinv z (<[k := w :: ws]> [ss; rs]) (Some i) f gr -> cinv z (<[k := ws]> [ss; rs]) (Some i) (<[i := closing]> f) (bump k gr)).
  { intros k w ws z f gr Hk ss' rs' Hl Hz Hc. destruct k as [|[|k]]; [| |lia]; simpl in *; cstep z; rewrite Hz; try done; by left. }
  eapply (rg_pre R i _ (at_chain None i (Some (<[senders := ss]> [ss; rs], ring_close x)) closing None [])).
  { intros s g _ Hat. by apply at_no_chain. }
  apply rg_bind_assoc, (rg_popAll _ _ _ _ i [ss; rs] (ring_close x)); [done| |unfold senders, receivers; simpl; lia|].
  { intros w ws z f gr Hl Hz. apply Hpop; try done. unfold senders. lia. }
  intros chain hand. change (<[senders := []]> [ss; rs]) with (<[receivers := rs]> [@nil nat; rs]).
  apply rg_bind_assoc, (rg_popAll _ _ _ _ i [[]; rs] (ring_close x)); [done| |unfold senders, receivers; simpl; lia|].
  { intros w ws z f gr Hl Hz. apply Hpop; try done. unfold receivers. lia. }
  intros chain' hand'. change (<[receivers := []]> [[]; rs]) with [@nil nat; []].
  apply rg_bind_assoc, (rg_unlock_chain _ _ _ _ i _ (ring_close x) _ at_ease).
  - intros c f gr Hl Hx Hc. cstep c. by intros _ [?|?].
  - by apply rg_notifyChain.
Qed.

(** ** Clients *)

Lemma rg_ch_run {A} i fuel o (q : resumed -> prog (sworld (chan V)) A) Q :
  (i < n)%nat -> (forall r, rg R i (q r) (at_ i None None [] None at_ease) Q) ->
  rg R i (bind (ch_run fuel i o) q) (at_ i None None [] None at_ease) Q.
Proof.
  intros Hi Hq. destruct o as [task v|v|task| |v early late|early late|[v|]| | |j|]; cbn [ch_run].
  - apply rg_bind_assoc. change at_ease with (debt 0 0) at 1. apply rg_send; [done|by destruct task|by destruct task|lia|]. intros r. apply Hq.
  - apply rg_bind_assoc, rg_trySend; [done|]. intros b. apply Hq.
  - apply rg_bind_assoc. change at_ease with (debt 1 0) at 1. apply rg_recv; [done|by destruct task|by destruct task|lia|]. intros r. apply Hq.
  - apply rg_bind_assoc, rg_tryRecv; [done|]. intros b. apply Hq.
  - apply rg_bind_assoc, rg_transferCallback; [done|unfold senders; lia| |apply Hq].
    intros w B d y q' Q' Hd Hc Hr. by apply (rg_sendOrEnqueue i v (Some (w, y))).
  - apply rg_bind_assoc, rg_transferCallback; [done|unfold receivers; lia| |apply Hq].
    intros w B d y q' Q' Hd Hc Hr. unfold recvAttempt. apply rg_bind_assoc, (rg_recvOrEnqueue i (Some (w, y))); try done. intros r v. apply Hr.
  - apply rg_bind_assoc. change at_ease with (debt 0 0) at 1. apply (rg_sendOrEnqueue i v None); try done; [lia|].
    intros r. eapply rg_pre; [|apply Hq]. by intros s g _ Hr; destruct r.
  - apply rg_bind_assoc. change at_ease with (debt 1 0) at 1. apply (rg_recvOrEnqueue i None); try done; [lia|].
    intros r v. eapply rg_pre; [|apply Hq]. by intros s g _ Hr; destruct r.
  - apply rg_bind_assoc, rg_chclose; [done|]. apply Hq.
  - apply rg_bind_assoc, rg_bind_assoc, rg_clock; [done|]. intros ss rs x buf _ _. apply rg_bind_assoc, rg_cload, rg_bind_assoc, rg_cunlock.
    apply rg_bind_assoc, rg_bind_assoc, rg_clock; [done|]. clear ss rs x buf. intros ss rs x buf _ _. apply rg_bind_assoc, rg_cload, rg_bind_assoc, rg_cunlock. apply Hq.
  - apply rg_bind_assoc, rg_stale; [done|]. apply Hq.
  - apply rg_bind_assoc, rg_set_stop. apply Hq.
Qed.

Lemma rg_ch_runs i fuel (l : list (ch_op V)) :
  (i < n)%nat ->
  rg R i (ch_runs fuel i l) (at_ i None None [] None at_ease) (fun _ s g => exists l, ccalm l /\ at_ i None None [] None l s g).
Proof.
  intros Hi. induction l as [|o l IH]; cbn [ch_runs].
  - intros s g _ Hat. by exists at_ease.
  - apply rg_ch_run; [done|]. intros [|]; [exact IH|]. intros s g _ Hat. by exists at_ease.
Qed.
End spec.

Lemma ch_pool_ok {V} fuel cap (l : list (list (ch_op V))) :
  (1 <= cap)%nat ->
  pool_ok (wproto (length l) channel (cinv (length l)) ccalm)
    (fun i _ s g => exists l, ccalm l /\ at_ channel i None None [] None l s g) (ch_pool fuel cap l).
Proof.
  intros Hcap. apply (waiters_start _ _ _ _ _ _ 2 (fun _ => at_ease)); [apply length_imap| |].
  - split; simpl; [exists []; split; [by apply circle_new|done]|]. by exists [], [].
  - intros i p Hp Hi. rewrite list_lookup_imap in Hp. destruct (l !! i) as [ops|] eqn:E; [|done]. injection Hp as <-.
    by apply rg_ch_runs.
Qed.

(** C10: In every interleaving of senders, receivers (waiting, trying, or with
    callbacks that may be cancelled), closers, spurious wake-ups and forced
    unwinds: no waiter is touched after its scope, no slot is constructed over
    or read empty, at most [capacity] values are buffered, and what has been
    received is a prefix of what was sent, the rest being what is buffered:
    every value once, in order. *)
Theorem channel_fifo {V} fuel cap (l : list (list (ch_op V))) ts s :
  (1 <= cap)%nat -> reach (ch_pool fuel cap l) (ts, s) ->
  (forall i m, ts !! i <> Some (Fatal m)) /\
  exists buf, sent (channel (sprim s)) = received (channel (sprim s)) ++ buf /\
    length buf = count (channel (sprim s)) /\ (length buf <= capacity (channel (sprim s)))%nat /\
    forall j, (j < capacity (channel (sprim s)))%nat ->
      slots (channel (sprim s)) !! ((head (channel (sprim s)) + j) `mod` capacity (channel (sprim s)))%nat = Some (buf !! j).
Proof.
  intros Hcap Hr. pose proof (pool_ok_reach _ _ _ _ Hr (ch_pool_ok fuel cap l Hcap)) as Hok.
  split; [intros i m; by eapply pool_ok_not_fatal|]. destruct Hok as (g & HI & _).
  destruct (wi_prim _ _ _ _ HI) as [(buf & [H1 H2 H3 H4 H5 H6] & Hf) _]. simpl in *. exists buf. splits; try done. lia.
Qed.

(** C11: No wake-up is lost: when nobody can move and somebody has not returned,
    the channel is open; if a party is queued to send, the free slots are at
    most the wake-ups lost to forced unwinds, and if one is queued to receive,
    the buffered values are. Without forced unwinds, a sender waits only on a
    full channel and a receiver only on an empty one. *)
Theorem channel_no_lost_wakeup {V} fuel cap (l : list (list (ch_op V))) ts s :
  (1 <= cap)%nat -> reach (ch_pool fuel cap l) (ts, s) ->
  (forall i th, ts !! i = Some th -> halted s th) -> (exists i X f k, ts !! i = Some (Act X f k)) ->
  closed (channel (sprim s)) = false /\
  (whead (list_at senders s) <> None -> (capacity (channel (sprim s)) <= count (channel (sprim s)) + lostSend (sprim s))%nat) /\
  (whead (list_at receivers s) <> None -> (count (channel (sprim s)) <= lostRecv (sprim s))%nat).
Proof.
  intros Hcap Hr Hhalt (i & X & f & k & Hth). pose proof (pool_ok_reach _ _ _ _ Hr (ch_pool_ok fuel cap l Hcap)) as Hok.
  apply reach_length in Hr. simpl in Hr. rewrite length_imap in Hr. symmetry in Hr.
  destruct (halted_waiters _ _ _ _ ts s Hr Hok Hhalt) as (g & HI & Hfree & Hcalm & Hnone & Hact).
  destruct (wi_prim _ _ _ _ HI) as [_ (ss & rs & Hgl & Hcl & Hs & Hrs)]. rewrite Hnone in Hs, Hrs. cbn [fst snd] in Hs, Hrs.
  assert (Hzero : forall h, h at_ease = 0%nat -> total (length l) h (pl g) = 0%nat).
  { intros h Hh. apply total_zero. intros j Hj. by rewrite (Hcalm j Hj). }
  rewrite Hzero in Hs, Hrs by done.
  assert (Hopen : closed (channel (sprim s)) = false).
  { destruct (Hact i X f k Hth) as (w & x & m & ws & _ & _ & Hm & Hw). rewrite Hgl in Hm.
    destruct (closed (channel (sprim s))) eqn:E; [|done]. destruct Hcl as (j & Hj & Hcj); [done| |by rewrite (Hcalm j Hj) in Hcj].
    destruct m as [|[|m]]; [| |done]; injection Hm as ->; [left|right]; intros ->; by apply elem_of_nil in Hw. }
  assert (Hlist : forall m ws, glists g !! m = Some ws -> whead (list_at m s) <> None -> ws <> []).
  { intros m ws Hm Hne ->. destruct (list_at_lookup _ _ s g m [] HI Hm) as [_ Hl]. by rewrite (il_head _ _ _ Hl) in Hne. }
  splits; [done|intros Hne|intros Hne].
  - specialize (Hs Hopen (Hlist senders ss ltac:(by rewrite Hgl) Hne)). lia.
  - specialize (Hrs Hopen (Hlist receivers rs ltac:(by rewrite Hgl) Hne)). lia.
Qed.

(** C40: At any time, the destructor's loop ends within [capacity] turns, destroys
    objects that are there, and leaves no object behind. *)
Theorem channel_destroyed {V} fuel cap (l : list (list (ch_op V))) ts s :
  (1 <= cap)%nat -> reach (ch_pool fuel cap l) (ts, s) ->
  exists x, destroy (S (capacity (channel (sprim s)))) (channel (sprim s)) = Some x /\ forall j o, slots x !! j = Some o -> o = None.
Proof.
  intros Hcap Hr. pose proof (pool_ok_reach _ _ _ _ Hr (ch_pool_ok fuel cap l Hcap)) as (g & HI & _).
  destruct (wi_prim _ _ _ _ HI) as [(buf & Hring & _) _]. simpl in *.
  destruct (destroy_ok _ buf (S (capacity (channel (sprim s)))) Hring) as (x & Hd & _ & Hx); [|by exists x].
  destruct Hring. lia.
Qed.

(** ** Runs *)

(** A task and a thread send three values each through two slots; a receiver, a
    callback; a closer. *)
Definition traffic : list (list (ch_op Z)) :=
  [[ChSend true 1; ChSend true 2; ChSend true 3]; [ChSend false 4; ChTrySend 5]; [ChRecv true; ChRecv false; ChTryRecv]; [ChRecvCallback false false]]%Z.
Definition traffic_final := run_avail (round_robin 4 90) (ch_pool 9 2 traffic).

Lemma channel_fifo_witness :
  (2 <= length (received (channel (sprim traffic_final.2))))%nat /\
  exists buf, sent (channel (sprim traffic_final.2)) = received (channel (sprim traffic_final.2)) ++ buf /\
    length buf = count (channel (sprim traffic_final.2)).
Proof.
  split; [vm_compute; lia|].
  destruct (channel_fifo 9 2 traffic traffic_final.1 traffic_final.2) as (_ & buf & H1 & H2 & _); [lia| |exists buf; split; [exact H1|exact H2]].
  apply (run_avail_reach (round_robin 4 90)). unfold traffic_final. apply surjective_pairing.
Defined.

Lemma channel_destroyed_witness :
  exists x, destroy (S (capacity (channel (sprim traffic_final.2)))) (channel (sprim traffic_final.2)) = Some x.
Proof.
  destruct (channel_destroyed 9 2 traffic traffic_final.1 traffic_final.2) as (x & H & _); [lia| |exists x; exact H].
  apply (run_avail_reach (round_robin 4 90)). unfold traffic_final. apply surjective_pairing.
Defined.

(** One slot, two values, nobody receives: the second send waits for good. *)
Definition crowd : list (list (ch_op Z)) := [[ChSend true 1]; [ChSend false 2]]%Z.
Definition crowd_final := run_avail (round_robin 2 60) (ch_pool 9 1 crowd).

Lemma channel_no_lost_wakeup_witness :
  whead (list_at senders crowd_final.2) <> None /\ (1 <= count (channel (sprim crowd_final.2)))%nat.
Proof.
  split; [vm_compute; discriminate|].
  destruct (channel_no_lost_wakeup 9 1 crowd crowd_final.1 crowd_final.2) as (_ & H & _); [lia| | | |].
  - apply (run_avail_reach (round_robin 2 60)). unfold crowd_final. apply surjective_pairing.
  - apply haltedb_all. vm_compute. reflexivity.
  - exists 1%nat. vm_compute. repeat eexists.
  - specialize (H ltac:(vm_compute; discriminate)). vm_compute in H. vm_compute. lia.
Defined.

(** A full channel, a task and a thread that wait to send, a receiver, a
    scheduler that stops. *)
Definition stopped : list (list (ch_op Z)) := [[ChTrySend 1]; [ChSend true 2]; [ChSend false 3]; [ChTryRecv]; [ChStop]]%Z.
Definition stopped_schedule : list (nat * nat) :=
  replicate 12 (0, 0)%nat ++ replicate 9 (1, 0)%nat ++ replicate 9 (2, 0)%nat ++ [(4, 0); (1, 0)]%nat ++
  replicate 20 (3, 0)%nat ++ replicate 20 (1, 0)%nat ++ replicate 20 (2, 0)%nat.
Definition stopped_final := run_avail stopped_schedule (ch_pool 9 1 stopped).

(** A task is woken to send and is unwound by its scheduler's stop at the same
    time: the wake-up is lost, and a thread that waits to send stays queued
    although the channel is open and empty. *)
Theorem channel_wakeup_lost_on_unwind :
  exists ts s, reach (ch_pool 9 1 stopped) (ts, s) /\ (forall i th, ts !! i = Some th -> halted s th) /\
    whead (list_at senders s) <> None /\ count (channel (sprim s)) = 0%nat /\ closed (channel (sprim s)) = false /\
    lostSend (sprim s) = 1%nat.
Proof.
  exists stopped_final.1, stopped_final.2. split.
  - apply (run_avail_reach stopped_schedule). unfold stopped_final. apply surjective_pairing.
  - split; [apply haltedb_all; vm_compute; reflexivity|]. vm_compute. repeat split; try reflexivity. discriminate.
Qed.
