(* ===== verification/Source.v ===== *)
(** * Source: event sources that store a waker by value

    What [Completion], [Stream], [Mailbox] (sync/) and [Registration] (io/) have in
    common: a state behind a spin lock, and the [Waker] of the one party that
    waits for it, kept by value and woken after the state has changed.

    - A critical section is one action ([section]): everything in it is
      protected by the source's spin lock (SpinLock.v shows that the lock excludes).
    - [tokens i] says that party [i] has a wake-up pending, as for
      [this_task::park] and [Parker::park]; for a callback it says that the
      callback was called.
    - [blockUntil] may time out at any moment, and may then have used up a wake-up
      that came at the same time.
    - A task that blocks while its scheduler stops may be unwound instead.
    - [asked i] lists the sources that the call which [i] is in waits for, and
      [wrong] says that a call returned what it must not; no code reads them. *)

From Stdlib Require Import ZArith Lia.
From stdpp Require Import base tactics list numbers option strings functions.
From S2P Require Import Prelude Conc.

Inductive Kind := KTask | KThread | KCallback.
#[global] Instance Kind_eq_dec : EqDecision Kind.
Proof. solve_decision. Defined.

(** [Waker]: whom to wake, and how. *)
Record Waker := MkWaker { who : nat; kind : Kind }.
#[global] Instance Waker_eq_dec : EqDecision Waker.
Proof. solve_decision. Defined.

Inductive EnqueueResult := Ready | Enqueued | Cancelled.
Inductive blocked := Woken | TimedOut | Unwound.

(** What a call that waits ends with: a result, or the task is being unwound. *)
Inductive ended (R : Type) := Returned (r : R) | Gone.
Arguments Returned {R} r.
Arguments Gone {R}.

Record world (X : Type) := World {
  sources : list (X * option Waker);
  tokens : nat -> bool;
  stopping : bool;
  asked : nat -> list nat;
  wrong : bool
}.
Arguments World {X} sources tokens stopping asked wrong.
Arguments sources {X} w.
Arguments tokens {X} w.
Arguments stopping {X} w.
Arguments asked {X} w.
Arguments wrong {X} w.

(** ** The interface of a source

    Select.h: "A source is anything with [bool isReady() const],
    [bool attach(Waiter &)], [void detach(Waiter &)]".  Each runs under the
    source's lock, on its state and its stored waker. *)
Class EventSource (X : Type) := {
  isReady : X -> bool;
  attachLocked : Waker -> X -> option Waker -> X * option Waker * bool;
  detachLocked : Waker -> X -> option Waker -> X * option Waker * unit;
  attach_law m x c : attachLocked m x c = if isReady x then (x, c, false) else (x, Some m, true);
  detach_law m x c : detachLocked m x c = if decide (c = Some m) then (x, None, tt) else (x, c, tt)
}.

(** A state that may be a [C]: a [Completion], a [Stream], a [Mailbox]. *)
Class Part (X C : Type) := {
  part : X -> option C;
  whole : C -> X;
  part_whole c : part (whole c) = Some c;
  whole_part x c : part x = Some c -> x = whole c
}.

Section source.
Context {X : Type}.

Definition set_sources (v : list (X * option Waker)) (w : world X) := World v (tokens w) (stopping w) (asked w) (wrong w).
Definition set_token i b (w : world X) := World (sources w) (<[i := b]> (tokens w)) (stopping w) (asked w) (wrong w).
Definition set_stopping b (w : world X) := World (sources w) (tokens w) b (asked w) (wrong w).
Definition set_asked i l (w : world X) := World (sources w) (tokens w) (stopping w) (<[i := l]> (asked w)) (wrong w).
Definition set_wrong (w : world X) := World (sources w) (tokens w) (stopping w) (asked w) true.

(** A critical section on source [k]. *)
Definition section {R} (k : nat) (f : X -> option Waker -> X * option Waker * R) : prog (world X) R :=
  Act R (fun w =>
    match sources w !! k with
    | Some (x, c) => let '(x', c', r) := f x c in [(set_sources (<[k := (x', c')]> (sources w)) w, r)]
    | None => []
    end) Ret.

(** An atomic read, inside or outside the lock. *)
Definition peek {R} (k : nat) (f : X -> R) : prog (world X) R := section k (fun x c => (x, c, f x)).

(** [Waker::wake].  A callback must not be called twice. *)
Definition wake (o : option Waker) : prog (world X) unit :=
  match o with
  | None => Ret tt
  | Some m =>
      match kind m with
      | KCallback =>
          Act unit (fun w => if tokens w (who m) then [(set_wrong w, tt)] else [(set_token (who m) true w, tt)]) Ret
      | _ => store (set_token (who m) true)
      end
  end.

(** [Waiter::block] *)
Definition block (me : Waker) : prog (world X) blocked :=
  Act blocked (fun w =>
    (if tokens w (who me) then [(set_token (who me) false w, Woken)] else []) ++
    (if bool_decide (kind me = KTask) && stopping w then [(w, Unwound)] else [])) Ret.

(** [Waiter::blockUntil] *)
Definition blockUntil (me : Waker) : prog (world X) blocked :=
  Act blocked (fun w =>
    [(w, TimedOut); (set_token (who me) false w, TimedOut)] ++
    (if tokens w (who me) then [(set_token (who me) false w, Woken)] else []) ++
    (if bool_decide (kind me = KTask) && stopping w then [(w, Unwound)] else [])) Ret.

(** The callback has been called. *)
Definition awaitCallback (me : Waker) : prog (world X) unit :=
  Act unit (fun w => if tokens w (who me) then [(set_token (who me) false w, tt)] else []) Ret.

Definition asks (me : Waker) (ks : list nat) : prog (world X) unit := store (set_asked (who me) ks).

(** A critical section of a component.  (C++ types rule the other case out.) *)
Definition within {C R} `{!Part X C} (k : nat) (other : R) (f : C -> option Waker -> C * option Waker * R) : prog (world X) R :=
  section k (fun x c =>
    match part x with
    | Some s => let '(s', c', r) := f s c in (whole s', c', r)
    | None => (x, c, other)
    end).

Context `{!EventSource X}.

Definition attach (k : nat) (me : Waker) : prog (world X) bool := section k (attachLocked me).
Definition detach (k : nat) (me : Waker) : prog (world X) unit := section k (detachLocked me).

(** ** Select *)

(** [firstReady]: every source is asked before the first ready one is chosen. *)
Fixpoint ready_flags (ks : list nat) : prog (world X) (list bool) :=
  match ks with
  | [] => Ret []
  | k :: ks => b <- peek k isReady;; l <- ready_flags ks;; Ret (b :: l)
  end.
Definition firstReady (ks : list nat) : prog (world X) (option nat) :=
  flags <- ready_flags ks;; Ret (fst <$> list_find (fun b => b = true) flags).

(** [attachAll] attaches to every source, whatever the others say. *)
Fixpoint attach_flags (me : Waker) (ks : list nat) : prog (world X) (list bool) :=
  match ks with
  | [] => Ret []
  | k :: ks => b <- attach k me;; l <- attach_flags me ks;; Ret (b :: l)
  end.
Definition attachAll (me : Waker) (ks : list nat) : prog (world X) bool :=
  flags <- attach_flags me ks;; Ret (forallb id flags).

(** [DetachAllOnExit] *)
Fixpoint detachAll (me : Waker) (ks : list nat) : prog (world X) unit :=
  match ks with
  | [] => Ret tt
  | k :: ks => detach k me;;; detachAll me ks
  end.

(** The index of a ready source; [None] for [kSelectTimedOut]. *)
Fixpoint selectImpl (fuel : nat) (hasDeadline : bool) (me : Waker) (ks : list nat) : prog (world X) (ended (option nat)) :=
  match fuel with
  | O => Starved
  | S fuel' =>
      ready <- firstReady ks;;
      match ready with
      | Some i => Ret (Returned (Some i))
      | None =>
          asks me ks;;;
          a <- attachAll me ks;;
          if a : bool then
            r <- (if hasDeadline then blockUntil me else block me);;
            match r with
            | TimedOut => f <- firstReady ks;; detachAll me ks;;; Ret (Returned f)
            | Woken => detachAll me ks;;; selectImpl fuel' hasDeadline me ks
            | Unwound => detachAll me ks;;; Ret Gone
            end
          else (detachAll me ks;;; selectImpl fuel' hasDeadline me ks)
      end
  end.
End source.
