(* ===== verification/SourceSpec.v ===== *)
(** * Source: no wake-up is lost

    Ghost state, per thread: the sources it is attached to ([att], each with what
    it waits for: it will be woken), those whose stored waker it has not taken back
    ([hook]: it may have been woken), and the wakers it has taken and is about to
    wake ([pend]). *)

From Stdlib Require Import ZArith Lia.
From stdpp Require Import base tactics list numbers option strings functions.
From S2P Require Import Prelude Conc Sums Source.

Record spl (T : Type) := SPl { att : list (nat * T); hook : list (nat * T); pend : list Waker }.
Arguments SPl {T} att hook pend.
Arguments att {T} s.
Arguments hook {T} s.
Arguments pend {T} s.

(** What a party may be attached for while it is blocked. *)
Class Settled (T : Type) := settled : T -> Prop.
#[global] Instance unit_settled : Settled unit := fun _ => True.

Section proof.
(** [sane t x]: one may wait for [t] at [x]. *)
Context {X T : Type} `{!Settled T} (idle : T -> X -> bool) (sane : T -> X -> Prop) (owner : nat -> nat) (kd : nat -> Kind) (n N : nat).

(** The waker of party [i]. *)
Definition me (i : nat) : Waker := MkWaker i (kd i).

Definition waits (i : nat) (o : option Waker) : nat := if decide (o = Some (me i)) then 1%nat else 0%nat.
Definition wants (i : nat) (p : list Waker) : nat := lsum (fun m => waits i (Some m)) p.

(** References to party [i]: attached, taken, or called. *)
Definition refs (i : nat) (w : world X) (g : nat -> spl T) : nat :=
  (lsum (fun s => waits i s.2) (sources w) + total n (fun l => wants i (pend l)) g + if tokens w i then 1 else 0)%nat.

Definition woken (i : nat) (w : world X) (g : nat -> spl T) : Prop := tokens w i = true \/ exists j, (j < n)%nat /\ me i ∈ pend (g j).

Record sinv (w : world X) (g : nat -> spl T) : Prop := {
  si_len : length (sources w) = N;
  si_att : forall i k t, (i < n)%nat -> (k, t) ∈ att (g i) -> owner k = i /\
    ((exists x, sources w !! k = Some (x, Some (me i)) /\ idle t x = true) \/ woken i w g);
  si_cons : forall k x m, sources w !! k = Some (x, Some m) -> (who m < n)%nat /\ who m = owner k /\ m = me (who m);
  si_pend : forall j m, (j < n)%nat -> m ∈ pend (g j) -> (who m < n)%nat /\ m = me (who m);
  si_once : forall i, (i < n)%nat -> kd i = KCallback -> (refs i w g <= 1)%nat;
  (* a waker that is no longer stored was taken when its source became ready *)
  si_due : forall i k t, (i < n)%nat -> (k, t) ∈ att (g i) \/ (k, t) ∈ hook (g i) -> owner k = i /\
    forall x c, sources w !! k = Some (x, c) -> sane t x /\ (c = Some (me i) \/ idle t x = false);
  si_right : wrong w = false
}.

(** What has happened at the source of another party stays so. *)
Definition lasts (j : nat) (w w' : world X) : Prop :=
  forall k x c, owner k <> j -> sources w !! k = Some (x, c) ->
  exists x' c', sources w' !! k = Some (x', c') /\ forall t, sane t x -> sane t x' /\ (idle t x = false -> idle t x' = false).

Definition sguar (j : nat) (x y : world X * (nat -> spl T)) : Prop :=
  lasts j x.1 y.1 /\
  forall i, i <> j -> y.2 i = x.2 i /\ asked y.1 i = asked x.1 i /\ (kd i = KCallback -> (refs i y.1 y.2 <= refs i x.1 x.2)%nat).

Definition smay_wait (i : nat) (w : world X) (g : nat -> spl T) : Prop :=
  pend (g i) = [] /\ tokens w i = false /\ asked w i <> [] /\ forall k, k ∈ asked w i -> exists t, (k, t) ∈ att (g i) /\ settled t.

Definition sproto : protocol (world X) (nat -> spl T) := WaitProtocol sinv sguar smay_wait.
Notation R := sproto.

Lemma lasts_same j w w' : sources w' = sources w -> lasts j w w'.
Proof. intros E k x c _ Hk. exists x, c. rewrite E. done. Qed.

Lemma lasts_upd j w k x c x' c' : sources w !! k = Some (x, c) -> owner k = j \/ (forall t, sane t x -> sane t x' /\ (idle t x = false -> idle t x' = false)) ->
  lasts j w (set_sources (<[k := (x', c')]> (sources w)) w).
Proof.
  intros Hk Hor k2 y d Hne Hy. destruct (decide (k2 = k)) as [->|Hk2]; [|exists y, d; simpl; by rewrite list_lookup_insert_ne].
  destruct Hor as [?|Hi]; [done|]. rewrite Hk in Hy. injection Hy as -> ->. exists x', c'. simpl. rewrite list_lookup_insert_eq by (by eapply lookup_lt_Some). done.
Qed.

(** [fresh]: nothing refers to this party, if it is a callback. *)
Definition at_hook (i : nat) (A H : list (nat * T)) (p : list Waker) (a : list nat) (fresh : bool) : asrt (world X) (nat -> spl T) :=
  fun w g => g i = SPl A H p /\ asked w i = a /\ (fresh = true -> kd i = KCallback -> refs i w g = 0%nat).
Definition at_ (i : nat) (A : list (nat * T)) (p : list Waker) (a : list nat) (fresh : bool) := at_hook i A [] p a fresh.

Lemma stable_hook i A H p a fresh : stable R i (at_hook i A H p a fresh).
Proof.
  intros j w g w' g' Hj _ _ HG (H1 & H2 & H3). destruct (proj2 HG i ltac:(done)) as (E1 & E2 & E3). simpl in *. split; [congruence|]. split; [congruence|].
  intros Hf Hk. specialize (E3 Hk). specialize (H3 Hf Hk). lia.
Qed.
Lemma stable_sat i A p a fresh : stable R i (at_ i A p a fresh).
Proof. apply stable_hook. Qed.

(** ** Ghost updates *)

Lemma me_inj i j : me i = me j -> i = j.
Proof. by intros [= ->]. Qed.

Lemma waits_eq i o : waits i o = 1%nat <-> o = Some (me i).
Proof. unfold waits. case_decide; split; [done|done|done|done]. Qed.

Lemma wants_app i p q : wants i (p ++ q) = (wants i p + wants i q)%nat.
Proof. apply lsum_app. Qed.
Lemma wants_option i c : wants i (option_list c) = waits i c.
Proof. destruct c as [m|]; [|done]. unfold wants. change (option_list (Some m)) with [m]. rewrite lsum_cons, lsum_nil. lia. Qed.
Lemma wants_elem i p : me i ∈ p -> (1 <= wants i p)%nat.
Proof. intros H. pose proof (lsum_elem (fun m => waits i (Some m)) p (me i) H) as Hle. simpl in Hle. assert (waits i (Some (me i)) = 1)%nat by (by apply waits_eq). unfold wants. lia. Qed.

Lemma refs_source j w g k x c x' c' :
  sources w !! k = Some (x, c) -> (refs j (set_sources (<[k := (x', c')]> (sources w)) w) g + waits j c = refs j w g + waits j c')%nat.
Proof. intros Hk. pose proof (lsum_insert (fun s => waits j s.2) (sources w) k (x', c') (x, c) Hk) as H. unfold refs. simpl in *. lia. Qed.

Lemma refs_pl j w g i l' : (i < n)%nat -> (refs j w (<[i := l']> g) + wants j (pend (g i)) = refs j w g + wants j (pend l'))%nat.
Proof. intros Hi. pose proof (total_upd n (fun l => wants j (pend l)) g i _ l' Hi eq_refl) as H. unfold refs. simpl in *. lia. Qed.

Lemma refs_token j w g b : (refs j (set_token j b w) g + (if tokens w j then 1 else 0) = refs j w g + if b then 1 else 0)%nat.
Proof. unfold refs. simpl. rewrite fn_lookup_insert. lia. Qed.

Lemma refs_token_ne j u w g b : u <> j -> refs j (set_token u b w) g = refs j w g.
Proof. intros Hne. unfold refs. simpl. by rewrite fn_lookup_insert_ne. Qed.

Lemma waits_other i j : i <> j -> waits i (Some (me j)) = 0%nat.
Proof. intros Hne. unfold waits. rewrite decide_False; [done|]. intros [= E]. by apply Hne. Qed.

(** Whom else the wake-ups are for does not matter to [i]. *)
Lemma woken_pl i j w g l' : pend l' = pend (g j) -> woken i w g -> woken i w (<[j := l']> g).
Proof.
  intros Hp [Ht|(u & Hu & E)]; [by left|right]. exists u. split; [done|]. destruct (decide (u = j)) as [->|Hne]; [rewrite fn_lookup_insert; by rewrite Hp|by rewrite fn_lookup_insert_ne].
Qed.

Lemma lookup_source_other (l : list (X * option Waker)) k k2 v : k2 <> k -> <[k := v]> l !! k2 = l !! k2.
Proof. intros H. by apply list_lookup_insert_ne. Qed.

(** What a party is attached or hooked to. *)
Definition held (l : spl T) (e : nat * T) : Prop := e ∈ att l \/ e ∈ hook l.

Lemma held_upd (g : nat -> spl T) i l' u e : held ((<[i := l']> g) u) e -> (u = i /\ held l' e) \/ (u <> i /\ held (g u) e).
Proof. intros H. destruct (decide (u = i)) as [->|Hne]; [left; by rewrite fn_lookup_insert in H|right; by rewrite fn_lookup_insert_ne in H]. Qed.

(** ** Steps *)

(** A party uses its own source. *)
Lemma src_own_step w g i k x c x' c' A H A' H' p :
  sinv w g -> (i < n)%nat -> owner k = i -> sources w !! k = Some (x, c) -> g i = SPl A H p ->
  c' = c \/ c' = None \/ (c' = Some (me i) /\ (kd i = KCallback -> c = Some (me i) \/ refs i w g = 0%nat)) ->
  (forall k2 t, (k2, t) ∈ A' -> (k2 <> k /\ (k2, t) ∈ A) \/ (k2 = k /\ c' = Some (me i) /\ idle t x' = true)) ->
  (forall k2 t, (k2, t) ∈ A' \/ (k2, t) ∈ H' -> (k2 <> k /\ held (SPl A H p) (k2, t)) \/ (k2 = k /\ sane t x' /\ (c' = Some (me i) \/ idle t x' = false))) ->
  let w' := set_sources (<[k := (x', c')]> (sources w)) w in
  let g' := <[i := SPl A' H' p]> g in
  sinv w' g' /\ sguar i (w, g) (w', g').
Proof.
  intros HI Hi Ho Hk Hg Hc HA HH w' g'. pose proof HI as [I1 I2 I3 I4 I5 I6 I7]. pose proof (lookup_lt_Some _ _ _ Hk) as Hlt.
  assert (Hrefs : forall j, (refs j w' g' + waits j c = refs j w g + waits j c')%nat).
  { intros j. pose proof (refs_source j w g k x c x' c' Hk) as H1. pose proof (refs_pl j w' g i (SPl A' H' p) Hi) as H2. rewrite Hg in H2. simpl in H2. fold w' in H1. fold g' in H2. lia. }
  assert (Hle : forall j, j <> i -> (refs j w' g' <= refs j w g)%nat).
  { intros j Hj. specialize (Hrefs j). assert (waits j c' = 0 \/ waits j c' = waits j c)%nat as [H1|H1]; [|lia|lia].
    destruct Hc as [->|[->|[-> _]]]; [by right|by left|left; by apply waits_other]. }
  split.
  - split.
    + simpl. by rewrite length_insert.
    + intros u k2 t Hu Hin. destruct (decide (u = i)) as [->|Hne].
      * unfold g' in Hin. rewrite fn_lookup_insert in Hin. simpl in Hin. destruct (HA k2 t Hin) as [[Hk2 Hin2]|(-> & -> & Hid)].
        -- destruct (I2 i k2 t Hu) as [E Hor]; [by rewrite Hg|]. split; [done|]. destruct Hor as [Hex|Hw]; [left; simpl; by rewrite lookup_source_other|right].
           apply (woken_pl i i w' g (SPl A' H' p)); [by rewrite Hg|exact Hw].
        -- split; [done|]. left. exists x'. simpl. by rewrite list_lookup_insert_eq.
      * unfold g' in Hin. rewrite fn_lookup_insert_ne in Hin by done. destruct (I2 u k2 t Hu Hin) as [E Hor]. split; [done|].
        destruct Hor as [Hex|Hw]; [left; simpl; rewrite lookup_source_other; [done|congruence]|right].
        apply (woken_pl u i w' g (SPl A' H' p)); [by rewrite Hg|exact Hw].
    + intros k2 y m Hy. simpl in Hy. destruct (decide (k2 = k)) as [->|Hne]; [|rewrite lookup_source_other in Hy by done; by apply (I3 k2 y)].
      rewrite list_lookup_insert_eq in Hy by done. injection Hy as <- Hm. destruct Hc as [->|[->|[-> _]]]; [by apply (I3 k x); rewrite Hk, Hm|done|].
      injection Hm as <-. simpl. done.
    + intros j m Hj Hp. unfold g' in Hp. destruct (decide (j = i)) as [->|Hne]; [rewrite fn_lookup_insert in Hp; simpl in Hp; apply (I4 i); [done|by rewrite Hg]|].
      rewrite fn_lookup_insert_ne in Hp by done. by apply (I4 j).
    + intros j Hj Hkd. destruct (decide (j = i)) as [->|Hne]; [|specialize (Hle j Hne); specialize (I5 j Hj Hkd); lia].
      specialize (Hrefs i). specialize (I5 i Hj Hkd). destruct Hc as [->|[->|[-> Hcb]]]; [lia|assert (waits i None = 0)%nat by done; lia|].
      assert (waits i (Some (me i)) = 1)%nat as E1 by (by apply waits_eq). destruct (Hcb Hkd) as [->|Hz]; lia.
    + intros u k2 t Hu Hin. destruct (held_upd g i (SPl A' H' p) u (k2, t) Hin) as [[-> Hheld]|[Hne Hheld]].
      * destruct (HH k2 t Hheld) as [[Hk2 Hold]|(-> & Hs & Hor)].
        -- destruct (I6 i k2 t Hu) as [E Hd]; [rewrite Hg; exact Hold|]. split; [done|]. intros y d Hy. simpl in Hy. rewrite lookup_source_other in Hy by done. by apply Hd.
        -- split; [done|]. intros y d Hy. simpl in Hy. rewrite list_lookup_insert_eq in Hy by done. injection Hy as <- <-. done.
      * destruct (I6 u k2 t Hu Hheld) as [E Hd]. split; [done|]. intros y d Hy. simpl in Hy. rewrite lookup_source_other in Hy by congruence. by apply Hd.
    + done.
  - split; [apply (lasts_upd _ _ _ x c); [done|by left]|].
    intros j Hj. simpl. unfold g'. rewrite fn_lookup_insert_ne by done. splits; [done|done|]. intros _. by apply Hle.
Qed.

(** Any thread changes a source, which is as ready as before. *)
Lemma quiet_step w g i k x c x' :
  sinv w g -> sources w !! k = Some (x, c) -> (forall t, idle t x' = idle t x /\ (sane t x -> sane t x')) ->
  let w' := set_sources (<[k := (x', c)]> (sources w)) w in
  sinv w' g /\ sguar i (w, g) (w', g).
Proof.
  intros HI Hk Hidle w'. pose proof HI as [I1 I2 I3 I4 I5 I6 I7]. pose proof (lookup_lt_Some _ _ _ Hk) as Hlt.
  assert (Hrefs : forall j, refs j w' g = refs j w g) by (intros j; pose proof (refs_source j w g k x c x' c Hk) as H1; fold w' in H1; lia).
  split; [split|]; try done.
  - simpl. by rewrite length_insert.
  - intros u k2 t Hu Hin. destruct (I2 u k2 t Hu Hin) as [E [(y & Hy & Hid)|Hw]]; (split; [done|]); [left|by right].
    destruct (decide (k2 = k)) as [->|Hne]; [|exists y; simpl; by rewrite lookup_source_other]. exists x'. simpl. rewrite list_lookup_insert_eq by done.
    rewrite Hk in Hy. injection Hy as -> ->. by rewrite (proj1 (Hidle t)).
  - intros k2 y m Hy. simpl in Hy. destruct (decide (k2 = k)) as [->|Hne]; [|rewrite lookup_source_other in Hy by done; by apply (I3 k2 y)].
    rewrite list_lookup_insert_eq in Hy by done. injection Hy as <- ->. by apply (I3 k x).
  - intros j Hj Hkd. rewrite Hrefs. by apply I5.
  - intros u k2 t Hu Hin. destruct (I6 u k2 t Hu Hin) as [E Hd]. split; [done|]. intros y d Hy. simpl in Hy.
    destruct (decide (k2 = k)) as [->|Hne]; [|rewrite lookup_source_other in Hy by done; by apply Hd].
    rewrite list_lookup_insert_eq in Hy by done. injection Hy as <- <-. destruct (Hidle t) as [-> Hs]. destruct (Hd x c Hk). auto.
  - split; [apply (lasts_upd _ _ _ x c); [done|]; right; intros t; destruct (Hidle t) as [-> Hs]; auto|]. intros j Hj. simpl. splits; [done|done|]. intros _. by rewrite Hrefs.
Qed.

(** A producer makes a source ready and takes its consumer. *)
Lemma take_step w g i k x c x' c' A H p :
  sinv w g -> (i < n)%nat -> sources w !! k = Some (x, c) -> g i = SPl A H p ->
  c' = None \/ (c' = c /\ kd (owner k) <> KCallback) -> (forall t, sane t x -> sane t x' /\ idle t x' = false) ->
  let w' := set_sources (<[k := (x', c')]> (sources w)) w in
  let g' := <[i := SPl A H (p ++ option_list c)]> g in
  sinv w' g' /\ sguar i (w, g) (w', g').
Proof.
  intros HI Hi Hk Hg Hc Hnow w' g'. pose proof HI as [I1 I2 I3 I4 I5 I6 I7]. pose proof (lookup_lt_Some _ _ _ Hk) as Hlt.
  assert (Hle : forall j, kd j = KCallback -> (refs j w' g' <= refs j w g)%nat).
  { intros j Hkd. pose proof (refs_source j w g k x c x' c' Hk) as H1. pose proof (refs_pl j w' g i (SPl A H (p ++ option_list c)) Hi) as H2. rewrite Hg in H2. simpl in H2.
    fold w' in H1. fold g' in H2. rewrite wants_app, wants_option in H2.
    assert (waits j None = 0)%nat as H0 by done. destruct Hc as [->|[-> Hno]]; [lia|]. assert (waits j c = 0)%nat; [|lia].
    unfold waits. rewrite decide_False; [done|]. intros ->. destruct (I3 k x (me j) Hk) as (_ & E & _). simpl in E. congruence. }
  assert (Hwk : forall u, woken u w g -> woken u w' g').
  { intros u [?|(j & Hj & E)]; [by left|right]. exists j. split; [done|]. unfold g'. destruct (decide (j = i)) as [->|Hne]; [|by rewrite fn_lookup_insert_ne].
    rewrite fn_lookup_insert. simpl. apply elem_of_app. left. by rewrite Hg in E. }
  assert (Hheld : forall u e, held (g' u) e -> held (g u) e).
  { intros u e He. destruct (held_upd g i _ u e He) as [[-> Hh]|[_ Hh]]; [by rewrite Hg|done]. }
  assert (Hatt : forall u, att (g' u) = att (g u)).
  { intros u. unfold g'. destruct (decide (u = i)) as [->|Hne]; [rewrite fn_lookup_insert; by rewrite Hg|by rewrite fn_lookup_insert_ne]. }
  split; [split|].
  - simpl. by rewrite length_insert.
  - intros u k2 t Hu Hin. rewrite Hatt in Hin.
    destruct (I2 u k2 t Hu Hin) as [E [(y & Hy & Hid)|Hw]]; (split; [done|]); [|right; auto].
    destruct (decide (k2 = k)) as [->|Hne]; [|left; exists y; simpl; by rewrite lookup_source_other].
    right. right. exists i. split; [done|]. unfold g'. rewrite fn_lookup_insert. simpl. rewrite Hk in Hy. injection Hy as -> ->. apply elem_of_app. right. left.
  - intros k2 y m Hy. simpl in Hy. destruct (decide (k2 = k)) as [->|Hne]; [|rewrite lookup_source_other in Hy by done; by apply (I3 k2 y)].
    rewrite list_lookup_insert_eq in Hy by done. injection Hy as <- Hm. destruct Hc as [->|[-> _]]; [done|]. subst c. by apply (I3 k x).
  - intros j m Hj Hp. unfold g' in Hp. destruct (decide (j = i)) as [->|Hne]; [|rewrite fn_lookup_insert_ne in Hp by done; by apply (I4 j)].
    rewrite fn_lookup_insert in Hp. simpl in Hp. apply elem_of_app in Hp as [Hp|Hp]; [apply (I4 i); [done|by rewrite Hg]|].
    destruct c as [m'|]; [|by apply not_elem_of_nil in Hp]. apply list_elem_of_singleton in Hp. subst m'. destruct (I3 k x m Hk) as (? & _ & ?). done.
  - intros j Hj Hkd. specialize (Hle j Hkd). specialize (I5 j Hj Hkd). lia.
  - intros u k2 t Hu Hin. destruct (I6 u k2 t Hu (Hheld u _ Hin)) as [E Hd]. split; [done|]. intros y d Hy. simpl in Hy.
    destruct (decide (k2 = k)) as [->|Hne]; [|rewrite lookup_source_other in Hy by done; by apply Hd].
    rewrite list_lookup_insert_eq in Hy by done. injection Hy as <- <-. destruct (Hd x c Hk) as [Hs _]. destruct (Hnow t Hs). auto.
  - done.
  - split; [apply (lasts_upd _ _ _ x c); [done|]; right; intros t Hs; destruct (Hnow t Hs); auto|]. intros j Hj. simpl. unfold g'. rewrite fn_lookup_insert_ne by done. splits; [done|done|]. apply Hle.
Qed.

(** A token changes hands. *)
Lemma wake_step w g i A H m p :
  sinv w g -> (i < n)%nat -> g i = SPl A H (m :: p) -> (kind m = KCallback -> tokens w (who m) = false) ->
  let w' := set_token (who m) true w in
  let g' := <[i := SPl A H p]> g in
  sinv w' g' /\ sguar i (w, g) (w', g').
Proof.
  intros HI Hi Hg Hcb w' g'. pose proof HI as [I1 I2 I3 I4 I5 I6 I7]. destruct (I4 i m Hi) as [Hm Em]; [rewrite Hg; left|].
  assert (Hcons : forall j, wants j (m :: p) = (waits j (Some m) + wants j p)%nat) by (intros j; unfold wants; by rewrite lsum_cons).
  assert (Hle : forall j, kd j = KCallback -> (refs j w' g' <= refs j w g)%nat).
  { intros j Hkd. pose proof (refs_pl j w' g i (SPl A H p) Hi) as H2. rewrite Hg in H2. cbn [pend] in H2. fold g' in H2. rewrite Hcons in H2.
    destruct (decide (who m = j)) as [<-|Hne].
    - assert (kind m = KCallback) as Hkm by (rewrite Em; exact Hkd). pose proof (refs_token (who m) w g true) as H1. fold w' in H1. rewrite (Hcb Hkm) in H1.
      assert (waits (who m) (Some m) = 1)%nat by (apply waits_eq; congruence). lia.
    - pose proof (refs_token_ne j (who m) w g true Hne) as H1. fold w' in H1. lia. }
  assert (Hwk : forall u, woken u w g -> woken u w' g').
  { intros u [Ht|(j & Hj & E)].
    - left. simpl. destruct (decide (u = who m)) as [->|Hne]; [apply fn_lookup_insert|by rewrite fn_lookup_insert_ne].
    - destruct (decide (j = i)) as [->|Hne]; [|right; exists j; split; [done|]; unfold g'; by rewrite fn_lookup_insert_ne].
      rewrite Hg in E. simpl in E. apply elem_of_cons in E as [E|E]; [left; unfold w'; rewrite <- E; simpl; apply fn_lookup_insert|].
      right. exists i. split; [done|]. unfold g'. by rewrite fn_lookup_insert. }
  assert (Hheld : forall u e, held (g' u) e -> held (g u) e).
  { intros u e He. destruct (held_upd g i _ u e He) as [[-> Hh]|[_ Hh]]; [by rewrite Hg|done]. }
  assert (Hatt : forall u, att (g' u) = att (g u)).
  { intros u. unfold g'. destruct (decide (u = i)) as [->|Hne]; [rewrite fn_lookup_insert; by rewrite Hg|by rewrite fn_lookup_insert_ne]. }
  split; [split|]; try done.
  - intros u k2 t Hu Hin. rewrite Hatt in Hin. destruct (I2 u k2 t Hu Hin) as [E [Hex|Hw]]; (split; [done|]); [by left|right; auto].
  - intros j m' Hj Hp. unfold g' in Hp. destruct (decide (j = i)) as [->|Hne]; [rewrite fn_lookup_insert in Hp; simpl in Hp; apply (I4 i); [done|rewrite Hg; by right]|].
    rewrite fn_lookup_insert_ne in Hp by done. by apply (I4 j).
  - intros j Hj Hkd. specialize (Hle j Hkd). specialize (I5 j Hj Hkd). lia.
  - intros u k2 t Hu Hin. by apply (I6 u k2 t Hu (Hheld u _ Hin)).
  - split; [by apply lasts_same|]. intros j Hj. simpl. unfold g'. rewrite fn_lookup_insert_ne by done. splits; [done|done|]. apply Hle.
Qed.

(** A party forgets what it is attached to, but not its hooks; it may use up its
    token, and say what it asks for next. *)
Lemma forget_step w g i A H A' H' p (b : bool) w' :
  sinv w g -> (i < n)%nat -> g i = SPl A H p -> (forall e, e ∈ A' -> e ∈ A /\ b = false) -> (forall e, e ∈ H' -> held (SPl A H p) e) ->
  sources w' = sources w -> wrong w' = wrong w -> (forall u, u <> i -> asked w' u = asked w u) -> tokens w' = (if b then <[i := false]> (tokens w) else tokens w) ->
  let g' := <[i := SPl A' H' p]> g in
  sinv w' g' /\ sguar i (w, g) (w', g') /\ (refs i w' g' + (if b && tokens w i then 1 else 0) = refs i w g)%nat.
Proof.
  intros HI Hi Hg HA HH Hs Hwr Ha Ht g'. pose proof HI as [I1 I2 I3 I4 I5 I6 I7].
  assert (Hrefs : forall j, (refs j w' g' + (if bool_decide (j = i) && b && tokens w i then 1 else 0) = refs j w g)%nat).
  { intros j. pose proof (refs_pl j w g i (SPl A' H' p) Hi) as H2. rewrite Hg in H2. simpl in H2. fold g' in H2. unfold refs in *. rewrite Hs, Ht.
    destruct b; [|rewrite andb_false_r; simpl; lia]. case_bool_decide as E; [subst j; rewrite fn_lookup_insert|rewrite fn_lookup_insert_ne by done]; simpl; destruct (tokens w i); lia. }
  assert (Hwk : forall u, u <> i \/ b = false -> woken u w g -> woken u w' g').
  { intros u Hu [Htk|(j & Hj & E)].
    - left. rewrite Ht. destruct Hu as [Hu | ->]; [|done]. destruct b; [by rewrite fn_lookup_insert_ne|done].
    - right. exists j. split; [done|]. unfold g'. destruct (decide (j = i)) as [->|Hne]; [rewrite fn_lookup_insert; by rewrite Hg in E|by rewrite fn_lookup_insert_ne]. }
  split; [split|split]; rewrite ?Hs, ?Hwr; try done.
  - intros u k2 t Hu Hin. unfold g' in Hin. destruct (decide (u = i)) as [->|Hne].
    + rewrite fn_lookup_insert in Hin. simpl in Hin. destruct (HA _ Hin) as [Hin' Hb]. destruct (I2 i k2 t Hu) as [E [Hex|Hw]]; [by rewrite Hg|..]; (split; [done|]); [by left|right].
      apply Hwk; [by right|done].
    + rewrite fn_lookup_insert_ne in Hin by done. destruct (I2 u k2 t Hu Hin) as [E [Hex|Hw]]; (split; [done|]); [by left|right]. apply Hwk; [by left|done].
  - intros j m' Hj Hp. unfold g' in Hp. destruct (decide (j = i)) as [->|Hne]; [rewrite fn_lookup_insert in Hp; apply (I4 i); [done|by rewrite Hg]|].
    rewrite fn_lookup_insert_ne in Hp by done. by apply (I4 j).
  - intros j Hj Hkd. specialize (Hrefs j). specialize (I5 j Hj Hkd). lia.
  - intros u k2 t Hu Hin. apply (I6 u k2 t Hu). destruct (held_upd g i (SPl A' H' p) u (k2, t) Hin) as [[-> [He|He]]|[_ He]]; [|rewrite Hg; by apply HH|done].
    left. rewrite Hg. by apply HA.
  - split; [by apply lasts_same|]. intros j Hj. splits; [by apply fn_lookup_insert_ne|by apply Ha|]. intros _. specialize (Hrefs j). simpl. lia.
  - specialize (Hrefs i). by rewrite bool_decide_eq_true_2 in Hrefs.
Qed.

(** ** Rules *)

Lemma source_there w g k : sinv w g -> (k < N)%nat -> exists x c, sources w !! k = Some (x, c).
Proof. intros HI Hk. destruct (lookup_lt_is_Some_2 (sources w) k) as [[x c] H]; [by rewrite (si_len w g HI)|]. by exists x, c. Qed.

Lemma src_section {A B} i k (f : X -> option Waker -> X * option Waker * B) (q : B -> prog (world X) A) P Q :
  (k < N)%nat ->
  (forall w g x c, sinv w g -> P w g -> sources w !! k = Some (x, c) ->
     let '(x', c', r) := f x c in exists g' (P' : asrt (world X) (nat -> spl T)),
     let w' := set_sources (<[k := (x', c')]> (sources w)) w in
     (sinv w' g' /\ sguar i (w, g) (w', g')) /\ P' w' g' /\ stable R i P' /\ rg R i (q r) P' Q) ->
  rg R i (bind (section k f) q) P Q.
Proof.
  intros Hk H. split.
  - intros w g HI _ E. destruct (source_there w g k HI Hk) as (x & c & Hs). simpl in E. rewrite Hs in E. by destruct (f x c) as [[? ?] ?].
  - intros w g w' r HI HP Hin. destruct (source_there w g k HI Hk) as (x & c & Hs). simpl in Hin. rewrite Hs in Hin.
    specialize (H w g x c HI HP Hs). destruct (f x c) as [[x' c'] r']. apply list_elem_of_singleton in Hin. injection Hin as -> ->.
    destruct H as (g' & P' & [H1 H2] & H3 & H4 & H5). by exists g', P'.
Qed.

(** What a party may do to its own source, and what it then knows. *)
Record own_change (i k : nat) (A A' : list (nat * T)) (fr fr' : bool) (c c' : option Waker) (x' : X) : Prop := {
  oc_consumer : c' = c \/ c' = None \/ (c' = Some (me i) /\ (kd i = KCallback -> c = Some (me i) \/ fr = true));
  oc_att : forall k2 t, (k2, t) ∈ A' -> (k2 <> k /\ (k2, t) ∈ A) \/ (k2 = k /\ sane t x' /\ c' = Some (me i) /\ idle t x' = true);
  oc_fresh : fr' = true -> kd i = KCallback -> (fr = true /\ (c' = c \/ c' = None)) \/ (c = Some (me i) /\ c' = None)
}.

Lemma own_at w g i k x c x' c' A H A' p a fr fr' :
  sinv w g -> (i < n)%nat -> owner k = i -> sources w !! k = Some (x, c) -> at_hook i A H p a fr w g -> own_change i k A A' fr fr' c c' x' ->
  let w' := set_sources (<[k := (x', c')]> (sources w)) w in
  let g' := <[i := SPl A' [] p]> g in
  (sinv w' g' /\ sguar i (w, g) (w', g')) /\ at_ i A' p a fr' w' g'.
Proof.
  intros HI Hi Ho Hs (Hg & Ha & Hf) [Hc HA Hfr] w' g'. split.
  { eapply (src_own_step w g i k x c x' c' A H A' [] p); try done.
    - destruct Hc as [?|[?|[? Hcb]]]; [by left|by right; left|right; right].
      split; [done|]. intros Hkd. destruct (Hcb Hkd) as [?|Hfrt]; [by left|right; auto].
    - intros k2 t Hin. destruct (HA k2 t Hin) as [?|(? & ? & ? & ?)]; [by left|by right].
    - intros k2 t [Hin|Hin]; [|by apply not_elem_of_nil in Hin]. destruct (HA k2 t Hin) as [[? ?]|(? & ? & ? & ?)]; [left; by split; [|left]|right; by splits; [| |left]]. }
  split; [apply fn_lookup_insert|]. split; [done|]. intros Hf' Hkd.
  pose proof (refs_source i w g k x c x' c' Hs) as H1. pose proof (refs_pl i w' g i (SPl A' [] p) Hi) as H2. rewrite Hg in H2. simpl in H2. fold w' in H1. fold g' in H2.
  assert (waits i None = 0)%nat as H0 by done. destruct (Hfr Hf' Hkd) as [[Hft Hc']|[-> ->]].
  - specialize (Hf Hft Hkd). destruct Hc' as [->| ->]; lia.
  - pose proof (si_once w g HI i Hi Hkd). assert (waits i (Some (me i)) = 1)%nat by (by apply waits_eq). lia.
Qed.

Lemma src_own_hook {A B} i k (f : X -> option Waker -> X * option Waker * B) (q : B -> prog (world X) A) A0 H p a fr Q :
  (i < n)%nat -> owner k = i -> (k < N)%nat ->
  (forall x c, let '(x', c', r) := f x c in exists A' fr', own_change i k A0 A' fr fr' c c' x' /\ rg R i (q r) (at_ i A' p a fr') Q) ->
  rg R i (bind (section k f) q) (at_hook i A0 H p a fr) Q.
Proof.
  intros Hi Ho Hk HH. apply src_section; [done|]. intros w g x c HI HP Hs. specialize (HH x c). destruct (f x c) as [[x' c'] r].
  destruct HH as (A' & fr' & Hch & Hq). exists (<[i := SPl A' [] p]> g), (at_ i A' p a fr'). intros w'.
  destruct (own_at w g i k x c x' c' A0 H A' p a fr fr' HI Hi Ho Hs HP Hch) as [H1 H2]. splits; [apply H1|apply H1|exact H2|apply stable_sat|exact Hq].
Qed.

Lemma src_own {A B} i k (f : X -> option Waker -> X * option Waker * B) (q : B -> prog (world X) A) A0 p a fr Q :
  (i < n)%nat -> owner k = i -> (k < N)%nat ->
  (forall x c, let '(x', c', r) := f x c in exists A' fr', own_change i k A0 A' fr fr' c c' x' /\ rg R i (q r) (at_ i A' p a fr') Q) ->
  rg R i (bind (section k f) q) (at_ i A0 p a fr) Q.
Proof. apply src_own_hook. Qed.

(** A source is read, or changed without making it ready. *)
Lemma src_quiet {A B} i k (f : X -> option Waker -> X * option Waker * B) (q : B -> prog (world X) A) A0 p a fr Q :
  (k < N)%nat ->
  (forall x c, let '(x', c', r) := f x c in c' = c /\ (forall t, idle t x' = idle t x /\ (sane t x -> sane t x')) /\ rg R i (q r) (at_ i A0 p a fr) Q) ->
  rg R i (bind (section k f) q) (at_ i A0 p a fr) Q.
Proof.
  intros Hk H. apply src_section; [done|]. intros w g x c HI (Hg & Ha & Hf) Hs. specialize (H x c). destruct (f x c) as [[x' c'] r].
  destruct H as (-> & Hid & Hq). exists g, (at_ i A0 p a fr). intros w'. splits; try done.
  - by eapply (quiet_step w g i k x c x').
  - by eapply (quiet_step w g i k x c x').
  - split; [done|]. split; [done|]. intros Hft Hkd. pose proof (refs_source i w g k x c x' c Hs) as H1. fold w' in H1. specialize (Hf Hft Hkd). lia.
  - apply stable_sat.
Qed.

Lemma src_peek {A B} i k (f : X -> B) (q : B -> prog (world X) A) A0 p a fr Q :
  (k < N)%nat -> (forall r, rg R i (q r) (at_ i A0 p a fr) Q) -> rg R i (bind (peek k f) q) (at_ i A0 p a fr) Q.
Proof. intros Hk H. apply src_quiet; [done|]. intros x c. splits; [done|done|apply H]. Qed.

(** A producer's section: it takes the consumer, or does not make the source ready. *)
Lemma src_take {A B} i k (f : X -> option Waker -> X * option Waker * B) (q : B -> prog (world X) A) A0 p a Q :
  (i < n)%nat -> kd i <> KCallback -> (k < N)%nat ->
  (forall x c, let '(x', c', r) := f x c in
     ((((c' = None \/ (c' = c /\ kd (owner k) <> KCallback)) /\ forall t, sane t x -> sane t x' /\ idle t x' = false) /\ rg R i (q r) (at_ i A0 (p ++ option_list c) a true) Q) \/
      ((forall t, idle t x' = idle t x /\ (sane t x -> sane t x')) /\ c' = c /\ rg R i (q r) (at_ i A0 p a true) Q))) ->
  rg R i (bind (section k f) q) (at_ i A0 p a true) Q.
Proof.
  intros Hi Hkd Hk H. apply src_section; [done|]. intros w g x c HI (Hg & Ha & _) Hs. specialize (H x c). destruct (f x c) as [[x' c'] r].
  destruct H as [[[Hc Hnow] Hq]|(Hid & -> & Hq)].
  - exists (<[i := SPl A0 [] (p ++ option_list c)]> g), (at_ i A0 (p ++ option_list c) a true). intros w'. splits; [by eapply (take_step w g i k x c x' c')|by eapply (take_step w g i k x c x' c')| |apply stable_sat|exact Hq].
    split; [apply fn_lookup_insert|]. split; [done|]. done.
  - exists g, (at_ i A0 p a true). intros w'. splits; [by eapply (quiet_step w g i k x c x')|by eapply (quiet_step w g i k x c x')| |apply stable_sat|exact Hq]. by splits.
Qed.

Lemma src_wake {A} i o (q : unit -> prog (world X) A) A0 p a Q :
  (i < n)%nat -> kd i <> KCallback -> rg R i (q tt) (at_ i A0 p a true) Q -> rg R i (bind (wake o) q) (at_ i A0 (option_list o ++ p) a true) Q.
Proof.
  intros Hi Hkd Hq. destruct o as [m|]; [|exact Hq]. change (option_list (Some m) ++ p) with (m :: p).
  assert (Hstep : forall w g, sinv w g -> at_ i A0 (m :: p) a true w g -> (kind m = KCallback -> tokens w (who m) = false) ->
    let g' := <[i := SPl A0 [] p]> g in let w' := set_token (who m) true w in
    (sinv w' g' /\ sguar i (w, g) (w', g')) /\ at_ i A0 p a true w' g').
  { intros w g HI (Hg & Ha & _) Hcb. split; [by apply wake_step|]. split; [apply fn_lookup_insert|]. by split. }
  assert (Hno : forall w g, sinv w g -> at_ i A0 (m :: p) a true w g -> kind m = KCallback -> tokens w (who m) = false).
  { intros w g HI (Hg & Ha & _) Hkm. destruct (si_pend w g HI i m Hi) as [Hm Em]; [rewrite Hg; left|]. rewrite Em in Hkm. simpl in Hkm.
    pose proof (si_once w g HI (who m) Hm Hkm) as H1. pose proof (total_elem n (fun l => wants (who m) (pend l)) g i Hi) as H2. cbv beta in H2. rewrite Hg in H2. cbn [pend] in H2.
    pose proof (wants_elem (who m) (m :: p)) as H3. rewrite <- Em in H3. specialize (H3 ltac:(left)). unfold refs in H1. destruct (tokens w (who m)); [lia|done]. }
  unfold wake. destruct (kind m) eqn:Ek.
  - apply rg_store. intros w g HI HP. destruct (Hstep w g HI HP) as [[? ?] ?]; [done|]. eexists _, (at_ i A0 p a true). splits; [done|done|done|apply stable_sat|exact Hq].
  - apply rg_store. intros w g HI HP. destruct (Hstep w g HI HP) as [[? ?] ?]; [done|]. eexists _, (at_ i A0 p a true). splits; [done|done|done|apply stable_sat|exact Hq].
  - split; [intros w g _ _; by destruct (tokens w (who m))|]. intros w g w' [] HI HP Hin. rewrite (Hno w g HI HP eq_refl) in Hin. apply list_elem_of_singleton in Hin.
    injection Hin as ->. destruct (Hstep w g HI HP) as [[? ?] ?]; [by intros; apply (Hno w g)|]. eexists _, (at_ i A0 p a true). splits; [done|done|done|apply stable_sat|exact Hq].
Qed.

Lemma src_wake_last {A} i o (q : unit -> prog (world X) A) A0 a Q :
  (i < n)%nat -> kd i <> KCallback -> rg R i (q tt) (at_ i A0 [] a true) Q -> rg R i (bind (wake o) q) (at_ i A0 (option_list o) a true) Q.
Proof. intros Hi Hkd Hq. rewrite <- (app_nil_r (option_list o)). by apply src_wake. Qed.

(** What a party is attached to covers what it asked for. *)
Definition covers (A : list (nat * T)) (a : list nat) : Prop := a <> [] /\ forall k, k ∈ a -> exists t, (k, t) ∈ A /\ settled t.

Lemma forget_at w g i A H H' p a fr (b : bool) :
  sinv w g -> (i < n)%nat -> at_hook i A H p a fr w g -> (forall e, e ∈ H' -> held (SPl A H p) e) ->
  let w' := if b then set_token i false w else w in
  let g' := <[i := SPl [] H' p]> g in
  (sinv w' g' /\ sguar i (w, g) (w', g')) /\ at_hook i [] H' p a fr w' g' /\ (refs i w' g' + (if b && tokens w i then 1 else 0) = refs i w g)%nat.
Proof.
  intros HI Hi (Hg & Ha & Hf) HH w' g'. destruct (forget_step w g i A H [] H' p b w' HI Hi Hg) as (H1 & H2 & H3).
  - intros e He. by apply not_elem_of_nil in He.
  - exact HH.
  - by destruct b.
  - by destruct b.
  - intros u _. by destruct b.
  - by destruct b.
  - split; [done|]. split; [|done]. split; [apply fn_lookup_insert|]. split; [by destruct b|]. intros Hft Hkd. specialize (Hf Hft Hkd). unfold g' in *. cbv zeta in H3. lia.
Qed.

(** The party forgets what it is attached to, or goes on as hooked. *)
Lemma src_block_hook {A} i A0 H H' a (q : blocked -> prog (world X) A) Q :
  (i < n)%nat -> covers A0 a -> (forall e, e ∈ H' -> e ∈ A0 \/ e ∈ H) -> (forall r, rg R i (q r) (at_hook i [] H' [] a true) Q) ->
  rg R i (bind (block (me i)) q) (at_hook i A0 H [] a true) Q.
Proof.
  intros Hi [Hne Hcov] HH Hq. split.
  - intros w g HI (Hg & Ha & _) E. simpl in E. apply app_eq_nil in E as [E _]. rewrite <- Ha in Hne, Hcov. unfold may_wait. simpl. unfold smay_wait. rewrite Hg.
    splits; [done| |done|exact Hcov]. by destruct (tokens w i).
  - intros w g w' r HI HP Hin. simpl in Hin. assert (exists b : bool, w' = if b then set_token i false w else w) as [b ->].
    { apply elem_of_app in Hin as [Hin|Hin]; [destruct (tokens w i)|destruct (bool_decide _ && stopping w)]; try (by apply not_elem_of_nil in Hin);
        apply list_elem_of_singleton in Hin; injection Hin as -> _; [by exists true|by exists false]. }
    destruct (forget_at w g i A0 H H' [] a true b HI Hi HP HH) as ([H1 H2] & H3 & _). eexists _, (at_hook i [] H' [] a true). splits; [exact H1|exact H2|exact H3|apply stable_hook|apply Hq].
Qed.

Lemma src_blockUntil_hook {A} i A0 H H' a (q : blocked -> prog (world X) A) Q :
  (i < n)%nat -> (forall e, e ∈ H' -> e ∈ A0 \/ e ∈ H) -> (forall r, rg R i (q r) (at_hook i [] H' [] a true) Q) ->
  rg R i (bind (blockUntil (me i)) q) (at_hook i A0 H [] a true) Q.
Proof.
  intros Hi HH Hq. split; [done|].
  intros w g w' r HI HP Hin. simpl in Hin. assert (exists b : bool, w' = if b then set_token i false w else w) as [b ->].
  { apply elem_of_cons in Hin as [Hin|Hin]; [injection Hin as -> _; by exists false|]. apply elem_of_cons in Hin as [Hin|Hin]; [injection Hin as -> _; by exists true|].
    apply elem_of_app in Hin as [Hin|Hin]; [destruct (tokens w i)|destruct (bool_decide _ && stopping w)]; try (by apply not_elem_of_nil in Hin);
      apply list_elem_of_singleton in Hin; injection Hin as -> _; [by exists true|by exists false]. }
  destruct (forget_at w g i A0 H H' [] a true b HI Hi HP HH) as ([H1 H2] & H3 & _). eexists _, (at_hook i [] H' [] a true). splits; [exact H1|exact H2|exact H3|apply stable_hook|apply Hq].
Qed.

Lemma src_block {A} i A0 a (q : blocked -> prog (world X) A) Q :
  (i < n)%nat -> covers A0 a -> (forall r, rg R i (q r) (at_ i [] [] a true) Q) -> rg R i (bind (block (me i)) q) (at_ i A0 [] a true) Q.
Proof. intros Hi Hc Hq. apply src_block_hook with []; [done|done|by intros e He%not_elem_of_nil|exact Hq]. Qed.

Lemma src_blockUntil {A} i A0 a (q : blocked -> prog (world X) A) Q :
  (i < n)%nat -> (forall r, rg R i (q r) (at_ i [] [] a true) Q) -> rg R i (bind (blockUntil (me i)) q) (at_ i A0 [] a true) Q.
Proof. intros Hi Hq. apply src_blockUntil_hook with []; [done|by intros e He%not_elem_of_nil|exact Hq]. Qed.

(** A hooked party looks at its source: what it waits for has happened, or it is
    attached. *)
Lemma src_look_hook {A B} i k t (f : X -> B) (q : B -> prog (world X) A) a Q :
  (i < n)%nat -> (k < N)%nat ->
  (forall x, idle t x = false -> rg R i (q (f x)) (at_hook i [] [(k, t)] [] a true) Q) ->
  (forall x, idle t x = true -> rg R i (q (f x)) (at_ i [(k, t)] [] a true) Q) ->
  rg R i (bind (peek k f) q) (at_hook i [] [(k, t)] [] a true) Q.
Proof.
  intros Hi Hk H1 H2. apply src_section; [done|]. intros w g x c HI HP Hs. destruct (idle t x) eqn:E.
  - pose proof HP as (Hg & Ha & Hf). destruct (si_due w g HI i k t Hi) as [Ho Hd]; [right; rewrite Hg; left|]. destruct (Hd x c Hs) as [Hsane [Hc|Hc]]; [|congruence].
    exists (<[i := SPl [(k, t)] [] []]> g), (at_ i [(k, t)] [] a true). intros w'.
    destruct (src_own_step w g i k x c x c [] [(k, t)] [(k, t)] [] [] HI Hi Ho Hs Hg) as [I1 I2]; [by left| | |].
    + intros k2 t2 Hin%list_elem_of_singleton. injection Hin as -> ->. by right.
    + intros k2 t2 [Hin%list_elem_of_singleton|Hin%not_elem_of_nil]; [|done]. injection Hin as -> ->. right. by splits; [| |left].
    + splits; [done|done| |apply stable_sat|by apply H2]. split; [apply fn_lookup_insert|]. split; [done|]. intros _ Hkd. specialize (Hf eq_refl Hkd).
      pose proof (refs_source i w g k x c x c Hs) as R1. pose proof (refs_pl i w' g i (SPl [(k, t)] [] []) Hi) as R2. rewrite Hg in R2. simpl in R2. fold w' in R1. lia.
  - exists g, (at_hook i [] [(k, t)] [] a true). cbv zeta. assert (Ew : set_sources (<[k := (x, c)]> (sources w)) w = w) by (rewrite (list_insert_id _ _ _ Hs); by destruct w).
    destruct (quiet_step w g i k x c x HI Hs) as [I1 I2]; [done|]. rewrite Ew in *. splits; [done|done|exact HP|apply stable_hook|by apply H1].
Qed.

(** *** What a party knows to have happened *)

Definition happened (k : nat) (t : T) (w : world X) : Prop := exists x c, sources w !! k = Some (x, c) /\ sane t x /\ idle t x = false.

Definition at_after (i : nat) (A : list (nat * T)) (a : list nat) (L : list (nat * T)) : asrt (world X) (nat -> spl T) :=
  fun w g => at_ i A [] a true w g /\ forall k t, (k, t) ∈ L -> happened k t w.

Definition owns (i : nat) (L : list (nat * T)) : Prop := forall k t, (k, t) ∈ L -> owner k = i.

Lemma stable_after i A a L : owns i L -> stable R i (at_after i A a L).
Proof.
  intros HL j w g w' g' Hj HI HI' HG [H1 H2]. split; [by eapply (stable_sat i A [] a true j w g)|]. intros k t Hin.
  destruct (H2 k t Hin) as (x & c & Hk & Hsn & Hid). destruct (proj1 HG k x c) as (x' & c' & Hk' & Hl); [by rewrite (HL k t Hin)|done|]. exists x', c'. destruct (Hl t Hsn) as [? ?]. auto.
Qed.

Lemma at_after_nil {A} i A0 a (p : prog (world X) A) Q : rg R i p (at_after i A0 a []) Q -> rg R i p (at_ i A0 [] a true) Q.
Proof. intros H. eapply rg_pre; [|exact H]. intros w g _ HP. split; [exact HP|]. intros k t Hin. by apply not_elem_of_nil in Hin. Qed.

Lemma after_at {A} i A0 a L (p : prog (world X) A) Q : rg R i p (at_ i A0 [] a true) Q -> rg R i p (at_after i A0 a L) Q.
Proof. intros H. eapply rg_pre; [|exact H]. by intros w g _ [? _]. Qed.

(** A party looks whether its source is ready. *)
Lemma src_look {A B} i k t (f : X -> option Waker -> X * option Waker * B) (q : B -> prog (world X) A) A0 a L Q :
  (forall x, sane t x) -> (k < N)%nat -> owner k = i -> owns i L ->
  (forall x c, let '(x', c', r) := f x c in x' = x /\ c' = c /\
     (idle t x = false -> rg R i (q r) (at_after i A0 a ((k, t) :: L)) Q) /\
     (idle t x = true -> (k, t) ∉ L -> rg R i (q r) (at_after i A0 a L) Q)) ->
  rg R i (bind (section k f) q) (at_after i A0 a L) Q.
Proof.
  intros Hsn Hk Ho HL H. apply src_section; [done|]. intros w g x c HI [(Hg & Ha & Hf) Hkn] Hs. specialize (H x c). destruct (f x c) as [[x' c'] r].
  destruct H as (-> & -> & H1 & H2). assert (Ew : set_sources (<[k := (x, c)]> (sources w)) w = w).
  { rewrite list_insert_id by done. by destruct w. }
  destruct (quiet_step w g i k x c x HI Hs) as [I1 I2]; [done|]. rewrite Ew in I1, I2.
  destruct (idle t x) eqn:E.
  - exists g, (at_after i A0 a L). cbv zeta. rewrite Ew. splits; [done|done|split; [by splits|done]|by apply stable_after|]. apply H2; [done|]. intros Hin.
    destruct (Hkn k t Hin) as (y & d & Hy & _ & Hid). rewrite Hs in Hy. injection Hy as -> ->. congruence.
  - exists g, (at_after i A0 a ((k, t) :: L)). cbv zeta. rewrite Ew. splits; [done|done| | |by apply H1].
    + split; [by splits|]. intros k2 t2 Hin. apply elem_of_cons in Hin as [Hin|Hin]; [|by apply Hkn]. injection Hin as -> ->. by exists x, c.
    + apply stable_after. intros k2 t2 Hin. apply elem_of_cons in Hin as [Hin|Hin]; [by injection Hin as -> ->|by apply (HL k2 t2)].
Qed.

(** A party uses its source, or finds it ready and leaves it. *)
Lemma src_own_or_ready {A B} i k t (f : X -> option Waker -> X * option Waker * B) (q : B -> prog (world X) A) A0 a Q :
  (forall x, sane t x) -> (i < n)%nat -> owner k = i -> (k < N)%nat ->
  (forall x c,
     (exists r, f x c = (x, c, r) /\ idle t x = false /\ rg R i (q r) (at_after i A0 a [(k, t)]) Q) \/
     (let '(x', c', r) := f x c in exists A' fr', own_change i k A0 A' true fr' c c' x' /\ rg R i (q r) (at_ i A' [] a fr') Q)) ->
  rg R i (bind (section k f) q) (at_ i A0 [] a true) Q.
Proof.
  intros Hsn Hi Ho Hk H. apply src_section; [done|]. intros w g x c HI HP Hs. destruct (H x c) as [(r & -> & Hid & Hq)|H'].
  - exists g, (at_after i A0 a [(k, t)]). cbv zeta. assert (Ew : set_sources (<[k := (x, c)]> (sources w)) w = w) by (rewrite (list_insert_id _ _ _ Hs); by destruct w).
    destruct (quiet_step w g i k x c x HI Hs) as [I1 I2]; [done|]. rewrite Ew in *. splits; [done|done| | |exact Hq].
    + split; [exact HP|]. intros k2 t2 Hin%list_elem_of_singleton. injection Hin as -> ->. by exists x, c.
    + apply stable_after. intros k2 t2 Hin%list_elem_of_singleton. by injection Hin as -> ->.
  - destruct (f x c) as [[x' c'] r]. destruct H' as (A' & fr' & Hch & Hq). exists (<[i := SPl A' [] []]> g), (at_ i A' [] a fr'). intros w'.
    destruct (own_at w g i k x c x' c' A0 [] A' [] a true fr' HI Hi Ho Hs HP Hch) as [H1 H2]. splits; [apply H1|apply H1|exact H2|apply stable_sat|exact Hq].
Qed.

(** After the callback, what it was attached for has happened. *)
Lemma src_awaitCallback {A} i k t (q : unit -> prog (world X) A) Q :
  (i < n)%nat -> kd i = KCallback -> (k < N)%nat -> settled t -> rg R i (q tt) (at_after i [] [k] [(k, t)]) Q ->
  rg R i (bind (awaitCallback (me i)) q) (at_ i [(k, t)] [] [k] false) Q.
Proof.
  intros Hi Hkd Hk Hset Hq. assert (Hat : (k, t) ∈ [(k, t)]) by left. split.
  - intros w g HI (Hg & Ha & _) E. simpl in E. unfold may_wait. simpl. unfold smay_wait. rewrite Hg, Ha.
    splits; [done| |done|]. { by destruct (tokens w i). } intros k2 ->%list_elem_of_singleton. by exists t.
  - intros w g w' [] HI HP Hin. simpl in Hin. destruct (tokens w i) eqn:Et; [|by apply not_elem_of_nil in Hin]. apply list_elem_of_singleton in Hin. injection Hin as ->.
    destruct (forget_at w g i _ [] [] [] [k] false true HI Hi HP) as ([H1 H2] & (H3 & H4 & _) & H5); [by intros e He%not_elem_of_nil|]. pose proof (si_once w g HI i Hi Hkd) as Ho.
    destruct (source_there w g k HI Hk) as (x & c & Hs). destruct HP as (Hg & _ & _). rewrite Et in H5. simpl in H5.
    destruct (si_due w g HI i k t Hi) as [_ Hd]; [left; by rewrite Hg|]. destruct (Hd x c Hs) as [Hsn [->|Hid]].
    { unfold refs in Ho. rewrite Et in Ho. pose proof (lsum_elem (fun s => waits i s.2) (sources w) _ (list_elem_of_lookup_2 _ _ _ Hs)) as Hle. simpl in Hle.
      assert (waits i (Some (me i)) = 1)%nat by (by apply waits_eq). lia. }
    eexists _, (at_after i [] [k] [(k, t)]). splits; [exact H1|exact H2| | |exact Hq].
    + split; [split; [exact H3|]; split; [exact H4|]|].
      * intros _ _. simpl. lia.
      * intros k2 t2 Hin%list_elem_of_singleton. injection Hin as -> ->. exists x, c. done.
    + apply stable_after. intros k2 t2 Hin%list_elem_of_singleton. injection Hin as -> ->.
      destruct (si_att w g HI i k t Hi) as [E _]; [by rewrite Hg|done].
Qed.

Lemma src_asks {A} i A0 p a ks fr (q : unit -> prog (world X) A) Q :
  (i < n)%nat -> rg R i (q tt) (at_ i A0 p ks fr) Q -> rg R i (bind (asks (me i) ks) q) (at_ i A0 p a fr) Q.
Proof.
  intros Hi Hq. apply rg_store. intros w g HI (Hg & Ha & Hf).
  destruct (forget_step w g i A0 [] A0 [] p false (set_asked i ks w) HI Hi Hg) as (H1 & H2 & H3); [done|by intros e He%not_elem_of_nil|done|done|intros u Hu; simpl; by rewrite fn_lookup_insert_ne|done|].
  eexists _, (at_ i A0 p ks fr). splits; [exact H1|exact H2| |apply stable_sat|exact Hq]. split; [apply fn_lookup_insert|]. split; [simpl; apply fn_lookup_insert|].
  intros Hft Hkd. specialize (Hf Hft Hkd). simpl in H3. simpl. lia.
Qed.

Lemma src_stop {A} i A0 p a fr (q : unit -> prog (world X) A) Q :
  rg R i (q tt) (at_ i A0 p a fr) Q -> rg R i (bind (store (set_stopping true)) q) (at_ i A0 p a fr) Q.
Proof.
  intros Hq. apply rg_store. intros w g [] HP. exists g, (at_ i A0 p a fr). splits; [done| |exact HP|apply stable_sat|exact Hq]. split; [by apply lasts_same|done].
Qed.

(** *** Attaching *)

Section attach.
Context `{!EventSource X} (t0 : T) (Hready : forall x, idle t0 x = negb (isReady x)) (Hsane : forall x, sane t0 x) (Hset : settled t0).

Lemma src_attach {A} i k A0 a (q : bool -> prog (world X) A) Q :
  (i < n)%nat -> owner k = i -> (k < N)%nat -> kd i <> KCallback ->
  rg R i (q true) (at_ i ((k, t0) :: filter (fun e => e.1 <> k) A0) [] a true) Q -> rg R i (q false) (at_ i (filter (fun e => e.1 <> k) A0) [] a true) Q ->
  rg R i (bind (attach k (me i)) q) (at_ i A0 [] a true) Q.
Proof.
  intros Hi Ho Hk Hkd Hq1 Hq2. apply src_own; [done|done|done|]. intros x c. rewrite attach_law. destruct (isReady x) eqn:Er.
  - eexists _, true. split; [|exact Hq2]. split; [by left| |done]. intros k2 t Hin. left. apply list_elem_of_filter in Hin as [? ?]. done.
  - eexists _, true. split; [|exact Hq1]. split; [right; right; by split| |done]. intros k2 t Hin. apply elem_of_cons in Hin as [Hin|Hin].
    + injection Hin as -> ->. right. by rewrite Hready, Er.
    + left. apply list_elem_of_filter in Hin as [? ?]. done.
Qed.

Lemma src_detach {A} i k A0 a (q : unit -> prog (world X) A) Q :
  (i < n)%nat -> owner k = i -> (k < N)%nat ->
  rg R i (q tt) (at_ i (filter (fun e => e.1 <> k) A0) [] a true) Q -> rg R i (bind (detach k (me i)) q) (at_ i A0 [] a true) Q.
Proof.
  intros Hi Ho Hk Hq. apply src_own; [done|done|done|]. intros x c. rewrite detach_law. case_decide as E; (eexists _, true; split; [|exact Hq]; split).
  - by right; left.
  - intros k2 t Hin. left. apply list_elem_of_filter in Hin as [? ?]. done.
  - intros _ _. right. done.
  - by left.
  - intros k2 t Hin. left. apply list_elem_of_filter in Hin as [? ?]. done.
  - intros _ _. left. split; [done|by left].
Qed.

(** A callback waiter takes itself back, or finds that it has been taken. *)
Lemma src_cancel {A} i k f a (q : bool -> prog (world X) A) Q :
  (forall x c, (f x c = (x, None, true) /\ c = Some (me i)) \/ f x c = (x, c, false)) ->
  (i < n)%nat -> owner k = i -> (k < N)%nat ->
  rg R i (q true) (at_ i [] [] a true) Q -> rg R i (q false) (at_ i [(k, t0)] [] a false) Q ->
  rg R i (bind (section k f) q) (at_ i [(k, t0)] [] a false) Q.
Proof.
  intros Hf Hi Ho Hk Hq1 Hq2. apply src_section; [done|]. intros w g x c HI (Hg & Ha & Hfr) Hs. destruct (Hf x c) as [[-> ->]| ->].
  - exists (<[i := SPl [] [] []]> g), (at_ i [] [] a true). intros w'.
    assert (sinv w' (<[i := SPl [] [] []]> g) /\ sguar i (w, g) (w', <[i := SPl [] [] []]> g)) as [H1 H2].
    { eapply (src_own_step w g i k x _ x None); try done; [by right; left|by intros ? ? ?%not_elem_of_nil|by intros ? ? [?%not_elem_of_nil|?%not_elem_of_nil]]. }
    splits; [done|done| |apply stable_sat|exact Hq1]. split; [apply fn_lookup_insert|]. split; [done|]. intros _ Hkd.
    pose proof (refs_source i w g k x (Some (me i)) x None Hs) as R1. pose proof (refs_pl i w' g i (SPl [] [] []) Hi) as R2. rewrite Hg in R2. simpl in R2. fold w' in R1.
    pose proof (si_once w g HI i Hi Hkd). assert (waits i None = 0)%nat by done. assert (waits i (Some (me i)) = 1)%nat by (by apply waits_eq). lia.
  - exists g, (at_ i [(k, t0)] [] a false). intros w'. destruct (quiet_step w g i k x c x HI Hs) as [H1 H2]; [done|].
    splits; [exact H1|exact H2| |apply stable_sat|exact Hq2]. by split.
Qed.

(** *** Select *)

Definition mine (i : nat) (k : nat) : Prop := (k < N)%nat /\ owner k = i.

Lemma owns_flags i ks : Forall (mine i) ks -> owns i ((fun k => (k, t0)) <$> ks).
Proof. intros Hks k t Hin. apply list_elem_of_fmap in Hin as (k' & [= -> ->] & Hin). rewrite list.Forall_forall in Hks. by apply Hks. Qed.

(** What the flags say has happened. *)
Definition flagged (ks : list nat) (l : list bool) : list (nat * T) := (fun p => (p.1, t0)) <$> filter (fun p : nat * bool => p.2 = true) (zip ks l).

Lemma owns_app i L1 L2 : owns i L1 -> owns i L2 -> owns i (L1 ++ L2).
Proof. intros H1 H2 k t [Hin|Hin]%elem_of_app; eauto. Qed.

Lemma owns_flagged i ks l : Forall (mine i) ks -> owns i (flagged ks l).
Proof.
  intros Hks k t Hin. unfold flagged in Hin. apply list_elem_of_fmap in Hin as ([k' b] & [= -> ->] & Hin). apply list_elem_of_filter in Hin as [_ Hin].
  apply elem_of_zip_l in Hin. rewrite list.Forall_forall in Hks. by apply Hks.
Qed.

Lemma rg_ready_flags {A} i ks A0 a L (q : list bool -> prog (world X) A) Q :
  Forall (mine i) ks -> owns i L -> (forall l, length l = length ks -> rg R i (q l) (at_after i A0 a (flagged ks l ++ L)) Q) ->
  rg R i (bind (ready_flags ks) q) (at_after i A0 a L) Q.
Proof.
  intros Hks HL. revert L HL q. induction Hks as [|k ks [Hk Ho] _ IH]; intros L HL q Hq; cbn [ready_flags]; [by apply (Hq [])|].
  apply rg_bind_assoc, (src_look i k t0); [apply Hsane|done|done|done|]. intros x c. splits; [done|done| |].
  - rewrite Hready. intros Hr%negb_false_iff. rewrite Hr. apply rg_bind_assoc, IH.
    + intros k2 t2 [Hin|Hin]%elem_of_cons; [by injection Hin as -> ->|by apply (HL k2 t2)].
    + intros l Hl. eapply rg_pre; [|apply (Hq (true :: l)); simpl; by rewrite Hl]. intros w g _ [H1 H2]. split; [exact H1|]. intros k2 t2 Hin. apply H2. unfold flagged in *. simpl in Hin.
      apply elem_of_cons in Hin as [Hin|[Hin|Hin]%elem_of_app]; apply elem_of_app; rewrite elem_of_cons; [by right; left|by left|by right; right].
  - rewrite Hready. intros Hr%negb_true_iff _. rewrite Hr. apply rg_bind_assoc, IH; [done|]. intros l Hl. apply (Hq (false :: l)). simpl. by rewrite Hl.
Qed.

(** The index that [firstReady] returns is that of a source that is ready. *)
Definition chosen (ks : list nat) (r : option nat) : list (nat * T) := match r with Some j => (fun k => (k, t0)) <$> option_list (ks !! j) | None => [] end.

Lemma owns_chosen i ks r : Forall (mine i) ks -> owns i (chosen ks r).
Proof.
  intros Hks k t Hin. destruct r as [j|]; [|by apply not_elem_of_nil in Hin]. simpl in Hin. destruct (ks !! j) as [k'|] eqn:E; [|by apply not_elem_of_nil in Hin].
  apply list_elem_of_singleton in Hin. injection Hin as -> ->. by destruct (Forall_lookup_1 _ _ _ _ Hks E).
Qed.

Lemma rg_firstReady {A} i ks A0 a (q : option nat -> prog (world X) A) Q :
  Forall (mine i) ks -> (forall r, (forall j, r = Some j -> (j < length ks)%nat) -> rg R i (q r) (at_after i A0 a (chosen ks r)) Q) ->
  rg R i (bind (firstReady ks) q) (at_ i A0 [] a true) Q.
Proof.
  intros Hks Hq. unfold firstReady. apply rg_bind_assoc, at_after_nil, rg_ready_flags; [done|by intros k t Hin%not_elem_of_nil|]. intros l Hl.
  eapply rg_pre; [|apply Hq].
  - intros w g _ [H1 H2]. split; [exact H1|]. intros k t Hin. apply H2. rewrite app_nil_r. unfold chosen in Hin.
    destruct (list_find _ l) as [[j b]|] eqn:E; [|by apply not_elem_of_nil in Hin]. simpl in Hin. apply list_find_Some in E as (Hj & -> & _).
    destruct (ks !! j) as [k'|] eqn:Ek; [|by apply not_elem_of_nil in Hin]. apply list_elem_of_singleton in Hin. injection Hin as -> ->.
    unfold flagged. apply list_elem_of_fmap. exists (k', true). split; [done|]. apply list_elem_of_filter. split; [done|]. apply (list_elem_of_lookup_2 _ j).
    apply lookup_zip_Some. done.
  - intros j Hj. destruct (list_find _ l) as [[j' b]|] eqn:E; [|done]. injection Hj as <-. apply list_find_Some in E as (Hj & _). apply lookup_lt_Some in Hj. lia.
Qed.

Lemma rg_attach_flags {A} i ks A0 a (q : list bool -> prog (world X) A) Q :
  (i < n)%nat -> kd i <> KCallback -> Forall (mine i) ks ->
  (forall l A', (forallb id l = true -> forall k, k ∈ ks \/ (exists t, (k, t) ∈ A0 /\ settled t) -> exists t, (k, t) ∈ A' /\ settled t) -> rg R i (q l) (at_ i A' [] a true) Q) ->
  rg R i (bind (attach_flags (me i) ks) q) (at_ i A0 [] a true) Q.
Proof.
  intros Hi Hkd Hks. revert A0 q. induction Hks as [|k ks [Hk Ho] _ IH]; intros A0 q Hq; cbn [attach_flags].
  - apply (Hq []). intros _ k [Hin|Hin]; [by apply not_elem_of_nil in Hin|done].
  - apply rg_bind_assoc, src_attach; [done|done|done|done| |].
    + apply rg_bind_assoc, IH. intros l A' HA'. apply (Hq (true :: l)). intros Hl k2 Hk2. apply HA'; [done|].
      destruct (decide (k2 = k)) as [->|Hne]; [right; exists t0; split; [left|done]|]. destruct Hk2 as [Hin|(t & Hin & Ht)].
      * apply elem_of_cons in Hin as [->|Hin]; [done|by left].
      * right. exists t. split; [|done]. right. by apply list_elem_of_filter.
    + apply rg_bind_assoc, IH. intros l A' HA'. by apply (Hq (false :: l)).
Qed.

(** Detaching leaves what is in the sources. *)
Lemma src_detach_after {A} i k A0 a L (q : unit -> prog (world X) A) Q :
  (i < n)%nat -> owner k = i -> (k < N)%nat -> owns i L ->
  (forall A', rg R i (q tt) (at_after i A' a L) Q) -> rg R i (bind (detach k (me i)) q) (at_after i A0 a L) Q.
Proof.
  intros Hi Ho Hk HL Hq. apply src_section; [done|]. intros w g x c HI [(Hg & Ha & Hf) Hkn] Hs. rewrite detach_law.
  assert (Hd : exists c', (c' = c \/ c' = None) /\ (if decide (c = Some (me i)) then (x, None, tt) else (x, c, tt)) = (x, c', tt)) by (case_decide; [exists None|exists c]; auto).
  destruct Hd as (c' & Hc' & ->). set (A' := filter (fun e => e.1 <> k) A0). exists (<[i := SPl A' [] []]> g), (at_after i A' a L). intros w'.
  assert (HA' : forall k2 t, (k2, t) ∈ A' -> k2 <> k /\ (k2, t) ∈ A0) by (by intros k2 t [? ?]%list_elem_of_filter).
  destruct (src_own_step w g i k x c x c' A0 [] A' [] [] HI Hi Ho Hs Hg) as [H1 H2];
    [destruct Hc' as [->| ->]; auto|intros k2 t Hin; left; auto|intros k2 t [Hin|Hin%not_elem_of_nil]; [left; split; [by apply HA' in Hin as [? _]|left; by apply HA' in Hin as [_ ?]]|done]|].
  splits; [done|done| |by apply stable_after|apply Hq]. split; [split; [apply fn_lookup_insert|split; [done|]]|].
  - intros _ Hkd. specialize (Hf eq_refl Hkd). pose proof (refs_source i w g k x c x c' Hs) as R1. pose proof (refs_pl i w' g i (SPl A' [] []) Hi) as R2. rewrite Hg in R2. simpl in R2. fold w' in R1.
    assert (waits i None = 0)%nat by done. destruct Hc' as [->| ->]; lia.
  - intros k2 t Hin. destruct (Hkn k2 t Hin) as (y & d & Hy & Hid). destruct (decide (k2 = k)) as [->|Hne].
    + exists x, c'. simpl. rewrite list_lookup_insert_eq by (by eapply lookup_lt_Some). rewrite Hs in Hy. injection Hy as -> ->. done.
    + exists y, d. simpl. by rewrite list_lookup_insert_ne.
Qed.

Lemma rg_detachAll {A} i ks A0 a L (q : unit -> prog (world X) A) Q :
  (i < n)%nat -> Forall (mine i) ks -> owns i L -> (forall A', rg R i (q tt) (at_after i A' a L) Q) ->
  rg R i (bind (detachAll (me i) ks) q) (at_after i A0 a L) Q.
Proof.
  intros Hi Hks HL. revert A0. induction Hks as [|k ks [Hk Ho] _ IH]; intros A0 Hq; cbn [detachAll]; [apply Hq|].
  apply rg_bind_assoc, src_detach_after; [done|done|done|done|]. intros A'. by apply IH.
Qed.

Lemma rg_detachAll_at {A} i ks A0 a (q : unit -> prog (world X) A) Q :
  (i < n)%nat -> Forall (mine i) ks -> (forall A', rg R i (q tt) (at_ i A' [] a true) Q) -> rg R i (bind (detachAll (me i) ks) q) (at_ i A0 [] a true) Q.
Proof. intros Hi Hks Hq. apply at_after_nil, rg_detachAll; [done|done|by intros k t Hin%not_elem_of_nil|]. intros A'. by apply after_at. Qed.

(** What [select] returns. *)
Definition selected (r : ended (option nat)) : option nat := match r with Returned r => r | Gone => None end.

Lemma rg_select {A} i fuel d ks (q : ended (option nat) -> prog (world X) A) Q : forall A0 a,
  (i < n)%nat -> kd i <> KCallback -> Forall (mine i) ks -> ks <> [] ->
  (forall r A' a', (forall j, selected r = Some j -> (j < length ks)%nat) -> rg R i (q r) (at_after i A' a' (chosen ks (selected r))) Q) ->
  rg R i (bind (selectImpl fuel d (me i) ks) q) (at_ i A0 [] a true) Q.
Proof.
  intros A0 a Hi Hkd Hks Hne Hq. revert A0 a. induction fuel as [|fuel IH]; intros A0 a; [done|]. cbn [selectImpl].
  apply rg_bind_assoc, rg_firstReady; [done|]. intros [r|] Hr; [by apply (Hq (Returned (Some r)))|]. apply after_at, rg_bind_assoc, src_asks; [done|].
  apply rg_bind_assoc. unfold attachAll. apply rg_bind_assoc, rg_attach_flags; [done|done|done|]. intros l A' HA'. cbn [bind].
  destruct (forallb id l) eqn:El; [|apply rg_bind_assoc, rg_detachAll_at; [done|done|]; intros A2; apply IH].
  assert (Hafter : forall r, rg R i (bind (match r with TimedOut => f <- firstReady ks;; detachAll (me i) ks;;; Ret (Returned f) | Woken => detachAll (me i) ks;;; selectImpl fuel d (me i) ks
    | Unwound => detachAll (me i) ks;;; Ret Gone end) q) (at_ i [] [] ks true) Q).
  { intros [| |].
    - apply rg_bind_assoc, rg_detachAll_at; [done|done|]. intros A2. apply IH.
    - apply rg_bind_assoc, rg_firstReady; [done|]. intros f Hf. apply rg_bind_assoc, rg_detachAll; [done|done|by apply owns_chosen|]. intros A2. by apply (Hq (Returned f)).
    - apply rg_bind_assoc, rg_detachAll_at; [done|done|]. intros A2. apply at_after_nil. by apply (Hq Gone). }
  apply rg_bind_assoc. destruct d; [by apply src_blockUntil|]. apply src_block; [done| |exact Hafter]. split; [done|]. intros k Hk. apply HA'; [done|by left].
Qed.
End attach.

(** ** Pools *)

Definition done_ok (i : nat) (_ : unit) : asrt (world X) (nat -> spl T) :=
  fun w g => pend (g i) = [] /\ (kd i = KCallback -> refs i w g = 0%nat).

Lemma sinv_start (xs : list X) : length xs = N -> sinv (World ((fun x => (x, None)) <$> xs) (fun _ => false) false (fun _ => []) false) (fun _ => SPl [] [] []).
Proof.
  intros Hl. split; simpl.
  - by rewrite length_fmap.
  - intros i k t _ Hin. by apply not_elem_of_nil in Hin.
  - intros k x m Hk. rewrite list_lookup_fmap in Hk. apply fmap_Some in Hk as (y & _ & E). discriminate E.
  - intros j m _ Hin. by apply not_elem_of_nil in Hin.
  - intros i _ _. unfold refs. simpl. rewrite lsum_zero; [rewrite total_zero; [lia|done]|]. intros s Hs. apply list_elem_of_fmap in Hs as (y & -> & _). done.
  - intros i k t _ [Hin|Hin]; by apply not_elem_of_nil in Hin.
  - done.
Qed.

(** When nobody can move, a party that has not returned is attached to all that
    it asked for, and nothing of that has happened. *)
Lemma sources_halted_at (ts : list (prog (world X) unit)) w g :
  length ts = n -> sinv w g ->
  (forall i Y f k, ts !! i = Some (Act Y f k) -> f w = [] -> smay_wait i w g) ->
  (forall i, ts !! i = Some (Ret tt) -> done_ok i tt w g) ->
  (forall i th, ts !! i = Some th -> halted w th) ->
  forall i th, ts !! i = Some th -> th <> Ret tt ->
  asked w i <> [] /\ forall k, k ∈ asked w i -> exists x t, sources w !! k = Some (x, Some (me i)) /\ idle t x = true /\ sane t x /\ settled t.
Proof.
  intros Hlen HI Hw HQ Hh i th Hi Hne.
  assert (Hpend : forall j, (j < n)%nat -> pend (g j) = []).
  { intros j Hj. destruct (lookup_lt_is_Some_2 ts j) as [p Hp]; [lia|]. destruct (Hh j p Hp) as [->|(Y & f & q & -> & Hf)]; [by destruct (HQ j Hp)|].
    by destruct (Hw j Y f q Hp Hf) as [? _]. }
  destruct (Hh i th Hi) as [->|(Y & f & q & -> & Hf)]; [done|]. destruct (Hw i Y f q Hi Hf) as (_ & Ht & Hask & Hcov). split; [done|]. intros k Hk.
  destruct (Hcov k Hk) as (t & Hin & Hset). pose proof (lookup_lt_Some _ _ _ Hi) as Hlt. rewrite Hlen in Hlt.
  destruct (si_att w g HI i k t Hlt Hin) as [_ [(x & Hx & Hid)|[Htk|(j & Hj & E)]]]; [|congruence|].
  - exists x, t. destruct (si_due w g HI i k t Hlt) as [_ Hd]; [by left|]. by destruct (Hd x _ Hx).
  - rewrite Hpend in E by done. by apply not_elem_of_nil in E.
Qed.

Lemma sources_halted (ts : list (prog (world X) unit)) w :
  length ts = n -> pool_ok R done_ok (ts, w) -> (forall i th, ts !! i = Some th -> halted w th) ->
  forall i th, ts !! i = Some th -> th <> Ret tt ->
  asked w i <> [] /\ forall k, k ∈ asked w i -> exists x t, sources w !! k = Some (x, Some (me i)) /\ idle t x = true.
Proof.
  intros Hlen Hok Hh i th Hi Hne. destruct (pool_ok_waits _ _ _ _ Hok) as (g & HI & Hw & HQ).
  destruct (sources_halted_at ts w g Hlen HI Hw (fun i => HQ i tt) Hh i th Hi Hne) as [Hask Hall]. split; [done|]. intros k Hk.
  destruct (Hall k Hk) as (x & t & Hx & Hid & _). by exists x, t.
Qed.
End proof.
