(* ===== verification/SourceKnow.v ===== *)
(** * Source: what a party is sure of

    The rules of SourceSpec.v for parties that rely on facts about the state of
    their sources which the others cannot undo: [L k t] lists what is known to be
    [sane] at source [k]. *)

From Stdlib Require Import ZArith Lia.
From stdpp Require Import base tactics list numbers option strings functions.
From S2P Require Import Prelude Conc Sums Source SourceSpec.

Section know.
Context {X T : Type} `{!Settled T} (idle : T -> X -> bool) (sane : T -> X -> Prop) (owner : nat -> nat) (kd : nat -> Kind) (n N : nat).
Notation R := (sproto idle sane owner kd n N).
Abbreviation me := (me kd).

Definition known (i : nat) (L : nat -> T -> Prop) (w : world X) : Prop :=
  forall k x c t, owner k = i -> sources w !! k = Some (x, c) -> L k t -> sane t x.

Definition at_sure (i : nat) (A H : list (nat * T)) (a : list nat) (fr : bool) (L : nat -> T -> Prop) : asrt (world X) (nat -> spl T) :=
  fun w g => at_hook kd n i A H [] a fr w g /\ known i L w.

Lemma stable_sure i A H a fr L : stable R i (at_sure i A H a fr L).
Proof.
  intros j w g w' g' Hj HI HI' HG [H1 H2]. split; [by eapply (stable_hook idle sane owner kd n N i A H [] a fr j w g)|].
  intros k x' c' t Ho Hk HL. destruct (source_there idle sane owner kd n N w g k HI) as (x & c & Hs).
  { rewrite <- (si_len _ _ _ _ _ _ _ _ HI'). by eapply lookup_lt_Some. }
  destruct (proj1 HG k x c) as (y & d & Hy & Hl); [congruence|done|]. simpl in Hy. rewrite Hk in Hy. injection Hy as <- <-. apply Hl. by eapply H2.
Qed.

Lemma sure_weaken {B} i A H a fr L L' (p : prog (world X) B) Q :
  (forall k t, L' k t -> L k t) -> rg R i p (at_sure i A H a fr L') Q -> rg R i p (at_sure i A H a fr L) Q.
Proof. intros HL. apply rg_pre. intros w g _ [? HK]. split; [done|]. intros k x c t Ho Hs Ht. eapply HK; eauto. Qed.

Lemma at_sure_intro i A H a fr w g : at_hook kd n i A H [] a fr w g -> at_sure i A H a fr (fun _ _ => False) w g.
Proof. intros HP. split; [done|]. by intros k x c t _ _ []. Qed.

(** A party uses its own source; what it knew of the others it still knows. *)
Lemma sure_own {B C} i k (f : X -> option Waker -> X * option Waker * C) (q : C -> prog (world X) B) A H a fr L Q :
  (i < n)%nat -> owner k = i -> (k < N)%nat ->
  (forall x c, (forall t, L k t -> sane t x) -> let '(x', c', r) := f x c in exists A' fr' L',
     own_change idle sane kd i k A A' fr fr' c c' x' /\ (forall t, L' k t -> sane t x') /\ (forall k2 t, k2 <> k -> L' k2 t -> L k2 t) /\
     rg R i (q r) (at_sure i A' [] a fr' L') Q) ->
  rg R i (bind (section k f) q) (at_sure i A H a fr L) Q.
Proof.
  intros Hi Ho Hk Hf. apply src_section; [done|]. intros w g x c HI [HP HK] Hs.
  specialize (Hf x c (fun t => HK k x c t Ho Hs)). destruct (f x c) as [[x' c'] r]. destruct Hf as (A' & fr' & L' & Hch & HL1 & HL2 & Hq).
  exists (<[i := SPl A' [] []]> g), (at_sure i A' [] a fr' L'). intros w'.
  destruct (own_at idle sane owner kd n N w g i k x c x' c' A H A' [] a fr fr' HI Hi Ho Hs HP Hch) as [H1 H2].
  splits; [apply H1|apply H1| |apply stable_sure|exact Hq]. split; [exact H2|]. intros k2 y d t Ho2 Hy Ht. simpl in Hy.
  destruct (decide (k2 = k)) as [->|Hne].
  - rewrite list_lookup_insert_eq in Hy by (by eapply lookup_lt_Some). injection Hy as <- <-. by apply HL1.
  - rewrite list_lookup_insert_ne in Hy by done. eapply HK; eauto.
Qed.

(** It looks at it. *)
Lemma sure_peek {B C} i k (f : X -> C) (q : C -> prog (world X) B) A H a fr L Q :
  (i < n)%nat -> owner k = i -> (k < N)%nat ->
  (forall x, (forall t, L k t -> sane t x) -> exists L', (forall t, L' k t -> sane t x) /\ (forall k2 t, k2 <> k -> L' k2 t -> L k2 t) /\
     rg R i (q (f x)) (at_sure i [] [] a fr L') Q) ->
  rg R i (bind (peek k f) q) (at_sure i A H a fr L) Q.
Proof.
  intros Hi Ho Hk Hf. apply sure_own; [done..|]. intros x c HL. destruct (Hf x HL) as (L' & H1 & H2 & H3). exists [], fr, L'. splits; [|done..].
  split; [by left|by intros k2 t ?%not_elem_of_nil|]. intros ->. left. split; [done|by left].
Qed.

Lemma forget_sure w g i A H H' a fr L (b : bool) :
  sinv idle sane owner kd n N w g -> (i < n)%nat -> at_sure i A H a fr L w g -> (forall e, e ∈ H' -> held (SPl A H []) e) ->
  let w' := if b then set_token i false w else w in
  let g' := <[i := SPl [] H' []]> g in
  (sinv idle sane owner kd n N w' g' /\ sguar idle sane owner kd n i (w, g) (w', g')) /\ at_sure i [] H' a fr L w' g'.
Proof.
  intros HI Hi [HP HK] HH w' g'. destruct (forget_at idle sane owner kd n N w g i A H H' [] a fr b HI Hi HP HH) as (H1 & H2 & _).
  split; [done|]. split; [done|]. subst w'. by destruct b.
Qed.

Lemma sure_block {B} i A H H' a L (q : blocked -> prog (world X) B) Q :
  (i < n)%nat -> covers A a -> (forall e, e ∈ H' -> e ∈ A \/ e ∈ H) -> (forall r, rg R i (q r) (at_sure i [] H' a true L) Q) ->
  rg R i (bind (block (me i)) q) (at_sure i A H a true L) Q.
Proof.
  intros Hi [Hne Hcov] HH Hq. split.
  - intros w g HI [(Hg & Ha & _) _] E. simpl in E. apply app_eq_nil in E as [E _]. rewrite <- Ha in Hne, Hcov. unfold may_wait. simpl. unfold smay_wait. rewrite Hg.
    splits; [done| |done|exact Hcov]. by destruct (tokens w i).
  - intros w g w' r HI HP Hin. simpl in Hin. assert (exists b : bool, w' = if b then set_token i false w else w) as [b ->].
    { apply elem_of_app in Hin as [Hin|Hin]; [destruct (tokens w i)|destruct (bool_decide _ && stopping w)]; try (by apply not_elem_of_nil in Hin);
        apply list_elem_of_singleton in Hin; injection Hin as -> _; [by exists true|by exists false]. }
    destruct (forget_sure w g i A H H' a true L b HI Hi HP HH) as ([H1 H2] & H3). eexists _, (at_sure i [] H' a true L). splits; [exact H1|exact H2|exact H3|apply stable_sure|apply Hq].
Qed.

Lemma sure_blockUntil {B} i A H H' a L (q : blocked -> prog (world X) B) Q :
  (i < n)%nat -> (forall e, e ∈ H' -> e ∈ A \/ e ∈ H) -> (forall r, rg R i (q r) (at_sure i [] H' a true L) Q) ->
  rg R i (bind (blockUntil (me i)) q) (at_sure i A H a true L) Q.
Proof.
  intros Hi HH Hq. split; [done|].
  intros w g w' r HI HP Hin. simpl in Hin. assert (exists b : bool, w' = if b then set_token i false w else w) as [b ->].
  { apply elem_of_cons in Hin as [Hin|Hin]; [injection Hin as -> _; by exists false|]. apply elem_of_cons in Hin as [Hin|Hin]; [injection Hin as -> _; by exists true|].
    apply elem_of_app in Hin as [Hin|Hin]; [destruct (tokens w i)|destruct (bool_decide _ && stopping w)]; try (by apply not_elem_of_nil in Hin);
      apply list_elem_of_singleton in Hin; injection Hin as -> _; [by exists true|by exists false]. }
  destruct (forget_sure w g i A H H' a true L b HI Hi HP HH) as ([H1 H2] & H3). eexists _, (at_sure i [] H' a true L). splits; [exact H1|exact H2|exact H3|apply stable_sure|apply Hq].
Qed.

(** A call begins: what the last one left behind does not matter. *)
Lemma sure_asks {B} i A H a ks fr L (q : unit -> prog (world X) B) Q :
  (i < n)%nat -> rg R i (q tt) (at_sure i [] [] ks fr L) Q -> rg R i (bind (asks (me i) ks) q) (at_sure i A H a fr L) Q.
Proof.
  intros Hi Hq. apply rg_store. intros w g HI [(Hg & Ha & Hf) HK].
  destruct (forget_step idle sane owner kd n N w g i A H [] [] [] false (set_asked i ks w) HI Hi Hg) as (H1 & H2 & H3); [by intros e He%not_elem_of_nil|by intros e He%not_elem_of_nil|done|done|intros u Hu; simpl; by rewrite fn_lookup_insert_ne|done|].
  eexists _, (at_sure i [] [] ks fr L). splits; [exact H1|exact H2| |apply stable_sure|exact Hq]. split; [|exact HK]. split; [apply fn_lookup_insert|]. split; [simpl; apply fn_lookup_insert|].
  intros Hft Hkd. specialize (Hf Hft Hkd). simpl in H3. simpl. lia.
Qed.

(** A party that has stored its waker looks at its source: what it waits for has
    happened, or it is attached. *)
Definition hooked (e : nat * T) (A H : list (nat * T)) : Prop := (A = [e] /\ H = []) \/ (A = [] /\ H = [e]).

Lemma sure_look {B C} i k t (f : X -> C) (q : C -> prog (world X) B) A H a L Q :
  (i < n)%nat -> (k < N)%nat -> hooked (k, t) A H ->
  (forall x, sane t x -> idle t x = false -> (forall u, L k u -> sane u x) -> exists L', (forall u, L' k u -> sane u x) /\ (forall k2 u, k2 <> k -> L' k2 u -> L k2 u) /\
     rg R i (q (f x)) (at_sure i A H a true L') Q) ->
  (forall x, idle t x = true -> rg R i (q (f x)) (at_sure i [(k, t)] [] a true L) Q) ->
  rg R i (bind (peek k f) q) (at_sure i A H a true L) Q.
Proof.
  intros Hi Hk Hh H1 H2. apply src_section; [done|]. intros w g x c HI [HP HK] Hs.
  pose proof HP as (Hg & Ha & Hf). destruct (si_due _ _ _ _ _ _ w g HI i k t Hi) as [Ho Hd]; [rewrite Hg; destruct Hh as [[-> ->]|[-> ->]]; [left|right]; left|].
  destruct (Hd x c Hs) as [Hsn Hor].
  assert (Ew : set_sources (<[k := (x, c)]> (sources w)) w = w) by (rewrite (list_insert_id _ _ _ Hs); by destruct w).
  destruct (idle t x) eqn:E.
  - destruct Hor as [Hc|Hc]; [|congruence]. exists (<[i := SPl [(k, t)] [] []]> g), (at_sure i [(k, t)] [] a true L). intros w'.
    destruct (src_own_step idle sane owner kd n N w g i k x c x c A H [(k, t)] [] [] HI Hi Ho Hs Hg) as [I1 I2]; [by left| | |].
    + intros k2 t2 Hin%list_elem_of_singleton. injection Hin as -> ->. by right.
    + intros k2 t2 [Hin%list_elem_of_singleton|Hin%not_elem_of_nil]; [|done]. injection Hin as -> ->. right. by splits; [| |left].
    + splits; [done|done| |apply stable_sure|by apply H2]. subst w'. rewrite Ew in *. split; [|done]. split; [apply fn_lookup_insert|]. split; [done|]. intros _ Hkd. specialize (Hf eq_refl Hkd).
      pose proof (refs_pl kd n i w g i (SPl [(k, t)] [] []) Hi) as R2. rewrite Hg in R2. simpl in R2. lia.
  - destruct (H1 x Hsn E (fun u => HK k x c u Ho Hs)) as (L' & HL1 & HL2 & Hq). exists g, (at_sure i A H a true L'). cbv zeta.
    destruct (quiet_step idle sane owner kd n N w g i k x c x HI Hs) as [I1 I2]; [done|]. rewrite Ew in *. splits; [done|done| |apply stable_sure|exact Hq].
    split; [done|]. intros k2 y d u Ho2 Hy Hu. destruct (decide (k2 = k)) as [->|Hne]; [rewrite Hs in Hy; injection Hy as <- <-; by apply HL1|by eapply HK; eauto].
Qed.

(** A party that has stored its waker changes its source, and waits for [t'] from
    then on. *)
Lemma sure_retag {B C} i k t t' (f : X -> X) (r : C) (q : C -> prog (world X) B) A H a L Q :
  (i < n)%nat -> (k < N)%nat -> hooked (k, t) A H ->
  (forall x, sane t x -> (forall u, L k u -> sane u x) -> sane t' (f x) /\ idle t' (f x) = idle t x /\ forall u, L k u -> sane u (f x)) ->
  rg R i (q r) (at_sure i [] [(k, t')] a true L) Q ->
  rg R i (bind (section k (fun x c => (f x, c, r))) q) (at_sure i A H a true L) Q.
Proof.
  intros Hi Hk Hh Hf Hq. apply src_section; [done|]. intros w g x c HI [HP HK] Hs. pose proof HP as (Hg & Ha & Hfr).
  destruct (si_due _ _ _ _ _ _ w g HI i k t Hi) as [Ho Hd]; [rewrite Hg; destruct Hh as [[-> ->]|[-> ->]]; [left|right]; left|].
  destruct (Hd x c Hs) as [Hsn Hor]. destruct (Hf x Hsn (fun u => HK k x c u Ho Hs)) as (Hs' & Hid & HL).
  exists (<[i := SPl [] [(k, t')] []]> g), (at_sure i [] [(k, t')] a true L). intros w'.
  destruct (src_own_step idle sane owner kd n N w g i k x c (f x) c A H [] [(k, t')] [] HI Hi Ho Hs Hg) as [I1 I2]; [by left|by intros k2 t2 ?%not_elem_of_nil| |].
  { intros k2 t2 [Hin%not_elem_of_nil|Hin%list_elem_of_singleton]; [done|]. injection Hin as -> ->. right. splits; [done|done|]. rewrite Hid. exact Hor. }
  splits; [done|done| |apply stable_sure|exact Hq]. split.
  - split; [apply fn_lookup_insert|]. split; [done|]. intros Hft Hkd. specialize (Hfr Hft Hkd).
    pose proof (refs_source kd n i w g k x c (f x) c Hs) as R1. pose proof (refs_pl kd n i w' g i (SPl [] [(k, t')] []) Hi) as R2. rewrite Hg in R2. simpl in R2. fold w' in R1. lia.
  - intros k2 y d u Ho2 Hy Hu. simpl in Hy. destruct (decide (k2 = k)) as [->|Hne].
    + rewrite list_lookup_insert_eq in Hy by (by eapply lookup_lt_Some). injection Hy as <- <-. by apply HL.
    + rewrite list_lookup_insert_ne in Hy by done. by eapply HK; eauto.
Qed.

(** *** Callbacks *)

(** After the callback, what it was attached for has happened. *)
Lemma sure_awaitCallback {B} i k t (q : unit -> prog (world X) B) L L' Q :
  (i < n)%nat -> kd i = KCallback -> (k < N)%nat -> settled t ->
  (forall x u, sane t x -> idle t x = false -> (forall u', L k u' -> sane u' x) -> L' k u -> sane u x) -> (forall k2 u, k2 <> k -> L' k2 u -> L k2 u) ->
  rg R i (q tt) (at_sure i [] [] [k] true L') Q ->
  rg R i (bind (awaitCallback (me i)) q) (at_sure i [(k, t)] [] [k] false L) Q.
Proof.
  intros Hi Hkd Hk Hset HL1 HL2 Hq. split.
  - intros w g HI [(Hg & Ha & _) _] E. simpl in E. unfold may_wait. simpl. unfold smay_wait. rewrite Hg, Ha.
    splits; [done| |done|]. { by destruct (tokens w i). } intros k2 ->%list_elem_of_singleton. exists t. split; [left|done].
  - intros w g w' [] HI [HP HK] Hin. simpl in Hin. destruct (tokens w i) eqn:Et; [|by apply not_elem_of_nil in Hin]. apply list_elem_of_singleton in Hin. injection Hin as ->.
    destruct (forget_at idle sane owner kd n N w g i _ [] [] [] [k] false true HI Hi HP) as ([H1 H2] & (H3 & H4 & _) & H5); [by intros e He%not_elem_of_nil|].
    pose proof (si_once _ _ _ _ _ _ w g HI i Hi Hkd) as Ho. destruct HP as (Hg & _ & _). rewrite Et in H5. simpl in H5.
    eexists _, (at_sure i [] [] [k] true L'). splits; [exact H1|exact H2| |apply stable_sure|exact Hq].
    split; [split; [exact H3|]; split; [exact H4|]; intros _ _; simpl; lia|]. intros k2 y d u Ho2 Hy Hu. simpl in Hy.
    destruct (decide (k2 = k)) as [->|Hne]; [|by eapply HK; eauto].
    destruct (si_due _ _ _ _ _ _ w g HI i k t Hi) as [_ Hd]; [left; rewrite Hg; left|]. destruct (Hd y d Hy) as [Hsn [->|Hid]]; [|eapply HL1; [done..| |done]; intros u' Hu'; by eapply HK; eauto].
    exfalso. unfold refs in Ho. rewrite Et in Ho. pose proof (lsum_elem (fun s => waits kd i s.2) (sources w) _ (list_elem_of_lookup_2 _ _ _ Hy)) as Hle. simpl in Hle.
    assert (waits kd i (Some (me i)) = 1)%nat by (by apply waits_eq). lia.
Qed.

(** A callback waiter takes itself back, or finds that it has been taken. *)
Lemma sure_cancel {B} i k t f a (q : bool -> prog (world X) B) L Q :
  (forall x c, (f x c = (x, None, true) /\ c = Some (me i)) \/ f x c = (x, c, false)) ->
  (i < n)%nat -> owner k = i -> (k < N)%nat ->
  rg R i (q true) (at_sure i [] [] a true L) Q -> rg R i (q false) (at_sure i [(k, t)] [] a false L) Q ->
  rg R i (bind (section k f) q) (at_sure i [(k, t)] [] a false L) Q.
Proof.
  intros Hf Hi Ho Hk Hq1 Hq2. apply src_section; [done|]. intros w g x c HI [HP HK] Hs.
  assert (HK2 : forall c', known i L (set_sources (<[k := (x, c')]> (sources w)) w)).
  { intros c' k2 y d u Ho2 Hy Hu. simpl in Hy. destruct (decide (k2 = k)) as [->|Hne].
    - rewrite list_lookup_insert_eq in Hy by (by eapply lookup_lt_Some). injection Hy as <- <-. by eapply HK; eauto.
    - rewrite list_lookup_insert_ne in Hy by done. by eapply HK; eauto. }
  destruct (Hf x c) as [[-> ->]| ->].
  - exists (<[i := SPl [] [] []]> g), (at_sure i [] [] a true L). intros w'.
    destruct (own_at idle sane owner kd n N w g i k x (Some (me i)) x None [(k, t)] [] [] [] a false true HI Hi Ho Hs HP) as [H1 H2].
    { split; [by right; left|by intros k2 u ?%not_elem_of_nil|]. intros _ _. by right. }
    splits; [apply H1|apply H1| |apply stable_sure|exact Hq1]. split; [exact H2|apply HK2].
  - exists g, (at_sure i [(k, t)] [] a false L). intros w'. destruct (quiet_step idle sane owner kd n N w g i k x c x HI Hs) as [H1 H2]; [done|].
    splits; [exact H1|exact H2| |apply stable_sure|exact Hq2]. split; [|apply HK2]. subst w'. rewrite (list_insert_id _ _ _ Hs). by destruct w.
Qed.
End know.
