(* ===== verification/Completion.v ===== *)
(** * Completion: a one-shot result

    sync/Completion.h.  The state sits behind a spin lock and stores the waiting
    party's [Waker] by value (Source.v); whoever wins [claim] writes the outcome
    outside the lock and then publishes it.

    [winner] and [got] are histories: what the party that won the claim brings, and
    what the calls of [get] that found the completion ready returned, in order. *)

From Stdlib Require Import ZArith Lia.
From stdpp Require Import base tactics list numbers option strings functions.
From S2P Require Import Prelude Conc Source.

(** [std::error_code] (0: no error) and [std::exception_ptr] *)
Record Outcome (V : Type) := MkOutcome { value : V; error : Z; exception : option Z }.
Arguments MkOutcome {V} value error exception.
Arguments value {V} o.
Arguments error {V} o.
Arguments exception {V} o.

(** [explicit operator bool] *)
Definition succeeded {V} (o : Outcome V) : bool := bool_decide (error o = 0%Z) && bool_decide (exception o = None).

(** [std::errc::timed_out] *)
Definition timed_out : Z := 110%Z.

Record CompletionState (V : Type) := MkCompletion {
  claimed : bool;
  ready : bool;
  outcome : Outcome V;
  winner : option (nat * Outcome V);
  got : list (Outcome V)
}.
Arguments MkCompletion {V} claimed ready outcome winner got.
Arguments claimed {V} c.
Arguments ready {V} c.
Arguments outcome {V} c.
Arguments winner {V} c.
Arguments got {V} c.

Section completion.
Context {V : Type} (dflt : V).

(** [Outcome<T> outcome] and [T value{}] *)
Definition new_outcome : Outcome V := MkOutcome dflt 0 None.
Definition new : CompletionState V := MkCompletion false false new_outcome None [].

Definition set_ready (s : CompletionState V) := MkCompletion (claimed s) true (outcome s) (winner s) (got s).
Definition set_outcome (f : Outcome V -> Outcome V) (s : CompletionState V) :=
  MkCompletion (claimed s) (ready s) (f (outcome s)) (winner s) (got s).

Definition with_value (v : V) (o : Outcome V) : Outcome V := MkOutcome v (error o) (exception o).
Definition with_error (e : Z) (o : Outcome V) : Outcome V := MkOutcome (value o) e (exception o).
Definition with_exception (e : Z) (o : Outcome V) : Outcome V := MkOutcome (value o) (error o) (Some e).

(** The pieces that run under the lock. *)
Definition attach_locked (me : Waker) (s : CompletionState V) (consumer : option Waker) :=
  if ready s then (s, consumer, false) else (s, Some me, true).

Definition detach_locked (me : Waker) (s : CompletionState V) (consumer : option Waker) :=
  if decide (consumer = Some me) then (s, None, tt) else (s, consumer, tt).

Definition attachOrReady_locked (me : Waker) (cancelled : bool) (s : CompletionState V) (consumer : option Waker) :=
  if ready s then (s, consumer, Ready)
  else if cancelled then (s, consumer, Cancelled)
  else (s, Some me, Enqueued).

(** When false, the waiter's [cancelled] flag is set. *)
Definition cancel_locked (me : Waker) (s : CompletionState V) (consumer : option Waker) :=
  if decide (consumer = Some me) then (s, None, true) else (s, consumer, false).

#[global] Instance completion_source : EventSource (CompletionState V).
Proof. refine {| isReady := ready; attachLocked := attach_locked; detachLocked := detach_locked |}; reflexivity. Defined.

(** ** Programs *)

Context {X : Type} `{!Part X (CompletionState V)}.

(** [std::move(state->outcome)]: what is returned and what stays behind.
    [left_behind] is what the move constructor of [V] leaves; the void
    specialisation copies. *)
Definition moved (left_behind : V -> V) (o : Outcome V) : Outcome V := MkOutcome (left_behind (value o)) (error o) None.
Definition copied (o : Outcome V) : Outcome V := o.

(** The first [set] or [fail] wins; [o] is what party [i] brings. *)
Definition claim (i k : nat) (o : Outcome V) : prog (world X) bool :=
  within k false (fun s c =>
    (MkCompletion true (ready s) (outcome s) (if claimed s then winner s else Some (i, o)) (got s), c, negb (claimed s))).

Definition write_outcome (k : nat) (f : Outcome V -> Outcome V) : prog (world X) unit :=
  within k tt (fun s c => (set_outcome f s, c, tt)).

Definition publish (k : nat) : prog (world X) unit :=
  toWake <- within k None (fun s c => (set_ready s, None, c));;
  wake toWake.

Definition deliver (i k : nat) (f : Outcome V -> Outcome V) : prog (world X) unit :=
  ok <- claim i k (f new_outcome);;
  if ok : bool then (write_outcome k f;;; publish k) else Ret tt.

Definition set (i k : nat) (v : V) : prog (world X) unit := deliver i k (with_value v).
Definition fail (i k : nat) (e : Z) : prog (world X) unit := deliver i k (with_error e).
Definition setException (i k : nat) (e : Z) : prog (world X) unit := deliver i k (with_exception e).
(** [Completion<void>::set] writes nothing. *)
Definition set_void (i k : nat) : prog (world X) unit :=
  ok <- claim i k new_outcome;;
  if ok : bool then publish k else Ret tt.

Definition isReady_at (k : nat) : prog (world X) bool := within k true (fun s c => (s, c, ready s)).
Definition attach_at (k : nat) (me : Waker) : prog (world X) bool := within k false (attach_locked me).
Definition detach_at (k : nat) (me : Waker) : prog (world X) unit := within k tt (detach_locked me).
Definition attachOrReady (k : nat) (me : Waker) (cancelled : bool) : prog (world X) EnqueueResult :=
  within k Cancelled (attachOrReady_locked me cancelled).
Definition cancel (k : nat) (me : Waker) : prog (world X) bool := within k false (cancel_locked me).

(** [return std::move(state->outcome)] ([stay := moved _]) or
    [return state->outcome] ([stay := copied]) *)
Definition take_outcome (stay : Outcome V -> Outcome V) (k : nat) : prog (world X) (Outcome V) :=
  within k new_outcome (fun s c =>
    (MkCompletion (claimed s) (ready s) (stay (outcome s)) (winner s) (got s ++ [outcome s]), c, outcome s)).

(** [while (state->attach(waiter)) waiter.block();] *)
Fixpoint get_loop (fuel k : nat) (me : Waker) : prog (world X) (ended unit) :=
  match fuel with
  | O => Starved
  | S fuel' =>
      a <- attach_at k me;;
      if a : bool then
        r <- block me;;
        match r with
        | Unwound => Ret Gone
        | _ => get_loop fuel' k me
        end
      else Ret (Returned tt)
  end.

Definition get (stay : Outcome V -> Outcome V) (fuel k : nat) (me : Waker) : prog (world X) (ended (Outcome V)) :=
  ok <- isReady_at k;;
  if ok : bool then (o <- take_outcome stay k;; Ret (Returned o))
  else
    asks me [k];;;
    r <- get_loop fuel k me;;
    detach_at k me;;;
    match r with
    | Gone => Ret Gone
    | Returned _ => o <- take_outcome stay k;; Ret (Returned o)
    end.

(** [while (state->attach(waiter)) if (not waiter.blockUntil(deadline)) break;] *)
Fixpoint getUntil_loop (fuel k : nat) (me : Waker) : prog (world X) (ended unit) :=
  match fuel with
  | O => Starved
  | S fuel' =>
      a <- attach_at k me;;
      if a : bool then
        r <- blockUntil me;;
        match r with
        | Unwound => Ret Gone
        | TimedOut => Ret (Returned tt)
        | Woken => getUntil_loop fuel' k me
        end
      else Ret (Returned tt)
  end.

(** When the time is up and nothing was published the caller gets [timed_out]. *)
Definition getUntil (stay : Outcome V -> Outcome V) (fuel k : nat) (me : Waker) : prog (world X) (ended (Outcome V)) :=
  ok <- isReady_at k;;
  if ok : bool then (o <- take_outcome stay k;; Ret (Returned o))
  else
    asks me [k];;;
    r <- getUntil_loop fuel k me;;
    match r with
    | Gone => detach_at k me;;; Ret Gone
    | Returned _ =>
        ok <- isReady_at k;;
        detach_at k me;;;
        if ok : bool then (o <- take_outcome stay k;; Ret (Returned o))
        else Ret (Returned (with_error timed_out new_outcome))
    end.

(** A callback waiter: [early] if it is cancelled before it is attached, [late] if
    its owner tries to take it back.  "Once Ready, or after the callback, get()
    returns at once": otherwise something went wrong. *)
Definition get_ready (stay : Outcome V -> Outcome V) (k : nat) : prog (world X) unit :=
  ok <- isReady_at k;;
  if ok : bool then (take_outcome stay k;;; Ret tt) else store set_wrong.

Definition get_callback (stay : Outcome V -> Outcome V) (k : nat) (me : Waker) (early late : bool) : prog (world X) unit :=
  was <- (if early then cancel k me else Ret false);;
  r <- attachOrReady k me (early && negb was);;
  match r with
  | Ready => get_ready stay k
  | Cancelled => Ret tt
  | Enqueued =>
      asks me [k];;;
      undone <- (if late then cancel k me else Ret false);;
      if undone : bool then Ret tt
      else (awaitCallback me;;; get_ready stay k)
  end.
End completion.
