(* ===== verification/Stream.v ===== *)
(** * Stream: a bounded stream that drops

    sync/Stream.h.  A ring of [capacity] slots behind a spin lock; [push] never
    blocks and drops an item according to the policy when the ring is full; the
    one consumer's [Waker] is stored by value (Source.v).

    - A slot is [Some v] while it holds an object.  [broken] records that an object
      was destroyed or moved from where there was none, or constructed over a
      living one (undefined behaviour in C++).
    - [accepted], [received], [overwritten] and [refused] are histories: the values
      that went into the ring, those the consumer got, how many were dropped as
      the oldest, and how many [push] turned away. *)

From Stdlib Require Import ZArith Lia.
From stdpp Require Import base tactics list numbers option strings functions.
From S2P Require Import Prelude Conc Source.

Inductive Overflow := DropOldest | DropNewest.
#[global] Instance Overflow_eq_dec : EqDecision Overflow.
Proof. solve_decision. Defined.

Inductive TransferResult (V : Type) := TDone (v : V) | TClosed | TWouldBlock | TEnqueued | TCancelled.
Arguments TDone {V} v.
Arguments TClosed {V}.
Arguments TWouldBlock {V}.
Arguments TEnqueued {V}.
Arguments TCancelled {V}.

Record Stream (V : Type) := MkStream {
  capacity : nat;
  policy : Overflow;
  slots : list (option V);
  head : nat;
  count : nat;
  closed : bool;
  droppedCount : nat;
  broken : bool;
  accepted : list V;
  received : list V;
  overwritten : nat;
  refused : nat
}.
Arguments MkStream {V} capacity policy slots head count closed droppedCount broken accepted received overwritten refused.
Arguments capacity {V} s.
Arguments policy {V} s.
Arguments slots {V} s.
Arguments head {V} s.
Arguments count {V} s.
Arguments closed {V} s.
Arguments droppedCount {V} s.
Arguments broken {V} s.
Arguments accepted {V} s.
Arguments received {V} s.
Arguments overwritten {V} s.
Arguments refused {V} s.

(** What is taken, and what stays. *)
Definition takeConsumerLocked (consumer : option Waker) : option Waker * option Waker := (consumer, None).

(** One turn of [next]: an item, the end, or attached. *)
Inductive turn (R : Type) := Item (r : R) | End | Attached.
Arguments Item {R} r.
Arguments End {R}.
Arguments Attached {R}.

Section stream.
Context {V : Type} (dflt : V).

(** The constructor; [None] is the failed check. *)
Definition Stream_new (capacity_ : nat) (policy_ : Overflow) : option (Stream V) :=
  if (1 <=? capacity_)%nat
  then Some (MkStream capacity_ policy_ (replicate capacity_ None) 0 0 false 0 false [] [] 0 0)
  else None.
Definition Latest_new : option (Stream V) := Stream_new 1 DropOldest.

(** The object in slot [index]; its absence is noted. *)
Definition slotAt (s : Stream V) (index : nat) : option V := mjoin (slots s !! index).

(** The object at [head] ends, and [head] moves on. *)
Definition advance (s : Stream V) : Stream V :=
  MkStream (capacity s) (policy s) (<[head s := None]> (slots s)) ((head s + 1) `mod` capacity s) (count s - 1) (closed s) (droppedCount s)
    (broken s || bool_decide (slotAt s (head s) = None)) (accepted s) (received s) (overwritten s) (refused s).

(** The destructor's loop. *)
Fixpoint destroy_loop (fuel : nat) (s : Stream V) : option (Stream V) :=
  match count s, fuel with
  | O, _ => Some s
  | _, O => None
  | _, S fuel' => destroy_loop fuel' (advance s)
  end.

(** [slotAt(head)->~T()] for [DropOldest] *)
Definition drop_oldest (s : Stream V) : Stream V :=
  let s' := advance s in
  MkStream (capacity s') (policy s') (slots s') (head s') (count s') (closed s') (S (droppedCount s')) (broken s') (accepted s') (received s')
    (S (overwritten s')) (refused s').

(** Placement new at the back. *)
Definition construct (v : V) (s : Stream V) : Stream V :=
  let back := ((head s + count s) `mod` capacity s)%nat in
  MkStream (capacity s) (policy s) (<[back := Some v]> (slots s)) (head s) (S (count s)) (closed s) (droppedCount s)
    (broken s || bool_decide (slotAt s back <> None)) (accepted s ++ [v]) (received s) (overwritten s) (refused s).

Definition refuse (s : Stream V) : Stream V :=
  MkStream (capacity s) (policy s) (slots s) (head s) (count s) (closed s) (droppedCount s) (broken s) (accepted s) (received s) (overwritten s) (S (refused s)).
Definition count_dropped (s : Stream V) : Stream V :=
  MkStream (capacity s) (policy s) (slots s) (head s) (count s) (closed s) (S (droppedCount s)) (broken s) (accepted s) (received s) (overwritten s) (refused s).
Definition set_closed (s : Stream V) : Stream V :=
  MkStream (capacity s) (policy s) (slots s) (head s) (count s) true (droppedCount s) (broken s) (accepted s) (received s) (overwritten s) (refused s).

Definition popLocked (s : Stream V) : Stream V * V :=
  let v := default dflt (slotAt s (head s)) in
  let s' := advance s in
  (MkStream (capacity s') (policy s') (slots s') (head s') (count s') (closed s') (droppedCount s') (broken s') (accepted s') (received s' ++ [v])
     (overwritten s') (refused s'), v).

(** [push] under the lock: false if the value was turned away. *)
Definition push_locked (v : V) (s : Stream V) : Stream V * bool :=
  if closed s || (bool_decide (count s = capacity s) && bool_decide (policy s = DropNewest)) then (refuse s, false)
  else
    let s1 := if decide (count s = capacity s) then drop_oldest s else s in
    (construct v s1, true).

Definition isReady_locked (s : Stream V) : bool := negb (count s =? 0)%nat || closed s.

Definition stream_attach (me : Waker) (s : Stream V) (consumer : option Waker) :=
  if isReady_locked s then (s, consumer, false) else (s, Some me, true).
Definition stream_detach (me : Waker) (s : Stream V) (consumer : option Waker) :=
  if decide (consumer = Some me) then (s, None, tt) else (s, consumer, tt).
(** When false, the waiter's [cancelled] flag is set. *)
Definition stream_cancel (me : Waker) (s : Stream V) (consumer : option Waker) :=
  if decide (consumer = Some me) then (s, None, true) else (s, consumer, false).

#[global] Instance stream_source : EventSource (Stream V).
Proof. refine {| isReady := isReady_locked; attachLocked := stream_attach; detachLocked := stream_detach |}; reflexivity. Defined.

Definition tryNext_locked (s : Stream V) (consumer : option Waker) :=
  if (count s =? 0)%nat then (s, consumer, None) else let '(s', v) := popLocked s in (s', consumer, Some v).

Definition next_locked (me : Waker) (s : Stream V) (consumer : option Waker) : Stream V * option Waker * turn V :=
  if (count s =? 0)%nat then
    if closed s then (s, consumer, End) else (s, Some me, Attached)
  else let '(s', v) := popLocked s in (s', consumer, Item v).

Definition nextOrAttach_locked (waiter : option (Waker * bool)) (s : Stream V) (consumer : option Waker) : Stream V * option Waker * TransferResult V :=
  if (count s =? 0)%nat then
    if closed s then (s, consumer, TClosed)
    else
      match waiter with
      | None => (s, consumer, TWouldBlock)
      | Some (me, cancelled) => if cancelled : bool then (s, consumer, TCancelled) else (s, Some me, TEnqueued)
      end
  else let '(s', v) := popLocked s in (s', consumer, TDone v).

(** ** Programs *)

Context {X : Type} `{!Part X (Stream V)}.

Definition push (k : nat) (v : V) : prog (world X) unit :=
  r <- within k (None, true) (fun s c =>
         let '(s', ok) := push_locked v s in
         if ok : bool then let '(toWake, c') := takeConsumerLocked c in (s', c', (toWake, true))
         else (s', c, (None, false)));;
  if r.2 : bool then wake r.1 else within k tt (fun s c => (count_dropped s, c, tt)).

Definition close (k : nat) : prog (world X) unit :=
  toWake <- within k None (fun s c => let '(toWake, c') := takeConsumerLocked c in (set_closed s, c', toWake));;
  wake toWake.

Definition tryNext (k : nat) : prog (world X) (option V) := within k None tryNext_locked.
Definition stream_detach_at (k : nat) (me : Waker) : prog (world X) unit := within k tt (stream_detach me).

(** [Returned None]: closed and drained. *)
Fixpoint next_loop (fuel k : nat) (me : Waker) : prog (world X) (ended (option V)) :=
  match fuel with
  | O => Starved
  | S fuel' =>
      t <- within k End (next_locked me);;
      match t with
      | Item v => Ret (Returned (Some v))
      | End => Ret (Returned None)
      | Attached =>
          r <- block me;;
          match r with
          | Unwound => Ret Gone
          | _ => next_loop fuel' k me
          end
      end
  end.
Definition next (fuel k : nat) (me : Waker) : prog (world X) (ended (option V)) :=
  asks me [k];;;
  r <- next_loop fuel k me;;
  stream_detach_at k me;;;
  Ret r.

Fixpoint nextUntil_loop (fuel k : nat) (me : Waker) : prog (world X) (ended (option V)) :=
  match fuel with
  | O => Starved
  | S fuel' =>
      t <- within k End (next_locked me);;
      match t with
      | Item v => Ret (Returned (Some v))
      | End => Ret (Returned None)
      | Attached =>
          r <- blockUntil me;;
          match r with
          | Unwound => Ret Gone
          | TimedOut => o <- tryNext k;; Ret (Returned o)
          | Woken => nextUntil_loop fuel' k me
          end
      end
  end.
Definition nextUntil (fuel k : nat) (me : Waker) : prog (world X) (ended (option V)) :=
  asks me [k];;;
  r <- nextUntil_loop fuel k me;;
  stream_detach_at k me;;;
  Ret r.

Definition nextOrAttach (k : nat) (waiter : option (Waker * bool)) : prog (world X) (TransferResult V) :=
  within k TClosed (nextOrAttach_locked waiter).
Definition stream_cancel_at (k : nat) (me : Waker) : prog (world X) bool := within k false (stream_cancel me).

(** A callback waiter: [early] if it is cancelled before it is attached, [late] if
    its owner tries to take it back; after the callback it tries again. *)
Fixpoint next_callback (fuel k : nat) (me : Waker) (early late : bool) : prog (world X) unit :=
  match fuel with
  | O => Starved
  | S fuel' =>
      was <- (if early then stream_cancel_at k me else Ret false);;
      r <- nextOrAttach k (Some (me, early && negb was));;
      match r with
      | TEnqueued =>
          asks me [k];;;
          undone <- (if late then stream_cancel_at k me else Ret false);;
          if undone : bool then Ret tt
          else (awaitCallback me;;; next_callback fuel' k me early late)
      | _ => Ret tt
      end
  end.
End stream.
