(* ===== verification/Mailbox.v ===== *)
(** * Mailbox: closures for one task

    sync/Mailbox.h.  An unbounded queue behind a spin lock.  Unlike the other
    sources, [post] and [close] leave the consumer's [Waker] in place: the consumer
    clears it when it leaves, and a second wake-up of a task or thread does no
    harm.  (A callback never waits here.)

    A closure is a value [f]; calling it is recorded.  [popped] and [ran] are
    histories: the closures taken out of the queue and those called; [posted]
    those put in. *)

From Stdlib Require Import ZArith Lia.
From stdpp Require Import base tactics list numbers option strings functions.
From S2P Require Import Prelude Conc Source Stream.

Record Mailbox (F : Type) := MkMailbox { queue : list F; mclosed : bool; posted : list F; popped : list F; ran : list F }.
Arguments MkMailbox {F} queue mclosed posted popped ran.
Arguments queue {F} m.
Arguments mclosed {F} m.
Arguments posted {F} m.
Arguments popped {F} m.
Arguments ran {F} m.

Section mailbox.
Context {F : Type}.

Definition Mailbox_new : Mailbox F := MkMailbox [] false [] [] [].

Definition mailbox_isReady (m : Mailbox F) : bool := match queue m with [] => mclosed m | _ :: _ => true end.
Definition mailbox_attach (me : Waker) (m : Mailbox F) (consumer : option Waker) :=
  if mailbox_isReady m then (m, consumer, false) else (m, Some me, true).
Definition mailbox_detach (me : Waker) (m : Mailbox F) (consumer : option Waker) :=
  if decide (consumer = Some me) then (m, None, tt) else (m, consumer, tt).

#[global] Instance mailbox_source : EventSource (Mailbox F).
Proof. refine {| isReady := mailbox_isReady; attachLocked := mailbox_attach; detachLocked := mailbox_detach |}; reflexivity. Defined.

Definition post_locked (f : F) (m : Mailbox F) (consumer : option Waker) : Mailbox F * option Waker * option Waker :=
  if mclosed m then (m, consumer, None)
  else (MkMailbox (queue m ++ [f]) (mclosed m) (posted m ++ [f]) (popped m) (ran m), consumer, consumer).

Definition pop_front (m : Mailbox F) (f : F) (q : list F) : Mailbox F := MkMailbox q (mclosed m) (posted m) (popped m ++ [f]) (ran m).

(** One turn of [next]. *)
Definition mailbox_next_locked (me : Waker) (m : Mailbox F) (consumer : option Waker) : Mailbox F * option Waker * turn F :=
  match queue m with
  | f :: q => (pop_front m f q, consumer, Item f)
  | [] => if mclosed m then (m, consumer, End) else (m, Some me, Attached)
  end.
(** After a timeout. *)
Definition mailbox_tryNext (m : Mailbox F) (consumer : option Waker) : Mailbox F * option Waker * option F :=
  match queue m with
  | f :: q => (pop_front m f q, consumer, Some f)
  | [] => (m, consumer, None)
  end.

(** ** Programs *)

Context {X : Type} `{!Part X (Mailbox F)}.

(** The wake-up is inside the lock; nothing that the others do in between depends
    on that. *)
Definition post (k : nat) (f : F) : prog (world X) unit :=
  toWake <- within k None (post_locked f);;
  wake toWake.

Definition mailbox_close (k : nat) : prog (world X) unit :=
  toWake <- within k None (fun m c => (MkMailbox (queue m) true (posted m) (popped m) (ran m), c, c));;
  wake toWake.

Definition mailbox_detach_at (k : nat) (me : Waker) : prog (world X) unit := within k tt (mailbox_detach me).

Fixpoint mailbox_next_loop (fuel k : nat) (me : Waker) : prog (world X) (ended (option F)) :=
  match fuel with
  | O => Starved
  | S fuel' =>
      t <- within k End (mailbox_next_locked me);;
      match t with
      | Item f => Ret (Returned (Some f))
      | End => Ret (Returned None)
      | Attached =>
          r <- block me;;
          match r with
          | Unwound => Ret Gone
          | _ => mailbox_next_loop fuel' k me
          end
      end
  end.
Definition mailbox_next (fuel k : nat) (me : Waker) : prog (world X) (ended (option F)) :=
  asks me [k];;;
  r <- mailbox_next_loop fuel k me;;
  mailbox_detach_at k me;;;
  Ret r.

Fixpoint mailbox_nextUntil_loop (fuel k : nat) (me : Waker) : prog (world X) (ended (option F)) :=
  match fuel with
  | O => Starved
  | S fuel' =>
      t <- within k End (mailbox_next_locked me);;
      match t with
      | Item f => Ret (Returned (Some f))
      | End => Ret (Returned None)
      | Attached =>
          r <- blockUntil me;;
          match r with
          | Unwound => Ret Gone
          | TimedOut => o <- within k None mailbox_tryNext;; Ret (Returned o)
          | Woken => mailbox_nextUntil_loop fuel' k me
          end
      end
  end.
Definition mailbox_nextUntil (fuel k : nat) (me : Waker) : prog (world X) (ended (option F)) :=
  asks me [k];;;
  r <- mailbox_nextUntil_loop fuel k me;;
  mailbox_detach_at k me;;;
  Ret r.

(** [closure()] *)
Definition call (k : nat) (f : F) : prog (world X) unit :=
  within k tt (fun m c => (MkMailbox (queue m) (mclosed m) (posted m) (popped m) (ran m ++ [f]), c, tt)).

Definition run_closure (k : nat) (r : ended (option F)) : prog (world X) (ended bool) :=
  match r with
  | Returned (Some f) => call k f;;; Ret (Returned true)
  | Returned None => Ret (Returned false)
  | Gone => Ret Gone
  end.
Definition runOne (fuel k : nat) (me : Waker) : prog (world X) (ended bool) :=
  r <- mailbox_next fuel k me;; run_closure k r.
Definition runOneFor (fuel k : nat) (me : Waker) : prog (world X) (ended bool) :=
  r <- mailbox_nextUntil fuel k me;; run_closure k r.

(** [while (runOne()) {}] *)
Fixpoint mailbox_run (fuel k : nat) (me : Waker) : prog (world X) (ended unit) :=
  match fuel with
  | O => Starved
  | S fuel' =>
      r <- runOne fuel k me;;
      match r with
      | Returned true => mailbox_run fuel' k me
      | Returned false => Ret (Returned tt)
      | Gone => Ret Gone
      end
  end.
End mailbox.
