(* ===== verification/Sources.v ===== *)
(** * Sources: completions, streams and mailboxes together

    One world with event sources of every kind (the heterogeneous pack that
    Select.h's templates take), parties that produce and consume, and [select].

    Each source has one consumer, as the headers demand ("single consumer"). *)

From Stdlib Require Import ZArith Lia.
From stdpp Require Import base tactics list numbers option strings functions.
From S2P Require Import Prelude Conc Source Completion Stream Mailbox.

Inductive contents (V : Type) :=
  | AsCompletion (s : CompletionState V)
  | AsStream (s : Stream V)
  | AsMailbox (m : Mailbox V).
Arguments AsCompletion {V} s.
Arguments AsStream {V} s.
Arguments AsMailbox {V} m.

Section sources.
Context {V : Type}.
Notation X := (contents V).

#[global] Instance contents_completion : Part X (CompletionState V).
Proof.
  refine {| part := fun x => match x with AsCompletion s => Some s | _ => None end; whole := AsCompletion |}.
  - reflexivity.
  - by intros [s'|s'|s'] s [= ->].
Defined.
#[global] Instance contents_stream : Part X (Stream V).
Proof.
  refine {| part := fun x => match x with AsStream s => Some s | _ => None end; whole := AsStream |}.
  - reflexivity.
  - by intros [s'|s'|s'] s [= ->].
Defined.
#[global] Instance contents_mailbox : Part X (Mailbox V).
Proof.
  refine {| part := fun x => match x with AsMailbox s => Some s | _ => None end; whole := AsMailbox |}.
  - reflexivity.
  - by intros [s'|s'|s'] s [= ->].
Defined.

(** [sources.isReady()] and so on, on whatever the source is. *)
Definition contents_isReady (x : X) : bool :=
  match x with
  | AsCompletion s => isReady s
  | AsStream s => isReady s
  | AsMailbox s => isReady s
  end.
Definition contents_attach (me : Waker) (x : X) (c : option Waker) : X * option Waker * bool :=
  match x with
  | AsCompletion s => let '(s', c', r) := attachLocked me s c in (AsCompletion s', c', r)
  | AsStream s => let '(s', c', r) := attachLocked me s c in (AsStream s', c', r)
  | AsMailbox s => let '(s', c', r) := attachLocked me s c in (AsMailbox s', c', r)
  end.
Definition contents_detach (me : Waker) (x : X) (c : option Waker) : X * option Waker * unit :=
  match x with
  | AsCompletion s => let '(s', c', r) := detachLocked me s c in (AsCompletion s', c', r)
  | AsStream s => let '(s', c', r) := detachLocked me s c in (AsStream s', c', r)
  | AsMailbox s => let '(s', c', r) := detachLocked me s c in (AsMailbox s', c', r)
  end.
#[global] Instance contents_source : EventSource X.
Proof.
  refine {| isReady := contents_isReady; attachLocked := contents_attach; detachLocked := contents_detach |}.
  - intros m [s|s|s] c; unfold contents_attach, contents_isReady; rewrite attach_law; by destruct (isReady s).
  - intros m [s|s|s] c; unfold contents_detach; rewrite detach_law; by case_decide.
Defined.

(** ** What a party calls *)

Inductive src_op :=
  (* producers *)
  | OpSet (k : nat) (v : V)
  | OpFail (k : nat) (e : Z)
  | OpSetException (k : nat) (e : Z)
  | OpSignal (k : nat)
  | OpPush (k : nat) (v : V)
  | OpClose (k : nat)
  | OpPost (k : nat) (f : V)
  | OpCloseMailbox (k : nat)
  | OpStop
  (* consumers *)
  | OpGet (isVoid : bool) (k : nat)
  | OpGetUntil (isVoid : bool) (k : nat)
  | OpGetCallback (isVoid : bool) (k : nat) (early late : bool)
  | OpTryNext (k : nat)
  | OpNext (k : nat)
  | OpNextUntil (k : nat)
  | OpNextCallback (k : nat) (early late : bool)
  | OpRunOne (k : nat)
  | OpRunOneFor (k : nat)
  | OpRun (k : nat)
  | OpSelect (hasDeadline : bool) (ks : list nat).

Context (dflt : V) (left_behind : V -> V).

(** [Completion<T>] moves its outcome out, [Completion<void>] copies it. *)
Definition stay (isVoid : bool) : Outcome V -> Outcome V := if isVoid then copied else moved left_behind.

(** A task that is being unwound makes no further call. *)
Definition ends {R} (p : prog (world X) (ended R)) (rest : prog (world X) unit) : prog (world X) unit :=
  r <- p;; match r with Gone => Ret tt | Returned _ => rest end.

(** After [select], the source it names is looked at again: "select() reports
    readiness only; call the source's tryNext()/get() afterwards". *)
Definition select_op (fuel : nat) (d : bool) (me : Waker) (ks : list nat) : prog (world X) (ended unit) :=
  r <- selectImpl fuel d me ks;;
  match r with
  | Gone => Ret Gone
  | Returned None => Ret (Returned tt)
  | Returned (Some j) =>
      match ks !! j with
      | None => store set_wrong;;; Ret (Returned tt)
      | Some k => b <- peek k isReady;; (if b : bool then Ret tt else store set_wrong);;; Ret (Returned tt)
      end
  end.

Definition perform (fuel i : nat) (me : Waker) (o : src_op) (rest : prog (world X) unit) : prog (world X) unit :=
  match o with
  | OpSet k v => set dflt i k v;;; rest
  | OpFail k e => fail dflt i k e;;; rest
  | OpSetException k e => setException dflt i k e;;; rest
  | OpSignal k => set_void dflt i k;;; rest
  | OpPush k v => push k v;;; rest
  | OpClose k => close k;;; rest
  | OpPost k f => post k f;;; rest
  | OpCloseMailbox k => mailbox_close k;;; rest
  | OpStop => store (set_stopping true);;; rest
  | OpGet b k => ends (get dflt (stay b) fuel k me) rest
  | OpGetUntil b k => ends (getUntil dflt (stay b) fuel k me) rest
  | OpGetCallback b k early late => get_callback dflt (stay b) k me early late;;; rest
  | OpTryNext k => tryNext dflt k;;; rest
  | OpNext k => ends (next dflt fuel k me) rest
  | OpNextUntil k => ends (nextUntil dflt fuel k me) rest
  | OpNextCallback k early late => next_callback dflt fuel k me early late;;; rest
  | OpRunOne k => ends (runOne fuel k me) rest
  | OpRunOneFor k => ends (runOneFor fuel k me) rest
  | OpRun k => ends (mailbox_run fuel k me) rest
  | OpSelect d ks => ends (select_op fuel d me ks) rest
  end.

Fixpoint party (fuel i : nat) (me : Waker) (ops : list src_op) : prog (world X) unit :=
  match ops with
  | [] => Ret tt
  | o :: ops => perform fuel i me o (party fuel i me ops)
  end.

Definition sources_pool (fuel : nat) (kd : nat -> Kind) (xs : list X) (l : list (list src_op)) : config (world X) unit :=
  (imap (fun i ops => party fuel i (MkWaker i (kd i)) ops) l, World ((fun x => (x, None)) <$> xs) (fun _ => false) false (fun _ => []) false).
End sources.
Arguments src_op V : clear implicits.
