(* ===== verification/SourcesWait.v ===== *)
(** * Sources: nobody waits for what has happened

    The rules of SourceSpec.v, applied to every operation of Completion.v,
    Stream.v, Mailbox.v and to [select]. *)

From Stdlib Require Import ZArith Lia.
From stdpp Require Import base tactics list numbers option strings functions.
From S2P Require Import Prelude Conc Sums Source Completion Stream Mailbox Sources SourceSpec.

Definition idle {V} (_ : unit) (x : contents V) : bool := negb (isReady x).
Definition sane {V} (_ : unit) (_ : contents V) : Prop := True.

(** ** Who may call what

    A source has one consumer ([owner]); a party that is a callback waits by
    callback and does nothing else; a mailbox has no callback waiter. *)
Section fits.
Context {V : Type} (owner : nat -> nat) (kd : nat -> Kind) (N : nat).

Definition produces (i k : nat) : bool := bool_decide (kd i <> KCallback) && (k <? N)%nat.
Definition consumes (i k : nat) : bool := bool_decide (kd i <> KCallback) && (k <? N)%nat && bool_decide (owner k = i).
Definition calls_back (i k : nat) : bool := bool_decide (kd i = KCallback) && (k <? N)%nat && bool_decide (owner k = i).

Definition op_fits (i : nat) (o : src_op V) : bool :=
  match o with
  | OpSet k _ | OpFail k _ | OpSetException k _ | OpSignal k | OpPush k _ | OpClose k => produces i k
  | OpPost k _ | OpCloseMailbox k => produces i k && bool_decide (kd (owner k) <> KCallback)
  | OpStop => true
  | OpGet _ k | OpGetUntil _ k | OpTryNext k | OpNext k | OpNextUntil k | OpRunOne k | OpRunOneFor k | OpRun k => consumes i k
  | OpGetCallback _ k _ _ | OpNextCallback k _ _ => calls_back i k
  | OpSelect _ ks => bool_decide (ks <> []) && forallb (consumes i) ks
  end.

(** [l] is the list of scripts, one per party. *)
Definition scripts_fit (l : list (list (src_op V))) : bool := forallb (fun p : nat * list (src_op V) => forallb (op_fits p.1) p.2) (imap pair l).

Lemma scripts_fit_at l i ops : scripts_fit l = true -> l !! i = Some ops -> Forall (fun o => op_fits i o = true) ops.
Proof.
  unfold scripts_fit. intros H Hi. rewrite forallb_forall in H. specialize (H (i, ops)).
  assert (Hin : In (i, ops) (imap pair l)) by (apply list_elem_of_In, elem_of_lookup_imap; by exists i, ops).
  specialize (H Hin). simpl in H. rewrite forallb_forall in H. apply list.Forall_forall. intros o Ho. by apply H, list_elem_of_In.
Qed.

Lemma produces_spec i k : produces i k = true -> kd i <> KCallback /\ (k < N)%nat.
Proof. unfold produces. intros H. apply andb_true_iff in H as [H1%bool_decide_eq_true H2%Nat.ltb_lt]. done. Qed.
Lemma consumes_spec i k : consumes i k = true -> kd i <> KCallback /\ (k < N)%nat /\ owner k = i.
Proof. unfold consumes. intros H. apply andb_true_iff in H as [[H1%bool_decide_eq_true H2%Nat.ltb_lt]%andb_true_iff H3%bool_decide_eq_true]. done. Qed.
Lemma calls_back_spec i k : calls_back i k = true -> kd i = KCallback /\ (k < N)%nat /\ owner k = i.
Proof. unfold calls_back. intros H. apply andb_true_iff in H as [[H1%bool_decide_eq_true H2%Nat.ltb_lt]%andb_true_iff H3%bool_decide_eq_true]. done. Qed.
End fits.

Section wait.
Context {V : Type} (dflt : V) (left_behind : V -> V) (owner : nat -> nat) (kd : nat -> Kind) (n N : nat).
Notation X := (contents V).
Notation R := (sproto (X:=X) (T:=unit) idle sane owner kd n N).
Notation at_ := (at_ (X:=X) (T:=unit) kd n).
Notation me := (me kd).

(** ** Critical sections of a component *)

Lemma src_within_own {C B A} `{!Part X C} i k (d : B) (f : C -> option Waker -> C * option Waker * B) (q : B -> prog (world X) A) A0 p a fr Q :
  (i < n)%nat -> owner k = i -> (k < N)%nat -> rg R i (q d) (at_ i [] p a fr) Q ->
  (forall s c, let '(s', c', r) := f s c in
     exists A' fr', own_change idle sane kd i k A0 A' fr fr' c c' (whole s') /\ rg R i (q r) (at_ i A' p a fr') Q) ->
  rg R i (bind (within k d f) q) (at_ i A0 p a fr) Q.
Proof.
  intros Hi Ho Hk Hd H. apply src_own; [done|done|done|]. intros x c. destruct (part x) as [s|] eqn:E.
  - specialize (H s c). by destruct (f s c) as [[s' c'] r].
  - exists [], fr. split; [|exact Hd]. split; [by left|by intros ? ? ?%not_elem_of_nil|]. intros -> _. left. split; [done|by left].
Qed.

Lemma src_within_take {C B A} `{!Part X C} i k (d : B) (f : C -> option Waker -> C * option Waker * B) (q : B -> prog (world X) A) A0 a Q :
  (i < n)%nat -> kd i <> KCallback -> (k < N)%nat -> rg R i (q d) (at_ i A0 [] a true) Q ->
  (forall s c, let '(s', c', r) := f s c in
     ((((c' = None \/ (c' = c /\ kd (owner k) <> KCallback)) /\ isReady (whole s') = true) /\ rg R i (q r) (at_ i A0 (option_list c) a true) Q) \/
      (isReady (whole s') = isReady (whole s) /\ c' = c /\ rg R i (q r) (at_ i A0 [] a true) Q))) ->
  rg R i (bind (within k d f) q) (at_ i A0 [] a true) Q.
Proof.
  intros Hi Hkd Hk Hd H. apply src_take; [done|done|done|]. intros x c. destruct (part x) as [s|] eqn:E.
  - specialize (H s c). destruct (f s c) as [[s' c'] r]. destruct H as [[[Hc Hr] Hq]|(Hid & H)]; [left|right].
    + split; [|exact Hq]. split; [exact Hc|]. intros t. unfold idle. by rewrite Hr.
    + split; [|exact H]. intros t. unfold idle. by rewrite (whole_part x s E), Hid.
  - right. by splits.
Qed.

Lemma src_within_quiet {C B A} `{!Part X C} i k (d : B) (f : C -> option Waker -> C * option Waker * B) (q : B -> prog (world X) A) A0 p a fr Q :
  (k < N)%nat -> rg R i (q d) (at_ i A0 p a fr) Q ->
  (forall s c, let '(s', c', r) := f s c in
     c' = c /\ isReady (whole s') = isReady (whole s) /\ rg R i (q r) (at_ i A0 p a fr) Q) ->
  rg R i (bind (within k d f) q) (at_ i A0 p a fr) Q.
Proof.
  intros Hk Hd H. apply src_quiet; [done|]. intros x c. destruct (part x) as [s|] eqn:E; [|by splits].
  specialize (H s c). destruct (f s c) as [[s' c'] r]. destruct H as (-> & Hid & Hq). split; [done|]. split; [|exact Hq].
  intros t. unfold idle. by rewrite (whole_part x s E), Hid.
Qed.

Lemma own_attaches i k A c x : isReady x = false -> kd i <> KCallback ->
  own_change (idle (V:=V)) sane kd i k A ((k, tt) :: filter (fun e => e.1 <> k) A) true true c (Some (me i)) x.
Proof.
  intros Hx Hkd. split; [by right; right| |done].
  intros k2 t Hin. apply elem_of_cons in Hin as [Hin|Hin].
  - injection Hin as -> ->. right. unfold idle. by rewrite Hx.
  - left. apply list_elem_of_filter in Hin as [? ?]. done.
Qed.

Lemma own_attaches_callback i k c x : isReady x = false -> own_change (idle (V:=V)) sane kd i k [] [(k, tt)] true false c (Some (me i)) x.
Proof.
  intros Hx. split; [right; right; split; [done|by right]| |done].
  intros k2 t Hin. apply list_elem_of_singleton in Hin. injection Hin as -> ->. right. unfold idle. by rewrite Hx.
Qed.

Lemma own_none i k A fr c x : own_change (idle (V:=V)) sane kd i k A [] fr fr c c x.
Proof. split; [by left|by intros ? ? ?%not_elem_of_nil|]. intros -> _. left. split; [done|by left]. Qed.

Lemma own_detaches i k A c x : own_change (idle (V:=V)) sane kd i k A [] true true c (if decide (c = Some (me i)) then None else c) x.
Proof.
  split; [case_decide; [by right; left|by left]|by intros ? ? ?%not_elem_of_nil|].
  intros _ _. case_decide as E; [right|left; split; [done|by left]]. done.
Qed.

Lemma covers_one k A : covers (T:=unit) ((k, tt) :: A) [k].
Proof. split; [done|]. intros k2 ->%list_elem_of_singleton. exists tt. split; [left|done]. Qed.

(** ** Producers *)

Section producer.
Context {A : Type} (i k : nat) (Hi : (i < n)%nat) (Hkd : kd i <> KCallback) (Hk : (k < N)%nat).
Context (A0 : list (nat * unit)) (a : list nat) (q : unit -> prog (world X) A) (Q : A -> asrt (world X) (nat -> spl unit)).
Context (Hq : rg R i (q tt) (at_ i A0 [] a true) Q).

Lemma src_publish : rg R i (bind (publish (V:=V) k) q) (at_ i A0 [] a true) Q.
Proof.
  apply rg_bind_assoc, src_within_take; [done|done|done|exact Hq|]. intros s c. left. split; [by split; [left|]|]. by apply src_wake_last.
Qed.

Lemma src_claim o (q' : bool -> prog (world X) A) : (forall b, rg R i (q' b) (at_ i A0 [] a true) Q) -> rg R i (bind (claim i k o) q') (at_ i A0 [] a true) Q.
Proof. intros H. apply src_within_quiet; [done|apply H|]. intros s c. split; [done|]. split; [|apply H]. done. Qed.

Lemma src_deliver f : rg R i (bind (deliver dflt i k f) q) (at_ i A0 [] a true) Q.
Proof.
  apply rg_bind_assoc, src_claim. intros [|]; [|exact Hq]. apply rg_bind_assoc, src_within_quiet; [done|apply src_publish|].
  intros s c. split; [done|]. split; [|apply src_publish]. done.
Qed.

Lemma src_set_void : rg R i (bind (set_void dflt i k) q) (at_ i A0 [] a true) Q.
Proof. apply rg_bind_assoc, src_claim. intros [|]; [apply src_publish|exact Hq]. Qed.

Lemma src_push v : rg R i (bind (push k v) q) (at_ i A0 [] a true) Q.
Proof.
  assert (Hcount : rg R i (bind (within k tt (fun (s : Stream V) c => (count_dropped s, c, tt))) q) (at_ i A0 [] a true) Q).
  { apply src_within_quiet; [done|exact Hq|]. intros s c. done. }
  apply rg_bind_assoc, src_within_take; [done|done|done|exact Hq|]. intros s c. unfold push_locked. destruct (closed s || _).
  - right. split; [|by split]. done.
  - left. split; [by split; [left|]|]. by apply src_wake_last.
Qed.

Lemma src_close : rg R i (bind (close (V:=V) k) q) (at_ i A0 [] a true) Q.
Proof. apply rg_bind_assoc, src_within_take; [done|done|done|exact Hq|]. intros s c. left. split; [|by apply src_wake_last]. split; [by left|]. simpl. unfold isReady_locked. by rewrite orb_true_r. Qed.

Lemma src_post f : kd (owner k) <> KCallback -> rg R i (bind (post k f) q) (at_ i A0 [] a true) Q.
Proof.
  intros Hown. apply rg_bind_assoc, src_within_take; [done|done|done|exact Hq|]. intros s c. unfold post_locked. destruct (mclosed s); [by right; split|left].
  split; [split; [by right|]|by apply src_wake_last]. simpl. unfold mailbox_isReady. simpl. by destruct (queue s).
Qed.

Lemma src_mailbox_close : kd (owner k) <> KCallback -> rg R i (bind (mailbox_close (F:=V) k) q) (at_ i A0 [] a true) Q.
Proof. intros Hown. apply rg_bind_assoc, src_within_take; [done|done|done|exact Hq|]. intros s c. left. split; [split; [by right|]|by apply src_wake_last]. simpl. unfold mailbox_isReady. by destruct (queue s). Qed.
End producer.

(** ** Consumers *)

Section consumer.
Context {A : Type} (i k : nat) (Hi : (i < n)%nat) (Hkd : kd i <> KCallback) (Hk : (k < N)%nat) (Ho : owner k = i).
Context (Q : A -> asrt (world X) (nat -> spl unit)).

Lemma src_detach_part {C} `{!Part X C} A0 a (f : C -> option Waker -> C * option Waker * unit) (q : unit -> prog (world X) A) :
  (forall s c, f s c = (s, if decide (c = Some (me i)) then None else c, tt)) ->
  rg R i (q tt) (at_ i [] [] a true) Q -> rg R i (bind (within k tt f) q) (at_ i A0 [] a true) Q.
Proof.
  intros Hf Hq. apply src_within_own; [done|done|done|exact Hq|]. intros s c. rewrite Hf. exists [], true. split; [apply own_detaches|exact Hq].
Qed.

Lemma src_take_outcome stays A0 a (q : Outcome V -> prog (world X) A) :
  (forall o, rg R i (q o) (at_ i [] [] a true) Q) -> rg R i (bind (take_outcome dflt stays k) q) (at_ i A0 [] a true) Q.
Proof. intros Hq. apply src_within_own; [done|done|done|apply Hq|]. intros s c. exists [], true. split; [apply own_none|apply Hq]. Qed.

Lemma src_isReady_at A0 a (q : bool -> prog (world X) A) :
  (forall b, rg R i (q b) (at_ i A0 [] a true) Q) -> rg R i (bind (isReady_at (V:=V) k) q) (at_ i A0 [] a true) Q.
Proof. intros Hq. apply src_within_quiet; [done|apply Hq|]. intros s c. split; [done|]. split; [done|apply Hq]. Qed.

Lemma src_attach_at A0 a (q : bool -> prog (world X) A) :
  (forall b A1, (b = true -> exists A2, A1 = (k, tt) :: A2) -> rg R i (q b) (at_ i A1 [] a true) Q) ->
  rg R i (bind (attach_at (V:=V) k (me i)) q) (at_ i A0 [] a true) Q.
Proof.
  intros Hq. apply src_within_own; [done|done|done|by apply Hq|]. intros s c. unfold attach_locked. destruct (ready s) eqn:E.
  - exists [], true. split; [apply own_none|by apply Hq].
  - eexists _, true. split; [by apply own_attaches|]. apply Hq. eauto.
Qed.

Lemma src_detach_at A0 a (q : unit -> prog (world X) A) :
  rg R i (q tt) (at_ i [] [] a true) Q -> rg R i (bind (detach_at (V:=V) k (me i)) q) (at_ i A0 [] a true) Q.
Proof. apply src_detach_part. intros s c. unfold detach_locked. by case_decide. Qed.

Lemma src_get_loop fuel A0 (q : ended unit -> prog (world X) A) :
  (forall r A1, rg R i (q r) (at_ i A1 [] [k] true) Q) -> rg R i (bind (get_loop (V:=V) fuel k (me i)) q) (at_ i A0 [] [k] true) Q.
Proof.
  intros Hq. revert A0. induction fuel as [|fuel IH]; intros A0; [done|]. cbn [get_loop]. apply rg_bind_assoc, src_attach_at. intros [|] A1 HA; [|apply Hq].
  destruct HA as [A2 ->]; [done|]. apply rg_bind_assoc, src_block; [done|apply covers_one|]. intros [| |]; [apply IH|apply IH|apply Hq].
Qed.

Lemma src_getUntil_loop fuel A0 (q : ended unit -> prog (world X) A) :
  (forall r A1, rg R i (q r) (at_ i A1 [] [k] true) Q) -> rg R i (bind (getUntil_loop (V:=V) fuel k (me i)) q) (at_ i A0 [] [k] true) Q.
Proof.
  intros Hq. revert A0. induction fuel as [|fuel IH]; intros A0; [done|]. cbn [getUntil_loop]. apply rg_bind_assoc, src_attach_at. intros [|] A1 HA; [|apply Hq].
  apply rg_bind_assoc, src_blockUntil; [done|]. intros [| |]; [apply IH|apply Hq|apply Hq].
Qed.

Lemma src_get stays fuel A0 a (q : ended (Outcome V) -> prog (world X) A) :
  (forall r A1 a1, rg R i (q r) (at_ i A1 [] a1 true) Q) -> rg R i (bind (get dflt stays fuel k (me i)) q) (at_ i A0 [] a true) Q.
Proof.
  intros Hq. apply rg_bind_assoc, src_isReady_at. intros [|]; [apply rg_bind_assoc, src_take_outcome; intros o; apply Hq|].
  apply rg_bind_assoc, src_asks; [done|]. apply rg_bind_assoc, src_get_loop. intros r A1. apply rg_bind_assoc, src_detach_at.
  destruct r as [u|]; [|apply Hq]. apply rg_bind_assoc, src_take_outcome. intros o. apply Hq.
Qed.

Lemma src_getUntil stays fuel A0 a (q : ended (Outcome V) -> prog (world X) A) :
  (forall r A1 a1, rg R i (q r) (at_ i A1 [] a1 true) Q) -> rg R i (bind (getUntil dflt stays fuel k (me i)) q) (at_ i A0 [] a true) Q.
Proof.
  intros Hq. apply rg_bind_assoc, src_isReady_at. intros [|]; [apply rg_bind_assoc, src_take_outcome; intros o; apply Hq|].
  apply rg_bind_assoc, src_asks; [done|]. apply rg_bind_assoc, src_getUntil_loop. intros r A1.
  destruct r as [u|]; [|apply rg_bind_assoc, src_detach_at, Hq]. apply rg_bind_assoc, src_isReady_at. intros b. apply rg_bind_assoc, src_detach_at.
  destruct b; [|apply Hq]. apply rg_bind_assoc, src_take_outcome. intros o. apply Hq.
Qed.

(** One turn of a consumer's loop, for streams and mailboxes. *)
Lemma src_turn {C B} `{!Part X C} (f : C -> option Waker -> C * option Waker * turn B) A0 a (q : turn B -> prog (world X) A) :
  (forall s c, (exists s' r, f s c = (s', c, r) /\ r <> Attached) \/ (f s c = (s, Some (me i), Attached) /\ isReady (whole s) = false)) ->
  (forall r A1, (r = Attached -> exists A2, A1 = (k, tt) :: A2) -> rg R i (q r) (at_ i A1 [] a true) Q) ->
  rg R i (bind (within k End f) q) (at_ i A0 [] a true) Q.
Proof.
  intros Hf Hq. apply src_within_own; [done|done|done|by apply Hq|]. intros s c. destruct (Hf s c) as [(s' & r & -> & Hr)|[-> Hr]].
  - exists [], true. split; [apply own_none|]. by apply Hq.
  - eexists _, true. split; [by apply own_attaches|]. apply Hq. eauto.
Qed.

Lemma next_turn s c : (exists s' r, next_locked dflt (me i) s c = (s', c, r) /\ r <> Attached) \/
  (next_locked dflt (me i) s c = (s, Some (me i), Attached) /\ isReady (whole (X:=X) s) = false).
Proof.
  unfold next_locked. destruct (count s =? 0)%nat eqn:Ec; [destruct (closed s) eqn:El|].
  - left. by eexists _, _.
  - right. split; [done|]. simpl. unfold isReady_locked. by rewrite Ec, El.
  - left. by eexists _, _.
Qed.

Lemma mailbox_turn s c : (exists s' r, mailbox_next_locked (F:=V) (me i) s c = (s', c, r) /\ r <> Attached) \/
  (mailbox_next_locked (me i) s c = (s, Some (me i), Attached) /\ isReady (whole (X:=X) s) = false).
Proof.
  unfold mailbox_next_locked. destruct (queue s) as [|f l] eqn:Eq; [destruct (mclosed s) eqn:El|].
  - left. by eexists _, _.
  - right. split; [done|]. simpl. unfold mailbox_isReady. by rewrite Eq, El.
  - left. by eexists _, _.
Qed.

Lemma src_take_part {C B} `{!Part X C} (d : B) (f : C -> option Waker -> C * option Waker * B) A0 a (q : B -> prog (world X) A) :
  (forall s c, (f s c).1.2 = c) -> (forall r, rg R i (q r) (at_ i [] [] a true) Q) -> rg R i (bind (within k d f) q) (at_ i A0 [] a true) Q.
Proof.
  intros Hf Hq. apply src_within_own; [done|done|done|by apply Hq|]. intros s c. specialize (Hf s c). destruct (f s c) as [[s' c'] r]. simpl in Hf. subst c'.
  exists [], true. split; [apply own_none|apply Hq].
Qed.

Lemma src_tryNext A0 a (q : option V -> prog (world X) A) :
  (forall r, rg R i (q r) (at_ i [] [] a true) Q) -> rg R i (bind (tryNext dflt k) q) (at_ i A0 [] a true) Q.
Proof. apply src_take_part. intros s c. unfold tryNext_locked. by destruct (count s =? 0)%nat. Qed.

Lemma src_next_loop fuel A0 (q : ended (option V) -> prog (world X) A) :
  (forall r A1, rg R i (q r) (at_ i A1 [] [k] true) Q) -> rg R i (bind (next_loop dflt fuel k (me i)) q) (at_ i A0 [] [k] true) Q.
Proof.
  intros Hq. revert A0. induction fuel as [|fuel IH]; intros A0; [done|]. cbn [next_loop]. apply rg_bind_assoc, src_turn; [apply next_turn|].
  intros [v| |] A1 HA; [apply Hq|apply Hq|]. destruct HA as [A2 ->]; [done|]. apply rg_bind_assoc, src_block; [done|apply covers_one|].
  intros [| |]; [apply IH|apply IH|apply Hq].
Qed.

Lemma src_nextUntil_loop fuel A0 (q : ended (option V) -> prog (world X) A) :
  (forall r A1, rg R i (q r) (at_ i A1 [] [k] true) Q) -> rg R i (bind (nextUntil_loop dflt fuel k (me i)) q) (at_ i A0 [] [k] true) Q.
Proof.
  intros Hq. revert A0. induction fuel as [|fuel IH]; intros A0; [done|]. cbn [nextUntil_loop]. apply rg_bind_assoc, src_turn; [apply next_turn|].
  intros [v| |] A1 HA; [apply Hq|apply Hq|]. apply rg_bind_assoc, src_blockUntil; [done|].
  intros [| |]; [apply IH| |apply Hq]. apply rg_bind_assoc, src_tryNext. intros o. apply Hq.
Qed.

Lemma src_stream_detach_at A0 a (q : unit -> prog (world X) A) :
  rg R i (q tt) (at_ i [] [] a true) Q -> rg R i (bind (stream_detach_at (V:=V) k (me i)) q) (at_ i A0 [] a true) Q.
Proof. apply src_detach_part. intros s c. unfold stream_detach. by case_decide. Qed.

Lemma src_next fuel A0 a (q : ended (option V) -> prog (world X) A) :
  (forall r A1 a1, rg R i (q r) (at_ i A1 [] a1 true) Q) -> rg R i (bind (next dflt fuel k (me i)) q) (at_ i A0 [] a true) Q.
Proof.
  intros Hq. apply rg_bind_assoc, src_asks; [done|]. apply rg_bind_assoc, src_next_loop. intros r A1. apply rg_bind_assoc, src_stream_detach_at, Hq.
Qed.

Lemma src_nextUntil fuel A0 a (q : ended (option V) -> prog (world X) A) :
  (forall r A1 a1, rg R i (q r) (at_ i A1 [] a1 true) Q) -> rg R i (bind (nextUntil dflt fuel k (me i)) q) (at_ i A0 [] a true) Q.
Proof.
  intros Hq. apply rg_bind_assoc, src_asks; [done|]. apply rg_bind_assoc, src_nextUntil_loop. intros r A1. apply rg_bind_assoc, src_stream_detach_at, Hq.
Qed.

Lemma src_mailbox_next_loop fuel A0 (q : ended (option V) -> prog (world X) A) :
  (forall r A1, rg R i (q r) (at_ i A1 [] [k] true) Q) -> rg R i (bind (mailbox_next_loop fuel k (me i)) q) (at_ i A0 [] [k] true) Q.
Proof.
  intros Hq. revert A0. induction fuel as [|fuel IH]; intros A0; [done|]. cbn [mailbox_next_loop]. apply rg_bind_assoc, src_turn; [apply mailbox_turn|].
  intros [v| |] A1 HA; [apply Hq|apply Hq|]. destruct HA as [A2 ->]; [done|]. apply rg_bind_assoc, src_block; [done|apply covers_one|].
  intros [| |]; [apply IH|apply IH|apply Hq].
Qed.

Lemma src_mailbox_nextUntil_loop fuel A0 (q : ended (option V) -> prog (world X) A) :
  (forall r A1, rg R i (q r) (at_ i A1 [] [k] true) Q) -> rg R i (bind (mailbox_nextUntil_loop fuel k (me i)) q) (at_ i A0 [] [k] true) Q.
Proof.
  intros Hq. revert A0. induction fuel as [|fuel IH]; intros A0; [done|]. cbn [mailbox_nextUntil_loop]. apply rg_bind_assoc, src_turn; [apply mailbox_turn|].
  intros [v| |] A1 HA; [apply Hq|apply Hq|]. apply rg_bind_assoc, src_blockUntil; [done|].
  intros [| |]; [apply IH| |apply Hq]. apply rg_bind_assoc, src_take_part; [|intros o; apply Hq]. intros s c. unfold mailbox_tryNext. by destruct (queue s).
Qed.

Lemma src_mailbox_detach_at A0 a (q : unit -> prog (world X) A) :
  rg R i (q tt) (at_ i [] [] a true) Q -> rg R i (bind (mailbox_detach_at (F:=V) k (me i)) q) (at_ i A0 [] a true) Q.
Proof. apply src_detach_part. intros s c. unfold mailbox_detach. by case_decide. Qed.

Lemma src_run_closure r A0 a (q : ended bool -> prog (world X) A) :
  (forall r A1 a1, rg R i (q r) (at_ i A1 [] a1 true) Q) -> rg R i (bind (run_closure (F:=V) k r) q) (at_ i A0 [] a true) Q.
Proof. intros Hq. destruct r as [[f|]|]; [|apply Hq|apply Hq]. apply rg_bind_assoc, src_take_part; [done|]. intros []. apply Hq. Qed.

Lemma src_runOne fuel A0 a (q : ended bool -> prog (world X) A) :
  (forall r A1 a1, rg R i (q r) (at_ i A1 [] a1 true) Q) -> rg R i (bind (runOne (F:=V) fuel k (me i)) q) (at_ i A0 [] a true) Q.
Proof.
  intros Hq. apply rg_bind_assoc, rg_bind_assoc, src_asks; [done|]. apply rg_bind_assoc, src_mailbox_next_loop. intros r A1.
  apply rg_bind_assoc, src_mailbox_detach_at. by apply src_run_closure.
Qed.

Lemma src_runOneFor fuel A0 a (q : ended bool -> prog (world X) A) :
  (forall r A1 a1, rg R i (q r) (at_ i A1 [] a1 true) Q) -> rg R i (bind (runOneFor (F:=V) fuel k (me i)) q) (at_ i A0 [] a true) Q.
Proof.
  intros Hq. apply rg_bind_assoc, rg_bind_assoc, src_asks; [done|]. apply rg_bind_assoc, src_mailbox_nextUntil_loop. intros r A1.
  apply rg_bind_assoc, src_mailbox_detach_at. by apply src_run_closure.
Qed.

Lemma src_mailbox_run fuel A0 a (q : ended unit -> prog (world X) A) :
  (forall r A1 a1, rg R i (q r) (at_ i A1 [] a1 true) Q) -> rg R i (bind (mailbox_run (F:=V) fuel k (me i)) q) (at_ i A0 [] a true) Q.
Proof.
  intros Hq. revert A0 a. induction fuel as [|fuel IH]; intros A0 a; [done|]. cbn [mailbox_run]. apply rg_bind_assoc, src_runOne.
  intros [[|]|] A1 a1; [apply IH|apply Hq|apply Hq].
Qed.
End consumer.

(** ** Callback waiters *)

Section callback.
Context {A : Type} (i k : nat) (Hi : (i < n)%nat) (Hkd : kd i = KCallback) (Hk : (k < N)%nat) (Ho : owner k = i).
Context (Q : A -> asrt (world X) (nat -> spl unit)).

(** Cancelling before anything is attached. *)
Lemma src_cancel_early {C} `{!Part X C} (f : C -> option Waker -> C * option Waker * bool) (early : bool) a (q : bool -> prog (world X) A) :
  (forall s c, f s c = (s, (if decide (c = Some (me i)) then None else c), bool_decide (c = Some (me i)))) ->
  (forall b, rg R i (q b) (at_ i [] [] a true) Q) -> rg R i (bind (if early then within k false f else Ret false) q) (at_ i [] [] a true) Q.
Proof.
  intros Hf Hq. destruct early; [|apply Hq]. apply src_within_own; [done|done|done|apply Hq|]. intros s c. rewrite Hf. exists [], true.
  split; [apply own_detaches|apply Hq].
Qed.

(** ... and afterwards. *)
Lemma src_cancel_late {C} `{!Part X C} (f : C -> option Waker -> C * option Waker * bool) (late : bool) a (q : bool -> prog (world X) A) :
  (forall s c, f s c = (s, (if decide (c = Some (me i)) then None else c), bool_decide (c = Some (me i)))) ->
  rg R i (q true) (at_ i [] [] a true) Q -> rg R i (q false) (at_ i [(k, tt)] [] a false) Q ->
  rg R i (bind (if late then within k false f else Ret false) q) (at_ i [(k, tt)] [] a false) Q.
Proof.
  intros Hf Hq1 Hq2. destruct late; [|exact Hq2]. apply (src_cancel idle sane owner kd n N tt); [|done|done|done|exact Hq1|exact Hq2].
  intros x c. destruct (part x) as [s|] eqn:E; [|by right]. rewrite Hf. simpl. rewrite (whole_part x s E). destruct (decide (c = Some (me i))) as [->|Hne].
  - left. by rewrite bool_decide_true.
  - right. by rewrite bool_decide_false.
Qed.

Lemma completion_cancel_form (s : CompletionState V) c : cancel_locked (me i) s c = (s, (if decide (c = Some (me i)) then None else c), bool_decide (c = Some (me i))).
Proof. unfold cancel_locked. case_decide as E; [by rewrite bool_decide_true|by rewrite bool_decide_false]. Qed.
Lemma stream_cancel_form (s : Stream V) c : stream_cancel (me i) s c = (s, (if decide (c = Some (me i)) then None else c), bool_decide (c = Some (me i))).
Proof. unfold stream_cancel. case_decide as E; [by rewrite bool_decide_true|by rewrite bool_decide_false]. Qed.

Lemma src_get_ready stays a (q : unit -> prog (world X) A) :
  rg R i (q tt) (at_ i [] [] a true) Q -> rg R i (bind (get_ready dflt stays k) q) (at_after idle sane kd n i [] a [(k, tt)]) Q.
Proof.
  intros Hq. assert (Htake : rg R i (bind (take_outcome dflt stays k;;; Ret tt) q) (at_after idle sane kd n i [] a [(k, tt)]) Q).
  { apply rg_bind_assoc, after_at, src_take_outcome; [done|done|done|]. by intros o. }
  assert (Hown : owns owner i [(k, tt)]) by (intros k2 t2 Hin%list_elem_of_singleton; by injection Hin as ->).
  assert (Hk2 : rg R i (bind (take_outcome dflt stays k;;; Ret tt) q) (at_after idle sane kd n i [] a [(k, tt); (k, tt)]) Q).
  { eapply rg_pre; [|exact Htake]. intros w g _ [H1 H2]. split; [exact H1|]. intros k2 t2 Hin. apply H2. by right. }
  apply rg_bind_assoc, (src_look idle sane owner kd n N i k tt); [done|done|done|done|]. intros x c. destruct (part x) as [s|] eqn:E.
  - rewrite (whole_part x s E). splits; [done|done| |].
    + intros Hid. apply negb_false_iff in Hid. simpl in Hid. rewrite Hid. exact Hk2.
    + intros _ []. left.
  - splits; [done|done|intros _; exact Hk2|]. intros _ []. left.
Qed.

Lemma src_get_callback stays early late a (q : unit -> prog (world X) A) :
  (forall a1, rg R i (q tt) (at_ i [] [] a1 true) Q) -> rg R i (bind (get_callback dflt stays k (me i) early late) q) (at_ i [] [] a true) Q.
Proof.
  intros Hq. apply rg_bind_assoc, src_cancel_early; [apply completion_cancel_form|]. intros was.
  apply rg_bind_assoc, (src_own_or_ready idle sane owner kd n N i k tt); [done|done|done|done|]. intros x c. destruct (part x) as [s|] eqn:E.
  - rewrite (whole_part x s E). unfold attachOrReady_locked. destruct (ready s) eqn:Er; [left|right; destruct (early && negb was)].
    + eexists. split; [done|]. split; [|by apply src_get_ready]. unfold idle. simpl. by rewrite Er.
    + exists [], true. split; [apply own_none|apply Hq].
    + exists [(k, tt)], false. split; [by apply own_attaches_callback|]. apply rg_bind_assoc, src_asks; [done|].
      apply rg_bind_assoc, src_cancel_late; [apply completion_cancel_form|apply Hq|]. apply rg_bind_assoc, src_awaitCallback; [done|done|done|done|by apply src_get_ready].
  - right. exists [], true. split; [apply own_none|apply Hq].
Qed.

Lemma src_next_callback fuel early late a (q : unit -> prog (world X) A) :
  (forall a1, rg R i (q tt) (at_ i [] [] a1 true) Q) -> rg R i (bind (next_callback dflt fuel k (me i) early late) q) (at_ i [] [] a true) Q.
Proof.
  intros Hq. revert a. induction fuel as [|fuel IH]; intros a; [done|]. cbn [next_callback].
  apply rg_bind_assoc, src_cancel_early; [apply stream_cancel_form|]. intros was. apply rg_bind_assoc, src_within_own; [done|done|done|apply Hq|].
  intros s c. unfold nextOrAttach_locked. destruct (count s =? 0)%nat eqn:Ec; [destruct (closed s) eqn:El; [|destruct (early && negb was)]|].
  - exists [], true. split; [apply own_none|apply Hq].
  - exists [], true. split; [apply own_none|apply Hq].
  - exists [(k, tt)], false. split; [apply own_attaches_callback; simpl; unfold isReady_locked; by rewrite Ec, El|]. apply rg_bind_assoc, src_asks; [done|].
    apply rg_bind_assoc, src_cancel_late; [apply stream_cancel_form|apply Hq|]. apply rg_bind_assoc, src_awaitCallback; [done|done|done|done|apply after_at, IH].
  - exists [], true. split; [apply own_none|apply Hq].
Qed.
End callback.

(** ** Parties *)

Lemma idle_ready x : idle (V:=V) tt x = negb (isReady x).
Proof. done. Qed.

Lemma src_select_op {A} i fuel d ks A0 a (q : ended unit -> prog (world X) A) Q :
  (i < n)%nat -> kd i <> KCallback -> Forall (mine owner N i) ks -> ks <> [] ->
  (forall r A1 a1, rg R i (q r) (at_ i A1 [] a1 true) Q) -> rg R i (bind (select_op fuel d (me i) ks) q) (at_ i A0 [] a true) Q.
Proof.
  intros Hi Hkd Hks Hne Hq. apply rg_bind_assoc, (rg_select idle sane owner kd n N tt idle_ready); [done|done|done|done|done|done|].
  intros [[j|]|] A1 a1 Hj; [|apply after_at, Hq|apply after_at, Hq]. destruct (lookup_lt_is_Some_2 ks j) as [k Ej]; [by apply Hj|].
  destruct (Forall_lookup_1 _ _ _ _ Hks Ej) as [Hk Ho]. pose proof (owns_chosen owner N tt i ks (Some j) Hks) as Hown. simpl in Hown. unfold selected, chosen. rewrite Ej in *.
  apply rg_bind_assoc, (src_look idle sane owner kd n N i k tt); [done|done|done|done|]. intros x c. splits; [done|done| |intros _ []; left].
  intros Hid%negb_false_iff. rewrite Hid. apply after_at, Hq.
Qed.

Notation done_ok := (done_ok (X:=X) (T:=unit) kd n).

Lemma ret_done i A0 a : rg R i (Ret tt) (at_ i A0 [] a true) (done_ok i).
Proof. intros w g _ (Hg & _ & Hf). unfold SourceSpec.done_ok. split; [by rewrite Hg|auto]. Qed.

Section party.
Context (i fuel : nat) (Hi : (i < n)%nat).

(** What a party knows between two calls. *)
Definition goes_on (rest : prog (world X) unit) : Prop :=
  forall A1 a1, (kd i = KCallback -> A1 = []) -> rg R i rest (at_ i A1 [] a1 true) (done_ok i).

Lemma goes_on_ends {B} rest (r : ended B) A1 a1 : goes_on rest -> kd i <> KCallback ->
  rg R i (match r with Gone => Ret tt | Returned _ => rest end) (at_ i A1 [] a1 true) (done_ok i).
Proof. intros H Hkd. destruct r; [by apply H|apply ret_done]. Qed.

Lemma src_perform o rest : op_fits owner kd N i o = true -> goes_on rest -> goes_on (perform dflt left_behind fuel i (me i) o rest).
Proof.
  intros Hfit Hrest A1 a1 HA. assert (Hr : rg R i rest (at_ i A1 [] a1 true) (done_ok i)) by (by apply Hrest).
  destruct o; cbn [op_fits perform] in *.
  1-6: apply produces_spec in Hfit as [Hkd Hk].
  1-3: by apply src_deliver.
  - by apply src_set_void.
  - by apply src_push.
  - by apply src_close.
  - apply andb_true_iff in Hfit as [[Hkd Hk]%produces_spec Ho%bool_decide_eq_true]. by apply src_post.
  - apply andb_true_iff in Hfit as [[Hkd Hk]%produces_spec Ho%bool_decide_eq_true]. by apply src_mailbox_close.
  - by apply src_stop.
  - apply consumes_spec in Hfit as (Hkd & Hk & Ho). apply src_get; [done..|]. intros r A2 a2. by apply goes_on_ends.
  - apply consumes_spec in Hfit as (Hkd & Hk & Ho). apply src_getUntil; [done..|]. intros r A2 a2. by apply goes_on_ends.
  - apply calls_back_spec in Hfit as (Hkd & Hk & Ho). rewrite (HA Hkd). apply src_get_callback; [done..|]. intros a2. by apply Hrest.
  - apply consumes_spec in Hfit as (Hkd & Hk & Ho). apply src_tryNext; [done..|]. intros r. by apply Hrest.
  - apply consumes_spec in Hfit as (Hkd & Hk & Ho). apply src_next; [done..|]. intros r A2 a2. by apply goes_on_ends.
  - apply consumes_spec in Hfit as (Hkd & Hk & Ho). apply src_nextUntil; [done..|]. intros r A2 a2. by apply goes_on_ends.
  - apply calls_back_spec in Hfit as (Hkd & Hk & Ho). rewrite (HA Hkd). apply src_next_callback; [done..|]. intros a2. by apply Hrest.
  - apply consumes_spec in Hfit as (Hkd & Hk & Ho). apply src_runOne; [done..|]. intros r A2 a2. by apply goes_on_ends.
  - apply consumes_spec in Hfit as (Hkd & Hk & Ho). apply src_runOneFor; [done..|]. intros r A2 a2. by apply goes_on_ends.
  - apply consumes_spec in Hfit as (Hkd & Hk & Ho). apply src_mailbox_run; [done..|]. intros r A2 a2. by apply goes_on_ends.
  - apply andb_true_iff in Hfit as [Hne%bool_decide_eq_true Hall]. rewrite forallb_forall in Hall. destruct ks as [|k0 ks]; [done|].
    destruct (consumes_spec owner kd N i k0 (Hall k0 (or_introl eq_refl))) as (Hkd & _ & _).
    apply src_select_op; [done|done| |done|intros r A2 a2; by apply goes_on_ends].
    apply list.Forall_forall. intros k Hk. destruct (consumes_spec owner kd N i k) as (_ & ? & ?); [by apply Hall, list_elem_of_In|done].
Qed.

Lemma src_party ops : Forall (fun o => op_fits owner kd N i o = true) ops -> goes_on (party dflt left_behind fuel i (me i) ops).
Proof.
  induction 1 as [|o ops Ho _ IH]; [intros A1 a1 _; apply ret_done|]. by apply src_perform.
Qed.
End party.
End wait.

Lemma sources_pool_waits {V} (dflt : V) left_behind fuel owner kd xs l :
  scripts_fit owner kd (length xs) l = true ->
  pool_ok (sproto idle sane owner kd (length l) (length xs)) (done_ok kd (length l)) (sources_pool dflt left_behind fuel kd xs l).
Proof.
  intros Hfit. exists (fun _ => SPl [] [] []). split; [by apply sinv_start|]. intros i p Hp. simpl in Hp. rewrite list_lookup_imap in Hp.
  destruct (l !! i) as [ops|] eqn:E; [|done]. injection Hp as <-. pose proof (lookup_lt_Some _ _ _ E) as Hi.
  exists (at_ (X:=contents V) (T:=unit) kd (length l) i [] [] [] true). split; [apply stable_sat|]. split.
  - split; [done|]. split; [done|]. intros _ _. unfold refs. simpl. rewrite lsum_zero; [by rewrite total_zero|]. intros s Hs. apply list_elem_of_fmap in Hs as (y & -> & _). done.
  - apply src_party; [done| |done]. by apply (scripts_fit_at owner kd (length xs) l).
Qed.

(** C12: In every interleaving of producers and consumers, with [select], timeouts,
    callbacks and cancellation and a scheduler that stops: no callback is called
    twice, or stored after its operation has returned; the source [select] names
    is ready, and a completion is ready after its callback; and when nobody can
    move, a party that has not returned waits for sources of which none is ready,
    and its waker is stored in all of them. *)
Theorem source_no_lost_wakeup {V} (dflt : V) left_behind fuel owner kd xs l ts w :
  scripts_fit owner kd (length xs) l = true ->
  reach (sources_pool dflt left_behind fuel kd xs l) (ts, w) ->
  wrong w = false /\
  (forall i, ts !! i = Some (Ret tt) -> kd i = KCallback -> forall k x, sources w !! k <> Some (x, Some (MkWaker i KCallback))) /\
  ((forall i th, ts !! i = Some th -> halted w th) ->
   forall i th, ts !! i = Some th -> th <> Ret tt ->
   asked w i <> [] /\ forall k, k ∈ asked w i -> exists x, sources w !! k = Some (x, Some (MkWaker i (kd i))) /\ isReady x = false).
Proof.
  intros Hfit Hr. pose proof (pool_ok_reach _ _ _ _ Hr (sources_pool_waits dflt left_behind fuel owner kd xs l Hfit)) as Hok.
  split; [by destruct Hok as (g & HI & _); apply (si_right _ _ _ _ _ _ _ _ HI)|]. split.
  { intros i Hi Hkd k x Hx. destruct (pool_ok_waits _ _ _ _ Hok) as (g & _ & _ & HQ). destruct (HQ i tt Hi) as [_ Hz]. specialize (Hz Hkd).
    unfold refs in Hz. pose proof (lsum_elem (fun s => waits kd i s.2) (sources w) _ (list_elem_of_lookup_2 _ _ _ Hx)) as Hle. simpl in Hle.
    assert (waits kd i (Some (MkWaker i KCallback)) = 1)%nat by (apply waits_eq; unfold me; by rewrite Hkd). lia. }
  intros Hh i th Hi Hne.
  assert (Hlen : length ts = length l) by (pose proof (reach_length _ _ Hr) as E; simpl in E; by rewrite length_imap in E).
  destruct (sources_halted _ _ _ _ _ _ ts w Hlen Hok Hh i th Hi Hne) as [Hask Hall]. split; [done|]. intros k Hk.
  destruct (Hall k Hk) as (x & t & Hx & Hid). exists x. split; [done|]. by apply negb_true_iff in Hid.
Qed.
