(* ===== verification/SourcesSpec.v ===== *)
(** * Sources: what is delivered

    A completion delivers what the first [set] or [fail] brought; a stream delivers
    what it accepted in order, and keeps the freshest or the oldest items; a
    mailbox runs its closures in the order of the calls of [post].

    The proofs use a protocol of their own: what a party may do to the contents of a
    source, and what its consumer and the party that claimed a completion know. *)

From Stdlib Require Import ZArith Lia.
From stdpp Require Import base tactics list numbers option strings functions.
From S2P Require Import Prelude Conc Sums Circle Source Completion Stream Mailbox Sources SourceSpec SourcesWait.

(** ** Well-formed sources *)

Section wf.
Context {V : Type} (dflt : V).

(** The winner's outcome is what the first [get] returns; the error stays. *)
Record completion_wf (s : CompletionState V) : Prop := {
  cw_unclaimed : claimed s = false -> ready s = false /\ winner s = None;
  cw_unready : ready s = false -> got s = [] /\ (winner s = None -> outcome s = new_outcome dflt);
  cw_ready : ready s = true -> exists i o, winner s = Some (i, o) /\ error (outcome s) = error o /\
    (got s = [] -> outcome s = o) /\ (forall o', got s !! 0%nat = Some o' -> o' = o) /\ Forall (fun o' => error o' = error o) (got s)
}.

(** The ring holds the newest [count] of the accepted items; what left it was
    received, or overwritten when the policy says so.  [owed]: how many parties have
    been turned away and have not counted it yet. *)
Record stream_wf (owed : nat) (s : Stream V) : Prop := {
  sw_ring : exists buf gone, circle (capacity s) (slots s) (head s) (count s) buf /\ accepted s = gone ++ buf /\
    received s `sublist_of` gone /\ length gone = (length (received s) + overwritten s)%nat;
  sw_sound : broken s = false;
  sw_policy : policy s = DropNewest -> overwritten s = 0%nat;
  sw_refused : (0 < refused s)%nat -> closed s = true \/ policy s = DropNewest;
  sw_dropped : (droppedCount s + owed = overwritten s + refused s)%nat
}.

Record mailbox_wf (m : Mailbox V) : Prop := {
  mw_order : posted m = popped m ++ queue m;
  mw_ran : ran m `prefix_of` popped m
}.

Definition contents_wf (owed : nat) (x : contents V) : Prop :=
  match x with AsCompletion s => completion_wf s | AsStream s => stream_wf owed s | AsMailbox m => mailbox_wf m end.

(** *** Streams *)

Lemma stream_advance (s : Stream V) buf : circle (capacity s) (slots s) (head s) (count s) buf -> count s <> 0%nat -> broken s = false ->
  exists v buf', buf = v :: buf' /\ slotAt s (head s) = Some v /\ broken (advance s) = false /\
    circle (capacity s) (slots (advance s)) (head (advance s)) (count (advance s)) buf'.
Proof.
  intros Hc Hn Hb. destruct (circle_pop _ _ _ _ _ Hc Hn) as (v & buf' & -> & Hs & Hc'). exists v, buf'.
  assert (Ha : slotAt s (head s) = Some v) by (unfold slotAt; by rewrite Hs). splits; [done|done| |exact Hc'].
  simpl. rewrite Ha, Hb. done.
Qed.

Lemma stream_destroy_ok fuel (s : Stream V) buf : circle (capacity s) (slots s) (head s) (count s) buf -> broken s = false -> (count s <= fuel)%nat ->
  exists s', destroy_loop fuel s = Some s' /\ broken s' = false /\ forall j o, slots s' !! j = Some o -> o = None.
Proof.
  revert s buf. induction fuel as [|fuel IH]; intros s buf Hc Hb Hf.
  - exists s. cbn [destroy_loop]. assert (Hz : count s = 0%nat) by lia. rewrite Hz in *. splits; [done|done|]. intros j o.
    pose proof (cr_count _ _ _ _ _ Hc). destruct buf; [|done]. by apply (circle_empty (capacity s) (slots s) (head s)).
  - cbn [destroy_loop]. destruct (count s) as [|m] eqn:Ec.
    + exists s. splits; [done|done|]. intros j o. pose proof (cr_count _ _ _ _ _ Hc). destruct buf; [|done]. by apply (circle_empty (capacity s) (slots s) (head s)).
    + rewrite <- Ec in Hc. destruct (stream_advance s buf Hc) as (v & buf' & -> & _ & Hb' & Hc'); [lia|done|]. apply (IH _ buf'); [exact Hc'|done|]. simpl. lia.
Qed.

Lemma sublist_snoc_gone {A} (l k : list A) v : l `sublist_of` k -> l `sublist_of` k ++ [v].
Proof. intros H. by apply sublist_inserts_r. Qed.

Lemma sublist_full {A} (l k : list A) : l `sublist_of` k -> length k = length l -> k = l.
Proof.
  induction 1 as [|x l k H IH|x l k H IH]; simpl; intros E; [done|by rewrite IH by lia|]. apply sublist_length in H. lia.
Qed.

Lemma stream_pop_wf owed s : stream_wf owed s -> count s <> 0%nat ->
  stream_wf owed (popLocked dflt s).1 /\ exists buf gone, accepted s = gone ++ (popLocked dflt s).2 :: buf.
Proof.
  intros [(buf & gone & Hc & Hacc & Hsub & Hlen) Hb Hp Hr Hd] Hn. destruct (stream_advance s buf Hc Hn Hb) as (v & buf' & -> & Hs & Hb' & Hc'). split.
  - unfold popLocked. rewrite Hs. simpl. split; simpl; [|simpl in Hb'; done|done|done|done]. exists buf', (gone ++ [v]). splits; [exact Hc'| | |].
    + by rewrite <- app_assoc.
    + by apply sublist_app.
    + rewrite !length_app. simpl. lia.
  - exists buf', gone. unfold popLocked. by rewrite Hs.
Qed.

Lemma stream_push_wf owed v s : stream_wf owed s -> stream_wf (if (push_locked v s).2 then owed else S owed) (push_locked v s).1.
Proof.
  intros Hwf. unfold push_locked. destruct (closed s || _) eqn:E.
  - destruct Hwf as [H1 H2 H3 H4 H5]. split; simpl; [done|done|done| |lia]. intros _. apply orb_true_iff in E as [E|[_ E%bool_decide_eq_true]%andb_true_iff]; auto.
  - apply orb_false_iff in E as [Hcl E]. cbv zeta. cbn [fst snd]. destruct Hwf as [(buf & gone & Hc & Hacc & Hsub & Hlen) Hb Hp Hr Hd].
    assert (Hmake : forall s1 buf1 gone1, circle (capacity s1) (slots s1) (head s1) (count s1) buf1 -> (count s1 < capacity s1)%nat -> accepted s1 = gone1 ++ buf1 ->
      received s1 `sublist_of` gone1 -> length gone1 = (length (received s1) + overwritten s1)%nat -> broken s1 = false -> (policy s1 = DropNewest -> overwritten s1 = 0%nat) ->
      ((0 < refused s1)%nat -> closed s1 = true \/ policy s1 = DropNewest) -> (droppedCount s1 + owed = overwritten s1 + refused s1)%nat -> stream_wf owed (construct v s1)).
    { intros s1 buf1 gone1 Hc1 Hlt H1 H2 H3 H4 H5 H6 H7. destruct (circle_push _ _ _ _ _ v Hc1 Hlt) as [Hfree Hc2]. split; simpl; [|rewrite H4; unfold slotAt; by rewrite Hfree|done|done|done].
      exists (buf1 ++ [v]), gone1. splits; [exact Hc2|by rewrite H1, app_assoc|done|done]. }
    destruct (decide (count s = capacity s)) as [Efull|Efull]; [|apply (Hmake s buf gone); try done; pose proof (cr_room _ _ _ _ _ Hc); lia].
    assert (Hpol : policy s = DropOldest) by (destruct (policy s); [done|]; by rewrite bool_decide_true in E).
    pose proof (cr_cap _ _ _ _ _ Hc) as Hcap. destruct (stream_advance s buf Hc ltac:(lia) Hb) as (u & buf' & -> & Hs & Hb' & Hc').
    apply (Hmake _ buf' (gone ++ [u])); simpl; try done; try lia.
    + by rewrite Hacc, <- app_assoc.
    + by apply sublist_snoc_gone.
    + rewrite length_app. simpl. lia.
    + congruence.
Qed.

Lemma stream_count_wf owed s : stream_wf (S owed) s -> stream_wf owed (count_dropped s).
Proof. intros [H1 H2 H3 H4 H5]. split; simpl; auto. lia. Qed.
Lemma stream_close_wf owed s : stream_wf owed s -> stream_wf owed (set_closed s).
Proof. intros [H1 H2 H3 H4 H5]. split; simpl; auto. Qed.
Lemma stream_new_wf cap p s : Stream_new (V:=V) cap p = Some s -> stream_wf 0 s.
Proof.
  unfold Stream_new. destruct (1 <=? cap)%nat eqn:E; [|done]. intros [= <-]. apply Nat.leb_le in E. split; simpl; [|done|done|lia|lia].
  exists [], []. splits; [by apply circle_new|done|apply sublist_nil_l|done].
Qed.
End wf.

(** ** The protocol *)

Section deliver.
Context {V : Type} (dflt : V) (left_behind : V -> V) (owner : nat -> nat) (kd : nat -> Kind) (n N : nat).
Notation X := (contents V).
Notation G := (nat -> option nat).

(** What party [j] may do to source [k]. *)
Definition evolve (j k : nat) (x x' : X) : Prop :=
  match x, x' with
  | AsCompletion s, AsCompletion s' =>
      (ready s = true -> ready s' = true) /\
      (forall i o, winner s = Some (i, o) -> i <> j -> ready s = false -> s' = s)
  | AsStream _, AsStream _ => True
  | AsMailbox m, AsMailbox m' => owner k <> j -> popped m' = popped m /\ ran m' = ran m
  | _, _ => False
  end.

#[local] Arguments evolve : simpl never.

Lemma evolve_refl j k x : evolve j k x x.
Proof. by destruct x. Qed.

(** [o = Some k]: the party has been turned away at stream [k]. *)
Definition due (o : option nat) (k : nat) : nat := if decide (o = Some k) then 1%nat else 0%nat.
Definition owed (k : nat) (g : G) : nat := total n (fun o => due o k) g.

Definition dinv (w : world X) (g : G) : Prop := forall k x c, sources w !! k = Some (x, c) -> contents_wf dflt (owed k g) x.

Definition dguar (j : nat) (a b : world X * G) : Prop :=
  length (sources b.1) = length (sources a.1) /\ (forall i, i <> j -> b.2 i = a.2 i) /\
  forall k x c, sources a.1 !! k = Some (x, c) -> exists x' c', sources b.1 !! k = Some (x', c') /\ evolve j k x x'.

Definition dproto : protocol (world X) G := WaitProtocol dinv dguar (fun _ _ _ => True).
Notation R := dproto.

(** What party [i] knows of every source, and what it owes. *)
Definition know (i : nat) (K : nat -> X -> Prop) (o : option nat) : asrt (world X) G :=
  fun w g => g i = o /\ forall k x c, sources w !! k = Some (x, c) -> K k x.

Definition kept (i : nat) (K : nat -> X -> Prop) : Prop := forall j k x x', j <> i -> K k x -> evolve j k x x' -> K k x'.

Lemma stable_know i K o : kept i K -> stable R i (know i K o).
Proof.
  intros HK j w g w' g' Hj _ _ (Hl & Hg & Hev) [H1 H2]. simpl in *. split; [by rewrite Hg|]. intros k x' c' Hk.
  destruct (lookup_lt_is_Some_2 (sources w) k) as [[x c] Hx]; [rewrite <- Hl; by eapply lookup_lt_Some|].
  destruct (Hev k x c Hx) as (x2 & c2 & Hk2 & He). rewrite Hk in Hk2. injection Hk2 as <- <-. eauto.
Qed.

(** ** Rules *)

Lemma owed_upd k g i o o' : (i < n)%nat -> g i = o -> (owed k (<[i := o']> g) + due o k = owed k g + due o' k)%nat.
Proof. intros Hi Hg. exact (total_upd n (fun o => due o k) g i o o' Hi Hg). Qed.

Lemma del_section {A B} i k (f : X -> option Waker -> X * option Waker * B) (q : B -> prog (world X) A) K o Q :
  (i < n)%nat ->
  (forall x c, K k x -> let '(x', c', r) := f x c in exists o' K',
     (forall m, contents_wf dflt (m + due o k) x -> contents_wf dflt (m + due o' k) x' /\ evolve i k x x' /\ K' k x') /\
     (forall k2, k2 <> k -> due o' k2 = due o k2) /\ (forall k2 y, k2 <> k -> K k2 y -> K' k2 y) /\ kept i K' /\
     rg R i (q r) (know i K' o') Q) ->
  rg R i (bind (section k f) q) (know i K o) Q.
Proof.
  intros Hi H. split; [done|]. intros w g w' r HI [Hg HK] Hin. simpl in Hin. destruct (sources w !! k) as [[x c]|] eqn:Hk; [|by apply not_elem_of_nil in Hin].
  pose proof (lookup_lt_Some _ _ _ Hk) as Hlt. specialize (H x c (HK k x c Hk)). destruct (f x c) as [[x' c'] r']. apply list_elem_of_singleton in Hin. injection Hin as -> ->.
  destruct H as (o' & K' & Hstep & Hdue & HK2 & Hkept & Hq). set (g' := <[i := o']> g : G).
  pose proof (total_elem n (fun o => due o k) g i Hi) as Hle. simpl in Hle. rewrite Hg in Hle. fold (owed k g) in Hle.
  destruct (Hstep (owed k g - due o k)%nat) as (Hwf & Hev & HKx); [replace (owed k g - due o k + due o k)%nat with (owed k g) by lia; by apply (HI k x c)|].
  exists g', (know i K' o'). splits; [| | |by apply stable_know|exact Hq].
  - intros k2 y d Hy. simpl in Hy. pose proof (owed_upd k2 g i o o' Hi Hg) as Hu. fold g' in Hu. destruct (decide (k2 = k)) as [->|Hne].
    + rewrite list_lookup_insert_eq in Hy by done. injection Hy as <- <-. replace (owed k g') with (owed k g - due o k + due o' k)%nat by lia. exact Hwf.
    + rewrite list_lookup_insert_ne in Hy by done. rewrite (Hdue k2 Hne) in Hu. replace (owed k2 g') with (owed k2 g) by lia. by apply (HI k2 y d).
  - split; [simpl; by rewrite length_insert|]. split; [intros j Hj; by apply fn_lookup_insert_ne|]. intros k2 y d Hy. simpl in *. destruct (decide (k2 = k)) as [->|Hne].
    + rewrite list_lookup_insert_eq by done. rewrite Hk in Hy. injection Hy as -> ->. eauto.
    + rewrite list_lookup_insert_ne by done. exists y, d. split; [done|apply evolve_refl].
  - split; [apply fn_lookup_insert|]. intros k2 y d Hy. simpl in Hy. destruct (decide (k2 = k)) as [->|Hne].
    + rewrite list_lookup_insert_eq in Hy by done. by injection Hy as <- <-.
    + rewrite list_lookup_insert_ne in Hy by done. apply HK2; [done|by apply (HK k2 y d)].
Qed.

(** Nothing but the stored waker changes. *)
Lemma del_same {A B} i k (f : X -> option Waker -> X * option Waker * B) (q : B -> prog (world X) A) K o Q :
  (i < n)%nat -> kept i K -> (forall x c, (f x c).1.1 = x) -> (forall r, rg R i (q r) (know i K o) Q) -> rg R i (bind (section k f) q) (know i K o) Q.
Proof.
  intros Hi HK Hf Hq. apply del_section; [done|]. intros x c HKx. specialize (Hf x c). destruct (f x c) as [[x' c'] r]. simpl in Hf. subst x'.
  exists o, K. splits; [|done|done|done|apply Hq]. intros m Hm. splits; [done|apply evolve_refl|done].
Qed.

(** Actions that leave the sources alone. *)
Lemma del_other {A B} i (f : world X -> list (world X * B)) (q : B -> prog (world X) A) K o Q :
  kept i K -> (forall w w' r, (w', r) ∈ f w -> sources w' = sources w) -> (forall r, rg R i (q r) (know i K o) Q) ->
  rg R i (bind (Act B f Ret) q) (know i K o) Q.
Proof.
  intros HK Hf Hq. split; [done|]. intros w g w' r HI [Hg HKw] Hin. specialize (Hf w w' r Hin). exists g, (know i K o).
  splits; [|split; [simpl; by rewrite Hf|]; split; [done|]|by split; [|rewrite Hf]|by apply stable_know|apply Hq].
  - intros k x c. rewrite Hf. apply HI.
  - intros k x c Hk. simpl in *. exists x, c. rewrite Hf. split; [done|apply evolve_refl].
Qed.

Lemma del_wake {A} i m (q : unit -> prog (world X) A) K o Q : kept i K -> rg R i (q tt) (know i K o) Q -> rg R i (bind (wake m) q) (know i K o) Q.
Proof.
  intros HK Hq. destruct m as [m|]; [|exact Hq]. unfold wake. destruct (kind m).
  - apply del_other; [done|intros w w' r Hin%list_elem_of_singleton; by injection Hin as -> _|by intros []].
  - apply del_other; [done|intros w w' r Hin%list_elem_of_singleton; by injection Hin as -> _|by intros []].
  - apply del_other; [done| |by intros []]. intros w w' r Hin. destruct (tokens w (who m)); apply list_elem_of_singleton in Hin; by injection Hin as -> _.
Qed.

Lemma del_block {A} i me (q : blocked -> prog (world X) A) K o Q : kept i K -> (forall r, rg R i (q r) (know i K o) Q) -> rg R i (bind (block me) q) (know i K o) Q.
Proof.
  intros HK Hq. apply del_other; [done| |exact Hq]. intros w w' r [Hin|Hin]%elem_of_app; [destruct (tokens w (who me))|destruct (bool_decide _ && stopping w)];
    try (by apply not_elem_of_nil in Hin); apply list_elem_of_singleton in Hin; by injection Hin as -> _.
Qed.

Lemma del_blockUntil {A} i me (q : blocked -> prog (world X) A) K o Q : kept i K -> (forall r, rg R i (q r) (know i K o) Q) -> rg R i (bind (blockUntil me) q) (know i K o) Q.
Proof.
  intros HK Hq. apply del_other; [done| |exact Hq]. intros w w' r Hin. apply elem_of_cons in Hin as [Hin|Hin]; [by injection Hin as -> _|].
  apply elem_of_cons in Hin as [Hin|Hin]; [by injection Hin as -> _|].
  apply elem_of_app in Hin as [Hin|Hin]; [destruct (tokens w (who me))|destruct (bool_decide _ && stopping w)];
    try (by apply not_elem_of_nil in Hin); apply list_elem_of_singleton in Hin; by injection Hin as -> _.
Qed.

Lemma del_store {A} i put (q : unit -> prog (world X) A) K o Q :
  kept i K -> (forall w, sources (put w) = sources w) -> rg R i (q tt) (know i K o) Q -> rg R i (bind (store put) q) (know i K o) Q.
Proof. intros HK Hp Hq. apply del_other; [done|intros w w' r Hin%list_elem_of_singleton; by injection Hin as -> _|by intros []]. Qed.

Lemma del_awaitCallback {A} i me (q : unit -> prog (world X) A) K o Q : kept i K -> rg R i (q tt) (know i K o) Q -> rg R i (bind (awaitCallback me) q) (know i K o) Q.
Proof.
  intros HK Hq. apply del_other; [done| |by intros []]. intros w w' r Hin. destruct (tokens w (who me)); [|by apply not_elem_of_nil in Hin].
  apply list_elem_of_singleton in Hin. by injection Hin as -> _.
Qed.

(** *** Critical sections of a component *)

Lemma due_none k : due None k = 0%nat.
Proof. done. Qed.

Lemma due_self k : due (Some k) k = 1%nat.
Proof. unfold due. by rewrite decide_True. Qed.

Lemma del_part {C A B} `{!Part X C} i k (d : B) (f : C -> option Waker -> C * option Waker * B) (q : B -> prog (world X) A) K o Q :
  (i < n)%nat -> kept i K -> rg R i (q d) (know i K o) Q ->
  (forall s c, K k (whole s) -> let '(s', c', r) := f s c in exists o' K',
     (forall m, contents_wf dflt (m + due o k) (whole s) -> contents_wf dflt (m + due o' k) (whole s') /\ evolve i k (whole s) (whole s') /\ K' k (whole s')) /\
     (forall k2, k2 <> k -> due o' k2 = due o k2) /\ (forall k2 y, k2 <> k -> K k2 y -> K' k2 y) /\ kept i K' /\
     rg R i (q r) (know i K' o') Q) ->
  rg R i (bind (within k d f) q) (know i K o) Q.
Proof.
  intros Hi HK Hd H. apply del_section; [done|]. intros x c HKx. destruct (part x) as [s|] eqn:E.
  - rewrite (whole_part x s E) in HKx |- *. specialize (H s c HKx). by destruct (f s c) as [[s' c'] r].
  - exists o, K. splits; [|done|done|done|exact Hd]. intros m Hm. splits; [done|apply evolve_refl|done].
Qed.

Lemma del_keep {C A B} `{!Part X C} i k (d : B) (f : C -> option Waker -> C * option Waker * B) (q : B -> prog (world X) A) K Q :
  (i < n)%nat -> kept i K -> (forall r, rg R i (q r) (know i K None) Q) ->
  (forall s c m, contents_wf dflt m (whole s) -> K k (whole s) -> let '(s', c', r) := f s c in
     contents_wf dflt m (whole s') /\ evolve i k (whole s) (whole s') /\ K k (whole s')) ->
  rg R i (bind (within k d f) q) (know i K None) Q.
Proof.
  intros Hi HK Hq H. apply del_part; [done|done|apply Hq|]. intros s c HKs. specialize (H s c). destruct (f s c) as [[s' c'] r].
  exists None, K. splits; [|done|done|done|apply Hq]. intros m. rewrite due_none, Nat.add_0_r. auto.
Qed.

(** Nothing but the stored waker changes. *)
Lemma del_keep_same {C A B} `{!Part X C} i k (d : B) (f : C -> option Waker -> C * option Waker * B) (q : B -> prog (world X) A) K Q :
  (i < n)%nat -> kept i K -> (forall s c, (f s c).1.1 = s) -> (forall r, rg R i (q r) (know i K None) Q) -> rg R i (bind (within k d f) q) (know i K None) Q.
Proof.
  intros Hi HK Hf Hq. apply del_keep; [done|done|done|]. intros s c m Hm HKs. specialize (Hf s c). destruct (f s c) as [[s' c'] r]. simpl in Hf. subst s'.
  splits; [done|apply evolve_refl|done].
Qed.

(** ** Knowledge *)

(** A consumer has called every closure it took out. *)
Definition calm (i k : nat) (x : X) : Prop := owner k = i -> match x with AsMailbox m => popped m = ran m | _ => True end.

#[local] Arguments calm : simpl never.
Lemma kept_calm i : kept i (calm i).
Proof.
  intros j k x x' Hj H He Ho. specialize (H Ho). destruct x, x'; try done. simpl in He. destruct He as [E1 E2]; congruence.
Qed.

(** ... and about source [k0]: *)
Definition also (i k0 : nat) (L : X -> Prop) (k : nat) (x : X) : Prop := calm i k x /\ (k = k0 -> L x).

#[local] Arguments also : simpl never.
Lemma kept_also i k0 (L : X -> Prop) : (forall j x x', j <> i -> L x -> evolve j k0 x x' -> L x') -> kept i (also i k0 L).
Proof. intros HL j k x x' Hj [H1 H2] He. split; [by apply (kept_calm i j k x)|]. intros ->. eauto. Qed.

Lemma also_calm {A} i k0 L (p : prog (world X) A) o Q : rg R i p (know i (calm i) o) Q -> rg R i p (know i (also i k0 L) o) Q.
Proof. intros H. eapply rg_pre; [|exact H]. intros w g _ [H1 H2]. split; [done|]. intros k x c Hk. by destruct (H2 k x c Hk). Qed.

(** The completion is claimed by [i], who brings [p]; [o] is written so far. *)
Definition claims (i : nat) (p o : Outcome V) (x : X) : Prop :=
  exists s, x = AsCompletion s /\ winner s = Some (i, p) /\ ready s = false /\ outcome s = o.
Definition is_ready (x : X) : Prop := match x with AsCompletion s => ready s = true | _ => True end.

Lemma kept_claims i k p o : kept i (also i k (claims i p o)).
Proof.
  apply kept_also. intros j x x' Hj (s & -> & H1 & H2 & H3) He. destruct x' as [s'| |]; try done. destruct He as [_ He]. rewrite (He i p); try done. by exists s.
Qed.
Lemma kept_ready i k : kept i (also i k is_ready).
Proof. apply kept_also. intros j x x' Hj H He. destruct x, x'; try done. simpl in *. by apply He. Qed.

Definition is_stream (x : X) : Prop := match x with AsStream s => True | _ => False end.
Lemma kept_stream i k : kept i (also i k is_stream).
Proof. apply kept_also. intros j x x' Hj H He. by destruct x, x'. Qed.

(** The consumer is about to call [f]. *)
Definition about_to (i k0 : nat) (f : V) (k : nat) (x : X) : Prop :=
  (k <> k0 -> calm i k x) /\ (k = k0 -> match x with AsMailbox m => popped m = ran m ++ [f] | _ => True end).
Lemma kept_about i k0 f : owner k0 = i -> kept i (about_to i k0 f).
Proof.
  intros Ho j k x x' Hj [H1 H2] He. split; [intros Hne; by apply (kept_calm i j k x); auto|]. intros ->. specialize (H2 eq_refl). destruct x, x'; try done.
  simpl in He. destruct He as [E1 E2]; congruence.
Qed.

(** ** Producers *)

Section producer.
Context {A : Type} (i k : nat) (Hi : (i < n)%nat) (q : unit -> prog (world X) A) (Q : A -> asrt (world X) G).
Context (Hq : rg R i (q tt) (know i (calm i) None) Q).
Notation base := (know i (calm i) None).

Lemma del_claim p (q' : bool -> prog (world X) A) :
  rg R i (q' true) (know i (also i k (claims i p (new_outcome dflt))) None) Q -> rg R i (q' false) base Q -> rg R i (bind (claim i k p) q') base Q.
Proof.
  intros Ht Hf. apply del_part; [done|apply kept_calm|exact Hf|]. intros s c HK. destruct (claimed s) eqn:Ec; simpl.
  - exists None, (calm i). splits; [|done|done|apply kept_calm|exact Hf]. intros m Hm. replace (MkCompletion true _ _ _ _) with s; [|destruct s; simpl in *; by subst].
    splits; [done|apply evolve_refl|done].
  - exists None, (also i k (claims i p (new_outcome dflt))). splits; [|done| |apply kept_claims|exact Ht].
    + intros m [H1 H2 H3]. destruct (H1 Ec) as [Hr Hw]. destruct (H2 Hr) as [Hg Ho]. splits.
      * split; simpl; [done|intros _; by split|congruence].
      * split; simpl; [done|]. intros j o. congruence.
      * split; [done|]. intros _. eexists. split; [done|]. simpl. auto.
    + intros k2 y Hne Hy. by split.
Qed.

Lemma del_write f p o (q' : unit -> prog (world X) A) :
  rg R i (q' tt) (know i (also i k (claims i p (f o))) None) Q -> rg R i (bind (write_outcome k f) q') (know i (also i k (claims i p o)) None) Q.
Proof.
  intros H. apply del_section; [done|]. intros x c HKx. pose proof HKx as [Hcalm Hcl]. destruct (Hcl eq_refl) as (s & -> & Hw & Hr & Ho). simpl.
  exists None, (also i k (claims i p (f o))). splits; [|done| |apply kept_claims|exact H].
  - intros m [H1 H2 H3]. splits.
    + split; simpl; [done|intros _; split; [by apply H2|congruence]|congruence].
    + split; simpl; [done|]. intros j o' E. congruence.
    + split; [done|]. intros _. eexists. split; [done|]. simpl. by rewrite Ho.
  - intros k2 y Hne [Hy _]. by split.
Qed.

Lemma del_publish p : rg R i (bind (publish (V:=V) k) q) (know i (also i k (claims i p p)) None) Q.
Proof.
  apply rg_bind_assoc, del_section; [done|]. intros x c HKx. pose proof HKx as [Hcalm Hcl]. destruct (Hcl eq_refl) as (s & -> & Hw & Hr & Ho). simpl.
  exists None, (calm i). splits; [|done| |apply kept_calm|by apply del_wake; [apply kept_calm|]].
  - intros m [H1 H2 H3]. splits.
    + destruct (H2 Hr) as [Hg _]. split; simpl; [intros E; destruct (H1 E); congruence|done|]. intros _. exists i, p. rewrite Hg, Ho. splits; try done.
    + split; simpl; [done|]. intros j o' E. congruence.
    + done.
  - intros k2 y Hne [Hy _]. done.
Qed.

Lemma del_deliver f : rg R i (bind (deliver dflt i k f) q) base Q.
Proof. apply rg_bind_assoc, del_claim; [|exact Hq]. apply rg_bind_assoc, del_write, del_publish. Qed.

Lemma del_set_void : rg R i (bind (set_void dflt i k) q) base Q.
Proof. apply rg_bind_assoc, del_claim; [apply del_publish|exact Hq]. Qed.

Lemma del_push v : rg R i (bind (push k v) q) base Q.
Proof.
  assert (Hw : forall m, rg R i (bind (wake m) q) base Q) by (intros m; by apply del_wake; [apply kept_calm|]).
  apply rg_bind_assoc, del_part; [done|apply kept_calm|apply (Hw None)|]. intros s c HK. pose proof (fun m => stream_push_wf m v s) as Hwf.
  destruct (push_locked v s) as [s' [|]]; simpl in Hwf; unfold takeConsumerLocked; cbv beta iota.
  - exists None, (calm i). splits; [|done|done|apply kept_calm|apply Hw]. intros m Hm. splits; [by apply Hwf|done|done].
  - exists (Some k), (also i k is_stream). splits; [| | |apply kept_stream|].
    + intros m Hm. split; [|split; [done|by split]]. replace (m + due (Some k) k)%nat with (S (m + due None k)); [by apply Hwf|].
      rewrite due_self, due_none. lia.
    + intros k2 Hne. unfold due. rewrite !decide_False; congruence.
    + intros k2 y Hne Hy. by split.
    + apply del_section; [done|]. intros x c2 [Hcalm Hst]. specialize (Hst eq_refl). destruct x as [s2|s2|s2]; try done.
      exists None, (calm i). splits; [|intros k2 Hne; unfold due; rewrite !decide_False; congruence|by intros k2 y _ [? _]|apply kept_calm|exact Hq].
      intros m Hm. split; [|done]. apply stream_count_wf. rewrite due_none, Nat.add_0_r. by rewrite due_self, Nat.add_1_r in Hm.
Qed.

Lemma del_close : rg R i (bind (close (V:=V) k) q) base Q.
Proof.
  apply rg_bind_assoc, del_keep; [done|apply kept_calm|intros m; by apply del_wake; [apply kept_calm|]|]. intros s c m Hm HK. unfold takeConsumerLocked. splits; [by apply stream_close_wf|done|done].
Qed.

Lemma del_post f : rg R i (bind (post k f) q) base Q.
Proof.
  apply rg_bind_assoc, del_keep; [done|apply kept_calm|intros m; by apply del_wake; [apply kept_calm|]|]. intros s c m [H1 H2] HK. unfold post_locked.
  destruct (mclosed s); [splits; [by split|apply evolve_refl|done]|]. splits; [|done|done]. split; simpl; [by rewrite H1, app_assoc|done].
Qed.

Lemma del_mailbox_close : rg R i (bind (mailbox_close (F:=V) k) q) base Q.
Proof.
  apply rg_bind_assoc, del_keep; [done|apply kept_calm|intros m; by apply del_wake; [apply kept_calm|]|]. intros s c m [H1 H2] HK. splits; [by split|done|done].
Qed.
End producer.

(** ** Consumers *)

Section consumer.
Context {A : Type} (i k : nat) (Hi : (i < n)%nat) (Q : A -> asrt (world X) G).
Notation base := (know i (calm i) None).

Lemma del_asks ks K o me (q : unit -> prog (world X) A) : kept i K -> rg R i (q tt) (know i K o) Q -> rg R i (bind (asks me ks) q) (know i K o) Q.
Proof. intros HK Hq. by apply del_store. Qed.

(** The completion is looked at. *)
Lemma del_looks (f : CompletionState V -> option Waker -> CompletionState V * option Waker * bool) b (q : bool -> prog (world X) A) d :
  (forall s c, (f s c).1.1 = s /\ ((f s c).2 = b -> ready s = true)) ->
  rg R i (q b) (know i (also i k is_ready) None) Q -> rg R i (q (negb b)) base Q -> rg R i (bind (within k d f) q) base Q.
Proof.
  intros Hf Hb Hn. apply del_section; [done|]. intros x c HK.
  assert (Hsame : forall r, (r = b -> is_ready x) -> exists o' K', (forall m, contents_wf dflt (m + due None k) x -> contents_wf dflt (m + due o' k) x /\ evolve i k x x /\ K' k x) /\
    (forall k2, k2 <> k -> due o' k2 = due None k2) /\ (forall k2 y, k2 <> k -> calm i k2 y -> K' k2 y) /\ kept i K' /\ rg R i (q r) (know i K' o') Q).
  { intros r Hr. destruct (decide (r = b)) as [->|Hne].
    - exists None, (also i k is_ready). splits; [|done| |apply kept_ready|exact Hb].
      + intros m Hm. splits; [done|apply evolve_refl|]. split; [done|]. intros _. by apply Hr.
      + intros k2 y Hk2 Hy. by split.
    - exists None, (calm i). splits; [|done|done|apply kept_calm|by destruct r, b].
      intros m Hm. splits; [done|apply evolve_refl|done]. }
  destruct (part x) as [s|] eqn:E.
  - rewrite (whole_part x s E) in Hsame |- *. destruct (Hf s c) as [E1 E2]. destruct (f s c) as [[s' c'] r]. simpl in E1, E2. subst s'. by apply Hsame.
  - apply Hsame. intros _. by destruct x.
Qed.

Lemma del_take_outcome b (q : Outcome V -> prog (world X) A) :
  (forall o, rg R i (q o) base Q) -> rg R i (bind (take_outcome dflt (stay left_behind b) k) q) (know i (also i k is_ready) None) Q.
Proof.
  intros Hq. apply del_part; [done|apply kept_ready|apply also_calm, Hq|]. intros s c [Hcalm Hr]. specialize (Hr eq_refl). simpl in Hr.
  exists None, (calm i). splits; [|done|by intros k2 y _ [? _]|apply kept_calm|apply Hq]. intros m [H1 H2 H3]. splits.
  - split; simpl; [done|congruence|]. intros _. destruct (H3 Hr) as (j & o & Hw & He & Hn & Hf & Ha). exists j, o.
    assert (Hes : error (stay left_behind b (outcome s)) = error o) by (rewrite <- He; by destruct b). splits; [done|done| | |].
    + intros E. by apply app_eq_nil in E as [_ ?].
    + intros o' Ho'. destruct (got s) as [|o1 l] eqn:Eg; [injection Ho' as <-; by apply Hn|]. by apply Hf.
    + apply Forall_app. split; [done|]. by repeat constructor.
  - split; simpl; [done|congruence].
  - done.
Qed.

Lemma del_isReady_at (q : bool -> prog (world X) A) :
  rg R i (q true) (know i (also i k is_ready) None) Q -> rg R i (q false) base Q -> rg R i (bind (isReady_at (V:=V) k) q) base Q.
Proof. intros Ht Hf. by apply (del_looks _ true). Qed.

Lemma del_attach_at me (q : bool -> prog (world X) A) :
  rg R i (q true) base Q -> rg R i (q false) (know i (also i k is_ready) None) Q -> rg R i (bind (attach_at (V:=V) k me) q) base Q.
Proof. intros Ht Hf. apply (del_looks _ false); [|done|done]. intros s c. unfold attach_locked. by destruct (ready s). Qed.

Lemma del_detach_at me K (q : unit -> prog (world X) A) : kept i K -> rg R i (q tt) (know i K None) Q -> rg R i (bind (detach_at (V:=V) k me) q) (know i K None) Q.
Proof. intros HK Hq. apply del_keep_same; [done|done| |by intros []]. intros s c. unfold detach_locked. by case_decide. Qed.

Lemma del_get_loop fuel me (q : ended unit -> prog (world X) A) :
  rg R i (q (Returned tt)) (know i (also i k is_ready) None) Q -> rg R i (q Gone) base Q -> rg R i (bind (get_loop (V:=V) fuel k me) q) base Q.
Proof.
  intros Hr Hg. induction fuel as [|fuel IH]; [done|]. cbn [get_loop]. apply rg_bind_assoc, del_attach_at; [|exact Hr].
  apply rg_bind_assoc, del_block; [apply kept_calm|]. intros [| |]; [exact IH|exact IH|exact Hg].
Qed.

Lemma del_getUntil_loop fuel me (q : ended unit -> prog (world X) A) :
  (forall r, rg R i (q r) base Q) -> rg R i (bind (getUntil_loop (V:=V) fuel k me) q) base Q.
Proof.
  intros Hq. induction fuel as [|fuel IH]; [done|]. cbn [getUntil_loop]. apply rg_bind_assoc, del_attach_at; [|apply also_calm, Hq].
  apply rg_bind_assoc, del_blockUntil; [apply kept_calm|]. intros [| |]; [exact IH|apply Hq|apply Hq].
Qed.

Lemma del_get b fuel me (q : ended (Outcome V) -> prog (world X) A) :
  (forall r, rg R i (q r) base Q) -> rg R i (bind (get dflt (stay left_behind b) fuel k me) q) base Q.
Proof.
  intros Hq. assert (Htake : rg R i (bind (o <- take_outcome dflt (stay left_behind b) k;; Ret (Returned o)) q) (know i (also i k is_ready) None) Q).
  { apply rg_bind_assoc, del_take_outcome. intros o. apply Hq. }
  apply rg_bind_assoc, del_isReady_at; [exact Htake|]. apply rg_bind_assoc, del_asks; [apply kept_calm|]. apply rg_bind_assoc, del_get_loop.
  - apply rg_bind_assoc, del_detach_at; [apply kept_ready|exact Htake].
  - apply rg_bind_assoc, del_detach_at; [apply kept_calm|apply Hq].
Qed.

Lemma del_getUntil b fuel me (q : ended (Outcome V) -> prog (world X) A) :
  (forall r, rg R i (q r) base Q) -> rg R i (bind (getUntil dflt (stay left_behind b) fuel k me) q) base Q.
Proof.
  intros Hq. assert (Htake : rg R i (bind (o <- take_outcome dflt (stay left_behind b) k;; Ret (Returned o)) q) (know i (also i k is_ready) None) Q).
  { apply rg_bind_assoc, del_take_outcome. intros o. apply Hq. }
  apply rg_bind_assoc, del_isReady_at; [exact Htake|]. apply rg_bind_assoc, del_asks; [apply kept_calm|]. apply rg_bind_assoc, del_getUntil_loop. intros [u|].
  - apply rg_bind_assoc, del_isReady_at; (apply rg_bind_assoc, del_detach_at; [apply kept_ready || apply kept_calm|]); [exact Htake|apply Hq].
  - apply rg_bind_assoc, del_detach_at; [apply kept_calm|apply Hq].
Qed.

Lemma del_get_ready b (q : unit -> prog (world X) A) : rg R i (q tt) base Q -> rg R i (bind (get_ready dflt (stay left_behind b) k) q) base Q.
Proof.
  intros Hq. apply rg_bind_assoc, del_isReady_at; [apply rg_bind_assoc, del_take_outcome; by intros o|]. by apply del_store; [apply kept_calm| |].
Qed.

Lemma del_cancel (c : bool) me (q : bool -> prog (world X) A) :
  (forall r, rg R i (q r) base Q) -> rg R i (bind (if c then cancel (V:=V) k me else Ret false) q) base Q.
Proof.
  intros Hq. destruct c; [|apply Hq]. apply del_keep_same; [done|apply kept_calm| |exact Hq]. intros s d. unfold cancel_locked. by case_decide.
Qed.

Lemma del_get_callback b me early late (q : unit -> prog (world X) A) :
  rg R i (q tt) base Q -> rg R i (bind (get_callback dflt (stay left_behind b) k me early late) q) base Q.
Proof.
  intros Hq. apply rg_bind_assoc, del_cancel. intros was. apply rg_bind_assoc, del_keep_same; [done|apply kept_calm| |].
  { intros s c. unfold attachOrReady_locked. destruct (ready s); [done|]. by destruct (early && negb was). }
  intros [| |]; [by apply del_get_ready| |exact Hq]. apply rg_bind_assoc, del_asks; [apply kept_calm|]. apply rg_bind_assoc, del_cancel.
  intros [|]; [exact Hq|]. apply rg_bind_assoc, del_awaitCallback; [apply kept_calm|by apply del_get_ready].
Qed.

(** *** Streams *)

Lemma del_stream {B} (f : Stream V -> option Waker -> Stream V * option Waker * B) d (q : B -> prog (world X) A) :
  (forall s c, (f s c).1.1 = s \/ (count s <> 0%nat /\ (f s c).1.1 = (popLocked dflt s).1)) ->
  (forall r, rg R i (q r) base Q) -> rg R i (bind (within k d f) q) base Q.
Proof.
  intros Hf Hq. apply del_keep; [done|apply kept_calm|exact Hq|]. intros s c m Hm HK. specialize (Hf s c). destruct (f s c) as [[s' c'] r]. simpl in Hf.
  destruct Hf as [->|[Hn ->]]; splits; [done|apply evolve_refl|done|by apply stream_pop_wf|done|done].
Qed.

Lemma del_next_turn me (q : turn V -> prog (world X) A) : (forall r, rg R i (q r) base Q) -> rg R i (bind (within k End (next_locked dflt me)) q) base Q.
Proof.
  apply del_stream. intros s c. unfold next_locked. destruct (Nat.eqb_spec (count s) 0); [left; by destruct (closed s)|by right].
Qed.

Lemma del_tryNext (q : option V -> prog (world X) A) : (forall r, rg R i (q r) base Q) -> rg R i (bind (tryNext dflt k) q) base Q.
Proof. apply del_stream. intros s c. unfold tryNext_locked. destruct (Nat.eqb_spec (count s) 0); [by left|by right]. Qed.

Lemma del_stream_detach me (q : unit -> prog (world X) A) : rg R i (q tt) base Q -> rg R i (bind (stream_detach_at (V:=V) k me) q) base Q.
Proof. intros Hq. apply del_keep_same; [done|apply kept_calm| |by intros []]. intros s c. unfold stream_detach. by case_decide. Qed.

Lemma del_next fuel me (q : ended (option V) -> prog (world X) A) : (forall r, rg R i (q r) base Q) -> rg R i (bind (next dflt fuel k me) q) base Q.
Proof.
  intros Hq. apply rg_bind_assoc, del_asks; [apply kept_calm|]. apply rg_bind_assoc.
  assert (Hend : forall r, rg R i (bind (stream_detach_at (V:=V) k me;;; Ret r) q) base Q) by (intros r; apply rg_bind_assoc, del_stream_detach, Hq).
  induction fuel as [|fuel IH]; [done|]. cbn [next_loop]. apply rg_bind_assoc, del_next_turn. intros [v| |]; [apply Hend|apply Hend|].
  apply rg_bind_assoc, del_block; [apply kept_calm|]. intros [| |]; [exact IH|exact IH|apply Hend].
Qed.

Lemma del_nextUntil fuel me (q : ended (option V) -> prog (world X) A) : (forall r, rg R i (q r) base Q) -> rg R i (bind (nextUntil dflt fuel k me) q) base Q.
Proof.
  intros Hq. apply rg_bind_assoc, del_asks; [apply kept_calm|]. apply rg_bind_assoc.
  assert (Hend : forall r, rg R i (bind (stream_detach_at (V:=V) k me;;; Ret r) q) base Q) by (intros r; apply rg_bind_assoc, del_stream_detach, Hq).
  induction fuel as [|fuel IH]; [done|]. cbn [nextUntil_loop]. apply rg_bind_assoc, del_next_turn. intros [v| |]; [apply Hend|apply Hend|].
  apply rg_bind_assoc, del_blockUntil; [apply kept_calm|]. intros [| |]; [exact IH| |apply Hend]. apply rg_bind_assoc, del_tryNext. intros o. apply Hend.
Qed.

Lemma del_stream_cancel (c : bool) me (q : bool -> prog (world X) A) :
  (forall r, rg R i (q r) base Q) -> rg R i (bind (if c then stream_cancel_at (V:=V) k me else Ret false) q) base Q.
Proof.
  intros Hq. destruct c; [|apply Hq]. apply del_keep_same; [done|apply kept_calm| |exact Hq]. intros s d. unfold stream_cancel. by case_decide.
Qed.

Lemma del_next_callback fuel me early late (q : unit -> prog (world X) A) :
  rg R i (q tt) base Q -> rg R i (bind (next_callback dflt fuel k me early late) q) base Q.
Proof.
  intros Hq. induction fuel as [|fuel IH]; [done|]. cbn [next_callback]. apply rg_bind_assoc, del_stream_cancel. intros was. apply rg_bind_assoc, del_stream.
  { intros s c. unfold nextOrAttach_locked. destruct (Nat.eqb_spec (count s) 0); [left|by right]. destruct (closed s); [done|]. by destruct (early && negb was). }
  intros [v| | | |]; try exact Hq. apply rg_bind_assoc, del_asks; [apply kept_calm|]. apply rg_bind_assoc, del_stream_cancel.
  intros [|]; [exact Hq|]. by apply rg_bind_assoc, del_awaitCallback; [apply kept_calm|].
Qed.

(** *** Mailboxes *)

Definition popped_by (r : ended (option V)) : nat -> X -> Prop := match r with Returned (Some f) => about_to i k f | _ => calm i end.

Lemma kept_popped r : owner k = i -> kept i (popped_by r).
Proof. intros Ho. destruct r as [[f|]|]; [by apply kept_about|apply kept_calm|apply kept_calm]. Qed.

(** The consumer takes a closure out, or does not. *)
Lemma del_mailbox {B} (f : Mailbox V -> option Waker -> Mailbox V * option Waker * B) d (item : B -> option V) (q : B -> prog (world X) A) :
  owner k = i -> item d = None ->
  (forall s c, ((f s c).1.1 = s /\ item (f s c).2 = None) \/ (exists v l, queue s = v :: l /\ (f s c).1.1 = pop_front s v l /\ item (f s c).2 = Some v)) ->
  (forall r, rg R i (q r) (know i (match item r with Some v => about_to i k v | None => calm i end) None) Q) -> rg R i (bind (within k d f) q) base Q.
Proof.
  intros Ho Hd Hf Hq. apply del_part; [done|apply kept_calm|specialize (Hq d); by rewrite Hd in Hq|]. intros s c HK. specialize (Hf s c). destruct (f s c) as [[s' c'] r].
  specialize (Hq r). simpl in Hf. destruct Hf as [[-> Er]|(v & l & El & -> & Er)]; rewrite Er in Hq.
  - exists None, (calm i). splits; [|done|done|apply kept_calm|exact Hq]. intros m Hm. splits; [done|apply evolve_refl|done].
  - exists None, (about_to i k v). splits; [|done| |by apply kept_about|exact Hq].
    + intros m [H1 H2]. splits; [|intros Hne; by destruct Hne|].
      * split; simpl; [by rewrite H1, El, <- app_assoc|by apply prefix_app_r].
      * split; [done|]. intros _. simpl. specialize (HK Ho). simpl in HK. by rewrite HK.
    + intros k2 y Hne Hy. split; [done|by intros ->].
Qed.

Lemma del_call v (q : unit -> prog (world X) A) : owner k = i -> rg R i (q tt) base Q -> rg R i (bind (call k v) q) (know i (about_to i k v) None) Q.
Proof.
  intros Ho Hq. apply del_section; [done|]. intros x c [_ Hab]. specialize (Hab eq_refl). destruct x as [s|s|s].
  - exists None, (calm i). splits; [intros m Hm; splits; [done|apply evolve_refl|done]|done| |apply kept_calm|exact Hq]. intros k2 y Hne [Hy _]. by apply Hy.
  - exists None, (calm i). splits; [intros m Hm; splits; [done|apply evolve_refl|done]|done| |apply kept_calm|exact Hq]. intros k2 y Hne [Hy _]. by apply Hy.
  - exists None, (calm i). splits; [|done|intros k2 y Hne [Hy _]; by apply Hy|apply kept_calm|exact Hq]. intros m [H1 H2]. splits.
    + split; simpl; [done|]. rewrite Hab. reflexivity.
    + intros Hne. by destruct Hne.
    + intros _. simpl. done.
Qed.

Lemma del_run_closure r (q : ended bool -> prog (world X) A) :
  owner k = i -> (forall b, rg R i (q b) base Q) -> rg R i (bind (run_closure k r) q) (know i (popped_by r) None) Q.
Proof. intros Ho Hq. destruct r as [[f|]|]; [|apply Hq|apply Hq]. apply rg_bind_assoc, del_call; [done|apply Hq]. Qed.

Lemma del_mailbox_detach me r (q : unit -> prog (world X) A) :
  owner k = i -> rg R i (q tt) (know i (popped_by r) None) Q -> rg R i (bind (mailbox_detach_at (F:=V) k me) q) (know i (popped_by r) None) Q.
Proof. intros Ho Hq. apply del_keep_same; [done|by apply kept_popped| |by intros []]. intros s c. unfold mailbox_detach. by case_decide. Qed.

Lemma del_mailbox_end me r (q : ended bool -> prog (world X) A) :
  owner k = i -> (forall b, rg R i (q b) base Q) ->
  rg R i (bind (mailbox_detach_at (F:=V) k me;;; Ret r) (fun r => bind (run_closure k r) q)) (know i (popped_by r) None) Q.
Proof. intros Ho Hq. apply rg_bind_assoc, del_mailbox_detach; [done|]. by apply del_run_closure. Qed.

Lemma del_mailbox_turn me (q : turn V -> prog (world X) A) : owner k = i ->
  (forall v, rg R i (q (Item v)) (know i (about_to i k v) None) Q) -> rg R i (q End) base Q -> rg R i (q Attached) base Q ->
  rg R i (bind (within k End (mailbox_next_locked me)) q) base Q.
Proof.
  intros Ho H1 H2 H3. apply (del_mailbox _ End (fun r => match r with Item v => Some v | _ => None end)); [done|done| |by intros [v| |]].
  intros s c. unfold mailbox_next_locked. destruct (queue s) as [|v l] eqn:E; [left; by destruct (mclosed s)|right; by exists v, l].
Qed.

Lemma del_runOne fuel me (q : ended bool -> prog (world X) A) : owner k = i -> (forall r, rg R i (q r) base Q) -> rg R i (bind (runOne (F:=V) fuel k me) q) base Q.
Proof.
  intros Ho Hq. apply rg_bind_assoc, rg_bind_assoc, del_asks; [apply kept_calm|]. apply rg_bind_assoc.
  induction fuel as [|fuel IH]; [done|]. cbn [mailbox_next_loop]. apply rg_bind_assoc, del_mailbox_turn; [done| | |].
  - intros v. by apply (del_mailbox_end me (Returned (Some v))).
  - by apply (del_mailbox_end me (Returned None)).
  - apply rg_bind_assoc, del_block; [apply kept_calm|]. intros [| |]; [exact IH|exact IH|]. by apply (del_mailbox_end me Gone).
Qed.

Lemma del_runOneFor fuel me (q : ended bool -> prog (world X) A) : owner k = i -> (forall r, rg R i (q r) base Q) -> rg R i (bind (runOneFor (F:=V) fuel k me) q) base Q.
Proof.
  intros Ho Hq. apply rg_bind_assoc, rg_bind_assoc, del_asks; [apply kept_calm|]. apply rg_bind_assoc.
  induction fuel as [|fuel IH]; [done|]. cbn [mailbox_nextUntil_loop]. apply rg_bind_assoc, del_mailbox_turn; [done| | |].
  - intros v. by apply (del_mailbox_end me (Returned (Some v))).
  - by apply (del_mailbox_end me (Returned None)).
  - apply rg_bind_assoc, del_blockUntil; [apply kept_calm|]. intros [| |]; [exact IH| |by apply (del_mailbox_end me Gone)].
    apply rg_bind_assoc, (del_mailbox _ None id); [done|done| |intros r; by destruct r as [v|]; [apply (del_mailbox_end me (Returned (Some v)))|apply (del_mailbox_end me (Returned None))]].
    intros s c. unfold mailbox_tryNext. destruct (queue s) as [|v l] eqn:E; [by left|right; by exists v, l].
Qed.

Lemma del_mailbox_run fuel me (q : ended unit -> prog (world X) A) : owner k = i -> (forall r, rg R i (q r) base Q) -> rg R i (bind (mailbox_run (F:=V) fuel k me) q) base Q.
Proof.
  intros Ho Hq. induction fuel as [|fuel IH]; [done|]. cbn [mailbox_run]. apply rg_bind_assoc, del_runOne; [done|]. intros [[|]|]; [exact IH|apply Hq|apply Hq].
Qed.
End consumer.

(** *** Select *)

Section select.
Context {A : Type} (i : nat) (Hi : (i < n)%nat) (Q : A -> asrt (world X) G).
Notation base := (know i (calm i) None).

Lemma del_ready_flags ks (q : list bool -> prog (world X) A) : (forall l, rg R i (q l) base Q) -> rg R i (bind (ready_flags ks) q) base Q.
Proof.
  revert q. induction ks as [|k ks IH]; intros q Hq; cbn [ready_flags]; [apply Hq|]. apply rg_bind_assoc, del_same; [done|apply kept_calm|done|].
  intros b. apply rg_bind_assoc, IH. intros l. apply Hq.
Qed.
Lemma del_firstReady ks (q : option nat -> prog (world X) A) : (forall r, rg R i (q r) base Q) -> rg R i (bind (firstReady ks) q) base Q.
Proof. intros Hq. apply rg_bind_assoc, del_ready_flags. intros l. apply Hq. Qed.
Lemma del_attach_flags me ks (q : list bool -> prog (world X) A) : (forall l, rg R i (q l) base Q) -> rg R i (bind (attach_flags me ks) q) base Q.
Proof.
  revert q. induction ks as [|k ks IH]; intros q Hq; cbn [attach_flags]; [apply Hq|]. apply rg_bind_assoc, del_same; [done|apply kept_calm| |].
  { intros x c. rewrite attach_law. by destruct (isReady x). }
  intros b. apply rg_bind_assoc, IH. intros l. apply Hq.
Qed.
Lemma del_detachAll me ks (q : unit -> prog (world X) A) : rg R i (q tt) base Q -> rg R i (bind (detachAll me ks) q) base Q.
Proof.
  intros Hq. induction ks as [|k ks IH]; cbn [detachAll]; [apply Hq|]. apply rg_bind_assoc, del_same; [done|apply kept_calm| |by intros []].
  intros x c. rewrite detach_law. by case_decide.
Qed.
Lemma del_select fuel d me ks (q : ended (option nat) -> prog (world X) A) : (forall r, rg R i (q r) base Q) -> rg R i (bind (selectImpl fuel d me ks) q) base Q.
Proof.
  intros Hq. induction fuel as [|fuel IH]; [done|]. cbn [selectImpl]. apply rg_bind_assoc, del_firstReady. intros [r|]; [apply Hq|].
  apply rg_bind_assoc, del_store; [apply kept_calm|done|]. apply rg_bind_assoc, rg_bind_assoc, del_attach_flags. intros l. cbn [bind].
  destruct (forallb id l); [|by apply rg_bind_assoc, del_detachAll].
  assert (Hafter : forall r, rg R i (bind (match r with TimedOut => f <- firstReady ks;; detachAll me ks;;; Ret (Returned f) | Woken => detachAll me ks;;; selectImpl fuel d me ks
    | Unwound => detachAll me ks;;; Ret Gone end) q) base Q).
  { intros [| |]; [by apply rg_bind_assoc, del_detachAll| |apply rg_bind_assoc, del_detachAll, Hq].
    apply rg_bind_assoc, del_firstReady. intros f. apply rg_bind_assoc, del_detachAll, Hq. }
  apply rg_bind_assoc. destruct d; [apply del_blockUntil|apply del_block]; try apply kept_calm; exact Hafter.
Qed.
Lemma del_select_op fuel d me ks (q : ended unit -> prog (world X) A) : (forall r, rg R i (q r) base Q) -> rg R i (bind (select_op fuel d me ks) q) base Q.
Proof.
  intros Hq. apply rg_bind_assoc, del_select. intros [[j|]|]; [|apply Hq|apply Hq].
  destruct (ks !! j) as [k|]; [|by apply rg_bind_assoc, del_store; [apply kept_calm|done|apply Hq]].
  apply rg_bind_assoc, del_same; [done|apply kept_calm|done|]. intros [|]; apply rg_bind_assoc; [apply Hq|by apply del_store; [apply kept_calm|done|apply Hq]].
Qed.
End select.

(** ** Parties *)

Definition settled (i : nat) (_ : unit) : asrt (world X) G := know i (calm i) None.

Section party.
Context (i fuel : nat) (Hi : (i < n)%nat).
Notation base := (know i (calm i) None).

Lemma settled_ret : rg R i (Ret tt) base (settled i).
Proof. by intros w g _ H. Qed.

Lemma settled_ends {B} rest (r : ended B) : rg R i rest base (settled i) -> rg R i (match r with Gone => Ret tt | Returned _ => rest end) base (settled i).
Proof. destruct r; [done|intros _; apply settled_ret]. Qed.

Lemma del_perform me o rest : op_fits owner kd N i o = true -> rg R i rest base (settled i) -> rg R i (perform dflt left_behind fuel i me o rest) base (settled i).
Proof.
  intros Hfit Hrest. destruct o; cbn [op_fits perform] in *.
  1-3: by apply del_deliver.
  - by apply del_set_void.
  - by apply del_push.
  - by apply del_close.
  - by apply del_post.
  - by apply del_mailbox_close.
  - by apply del_store; [apply kept_calm| |].
  - apply del_get; [done|]. intros r. by apply settled_ends.
  - apply del_getUntil; [done|]. intros r. by apply settled_ends.
  - by apply del_get_callback.
  - by apply del_tryNext.
  - apply del_next; [done|]. intros r. by apply settled_ends.
  - apply del_nextUntil; [done|]. intros r. by apply settled_ends.
  - by apply del_next_callback.
  - apply consumes_spec in Hfit as (_ & _ & Ho). apply del_runOne; [done|done|]. intros r. by apply settled_ends.
  - apply consumes_spec in Hfit as (_ & _ & Ho). apply del_runOneFor; [done|done|]. intros r. by apply settled_ends.
  - apply consumes_spec in Hfit as (_ & _ & Ho). apply del_mailbox_run; [done|done|]. intros r. by apply settled_ends.
  - apply del_select_op; [done|]. intros r. by apply settled_ends.
Qed.

Lemma del_party me ops : Forall (fun o => op_fits owner kd N i o = true) ops -> rg R i (party dflt left_behind fuel i me ops) base (settled i).
Proof. induction 1 as [|o ops Ho _ IH]; [apply settled_ret|]. by apply del_perform. Qed.
End party.
End deliver.

(** ** Sources as they are constructed *)

Definition fresh {V} (dflt : V) (x : contents V) : Prop :=
  match x with
  | AsCompletion s => s = new dflt
  | AsStream s => exists capacity policy, Stream_new capacity policy = Some s
  | AsMailbox m => m = Mailbox_new
  end.

Lemma fresh_wf {V} (dflt : V) x : fresh dflt x -> contents_wf dflt 0 x.
Proof.
  destruct x as [s|s|s]; simpl.
  - intros ->. by split.
  - intros (cap & p & H). by eapply stream_new_wf.
  - intros ->. split; simpl; [done|reflexivity].
Qed.

Lemma fresh_calm {V} (dflt : V) owner x i k : fresh dflt x -> calm owner i k x.
Proof. intros H _. destruct x as [s|s|s]; try done. by rewrite H. Qed.

Lemma sources_pool_delivers {V} (dflt : V) left_behind fuel owner kd xs l :
  scripts_fit owner kd (length xs) l = true -> Forall (fresh dflt) xs ->
  pool_ok (dproto dflt owner (length l)) (settled owner) (sources_pool dflt left_behind fuel kd xs l).
Proof.
  intros Hfit Hfresh. exists (fun _ => None). split.
  - intros k x c Hk. simpl in Hk. rewrite list_lookup_fmap in Hk. apply fmap_Some in Hk as (y & Hy & [= -> ->]). unfold owed. rewrite total_zero by done.
    apply fresh_wf. by apply (Forall_lookup_1 _ _ _ _ Hfresh Hy).
  - intros i p Hp. simpl in Hp. rewrite list_lookup_imap in Hp. destruct (l !! i) as [ops|] eqn:E; [|done]. injection Hp as <-. pose proof (lookup_lt_Some _ _ _ E) as Hi.
    exists (know i (calm owner i) None). split; [apply stable_know, kept_calm|]. split.
    + split; [done|]. intros k x c Hk. simpl in Hk. rewrite list_lookup_fmap in Hk. apply fmap_Some in Hk as (y & Hy & [= -> ->]). apply (fresh_calm dflt).
      by apply (Forall_lookup_1 _ _ _ _ Hfresh Hy).
    + apply (del_party _ _ _ kd _ (length xs)); [done|]. by apply (scripts_fit_at owner kd (length xs) l).
Qed.

(** C20: In every interleaving, a completion that is ready has one winner, the party
    whose [set], [fail] or [setException] claimed it first; the first [get] that
    finds it ready returns what the winner brought, whatever the others write, and
    every [get] returns the winner's error code. *)
Theorem completion_first_wins {V} (dflt : V) left_behind fuel owner kd xs l ts w k s c :
  scripts_fit owner kd (length xs) l = true -> Forall (fresh dflt) xs ->
  reach (sources_pool dflt left_behind fuel kd xs l) (ts, w) -> sources w !! k = Some (AsCompletion s, c) ->
  (ready s = false -> got s = []) /\
  (ready s = true -> exists i o, winner s = Some (i, o) /\ (got s = [] -> outcome s = o) /\
     (forall o', got s !! 0%nat = Some o' -> o' = o) /\ forall o', o' ∈ got s -> error o' = error o).
Proof.
  intros Hfit Hfresh Hr Hk. pose proof (pool_ok_reach _ _ _ _ Hr (sources_pool_delivers dflt left_behind fuel owner kd xs l Hfit Hfresh)) as (g & HI & _).
  destruct (HI k _ c Hk) as [H1 H2 H3]. split; [intros E; by apply H2|]. intros E. destruct (H3 E) as (i & o & Hw & _ & Hn & Hf & Ha). exists i, o. splits; try done.
  intros o' Ho'. rewrite list.Forall_forall in Ha. by apply Ha.
Qed.

(** C21: A stream is a bounded queue that drops: in every interleaving no slot is
    destroyed empty or constructed over, the ring holds the newest of the accepted
    items in order, what the consumer received was accepted in that order; with
    [DropNewest] nothing accepted is ever lost, with [DropOldest] nothing is
    refused while open; the destructor destroys what is there and leaves nothing;
    and when all have returned, [dropped()] is exact. *)
Theorem stream_keeps_order {V} (dflt : V) left_behind fuel owner kd xs l ts w k s c :
  scripts_fit owner kd (length xs) l = true -> Forall (fresh dflt) xs ->
  reach (sources_pool dflt left_behind fuel kd xs l) (ts, w) -> sources w !! k = Some (AsStream s, c) ->
  broken s = false /\ (count s <= capacity s)%nat /\
  (exists buf gone, circle (capacity s) (slots s) (head s) (count s) buf /\ accepted s = gone ++ buf /\ received s `sublist_of` gone /\
     length gone = (length (received s) + overwritten s)%nat /\ (policy s = DropNewest -> gone = received s)) /\
  (policy s = DropOldest -> closed s = false -> refused s = 0%nat) /\
  (exists s', destroy_loop (capacity s) s = Some s' /\ broken s' = false /\ forall j o, slots s' !! j = Some o -> o = None) /\
  ((forall i th, ts !! i = Some th -> th = Ret tt) -> droppedCount s = (overwritten s + refused s)%nat).
Proof.
  intros Hfit Hfresh Hr Hk. pose proof (pool_ok_reach _ _ _ _ Hr (sources_pool_delivers dflt left_behind fuel owner kd xs l Hfit Hfresh)) as Hok.
  assert (Hlen : length ts = length l) by (pose proof (reach_length _ _ Hr) as E; simpl in E; by rewrite length_imap in E).
  destruct (pool_ok_waits _ _ _ _ Hok) as (g & HI & _ & HQ). destruct (HI k _ c Hk) as [(buf & gone & Hc & Hacc & Hsub & Hl) Hb Hp Hrf Hd]. splits.
  - done.
  - apply Hc.
  - exists buf, gone. splits; try done. intros Hpol. specialize (Hp Hpol). apply sublist_full; [done|]. lia.
  - intros Hpol Hcl. destruct (decide (refused s = 0)%nat) as [?|Hne]; [done|]. destruct Hrf; [lia|congruence|congruence].
  - apply (stream_destroy_ok _ s buf); [done|done|apply Hc].
  - intros Hall. assert (owed (length l) k g = 0%nat) as Hz; [|lia]. apply total_zero. intros i Hi. destruct (lookup_lt_is_Some_2 ts i) as [th Hth]; [lia|].
    pose proof (Hall i th Hth) as ->. destruct (HQ i tt Hth) as [-> _]. done.
Qed.

(** A mailbox runs what was posted in the order of the calls of [post]: in every
    interleaving the closures posted are those taken out, in order, and then those
    queued, and those that ran are the first of those taken out; once the consumer
    has returned, every closure that was taken out ran. *)
Theorem mailbox_in_order {F} (dflt : F) left_behind fuel owner kd xs l ts w k m c :
  scripts_fit owner kd (length xs) l = true -> Forall (fresh dflt) xs ->
  reach (sources_pool dflt left_behind fuel kd xs l) (ts, w) -> sources w !! k = Some (AsMailbox m, c) ->
  posted m = popped m ++ queue m /\ ran m `prefix_of` popped m /\
  (ts !! owner k = Some (Ret tt) -> ran m = popped m).
Proof.
  intros Hfit Hfresh Hr Hk. pose proof (pool_ok_reach _ _ _ _ Hr (sources_pool_delivers dflt left_behind fuel owner kd xs l Hfit Hfresh)) as Hok.
  destruct (pool_ok_waits _ _ _ _ Hok) as (g & HI & _ & HQ). destruct (HI k _ c Hk) as [H1 H2]. splits; [done|done|]. intros Hret.
  destruct (HQ (owner k) tt Hret) as [_ Hc]. symmetry. by apply (Hc k _ c Hk).
Qed.

(** ** A concrete run

    A task selects among a completion, a stream and a mailbox and then uses each; a
    callback waits for a second completion; a producer feeds them, and overflows
    the stream; a thread waits for a completion that nobody sets. *)
Definition some_sources : list (contents Z) :=
  [AsCompletion (new 0%Z);
   AsStream (MkStream 2 DropOldest [None; None] 0 0 false 0 false [] [] 0 0);
   AsMailbox Mailbox_new; AsCompletion (new 0%Z); AsCompletion (new 0%Z)].
Definition some_owner (k : nat) : nat := match k with 3 => 1 | 4 => 3 | _ => 0 end%nat.
Definition some_kind (i : nat) : Kind := match i with 0 => KTask | 1 => KCallback | _ => KThread end%nat.
Definition some_scripts : list (list (src_op Z)) :=
  [[OpSelect false [0; 1; 2]; OpGet false 0; OpNext 1; OpRunOne 2];
   [OpGetCallback false 3 false false];
   [OpSet 0 7%Z; OpPush 1 1%Z; OpPush 1 2%Z; OpPush 1 3%Z; OpPost 2 9%Z; OpFail 3 5%Z; OpSet 0 8%Z];
   [OpSelect false [4]]]%nat.
Definition some_schedule : list (nat * nat) := round_robin 2 12 ++ replicate 40 (2, 0)%nat ++ round_robin 4 60.
Definition some_final := run_avail some_schedule (sources_pool 0%Z (fun v => v) 9 some_kind some_sources some_scripts).

Lemma some_sources_fresh : Forall (fresh 0%Z) some_sources.
Proof. repeat constructor. exists 2%nat, DropOldest. reflexivity. Qed.

Lemma some_final_reach : reach (sources_pool 0%Z (fun v => v) 9 some_kind some_sources some_scripts) (some_final.1, some_final.2).
Proof. apply (run_avail_reach some_schedule). unfold some_final. apply surjective_pairing. Qed.

Definition state_of (k : nat) (w : world (contents Z)) : contents Z := default (AsMailbox Mailbox_new) (fst <$> sources w !! k).

Lemma source_no_lost_wakeup_witness :
  wrong some_final.2 = false /\ asked some_final.2 3 = [4%nat] /\ isReady (state_of 4 some_final.2) = false.
Proof.
  destruct (source_no_lost_wakeup 0%Z (fun v => v) 9 some_owner some_kind some_sources some_scripts some_final.1 some_final.2) as (Hw & _ & Hh);
    [vm_compute; reflexivity|apply some_final_reach|].
  split; [exact Hw|]. split; [vm_compute; reflexivity|].
  destruct (Hh ltac:(apply haltedb_all; vm_compute; reflexivity) 3%nat (default (Ret tt) (some_final.1 !! 3%nat))) as [_ Hall].
  - vm_compute. reflexivity.
  - vm_compute. discriminate.
  - destruct (Hall 4%nat) as (x & Hx & Hr); [vm_compute; left|]. unfold state_of. rewrite Hx. exact Hr.
Defined.

Lemma completion_first_wins_witness :
  match state_of 0 some_final.2 with
  | AsCompletion s => exists i o, winner s = Some (i, o) /\ forall o', got s !! 0%nat = Some o' -> o' = o
  | _ => False
  end.
Proof.
  destruct (sources some_final.2 !! 0%nat) as [[x c]|] eqn:E; [|vm_compute in E; discriminate E]. unfold state_of. rewrite E. simpl.
  destruct x as [s|s|s]; [|vm_compute in E; discriminate E|vm_compute in E; discriminate E].
  destruct (completion_first_wins 0%Z (fun v => v) 9 some_owner some_kind some_sources some_scripts some_final.1 some_final.2 0 s c) as [_ H];
    [vm_compute; reflexivity|apply some_sources_fresh|apply some_final_reach|exact E|].
  destruct H as (i & o & H1 & _ & H2 & _); [vm_compute in E; injection E as <- _; reflexivity|]. exists i, o. split; [exact H1|exact H2].
Defined.

Lemma stream_keeps_order_witness :
  match state_of 1 some_final.2 with
  | AsStream s => exists buf gone, accepted s = gone ++ buf /\ received s `sublist_of` gone /\ refused s = 0%nat
  | _ => False
  end.
Proof.
  destruct (sources some_final.2 !! 1%nat) as [[x c]|] eqn:E; [|vm_compute in E; discriminate E]. unfold state_of. rewrite E. simpl.
  destruct x as [s|s|s]; [vm_compute in E; discriminate E| |vm_compute in E; discriminate E].
  destruct (stream_keeps_order 0%Z (fun v => v) 9 some_owner some_kind some_sources some_scripts some_final.1 some_final.2 1 s c) as (_ & _ & (buf & gone & H) & Hr & _);
    [vm_compute; reflexivity|apply some_sources_fresh|apply some_final_reach|exact E|].
  exists buf, gone. destruct H as (_ & H1 & H2 & _). split; [exact H1|]. split; [exact H2|].
  apply Hr; vm_compute in E; injection E as <- _; reflexivity.
Defined.

Lemma mailbox_in_order_witness :
  match state_of 2 some_final.2 with
  | AsMailbox m => ran m = [9%Z] /\ ran m `prefix_of` popped m
  | _ => False
  end.
Proof.
  destruct (sources some_final.2 !! 2%nat) as [[x c]|] eqn:E; [|vm_compute in E; discriminate E]. unfold state_of. rewrite E. simpl.
  destruct x as [s|s|s]; [vm_compute in E; discriminate E|vm_compute in E; discriminate E|].
  destruct (mailbox_in_order 0%Z (fun v => v) 9 some_owner some_kind some_sources some_scripts some_final.1 some_final.2 2 s c) as (_ & H & _);
    [vm_compute; reflexivity|apply some_sources_fresh|apply some_final_reach|exact E|].
  split; [|exact H]. vm_compute in E. injection E as <- _. reflexivity.
Defined.
