(* ===== verification/Registration.v ===== *)
(** * Registration: counted readiness, and the transfers that wait for it

    [Registration] (io/Registration.h, io/src/Registration.cpp) and the loops over
    it (io/Async.h, io/src/Async.cpp: [tryCall], [retryWhenReady], [callWhenReady],
    [writeAllImpl], [readExactly], [acceptImpl]).

    - Each direction is a source of its own (Source.v): registration [r]'s reading
      side is source [2 r], its writing side [2 r + 1].  The two share a lock and
      nothing else, so [collect] is a section for each of them.
    - The event count is a [uint32_t]: [reports] ([bumps]) counts the reports, [events] is the
      count as the code sees it.
    - The kernel and the poller are a parameter ([Kernel]): what system calls and the
      poller's wait answer is any behaviour that satisfies the laws of the class, which
      are those of a non-blocking descriptor and of a poller that either reports every
      arrival (epoll, edge-triggered) or reports once what it was asked for with
      [arm] (poll(2)).
    - [onTheWay] and [hupsOnTheWay] count the reports that the poller's wait has
      returned and that are not yet collected; [waited] is the count that the stored
      waker waits to change; [managed] marks a direction that only the transfer
      functions use.  No code reads them. *)

From Stdlib Require Import ZArith Lia.
From stdpp Require Import base tactics list numbers option strings functions.
From S2P Require Import Prelude Conc Source.

(** ** Interests *)

Definition INone : Z := 0.
Definition Readable : Z := 1.
Definition Writable : Z := 2.
Definition has (s bit : Z) : bool := negb (Z.land s bit =? 0).

(** ** The kernel's end of a direction *)

Inductive sysret :=
  | Bytes (n : Z)
  | Eintr
  | Eagain
  | Errno (e : Z).

Class Kernel (K E : Type) := {
  (* a call would not block; the peer or an error ended the direction; the poller
     has a report to hand over, or will have one when something arrives *)
  available : K -> bool;
  hungUp : K -> bool;
  edge : K -> bool;
  attentive : K -> bool;
  (* what does not change: the poller reports every arrival
     ([Poller::reportsEveryArrival]); the descriptor is a stream of bytes *)
  everyArrival : K -> bool;
  streamed : K -> bool;
  (* a non-blocking call for that many bytes; an event; the poller takes the report;
     the poller is asked for a report *)
  call : Z -> K -> K * sysret;
  event : E -> K -> K;
  handOver : K -> K;
  arm : K -> K;

  call_bytes a k n : (call a k).2 = Bytes n -> 0 <= a -> 0 <= n <= a;
  call_errno a k e : (call a k).2 = Errno e -> e <> 0;
  call_edge a k : edge k = true -> edge (call a k).1 = true \/ (available (call a k).1 = false /\ hungUp (call a k).1 = false);
  call_hup a k : hungUp (call a k).1 = hungUp k;
  call_available a k : available (call a k).1 = true -> available k = true;
  call_again a k : (call a k).2 = Eagain -> available (call a k).1 = false;
  call_poller a k : attentive (call a k).1 = attentive k;
  (* a stream of bytes: a short transfer took everything, nothing is its end *)
  call_short a k n : streamed k = true -> (call a k).2 = Bytes n -> 0 < n < a -> available (call a k).1 = true -> hungUp (call a k).1 = true;
  call_eof a k : streamed k = true -> (call a k).2 = Bytes 0 -> 0 < a -> hungUp k = true;
  (* what arrives is reported, if the poller was asked to *)
  event_edge e k : edge k = true -> edge (event e k) = true;
  event_available e k : attentive k = true -> available (event e k) = true -> available k = true \/ edge (event e k) = true;
  event_hup e k : everyArrival k = true -> hungUp (event e k) = true -> hungUp k = true \/ edge (event e k) = true;
  event_ended e k : hungUp k = true -> hungUp (event e k) = true;
  event_poller e k : attentive (event e k) = attentive k;
  handOver_available k : available (handOver k) = available k;
  handOver_hup k : hungUp (handOver k) = hungUp k;
  (* [arm]: what is there already is reported, too *)
  arm_available k : available (arm k) = available k;
  arm_hup k : hungUp (arm k) = hungUp k;
  arm_edge k : edge k = true -> edge (arm k) = true;
  arm_attentive k : attentive (arm k) = true;
  arm_reports k : everyArrival k = false -> available k = true -> edge (arm k) = true;
  every_attentive k : everyArrival k = true -> attentive k = true;

  call_nature a k : everyArrival (call a k).1 = everyArrival k /\ streamed (call a k).1 = streamed k;
  event_nature e k : everyArrival (event e k) = everyArrival k /\ streamed (event e k) = streamed k;
  handOver_nature k : everyArrival (handOver k) = everyArrival k /\ streamed (handOver k) = streamed k;
  arm_nature k : everyArrival (arm k) = everyArrival k /\ streamed (arm k) = streamed k
}.

(** [Registration::Kind] *)
Inductive DescriptorKind := Other | Pipe | StreamSocket | DatagramSocket.
#[global] Instance DescriptorKind_eq_dec : EqDecision DescriptorKind.
Proof. solve_decision. Defined.

(** What does not change once the registration is made. *)
Record RegConfig := MkRegConfig { addError : Z; everyArrivalReported : bool; dkind : DescriptorKind }.

(** [setKind] *)
Definition byteStream (c : RegConfig) : bool :=
  (bool_decide (dkind c = StreamSocket) || bool_decide (dkind c = Pipe)) && everyArrivalReported c.
Definition isSocket (c : RegConfig) : bool :=
  bool_decide (dkind c = StreamSocket) || bool_decide (dkind c = DatagramSocket).

(** [std::errc::timed_out] *)
Definition timed_out : Z := 110.

Record Direction (K : Type) := MkDirection {
  reports : N;
  consumed : Z;
  closed : bool;
  exhausted : bool;
  exhaustedAt : Z;
  descriptor : K;
  onTheWay : nat;
  hupsOnTheWay : nat;
  waited : Z;
  managed : bool
}.
Arguments MkDirection {K} reports consumed closed exhausted exhaustedAt descriptor onTheWay hupsOnTheWay waited managed.
Arguments reports {K} d.
Arguments consumed {K} d.
Arguments closed {K} d.
Arguments exhausted {K} d.
Arguments exhaustedAt {K} d.
Arguments descriptor {K} d.
Arguments onTheWay {K} d.
Arguments hupsOnTheWay {K} d.
Arguments waited {K} d.
Arguments managed {K} d.

Section registration.
Context {K E : Type} `{!Kernel K E}.
Notation X := (Direction K).
Abbreviation rprog := (prog (world X)).

Definition bumps (x : X) : Z := Z.of_N (reports x).
Definition events (x : X) : Z := wrap 32 (bumps x).

Definition set_consumed v (x : X) : X := MkDirection (reports x) v (closed x) (exhausted x) (exhaustedAt x) (descriptor x) (onTheWay x) (hupsOnTheWay x) (waited x) (managed x).
Definition set_exhausted v at_ (x : X) : X := MkDirection (reports x) (consumed x) (closed x) v at_ (descriptor x) (onTheWay x) (hupsOnTheWay x) (waited x) (managed x).
Definition set_descriptor (v : K) (x : X) : X := MkDirection (reports x) (consumed x) (closed x) (exhausted x) (exhaustedAt x) v (onTheWay x) (hupsOnTheWay x) (waited x) (managed x).
Definition set_waited v (x : X) : X := MkDirection (reports x) (consumed x) (closed x) (exhausted x) (exhaustedAt x) (descriptor x) (onTheWay x) (hupsOnTheWay x) v (managed x).

Definition new_direction (m : bool) (d : K) : X := MkDirection 0 0 false false 0 d 0 0 0 m.

(** [slot] *)
Definition slot (r : nat) (direction : Z) : nat := if direction =? Readable then (2 * r)%nat else (2 * r + 1)%nat.

Context (cfg : nat -> RegConfig) (armError : nat -> Z).
(** Of the registration that source [k] belongs to. *)
Definition conf (k : nat) : RegConfig := cfg (k / 2)%nat.

(** [readEvents], [writeEvents], [eventsOf] *)
Definition eventsOf (k : nat) : rprog Z := peek k events.

(** ** Waiting *)

(** [arm] of the poller: the error, 0 for none, and then the poller listens. *)
Definition owner_arm (k : nat) : rprog Z :=
  if negb (armError k =? 0) then Ret (armError k)
  else section k (fun x c => (set_descriptor (arm (descriptor x)) x, c, 0)).

(** The section of [waitFor]: whether the waker was stored. *)
Definition store_locked (me : Waker) (seen : Z) (x : X) (c : option Waker) : X * option Waker * bool :=
  if events x =? seen then (set_waited seen x, Some me, true) else (x, c, false).

(** [Registration::detach] *)
Definition detach_locked (me : Waker) (x : X) (c : option Waker) : X * option Waker * unit :=
  if decide (c = Some me) then (x, None, tt) else (x, c, tt).
Definition reg_detach (k : nat) (me : Waker) : rprog unit := section k (detach_locked me).

(** [while (mine.events == seen)]: the error, or that the waker was taken *)
Fixpoint waitFor_loop (fuel k : nat) (me : Waker) (seen : Z) (hasDeadline : bool) : rprog (ended Z) :=
  match fuel with
  | O => Starved
  | S fuel' =>
      v <- eventsOf k;;
      if v =? seen then
        if negb hasDeadline then
          r <- block me;;
          match r with
          | Unwound => reg_detach k me;;; Ret Gone
          | _ => waitFor_loop fuel' k me seen hasDeadline
          end
        else
          r <- blockUntil me;;
          match r with
          | Unwound => reg_detach k me;;; Ret Gone
          | Woken => waitFor_loop fuel' k me seen hasDeadline
          | TimedOut =>
              v <- eventsOf k;;
              if negb (v =? seen) then Ret (Returned 0)
              else (reg_detach k me;;; Ret (Returned timed_out))
          end
      else Ret (Returned 0)
  end.

(** The result is an error code, 0 for none. *)
Definition waitFor (fuel k : nat) (me : Waker) (seen : Z) (hasDeadline : bool) : rprog (ended Z) :=
  if negb (addError (conf k) =? 0) then Ret (Returned (addError (conf k)))
  else
    v <- eventsOf k;;
    if negb (v =? seen) then Ret (Returned 0)
    else
      stored <- section k (store_locked me seen);;
      if negb stored then Ret (Returned 0)
      else
        error <- (if everyArrivalReported (conf k) then Ret 0 else owner_arm k);;
        if negb (error =? 0) then (reg_detach k me;;; Ret (Returned error))
        else waitFor_loop fuel k me seen hasDeadline.

(** [waitReadable()] and [waitWritable()], which keep what they have seen. *)
Definition waitUncounted (fuel k : nat) (me : Waker) : rprog (ended Z) :=
  seen <- peek k consumed;;
  r <- waitFor fuel k me seen false;;
  match r with
  | Gone => Ret Gone
  | Returned error =>
      v <- eventsOf k;;
      section k (fun x c => (set_consumed v x, c, tt));;;
      Ret (Returned error)
  end.

(** [watch] *)
Definition watch_locked (me : Waker) (cancelled : bool) (seen : Z) (x : X) (c : option Waker) : X * option Waker * EnqueueResult :=
  if cancelled then (x, c, Cancelled)
  else if negb (events x =? seen) then (x, c, Ready)
  else (set_waited seen x, Some me, Enqueued).
(** The error of [arm] is ignored. *)
Definition watch (k : nat) (me : Waker) (cancelled : bool) (seen : Z) : rprog EnqueueResult :=
  (if everyArrivalReported (conf k) then Ret 0 else owner_arm k);;;
  section k (watch_locked me cancelled seen).

(** When false, the waiter's [cancelled] flag is set. *)
Definition unwatch_locked (me : Waker) (x : X) (c : option Waker) : X * option Waker * bool :=
  if decide (c = Some me) then (x, None, true) else (x, c, false).
Definition unwatch (k : nat) (me : Waker) : rprog bool := section k (unwatch_locked me).

(** ** Reports *)

(** A direction's part of [collect]. *)
Definition collect_locked (ready closing : bool) (x : X) (c : option Waker) : X * option Waker * option Waker :=
  let cl := closed x || closing in
  if ready then
    (MkDirection (N.succ (reports x)) (consumed x) cl (exhausted x) (exhaustedAt x) (descriptor x)
       (pred (onTheWay x)) (if closing then pred (hupsOnTheWay x) else hupsOnTheWay x) (waited x) (managed x), None, c)
  else
    (MkDirection (reports x) (consumed x) cl (exhausted x) (exhaustedAt x) (descriptor x)
       (onTheWay x) (hupsOnTheWay x) (waited x) (managed x), c, None).

(** [Wakeups] *)
Definition collect (r : nat) (readyNow closing : Z) : rprog (option Waker * option Waker) :=
  reader <- section (slot r Readable) (collect_locked (has readyNow Readable) (has closing Readable));;
  writer <- section (slot r Writable) (collect_locked (has readyNow Writable) (has closing Writable));;
  Ret (reader, writer).

Definition deliver (r : nat) (readyNow closing : Z) : rprog unit :=
  wakeups <- collect r readyNow closing;;
  wake wakeups.1;;;
  wake wakeups.2.

(** The poller's wait returns a report of that direction, if there is one: whether
    there is, and whether the direction has ended. *)
Definition poll_locked (x : X) (c : option Waker) : X * option Waker * (bool * bool) :=
  if edge (descriptor x) then
    let hup := hungUp (descriptor x) in
    (MkDirection (reports x) (consumed x) (closed x) (exhausted x) (exhaustedAt x) (handOver (descriptor x))
       (S (onTheWay x)) (if hup then S (hupsOnTheWay x) else hupsOnTheWay x) (waited x) (managed x), c, (true, hup))
  else (x, c, (false, false)).

Definition interest (reader writer : bool) : Z :=
  Z.lor (if reader then Readable else INone) (if writer then Writable else INone).

(** What a poller does with the reports of registration [r]. *)
Definition pollOnce (r : nat) : rprog unit :=
  a <- section (slot r Readable) poll_locked;;
  b <- section (slot r Writable) poll_locked;;
  deliver r (interest a.1 b.1) (interest a.2 b.2).

(** ** Transfers *)

(** [exhausted], [noteTransfer] *)
Definition isExhausted (k : nat) (seen : Z) : rprog bool :=
  peek k (fun x => exhausted x && (exhaustedAt x =? seen) && negb (closed x)).
Definition noteTransfer (k : nat) (seen bytes asked : Z) : rprog unit :=
  section k (fun x c => (set_exhausted (byteStream (conf k) && negb (bytes =? 0) && (bytes <? asked)) seen x, c, tt)).

Definition systemCall (k : nat) (asked : Z) : rprog sysret :=
  section k (fun x c => let '(d, r) := call asked (descriptor x) in (set_descriptor d x, c, r)).

(** [IoAttempt] *)
Record IoAttempt := MkIoAttempt { a_bytes : Z; a_error : Z; wouldBlock : bool }.
Record IoResult := MkIoResult { bytes : Z; error : Z }.

Fixpoint tryCall_loop (fuel k : nat) (asked seen : Z) : rprog IoAttempt :=
  match fuel with
  | O => Starved
  | S fuel' =>
      n <- systemCall k asked;;
      match n with
      | Bytes n => noteTransfer k seen n asked;;; Ret (MkIoAttempt n 0 false)
      | Eintr => tryCall_loop fuel' k asked seen
      | Eagain => Ret (MkIoAttempt 0 0 true)
      | Errno e => Ret (MkIoAttempt 0 e false)
      end
  end.
Definition tryCall (fuel k : nat) (asked seen : Z) : rprog IoAttempt :=
  skip <- isExhausted k seen;;
  if skip : bool then Ret (MkIoAttempt 0 0 true) else tryCall_loop fuel k asked seen.

(** [retryWhenReady] with [tryCall]: [callWhenReady]; [hasDeadline] is [deadline != nullptr] *)
Fixpoint callWhenReady (fuel k : nat) (me : Waker) (asked : Z) (hasDeadline : bool) : rprog (ended IoResult) :=
  match fuel with
  | O => Starved
  | S fuel' =>
      seen <- eventsOf k;;
      a <- tryCall fuel k asked seen;;
      if negb (wouldBlock a) then Ret (Returned (MkIoResult (a_bytes a) (a_error a)))
      else
        r <- waitFor fuel k me seen hasDeadline;;
        match r with
        | Gone => Ret Gone
        | Returned e => if negb (e =? 0) then Ret (Returned (MkIoResult 0 e)) else callWhenReady fuel' k me asked hasDeadline
        end
  end.

(** [writeAllImpl] ([stopAtEof := false]) and [readExactly] ([stopAtEof := true],
    no deadline): [moved] bytes so far of [length]. *)
Fixpoint transferAll (fuel k : nat) (me : Waker) (stopAtEof hasDeadline : bool) (length moved : Z) : rprog (ended IoResult) :=
  match fuel with
  | O => Starved
  | S fuel' =>
      if moved <? length then
        chunk <- callWhenReady fuel k me (length - moved) hasDeadline;;
        match chunk with
        | Gone => Ret Gone
        | Returned chunk =>
            if negb (error chunk =? 0) then Ret (Returned (MkIoResult moved (error chunk)))
            else if stopAtEof && (bytes chunk =? 0) then Ret (Returned (MkIoResult moved 0))
            else transferAll fuel' k me stopAtEof hasDeadline length (moved + bytes chunk)
        end
      else Ret (Returned (MkIoResult moved 0))
  end.

Definition writeAllImpl (fuel k : nat) (me : Waker) (hasDeadline : bool) (length : Z) := transferAll fuel k me false hasDeadline length 0.
Definition readExactly (fuel k : nat) (me : Waker) (length : Z) := transferAll fuel k me true false length 0.

(** [tryAccept]: the descriptor or an error, or that it would block.  The call asks
    for one connection; which number its descriptor has is not modelled. *)
Fixpoint tryAccept (fuel k : nat) : rprog IoAttempt :=
  match fuel with
  | O => Starved
  | S fuel' =>
      fd <- systemCall k 1;;
      match fd with
      | Bytes _ => Ret (MkIoAttempt 1 0 false)
      | Eintr => tryAccept fuel' k
      | Eagain => Ret (MkIoAttempt 0 0 true)
      | Errno e => Ret (MkIoAttempt 0 e false)
      end
  end.

Fixpoint acceptImpl (fuel k : nat) (me : Waker) (hasDeadline : bool) : rprog (ended IoResult) :=
  match fuel with
  | O => Starved
  | S fuel' =>
      seen <- eventsOf k;;
      accepted <- tryAccept fuel k;;
      if negb (wouldBlock accepted) then Ret (Returned (MkIoResult (a_bytes accepted) (a_error accepted)))
      else
        r <- waitFor fuel k me seen hasDeadline;;
        match r with
        | Gone => Ret Gone
        | Returned e => if negb (e =? 0) then Ret (Returned (MkIoResult 0 e)) else acceptImpl fuel' k me hasDeadline
        end
  end.

(** ** What the parties call *)

Inductive reg_op :=
  | RegWait (k : nat) (hasDeadline : bool)
  | RegWaitUncounted (k : nat)
  | RegWatch (k : nat) (early late : bool)
  | RegAccept (k : nat) (hasDeadline : bool)
  | RegCall (k : nat) (asked : Z) (hasDeadline : bool)
  | RegTransferAll (k : nat) (stopAtEof hasDeadline : bool) (length : Z).

(** A wait that returned without an error did so because of a newer report; [n] is
    the true count that goes with what was seen. *)
Definition newer (k : nat) (n : Z) : rprog unit :=
  v <- peek k bumps;; if v =? n then store set_wrong else Ret tt.
Definition seenOf (k : nat) : rprog (Z * Z) := peek k (fun x => (events x, bumps x)).

Definition wait_op (fuel k : nat) (me : Waker) (hasDeadline : bool) : rprog (ended unit) :=
  seen <- seenOf k;;
  r <- waitFor fuel k me seen.1 hasDeadline;;
  match r with
  | Gone => Ret Gone
  | Returned e => (if e =? 0 then newer k seen.2 else Ret tt);;; Ret (Returned tt)
  end.

(** So does a wait that keeps what it has seen. *)
Definition uncounted_op (fuel k : nat) (me : Waker) : rprog (ended unit) :=
  seen <- peek k consumed;;
  r <- waitUncounted fuel k me;;
  match r with
  | Gone => Ret Gone
  | Returned e => (if e =? 0 then newer k seen else Ret tt);;; Ret (Returned tt)
  end.

(** A transfer of all bytes that returned without an error moved all of them, or,
    if it may, stopped at the end of the stream; it never moves more.  (What is
    not a stream of bytes, a datagram socket say, has no end.) *)
Definition atEnd (k : nat) : rprog bool := peek k (fun x => hungUp (descriptor x) || negb (streamed (descriptor x))).
Definition transferAll_op (fuel k : nat) (me : Waker) (stopAtEof hasDeadline : bool) (length : Z) : rprog (ended unit) :=
  r <- (if stopAtEof then readExactly fuel k me length else writeAllImpl fuel k me hasDeadline length);;
  match r with
  | Gone => Ret Gone
  | Returned res =>
      ended <- atEnd k;;
      (if (0 <=? bytes res) && (bytes res <=? length) && (negb (error res =? 0) || (bytes res =? length) || (stopAtEof && ended))
       then Ret tt else store set_wrong);;;
      Ret (Returned tt)
  end.

Definition watch_op (k : nat) (me : Waker) (early late : bool) : rprog unit :=
  seen <- seenOf k;;
  was <- (if early then unwatch k me else Ret false);;
  r <- watch k me (early && negb was) seen.1;;
  match r with
  | Ready => newer k seen.2
  | Cancelled => Ret tt
  | Enqueued =>
      undone <- (if late then unwatch k me else Ret false);;
      if undone : bool then Ret tt else (awaitCallback me;;; newer k seen.2)
  end.

Definition ends {R} (p : rprog (ended R)) (rest : rprog unit) : rprog unit :=
  r <- p;; match r with Gone => Ret tt | Returned _ => rest end.

Definition reg_perform (fuel : nat) (me : Waker) (o : reg_op) (rest : rprog unit) : rprog unit :=
  match o with
  | RegWait k d => asks me [k];;; ends (wait_op fuel k me d) rest
  | RegWaitUncounted k => asks me [k];;; ends (uncounted_op fuel k me) rest
  | RegWatch k early late => asks me [k];;; watch_op k me early late;;; rest
  | RegAccept k d => asks me [k];;; ends (acceptImpl fuel k me d) rest
  | RegCall k n d => asks me [k];;; ends (callWhenReady fuel k me n d) rest
  | RegTransferAll k s d n => asks me [k];;; ends (transferAll_op fuel k me s d n) rest
  end.

Fixpoint reg_party (fuel : nat) (me : Waker) (ops : list reg_op) : rprog unit :=
  match ops with
  | [] => Ret tt
  | o :: ops => reg_perform fuel me o (reg_party fuel me ops)
  end.

(** The others: the kernel, pollers, and who stops the scheduler. *)
Inductive env_op := EnvEvent (k : nat) (e : E) | EnvPoll (r : nat) | EnvStop.

Definition env_perform (o : env_op) : rprog unit :=
  match o with
  | EnvEvent k e => section k (fun x c => (set_descriptor (event e (descriptor x)) x, c, tt))
  | EnvPoll r => pollOnce r
  | EnvStop => store (set_stopping true)
  end.
Fixpoint env_party (ops : list env_op) : rprog unit :=
  match ops with
  | [] => Ret tt
  | o :: ops => env_perform o;;; env_party ops
  end.

Definition reg_pool (fuel : nat) (kd : nat -> Kind) (xs : list X) (l : list (list reg_op + list env_op)) : config (world X) unit :=
  (imap (fun i ops => match ops with inl ops => reg_party fuel (MkWaker i (kd i)) ops | inr ops => env_party ops end) l,
   World ((fun x => (x, None)) <$> xs) (fun _ => false) false (fun _ => []) false).
End registration.
Arguments env_op E : clear implicits.
