(* ===== verification/RegistrationSpec.v ===== *)
(** * Registration: no report is lost, and no transfer sleeps on data

    An instance of SourceSpec.v and SourceKnow.v: what a party waits for is that the
    event count differs from what it has seen.  The others can only move the count
    forward, as long as it has not wrapped around ([fine]); [scoped] (Conc.v) carries
    the rules to all runs. *)

From Stdlib Require Import ZArith Lia.
From stdpp Require Import base tactics list numbers option strings functions.
From S2P Require Import Prelude Conc Sums Source SourceSpec SourceKnow Registration.

Section spec.
Context {K E : Type} `{!Kernel K E}.
Notation X := (Direction K).

(** The event count has not wrapped around. *)
Definition fine (x : X) : bool := (0 <=? bumps x) && (bumps x <? 2 ^ 32).

Lemma fine_events x : fine x = true -> events x = bumps x.
Proof. intros [H1%Z.leb_le H2%Z.ltb_lt]%andb_true_iff. apply wrap_small. by split. Qed.

(** A report is still to come. *)
Definition owed (x : X) : Prop := edge (descriptor x) = true \/ (0 < onTheWay x)%nat \/ (0 < hupsOnTheWay x)%nat.

(** Nothing is there unless a report newer than [t] is, or is to come, if the
    poller listens; for a direction that has ended, [drained] says nothing. *)
Definition dry (t : Z) (x : X) : Prop := bumps x = t -> attentive (descriptor x) = true -> available (descriptor x) = true -> owed x.
Definition drained (t : Z) (x : X) : Prop := bumps x = t -> attentive (descriptor x) = true -> closed x = false -> available (descriptor x) = true -> owed x.
(** The poller listens, or it did and there is a report newer than [t], or one to come. *)
Definition heard (x : X) : Prop := attentive (descriptor x) = true \/ (0 < onTheWay x)%nat.
Definition listening (t : Z) (x : X) : Prop := bumps x = t -> heard x.

(** What a party may know of its direction; it waits for [Early], [Raw] and [Dry]. *)
(** [Floor] and [Past] speak of the true count. *)
Inductive fact :=
| Floor (b : Z) | Past (b : Z) | Kept | Mark (c : Z) | AtEnd | Every (b : bool) | Streamed
| Tried (t : Z) | Drained (t : Z) | Listening (t : Z) | Early (t : Z) | Raw (t : Z) | Dry (t : Z) | Noted | Ended | Unmanaged.

#[local] Instance fact_eq_dec : EqDecision fact.
Proof. solve_decision. Defined.

Definition sane (u : fact) (x : X) : Prop :=
  match u with
  | Floor b => 0 <= b <= bumps x
  | Past b => 0 <= b < bumps x
  | Kept => 0 <= consumed x <= bumps x /\ consumed x < 2 ^ 32
  | Mark c => consumed x = c
  | AtEnd => streamed (descriptor x) = true -> hungUp (descriptor x) = true
  | Every b => everyArrival (descriptor x) = b
  | Streamed => streamed (descriptor x) = true
  | _ => fine x = true ->
  match u with
  | Tried t => 0 <= t <= bumps x /\ dry t x
  | Drained t => 0 <= t <= bumps x /\ drained t x
  | Listening t => 0 <= t <= bumps x /\ listening t x
  | Early t => 0 <= t <= bumps x /\ waited x = t
  | Raw t => 0 <= t <= bumps x /\ waited x = t /\ listening t x /\ managed x = false
  | Dry t => 0 <= t <= bumps x /\ waited x = t /\ listening t x /\ dry t x
  | Noted => exhausted x = true -> 0 <= exhaustedAt x <= bumps x /\ drained (exhaustedAt x) x
  | Ended => everyArrival (descriptor x) = true -> hungUp (descriptor x) = true -> edge (descriptor x) = true \/ (0 < hupsOnTheWay x)%nat \/ closed x = true
  | Unmanaged => managed x = false
  | _ => True
  end
  end.

Lemma floor_seen b (x : X) : sane (Floor b) x -> fine x = true -> wrap 32 b = b.
Proof. simpl. intros ? [_ ?%Z.ltb_lt]%andb_true_iff. apply wrap_small. split; lia. Qed.

Definition idle (u : fact) (x : X) : bool :=
  match u with Early t | Raw t | Dry t => events x =? t | _ => false end.

(** Nobody is blocked before it has asked the poller. *)
#[global] Instance fact_settled : Settled fact := fun u => match u with Early _ => False | _ => True end.

(** ** The steps of the others *)

(** What an event, a report that is handed over and a report that is not for this
    direction do to it. *)
Record quietly (x x' : X) : Prop := {
  qu_bumps : bumps x' = bumps x;
  qu_note : exhausted x' = exhausted x /\ exhaustedAt x' = exhaustedAt x /\ waited x' = waited x /\ managed x' = managed x /\ consumed x' = consumed x;
  qu_nature : everyArrival (descriptor x') = everyArrival (descriptor x) /\ streamed (descriptor x') = streamed (descriptor x);
  qu_available : attentive (descriptor x') = true -> available (descriptor x') = true -> (attentive (descriptor x) = true /\ available (descriptor x) = true) \/ owed x';
  qu_owed : owed x -> owed x' \/ available (descriptor x') = false;
  qu_heard : heard x -> heard x';
  qu_closed : closed x = true -> closed x' = true;
  qu_hup : everyArrival (descriptor x) = true -> hungUp (descriptor x') = true -> hungUp (descriptor x) = true \/ edge (descriptor x') = true;
  qu_ended : hungUp (descriptor x) = true -> hungUp (descriptor x') = true;
  qu_edge : edge (descriptor x) = true -> edge (descriptor x') = true \/ (hungUp (descriptor x') = true -> (0 < hupsOnTheWay x')%nat);
  qu_hups : (0 < hupsOnTheWay x -> 0 < hupsOnTheWay x')%nat
}.

Lemma quietly_dry x x' t : quietly x x' -> dry t x -> dry t x'.
Proof.
  intros [Q1 _ _ Q6 Q7 _ _ _ _ _ _]. unfold dry. rewrite Q1. intros Hd Ht Hat Hav. destruct (Q6 Hat Hav) as [[Ha Hv]|?]; [|done].
  destruct (Q7 (Hd Ht Ha Hv)); [done|congruence].
Qed.
Lemma quietly_drained x x' t : quietly x x' -> drained t x -> drained t x'.
Proof.
  intros [Q1 _ _ Q6 Q7 _ Q8 _ _ _ _]. unfold drained. rewrite Q1. intros Hd Ht Hat Hcl Hav. destruct (Q6 Hat Hav) as [[Ha Hv]|?]; [|done].
  destruct (Q7 (Hd Ht Ha ltac:(destruct (closed x); [by rewrite Q8 in Hcl|done]) Hv)); [done|congruence].
Qed.

Lemma quietly_ok x x' u : quietly x x' -> idle u x' = idle u x /\ (sane u x -> sane u x').
Proof.
  intros Hqu. pose proof (quietly_dry x x') as Hdry. pose proof (quietly_drained x x') as Hdr.
  pose proof Hqu as [Q1 (Q2 & Q3 & Q4 & Q5 & Q5') (N1 & N2) Q6 Q7 QH Q8 Q9 QE Q10 Q11]. split; [destruct u; simpl; unfold events; by rewrite ?Q1|].
  assert (Hf : fine x' = fine x) by (unfold fine; by rewrite Q1). unfold sane, listening. rewrite Hf. intros H.
  destruct u; rewrite ?Q1, ?Q2, ?Q3, ?Q4, ?Q5, ?Q5', ?N1, ?N2; try done; try (by auto); intros Hfine; specialize (H Hfine); by intuition.
Qed.

Lemma event_quietly e (x : X) : quietly x (set_descriptor (event e (descriptor x)) x).
Proof.
  assert (He : edge (descriptor x) = true -> edge (event e (descriptor x)) = true) by apply event_edge.
  split; simpl; unfold owed, heard; simpl; try done.
  - apply event_nature.
  - rewrite event_poller. intros Ha H. destruct (event_available e _ Ha H); auto.
  - intros [?|?]; auto.
  - by rewrite event_poller.
  - apply event_hup.
  - apply event_ended.
  - auto.
Qed.

Lemma poll_quietly (x : X) c : quietly x (poll_locked x c).1.1 /\ (poll_locked x c).1.2 = c.
Proof.
  unfold poll_locked. destruct (edge (descriptor x)) eqn:Ee; [|by repeat split; auto; left]. split; [|done].
  split; simpl; unfold owed, heard; simpl; try done.
  - apply handOver_nature.
  - intros _ _. right. right. left. lia.
  - intros _. left. right. left. lia.
  - intros _. right. lia.
  - rewrite handOver_hup. auto.
  - by rewrite handOver_hup.
  - rewrite handOver_hup. intros _. right. intros ->. lia.
  - destruct (hungUp _); lia.
Qed.

Lemma collect_quietly cl (x : X) c : quietly x (collect_locked false cl x c).1.1 /\ (collect_locked false cl x c).1.2 = c.
Proof. split; [|done]. split; simpl; unfold owed, heard; simpl; auto. intros ->. done. Qed.

(** What [arm] does for a poller that has to be asked. *)
Lemma arm_quietly (x : X) : everyArrival (descriptor x) = false -> quietly x (set_descriptor (arm (descriptor x)) x).
Proof.
  intros Hev. assert (He : edge (descriptor x) = true -> edge (arm (descriptor x)) = true) by apply arm_edge.
  split; simpl; unfold owed, heard; simpl; try done.
  - apply arm_nature.
  - rewrite arm_available. intros _ H. right. left. by apply arm_reports.
  - intros [?|?]; auto.
  - rewrite arm_attentive. auto.
  - rewrite arm_hup. auto.
  - by rewrite arm_hup.
  - auto.
Qed.

(** A report moves the count. *)
Lemma collect_takes cl (x : X) c u : let x' := (collect_locked true cl x c).1.1 in fine x' = true -> fine x = true -> sane u x -> sane u x' /\ idle u x' = false.
Proof.
  intros x' Hf' Hf Hs. assert (Hb : bumps x' = bumps x + 1) by (unfold bumps; simpl; lia). split.
  - assert (Hdry : forall t, 0 <= t <= bumps x -> dry t x' /\ drained t x' /\ listening t x') by (intros t Ht; splits; intros He; lia).
    destruct u; [simpl in *; lia|simpl in *; lia|simpl in *; lia|done|done|done|done|..]; specialize (Hs Hf); intros _; rewrite ?Hb.
    + destruct Hs. split; [lia|]. by apply Hdry.
    + destruct Hs. split; [lia|]. by apply Hdry.
    + destruct Hs. split; [lia|]. by apply Hdry.
    + destruct Hs as (? & ?). split; [lia|done].
    + destruct Hs as (? & ? & ? & ?). split; [lia|]. split; [done|]. split; [by apply Hdry|done].
    + destruct Hs as (? & ? & ? & ?). split; [lia|]. split; [done|]. split; by apply Hdry.
    + intros He. destruct (Hs He) as [? ?]. split; [simpl; lia|by apply Hdry].
    + simpl. intros Hev Hh. destruct (Hs Hev Hh) as [?|[?|Hc]]; [by left| |by rewrite Hc; right; right].
      destruct cl; [right; right; apply orb_true_r|by right; left].
    + done.
  - pose proof (fine_events _ Hf') as Hev. destruct u; simpl; try done; destruct (Hs Hf) as (? & _); apply Z.eqb_neq; fold x'; rewrite Hev, Hb; lia.
Qed.

(** ** Waiting *)

Context (cfg : nat -> RegConfig) (armError : nat -> Z) (owner : nat -> nat) (kd : nat -> Kind) (n N : nat).
Notation R := (sproto idle sane owner kd n N).
Notation me := (me kd).
Notation sure := (at_sure sane owner kd n).

Definition plus (L : nat -> fact -> Prop) (k : nat) (v : fact) : nat -> fact -> Prop := fun k2 u => L k2 u \/ (k2 = k /\ u = v).

Lemma plus_at L k v (x : X) : (forall u, L k u -> sane u x) -> sane v x -> forall u, plus L k v k u -> sane u x.
Proof. intros HL Hv u [?|[_ ->]]; auto. Qed.
Lemma plus_other L k v k2 u : k2 <> k -> plus L k v k2 u -> L k2 u.
Proof. intros Hne [?|[? _]]; done. Qed.

(** A wait that returns without an error has seen a newer report. *)
Definition after (L : nat -> fact -> Prop) (k : nat) (seen : Z) (r : ended Z) : nat -> fact -> Prop :=
  fun k2 u => L k2 u \/ (r = Returned 0 /\ k2 = k /\ exists b, wrap 32 b = seen /\ L k (Floor b) /\ u = Past b).

Lemma floor_past b (x : X) : sane (Floor b) x -> events x <> wrap 32 b -> sane (Past b) x.
Proof. simpl. intros ? Hne. assert (bumps x <> b) by (by intros <-). lia. Qed.

Lemma after_at_source L k seen r (x : X) : (forall u, L k u -> sane u x) -> (r = Returned 0 -> events x <> seen) -> forall u, after L k seen r k u -> sane u x.
Proof. intros HL Hne u [?|(Hr & _ & b & <- & Hfl & ->)]; [auto|]. apply floor_past; auto. Qed.
Lemma after_other L k seen r k2 u : k2 <> k -> after L k seen r k2 u -> L k2 u.
Proof. intros Hne [?|(_ & ? & _)]; done. Qed.
Lemma after_weak {B} i A H a fr L k seen r (p : prog (world X) B) Q : rg R i p (sure i A H a fr L) Q -> rg R i p (sure i A H a fr (after L k seen r)) Q.
Proof. apply sure_weaken. intros k2 u ?. by left. Qed.

(** [v]: how it waits, [Raw seen] or [Dry seen]. *)
Definition waiting (seen : Z) (v : fact) : Prop := v = Raw seen \/ v = Dry seen.

Lemma waiting_idle seen v (x : X) : waiting seen v -> idle v x = (events x =? seen).
Proof. by intros [->| ->]. Qed.

Lemma early_store seen (x : X) : events x = seen -> sane (Early seen) (set_waited seen x).
Proof. intros <- Hf. simpl. change (fine x = true) in Hf. rewrite (fine_events x Hf). split; [|done]. unfold bumps. simpl. split; [apply N2Z.is_nonneg|done]. Qed.

(** The poller was asked while the waker was stored. *)
Lemma arm_raw seen (x : X) : sane (Early seen) x -> sane Unmanaged x -> sane (Raw seen) (set_descriptor (arm (descriptor x)) x).
Proof. intros H Hm Hf. destruct (H Hf) as [? ?]. split; [done|]. split; [done|]. split; [|by apply Hm]. intros _. left. apply arm_attentive. Qed.
Lemma arm_dry seen (x : X) : everyArrival (descriptor x) = false -> sane (Early seen) x -> sane (Dry seen) (set_descriptor (arm (descriptor x)) x).
Proof.
  intros Hev H Hf. destruct (H Hf) as [? ?]. split; [done|]. split; [done|]. split; [intros _; left; apply arm_attentive|]. intros _ _. simpl. rewrite arm_available. intros Ha. left. by apply arm_reports.
Qed.

(** A poller that reports every arrival listens. *)
Lemma every_listening (t : Z) (x : X) : sane (Every true) x -> listening t x.
Proof. intros H _. left. by apply every_attentive. Qed.

Section wait.
Context {B : Type} (i k : nat) (seen : Z) (v : fact) (L : nat -> fact -> Prop) (q : ended Z -> prog (world X) B) (Q : B -> asrt (world X) (nat -> spl fact)).
Context (Hi : (i < n)%nat) (Ho : owner k = i) (Hk : (k < N)%nat) (Hkd : kd i <> KCallback) (Hv : waiting seen v).
Context (Hq : forall r A H, rg R i (q r) (sure i A H [k] true (after L k seen r)) Q).

Lemma rg_reg_detach A H e : e <> Returned 0 -> rg R i (bind (reg_detach k (me i)) (fun _ => q e)) (sure i A H [k] true L) Q.
Proof.
  intros He. apply sure_own; [done..|]. intros x c HL. unfold detach_locked.
  assert (Hfr : forall c', c' = c \/ c' = None -> own_change idle sane kd i k A [] true true c c' x).
  { intros c' Hc. split; [destruct Hc as [->| ->]; auto|by intros ? ? ?%not_elem_of_nil|done]. }
  case_decide; exists [], true, (after L k seen e); (splits; [apply Hfr; auto|by apply after_at_source|intros ? ?; apply after_other|apply Hq]).
Qed.

Lemma rg_waitFor_loop fuel d A H : hooked (k, v) A H ->
  rg R i (bind (waitFor_loop fuel k (me i) seen d) q) (sure i A H [k] true L) Q.
Proof.
  revert A H. induction fuel as [|fuel IH]; intros A H Hh; [done|]. cbn [waitFor_loop]. unfold eventsOf at 1.
  assert (Hnewer : forall A H, hooked (k, v) A H -> forall x, idle v x = false -> (forall u, L k u -> sane u x) -> exists L', (forall u, L' k u -> sane u x) /\
    (forall k2 u, k2 <> k -> L' k2 u -> L k2 u) /\ (events x =? seen) = false /\ rg R i (q (Returned 0)) (sure i A H [k] true L') Q).
  { intros A' H' _ x Hid HL. rewrite (waiting_idle seen) in Hid by done. exists (after L k seen (Returned 0)). splits; [|intros ? ?; apply after_other|done|apply Hq].
    apply after_at_source; [done|]. intros _. by apply Z.eqb_neq. }
  apply rg_bind_assoc. apply sure_look with v; [done|done|exact Hh| |].
  { intros x _ Hid HL. destruct (Hnewer A H Hh x Hid HL) as (L' & H1 & H2 & -> & H3). by exists L'. }
  intros x Hid. rewrite (waiting_idle seen) in Hid by done. rewrite Hid.
  assert (Hin : forall e, e ∈ [(k, v)] -> e ∈ [(k, v)] \/ e ∈ @nil (nat * fact)) by auto.
  destruct d; cbn [negb].
  - apply rg_bind_assoc. apply sure_blockUntil with [(k, v)]; [done|exact Hin|]. intros [| |].
    + apply IH. by right.
    + apply rg_bind_assoc. apply sure_look with v; [done|done|by right| |].
      * intros y _ Hy HL. destruct (Hnewer [] [(k, v)] (or_intror (conj eq_refl eq_refl)) y Hy HL) as (L' & H1 & H2 & -> & H3). by exists L'.
      * intros y Hy. rewrite (waiting_idle seen) in Hy by done. rewrite Hy. cbn [negb]. apply rg_bind_assoc. by apply rg_reg_detach.
    + apply rg_bind_assoc. by apply rg_reg_detach.
  - apply rg_bind_assoc. apply sure_block with [(k, v)]; [done| |exact Hin|].
    { split; [done|]. intros k2 ->%list_elem_of_singleton. exists v. split; [left|by destruct Hv as [->| ->]]. }
    intros [| |].
    + apply IH. by right.
    + apply IH. by right.
    + apply rg_bind_assoc. by apply rg_reg_detach.
Qed.

(** [Hstore]: the party may wait, if nothing has come and the poller need not be asked;
    [Harm]: otherwise it may when it has asked. *)
Lemma rg_waitFor fuel d A H :
  L k (Every (everyArrivalReported (conf cfg k))) ->
  (forall x, everyArrivalReported (conf cfg k) = true -> (forall u, L k u -> sane u x) -> events x = seen -> sane v (set_waited seen x)) ->
  (forall x, everyArrivalReported (conf cfg k) = false -> (forall u, L k u -> sane u x) -> sane (Early seen) x -> sane v (set_descriptor (arm (descriptor x)) x)) ->
  (forall x, (forall u, L k u -> sane u x) -> forall u, L k u -> sane u (set_waited seen x)) ->
  rg R i (bind (waitFor cfg armError fuel k (me i) seen d) q) (sure i A H [k] true L) Q.
Proof.
  intros Hev Hstore Harm Hkeep. unfold waitFor. destruct (addError (conf cfg k) =? 0) eqn:Ee; cbn [negb].
  2:{ eapply sure_weaken; [|apply (Hq (Returned _))]. intros k2 u [?|(Hr & _)]; [done|]. injection Hr as Hr. by apply Z.eqb_neq in Ee. }
  apply rg_bind_assoc, sure_peek; [done..|]. intros x HL. destruct (events x =? seen) eqn:Ev; cbn [negb].
  2:{ exists (after L k seen (Returned 0)). splits; [|intros ? ?; apply after_other|apply Hq]. apply after_at_source; [done|]. intros _. by apply Z.eqb_neq. }
  exists L. splits; [done|done|]. apply rg_bind_assoc, sure_own; [done..|]. intros y c HLy. unfold store_locked. destruct (events y =? seen) eqn:Ey.
  2:{ exists [], true, (after L k seen (Returned 0)). splits; [|apply after_at_source; [done|]; intros _; by apply Z.eqb_neq|intros ? ?; apply after_other|apply Hq].
    split; [by left|by intros ? ? ?%not_elem_of_nil|done]. }
  apply Z.eqb_eq in Ey. set (v0 := if everyArrivalReported (conf cfg k) then v else Early seen).
  assert (Hv0 : sane v0 (set_waited seen y) /\ idle v0 (set_waited seen y) = true).
  { unfold v0. destruct (everyArrivalReported (conf cfg k)) eqn:Er.
    - split; [by apply Hstore|]. rewrite (waiting_idle seen) by done. by apply Z.eqb_eq.
    - split; [by apply early_store|]. by apply Z.eqb_eq. }
  exists [(k, v0)], true, L. splits; [|by apply Hkeep|done|].
  { split; [right; right; done| |done]. intros k2 t Hin%list_elem_of_singleton. injection Hin as -> ->. right. by destruct Hv0. }
  cbn [negb]. unfold v0. destruct (everyArrivalReported (conf cfg k)) eqn:Er; cbn [bind].
  { apply rg_waitFor_loop. by left. }
  unfold owner_arm. destruct (armError k =? 0) eqn:Ea; cbn [negb bind].
  - apply rg_bind_assoc. apply sure_retag with (Early seen) v; [done|done|by left| |].
    + intros z Hz HLz. assert (everyArrival (descriptor z) = false) as Hf by (apply (HLz _ Hev)). splits; [by apply Harm|rewrite (waiting_idle seen) by done; done|].
      intros u Hu. apply (quietly_ok z _ u (arm_quietly z Hf)). by apply HLz.
    + cbn [bind]. apply rg_waitFor_loop. by right.
  - rewrite Ea. cbn [negb]. apply rg_bind_assoc, rg_reg_detach. intros [= Hz]. by apply Z.eqb_neq in Ea.
Qed.
End wait.

(** ** Transfers *)

(** [man k]: only the transfer functions use direction [k]. *)
Context (man : nat -> bool).

(** What the party knows of its directions between two calls. *)
Definition base (k : nat) (u : fact) : Prop :=
  match u with
  | Noted | Ended | Kept => True
  | Floor b => b = 0
  | Every b => b = everyArrivalReported (conf cfg k)
  | Streamed => byteStream (conf cfg k) = true
  | Unmanaged => man k = false
  | _ => False
  end.

(** Facts that do not say how the party waits. *)
Definition plain (u : fact) : Prop := match u with Early _ | Raw _ | Dry _ => False | _ => True end.
Lemma plain_waited u t (x : X) : plain u -> sane u x -> sane u (set_waited t x).
Proof. by destruct u. Qed.
Lemma base_plain k u : base k u -> plain u.
Proof. by destruct u. Qed.

Lemma call_quietly a (x : X) : quietly x (set_descriptor (call a (descriptor x)).1 x).
Proof.
  pose proof (call_edge a (descriptor x)) as He. split; simpl; unfold owed, heard; simpl; try done.
  - apply call_nature.
  - rewrite call_poller. intros Ha H. left. split; [done|]. by apply (call_available a).
  - intros [H|?]; [destruct (He H) as [?|[? _]]; auto|auto].
  - by rewrite call_poller.
  - rewrite call_hup. auto.
  - by rewrite call_hup.
  - intros H. destruct (He H) as [?|[_ Hh]]; [auto|right; congruence].
Qed.

(** What a system call adds to it. *)
Definition learnt (k : nat) (seen asked : Z) (r : sysret) (u : fact) : Prop :=
  match r with
  | Eagain => u = Tried seen
  | Bytes m => (u = Drained seen /\ 0 < m < asked /\ byteStream (conf cfg k) = true) \/ (u = AtEnd /\ m = 0 /\ 0 < asked)
  | _ => False
  end.
Definition called (k : nat) (b asked : Z) (r : sysret) : nat -> fact -> Prop :=
  fun k2 u => plus base k (Floor b) k2 u \/ (k2 = k /\ learnt k (wrap 32 b) asked r u).

Lemma sane_Ended_drained b (x : X) : sane (Floor b) x -> sane Ended x -> sane (Every true) x -> (available (descriptor x) = true -> hungUp (descriptor x) = true) -> sane (Drained (wrap 32 b)) x.
Proof.
  intros Hfl He Hev Hav Hf. rewrite (floor_seen b x Hfl Hf). split; [by apply Hfl|]. intros _ _ Hcl Ha. destruct (He Hf Hev (Hav Ha)) as [?|[?|?]]; [by left|by right; right|congruence].
Qed.

Definition sysret_ok (asked : Z) (r : sysret) : Prop :=
  match r with Bytes m => 0 <= m <= asked | Errno e => e <> 0 | _ => True end.

Lemma rg_systemCall {B} i k b asked A H (q : sysret -> prog (world X) B) Q :
  (i < n)%nat -> owner k = i -> (k < N)%nat ->
  0 <= asked -> (forall r, sysret_ok asked r -> rg R i (q r) (sure i [] [] [k] true (called k b asked r)) Q) ->
  rg R i (bind (systemCall k asked) q) (sure i A H [k] true (plus base k (Floor b))) Q.
Proof.
  intros Hi Ho Hk Has Hq. apply sure_own; [done..|]. intros x c HL. pose proof (call_quietly asked x) as Hqu.
  pose proof (call_bytes asked (descriptor x)) as Hby. pose proof (call_errno asked (descriptor x)) as Her. pose proof (call_again asked (descriptor x)) as Hag.
  pose proof (call_short asked (descriptor x)) as Hsh. pose proof (call_eof asked (descriptor x)) as Heof. pose proof (call_hup asked (descriptor x)) as Hhup.
  pose proof (call_nature asked (descriptor x)) as [_ Hst]. destruct (call asked (descriptor x)) as [d r]. cbn [fst snd] in *.
  set (x' := set_descriptor d x) in *. assert (Hpl : forall u, plus base k (Floor b) k u -> sane u x') by (intros u Hu; apply (quietly_ok x x' u Hqu), HL, Hu).
  assert (Hfl : sane (Floor b) x') by (apply Hpl; by right). assert (Hen : sane Ended x') by (apply Hpl; by left).
  exists [], true, (called k b asked r). splits; [split; [by left|by intros ? ? ?%not_elem_of_nil|by auto]| |by intros k2 u Hne [?|[? _]]|apply Hq; destruct r; simpl; auto].
  intros u [Hu|[_ Hu]]; [by apply Hpl|]. destruct r as [m| | |e]; simpl in Hu; [|done| |done].
  - destruct Hu as [(-> & Hm & Hbs)|(-> & -> & Hpos)].
    + apply sane_Ended_drained; [done|done| |].
      * apply Hpl. left. simpl. by apply andb_true_iff in Hbs as [_ ->].
      * apply (Hsh m); [|done|done]. apply (HL Streamed). by left.
    + simpl. intros Hs. rewrite Hhup. apply Heof; [congruence|done|done].
  - subst u. intros Hf. rewrite (floor_seen b x' Hfl Hf). split; [by apply Hfl|]. intros _ _ Ha. simpl in Ha. rewrite Hag in Ha; done.
Qed.

(** What is known after a call for [asked] that moved nothing, without an error. *)
Definition ended_by (k : nat) (asked moved error : Z) : nat -> fact -> Prop :=
  fun k2 u => base k2 u \/ (k2 = k /\ u = AtEnd /\ 0 < asked /\ moved = 0 /\ error = 0).

(** What [noteTransfer] leaves is what [exhausted] relies on. *)
Lemma rg_noteTransfer {B} i k b asked m A H (q : unit -> prog (world X) B) Q :
  (i < n)%nat -> owner k = i -> (k < N)%nat -> 0 <= m ->
  rg R i (q tt) (sure i [] [] [k] true (ended_by k asked m 0)) Q ->
  rg R i (bind (noteTransfer cfg k (wrap 32 b) m asked) q) (sure i A H [k] true (called k b asked (Bytes m))) Q.
Proof.
  intros Hi Ho Hk Hm Hq. apply sure_own; [done..|]. intros x c HL. exists [], true, (ended_by k asked m 0).
  splits; [split; [by left|by intros ? ? ?%not_elem_of_nil|by auto]| |intros k2 u Hne [?|[? _]]; [by left; left|done]|exact Hq].
  assert (Hb : forall u, base k u -> sane u x) by (intros u Hu; apply HL; left; by left).
  intros u [Hu|(_ & -> & Hpos & -> & _)]; [|apply (HL AtEnd); right; split; [done|]; by right].
  destruct (decide (u = Noted)) as [->|Hne]; [|specialize (Hb u Hu); by destruct u].
  intros Hf He. simpl in He. apply andb_true_iff in He as [He Hlt%Z.ltb_lt]. apply andb_true_iff in He as [Hbs Hz%negb_true_iff%Z.eqb_neq].
  apply (HL (Drained (wrap 32 b))); [|exact Hf]. right. split; [done|]. left. split; [done|]. split; [lia|done].
Qed.

Definition attempt_ok (asked : Z) (a : IoAttempt) : Prop := wouldBlock a = false -> a_error a = 0 -> 0 <= a_bytes a <= asked.

Lemma rg_tryCall {B} i k b asked fuel A H (q : IoAttempt -> prog (world X) B) Q :
  (i < n)%nat -> owner k = i -> (k < N)%nat -> 0 <= asked ->
  (forall a A H, attempt_ok asked a -> wouldBlock a = true -> rg R i (q a) (sure i A H [k] true (plus (plus base k (Floor b)) k (Tried (wrap 32 b)))) Q) ->
  (forall a A H, attempt_ok asked a -> wouldBlock a = false -> rg R i (q a) (sure i A H [k] true (ended_by k asked (a_bytes a) (a_error a))) Q) ->
  rg R i (bind (tryCall cfg fuel k asked (wrap 32 b)) q) (sure i A H [k] true (plus base k (Floor b))) Q.
Proof.
  intros Hi Ho Hk Has Hblk Hdone. unfold tryCall, isExhausted. apply rg_bind_assoc, sure_peek; [done..|]. intros x HL.
  destruct (exhausted x && (exhaustedAt x =? wrap 32 b) && negb (closed x)) eqn:Ex.
  - exists (plus (plus base k (Floor b)) k (Tried (wrap 32 b))). splits; [|intros ? ?; apply plus_other|by apply Hblk].
    apply plus_at; [done|]. apply andb_true_iff in Ex as [Ex Hcl%negb_true_iff]. apply andb_true_iff in Ex as [Ex Hat%Z.eqb_eq].
    intros Hf. destruct (HL Noted ltac:(by left) Hf Ex) as [_ Hd]. rewrite Hat in Hd. assert (Hfl : sane (Floor b) x) by (apply HL; by right). rewrite (floor_seen b x Hfl Hf) in *. split; [by apply Hfl|]. intros Hb Hat' Ha. by apply Hd.
  - exists (plus base k (Floor b)). splits; [done|done|]. clear x HL Ex. generalize (@nil (nat * fact)) at 1 2. intros A1. revert A1. induction fuel as [|fuel IH]; intros A1; [done|]. cbn [tryCall_loop].
    apply rg_bind_assoc, rg_systemCall; [done..|]. intros [m| | |e] Hr; simpl in Hr.
    + apply rg_bind_assoc, rg_noteTransfer; [done..|lia|]. apply Hdone; [by intros _ _|done].
    + eapply sure_weaken; [|apply IH]. intros k2 u Hu. by left.
    + eapply sure_weaken; [|by apply Hblk]. intros k2 u [Hu|[-> ->]]; [by left|by right].
    + eapply sure_weaken; [|apply Hdone; [|done]]; [|by intros _ He]. intros k2 u [Hu|(_ & _ & _ & _ & He)]; [left; by left|]. by simpl in He.
Qed.

Definition result_ok (asked : Z) (r : ended IoResult) : Prop := forall res, r = Returned res -> error res = 0 -> 0 <= bytes res <= asked.

Lemma floor_now k (x : X) : (forall u, base k u -> sane u x) -> sane (Floor (bumps x)) x.
Proof. intros HL. assert (H0 : sane (Floor 0) x) by (by apply HL). simpl in *. lia. Qed.

(** An attempt that would block is followed by a wait. *)
Lemma rg_wait_dry {B} i k b fuel d A H (q : ended Z -> prog (world X) B) Q :
  (i < n)%nat -> owner k = i -> (k < N)%nat -> kd i <> KCallback ->
  (forall r A H, rg R i (q r) (sure i A H [k] true base) Q) ->
  rg R i (bind (waitFor cfg armError fuel k (me i) (wrap 32 b) d) q) (sure i A H [k] true (plus (plus base k (Floor b)) k (Tried (wrap 32 b)))) Q.
Proof.
  intros Hi Ho Hk Hkd Hq. assert (Hev : plus (plus base k (Floor b)) k (Tried (wrap 32 b)) k (Every (everyArrivalReported (conf cfg k)))) by (by left; left).
  apply rg_waitFor with (Dry (wrap 32 b)); [done..|by right| |done| | |].
  - intros r A2 H2. apply after_weak. eapply sure_weaken; [|apply Hq]. intros k2 u Hu. left. by left.
  - intros y Her HLy Hy. assert (Ht : sane (Tried (wrap 32 b)) y) by (apply HLy; by right). intros Hf. destruct (Ht Hf) as [? ?]. split; [done|]. split; [done|]. split; [|done].
    rewrite Her in Hev. by apply (every_listening _ y (HLy _ Hev)).
  - intros y Her HLy Hy. rewrite Her in Hev. by apply arm_dry; [apply (HLy _ Hev)|].
  - intros y HLy u Hu. apply plain_waited; [|by apply HLy]. destruct Hu as [[Hu|[_ ->]]|[_ ->]]; [by eapply base_plain|done|done].
Qed.

Lemma rg_callWhenReady {B} i k asked fuel d A H (q : ended IoResult -> prog (world X) B) Q :
  (i < n)%nat -> owner k = i -> (k < N)%nat -> kd i <> KCallback -> 0 <= asked ->
  (forall r A H, result_ok asked r -> rg R i (q r) (sure i A H [k] true (match r with Returned res => ended_by k asked (bytes res) (error res) | Gone => base end)) Q) ->
  rg R i (bind (callWhenReady cfg armError fuel k (me i) asked d) q) (sure i A H [k] true base) Q.
Proof.
  intros Hi Ho Hk Hkd Has Hq. revert A H. induction fuel as [|fuel IH]; intros A H; [done|]. cbn [callWhenReady].
  apply rg_bind_assoc, sure_peek; [done..|]. intros x HL. exists (plus base k (Floor (bumps x))).
  splits; [apply plus_at; [done|by apply (floor_now k)]|intros ? ?; apply plus_other|]. apply rg_bind_assoc. unfold events.
  apply rg_tryCall; [done..| |].
  - intros a A' H' _ ->. cbn [negb]. apply rg_bind_assoc, rg_wait_dry; [done..|]. intros [e|] A2 H2; [|by apply Hq].
    destruct (e =? 0) eqn:Ee; [apply IH|]. apply Z.eqb_neq in Ee. eapply sure_weaken; [|apply (Hq (Returned (MkIoResult 0 e)))]; [|intros res [= <-] He; by simpl in He].
    intros k2 u [Hu|(_ & _ & _ & _ & He)]; [done|]. by simpl in He.
  - intros a A' H' Hok Hb. rewrite Hb. cbn [negb bind]. apply (Hq (Returned (MkIoResult (a_bytes a) (a_error a)))). intros res [= <-]. simpl. by apply Hok.
Qed.

(** Nothing is noted about a listener. *)
Lemma rg_tryAccept {B} i k b fuel A H (q : IoAttempt -> prog (world X) B) Q :
  (i < n)%nat -> owner k = i -> (k < N)%nat ->
  (forall a A H, wouldBlock a = true -> rg R i (q a) (sure i A H [k] true (plus (plus base k (Floor b)) k (Tried (wrap 32 b)))) Q) ->
  (forall a A H, wouldBlock a = false -> rg R i (q a) (sure i A H [k] true base) Q) ->
  rg R i (bind (tryAccept fuel k) q) (sure i A H [k] true (plus base k (Floor b))) Q.
Proof.
  intros Hi Ho Hk Hblk Hdone. revert A H. induction fuel as [|fuel IH]; intros A H; [done|]. cbn [tryAccept].
  apply rg_bind_assoc, rg_systemCall; [done..|]. intros [m| | |e] Hr.
  - eapply sure_weaken; [|by apply Hdone]. intros k2 u Hu. left. by left.
  - eapply sure_weaken; [|apply IH]. intros k2 u Hu. by left.
  - eapply sure_weaken; [|by apply Hblk]. intros k2 u [Hu|[-> ->]]; [by left|by right].
  - eapply sure_weaken; [|by apply Hdone]. intros k2 u Hu. left. by left.
Qed.

Lemma rg_acceptImpl {B} i k fuel d A H (q : ended IoResult -> prog (world X) B) Q :
  (i < n)%nat -> owner k = i -> (k < N)%nat -> kd i <> KCallback ->
  (forall r A H, rg R i (q r) (sure i A H [k] true base) Q) ->
  rg R i (bind (acceptImpl cfg armError fuel k (me i) d) q) (sure i A H [k] true base) Q.
Proof.
  intros Hi Ho Hk Hkd Hq. revert A H. induction fuel as [|fuel IH]; intros A H; [done|]. cbn [acceptImpl].
  apply rg_bind_assoc, sure_peek; [done..|]. intros x HL. exists (plus base k (Floor (bumps x))).
  splits; [apply plus_at; [done|by apply (floor_now k)]|intros ? ?; apply plus_other|]. apply rg_bind_assoc. unfold events.
  apply rg_tryAccept; [done..| |].
  - intros a A' H' ->. cbn [negb]. apply rg_bind_assoc, rg_wait_dry; [done..|]. intros [e|] A2 H2; [|apply Hq]. destruct (e =? 0); [apply IH|apply Hq].
  - intros a A' H' ->. cbn [negb bind]. apply Hq.
Qed.

Definition total_ok (eof : bool) (len : Z) (r : ended IoResult) : Prop :=
  forall res, r = Returned res -> 0 <= bytes res <= len /\ (eof = false -> error res = 0 -> bytes res = len).
(** A short transfer without an error has met the end. *)
Definition total_facts (k : nat) (len : Z) (r : ended IoResult) : nat -> fact -> Prop :=
  fun k2 u => base k2 u \/ (k2 = k /\ u = AtEnd /\ exists res, r = Returned res /\ error res = 0 /\ bytes res < len).

Lemma total_base {B} i k len r (p : prog (world X) B) A H Q :
  (forall res, r = Returned res -> error res = 0 -> len <= bytes res) ->
  rg R i p (sure i A H [k] true (total_facts k len r)) Q -> rg R i p (sure i A H [k] true base) Q.
Proof. intros Hr. apply sure_weaken. intros k2 u [Hu|(_ & _ & res & Hres & He & Hlt)]; [done|]. specialize (Hr res Hres He). lia. Qed.

Lemma rg_transferAll {B} i k fuel eof d len moved A H (q : ended IoResult -> prog (world X) B) Q :
  (i < n)%nat -> owner k = i -> (k < N)%nat -> kd i <> KCallback -> 0 <= moved <= len ->
  (forall r A H, total_ok eof len r -> rg R i (q r) (sure i A H [k] true (total_facts k len r)) Q) ->
  rg R i (bind (transferAll cfg armError fuel k (me i) eof d len moved) q) (sure i A H [k] true base) Q.
Proof.
  intros Hi Ho Hk Hkd Hm Hq. revert A H moved Hm. induction fuel as [|fuel IH]; intros A H moved Hm; [done|]. cbn [transferAll].
  destruct (moved <? len) eqn:El; [apply Z.ltb_lt in El|apply Z.ltb_ge in El; eapply total_base; [|apply (Hq (Returned _))]; [intros res [= <-] _; done|intros res [= <-]; simpl; split; [lia|intros; lia]]].
  apply rg_bind_assoc, rg_callWhenReady; [done..|lia|]. intros [chunk|] A' H' Hok; [|eapply total_base; [|by apply (Hq Gone)]; done].
  destruct (error chunk =? 0) eqn:Ee; cbn [negb].
  - apply Z.eqb_eq in Ee. specialize (Hok chunk eq_refl Ee). destruct (eof && (bytes chunk =? 0)) eqn:Eeof.
    + apply andb_true_iff in Eeof as [-> Ez%Z.eqb_eq]. eapply sure_weaken; [|apply (Hq (Returned _))]; [|intros res [= <-]; simpl; split; [lia|done]].
      intros k2 u [Hu|(-> & -> & res & [= <-] & _ & Hlt)]; [by left|right]. splits; [done|done|simpl in Hlt; lia|done|done].
    + eapply sure_weaken; [|apply IH; lia]. intros k2 u Hu. by left.
  - apply Z.eqb_neq in Ee. eapply sure_weaken; [|apply (Hq (Returned _))]; [|intros res [= <-]; simpl; split; [lia|by intros]].
    intros k2 u [Hu|(_ & _ & res & [= <-] & He & _)]; [by left|done].
Qed.

(** ** Parties *)

(** [watch] relies on it that the poller can be asked, once it has been added. *)
Definition reg_fit (i : nat) (o : reg_op) : bool :=
  match o with
  | RegWait k _ | RegWaitUncounted k => (owner k =? i)%nat && (k <? N)%nat && negb (bool_decide (kd i = KCallback)) && negb (man k)
  | RegWatch k _ _ => (owner k =? i)%nat && (k <? N)%nat && bool_decide (kd i = KCallback) && negb (man k) && (everyArrivalReported (conf cfg k) || (armError k =? 0))
  | RegAccept k _ => (owner k =? i)%nat && (k <? N)%nat && negb (bool_decide (kd i = KCallback))
  | RegCall k a _ => (owner k =? i)%nat && (k <? N)%nat && negb (bool_decide (kd i = KCallback)) && (0 <=? a)
  | RegTransferAll k _ _ a => (owner k =? i)%nat && (k <? N)%nat && negb (bool_decide (kd i = KCallback)) && (0 <=? a)
  end.

Lemma rg_newer {B} i k b A H a L (q : unit -> prog (world X) B) Q :
  (i < n)%nat -> owner k = i -> (k < N)%nat -> (forall k2 u, base k2 u -> L k2 u) -> L k (Past b) ->
  (forall A H, rg R i (q tt) (sure i A H a true base) Q) ->
  rg R i (bind (newer k b) q) (sure i A H a true L) Q.
Proof.
  intros Hi Ho Hk HLb HLp Hq. unfold newer. apply rg_bind_assoc, sure_peek; [done..|]. intros x HL. exists base. splits; [auto|auto|].
  pose proof (HL _ HLp) as Hp. simpl in Hp. assert (bumps x =? b = false) as -> by lia. apply Hq.
Qed.

(** Waiting for a count read just now. *)
Lemma raw_store k b (x : X) L : man k = false -> (forall u, plus base k (Floor b) k u -> L k u) -> (forall u, L k u -> sane u x) -> events x = wrap 32 b ->
  (fine x = true -> listening (wrap 32 b) x) -> sane (Raw (wrap 32 b)) (set_waited (wrap 32 b) x).
Proof.
  intros Hman HLL HL Hev Hli Hf. specialize (Hli Hf). assert (Hfl : sane (Floor b) x) by (apply HL, HLL; by right). rewrite (floor_seen b x Hfl Hf) in *.
  split; [apply Hfl|]. split; [done|]. split; [exact Hli|]. apply (HL Unmanaged); [|exact Hf]. apply HLL. by left.
Qed.

Lemma keep_plain (k : nat) seen (L : nat -> fact -> Prop) : (forall u, L k u -> plain u) -> forall x : X, (forall u, L k u -> sane u x) -> forall u, L k u -> sane u (set_waited seen x).
Proof. intros Hp x HL u Hu. apply plain_waited; auto. Qed.
Lemma plus_plain k b u : plus base k (Floor b) k u -> plain u.
Proof. intros [Hu|[_ ->]]; [by eapply base_plain|done]. Qed.

Lemma rg_wait_op {B} i k fuel d A H (q : ended unit -> prog (world X) B) Q :
  (i < n)%nat -> owner k = i -> (k < N)%nat -> kd i <> KCallback -> man k = false ->
  (forall r A H, rg R i (q r) (sure i A H [k] true base) Q) ->
  rg R i (bind (wait_op cfg armError fuel k (me i) d) q) (sure i A H [k] true base) Q.
Proof.
  intros Hi Ho Hk Hkd Hman Hq. unfold wait_op, seenOf. apply rg_bind_assoc, sure_peek; [done..|]. intros x HL. set (b := bumps x).
  exists (plus base k (Floor b)). splits; [apply plus_at; [done|by apply (floor_now k)]|intros ? ?; apply plus_other|]. cbn [fst snd]. unfold events.
  assert (Hev : plus base k (Floor b) k (Every (everyArrivalReported (conf cfg k)))) by (by left).
  apply rg_bind_assoc, rg_waitFor with (Raw (wrap 32 b)); [done..|by left| |done| | |].
  - intros [e|] A2 H2; cbn [bind]; [|apply after_weak; eapply sure_weaken; [intros k2 u Hu; left; exact Hu|apply Hq]].
    destruct (e =? 0) eqn:Ee; cbn [bind].
    + apply Z.eqb_eq in Ee as ->. apply rg_bind_assoc, rg_newer; [done..| | |].
      * intros k2 u Hu. left. by left.
      * right. splits; [done|done|]. exists b. splits; [done|by right|done].
      * intros A3 H3. apply Hq.
    + apply after_weak. eapply sure_weaken; [intros k2 u Hu; left; exact Hu|apply Hq].
  - intros y Her HLy Hy. eapply raw_store; [done|done|done|done|]. intros _. rewrite Her in Hev. apply (every_listening _ y (HLy _ Hev)).
  - intros y Her HLy Hy. apply arm_raw; [done|]. apply HLy. by left.
  - apply keep_plain. apply plus_plain.
Qed.

(** The end of an uncounted wait: what it has seen is kept. *)
Lemma rg_keep {B} i k A H L (q : prog (world X) B) Q :
  (i < n)%nat -> owner k = i -> (k < N)%nat ->
  (forall k2 u, base k2 u -> L k2 u) -> (forall u, L k u -> match u with Mark _ | Early _ | Raw _ | Dry _ => False | _ => True end) ->
  (forall A H, rg R i q (sure i A H [k] true L) Q) ->
  rg R i (bind (eventsOf k) (fun v => section k (fun x c => (set_consumed v x, c, tt));;; q)) (sure i A H [k] true L) Q.
Proof.
  intros Hi Ho Hk Hbase Hpl Hq. apply sure_peek; [done..|]. intros y HLy. set (v := events y).
  pose proof (floor_now k y (fun u Hu => HLy u (Hbase k u Hu))) as Hfl. simpl in Hfl.
  assert (Hv : 0 <= v <= bumps y /\ v < 2 ^ 32) by (unfold v, events, wrap; pose proof (Z.mod_pos_bound (bumps y) (2 ^ 32)); pose proof (Z.mod_le (bumps y) (2 ^ 32)); lia).
  exists (plus L k (Floor v)). splits; [apply plus_at; [done|apply Hv]|intros ? ?; apply plus_other|].
  apply sure_own; [done..|]. intros z c HLz. exists [], true, L. splits; [split; [by left|by intros ? ? ?%not_elem_of_nil|by auto]| |intros ? ? _ ?; by left|apply Hq].
  intros u Hu. pose proof (HLz u ltac:(by left)) as Hz. pose proof (HLz (Floor v) ltac:(by right)) as Hf. specialize (Hpl u Hu). destruct u; try done. simpl in *.
  change (bumps (set_consumed v z)) with (bumps z). lia.
Qed.

Lemma rg_uncounted_op {B} i k fuel A H (q : ended unit -> prog (world X) B) Q :
  (i < n)%nat -> owner k = i -> (k < N)%nat -> kd i <> KCallback -> man k = false ->
  (forall r A H, rg R i (q r) (sure i A H [k] true base) Q) ->
  rg R i (bind (uncounted_op cfg armError fuel k (me i)) q) (sure i A H [k] true base) Q.
Proof.
  intros Hi Ho Hk Hkd Hman Hq. unfold uncounted_op, waitUncounted. apply rg_bind_assoc, sure_peek; [done..|]. intros x0 HL0. set (c := consumed x0).
  destruct (HL0 Kept ltac:(done)) as [Hc0 Hc32]. fold c in Hc0, Hc32. set (L := plus base k (Floor c)). exists (plus L k (Mark c)).
  splits; [apply plus_at; [apply plus_at; [done|exact Hc0]|done]|intros k2 u Hne Hu; eapply plus_other; [done|]; by eapply plus_other|]. apply rg_bind_assoc, rg_bind_assoc.
  apply sure_peek; [done..|]. intros x1 HL1. assert (consumed x1 = c) as -> by (apply (HL1 (Mark c)); by right). exists L.
  splits; [intros u Hu; apply HL1; by left|intros ? ? ? ?; by left|]. assert (Hw : wrap 32 c = c) by (apply wrap_small; split; lia).
  assert (Hev : L k (Every (everyArrivalReported (conf cfg k)))) by (by left). assert (Hbase : forall k2 u, base k2 u -> L k2 u) by (intros; by left).
  apply rg_bind_assoc, rg_waitFor with (Raw c); [done..|by left| |done| | |].
  - intros [e|] A2 H2; cbn [bind]; [|apply after_weak; eapply sure_weaken; [exact Hbase|apply (Hq Gone)]].
    set (L2 := fun k2 u => base k2 u \/ (e = 0 /\ k2 = k /\ u = Past c)). eapply sure_weaken with L2.
    { intros k2 u [Hu|(-> & -> & ->)]; [left; by left|right]. splits; [done|done|]. exists c. splits; [done|by right|done]. }
    apply rg_bind_assoc, rg_keep; [done..|by left| |].
    + intros u [Hu|(_ & _ & ->)]; [by destruct u|done].
    + intros A3 H3. cbn [bind]. destruct (e =? 0) eqn:Ee; cbn [bind].
      * apply Z.eqb_eq in Ee as ->. apply rg_bind_assoc, rg_newer; [done..|by left|right; done|]. intros A4 H4. apply (Hq (Returned tt)).
      * eapply sure_weaken; [|apply (Hq (Returned tt))]. by left.
  - intros y Her HLy Hy. rewrite <- Hw. eapply raw_store; [done|done|exact HLy|by rewrite Hw|]. intros _. rewrite Her in Hev. apply (every_listening _ y (HLy _ Hev)).
  - intros y Her HLy Hy. apply arm_raw; [done|]. apply HLy. by left.
  - apply keep_plain, plus_plain.
Qed.

(** What follows from what is known. *)
Lemma sure_more {B} i k v A H a fr L (p : prog (world X) B) Q :
  (forall x, (forall u, L k u -> sane u x) -> sane v x) -> rg R i p (sure i A H a fr (plus L k v)) Q -> rg R i p (sure i A H a fr L) Q.
Proof.
  intros Hv. apply rg_pre. intros w g _ [HP HK]. split; [done|]. intros k2 x c u Ho Hs [Hu|[-> ->]]; [by eapply HK; eauto|]. apply Hv. intros u Hu. by eapply HK; eauto.
Qed.

(** After [watch] has asked the poller, or need not, the poller listens. *)
Lemma rg_watch_arm {B} i k b L (p : prog (world X) B) Q :
  (i < n)%nat -> owner k = i -> (k < N)%nat -> everyArrivalReported (conf cfg k) || (armError k =? 0) = true ->
  (forall k2 u, plus base k (Floor b) k2 u -> L k2 u) ->
  rg R i p (sure i [] [] [k] true (plus L k (Listening (wrap 32 b)))) Q ->
  rg R i (bind (if everyArrivalReported (conf cfg k) then Ret 0 else owner_arm armError k) (fun _ => p)) (sure i [] [] [k] true L) Q.
Proof.
  intros Hi Ho Hk Har HL Hp. assert (Hev : L k (Every (everyArrivalReported (conf cfg k)))) by (apply HL; by left).
  assert (Hfl : L k (Floor b)) by (apply HL; by right).
  destruct (everyArrivalReported (conf cfg k)) eqn:Er; cbn [bind].
  - apply (sure_more i k (Listening (wrap 32 b))); [|exact Hp]. intros x HLx Hf. rewrite (floor_seen b x (HLx _ Hfl) Hf). split; [apply (HLx _ Hfl)|]. apply (every_listening _ x (HLx _ Hev)).
  - simpl in Har. unfold owner_arm. rewrite Har. cbn [negb]. apply sure_own; [done..|]. intros x c HLx. exists [], true, (plus L k (Listening (wrap 32 b))).
    splits; [split; [by left|by intros ? ? ?%not_elem_of_nil|by auto]| |intros ? ?; apply plus_other|exact Hp].
    assert (Hq : quietly x (set_descriptor (arm (descriptor x)) x)) by (apply arm_quietly, (HLx _ Hev)). apply plus_at; [intros u Hu; by apply (quietly_ok x _ u Hq), HLx|].
    intros Hf. rewrite (floor_seen b _ (HLx _ Hfl) Hf). split; [apply (HLx _ Hfl)|]. intros _. left. apply arm_attentive.
Qed.

Lemma rg_watch_op {B} i k early late A H (q : unit -> prog (world X) B) Q :
  (i < n)%nat -> owner k = i -> (k < N)%nat -> kd i = KCallback -> man k = false -> everyArrivalReported (conf cfg k) || (armError k =? 0) = true ->
  (forall A H, rg R i (q tt) (sure i A H [k] true base) Q) ->
  rg R i (bind (watch_op cfg armError k (me i) early late) q) (sure i A H [k] true base) Q.
Proof.
  intros Hi Ho Hk Hkd Hman Har Hq. unfold watch_op, seenOf. apply rg_bind_assoc, sure_peek; [done..|]. intros x HL. set (b := bumps x). set (L := plus base k (Floor b)).
  exists L. splits; [apply plus_at; [done|by apply (floor_now k)]|intros ? ?; apply plus_other|]. cbn [fst snd]. change (events x) with (wrap 32 b).
  assert (Hbase : forall k2 u, base k2 u -> L k2 u) by (intros k2 u Hu; by left).
  assert (Hpast : forall k2 u, base k2 u -> plus L k (Past b) k2 u) by (intros k2 u Hu; by left; left).
  assert (Hun : forall y c, (unwatch_locked (me i) y c = (y, None, true) /\ c = Some (me i)) \/ unwatch_locked (K:=K) (me i) y c = (y, c, false)).
  { intros y c. unfold unwatch_locked. case_decide; [by left|by right]. }
  assert (Hwatch : forall cancelled, rg R i (bind (r <- watch cfg armError k (me i) cancelled (wrap 32 b);; match r with Ready => newer k b | Cancelled => Ret tt
    | Enqueued => undone <- (if late then unwatch k (me i) else Ret false);; if undone : bool then Ret tt else (awaitCallback (me i);;; newer k b) end) q) (sure i [] [] [k] true L) Q).
  { intros cancelled. unfold watch. apply rg_bind_assoc, rg_bind_assoc, (rg_watch_arm i k b L); [done..|]. apply sure_own; [done..|]. intros y c HLy2.
    assert (HLy : forall u, L k u -> sane u y) by (intros u Hu; apply HLy2; by left). unfold watch_locked. destruct cancelled; [|destruct (events y =? wrap 32 b) eqn:Ev; cbn [negb]].
    - exists [], true, base. splits; [split; [by left|by intros ? ? ?%not_elem_of_nil|by auto]|auto|intros k2 u _ Hu; left; auto|apply Hq].
    - exists [(k, Raw (wrap 32 b))], false, L. splits; [|apply keep_plain; [apply plus_plain|done]|by left|].
      { split; [right; right; by auto| |done]. intros k2 t Hin%list_elem_of_singleton. injection Hin as -> ->. right. splits; [done| |done|exact Ev].
        eapply raw_store; [done| |exact HLy|by apply Z.eqb_eq|]; [done|]. intros Hf. apply (HLy2 (Listening (wrap 32 b))); [by right|done]. }
      assert (Hcb : rg R i (bind (awaitCallback (me i);;; newer k b) q) (sure i [(k, Raw (wrap 32 b))] [] [k] false L) Q).
      { apply rg_bind_assoc, sure_awaitCallback with (plus L k (Past b)); [done..| |intros ? ?; apply plus_other|].
        - intros z u Hs Hid HLz [Hu|[_ ->]]; [by apply HLz|]. apply floor_past; [apply HLz; by right|]. simpl in Hid. by apply Z.eqb_neq.
        - apply rg_newer; [done..|exact Hpast|by right|exact Hq]. }
      destruct late; cbn [bind]; [|exact Hcb]. apply rg_bind_assoc, sure_cancel; [exact Hun|done..| |exact Hcb]. eapply sure_weaken; [exact Hbase|apply Hq].
    - exists [], true, (plus L k (Past b)). splits; [split; [by left|by intros ? ? ?%not_elem_of_nil|by auto]| |intros k2 u Hne Hu; left; by eapply plus_other|].
      + apply plus_at; [done|]. apply floor_past; [apply HLy; by right|by apply Z.eqb_neq].
      + apply rg_newer; [done..|exact Hpast|by right|exact Hq]. }
  destruct early; cbn [bind]; [|apply (Hwatch false)]. apply rg_bind_assoc, sure_own; [done..|]. intros y c HLy.
  destruct (Hun y c) as [[-> ->]| ->]; exists [], true, L.
  - splits; [|done|done|apply (Hwatch false)]. split; [by right; left|by intros ? ? ?%not_elem_of_nil|]. by auto.
  - splits; [|done|done|apply (Hwatch true)]. split; [by left|by intros ? ? ?%not_elem_of_nil|by auto].
Qed.

Lemma rg_transferAll_op {B} i k fuel e d m A H (q : ended unit -> prog (world X) B) Q :
  (i < n)%nat -> owner k = i -> (k < N)%nat -> kd i <> KCallback -> 0 <= m ->
  (forall r A H, rg R i (q r) (sure i A H [k] true base) Q) ->
  rg R i (bind (transferAll_op cfg armError fuel k (me i) e d m) q) (sure i A H [k] true base) Q.
Proof.
  intros Hi Ho Hk Hkd Hm Hq. unfold transferAll_op, readExactly, writeAllImpl. apply rg_bind_assoc.
  assert (Hend : forall r A H, total_ok e m r -> rg R i (bind (match r with
      | Gone => Ret Gone
      | Returned res => ended <- atEnd k;; (if (0 <=? bytes res) && (bytes res <=? m) && (negb (error res =? 0) || (bytes res =? m) || (e && ended)) then Ret tt else store set_wrong);;; Ret (Returned tt)
      end) q) (sure i A H [k] true (total_facts k m r)) Q).
  { intros [res|] A' H' Hok; cbn [bind]; [|eapply sure_weaken; [|apply (Hq Gone)]; by left]. destruct (Hok res eq_refl) as [Hr Hlen].
    apply rg_bind_assoc. unfold atEnd. apply sure_peek; [done..|]. intros x HL. exists base. splits; [intros u Hu; apply HL; by left|intros ? ? _ ?; by left|].
    rewrite (proj2 (andb_true_iff _ _)); [apply (Hq (Returned tt))|]. split; [apply andb_true_iff; split; apply Z.leb_le; lia|].
    destruct (Z.eqb_spec (error res) 0) as [He|]; [|done]. destruct (Z.eqb_spec (bytes res) m) as [|Hne]; [done|]. simpl.
    destruct e; [|by destruct Hne; apply Hlen]. simpl. assert (Hae : sane AtEnd x) by (apply HL; right; splits; [done|done|]; exists res; splits; [done|done|lia]). simpl in Hae.
    destruct (streamed (descriptor x)); [by rewrite Hae|apply orb_true_r]. }
  destruct e; (apply rg_transferAll; [done..|lia|]); intros r A' H' Hok; by apply Hend.
Qed.

Lemma rg_ends {B} i k (p : prog (world X) (ended B)) A H rest Q :
  ((forall (r : ended B) A H, rg R i (match r with Gone => Ret tt | Returned _ => rest end) (sure i A H [k] true base) Q) ->
   rg R i (bind p (fun r => match r with Gone => Ret tt | Returned _ => rest end)) (sure i A H [k] true base) Q) ->
  (forall A H a, rg R i rest (sure i A H a true base) Q) -> (forall A H a, rg R i (Ret tt) (sure i A H a true base) Q) ->
  rg R i (ends p rest) (sure i A H [k] true base) Q.
Proof. intros Hp Hrest Hgone. apply Hp. intros [r|] A' H'; auto. Qed.

Lemma rg_reg_party i fuel ops A H a :
  (i < n)%nat -> forallb (reg_fit i) ops = true ->
  rg R i (reg_party cfg armError fuel (me i) ops) (sure i A H a true base) (done_ok kd n i).
Proof.
  intros Hi. revert A H a. induction ops as [|o ops IH]; intros A H a Hfit.
  { intros w g HI [(Hg & _ & Hf) _]. split; [by rewrite Hg|]. auto. }
  cbn [forallb] in Hfit. apply andb_true_iff in Hfit as [Hf Hfit]. cbn [reg_party].
  assert (Hrest : forall A H a, rg R i (reg_party cfg armError fuel (me i) ops) (sure i A H a true base) (done_ok kd n i)) by auto.
  assert (Hgone : forall A H a, rg R i (Ret tt) (sure i A H a true base) (done_ok kd n i)).
  { intros A' H' a' w g HI [(Hg & _ & Hfr) _]. split; [by rewrite Hg|]. auto. }
  destruct o as [k d|k|k e l|k d|k m d|k e d m]; cbn [reg_fit reg_perform] in *; repeat (apply andb_true_iff in Hf as [Hf ?]); apply Nat.eqb_eq in Hf;
    repeat match goal with H : (_ <? _)%nat = true |- _ => apply Nat.ltb_lt in H | H : negb _ = true |- _ => apply negb_true_iff in H
      | H : bool_decide _ = _ |- _ => first [apply bool_decide_eq_false in H|apply bool_decide_eq_true in H] | H : (0 <=? _) = true |- _ => apply Z.leb_le in H end;
    (apply sure_asks; [done|]).
  - apply rg_ends; [|exact Hrest|exact Hgone]. by apply rg_wait_op.
  - apply rg_ends; [|exact Hrest|exact Hgone]. by apply rg_uncounted_op.
  - apply rg_watch_op; [done..|]. intros A' H'. apply Hrest.
  - apply rg_ends; [|exact Hrest|exact Hgone]. by apply rg_acceptImpl.
  - apply rg_ends; [|exact Hrest|exact Hgone]. intros Hq. apply rg_callWhenReady; [done..|]. intros r A' H' _. eapply sure_weaken; [|apply Hq]. intros k2 u Hu. destruct r; [by left|done].
  - apply rg_ends; [|exact Hrest|exact Hgone]. by apply rg_transferAll_op.
Qed.
End spec.
