(* ===== verification/RegistrationPool.v ===== *)
(** * Registration: parties, pollers and the kernel together

    The rules of RegistrationSpec.v for the parties that wait and transfer; here the
    kernel's events and the pollers, the reports that are on their way, and the
    theorem. *)

From Stdlib Require Import ZArith Lia.
From stdpp Require Import base tactics list numbers option strings functions.
From S2P Require Import Prelude Conc Sums Source SourceSpec SourceKnow Registration RegistrationSpec.

Section pool.
Context {K E : Type} `{!Kernel K E}.
Notation X := (Direction K).

(** ** What the parties leave alone *)

(** Counts that only reports change. *)
Definition tally (x : X) : N * nat * nat := (reports x, onTheWay x, hupsOnTheWay x).
Definition tallies (w : world X) : list (N * nat * nat) := (fun s => tally s.1) <$> sources w.

Lemma tallies_upd (w : world X) k x c : tallies (set_sources (<[k := (x, c)]> (sources w)) w) = <[k := tally x]> (tallies w).
Proof. unfold tallies. simpl. by rewrite list_fmap_insert. Qed.

Lemma tallies_lookup (w : world X) k x c : sources w !! k = Some (x, c) -> tallies w !! k = Some (tally x).
Proof. intros H. unfold tallies. by rewrite list_lookup_fmap, H. Qed.

Lemma leaves_section {C} k (f : X -> option Waker -> X * option Waker * C) :
  (forall x c, tally (f x c).1.1 = tally x) -> leaves tallies (section k f).
Proof.
  intros Hf. split; [|done]. intros w w' r Hin. destruct (sources w !! k) as [[x c]|] eqn:Hs; [|by apply not_elem_of_nil in Hin].
  specialize (Hf x c). destruct (f x c) as [[x' c'] r']. apply list_elem_of_singleton in Hin. injection Hin as -> ->. cbn [fst] in Hf.
  rewrite tallies_upd, Hf. apply list_insert_id. by eapply tallies_lookup.
Qed.

Lemma leaves_sources {C Y} (f : world X -> list (world X * Y)) (q : Y -> prog (world X) C) :
  (forall w w' y, (w', y) ∈ f w -> sources w' = sources w) -> (forall y, leaves tallies (q y)) -> leaves tallies (Act Y f q).
Proof. intros Hf Hq. split; [|exact Hq]. intros w w' y Hin. unfold tallies. by rewrite (Hf w w' y Hin). Qed.

Ltac in_list := repeat match goal with
  | H : _ ∈ _ :: _ |- _ => apply elem_of_cons in H as [H|H]
  | H : _ ∈ _ ++ _ |- _ => apply elem_of_app in H as [H|H]
  | H : _ ∈ [] |- _ => by apply not_elem_of_nil in H
  | H : _ ∈ (if ?b then _ else _) |- _ => destruct b
  | H : (_, _) = (_, _) |- _ => injection H as -> ->
  end.

Lemma leaves_block m : leaves tallies (block (X:=X) m).
Proof. apply leaves_sources; [|done]. intros w w' y Hin. by in_list. Qed.
Lemma leaves_blockUntil m : leaves tallies (blockUntil (X:=X) m).
Proof. apply leaves_sources; [|done]. intros w w' y Hin. by in_list. Qed.
Lemma leaves_awaitCallback m : leaves tallies (awaitCallback (X:=X) m).
Proof. apply leaves_sources; [|done]. intros w w' y Hin. by in_list. Qed.
Lemma leaves_asks m ks : leaves tallies (asks (X:=X) m ks).
Proof. apply leaves_sources; [|done]. intros w w' y Hin. by in_list. Qed.
Lemma leaves_wrong : leaves tallies (store (set_wrong (X:=X))).
Proof. apply leaves_sources; [|done]. intros w w' y Hin. by in_list. Qed.
Lemma leaves_stop : leaves tallies (store (set_stopping (X:=X) true)).
Proof. apply leaves_sources; [|done]. intros w w' y Hin. by in_list. Qed.
Lemma leaves_wake o : leaves tallies (wake (X:=X) o).
Proof. destruct o as [[u [| |]]|]; [..|done]; (apply leaves_sources; [|done]); intros w w' y Hin; by in_list. Qed.

#[local] Hint Resolve leaves_block leaves_blockUntil leaves_awaitCallback leaves_asks leaves_wrong : core.

(** The bind at the head, the choices, the accesses. *)
Ltac leave := repeat first
  [ done
  | solve [auto]
  | apply leaves_bind; [|intros ?]
  | apply leaves_section; intros ? ?; first [done | by case_decide | by destruct (call _ _) | by repeat case_match]
  | match goal with |- leaves _ (match ?b with _ => _ end) => destruct b end ].

Context (cfg : nat -> RegConfig) (armError : nat -> Z).

Lemma leaves_owner_arm k : leaves tallies (owner_arm (K:=K) armError k).
Proof. unfold owner_arm. leave. Qed.
#[local] Hint Resolve leaves_owner_arm : core.

Lemma leaves_waitFor fuel k m seen d : leaves tallies (waitFor (K:=K) cfg armError fuel k m seen d).
Proof.
  assert (Hloop : leaves tallies (waitFor_loop (K:=K) fuel k m seen d)).
  { induction fuel as [|fuel IH]; [done|]. cbn [waitFor_loop]. unfold eventsOf, peek, reg_detach, detach_locked. leave. }
  unfold waitFor, eventsOf, peek, reg_detach, detach_locked, store_locked. leave.
Qed.
#[local] Hint Resolve leaves_waitFor : core.

Lemma leaves_tryCall fuel k asked seen : leaves tallies (tryCall (K:=K) cfg fuel k asked seen).
Proof.
  unfold tryCall. apply leaves_bind; [unfold isExhausted, peek; leave|]. intros [|]; [done|].
  induction fuel as [|fuel IH]; [done|]. cbn [tryCall_loop]. unfold systemCall, noteTransfer. leave.
Qed.
#[local] Hint Resolve leaves_tryCall : core.

Lemma leaves_callWhenReady fuel k m asked d : leaves tallies (callWhenReady (K:=K) cfg armError fuel k m asked d).
Proof. induction fuel as [|fuel IH]; [done|]. cbn [callWhenReady]. unfold eventsOf, peek. leave. Qed.
#[local] Hint Resolve leaves_callWhenReady : core.

Lemma leaves_acceptImpl fuel k m d : leaves tallies (acceptImpl (K:=K) cfg armError fuel k m d).
Proof.
  assert (Ht : forall fuel, leaves tallies (tryAccept (K:=K) fuel k)) by (intros f; induction f as [|f IH]; [done|]; cbn [tryAccept]; unfold systemCall; leave).
  induction fuel as [|fuel IH]; [done|]. cbn [acceptImpl]. unfold eventsOf, peek. apply leaves_bind; [leave|]. intros seen. apply leaves_bind; [apply Ht|]. intros a. leave.
Qed.
#[local] Hint Resolve leaves_acceptImpl : core.

Lemma leaves_transferAll fuel k m eof d len moved : leaves tallies (transferAll (K:=K) cfg armError fuel k m eof d len moved).
Proof. revert moved. induction fuel as [|fuel IH]; intros moved; [done|]. cbn [transferAll]. leave. Qed.
#[local] Hint Resolve leaves_transferAll : core.

Lemma leaves_newer k b : leaves tallies (newer (K:=K) k b).
Proof. unfold newer, peek. leave. Qed.
#[local] Hint Resolve leaves_newer : core.

Lemma leaves_reg_party fuel m ops : leaves tallies (reg_party (K:=K) cfg armError fuel m ops).
Proof.
  induction ops as [|o ops IH]; [done|]. cbn [reg_party]. destruct o; cbn [reg_perform]; (apply leaves_bind; [auto|intros _]); unfold ends, wait_op, uncounted_op, waitUncounted, watch_op, atEnd, transferAll_op, readExactly, writeAllImpl,
    seenOf, eventsOf, unwatch, watch, unwatch_locked, watch_locked, peek; leave.
Qed.

(** ** Events and reports *)

(** No count has wrapped around. *)
Definition all_fine (w : world X) : bool := forallb (fun s => fine s.1) (sources w).

Lemma forallb_at {A} (p : A -> bool) (l : list A) k a : forallb p l = true -> l !! k = Some a -> p a = true.
Proof. rewrite List.forallb_forall. intros H Hk. apply H, list_elem_of_In. by eapply list_elem_of_lookup_2. Qed.

Lemma all_fine_at w k x c : all_fine w = true -> sources w !! k = Some (x, c) -> fine x = true.
Proof. intros H Hs. unfold all_fine in H. rewrite List.forallb_forall in H. apply (H (x, c)), list_elem_of_In. by eapply list_elem_of_lookup_2. Qed.

Lemma all_fine_tallies w w' : tallies w' = tallies w -> all_fine w' = all_fine w.
Proof.
  intros H. assert (Ht : forall w, all_fine w = forallb (fun t => (0 <=? Z.of_N t.1.1) && (Z.of_N t.1.1 <? 2 ^ 32)) (tallies w)).
  { intros v. unfold all_fine, tallies. induction (sources v) as [|s l IH]; [done|]. cbn. by rewrite IH. }
  by rewrite !Ht, H.
Qed.

Lemma all_fine_back w k x c x' c' : sources w !! k = Some (x, c) -> (fine x' = true -> fine x = true) ->
  all_fine (set_sources (<[k := (x', c')]> (sources w)) w) = true -> all_fine w = true.
Proof.
  intros Hs Hx Hf. apply List.forallb_forall. intros [y d] Hin%list_elem_of_In. apply list_elem_of_lookup_1 in Hin as [k2 Hk2]. cbn.
  destruct (decide (k2 = k)) as [->|Hne].
  - rewrite Hs in Hk2. injection Hk2 as <- <-. apply Hx. eapply (all_fine_at _ k x' c' Hf). simpl. apply list_lookup_insert_eq. by eapply lookup_lt_Some.
  - eapply (all_fine_at _ k2 y d Hf). simpl. by rewrite list_lookup_insert_ne.
Qed.

Context (owner : nat -> nat) (kd : nat -> Kind) (n N : nat).
Notation R := (sproto idle sane owner kd n N).
Notation Rs := (scoped R all_fine).
Notation at_env := (fun i p => in_scope all_fine (at_ (X:=X) (T:=fact) kd n i [] p [] true)).

Lemma stable_env i p : stable Rs i (at_env i p).
Proof. apply stable_scoped, stable_sat. Qed.

(** A section of the kernel or of a poller leaves a direction as ready as it was, or
    moves its count and takes the waker that is there. *)
Lemma env_section {C} i k (f : X -> option Waker -> X * option Waker * C) (taken : C -> option Waker) p :
  (i < n)%nat -> kd i <> KCallback -> (k < N)%nat ->
  (forall x c, let '(x', c', r) := f x c in
     (c' = c /\ taken r = None /\ quietly x x') \/
     (c' = None /\ taken r = c /\ (fine x' = true -> fine x = true /\ forall u, sane u x -> sane u x' /\ idle u x' = false))) ->
  rg Rs i (section k f) (at_env i p) (fun r => at_env i (p ++ option_list (taken r))).
Proof.
  intros Hi Hkd Hk Hf. split.
  { intros w g HI HP Hnil Hsc. destruct (source_there idle sane owner kd n N w g k (HI Hsc) Hk) as (x & c & Hs). simpl in Hnil. rewrite Hs in Hnil. by destruct (f x c) as [[? ?] ?]. }
  intros w g w' r HI HP Hin. destruct (sources w !! k) as [[x c]|] eqn:Hs; [|by apply not_elem_of_nil in Hin].
  specialize (Hf x c). destruct (f x c) as [[x' c'] r']. apply list_elem_of_singleton in Hin. injection Hin as -> ->. set (w' := set_sources (<[k := (x', c')]> (sources w)) w).
  assert (Hpost : forall r, rg Rs i (Ret r) (at_env i (p ++ option_list (taken r))) (fun r => at_env i (p ++ option_list (taken r)))) by (by intros ? w1 g1 _ ?).
  destruct (all_fine w') eqn:Hsc'.
  2:{ exists g, (in_scope all_fine (fun _ _ => False)). splits; [intros ?; congruence|intros ?; simpl in *; congruence|intros ?; congruence|by apply stable_scoped; intros j ? ? ? ? ? ? ? ? []|].
    intros w1 g1 _ Hno Hsc1. by destruct (Hno Hsc1). }
  destruct Hf as [(-> & Ht & Hqu)|(-> & Ht & Htake)].
  - assert (Hsc : all_fine w = true).
    { eapply (all_fine_back w k x c x' c); [done| |exact Hsc']. unfold fine, bumps. pose proof (qu_bumps _ _ Hqu) as Hb. unfold bumps in Hb. by rewrite Hb. }
    destruct (quiet_step idle sane owner kd n N w g i k x c x' (HI Hsc) Hs) as [H1 H2]; [intros u; by apply quietly_ok|].
    exists g, (at_env i p). destruct (HP Hsc) as (Hg & Ha & _).
    splits; [by intros _|intros _; by split|intros _; split; [done|split; [done|by intros _ ?]]|apply stable_env|]. intros w1 g1 _. by rewrite Ht, app_nil_r.
  - assert (Hfx' : fine x' = true) by (eapply (all_fine_at w' k x' None Hsc'); apply list_lookup_insert_eq; by eapply lookup_lt_Some).
    destruct (Htake Hfx') as [Hfx Htk]. assert (Hsc : all_fine w = true) by (by eapply (all_fine_back w k x c x' None)).
    destruct (HP Hsc) as (Hg & Ha & _).
    destruct (take_step idle sane owner kd n N w g i k x c x' None [] [] p (HI Hsc) Hi Hs Hg) as [H1 H2]; [by left|done|].
    exists (<[i := SPl [] [] (p ++ option_list c)]> g), (at_env i (p ++ option_list (taken r'))). splits; [by intros _|intros _; by split| |apply stable_env|apply Hpost].
    intros _. rewrite Ht. split; [apply fn_lookup_insert|]. split; [exact Ha|by intros _ ?].
Qed.

Lemma env_wake i o p : (i < n)%nat -> kd i <> KCallback ->
  rg Rs i (wake o) (at_env i (option_list o ++ p)) (fun _ => at_env i p).
Proof.
  intros Hi Hkd. eapply (rg_scoped R all_fine i (wake o) (at_ kd n i [] (option_list o ++ p) [] true) (fun _ => at_ kd n i [] p [] true)).
  - eapply leaves_keeps_out; [apply all_fine_tallies|apply leaves_wake].
  - apply rg_seq_ret. apply src_wake; [done|done|]. by intros w g _ ?.
Qed.

Lemma env_collect i k ready cl p : (i < n)%nat -> kd i <> KCallback -> (k < N)%nat ->
  rg Rs i (section k (collect_locked ready cl)) (at_env i p) (fun r => at_env i (p ++ option_list r)).
Proof.
  intros Hi Hkd Hk. apply (env_section i k _ (fun r => r)); [done..|]. intros x c. destruct ready.
  - pose proof (collect_takes cl x c) as Ht. cbn [collect_locked fst] in *. right. splits; [done|done|]. intros Hf. assert (Hfx : fine x = true).
    { unfold fine, bumps in *. cbn [reports] in Hf. rewrite N2Z.inj_succ in Hf. apply andb_true_iff in Hf as [_ ?%Z.ltb_lt]. apply andb_true_iff. split; [apply Z.leb_le|apply Z.ltb_lt]; lia. }
    split; [done|]. intros u. by apply Ht.
  - pose proof (collect_quietly cl x c) as [Hq _]. left. by splits.
Qed.

Lemma env_poll i k p : (i < n)%nat -> kd i <> KCallback -> (k < N)%nat ->
  rg Rs i (section k poll_locked) (at_env i p) (fun _ => at_env i p).
Proof.
  intros Hi Hkd Hk. eapply rg_weaken; [by intros w g _ HP; exact HP| |apply (env_section i k _ (fun _ => None)); [done..|]].
  - intros r w g _. cbn. by rewrite app_nil_r.
  - intros x c. pose proof (poll_quietly x c) as [Hq Hc]. destruct (poll_locked x c) as [[x' c'] r]. left. by splits.
Qed.

Definition env_fit (i : nat) (o : env_op E) : bool :=
  negb (bool_decide (kd i = KCallback)) && match o with EnvEvent k _ => (k <? N)%nat | EnvPoll r => (2 * r + 1 <? N)%nat | EnvStop => true end.

Lemma rg_env_party i ops : (i < n)%nat -> forallb (env_fit i) ops = true ->
  rg Rs i (env_party ops) (at_env i []) (fun _ => at_env i []).
Proof.
  intros Hi Hfit. induction ops as [|o ops IH]; [by intros w g _ ?|]. cbn [forallb env_party] in *. apply andb_true_iff in Hfit as [Hf Hfit].
  apply andb_true_iff in Hf as [Hkd%negb_true_iff%bool_decide_eq_false Hf]. eapply rg_seq; [|by apply IH]. destruct o as [k e|r|]; cbn [env_perform].
  - apply Nat.ltb_lt in Hf. eapply rg_weaken; [by intros w g _ HP; exact HP| |apply (env_section i k _ (fun _ => None)); [done..|]].
    + intros ? w g _. cbn. auto.
    + intros x c. left. splits; [done|done|apply event_quietly].
  - apply Nat.ltb_lt in Hf. assert (Hkr : (slot r Readable < N)%nat) by (cbn; lia). assert (Hkw : (slot r Writable < N)%nat) by (cbn; lia).
    unfold pollOnce, deliver, collect. eapply rg_bind; [by apply env_poll|]. intros a. eapply rg_bind; [by apply env_poll|]. intros b.
    eapply rg_bind; [eapply rg_bind; [by apply env_collect|]|].
    + intros reader. eapply rg_bind; [by apply env_collect|]. intros writer.
      instantiate (1 := fun wk => at_env i (option_list wk.1 ++ option_list wk.2)). by intros w g _ ?.
    + intros wk. cbv beta. eapply rg_seq; [by apply env_wake|]. rewrite <- (app_nil_r (option_list wk.2)). by apply env_wake.
  - eapply (rg_scoped R all_fine i _ (at_ kd n i [] [] [] true) (fun _ => at_ kd n i [] [] [] true)).
    + eapply leaves_keeps_out; [apply all_fine_tallies|apply leaves_stop].
    + apply rg_seq_ret, src_stop. by intros w g _ ?.
Qed.

(** ** Reports on their way

    What a poller's wait has returned is collected by the same party. *)

Abbreviation ways := (nat -> nat -> nat * nat).

Definition way_inv (w : world X) (g : ways) : Prop :=
  length (sources w) = N /\
  forall k t, tallies w !! k = Some t -> t.1.2 = total n (fun l => (l k).1) g /\ t.2 = total n (fun l => (l k).2) g.
Definition way_proto : protocol (world X) ways :=
  WaitProtocol way_inv (fun j a b => forall i, i <> j -> b.2 i = a.2 i) (fun i _ g => forall k, g i k = (0, 0)%nat).
Notation Rw := way_proto.

Definition holds (i : nat) (l : nat -> nat * nat) : asrt (world X) ways := fun _ g => forall k, g i k = l k.
Definition none : nat -> nat * nat := fun _ => (0, 0)%nat.

Lemma stable_holds i l : stable Rw i (holds i l).
Proof. intros j w g w' g' Hj _ _ HG H k. simpl in HG. rewrite HG by done. apply H. Qed.

(** Party [i]'s share of direction [k] changes as the direction's counts do. *)
Lemma way_section {C} i k (f : X -> option Waker -> X * option Waker * C) l (v : C -> nat * nat) :
  (i < n)%nat -> (k < N)%nat ->
  (forall x c, ((l k).1 <= onTheWay x)%nat -> ((l k).2 <= hupsOnTheWay x)%nat -> let '(x', _, r) := f x c in
     (onTheWay x' + (l k).1 = onTheWay x + (v r).1)%nat /\ (hupsOnTheWay x' + (l k).2 = hupsOnTheWay x + (v r).2)%nat) ->
  rg Rw i (section k f) (holds i l) (fun r => holds i (<[k := v r]> l)).
Proof.
  intros Hi Hk Hf. split.
  { intros w g [Hl _] _ Hnil. destruct (lookup_lt_is_Some_2 (sources w) k) as [[x c] Hs]; [lia|]. simpl in Hnil. rewrite Hs in Hnil. by destruct (f x c) as [[? ?] ?]. }
  intros w g w' r [Hl HI] HP Hin. destruct (sources w !! k) as [[x c]|] eqn:Hs; [|by apply not_elem_of_nil in Hin].
  pose proof (tallies_lookup w k x c Hs) as Ht. destruct (HI k _ Ht) as [H1 H2]. simpl in H1, H2.
  pose proof (total_elem n (fun l => (l k).1) g i Hi) as E1. pose proof (total_elem n (fun l => (l k).2) g i Hi) as E2. simpl in E1, E2. rewrite (HP k) in E1, E2.
  specialize (Hf x c ltac:(lia) ltac:(lia)). destruct (f x c) as [[x' c'] r']. apply list_elem_of_singleton in Hin. injection Hin as -> ->.
  destruct Hf as [F1 F2]. set (l' := <[k := v r']> (g i) : nat -> nat * nat).
  exists (<[i := l']> g), (holds i (<[k := v r']> l)). splits; [| | |apply stable_holds|by intros w1 g1 _ ?].
  - split; [simpl; by rewrite length_insert|]. intros k2 t. rewrite tallies_upd. intros Hk2.
    pose proof (total_upd n (fun l => (l k2).1) g i _ l' Hi eq_refl) as U1. pose proof (total_upd n (fun l => (l k2).2) g i _ l' Hi eq_refl) as U2. simpl in U1, U2. unfold l' in U1, U2.
    destruct (decide (k2 = k)) as [->|Hne].
    + rewrite list_lookup_insert_eq in Hk2 by (by eapply lookup_lt_Some). injection Hk2 as <-. simpl. rewrite !fn_lookup_insert in *. rewrite (HP k) in *. unfold l'. lia.
    + rewrite list_lookup_insert_ne in Hk2 by done. destruct (HI k2 t Hk2). rewrite !(fn_lookup_insert_ne (g i)) in * by done. unfold l'. lia.
  - simpl. intros j Hj. by apply fn_lookup_insert_ne.
  - intros k2. rewrite fn_lookup_insert. unfold l'. destruct (decide (k2 = k)) as [->|Hne]; [by rewrite !fn_lookup_insert|by rewrite !fn_lookup_insert_ne].
Qed.

(** Everybody else. *)
Lemma way_leaves {C} i (p : prog (world X) C) : leaves tallies p -> rg Rw i p (holds i none) (fun _ => holds i none).
Proof.
  apply rg_leaves; [|apply stable_holds|by intros w g _ HP].
  intros w w' g Ht [Hl HI] HP. split; [split|split; [done|done]].
  - apply (f_equal length) in Ht. unfold tallies in Ht. rewrite !length_fmap in Ht. lia.
  - simpl. by rewrite Ht.
Qed.

Lemma has_interest a b : has (interest a b) Readable = a /\ has (interest a b) Writable = b.
Proof. by destruct a, b. Qed.

Definition flag (b : bool) : nat := if b then 1%nat else 0%nat.

Lemma way_poll i k l : (i < n)%nat -> (k < N)%nat -> l k = (0, 0)%nat ->
  rg Rw i (section k poll_locked) (holds i l) (fun r => holds i (<[k := (flag r.1, flag (r.1 && r.2))]> l)).
Proof.
  intros Hi Hk Hl. apply (way_section i k poll_locked l (fun r => (flag r.1, flag (r.1 && r.2)))); [done..|]. intros x c _ _. rewrite Hl. unfold poll_locked. destruct (edge _); [|by simpl; lia].
  destruct (hungUp _); simpl; lia.
Qed.

Lemma way_collect i k l a h : (i < n)%nat -> (k < N)%nat -> l k = (flag a, flag (a && h)) ->
  rg Rw i (section k (collect_locked a h)) (holds i l) (fun _ => holds i (<[k := (0, 0)%nat]> l)).
Proof.
  intros Hi Hk Hl. apply (way_section i k _ l (fun _ => (0, 0)%nat)); [done..|]. intros x c. rewrite Hl. destruct a, h; simpl; lia.
Qed.

Lemma holds_eq i l l' w g : (forall k, l k = l' k) -> holds i l w g -> holds i l' w g.
Proof. intros He H k. by rewrite <- He. Qed.

Lemma way_env_party i ops : (i < n)%nat -> forallb (env_fit i) ops = true ->
  rg Rw i (env_party ops) (holds i none) (fun _ => holds i none).
Proof.
  intros Hi Hfit. induction ops as [|o ops IH]; [by intros w g _ ?|]. cbn [forallb env_party] in *. apply andb_true_iff in Hfit as [Hf Hfit].
  apply andb_true_iff in Hf as [_ Hf]. eapply rg_seq; [|by apply IH]. destruct o as [k e|r|]; cbn [env_perform].
  - apply way_leaves, leaves_section. done.
  - apply Nat.ltb_lt in Hf. set (kr := slot r Readable). set (kw := slot r Writable). assert (Hkr : (kr < N)%nat) by (unfold kr; cbn; lia). assert (Hkw : (kw < N)%nat) by (unfold kw; cbn; lia).
    assert (Hne : kw <> kr) by (unfold kr, kw; cbn; lia). unfold pollOnce, deliver, collect. fold kr kw.
    eapply rg_bind; [by apply way_poll|]. intros a. eapply rg_bind; [apply way_poll; [done|done|by rewrite fn_lookup_insert_ne]|]. intros b.
    destruct (has_interest a.1 b.1) as [-> ->], (has_interest a.2 b.2) as [-> ->].
    eapply rg_bind with (M := fun _ => holds i none).
    + eapply rg_bind; [apply way_collect; [done|done|by rewrite fn_lookup_insert_ne, fn_lookup_insert]|]. intros reader.
      eapply rg_bind; [apply way_collect; [done|done|by rewrite fn_lookup_insert_ne, fn_lookup_insert]|]. intros writer w g _.
      apply holds_eq. intros k2. destruct (decide (k2 = kw)) as [->|]; [by rewrite fn_lookup_insert|rewrite fn_lookup_insert_ne by done].
      destruct (decide (k2 = kr)) as [->|]; [by rewrite fn_lookup_insert|by rewrite !fn_lookup_insert_ne].
    + intros wk. eapply rg_seq; [apply way_leaves, leaves_wake|apply way_leaves, leaves_wake].
  - apply way_leaves, leaves_stop.
Qed.
End pool.

(** ** The theorem *)

Definition reg_pool_fit {E} (cfg : nat -> RegConfig) (armError : nat -> Z) (owner : nat -> nat) (kd : nat -> Kind) (man : nat -> bool) (N : nat) (l : list (list reg_op + list (env_op E))) : bool :=
  forallb id (imap (fun i ops => match ops with inl ops => forallb (reg_fit cfg armError owner kd N man i) ops | inr ops => forallb (env_fit kd N i) ops end) l).

Definition directions {K} (man : nat -> bool) (ds : list K) : list (Direction K) := imap (fun k d => new_direction (man k) d) ds.

Section theorem.
Context {K E : Type} `{!Kernel K E}.
Context (cfg : nat -> RegConfig) (armError : nat -> Z) (owner : nat -> nat) (kd : nat -> Kind) (man : nat -> bool).
Context (fuel : nat) (ds : list K) (l : list (list reg_op + list (env_op E))).
Context (Hfit : reg_pool_fit cfg armError owner kd man (length ds) l = true).
Context (Hstart : forall k d, ds !! k = Some d -> (hungUp d = true -> edge d = true) /\ everyArrival d = everyArrivalReported (conf cfg k) /\ (byteStream (conf cfg k) = true -> streamed d = true)).
Notation pool := (reg_pool cfg armError fuel kd (directions man ds) l).
Notation R := (sproto (X:=Direction K) idle sane owner kd (length l) (length ds)).

Lemma fit_at i ops : l !! i = Some ops -> match ops with inl ops => forallb (reg_fit cfg armError owner kd (length ds) man i) ops = true | inr ops => forallb (env_fit kd (length ds) i) ops = true end.
Proof.
  intros Hi. unfold reg_pool_fit in Hfit. rewrite List.forallb_forall in Hfit.
  assert (H : forall b, imap (fun i ops => match ops with inl ops => forallb (reg_fit cfg armError owner kd (length ds) man i) ops | inr ops => forallb (env_fit (E:=E) kd (length ds) i) ops end) l !! i = Some b -> b = true).
  { intros b Hb. apply Hfit, list_elem_of_In. by eapply list_elem_of_lookup_2. }
  specialize (H _ ltac:(rewrite list_lookup_imap, Hi; reflexivity)). by destruct ops.
Qed.

Lemma start_at k (x : Direction K) c : sources pool.2 !! k = Some (x, c) -> exists d, ds !! k = Some d /\ x = new_direction (man k) d /\ c = None.
Proof.
  simpl. rewrite list_lookup_fmap. unfold directions. rewrite list_lookup_imap. destruct (ds !! k) as [d|]; [|done]. intros [= <- <-]. by exists d.
Qed.

Lemma start_none i w : w = pool.2 -> refs (T:=fact) kd (length l) i w (fun _ => SPl [] [] []) = 0%nat.
Proof.
  intros ->. unfold refs. rewrite lsum_zero; [by rewrite total_zero|]. intros [x c] Hin. apply list_elem_of_lookup_1 in Hin as [k Hk]. by destruct (start_at k x c Hk) as (d & _ & _ & ->).
Qed.

Lemma reg_pool_ok : pool_ok (scoped R all_fine) (fun i _ => in_scope all_fine (done_ok (T:=fact) kd (length l) i tt)) pool.
Proof.
  exists (fun _ => SPl [] [] []). split.
  { intros _. apply sinv_start. unfold directions. by rewrite length_imap. }
  intros i th Hi. simpl in Hi. rewrite list_lookup_imap in Hi. destruct (l !! i) as [ops|] eqn:Hl; [|done]. injection Hi as <-.
  pose proof (lookup_lt_Some _ _ _ Hl) as Hlt. pose proof (fit_at i ops Hl) as Hf. destruct ops as [ops|ops].
  - exists (in_scope all_fine (at_sure sane owner kd (length l) i [] [] [] true (base cfg man))). split; [apply stable_scoped, stable_sure|]. split.
    + intros _. split; [split; [done|]; split; [done|]; intros _ _; by apply start_none|]. intros k x c u Ho Hx Hu. destruct (start_at k x c Hx) as (d & Hd & -> & _).
      destruct (Hstart k d Hd) as (Hs1 & Hs2 & Hs3). destruct u; simpl in Hu; try done; first [by subst|by intros _|by apply Hs3|intros _ _ Hh; left; by apply Hs1].
    + eapply rg_weaken; [by intros w g _ HP; exact HP| |eapply rg_scoped; [|by apply (rg_reg_party cfg armError owner kd _ _ man)]].
      * intros [] w g _ HQ. exact HQ.
      * eapply leaves_keeps_out; [apply all_fine_tallies|apply leaves_reg_party].
  - exists (in_scope all_fine (at_ kd (length l) i [] [] [] true)). split; [apply stable_env|]. split.
    + intros _. split; [done|]. split; [done|]. intros _ _. by apply start_none.
    + eapply rg_weaken; [by intros w g _ HP; exact HP| |by apply rg_env_party]. intros [] w g _ HQ Hsc. destruct (HQ Hsc) as (Hg & _ & Hr). split; [by rewrite Hg|]. auto.
Qed.

Lemma reg_pool_ways : pool_ok (way_proto (length l) (length ds)) (fun i _ => holds i none) pool.
Proof.
  exists (fun _ => none). split.
  { split; [simpl; rewrite length_fmap; unfold directions; by rewrite length_imap|]. intros k t Ht. unfold tallies in Ht. rewrite list_lookup_fmap in Ht.
    destruct (sources pool.2 !! k) as [[x c]|] eqn:Hx; [|done]. injection Ht as <-. destruct (start_at k x c Hx) as (d & _ & -> & _). simpl.
    rewrite !total_zero; done. }
  intros i th Hi. simpl in Hi. rewrite list_lookup_imap in Hi. destruct (l !! i) as [ops|] eqn:Hl; [|done]. injection Hi as <-.
  pose proof (lookup_lt_Some _ _ _ Hl) as Hlt. pose proof (fit_at i ops Hl) as Hf. exists (holds i none). split; [apply stable_holds|]. split; [done|].
  destruct ops as [ops|ops]; [apply way_leaves, leaves_reg_party|by apply (way_env_party kd)].
Qed.

(** Nothing is on its way when everybody has come to rest. *)
Lemma none_on_the_way ts w : reach pool (ts, w) -> (forall i th, ts !! i = Some th -> halted w th) ->
  forall k x c, sources w !! k = Some (x, c) -> onTheWay x = 0%nat /\ hupsOnTheWay x = 0%nat.
Proof.
  intros Hr Hh k x c Hx. destruct (pool_ok_waits _ _ _ _ (pool_ok_reach _ _ _ _ Hr reg_pool_ways)) as (g & [_ HI] & Hw & HQ).
  assert (Hlen : length ts = length l) by (apply reach_length in Hr; simpl in Hr; by rewrite length_imap in Hr).
  assert (Hz : forall i, (i < length l)%nat -> g i k = (0, 0)%nat).
  { intros i Hi. destruct (lookup_lt_is_Some_2 ts i) as [th Hth]; [lia|]. destruct (Hh i th Hth) as [->|(Y & f & q & -> & Hf)]; [by apply (HQ i tt)|by apply (Hw i Y f q)]. }
  destruct (HI k _ (tallies_lookup w k x c Hx)) as [H1 H2]. simpl in H1, H2. rewrite total_zero in H1 by (intros i Hi; by rewrite Hz). rewrite total_zero in H2 by (intros i Hi; by rewrite Hz). done.
Qed.
End theorem.


(** ** A kernel: streams of bytes, and the two kinds of pollers *)

(** [pending]: a report of a poller that reports every arrival ([every]); [interest]: what a
    poller that has to be asked was asked for. *)
Record stream := MkStream { buffered : Z; ended_ : bool; pending : bool; every : bool; interested : bool }.
Definition stream_there (s : stream) : bool := (0 <? buffered s) || ended_ s.
(** More bytes, or the end. *)
Definition stream_event (e : option positive) (s : stream) : stream :=
  match e with
  | Some m => MkStream (Z.max 0 (buffered s) + Zpos m) (ended_ s) true (every s) (interested s)
  | None => MkStream (buffered s) true true (every s) (interested s)
  end.
Definition stream_call (asked : Z) (s : stream) : stream * sysret :=
  if 0 <? buffered s then let m := Z.max 0 (Z.min asked (buffered s)) in (MkStream (buffered s - m) (ended_ s) (pending s) (every s) (interested s), Bytes m)
  else if ended_ s then (s, Bytes 0) else (s, Eagain).
Definition stream_edge (s : stream) : bool := if every s then pending s else interested s && stream_there s.

Lemma stream_call_cases a s : (stream_call a s = (s, Bytes 0) /\ ended_ s = true /\ buffered s <= 0) \/ (stream_call a s = (s, Eagain) /\ ended_ s = false /\ buffered s <= 0) \/
  (0 < buffered s /\ stream_call a s = (MkStream (buffered s - Z.max 0 (Z.min a (buffered s))) (ended_ s) (pending s) (every s) (interested s), Bytes (Z.max 0 (Z.min a (buffered s))))).
Proof. unfold stream_call. destruct (Z.ltb_spec 0 (buffered s)); [by right; right|]. destruct (ended_ s) eqn:E; [by left|by right; left]. Qed.

Lemma stream_event_there e s : stream_there (stream_event e s) = true.
Proof. destruct e as [m|]; unfold stream_there; simpl; [|apply orb_true_r]. apply orb_true_iff. left. apply Z.ltb_lt. lia. Qed.

#[global] Instance stream_kernel : Kernel stream (option positive).
Proof.
  refine {| available := stream_there; hungUp := ended_; edge := stream_edge; attentive := fun s => every s || interested s; everyArrival := every; streamed := fun _ => true;
    call := stream_call; event := stream_event; handOver := fun s => MkStream (buffered s) (ended_ s) false (every s) false;
    arm := fun s => MkStream (buffered s) (ended_ s) (pending s) (every s) true |}.
  - intros a s m. destruct (stream_call_cases a s) as [(-> & ? & ?)|[(-> & ? & ?)|(? & ->)]]; simpl; intros [= <-]; lia.
  - intros a s e. destruct (stream_call_cases a s) as [(-> & ? & ?)|[(-> & ? & ?)|(? & ->)]]; by simpl.
  - intros a s. destruct (stream_call_cases a s) as [(-> & ? & ?)|[(-> & ? & ?)|(? & ->)]]; [by left|by left|]. unfold stream_edge, stream_there. simpl. destruct (every s); [by left|].
    intros [-> _]%andb_true_iff. simpl. destruct (_ <? _), (ended_ s); simpl; auto.
  - intros a s. by destruct (stream_call_cases a s) as [(-> & ? & ?)|[(-> & ? & ?)|(? & ->)]].
  - intros a s. destruct (stream_call_cases a s) as [(-> & ? & ?)|[(-> & ? & ?)|(? & ->)]]; [done|done|]. intros _. apply orb_true_iff. left. by apply Z.ltb_lt.
  - intros a s. destruct (stream_call_cases a s) as [(-> & ? & ?)|[(-> & He & Hb)|(? & ->)]]; [done| |done]. intros _. apply orb_false_iff. split; [by apply Z.ltb_ge|done].
  - intros a s. by destruct (stream_call_cases a s) as [(-> & ? & ?)|[(-> & ? & ?)|(? & ->)]].
  - intros a s m _. destruct (stream_call_cases a s) as [(-> & ? & ?)|[(-> & ? & ?)|(? & ->)]]; [done|done|]. simpl. intros [= <-] Hm [Hb%Z.ltb_lt|He]%orb_true_iff; [simpl in Hb; lia|done].
  - intros a s _. destruct (stream_call_cases a s) as [(-> & ? & ?)|[(-> & ? & ?)|(? & ->)]]; [done|done|]. simpl. intros [= Hz] Ha. lia.
  - intros e s. unfold stream_edge. rewrite stream_event_there. destruct e; simpl; (destruct (every s); [done|]); by intros [-> _]%andb_true_iff.
  - intros e s Ha _. right. unfold stream_edge. rewrite stream_event_there. destruct e; simpl; (destruct (every s); [done|]); simpl in Ha; by rewrite Ha.
  - intros [m|] s Hev; simpl; [by left|]. unfold stream_edge. simpl. rewrite Hev. by right.
  - by intros [m|] s.
  - by intros [m|] s.
  - done.
  - done.
  - done.
  - done.
  - intros s. unfold stream_edge, stream_there. simpl. destruct (every s); [done|]. by intros [_ ?]%andb_true_iff.
  - intros s. apply orb_true_r.
  - intros s Hev. unfold stream_edge, stream_there. simpl. by rewrite Hev.
  - intros s Hev. simpl. by rewrite Hev.
  - intros a s. by destruct (stream_call_cases a s) as [(-> & ? & ?)|[(-> & ? & ?)|(? & ->)]].
  - by intros [m|] s.
  - done.
  - done.
Defined.

(** A task reads ten bytes of a socket, another one waits for it to be writable; a callback and a task wait
    for a pipe whose poller has to be asked.  Six bytes arrive at the socket, are reported, and then four more;
    the pipe ends. *)
Definition reg_example : list (list reg_op + list (env_op (option positive))) :=
  [inl [RegTransferAll 0 true false 10; RegCall 0 1 false]; inl [RegWait 1 true]; inl [RegWatch 2 false false];
   inr [EnvEvent 0 (Some 6%positive); EnvPoll 0; EnvEvent 0 (Some 4%positive); EnvPoll 0; EnvEvent 2 None; EnvPoll 1]; inl [RegCall 3 1 false]].
Definition reg_kinds (i : nat) : Kind := match i with 2%nat => KCallback | 3%nat => KThread | _ => KTask end.
Definition reg_owners (k : nat) : nat := match k with 3%nat => 4%nat | _ => k end.
Definition reg_cfg (r : nat) : RegConfig := if (r =? 0)%nat then MkRegConfig 0 true StreamSocket else MkRegConfig 0 false Pipe.
Definition reg_descriptors : list stream := replicate 2 (MkStream 0 false false true false) ++ replicate 2 (MkStream 0 false false false false).
Definition reg_managed (k : nat) : bool := (k =? 0)%nat || (k =? 3)%nat.
Definition reg_final : config (world (Direction stream)) unit :=
  run_avail (round_robin 5 150) (reg_pool reg_cfg (fun _ => 0) 20 reg_kinds (directions reg_managed reg_descriptors) reg_example).

