(* ===== verification/Poller.v ===== *)
(** * Pollers: poll(2), one-shot

    [PollPoller] (io/src/PollPoller.cpp), the time-out both pollers hand to the kernel,
    and the event masks of [EpollPoller] (io/src/EpollPoller.cpp).

    - The table of interests is protected by a [SpinLock]: a locked region is one step
      (SpinLock.v shows that such regions serialise).
    - The kernel is a parameter: [PollKernel] has the answer of [poll] for one
      descriptor, and as a law that asking for less gives less.  The state of the descriptors changes
      by events of type [E].
    - The self-pipe is its number of bytes, [capacity] at most.
    - [signals] are those that interrupt a [poll].
    - [reports] is what was handed to [Registration::collect], in order, and [woken] what
      was woken of it; Registration.v has the other end.  They are histories. *)

From Stdlib Require Import ZArith Lia.
From stdpp Require Import base tactics list numbers option strings functions.
From S2P Require Import Prelude Conc Source Registration.

(** ** Event masks *)

Definition POLLIN : Z := 1.
Definition POLLOUT : Z := 4.
Definition POLLERR : Z := 8.
Definition POLLHUP : Z := 16.
Definition POLLNVAL : Z := 32.

Definition any (bits mask : Z) : bool := negb (Z.land bits mask =? 0).

(** ** Time-outs *)

(** A value converted to [int]. *)
Definition to_int (x : Z) : Z := let u := wrap 32 x in if u <? 2 ^ 31 then u else u - 2 ^ 32.

(** Nanoseconds to the milliseconds of [poll] and [epoll_wait], -1 for none. *)
Definition millis (timeout : Z) : Z :=
  if timeout >=? 0 then
    let ms := Z.quot timeout 1000000 in
    to_int (ms + (if ms * 1000000 <? timeout then 1 else 0))
  else -1.

(** ** The poll(2) backend *)

Record Entry := MkEntry { registration : option nat; pevents : Z }.

Class PollKernel (K E : Type) := {
  revents_of : K -> nat -> Z -> Z;
  kevent : E -> K -> K;
  revents_less k fd e e' : Z.land e e' = e -> revents_of k fd e' = 0 -> revents_of k fd e = 0
}.

Record pworld (K : Type) := PW {
  table : list Entry;
  pipe : nat;
  kern : K;
  signals : nat;
  preports : list (nat * Z * Z);
  woken : list (nat * Z * Z)
}.
Arguments PW {K} table pipe kern signals preports woken.
Arguments table {K} p.
Arguments pipe {K} p.
Arguments kern {K} p.
Arguments signals {K} p.
Arguments preports {K} p.
Arguments woken {K} p.

Section poller.
Context {K E : Type} `{!PollKernel K E}.
(** [Registration::fd]; the size of the pipe. *)
Context (fdOf : nat -> Z) (capacity : nat).
Abbreviation pprog := (prog (pworld K)).

Definition set_table t (w : pworld K) := PW t (pipe w) (kern w) (signals w) (preports w) (woken w).
Definition set_pipe p (w : pworld K) := PW (table w) p (kern w) (signals w) (preports w) (woken w).
Definition set_kern (k : K) (w : pworld K) := PW (table w) (pipe w) k (signals w) (preports w) (woken w).
Definition set_signals s (w : pworld K) := PW (table w) (pipe w) (kern w) s (preports w) (woken w).
Definition add_reports t r (w : pworld K) := PW t (pipe w) (kern w) (signals w) (preports w ++ r) (woken w).
Definition add_woken r (w : pworld K) := PW (table w) (pipe w) (kern w) (signals w) (preports w) (woken w ++ [r]).

(** [table.resize(index + 1)] if it is smaller *)
Definition resize (index : nat) (t : list Entry) : list Entry := t ++ replicate (S index - length t) (MkEntry None 0).

(** [std::errc] values *)
Definition bad_file_descriptor : Z := 9.
Definition file_exists : Z := 17.

(** The locked part of [add]. *)
Definition add_locked (r : nat) (t : list Entry) : list Entry * Z :=
  let index := Z.to_nat (fdOf r) in
  let t := resize index t in
  match t !! index with
  | Some (MkEntry None _) => (<[index := MkEntry (Some r) 0]> t, 0)
  | _ => (t, file_exists)
  end.
Definition poll_add (r : nat) : pprog Z :=
  if fdOf r <? 0 then Ret bad_file_descriptor
  else rmw (fun w => let '(t, e) := add_locked r (table w) in (set_table t w, e)).

(** A negative descriptor, converted to [std::size_t], is beyond the table. *)
Definition entry_of (r : nat) (t : list Entry) : option (nat * Entry) :=
  if fdOf r <? 0 then None
  else
    let index := Z.to_nat (fdOf r) in
    match t !! index with
    | Some e => if decide (registration e = Some r) then Some (index, e) else None
    | None => None
    end.

Definition remove_locked (r : nat) (t : list Entry) : list Entry :=
  match entry_of r t with
  | Some (index, _) => <[index := MkEntry None 0]> t
  | None => t
  end.
Definition poll_remove (r : nat) : pprog unit := store (fun w => set_table (remove_locked r (table w)) w).

(** [wake]: a full pipe is fine. *)
Definition poll_wake : pprog unit := store (fun w => set_pipe (Nat.min capacity (S (pipe w))) w).

Definition events_of (interest : Z) : Z :=
  Z.lor (if has interest Readable then POLLIN else 0) (if has interest Writable then POLLOUT else 0).

Definition arm_locked (r : nat) (interest : Z) (t : list Entry) : list Entry * Z :=
  match entry_of r t with
  | Some (index, e) => (<[index := MkEntry (Some r) (Z.lor (pevents e) (events_of interest))]> t, 0)
  | None => (t, bad_file_descriptor)
  end.
Definition poll_arm (r : nat) (interest : Z) : pprog Z :=
  e <- rmw (fun w => let '(t, e) := arm_locked r interest (table w) in (set_table t w, e));;
  if e =? 0 then poll_wake;;; Ret 0 else Ret e.

(** *** [wait] *)

(** The descriptors that are watched, in order, from number [fd] on. *)
Fixpoint snapshot_from (fd : nat) (t : list Entry) : list (nat * Z) :=
  match t with
  | [] => []
  | e :: t' =>
      match registration e with
      | Some _ => if pevents e =? 0 then snapshot_from (S fd) t' else (fd, pevents e) :: snapshot_from (S fd) t'
      | None => snapshot_from (S fd) t'
      end
  end.

(** The system call: whether the pipe can be read, and the answers; nothing for a
    count that is not positive. *)
Definition poll_answers (snap : list (nat * Z)) (w : pworld K) : bool * list Z :=
  ((0 <? pipe w)%nat, (fun it => revents_of (kern w) it.1 it.2) <$> snap).
Definition poll_call (snap : list (nat * Z)) (ms : Z) : pprog (option (bool * list Z)) :=
  Act _ (fun w =>
    let a := poll_answers snap w in
    (if a.1 || existsb (fun v => negb (v =? 0)) a.2 then [(w, Some a)]
     else if ms <? 0 then [] else [(w, None)]) ++
    (match signals w with O => [] | S s => [(set_signals s w, None)] end)) Ret.

(** [while (read(...) > 0)]: 64 bytes at a time *)
Fixpoint drain (fuel : nat) : pprog unit :=
  match fuel with
  | O => Starved
  | S fuel' =>
      n <- rmw (fun w => (set_pipe (pipe w - 64)%nat w, pipe w));;
      if (n =? 0)%nat then Ret tt else drain fuel'
  end.

Definition HUPS : Z := Z.lor POLLHUP (Z.lor POLLERR POLLNVAL).
Definition ready_of (revents : Z) : Z :=
  Z.lor (if any revents (Z.lor POLLIN HUPS) then Readable else INone) (if any revents (Z.lor POLLOUT HUPS) then Writable else INone).

(** [collectLocked]: the table and what is reported *)
Definition collectLocked (fd : nat) (revents : Z) (t : list Entry) : list Entry * list (nat * Z * Z) :=
  let ready := ready_of revents in
  match t !! fd with
  | Some (MkEntry (Some r) watched) =>
      let e1 := if has ready Readable then Z.land watched (Z.lnot POLLIN) else watched in
      let e2 := if has ready Writable then Z.land e1 (Z.lnot POLLOUT) else e1 in
      (<[fd := MkEntry (Some r) e2]> t,
       if watched =? 0 then [] else [(r, ready, if any revents HUPS then Z.lor Readable Writable else INone)])
  | _ => (t, [])
  end.

Fixpoint collect_all (snap : list (nat * Z)) (answers : list Z) (t : list Entry) : list Entry * list (nat * Z * Z) :=
  match snap, answers with
  | (fd, _) :: snap', v :: answers' =>
      if v =? 0 then collect_all snap' answers' t
      else
        let '(t1, r1) := collectLocked fd v t in
        let '(t2, r2) := collect_all snap' answers' t1 in
        (t2, r1 ++ r2)
  | _, _ => (t, [])
  end.

Fixpoint wake_all (l : list (nat * Z * Z)) : pprog unit :=
  match l with
  | [] => Ret tt
  | r :: l' => store (add_woken r);;; wake_all l'
  end.

Definition poll_wait (fuel : nat) (timeout : Z) : pprog unit :=
  snap <- load (fun w => snapshot_from 0 (table w));;
  a <- poll_call snap (millis timeout);;
  match a with
  | None => Ret tt
  | Some (pipeReady, answers) =>
      (if pipeReady : bool then drain fuel else Ret tt);;;
      pending <- rmw (fun w => let '(t, r) := collect_all snap answers (table w) in (add_reports t r w, r));;
      wake_all pending
  end.

(** ** Threads: the poller's, and those that use it *)

Fixpoint poll_loop (fuel : nat) (timeouts : list Z) : pprog unit :=
  match timeouts with
  | [] => Ret tt
  | t :: timeouts' => poll_wait fuel t;;; poll_loop fuel timeouts'
  end.

Inductive poll_op := PAdd (r : nat) | PRemove (r : nat) | PArm (r : nat) (interest : Z) | PWake | PEvent (e : E) | PSignal.

Definition poll_perform (o : poll_op) : pprog unit :=
  match o with
  | PAdd r => poll_add r;;; Ret tt
  | PRemove r => poll_remove r
  | PArm r interest => poll_arm r interest;;; Ret tt
  | PWake => poll_wake
  | PEvent e => store (fun w => set_kern (kevent e (kern w)) w)
  | PSignal => store (fun w => set_signals (S (signals w)) w)
  end.

Fixpoint poll_ops (l : list poll_op) : pprog unit :=
  match l with
  | [] => Ret tt
  | o :: l' => poll_perform o;;; poll_ops l'
  end.

Definition poll_pool (fuel : nat) (timeouts : list Z) (k : K) (l : list (list poll_op)) : config (pworld K) unit :=
  (poll_loop fuel timeouts :: (poll_ops <$> l), PW [] 0 k 0 [] []).
End poller.
