(* ===== verification/PollerSpec.v ===== *)
(** * Pollers: no interest is missed

    An interest that [arm] adds after [wait] took its snapshot is not watched by the
    [poll] in progress: [arm] writes to the self-pipe afterwards, so that the [poll]
    returns and the next one sees it. *)

From Stdlib Require Import ZArith Lia.
From stdpp Require Import base tactics list numbers option strings functions.
From S2P Require Import Prelude Conc Sums Source Registration Poller.

(** ** Time-outs *)

Lemma to_int_small x : 0 <= x < 2 ^ 31 -> to_int x = x.
Proof. intros H. unfold to_int. rewrite wrap_small by (unfold in_word; lia). destruct (Z.ltb_spec x (2 ^ 31)); lia. Qed.

(** The time-out in milliseconds, rounded up, before it becomes an [int]. *)
Lemma millis_ceil timeout : 0 <= timeout -> millis timeout = to_int ((timeout + 999999) / 1000000).
Proof.
  intros H. unfold millis. rewrite Z.geb_leb, (proj2 (Z.leb_le 0 timeout)) by lia. rewrite Z.quot_div_nonneg by lia. f_equal.
  pose proof (Z.div_mod timeout 1000000 ltac:(lia)). pose proof (Z.mod_pos_bound timeout 1000000 ltac:(lia)).
  pose proof (Z.div_mod (timeout + 999999) 1000000 ltac:(lia)). pose proof (Z.mod_pos_bound (timeout + 999999) 1000000 ltac:(lia)).
  destruct (Z.ltb_spec (timeout / 1000000 * 1000000) timeout); lia.
Qed.

(** C36: The milliseconds handed to the kernel.  Without a time-out they are -1.
    Otherwise let [ms] be the time-out rounded up to milliseconds, which is never
    less than what was asked for, nor a millisecond more.  Below 2^31 (24.8 days)
    the kernel gets [ms].  From there on the conversion to [int] shows: it gets a
    negative number, and waits without a time-out, whenever the low 32 bits of [ms]
    are 2^31 or more; and from 2^32 on it otherwise gets those low bits, which make
    it return before the time-out. *)
Theorem wait_millis timeout :
  (timeout < 0 -> millis timeout = -1) /\
  (0 <= timeout ->
   let ms := (timeout + 999999) / 1000000 in
   timeout <= ms * 1000000 < timeout + 1000000 /\
   (ms < 2 ^ 31 -> millis timeout = ms) /\
   (2 ^ 31 <= ms mod 2 ^ 32 -> millis timeout < 0) /\
   (2 ^ 32 <= ms -> ms mod 2 ^ 32 < 2 ^ 31 -> millis timeout = ms mod 2 ^ 32 /\ 0 <= millis timeout * 1000000 < timeout)).
Proof.
  split.
  - intros H. unfold millis. rewrite Z.geb_leb. by rewrite (proj2 (Z.leb_gt 0 timeout)) by lia.
  - intros H ms. rewrite (millis_ceil timeout H). fold ms.
    pose proof (Z.div_mod (timeout + 999999) 1000000 ltac:(lia)) as Hdm. pose proof (Z.mod_pos_bound (timeout + 999999) 1000000 ltac:(lia)) as Hm. fold ms in Hdm.
    pose proof (Z.div_mod ms (2 ^ 32) ltac:(lia)) as Hd. pose proof (Z.mod_pos_bound ms (2 ^ 32) ltac:(lia)) as Hb. splits; try lia.
    + intros Hs. apply to_int_small. lia.
    + intros Hs. unfold to_int, wrap. destruct (Z.ltb_spec (ms mod 2 ^ 32) (2 ^ 31)); lia.
    + intros Hl Hs. assert (to_int ms = ms mod 2 ^ 32) as -> by (unfold to_int, wrap; destruct (Z.ltb_spec (ms mod 2 ^ 32) (2 ^ 31)); lia). lia.
Qed.

(** ** One report for what is no longer watched *)

(** What [collectLocked] does for a descriptor that has a registration: the registration is kept,
    a direction is no longer watched exactly if it is reported ready, and there is one report, with
    the ready directions, exactly if something was watched. *)
Theorem collectLocked_one_shot t fd revents r watched t' rs :
  t !! fd = Some (MkEntry (Some r) watched) -> collectLocked fd revents t = (t', rs) ->
  exists e, t' !! fd = Some (MkEntry (Some r) e) /\
    (forall fd', fd' <> fd -> t' !! fd' = t !! fd') /\
    (forall b, Z.testbit e b = Z.testbit watched b && negb ((b =? 0) && has (ready_of revents) Readable) && negb ((b =? 2) && has (ready_of revents) Writable)) /\
    (watched = 0 /\ rs = [] \/ watched <> 0 /\ exists c, rs = [(r, ready_of revents, c)]).
Proof.
  intros Ht. unfold collectLocked. rewrite Ht. intros [= <- <-]. pose proof (lookup_lt_Some _ _ _ Ht) as Hlt. eexists. splits.
  - by apply list_lookup_insert_eq.
  - intros fd' Hne. by apply list_lookup_insert_ne.
  - intros b. assert (H1 : Z.testbit POLLIN b = (b =? 0)). { unfold POLLIN. destruct (Z.eqb_spec b 0) as [->|]; [done|]. destruct (decide (b < 0)); [by apply Z.testbit_neg_r|]. change 1 with (2 ^ 0). apply Z.pow2_bits_false. lia. }
    assert (H2 : Z.testbit POLLOUT b = (b =? 2)). { unfold POLLOUT. destruct (Z.eqb_spec b 2) as [->|]; [done|]. destruct (decide (b < 0)); [by apply Z.testbit_neg_r|]. change 4 with (2 ^ 2). apply Z.pow2_bits_false. lia. }
    destruct (decide (b < 0)) as [Hb|Hb]; [by rewrite !(Z.testbit_neg_r _ b) by done|].
    destruct (has (ready_of revents) Readable), (has (ready_of revents) Writable); rewrite ?Z.land_spec, ?Z.lnot_spec, ?H1, ?H2, ?andb_true_r, ?andb_false_r, ?andb_true_r by lia; simpl; rewrite ?andb_true_r; done.
  - destruct (Z.eqb_spec watched 0); [by left|right]. split; [done|]. by eexists.
Qed.

(** ** What a snapshot covers *)

Definition covered (sn : list (nat * Z)) (t : list Entry) : Prop :=
  forall fd r e, t !! fd = Some (MkEntry (Some r) e) -> e <> 0 -> exists e', (fd, e') ∈ sn /\ Z.land e e' = e.

Lemma snapshot_from_covers start t fd r e :
  t !! fd = Some (MkEntry (Some r) e) -> e <> 0 -> ((start + fd)%nat, e) ∈ snapshot_from start t.
Proof.
  revert start fd. induction t as [|[o v] t IH]; intros start [|fd] Ht He; simplify_eq/=.
  - rewrite (proj2 (Z.eqb_neq e 0) He), Nat.add_0_r. left.
  - specialize (IH (S start) fd Ht He). rewrite Nat.add_succ_comm in IH. destruct o; [|done]. destruct (v =? 0); [done|by right].
Qed.

Lemma snapshot_covered t : covered (snapshot_from 0 t) t.
Proof. intros fd r e Ht He. exists e. split; [by apply (snapshot_from_covers 0 t fd r e)|apply Z.land_diag]. Qed.

(** Entries that are new are not armed. *)
Lemma covered_less sn t t' :
  (forall fd r e, t' !! fd = Some (MkEntry (Some r) e) -> e <> 0 -> exists r', t !! fd = Some (MkEntry (Some r') e)) ->
  covered sn t -> covered sn t'.
Proof. intros H Hc fd r e Ht He. destruct (H fd r e Ht He) as [r' Ht']. by apply (Hc fd r' e). Qed.

Lemma covered_insert sn t fd o : covered sn t -> covered sn (<[fd := MkEntry o 0]> t).
Proof.
  apply covered_less. intros fd' r e Ht He. destruct (decide (fd' = fd)) as [->|Hne]; [|rewrite list_lookup_insert_ne in Ht by done; by exists r].
  destruct (decide (fd < length t)%nat); [rewrite list_lookup_insert_eq in Ht by done; congruence|]. rewrite list_insert_ge in Ht by lia. by exists r.
Qed.

Section spec.
Context {K EV : Type} `{!PollKernel K EV} (fdOf : nat -> Z) (capacity n : nat) (Hcap : (0 < capacity)%nat).

Lemma covered_add sn r t : covered sn t -> covered sn (add_locked fdOf r t).1.
Proof.
  intros Hc. assert (Hr : covered sn (resize (Z.to_nat (fdOf r)) t)).
  { eapply covered_less; [|exact Hc]. intros fd r' e Ht He. unfold resize in Ht. apply lookup_app_Some in Ht as [Ht|[_ Ht]]; [by exists r'|].
    by apply lookup_replicate_1 in Ht as [[=] _]. }
  unfold add_locked. destruct (_ !! _) as [[[o|] v]|]; [done|by apply covered_insert|done].
Qed.

Lemma covered_remove sn r t : covered sn t -> covered sn (remove_locked fdOf r t).
Proof. intros Hc. unfold remove_locked. destruct (entry_of fdOf r t) as [[index e]|]; [by apply covered_insert|done]. Qed.

(** The snapshot of the [poll] in progress; what is reported and not yet woken; who is about to
    write to the pipe. *)
Record pghost := PG { psnap : option (list (nat * Z)); pend : list (nat * Z * Z); pow : nat -> bool }.

Record pinv (w : pworld K) (g : pghost) : Prop := {
  pi_snap : forall sn, psnap g = Some sn -> covered sn (table w) \/ some n id (pow g) \/ (0 < pipe w)%nat;
  pi_woken : preports w = woken w ++ pend g
}.

Record pguar (j : nat) (a b : pworld K * pghost) : Prop := {
  pg_snap : j <> 0%nat -> psnap b.2 = psnap a.2 /\ pend b.2 = pend a.2;
  pg_ow : forall i, i <> j -> pow b.2 i = pow a.2 i
}.

Definition pwait (i : nat) (w : pworld K) (g : pghost) : Prop :=
  i = 0%nat /\ pow g 0%nat = false /\ pend g = [] /\ pipe w = 0%nat /\
  exists sn, psnap g = Some sn /\ forall it, it ∈ sn -> revents_of (kern w) it.1 it.2 = 0.

Definition pproto : protocol (pworld K) pghost := WaitProtocol pinv pguar pwait.
Notation R := pproto.

Lemma pguar_refl j x : pguar j x x.
Proof. by split. Qed.

(** The poller's thread knows its snapshot and what it has to wake; the others whether they are to write. *)
Definition poller (sn : option (list (nat * Z))) (p : list (nat * Z * Z)) : asrt (pworld K) pghost :=
  fun w g => psnap g = sn /\ pend g = p /\ pow g 0%nat = false.
Definition user (i : nat) (o : bool) : asrt (pworld K) pghost := fun w g => pow g i = o.

Lemma stable_poller sn p : stable R 0 (poller sn p).
Proof. intros j w g w' g' Hj _ _ [H1 H2] (E1 & E2 & E3). destruct (H1 Hj) as [G1 G2]. simpl in *. unfold poller. rewrite G1, G2, H2 by done. done. Qed.
Lemma stable_user i o : stable R i (user i o).
Proof. intros j w g w' g' Hj _ _ [H1 H2] E. unfold user in *. simpl in *. by rewrite H2. Qed.

(** A step of the poller's thread. *)
Lemma poller_step sn p sn' p' w w' g :
  pinv w g -> poller sn p w g ->
  (forall s, sn' = Some s -> sn = Some s /\ table w' = table w /\ pipe w' = pipe w \/ covered s (table w')) -> preports w' = woken w' ++ p' ->
  exists g', pinv w' g' /\ pguar 0 (w, g) (w', g') /\ poller sn' p' w' g'.
Proof.
  intros [H1 H2] (E1 & E2 & E3) Hs Hp. exists (PG sn' p' (pow g)). splits; [|by split|by split]. split; [|done]. simpl. intros s ->.
  destruct (Hs s eq_refl) as [(-> & -> & ->)|?]; [by apply H1|by left].
Qed.

Lemma p_drain {A} fuel (q : unit -> prog (pworld K) A) Q : rg R 0 (q tt) (poller None []) Q -> rg R 0 (bind (drain fuel) q) (poller None []) Q.
Proof.
  intros Hq. induction fuel as [|fuel IH]; [done|]. cbn [drain]. apply rg_bind_assoc, rg_rmw. intros w g HI HP. cbn [fst snd].
  destruct (poller_step None [] None [] w (set_pipe (pipe w - 64)%nat w) g HI HP) as (g' & ? & ? & ?); [done| |].
  - destruct HP as (_ & E & _). pose proof (pi_woken _ _ HI) as Hw. by rewrite E in Hw.
  - exists g', (poller None []). splits; [done..|apply stable_poller|]. destruct (pipe w =? 0)%nat; [exact Hq|exact IH].
Qed.

Lemma p_wake_all l : rg R 0 (wake_all l) (poller None l) (fun _ => poller None []).
Proof.
  induction l as [|r l IH]; [by intros ? ? _ ?|]. cbn [wake_all]. apply rg_store. intros w g HI HP.
  destruct (poller_step None (r :: l) None l w (add_woken r w) g HI HP) as (g' & ? & ? & ?); [done| |].
  - destruct HP as (_ & E & _). pose proof (pi_woken _ _ HI) as Hw. rewrite E in Hw. simpl. by rewrite Hw, <- app_assoc.
  - exists g', (poller None l). splits; [done..|apply stable_poller|exact IH].
Qed.

Lemma p_wait fuel timeout : rg R 0 (poll_wait fuel timeout) (poller None []) (fun _ => poller None []).
Proof.
  unfold poll_wait. split; [done|]. intros w g w' sn HI HP Hin. apply list_elem_of_singleton in Hin as [= -> ->].
  assert (Hpend : forall w g, pinv w g -> poller None [] w g \/ (exists sn, poller (Some sn) [] w g) -> preports w = woken w ++ []).
  { intros w1 g1 HI1 HP1. pose proof (pi_woken _ _ HI1) as Hw. destruct HP1 as [(_ & E & _)|(s & _ & E & _)]; by rewrite E in Hw. }
  destruct (poller_step None [] (Some (snapshot_from 0 (table w))) [] w w g HI HP) as (g' & ? & ? & ?); [intros s [= <-]; right; apply snapshot_covered|by apply (Hpend w g HI); left|].
  exists g', (poller (Some (snapshot_from 0 (table w))) []). splits; [done..|apply stable_poller|]. generalize (snapshot_from 0 (table w)). clear w g HI HP g' H H0 H1. intros sn. split.
  - intros w g HI (E1 & E2 & E3) Hnil. apply app_nil in Hnil as [Hnil _]. destruct (_ || _) eqn:Eb; [done|]. apply orb_false_iff in Eb as [Ep Ev]. split; [done|]. splits; [done|done| |].
    + simpl in Ep. by apply Nat.ltb_ge, Nat.le_0_r in Ep.
    + exists sn. split; [done|]. intros it Hit. destruct (decide (revents_of (kern w) it.1 it.2 = 0)) as [|Hne]; [done|].
      assert (existsb (fun v => negb (v =? 0)) (poll_answers sn w).2 = true); [|congruence]. apply List.existsb_exists. exists (revents_of (kern w) it.1 it.2).
      split; [|by rewrite (proj2 (Z.eqb_neq _ 0) Hne)]. simpl. apply list_elem_of_In, list_elem_of_fmap. by exists it.
  - intros w g w' a HI HP Hin.
    assert (Hw' : table w' = table w /\ pipe w' = pipe w /\ preports w' = preports w /\ woken w' = woken w).
    { apply elem_of_app in Hin as [Hin|Hin].
      - destruct (_ || _); [by apply list_elem_of_singleton in Hin as [= -> ->]|]. destruct (_ <? 0); [by apply elem_of_nil in Hin|by apply list_elem_of_singleton in Hin as [= -> ->]].
      - destruct (signals w); [by apply elem_of_nil in Hin|by apply list_elem_of_singleton in Hin as [= -> ->]]. }
    destruct Hw' as (_ & _ & F3 & F4). destruct (poller_step (Some sn) [] None [] w w' g HI HP) as (g' & ? & ? & ?); [done|rewrite F3, F4; apply (Hpend w g HI); right; by exists sn|].
    exists g', (poller None []). splits; [done..|apply stable_poller|]. destruct a as [[pipeReady answers]|]; [|by intros ? ? _ ?].
    assert (Hc : rg R 0 (pending <- rmw (fun w => let '(t, r) := collect_all sn answers (table w) in (add_reports t r w, r));; wake_all pending) (poller None []) (fun _ => poller None [])).
    { apply rg_rmw. intros w1 g1 HI1 HP1. destruct (collect_all sn answers (table w1)) as [t r]. cbn [fst snd].
      destruct (poller_step None [] None r w1 (add_reports t r w1) g1 HI1 HP1) as (g2 & ? & ? & ?); [done| |exists g2, (poller None r); splits; [done..|apply stable_poller|apply p_wake_all]].
      simpl. pose proof (pi_woken _ _ HI1) as Hw. destruct HP1 as (_ & E & _). rewrite E, app_nil_r in Hw. by rewrite Hw. }
    destruct pipeReady; [by apply p_drain|exact Hc].
Qed.

(** A step of another thread. *)
Lemma user_step i o w w' g : (i < n)%nat -> i <> 0%nat -> pinv w g ->
  preports w' = preports w -> woken w' = woken w ->
  (forall sn, covered sn (table w) \/ (0 < pipe w)%nat \/ pow g i = true -> o = true \/ (0 < pipe w')%nat \/ covered sn (table w')) ->
  (o = true \/ pow g i = false \/ (0 < pipe w')%nat) -> (0 < pipe w -> 0 < pipe w')%nat ->
  exists g', pinv w' g' /\ pguar i (w, g) (w', g') /\ user i o w' g'.
Proof.
  intros Hi Hi0 [H1 H2] Hr Hw Hc Ho Hpp. exists (PG (psnap g) (pend g) (<[i := o]> (pow g))). splits.
  - split; simpl; [|congruence]. intros sn Hs.
    assert (Hhere : o = true -> some n id (<[i := o]> (pow g))) by (intros ->; by apply some_here).
    destruct (H1 sn Hs) as [H|[(j & Hj & E')|H]].
    + destruct (Hc sn) as [?|[?|?]]; auto.
    + destruct (decide (j = i)) as [->|Hne]; [|right; left; by eapply some_ne]. cbv [id] in E'. destruct Ho as [?|[?|?]]; [auto|congruence|auto].
    + auto.
  - split; [done|]. intros j Hj. simpl. by rewrite fn_lookup_insert_ne.
  - unfold user. simpl. by rewrite fn_lookup_insert.
Qed.

Lemma p_wake i o : (i < n)%nat -> i <> 0%nat -> rg R i (poll_wake capacity) (user i o) (fun _ => user i false).
Proof.
  intros Hi Hi0. apply rg_seq_ret, rg_store. intros w g HI HP. destruct (user_step i false w (set_pipe (Nat.min capacity (S (pipe w))) w) g Hi Hi0 HI) as (g' & ? & ? & ?); try done; simpl.
  - intros sn _. right; left. lia.
  - right; right. lia.
  - lia.
  - exists g', (user i false). splits; [done..|apply stable_user|by intros ? ? _ ?].
Qed.

(** A step that only makes the table smaller, or does not touch it. *)
Lemma p_quiet {A} i (q : unit -> prog (pworld K) A) Q w w' g : (i < n)%nat -> i <> 0%nat -> pinv w g -> user i false w g ->
  preports w' = preports w -> woken w' = woken w -> pipe w' = pipe w -> (forall sn, covered sn (table w) -> covered sn (table w')) ->
  rg R i (q tt) (user i false) Q -> exists g' P', pinv w' g' /\ pguar i (w, g) (w', g') /\ P' w' g' /\ stable R i P' /\ rg R i (q tt) P' Q.
Proof.
  intros Hi Hi0 HI HP E1 E2 E3 Hc Hq. destruct (user_step i false w w' g Hi Hi0 HI E1 E2) as (g' & ? & ? & ?).
  - intros sn [?|[?|E]]; [right; right; auto|right; left; by rewrite E3|]. unfold user in HP. congruence.
  - by right; left.
  - by rewrite E3.
  - exists g', (user i false). splits; [done..|apply stable_user|exact Hq].
Qed.

Lemma p_perform i o : (i < n)%nat -> i <> 0%nat -> rg R i (poll_perform fdOf capacity o) (user i false) (fun _ => user i false).
Proof.
  intros Hi Hi0. assert (Hret : rg R i (Ret tt) (user i false) (fun _ => user i false)) by by intros ? ? _ ?. destruct o as [r|r|r it| |e|]; cbn [poll_perform].
  - unfold poll_add. destruct (fdOf r <? 0); [exact Hret|]. apply rg_rmw. intros w g HI HP. pose proof (fun sn => covered_add sn r (table w)) as Hc. destruct (add_locked fdOf r (table w)) as [t e]. cbn [fst snd].
    by eapply (p_quiet i (fun _ => Ret tt)).
  - apply rg_seq_ret, rg_store. intros w g HI HP. eapply (p_quiet i (fun _ => Ret tt)); try done. intros sn. apply covered_remove.
  - unfold poll_arm. apply rg_bind_assoc, rg_rmw. intros w g HI HP. unfold arm_locked. destruct (entry_of fdOf r (table w)) as [[index e]|]; cbn [fst snd].
    + destruct (user_step i true w (set_table (<[index := MkEntry (Some r) (Z.lor (pevents e) (events_of it))]> (table w)) w) g Hi Hi0 HI) as (g' & ? & ? & ?); try done; [by intros; left|by left|].
      exists g', (user i true). splits; [done..|apply stable_user|]. cbn [Z.eqb]. apply rg_bind_assoc. eapply rg_seq; [by apply p_wake|exact Hret].
    + by eapply (p_quiet i (fun _ => Ret tt)).
  - by apply p_wake.
  - apply rg_seq_ret, rg_store. intros w g HI HP. by eapply (p_quiet i (fun _ => Ret tt)).
  - apply rg_seq_ret, rg_store. intros w g HI HP. by eapply (p_quiet i (fun _ => Ret tt)).
Qed.

Definition done_with (i : nat) (_ : unit) : asrt (pworld K) pghost := fun w g => pow g i = false.

Lemma p_ops i l : (i < n)%nat -> i <> 0%nat -> rg R i (poll_ops fdOf capacity l) (user i false) (done_with i).
Proof. intros Hi Hi0. induction l as [|o l IH]; [by intros ? ? _ ?|]. cbn [poll_ops]. eapply rg_seq; [by apply p_perform|exact IH]. Qed.

Lemma p_loop fuel l : rg R 0 (poll_loop fuel l) (poller None []) (done_with 0).
Proof. induction l as [|t l IH]; [by intros ? ? _ (_ & _ & ?)|]. cbn [poll_loop]. eapply rg_seq; [apply p_wait|exact IH]. Qed.
End spec.

(** C25: In every interleaving of the thread that polls with threads that add, remove and arm
    registrations, wake the poller or interrupt it, and with any events at the descriptors:
    once nobody can move and the polling thread has not returned, no descriptor has an event that somebody
    armed for, everything reported has been woken, and the pipe is empty. *)
Theorem poll_no_missed_interest {K E} `{!PollKernel K E} fdOf capacity fuel timeouts (k : K) l ts w :
  (0 < capacity)%nat -> reach (poll_pool (E := E) fdOf capacity fuel timeouts k l) (ts, w) ->
  (forall i m, ts !! i <> Some (Fatal m)) /\
  ((forall i th, ts !! i = Some th -> halted w th) -> ts !! 0%nat <> Some (Ret tt) ->
     (forall fd r e, table w !! fd = Some (MkEntry (Some r) e) -> e <> 0 -> revents_of (kern w) fd e = 0) /\
     woken w = preports w /\ pipe w = 0%nat).
Proof.
  intros Hcap Hr. assert (Hok : pool_ok (pproto (S (length l))) done_with (poll_pool (E := E) fdOf capacity fuel timeouts k l)).
  { exists (PG None [] (fun _ => false)). split; [by split|]. intros i p Hp. destruct i as [|i]; simpl in Hp.
    - injection Hp as <-. exists (poller None []). split; [apply stable_poller|]. split; [done|apply p_loop].
    - rewrite list_lookup_fmap in Hp. destruct (l !! i) as [o|] eqn:El; [|done]. injection Hp as <-. apply lookup_lt_Some in El. exists (user (S i) false).
      split; [apply stable_user|]. split; [done|]. apply p_ops; [done|lia|done]. }
  pose proof (pool_ok_reach _ _ _ _ Hr Hok) as Hok'. apply reach_length in Hr. simpl in Hr. rewrite length_fmap in Hr.
  split; [intros i m; by eapply pool_ok_not_fatal|]. intros Hhalt H0. destruct (pool_ok_waits _ _ _ _ Hok') as (g & HI & Hw & HQ).
  destruct (lookup_lt_is_Some_2 ts 0 ltac:(lia)) as [t0 Ht0]. destruct (Hhalt 0%nat t0 Ht0) as [->|(X & f & q & -> & Hf)]; [done|].
  destruct (Hw 0%nat X f q Ht0 Hf) as (_ & Ho & Hp & Hpipe & sn & Hsn & Hz).
  assert (Hidle : ~ some (S (length l)) id (pow g)).
  { intros (j & Hj & Ej). cbv [id] in Ej. destruct (lookup_lt_is_Some_2 ts j ltac:(lia)) as [t Ht]. destruct (Hhalt j t Ht) as [->|(X' & f' & q' & -> & Hf')].
    - specialize (HQ j tt Ht). unfold done_with in HQ. congruence.
    - destruct (Hw j X' f' q' Ht Hf') as [-> _]. congruence. }
  splits; [|pose proof (pi_woken _ _ _ HI) as E1; by rewrite Hp, app_nil_r in E1|done].
  intros fd r e Hfd He. destruct (pi_snap _ _ _ HI sn Hsn) as [Hc|[?|?]]; [|done|lia]. destruct (Hc fd r e Hfd He) as (e' & Hin & Hland).
  apply (revents_less (kern w) fd e e' Hland). by apply (Hz (fd, e')).
Qed.

(** Descriptors whose events are set and cleared. *)
#[local] Instance poll_kernel_example : PollKernel (nat -> Z) (nat * Z).
Proof.
  refine {| revents_of k fd e := Z.land (k fd) (Z.lor e HUPS); kevent ev k := <[ev.1 := ev.2]> k |}.
  intros k fd e e' He Hz. apply Z.bits_inj'. intros b Hb. apply (f_equal (fun v => Z.testbit v b)) in Hz. apply (f_equal (fun v => Z.testbit v b)) in He.
  rewrite !Z.land_spec, !Z.lor_spec, !Z.bits_0 in *. destruct (Z.testbit (k fd) b), (Z.testbit e b), (Z.testbit e' b), (Z.testbit HUPS b); try done.
Defined.

(** Registration 0 is armed for reading while the poller waits, and its descriptor 3 becomes readable; then it is
    armed again and nothing comes. *)
Definition poll_users : list (list (poll_op (E := nat * Z))) :=
  [[PAdd 0; PArm 0 Readable; PEvent (3%nat, POLLIN); PSignal; PEvent (3%nat, 0); PArm 0 Readable]].
Definition poll_schedule : list (nat * nat) := [(0, 0)%nat] ++ replicate 4 (1, 0)%nat ++ replicate 20 (0, 0)%nat ++ round_robin 2 60.
Definition poll_final := run_avail poll_schedule (poll_pool (fun _ => 3) 5 9 (replicate 12 (-1)) (fun _ : nat => 0) poll_users).

Lemma poll_no_missed_interest_witness :
  woken poll_final.2 = preports poll_final.2 /\ table poll_final.2 !! 3%nat = Some (MkEntry (Some 0%nat) POLLIN) /\ preports poll_final.2 = [(0%nat, Readable, 0)].
Proof.
  destruct (poll_no_missed_interest (fun _ => 3) 5 9 (replicate 12 (-1)) (fun _ : nat => 0) poll_users poll_final.1 poll_final.2) as [_ H]; [lia| |].
  - apply (run_avail_reach poll_schedule). unfold poll_final. apply surjective_pairing.
  - split; [|vm_compute; split; reflexivity]. destruct H as (_ & H & _); [apply haltedb_all; vm_compute; reflexivity|vm_compute; discriminate|exact H].
Defined.

Lemma wait_millis_witness :
  millis 1500000 = 2 /\ millis (2 ^ 31 * 1000000) < 0 /\ millis ((2 ^ 32 + 5) * 1000000) * 1000000 < (2 ^ 32 + 5) * 1000000.
Proof.
  split; [|split].
  - apply (proj1 (proj2 (proj2 (wait_millis 1500000) ltac:(lia)))). vm_compute. reflexivity.
  - apply (proj1 (proj2 (proj2 (proj2 (wait_millis (2 ^ 31 * 1000000)) ltac:(lia))))). vm_compute. discriminate.
  - apply (proj2 (proj2 (proj2 (proj2 (wait_millis ((2 ^ 32 + 5) * 1000000)) ltac:(lia))))); vm_compute; [discriminate|reflexivity].
Defined.
