(* ===== verification/Epoll.v ===== *)
(** * Pollers: epoll, edge-triggered

    [EpollPoller] (io/src/EpollPoller.cpp).  Each descriptor is added to the epoll set
    once and every edge is reported; events carry the descriptor's number, and the
    registration is looked up in the table, under its lock, when they are processed.

    - A locked region is one step (SpinLock.v).
    - The epoll set is a parameter: [EpollKernel] has the system calls and, as laws,
      that only descriptors in the set have events, that a harvest loses none and has
      at most as many events as asked for, and that an operation on one descriptor does not put another into the set.
    - A registration is used by one thread at a time, [owner]: its constructor adds it and
      its destructor removes it.
    - [ereports], [ewoken], [harvested], [dropped] (events without a registration) and [removed]
      (descriptors whose registration was removed) are histories. *)

From Stdlib Require Import ZArith Lia.
From stdpp Require Import base tactics list numbers option strings functions.
From S2P Require Import Prelude Conc Source Registration Poller.

Definition EPOLLIN : Z := 1.
Definition EPOLLOUT : Z := 4.
Definition EPOLLERR : Z := 8.
Definition EPOLLHUP : Z := 16.
Definition EPOLLRDHUP : Z := 8192.
Definition kBatch : nat := 64.

Definition readyOf (events : Z) : Z :=
  Z.lor (if any events (Z.lor EPOLLIN (Z.lor EPOLLRDHUP (Z.lor EPOLLHUP EPOLLERR))) then Readable else INone)
    (if any events (Z.lor EPOLLOUT (Z.lor EPOLLHUP EPOLLERR)) then Writable else INone).
Definition closedOf (events : Z) : Z :=
  Z.lor (if any events (Z.lor EPOLLRDHUP (Z.lor EPOLLHUP EPOLLERR)) then Readable else INone)
    (if any events (Z.lor EPOLLHUP EPOLLERR) then Writable else INone).

Class EpollKernel (K EV : Type) := {
  watched : K -> nat -> bool;
  pending : K -> nat -> Z;
  ctl_add : nat -> K -> K * Z;
  ctl_del : nat -> K -> K;
  harvest : nat -> K -> K * list (nat * Z);
  eevent : EV -> K -> K;
  pending_watched k fd : pending k fd <> 0 -> watched k fd = true;
  add_failed fd k : (ctl_add fd k).2 <> 0 -> (ctl_add fd k).1 = k;
  add_other fd k fd' : fd' <> fd -> watched (ctl_add fd k).1 fd' = watched k fd';
  del_less fd k fd' : watched (ctl_del fd k) fd' = true -> watched k fd' = true;
  event_less e k fd : watched (eevent e k) fd = true -> watched k fd = true;
  harvest_batch m k : (length (harvest m k).2 <= m)%nat;
  harvest_set m k fd : watched (harvest m k).1 fd = watched k fd;
  harvest_watched m k fd b : (fd, b) ∈ (harvest m k).2 -> watched k fd = true;
  harvest_none m k fd : (0 < m)%nat -> (harvest m k).2 = [] -> pending k fd = 0;
  harvest_some m k fd : pending k fd <> 0 -> (fd, pending k fd) ∈ (harvest m k).2 \/ pending (harvest m k).1 fd = pending k fd
}.

Record epworld (K : Type) := EPW {
  etable : list (option nat);
  counter : nat;
  ekern : K;
  esignals : nat;
  ereports : list (nat * Z * Z);
  ewoken : list (nat * Z * Z);
  harvested : nat;
  dropped : list nat;
  removed : list nat
}.
Arguments EPW {K} etable counter ekern esignals ereports ewoken harvested dropped removed.
Arguments etable {K} e.
Arguments counter {K} e.
Arguments ekern {K} e.
Arguments esignals {K} e.
Arguments ereports {K} e.
Arguments ewoken {K} e.
Arguments harvested {K} e.
Arguments dropped {K} e.
Arguments removed {K} e.

Section epoll.
Context {K EV : Type} `{!EpollKernel K EV} (fdOf : nat -> Z).
Notation W := (epworld K).
Abbreviation epprog := (prog (epworld K)).

Definition set_etable t (w : W) := EPW t (counter w) (ekern w) (esignals w) (ereports w) (ewoken w) (harvested w) (dropped w) (removed w).
Definition set_counter c (w : W) := EPW (etable w) c (ekern w) (esignals w) (ereports w) (ewoken w) (harvested w) (dropped w) (removed w).
Definition set_ekern (k : K) (w : W) := EPW (etable w) (counter w) k (esignals w) (ereports w) (ewoken w) (harvested w) (dropped w) (removed w).
Definition set_esignals s (w : W) := EPW (etable w) (counter w) (ekern w) s (ereports w) (ewoken w) (harvested w) (dropped w) (removed w).
Definition set_harvest (k : K) h (w : W) := EPW (etable w) (counter w) k (esignals w) (ereports w) (ewoken w) (harvested w + h)%nat (dropped w) (removed w).
Definition add_ereports c r d (w : W) := EPW (etable w) c (ekern w) (esignals w) (ereports w ++ r) (ewoken w) (harvested w) (dropped w ++ d) (removed w).
Definition add_ewoken r (w : W) := EPW (etable w) (counter w) (ekern w) (esignals w) (ereports w) (ewoken w ++ [r]) (harvested w) (dropped w) (removed w).
Definition remove_entry t fd (w : W) := EPW t (counter w) (ekern w) (esignals w) (ereports w) (ewoken w) (harvested w) (dropped w) (fd :: removed w).

(** ** [add], [remove], [wake] *)

Definition eresize (index : nat) (t : list (option nat)) : list (option nat) := t ++ replicate (S index - length t) None.

Definition eadd_locked (r index : nat) (t : list (option nat)) : list (option nat) * Z :=
  let t := eresize index t in
  match t !! index with
  | Some None => (<[index := Some r]> t, 0)
  | _ => (t, file_exists)
  end.

Definition epoll_add (r : nat) : epprog Z :=
  if fdOf r <? 0 then Ret bad_file_descriptor
  else
    let index := Z.to_nat (fdOf r) in
    e <- rmw (fun w => let '(t, e) := eadd_locked r index (etable w) in (set_etable t w, e));;
    if negb (e =? 0) then Ret e
    else
      error <- rmw (fun w => (set_ekern (ctl_add index (ekern w)).1 w, (ctl_add index (ekern w)).2));;
      if negb (error =? 0) then store (fun w => set_etable (<[index := None]> (etable w)) w);;; Ret error
      else Ret 0.

Definition epoll_remove (r : nat) : epprog unit :=
  let index := Z.to_nat (fdOf r) in
  store (fun w =>
    if negb (fdOf r <? 0) && bool_decide (etable w !! index = Some (Some r)) then remove_entry (<[index := None]> (etable w)) index w else w);;;
  store (fun w => set_ekern (if fdOf r <? 0 then ekern w else ctl_del index (ekern w)) w).

Definition epoll_wake : epprog unit := store (fun w => set_counter (S (counter w)) w).

(** ** [wait] *)

(** The eventfd is level-triggered and takes one place of the batch. *)
Definition epoll_call (ms : Z) : epprog (option (bool * list (nat * Z))) :=
  Act _ (fun w =>
    let woke := (0 <? counter w)%nat in
    let h := harvest (if woke then kBatch - 1 else kBatch)%nat (ekern w) in
    (if woke || negb (bool_decide (h.2 = [])) then [(set_harvest h.1 (length h.2) w, Some (woke, h.2))]
     else if ms <? 0 then [] else [(w, None)]) ++
    (match esignals w with O => [] | S s => [(set_esignals s w, None)] end)) Ret.

(** The pass under the lock: the reports, and the events without a registration. *)
Fixpoint dispatch (evs : list (nat * Z)) (t : list (option nat)) : list (nat * Z * Z) * list nat :=
  match evs with
  | [] => ([], [])
  | (fd, b) :: evs' =>
      let '(rs, ds) := dispatch evs' t in
      match t !! fd with
      | Some (Some r) => ((r, readyOf b, closedOf b) :: rs, ds)
      | _ => (rs, fd :: ds)
      end
  end.

Fixpoint ewake_all (l : list (nat * Z * Z)) : epprog unit :=
  match l with
  | [] => Ret tt
  | r :: l' => store (add_ewoken r);;; ewake_all l'
  end.

Definition epoll_wait (timeout : Z) : epprog unit :=
  a <- epoll_call (millis timeout);;
  match a with
  | None => Ret tt
  | Some (woke, evs) =>
      wakeups <- rmw (fun w => let '(rs, ds) := dispatch evs (etable w) in (add_ereports (if woke : bool then 0%nat else counter w) rs ds w, rs));;
      check (length wakeups <=? kBatch)%nat "wakeups[] overrun";;;
      ewake_all wakeups
  end.

(** ** Threads *)

Fixpoint epoll_loop (timeouts : list Z) : epprog unit :=
  match timeouts with
  | [] => Ret tt
  | t :: timeouts' => epoll_wait t;;; epoll_loop timeouts'
  end.

Inductive epoll_op := EAdd (r : nat) | ERemove (r : nat) | EWake | EEvent (e : EV) | ESignal.

Definition epoll_perform (o : epoll_op) : epprog unit :=
  match o with
  | EAdd r => epoll_add r;;; Ret tt
  | ERemove r => epoll_remove r
  | EWake => epoll_wake
  | EEvent e => store (fun w => set_ekern (eevent e (ekern w)) w)
  | ESignal => store (fun w => set_esignals (S (esignals w)) w)
  end.

Fixpoint epoll_ops (l : list epoll_op) : epprog unit :=
  match l with
  | [] => Ret tt
  | o :: l' => epoll_perform o;;; epoll_ops l'
  end.

(** Thread [i] uses its own registrations only. *)
Definition owns_op (owner : nat -> nat) (i : nat) (o : epoll_op) : bool :=
  match o with EAdd r | ERemove r => (owner r =? i)%nat | _ => true end.

Definition epoll_pool (timeouts : list Z) (k : K) (l : list (list epoll_op)) : config (epworld K) unit :=
  (epoll_loop timeouts :: (epoll_ops <$> l), EPW [] 0 k 0 [] [] 0 [] []).
End epoll.
