(* ===== verification/EpollSpec.v ===== *)
(** * Epoll: an event is dropped only if its registration was removed

    [add] puts the registration into the table before the descriptor into the epoll set,
    and [remove] takes it out of the table first: an event that finds no registration belongs to one
    that was removed. *)

From Stdlib Require Import ZArith Lia.
From stdpp Require Import base tactics list numbers option strings functions.
From S2P Require Import Prelude Conc Sums Source Registration Poller Epoll.

Section spec.
Context {K EV : Type} `{!EpollKernel K EV} (fdOf : nat -> Z) (owner : nat -> nat).
Notation slot_of r := (Z.to_nat (fdOf r)).

(** The events harvested and not yet processed; the reports not yet woken; the registration that a thread
    has put into the table and not yet into the epoll set. *)
Record epghost := EPG { infl : list (nat * Z); epend : list (nat * Z * Z); adding : nat -> option nat }.

Record epinv (w : epworld K) (g : epghost) : Prop := {
  ei_found : forall fd, watched (ekern w) fd = true \/ fd ∈ (infl g).*1 -> (exists r, etable w !! fd = Some (Some r)) \/ fd ∈ removed w;
  ei_adding : forall j r, adding g j = Some r -> owner r = j /\ etable w !! slot_of r = Some (Some r) /\
    (slot_of r ∈ removed w \/ watched (ekern w) (slot_of r) = false /\ slot_of r ∉ (infl g).*1);
  ei_dropped : forall fd, fd ∈ dropped w -> fd ∈ removed w;
  ei_woken : ereports w = ewoken w ++ epend g;
  ei_count : harvested w = (length (ereports w) + length (dropped w) + length (infl g))%nat
}.

Record epguar (j : nat) (a b : epworld K * epghost) : Prop := {
  eg_infl : j <> 0%nat -> infl b.2 = infl a.2 /\ epend b.2 = epend a.2;
  eg_adding : forall i, i <> j -> adding b.2 i = adding a.2 i
}.

Definition epwait (i : nat) (w : epworld K) (g : epghost) : Prop :=
  i = 0%nat /\ infl g = [] /\ epend g = [] /\ counter w = 0%nat /\ forall fd, pending (ekern w) fd = 0.

Definition epproto : protocol (epworld K) epghost := WaitProtocol epinv epguar epwait.
Notation R := epproto.

Definition polling (l : list (nat * Z)) (p : list (nat * Z * Z)) : asrt (epworld K) epghost := fun w g => infl g = l /\ epend g = p.
Definition adds (i : nat) (o : option nat) : asrt (epworld K) epghost := fun w g => adding g i = o.

Lemma stable_polling l p : stable R 0 (polling l p).
Proof. intros j w g w' g' Hj _ _ [H1 H2] [E1 E2]. destruct (H1 Hj) as [G1 G2]. simpl in *. unfold polling. by rewrite G1, G2. Qed.
Lemma stable_adds i o : stable R i (adds i o).
Proof. intros j w g w' g' Hj _ _ [H1 H2] E. unfold adds in *. simpl in *. by rewrite H2. Qed.

(** *** The poller's thread *)

Lemma e_wake_all l : rg R 0 (ewake_all l) (polling [] l) (fun _ => polling [] []).
Proof.
  induction l as [|r l IH]; [by intros ? ? _ ?|]. cbn [ewake_all]. apply rg_store. intros w g HI [E1 E2]. exists (EPG [] l (adding g)), (polling [] l).
  splits; [|by split|done|apply stable_polling|exact IH]. destruct HI as [H1 H2 H3 H4 H5]. rewrite E1, E2 in *. split; simpl; try done. by rewrite H4, <- app_assoc.
Qed.

Lemma dispatch_spec evs t rs ds : dispatch evs t = (rs, ds) ->
  (length rs + length ds = length evs)%nat /\ forall fd, fd ∈ ds -> fd ∈ evs.*1 /\ forall r, t !! fd <> Some (Some r).
Proof.
  revert rs ds. induction evs as [|[fd b] evs IH]; intros rs ds; simpl; [intros [= <- <-]; split; [done|]; by intros fd ?%elem_of_nil|].
  destruct (dispatch evs t) as [rs' ds']. destruct (IH rs' ds' eq_refl) as [Hl Hd]. destruct (t !! fd) as [[r|]|] eqn:Et; intros [= <- <-]; simpl; split; try lia.
  - intros fd' Hin. destruct (Hd fd' Hin). split; [by right|done].
  - intros fd' [->|Hin]%elem_of_cons; [split; [left|]; by rewrite Et|]. destruct (Hd fd' Hin). split; [by right|done].
  - intros fd' [->|Hin]%elem_of_cons; [split; [left|]; by rewrite Et|]. destruct (Hd fd' Hin). split; [by right|done].
Qed.

Lemma e_process (woke : bool) evs : (length evs <= kBatch)%nat ->
  rg R 0 (wakeups <- rmw (fun w => let '(rs, ds) := dispatch evs (etable w) in (add_ereports (if woke then 0%nat else counter w) rs ds w, rs));;
          check (length wakeups <=? kBatch)%nat "wakeups[] overrun";;; ewake_all wakeups)
    (polling evs []) (fun _ => polling [] []).
Proof.
  intros Hb. apply rg_rmw. intros w g HI [E1 E2]. destruct (dispatch evs (etable w)) as [rs ds] eqn:Ed. cbn [fst snd]. destruct (dispatch_spec _ _ _ _ Ed) as [Hl Hd].
  exists (EPG [] rs (adding g)), (polling [] rs). splits; [|by split|done|apply stable_polling|apply rg_check; [apply Nat.leb_le; lia|apply e_wake_all]].
  destruct HI as [H1 H2 H3 H4 H5]. rewrite E1, E2 in *. split; simpl.
  - intros fd [Hw|Hin]; [by apply H1; left|by apply elem_of_nil in Hin].
  - intros j r Hj. destruct (H2 j r Hj) as (? & ? & Hor). splits; [done|done|]. destruct Hor as [?|[? _]]; [by left|right]. split; [done|]. by intros ?%elem_of_nil.
  - intros fd [Hin|Hin]%elem_of_app; [by apply H3|]. destruct (Hd fd Hin) as [Hev Hno]. destruct (H1 fd (or_intror Hev)) as [[r Hr]|?]; [by destruct (Hno r)|done].
  - by rewrite H4, app_nil_r.
  - rewrite !length_app. lia.
Qed.

Lemma e_wait timeout : rg R 0 (epoll_wait timeout) (polling [] []) (fun _ => polling [] []).
Proof.
  unfold epoll_wait. split.
  - intros w g HI [E1 E2] Hnil. apply app_nil in Hnil as [Hnil _]. destruct (_ || _) eqn:Eb; [done|]. apply orb_false_iff in Eb as [Ec Eh].
    apply negb_false_iff, bool_decide_eq_true in Eh. rewrite Ec in Eh. split; [done|]. splits; [done|done| |]; [by apply Nat.ltb_ge, Nat.le_0_r in Ec|].
    intros fd. eapply harvest_none; [|exact Eh]. unfold kBatch. lia.
  - intros w g w' a HI [E1 E2] Hin. destruct HI as [H1 H2 H3 H4 H5]. rewrite E1, E2 in *. apply elem_of_app in Hin as [Hin|Hin].
    + destruct (_ || _); [|destruct (millis timeout <? 0); [by apply elem_of_nil in Hin|]].
      * apply list_elem_of_singleton in Hin as [= -> ->]. set (m := if (0 <? counter w)%nat then (kBatch - 1)%nat else kBatch). exists (EPG (harvest m (ekern w)).2 [] (adding g)), (polling (harvest m (ekern w)).2 []).
        splits; [|by split|done|apply stable_polling|apply e_process; unfold m; etrans; [apply harvest_batch|]; unfold kBatch; destruct (0 <? counter w)%nat; lia].
        assert (Hw : forall fd, fd ∈ (harvest m (ekern w)).2.*1 -> watched (ekern w) fd = true). { intros fd ([fd' b] & -> & Hin)%list_elem_of_fmap. by eapply harvest_watched. }
        split; simpl; try done.
        -- intros fd [Hf|Hf]; apply H1; left; [by rewrite harvest_set in Hf|by apply Hw].
        -- intros j r Hj. destruct (H2 j r Hj) as (? & ? & Hor). splits; [done|done|]. destruct Hor as [?|[Hn _]]; [by left|right]. rewrite harvest_set. split; [done|]. intros Hf. apply Hw in Hf. congruence.
        -- simpl in H5. change (if 0 <? counter w then 63 else kBatch)%nat with m. lia.
      * apply list_elem_of_singleton in Hin as [= -> ->]. exists g, (polling [] []). splits; [split; rewrite ?E1, ?E2; done|by split|by split|apply stable_polling|by intros ? ? _ ?].
    + destruct (esignals w); [by apply elem_of_nil in Hin|]. apply list_elem_of_singleton in Hin as [= -> ->]. exists g, (polling [] []).
      splits; [split; simpl; rewrite ?E1, ?E2; done|by split|by split|apply stable_polling|by intros ? ? _ ?].
Qed.

(** *** The others *)

(** Whoever is adding has its own place in the table. *)
Lemma adding_apart w g i j r r' : epinv w g -> owner r = i -> j <> i -> adding g j = Some r' -> etable w !! slot_of r = Some (Some r) -> slot_of r' <> slot_of r.
Proof. intros HI Ho Hj Ha Ht E. destruct (ei_adding _ _ HI j r' Ha) as (Ho' & Ht' & _). rewrite E in Ht'. congruence. Qed.

(** A step that leaves the ghost state alone. *)
Lemma e_same {A} i (q : unit -> prog (epworld K) A) Q o w w' g : epinv w g -> adds i o w g ->
  epinv w' g -> rg R i (q tt) (adds i o) Q -> exists g' P', epinv w' g' /\ epguar i (w, g) (w', g') /\ P' w' g' /\ stable R i P' /\ rg R i (q tt) P' Q.
Proof. intros HI HP HI' Hq. exists g, (adds i o). splits; [done|by split|exact HP|apply stable_adds|exact Hq]. Qed.

(** The epoll set becomes smaller, or stays. *)
Lemma inv_kern w g k : epinv w g -> (forall fd, watched k fd = true -> watched (ekern w) fd = true) -> epinv (set_ekern k w) g.
Proof.
  intros [H1 H2 H3 H4 H5] Hk. split; simpl; try done.
  - intros fd [Hf|Hf]; apply H1; auto.
  - intros j r Hj. destruct (H2 j r Hj) as (? & ? & Hor). splits; [done|done|]. destruct Hor as [?|[Hn ?]]; [by left|right]. split; [|done]. destruct (watched k (slot_of r)) eqn:E; [|done]. apply Hk in E. congruence.
Qed.

Lemma e_add i r : i <> 0%nat -> owner r = i -> rg R i (epoll_add fdOf r) (adds i None) (fun _ => adds i None).
Proof.
  intros Hi Ho. unfold epoll_add. destruct (fdOf r <? 0); [by intros ? ? _ ?|]. apply rg_rmw. intros w g HI HP. unfold eadd_locked.
  assert (Hrs : forall fd r', etable w !! fd = Some (Some r') <-> eresize (slot_of r) (etable w) !! fd = Some (Some r')).
  { intros fd r'. unfold eresize. rewrite lookup_app_Some. split; [by left|]. intros [?|[_ Hx]]; [done|]. by apply lookup_replicate_1 in Hx as [? _]. }
  assert (Hresize : epinv (set_etable (eresize (slot_of r) (etable w)) w) g).
  { destruct HI as [H1 H2 H3 H4 H5]. split; simpl; try done.
    - intros fd Hf. destruct (H1 fd Hf) as [[r' Hr']|?]; [left; exists r'; by apply Hrs|by right].
    - intros j r' Hj. destruct (H2 j r' Hj) as (? & ? & ?). splits; try done. by apply Hrs. }
  destruct (eresize (slot_of r) (etable w) !! slot_of r) as [[r0|]|] eqn:Et; cbn [fst snd]; [eapply (e_same i (fun _ => Ret file_exists)); [done|done|done|by intros ? ? _ ?]| |eapply (e_same i (fun _ => Ret file_exists)); [done|done|done|by intros ? ? _ ?]].
  exists (EPG (infl g) (epend g) (<[i := Some r]> (adding g))), (adds i (Some r)).
  assert (Hlt : (slot_of r < length (eresize (slot_of r) (etable w)))%nat) by by eapply lookup_lt_Some. splits; [|split; simpl|..|apply stable_adds|].
  - destruct Hresize as [H1 H2 H3 H4 H5]. simpl in *. split; simpl; try done.
    + intros fd Hf. destruct (decide (fd = slot_of r)) as [->|Hne]; [left; exists r; by apply list_lookup_insert_eq|]. rewrite list_lookup_insert_ne by done. by apply H1.
    + intros j r'. destruct (decide (j = i)) as [->|Hne].
      * rewrite fn_lookup_insert. intros [= <-]. splits; [done|by apply list_lookup_insert_eq|]. destruct (decide (slot_of r ∈ removed w)) as [|Hn]; [by left|right].
        assert (Hno : ~ (watched (ekern w) (slot_of r) = true \/ slot_of r ∈ (infl g).*1)). { intros Hf. destruct (H1 _ Hf) as [[r' Hr']|?]; [congruence|done]. }
        split; [destruct (watched (ekern w) (slot_of r)); [by destruct Hno; left|done]|]. intros Hin. apply Hno. by right.
      * rewrite fn_lookup_insert_ne by done. intros Hj. destruct (H2 j r' Hj) as (? & Ht' & ?). splits; try done. rewrite list_lookup_insert_ne; [done|]. intros E. rewrite E in Et. congruence.
  - done.
  - intros j Hj. by rewrite fn_lookup_insert_ne.
  - unfold adds. simpl. by rewrite fn_lookup_insert.
  - clear w g HI HP Hrs Hresize Et Hlt. cbn [Z.eqb negb]. apply rg_rmw. intros w g HI HP. cbn [fst snd]. destruct (ei_adding _ _ HI i r HP) as (_ & Ht & Hr).
    destruct (decide ((ctl_add (slot_of r) (ekern w)).2 = 0)) as [->|Hne].
    + exists (EPG (infl g) (epend g) (<[i := None]> (adding g))), (adds i None). splits; [|split; simpl; [done|]|..|apply stable_adds|by intros ? ? _ ?].
      * pose proof HI as [H1 H2 H3 H4 H5]. split; simpl; try done.
        -- intros fd [Hf|Hf]; [|apply H1; by right]. destruct (decide (fd = slot_of r)) as [->|Hne]; [left; by exists r|]. rewrite add_other in Hf by done. apply H1. by left.
        -- intros j r'. destruct (decide (j = i)) as [->|Hne]; [by rewrite fn_lookup_insert|]. rewrite fn_lookup_insert_ne by done. intros Hj.
           destruct (H2 j r' Hj) as (? & ? & ?). splits; try done. rewrite add_other; [done|]. by eapply (adding_apart w g i j r r').
      * intros j Hj. by rewrite fn_lookup_insert_ne.
      * unfold adds. simpl. by rewrite fn_lookup_insert.
    + rewrite (add_failed _ _ Hne). rewrite (proj2 (Z.eqb_neq _ 0) Hne). exists g, (adds i (Some r)). splits; [by apply inv_kern|by split|done|apply stable_adds|].
      generalize ((ctl_add (slot_of r) (ekern w)).2). clear w g HI HP Ht Hr Hne. intros e. cbn [negb]. apply rg_store. intros w g HI HP. destruct (ei_adding _ _ HI i r HP) as (_ & Ht & Hr).
      exists (EPG (infl g) (epend g) (<[i := None]> (adding g))), (adds i None). splits; [|split; simpl; [done|]|..|apply stable_adds|by intros ? ? _ ?].
      * pose proof HI as [H1 H2 H3 H4 H5]. split; simpl; try done.
        -- intros fd Hf. destruct (decide (fd = slot_of r)) as [->|Hne]; [|rewrite list_lookup_insert_ne by done; by apply H1]. destruct Hr as [?|[Hn Hm]]; [by right|]. destruct Hf; [congruence|done].
        -- intros j r'. destruct (decide (j = i)) as [->|Hne]; [by rewrite fn_lookup_insert|]. rewrite fn_lookup_insert_ne by done. intros Hj.
           destruct (H2 j r' Hj) as (? & ? & ?). splits; try done. rewrite list_lookup_insert_ne; [done|]. intros E. by eapply (adding_apart w g i j r r').
      * intros j Hj. by rewrite fn_lookup_insert_ne.
      * unfold adds. simpl. by rewrite fn_lookup_insert.
Qed.

Lemma e_remove i r : i <> 0%nat -> owner r = i -> rg R i (epoll_remove fdOf r) (adds i None) (fun _ => adds i None).
Proof.
  intros Hi Ho. unfold epoll_remove.
  assert (Hdel : rg R i (store (fun w : epworld K => set_ekern (if fdOf r <? 0 then ekern w else ctl_del (slot_of r) (ekern w)) w)) (adds i None) (fun _ => adds i None)).
  { apply rg_seq_ret, rg_store. intros w g HI HP. eapply (e_same i (fun _ => Ret tt)); [done|done| |by intros ? ? _ ?]. apply inv_kern; [done|]. intros fd. destruct (fdOf r <? 0); [done|apply del_less]. }
  apply rg_store. intros w g HI HP. destruct (negb (fdOf r <? 0) && _) eqn:Eb; [|by eapply (e_same i (fun _ => store _))].
  apply andb_true_iff in Eb as [_ Et]. apply bool_decide_eq_true in Et. eapply (e_same i (fun _ => store _)); [done|done| |exact Hdel].
  pose proof HI as [H1 H2 H3 H4 H5]. split; simpl; try done.
  - intros fd Hf. destruct (decide (fd = slot_of r)) as [->|Hne]; [right; left|]. rewrite list_lookup_insert_ne by done. destruct (H1 fd Hf); [by left|right; by right].
  - intros j r' Hj. destruct (decide (j = i)) as [->|Hne]; [unfold adds in HP; congruence|]. destruct (H2 j r' Hj) as (? & ? & Hor). splits; try done.
    + rewrite list_lookup_insert_ne; [done|]. intros E. by eapply (adding_apart w g i j r r').
    + destruct Hor; [left; by right|by right].
  - intros fd Hf. right. by apply H3.
Qed.

Lemma e_perform i o : i <> 0%nat -> owns_op (EV := EV) owner i o = true -> rg R i (epoll_perform fdOf o) (adds i None) (fun _ => adds i None).
Proof.
  intros Hi Ho. destruct o as [r|r| |e|]; cbn [epoll_perform owns_op] in *.
  - apply Nat.eqb_eq in Ho. eapply (rg_bind _ _ _ _ _ (fun _ => adds i None)); [by apply e_add|]. by intros _ ? ? _ ?.
  - apply Nat.eqb_eq in Ho. by apply e_remove.
  - apply rg_seq_ret, rg_store. intros w g HI HP. eapply (e_same i (fun _ => Ret tt)); [done|done| |by intros ? ? _ ?]. by destruct HI.
  - apply rg_seq_ret, rg_store. intros w g HI HP. eapply (e_same i (fun _ => Ret tt)); [done|done| |by intros ? ? _ ?]. apply inv_kern; [done|]. intros fd. apply event_less.
  - apply rg_seq_ret, rg_store. intros w g HI HP. eapply (e_same i (fun _ => Ret tt)); [done|done| |by intros ? ? _ ?]. by destruct HI.
Qed.

Definition idle_after (i : nat) (_ : unit) : asrt (epworld K) epghost := fun _ _ => True.

Lemma e_loop timeouts : rg R 0 (epoll_loop timeouts) (polling [] []) (idle_after 0).
Proof. induction timeouts as [|t timeouts IH]; [done|]. cbn [epoll_loop]. eapply rg_seq; [apply e_wait|exact IH]. Qed.

Lemma e_ops i l : i <> 0%nat -> forallb (owns_op (EV := EV) owner i) l = true -> rg R i (epoll_ops fdOf l) (adds i None) (idle_after i).
Proof.
  intros Hi. induction l as [|o l IH]; [done|]. simpl. intros [Ho Hl]%andb_true_iff. eapply rg_seq; [by apply e_perform|by apply IH].
Qed.
End spec.

(** C26: In every interleaving of the thread that polls with threads that add and remove their registrations, wake
    the poller or interrupt it, and with any events at the descriptors: the batch never overruns its array; an event is dropped only if the
    registration of its descriptor was removed; and once nobody can move and the polling thread has not returned, no descriptor
    has an event left, every event that was harvested was reported or dropped, and everything reported has been woken. *)
Theorem epoll_no_missed_event {K EV} `{!EpollKernel K EV} fdOf owner timeouts (k : K) (l : list (list (epoll_op (EV := EV)))) ts w :
  (forall fd, watched k fd = false) ->
  (forall i ops, l !! i = Some ops -> forallb (owns_op owner (S i)) ops = true) ->
  reach (epoll_pool fdOf timeouts k l) (ts, w) ->
  (forall i m, ts !! i <> Some (Fatal m)) /\
  (forall fd, fd ∈ dropped w -> fd ∈ removed w) /\
  ((forall i th, ts !! i = Some th -> halted w th) -> ts !! 0%nat <> Some (Ret tt) ->
     (forall fd, pending (ekern w) fd = 0) /\ counter w = 0%nat /\
     harvested w = (length (ereports w) + length (dropped w))%nat /\ ewoken w = ereports w).
Proof.
  intros Hk Hown Hr. assert (Hok : pool_ok (epproto fdOf owner) idle_after (epoll_pool fdOf timeouts k l)).
  { exists (EPG [] [] (fun _ => None)). split.
    - split; simpl; try done. intros fd [Hf|Hf]; [by rewrite Hk in Hf|by apply elem_of_nil in Hf].
    - intros i p Hp. destruct i as [|i]; simpl in Hp.
      + injection Hp as <-. exists (polling [] []). split; [apply stable_polling|]. split; [done|apply e_loop].
      + rewrite list_lookup_fmap in Hp. destruct (l !! i) as [ops|] eqn:El; [|done]. injection Hp as <-. exists (adds (S i) None). split; [apply stable_adds|]. split; [done|].
        apply e_ops; [done|by apply Hown]. }
  pose proof (pool_ok_reach _ _ _ _ Hr Hok) as Hok'. apply reach_length in Hr. simpl in Hr. rewrite length_fmap in Hr.
  split; [intros i m; by eapply pool_ok_not_fatal|]. destruct (pool_ok_waits _ _ _ _ Hok') as (g & HI & Hw & HQ). split; [apply (ei_dropped _ _ _ _ HI)|].
  intros Hhalt H0. destruct (lookup_lt_is_Some_2 ts 0 ltac:(lia)) as [t0 Ht0]. destruct (Hhalt 0%nat t0 Ht0) as [->|(X & f & q & -> & Hf)]; [done|].
  destruct (Hw 0%nat X f q Ht0 Hf) as (_ & Hi & Hp & Hc & Hz). pose proof (ei_count _ _ _ _ HI) as Hn. pose proof (ei_woken _ _ _ _ HI) as E1. rewrite Hi in Hn. rewrite Hp, app_nil_r in E1. simpl in Hn.
  splits; [done|done|lia|done].
Qed.

(** An epoll set: the descriptors in it with the events they have. *)
Fixpoint eset_harvest (m : nat) (k : list (nat * Z)) : list (nat * Z) * list (nat * Z) :=
  match k, m with
  | [], _ | _, O => (k, [])
  | (fd, b) :: k', S m' =>
      if decide (b = 0) then let r := eset_harvest m k' in ((fd, b) :: r.1, r.2)
      else let r := eset_harvest m' k' in ((fd, 0) :: r.1, (fd, b) :: r.2)
  end.
Definition eset_add (fd : nat) (k : list (nat * Z)) : list (nat * Z) * Z :=
  if decide (fd ∈ k.*1) then (k, file_exists) else ((fd, 0) :: k, 0).
Definition eset_find (k : list (nat * Z)) (fd : nat) : Z := default 0 (snd <$> list_find (fun x => x.1 = fd) k ≫= fun r => Some r.2).

Lemma eset_find_in k fd : eset_find k fd <> 0 -> (fd, eset_find k fd) ∈ k.
Proof.
  unfold eset_find. destruct (list_find (fun x : nat * Z => x.1 = fd) k) as [[i [fd' b]]|] eqn:E; [|done]. simpl. apply list_find_Some in E as (Hi & Hf & _). simpl in Hf. subst fd'. intros _. by eapply list_elem_of_lookup_2.
Qed.

Lemma eset_find_cons fd b k fd' : eset_find ((fd, b) :: k) fd' = if decide (fd = fd') then b else eset_find k fd'.
Proof. unfold eset_find. simpl. case_decide; [done|]. by destruct (list_find _ k) as [[i x]|]. Qed.

Lemma eset_harvest_some m k fd : eset_find k fd <> 0 ->
  (fd, eset_find k fd) ∈ (eset_harvest m k).2 \/ eset_find (eset_harvest m k).1 fd = eset_find k fd.
Proof.
  revert m. induction k as [|[fd' b] k IH]; intros [|m]; [by right..|]. rewrite eset_find_cons. simpl.
  intros Hne. destruct (decide (b = 0)) as [->|Hb]; simpl; rewrite eset_find_cons; destruct (decide (fd' = fd)) as [->|Hf]; [by right| |left; left|].
  - destruct (IH (S m) Hne); auto.
  - destruct (IH m Hne); [left; by right|by right].
Qed.

Lemma eset_harvest_none m k fd : (0 < m)%nat -> (eset_harvest m k).2 = [] -> eset_find k fd = 0.
Proof.
  intros Hm. induction k as [|[fd' b] k IH]; [done|]. destruct m as [|m]; [lia|]. rewrite eset_find_cons. simpl.
  destruct (decide (b = 0)) as [->|Hb]; [|done]. simpl. intros H. rewrite (IH H). by case_decide.
Qed.

Lemma eset_harvest_in m k x : x ∈ (eset_harvest m k).2 -> x ∈ k.
Proof.
  revert m. induction k as [|[fd b] k IH]; intros [|m]; simpl; [by intros ?%elem_of_nil..|].
  destruct (decide (b = 0)); simpl; [intros H; right; eauto|]. intros [->|H]%elem_of_cons; [left|right; eauto].
Qed.

Lemma eset_harvest_same m k : (eset_harvest m k).1.*1 = k.*1.
Proof. revert m. induction k as [|[fd b] k IH]; intros [|m]; [done..|]. simpl. destruct (decide (b = 0)); simpl; by rewrite IH. Qed.

Lemma eset_harvest_batch m k : (length (eset_harvest m k).2 <= m)%nat.
Proof.
  revert m. induction k as [|[fd b] k IH]; intros [|m]; simpl; [lia..|]. destruct (decide (b = 0)); simpl; [apply IH|specialize (IH m); lia].
Qed.

#[local] Instance epoll_kernel_example : EpollKernel (list (nat * Z)) (nat * Z).
Proof.
  refine {|
    watched k fd := bool_decide (fd ∈ k.*1);
    pending := eset_find;
    ctl_add := eset_add;
    ctl_del fd k := filter (fun x => x.1 <> fd) k;
    harvest := eset_harvest;
    eevent ev k := (fun x => if decide (x.1 = ev.1) then (x.1, ev.2) else x) <$> k
  |}.
  - intros k fd H%eset_find_in. apply bool_decide_eq_true, list_elem_of_fmap. by exists (fd, eset_find k fd).
  - intros fd k. unfold eset_add. by case_decide.
  - intros fd k fd' Hne. unfold eset_add. case_decide; [done|]. apply bool_decide_ext. simpl. rewrite elem_of_cons. naive_solver.
  - intros fd k fd' H%bool_decide_eq_true. apply bool_decide_eq_true. apply list_elem_of_fmap in H as (x & -> & Hx). apply list_elem_of_filter in Hx as [_ Hx]. apply list_elem_of_fmap. by exists x.
  - intros [fd b] k fd' H%bool_decide_eq_true. apply bool_decide_eq_true. rewrite <- list_fmap_compose in H. apply list_elem_of_fmap in H as (x & -> & Hx). apply list_elem_of_fmap. exists x. split; [|done]. simpl. by case_decide.
  - apply eset_harvest_batch.
  - intros m k fd. by rewrite eset_harvest_same.
  - intros m k fd b H%eset_harvest_in. apply bool_decide_eq_true, list_elem_of_fmap. by exists (fd, b).
  - apply eset_harvest_none.
  - apply eset_harvest_some.
Defined.

(** Two registrations; one is removed while its event is on the way. *)
Definition epoll_users : list (list (epoll_op (EV := nat * Z))) :=
  [[EAdd 1; EEvent (4%nat, EPOLLIN); ERemove 1]; [EAdd 2; EEvent (5%nat, EPOLLIN); EWake]].
Definition epoll_schedule : list (nat * nat) :=
  replicate 3 (1, 0)%nat ++ [(0, 0)%nat] ++ replicate 3 (1, 0)%nat ++ replicate 9 (0, 0)%nat ++ round_robin 3 60.
Definition epoll_final := run_avail epoll_schedule (epoll_pool (fun r => Z.of_nat r + 3) (replicate 12 (-1)) [] epoll_users).

Lemma epoll_no_missed_event_witness :
  ewoken epoll_final.2 = ereports epoll_final.2 /\ ereports epoll_final.2 = [(2%nat, Readable, 0)] /\ dropped epoll_final.2 = [4%nat] /\ removed epoll_final.2 = [4%nat].
Proof.
  destruct (epoll_no_missed_event (fun r => Z.of_nat r + 3) (fun r => r) (replicate 12 (-1)) [] epoll_users epoll_final.1 epoll_final.2) as (_ & _ & H); [done| | |].
  - intros [|[|i]] ops; simpl; [by intros [= <-]..|done].
  - apply (run_avail_reach epoll_schedule). unfold epoll_final. apply surjective_pairing.
  - split; [|vm_compute; repeat split; reflexivity]. destruct H as (_ & _ & _ & H); [apply haltedb_all; vm_compute; reflexivity|vm_compute; discriminate|exact H].
Defined.
