(* ===== verification/Vectors.v ===== *)
(** * Vectors: writing several buffers

    [totalLength], [readv], [writev], [writevAll] (io/src/Async.cpp) over the transfers of
    Registration.v.  A vector of buffers is a list of byte lists; the kernel takes the
    bytes in order, as many as the call returns.

    [returns p a] says that [p] can return [a] in some interleaving with other threads:
    what is shown of every such [a] holds whatever they do. *)

From Stdlib Require Import ZArith Lia Init.Byte.
From stdpp Require Import base tactics list numbers option strings functions.
From S2P Require Import Prelude Conc Source Registration RegistrationPool.

(** ** What a program can return *)

Fixpoint returns {S A} (p : prog S A) (a : A) : Prop :=
  match p with
  | Ret b => b = a
  | Act X f k => exists s s' x, (s', x) ∈ f s /\ returns (k x) a
  | _ => False
  end.

Lemma returns_bind {S A B} (p : prog S A) (q : A -> prog S B) b :
  returns (bind p q) b <-> exists a, returns p a /\ returns (q a) b.
Proof.
  induction p as [a|X f k IH| |m]; simpl.
  - split; [intros H; by exists a|by intros (? & <- & H)].
  - split.
    + intros (s & s' & x & Hx & H). apply IH in H as (a & Ha & Hb). exists a. split; [|done]. by exists s, s', x.
    + intros (a & (s & s' & x & Hx & Ha) & Hb). exists s, s', x. split; [done|]. apply IH. by exists a.
  - split; [done|]. by intros (? & ? & _).
  - split; [done|]. by intros (? & ? & _).
Qed.

(** Whatever a thread of a pool returns, its program can return. *)
Lemma reach_returns {S A} (c c' : config S A) i p a :
  reach c c' -> c.1 !! i = Some p -> c'.1 !! i = Some (Ret a) -> returns p a.
Proof.
  intros Hr. revert p. induction Hr as [[ts s]|c c1 c2 Hstep Hr IH]; intros p Hp Ha; [simpl in *; by simplify_eq|].
  destruct Hstep as [j ts X f k s s' x Hj Hx]. simpl in *. destruct (decide (j = i)) as [->|Hne].
  - simplify_eq. simpl. exists s, s', x. split; [done|]. apply IH; [|done]. apply list_lookup_insert_eq. by eapply lookup_lt_Some.
  - apply IH; [|done]. by rewrite list_lookup_insert_ne.
Qed.

(** ** The buffers *)

Abbreviation buffer := (list byte).

Definition totalLength (vectors : list buffer) : Z := foldl (fun total v => total + Z.of_nat (length v)) 0 vectors.

(** [while (count > 0 and left >= vectors->iov_len)], and the rest of the first buffer left. *)
Fixpoint advance (left : nat) (vectors : list buffer) : list buffer :=
  match vectors with
  | [] => []
  | v :: vectors' => if (length v <=? left)%nat then advance (left - length v) vectors' else drop left v :: vectors'
  end.

Section vectors.
Context {K E : Type} `{!Kernel K E} (cfg : nat -> RegConfig) (armError : nat -> Z).
Abbreviation rprog := (prog (world (Direction K))).

(** [writev], and [readv] on a reading side *)
Definition writev (fuel k : nat) (me : Waker) (vectors : list buffer) : rprog (ended IoResult) :=
  callWhenReady cfg armError fuel k me (totalLength vectors) false.

(** The result, and the bytes that the kernel has taken. *)
Fixpoint writevAll (fuel k : nat) (me : Waker) (sent : Z) (out : list byte) (vectors : list buffer) : rprog (ended (IoResult * list byte)) :=
  match fuel with
  | O => Starved
  | S fuel' =>
      match vectors with
      | [] => Ret (Returned (MkIoResult sent 0, out))
      | _ =>
          r <- writev fuel k me vectors;;
          match r with
          | Gone => Ret Gone
          | Returned chunk =>
              if negb (error chunk =? 0) then Ret (Returned (MkIoResult sent (error chunk), out))
              else
                let n := Z.to_nat (bytes chunk) in
                writevAll fuel' k me (sent + bytes chunk) (out ++ take n (mjoin vectors)) (advance n vectors)
          end
      end
  end.

(** ** Bounds of one call *)

Lemma returns_section {R X} k (f : X -> option Waker -> X * option Waker * R) r :
  returns (section k f) r -> exists x c, (f x c).2 = r.
Proof.
  unfold section. simpl. intros (s & s' & x & Hin & <-). destruct (sources s !! k) as [[d c]|]; [|by apply elem_of_nil in Hin].
  exists d, c. destruct (f d c) as [[x' c'] r]. by apply list_elem_of_singleton in Hin as [= _ ->].
Qed.

Lemma systemCall_bounds k asked n : 0 <= asked -> returns (systemCall (K := K) k asked) (Bytes n) -> 0 <= n <= asked.
Proof.
  intros Ha (x & c & Hr)%returns_section. destruct (call asked (descriptor x)) as [d' r] eqn:Ec. simpl in Hr. subst r.
  eapply (call_bytes asked (descriptor x) n); [by rewrite Ec|done].
Qed.

Lemma systemCall_errno k asked e : returns (systemCall (K := K) k asked) (Errno e) -> e <> 0.
Proof.
  intros (x & c & Hr)%returns_section. destruct (call asked (descriptor x)) as [d' r] eqn:Ec. simpl in Hr. subst r.
  eapply (call_errno asked (descriptor x) e). by rewrite Ec.
Qed.

(** An attempt that moved bytes moved no more than asked for. *)
Definition attempt_ok (asked : Z) (a : IoAttempt) : Prop := wouldBlock a = false -> a_error a = 0 -> 0 <= a_bytes a <= asked.

Lemma tryCall_bounds fuel k asked seen a : 0 <= asked -> returns (tryCall cfg fuel k asked seen) a -> attempt_ok asked a.
Proof.
  intros Ha. unfold tryCall. intros (skip & _ & H)%returns_bind. destruct skip; [by simpl in H; subst a|]. revert H.
  induction fuel as [|fuel IH]; [done|]. cbn [tryCall_loop]. intros (r & Hr & H)%returns_bind. destruct r as [n| | |e].
  - apply returns_bind in H as (_ & _ & H). simpl in H; subst a. intros _ _. simpl. by eapply systemCall_bounds.
  - by apply IH.
  - by simpl in H; subst a.
  - simpl in H; subst a. intros _ He. simpl in He. by apply systemCall_errno in Hr.
Qed.

Lemma callWhenReady_bounds fuel k me asked d r : 0 <= asked ->
  returns (callWhenReady cfg armError fuel k me asked d) (Returned r) -> error r = 0 -> 0 <= bytes r <= asked.
Proof.
  intros Ha. induction fuel as [|fuel IH]; [done|]. cbn [callWhenReady]. intros (seen & _ & H)%returns_bind. apply returns_bind in H as (a & Hat & H).
  apply tryCall_bounds in Hat; [|done]. destruct (wouldBlock a) eqn:Ew; cbn [negb] in H.
  - apply returns_bind in H as (en & _ & H). destruct en as [e|]; [|by simpl in H]. destruct (e =? 0) eqn:Ee; cbn [negb] in H; [by apply IH|]. simpl in H. injection H as <-. simpl. intros ->. done.
  - simpl in H. injection H as <-. intros He. by apply Hat.
Qed.

(** ** All of it, in order *)

Lemma advance_drop n vectors : mjoin (advance n vectors) = drop n (mjoin vectors).
Proof.
  revert n. induction vectors as [|v vectors IH]; intros n; [by destruct n|]. simpl. destruct (Nat.leb_spec (length v) n).
  - rewrite IH, drop_app_ge by done. done.
  - simpl. rewrite drop_app_le by lia. done.
Qed.

Lemma totalLength_join vectors : totalLength vectors = Z.of_nat (length (mjoin vectors)).
Proof.
  unfold totalLength. assert (H : forall a, foldl (fun total (v : buffer) => total + Z.of_nat (length v)) a vectors = a + Z.of_nat (length (mjoin vectors))); [|by rewrite H].
  induction vectors as [|v vectors IH]; intros a; simpl; [lia|]. rewrite IH, length_app. lia.
Qed.

Lemma writevAll_from fuel k me out vectors res out' :
  returns (writevAll fuel k me (Z.of_nat (length out)) out vectors) (Returned (res, out')) ->
  bytes res = Z.of_nat (length out') /\ exists sent, out' = out ++ sent /\ sent `prefix_of` mjoin vectors /\ (error res = 0 -> sent = mjoin vectors).
Proof.
  revert out vectors. induction fuel as [|fuel IH]; intros out vectors; [done|]. cbn [writevAll]. destruct vectors as [|v vectors].
  { intros [= <- <-]. split; [done|]. exists []. rewrite app_nil_r. splits; try done. }
  set (vs := v :: vectors). intros (r & Hr & H)%returns_bind. destruct r as [chunk|]; [|done]. destruct (Z.eqb_spec (error chunk) 0) as [He|He]; cbn [negb] in H.
  - assert (Hb : 0 <= bytes chunk <= totalLength vs). { eapply (callWhenReady_bounds (S fuel)); [|exact Hr|done]. rewrite totalLength_join. lia. }
    rewrite totalLength_join in Hb. set (n := Z.to_nat (bytes chunk)) in *. assert (Hlen : length (take n (mjoin vs)) = n) by (rewrite length_take; lia).
    replace (Z.of_nat (length out) + bytes chunk) with (Z.of_nat (length (out ++ take n (mjoin vs)))) in H by (rewrite length_app, Hlen; lia).
    destruct (IH _ _ H) as (Hres & sent & -> & Hpre & Hall). rewrite advance_drop in Hpre, Hall. split; [done|]. exists (take n (mjoin vs) ++ sent). splits.
    + by rewrite app_assoc.
    + rewrite <- (take_drop n (mjoin vs)) at 2. by apply prefix_app.
    + intros E0. rewrite (Hall E0). apply take_drop.
  - simpl in H. injection H as <- <-. split; [done|]. exists []. rewrite app_nil_r. splits; [done|apply prefix_nil|done].
Qed.
End vectors.

(** C31: Whatever [writevAll] returns, in whatever interleaving: the bytes that went out are a prefix of the concatenation of the
    buffers, in order and nothing twice, as many as the result says; and all of them if there is no error. *)
Theorem writevAll_sends {K E} `{!Kernel K E} cfg armError fuel k me vectors (c c' : config (world (Direction K)) _) i res out :
  reach c c' -> c.1 !! i = Some (writevAll cfg armError fuel k me 0 [] vectors) -> c'.1 !! i = Some (Ret (Returned (res, out))) ->
  bytes res = Z.of_nat (length out) /\ out `prefix_of` mjoin vectors /\ (error res = 0 -> out = mjoin vectors).
Proof.
  intros Hr Hc Hc'. pose proof (reach_returns _ _ _ _ _ Hr Hc Hc') as H. apply (writevAll_from cfg armError fuel k me [] vectors) in H as (Hb & sent & -> & Hp & Ha). done.
Qed.

(** Three buffers through a pipe with room for three bytes, and later for nine more. *)
Definition vec_example : list buffer := [[x01; x02]; []; [x03; x04; x05]].
Definition vec_pool : config (world (Direction stream)) (ended (IoResult * list byte)) :=
  ([writevAll reg_cfg (fun _ => 0) 9 1 (MkWaker 0 KTask) 0 [] vec_example;
    section 1 (fun x c => (set_descriptor (event (Some 9%positive) (descriptor x)) x, c, tt));;; pollOnce 0;;; Ret Gone],
   World ((fun x => (x, None)) <$> directions (fun _ => true) [MkStream 0 false false true false; MkStream 3 false false true false]) (fun _ => false) false (fun _ => []) false).
Definition vec_final := run_avail (replicate 12 (0, 0)%nat ++ round_robin 2 40) vec_pool.

Lemma writevAll_sends_witness : vec_final.1 !! 0%nat = Some (Ret (Returned (MkIoResult 5 0, [x01; x02; x03; x04; x05]))) /\ [x01; x02; x03; x04; x05] = mjoin vec_example.
Proof.
  assert (E : vec_final.1 !! 0%nat = Some (Ret (Returned (MkIoResult 5 0, [x01; x02; x03; x04; x05])))) by (vm_compute; reflexivity).
  split; [exact E|]. apply (writevAll_sends reg_cfg (fun _ => 0) 9 1 (MkWaker 0 KTask) vec_example vec_pool vec_final 0 (MkIoResult 5 0)); [|reflexivity|exact E|reflexivity].
  apply (run_avail_reach (replicate 12 (0, 0)%nat ++ round_robin 2 40)). unfold vec_final. exact eq_refl.
Defined.
