(* ===== verification/ExecIo.v ===== *)
(** * ExecIo: transfers that wait without a task

    exec/io.hpp ([io_operation] and its steps) over Registration.v: a transfer goes on
    where it stopped when the descriptor is reported, on whatever thread.  Waiting itself,
    the completion and stop requests are ExecWait.v's; here is what an operation
    does with the bytes between its waits.

    - [calls] is the history of the system calls: the address that was passed, how many
      bytes were asked for, and what came of it.
    - An operation's life after [start] is the list of what happens to it: its waiter
      is notified, or stop is requested; [marks] has the waiter's [cancelled] flag as
      each [watch] finds it. *)

From Stdlib Require Import ZArith Lia.
From stdpp Require Import base tactics list numbers option strings functions.
From S2P Require Import Prelude Conc WaitList Waiting Source Registration RegistrationPool Vectors.

Inductive io_completion := IoValue (n : Z) | IoError (e : Z) | IoStopped.

(** [read_step], [write_step]; [read_exactly_step] ([stopAtEof]) and [write_all_step];
    [accept_step] *)
Inductive io_step := TransferOnce | TransferAll (stopAtEof : bool) | AcceptOnce.

(** A call that was made: [tryRead(registration, seen, at, asked)] or [tryWrite]. *)
Record io_call := IoCall { at_address : Z; asked_for : Z; outcome : IoAttempt }.

(** [moved]: [received], [sent] *)
Record io_operation := IoOperation { moved : Z; seen : Z; blocked : bool; calls : list io_call }.

Definition set_seen s op := IoOperation (moved op) s (blocked op) (calls op).
Definition set_blocked b op := IoOperation (moved op) (seen op) b (calls op).
(** [received += attempt.bytes], [sent += attempt.bytes] *)
Definition add_moved n op := IoOperation (moved op + n) (seen op) (blocked op) (calls op).
Definition log_call (at_ asked : Z) (a : IoAttempt) op := IoOperation (moved op) (seen op) (blocked op) (calls op ++ [IoCall at_ asked a]).

Definition new_io : io_operation := IoOperation 0 0 false [].

Inductive io_event := Notified | StopRequest.

Section io.
Context {K E : Type} `{!Kernel K E} (cfg : nat -> RegConfig) (armError : nat -> Z).
Abbreviation rprog := (prog (world (Direction K))).
Abbreviation step_result := (io_operation * option io_completion)%type.

(** [io::tryRead], [io::tryWrite] for [asked] bytes at [at_] *)
Definition call_at (fuel k : nat) (at_ asked seen : Z) (op : io_operation) : rprog (io_operation * IoAttempt) :=
  a <- tryCall cfg fuel k asked seen;;
  Ret (log_call at_ asked a op, a).

(** [finish_transfer] *)
Definition finish_transfer (op : io_operation) (a : IoAttempt) : step_result :=
  if wouldBlock a then (op, None)
  else if negb (a_error a =? 0) then (op, Some (IoError (a_error a)))
  else (op, Some (IoValue (a_bytes a))).

(** [read_exactly_step::run], [write_all_step::run] *)
Fixpoint run_all (fuel k : nat) (stopAtEof : bool) (buffer length : Z) (op : io_operation) : rprog step_result :=
  match fuel with
  | O => Starved
  | S fuel' =>
      if moved op <? length then
        s <- eventsOf k;;
        let op := set_seen s op in
        r <- call_at fuel k (buffer + moved op) (length - moved op) s op;;
        let (op, a) := r in
        if wouldBlock a then Ret (op, None)
        else if negb (a_error a =? 0) then Ret (op, Some (IoError (a_error a)))
        else if stopAtEof && (a_bytes a =? 0) then Ret (op, Some (IoValue (moved op)))
        else run_all fuel' k stopAtEof buffer length (add_moved (a_bytes a) op)
      else Ret (op, Some (IoValue (moved op)))
  end.

Definition run_step (fuel k : nat) (st : io_step) (buffer length : Z) (op : io_operation) : rprog step_result :=
  match st with
  | TransferOnce =>
      s <- eventsOf k;;
      r <- call_at fuel k buffer length s (set_seen s op);;
      Ret (finish_transfer r.1 r.2)
  | TransferAll stopAtEof => run_all fuel k stopAtEof buffer length op
  | AcceptOnce =>
      s <- eventsOf k;;
      a <- tryAccept fuel k;;
      Ret (finish_transfer (set_seen s op) a)
  end.

(** [io_operation::try_now] *)
Definition io_try_now (fuel k : nat) (st : io_step) (buffer length : Z) (op : io_operation) : rprog step_result :=
  let error := addError (conf cfg k) in
  if negb (error =? 0) then Ret (op, Some (IoError error))
  else
    r <- run_step fuel k st buffer length op;;
    match r.2 with
    | Some _ => Ret r
    | None => Ret (set_blocked true r.1, None)
    end.

(** [io_operation::drive] *)
Fixpoint io_drive (fuel k : nat) (me : Waker) (st : io_step) (buffer length : Z) (marks : list bool) (op : io_operation) : rprog (step_result * list bool) :=
  match marks with
  | [] => Starved
  | m :: marks =>
      r <- (if blocked op then Ret (op, None) else run_step fuel k st buffer length op);;
      match r.2 with
      | Some _ => Ret (r, marks)
      | None =>
          let op := set_blocked false r.1 in
          w <- watch cfg armError k me m (seen op);;
          match w with
          | Ready => io_drive fuel k me st buffer length marks op
          | Enqueued => Ret ((op, None), marks)
          | Cancelled => Ret ((op, Some IoStopped), marks)
          end
      end
  end.

(** The operation, once it waits: a notification drives it on; a stop request takes the
    waiter back ([cancel_wait]), or leaves it marked. *)
Fixpoint io_life (fuel k : nat) (me : Waker) (st : io_step) (buffer length : Z) (marks : list bool) (l : list io_event) (op : io_operation) : rprog step_result :=
  match l with
  | [] => Ret (op, None)
  | Notified :: l =>
      r <- io_drive fuel k me st buffer length marks op;;
      match r.1.2 with
      | Some _ => Ret r.1
      | None => io_life fuel k me st buffer length r.2 l r.1.1
      end
  | StopRequest :: l =>
      b <- unwatch k me;;
      if b : bool then Ret (op, Some IoStopped) else io_life fuel k me st buffer length marks l op
  end.

(** [start] of [waiting_operation]: [try_now], else [drive], which is the first turn of its life. *)
Definition io_start (fuel k : nat) (me : Waker) (st : io_step) (buffer length : Z) (marks : list bool) (l : list io_event) : rprog step_result :=
  r <- io_try_now fuel k st buffer length new_io;;
  match r.2 with
  | Some _ => Ret r
  | None => io_life fuel k me st buffer length marks (Notified :: l) r.1
  end.

(** ** What was moved *)

(** The bytes a call moved. *)
Definition moved_by (a : IoAttempt) : Z := if wouldBlock a || negb (a_error a =? 0) then 0 else a_bytes a.

(** One call after the other, the bytes they moved from [a] to [b], none asking for
    more than what is left up to [e]. *)
Fixpoint consecutive (e a : Z) (l : list io_call) (b : Z) : Prop :=
  match l with
  | [] => a = b
  | c :: l => at_address c = a /\ 0 <= moved_by (outcome c) <= asked_for c /\ a + asked_for c <= e /\ consecutive e (a + moved_by (outcome c)) l b
  end.

Lemma consecutive_snoc e a l b asked o : consecutive e a l b -> 0 <= moved_by o <= asked -> b + asked <= e -> consecutive e a (l ++ [IoCall b asked o]) (b + moved_by o).
Proof. revert a. induction l as [|c l IH]; intros a; simpl; [by intros -> ? ?|]. intros (-> & ? & ? & H) ? ?. splits; try done; try lia. by apply IH. Qed.

(** The next byte of the buffer that an operation which has not completed will use. *)
Definition position (st : io_step) (buffer : Z) (op : io_operation) : Z := match st with TransferAll _ => buffer + moved op | _ => buffer end.

(** An operation that has not completed. *)
Definition pending (st : io_step) (buffer length : Z) (op : io_operation) : Prop :=
  consecutive (buffer + length) buffer (calls op) (position st buffer op) /\ 0 <= moved op <= length.

(** What a completion says: a value is the number of bytes that the calls moved, all of them
    for [write_all]; [read_exactly] may have fewer when its last call found the end of
    the stream (no bytes, no error, no reason to wait). *)
Definition completed (st : io_step) (buffer length : Z) (op : io_operation) (c : io_completion) : Prop :=
  match c, st with
  | IoValue n, AcceptOnce => n = 1 /\ calls op = []
  | IoValue n, TransferOnce => 0 <= n <= length /\ consecutive (buffer + length) buffer (calls op) (buffer + n)
  | IoValue n, TransferAll stopAtEof =>
      0 <= n <= length /\ consecutive (buffer + length) buffer (calls op) (buffer + n) /\
      (n < length -> stopAtEof = true /\ list.last (calls op) = Some (IoCall (buffer + n) (length - n) (MkIoAttempt 0 0 false)))
  | IoError e, _ => e <> 0 /\ consecutive (buffer + length) buffer (calls op) (position st buffer op)
  | IoStopped, _ => consecutive (buffer + length) buffer (calls op) (position st buffer op)
  end.

Definition result_ok (st : io_step) (buffer length : Z) (r : step_result) : Prop :=
  (st = AcceptOnce -> calls r.1 = []) /\
  match r.2 with Some c => completed st buffer length r.1 c | None => pending st buffer length r.1 end.

Lemma attempt_shape (a : IoAttempt) : wouldBlock a = false -> a_error a = 0 -> a = MkIoAttempt (a_bytes a) 0 false.
Proof. destruct a; simpl. by intros -> ->. Qed.

Lemma moved_by_ok asked (a : IoAttempt) : 0 <= asked -> attempt_ok asked a -> 0 <= moved_by a <= asked.
Proof. intros Ha Hok. unfold moved_by. destruct (wouldBlock a) eqn:Ew; [simpl; lia|]. destruct (Z.eqb_spec (a_error a) 0) as [Ee|]; simpl; [by apply Hok|lia]. Qed.

Lemma call_at_ok fuel k at_ asked s op r : 0 <= asked -> returns (call_at fuel k at_ asked s op) r -> r.1 = log_call at_ asked r.2 op /\ attempt_ok asked r.2.
Proof. intros Ha (a & Hr & H)%returns_bind. simpl in H. subst r. split; [done|]. by apply tryCall_bounds in Hr. Qed.

Lemma run_all_ok fuel k e buffer length op r : pending (TransferAll e) buffer length op -> returns (run_all fuel k e buffer length op) r -> result_ok (TransferAll e) buffer length r.
Proof.
  revert op. induction fuel as [|fuel IH]; intros op [Hop Hm]; [done|]. cbn [run_all]. destruct (Z.ltb_spec (moved op) length) as [Hlt|Hge].
  - intros (s & _ & H)%returns_bind. apply returns_bind in H as ([op1 a] & Ha & H). change (moved (set_seen s op)) with (moved op) in *.
    apply call_at_ok in Ha as [Ho Hb]; [|lia]. cbn [fst snd] in *. subst op1. pose proof (moved_by_ok (length - moved op) a ltac:(lia) Hb) as Hmb.
    assert (Hc : consecutive (buffer + length) buffer (calls op ++ [IoCall (buffer + moved op) (length - moved op) a]) (buffer + moved op + moved_by a)) by (apply consecutive_snoc; [exact Hop|done|lia]).
    unfold moved_by in Hc, Hmb. destruct (wouldBlock a) eqn:Ew; [simpl in H, Hc; subst r; split; [done|]; rewrite Z.add_0_r in Hc; split; [exact Hc|exact Hm]|].
    destruct (Z.eqb_spec (a_error a) 0) as [He|He]; cbn [negb orb] in *.
    + destruct (e && (a_bytes a =? 0)) eqn:Ee.
      * simpl in H. subst r. apply andb_true_iff in Ee as [-> Ez%Z.eqb_eq]. split; [done|]. rewrite Ez, Z.add_0_r in Hc. split; [simpl; lia|]. split; [exact Hc|]. intros _. split; [done|].
        simpl. rewrite last_snoc. by rewrite (attempt_shape a Ew He), Ez.
      * apply (IH (add_moved (a_bytes a) (log_call (buffer + moved op) (length - moved op) a (set_seen s op)))); [|done]. split; [|simpl; lia]. simpl. by rewrite Z.add_assoc.
    + simpl in H. subst r. split; [done|]. rewrite Z.add_0_r in Hc. by split.
  - simpl. intros <-. split; [done|]. split; [simpl; lia|]. split; [exact Hop|]. intros Hl. lia.
Qed.

Lemma tryAccept_one fuel k (a : IoAttempt) : returns (tryAccept (K := K) fuel k) a -> wouldBlock a = false -> a_error a = 0 -> a_bytes a = 1.
Proof.
  induction fuel as [|fuel IH]; [done|]. cbn [tryAccept]. intros (r & Hr & H)%returns_bind. destruct r as [n| | |e]; [by simpl in H; subst a|by apply IH|by simpl in H; subst a|].
  simpl in H. subst a. simpl. intros _ ->. by apply systemCall_errno in Hr.
Qed.

(** What an operation that waits has done. *)
Definition waiting_ok (st : io_step) (buffer length : Z) (op : io_operation) : Prop := (st = AcceptOnce -> calls op = []) /\ pending st buffer length op.

Lemma run_step_ok fuel k st buffer length op r : 0 <= length -> waiting_ok st buffer length op -> returns (run_step fuel k st buffer length op) r -> result_ok st buffer length r.
Proof.
  intros Hlen [Hac Hop] H. destruct st as [|e|]; cbn [run_step] in H; [|by eapply run_all_ok|].
  - apply returns_bind in H as (s & _ & H). apply returns_bind in H as ([op1 a] & Ha & H). simpl in H. subst r. apply call_at_ok in Ha as [Ho Hb]; [|done]. cbn [fst snd] in *. subst op1.
    destruct Hop as [Hop Hm]. simpl in Hop. pose proof (moved_by_ok length a Hlen Hb) as Hmb.
    assert (Hc : consecutive (buffer + length) buffer (calls op ++ [IoCall buffer length a]) (buffer + moved_by a)) by (apply consecutive_snoc; [exact Hop|done|lia]).
    unfold moved_by in Hc, Hmb. unfold finish_transfer. destruct (wouldBlock a); [simpl in Hc; split; [done|]; rewrite Z.add_0_r in Hc; split; [exact Hc|exact Hm]|].
    destruct (Z.eqb_spec (a_error a) 0) as [He|He]; cbn [negb orb] in *; (split; [done|]); [by split|]. rewrite Z.add_0_r in Hc. by split.
  - apply returns_bind in H as (s & _ & H). apply returns_bind in H as (a & Ha & H). simpl in H. subst r. pose proof (tryAccept_one _ _ _ Ha) as H1. unfold finish_transfer.
    destruct (wouldBlock a); [by split|]. destruct (Z.eqb_spec (a_error a) 0) as [He|He]; cbn [negb]; (split; [done|]); [split; [by apply H1|by apply Hac]|]. split; [done|]. apply Hop.
Qed.

Lemma result_pending st buffer length r b : result_ok st buffer length r -> r.2 = None -> waiting_ok st buffer length (set_blocked b r.1).
Proof. intros [H1 H2] Hn. rewrite Hn in H2. split; [exact H1|]. by destruct st. Qed.

Lemma pending_result st buffer length op : waiting_ok st buffer length op -> result_ok st buffer length (op, None) /\ result_ok st buffer length (op, Some IoStopped).
Proof. intros [H1 [H2 H3]]. split; (split; [done|]); [by split|]. by destruct st. Qed.

Lemma io_drive_ok fuel k me st buffer length marks op r : 0 <= length -> waiting_ok st buffer length op ->
  returns (io_drive fuel k me st buffer length marks op) r -> result_ok st buffer length r.1.
Proof.
  intros Hl. revert op. induction marks as [|m marks IH]; intros op Hop; [done|]. cbn [io_drive]. intros (x & Hx & H)%returns_bind.
  assert (Hres : result_ok st buffer length x). { destruct (blocked op); [|by eapply run_step_ok]. simpl in Hx. subst x. by apply pending_result. }
  destruct x as [op1 [c|]]; cbn [fst snd] in *; [by simpl in H; subst r|]. apply returns_bind in H as (w & _ & H).
  pose proof (result_pending st buffer length (op1, None) false Hres eq_refl) as Hp. destruct w.
  - by eapply IH.
  - simpl in H. subst r. by apply (pending_result st buffer length).
  - simpl in H. subst r. by apply (pending_result st buffer length).
Qed.

Lemma io_life_ok fuel k me st buffer length marks l op r : 0 <= length -> waiting_ok st buffer length op ->
  returns (io_life fuel k me st buffer length marks l op) r -> result_ok st buffer length r.
Proof.
  intros Hl. revert marks op. induction l as [|o l IH]; intros marks op Hop; cbn [io_life]; [intros <-; by apply pending_result|]. destruct o.
  - intros (x & Hx & H)%returns_bind. apply io_drive_ok in Hx; [|done..]. destruct x as [[op1 [c|]] marks']; cbn [fst snd] in *; [by simpl in H; subst r|].
    eapply IH; [|exact H]. pose proof (result_pending st buffer length (op1, None) (blocked op1) Hx eq_refl) as Hp. by destruct op1.
  - intros (b & _ & H)%returns_bind. destruct b; [simpl in H; subst r; by apply pending_result|by eapply IH].
Qed.

Lemma io_start_ok fuel k me st buffer length marks l r : 0 <= length -> returns (io_start fuel k me st buffer length marks l) r -> result_ok st buffer length r.
Proof.
  intros Hlen. assert (Hnew : waiting_ok st buffer length new_io) by (split; [done|]; split; [destruct st; simpl; lia|simpl; lia]). unfold io_start, io_try_now. intros (x & Hx & H)%returns_bind.
  destruct (Z.eqb_spec (addError (conf cfg k)) 0) as [He|He]; cbn [negb] in Hx.
  - apply returns_bind in Hx as (y & Hy & Hx). apply run_step_ok in Hy; [|done..]. destruct y as [op1 [c|]]; cbn [fst snd] in *.
    + simpl in Hx. subst x. simpl in H. by subst r.
    + simpl in Hx. subst x. cbn [fst snd] in H. eapply io_life_ok; [done| |exact H]. exact (result_pending st buffer length (op1, None) true Hy eq_refl).
  - simpl in Hx. subst x. simpl in H. subst r. destruct Hnew as [? [? ?]]. split; [done|]. by split.
Qed.
End io.

(** C33: Whatever happens to an asynchronous transfer, in whatever interleaving and however
    often it waits, is notified or asked to stop: the addresses and lengths that it passes
    to its system calls follow one another: each call starts where the bytes moved so far
    end and asks for no more than what is left of the buffer; a completion with
    a value says how many bytes the calls have moved; [async_write_all] has then sent all of
    them, and [async_read_exactly] has all of them, or its last call, for the rest, met the end of the
    stream; an accept brings one connection; an error is an error. *)
Theorem async_transfer_contiguous {K E} `{!Kernel K E} cfg armError fuel k me st buffer length marks l (c c' : config (world (Direction K)) _) i op r :
  0 <= length -> reach c c' -> c.1 !! i = Some (io_start cfg armError fuel k me st buffer length marks l) -> c'.1 !! i = Some (Ret (op, r)) ->
  match r with
  | Some v => completed st buffer length op v
  | None => pending st buffer length op
  end.
Proof. intros Hlen Hr Hc Hc'. pose proof (reach_returns _ _ _ _ _ Hr Hc Hc') as H. by apply io_start_ok in H as [_ H]. Qed.

(** Five bytes at address 1000 through a pipe with room for three, and later for nine more. *)
Definition io_pool : config (world (Direction stream)) (io_operation * option io_completion) :=
  ([io_start reg_cfg (fun _ => 0) 9 1 (MkWaker 0 KTask) (TransferAll false) 1000 5 [false; false; false] [Notified; StopRequest];
    section 1 (fun x c => (set_descriptor (event (Some 9%positive) (descriptor x)) x, c, tt));;; pollOnce 0;;; Ret (new_io, None)],
   World ((fun x => (x, None)) <$> directions (fun _ => true) [MkStream 0 false false true false; MkStream 3 false false true false]) (fun _ => false) false (fun _ => []) false).
Definition io_final := run_avail (replicate 9 (0, 0)%nat ++ replicate 9 (1, 0)%nat ++ round_robin 2 40) io_pool.
Definition io_calls : list io_call :=
  [IoCall 1000 5 (MkIoAttempt 3 0 false); IoCall 1003 2 (MkIoAttempt 0 0 true); IoCall 1003 2 (MkIoAttempt 0 0 true); IoCall 1003 2 (MkIoAttempt 2 0 false)].

Lemma async_transfer_contiguous_witness :
  io_final.1 !! 0%nat = Some (Ret (IoOperation 5 1 false io_calls, Some (IoValue 5))) /\ consecutive 1005 1000 io_calls 1005.
Proof.
  assert (E : io_final.1 !! 0%nat = Some (Ret (IoOperation 5 1 false io_calls, Some (IoValue 5)))) by (vm_compute; reflexivity).
  split; [exact E|].
  assert (H : completed (TransferAll false) 1000 5 (IoOperation 5 1 false io_calls) (IoValue 5)).
  { apply (async_transfer_contiguous reg_cfg (fun _ => 0) 9 1 (MkWaker 0 KTask) (TransferAll false) 1000 5 [false; false; false] [Notified; StopRequest] io_pool io_final 0
      (IoOperation 5 1 false io_calls) (Some (IoValue 5))); [lia| |reflexivity|exact E].
    apply (run_avail_reach (replicate 9 (0, 0)%nat ++ replicate 9 (1, 0)%nat ++ round_robin 2 40)). unfold io_final. exact eq_refl. }
  destruct H as (_ & H & _). exact H.
Defined.
